(* ===== verification/_CoqProject ===== *)
-Q . S2P
Prelude.v
Lex.v
BTree.v
VariableSet.v
OwnerCover.v
ByteTable.v
KeySchema.v
PatchHash.v
Branch.v
Head.v
Algebra.v
Overlap.v
Canonical.v
XorDigest.v
Patch.v
CheckedInsert.v
Examples.v
Queries.v
PatchQueries.v
Machine.v
Iterators.v
Trible.v
TribleSet.v
SimpleArchive.v
Unarchive.v
TribleExamples.v
Liveness.v
Query.v
Constraints.v
Intersection.v
Union.v
ConstraintExamples.v
TribleIndex.v
TriblePattern.v
TriblePatternSpec.v
PatternExamples.v
QueryExamples.v
Engine.v
EngineRows.v
EnginePlan.v
EngineSpec.v
EngineSteps.v
EngineSearch.v
QueryJoin.v
EngineExamples.v
InlineEncodings.v
Membership.v
MembershipSpec.v
MembershipExamples.v
ROrd256.v
ROrd256Spec.v
ROrd256Read.v
EncodingExamples.v
Register.v
LwwRegister.v
LwwRegisterSpec.v
LwwIndex.v
LwwIndexSpec.v
LwwConstraintSpec.v
Filters.v
StatedOrder.v
StatedOrderSpec.v
RegisterOrders.v
LwwExamples.v
PathExpr.v
PathLanguage.v
PathCompile.v
PathCanonical.v
PathSummary.v
PathBlob.v
PathIndex.v
PathScc.v
PathOrder.v
PathRelation.v
PathRows.v
PathIndexSpec.v
PathSpec.v
PathConstraint.v
PathJoin.v
PathExamples.v
