(* ===== verification/Prelude.v ===== *)
(** * TribleSpace: a verification library

    TribleSpace stores facts as tribles: 64 bytes made of a 16-byte entity, a
    16-byte attribute and a 32-byte value.  A trible set keeps them in six
    PATCHes, persistent compressed byte tries with fingerprints, one per order
    of the three parts; a query reads the six orders, and an archive is the
    sorted rows of one.  Path queries walk the graph tribles form, by regular
    expressions.  This library translates those layers of [triblespace-core] and
    [triblespace-paths] into Gallina and proves them correct.

    ** The layers and their files

    Every file is named after the part it models and requires only the files
    before it.  Paths are below [src/triblespace-core/src/] unless they name
    another crate.

    - Shared: [Prelude] (machine integers, the panic monad [res], sums over
      lists, the rewrite database [bits]) and [Lex] (order of byte arrays).
    - [VariableSet]: the 128-bit variable set, [query/variableset.rs].
    - [OwnerCover]: receipts of archive owners, [patch.rs] ([OwnerCover]).
    - [ByteTable]: cuckoo tables of children and byte sets,
      [patch/bytetable.rs].
    - [KeySchema]: key layouts, segmentations and tree orders, [patch.rs],
      [patch/leaf.rs] and the six orders of [trible.rs].
    - [PatchHash], [XorDigest]: the digest policies, [patch.rs].
    - [Branch], [Head], [Algebra], [Overlap], [Canonical]: trie nodes
      ([patch/branch.rs], [patch/leaf.rs]), descents with one key, the
      lockstep set operations and the meaning of cached summaries ([patch.rs]).
    - [Patch]: the public type [PATCH], [patch.rs] and [patch/entry.rs];
      [CheckedInsert]: insertion with callbacks, [patch/checked_insert.rs].
    - [Queries], [PatchQueries]: prefix, range and counting queries.
    - [Machine], [Iterators]: loops and the iterators of [patch.rs].
    - [Trible], [TribleSet]: ids, tribles and the six indexes, [id.rs],
      [trible.rs], [trible/tribleset.rs].
    - [SimpleArchive], [Unarchive]: validation, encoding and decoding of
      archives, [blob/encodings/simplearchive.rs].
    - [Liveness]: packed liveness words, the tagged proposal buffer and the
      regions confirmers kill in, [query/liveness.rs].
    - [Query]: bindings, frontiers, the binding store and the trait
      [Constraint] with the laws its implementations obey ([ConstraintOk]),
      [query.rs] and [query/ordinal.rs].
    - [Constraints], [Intersection], [Union]: constants, equality, conjunction
      and disjunction, [query/constantconstraint.rs] and its siblings.
    - [TribleIndex], [TriblePattern], [TriblePatternSpec]: what the prefix
      queries of the six indexes answer, the triple pattern over a trible set
      and its proof, [trible/tribleset/triblesetconstraint.rs].
    - [Engine]: the search of a query ([Query]), its levels and frontiers, and
      its splitting for parallel execution, [query.rs].  [EngineRows],
      [EnginePlan], [EngineSpec], [EngineSteps], [EngineSearch] prove it: rows
      of a matrix, the partition of a frontier, the invariant, its steps, and
      what a query yields.
    - [QueryJoin]: the engine over a conjunction of triple patterns.
    - [Membership], [MembershipSpec]: constraints that restrict a variable to a
      collection in memory, the keys of a PATCH or a range,
      [query/hashsetconstraint.rs] and its siblings, and the range constraints
      of [trible/tribleset/].
    - [InlineEncodings]: identifiers as values, [inline/encodings/genid.rs].
      [ROrd256], [ROrd256Spec], [ROrd256Read]: rationals whose bytes sort in
      numeric order, [inline/encodings/rord256.rs]: the model, the writer and
      its order, the reader and what it accepts.
    - [BTree]: ordered sets and maps as ascending lists, and the laws of the
      comparisons that keep them so ([CmpOk]).
    - [Register]: the interface of an order over the states of a register,
      resolution, and [Maximal], the constraint that keeps what an order leaves
      standing; [StatedOrder], [StatedOrderSpec], [RegisterOrders]: the two
      orders that ask a trible set by running queries, what those queries
      answer, and what the orders decide, [query/register.rs].  [Filters]: the
      conjunction of patterns with constraints that only confirm.
    - [LwwRegister], [LwwRegisterSpec]: elements of the maintained
      last-write-wins register, their bytes, derivation and join; [LwwIndex],
      [LwwIndexSpec], [LwwConstraintSpec]: indexes attached to them, the queries
      over an index and the constraint, [collection/lww_register.rs].
    - Path queries, [triblespace-paths/src/].  [PathExpr]: expressions and the
      position automata they compile to, [expr.rs] and [automaton.rs];
      [PathLanguage], [PathCompile] prove the automaton accepts the words of the
      expression, [PathCanonical] the laws of the builders and of inversion.
      [PathSummary]: the arcs of the product of a graph and an automaton,
      [summary.rs].  [PathIndex]: the closure of a summary, [index.rs], proved
      part by part: [PathScc] (strongly connected components), [PathOrder]
      (condensation and topological order), [PathRelation] (rows of bits and
      the relation they hold), [PathRows] (rows of ordinals and their
      transpose), [PathIndexSpec] (the index), [PathSpec] (what it answers).
      [PathConstraint]: the constraint over an index, [constraint.rs];
      [PathJoin]: the engine over patterns and paths.
      [PathBlob]: stored automata and summaries, their decoders, audits and
      join, [persistence.rs].
    - [Examples], [QueryExamples], [TribleExamples], [ConstraintExamples],
      [PatternExamples], [EngineExamples], [MembershipExamples],
      [EncodingExamples], [LwwExamples], [PathExamples]: concrete instances at
      which the properties are applied.

    ** How state and operations correspond

    A function of the source is the definition of the same name; a record has
    the source's fields.  [&mut self] is state passing, a [Vec] a list, a const
    generic the length of a list or an argument.  A function that can panic or
    whose recursion is not structural returns [res] (an option): [None] is a
    panic or exhausted fuel, and every theorem about such a function states
    that the result is [Some].  An error the source returns is a value of a sum
    or error type, never [None].  A callback that is only called is the list of
    its calls; one that decides is an argument.

    A [Head] is a tagged pointer in the source and here the node it points to.
    What pointers add is kept where code observes it: the representative
    pointer of a branch ([kptr]), whose address the archive paths compare, and
    questions of sharing ([Arc::ptr_eq], uniqueness of a reference), which are
    arguments of the operation.  The theorems hold for every answer that can
    arise.

    ** Interfaces

    Components meet at type classes.  [KeySchema] and [KeySchemaOk] state what
    a key layout is and which laws it has; [PatchHash] and [PatchHashOk] what a
    digest policy computes and what incremental edits need; [ByteViews] and
    [Rayon] what the archive code relies on in third-party code;
    [InlineCodec] and [InlineCodecOk] how elements of a collection are written
    as values; [RegisterOrder] which states of a register an order passes over;
    [RowViews] and [Itertools] the views and the merging a register index relies
    on.  The trie is
    proved against the classes, and the six orders, both policies and reference
    instances discharge them.

    Between layers the contract is a refinement: a well-formed trie ([wf]) has
    its list of keys, a PATCH its finite map ([to_map]), a trible set its set
    of rows ([rows]), and a client's theorem uses these only.

    ** What the theorems show

    - Invariants: every operation on a well-formed byte table, trie, PATCH or
      trible set gives a well-formed one; a trible set's six indexes always
      agree ([tribleset_invariant]).
    - Refinement: insertion, replacement, removal, lookup, union, intersection,
      difference and comparison are the operations on maps and sets.
    - Canonicity: digest, leaf count and segment count of a trie are functions
      of its key set; the digest decides equality of two operands whose
      digests do not collide.
    - Queries and iterators: each distinct infix, prefix, key or entry is
      delivered once, in the stated order, with exact counts and size hints;
      the optimised variants equal the plain enumeration.
    - Errors: checked insertion and archive validation report the failure the
      code's order of checks dictates and leave the state as it was; the
      parallel validator agrees with the serial one for every schedule.
    - Round trips: key orders, tribles and their bytes, sets and archives.
    - Queries: the packed buffers are lists of tagged candidates; each
      constraint meets the interface [ConstraintOk], and the combinators meet it
      whenever their children do, so conjunctions and disjunctions of any depth
      propose and confirm soundly and lose no solution.
      The triple pattern meets the interface for the rows of its set
      ([pattern_protocol]).
      The search is proved against the interface alone: its state stands for
      roots still to expand, every step refines them and descends a
      lexicographic measure, so a query yields each solution once and ends
      ([search_complete]), at any frontier width, in any division of the work
      ([split_bag]), and after an error of a predicate where it stopped.
      [join_complete] puts engine, conjunction, pattern and trible set together.
      Collections meet the interface too ([membership_protocol]), but do not
      refute, so disjunctions of them leak ([union_leak]); the range
      constraints of a trible set propose from its domain and confirm by the
      range alone ([range_disagrees]).  A union of an equality and another
      constraint loses the solutions of the equality ([union_misses]).
      A constraint that only confirms is safe beside a pattern that gives its
      variable one position, since the pattern's estimate is the smaller
      ([filtered_join_complete]).
    - Encodings: ordered rationals are written as bit codes of a continued
      fraction.  Writer and reader are lists of bits; Euclid's algorithm gives
      the terms, continuants the value; so the bytes sort as the numbers, and
      what is accepted is the one encoding of a reduced fraction.
    - Registers: a maintained element has one form and its decoder one verdict;
      deriving takes unions of archives to joins of elements, so it does not
      matter how the facts of a state are divided; a query over an index is the
      greatest [(key, state)] of each register or the offence of the least
      state.  The live order runs the engine, and the maintained one equals it
      ([lww_order_is_stated]): archives, elements, index, patterns, conjunction,
      search and trible set in one statement.
    - Paths: an index is followed from the regular expression to the answer.
      The automaton of an expression accepts its words ([path_compile]); an arc
      of the summary is an edge and a transition, so a walk along arcs is a path
      of the graph that spells a word; Kosaraju's components, a topological
      order of the condensation and a union of rows of bits per successor close
      the arcs; the rows become ordinals, with the identity of a nullable
      automaton, and their transpose.  Each loop is a fold whose invariant is a
      lemma, so no index is out of range and no fuel runs out: visits take a
      round per edge and one per node, fills a round per node, Kahn's loop one
      per component.  What comes out is exact ([path_index_correct]), does not
      depend on how the edges were divided ([path_merge]), and is a constraint
      like any other ([path_constraint_protocol], [path_query_complete]).
      Stored automata and summaries have one form each, the audit accepts exactly
      the encodings, and joining stored summaries stores the summary of all edges
      ([automaton_blob_canonical], [summary_blob_canonical], [summary_blob_join]).

    Code that trusts fingerprints is right only where they do not collide.  The
    theorems of the set algebra ask exactly for that: no digest cached in a
    subtree of the one operand is cached in the other for a different key set
    ([distinguishes], [no_collision], [ts_no_collision]).  It is a decidable
    condition on the two tries at hand and says nothing of other tries; a
    hypothesis about all key sets would be false, since digests of the XOR
    policy are 128 bits wide ([u128], [xor_digest]).  The examples decide it for
    FNV-1a digests, among others on operands of more than 128 keys.

    ** Fuel

    A descent of the trie goes to larger end depths, so [S KEY_LEN] calls are
    enough and the public operations pass exactly that.  A byte table doubles
    at most seven times before every byte has a slot of its own, so eight
    rounds of [install_loop] are enough.  Loops over chunks take the length of
    their input.  The loops of iterators run on any fuel from some bound on:
    [yields] states that such a bound exists and that more fuel changes
    nothing.  A chunk of the search is drawn with a round more than the buffer
    has candidates.  A term of a continued fraction takes at least one of 256
    bits, so 258 rounds of its loops are enough.  The index of a candidate and the ordinal of a row are
    stored in 32 bits; [query_ready] asks that the levels of a query stay below
    that, which [join_ready] derives from the frontier width and the size of the
    sets.

    ** Not modelled

    Allocation, reference counting and pointer tagging are represented by
    values.  The parallel variants of the set operations fork the same
    recursions and are represented by the sequential ones.  Merkle-node views
    of a PATCH and its bulk builders are still to do.  Outside the core store:
    the other inline encodings, succinct archives, id generation and the other
    collections are left; of the register collection its descriptors are, since
    macros make their ids;
    blob stores, repositories, networking, the command line tool and
    importers are mostly I/O; capabilities rest on Ed25519; search and GPU
    indexes compute with floating point; the macros generate code.  The manifest lists
    them part by part. *)

From stdpp Require Export base tactics numbers option list list_numbers sorting gmap.

(** ** Machine integers

    Unsigned machine integers are binary naturals ([N]).  The width is written
    out by the operations that can leave the range: [wnot w] is Rust's [!] at
    width [w], [wshl w] is [<<] at width [w] as a release build performs it (the
    shift amount is taken modulo the width). *)

Declare Scope word_scope.
Delimit Scope word_scope with word.

Definition wnot (w x : N) : N := N.lxor (N.land x (N.ones w)) (N.ones w).
Definition wshl (w x i : N) : N := N.land (N.shiftl x (i mod w)) (N.ones w).
#[global] Arguments wnot : simpl never.
#[global] Arguments wshl : simpl never.

(** [u128::count_ones], [trailing_zeros] and [leading_zeros]. *)
Definition count_ones (x : N) : nat :=
  length (filter (λ i, N.testbit x (N.of_nat i) = true) (seq 0 128)).
Fixpoint trailing_zeros_pos (p : positive) : N :=
  match p with xO p => (1 + trailing_zeros_pos p)%N | _ => 0%N end.
Definition trailing_zeros (x : N) : N :=
  match x with 0%N => 128%N | Npos p => trailing_zeros_pos p end.
Definition leading_zeros (x : N) : N :=
  match x with 0%N => 128%N | _ => (127 - N.log2 x)%N end.

(** [to_le_bytes] of an integer of [n] bytes. *)
Fixpoint le_bytes (n : nat) (x : N) : list N :=
  match n with
  | O => []
  | S n => (x mod 256)%N :: le_bytes n (x / 256)%N
  end.

(** ** Panics and fuel

    A Rust function that can panic (an index out of range, [expect],
    [unreachable!], a failed [assert!]) or whose recursion is not structural is
    translated to a function into [res A].  [None] stands for a panic or for
    exhausted fuel; every theorem about such a function shows that [Some] is
    returned. *)

Abbreviation res := option (only parsing).

Definition massert (b : bool) : res unit := if b then Some tt else None.

(** [e?] where errors are the left of a sum. *)
Notation "x ←? e ; k" := (match e with inl err => inl err | inr x => k end) (at level 20, e at level 100, k at level 200, only parsing).
Notation "' x ←? e ; k" := (match e with inl err => inl err | inr v => match v with x => k end end)
  (at level 20, x pattern, e at level 100, k at level 200, only parsing).

Fixpoint foldM {A B} (f : B → A → res B) (b : B) (l : list A) : res B :=
  match l with
  | [] => Some b
  | x :: l => b' ← f b x; foldM f b' l
  end.

(** Assignment [arr[i] = x]: out of range is a panic. *)
Definition arr_set {A} (l : list A) (i : nat) (x : A) : res (list A) :=
  if (i <? length l)%nat then Some (<[i := x]> l) else None.

(** ** Tactics *)

(** Splits conjunctions and existentials of the context. *)
Ltac split_hyps :=
  repeat match goal with
  | H : _ ∧ _ |- _ => destruct H
  | H : ∃ _, _ |- _ => destruct H
  end.

(** Reads boolean comparisons off the context. *)
Ltac bool_hyps :=
  repeat match goal with
  | H : (_ =? _)%N = true |- _ => apply N.eqb_eq in H
  | H : (_ =? _)%N = false |- _ => apply N.eqb_neq in H
  | H : (_ <? _)%N = true |- _ => apply N.ltb_lt in H
  | H : (_ <? _)%N = false |- _ => apply N.ltb_ge in H
  | H : (_ <=? _)%N = true |- _ => apply N.leb_le in H
  | H : (_ <=? _)%N = false |- _ => apply N.leb_gt in H
  | H : (_ =? _)%nat = true |- _ => apply Nat.eqb_eq in H
  | H : (_ =? _)%nat = false |- _ => apply Nat.eqb_neq in H
  | H : (_ <? _)%nat = true |- _ => apply Nat.ltb_lt in H
  | H : (_ <? _)%nat = false |- _ => apply Nat.ltb_ge in H
  | H : (_ <=? _)%nat = true |- _ => apply Nat.leb_le in H
  | H : (_ <=? _)%nat = false |- _ => apply Nat.leb_gt in H
  | H : (_ && _) = true |- _ => apply andb_true_iff in H as [? ?]
  | H : (_ || _) = false |- _ => apply orb_false_iff in H as [? ?]
  | H : negb _ = true |- _ => apply negb_true_iff in H
  | H : negb _ = false |- _ => apply negb_false_iff in H
  end.

(** Proves an equality of words bit by bit, up to [lia] on the bit index. *)
Create Rewrite HintDb bits.
#[export] Hint Rewrite N.land_spec N.lor_spec N.lxor_spec N.ldiff_spec
  N.bits_0 N.pow2_bits_eqb : bits.

(** ** Bits of words *)

Lemma testbit_ones w i : N.testbit (N.ones w) i = (i <? w)%N.
Proof.
  destruct (N.ltb_spec i w); [by apply N.ones_spec_low|by apply N.ones_spec_high].
Qed.

Lemma testbit_wnot w x i :
  N.testbit (wnot w x) i = ((i <? w)%N && negb (N.testbit x i)).
Proof.
  unfold wnot. autorewrite with bits. rewrite testbit_ones.
  destruct (N.ltb_spec i w), (N.testbit x i); done.
Qed.

Lemma testbit_wshl w x k i : (k < w)%N →
  N.testbit (wshl w x k) i = ((i <? w)%N && (k <=? i)%N && N.testbit x (i - k)).
Proof.
  intros Hk. unfold wshl. autorewrite with bits. rewrite testbit_ones, N.mod_small by done.
  destruct (N.leb_spec k i).
  - rewrite N.shiftl_spec_high' by lia. destruct (i <? w)%N, (N.testbit x _); done.
  - rewrite N.shiftl_spec_low by lia. by destruct (i <? w)%N.
Qed.

#[export] Hint Rewrite testbit_ones testbit_wnot : bits.

Lemma lt_pow2_testbit w x : (x < 2 ^ w)%N ↔ ∀ i, (w ≤ i)%N → N.testbit x i = false.
Proof.
  split.
  - intros Hx i Hi. destruct (N.eq_dec x 0%N) as [->|Hx0]; [by rewrite N.bits_0|].
    apply N.bits_above_log2. apply N.log2_lt_pow2 in Hx; lia.
  - intros Hb. destruct (N.eq_dec x 0%N) as [->|Hx0]; [apply N.neq_0_lt_0; by apply N.pow_nonzero|].
    apply N.log2_lt_pow2; [lia|]. destruct (N.lt_ge_cases (N.log2 x) w) as [|Hge]; [done|].
    specialize (Hb _ Hge). by rewrite N.bit_log2 in Hb.
Qed.

Lemma trailing_zeros_spec p :
  N.testbit (Npos p) (trailing_zeros_pos p) = true ∧
  ∀ i, (i < trailing_zeros_pos p)%N → N.testbit (Npos p) i = false.
Proof.
  induction p as [p IH|p IH|]; simpl trailing_zeros_pos.
  - split; [done|]. intros i Hi. lia.
  - destruct IH as [IH1 IH2]. change (Npos p~0) with (N.double (Npos p)). split.
    + rewrite N.add_1_l, N.double_bits_succ. done.
    + intros i Hi. destruct i as [|i] using N.peano_ind; [done|].
      rewrite N.double_bits_succ. apply IH2. lia.
  - split; [done|]. intros i Hi. lia.
Qed.

Lemma trailing_zeros_lt w x : x ≠ 0%N → (x < 2 ^ w)%N →
  (trailing_zeros x < w)%N ∧ N.testbit x (trailing_zeros x) = true ∧
  ∀ i, (i < trailing_zeros x)%N → N.testbit x i = false.
Proof.
  intros Hx Hw. destruct x as [|p]; [done|]. simpl.
  destruct (trailing_zeros_spec p) as [H1 H2]. split_and!; [|done..].
  apply N.lt_nge. intros Hge. rewrite lt_pow2_testbit in Hw. by rewrite Hw in H1.
Qed.

(** ** Lists *)

Lemma strongly_sorted_NoDup {A} (R : relation A) (l : list A) :
  (∀ x, ¬ R x x) → Sorted.StronglySorted R l → NoDup l.
Proof.
  intros HR. induction 1 as [|x l _ IH Hx]; constructor; [|done].
  intros Hin. rewrite Forall_forall in Hx. by apply (HR x), Hx.
Qed.

Lemma strongly_sorted_snoc {A} (R : relation A) (l : list A) (x : A) :
  Sorted.StronglySorted R l → (∀ y, y ∈ l → R y x) → Sorted.StronglySorted R (l ++ [x]).
Proof.
  induction 1 as [|y l _ IH Hy]; intros Hx; simpl; [repeat constructor|].
  constructor; [apply IH; set_solver|].
  apply Forall_app. split; [done|]. repeat constructor. apply Hx. set_solver.
Qed.

Lemma le_bytes_length n x : length (le_bytes n x) = n.
Proof. revert x. induction n as [|n IH]; intros x; simpl; f_equal; auto. Qed.

Lemma le_bytes_inj n x y :
  (x < 256 ^ N.of_nat n)%N → (y < 256 ^ N.of_nat n)%N → le_bytes n x = le_bytes n y → x = y.
Proof.
  revert x y. induction n as [|n IH]; intros x y Hx Hy.
  { change (256 ^ N.of_nat 0)%N with 1%N in *. lia. }
  rewrite Nat2N.inj_succ, N.pow_succ_r' in Hx, Hy. simpl. intros [= Hm Hd%IH];
    [|by apply N.Div0.div_lt_upper_bound..].
  rewrite (N.div_mod' x 256), (N.div_mod' y 256). congruence.
Qed.

Lemma N_sorted_NoDup (l : list N) : Sorted.StronglySorted N.lt l → NoDup l.
Proof. apply strongly_sorted_NoDup. intros x. lia. Qed.

(** A strictly ascending list is determined by its members. *)
Lemma N_sorted_unique (l l' : list N) :
  Sorted.StronglySorted N.lt l → Sorted.StronglySorted N.lt l' →
  (∀ k, k ∈ l ↔ k ∈ l') → l = l'.
Proof.
  intros Hl Hl' Hk. apply (StronglySorted_unique_strong N.lt); [|done..|].
  - intros x y _ _. lia.
  - by apply NoDup_Permutation; [apply N_sorted_NoDup..|].
Qed.

Lemma delete_insert_list {A} (l : list A) i x : delete i (<[i:=x]> l) = delete i l.
Proof. revert i. induction l as [|y l IH]; intros [|i]; simpl; f_equal; auto. Qed.

Lemma insert_permutation {A} (l : list A) i x :
  i < length l → <[i:=x]> l ≡ₚ x :: delete i l.
Proof.
  intros Hi. rewrite (delete_Permutation (<[i:=x]> l) i x).
  - by rewrite delete_insert_list.
  - by apply list_lookup_insert_eq.
Qed.

Lemma arr_set_Some {A} (l : list A) i x : i < length l → arr_set l i x = Some (<[i := x]> l).
Proof. intros Hi. unfold arr_set. by apply Nat.ltb_lt in Hi as ->. Qed.

(** A loop that fills an array: every write is in range and no position is
    written twice. *)
Lemma foldM_scatter {A B} (l : list B) (pos : B → nat) (val : B → A) (arr : list A) :
  (∀ b, b ∈ l → pos b < length arr) → NoDup (pos <$> l) →
  ∃ arr', foldM (λ arr b, arr_set arr (pos b) (val b)) arr l = Some arr' ∧
    length arr' = length arr ∧ (∀ b, b ∈ l → arr' !! pos b = Some (val b)) ∧
    ∀ i, i ∉ pos <$> l → arr' !! i = arr !! i.
Proof.
  revert arr. induction l as [|b l IH]; intros arr Hr Hnd; [exists arr; set_solver|].
  rewrite fmap_cons, NoDup_cons in Hnd. destruct Hnd as [Hb Hnd]. simpl.
  rewrite arr_set_Some by set_solver. simpl.
  destruct (IH (<[pos b := val b]> arr)) as (arr' & -> & Hl & Hv & Ho);
    [intros; rewrite length_insert; set_solver|done|].
  rewrite length_insert in Hl. exists arr'. split_and!; [done|done| |].
  - intros b' [->|Hb']%elem_of_cons; [|by apply Hv].
    rewrite Ho by done. apply list_lookup_insert_eq. set_solver.
  - intros i [Hne Hi]%not_elem_of_cons.
    rewrite Ho by done. by apply list_lookup_insert_ne.
Qed.

Lemma NoDup_fmap_elem_eq {A B} (f : A → B) (l : list A) x y :
  NoDup (f <$> l) → x ∈ l → y ∈ l → f x = f y → x = y.
Proof.
  intros Hnd [i Hi]%list_elem_of_lookup [j Hj]%list_elem_of_lookup Hf.
  assert (i = j) as ->; [|congruence].
  eapply NoDup_lookup; [done|rewrite list_lookup_fmap, Hi; done|].
  rewrite list_lookup_fmap, Hj. simpl. by rewrite Hf.
Qed.

(** Sums of [N] over a list. *)
Definition sum_of {A} (f : A → N) (l : list A) : N := foldr (λ x n, (f x + n)%N) 0%N l.

#[export] Instance sum_of_perm {A} (f : A → N) : Proper ((≡ₚ) ==> (=)) (sum_of f).
Proof. induction 1; simpl; lia. Qed.

Lemma sum_of_app {A} (f : A → N) l l' : sum_of f (l ++ l') = (sum_of f l + sum_of f l')%N.
Proof. induction l; simpl; lia. Qed.

Lemma sum_of_ext {A} (f g : A → N) l : (∀ x, x ∈ l → f x = g x) → sum_of f l = sum_of g l.
Proof. induction l as [|x l IH]; intros Hfg; simpl; [done|]. rewrite Hfg, IH; set_solver. Qed.

Lemma sum_of_fmap {A B} (f : B → N) (g : A → B) l : sum_of f (g <$> l) = sum_of (f ∘ g) l.
Proof. induction l as [|x l IH]; csimpl; [done|]. by rewrite IH. Qed.

(** The first element. *)
Definition head_of {A} (l : list A) : option A := match l with x :: _ => Some x | [] => None end.

(** Equal folds over equal step functions. *)
Lemma foldM_app {A B} (f : B → A → option B) b l l' :
  foldM f b (l ++ l') = (b' ← foldM f b l; foldM f b' l').
Proof. revert b. induction l as [|x l IH]; intros b; simpl; [done|]. destruct (f b x); simpl; [apply IH|done]. Qed.

Lemma foldM_ext {A B} (f g : B → A → option B) b l :
  (∀ b x, x ∈ l → f b x = g b x) → foldM f b l = foldM g b l.
Proof.
  revert b. induction l as [|x l IH]; intros b Hfg; simpl; [done|].
  rewrite Hfg by set_solver. destruct (g b x); simpl; [|done]. apply IH. set_solver.
Qed.

Lemma foldM_pure {A B} (f : B → A → B) b l : foldM (λ b x, Some (f b x)) b l = Some (foldl f b l).
Proof. revert b. induction l as [|x l IH]; intros b; simpl; auto. Qed.

Lemma mapM_app {A B} (f : A → option B) l l' : mapM f (l ++ l') = (ts ← mapM f l; ts' ← mapM f l'; Some (ts ++ ts')).
Proof.
  induction l as [|x l IH]; simpl; [by destruct (mapM f l')|]. destruct (f x); simpl; [|done].
  rewrite IH. destruct (mapM f l); simpl; [|done]. by destruct (mapM f l').
Qed.
