(* ===== verification/Lex.v ===== *)
(** * Lex: byte arrays and their order

    The [Ord] instances of [[u8; N]] and [[u8]], which the prefix queries, the
    iterators and the archive rows compare by: lexicographic comparison. *)

From S2P Require Import Prelude.

Open Scope nat_scope.

Fixpoint lex_le (a b : list N) : bool :=
  match a, b with
  | [], _ => true
  | _ :: _, [] => false
  | x :: a, y :: b => ((x <? y) || (x =? y) && lex_le a b)%N
  end.

Definition lex_lt (x y : list N) : bool := negb (lex_le y x).

(** [Ord::cmp]. *)
Fixpoint lex_cmp (a b : list N) : comparison :=
  match a, b with
  | [], [] => Eq
  | [], _ :: _ => Lt
  | _ :: _, [] => Gt
  | x :: a, y :: b => match (x ?= y)%N with Eq => lex_cmp a b | c => c end
  end.

(** [Ordering::then]. *)
Definition cmp_then (c d : comparison) : comparison := match c with Eq => d | _ => c end.

Lemma lex_le_refl x : lex_le x x = true.
Proof. induction x as [|b x IH]; [done|]. simpl. rewrite IH, N.eqb_refl. by rewrite orb_true_r. Qed.

Lemma lex_le_app p x y : lex_le (p ++ x) (p ++ y) = lex_le x y.
Proof. induction p as [|b p IH]; [done|]. simpl. by rewrite N.ltb_irrefl, N.eqb_refl, IH. Qed.

Lemma lex_le_trans x y z : lex_le x y = true → lex_le y z = true → lex_le x z = true.
Proof.
  revert y z. induction x as [|a x IH]; intros [|b y] [|c z]; simpl; try done.
  rewrite !orb_true_iff, !andb_true_iff, !N.ltb_lt, !N.eqb_eq.
  intros [?|[-> H1]] [?|[-> H2]]; [left; lia|by left..|right; eauto].
Qed.

(** [lex_cmp] decides between the three cases. *)
Lemma lex_cmp_spec x y :
  match lex_cmp x y with
  | Eq => x = y
  | Lt => lex_le x y = true ∧ lex_le y x = false
  | Gt => lex_le x y = false ∧ lex_le y x = true
  end.
Proof.
  revert y. induction x as [|a x IH]; intros [|b y]; simpl; try done.
  destruct (N.compare_spec a b) as [->|Hlt|Hlt].
  - specialize (IH y). rewrite N.ltb_irrefl, N.eqb_refl. simpl. destruct (lex_cmp x y); [by subst|done..].
  - rewrite (proj2 (N.ltb_lt a b)), (proj2 (N.ltb_ge b a)), (proj2 (N.eqb_neq b a)) by lia. done.
  - rewrite (proj2 (N.ltb_ge a b)), (proj2 (N.eqb_neq a b)), (proj2 (N.ltb_lt b a)) by lia. done.
Qed.

Lemma lex_le_antisym x y : lex_le x y = true → lex_le y x = true → x = y.
Proof. pose proof (lex_cmp_spec x y) as Hc. destruct (lex_cmp x y); [done|..]; destruct Hc; congruence. Qed.

Lemma lex_le_total x y : lex_le x y = true ∨ lex_le y x = true.
Proof.
  pose proof (lex_cmp_spec x y) as Hc.
  destruct (lex_cmp x y); [subst; left; apply lex_le_refl|by left; apply Hc|by right; apply Hc].
Qed.

Lemma lex_lt_le x y : lex_lt x y = true → lex_le x y = true.
Proof. unfold lex_lt. rewrite negb_true_iff. intros E. by destruct (lex_le_total x y); [|congruence]. Qed.

Lemma lex_lt_irrefl x : lex_lt x x = false.
Proof. unfold lex_lt. by rewrite lex_le_refl. Qed.

Lemma lex_lt_trans x y z : lex_lt x y = true → lex_lt y z = true → lex_lt x z = true.
Proof.
  intros H1 H2. pose proof (lex_lt_le _ _ H2) as H3. unfold lex_lt in *. rewrite negb_true_iff in *.
  destruct (lex_le z x) eqn:E; [|done]. rewrite (lex_le_trans y z x) in H1; congruence.
Qed.

Lemma lex_cmp_refl x : lex_cmp x x = Eq.
Proof. induction x as [|b x IH]; [done|]. simpl. by rewrite N.compare_refl. Qed.

Lemma lex_cmp_eq x y : lex_cmp x y = Eq ↔ x = y.
Proof. split; [|intros ->; apply lex_cmp_refl]. intros E. pose proof (lex_cmp_spec x y) as Hc. by rewrite E in Hc. Qed.

Lemma lex_cmp_lt x y : lex_cmp x y = Lt ↔ lex_lt x y = true.
Proof.
  unfold lex_lt. rewrite negb_true_iff. pose proof (lex_cmp_spec x y) as Hc. destruct (lex_cmp x y).
  - subst. by rewrite lex_le_refl.
  - destruct Hc. done.
  - destruct Hc. split; [done|congruence].
Qed.

(** Comparison of concatenations, field by field. *)
Lemma lex_cmp_app x x' y y' : length x = length x' →
  lex_cmp (x ++ y) (x' ++ y') = cmp_then (lex_cmp x x') (lex_cmp y y').
Proof.
  revert x'. induction x as [|a x IH]; intros [|b x'] Hl; try done. simpl.
  destruct (a ?= b)%N; [|done..]. apply IH. by injection Hl.
Qed.

(** ** Sorted rows *)

#[global] Instance lex_le_trans' : Transitive (λ x y, lex_le x y = true).
Proof. intros x y z. apply lex_le_trans. Qed.
#[global] Instance lex_le_total' : Total (λ x y, lex_le x y = true).
Proof. intros x y. apply lex_le_total. Qed.
#[global] Instance lex_lt_trans' : Transitive (λ x y, lex_lt x y = true).
Proof. intros x y z. apply lex_lt_trans. Qed.

Abbreviation lex_sorted := (Sorted.StronglySorted (λ x y, lex_lt x y = true)).

Lemma lex_sorted_NoDup l : lex_sorted l → NoDup l.
Proof. apply strongly_sorted_NoDup. intros x. by rewrite lex_lt_irrefl. Qed.

(** Strictly ascending rows are determined by the set of rows. *)
Lemma lex_sorted_unique l l' : lex_sorted l → lex_sorted l' → (∀ k, k ∈ l ↔ k ∈ l') → l = l'.
Proof.
  intros Hl Hl' Hk. apply (StronglySorted_unique_strong (λ x y, lex_lt x y = true)); [|done..|].
  - intros x y _ _ H1 H2. pose proof (lex_lt_trans _ _ _ H1 H2) as E. by rewrite lex_lt_irrefl in E.
  - by apply NoDup_Permutation; [apply lex_sorted_NoDup..|].
Qed.
