(* ===== verification/BTree.v ===== *)
(** * BTree: ordered sets and maps

    [BTreeSet] and [BTreeMap] of the standard library: the ascending list of
    the elements, or of the entries, in the order they iterate, by the derived
    [Ord] of fixed-width byte arrays and of pairs of them. *)

From S2P Require Import Prelude Lex.

Open Scope nat_scope.

(** A total order given by [Ord::cmp]. *)
Class CmpOk {A} (cmp : A → A → comparison) : Prop := {
  cmp_eq x y : cmp x y = Eq ↔ x = y;
  cmp_swap x y : cmp y x = CompOpp (cmp x y);
  cmp_trans x y z : cmp x y = Lt → cmp y z = Lt → cmp x z = Lt;
}.
#[global] Arguments cmp_eq {A} cmp {_} x y.
#[global] Arguments cmp_swap {A} cmp {_} x y.
#[global] Arguments cmp_trans {A} cmp {_} x y z.

(** [Ord] of a pair. *)
Definition pair_cmp {A B} (ca : A → A → comparison) (cb : B → B → comparison) (x y : A * B) : comparison :=
  cmp_then (ca x.1 y.1) (cb x.2 y.2).

(** [Ord::max]: the second argument among equals. *)
Definition cmp_max {A} (cmp : A → A → comparison) (x y : A) : A := match cmp x y with Gt => x | _ => y end.

(** [BTreeSet::insert] keeps the element that is there. *)
Fixpoint bts_insert {A} (cmp : A → A → comparison) (x : A) (s : list A) : list A :=
  match s with
  | [] => [x]
  | y :: s' => match cmp x y with Lt => x :: s | Eq => s | Gt => y :: bts_insert cmp x s' end
  end.

(** [BTreeSet::extend] *)
Definition bts_extend {A} (cmp : A → A → comparison) (s other : list A) : list A :=
  foldl (λ s x, bts_insert cmp x s) s other.

(** [BTreeMap::get] *)
Fixpoint btm_get {K V} (cmp : K → K → comparison) (k : K) (m : list (K * V)) : option V :=
  match m with
  | [] => None
  | (k', v) :: m => match cmp k k' with Lt => None | Eq => Some v | Gt => btm_get cmp k m end
  end.

(** [entry(k).and_modify(f).or_insert(v)] *)
Fixpoint btm_upsert {K V} (cmp : K → K → comparison) (k : K) (f : V → V) (v : V) (m : list (K * V)) : list (K * V) :=
  match m with
  | [] => [(k, v)]
  | (k', v') :: m' =>
      match cmp k k' with
      | Lt => (k, v) :: m
      | Eq => (k', f v') :: m'
      | Gt => (k', v') :: btm_upsert cmp k f v m'
      end
  end.

(** ** Orders *)

Section order.
Context {A : Type} (cmp : A → A → comparison) `{!CmpOk cmp}.
Implicit Types x y z : A.

Lemma cmp_refl x : cmp x x = Eq.
Proof. by apply (cmp_eq cmp). Qed.

Lemma cmp_gt x y : cmp x y = Gt ↔ cmp y x = Lt.
Proof. rewrite (cmp_swap cmp x y). by destruct (cmp x y). Qed.

Lemma cmp_lt_neq x y : cmp x y = Lt → x ≠ y.
Proof. intros H ->. by rewrite cmp_refl in H. Qed.

(** [x ≤ y] *)
Lemma cmp_le_trans x y z : cmp x y ≠ Gt → cmp y z ≠ Gt → cmp x z ≠ Gt.
Proof.
  intros H1 H2. destruct (cmp x y) eqn:E1; [apply (cmp_eq cmp) in E1 as ->; done| |done].
  destruct (cmp y z) eqn:E2; [apply (cmp_eq cmp) in E2 as <-; congruence| |done]. by rewrite (cmp_trans cmp x y z).
Qed.

Lemma cmp_le_antisym x y : cmp x y ≠ Gt → cmp y x ≠ Gt → x = y.
Proof. rewrite (cmp_swap cmp x y). intros H1 H2. apply (cmp_eq cmp). by destruct (cmp x y). Qed.

Lemma cmp_max_le x y : cmp x (cmp_max cmp x y) ≠ Gt ∧ cmp y (cmp_max cmp x y) ≠ Gt.
Proof.
  unfold cmp_max. destruct (cmp x y) eqn:E; rewrite ?cmp_refl, ?E; (split; [done|]); try done.
  rewrite (cmp_swap cmp x y), E. done.
Qed.

Lemma cmp_max_either x y : cmp_max cmp x y = x ∨ cmp_max cmp x y = y.
Proof. unfold cmp_max. destruct (cmp x y); auto. Qed.

Lemma greatest_exists (l : list A) : l ≠ [] → ∃ m, m ∈ l ∧ ∀ x, x ∈ l → cmp x m ≠ Gt.
Proof.
  induction l as [|x l IH]; [done|]. intros _. destruct l as [|y l].
  - exists x. split; [by left|]. intros z ->%list_elem_of_singleton. by rewrite cmp_refl.
  - destruct IH as (m & Hm & Hmax); [done|]. destruct (cmp_max_le x m) as [H1 H2]. exists (cmp_max cmp x m). split.
    + destruct (cmp_max_either x m) as [-> | ->]; [by left|by right].
    + intros z [-> |Hz]%elem_of_cons; [done|]. eapply cmp_le_trans; [by apply Hmax|done].
Qed.

Abbreviation ascending := (Sorted.StronglySorted (λ x y, cmp x y = Lt)).

Lemma ascending_NoDup (l : list A) : ascending l → NoDup l.
Proof. apply strongly_sorted_NoDup. intros x H. by rewrite cmp_refl in H. Qed.

Lemma ascending_lookup (l : list A) i j x y : ascending l → l !! i = Some x → l !! j = Some y → i < j → cmp x y = Lt.
Proof.
  intros Hl Hx Hy Hij. rewrite <- (take_drop_middle l i x Hx) in Hl. apply StronglySorted_app in Hl as (_ & _ & Hl).
  apply Sorted.StronglySorted_inv in Hl as [_ Hl]. rewrite Forall_forall in Hl. apply Hl.
  apply list_elem_of_lookup. exists (j - S i). rewrite lookup_drop. rewrite <- Hy. f_equal. lia.
Qed.

(** Ascending lists are determined by their elements. *)
Lemma ascending_unique (l l' : list A) : ascending l → ascending l' → (∀ x, x ∈ l ↔ x ∈ l') → l = l'.
Proof.
  intros Hl Hl' Hx. apply (StronglySorted_unique_strong (λ x y, cmp x y = Lt)); [|done..|].
  - intros x y _ _ H1 H2. pose proof (cmp_trans cmp _ _ _ H1 H2) as E. by rewrite cmp_refl in E.
  - by apply NoDup_Permutation; [apply ascending_NoDup..|].
Qed.

Lemma elem_of_bts_insert x y (s : list A) : y ∈ bts_insert cmp x s ↔ y = x ∨ y ∈ s.
Proof.
  induction s as [|z s IH]; simpl; [set_solver|]. destruct (cmp x z) eqn:E; [apply (cmp_eq cmp) in E; set_solver|set_solver|].
  rewrite !elem_of_cons, IH. tauto.
Qed.

Lemma bts_insert_ascending x (s : list A) : ascending s → ascending (bts_insert cmp x s).
Proof.
  induction 1 as [|z s Hs IH Hz]; simpl; [by repeat constructor|]. destruct (cmp x z) eqn:E.
  - by constructor.
  - constructor; [by constructor|]. constructor; [done|]. eapply Forall_impl; [done|]. intros y. by apply (cmp_trans cmp).
  - constructor; [done|]. apply Forall_forall. intros y [-> |Hy]%elem_of_bts_insert; [by apply cmp_gt|].
    rewrite Forall_forall in Hz. auto.
Qed.

Lemma elem_of_bts_extend y (s other : list A) : y ∈ bts_extend cmp s other ↔ y ∈ s ∨ y ∈ other.
Proof.
  unfold bts_extend. revert s. induction other as [|x other IH]; intros s; simpl; [set_solver|].
  rewrite IH, elem_of_bts_insert. set_solver.
Qed.

Lemma bts_extend_ascending (s other : list A) : ascending s → ascending (bts_extend cmp s other).
Proof.
  unfold bts_extend. revert s. induction other as [|x other IH]; intros s Hs; simpl; [done|].
  apply IH. by apply bts_insert_ascending.
Qed.

(** An element inserted in the order is appended. *)
Lemma bts_insert_last x (s : list A) : Forall (λ y, cmp y x = Lt) s → bts_insert cmp x s = s ++ [x].
Proof.
  induction 1 as [|y s Hy _ IH]; [done|]. simpl. rewrite (proj2 (cmp_gt x y) Hy). by f_equal.
Qed.

Lemma bts_insert_length x (s : list A) : length (bts_insert cmp x s) <= S (length s).
Proof. induction s as [|y s IH]; simpl; [lia|]. destruct (cmp x y); simpl; lia. Qed.

Lemma bts_extend_length (s other : list A) : length (bts_extend cmp s other) <= length s + length other.
Proof.
  unfold bts_extend. revert s. induction other as [|x other IH]; intros s; simpl; [lia|].
  etransitivity; [apply IH|]. pose proof (bts_insert_length x s). lia.
Qed.
End order.

Abbreviation ascending cmp := (Sorted.StronglySorted (λ x y, cmp x y = Lt)).

#[global] Instance lex_cmp_ok : CmpOk lex_cmp.
Proof.
  split.
  - apply lex_cmp_eq.
  - induction x as [|a x IH]; intros [|b y]; try done. simpl. rewrite (N.compare_antisym a b).
    destruct (a ?= b)%N; simpl; [apply IH|done..].
  - intros x y z. rewrite !lex_cmp_lt. apply lex_lt_trans.
Qed.

#[global] Instance pair_cmp_ok {A B} (ca : A → A → comparison) (cb : B → B → comparison) :
  CmpOk ca → CmpOk cb → CmpOk (pair_cmp ca cb).
Proof.
  intros Ha Hb. split.
  - intros [a b] [a' b']. unfold pair_cmp, cmp_then. simpl. destruct (ca a a') eqn:E.
    + apply (cmp_eq ca) in E as ->. rewrite (cmp_eq cb). split; congruence.
    + split; [done|]. intros [= -> ->]. by rewrite (cmp_refl ca) in E.
    + split; [done|]. intros [= -> ->]. by rewrite (cmp_refl ca) in E.
  - intros [a b] [a' b']. unfold pair_cmp, cmp_then. simpl. rewrite (cmp_swap ca a a'), (cmp_swap cb b b').
    by destruct (ca a a').
  - intros [a b] [a' b'] [a'' b'']. unfold pair_cmp, cmp_then. simpl.
    destruct (ca a a') eqn:E1; [apply (cmp_eq ca) in E1 as ->| |done].
    + destruct (ca a' a''); [apply (cmp_trans cb)|done..].
    + intros _. destruct (ca a' a'') eqn:E2; [apply (cmp_eq ca) in E2 as ->; by rewrite E1| |done].
      by rewrite (cmp_trans ca a a' a'').
Qed.

(** ** Maps *)

Section map.
Context {K V : Type} (cmp : K → K → comparison) `{!CmpOk cmp}.
Implicit Types (m : list (K * V)) (k : K) (v : V).

Definition keys_ascending (m : list (K * V)) : Prop := ascending cmp m.*1.

Lemma btm_get_elem k v m : keys_ascending m → btm_get cmp k m = Some v ↔ (k, v) ∈ m.
Proof.
  unfold keys_ascending. induction m as [|[k' v'] m IH]; simpl; [set_solver|]. intros Hs.
  apply Sorted.StronglySorted_inv in Hs as [Hs Hk]. rewrite elem_of_cons.
  assert (∀ w, (k', w) ∉ m) as Hno.
  { intros w Hw. rewrite Forall_forall in Hk. specialize (Hk k' (list_elem_of_fmap_2 fst _ _ Hw)). by rewrite cmp_refl in Hk. }
  destruct (cmp k k') eqn:E.
  - apply (cmp_eq cmp) in E as ->. split; [intros [= ->]; by left|]. intros [[= ->]|H]; [done|by apply Hno in H].
  - split; [done|]. intros [[= -> ->]|H]; [by rewrite cmp_refl in E|].
    rewrite Forall_forall in Hk. specialize (Hk k (list_elem_of_fmap_2 fst _ _ H)).
    pose proof (cmp_trans cmp _ _ _ E Hk) as Hkk. by rewrite cmp_refl in Hkk.
  - rewrite IH by done. split; [by right|]. intros [[= -> ->]|H]; [by rewrite cmp_refl in E|done].
Qed.

Lemma btm_upsert_keys k f v m k' : k' ∈ (btm_upsert cmp k f v m).*1 ↔ k' = k ∨ k' ∈ m.*1.
Proof.
  induction m as [|[k1 v1] m IH]; simpl; [set_solver|]. destruct (cmp k k1) eqn:E; simpl.
  - apply (cmp_eq cmp) in E. set_solver.
  - set_solver.
  - rewrite !elem_of_cons, IH. tauto.
Qed.

Lemma btm_upsert_ascending k f v m : keys_ascending m → keys_ascending (btm_upsert cmp k f v m).
Proof.
  unfold keys_ascending. induction m as [|[k' v'] m IH]; simpl; [by repeat constructor|]. intros Hs.
  pose proof Hs as [Hm Hk]%Sorted.StronglySorted_inv. destruct (cmp k k') eqn:E; simpl; [done| |].
  - constructor; [done|]. constructor; [done|]. eapply Forall_impl; [done|]. intros y. by apply (cmp_trans cmp).
  - constructor; [by apply IH|]. apply Forall_forall. intros y [-> |Hy]%btm_upsert_keys; [by apply (cmp_gt cmp)|].
    rewrite Forall_forall in Hk. auto.
Qed.

(** [k] is looked up as modified or inserted, the other keys as before. *)
Lemma btm_upsert_get k f v m k' : keys_ascending m →
  btm_get cmp k' (btm_upsert cmp k f v m) =
    if decide (cmp k' k = Eq) then Some (from_option f v (btm_get cmp k m)) else btm_get cmp k' m.
Proof.
  unfold keys_ascending. induction m as [|[k1 v1] m IH]; simpl.
  { intros _. case_decide as E; [by rewrite E|]. by destruct (cmp k' k). }
  intros Hs. pose proof Hs as [Hm Hk]%Sorted.StronglySorted_inv. destruct (cmp k k1) eqn:E; simpl.
  - apply (cmp_eq cmp) in E as ->. case_decide as E'; [by rewrite E'|]. by destruct (cmp k' k1).
  - case_decide as E'; [by rewrite E'|]. destruct (cmp k' k) eqn:E2; [done| |done].
    by rewrite (cmp_trans cmp _ _ _ E2 E).
  - rewrite IH by done. case_decide as E'; [|done]. apply (cmp_eq cmp) in E' as ->. by rewrite E.
Qed.
End map.
