(* ===== verification/VariableSet.v ===== *)
(** * VariableSet: the 128-bit variable bitset of the query engine

    Source: [triblespace-core/src/query/variableset.rs].  A set of query
    variables is one [u128]; element [i] is bit [i].  Every operation is
    translated with its shifts at width 128 and specified against finite sets
    of variable indices. *)

From S2P Require Import Prelude.

Open Scope N_scope.

(** ** The data type and its operations *)

Record VariableSet := mkVariableSet { bits : N }.

Definition new_empty : VariableSet := mkVariableSet 0.
Definition new_full : VariableSet := mkVariableSet (wnot 128 0).

Definition set (s : VariableSet) (index : N) : VariableSet :=
  mkVariableSet (N.lor (bits s) (wshl 128 1 index)).
Definition unset (s : VariableSet) (index : N) : VariableSet :=
  mkVariableSet (N.land (bits s) (wnot 128 (wshl 128 1 index))).
Definition new_singleton (index : N) : VariableSet := set new_empty index.
Definition is_empty (s : VariableSet) : bool := bits s =? 0.

Definition set_value (s : VariableSet) (index : N) (value : bool) : VariableSet :=
  if value then set s index else unset s index.
Definition set_all (s : VariableSet) : VariableSet := mkVariableSet (wnot 128 0).
Definition unset_all (s : VariableSet) : VariableSet := mkVariableSet 0.
Definition is_set (s : VariableSet) (index : N) : bool :=
  negb (N.land (bits s) (wshl 128 1 index) =? 0).

Definition count (s : VariableSet) : nat := count_ones (bits s).

Definition find_first_set (s : VariableSet) : option N :=
  if negb (bits s =? 0) then Some (trailing_zeros (bits s)) else None.
Definition find_last_set (s : VariableSet) : option N :=
  if negb (bits s =? 0) then Some (127 - leading_zeros (bits s)) else None.

Definition drain_next_ascending (s : VariableSet) : option N * VariableSet :=
  match find_first_set s with
  | Some next_index => (Some next_index, unset s next_index)
  | None => (None, s)
  end.
Definition drain_next_descending (s : VariableSet) : option N * VariableSet :=
  match find_last_set s with
  | Some next_index => (Some next_index, unset s next_index)
  | None => (None, s)
  end.

Definition is_superset_of (s other : VariableSet) : bool :=
  N.lxor (N.land (bits s) (bits other)) (bits other) =? 0.
Definition is_subset_of (s other : VariableSet) : bool :=
  N.lxor (N.land (bits s) (bits other)) (bits s) =? 0.
Definition intersect (s other : VariableSet) : VariableSet :=
  mkVariableSet (N.land (bits s) (bits other)).
Definition union (s other : VariableSet) : VariableSet :=
  mkVariableSet (N.lor (bits s) (bits other)).
Definition subtract (s other : VariableSet) : VariableSet :=
  mkVariableSet (N.land (bits s) (wnot 128 (bits other))).
Definition difference (s other : VariableSet) : VariableSet :=
  mkVariableSet (N.lxor (bits s) (bits other)).
Definition complement (s : VariableSet) : VariableSet :=
  mkVariableSet (wnot 128 (bits s)).

Definition keep_single (s : VariableSet) (index : N) : VariableSet :=
  let had_bit := is_set s index in
  let s := unset_all s in
  if had_bit then set s index else s.
Definition keep_range (s : VariableSet) (from_index to_index : N) : VariableSet :=
  let b := N.land (bits s) (wshl 128 (wnot 128 0) from_index) in
  mkVariableSet (N.land b (wnot 128 (wshl 128 (wnot 128 1) to_index))).

(** [VariableSetIterator]: repeated draining.  128 steps suffice
    ([into_iter_elements]). *)
Fixpoint iter_next (fuel : nat) (s : VariableSet) : list N :=
  match fuel with
  | O => []
  | S fuel =>
      match drain_next_ascending s with
      | (Some i, s') => i :: iter_next fuel s'
      | (None, _) => []
      end
  end.
Definition into_iter (s : VariableSet) : list N := iter_next 128 s.

(** ** Invariant and meaning *)

(** The representation invariant: the word is a [u128]. *)
Definition vs_wf (s : VariableSet) : Prop := bits s < 2 ^ 128.

(** The abstract set a word stands for. *)
Definition elements (s : VariableSet) : gset N :=
  list_to_set (filter (λ i, N.testbit (bits s) i = true) (N.of_nat <$> seq 0 128)).

(** ** Lemmas *)

Lemma elem_of_elements s i :
  i ∈ elements s ↔ (i < 128 ∧ N.testbit (bits s) i = true).
Proof.
  unfold elements. rewrite elem_of_list_to_set, list_elem_of_filter, list_elem_of_fmap.
  setoid_rewrite elem_of_seq. split.
  - intros (Hb & j & -> & Hj). split; [lia|done].
  - intros [Hi Hb]. split; [done|]. exists (N.to_nat i). split; lia.
Qed.

Lemma wf_high s i : vs_wf s → 128 ≤ i → N.testbit (bits s) i = false.
Proof. intros Hs. by apply (proj1 (lt_pow2_testbit 128 (bits s))). Qed.

Lemma bits_inj_elements s t :
  vs_wf s → vs_wf t → elements s = elements t → s = t.
Proof.
  destruct s as [x], t as [y]. unfold vs_wf. intros Hx Hy He. f_equal.
  apply N.bits_inj. intros i. simpl in *.
  destruct (N.lt_ge_cases i 128) as [Hi|Hi].
  - assert (i ∈ elements (mkVariableSet x) ↔ i ∈ elements (mkVariableSet y)) as H
      by by rewrite He.
    rewrite !elem_of_elements in H. simpl in H.
    destruct (N.testbit x i), (N.testbit y i); intuition congruence.
  - by rewrite (wf_high (mkVariableSet x)), (wf_high (mkVariableSet y)).
Qed.

(** Turns an equation between [elements] into a statement about bits. *)
Ltac by_bits :=
  apply sets.set_eq; intros ?i;
  repeat rewrite ?elem_of_elements, ?elem_of_union, ?elem_of_intersection,
    ?elem_of_difference, ?elem_of_singleton;
  cbn [bits set unset union intersect subtract difference complement new_full];
  autorewrite with bits.

Lemma testbit_one i j : N.testbit 1 (i - j) = (i <=? j).
Proof.
  destruct (N.leb_spec i j) as [H|H].
  - replace (i - j) with 0 by lia. done.
  - destruct (i - j) eqn:E; [lia|]. by destruct p.
Qed.

Lemma testbit_shl1 i j :
  j < 128 → N.testbit (wshl 128 1 j) i = (i =? j).
Proof.
  intros Hj. rewrite testbit_wshl by done. rewrite testbit_one.
  destruct (N.eqb_spec i j), (N.ltb_spec i 128), (N.leb_spec j i), (N.leb_spec i j); simpl; lia.
Qed.

Lemma elements_set s j : j < 128 → elements (set s j) = {[j]} ∪ elements s.
Proof.
  intros Hj. by_bits. rewrite testbit_shl1 by done.
  rewrite orb_true_iff, N.eqb_eq. intuition lia.
Qed.

Lemma elements_unset s j : j < 128 → elements (unset s j) = elements s ∖ {[j]}.
Proof.
  intros Hj. by_bits. rewrite testbit_shl1 by done.
  rewrite !andb_true_iff, negb_true_iff, N.eqb_neq, N.ltb_lt. intuition lia.
Qed.

Lemma is_set_spec s j : j < 128 → is_set s j = bool_decide (j ∈ elements s).
Proof.
  intros Hj. unfold is_set. apply eq_true_iff_eq.
  rewrite negb_true_iff, N.eqb_neq, bool_decide_eq_true, elem_of_elements. split.
  - intros H. split; [done|]. apply not_false_is_true. intros Hf. apply H.
    apply N.bits_inj. intros i. autorewrite with bits. rewrite testbit_shl1 by done.
    destruct (N.eqb_spec i j) as [->|]; [by rewrite Hf|by rewrite andb_false_r].
  - intros [_ Hb] Hz. apply (f_equal (λ x, N.testbit x j)) in Hz. revert Hz.
    autorewrite with bits. by rewrite testbit_shl1, N.eqb_refl, Hb by done.
Qed.

Lemma lnot_land_zero x y : N.lxor (N.land x y) y = 0 ↔ (∀ i, N.testbit y i = true → N.testbit x i = true).
Proof.
  split.
  - intros H i Hy. apply (f_equal (λ z, N.testbit z i)) in H. revert H.
    autorewrite with bits. rewrite Hy. by destruct (N.testbit x i).
  - intros H. apply N.bits_inj. intros i. autorewrite with bits. specialize (H i).
    destruct (N.testbit x i), (N.testbit y i); naive_solver.
Qed.

Lemma elements_subset s t : vs_wf s →
  elements s ⊆ elements t ↔ (∀ i, N.testbit (bits s) i = true → N.testbit (bits t) i = true).
Proof.
  intros Hs. split.
  - intros H i Hi. assert (i < 128).
    { apply N.lt_nge. intros ?. by rewrite (wf_high s i) in Hi. }
    assert (i ∈ elements t) by (apply H, elem_of_elements; done).
    by apply elem_of_elements.
  - intros H i [? ?]%elem_of_elements. apply elem_of_elements. auto.
Qed.

#[local] Typeclasses Opaque elements.

Lemma elements_empty_iff s : vs_wf s → bits s = 0 ↔ elements s = ∅.
Proof.
  intros Hs. split.
  - intros H. apply set_eq. intros i. rewrite elem_of_elements, H, N.bits_0. rewrite elem_of_empty. naive_solver.
  - intros H. apply N.bits_inj. intros i. rewrite N.bits_0.
    destruct (N.testbit (bits s) i) eqn:E; [|done].
    assert (i ∈ elements s); [|set_solver]. apply elem_of_elements. split; [|done].
    apply N.lt_nge. intros ?. by rewrite (wf_high s i) in E.
Qed.

Lemma wf_land s x : vs_wf s → vs_wf (mkVariableSet (N.land (bits s) x)).
Proof.
  intros Hs. apply lt_pow2_testbit. intros i Hi. simpl. autorewrite with bits.
  by rewrite (wf_high s i).
Qed.

Lemma find_first_set_spec s : vs_wf s →
  match find_first_set s with
  | Some i => i ∈ elements s ∧ ∀ j, j ∈ elements s → i ≤ j
  | None => elements s = ∅
  end.
Proof.
  intros Hs. unfold find_first_set. destruct (N.eqb_spec (bits s) 0) as [E|E]; simpl.
  { by apply elements_empty_iff. }
  pose proof Hs as Hhi. unfold vs_wf in Hs. rewrite lt_pow2_testbit in Hs.
  destruct (bits s) as [|p] eqn:Ep; [done|]. simpl.
  destruct (trailing_zeros_spec p) as [H1 H2].
  assert (trailing_zeros_pos p < 128).
  { apply N.lt_nge. intros ?. by rewrite Hs in H1. }
  split; [by rewrite elem_of_elements, Ep|].
  intros j [Hj Hb]%elem_of_elements. apply N.le_ngt. intros ?.
  by rewrite Ep, H2 in Hb.
Qed.

Lemma find_last_set_spec s : vs_wf s →
  match find_last_set s with
  | Some i => i ∈ elements s ∧ ∀ j, j ∈ elements s → j ≤ i
  | None => elements s = ∅
  end.
Proof.
  intros Hs. unfold find_last_set. destruct (N.eqb_spec (bits s) 0) as [E|E]; simpl.
  { by apply elements_empty_iff. }
  assert (N.log2 (bits s) < 128) by (apply N.log2_lt_pow2; [lia|done]).
  replace (127 - leading_zeros (bits s)) with (N.log2 (bits s))
    by (unfold leading_zeros; destruct (bits s); lia).
  split; [rewrite elem_of_elements; by rewrite N.bit_log2|].
  intros j [Hj Hb]%elem_of_elements. apply N.le_ngt. intros ?.
  by rewrite N.bits_above_log2 in Hb.
Qed.

Lemma wf_unset s i : vs_wf s → vs_wf (unset s i).
Proof. apply wf_land. Qed.

Lemma iter_next_spec fuel s : vs_wf s → (size (elements s) ≤ fuel)%nat →
  list_to_set (iter_next fuel s) = elements s ∧
  Sorted.StronglySorted N.lt (iter_next fuel s).
Proof.
  revert s. induction fuel as [|fuel IH]; intros s Hs Hsz; simpl.
  { assert (elements s = ∅) as -> by (apply leibniz_equiv, size_empty_inv; lia).
    split; [done|constructor]. }
  unfold drain_next_ascending. pose proof (find_first_set_spec s Hs) as Hf.
  destruct (find_first_set s) as [i|]; [|simpl; rewrite Hf; split; [done|constructor]].
  destruct Hf as [Hi Hmin]. assert (i < 128) as Hi128 by by apply elem_of_elements in Hi as [? _].
  destruct (IH (unset s i)) as [IH1 IH2]; [by apply wf_unset| |].
  { rewrite elements_unset by done. rewrite size_difference by set_solver.
    rewrite size_singleton. lia. }
  rewrite elements_unset in IH1 by done. split.
  - simpl. rewrite IH1. apply set_eq. intros j.
    destruct (decide (j = i)); set_solver.
  - constructor; [done|]. apply Forall_forall. intros j Hj.
    assert (j ∈ elements s ∖ {[i]}) as [Hj1 Hj2]%elem_of_difference
      by by rewrite <-IH1, elem_of_list_to_set.
    assert (j ≠ i) by set_solver. apply Hmin in Hj1. lia.
Qed.

Lemma size_elements s : size (elements s) = count s.
Proof.
  unfold elements, count, count_ones. rewrite size_list_to_set.
  2:{ apply NoDup_filter, NoDup_fmap_2; [apply _|]. apply NoDup_seq. }
  generalize (seq 0 128). induction l as [|x l IH]; [done|].
  rewrite fmap_cons, !filter_cons. repeat case_decide; simpl; auto.
Qed.

Lemma count_le_128 s : (count s ≤ 128)%nat.
Proof.
  unfold count, count_ones.
  etrans; [apply length_filter|]. by rewrite length_seq.
Qed.

(** ** Properties *)

(** The word operations of [VariableSet] are the finite-set operations:
    union, intersection, subtraction, symmetric difference and complement of
    the words denote those of the sets, and the emptiness and inclusion tests
    decide emptiness and inclusion.  The invariant (a [u128]) is preserved. *)
Theorem variableset_algebra (s t : VariableSet) (Hs : vs_wf s) (Ht : vs_wf t) :
  elements (union s t) = elements s ∪ elements t ∧
  elements (intersect s t) = elements s ∩ elements t ∧
  elements (subtract s t) = elements s ∖ elements t ∧
  elements (difference s t) = (elements s ∖ elements t) ∪ (elements t ∖ elements s) ∧
  elements (complement s) = elements new_full ∖ elements s ∧
  is_subset_of s t = bool_decide (elements s ⊆ elements t) ∧
  is_superset_of s t = bool_decide (elements t ⊆ elements s) ∧
  is_empty s = bool_decide (elements s = ∅) ∧
  Forall vs_wf [union s t; intersect s t; subtract s t; difference s t; complement s].
Proof.
  split_and!.
  - by_bits. rewrite orb_true_iff. tauto.
  - by_bits. rewrite andb_true_iff. tauto.
  - by_bits. rewrite !andb_true_iff, negb_true_iff, N.ltb_lt, <-not_true_iff_false. tauto.
  - by_bits. destruct (N.testbit (bits s) i), (N.testbit (bits t) i); simpl; intuition congruence.
  - by_bits. destruct (N.ltb_spec i 128), (N.testbit (bits s) i); simpl; intuition (congruence || lia).
  - apply eq_true_iff_eq. unfold is_subset_of.
    rewrite bool_decide_eq_true, N.eqb_eq, N.land_comm, lnot_land_zero.
    by rewrite elements_subset.
  - apply eq_true_iff_eq. unfold is_superset_of.
    by rewrite bool_decide_eq_true, N.eqb_eq, lnot_land_zero, elements_subset.
  - apply eq_true_iff_eq. unfold is_empty.
    by rewrite bool_decide_eq_true, N.eqb_eq, elements_empty_iff.
  - repeat constructor; apply lt_pow2_testbit; intros i Hi; simpl; autorewrite with bits;
      rewrite ?(wf_high s i Hs Hi), ?(wf_high t i Ht Hi); try done.
    apply N.ltb_ge in Hi. by rewrite Hi.
Qed.

Lemma variableset_algebra_witness :
  elements (union (set new_empty 3) (set new_empty 100)) =
    elements (set new_empty 3) ∪ elements (set new_empty 100).
Proof.
  exact (proj1 (variableset_algebra (set new_empty 3) (set new_empty 100) eq_refl eq_refl)).
Defined.

(** Element operations: for an index below 128, [set], [unset],
    [set_value], [is_set], [keep_single] and [keep_range] insert, delete,
    test and filter that element of the set. *)
Theorem variableset_elements (s : VariableSet) (i j : N)
    (Hs : vs_wf s) (Hi : i < 128) (Hj : j < 128) :
  elements (set s i) = {[i]} ∪ elements s ∧
  elements (unset s i) = elements s ∖ {[i]} ∧
  is_set s i = bool_decide (i ∈ elements s) ∧
  elements (set_value s i true) = {[i]} ∪ elements s ∧
  elements (set_value s i false) = elements s ∖ {[i]} ∧
  elements (keep_single s i) = elements s ∩ {[i]} ∧
  (∀ n, n ∈ elements (keep_range s i j) ↔ n ∈ elements s ∧ i ≤ n ≤ j) ∧
  elements new_full = list_to_set (N.of_nat <$> seq 0 128).
Proof.
  split_and!; [by apply elements_set|by apply elements_unset|by apply is_set_spec
    |by apply elements_set|by apply elements_unset|..|done].
  - unfold keep_single. rewrite is_set_spec by done. case_bool_decide.
    + rewrite elements_set by done. replace (elements (unset_all s)) with (∅ : gset N) by done.
      set_solver.
    + replace (elements (unset_all s)) with (∅ : gset N) by done. set_solver.
  - intros n. rewrite !elem_of_elements. cbn [bits keep_range]. autorewrite with bits.
    rewrite !testbit_wshl by done. autorewrite with bits.
    assert (N.testbit 1 (n - j) = (n <=? j)) as -> by apply testbit_one.
    rewrite !andb_true_iff, !negb_true_iff.
    destruct (N.ltb_spec n 128), (N.leb_spec i n), (N.leb_spec j n), (N.leb_spec n j),
      (N.ltb_spec (n - i) 128), (N.ltb_spec (n - j) 128); simpl; intuition (lia || done).
Qed.

Lemma variableset_elements_witness :
  elements (keep_single (set (set new_empty 5) 9) 5) = elements (set (set new_empty 5) 9) ∩ {[5]}.
Proof. apply (variableset_elements _ 5 9); vm_compute; reflexivity. Defined.

(** Draining: iterating a [VariableSet] terminates, yields exactly its
    elements, each once and in strictly ascending order, and their number is
    [count]; the two [find] operations return the least and greatest element. *)
Theorem variableset_iteration (s : VariableSet) (Hs : vs_wf s) :
  list_to_set (into_iter s) = elements s ∧
  Sorted.StronglySorted N.lt (into_iter s) ∧
  length (into_iter s) = count s ∧
  match find_first_set s, find_last_set s with
  | Some lo, Some hi =>
      lo ∈ elements s ∧ hi ∈ elements s ∧ ∀ j, j ∈ elements s → lo ≤ j ≤ hi
  | None, None => elements s = ∅
  | _, _ => False
  end.
Proof.
  destruct (iter_next_spec 128 s Hs) as [H1 H2].
  { rewrite size_elements. apply count_le_128. }
  split_and!; [done..| |].
  - rewrite <-size_elements, <-H1. symmetry. apply size_list_to_set.
    eapply strongly_sorted_NoDup; [|exact H2]. intros x. lia.
  - pose proof (find_first_set_spec s Hs). pose proof (find_last_set_spec s Hs).
    unfold find_first_set, find_last_set in *. destruct (negb _); naive_solver.
Qed.

Lemma variableset_iteration_witness :
  length (into_iter (set (set new_empty 5) 9)) = count (set (set new_empty 5) 9).
Proof. apply variableset_iteration. vm_compute; reflexivity. Defined.
