(* ===== verification/OwnerCover.v ===== *)
(** * OwnerCover: the persistent set of archive allocations a PATCH retains

    Source: [triblespace-core/src/patch.rs], [OwnerNode], [OwnerBranch],
    [OwnerCover] and [PATCHOwnerGuard].  The set is a binary Patricia trie over
    allocation addresses.  An [Arc<dyn ArchiveOwner>] is modelled by its data
    address, which is what [OwnerCover::address] reads and what membership is
    keyed by.  The debug assertions of the source are kept: an assertion that
    fails is [None], and the theorems show that none does. *)

From S2P Require Import Prelude.

Open Scope N_scope.

(** ** Data and operations *)

Inductive OwnerNode :=
  | Owner (owner : N)
  | OwnerBranch (mask : N) (zero one : OwnerNode).

Record OwnerCover := mkCover { latest_address : N; len : N; root : OwnerNode }.

Definition takes_one (address mask : N) : bool := negb (N.land address mask =? 0).

Definition critical_mask (left right : N) : res N :=
  let differing := N.lxor left right in
  _ ← massert (negb (differing =? 0));
  Some (wshl 64 1 (64 - 1 - (leading_zeros differing - 64))).

Fixpoint matching_owner (node : OwnerNode) (address : N) : N :=
  match node with
  | Owner owner => owner
  | OwnerBranch mask zero one =>
      if takes_one address mask then matching_owner one address else matching_owner zero address
  end.

Definition contains (node : OwnerNode) (address : N) : bool := matching_owner node address =? address.

Fixpoint insert_at (root inserted : OwnerNode) (inserted_address existing_address critical_mask : N)
    : res OwnerNode :=
  let split :=
    _ ← massert (negb (Bool.eqb (takes_one inserted_address critical_mask)
                                (takes_one existing_address critical_mask)));
    let '(zero, one) :=
      if takes_one inserted_address critical_mask then (root, inserted) else (inserted, root) in
    Some (OwnerBranch critical_mask zero one) in
  match root with
  | OwnerBranch mask zero one =>
      if critical_mask <? mask then
        if takes_one inserted_address mask then
          one ← insert_at one inserted inserted_address existing_address critical_mask;
          Some (OwnerBranch mask zero one)
        else
          zero ← insert_at zero inserted inserted_address existing_address critical_mask;
          Some (OwnerBranch mask zero one)
      else
        _ ← massert (negb (mask =? critical_mask));
        split
  | Owner _ => split
  end.

Definition insert (node : OwnerNode) (owner : N) : res (OwnerNode * bool) :=
  let address := owner in
  let existing_address := matching_owner node address in
  if existing_address =? address then Some (node, false)
  else
    critical_mask ← critical_mask address existing_address;
    node ← insert_at node (Owner owner) address existing_address critical_mask;
    Some (node, true).

(** [for_each_owner] visits this list. *)
Fixpoint owners (node : OwnerNode) : list N :=
  match node with
  | Owner owner => [owner]
  | OwnerBranch _ zero one => owners zero ++ owners one
  end.

Definition singleton (owner : N) : OwnerCover := mkCover owner 1 (Owner owner).

Definition retain (current : option OwnerCover) (owner : N) : res (option OwnerCover) :=
  match current with
  | None => Some (Some (singleton owner))
  | Some existing =>
      if latest_address existing =? owner then Some current
      else
        '(root, inserted) ← insert (root existing) owner;
        Some (Some (mkCover owner (len existing + N.b2n inserted) root))
  end.

(** [same_arc] is the answer of [Arc::ptr_eq]. *)
Definition union (same_arc : bool) (left right : option OwnerCover) : res (option OwnerCover) :=
  match right with
  | None => Some left
  | Some right_cover =>
      match left with
      | None => Some (Some right_cover)
      | Some left_cover =>
          if same_arc then Some (Some left_cover)
          else
            let '(result, additions) :=
              if len right_cover <=? len left_cover then (left_cover, right_cover)
              else (right_cover, left_cover) in
            result ← foldM (λ result owner,
              '(root, inserted) ← insert (root result) owner;
              Some (if inserted : bool then mkCover (latest_address result) (len result + 1) root
                    else result))
              result (owners (root additions));
            Some (Some (if latest_address result =? latest_address right_cover then result
                        else mkCover (latest_address right_cover) (len result) (root result)))
      end
  end.

Definition covers (self covered : OwnerCover) : bool :=
  if len self <? len covered then false
  else foldl (λ acc owner, acc && contains (root self) owner) true (owners (root covered)).

(** ** The invariant

    [ow B n]: the masks of [n] are single bits below [B] that decrease on
    every path, and each branch separates its owners at its bit. *)

Definition agree_above (i a a' : N) : Prop := ∀ j, i < j → N.testbit a j = N.testbit a' j.

#[warnings="-register-all"]
Inductive ow : N → OwnerNode → Prop :=
  | ow_owner B a : a < 2 ^ 64 → ow B (Owner a)
  | ow_branch B i z o : i < B → ow i z → ow i o →
      (∀ a, a ∈ owners z → N.testbit a i = false) →
      (∀ a, a ∈ owners o → N.testbit a i = true) →
      (∀ a a', a ∈ owners z ++ owners o → a' ∈ owners z ++ owners o → agree_above i a a') →
      ow B (OwnerBranch (2 ^ i) z o).

Definition cover_ok (c : OwnerCover) : Prop :=
  ow 64 (root c) ∧ len c = N.of_nat (length (owners (root c))) ∧ latest_address c ∈ owners (root c).

(** The exact set a receipt retains. *)
Definition owner_set (c : option OwnerCover) : gset N :=
  from_option (λ c, list_to_set (owners (root c))) ∅ c.

Definition receipt_ok (c : option OwnerCover) : Prop := ∀ c', c = Some c' → cover_ok c'.

(** ** Bits *)

Lemma takes_one_testbit a i : takes_one a (2 ^ i) = N.testbit a i.
Proof.
  unfold takes_one. destruct (N.testbit a i) eqn:E.
  - apply negb_true_iff, N.eqb_neq. intros E0. assert (N.testbit (N.land a (2 ^ i)) i = false) as E1.
    { by rewrite E0, N.bits_0. }
    rewrite N.land_spec, E, N.pow2_bits_true in E1. done.
  - apply negb_false_iff, N.eqb_eq, N.bits_inj. intros j. rewrite N.bits_0, N.land_spec.
    destruct (decide (i = j)) as [<-|Hne]; [by rewrite E|]. by rewrite N.pow2_bits_false, andb_false_r.
Qed.

(** The critical mask is the highest bit at which two addresses differ. *)
Lemma critical_mask_spec a e : a < 2 ^ 64 → e < 2 ^ 64 → a ≠ e →
  ∃ c, critical_mask a e = Some (2 ^ c) ∧ c < 64 ∧ N.testbit a c = negb (N.testbit e c) ∧
    agree_above c a e.
Proof.
  intros Ha He Hne. set (d := N.lxor a e).
  assert (d ≠ 0) as Hd by (intros E; by apply Hne, N.lxor_eq).
  assert (d < 2 ^ 64) as Hd64.
  { apply lt_pow2_testbit. intros i Hi. unfold d. rewrite N.lxor_spec.
    by rewrite (proj1 (lt_pow2_testbit _ _) Ha), (proj1 (lt_pow2_testbit _ _) He). }
  assert (N.log2 d < 64) as Hlog by (apply N.log2_lt_pow2; lia).
  exists (N.log2 d). unfold critical_mask. fold d. rewrite (proj2 (N.eqb_neq d 0)) by done.
  cbn [massert negb mbind option_bind]. split_and!.
  - f_equal. unfold leading_zeros. destruct d as [|p] eqn:Ed; [done|].
    replace (64 - 1 - (127 - N.log2 (N.pos p) - 64)) with (N.log2 (N.pos p)) by lia.
    unfold wshl. rewrite N.mod_small, N.shiftl_1_l, N.land_ones by done.
    apply N.mod_small. by apply N.pow_lt_mono_r.
  - done.
  - pose proof (N.bit_log2 d Hd) as Hb. unfold d in Hb. rewrite N.lxor_spec in Hb. fold d in Hb.
    by destruct (N.testbit a _), (N.testbit e _).
  - intros j Hj. pose proof (N.bits_above_log2 d j Hj) as Hb. unfold d in Hb.
    rewrite N.lxor_spec in Hb. by destruct (N.testbit a j), (N.testbit e j).
Qed.

Lemma pow2_ltb c i : (2 ^ c <? 2 ^ i) = (c <? i).
Proof. apply eq_iff_eq_true. rewrite !N.ltb_lt. symmetry. apply N.pow_lt_mono_r_iff. lia. Qed.

(** ** Structure *)

Lemma owners_nonempty n : owners n ≠ [].
Proof. induction n as [|m z IHz o IHo]; [done|]. simpl. by destruct (owners z). Qed.

Lemma ow_bound B n a : ow B n → a ∈ owners n → a < 2 ^ 64.
Proof. induction 1; simpl; set_solver. Qed.

Lemma ow_mono B B' n : ow B n → B ≤ B' → ow B' n.
Proof. destruct 1; intros; constructor; (done || lia). Qed.

Lemma ow_NoDup B n : ow B n → NoDup (owners n).
Proof.
  induction 1 as [|B i z o Hi Hz IHz Ho IHo Hz0 Ho1 Hag]; simpl; [apply NoDup_singleton|].
  apply NoDup_app. split_and!; [done| |done]. intros a Ha0 Ha1.
  apply Hz0 in Ha0. apply Ho1 in Ha1. congruence.
Qed.

Lemma matching_in n a : matching_owner n a ∈ owners n.
Proof. induction n; simpl; [set_solver|]. case_match; set_solver. Qed.

(** A member is found where its own bits lead. *)
Lemma matching_member B n a : ow B n → a ∈ owners n → matching_owner n a = a.
Proof.
  induction 1 as [|B i z o Hi Hz IHz Ho IHo Hz0 Ho1 Hag]; simpl; [set_solver|].
  rewrite takes_one_testbit. intros [Ha|Ha]%elem_of_app.
  - rewrite (Hz0 a Ha). by apply IHz.
  - rewrite (Ho1 a Ha). by apply IHo.
Qed.

Lemma contains_spec B n a : ow B n → contains n a = bool_decide (a ∈ owners n).
Proof.
  intros Hn. unfold contains. apply eq_iff_eq_true. rewrite N.eqb_eq, bool_decide_eq_true. split.
  - intros E. rewrite <-E. apply matching_in.
  - intros Ha. by eapply matching_member.
Qed.

(** ** Insertion *)

Lemma agree_via i e (l : list N) : (∀ x, x ∈ l → agree_above i x e) →
  ∀ x y, x ∈ l → y ∈ l → agree_above i x y.
Proof. intros Hl x y Hx Hy j Hj. by rewrite (Hl x Hx j Hj), (Hl y Hy j Hj). Qed.

(** A new address [a] joins two subtrees whose members agree with [e]. *)
Lemma agree_insert i c a e l l' : l' ≡ₚ a :: l → (∀ x y, x ∈ l → y ∈ l → agree_above i x y) →
  e ∈ l → agree_above c a e → c ≤ i → ∀ x y, x ∈ l' → y ∈ l' → agree_above i x y.
Proof.
  intros Hp Hl He Hag Hc. apply agree_via with e. intros x. rewrite Hp.
  intros [->|Hx]%elem_of_cons; [|by apply Hl]. intros j Hj. apply Hag. lia.
Qed.

(** The new branch at bit [c], above all of [root]. *)
Lemma split_ow B root a e c : ow c root → a < 2 ^ 64 → c < B → e ∈ owners root →
  N.testbit a c = negb (N.testbit e c) → agree_above c a e →
  (∀ x, x ∈ owners root → agree_above c x e ∧ N.testbit x c = N.testbit e c) →
  ∃ n', (let '(zero, one) := if N.testbit a c then (root, Owner a) else (Owner a, root) in
         Some (OwnerBranch (2 ^ c) zero one)) = Some n' ∧
    ow B n' ∧ owners n' ≡ₚ a :: owners root.
Proof.
  intros Hr Ha Hc He Hbit Hag Hall.
  assert (∀ x, x ∈ owners root → N.testbit x c = negb (N.testbit a c)) as Hc0.
  { intros x Hx. destruct (Hall x Hx) as [_ ->]. rewrite Hbit. by rewrite negb_involutive. }
  assert (∀ x y, x ∈ a :: owners root → y ∈ a :: owners root → agree_above c x y) as Hpair.
  { apply agree_via with e. intros x [->|Hx]%elem_of_cons; [done|by apply Hall]. }
  destruct (N.testbit a c) eqn:E; eexists; (split; [done|]); (split; [constructor|]); try done.
  all: try (by constructor).
  all: try (by intros ? ->%list_elem_of_singleton).
  - intros x y Hx Hy. apply Hpair; set_solver.
  - simpl. symmetry. apply Permutation_cons_append.
Qed.

Lemma insert_at_spec B root a e c : ow B root → a < 2 ^ 64 → e = matching_owner root a →
  N.testbit a c = negb (N.testbit e c) → agree_above c a e → c < B →
  ∃ n', insert_at root (Owner a) a e (2 ^ c) = Some n' ∧ ow B n' ∧ owners n' ≡ₚ a :: owners root.
Proof.
  intros Hr Ha He Hbit Hag. revert He.
  assert (negb (Bool.eqb (takes_one a (2 ^ c)) (takes_one e (2 ^ c))) = true) as Hassert.
  { rewrite !takes_one_testbit, Hbit. by destruct (N.testbit e c). }
  induction Hr as [B x Hx|B i z o Hi Hz IHz Ho IHo Hz0 Ho1 Hagree]; intros He Hc.
  { simpl in He. subst e. cbn [insert_at]. rewrite Hassert. cbn [massert mbind option_bind].
    rewrite takes_one_testbit. apply (split_ow B (Owner x) a x c); try done; [by constructor|by left|].
    by intros y ->%list_elem_of_singleton. }
  cbn [insert_at]. rewrite pow2_ltb, takes_one_testbit. cbn [matching_owner] in He.
  rewrite takes_one_testbit in He.
  assert (e ∈ owners z ++ owners o) as Hein.
  { subst e. apply elem_of_app. destruct (N.testbit a i); [right|left]; apply matching_in. }
  assert (N.testbit e i = N.testbit a i) as Hei.
  { subst e. destruct (N.testbit a i); [apply Ho1|apply Hz0]; apply matching_in. }
  destruct (N.ltb_spec c i) as [Hci|Hci].
  - destruct (N.testbit a i) eqn:E; [destruct (IHo He Hci) as (n' & -> & Hn' & Hp)
                                    |destruct (IHz He Hci) as (n' & -> & Hn' & Hp)].
    all: cbn [mbind option_bind]; eexists; split; [done|].
    + assert (owners z ++ owners n' ≡ₚ a :: owners z ++ owners o) as Hp'
        by (rewrite Hp; by rewrite Permutation_middle).
      split; [|done]. constructor; [done..| |].
      * intros x. rewrite Hp. intros [->|Hx]%elem_of_cons; auto.
      * by eapply agree_insert; [..|apply N.lt_le_incl].
    + assert (owners n' ++ owners o ≡ₚ a :: owners z ++ owners o) as Hp' by by rewrite Hp.
      split; [|done]. constructor; [done..| |done|].
      * intros x. rewrite Hp. intros [->|Hx]%elem_of_cons; auto.
      * by eapply agree_insert; [..|apply N.lt_le_incl].
  - assert (i < c) as Hic.
    { assert (i ≠ c) as Hne; [|lia]. intros ->. rewrite Hei in Hbit. by destruct (N.testbit a c). }
    rewrite (proj2 (N.eqb_neq (2 ^ i) (2 ^ c))).
    2:{ intros E%N.pow_inj_r; lia. }
    rewrite Hassert. cbn [negb massert mbind option_bind]. rewrite takes_one_testbit.
    apply (split_ow B (OwnerBranch (2 ^ i) z o) a e c); try done; [by constructor|].
    intros x Hx. split; [intros j Hj|]; apply (Hagree x e Hx Hein); lia.
Qed.

Lemma cover_insert_spec n a : ow 64 n → a < 2 ^ 64 →
  ∃ n', insert n a = Some (n', bool_decide (a ∉ owners n)) ∧ ow 64 n' ∧
    owners n' ≡ₚ (if bool_decide (a ∉ owners n) then [a] else []) ++ owners n.
Proof.
  intros Hn Ha. unfold insert. destruct (N.eqb_spec (matching_owner n a) a) as [E|E].
  - assert (a ∈ owners n) as Hin by (rewrite <-E at 1; apply matching_in).
    rewrite bool_decide_eq_false_2 by auto. by exists n.
  - assert (a ∉ owners n) as Hin by (intros Hin; apply E; by eapply matching_member).
    rewrite bool_decide_eq_true_2 by done.
    destruct (critical_mask_spec a (matching_owner n a)) as (c & -> & Hc & Hbit & Hag); [done| |done|].
    { eapply ow_bound; [done|apply matching_in]. }
    cbn [mbind option_bind].
    destruct (insert_at_spec 64 n a _ c Hn Ha eq_refl Hbit Hag Hc) as (n' & -> & ? & ?).
    by exists n'.
Qed.

(** ** Canonical shape *)

(** The bit of a branch is the highest one at which its owners differ. *)
Lemma ow_top i z o z' o' i' : 
  (∀ a, a ∈ owners z → N.testbit a i = false) → (∀ a, a ∈ owners o → N.testbit a i = true) →
  (∀ a, a ∈ owners z ++ owners o → a ∈ owners z' ++ owners o') →
  (∀ a a', a ∈ owners z' ++ owners o' → a' ∈ owners z' ++ owners o' → agree_above i' a a') → i ≤ i'.
Proof.
  intros Hz Ho Hs Hag. destruct (N.le_gt_cases i i') as [|Hlt]; [done|exfalso].
  pose proof (matching_in z 0) as Hm0. pose proof (matching_in o 0) as Hm1.
  assert (N.testbit (matching_owner z 0) i = N.testbit (matching_owner o 0) i) as E.
  { apply Hag; [..|done]; apply Hs; set_solver. }
  rewrite (Hz _ Hm0), (Ho _ Hm1) in E. done.
Qed.

(** A branch has two owners. *)
Lemma ow_branch_two i z o x : (∀ a, a ∈ owners z → N.testbit a i = false) →
  (∀ a, a ∈ owners o → N.testbit a i = true) → ¬ (∀ a, a ∈ owners z ++ owners o → a = x).
Proof.
  intros Hz Ho Hall. pose proof (matching_in z 0) as H0. pose proof (matching_in o 0) as H1.
  assert (matching_owner z 0 = matching_owner o 0) as E.
  { transitivity x; [|symmetry]; apply Hall; set_solver. }
  apply Hz in H0. apply Ho in H1. congruence.
Qed.

(** The shape depends only on the set of owners. *)
Lemma ow_canonical B B' n n' : ow B n → ow B' n' → (∀ a, a ∈ owners n ↔ a ∈ owners n') → n = n'.
Proof.
  intros Hn. revert B' n'.
  induction Hn as [B x Hx|B i z o Hi Hz IHz Ho IHo Hz0 Ho1 Hag]; intros B' n' Hn' Heq;
    destruct Hn' as [B' y Hy|B' i' z' o' Hi' Hz' Ho' Hz0' Ho1' Hag'].
  - f_equal. symmetry. apply list_elem_of_singleton, Heq. by left.
  - destruct (ow_branch_two i' z' o' x); [done..|]. intros a Ha. by apply list_elem_of_singleton, Heq.
  - destruct (ow_branch_two i z o y); [done..|]. intros a Ha. by apply list_elem_of_singleton, Heq.
  - simpl in Heq. assert (i = i') as <-.
    { apply N.le_antisymm; [apply (ow_top i z o z' o')|apply (ow_top i' z' o' z o)]; try done; apply Heq. }
    assert (∀ a, a ∈ owners z ∨ a ∈ owners o ↔ a ∈ owners z' ∨ a ∈ owners o') as Hs.
    { intros a. by rewrite <-!elem_of_app. }
    assert (∀ a b : bool, a = true → a = false → b) as Hbit by congruence.
    f_equal; [eapply IHz|eapply IHo]; try done; intros a; specialize (Hs a);
      specialize (Hz0 a); specialize (Ho1 a); specialize (Hz0' a); specialize (Ho1' a);
      destruct (N.testbit a i); naive_solver.
Qed.

(** ** Receipts *)

Lemma cover_len c : cover_ok c → len c = N.of_nat (size (owner_set (Some c))).
Proof.
  intros (Hr & -> & _). simpl. by rewrite size_list_to_set by by eapply ow_NoDup.
Qed.

Lemma cover_set_eq c c' : cover_ok c → cover_ok c' → owner_set (Some c) = owner_set (Some c') →
  root c = root c' ∧ len c = len c'.
Proof.
  intros Hc Hc' E. split; [|by rewrite !cover_len, E].
  eapply ow_canonical; [apply Hc|apply Hc'|]. intros a. simpl in E.
  by rewrite <-!(elem_of_list_to_set (C:=gset N)), E.
Qed.

(** One owner joins a cover, whatever it then records as the latest. *)
Lemma cover_insert c a l : cover_ok c → a < 2 ^ 64 → l ∈ a :: owners (root c) →
  ∃ n b, insert (root c) a = Some (n, b) ∧ cover_ok (mkCover l (len c + N.b2n b) n) ∧
    owner_set (Some (mkCover l (len c + N.b2n b) n)) = {[a]} ∪ owner_set (Some c) ∧
    (b = false → n = root c).
Proof.
  intros (Hr & Hlen & Hlat) Ha Hl. destruct (cover_insert_spec (root c) a Hr Ha) as (n & Hn & Hown & Hp).
  exists n, (bool_decide (a ∉ owners (root c))). split_and!; [done| | |].
  - split_and!; simpl; [done| |].
    + rewrite Hlen, Hp, length_app. case_bool_decide; simpl; lia.
    + rewrite Hp. case_bool_decide; simpl; set_solver.
  - unfold owner_set. simpl. rewrite (list_to_set_perm_L _ _ Hp). case_bool_decide; simpl; set_solver.
  - intros Hb. eapply ow_canonical; [done..|]. rewrite Hb in Hp. intros a'. by rewrite Hp.
Qed.

Lemma union_fold l c : cover_ok c → (∀ a, a ∈ l → a < 2 ^ 64) →
  ∃ c', foldM (λ result owner,
      '(root, inserted) ← insert (root result) owner;
      Some (if inserted : bool then mkCover (latest_address result) (len result + 1) root else result))
      c l = Some c' ∧ cover_ok c' ∧ latest_address c' = latest_address c ∧
    owner_set (Some c') = list_to_set l ∪ owner_set (Some c).
Proof.
  revert c. induction l as [|a l IH]; intros c Hc Hl.
  { exists c. split_and!; [done..|]. set_solver. }
  destruct (cover_insert c a (latest_address c) Hc) as (n & b & Hn & Hc1 & Hs1 & Hsame); [set_solver| |].
  { right. apply Hc. }
  cbn [foldM]. rewrite Hn. cbn [mbind option_bind].
  assert ((if b then mkCover (latest_address c) (len c + 1) n else c) =
    mkCover (latest_address c) (len c + N.b2n b) n) as ->.
  { destruct b; [done|]. rewrite Hsame by done. destruct c; simpl. f_equal. lia. }
  destruct (IH _ Hc1) as (c' & -> & Hc' & Hlat & Hs); [set_solver|].
  exists c'. split_and!; [done..|]. rewrite Hs, Hs1. simpl. set_solver.
Qed.

Lemma cover_bound c a : cover_ok c → a ∈ owner_set (Some c) → a < 2 ^ 64.
Proof. intros (Hr & _) Ha. simpl in Ha. apply elem_of_list_to_set in Ha. by eapply ow_bound. Qed.

Lemma owner_set_elem c a : a ∈ owner_set (Some c) ↔ a ∈ owners (root c).
Proof. apply elem_of_list_to_set. Qed.

(** Publishing a different latest address. *)
Lemma cover_latest c a : cover_ok c → a ∈ owner_set (Some c) →
  cover_ok (mkCover a (len c) (root c)).
Proof. intros (H1 & H2 & _) Ha%owner_set_elem. by split_and!. Qed.

Lemma retain_spec current owner : receipt_ok current → owner < 2 ^ 64 →
  ∃ c, retain current owner = Some (Some c) ∧ cover_ok c ∧ latest_address c = owner ∧
    owner_set (Some c) = {[owner]} ∪ owner_set current.
Proof.
  intros Hok Ho. destruct current as [c|]; simpl.
  - specialize (Hok c eq_refl). destruct (N.eqb_spec (latest_address c) owner) as [E|E].
    + exists c. split_and!; [done..|]. assert (owner ∈ owner_set (Some c)); [|set_solver].
      apply owner_set_elem. rewrite <-E. apply Hok.
    + destruct (cover_insert c owner owner Hok Ho) as (n & b & -> & Hc & Hs & _); [by left|].
      cbn [mbind option_bind]. eauto.
  - exists (singleton owner). split_and!; [done| |done|simpl; set_solver].
    split_and!; simpl; [by constructor|done|by left].
Qed.

Lemma cover_union_spec same_arc left right :
  receipt_ok left → receipt_ok right → (same_arc = true → left = right) →
  ∃ u, union same_arc left right = Some u ∧ receipt_ok u ∧
    owner_set u = owner_set left ∪ owner_set right ∧
    (∀ r, right = Some r → latest_address <$> u = Some (latest_address r)).
Proof.
  intros Hl Hr Harc.
  destruct right as [r|]; simpl; [|exists left; split_and!; [done..|set_solver|done]].
  destruct left as [l|]; simpl; [|exists (Some r); split_and!; [done..|set_solver|naive_solver]].
  destruct same_arc.
  { injection (Harc eq_refl) as ->. exists (Some r). split_and!; [done..|set_solver|naive_solver]. }
  specialize (Hl l eq_refl). specialize (Hr r eq_refl). clear Harc.
  assert (∃ result additions, (if len r <=? len l then (l, r) else (r, l)) = (result, additions) ∧
    cover_ok result ∧ cover_ok additions ∧
    owner_set (Some additions) ∪ owner_set (Some result) = owner_set (Some l) ∪ owner_set (Some r))
    as (result & additions & -> & Hres & Hadd & Hset).
  { destruct (_ <=? _); eexists _, _; split_and!; try done. set_solver. }
  destruct (union_fold (owners (root additions)) result Hres) as (c & -> & Hc & _ & Hcs).
  { intros a Ha. by apply (cover_bound additions), owner_set_elem. }
  cbn [mbind option_bind]. eexists. split; [done|].
  assert (owner_set (Some c) = owner_set (Some l) ∪ owner_set (Some r)) as Hcs' by (by rewrite Hcs, <-Hset).
  assert (latest_address r ∈ owner_set (Some c)) as Hin.
  { rewrite Hcs'. apply elem_of_union_r, owner_set_elem, Hr. }
  split_and!.
  - intros c' [= <-]. case_match; [done|]. by apply cover_latest.
  - by case_match.
  - intros ? [= <-]. simpl. destruct (N.eqb_spec (latest_address c) (latest_address r)) as [E|]; [by rewrite E|done].
Qed.

(** ** What the receipts promise *)

(** Retaining an archive owner never trips an assertion, keeps the receipt
    well formed (exact length, decreasing masks, latest owner a member) and
    adds exactly that owner. *)
Theorem owner_retain (current : option OwnerCover) (owner : N) :
  receipt_ok current → owner < 2 ^ 64 →
  ∃ c, retain current owner = Some (Some c) ∧ cover_ok c ∧ latest_address c = owner ∧
    owner_set (Some c) = {[owner]} ∪ owner_set current.
Proof. apply retain_spec. Qed.

(** Joining two receipts never trips an assertion and retains exactly the
    union of the two owner sets, whichever of the two the code extends; two
    joins with the same owner set have the same trie. *)
Theorem owner_union (same_arc : bool) (left right : option OwnerCover) :
  receipt_ok left → receipt_ok right → (same_arc = true → left = right) →
  ∃ u, union same_arc left right = Some u ∧ receipt_ok u ∧
    owner_set u = owner_set left ∪ owner_set right ∧
    (∀ r, right = Some r → latest_address <$> u = Some (latest_address r)) ∧
    ∀ c, cover_ok c → owner_set (Some c) = owner_set left ∪ owner_set right →
      root <$> u = Some (root c).
Proof.
  intros Hl Hr Harc.
  destruct (cover_union_spec same_arc left right Hl Hr Harc) as (u & Hu & Hok & Hs & Hlat).
  exists u. split_and!; [done..|]. intros c Hc E. destruct u as [u|].
  - simpl. f_equal. apply cover_set_eq; [by apply Hok|done|]. by rewrite Hs, E.
  - exfalso. assert (latest_address c ∈ owner_set (Some c)) as Hin by apply owner_set_elem, Hc.
    rewrite E, <-Hs in Hin. simpl in Hin. set_solver.
Qed.

(** The audit of a receipt replacement decides exactly the subset relation
    of the two owner sets. *)
Theorem owner_covers (self covered : OwnerCover) : cover_ok self → cover_ok covered →
  covers self covered = bool_decide (owner_set (Some covered) ⊆ owner_set (Some self)).
Proof.
  intros Hs Hc. apply eq_iff_eq_true. rewrite bool_decide_eq_true. unfold covers.
  assert (∀ l b, foldl (λ acc owner, acc && contains (root self) owner) b l = true ↔
    b = true ∧ ∀ a, a ∈ l → a ∈ owners (root self)) as Hfold.
  { induction l as [|a l IH]; intros b; simpl; [set_solver|]. destruct Hs as (Hs & _).
    rewrite IH, andb_true_iff, (contains_spec 64) by done. rewrite bool_decide_eq_true. set_solver. }
  destruct (N.ltb_spec (len self) (len covered)) as [Hlt|Hge].
  - split; [done|]. intros Hsub%subseteq_size. rewrite !cover_len in Hlt by done. lia.
  - rewrite Hfold. split.
    + intros [_ Hsub] a Ha%owner_set_elem. by apply owner_set_elem, Hsub.
    + intros Hsub. split; [done|]. intros a Ha%owner_set_elem. by apply owner_set_elem, Hsub.
Qed.

(** ** Witnesses *)

(** The cover of a list of allocations, in the order the loop of [union] adds them. *)
Definition ex_cover (a : N) (l : list N) : OwnerCover :=
  default (singleton a) (foldM (λ result owner,
    '(root, inserted) ← insert (root result) owner;
    Some (if inserted : bool then mkCover (latest_address result) (len result + 1) root else result))
    (singleton a) l).

Lemma ex_cover_ok a l : Forall (λ a, a < 2 ^ 64) (a :: l) → cover_ok (ex_cover a l).
Proof.
  intros [Ha Hl]%Forall_cons. unfold ex_cover.
  destruct (union_fold l (singleton a)) as (c & -> & Hc & _); [| |done].
  - split_and!; simpl; [by constructor|done|by left].
  - by apply Forall_forall.
Qed.

Lemma ex_cover_receipt a l : Forall (λ a, a < 2 ^ 64) (a :: l) → receipt_ok (Some (ex_cover a l)).
Proof. intros H ? [= <-]. by apply ex_cover_ok. Qed.

Lemma owner_retain_witness :
  root (ex_cover 16 [32; 33]) = OwnerBranch 32 (Owner 16) (OwnerBranch 1 (Owner 32) (Owner 33)) ∧
  ∃ c, retain (Some (ex_cover 16 [32; 33])) 48 = Some (Some c) ∧ cover_ok c ∧ latest_address c = 48 ∧
    owner_set (Some c) = {[48]} ∪ owner_set (Some (ex_cover 16 [32; 33])).
Proof.
  split; [reflexivity|]. apply (owner_retain (Some (ex_cover 16 [32; 33])) 48); [|reflexivity].
  apply ex_cover_receipt. repeat constructor.
Defined.

Lemma owner_union_witness :
  ∃ u, union false (Some (ex_cover 16 [32])) (Some (ex_cover 48 [32; 80])) = Some u ∧
    len <$> u = Some 4 ∧
    owner_set u = owner_set (Some (ex_cover 16 [32])) ∪ owner_set (Some (ex_cover 48 [32; 80])).
Proof.
  destruct (owner_union false (Some (ex_cover 16 [32])) (Some (ex_cover 48 [32; 80])))
    as (u & Hu & _ & Hs & _); [apply ex_cover_receipt; repeat constructor..|done|].
  exists u. split; [done|]. split; [|done]. vm_compute in Hu. injection Hu as <-. reflexivity.
Defined.

Lemma owner_covers_witness :
  covers (ex_cover 16 [32; 48]) (ex_cover 48 [16]) = true ∧
  covers (ex_cover 48 [16]) (ex_cover 16 [32; 48]) = false ∧
  owner_set (Some (ex_cover 48 [16])) ⊆ owner_set (Some (ex_cover 16 [32; 48])).
Proof.
  split; [reflexivity|]. split; [reflexivity|].
  apply (bool_decide_eq_true_1 (owner_set (Some (ex_cover 48 [16])) ⊆ owner_set (Some (ex_cover 16 [32; 48])))).
  rewrite <-owner_covers; [reflexivity|apply ex_cover_ok; repeat constructor..].
Defined.
