(* ===== verification/ByteTable.v ===== *)
(** * ByteTable: the cuckoo hash tables of PATCH branches

    Source: [triblespace-core/src/patch/bytetable.rs].  A table is a slice of
    [Option<T>] whose length is a power of two between 2 and 256, read as
    buckets of two slots.  An entry with byte key [k] lives in its cheap bucket
    or in its random bucket; [plan_insert] moves entries along a cuckoo path,
    [table_grow] doubles the table.

    [rand_hash] is the process-wide random permutation table
    [RANDOM_PERMUTATION_HASH]; it is a parameter and the theorems hold for every
    function. *)

From S2P Require Import Prelude.

Open Scope N_scope.

(** ** Constants and byte sets *)

Definition BUCKET_ENTRY_COUNT : nat := 2.
Definition MAX_SLOT_COUNT : nat := 256.
Definition MAX_RETRIES : nat := 2.

(** [ByteSet]: two [u128] words. *)
Record ByteSet := mkByteSet { word0 : N; word1 : N }.

Definition byteset_empty : ByteSet := mkByteSet 0 0.

Definition byteset_word (s : ByteSet) (idx : N) : N :=
  if N.shiftr idx 7 =? 0 then word0 s else word1 s.
Definition byteset_with (s : ByteSet) (idx w : N) : ByteSet :=
  if N.shiftr idx 7 =? 0 then mkByteSet w (word1 s) else mkByteSet (word0 s) w.

Definition byteset_insert (s : ByteSet) (idx : N) : ByteSet :=
  let bit := N.land idx 127 in
  byteset_with s idx (N.lor (byteset_word s idx) (wshl 128 1 bit)).
Definition byteset_remove (s : ByteSet) (idx : N) : ByteSet :=
  let bit := N.land idx 127 in
  byteset_with s idx (N.land (byteset_word s idx) (wnot 128 (wshl 128 1 bit))).
Definition byteset_contains (s : ByteSet) (idx : N) : bool :=
  let bit := N.land idx 127 in
  negb (N.land (byteset_word s idx) (wshl 128 1 bit) =? 0).

Definition byteset_intersect (s t : ByteSet) : ByteSet :=
  mkByteSet (N.land (word0 s) (word0 t)) (N.land (word1 s) (word1 t)).
Definition byteset_symmetric_difference (s t : ByteSet) : ByteSet :=
  mkByteSet (N.lxor (word0 s) (word0 t)) (N.lxor (word1 s) (word1 t)).

Definition byteset_popcount (s : ByteSet) : nat := count_ones (word0 s) + count_ones (word1 s).

Definition byteset_drain_next_ascending (s : ByteSet) : option N * ByteSet :=
  if negb (word0 s =? 0) then
    let bit := trailing_zeros (word0 s) in
    (Some bit, mkByteSet (N.land (word0 s) (wnot 128 (wshl 128 1 bit))) (word1 s))
  else if negb (word1 s =? 0) then
    let bit := trailing_zeros (word1 s) in
    (Some (128 + bit), mkByteSet (word0 s) (N.land (word1 s) (wnot 128 (wshl 128 1 bit))))
  else (None, s).

(** ** Hashes *)

Definition cheap_hash (byte_key : N) : N := byte_key.

(** [hash & (bucket_count - 1)], with the [as u8] truncation and the [u8]
    subtraction written out. *)
Definition compress_hash (slot_count : nat) (hash : N) : N :=
  let bucket_count := N.of_nat (slot_count / BUCKET_ENTRY_COUNT) mod 256 in
  let mask := (bucket_count + 255) mod 256 in
  N.land hash mask.

(** ** Tables *)

Section table.
Context {T : Type} (key : T → N) (rand_hash : N → N).

Definition cheap_bucket (n : nat) (k : N) : nat := N.to_nat (compress_hash n (cheap_hash k)).
Definition rand_bucket (n : nat) (k : N) : nat := N.to_nat (compress_hash n (rand_hash k)).

(** The first empty slot of a bucket. *)
Fixpoint find_hole (table : list (option T)) (start : nat) (slots : list nat)
    : res (option nat) :=
  match slots with
  | [] => Some None
  | slot_idx :: slots =>
      s ← table !! (start + slot_idx)%nat;
      match s with
      | None => Some (Some (start + slot_idx)%nat)
      | Some _ => find_hole table start slots
      end
  end.

Definition bucket_slots : list nat := seq 0 BUCKET_ENTRY_COUNT.

(** One bucket of the cuckoo search: every occupied slot whose key was not
    visited is offered its other bucket; [rec] is the recursive call.  The table
    and the visited set are threaded as the [&mut] arguments of the source. *)
Fixpoint try_slots
    (rec : list (option T) → nat → ByteSet → res (option nat * list (option T) * ByteSet))
    (bucket_idx : nat) (slots : list nat) (table : list (option T)) (visited : ByteSet)
    : res (option nat * list (option T) * ByteSet) :=
  match slots with
  | [] => Some (None, table, visited)
  | slot_idx :: slots =>
      let src := (bucket_idx * BUCKET_ENTRY_COUNT + slot_idx)%nat in
      slot ← table !! src;
      entry ← slot;
      let k := key entry in
      if byteset_contains visited k then try_slots rec bucket_idx slots table visited
      else
        let visited := byteset_insert visited k in
        let cheap := cheap_bucket (length table) k in
        let rand := rand_bucket (length table) k in
        let alt_idx := if (bucket_idx =? cheap)%nat then rand else cheap in
        if negb (alt_idx =? bucket_idx)%nat then
          r ← rec table alt_idx visited;
          match r with
          | (Some hole_idx, table, visited) =>
              moved ← table !! src;
              Some (Some src, <[hole_idx := moved]> (<[src := None]> table),
                    byteset_remove visited k)
          | (None, table, visited) =>
              try_slots rec bucket_idx slots table (byteset_remove visited k)
          end
        else try_slots rec bucket_idx slots table (byteset_remove visited k)
  end.

(** The cuckoo search from a bucket, at most [depth] displacements deep. *)
Fixpoint plan_insert (depth : nat) (table : list (option T)) (bucket_idx : nat)
    (visited : ByteSet) {struct depth}
    : res (option nat * list (option T) * ByteSet) :=
  hole ← find_hole table (bucket_idx * BUCKET_ENTRY_COUNT)%nat bucket_slots;
  match hole with
  | Some i => Some (Some i, table, visited)
  | None =>
      match depth with
      | O => Some (None, table, visited)
      | S depth' =>
          try_slots (λ t b v, plan_insert depth' t b v) bucket_idx bucket_slots table visited
      end
  end.

(** Lookup in one bucket, then in the other. *)
Fixpoint find_in_bucket (table : list (option T)) (start : nat) (byte_key : N)
    (slots : list nat) : res (option nat) :=
  match slots with
  | [] => Some None
  | slot :: slots =>
      s ← table !! (start + slot)%nat;
      match s with
      | Some entry =>
          if key entry =? byte_key then Some (Some (start + slot)%nat)
          else find_in_bucket table start byte_key slots
      | None => find_in_bucket table start byte_key slots
      end
  end.

(** The slot index holding [byte_key]: [table_get_slot]. *)
Definition table_get_slot (table : list (option T)) (byte_key : N) : res (option nat) :=
  let cheap_start := (cheap_bucket (length table) byte_key * BUCKET_ENTRY_COUNT)%nat in
  r ← find_in_bucket table cheap_start byte_key bucket_slots;
  match r with
  | Some i => Some (Some i)
  | None =>
      let rand_start := (rand_bucket (length table) byte_key * BUCKET_ENTRY_COUNT)%nat in
      find_in_bucket table rand_start byte_key bucket_slots
  end.

Definition table_get (table : list (option T)) (byte_key : N) : res (option T) :=
  r ← table_get_slot table byte_key;
  match r with
  | Some i => table !! i
  | None => Some None
  end.

(** [table_insert] returns the entry when it does not fit; the table is the
    [&mut self] result. *)
Definition table_insert (table : list (option T)) (inserted : T)
    : res (option T * list (option T)) :=
  let k := key inserted in
  let visited := byteset_insert byteset_empty k in
  let limit := if (length table =? MAX_SLOT_COUNT)%nat then MAX_SLOT_COUNT else MAX_RETRIES in
  r ← plan_insert limit table (cheap_bucket (length table) k) visited;
  match r with
  | (Some slot, table, _) => Some (None, <[slot := Some inserted]> table)
  | (None, table, visited) =>
      r ← plan_insert limit table (rand_bucket (length table) k) visited;
      match r with
      | (Some slot, table, _) => Some (None, <[slot := Some inserted]> table)
      | (None, table, _) => Some (Some inserted, table)
      end
  end.

(** Puts [entry] into the first empty slot of a destination bucket; like the
    source loop it drops the entry when the bucket is full. *)
Fixpoint place_in (grown : list (option T)) (start : nat) (slots : list nat) (entry : T)
    : res (list (option T)) :=
  match slots with
  | [] => Some grown
  | slot :: slots =>
      s ← grown !! (start + slot)%nat;
      match s with
      | None => Some (<[(start + slot)%nat := Some entry]> grown)
      | Some _ => place_in grown start slots entry
      end
  end.

(** One source slot of [table_grow]. *)
Definition grow_slot (old_len : nat) (grown : list (option T)) (i : nat) (s : option T)
    : res (list (option T)) :=
  match s with
  | None => Some grown
  | Some entry =>
      let bucket_index := (i / BUCKET_ENTRY_COUNT)%nat in
      let start := (bucket_index * BUCKET_ENTRY_COUNT)%nat in
      let grown_len := length grown in
      let cheap_index := compress_hash grown_len (cheap_hash (key entry)) in
      let rand_index := compress_hash grown_len (rand_hash (key entry)) in
      if (N.of_nat bucket_index mod 256 =? cheap_index)
         || (N.of_nat bucket_index mod 256 =? rand_index)
      then place_in grown start bucket_slots entry
      else place_in grown (old_len + start)%nat bucket_slots entry
  end.

Fixpoint grow_slots (old_len : nat) (grown : list (option T)) (i : nat)
    (slots : list (option T)) : res (list (option T)) :=
  match slots with
  | [] => Some grown
  | s :: slots =>
      grown ← grow_slot old_len grown i s;
      grow_slots old_len grown (S i) slots
  end.

Definition table_grow (table grown : list (option T)) : res (list (option T)) :=
  grow_slots (length table) grown 0 table.

(** ** Invariant and abstraction *)

(** The entries of a table, in slot order. *)
Definition entries (table : list (option T)) : list T := omap id table.

(** Table sizes: powers of two from 2 to 256. *)
Definition size_ok (n : nat) : Prop := ∃ e : nat, (1 ≤ e ≤ 8)%nat ∧ n = (2 ^ e)%nat.

Definition placed (n : nat) (i : nat) (k : N) : Prop :=
  (i / 2 = cheap_bucket n k ∨ i / 2 = rand_bucket n k)%nat.

Record table_ok (table : list (option T)) : Prop := {
  ok_size : size_ok (length table);
  ok_placed : ∀ i e, table !! i = Some (Some e) → placed (length table) i (key e);
  ok_unique : NoDup (key <$> entries table);
  ok_bytes : ∀ e, e ∈ entries table → key e < 256;
}.
End table.

(** ** Byte sets *)

Definition byteset_wf (s : ByteSet) : Prop := word0 s < 2 ^ 128 ∧ word1 s < 2 ^ 128.

Lemma testbit_shl1_128 i j : j < 128 → N.testbit (wshl 128 1 j) i = (i =? j).
Proof.
  intros Hj. rewrite testbit_wshl by done.
  destruct (N.leb_spec j i); [|by rewrite andb_false_r, (proj2 (N.eqb_neq i j)) by lia].
  destruct (N.eqb_spec i j) as [->|].
  - rewrite N.sub_diag. destruct (N.ltb_spec j 128); [done|lia].
  - destruct (i - j) as [|p] eqn:E; [lia|]. destruct p; simpl; by rewrite andb_false_r.
Qed.

Lemma land_127 k : N.land k 127 < 128.
Proof. change 127 with (N.ones 7). rewrite N.land_ones. by apply N.mod_lt. Qed.

Lemma byte_split k : k = 128 * N.shiftr k 7 + N.land k 127.
Proof.
  change 127 with (N.ones 7). rewrite N.land_ones, N.shiftr_div_pow2.
  apply N.div_mod'.
Qed.

Lemma shiftr_7_byte k : k < 256 → N.shiftr k 7 = 0 ∨ N.shiftr k 7 = 1.
Proof.
  intros Hk. rewrite N.shiftr_div_pow2.
  assert (k / 2 ^ 7 < 2) as H by (apply N.Div0.div_lt_upper_bound; simpl; lia).
  destruct (k / 2 ^ 7) as [|[]]; auto; lia.
Qed.

Lemma land_shl1_zero w j : j < 128 → (N.land w (wshl 128 1 j) =? 0) = negb (N.testbit w j).
Proof.
  intros Hj. apply eq_true_iff_eq. rewrite N.eqb_eq, negb_true_iff. split.
  - intros H. apply (f_equal (λ x, N.testbit x j)) in H. revert H. autorewrite with bits.
    by rewrite testbit_shl1_128, N.eqb_refl, andb_true_r by done.
  - intros H. apply N.bits_inj. intros i. autorewrite with bits.
    rewrite testbit_shl1_128 by done. destruct (N.eqb_spec i j) as [->|]; [by rewrite H|].
    by rewrite andb_false_r.
Qed.

Lemma byteset_contains_bit s k :
  byteset_contains s k = N.testbit (byteset_word s k) (N.land k 127).
Proof. unfold byteset_contains. by rewrite land_shl1_zero, negb_involutive by apply land_127. Qed.

Lemma byteset_word_with s k k' w :
  byteset_word (byteset_with s k w) k' =
    if Bool.eqb (N.shiftr k 7 =? 0) (N.shiftr k' 7 =? 0) then w else byteset_word s k'.
Proof. unfold byteset_word, byteset_with. repeat case_match; done. Qed.

Lemma byte_eq_split k k' : k < 256 → k' < 256 →
  (N.shiftr k 7 =? 0) = (N.shiftr k' 7 =? 0) → N.land k 127 = N.land k' 127 → k = k'.
Proof.
  intros Hk Hk' E1 E2. rewrite (byte_split k), (byte_split k'), E2.
  destruct (shiftr_7_byte k Hk) as [H|H], (shiftr_7_byte k' Hk') as [H'|H'];
    rewrite H, H' in *; done.
Qed.

Lemma byteset_contains_insert s k k' : k < 256 → k' < 256 →
  byteset_contains (byteset_insert s k) k' = (k' =? k) || byteset_contains s k'.
Proof.
  intros Hk Hk'. rewrite !byteset_contains_bit. unfold byteset_insert. rewrite byteset_word_with.
  destruct (Bool.eqb _ _) eqn:E.
  - apply Bool.eqb_prop in E. autorewrite with bits.
    rewrite testbit_shl1_128 by apply land_127.
    unfold byteset_word. rewrite E. destruct (N.eqb_spec (N.land k' 127) (N.land k 127)) as [E2|E2].
    + rewrite (byte_eq_split k k'), N.eqb_refl by done. by rewrite orb_true_r.
    + rewrite (proj2 (N.eqb_neq k' k)) by congruence. by rewrite orb_false_r.
  - apply Bool.eqb_false_iff in E. rewrite (proj2 (N.eqb_neq k' k)) by congruence. done.
Qed.

Lemma byteset_insert_wf s k : byteset_wf s → byteset_wf (byteset_insert s k).
Proof.
  intros [H0 H1]. unfold byteset_insert, byteset_with, byteset_word.
  case_match; split; simpl; try done; apply lt_pow2_testbit; intros i Hi;
    autorewrite with bits; rewrite testbit_shl1_128 by apply land_127;
    pose proof (land_127 k); rewrite (proj2 (N.eqb_neq i _)) by lia; rewrite orb_false_r;
    by apply (proj1 (lt_pow2_testbit 128 _)).
Qed.

Lemma byteset_remove_insert s k : byteset_wf s → byteset_contains s k = false →
  byteset_remove (byteset_insert s k) k = s.
Proof.
  intros [H0 H1]. rewrite byteset_contains_bit.
  unfold byteset_remove, byteset_insert, byteset_with, byteset_word.
  destruct s as [w0 w1]. simpl. intros Hc.
  destruct (N.shiftr k 7 =? 0) eqn:E; simpl in *; f_equal; apply N.bits_inj; intros i;
    autorewrite with bits; rewrite !testbit_shl1_128 by apply land_127;
    (destruct (N.eqb_spec i (N.land k 127)) as [->|];
      [by rewrite Hc, andb_false_r|rewrite orb_false_r; simpl; rewrite andb_true_r]);
    (destruct (N.ltb_spec i 128); [by rewrite andb_true_r|rewrite andb_false_r; symmetry]);
    by apply (proj1 (lt_pow2_testbit 128 _)).
Qed.

Lemma byteset_empty_wf : byteset_wf byteset_empty.
Proof. by split. Qed.
#[export] Hint Resolve byteset_empty_wf byteset_insert_wf : core.

(** ** Draining

    [byteset_drain] is the loop [while let Some(edge) = edges.drain_next_ascending()];
    it lists the members in ascending order. *)

Fixpoint byteset_drain (fuel : nat) (s : ByteSet) : list N :=
  match fuel with
  | O => []
  | S fuel =>
      match byteset_drain_next_ascending s with
      | (Some i, s) => i :: byteset_drain fuel s
      | (None, _) => []
      end
  end.

(** The members of a byte set, in ascending order. *)
Definition byteset_elements (s : ByteSet) : list N :=
  filter (λ k, byteset_contains s k = true) (N.of_nat <$> seq 0 256).

Lemma elem_of_byteset_elements s k :
  k ∈ byteset_elements s ↔ k < 256 ∧ byteset_contains s k = true.
Proof.
  unfold byteset_elements. rewrite list_elem_of_filter, list_elem_of_fmap. split.
  - intros (H & n & -> & Hn%elem_of_seq). split; [lia|done].
  - intros [Hk H]. split; [done|]. exists (N.to_nat k). rewrite N2Nat.id, elem_of_seq. split; [done|lia].
Qed.

Lemma byteset_elements_sorted s : Sorted.StronglySorted N.lt (byteset_elements s).
Proof.
  unfold byteset_elements. generalize 0%nat as a, 256%nat as n. intros a n. revert a.
  induction n as [|n IH]; intros a; simpl; [constructor|].
  rewrite filter_cons. case_decide; [|apply IH]. constructor; [apply IH|].
  apply Forall_forall. intros k [_ (m & -> & Hm%elem_of_seq)%list_elem_of_fmap]%list_elem_of_filter. lia.
Qed.

Lemma testbit_high w i : w < 2 ^ 128 → 128 ≤ i → N.testbit w i = false.
Proof. intros Hw Hi. by apply (proj1 (lt_pow2_testbit 128 w) Hw). Qed.

(** The two halves of the key range. *)
Lemma byteset_contains_low s k : k < 128 → byteset_contains s k = N.testbit (word0 s) k.
Proof.
  intros Hk. rewrite byteset_contains_bit. unfold byteset_word.
  rewrite N.shiftr_div_pow2, N.div_small by done. simpl. change 127 with (N.ones 7).
  by rewrite N.land_ones, N.mod_small.
Qed.
Lemma byteset_contains_high s k : k < 128 → byteset_contains s (128 + k) = N.testbit (word1 s) k.
Proof.
  intros Hk. rewrite byteset_contains_bit. unfold byteset_word.
  change 127 with (N.ones 7). rewrite N.land_ones, N.shiftr_div_pow2. change (2 ^ 7) with 128.
  replace (128 + k) with (k + 1 * 128) by lia.
  by rewrite N.div_add, N.div_small, N.Div0.mod_add, N.mod_small by done.
Qed.

Lemma byte_halves k : k < 256 → k < 128 ∨ ∃ j, j < 128 ∧ k = 128 + j.
Proof. intros. destruct (N.lt_ge_cases k 128); [auto|]. right. exists (k - 128). lia. Qed.

Lemma byteset_clear_bit w i j : w < 2 ^ 128 → i < 128 →
  N.testbit (N.land w (wnot 128 (wshl 128 1 i))) j = N.testbit w j && negb (j =? i).
Proof.
  intros Hw Hi. autorewrite with bits. rewrite testbit_shl1_128 by done.
  destruct (N.ltb_spec j 128); [done|]. by rewrite (testbit_high w j).
Qed.

Lemma byteset_drain_next_spec s : byteset_wf s →
  match byteset_drain_next_ascending s with
  | (Some i, s') => byteset_wf s' ∧ i < 256 ∧ byteset_contains s i = true ∧
      (∀ k, k < i → byteset_contains s k = false) ∧
      ∀ k, k < 256 → byteset_contains s' k = byteset_contains s k && negb (k =? i)
  | (None, _) => ∀ k, k < 256 → byteset_contains s k = false
  end.
Proof.
  intros [H0 H1]. unfold byteset_drain_next_ascending.
  assert (∀ w m, w < 2 ^ 128 → N.land w m < 2 ^ 128) as Hland.
  { intros w m Hw. apply lt_pow2_testbit. intros i Hi. autorewrite with bits. by rewrite (testbit_high w i). }
  destruct (N.eqb_spec (word0 s) 0) as [E0|E0]; simpl.
  - destruct (N.eqb_spec (word1 s) 0) as [E1|E1]; simpl.
    + intros k [Hk|(j & Hj & ->)]%byte_halves; rewrite ?byteset_contains_low, ?byteset_contains_high by done;
        by rewrite ?E0, ?E1, N.bits_0.
    + destruct (trailing_zeros_lt 128 _ E1 H1) as (Ht & Hb & Hlow).
      split_and!; [split; [exact H0|by apply Hland]|lia|by rewrite byteset_contains_high|..].
      * intros k Hk. destruct (byte_halves k) as [?|(j & ? & ->)]; [lia|..].
        -- by rewrite byteset_contains_low, E0, N.bits_0.
        -- rewrite byteset_contains_high by done. apply Hlow. lia.
      * intros k [Hk|(j & Hj & ->)]%byte_halves.
        -- rewrite !byteset_contains_low by done. simpl. by rewrite E0, N.bits_0.
        -- rewrite !byteset_contains_high by done. simpl. rewrite byteset_clear_bit by done.
           f_equal. f_equal. apply eq_true_iff_eq. rewrite !N.eqb_eq. lia.
  - destruct (trailing_zeros_lt 128 _ E0 H0) as (Ht & Hb & Hlow).
    split_and!; [split; [by apply Hland|exact H1]|lia|by rewrite byteset_contains_low|..].
    + intros k Hk. rewrite byteset_contains_low by lia. by apply Hlow.
    + intros k [Hk|(j & Hj & ->)]%byte_halves.
      * rewrite !byteset_contains_low by done. simpl. by rewrite byteset_clear_bit.
      * rewrite !byteset_contains_high by done. simpl.
        rewrite (proj2 (N.eqb_neq _ _)) by lia. by rewrite andb_true_r.
Qed.

Lemma byteset_drain_elements fuel s : byteset_wf s →
  (length (byteset_elements s) ≤ fuel)%nat → byteset_drain fuel s = byteset_elements s.
Proof.
  revert s. induction fuel as [|fuel IH]; intros s Hs Hlen.
  { destruct (byteset_elements s); [done|simpl in Hlen; lia]. }
  simpl. pose proof (byteset_drain_next_spec s Hs) as Hd.
  destruct (byteset_drain_next_ascending s) as [[i|] s'].
  - destruct Hd as (Hs' & Hi & Hc & Hlow & Hrest).
    assert (byteset_elements s = i :: byteset_elements s') as E.
    { apply N_sorted_unique; [apply byteset_elements_sorted| |].
      - constructor; [apply byteset_elements_sorted|]. apply Forall_forall.
        intros k [Hk Hck]%elem_of_byteset_elements. rewrite Hrest in Hck by done.
        apply andb_true_iff in Hck as [Hck Hne]. apply negb_true_iff, N.eqb_neq in Hne.
        destruct (N.lt_trichotomy i k) as [?|[?|?]]; [done|done|]. by rewrite Hlow in Hck.
      - intros k. rewrite elem_of_cons, !elem_of_byteset_elements.
        destruct (decide (k = i)) as [->|Hne]; [naive_solver|].
        apply N.eqb_neq in Hne as Hb. split.
        + intros [Hk Hck]. right. split; [done|]. by rewrite Hrest, Hck, Hb.
        + intros [?|[Hk Hck]]; [done|]. rewrite Hrest, Hb, andb_true_r in Hck by done. done. }
    rewrite E in Hlen |- *. simpl in Hlen. f_equal. apply IH; [done|lia].
  - destruct (byteset_elements s) as [|k l] eqn:E; [done|].
    assert (k ∈ byteset_elements s) as [Hk Hc]%elem_of_byteset_elements by (rewrite E; set_solver).
    by rewrite Hd in Hc.
Qed.

Lemma length_filter_fmap {A B} (f : A → B) (P : B → Prop) (Q : A → Prop)
    `{∀ x, Decision (P x), ∀ x, Decision (Q x)} (l : list A) :
  (∀ x, x ∈ l → P (f x) ↔ Q x) → length (filter P (f <$> l)) = length (filter Q l).
Proof.
  induction l as [|x l IH]; intros HPQ; [done|]. rewrite fmap_cons, !filter_cons.
  assert (P (f x) ↔ Q x) by (apply HPQ; set_solver).
  repeat case_decide; simpl; try tauto; rewrite IH by set_solver; done.
Qed.

Lemma byteset_popcount_elements s : byteset_popcount s = length (byteset_elements s).
Proof.
  unfold byteset_popcount, byteset_elements, count_ones.
  change (seq 0 256) with (seq 0 128 ++ seq 128 128). rewrite fmap_app, filter_app, length_app.
  f_equal.
  - symmetry. apply length_filter_fmap. intros i Hi%elem_of_seq.
    by rewrite byteset_contains_low by lia.
  - replace (seq 128 128) with (Nat.add 128 <$> seq 0 128) by (by rewrite fmap_add_seq).
    rewrite <-list_fmap_compose. symmetry. apply length_filter_fmap. intros i Hi%elem_of_seq.
    unfold compose. rewrite Nat2N.inj_add. by rewrite byteset_contains_high by lia.
Qed.

(** Collecting bytes. *)
Lemma byteset_collect {A} (f : A → N) (l : list A) s : byteset_wf s → (∀ x, x ∈ l → f x < 256) →
  byteset_wf (foldl (λ s x, byteset_insert s (f x)) s l) ∧
  ∀ k, k < 256 → byteset_contains (foldl (λ s x, byteset_insert s (f x)) s l) k = true ↔
    k ∈ f <$> l ∨ byteset_contains s k = true.
Proof.
  revert s. induction l as [|x l IH]; intros s Hs Hf; simpl.
  { split; [done|]. intros k _. set_solver. }
  destruct (IH (byteset_insert s (f x))) as [H1 H2]; [auto|set_solver|]. split; [done|].
  intros k Hk. rewrite H2 by done. rewrite byteset_contains_insert by set_solver.
  rewrite orb_true_iff, N.eqb_eq. set_solver.
Qed.

Lemma byteset_empty_contains k : byteset_contains byteset_empty k = false.
Proof. rewrite byteset_contains_bit. unfold byteset_word, byteset_empty. simpl. case_match; apply N.bits_0. Qed.

(** Draining the byte set of a table's keys lists them in ascending order. *)
Lemma byteset_collect_drain {A} (f : A → N) (l l' : list A) : (∀ x, x ∈ l → f x < 256) →
  l' ≡ₚ l → Sorted.StronglySorted N.lt (f <$> l') →
  let s := foldl (λ s x, byteset_insert s (f x)) byteset_empty l in
  byteset_drain 256 s = f <$> l' ∧ byteset_popcount s = length l'.
Proof.
  intros Hf Hp Hsort s.
  destruct (byteset_collect f l byteset_empty) as [Hwf Hc]; [done..|]. fold s in Hwf, Hc.
  assert (byteset_elements s = f <$> l') as He.
  { apply N_sorted_unique; [apply byteset_elements_sorted|done|]. intros k.
    rewrite elem_of_byteset_elements, Hp. split.
    - intros [Hk Hck%Hc]; [|done]. rewrite byteset_empty_contains in Hck. naive_solver.
    - intros Hk. assert (k < 256) by (apply list_elem_of_fmap in Hk as (x & -> & Hx); auto).
      split; [done|]. apply Hc; auto. }
  split.
  - rewrite byteset_drain_elements; [done|done|]. unfold byteset_elements.
    etrans; [apply length_filter|]. by rewrite length_fmap, length_seq.
  - by rewrite byteset_popcount_elements, He, length_fmap.
Qed.

(** ** Buckets *)

Lemma compress_hash_mod e h : (1 ≤ e ≤ 8)%nat →
  compress_hash (2 ^ e) h = h mod 2 ^ N.of_nat (e - 1).
Proof.
  intros He. rewrite <-N.land_ones. unfold compress_hash. f_equal.
  do 9 (destruct e as [|e]; [try lia; reflexivity|]). lia.
Qed.

Lemma size_ok_even n : size_ok n → n = (2 * (n / 2))%nat ∧ (2 ≤ n ≤ 256)%nat.
Proof.
  intros (e & He & ->). do 9 (destruct e as [|e]; [try lia; by vm_compute; split; auto with lia|]). lia.
Qed.

Section lemmas.
Context {T : Type} (key : T → N) (rand_hash : N → N).
Implicit Types (t : list (option T)) (k : N).

Lemma compress_hash_lt n h : size_ok n → (N.to_nat (compress_hash n h) < n / 2)%nat.
Proof.
  intros (e & He & ->). rewrite compress_hash_mod by done.
  assert (2 ^ e / 2 = N.to_nat (2 ^ N.of_nat (e - 1)))%nat as ->.
  { rewrite N2Nat.inj_pow, Nat2N.id. change (N.to_nat 2) with 2%nat.
    destruct e as [|e]; [lia|]. replace (S e - 1)%nat with e by lia.
    rewrite Nat.pow_succ_r', Nat.mul_comm. by apply Nat.div_mul. }
  pose proof (N.mod_lt h (2 ^ N.of_nat (e - 1))) as H.
  assert (2 ^ N.of_nat (e - 1) ≠ 0) by by apply N.pow_nonzero. lia.
Qed.

Lemma cheap_bucket_lt n k : size_ok n → (cheap_bucket n k < n / 2)%nat.
Proof. apply compress_hash_lt. Qed.
Lemma rand_bucket_lt n k : size_ok n → (rand_bucket rand_hash n k < n / 2)%nat.
Proof. apply compress_hash_lt. Qed.

Lemma entries_perm t t' : t ≡ₚ t' → entries t ≡ₚ entries t'.
Proof. intros H. unfold entries. by rewrite H. Qed.

Lemma entries_take t i e :
  t !! i = Some (Some e) → entries t ≡ₚ e :: entries (<[i := None]> t).
Proof.
  intros H. rewrite (entries_perm t _ (delete_Permutation t i (Some e) H)).
  rewrite (entries_perm _ _ (insert_permutation t i None (lookup_lt_Some _ _ _ H))). done.
Qed.

Lemma entries_put t i e :
  t !! i = Some None → entries (<[i := Some e]> t) ≡ₚ e :: entries t.
Proof.
  intros H. rewrite (entries_perm t _ (delete_Permutation t i None H)).
  rewrite (entries_perm _ _ (insert_permutation t i (Some e) (lookup_lt_Some _ _ _ H))). done.
Qed.

Lemma elem_of_entries t e : e ∈ entries t ↔ ∃ i, t !! i = Some (Some e).
Proof.
  unfold entries. rewrite list_elem_of_omap. setoid_rewrite list_elem_of_lookup. split.
  - intros (x & [i Hi] & Hx). simpl in Hx. subst. eauto.
  - intros [i Hi]. exists (Some e). eauto.
Qed.

Lemma entries_unique t i j e e' :
  NoDup (key <$> entries t) → t !! i = Some (Some e) → t !! j = Some (Some e') →
  key e = key e' → i = j.
Proof.
  intros Hnd Hi Hj Hk. destruct (decide (i = j)) as [|Hne]; [done|]. exfalso.
  rewrite (entries_take _ _ _ Hi), fmap_cons, NoDup_cons in Hnd. destruct Hnd as [Hnd _].
  apply Hnd. rewrite Hk. apply list_elem_of_fmap_2. apply elem_of_entries. exists j.
  by rewrite list_lookup_insert_ne.
Qed.

(** The two loops over the slots of a bucket. *)
Lemma find_hole_spec t start : (start + 1 < length t)%nat →
  match find_hole t start bucket_slots with
  | Some (Some i) => t !! i = Some None ∧ (i = start ∨ i = start + 1)%nat
  | Some None => (∃ e, t !! start = Some (Some e)) ∧ (∃ e, t !! (start + 1)%nat = Some (Some e))
  | None => False
  end.
Proof.
  intros Hl. simpl. rewrite Nat.add_0_r.
  destruct (lookup_lt_is_Some_2 t start) as [s0 Hs0]; [lia|].
  destruct (lookup_lt_is_Some_2 t (start + 1)) as [s1 Hs1]; [lia|].
  rewrite Hs0. simpl. destruct s0 as [e0|]; [|naive_solver].
  rewrite Hs1. simpl. destruct s1 as [e1|]; naive_solver.
Qed.

Lemma find_in_bucket_spec t start k : (start + 1 < length t)%nat →
  match find_in_bucket key t start k bucket_slots with
  | Some (Some i) => (i = start ∨ i = start + 1)%nat ∧ ∃ e, t !! i = Some (Some e) ∧ key e = k
  | Some None => ∀ i e, (i = start ∨ i = start + 1)%nat → t !! i = Some (Some e) → key e ≠ k
  | None => False
  end.
Proof.
  intros Hl. simpl. rewrite Nat.add_0_r.
  destruct (lookup_lt_is_Some_2 t start) as [s0 Hs0]; [lia|].
  destruct (lookup_lt_is_Some_2 t (start + 1)) as [s1 Hs1]; [lia|].
  rewrite Hs0, Hs1. simpl.
  destruct s0 as [e0|]; [destruct (N.eqb_spec (key e0) k)|];
    (destruct s1 as [e1|]; [destruct (N.eqb_spec (key e1) k)|]); naive_solver.
Qed.

#[global] Arguments plan_insert : simpl never.
#[global] Arguments find_hole : simpl never.
#[global] Arguments find_in_bucket : simpl never.
#[global] Arguments place_in : simpl never.

Lemma div2_slot (i b : nat) : (i / 2 = b ↔ i = b * 2 ∨ i = b * 2 + 1)%nat.
Proof.
  pose proof (Nat.div_mod_eq i 2). pose proof (Nat.mod_upper_bound i 2). split; intros; [lia|].
  destruct H1 as [->| ->]; [by apply Nat.div_mul|].
  rewrite Nat.div_add_l by lia. simpl. lia.
Qed.

Lemma bucket_in_range t b : size_ok (length t) → (b < length t / 2)%nat →
  (b * 2 + 1 < length t)%nat.
Proof. intros [H _]%size_ok_even. lia. Qed.

Lemma table_get_slot_spec t k : table_ok key rand_hash t →
  match table_get_slot key rand_hash t k with
  | Some (Some i) => ∃ e, t !! i = Some (Some e) ∧ key e = k
  | Some None => k ∉ key <$> entries t
  | None => False
  end.
Proof.
  intros Hok. pose proof (ok_size _ _ _ Hok) as Hsz. unfold table_get_slot.
  pose proof (find_in_bucket_spec t _ k
    (bucket_in_range t _ Hsz (cheap_bucket_lt (length t) k Hsz))) as Hc.
  destruct (find_in_bucket key t _ k bucket_slots) as [[i|]|]; cbn [mbind option_bind]; [exact (proj2 Hc)| |done].
  pose proof (find_in_bucket_spec t _ k
    (bucket_in_range t _ Hsz (rand_bucket_lt (length t) k Hsz))) as Hr.
  change BUCKET_ENTRY_COUNT with 2%nat.
  destruct (find_in_bucket key t _ k bucket_slots) as [[i|]|]; [exact (proj2 Hr)| |done].
  intros (e & -> & [i Hi]%elem_of_entries)%list_elem_of_fmap.
  destruct (ok_placed _ _ _ Hok i e Hi) as [Hp|Hp]; apply div2_slot in Hp;
    [by eapply Hc|by eapply Hr].
Qed.

(** [table_get] is lookup by key in the entries. *)
Lemma table_get_Some t k e : table_ok key rand_hash t →
  table_get key rand_hash t k = Some (Some e) ↔ e ∈ entries t ∧ key e = k.
Proof.
  intros Hok. unfold table_get. pose proof (table_get_slot_spec t k Hok) as H.
  destruct (table_get_slot _ _ _ _) as [[i|]|]; simpl; [| |done].
  - destruct H as (e' & Hi & <-). rewrite Hi. split.
    + intros [= ->]. split; [apply elem_of_entries; eauto|done].
    + intros [[j Hj]%elem_of_entries Hk].
      assert (j = i) as -> by (eapply entries_unique; eauto using ok_unique). congruence.
  - split; [done|]. intros [He <-]. destruct H. by apply list_elem_of_fmap_2.
Qed.

Lemma table_get_None t k : table_ok key rand_hash t →
  table_get key rand_hash t k = Some None ↔ k ∉ key <$> entries t.
Proof.
  intros Hok. unfold table_get. pose proof (table_get_slot_spec t k Hok) as H.
  destruct (table_get_slot _ _ _ _) as [[i|]|]; simpl; [|done|done].
  destruct H as (e' & Hi & <-). rewrite Hi. split; [done|]. intros Hn. destruct Hn.
  apply list_elem_of_fmap_2, elem_of_entries. eauto.
Qed.

Lemma table_get_total t k : table_ok key rand_hash t →
  ∃ o, table_get key rand_hash t k = Some o.
Proof.
  intros Hok. unfold table_get. pose proof (table_get_slot_spec t k Hok) as H.
  destruct (table_get_slot _ _ _ _) as [[i|]|]; simpl; [|eauto|done].
  destruct H as (e' & Hi & <-). eauto.
Qed.

(** ** The cuckoo search *)

(** What one call of the search leaves behind: the visited set as it was, and
    either the table as it was or a table with the same entries, an empty slot
    in the requested bucket and every visited entry where it was. *)
Definition plan_result (t : list (option T)) (b : nat) (vis : ByteSet)
    (r : option nat) (t' : list (option T)) : Prop :=
  match r with
  | None => t' = t
  | Some i =>
      (i / 2 = b)%nat ∧ t' !! i = Some None ∧ table_ok key rand_hash t' ∧
      length t' = length t ∧ entries t' ≡ₚ entries t ∧
      ∀ j e, t !! j = Some (Some e) → byteset_contains vis (key e) = true →
        t' !! j = Some (Some e)
  end.

Definition alt_bucket (n b : nat) (k : N) : nat :=
  if (b =? cheap_bucket n k)%nat then rand_bucket rand_hash n k else cheap_bucket n k.

Lemma alt_bucket_lt n b k : size_ok n → (alt_bucket n b k < n / 2)%nat.
Proof. unfold alt_bucket. case_match; eauto using cheap_bucket_lt, rand_bucket_lt. Qed.

Lemma alt_bucket_placed n b k i :
  (i / 2 = alt_bucket n b k)%nat → placed rand_hash n i k.
Proof. unfold placed, alt_bucket. case_match; auto. Qed.

(** Moving one entry to a hole of its other bucket. *)
Lemma move_entry t src hole e b :
  table_ok key rand_hash t → t !! src = Some (Some e) → t !! hole = Some None →
  (hole / 2 = alt_bucket (length t) b (key e))%nat →
  let t' := <[hole := Some e]> (<[src := None]> t) in
  table_ok key rand_hash t' ∧ length t' = length t ∧ entries t' ≡ₚ entries t ∧
  t' !! src = Some None ∧
  ∀ j, j ≠ src → j ≠ hole → t' !! j = t !! j.
Proof.
  intros Hok Hs Hh Hp t'.
  assert (src ≠ hole) as Hne by congruence.
  assert (length t' = length t) as Hlen by (unfold t'; by rewrite !length_insert).
  assert (entries t' ≡ₚ entries t) as He.
  { unfold t'. rewrite entries_put by by rewrite list_lookup_insert_ne.
    by rewrite <-entries_take. }
  assert (∀ j, j ≠ src → j ≠ hole → t' !! j = t !! j) as Hj.
  { intros j ??. unfold t'. by rewrite !list_lookup_insert_ne. }
  assert (t' !! src = Some None) as Hsrc.
  { unfold t'. rewrite list_lookup_insert_ne by done.
    apply list_lookup_insert_eq. by eapply lookup_lt_Some. }
  assert (t' !! hole = Some (Some e)) as Hhole.
  { unfold t'. apply list_lookup_insert_eq. rewrite length_insert. by eapply lookup_lt_Some. }
  split_and!; try done. split.
  - rewrite Hlen. apply Hok.
  - intros i e' Hi. rewrite Hlen. destruct (decide (i = hole)) as [->|].
    + rewrite Hhole in Hi. injection Hi as <-. by eapply alt_bucket_placed.
    + destruct (decide (i = src)) as [->|]; [congruence|]. rewrite Hj in Hi by done. by apply Hok.
  - rewrite He. apply Hok.
  - intros e'. rewrite He. apply Hok.
Qed.

Definition rec_sound (t : list (option T))
    (rec : list (option T) → nat → ByteSet → option (option nat * list (option T) * ByteSet)) :=
  ∀ b vis, (b < length t / 2)%nat → byteset_wf vis →
    ∃ r t', rec t b vis = Some (r, t', vis) ∧ plan_result t b vis r t'.

Lemma try_slots_sound rec t b slots vis :
  table_ok key rand_hash t → byteset_wf vis → (b < length t / 2)%nat → rec_sound t rec →
  (∀ s, s ∈ slots → ((s < 2)%nat ∧ ∃ e, t !! (b * 2 + s)%nat = Some (Some e))) →
  ∃ r t', try_slots key rand_hash rec b slots t vis = Some (r, t', vis) ∧ plan_result t b vis r t'.
Proof.
  intros Hok Hvis Hb Hrec. induction slots as [|s slots IH]; intros Hsl; simpl.
  { exists None, t. done. }
  destruct (Hsl s) as [Hs2 [e He]]; [set_solver|]. change BUCKET_ENTRY_COUNT with 2%nat.
  rewrite He. simpl.
  destruct (byteset_contains vis (key e)) eqn:Hc; [apply IH; set_solver|].
  assert (key e < 256) as Hk by (apply Hok, elem_of_entries; eauto).
  change (if (b =? _)%nat then _ else _) with (alt_bucket (length t) b (key e)).
  destruct (Nat.eqb_spec (alt_bucket (length t) b (key e)) b) as [E|E]; simpl.
  { rewrite byteset_remove_insert by done. apply IH. set_solver. }
  destruct (Hrec (alt_bucket (length t) b (key e)) (byteset_insert vis (key e)))
    as (r & t' & -> & Hr); [apply alt_bucket_lt, Hok|auto|]. simpl.
  rewrite byteset_remove_insert by done.
  destruct r as [hole|]; [|simpl in Hr; subst t'; apply IH; set_solver].
  destruct Hr as (Hh & Hn & Hok' & Hlen & Hperm & Hstay).
  assert (t' !! (b * 2 + s)%nat = Some (Some e)) as Hsrc.
  { apply Hstay; [done|]. by rewrite byteset_contains_insert, N.eqb_refl by done. }
  rewrite Hsrc. simpl.
  destruct (move_entry t' (b * 2 + s) hole e b) as (H1 & H2 & H3 & H4 & H5);
    [done..|by rewrite Hlen|].
  eexists _, _. split; [done|]. split_and!; try done.
  - apply div2_slot. lia.
  - by rewrite H2.
  - by rewrite H3.
  - intros j e' Hj Hcj. rewrite H5; [apply Hstay; [done|]| |].
    + rewrite byteset_contains_insert, Hcj, orb_true_r; [done..|].
      apply Hok, elem_of_entries. eauto.
    + intros ->. congruence.
    + intros ->. assert (t' !! hole = Some (Some e')); [|congruence]. apply Hstay; [done|].
      rewrite byteset_contains_insert, Hcj, orb_true_r; [done..|].
      apply Hok, elem_of_entries. eauto.
Qed.

Lemma plan_insert_eq depth t b vis :
  plan_insert key rand_hash depth t b vis =
    hole ← find_hole t (b * 2)%nat bucket_slots;
    match hole with
    | Some i => Some (Some i, t, vis)
    | None =>
        match depth with
        | O => Some (None, t, vis)
        | S depth' =>
            try_slots key rand_hash (λ t b v, plan_insert key rand_hash depth' t b v)
              b bucket_slots t vis
        end
    end.
Proof. by destruct depth. Qed.

Lemma full_bucket_slots t b :
  (∃ e, t !! (b * 2)%nat = Some (Some e)) → (∃ e, t !! (b * 2 + 1)%nat = Some (Some e)) →
  ∀ s, s ∈ bucket_slots → ((s < 2)%nat ∧ ∃ e, t !! (b * 2 + s)%nat = Some (Some e)).
Proof.
  intros H0 H1 s Hs. unfold bucket_slots, BUCKET_ENTRY_COUNT in Hs. apply elem_of_seq in Hs.
  assert (s = 0 ∨ s = 1)%nat as [->| ->] by lia; (split; [lia|]); [|done].
  by rewrite Nat.add_0_r.
Qed.

Lemma plan_insert_sound depth t : table_ok key rand_hash t →
  rec_sound t (λ t b v, plan_insert key rand_hash depth t b v).
Proof.
  intros Hok. induction depth as [|depth IH]; intros b vis Hb Hvis; rewrite plan_insert_eq;
    pose proof (find_hole_spec t (b * 2) (bucket_in_range t b (ok_size _ _ _ Hok) Hb)) as Hh;
    (destruct (find_hole t (b * 2) bucket_slots) as [[i|]|]; cbn [mbind option_bind]; [| |done]).
  1,3: destruct Hh as [Hi Hd]; exists (Some i), t; (split; [done|]);
    unfold plan_result; split_and!; try done; apply div2_slot; lia.
  { by exists None, t. }
  destruct Hh. apply try_slots_sound; eauto using full_bucket_slots.
Qed.

(** ** Completeness of the search

    The search visits every simple path, so it finds a hole whenever a path of
    displacements to one exists. *)

Definition has_hole (t : list (option T)) (b : nat) : Prop :=
  ∃ s : nat, (s < 2)%nat ∧ t !! (b * 2 + s)%nat = Some None.

Definition edge (t : list (option T)) (b b' : nat) : Prop :=
  ∃ (s : nat) e, (s < 2)%nat ∧ t !! (b * 2 + s)%nat = Some (Some e) ∧
    alt_bucket (length t) b (key e) = b' ∧ b' ≠ b.

Fixpoint is_path (t : list (option T)) (b : nat) (p : list nat) : Prop :=
  match p with
  | [] => has_hole t b
  | b' :: p => edge t b b' ∧ is_path t b' p
  end.

Lemma edge_lt t b b' : size_ok (length t) → edge t b b' → (b' < length t / 2)%nat.
Proof. intros Hsz (s & e & _ & _ & <- & _). by apply alt_bucket_lt. Qed.

Lemma try_slots_complete rec t b slots vis s e h th :
  table_ok key rand_hash t → byteset_wf vis → (b < length t / 2)%nat → rec_sound t rec →
  (∀ s, s ∈ slots → ((s < 2)%nat ∧ ∃ e, t !! (b * 2 + s)%nat = Some (Some e))) →
  s ∈ slots → t !! (b * 2 + s)%nat = Some (Some e) → byteset_contains vis (key e) = false →
  alt_bucket (length t) b (key e) ≠ b →
  rec t (alt_bucket (length t) b (key e)) (byteset_insert vis (key e)) =
    Some (Some h, th, byteset_insert vis (key e)) →
  ∃ i t', try_slots key rand_hash rec b slots t vis = Some (Some i, t', vis).
Proof.
  intros Hok Hvis Hb Hrec Hsl Hs He Hc Hne Hr.
  induction slots as [|s0 slots IH]; [set_solver|].
  destruct (try_slots_sound rec t b (s0 :: slots) vis) as (r & t' & Ht & Hres); try done.
  destruct r as [i|]; [eauto|]. simpl in Ht. change BUCKET_ENTRY_COUNT with 2%nat in Ht.
  destruct (Hsl s0) as [_ [e0 He0]]; [set_solver|]. rewrite He0 in Ht. simpl in Ht.
  change (if (b =? _)%nat then _ else _) with (alt_bucket (length t) b (key e0)) in Ht.
  assert (∃ i t', try_slots key rand_hash rec b slots t vis = Some (Some i, t', vis)) as Hrest.
  { apply IH; [set_solver|]. apply elem_of_cons in Hs as [->|?]; [|done]. exfalso.
    assert (e0 = e) as -> by congruence. rewrite Hc in Ht.
    rewrite (proj2 (Nat.eqb_neq _ _) Hne) in Ht. simpl in Ht. rewrite Hr in Ht. simpl in Ht.
    destruct (th !! _); simpl in Ht; congruence. }
  destruct Hrest as (i & t'' & Hrest).
  destruct (byteset_contains vis (key e0)) eqn:Hc0; [congruence|].
  destruct (Nat.eqb_spec (alt_bucket (length t) b (key e0)) b) as [E|E]; simpl in Ht.
  { rewrite byteset_remove_insert in Ht by done. congruence. }
  destruct (Hrec (alt_bucket (length t) b (key e0)) (byteset_insert vis (key e0)))
    as (r & t3 & Heq & Hr3); [apply alt_bucket_lt, Hok|auto|].
  rewrite Heq in Ht. simpl in Ht. destruct r as [h3|].
  - destruct (t3 !! _); simpl in Ht; congruence.
  - simpl in Hr3. subst t3. rewrite byteset_remove_insert in Ht by done. congruence.
Qed.

Lemma plan_insert_complete depth t b vis p :
  table_ok key rand_hash t → (b < length t / 2)%nat → byteset_wf vis →
  is_path t b p → NoDup (b :: p) → (length p ≤ depth)%nat →
  (∀ i e, t !! i = Some (Some e) → (i / 2)%nat ∈ b :: p → byteset_contains vis (key e) = false) →
  ∃ i t', plan_insert key rand_hash depth t b vis = Some (Some i, t', vis).
Proof.
  intros Hok. revert b vis p.
  induction depth as [|depth IH]; intros b vis p Hb Hvis Hp Hnd Hlen Hnv;
    rewrite plan_insert_eq;
    pose proof (find_hole_spec t (b * 2) (bucket_in_range t b (ok_size _ _ _ Hok) Hb)) as Hh;
    (destruct (find_hole t (b * 2) bucket_slots) as [[i|]|]; cbn [mbind option_bind];
      [by eauto| |done]); destruct Hh as [Hh0 Hh1];
    (destruct p as [|b' p]; [destruct Hp as (s & Hs & Hp);
      pose proof (full_bucket_slots t b Hh0 Hh1 s) as Hf;
      destruct Hf as [_ [e Hf]]; [unfold bucket_slots, BUCKET_ENTRY_COUNT; apply elem_of_seq; lia|congruence]|]).
  { simpl in Hlen. lia. }
  destruct Hp as [(s & e & Hs & He & Halt & Hne) Hp]. simpl in Hlen.
  assert ((b * 2 + s) / 2 = b)%nat as Hdiv by (apply div2_slot; lia).
  assert (key e < 256) as Hk by (apply Hok, elem_of_entries; eauto).
  destruct (IH b' (byteset_insert vis (key e)) p) as (h & th & Hrec); try done.
  - by rewrite <-Halt; apply alt_bucket_lt, Hok.
  - auto.
  - by apply NoDup_cons in Hnd as [_ ?].
  - lia.
  - intros i e' Hi Hin. rewrite byteset_contains_insert;
      [|done|apply Hok, elem_of_entries; eauto].
    rewrite (Hnv i e') by set_solver. rewrite orb_false_r. apply N.eqb_neq. intros Hkk.
    assert (i = b * 2 + s)%nat as -> by (eapply entries_unique; eauto using ok_unique).
    rewrite Hdiv in Hin. apply NoDup_cons in Hnd as [? _]. done.
  - eapply try_slots_complete; eauto using full_bucket_slots.
    + by apply plan_insert_sound.
    + unfold bucket_slots. apply elem_of_seq. unfold BUCKET_ENTRY_COUNT. lia.
    + eapply Hnv; [done|]. rewrite Hdiv. set_solver.
    + congruence.
    + by rewrite Halt.
Qed.

(** Either a simple path to a hole exists, or the buckets reachable from [b]
    without entering [A] form a closed set of full buckets. *)
Lemma path_or_closed t n (A : gset nat) b :
  size_ok (length t) → (b < length t / 2)%nat → b ∉ A →
  (size (list_to_set (seq 0 (length t / 2)) ∖ A : gset nat) ≤ n)%nat →
  (∃ p, is_path t b p ∧ NoDup (b :: p) ∧ (∀ c, c ∈ p → c ∉ A)) ∨
  (∃ C : gset nat, b ∈ C ∧ ∀ c, c ∈ C → (c < length t / 2)%nat ∧ ¬ has_hole t c ∧
     ∀ c', edge t c c' → c' ∈ C ∪ A).
Proof.
  intros Hsz. revert A b. induction n as [|n IH]; intros A b Hb HbA Hn.
  { exfalso. assert (b ∈ (list_to_set (seq 0 (length t / 2)) ∖ A : gset nat)) as Hin.
    { apply elem_of_difference. split; [|done]. apply elem_of_list_to_set, elem_of_seq. lia. }
    assert (list_to_set (seq 0 (length t / 2)) ∖ A = (∅ : gset nat)) as Hz;
      [apply leibniz_equiv, size_empty_inv; lia|]. rewrite Hz in Hin. set_solver. }
  pose proof (find_hole_spec t (b * 2) (bucket_in_range t b Hsz Hb)) as Hh.
  destruct (find_hole t (b * 2) bucket_slots) as [[i|]|]; [| |done].
  { left. exists []. split_and!; [|by apply NoDup_singleton|set_solver]. destruct Hh as [Hi Hd].
    destruct Hd as [->| ->]; [exists 0%nat|exists 1%nat]; (split; [lia|]); by rewrite ?Nat.add_0_r. }
  destruct Hh as [[e0 He0] [e1 He1]].
  assert (¬ has_hole t b) as Hnh.
  { intros (s & Hs & He). assert (s = 0 ∨ s = 1)%nat as [->| ->] by lia;
      rewrite ?Nat.add_0_r in He; congruence. }
  assert (size (list_to_set (seq 0 (length t / 2)) ∖ ({[b]} ∪ A) : gset nat) ≤ n)%nat as Hn'.
  { rewrite <-difference_difference_l_L.
    assert (b ∈ (list_to_set (seq 0 (length t / 2)) ∖ A : gset nat)) as Hin.
    { apply elem_of_difference. split; [|done]. apply elem_of_list_to_set, elem_of_seq. lia. }
    replace (list_to_set (seq 0 (length t / 2)) ∖ {[b]} ∖ A : gset nat)
      with (list_to_set (seq 0 (length t / 2)) ∖ A ∖ {[b]} : gset nat) by set_solver.
    rewrite size_difference by set_solver. rewrite size_singleton. lia. }
  (* one successor *)
  assert (∀ e s, (s < 2)%nat → t !! (b * 2 + s)%nat = Some (Some e) →
    (∃ p, is_path t b p ∧ NoDup (b :: p) ∧ (∀ c, c ∈ p → c ∉ A)) ∨
    (∃ C : gset nat, alt_bucket (length t) b (key e) ∈ C ∪ ({[b]} ∪ A) ∧
      ∀ c, c ∈ C → (c < length t / 2)%nat ∧ ¬ has_hole t c ∧
        ∀ c', edge t c c' → c' ∈ C ∪ ({[b]} ∪ A))) as Hsucc.
  { intros e s Hs He. set (c := alt_bucket (length t) b (key e)).
    destruct (decide (c ∈ {[b]} ∪ A)) as [Hc|Hc]; [right; exists ∅; set_solver|].
    destruct (IH ({[b]} ∪ A) c) as [(p & Hp & Hnd & Hav)|(C & HcC & HC)]; try done.
    - by apply alt_bucket_lt.
    - left. exists (c :: p). split_and!.
      + split; [|done]. exists s, e. split_and!; try done. set_solver.
      + apply NoDup_cons. split; [|done]. set_solver.
      + set_solver.
    - right. exists C. set_solver. }
  destruct (Hsucc e0 0%nat) as [?|(C0 & Hc0 & HC0)]; [lia|by rewrite Nat.add_0_r|by left|].
  destruct (Hsucc e1 1%nat) as [?|(C1 & Hc1 & HC1)]; [lia|done|by left|].
  right. exists ({[b]} ∪ C0 ∪ C1). split; [set_solver|].
  intros c Hc. rewrite !elem_of_union, elem_of_singleton in Hc.
  destruct Hc as [[->|Hc]|Hc].
  - split_and!; [done..|]. intros c' (s & e & Hs & He & <- & _).
    assert (s = 0 ∨ s = 1)%nat as [->| ->] by lia; rewrite ?Nat.add_0_r in He.
    + assert (e = e0) as -> by congruence. set_solver.
    + assert (e = e1) as -> by congruence. set_solver.
  - destruct (HC0 c Hc) as (? & ? & He). split_and!; [done..|]. intros c' Hcc. apply He in Hcc. set_solver.
  - destruct (HC1 c Hc) as (? & ? & He). split_and!; [done..|]. intros c' Hcc. apply He in Hcc. set_solver.
Qed.

(** ** A table of 256 slots never refuses a byte

    In a closed set [C] of full buckets every entry has its cheap bucket in [C];
    at 128 buckets only [2 |C|] bytes do, and the entries already use them all. *)

Lemma length_bind_pair {A B} (f g : A → B) (l : list A) :
  length (l ≫= λ x, [f x; g x]) = (2 * length l)%nat.
Proof. induction l as [|x l IH]; csimpl; [done|]. rewrite IH. lia. Qed.

Definition slot_key (t : list (option T)) (i : nat) : N :=
  match t !! i with Some (Some e) => key e | _ => 0 end.

Lemma cheap_bucket_256 k : k < 256 →
  k = N.of_nat (cheap_bucket 256 k) ∨ k = N.of_nat (cheap_bucket 256 k) + 128.
Proof.
  intros Hk. unfold cheap_bucket, cheap_hash.
  change 256%nat with (2 ^ 8)%nat. rewrite compress_hash_mod by lia. rewrite N2Nat.id. change (2 ^ N.of_nat (8 - 1)) with 128.
  pose proof (N.div_mod' k 128) as Hd.
  assert (k / 128 < 2) as Hq by (apply N.Div0.div_lt_upper_bound; lia).
  revert Hd Hq. generalize (k / 128), (k mod 128). intros. lia.
Qed.

Lemma closed_cheap t (C : gset nat) c i e :
  table_ok key rand_hash t → c ∈ C → (∀ c', edge t c c' → c' ∈ C) →
  (i / 2 = c)%nat → t !! i = Some (Some e) → cheap_bucket (length t) (key e) ∈ C.
Proof.
  intros Hok HcC Hcl Hi He. destruct (decide (cheap_bucket (length t) (key e) = c)) as [->|Hne]; [done|].
  apply Hcl. pose proof (proj1 (div2_slot _ _) Hi) as Hd.
  exists (i - c * 2)%nat, e. split_and!; [lia| |unfold alt_bucket|done].
  - by replace (c * 2 + (i - c * 2))%nat with i by lia.
  - by rewrite (proj2 (Nat.eqb_neq _ _)) by done.
Qed.

Lemma no_closed_set t k (C : gset nat) :
  table_ok key rand_hash t → length t = 256%nat → k < 256 → k ∉ key <$> entries t →
  cheap_bucket (length t) k ∈ C →
  (∀ c, c ∈ C → (c < length t / 2)%nat ∧ ¬ has_hole t c ∧ ∀ c', edge t c c' → c' ∈ C) →
  False.
Proof.
  intros Hok Hlen Hk Hnk HkC HC.
  set (slots := elements C ≫= λ c, [c * 2; c * 2 + 1]%nat).
  set (bytes := elements C ≫= λ c, [N.of_nat c; N.of_nat c + 128]).
  assert (∀ i, i ∈ slots ↔ (i / 2)%nat ∈ C) as Hslots.
  { intros i. unfold slots. rewrite list_elem_of_bind. setoid_rewrite elem_of_elements.
    setoid_rewrite elem_of_cons. setoid_rewrite list_elem_of_singleton. split.
    - intros (c & H%div2_slot & HcC). by subst.
    - intros H. exists (i / 2)%nat. split; [|done]. by apply div2_slot. }
  assert (∀ k', k' < 256 → cheap_bucket (length t) k' ∈ C → k' ∈ bytes) as Hbytes.
  { intros k' Hk' Hc. unfold bytes. apply list_elem_of_bind. rewrite Hlen in Hc.
    eexists. rewrite elem_of_elements. split; [|exact Hc].
    rewrite elem_of_cons, list_elem_of_singleton. by apply cheap_bucket_256. }
  assert (∀ i, i ∈ slots → ∃ e, t !! i = Some (Some e)) as Hfull.
  { intros i Hi%Hslots. destruct (HC _ Hi) as (Hlt & Hnh & _).
    destruct (t !! i) as [[e|]|] eqn:E; [eauto| |].
    - destruct Hnh. pose proof (proj1 (div2_slot i (i / 2)) eq_refl) as Hd.
      exists (i - i / 2 * 2)%nat. split; [lia|]. by replace (i / 2 * 2 + (i - i / 2 * 2))%nat with i by lia.
    - apply lookup_ge_None in E. rewrite Hlen in *. change (256 / 2)%nat with 128%nat in Hlt.
      pose proof (Nat.div_mod_eq i 2). pose proof (Nat.mod_upper_bound i 2). lia. }
  assert (NoDup (k :: (slot_key t <$> slots))) as Hnd.
  { apply NoDup_cons. split.
    - intros (i & -> & Hi)%list_elem_of_fmap. destruct (Hfull i Hi) as [e He]. apply Hnk.
      unfold slot_key. rewrite He. apply list_elem_of_fmap_2, elem_of_entries. eauto.
    - apply NoDup_fmap_2_strong.
      + intros i j Hi Hj. destruct (Hfull i Hi) as [e He], (Hfull j Hj) as [e' He'].
        unfold slot_key. rewrite He, He'. intros. eapply entries_unique; eauto using ok_unique.
      + unfold slots. apply NoDup_bind; [|intros; repeat constructor; set_solver by lia|apply NoDup_elements].
        intros c c' i _ _ H1 H2. set_unfold. lia. }
  assert (k :: (slot_key t <$> slots) ⊆ bytes) as Hsub.
  { intros k' [->|(i & -> & Hi)%list_elem_of_fmap]%elem_of_cons; [by apply Hbytes|].
    destruct (Hfull i Hi) as [e He]. unfold slot_key. rewrite He. apply Hbytes.
    - apply Hok, elem_of_entries. eauto.
    - apply Hslots in Hi. eapply closed_cheap; eauto. apply HC. done. }
  apply NoDup_submseteq in Hsub; [|done]. apply submseteq_length in Hsub. revert Hsub.
  cbn [length]. unfold slots, bytes. rewrite length_fmap, !length_bind_pair. lia.
Qed.

(** ** Insertion *)

Lemma put_ok t i e :
  table_ok key rand_hash t → t !! i = Some None → placed rand_hash (length t) i (key e) →
  key e < 256 → key e ∉ key <$> entries t → table_ok key rand_hash (<[i := Some e]> t).
Proof.
  intros Hok Hi Hp Hk Hnk. split.
  - rewrite length_insert. apply Hok.
  - intros j e'. rewrite length_insert. destruct (decide (j = i)) as [->|].
    + rewrite list_lookup_insert_eq by by eapply lookup_lt_Some. by intros [= <-].
    + rewrite list_lookup_insert_ne by done. apply Hok.
  - rewrite (entries_put _ _ _ Hi), fmap_cons, NoDup_cons. split; [done|apply Hok].
  - intros e'. rewrite (entries_put _ _ _ Hi). intros [->|?]%elem_of_cons; [done|by apply Hok].
Qed.

(** What [table_insert] promises: the entry is added, or it is handed back and
    the table is unchanged. *)
Definition insert_result (t : list (option T)) (e : T) (r : option T) (t' : list (option T)) : Prop :=
  (r = None ∧ entries t' ≡ₚ e :: entries t ∧ table_ok key rand_hash t' ∧ length t' = length t)
  ∨ (r = Some e ∧ t' = t ∧ length t ≠ 256%nat).

Lemma plan_insert_put t b e r t' vis :
  table_ok key rand_hash t → key e < 256 → key e ∉ key <$> entries t →
  (b = cheap_bucket (length t) (key e) ∨ b = rand_bucket rand_hash (length t) (key e)) →
  plan_result t b vis (Some r) t' →
  insert_result t e None (<[r := Some e]> t').
Proof.
  intros Hok Hk Hnk Hb (Hr & Hn & Hok' & Hlen & Hperm & _). left. split_and!; [done|..].
  - by rewrite entries_put, Hperm.
  - apply put_ok; try done; [|by rewrite Hperm]. rewrite Hlen. unfold placed. naive_solver.
  - by rewrite length_insert.
Qed.

Lemma table_insert_spec t e :
  table_ok key rand_hash t → key e < 256 → key e ∉ key <$> entries t →
  ∃ r t', table_insert key rand_hash t e = Some (r, t') ∧ insert_result t e r t'.
Proof.
  intros Hok Hk Hnk. pose proof (ok_size _ _ _ Hok) as Hsz. unfold table_insert.
  set (limit := if (length t =? MAX_SLOT_COUNT)%nat then _ else _).
  set (vis := byteset_insert byteset_empty (key e)).
  assert (byteset_wf vis) as Hvis by (unfold vis; auto).
  destruct (plan_insert_sound limit t Hok (cheap_bucket (length t) (key e)) vis)
    as (r & t' & Hpi & Hr); [by apply cheap_bucket_lt|done|].
  rewrite Hpi. cbn [mbind option_bind].
  destruct r as [r|]; [eexists _, _; split; [done|];
    exact (plan_insert_put t _ e r t' vis Hok Hk Hnk (or_introl eq_refl) Hr)|].
  simpl in Hr. subst t'.
  destruct (plan_insert_sound limit t Hok (rand_bucket rand_hash (length t) (key e)) vis)
    as (r & t' & -> & Hr); [by apply rand_bucket_lt|done|].
  cbn [mbind option_bind].
  destruct r as [r|]; [eexists _, _; split; [done|];
    exact (plan_insert_put t _ e r t' vis Hok Hk Hnk (or_intror eq_refl) Hr)|].
  simpl in Hr. subst t'. eexists _, _. split; [done|]. right. split_and!; [done..|].
  intros Hlen. assert (limit = 256%nat) as Hlim by (unfold limit; by rewrite Hlen).
  destruct (path_or_closed t (size (list_to_set (seq 0 (length t / 2)) ∖ ∅ : gset nat)) ∅ (cheap_bucket (length t) (key e)) Hsz)
    as [(p & Hp & Hnd & _)|(C & HkC & HC)]; [by apply cheap_bucket_lt|set_solver|reflexivity| |].
  - destruct (plan_insert_complete limit t (cheap_bucket (length t) (key e)) vis p) as (i & t' & Hi);
      try done; [by apply cheap_bucket_lt| | |congruence].
    + rewrite Hlim. apply NoDup_cons in Hnd as [_ Hnd].
      assert (p ⊆ seq 0 128) as Hsub.
      { intros c Hc. apply elem_of_seq. clear -Hp Hc Hsz Hlen. revert Hp Hc.
        generalize (cheap_bucket (length t) (key e)). induction p as [|b' p IH]; [set_solver|].
        intros b [He Hp] [->|Hc]%elem_of_cons; [|by eapply IH].
        apply edge_lt in He; [|done]. rewrite Hlen in He. change (256 / 2)%nat with 128%nat in He. lia. }
      apply NoDup_submseteq, submseteq_length in Hsub; [|done]. rewrite length_seq in Hsub. lia.
    + intros i e' Hi _. unfold vis. rewrite byteset_contains_insert;
        [|done|apply Hok, elem_of_entries; eauto].
      rewrite (proj2 (N.eqb_neq _ _));
        [rewrite byteset_contains_bit; unfold byteset_word, byteset_empty; simpl;
         case_match; apply N.bits_0|].
      intros Heq. apply Hnk. rewrite <-Heq. apply list_elem_of_fmap_2, elem_of_entries. eauto.
  - destruct (no_closed_set t (key e) C); try done. intros c Hc.
    destruct (HC c Hc) as (? & ? & Hcl). split_and!; [done..|]. intros c' Hcc%Hcl. set_solver.
Qed.

(** ** Growing *)

Lemma size_ok_double n : size_ok n → (n ≤ 128)%nat → size_ok (2 * n).
Proof.
  intros (e & He & ->) Hn. exists (S e). rewrite Nat.pow_succ_r'. split; [|done].
  destruct (decide (e = 8%nat)) as [->|]; [vm_compute in Hn; lia|lia].
Qed.

(** One more hash bit: an entry stays in its bucket or moves to the same bucket
    of the upper half. *)
Lemma compress_hash_double n h : size_ok n → (n ≤ 128)%nat →
  compress_hash (2 * n) h = compress_hash n h ∨
  compress_hash (2 * n) h = compress_hash n h + N.of_nat (n / 2).
Proof.
  intros (e & He & ->) Hn. destruct (decide (e = 8%nat)) as [->|]; [vm_compute in Hn; lia|].
  rewrite <-Nat.pow_succ_r', !compress_hash_mod by lia.
  destruct e as [|e]; [lia|]. rewrite !Nat.sub_succ, !Nat.sub_0_r, Nat.pow_succ_r', Nat.mul_comm.
  rewrite Nat.div_mul, Nat2N.inj_succ, N.pow_succ_r', Nat2N.inj_pow by done.
  change (N.of_nat 2) with 2. set (m := 2 ^ N.of_nat e).
  assert (m ≠ 0) by by apply N.pow_nonzero.
  rewrite (N.mul_comm 2), N.Div0.mod_mul_r.
  pose proof (N.mod_lt (h / m) 2) as Hb.
  assert ((h / m) mod 2 = 0 ∨ (h / m) mod 2 = 1) as [E|E] by (revert Hb; generalize ((h / m) mod 2); lia);
    rewrite E; [left|right]; lia.
Qed.

Lemma bucket_double n h b : size_ok n → (n ≤ 128)%nat →
  b = N.to_nat (compress_hash n h) → N.of_nat b ≠ compress_hash (2 * n) h →
  (n / 2 + b)%nat = N.to_nat (compress_hash (2 * n) h).
Proof.
  intros Hsz Hn -> Hne. rewrite N2Nat.id in Hne.
  destruct (compress_hash_double n h Hsz Hn) as [H|H]; [congruence|]. rewrite H. lia.
Qed.

(** The state of the loop of [table_grow] after [i] slots. *)
Record grow_inv (t g : list (option T)) (i : nat) : Prop := {
  gi_len : length g = (2 * length t)%nat;
  gi_entries : entries g ≡ₚ entries (take i t);
  gi_placed : ∀ j e, g !! j = Some (Some e) → placed rand_hash (length g) j (key e);
  gi_low : ∀ j e, g !! j = Some (Some e) → (j < length t)%nat → (j < i)%nat;
  gi_high : ∀ j e, g !! j = Some (Some e) → (length t ≤ j)%nat → (j < length t + i)%nat;
}.

Lemma place_in_spec (g : list (option T)) start o e : (o < 2)%nat →
  (start + 1 < length g)%nat → g !! (start + o)%nat = Some None →
  ∃ o', (o' ≤ o)%nat ∧ g !! (start + o')%nat = Some None ∧
    place_in g start bucket_slots e = Some (<[(start + o')%nat := Some e]> g).
Proof.
  intros Ho Hl Hg. unfold place_in, bucket_slots, BUCKET_ENTRY_COUNT. simpl.
  destruct (lookup_lt_is_Some_2 g (start + 0)) as [s0 Hs0]; [lia|].
  rewrite Hs0. simpl. destruct s0 as [e0|]; [|exists 0%nat; split_and!; [lia|done|done]].
  assert (o = 1)%nat as -> by (destruct o as [|[]]; [congruence|lia|lia]).
  rewrite Hg. simpl. exists 1%nat. split_and!; [lia|done|done].
Qed.

(** Storing one entry at an empty slot keeps the loop invariant. *)
Lemma grow_inv_put t g i e base o :
  grow_inv t g i → t !! i = Some (Some e) → size_ok (length t) →
  (base = 0 ∨ base = length t)%nat → (o ≤ i mod 2)%nat →
  g !! (base + i / 2 * 2 + o)%nat = Some None →
  placed rand_hash (2 * length t) (base + i / 2 * 2) (key e) →
  grow_inv t (<[(base + i / 2 * 2 + o)%nat := Some e]> g) (S i).
Proof.
  intros [Hlen Hent Hpl Hlo Hhi] Hi Hsz Hbase Ho Hg Hp.
  pose proof (Nat.div_mod_eq i 2). pose proof (Nat.mod_upper_bound i 2).
  pose proof (lookup_lt_Some _ _ _ Hi) as Hit. apply size_ok_even in Hsz.
  assert (∀ j e', <[(base + i / 2 * 2 + o)%nat := Some e]> g !! j = Some (Some e') →
    (j = base + i / 2 * 2 + o)%nat ∧ e' = e ∨ g !! j = Some (Some e')) as Hj.
  { intros j e'. destruct (decide (j = base + i / 2 * 2 + o)%nat) as [->|].
    - rewrite list_lookup_insert_eq by by eapply lookup_lt_Some. intros [= <-]. auto.
    - rewrite list_lookup_insert_ne by done. auto. }
  split.
  - by rewrite length_insert.
  - rewrite entries_put, (take_S_r _ _ _ Hi) by done. unfold entries. rewrite omap_app. simpl.
    unfold entries in Hent. rewrite Hent. by rewrite Permutation_cons_append.
  - intros j e' [[-> ->]|H']%Hj; [|rewrite length_insert; auto].
    rewrite length_insert, Hlen. unfold placed in *.
    replace ((base + i / 2 * 2 + o) / 2)%nat with ((base + i / 2 * 2) / 2)%nat; [done|].
    destruct Hbase as [->| ->].
    + rewrite Nat.add_0_l, Nat.div_mul by lia. symmetry. apply div2_slot. lia.
    + destruct Hsz as [E _]. rewrite E.
      replace (2 * (length t / 2) + i / 2 * 2)%nat with ((length t / 2 + i / 2) * 2)%nat by lia.
      rewrite Nat.div_mul by lia. symmetry. apply div2_slot. lia.
  - intros j e' [[-> ->]|H']%Hj; [lia|]. specialize (Hlo _ _ H'). lia.
  - intros j e' [[-> ->]|H']%Hj; [lia|]. specialize (Hhi _ _ H'). lia.
Qed.

Lemma grow_slot_inv t g i s :
  table_ok key rand_hash t → (length t ≤ 128)%nat → t !! i = Some s → grow_inv t g i →
  ∃ g', grow_slot key rand_hash (length t) g i s = Some g' ∧ grow_inv t g' (S i).
Proof.
  intros Hok Hn Hi Hinv. pose proof (ok_size _ _ _ Hok) as Hsz. destruct s as [e|]; unfold grow_slot.
  2:{ exists g. split; [done|]. destruct Hinv as [Hlen Hent Hpl Hlo Hhi]. split; try done.
      - rewrite (take_S_r _ _ _ Hi). unfold entries in *. rewrite omap_app, Hent. simpl. by rewrite app_nil_r.
      - intros. assert (j < i)%nat by eauto. lia.
      - intros. assert (j < length t + i)%nat by eauto. lia. }
  pose proof (size_ok_even _ Hsz) as Hev. pose proof (lookup_lt_Some _ _ _ Hi) as Hit.
  pose proof (Nat.div_mod_eq i 2). pose proof (Nat.mod_upper_bound i 2).
  change BUCKET_ENTRY_COUNT with 2%nat. rewrite (gi_len _ _ _ Hinv).
  assert (i / 2 < 128)%nat as Hb by lia.
  rewrite N.mod_small by lia.
  assert (∀ base, (base = 0 ∨ base = length t)%nat →
    placed rand_hash (2 * length t) (base + i / 2 * 2) (key e) →
    ∃ g', place_in g (base + i / 2 * 2) bucket_slots e = Some g' ∧ grow_inv t g' (S i)) as Hput.
  { intros base Hbase Hp.
    assert (g !! (base + i / 2 * 2 + i mod 2)%nat = Some None) as Hnone.
    { destruct (lookup_lt_is_Some_2 g (base + i / 2 * 2 + i mod 2)) as [s Hs];
        [rewrite (gi_len _ _ _ Hinv); lia|]. destruct s as [e'|]; [|done]. exfalso.
      pose proof (gi_low _ _ _ Hinv _ _ Hs). pose proof (gi_high _ _ _ Hinv _ _ Hs). lia. }
    destruct (place_in_spec g (base + i / 2 * 2) (i mod 2) e) as (o & Ho & Hg & ->);
      [lia|rewrite (gi_len _ _ _ Hinv); lia|done|].
    eexists. split; [done|]. by apply grow_inv_put. }
  case_match eqn:Hcase.
  - apply (Hput 0%nat); [by left|]. unfold placed, cheap_bucket, rand_bucket.
    rewrite Nat.add_0_l, Nat.div_mul by done.
    apply orb_true_iff in Hcase as [Hc|Hc]; apply N.eqb_eq in Hc; rewrite <-Hc; lia.
  - bool_hyps. apply (Hput (length t)); [by right|]. unfold placed.
    replace ((length t + i / 2 * 2) / 2)%nat with (length t / 2 + i / 2)%nat
      by (symmetry; apply div2_slot; lia).
    destruct (ok_placed _ _ _ Hok _ _ Hi) as [E|E]; [left|right];
      by apply bucket_double.
Qed.

Lemma table_grow_spec t :
  table_ok key rand_hash t → (length t ≤ 128)%nat →
  ∃ t', table_grow key rand_hash t (replicate (2 * length t) None) = Some t' ∧
    table_ok key rand_hash t' ∧ length t' = (2 * length t)%nat ∧ entries t' ≡ₚ entries t.
Proof.
  intros Hok Hn.
  assert (∀ l i g, t = take i t ++ l → length (take i t) = i → grow_inv t g i →
    ∃ g', grow_slots key rand_hash (length t) g i l = Some g' ∧ grow_inv t g' (length t)) as Hloop.
  { induction l as [|s l IH]; intros i g Ht Hi Hinv; simpl.
    - exists g. split; [done|]. rewrite app_nil_r in Ht.
      apply (f_equal length) in Ht. rewrite Hi in Ht. by rewrite Ht.
    - assert (t !! i = Some s) as Hs.
      { rewrite Ht, lookup_app_r, Hi, Nat.sub_diag by lia. done. }
      destruct (grow_slot_inv t g i s) as (g' & -> & Hinv'); try done. simpl.
      apply IH; [|rewrite (take_S_r _ _ _ Hs), length_app, Hi; simpl; lia|done].
      rewrite (take_S_r _ _ _ Hs), <-app_assoc. done. }
  destruct (Hloop t 0%nat (replicate (2 * length t) None)) as (g' & Hg & [Hlen Hent Hpl _ _]); [done..| |].
  { split; [by rewrite length_replicate| |intros j e [? _]%lookup_replicate; done..].
    unfold entries. generalize (2 * length t)%nat. clear. induction n; simpl; [done|].
    done. }
  exists g'. split; [done|]. rewrite take_ge in Hent by done. split_and!; try done. split.
  - rewrite Hlen. apply size_ok_double; [apply Hok|done].
  - done.
  - rewrite Hent. apply Hok.
  - intros e. rewrite Hent. apply Hok.
Qed.

(** Emptying a slot. *)
Lemma take_ok t i e :
  table_ok key rand_hash t → t !! i = Some (Some e) →
  table_ok key rand_hash (<[i := None]> t) ∧
  (key e ∉ key <$> entries (<[i := None]> t)) ∧ entries t ≡ₚ e :: entries (<[i := None]> t).
Proof.
  intros Hok Hi. pose proof (entries_take t i e Hi) as He.
  pose proof (ok_unique _ _ _ Hok) as Hnd. rewrite He, fmap_cons, NoDup_cons in Hnd.
  destruct Hnd as [Hnk Hnd]. split_and!; [|done..]. split.
  - rewrite length_insert. apply Hok.
  - intros j e'. rewrite length_insert. destruct (decide (j = i)) as [->|].
    + by rewrite list_lookup_insert_eq by by eapply lookup_lt_Some.
    + rewrite list_lookup_insert_ne by done. apply Hok.
  - done.
  - intros e' He'. apply Hok. rewrite He. set_solver.
Qed.

(** Replacing the entry of a slot by one with the same key. *)
Lemma replace_ok t i e e' :
  table_ok key rand_hash t → t !! i = Some (Some e) → key e' = key e →
  let t' := <[i := Some e']> (<[i := None]> t) in
  table_ok key rand_hash t' ∧ ∃ es, entries t ≡ₚ e :: es ∧ entries t' ≡ₚ e' :: es.
Proof.
  intros Hok Hi Hk t'. destruct (take_ok t i e Hok Hi) as (Hok' & Hnk & He).
  pose proof (lookup_lt_Some _ _ _ Hi) as Hlt.
  assert (<[i:=None]> t !! i = Some None) as Hn by by apply list_lookup_insert_eq.
  split.
  - apply put_ok; try done; rewrite ?Hk; [|apply Hok, elem_of_entries; eauto|done].
    rewrite length_insert. by apply Hok.
  - eexists. split; [done|]. by apply entries_put.
Qed.

Lemma entries_empty n : entries (replicate n (@None T)) = [].
Proof. induction n; simpl; done. Qed.

Lemma empty_ok n : size_ok n → table_ok key rand_hash (replicate n None).
Proof.
  intros Hn. split; rewrite ?length_replicate, ?entries_empty.
  - done.
  - intros i e [? _]%lookup_replicate. done.
  - constructor.
  - set_solver.
Qed.
End lemmas.

(** ** Properties *)

Section claims.
Context {T : Type} (key : T → N) (rand_hash : N → N).

(** [ByteSet::drain_next_ascending] enumerates exactly the members of the
    set, in strictly ascending order and each once; at most [popcount] many
    steps are needed.  [insert], [remove] and [contains] are the set operations
    on bytes. *)
Theorem byteset_drain_ascending (s : ByteSet) (k : N) (Hs : byteset_wf s) (Hk : k < 256) :
  Sorted.StronglySorted N.lt (byteset_drain 256 s) ∧
  (∀ i, i ∈ byteset_drain 256 s ↔ i < 256 ∧ byteset_contains s i = true) ∧
  (∀ i, i ∈ byteset_drain 256 (byteset_insert s k) ↔ i = k ∨ i ∈ byteset_drain 256 s).
Proof.
  assert (∀ s', byteset_wf s' → byteset_drain 256 s' = byteset_elements s') as E.
  { intros s' Hs'. apply byteset_drain_elements; [done|]. unfold byteset_elements.
    etrans; [apply length_filter|]. by rewrite length_fmap, length_seq. }
  rewrite !E by auto. split_and!; [apply byteset_elements_sorted|apply elem_of_byteset_elements|].
  intros i. rewrite !elem_of_byteset_elements. split.
  - intros [Hi Hc]. rewrite byteset_contains_insert in Hc by done.
    apply orb_true_iff in Hc as [?%N.eqb_eq|?]; auto.
  - intros [->|[Hi Hc]]; (split; [done|]); rewrite byteset_contains_insert by done;
      by rewrite ?N.eqb_refl, ?Hc, ?orb_true_r.
Qed.

Lemma byteset_drain_ascending_witness :
  byteset_drain 256 (byteset_insert (byteset_insert byteset_empty 200) 7) = [7; 200] ∧
  Sorted.StronglySorted N.lt (byteset_drain 256 (byteset_insert byteset_empty 200)).
Proof.
  split; [vm_compute; reflexivity|].
  exact (proj1 (byteset_drain_ascending (byteset_insert byteset_empty 200) 7
    (byteset_insert_wf _ _ byteset_empty_wf) eq_refl)).
Defined.

(** [table_get] never fails on a well-formed table and returns an entry
    exactly when the table stores one with that key; the answer is unique. *)
Theorem table_get_lookup (t : list (option T)) (k : N) (Hok : table_ok key rand_hash t) :
  ∃ o, table_get key rand_hash t k = Some o ∧
    (∀ e, o = Some e ↔ e ∈ entries t ∧ key e = k) ∧
    (o = None ↔ k ∉ key <$> entries t).
Proof.
  destruct (table_get_total key rand_hash t k Hok) as [o Ho]. exists o. split; [done|].
  pose proof (table_get_Some key rand_hash t k) as HS.
  pose proof (table_get_None key rand_hash t k Hok) as HN. rewrite Ho in HN.
  split; [|naive_solver]. intros e. rewrite <-(HS e Hok), Ho. naive_solver.
Qed.

(** [table_insert] with a fresh byte key either stores the entry (every
    other entry is kept, whatever displacements the cuckoo search makes) or
    hands the entry back and leaves the table untouched; it never panics, it
    preserves the table invariant and the table's size, and at 256 slots it
    never hands the entry back, whichever random permutation is installed. *)
Theorem table_insert_correct (t : list (option T)) (e : T)
    (Hok : table_ok key rand_hash t) (Hk : key e < 256) (Hfresh : key e ∉ key <$> entries t) :
  ∃ r t', table_insert key rand_hash t e = Some (r, t') ∧
    table_ok key rand_hash t' ∧ length t' = length t ∧
    match r with
    | None => entries t' ≡ₚ e :: entries t
    | Some e' => e' = e ∧ t' = t ∧ length t ≠ 256%nat
    end.
Proof.
  destruct (table_insert_spec key rand_hash t e Hok Hk Hfresh)
    as (r & t' & Ht & [(-> & He & Hok' & Hl)|(-> & -> & Hl)]); [exists None, t'|exists (Some e), t]; eauto 10.
Qed.

(** [table_grow] into an empty table of twice the size loses no entry: the
    destination bucket always has room, so the entry-dropping path of the inner
    loop is never taken. *)
Theorem table_grow_correct (t : list (option T))
    (Hok : table_ok key rand_hash t) (Hl : (length t ≤ 128)%nat) :
  ∃ t', table_grow key rand_hash t (replicate (2 * length t) None) = Some t' ∧
    table_ok key rand_hash t' ∧ length t' = (2 * length t)%nat ∧ entries t' ≡ₚ entries t.
Proof. by apply table_grow_spec. Qed.
End claims.

(** A table of bytes with an arbitrary permutation table. *)
Definition ex_rand (k : N) : N := (k * 7 + 3) mod 256.
Definition ex_table : list (option N) :=
  match table_insert id ex_rand [None; None] 5 with Some (_, t) => t | None => [] end.

Lemma ex_table_ok : table_ok id ex_rand ex_table.
Proof.
  split.
  - exists 1%nat. split; [lia|reflexivity].
  - intros i e Hi. destruct i as [|[|i]]; vm_compute in Hi; [injection Hi as <-|done..].
    by left.
  - vm_compute. repeat constructor; set_solver.
  - intros e He. vm_compute in He. set_unfold in He. by destruct He as [->|[]].
Qed.

Lemma table_get_lookup_witness :
  ∃ o, table_get id ex_rand ex_table 5 = Some o ∧
    (∀ e, o = Some e ↔ e ∈ entries ex_table ∧ id e = 5) ∧
    (o = None ↔ 5 ∉ id <$> entries ex_table).
Proof. exact (table_get_lookup id ex_rand ex_table 5 ex_table_ok). Defined.

Lemma ex_fresh : id 9 ∉ id <$> entries ex_table.
Proof. vm_compute. set_solver. Qed.

Lemma table_insert_correct_witness :
  ∃ r t', table_insert id ex_rand ex_table 9 = Some (r, t') ∧
    table_ok id ex_rand t' ∧ length t' = length ex_table ∧
    match r with
    | None => entries t' ≡ₚ 9 :: entries ex_table
    | Some e' => e' = 9 ∧ t' = ex_table ∧ length ex_table ≠ 256%nat
    end.
Proof. exact (table_insert_correct id ex_rand ex_table 9 ex_table_ok eq_refl ex_fresh). Defined.

Lemma table_grow_correct_witness :
  ∃ t', table_grow id ex_rand ex_table (replicate (2 * length ex_table) None) = Some t' ∧
    table_ok id ex_rand t' ∧ length t' = (2 * length ex_table)%nat ∧
    entries t' ≡ₚ entries ex_table.
Proof.
  refine (table_grow_correct id ex_rand ex_table ex_table_ok _). apply Nat.leb_le. reflexivity.
Defined.
