(* ===== verification/KeySchema.v ===== *)
(** * KeySchema: key layouts, segmentations and tree orders

    Source: [triblespace-core/src/patch.rs] (the [const fn]s that build the
    tables, the traits [KeySchema] and [KeySegmentation], the macros
    [key_schema!] and [key_segmentation!]), the read-only key helpers of
    [patch/leaf.rs] (module [key_ops]) and the six trible orders of
    [trible.rs].

    A key is a list of bytes.  A schema permutes the bytes of a key into tree
    order; the trie of [Head.v] branches on tree-ordered bytes. *)

From S2P Require Import Prelude Lex.

Open Scope nat_scope.

(** ** Table construction *)

Definition build_segmentation (n : nat) (lens : list nat) : res (list nat) :=
  st ← foldM (λ '(arr, off) '(seg, len),
         arr ← foldM (λ arr i, arr_set arr (off + i) seg) arr (seq 0 len);
         Some (arr, off + len)) (replicate n 0, 0) (imap pair lens);
  Some st.1.

Definition identity_map (n : nat) : res (list nat) :=
  foldM (λ arr i, arr_set arr i i) (replicate n 0) (seq 0 n).

Definition build_key_to_tree (n : nat) (lens perm : list nat) : res (list nat) :=
  let m := length lens in
  key_starts ← foldM (λ '(arr, off) i,
      arr ← arr_set arr i off; len ← lens !! i; Some (arr, off + len))
    (replicate m 0, 0) (seq 0 m);
  tree_starts ← foldM (λ '(arr, off) i,
      seg ← perm !! i; arr ← arr_set arr seg off; len ← lens !! seg; Some (arr, off + len))
    (replicate m 0, 0) (seq 0 m);
  foldM (λ arr seg,
      len ← lens !! seg; ks ← key_starts.1 !! seg; ts ← tree_starts.1 !! seg;
      foldM (λ arr j, arr_set arr (ks + j) (ts + j)) arr (seq 0 len))
    (replicate n 0) (seq 0 m).

Definition invert (arr : list nat) : res (list nat) :=
  foldM (λ out i, j ← arr !! i; arr_set out j i) (replicate (length arr) 0)
    (seq 0 (length arr)).

(** The inner [while] of [build_segment_ends]; [fuel] bounds the scan by the
    number of depths left. *)
Fixpoint segment_end (segments tree_to_key : list nat) (seg e fuel : nat) : res nat :=
  match fuel with
  | O => Some e
  | S fuel =>
      i ← tree_to_key !! e; s ← segments !! i;
      if s =? seg then segment_end segments tree_to_key seg (S e) fuel else Some e
  end.

Definition build_segment_ends (segments tree_to_key : list nat) : res (list nat) :=
  let n := length segments in
  foldM (λ ends d,
      i ← tree_to_key !! d; seg ← segments !! i;
      e ← segment_end segments tree_to_key seg (d + 1) (n - (d + 1));
      arr_set ends d e)
    (replicate n 0) (seq 0 n).

(** ** Schemas *)

Class KeySchema (KEY_LEN : nat) := {
  SEGMENTS : list nat;
  KEY_TO_TREE : list nat;
  TREE_TO_KEY : list nat;
}.

(** [key_schema!] over [key_segmentation!]. *)
Definition key_schema (n : nat) (lens perm : list nat) : res (KeySchema n) :=
  segments ← build_segmentation n lens;
  k2t ← build_key_to_tree n lens perm;
  t2k ← invert k2t;
  Some {| SEGMENTS := segments; KEY_TO_TREE := k2t; TREE_TO_KEY := t2k |}.

Section schema.
Context {KEY_LEN : nat} {O : KeySchema KEY_LEN}.

Definition SEGMENT_ENDS : res (list nat) := build_segment_ends SEGMENTS TREE_TO_KEY.

Definition next_boundary (tree_depth : nat) : res nat :=
  ends ← SEGMENT_ENDS; ends !! tree_depth.

Definition tree_ordered (key : list N) : res (list N) :=
  foldM (λ new_key i, j ← KEY_TO_TREE !! i; b ← key !! i; arr_set new_key j b)
    (replicate KEY_LEN 0%N) (seq 0 KEY_LEN).

Definition key_ordered (tree_key : list N) : res (list N) :=
  foldM (λ new_key i, j ← TREE_TO_KEY !! i; b ← tree_key !! i; arr_set new_key j b)
    (replicate KEY_LEN 0%N) (seq 0 KEY_LEN).

Definition segment_of_tree_depth (at_depth : nat) : res nat :=
  i ← TREE_TO_KEY !! at_depth; SEGMENTS !! i.

Definition same_segment_tree (a b : nat) : res bool :=
  i ← TREE_TO_KEY !! a; sa ← SEGMENTS !! i;
  j ← TREE_TO_KEY !! b; sb ← SEGMENTS !! j;
  Some (sa =? sb).

(** ** Reading tree-ordered bytes

    [tree_byte key d] is [key[O::TREE_TO_KEY[d]]].  [tb] is the same byte with
    a default; the loops below only read depths under their explicit bound
    [KEY_LEN], where the two agree ([tree_byte_tb]). *)

Definition tree_byte (key : list N) (d : nat) : res N := i ← TREE_TO_KEY !! d; key !! i.
Definition tb (key : list N) (d : nat) : N := default 0%N (tree_byte key d).

(** [key_ops::has_prefix]: the loop over [depth] in
    [at_depth .. min(prefix.len(), KEY_LEN)]. *)
Definition key_has_prefix (key : list N) (at_depth : nat) (prefix : list N) : bool :=
  forallb (λ d, (tb key d =? nth d prefix 0)%N)
    (seq at_depth (length prefix `min` KEY_LEN - at_depth)).

(** [key_ops::matches]. *)
Definition key_matches (key : list N) (at_depth : nat) (query : list N) : bool :=
  forallb (λ d, (tb key d =? nth d query 0)%N)
    (seq at_depth (length query `min` KEY_LEN - at_depth)).

(** [key_ops::segmented_len]: the limit is [PREFIX_LEN]. *)
Definition key_segmented_len (key : list N) (at_depth : nat) (prefix : list N) : N :=
  if forallb (λ d, (tb key d =? nth d prefix 0)%N) (seq at_depth (length prefix - at_depth))
  then 1 else 0.

(** [core::array::from_fn(|i| key[O::TREE_TO_KEY[PREFIX_LEN + i]])]. *)
Definition key_infix (key : list N) (prefix_len infix_len : nat) : list N :=
  (λ i, tb key (prefix_len + i)) <$> seq 0 infix_len.

(** [key_ops::infixes]: the closure is called on the listed infixes. *)
Definition key_infixes (key prefix : list N) (infix_len at_depth : nat) : list (list N) :=
  if key_has_prefix key at_depth prefix then [key_infix key (length prefix) infix_len] else [].

Definition in_range (min_infix max_infix infix : list N) : bool :=
  lex_le min_infix infix && lex_le infix max_infix.

Definition key_infixes_range (key prefix : list N) (infix_len at_depth : nat)
    (min_infix max_infix : list N) : list (list N) :=
  if key_has_prefix key at_depth prefix then
    let infix := key_infix key (length prefix) infix_len in
    if in_range min_infix max_infix infix then [infix] else []
  else [].

Definition key_first_infix_range (key prefix : list N) (infix_len at_depth : nat)
    (min_infix max_infix : list N) : option (list N) :=
  if key_has_prefix key at_depth prefix then
    let infix := key_infix key (length prefix) infix_len in
    if in_range min_infix max_infix infix then Some infix else None
  else None.

Definition key_count_range (key prefix : list N) (infix_len at_depth : nat)
    (min_infix max_infix : list N) : N :=
  if key_has_prefix key at_depth prefix then
    if in_range min_infix max_infix (key_infix key (length prefix) infix_len) then 1%N else 0%N
  else 0%N.
End schema.

(** ** Lawful schemas *)

Class KeySchemaOk (KEY_LEN : nat) (O : KeySchema KEY_LEN) : Prop := {
  ks_seg_len : length SEGMENTS = KEY_LEN;
  ks_k2t_len : length KEY_TO_TREE = KEY_LEN;
  ks_t2k_len : length TREE_TO_KEY = KEY_LEN;
  ks_inverse : ∀ i j, KEY_TO_TREE !! i = Some j ↔ TREE_TO_KEY !! j = Some i;
  (** Every segment is contiguous in tree order. *)
  ks_contiguous : ∀ a b c, a ≤ b ≤ c → c < KEY_LEN →
    segment_of_tree_depth a = segment_of_tree_depth c →
    segment_of_tree_depth b = segment_of_tree_depth a;
}.

(** A byte string of the schema's width. *)
Record key_ok (n : nat) (key : list N) : Prop := {
  key_len : length key = n;
  key_bytes : ∀ b, b ∈ key → (b < 256)%N;
}.

(** ** Concrete schemas *)

(** [IdentitySchema] over [SingleSegmentation]. *)
Definition IdentitySchema (n : nat) : KeySchema n :=
  {| SEGMENTS := replicate n 0; KEY_TO_TREE := seq 0 n; TREE_TO_KEY := seq 0 n |}.

Definition TRIBLE_LEN : nat := 64.
Definition SEG_LENS : list nat := [16; 16; 32].

Definition from_schema {n} (o : res (KeySchema n)) : KeySchema n := default (IdentitySchema n) o.

Definition EAVOrder : KeySchema TRIBLE_LEN := from_schema (key_schema TRIBLE_LEN SEG_LENS [0; 1; 2]).
Definition EVAOrder : KeySchema TRIBLE_LEN := from_schema (key_schema TRIBLE_LEN SEG_LENS [0; 2; 1]).
Definition AEVOrder : KeySchema TRIBLE_LEN := from_schema (key_schema TRIBLE_LEN SEG_LENS [1; 0; 2]).
Definition AVEOrder : KeySchema TRIBLE_LEN := from_schema (key_schema TRIBLE_LEN SEG_LENS [1; 2; 0]).
Definition VEAOrder : KeySchema TRIBLE_LEN := from_schema (key_schema TRIBLE_LEN SEG_LENS [2; 0; 1]).
Definition VAEOrder : KeySchema TRIBLE_LEN := from_schema (key_schema TRIBLE_LEN SEG_LENS [2; 1; 0]).

(** ** Lemmas *)

Section lemmas.
Context {KEY_LEN : nat} {O : KeySchema KEY_LEN} `{!KeySchemaOk KEY_LEN O}.
Implicit Types (key : list N) (d : nat).

Lemma t2k_lookup d : d < KEY_LEN → ∃ i, TREE_TO_KEY !! d = Some i ∧ i < KEY_LEN.
Proof.
  intros Hd. destruct (lookup_lt_is_Some_2 TREE_TO_KEY d) as [i Hi]; [by rewrite ks_t2k_len|].
  exists i. split; [done|]. rewrite <-(ks_k2t_len (O:=O)). eapply lookup_lt_Some. by apply ks_inverse.
Qed.

Lemma k2t_lookup i : i < KEY_LEN → ∃ d, KEY_TO_TREE !! i = Some d ∧ d < KEY_LEN.
Proof.
  intros Hi. destruct (lookup_lt_is_Some_2 KEY_TO_TREE i) as [d Hd]; [by rewrite ks_k2t_len|].
  exists d. split; [done|]. rewrite <-(ks_t2k_len (O:=O)). eapply lookup_lt_Some. by apply ks_inverse.
Qed.

Lemma tree_byte_tb key d : key_ok KEY_LEN key → d < KEY_LEN → tree_byte key d = Some (tb key d).
Proof.
  intros [Hl _] Hd. unfold tb, tree_byte. destruct (t2k_lookup d Hd) as (i & -> & Hi). simpl.
  destruct (lookup_lt_is_Some_2 key i) as [b Hb]; [by rewrite Hl|by rewrite Hb].
Qed.

Lemma tb_lt key d : key_ok KEY_LEN key → (tb key d < 256)%N.
Proof.
  intros [_ Hb]. unfold tb. destruct (tree_byte key d) as [b|] eqn:E; simpl; [|lia].
  apply Hb. unfold tree_byte in E. apply bind_Some in E as (i & _ & Hi).
  by eapply list_elem_of_lookup_2.
Qed.

(** A key is determined by its tree-ordered bytes. *)
Lemma tb_inj key key' : key_ok KEY_LEN key → key_ok KEY_LEN key' →
  (∀ d, d < KEY_LEN → tb key d = tb key' d) → key = key'.
Proof.
  intros Hk Hk' Heq. apply list_eq_same_length with KEY_LEN; [by destruct Hk'|by destruct Hk|].
  intros i x y Hi Hx Hy. destruct (k2t_lookup i Hi) as (d & Hd & Hlt).
  apply ks_inverse in Hd. specialize (Heq d Hlt). unfold tb, tree_byte in Heq.
  by rewrite Hd in Heq; simpl in Heq; rewrite Hx, Hy in Heq.
Qed.

Lemma forallb_seq (P : nat → bool) a n :
  forallb P (seq a n) = true ↔ ∀ d, a ≤ d < a + n → P d = true.
Proof.
  rewrite forallb_forall. setoid_rewrite <-list_elem_of_In. setoid_rewrite elem_of_seq. done.
Qed.

Lemma key_has_prefix_spec key a prefix :
  key_has_prefix key a prefix = true ↔
    ∀ d, a ≤ d → d < length prefix → d < KEY_LEN → tb key d = nth d prefix 0%N.
Proof.
  unfold key_has_prefix. rewrite forallb_seq. setoid_rewrite N.eqb_eq.
  split; intros H d; intros; apply H; lia.
Qed.

Lemma key_matches_spec key a query :
  key_matches key a query = true ↔
    ∀ d, a ≤ d → d < length query → d < KEY_LEN → tb key d = nth d query 0%N.
Proof. apply key_has_prefix_spec. Qed.

(** Filling an array along a permutation of its positions. *)
Lemma permute_spec (pos : list nat) (src : list N) :
  length pos = KEY_LEN → length src = KEY_LEN → NoDup pos → (∀ j, j ∈ pos → j < KEY_LEN) →
  ∃ out, foldM (λ out i, j ← pos !! i; b ← src !! i; arr_set out j b)
      (replicate KEY_LEN 0%N) (seq 0 KEY_LEN) = Some out ∧
    length out = KEY_LEN ∧ ∀ i j, pos !! i = Some j → out !! j = src !! i.
Proof.
  intros Hp Hs Hnd Hlt.
  destruct (foldM_scatter (seq 0 KEY_LEN) (λ i, nth i pos 0) (λ i, nth i src 0%N)
    (replicate KEY_LEN 0%N)) as (out & Hf & Hl & Hv & _).
  - intros i Hi%elem_of_seq. rewrite length_replicate. apply Hlt.
    apply list_elem_of_In, nth_In. lia.
  - rewrite <-Hp. replace ((λ i, nth i pos 0) <$> seq 0 (length pos)) with pos; [done|].
    apply list_eq. intros i. rewrite list_lookup_fmap. destruct (decide (i < length pos)).
    + rewrite lookup_seq_lt by done. simpl. rewrite nth_lookup.
      by destruct (lookup_lt_is_Some_2 pos i) as [? ->].
    + rewrite lookup_ge_None_2, lookup_seq_ge by lia. done.
  - exists out. rewrite length_replicate in Hl. split_and!; [|done|].
    + rewrite <-Hf. assert (∀ l arr, (∀ i, i ∈ l → i < KEY_LEN) →
        foldM (λ out i, j ← pos !! i; b ← src !! i; arr_set out j b) arr l =
        foldM (λ arr i, arr_set arr (nth i pos 0) (nth i src 0%N)) arr l) as Hext.
      { induction l as [|i l IH]; intros arr Hi; simpl; [done|].
        destruct (lookup_lt_is_Some_2 pos i) as [j Hj]; [rewrite Hp; set_solver|].
        destruct (lookup_lt_is_Some_2 src i) as [b Hb]; [rewrite Hs; set_solver|].
        rewrite !nth_lookup, Hj, Hb. simpl. destruct (arr_set arr j b); simpl; [|done].
        apply IH. set_solver. }
      apply Hext. intros i Hi%elem_of_seq. lia.
    + intros i j Hj. assert (i < KEY_LEN) by (rewrite <-Hp; by eapply lookup_lt_Some).
      specialize (Hv i). rewrite elem_of_seq, !nth_lookup, Hj in Hv. simpl in Hv.
      rewrite Hv by lia. destruct (lookup_lt_is_Some_2 src i) as [b Hb]; [by rewrite Hs|].
      by rewrite Hb.
Qed.

Lemma k2t_NoDup : NoDup KEY_TO_TREE.
Proof.
  apply NoDup_alt. intros i j x Hi Hj. apply ks_inverse in Hi, Hj. congruence.
Qed.
Lemma t2k_NoDup : NoDup TREE_TO_KEY.
Proof. apply NoDup_alt. intros i j x Hi Hj. apply ks_inverse in Hi, Hj. congruence. Qed.

Lemma tree_ordered_spec key : key_ok KEY_LEN key →
  ∃ tkey, tree_ordered key = Some tkey ∧ key_ok KEY_LEN tkey ∧
    ∀ d, d < KEY_LEN → nth d tkey 0%N = tb key d.
Proof.
  intros Hk. destruct (permute_spec KEY_TO_TREE key) as (out & Ho & Hl & Hv);
    [apply ks_k2t_len|apply Hk|apply k2t_NoDup| |].
  - intros j [i Hi]%list_elem_of_lookup. rewrite <-(ks_t2k_len (O:=O)).
    eapply lookup_lt_Some. by apply ks_inverse.
  - assert (∀ d, d < KEY_LEN → out !! d = Some (tb key d)) as Hd.
    { intros d Hd. destruct (t2k_lookup d Hd) as (i & Hi & Hlt). pose proof Hi as Hi'.
      apply ks_inverse in Hi. rewrite (Hv _ _ Hi).
      pose proof (tree_byte_tb key d Hk Hd) as E. unfold tree_byte in E. by rewrite Hi' in E. }
    exists out. split_and!; [done| |].
    + split; [done|]. intros b [d Hb]%list_elem_of_lookup.
      pose proof (lookup_lt_Some _ _ _ Hb). rewrite Hd in Hb by lia. injection Hb as <-.
      by apply tb_lt.
    + intros d Hlt. by rewrite nth_lookup, Hd.
Qed.

Lemma key_ordered_spec tkey : key_ok KEY_LEN tkey →
  ∃ key, key_ordered tkey = Some key ∧ key_ok KEY_LEN key ∧
    ∀ d, d < KEY_LEN → tb key d = nth d tkey 0%N.
Proof.
  intros Hk. destruct (permute_spec TREE_TO_KEY tkey) as (out & Ho & Hl & Hv);
    [apply ks_t2k_len|apply Hk|apply t2k_NoDup| |].
  - intros j [i Hi]%list_elem_of_lookup. rewrite <-(ks_k2t_len (O:=O)).
    eapply lookup_lt_Some. by apply ks_inverse.
  - assert (key_ok KEY_LEN out) as Hok.
    { split; [done|]. intros b [i Hb]%list_elem_of_lookup.
      pose proof (lookup_lt_Some _ _ _ Hb) as Hlt. rewrite Hl in Hlt.
      destruct (k2t_lookup i Hlt) as (d & Hd & _). apply ks_inverse in Hd.
      rewrite (Hv _ _ Hd) in Hb. apply Hk. by eapply list_elem_of_lookup_2. }
    exists out. split_and!; [done..|]. intros d Hd. unfold tb, tree_byte.
    destruct (t2k_lookup d Hd) as (i & Hi & _). rewrite Hi. simpl. rewrite (Hv _ _ Hi).
    by rewrite nth_lookup.
Qed.
End lemmas.

(** ** The concrete schemas are lawful *)

Lemma identity_map_seq n : identity_map n = Some (seq 0 n).
Proof.
  unfold identity_map. destruct (foldM_scatter (seq 0 n) id id (replicate n 0)) as (out & Hf & Hl & Hv & _).
  - intros i Hi%elem_of_seq. rewrite length_replicate. unfold id. lia.
  - rewrite list_fmap_id. apply NoDup_seq.
  - unfold id in Hf. rewrite Hf. f_equal. rewrite length_replicate in Hl.
    apply list_eq_same_length with n; [by rewrite length_seq|done|].
    intros i x y Hi Hx Hy. rewrite lookup_seq_lt in Hy by done. injection Hy as <-.
    specialize (Hv i). unfold id in Hv. rewrite Hv in Hx by (apply elem_of_seq; lia). by injection Hx.
Qed.

(** Decides that equal labels are adjacent. *)
Fixpoint contiguousb (l : list nat) : bool :=
  match l with
  | [] => true
  | x :: l' =>
      match l' with
      | [] => true
      | y :: _ => (x =? y) || negb (existsb (Nat.eqb x) l')
      end && contiguousb l'
  end.

Lemma contiguousb_spec l a b c x : contiguousb l = true → a ≤ b ≤ c →
  l !! a = Some x → l !! c = Some x → l !! b = Some x.
Proof.
  revert a b c. induction l as [|y l IH]; intros a b c; [done|].
  cbn [contiguousb]. intros [H1 H2]%andb_true_iff Hle Ha Hc.
  destruct a as [|a]; simpl in Ha.
  - injection Ha as ->. destruct b as [|b]; [done|]. destruct c as [|c]; [lia|]. simpl in *.
    destruct l as [|y l]; [done|]. apply orb_true_iff in H1 as [<-%Nat.eqb_eq|H1].
    + apply (IH 0 b c); [done|lia|done|done].
    + apply negb_true_iff in H1. assert (existsb (Nat.eqb x) (y :: l) = true); [|congruence].
      apply existsb_exists. exists x. split; [|apply Nat.eqb_refl].
      apply list_elem_of_In. by eapply list_elem_of_lookup_2.
  - destruct b as [|b]; [lia|]. destruct c as [|c]; [lia|]. simpl in *. apply (IH a b c); auto; lia.
Qed.

(** Decides [KeySchemaOk]. *)
Definition schema_tables_okb (n : nat) (segs k2t t2k : list nat) : bool :=
  (length segs =? n) && (length k2t =? n) && (length t2k =? n) &&
  forallb (λ i, match k2t !! i with
                | Some j => bool_decide (t2k !! j = Some i) | None => false end) (seq 0 n) &&
  forallb (λ j, match t2k !! j with
                | Some i => bool_decide (k2t !! i = Some j) | None => false end) (seq 0 n) &&
  let labels := mapM (λ d, i ← t2k !! d; segs !! i) (seq 0 n) in
  contiguousb (default [] labels) && bool_decide (is_Some labels).
Definition schema_okb {n} (O : KeySchema n) : bool :=
  schema_tables_okb n SEGMENTS KEY_TO_TREE TREE_TO_KEY.

Lemma schema_okb_sound {n} (O : KeySchema n) : schema_okb O = true → KeySchemaOk n O.
Proof.
  unfold schema_okb, schema_tables_okb.
  rewrite !andb_true_iff, !Nat.eqb_eq, !forallb_seq, bool_decide_eq_true.
  intros [[[[[H1 H2] H3] H4] H5] [H6 [segs H7]]]. split; try done.
  - intros i j. split; intros H.
    + specialize (H4 i). rewrite H in H4. case_bool_decide; [done|].
      apply lookup_lt_Some in H. exfalso. assert (false = true); [apply H4; lia|done].
    + specialize (H5 j). rewrite H in H5. case_bool_decide; [done|].
      apply lookup_lt_Some in H. exfalso. assert (false = true); [apply H5; lia|done].
  - rewrite H7 in H6. simpl in H6. apply mapM_Some in H7.
    assert (∀ d, d < n → segs !! d = segment_of_tree_depth d) as Hs.
    { intros d Hd. rewrite Forall2_lookup in H7. specialize (H7 d).
      rewrite lookup_seq_lt in H7 by done. inversion H7 as [? ? E|]; subst. simpl in E. symmetry. exact E. }
    intros a b c Habc Hc E. rewrite <-!Hs in * by lia.
    destruct (lookup_lt_is_Some_2 segs a) as [x Hx].
    { apply Forall2_length in H7. rewrite length_seq in H7. lia. }
    rewrite Hx in E |- *. by apply (contiguousb_spec segs a b c x).
Qed.

Lemma identity_schema_ok n : KeySchemaOk n (IdentitySchema n).
Proof.
  split; simpl.
  - by rewrite length_replicate.
  - by rewrite length_seq.
  - by rewrite length_seq.
  - intros i j. rewrite !lookup_seq. lia.
  - intros a b c Habc Hc _. unfold segment_of_tree_depth. simpl.
    rewrite !lookup_seq_lt by lia. simpl. by rewrite !lookup_replicate_2 by lia.
Qed.

Lemma eav_ok : KeySchemaOk TRIBLE_LEN EAVOrder.
Proof. apply schema_okb_sound. vm_compute. reflexivity. Qed.
Lemma eva_ok : KeySchemaOk TRIBLE_LEN EVAOrder.
Proof. apply schema_okb_sound. vm_compute. reflexivity. Qed.
Lemma aev_ok : KeySchemaOk TRIBLE_LEN AEVOrder.
Proof. apply schema_okb_sound. vm_compute. reflexivity. Qed.
Lemma ave_ok : KeySchemaOk TRIBLE_LEN AVEOrder.
Proof. apply schema_okb_sound. vm_compute. reflexivity. Qed.
Lemma vea_ok : KeySchemaOk TRIBLE_LEN VEAOrder.
Proof. apply schema_okb_sound. vm_compute. reflexivity. Qed.
Lemma vae_ok : KeySchemaOk TRIBLE_LEN VAEOrder.
Proof. apply schema_okb_sound. vm_compute. reflexivity. Qed.
Lemma trible_schemas_ok :
  Forall (KeySchemaOk TRIBLE_LEN) [EAVOrder; EVAOrder; AEVOrder; AVEOrder; VEAOrder; VAEOrder].
Proof. eauto 10 using eav_ok, eva_ok, aev_ok, ave_ok, vea_ok, vae_ok, Forall_cons, Forall_nil_2. Qed.
#[export] Hint Resolve identity_schema_ok eav_ok eva_ok aev_ok ave_ok vea_ok vae_ok : core.

(** ** Properties *)

(** [invert] inverts any permutation table, and it panics on none. *)
Theorem invert_permutation (arr : list nat) (Hp : arr ≡ₚ seq 0 (length arr)) :
  ∃ out, invert arr = Some out ∧ length out = length arr ∧
    ∀ i j, arr !! i = Some j ↔ out !! j = Some i.
Proof.
  assert (NoDup arr) as Hnd by (rewrite Hp; apply NoDup_seq).
  assert (∀ j, j ∈ arr ↔ j < length arr) as Hin.
  { intros j. rewrite Hp, elem_of_seq at 1. lia. }
  assert ((λ i, nth i arr 0) <$> seq 0 (length arr) = arr) as Harr.
  { apply list_eq. intros i. rewrite list_lookup_fmap. destruct (decide (i < length arr)).
    + rewrite lookup_seq_lt by done. simpl. rewrite nth_lookup.
      by destruct (lookup_lt_is_Some_2 arr i) as [? ->].
    + rewrite lookup_seq_ge, lookup_ge_None_2 by lia. done. }
  destruct (foldM_scatter (seq 0 (length arr)) (λ i, nth i arr 0) id (replicate (length arr) 0))
    as (out & Hf & Hl & Hv & _).
  - intros i Hi%elem_of_seq. rewrite length_replicate. apply Hin, list_elem_of_In, nth_In. lia.
  - by rewrite Harr.
  - rewrite length_replicate in Hl. exists out. split_and!; [|done|].
    + unfold invert. rewrite <-Hf. generalize (replicate (length arr) 0).
      assert (∀ i, i ∈ seq 0 (length arr) → i < length arr) as Hi by (intros i Hi%elem_of_seq; lia).
      revert Hi. generalize (seq 0 (length arr)). induction l as [|i l IH]; intros Hi o; simpl; [done|].
      destruct (lookup_lt_is_Some_2 arr i) as [j Hj]; [set_solver|]. rewrite nth_lookup, Hj. simpl.
      destruct (arr_set o j i); simpl; [|done]. apply IH. set_solver.
    + assert (∀ i j, arr !! i = Some j → out !! j = Some i) as Hfwd.
      { intros i j Hij. specialize (Hv i). rewrite nth_lookup, Hij in Hv. apply Hv.
        apply elem_of_seq. apply lookup_lt_Some in Hij. lia. }
      intros i j. split; [apply Hfwd|]. intros Hj. pose proof (lookup_lt_Some _ _ _ Hj) as Hlt.
      rewrite Hl in Hlt. apply Hin, list_elem_of_lookup in Hlt as [i' Hi'].
      by rewrite (Hfwd _ _ Hi') in Hj; injection Hj as ->.
Qed.

Lemma invert_permutation_witness :
  ∃ out, invert [2; 0; 1] = Some out ∧ length out = 3 ∧
    ∀ i j, [2; 0; 1] !! i = Some j ↔ out !! j = Some i.
Proof.
  refine (invert_permutation [2; 0; 1] _).
  exact (perm_trans (perm_swap 0 2 [1]) (perm_skip 0 (perm_swap 1 2 []))).
Defined.

(** For a lawful schema [tree_ordered] and [key_ordered] never panic, keep
    the key width and are inverse to each other. *)
Theorem key_order_roundtrip {n} (O : KeySchema n) (key : list N)
    (HO : KeySchemaOk n O) (Hk : key_ok n key) :
  (tkey ← tree_ordered key; key_ordered tkey) = Some key ∧
  (skey ← key_ordered key; tree_ordered skey) = Some key.
Proof.
  split.
  - destruct (tree_ordered_spec key Hk) as (tkey & -> & Ht & Hd). simpl.
    destruct (key_ordered_spec tkey Ht) as (key' & -> & Hk' & Hd'). f_equal.
    apply tb_inj; [done..|]. intros d Hlt. by rewrite Hd', Hd.
  - destruct (key_ordered_spec key Hk) as (skey & -> & Hs & Hd). simpl.
    destruct (tree_ordered_spec skey Hs) as (key' & -> & Hk' & Hd'). f_equal.
    apply list_eq_same_length with n; [apply Hk|apply Hk'|].
    intros i x y Hi Hx Hy. specialize (Hd i Hi). specialize (Hd' i Hi).
    rewrite nth_lookup in Hd, Hd'. rewrite Hx in Hd'. rewrite Hy in Hd. simpl in *. congruence.
Qed.

Lemma key_order_roundtrip_witness :
  (tkey ← tree_ordered (O:=VEAOrder) (replicate 64 7%N); key_ordered (O:=VEAOrder) tkey)
    = Some (replicate 64 7%N) ∧
  (skey ← key_ordered (O:=VEAOrder) (replicate 64 7%N); tree_ordered (O:=VEAOrder) skey)
    = Some (replicate 64 7%N).
Proof.
  refine (key_order_roundtrip VEAOrder (replicate 64 7%N) vea_ok _). split; [reflexivity|].
  intros b. rewrite elem_of_replicate. intros [-> _]. reflexivity.
Defined.

(** The six trible orders built by [key_schema!] are lawful: their tables
    are inverse permutations of 64 positions, every segment is contiguous in
    tree order, and the segment ends are where the documentation puts them. *)
Theorem trible_orders_lawful :
  Forall (KeySchemaOk TRIBLE_LEN) [EAVOrder; EVAOrder; AEVOrder; AVEOrder; VEAOrder; VAEOrder] ∧
  SEGMENT_ENDS (O:=EAVOrder) = Some (replicate 16 16 ++ replicate 16 32 ++ replicate 32 64) ∧
  SEGMENT_ENDS (O:=VEAOrder) = Some (replicate 32 32 ++ replicate 16 48 ++ replicate 16 64).
Proof. split; [apply trible_schemas_ok|split; vm_compute; reflexivity]. Qed.
