(* ===== verification/PatchHash.v ===== *)
(** * PatchHash: hash-maintenance policies of PATCH

    Source: [triblespace-core/src/patch.rs], the sealed trait [PatchHash] and
    its two implementations [XorSip128] and [Blake3Merkle].

    The trait is the class [PatchHash]; what the comments of the trait promise
    is the class [PatchHashOk], which the trie's theorems use and both policies
    discharge.  SipHash-2-4-128 under the process-private key and BLAKE3 are
    third-party functions: [sip] and [blake3] are parameters.  The digests of
    [XorSip128] are [u128]: what the parameter answers is taken modulo [2 ^ 128]
    ([u128]), and [N.lxor] stays below ([xor_all_bound]). *)

From Stdlib Require Import Ascii String.
From S2P Require Import Prelude.

Open Scope N_scope.

Class PatchHash := {
  Digest : Type;
  digest_eq_dec :: EqDecision Digest;
  BranchState : Type;
  COMMUTATIVE_BRANCH : bool;
  INCREMENTAL_BRANCH : bool;
  ph_leaf : list N → Digest;
  begin_branch : list N → list nat → nat → nat → N → BranchState;
  push_child : BranchState → N → N → Digest → BranchState;
  finish_branch : BranchState → Digest;
  (** [None] is the [unreachable!] of a policy that does not support edits. *)
  edit_branch : Digest → N → option Digest → option Digest → res Digest;
}.

(** A child as the policy sees it: edge byte, leaf count, digest. *)
Abbreviation child_summary := (N * N * Digest)%type.

Section policy.
Context `{PatchHash}.

Definition push_children (st : BranchState) (chs : list child_summary) : BranchState :=
  foldl (λ st '(edge, count, d), push_child st edge count d) st chs.

Definition sum_counts (chs : list child_summary) : N := foldr N.add 0 ((λ c, c.1.2) <$> chs).

(** The summary of a branch: begin, push the children in order, finish. *)
Definition branch_digest (rep : list N) (tree_to_key : list nat) (end_depth : nat)
    (chs : list child_summary) : Digest :=
  finish_branch (push_children
    (begin_branch rep tree_to_key end_depth (length chs) (sum_counts chs)) chs).
End policy.

(** The promises of the sealed trait. *)
Class PatchHashOk (H : PatchHash) : Prop := {
  (** Only the first [end_depth] tree-ordered bytes of the representative enter
      the summary. *)
  ph_prefix rep rep' ttk end_depth n count :
    length rep = length rep' →
    (∀ i, i ∈ take end_depth ttk → rep !! i = rep' !! i) →
    begin_branch rep ttk end_depth n count = begin_branch rep' ttk end_depth n count;
  ph_edge st e e' c d : COMMUTATIVE_BRANCH = true → push_child st e c d = push_child st e' c d;
  ph_comm st chs chs' : COMMUTATIVE_BRANCH = true → chs ≡ₚ chs' →
    push_children st chs = push_children st chs';
  ph_incr_comm : INCREMENTAL_BRANCH = true → COMMUTATIVE_BRANCH = true;
  ph_insert rep ttk end_depth chs e c d : INCREMENTAL_BRANCH = true →
    edit_branch (branch_digest rep ttk end_depth chs) e None (Some d) =
      Some (branch_digest rep ttk end_depth ((e, c, d) :: chs));
  ph_remove rep ttk end_depth chs e c d : INCREMENTAL_BRANCH = true →
    edit_branch (branch_digest rep ttk end_depth ((e, c, d) :: chs)) e (Some d) None =
      Some (branch_digest rep ttk end_depth chs);
  ph_replace rep ttk end_depth chs e c d c' d' : INCREMENTAL_BRANCH = true →
    edit_branch (branch_digest rep ttk end_depth ((e, c, d) :: chs)) e (Some d) (Some d') =
      Some (branch_digest rep ttk end_depth ((e, c', d') :: chs));
}.

(** ** [XorSip128] *)

(** The low 128 bits of a number, that is, the number modulo [2 ^ 128]. *)
Definition u128 (n : N) : N := N.land n (N.ones 128).

Section xor.
Context (sip : list N → N).

#[local] Instance XorSip128 : PatchHash := {|
  Digest := N;
  BranchState := N;
  COMMUTATIVE_BRANCH := true;
  INCREMENTAL_BRANCH := true;
  ph_leaf bytes := u128 (sip bytes);
  begin_branch _ _ _ _ _ := 0;
  push_child state _ _ digest := N.lxor state digest;
  finish_branch state := state;
  edit_branch current _ old new :=
    let current := match old with Some old => N.lxor current old | None => current end in
    Some (match new with Some new => N.lxor current new | None => current end)
|}.
End xor.

(** ** [Blake3Merkle] *)

Definition ascii_bytes (s : string) : list N := N_of_ascii <$> list_ascii_of_string s.
Definition leaf_domain : list N := ascii_bytes "triblespace.patch.leaf.v1"%string ++ [0].
Definition branch_domain : list N := ascii_bytes "triblespace.patch.branch.v2"%string ++ [0].

(** What the leaf hasher is fed. *)
Definition leaf_preimage (bytes : list N) : list N :=
  leaf_domain ++ le_bytes 8 (N.of_nat (length bytes)) ++ bytes.

(** What the branch hasher is fed before the first child. *)
Definition branch_preimage (rep : list N) (tree_to_key : list nat) (end_depth child_count : nat)
    (leaf_count : N) : list N :=
  branch_domain ++ le_bytes 8 (N.of_nat (length rep)) ++ le_bytes 8 (N.of_nat end_depth) ++
  ((λ i, nth i rep 0) <$> take end_depth tree_to_key) ++
  le_bytes 8 (N.of_nat child_count) ++ le_bytes 8 leaf_count.

Section blake3.
Context (blake3 : list N → list N).

(** The hasher's state is the bytes it was fed. *)
#[local] Instance Blake3Merkle : PatchHash := {|
  Digest := list N;
  BranchState := list N;
  COMMUTATIVE_BRANCH := false;
  INCREMENTAL_BRANCH := false;
  ph_leaf bytes := blake3 (leaf_preimage bytes);
  begin_branch rep ttk end_depth n count := branch_preimage rep ttk end_depth n count;
  push_child state edge count digest := state ++ [edge] ++ le_bytes 8 count ++ digest;
  finish_branch state := blake3 state;
  edit_branch _ _ _ _ := None
|}.
End blake3.

(** ** Lemmas *)

Lemma lxor_cancel_r x y : N.lxor (N.lxor x y) y = x.
Proof. by rewrite N.lxor_assoc, N.lxor_nilpotent, N.lxor_0_r. Qed.

Section xor_laws.
Context (sip : list N → N).
#[local] Existing Instance XorSip128.

Definition xor_all (l : list N) : N := foldr N.lxor 0 l.

Lemma xor_all_app l l' : xor_all (l ++ l') = N.lxor (xor_all l) (xor_all l').
Proof.
  induction l as [|x l IH]; simpl; [by rewrite N.lxor_0_l|]. by rewrite IH, N.lxor_assoc.
Qed.

(** Exclusive or of [u128]s does not leave the type. *)
Lemma lxor_bound x y : x < 2 ^ 128 → y < 2 ^ 128 → N.lxor x y < 2 ^ 128.
Proof.
  intros Hx Hy. destruct (decide (N.lxor x y = 0)) as [->|Hne]; [done|].
  apply N.log2_lt_pow2; [lia|]. pose proof (N.log2_lxor x y) as Hl.
  assert (∀ z, z < 2 ^ 128 → N.log2 z < 128) as Hz.
  { intros z Hz. destruct (decide (z = 0)) as [->|]; [done|]. apply N.log2_lt_pow2; lia. }
  pose proof (Hz x Hx). pose proof (Hz y Hy). lia.
Qed.

Lemma xor_all_bound (l : list N) : Forall (λ x, x < 2 ^ 128) l → xor_all l < 2 ^ 128.
Proof. induction 1 as [|x l Hx _ IH]; [done|]. by apply lxor_bound. Qed.

Lemma u128_bound n : u128 n < 2 ^ 128.
Proof. unfold u128. rewrite N.land_ones. apply N.mod_lt. done. Qed.

Lemma u128_small n : n < 2 ^ 128 → u128 n = n.
Proof. unfold u128. rewrite N.land_ones. apply N.mod_small. Qed.

#[global] Instance xor_all_perm : Proper ((≡ₚ) ==> (=)) xor_all.
Proof.
  induction 1 as [|x l l' _ IH|x y l|]; simpl; [done|by rewrite IH| |congruence].
  by rewrite <-!N.lxor_assoc, (N.lxor_comm y x).
Qed.

Lemma xor_push (st : N) (chs : list (N * N * N)) :
  push_children (H:=XorSip128 sip) st chs = N.lxor st (xor_all (snd <$> chs)).
Proof.
  revert st. induction chs as [|[[e c] d] chs IH]; intros st; simpl; [by rewrite N.lxor_0_r|].
  unfold push_children in *. simpl. rewrite IH. apply N.lxor_assoc.
Qed.

Lemma xor_branch_digest rep ttk end_depth (chs : list (N * N * N)) :
  branch_digest (H:=XorSip128 sip) rep ttk end_depth chs = xor_all (snd <$> chs).
Proof. unfold branch_digest. simpl. rewrite xor_push. apply N.lxor_0_l. Qed.

#[global] Instance XorSip128_ok : PatchHashOk (XorSip128 sip).
Proof.
  split; try done.
  - intros st chs chs' _ Hp. rewrite !xor_push. by rewrite Hp.
  - intros. rewrite !xor_branch_digest. simpl. f_equal. by rewrite N.lxor_comm.
  - intros. rewrite !xor_branch_digest. simpl. f_equal.
    by rewrite (N.lxor_comm d), lxor_cancel_r.
  - intros. rewrite !xor_branch_digest. simpl. f_equal.
    by rewrite (N.lxor_comm d), lxor_cancel_r, N.lxor_comm.
Qed.
End xor_laws.

#[global] Instance Blake3Merkle_ok blake3 : PatchHashOk (Blake3Merkle blake3).
Proof.
  split; try done. intros rep rep' ttk end_depth n count Hl Hp. simpl.
  unfold branch_preimage. rewrite Hl. do 3 f_equal. f_equal.
  induction (take end_depth ttk) as [|i l IH]; [done|]. simpl. f_equal.
  - rewrite !nth_lookup, Hp by set_solver. done.
  - apply IH. set_solver.
Qed.

(** The streams fed to the hasher of a branch after its header. *)
Definition children_stream (chs : list (N * N * list N)) : list N :=
  chs ≫= λ '(e, c, d), [e] ++ le_bytes 8 c ++ d.

Lemma blake3_push blake3 (st : list N) (chs : list (N * N * list N)) :
  push_children (H:=Blake3Merkle blake3) st chs = st ++ children_stream chs.
Proof.
  revert st. induction chs as [|[[e c] d] chs IH]; intros st; [symmetry; apply app_nil_r|].
  unfold push_children in *. cbn [foldl]. rewrite IH. unfold children_stream. simpl.
  by rewrite <-!app_assoc.
Qed.

Lemma app_inj_len {A} (l1 l2 k1 k2 : list A) :
  length l1 = length l2 → l1 ++ k1 = l2 ++ k2 → l1 = l2 ∧ k1 = k2.
Proof. intros Hl. apply app_inj_1. done. Qed.

Lemma children_stream_inj chs chs' :
  (∀ e c d, (e, c, d) ∈ chs ++ chs' → c < 2 ^ 64 ∧ length d = 32%nat) →
  children_stream chs = children_stream chs' → chs = chs'.
Proof.
  revert chs'. induction chs as [|[[e c] d] chs IH]; intros [|[[e' c'] d'] chs'] Hw; try done.
  change (children_stream ((e, c, d) :: chs)) with (([e] ++ le_bytes 8 c ++ d) ++ children_stream chs).
  change (children_stream ((e', c', d') :: chs')) with (([e'] ++ le_bytes 8 c' ++ d') ++ children_stream chs').
  destruct (Hw e c d) as [Hc Hd]; [set_solver|]. destruct (Hw e' c' d') as [Hc' Hd']; [set_solver|].
  intros [E1 E2]%app_inj_len; [|rewrite !length_app, !le_bytes_length, Hd, Hd'; done].
  apply IH in E2 as ->; [|intros e0 c0 d0 Hin; apply (Hw e0); set_solver].
  apply app_inj_len in E1 as [[= ->] E1]; [|done].
  apply app_inj_len in E1 as [E1 ->]; [|by rewrite !le_bytes_length].
  apply le_bytes_inj in E1 as ->; done.
Qed.

Lemma branch_preimage_inj rep rep' (ttk ttk' : list nat) ed ed' (chs chs' : list (N * N * list N)) :
  (ed ≤ length ttk)%nat → (ed' ≤ length ttk')%nat →
  N.of_nat (length rep) < 2 ^ 64 → N.of_nat (length rep') < 2 ^ 64 →
  N.of_nat ed < 2 ^ 64 → N.of_nat ed' < 2 ^ 64 →
  N.of_nat (length chs) < 2 ^ 64 → N.of_nat (length chs') < 2 ^ 64 →
  (∀ e c d, (e, c, d) ∈ chs ++ chs' → c < 2 ^ 64 ∧ length d = 32%nat) →
  ∀ n n', n < 2 ^ 64 → n' < 2 ^ 64 →
  branch_preimage rep ttk ed (length chs) n ++ children_stream chs =
    branch_preimage rep' ttk' ed' (length chs') n' ++ children_stream chs' →
  length rep = length rep' ∧ ed = ed' ∧
  ((λ i, nth i rep 0) <$> take ed ttk) = ((λ i, nth i rep' 0) <$> take ed' ttk') ∧
  n = n' ∧ chs = chs'.
Proof.
  intros Hed Hed' Hr Hr' He He' Hc Hc' Hw n n' Hn Hn'. unfold branch_preimage.
  rewrite <-!app_assoc. intros [_ E]%app_inj_len; [|done].
  apply app_inj_len in E as [E1 E]; [|by rewrite !le_bytes_length].
  apply le_bytes_inj in E1; [|done..].
  apply app_inj_len in E as [E2 E]; [|by rewrite !le_bytes_length].
  apply le_bytes_inj in E2; [|done..].
  assert (ed = ed') as <- by lia.
  apply app_inj_len in E as [E3 E]; [|rewrite !length_fmap, !length_take_le by lia; done].
  apply app_inj_len in E as [_ E]; [|by rewrite !le_bytes_length].
  apply app_inj_len in E as [E4 E]; [|by rewrite !le_bytes_length].
  apply le_bytes_inj in E4; [|done..].
  apply children_stream_inj in E; [|done]. split_and!; [lia|done..].
Qed.

(** ** Properties *)

(** The XOR policy is a homomorphism: a branch summary is the exclusive or
    of its children's digests, whatever the representative, the depth, the
    counts, the edge bytes and the order of the children, and the three edits
    of [edit_branch] never panic and yield the summary of the edited list. *)
Theorem xorsip_homomorphism (sip : list N → N) rep ttk ed (chs : list (N * N * N)) e c d c' d' :
  let P := XorSip128 sip in
  branch_digest (H:=P) rep ttk ed chs = xor_all (snd <$> chs) ∧
  edit_branch (PatchHash:=P) (branch_digest (H:=P) rep ttk ed chs) e None (Some d) =
    Some (branch_digest (H:=P) rep ttk ed ((e, c, d) :: chs)) ∧
  edit_branch (PatchHash:=P) (branch_digest (H:=P) rep ttk ed ((e, c, d) :: chs)) e (Some d) None =
    Some (branch_digest (H:=P) rep ttk ed chs) ∧
  edit_branch (PatchHash:=P) (branch_digest (H:=P) rep ttk ed ((e, c, d) :: chs)) e
      (Some d) (Some d') =
    Some (branch_digest (H:=P) rep ttk ed ((e, c', d') :: chs)).
Proof.
  intros P. split_and!.
  - apply xor_branch_digest.
  - by apply (ph_insert (H:=P)).
  - by apply (ph_remove (H:=P)).
  - by apply (ph_replace (H:=P)).
Qed.

(** The BLAKE3 policy frames its input unambiguously: when two branches
    feed the hasher the same stream they have the same key width, the same
    compressed prefix, the same leaf count and the same list of children (edge,
    leaf count, digest).  Leaf and branch streams never coincide. *)
Theorem blake3_framing (rep rep' : list N) (ttk ttk' : list nat) (ed ed' : nat)
    (n n' : N) (chs chs' : list (N * N * list N)) (key : list N)
    (Hed : (ed ≤ length ttk)%nat) (Hed' : (ed' ≤ length ttk')%nat)
    (Hr : Forall (λ l, N.of_nat l < 2 ^ 64)
      [length rep; length rep'; ed; ed'; length chs; length chs'])
    (Hn : n < 2 ^ 64) (Hn' : n' < 2 ^ 64)
    (Hw : ∀ e c d, (e, c, d) ∈ chs ++ chs' → c < 2 ^ 64 ∧ length d = 32%nat)
    (Heq : branch_preimage rep ttk ed (length chs) n ++ children_stream chs =
      branch_preimage rep' ttk' ed' (length chs') n' ++ children_stream chs') :
  (length rep = length rep' ∧ ed = ed' ∧
    ((λ i, nth i rep 0) <$> take ed ttk) = ((λ i, nth i rep' 0) <$> take ed' ttk') ∧
    n = n' ∧ chs = chs') ∧
  leaf_preimage key ≠ branch_preimage rep ttk ed (length chs) n ++ children_stream chs.
Proof.
  split; [|done].
  rewrite !Forall_cons in Hr. destruct Hr as (?&?&?&?&?&?&_). by apply branch_preimage_inj.
Qed.

Lemma blake3_framing_witness :
  (length [1] = length [1] ∧ 0%nat = 0%nat ∧
    ((λ i, nth i [1] 0) <$> take 0 [0%nat]) = ((λ i, nth i [1] 0) <$> take 0 [0%nat]) ∧
    1 = 1 ∧ [(5, 1, replicate 32 9)] = [(5, 1, replicate 32 9)]) ∧
  leaf_preimage [1] ≠ branch_preimage [1] [0%nat] 0 1 1 ++ children_stream [(5, 1, replicate 32 9)].
Proof.
  refine (blake3_framing [1] [1] [0%nat] [0%nat] 0 0 1 1 [(5, 1, replicate 32 9)]
    [(5, 1, replicate 32 9)] [1] _ _ _ eq_refl eq_refl _ eq_refl).
  - apply Nat.leb_le. reflexivity.
  - apply Nat.leb_le. reflexivity.
  - repeat constructor.
  - intros e c d Hin. set_unfold in Hin. by destruct Hin as [[= -> -> ->]|[[= -> -> ->]|[]]].
Defined.
