(* ===== verification/Branch.v ===== *)
(** * Branch: nodes of the PATCH trie and the branch editor

    Source: [triblespace-core/src/patch/branch.rs], [patch/leaf.rs] and the
    node accessors of [Head] in [patch.rs].

    A [Head] is a tagged pointer in the source; here it is the value it points
    to, together with its edge byte.  Reference counts and copy-on-write only
    decide whether an update copies; with values they disappear.  What remains
    of pointers is [kptr], the representative pointer [childleaf], whose
    addresses the code compares.

    [None] is a panic ([unwrap], [unreachable!], a failed [assert!], an index out
    of range, an underflowing subtraction) or exhausted fuel. *)

From S2P Require Import Prelude ByteTable KeySchema PatchHash.

Open Scope nat_scope.

(** [*const [u8; KEY_LEN]]: an address and the immutable bytes behind it. *)
Record kptr := mkPtr { addr : N; bytes : list N }.

Definition ptr_eq (p q : kptr) : bool := (addr p =? addr q)%N.

(** [u64] subtraction; an underflow is a panic. *)
Definition checked_sub (x y : N) : res N := if (y <=? x)%N then Some (x - y)%N else None.

Record branch {D T : Type} := mkBranch {
  end_depth : nat;
  childleaf : kptr;
  leaf_count : N;
  segment_count : N;
  hash : D;
  child_table : list (option T);
}.
Arguments branch : clear implicits.
Arguments mkBranch {D T}.

Record leaf {D V : Type} := mkLeaf { leaf_ptr : kptr; leaf_hash : D; leaf_value : V }.
Arguments leaf : clear implicits.
Arguments mkLeaf {D V}.

#[warnings="-register-all"]
Inductive head {D V : Type} :=
  | HLeaf (key : N) (l : leaf D V)
  | HLocalLeaf (key : N) (p : kptr)
  | HBranch (key : N) (b : branch D head).
Arguments head : clear implicits.

Section fields.
Context {D T : Type}.
Implicit Types b : branch D T.
Definition set_table b t : branch D T :=
  mkBranch (end_depth b) (childleaf b) (leaf_count b) (segment_count b) (hash b) t.
Definition set_hash b h : branch D T :=
  mkBranch (end_depth b) (childleaf b) (leaf_count b) (segment_count b) h (child_table b).
Definition set_counts b lc sc : branch D T :=
  mkBranch (end_depth b) (childleaf b) lc sc (hash b) (child_table b).
Definition set_childleaf b p : branch D T :=
  mkBranch (end_depth b) p (leaf_count b) (segment_count b) (hash b) (child_table b).
End fields.

Section node.
Context {KEY_LEN : nat} {O : KeySchema KEY_LEN} {H : PatchHash} {V : Type}.
Context (rand_hash : N → N).
Abbreviation head := (head Digest V).
Abbreviation branch := (branch Digest head).
Implicit Types (h c : head) (b : branch).

(** ** Accessors of [Head] *)

Definition hkey h : N := match h with HLeaf k _ | HLocalLeaf k _ | HBranch k _ => k end.

Definition with_key h (k : N) : head :=
  match h with HLeaf _ l => HLeaf k l | HLocalLeaf _ p => HLocalLeaf k p
             | HBranch _ b => HBranch k b end.

(** [HeadTag]: 0 for a heap leaf, 9 for a local leaf, [log2] of the table size
    for a branch. *)
Definition tag h : nat :=
  match h with HLeaf _ _ => 0 | HLocalLeaf _ _ => 9
             | HBranch _ b => Nat.log2 (length (child_table b)) end.

Definition count h : N :=
  match h with HBranch _ b => leaf_count b | _ => 1%N end.

Definition branch_count_segment b (at_depth : nat) : res N :=
  same ← same_segment_tree at_depth (end_depth b);
  Some (if negb same then 1%N else segment_count b).

Definition count_segment h (at_depth : nat) : res N :=
  match h with HBranch _ b => branch_count_segment b at_depth | _ => Some 1%N end.

Definition hhash h : Digest :=
  match h with HLeaf _ l => leaf_hash l | HLocalLeaf _ p => ph_leaf (bytes p)
             | HBranch _ b => hash b end.

Definition hend h : nat := match h with HBranch _ b => end_depth b | _ => KEY_LEN end.

Definition childleaf_ptr h : kptr :=
  match h with HLeaf _ l => leaf_ptr l | HLocalLeaf _ p => p | HBranch _ b => childleaf b end.

Definition childleaf_key h : list N := bytes (childleaf_ptr h).

Definition with_start h (new_start_depth : nat) : res head :=
  k ← tree_byte (childleaf_key h) new_start_depth;
  Some (with_key h k).

(** ** Construction of branches *)

Definition begin_two (end_depth : nat) (lchild rchild : head) : BranchState :=
  begin_branch (childleaf_key lchild) TREE_TO_KEY end_depth 2 (count lchild + count rchild).

Definition hash_two_children (end_depth : nat) (lchild : head) (lchild_hash : Digest)
    (rchild : head) (rchild_hash : Digest) : Digest :=
  let state := begin_two end_depth lchild rchild in
  finish_branch (
    if COMMUTATIVE_BRANCH then
      push_child (push_child state 0 (count lchild) lchild_hash) 0 (count rchild) rchild_hash
    else if (hkey lchild <=? hkey rchild)%N then
      push_child (push_child state (hkey lchild) (count lchild) lchild_hash)
        (hkey rchild) (count rchild) rchild_hash
    else
      push_child (push_child state (hkey rchild) (count rchild) rchild_hash)
        (hkey lchild) (count lchild) lchild_hash).

Definition new_with_known_hash (end_depth : nat) (lchild rchild : head) (hash : Digest)
    : res branch :=
  ls ← count_segment lchild end_depth;
  rs ← count_segment rchild end_depth;
  Some (mkBranch end_depth (childleaf_ptr lchild) (count lchild + count rchild) (ls + rs) hash
    [Some lchild; Some rchild]).

Definition new_with_child_hashes (end_depth : nat) (lchild rchild : head)
    (lchild_hash rchild_hash : Digest) : res branch :=
  new_with_known_hash end_depth lchild rchild
    (hash_two_children end_depth lchild lchild_hash rchild rchild_hash).

Definition new_with_rchild_hash (end_depth : nat) (lchild rchild : head) (rchild_hash : Digest)
    : res branch :=
  new_with_child_hashes end_depth lchild rchild (hhash lchild) rchild_hash.

Definition branch_new (end_depth : nat) (lchild rchild : head) : res branch :=
  new_with_rchild_hash end_depth lchild rchild (hhash rchild).

(** ** Growing and installing *)

Definition grow b : res branch :=
  let new_size := 2 * length (child_table b) in
  massert (new_size <=? 256);;
  t ← table_grow hkey rand_hash (child_table b) (replicate new_size None);
  Some (set_table b t).

(** The cuckoo insert loop, growing the table when necessary.  A table doubles
    at most seven times before it has 256 slots. *)
Fixpoint install_loop (fuel : nat) b (inserted : head) : res branch :=
  '(displaced, t) ← table_insert hkey rand_hash (child_table b) inserted;
  match displaced with
  | None => Some (set_table b t)
  | Some displaced =>
      match fuel with
      | 0 => None
      | S fuel => b ← grow (set_table b t); install_loop fuel b displaced
      end
  end.

Definition install_child_growing b (h : head) : res branch := install_loop 8 b h.

(** ** Aggregates *)

(** Rebuilds the summary in canonical child-edge order. *)
Definition recompute_hash b : res branch :=
  let children := entries (child_table b) in
  let edges := foldl (λ s c, byteset_insert s (hkey c)) byteset_empty children in
  let representative :=
    match children with c :: _ => childleaf_key c | [] => replicate KEY_LEN 0%N end in
  let state := begin_branch representative TREE_TO_KEY (end_depth b)
    (byteset_popcount edges) (leaf_count b) in
  state ← foldM (λ state edge,
      o ← table_get hkey rand_hash (child_table b) edge;
      child ← o;
      Some (push_child state edge (count child) (hhash child)))
    state (byteset_drain 256 edges);
  Some (set_hash b (finish_branch state)).

(** The scan shared by the two bulk operations: leaf count, segment count and
    first representative. *)
Definition aggregate b : res (N * N * option kptr) :=
  foldM (λ '(lc, sc, first) child,
      s ← count_segment child (end_depth b);
      Some ((lc + count child)%N, (sc + s)%N,
            match first with None => Some (childleaf_ptr child) | Some p => Some p end))
    (0%N, 0%N, None) (entries (child_table b)).

Definition set_aggregate b (first : option kptr) : branch :=
  match first with Some p => set_childleaf b p | None => b end.

Definition recompute_aggregates b : res branch :=
  '(lc, sc, first) ← aggregate b;
  b ← recompute_hash (set_counts b lc sc);
  Some (set_aggregate b first).

Definition finish_bulk_aggregates b (known_hash : Digest) : res branch :=
  '(lc, sc, first) ← aggregate b;
  Some (set_aggregate (set_hash (set_counts b lc sc) known_hash) first).

(** ** [modify_child]

    [edit_hash] is the hash bookkeeping of every case: the algebraic edit when
    the policy is incremental and the cached hash is current, else the dirty
    flag. *)

Definition edit_hash b (key : N) (hash_is_current : bool) (old new : option Digest)
    : res (Digest * bool) :=
  if hash_is_current && INCREMENTAL_BRANCH then
    d ← edit_branch (hash b) key old new; Some (d, negb hash_is_current)
  else Some (hash b, if negb INCREMENTAL_BRANCH then true else negb hash_is_current).

(** [hint] is [Some] for [modify_child_with_inserted_hint].  The closure's
    captured result is [R]. *)
Definition modify_child_gen {R} (hint : option Digest) b (key : N) (hash_is_current : bool)
    (f : option head → res (option head * R)) : res (branch * bool * R) :=
  slot ← table_get_slot hkey rand_hash (child_table b) key;
  match slot with
  | Some i =>
      s ← child_table b !! i;
      child ← s;
      let b := set_table b (<[i := None]> (child_table b)) in
      let old_child_hash := hhash child in
      old_child_segment_count ← count_segment child (end_depth b);
      let old_child_leaf_count := count child in
      let replaced_childleaf := ptr_eq (childleaf_ptr child) (childleaf b) in
      '(r, x) ← f (Some child);
      match r with
      | Some new_child =>
          '(d, dirty) ← edit_hash b key hash_is_current (Some old_child_hash)
                          (Some (hhash new_child));
          sc ← checked_sub (segment_count b) old_child_segment_count;
          new_sc ← count_segment new_child (end_depth b);
          lc ← checked_sub (leaf_count b) old_child_leaf_count;
          let b := set_counts (set_hash b d) (lc + count new_child) (sc + new_sc) in
          let b := if replaced_childleaf then set_childleaf b (childleaf_ptr new_child) else b in
          Some (set_table b (<[i := Some (with_key new_child key)]> (child_table b)), dirty, x)
      | None =>
          '(d, dirty) ← edit_hash b key hash_is_current (Some old_child_hash) None;
          sc ← checked_sub (segment_count b) old_child_segment_count;
          lc ← checked_sub (leaf_count b) old_child_leaf_count;
          let b := set_counts (set_hash b d) lc sc in
          let b := if replaced_childleaf then
                     match entries (child_table b) with
                     | other :: _ => set_childleaf b (childleaf_ptr other)
                     | [] => b
                     end
                   else b in
          Some (b, dirty, x)
      end
  | None =>
      '(r, x) ← f None;
      match r with
      | Some inserted =>
          new_sc ← count_segment inserted (end_depth b);
          let inserted_hash := default (hhash inserted) hint in
          '(d, dirty) ← edit_hash b key hash_is_current None (Some inserted_hash);
          let b := set_counts (set_hash b d) (leaf_count b + count inserted)
                     (segment_count b + new_sc) in
          b ← install_loop 8 b inserted;
          Some (b, dirty, x)
      | None => Some (b, negb hash_is_current, x)
      end
  end.

(** ** The editor [BranchMut]

    [hash_dirty] accumulates; dropping the editor of a non-incremental policy
    rebuilds the hash once. *)
Record branch_mut := mkEd { ed_branch : branch; hash_dirty : bool }.

(** [from_head] panics on a leaf; the key byte stays with the head. *)
Definition from_head h : res branch_mut :=
  match h with HBranch _ b => Some (mkEd b false) | _ => None end.

Definition ed_modify {R} (hint : option Digest) (ed : branch_mut) (key : N)
    (f : option head → res (option head * R)) : res (branch_mut * R) :=
  '(b, dirty, x) ← modify_child_gen hint (ed_branch ed) key (negb (hash_dirty ed)) f;
  Some (mkEd b (hash_dirty ed || dirty), x).

(** [modify_child] with a closure that returns only the child. *)
Definition modify_child (ed : branch_mut) (key : N) (f : option head → res (option head))
    : res branch_mut :=
  '(ed, _) ← ed_modify None ed key (λ o, r ← f o; Some (r, tt));
  Some ed.

Definition modify_child_with_inserted_hint (ed : branch_mut) (key : N) (inserted_hash : Digest)
    (f : option head → res (option head)) : res branch_mut :=
  '(ed, _) ← ed_modify (Some inserted_hash) ed key (λ o, r ← f o; Some (r, tt));
  Some ed.

(** [Drop]: commits the branch into the head whose key byte is [key]. *)
Definition ed_drop (key : N) (ed : branch_mut) : res head :=
  b ← (if negb INCREMENTAL_BRANCH && hash_dirty ed then recompute_hash (ed_branch ed)
       else Some (ed_branch ed));
  Some (HBranch key b).
End node.

(** ** Comparing two heads, whose value types may differ *)

Section compare.
Context {KEY_LEN : nat} {O : KeySchema KEY_LEN} {H : PatchHash} {V V' : Type}.

Definition is_archive_singleton_pair (h : head Digest V) (h' : head Digest V') : bool :=
  match h, h' with
  | HLocalLeaf _ _, (HLeaf _ _ | HLocalLeaf _ _) | HLeaf _ _, HLocalLeaf _ _ => true
  | _, _ => false
  end.

Definition local_leaf_cardinality_allows_equality (h : head Digest V) (h' : head Digest V') : bool :=
  match h, h' with
  | HLocalLeaf _ _, _ => (count h' =? 1)%N
  | _, HLocalLeaf _ _ => (count h =? 1)%N
  | _, _ => true
  end.

(** The [while depth < limit] loop of [first_divergence]. *)
Fixpoint diverge (this_key other_key : list N) (depth n : nat) : option (nat * N * N) :=
  match n with
  | 0 => None
  | S n =>
      let a := tb this_key depth in
      let b := tb other_key depth in
      if (a =? b)%N then diverge this_key other_key (S depth) n else Some (depth, a, b)
  end.

Definition first_divergence (h : head Digest V) (h' : head Digest V') (start_depth : nat) : option (nat * N * N) :=
  let limit := (hend (KEY_LEN:=KEY_LEN) h `min` hend (KEY_LEN:=KEY_LEN) h') `min` KEY_LEN in
  diverge (childleaf_key h) (childleaf_key h') start_depth (limit - start_depth).

End compare.

(** ** Contents *)

Section contents.
Context {KEY_LEN : nat} {O : KeySchema KEY_LEN} {H : PatchHash} {V : Type}.
Context (rand_hash : N → N) (UNIT : V).
Abbreviation head := (head Digest V).
Abbreviation branch := (branch Digest head).
Implicit Types (h c : head) (b : branch) (k : list N).

(** The keys of a subtree with their values, in physical order.  [UNIT] is the
    static [()] a local leaf reads as its value. *)
Fixpoint kvs h : list (list N * V) :=
  match h with
  | HLeaf _ l => [(bytes (leaf_ptr l), leaf_value l)]
  | HLocalLeaf _ p => [(bytes p, UNIT)]
  | HBranch _ b =>
      flat_map (λ o, match o with Some c => kvs c | None => [] end) (child_table b)
  end.

Definition keys h : list (list N) := (kvs h).*1.

(** Two keys share their first [n] tree-ordered bytes. *)
Definition agree (n : nat) k k' : Prop := ∀ d, d < n → tb k d = tb k' d.

(** The canonical summary of a list of children: in ascending edge order. *)
Definition summary c : child_summary := (hkey c, count c, hhash c).
Definition edge_le (a b : head) : Prop := (hkey a ≤ hkey b)%N.
#[export] Instance edge_le_dec : RelDecision edge_le := λ c c', decide (hkey c ≤ hkey c')%N.
Definition sorted_children (es : list head) : list head := merge_sort edge_le es.
Definition canon_digest k (end_depth : nat) (es : list head) : Digest :=
  branch_digest k TREE_TO_KEY end_depth (summary <$> sorted_children es).

(** [count_segment] where it does not panic ([count_segment_seg]). *)
Definition seg (at_depth : nat) c : N := default 0%N (count_segment c at_depth).

(** ** The node invariant

    [dirty] is the editor's flag: the cached hash is only promised while it is
    unset. *)
Record branch_ok (P : head → Prop) b (dirty : bool) : Prop := {
  bo_depth : end_depth b < KEY_LEN;
  bo_table : table_ok hkey rand_hash (child_table b);
  bo_children : ∀ c, c ∈ entries (child_table b) → P c;
  bo_keys : ∀ c k, c ∈ entries (child_table b) → k ∈ keys c →
    agree (end_depth b) k (bytes (childleaf b)) ∧ tb k (end_depth b) = hkey c;
  bo_leaf_count : leaf_count b = sum_of count (entries (child_table b));
  bo_segment_count : segment_count b = sum_of (seg (end_depth b)) (entries (child_table b));
  bo_childleaf : ∃ c, c ∈ entries (child_table b) ∧ childleaf_ptr c = childleaf b;
  bo_hash : dirty = false →
    hash b = canon_digest (bytes (childleaf b)) (end_depth b) (entries (child_table b));
}.

#[warnings="-register-all"]
Inductive wf : head → Prop :=
  | wf_leaf e (l : leaf Digest V) :
      key_ok KEY_LEN (bytes (leaf_ptr l)) → leaf_hash l = ph_leaf (bytes (leaf_ptr l)) →
      wf (HLeaf e l)
  | wf_local e p : key_ok KEY_LEN (bytes p) → wf (HLocalLeaf e p)
  | wf_branch e b : branch_ok wf b false → 2 ≤ length (entries (child_table b)) →
      wf (HBranch e b).
End contents.

(** ** Lemmas on nodes *)

Section lemmas.
Context {KEY_LEN : nat} {O : KeySchema KEY_LEN} `{!KeySchemaOk KEY_LEN O}.
Context {H : PatchHash} `{!PatchHashOk H} {V : Type}.
Context (rand_hash : N → N) (UNIT : V).
Abbreviation head := (head Digest V).
Abbreviation branch := (branch Digest head).
Abbreviation kvs := (kvs UNIT).
Abbreviation keys := (keys UNIT).
Abbreviation wf := (wf rand_hash UNIT).
Abbreviation branch_ok := (branch_ok rand_hash UNIT).
Abbreviation kids b := (entries (child_table b)).
Implicit Types (h c : head) (b : branch) (k : list N).

Lemma kvs_branch e b : kvs (HBranch e b) = kids b ≫= kvs.
Proof.
  simpl. unfold entries. induction (child_table b) as [|[c|] t IH]; simpl; [done| |done].
  by rewrite IH.
Qed.

Lemma elem_of_kvs_branch e b kv : kv ∈ kvs (HBranch e b) ↔ ∃ c, c ∈ kids b ∧ kv ∈ kvs c.
Proof using Type.
  rewrite kvs_branch, list_elem_of_bind. split; intros (c & ? & ?); exists c; auto.
Qed.

Lemma elem_of_keys h k : k ∈ keys h ↔ ∃ v, (k, v) ∈ kvs h.
Proof.
  unfold Branch.keys. rewrite list_elem_of_fmap. split.
  - intros ([k' v] & -> & Hkv). eauto.
  - intros [v Hkv]. by exists (k, v).
Qed.

Lemma elem_of_keys_branch e b k : k ∈ keys (HBranch e b) ↔ ∃ c, c ∈ kids b ∧ k ∈ keys c.
Proof using Type.
  rewrite elem_of_keys. setoid_rewrite elem_of_kvs_branch. setoid_rewrite elem_of_keys.
  split; [intros (v & c & ? & ?)|intros (c & ? & v & ?)]; eauto.
Qed.

(** Re-keying changes the edge byte only. *)
Lemma with_key_hkey h e : hkey (with_key h e) = e.
Proof. by destruct h. Qed.
Lemma with_key_id h : with_key h (hkey h) = h.
Proof. by destruct h. Qed.
Lemma kvs_with_key h e : kvs (with_key h e) = kvs h.
Proof. by destruct h. Qed.
Lemma keys_with_key h e : keys (with_key h e) = keys h.
Proof. by destruct h. Qed.
Lemma count_with_key h e : count (with_key h e) = count h.
Proof. by destruct h. Qed.
Lemma hend_with_key h e : hend (KEY_LEN:=KEY_LEN) (with_key h e) = hend (KEY_LEN:=KEY_LEN) h.
Proof. by destruct h. Qed.
Lemma hhash_with_key h e : hhash (with_key h e) = hhash h.
Proof. by destruct h. Qed.
Lemma childleaf_ptr_with_key h e : childleaf_ptr (with_key h e) = childleaf_ptr h.
Proof. by destruct h. Qed.
Lemma seg_with_key d h e : seg d (with_key h e) = seg d h.
Proof. by destruct h. Qed.
Lemma wf_with_key h e : wf h → wf (with_key h e).
Proof. destruct 1; by constructor. Qed.

Lemma agree_sym n k k' : agree n k k' → agree n k' k.
Proof. intros Ha d Hd. symmetry. auto. Qed.
Lemma agree_trans n k1 k2 k3 : agree n k1 k2 → agree n k2 k3 → agree n k1 k3.
Proof. intros H1 H2 d Hd. by rewrite H1, H2. Qed.
Lemma agree_le n m k k' : n ≤ m → agree m k k' → agree n k k'.
Proof. intros Hle Ha d Hd. apply Ha. lia. Qed.
Lemma agree_S n k k' : agree n k k' → tb k n = tb k' n → agree (S n) k k'.
Proof. intros Ha Hn d Hd. destruct (decide (d = n)) as [->|]; [done|]. apply Ha. lia. Qed.

(** Induction over the trie. *)
Lemma wf_children_ind (P : head → Prop) :
  (∀ e l, wf (HLeaf e l) → P (HLeaf e l)) → (∀ e p, wf (HLocalLeaf e p) → P (HLocalLeaf e p)) →
  (∀ e b, branch_ok wf b false → 2 ≤ length (kids b) → (∀ c, c ∈ kids b → P c) →
    P (HBranch e b)) →
  ∀ h, wf h → P h.
Proof.
  intros Hl Hp Hb. fix IH 2. intros h Hwf. destruct Hwf as [e l Hk Hh|e p Hk|e b Hok Hlen].
  - apply Hl. by constructor.
  - apply Hp. by constructor.
  - apply Hb; [done..|]. destruct Hok as [_ _ Hc _ _ _ _ _]. intros c Hin. apply IH, Hc, Hin.
Qed.

(** The representative is one of the keys. *)
Lemma childleaf_key_in h : wf h → childleaf_key h ∈ keys h.
Proof.
  revert h. apply wf_children_ind.
  - intros e l _. apply list_elem_of_singleton. done.
  - intros e p _. apply list_elem_of_singleton. done.
  - intros e b Hok _ IH. destruct (bo_childleaf _ _ _ _ _ Hok) as (c & Hc & E).
    apply elem_of_keys_branch. exists c. split; [done|]. unfold childleaf_key. simpl.
    rewrite <-E. by apply IH.
Qed.

Lemma keys_ok h k : wf h → k ∈ keys h → key_ok KEY_LEN k.
Proof.
  intros Hwf. revert h Hwf k. apply (wf_children_ind (λ h, ∀ k, k ∈ keys h → key_ok KEY_LEN k)).
  - intros e l Hl k ->%list_elem_of_singleton. by inversion Hl.
  - intros e p Hl k ->%list_elem_of_singleton. by inversion Hl.
  - intros e b _ _ IH k (c & Hc & Hk)%elem_of_keys_branch. eauto.
Qed.

Lemma childleaf_key_ok h : wf h → key_ok KEY_LEN (childleaf_key h).
Proof. intros Hwf. eapply keys_ok; [done|]. by apply childleaf_key_in. Qed.

(** All keys of a subtree share the compressed path. *)
Lemma keys_agree h k : wf h → k ∈ keys h → agree (hend (KEY_LEN:=KEY_LEN) h) k (childleaf_key h).
Proof.
  destruct 1 as [e l|e p|e b Hok Hlen].
  - intros ->%list_elem_of_singleton. done.
  - intros ->%list_elem_of_singleton. done.
  - intros (c & Hc & Hk)%elem_of_keys_branch. by eapply bo_keys.
Qed.

Lemma keys_agree2 h k k' : wf h → k ∈ keys h → k' ∈ keys h → agree (hend (KEY_LEN:=KEY_LEN) h) k k'.
Proof. intros Hwf Hk Hk'. eapply agree_trans; [by apply keys_agree|]. by apply agree_sym, keys_agree. Qed.

Lemma hend_le h : wf h → hend (KEY_LEN:=KEY_LEN) h ≤ KEY_LEN.
Proof. destruct 1 as [| |e b Hok _]; simpl; [done..|]. apply Nat.lt_le_incl, Hok. Qed.

(** Two children of one branch with the same edge byte are one child. *)
Lemma kids_inj P b dirty c c' : branch_ok P b dirty →
  c ∈ kids b → c' ∈ kids b → hkey c = hkey c' → c = c'.
Proof. intros Hok. apply NoDup_fmap_elem_eq, Hok. Qed.

Lemma kids_two b : table_ok hkey rand_hash (child_table b) → 2 ≤ length (kids b) →
  ∃ c c', c ∈ kids b ∧ c' ∈ kids b ∧ hkey c ≠ hkey c'.
Proof.
  intros Hok Hlen. pose proof (ok_unique _ _ _ Hok) as Hnd.
  destruct (kids b) as [|c [|c' es]]; simpl in Hlen; [lia..|].
  exists c, c'. apply NoDup_cons in Hnd as [Hnd _]. set_solver.
Qed.

(** Whatever prefix all keys of a subtree share, its end depth is beyond it. *)
Lemma hend_lower h n : wf h → n ≤ KEY_LEN → (∀ k k', k ∈ keys h → k' ∈ keys h → agree n k k') →
  n ≤ hend (KEY_LEN:=KEY_LEN) h.
Proof.
  destruct 1 as [| |e b Hok Hlen]; simpl; [done..|]. intros Hn Hag.
  apply Nat.le_ngt. intros Hlt.
  destruct (kids_two b (bo_table _ _ _ _ _ Hok) Hlen) as (c & c' & Hc & Hc' & Hne).
  pose proof (bo_children _ _ _ _ _ Hok) as Hch.
  destruct (bo_keys _ _ _ _ _ Hok c (childleaf_key c) Hc) as [_ E];
    [by apply childleaf_key_in, Hch|].
  destruct (bo_keys _ _ _ _ _ Hok c' (childleaf_key c') Hc') as [_ E'];
    [by apply childleaf_key_in, Hch|].
  apply Hne. rewrite <-E, <-E'. apply (Hag (childleaf_key c) (childleaf_key c')); [| |done];
    apply elem_of_keys_branch; eauto using childleaf_key_in.
Qed.

Lemma child_hend b dirty c : branch_ok wf b dirty → c ∈ kids b →
  end_depth b < hend (KEY_LEN:=KEY_LEN) c.
Proof.
  intros Hok Hc. apply hend_lower; [by eapply bo_children|apply (bo_depth _ _ _ _ _ Hok)|].
  intros k k' Hk Hk'. destruct (bo_keys _ _ _ _ _ Hok c k Hc Hk), (bo_keys _ _ _ _ _ Hok c k' Hc Hk').
  apply agree_S; [|congruence]. eapply agree_trans; [done|]. by apply agree_sym.
Qed.

(** The keys of a subtree are pairwise distinct. *)
Lemma keys_NoDup h : wf h → NoDup (keys h).
Proof.
  revert h. apply wf_children_ind.
  - intros. apply NoDup_singleton.
  - intros. apply NoDup_singleton.
  - intros e b Hok _ IH. unfold Branch.keys. rewrite kvs_branch.
    pose proof (ok_unique _ _ _ (bo_table _ _ _ _ _ Hok)) as Hnd.
    pose proof (bo_keys _ _ _ _ _ Hok) as Hk. clear Hok. induction (kids b) as [|c es IHes]; [constructor|].
    csimpl. rewrite fmap_app. rewrite fmap_cons, NoDup_cons in Hnd. destruct Hnd as [Hc Hnd].
    apply NoDup_app. split_and!; [apply IH; set_solver| |apply IHes; [set_solver|done|set_solver]].
    intros k Hin Hin2. apply list_elem_of_fmap in Hin2 as ([k' v] & -> & (c' & Hkv & Hc')%list_elem_of_bind).
    simpl in *. apply Hc. apply list_elem_of_fmap. exists c'. split; [|done].
    destruct (Hk c k') as [_ <-]; [set_solver|done|].
    destruct (Hk c' k') as [_ <-]; [set_solver| |done]. apply elem_of_keys. eauto.
Qed.

(** Which child a key belongs to is decided by its branching byte. *)
Lemma kvs_child P b dirty e k v : branch_ok P b dirty →
  (k, v) ∈ kvs (HBranch e b) ↔ ∃ c, c ∈ kids b ∧ hkey c = tb k (end_depth b) ∧ (k, v) ∈ kvs c.
Proof.
  intros Hok. rewrite elem_of_kvs_branch. split; intros (c & Hc & Hkv); [|naive_solver].
  exists c. split_and!; [done| |done]. symmetry. eapply (bo_keys _ _ _ _ _ Hok); [done|].
  apply elem_of_keys. eauto.
Qed.

Lemma keys_child P b dirty e k : branch_ok P b dirty →
  k ∈ keys (HBranch e b) ↔ ∃ c, c ∈ kids b ∧ hkey c = tb k (end_depth b) ∧ k ∈ keys c.
Proof.
  intros Hok. rewrite elem_of_keys. setoid_rewrite (kvs_child P b dirty e k _ Hok).
  setoid_rewrite elem_of_keys. naive_solver.
Qed.

(** ** Canonical summaries *)

#[local] Instance edge_le_total : Total (edge_le (H:=H) (V:=V)).
Proof. intros x y. unfold edge_le. lia. Qed.
#[local] Instance edge_le_trans : Transitive (edge_le (H:=H) (V:=V)).
Proof. intros x y z. unfold edge_le. lia. Qed.

Lemma sorted_children_perm (es : list head) : sorted_children es ≡ₚ es.
Proof. apply merge_sort_Permutation. Qed.

(** Any list sorted by edge is the canonical one. *)
Lemma sorted_children_unique (es es' : list head) :
  es ≡ₚ es' → NoDup (hkey <$> es) → Sorted.StronglySorted edge_le es' → sorted_children es = es'.
Proof.
  intros Hp Hnd Hs. apply (StronglySorted_unique_strong edge_le).
  - intros x y Hx Hy Hxy Hyx. rewrite sorted_children_perm in Hx. rewrite <-Hp in Hy.
    eapply NoDup_fmap_elem_eq; [done..|]. unfold edge_le in *. lia.
  - apply StronglySorted_merge_sort; apply _.
  - done.
  - by rewrite sorted_children_perm.
Qed.

Lemma sorted_children_ext (es es' : list head) :
  es ≡ₚ es' → NoDup (hkey <$> es) → sorted_children es = sorted_children es'.
Proof.
  intros Hp Hnd. apply sorted_children_unique; [by rewrite sorted_children_perm|done|].
  apply StronglySorted_merge_sort; apply _.
Qed.

Lemma sum_counts_perm (chs chs' : list child_summary) :
  chs ≡ₚ chs' → sum_counts chs = sum_counts chs'.
Proof.
  intros Hp. unfold sum_counts. induction Hp; csimpl; lia.
Qed.

Lemma sum_counts_summary (es : list head) : sum_counts (summary <$> es) = sum_of count es.
Proof. unfold sum_counts. induction es as [|c es IH]; csimpl; [done|]. by rewrite IH. Qed.

(** A commutative policy does not see the order of the children. *)
Lemma canon_digest_comm k n (es : list head) : COMMUTATIVE_BRANCH = true →
  canon_digest k n es = branch_digest k TREE_TO_KEY n (summary <$> es).
Proof.
  intros Hc. unfold canon_digest, branch_digest.
  assert ((summary <$> sorted_children es) ≡ₚ (summary <$> es)) as Hp by by rewrite sorted_children_perm.
  rewrite (sum_counts_perm _ _ Hp), (Permutation_length Hp). f_equal. by apply ph_comm.
Qed.

(** Nor does any policy see more of the representative than the compressed
    path. *)
Lemma agree_take n k k' : key_ok KEY_LEN k → key_ok KEY_LEN k' → n ≤ KEY_LEN → agree n k k' →
  ∀ i, i ∈ take n TREE_TO_KEY → k !! i = k' !! i.
Proof.
  intros Hk Hk' Hn Ha i [d Hd]%list_elem_of_lookup. apply lookup_take_Some in Hd as [Hd Hlt].
  specialize (Ha d Hlt). pose proof (tree_byte_tb k d Hk) as E. pose proof (tree_byte_tb k' d Hk') as E'.
  unfold tree_byte in E, E'. rewrite Hd in E, E'. simpl in *. rewrite E, E' by lia. congruence.
Qed.

Lemma canon_digest_prefix k k' n (es : list head) : key_ok KEY_LEN k → key_ok KEY_LEN k' →
  n ≤ KEY_LEN → agree n k k' → canon_digest k n es = canon_digest k' n es.
Proof.
  intros Hk Hk' Hn Ha. unfold canon_digest, branch_digest. do 2 f_equal.
  apply ph_prefix; [by rewrite (key_len _ _ Hk), (key_len _ _ Hk')|]. by apply agree_take.
Qed.

Lemma canon_digest_perm k n (es es' : list head) : es ≡ₚ es' → NoDup (hkey <$> es) →
  canon_digest k n es = canon_digest k n es'.
Proof. intros Hp Hnd. unfold canon_digest. by rewrite (sorted_children_ext es es'). Qed.

(** [hash_two_children] summarizes its two children canonically. *)
Lemma hash_two_children_canon n (l r : head) : hkey l ≠ hkey r →
  hash_two_children n l (hhash l) r (hhash r) = canon_digest (childleaf_key l) n [l; r].
Proof.
  intros Hne. assert (NoDup (hkey <$> [l; r])) as Hnd by (repeat constructor; set_solver).
  unfold hash_two_children, begin_two. destruct COMMUTATIVE_BRANCH eqn:Hc.
  - rewrite canon_digest_comm by done. unfold branch_digest, sum_counts. simpl.
    rewrite N.add_0_r. f_equal.
    rewrite (ph_edge _ 0%N (hkey r)), (ph_edge _ 0%N (hkey l)) by done. done.
  - unfold canon_digest. destruct (N.leb_spec (hkey l) (hkey r)) as [Hle|Hlt].
    + rewrite (sorted_children_unique _ [l; r]); [|done|done|repeat constructor; done].
      unfold branch_digest, sum_counts. simpl. by rewrite N.add_0_r.
    + rewrite (sorted_children_unique _ [r; l]);
        [|apply perm_swap|done|repeat constructor; unfold edge_le; lia].
      unfold branch_digest, sum_counts. simpl. by rewrite N.add_0_r, (N.add_comm (count l)).
Qed.

(** The hash bookkeeping of [modify_child], for the three edits. *)
Lemma edit_hash_spec b dirty key old new (es es' : list head) k :
  (INCREMENTAL_BRANCH = true → dirty = false) →
  (dirty = false → hash b = canon_digest k (end_depth b) es) →
  (match old with Some c => hkey c = key | None => True end) →
  (match new with Some c => hkey c = key | None => True end) →
  NoDup (hkey <$> es) → NoDup (hkey <$> es') →
  (∃ rest, es ≡ₚ option_list old ++ rest ∧ es' ≡ₚ option_list new ++ rest) →
  is_Some old ∨ is_Some new →
  ∃ d dirty', edit_hash b key (negb dirty) (hhash <$> old) (hhash <$> new) = Some (d, dirty') ∧
    (INCREMENTAL_BRANCH = true → dirty' = false) ∧
    (dirty' = false → d = canon_digest k (end_depth b) es').
Proof.
  intros Hd Hh Hold Hnew Hnd Hnd' (rest & Hes & Hes') Hsome. unfold edit_hash.
  destruct INCREMENTAL_BRANCH eqn:Hi.
  - rewrite (Hd eq_refl) in *. simpl. specialize (Hh eq_refl).
    pose proof (ph_incr_comm Hi) as Hc.
    rewrite (canon_digest_perm _ _ _ _ Hes Hnd), canon_digest_comm in Hh by done.
    rewrite (canon_digest_perm _ _ _ _ Hes' Hnd'), (canon_digest_comm _ _ (_ ++ _)) by done.
    rewrite Hh. destruct old as [c|], new as [c'|]; simpl in *.
    + subst key. unfold summary at 1. rewrite (ph_replace _ _ _ _ _ _ _ (count c')) by done. simpl.
      eexists _, _. split; [done|]. split; [done|]. intros _. unfold summary at 2. by rewrite Hnew.
    + subst key. unfold summary at 1. rewrite ph_remove by done. simpl. eauto.
    + rewrite (ph_insert _ _ _ _ _ (count c')) by done. simpl. eexists _, _. split; [done|].
      split; [done|]. intros _. unfold summary at 2. by rewrite Hnew.
    + by destruct Hsome as [[]|[]].
  - rewrite andb_false_r. simpl. eexists _, _. split; [done|]. done.
Qed.

(** ** The editor's operations *)

Lemma sorted_children_strict (es : list head) : NoDup (hkey <$> es) →
  Sorted.StronglySorted N.lt (hkey <$> sorted_children es).
Proof.
  intros Hnd. rewrite <-(sorted_children_perm es) in Hnd.
  assert (Sorted.StronglySorted edge_le (sorted_children es)) as Hs
    by (apply StronglySorted_merge_sort; apply _).
  induction Hs as [|c es' Hs IH Hc]; [constructor|].
  rewrite fmap_cons, NoDup_cons in Hnd. destruct Hnd as [Hn Hnd]. constructor; [by apply IH|].
  apply Forall_forall. intros e (c' & -> & Hc')%list_elem_of_fmap. rewrite Forall_forall in Hc.
  specialize (Hc c' Hc'). unfold edge_le in Hc.
  assert (hkey c ≠ hkey c'); [|lia]. intros E. apply Hn. rewrite E. by apply list_elem_of_fmap_2.
Qed.

(** [recompute_hash] installs the canonical digest. *)
Lemma recompute_hash_spec b k :
  table_ok hkey rand_hash (child_table b) → kids b ≠ [] → end_depth b ≤ KEY_LEN →
  key_ok KEY_LEN k → leaf_count b = sum_of count (kids b) →
  (∀ c, c ∈ kids b → key_ok KEY_LEN (childleaf_key c) ∧ agree (end_depth b) (childleaf_key c) k) →
  recompute_hash (KEY_LEN:=KEY_LEN) rand_hash b =
    Some (set_hash b (canon_digest k (end_depth b) (kids b))).
Proof.
  intros Hok Hne Hd Hk Hlc Hkids. unfold recompute_hash.
  pose proof (ok_unique _ _ _ Hok) as Hnd.
  destruct (byteset_collect_drain hkey (kids b) (sorted_children (kids b))) as [-> ->];
    [apply Hok|apply sorted_children_perm|by apply sorted_children_strict|].
  set (rep := match kids b with [] => _ | c :: _ => _ end).
  assert (key_ok KEY_LEN rep ∧ agree (end_depth b) rep k) as [Hrk Hra].
  { unfold rep. destruct (kids b) as [|c es]; [done|]. apply Hkids. set_solver. }
  assert (∀ st es, (∀ c, c ∈ es → c ∈ kids b) →
    foldM (λ state edge, o ← table_get hkey rand_hash (child_table b) edge; child ← o;
      Some (push_child state edge (count child) (hhash child))) st (hkey <$> es) =
    Some (push_children st (summary <$> es))) as Hloop.
  { intros st es. revert st. induction es as [|c es IH]; intros st Hes; [done|]. csimpl.
    rewrite (proj2 (table_get_Some hkey rand_hash (child_table b) (hkey c) c Hok)) by set_solver.
    simpl. rewrite IH by set_solver. done. }
  rewrite Hloop by (intros c; by rewrite sorted_children_perm). simpl. do 2 f_equal.
  rewrite <-(canon_digest_prefix rep k) by done.
  assert (sum_of count (sorted_children (kids b)) = leaf_count b) as Hsum
    by (rewrite Hlc; by rewrite (sorted_children_perm (kids b))).
  unfold canon_digest, branch_digest. by rewrite length_fmap, sum_counts_summary, Hsum.
Qed.

Lemma count_segment_seg c n : hend (KEY_LEN:=KEY_LEN) c ≤ KEY_LEN → n < KEY_LEN →
  (match c with HBranch _ b => end_depth b < KEY_LEN | _ => True end) →
  count_segment c n = Some (seg n c).
Proof.
  intros _ Hn Hb. unfold seg. destruct c as [| |e b]; simpl; [done..|].
  unfold branch_count_segment, same_segment_tree.
  destruct (t2k_lookup (O:=O) n Hn) as (i & -> & Hi). simpl.
  destruct (t2k_lookup (O:=O) (end_depth b) Hb) as (j & -> & Hj). simpl.
  destruct (lookup_lt_is_Some_2 SEGMENTS i) as [x ->]; [by rewrite ks_seg_len|]. simpl.
  destruct (lookup_lt_is_Some_2 SEGMENTS j) as [y ->]; [by rewrite ks_seg_len|]. done.
Qed.

Lemma wf_count_segment c n : wf c → n < KEY_LEN → count_segment c n = Some (seg n c).
Proof.
  intros Hwf Hn. apply count_segment_seg; [by apply hend_le|done|].
  destruct Hwf as [| |e b Hok _]; [done..|]. apply Hok.
Qed.

(** The scan of the bulk operations. *)
Lemma aggregate_spec b : end_depth b < KEY_LEN → (∀ c, c ∈ kids b → wf c) →
  aggregate b = Some (sum_of count (kids b), sum_of (seg (end_depth b)) (kids b),
    childleaf_ptr <$> head_of (kids b)).
Proof.
  intros Hd Hwf. unfold aggregate.
  assert (∀ es lc sc first, (∀ c, c ∈ es → wf c) →
    foldM (λ '(lc, sc, first) child, s ← count_segment child (end_depth b);
      Some ((lc + count child)%N, (sc + s)%N,
            match first with None => Some (childleaf_ptr child) | Some p => Some p end))
      (lc, sc, first) es =
    Some ((lc + sum_of count es)%N, (sc + sum_of (seg (end_depth b)) es)%N,
      match first with None => childleaf_ptr <$> head_of es | Some p => Some p end)) as Hloop.
  { induction es as [|c es IH]; intros lc sc first Hes; simpl.
    - rewrite !N.add_0_r. by destruct first.
    - rewrite wf_count_segment by (done || set_solver). simpl. rewrite IH by set_solver.
      rewrite !N.add_assoc. by destruct first. }
  by rewrite Hloop.
Qed.

(** Installing a child with a fresh edge byte: the loop ends, nothing is lost. *)
Lemma install_loop_spec fuel b c :
  table_ok hkey rand_hash (child_table b) → (hkey c < 256)%N → hkey c ∉ hkey <$> kids b →
  256 ≤ 2 ^ fuel * length (child_table b) →
  ∃ t, install_loop rand_hash fuel b c = Some (set_table b t) ∧
    table_ok hkey rand_hash t ∧ entries t ≡ₚ c :: kids b ∧ length (child_table b) ≤ length t.
Proof.
  revert b. induction fuel as [|fuel IH]; intros b Hok Hc Hnew Hfuel; simpl;
    destruct (table_insert_spec hkey rand_hash _ c Hok Hc Hnew)
      as (r & t & -> & [(-> & He & Hok' & Hl)|(-> & -> & Hl)]); simpl.
  - exists t. rewrite Hl. eauto.
  - destruct (size_ok_even _ (ok_size _ _ _ Hok)). simpl in Hfuel. lia.
  - exists t. rewrite Hl. eauto.
  - pose proof (ok_size _ _ _ Hok) as Hsz.
    assert (length (child_table b) ≤ 128) as H128.
    { destruct Hsz as (e & He & E). rewrite E in *. destruct (decide (e = 8)) as [->|]; [done|].
      change 128 with (2 ^ 7). apply Nat.pow_le_mono_r; lia. }
    unfold grow. cbn [child_table set_table].
    rewrite (proj2 (Nat.leb_le (2 * length (child_table b)) 256)) by lia. simpl massert. cbn [mbind option_bind].
    destruct (table_grow_spec hkey rand_hash _ Hok H128) as (g & -> & Hok' & Hlen & He).
    cbn [mbind option_bind].
    destruct (IH (set_table (set_table b (child_table b)) g)) as (t & -> & Ht & Het & Hlt); simpl; try done.
    + by rewrite He.
    + rewrite Hlen. rewrite Nat.pow_succ_r' in Hfuel. lia.
    + exists t. split_and!; [done|done|by rewrite Het, He|simpl in Hlt; lia].
Qed.

Lemma table_fuel b : table_ok hkey rand_hash (child_table b) → 256 ≤ 2 ^ 8 * length (child_table b).
Proof. intros Hok. destruct (size_ok_even _ (ok_size _ _ _ Hok)). change (2 ^ 8) with 256. lia. Qed.

(** A subtree that may hang below [b] at edge [key]. *)
Definition fits b (key : N) (c : head) : Prop :=
  wf c ∧ ∀ k, k ∈ keys c →
    agree (end_depth b) k (bytes (childleaf b)) ∧ tb k (end_depth b) = key.

Lemma fits_with_key b key c e : fits b key c → fits b key (with_key c e).
Proof. intros [Hwf Hk]. split; [by apply wf_with_key|]. by rewrite keys_with_key. Qed.

Lemma fits_child b dirty c : branch_ok wf b dirty → c ∈ kids b → fits b (hkey c) c.
Proof. intros Hok Hc. split; [by eapply bo_children|]. intros k Hk. by eapply bo_keys. Qed.

Lemma fits_lt b key c : fits b key c → (key < 256)%N.
Proof.
  intros [Hwf Hk]. destruct (Hk (childleaf_key c)) as [_ <-]; [by apply childleaf_key_in|].
  apply (tb_lt (O:=O)). by apply childleaf_key_ok.
Qed.

Definition osum (f : head → N) (o : option head) : N := match o with Some c => f c | None => 0 end.

Lemma sum_of_option f o (es : list head) : sum_of f (option_list o ++ es) = (osum f o + sum_of f es)%N.
Proof. destruct o; simpl; lia. Qed.

(** The node invariant of a branch in which the child at one edge byte changed
    from [o] to [n]. *)
Lemma edited_branch_ok b dirty key o n es b' dirty' :
  branch_ok wf b dirty → kids b ≡ₚ option_list o ++ es →
  (∀ c, n = Some c → fits b key c ∧ hkey c = key) →
  table_ok hkey rand_hash (child_table b') → kids b' ≡ₚ option_list n ++ es →
  end_depth b' = end_depth b →
  leaf_count b' = (osum count n + sum_of count es)%N →
  segment_count b' = (osum (seg (end_depth b)) n + sum_of (seg (end_depth b)) es)%N →
  (∃ c, c ∈ kids b' ∧ childleaf_ptr c = childleaf b') →
  (dirty' = false → hash b' = canon_digest (bytes (childleaf b)) (end_depth b) (kids b')) →
  branch_ok wf b' dirty' ∧ agree (end_depth b) (bytes (childleaf b')) (bytes (childleaf b)).
Proof.
  intros Hok Hes Hn Htab Hes' Hd Hlc Hsc Hleaf Hhash.
  assert (∀ c, c ∈ kids b' → fits b (hkey c) c) as Hfit.
  { intros c. rewrite Hes', elem_of_app. intros [Hc|Hc].
    - destruct n as [c'|]; simpl in Hc; [|set_solver].
      apply list_elem_of_singleton in Hc as ->. by destruct (Hn c' eq_refl) as [? ->].
    - eapply fits_child; [done|]. rewrite Hes. set_solver. }
  assert (key_ok KEY_LEN (bytes (childleaf b'))
    ∧ agree (end_depth b) (bytes (childleaf b')) (bytes (childleaf b))) as [Hk' Ha].
  { destruct Hleaf as (c & Hc & <-). destruct (Hfit c Hc) as [Hwf Hk].
    split; [by apply childleaf_key_ok|]. by apply Hk, childleaf_key_in. }
  assert (key_ok KEY_LEN (bytes (childleaf b))) as Hk.
  { destruct (bo_childleaf _ _ _ _ _ Hok) as (c & Hc & <-).
    apply childleaf_key_ok. by eapply bo_children. }
  split; [|done]. split; rewrite ?Hd.
  - apply Hok.
  - done.
  - intros c Hc. by apply Hfit.
  - intros c k Hc Hkc. destruct (Hfit c Hc) as [_ Hf]. destruct (Hf k Hkc) as [H1 H2].
    split; [|done]. eapply agree_trans; [done|]. by apply agree_sym.
  - by rewrite Hlc, Hes', sum_of_option.
  - by rewrite Hsc, Hes', sum_of_option.
  - done.
  - intros Hd'. rewrite (Hhash Hd'). apply canon_digest_prefix; [done..| |by apply agree_sym].
    apply Nat.lt_le_incl, Hok.
Qed.

(** A binary branch. *)
Lemma new_with_child_hashes_spec n (l r : head) :
  wf l → wf r → n < KEY_LEN → hkey l ≠ hkey r →
  (∀ k, k ∈ keys l → agree n k (childleaf_key l) ∧ tb k n = hkey l) →
  (∀ k, k ∈ keys r → agree n k (childleaf_key l) ∧ tb k n = hkey r) →
  ∃ b, new_with_child_hashes n l r (hhash l) (hhash r) = Some b ∧
    branch_ok wf b false ∧ kids b = [l; r] ∧ end_depth b = n ∧ childleaf b = childleaf_ptr l ∧
    length (child_table b) = 2.
Proof.
  intros Hl Hr Hn Hne Hkl Hkr. unfold new_with_child_hashes, new_with_known_hash.
  rewrite !wf_count_segment by done. simpl. eexists. split; [done|].
  assert (NoDup (hkey <$> [l; r])) as Hnd by (repeat constructor; set_solver).
  assert (∀ c, c ∈ [l; r] → (hkey c < 256)%N) as H256.
  { intros c Hc. set_unfold in Hc. destruct Hc as [->|[->|[]]].
    - destruct (Hkl (childleaf_key l)) as [_ <-]; [by apply childleaf_key_in|].
      apply (tb_lt (O:=O)). by apply childleaf_key_ok.
    - destruct (Hkr (childleaf_key r)) as [_ <-]; [by apply childleaf_key_in|].
      apply (tb_lt (O:=O)). by apply childleaf_key_ok. }
  split_and!; try done. split; simpl.
  - done.
  - split; [exists 1; split; [lia|done]|..]; simpl; try done.
    intros i e Hi. left. pose proof (cheap_bucket_lt 2 (hkey e)) as Hlt.
    assert (size_ok 2) as Hs by (exists 1; split; [lia|done]). specialize (Hlt Hs). change (2 / 2) with 1 in Hlt.
    apply lookup_lt_Some in Hi. simpl in Hi. destruct i as [|[|i]]; simpl; lia.
  - intros c Hc. set_unfold in Hc. by destruct Hc as [->|[->|[]]].
  - intros c k Hc. set_unfold in Hc. destruct Hc as [->|[->|[]]]; auto.
  - by rewrite N.add_0_r.
  - by rewrite N.add_0_r.
  - exists l. set_solver.
  - intros _. by rewrite hash_two_children_canon.
Qed.

(** Which case of [modify_child] applies. *)
Lemma slot_cases b dirty key o (es : list head) :
  branch_ok wf b dirty → kids b ≡ₚ option_list o ++ es →
  (∀ c, o = Some c → hkey c = key) → key ∉ hkey <$> es →
  match o with
  | Some c => ∃ i, table_get_slot hkey rand_hash (child_table b) key = Some (Some i) ∧
      child_table b !! i = Some (Some c) ∧
      entries (<[i := None]> (child_table b)) ≡ₚ es
  | None => table_get_slot hkey rand_hash (child_table b) key = Some None
  end.
Proof.
  intros Hok Hes Ho Hfresh. pose proof (bo_table _ _ _ _ _ Hok) as Ht.
  pose proof (table_get_slot_spec hkey rand_hash (child_table b) key Ht) as Hs.
  destruct (table_get_slot _ _ _ _) as [[i|]|]; [| |done].
  - destruct Hs as (c & Hi & Hc).
    assert (c ∈ kids b) as Hin by (apply elem_of_entries; eauto).
    rewrite Hes, elem_of_app in Hin. destruct Hin as [Hin|Hin].
    + destruct o as [c'|]; simpl in Hin; [|set_solver]. apply list_elem_of_singleton in Hin as ->.
      exists i. split_and!; [done..|]. apply (Permutation_cons_inv (a:=c')).
      rewrite <-Hes. symmetry. by apply entries_take.
    + destruct Hfresh. rewrite <-Hc. by apply list_elem_of_fmap_2.
  - destruct o as [c|]; [|done]. destruct Hs. rewrite <-(Ho c eq_refl), Hes.
    rewrite fmap_app. set_solver.
Qed.

Lemma checked_sub_add x y : checked_sub (x + y) x = Some y.
Proof. unfold checked_sub. rewrite (proj2 (N.leb_le _ _)) by lia. f_equal. lia. Qed.

(** What one edit of the child at [key] leaves behind. *)
Record edited b (dirty : bool) (key : N) (n : option head) (es : list head)
    b' (dirty' : bool) : Prop := {
  ed_ok : branch_ok wf b' (dirty || dirty');
  ed_incr : INCREMENTAL_BRANCH = true → dirty' = false;
  ed_kids : kids b' ≡ₚ option_list n ++ es;
  ed_depth : end_depth b' = end_depth b;
  ed_prefix : agree (end_depth b) (bytes (childleaf b')) (bytes (childleaf b));
}.

(** [modify_child] on an occupied slot. *)
Lemma modify_child_occupied {R} hint b dirty key c n es
    (f : option head → option (option head * R)) x :
  branch_ok wf b dirty → (INCREMENTAL_BRANCH = true → dirty = false) →
  kids b ≡ₚ c :: es → hkey c = key → key ∉ hkey <$> es → f (Some c) = Some (n, x) →
  (∀ c', n = Some c' → fits b key c') → option_list n ++ es ≠ [] →
  ∃ b' dirty', modify_child_gen rand_hash hint b key (negb dirty) f = Some (b', dirty', x) ∧
    edited b dirty key ((λ c, with_key c key) <$> n) es b' dirty'.
Proof.
  intros Hok Hincr Hes Hc Hfresh Hf Hn Hne.
  destruct (slot_cases b dirty key (Some c) es Hok Hes) as (i & Hslot & Hi & Hrest); [by intros ? [= <-]|done|].
  unfold modify_child_gen. rewrite Hslot. cbn [mbind option_bind]. rewrite Hi. cbn [mbind option_bind].
  set (b1 := set_table b _). pose proof (bo_table _ _ _ _ _ Hok) as Ht.
  pose proof (bo_depth _ _ _ _ _ Hok) as Hd.
  assert (c ∈ kids b) as Hcin by (rewrite Hes; set_solver).
  assert (wf c) as Hwfc by by eapply bo_children.
  change (end_depth b1) with (end_depth b).
  rewrite (wf_count_segment c _ Hwfc Hd). cbn [mbind option_bind]. rewrite Hf. cbn [mbind option_bind].
  pose proof (bo_leaf_count _ _ _ _ _ Hok) as Hlc. pose proof (bo_segment_count _ _ _ _ _ Hok) as Hsc.
  rewrite Hes in Hlc, Hsc. simpl in Hlc, Hsc.
  pose proof (ok_unique _ _ _ Ht) as Hnd.
  destruct (take_ok hkey rand_hash _ i c Ht Hi) as (Ht1 & Hnk & _).
  assert (NoDup (hkey <$> es)) as Hnde by (rewrite Hes in Hnd; by apply NoDup_cons in Hnd as [_ ?]).
  assert (∀ c0, c0 ∈ es → c0 ∈ kids b) as Hesin by (intros; rewrite Hes; set_solver).
  destruct n as [c'|].
  - destruct (edit_hash_spec b1 dirty key (Some c) (Some (with_key c' key)) (kids b)
      (with_key c' key :: es) (bytes (childleaf b))) as (d & dirty' & E & Hi' & Hd');
      [done|by apply Hok|done|by apply with_key_hkey|done| |by exists es|auto|].
    { rewrite fmap_cons, with_key_hkey. by constructor. }
    simpl fmap in E. rewrite hhash_with_key in E. rewrite E. cbn [mbind option_bind].
    change (segment_count b1) with (segment_count b). change (leaf_count b1) with (leaf_count b).
    change (end_depth b1) with (end_depth b). change (childleaf b1) with (childleaf b).
    rewrite Hsc, checked_sub_add. cbn [mbind option_bind].
    destruct (Hn c' eq_refl) as [Hwf' Hk']. rewrite (wf_count_segment c' _ Hwf' Hd).
    cbn [mbind option_bind]. rewrite Hlc, checked_sub_add. cbn [mbind option_bind].
    eexists _, dirty'. split; [done|].
    set (b2 := if ptr_eq _ _ then _ else _).
    assert (child_table b2 = <[i:=None]> (child_table b)) as Et by (unfold b2; by case_match).
    assert (<[i:=None]> (child_table b) !! i = Some None) as Hnone.
    { apply list_lookup_insert_eq. by eapply lookup_lt_Some. }
    assert (entries (<[i:=Some (with_key c' key)]> (child_table b2)) ≡ₚ with_key c' key :: es) as Hkids.
    { rewrite Et, entries_put by done. by rewrite Hrest. }
    destruct (edited_branch_ok b dirty key (Some c) (Some (with_key c' key)) es
      (set_table b2 (<[i:=Some (with_key c' key)]> (child_table b2))) (dirty || dirty')) as [Hok' Ha'].
    + done.
    + done.
    + intros ? [= <-]. split; [by apply fits_with_key, Hn|by apply with_key_hkey].
    + simpl. rewrite Et. apply put_ok; rewrite ?with_key_hkey; [done|done| | |by rewrite Hrest].
      * rewrite length_insert. rewrite <-Hc. by apply Ht.
      * eapply fits_lt. by apply Hn.
    + done.
    + by unfold b2; case_match.
    + simpl. rewrite count_with_key. unfold b2. case_match; simpl; lia.
    + simpl. rewrite seg_with_key. unfold b2. case_match; simpl; lia.
    + assert (childleaf b2 = if ptr_eq (childleaf_ptr c) (childleaf b) then childleaf_ptr c'
        else childleaf b) as Hcl by (unfold b2; by case_match).
      change (childleaf (set_table b2 _)) with (childleaf b2). rewrite Hcl.
      change (kids (set_table b2 ?t)) with (entries t). setoid_rewrite Hkids.
      destruct (ptr_eq (childleaf_ptr c) (childleaf b)) eqn:Ep.
      * exists (with_key c' key). rewrite childleaf_ptr_with_key. set_solver.
      * destruct (bo_childleaf _ _ _ _ _ Hok) as (c0 & Hc0 & E0). exists c0. split; [|done].
        rewrite Hes in Hc0. apply elem_of_cons in Hc0 as [->|?]; [|set_solver].
        exfalso. rewrite E0 in Ep. unfold ptr_eq in Ep. by rewrite N.eqb_refl in Ep.
    + intros [_ Hdf]%orb_false_iff. simpl.
      assert (hash b2 = d) as -> by by unfold b2; case_match.
      rewrite (Hd' Hdf). apply canon_digest_perm; [by rewrite Hkids|].
      rewrite fmap_cons, with_key_hkey. by constructor.
    + split; [done|done|exact Hkids|by unfold b2; case_match|done].
  - simpl in Hne. destruct (edit_hash_spec b1 dirty key (Some c) None (kids b) es (bytes (childleaf b)))
      as (d & dirty' & E & Hi' & Hd'); [done|by apply Hok|done|done|done|done|by exists es|auto|].
    simpl fmap in E. rewrite E. cbn [mbind option_bind].
    change (segment_count b1) with (segment_count b). change (leaf_count b1) with (leaf_count b).
    rewrite Hsc, checked_sub_add. cbn [mbind option_bind]. rewrite Hlc, checked_sub_add.
    cbn [mbind option_bind]. eexists _, dirty'. split; [done|]. simpl fmap.
    change (child_table (set_counts _ _ _)) with (<[i:=None]> (child_table b)).
    change (childleaf b1) with (childleaf b).
    set (b2 := if ptr_eq _ _ then _ else _).
    assert (child_table b2 = <[i:=None]> (child_table b)) as Et by (unfold b2; repeat case_match; done).
    assert (end_depth b2 = end_depth b) as Ed by (unfold b2; repeat case_match; done).
    destruct (edited_branch_ok b dirty key (Some c) None es b2 (dirty || dirty')) as [Hok' Ha'];
      [done|done|done|by rewrite Et|by rewrite Et|done| | | | |].
    + unfold b2. repeat case_match; simpl; lia.
    + unfold b2. repeat case_match; simpl; lia.
    + rewrite Et. unfold b2. destruct (ptr_eq (childleaf_ptr c) (childleaf b)) eqn:Ep.
      * destruct (entries (<[i:=None]> (child_table b))) as [|c1 es1] eqn:E1.
        { by apply Permutation_nil_l in Hrest. }
        exists c1. split; [set_solver|done].
      * destruct (bo_childleaf _ _ _ _ _ Hok) as (c0 & Hc0 & E0). exists c0. split; [|done].
        rewrite Hrest. rewrite Hes in Hc0. apply elem_of_cons in Hc0 as [->|?]; [|done].
        exfalso. rewrite E0 in Ep. unfold ptr_eq in Ep. by rewrite N.eqb_refl in Ep.
    + intros [_ Hdf]%orb_false_iff. rewrite Et.
      assert (hash b2 = d) as -> by (unfold b2; repeat case_match; done).
      rewrite (Hd' Hdf). by apply canon_digest_perm.
    + split; [done|done|by rewrite Et|done|done].
Qed.

(** [modify_child] on an empty slot. *)
Lemma modify_child_vacant {R} hint b dirty key n
    (f : option head → option (option head * R)) x :
  branch_ok wf b dirty → (INCREMENTAL_BRANCH = true → dirty = false) →
  key ∉ hkey <$> kids b → f None = Some (n, x) →
  (∀ c, n = Some c → fits b key c ∧ hkey c = key ∧ ∀ d, hint = Some d → d = hhash c) →
  ∃ b' dirty', modify_child_gen rand_hash hint b key (negb dirty) f = Some (b', dirty', x) ∧
    edited b dirty key n (kids b) b' dirty'.
Proof.
  intros Hok Hincr Hfresh Hf Hn.
  pose proof (slot_cases b dirty key None (kids b) Hok) as Hslot. simpl in Hslot.
  unfold modify_child_gen. rewrite Hslot by done. cbn [mbind option_bind]. rewrite Hf.
  cbn [mbind option_bind]. pose proof (bo_table _ _ _ _ _ Hok) as Ht.
  destruct n as [c|].
  2:{ exists b, (negb (negb dirty)). split; [done|]. rewrite negb_involutive.
      split; [by destruct dirty|done|done|done|done]. }
  destruct (Hn c eq_refl) as (Hfit & Hc & Hhint). pose proof Hfit as [Hwf Hk].
  rewrite (wf_count_segment c _ Hwf (bo_depth _ _ _ _ _ Hok)). cbn [mbind option_bind].
  assert (default (hhash c) hint = hhash c) as -> by (destruct hint; simpl; auto).
  destruct (edit_hash_spec b dirty key None (Some c) (kids b) (c :: kids b) (bytes (childleaf b)))
    as (d & dirty' & E & Hi' & Hd'); [done|by apply Hok|done|done|by apply Ht| |by exists (kids b)|auto|].
  { rewrite fmap_cons, Hc. constructor; [done|by apply Ht]. }
  simpl fmap in E. rewrite E. cbn [mbind option_bind].
  set (b1 := set_counts _ _ _).
  destruct (install_loop_spec 8 b1 c) as (t & -> & Ht' & He & _);
    [done|rewrite Hc; by eapply fits_lt|by rewrite Hc|by apply table_fuel|].
  cbn [mbind option_bind]. eexists _, dirty'. split; [done|].
  destruct (edited_branch_ok b dirty key None (Some c) (kids b) (set_table b1 t) (dirty || dirty'))
    as [Hok' Ha']; [done|done|by intros ? [= <-]|done|done|done| | | | |].
  - simpl. rewrite (bo_leaf_count _ _ _ _ _ Hok). lia.
  - simpl. rewrite (bo_segment_count _ _ _ _ _ Hok). lia.
  - destruct (bo_childleaf _ _ _ _ _ Hok) as (c0 & Hc0 & E0). exists c0.
    change (kids (set_table b1 t)) with (entries t). split; [|done].
    rewrite He. by apply elem_of_cons; right.
  - intros [_ Hdf]%orb_false_iff. simpl. rewrite (Hd' Hdf). apply canon_digest_perm.
    + by rewrite He.
    + rewrite fmap_cons, Hc. constructor; [done|by apply Ht].
  - by split.
Qed.

(** The editor's invariant: an incremental policy is never dirty. *)
Record ed_inv (ed : branch_mut) : Prop := {
  ei_ok : branch_ok wf (ed_branch ed) (hash_dirty ed);
  ei_incr : INCREMENTAL_BRANCH = true → hash_dirty ed = false;
}.

(** One [modify_child] through the editor: [o] is the child the closure sees,
    [n] the one it returns. *)
Lemma ed_modify_spec {R} hint (ed : branch_mut) key o n es
    (f : option head → option (option head * R)) x :
  ed_inv ed → kids (ed_branch ed) ≡ₚ option_list o ++ es →
  (∀ c, o = Some c → hkey c = key) → key ∉ hkey <$> es → f o = Some (n, x) →
  (∀ c, n = Some c → fits (ed_branch ed) key c ∧
    (o = None → hkey c = key ∧ ∀ d, hint = Some d → d = hhash c)) →
  option_list n ++ es ≠ [] →
  ∃ ed', ed_modify rand_hash hint ed key f = Some (ed', x) ∧ ed_inv ed' ∧
    kids (ed_branch ed') ≡ₚ option_list ((λ c, with_key c key) <$> n) ++ es ∧
    end_depth (ed_branch ed') = end_depth (ed_branch ed) ∧
    agree (end_depth (ed_branch ed)) (bytes (childleaf (ed_branch ed')))
      (bytes (childleaf (ed_branch ed))).
Proof.
  intros [Hok Hincr] Hes Ho Hfresh Hf Hn Hne.
  assert (∃ b' dirty', modify_child_gen rand_hash hint (ed_branch ed) key (negb (hash_dirty ed)) f
      = Some (b', dirty', x) ∧
      edited (ed_branch ed) (hash_dirty ed) key ((λ c, with_key c key) <$> n) es b' dirty')
    as (b' & dirty' & E & [Hok' Hi Hk Hd Ha]).
  { destruct o as [c|].
    - apply (modify_child_occupied hint _ _ key c n es); auto. intros c' Hc'. by apply Hn.
    - destruct (modify_child_vacant hint (ed_branch ed) (hash_dirty ed) key n f x)
        as (b' & dirty' & E & Hed); [done|done|by rewrite Hes|done| |].
      { intros c Hc. destruct (Hn c Hc) as [Hf' Hh]. by destruct (Hh eq_refl). }
      exists b', dirty'. split; [done|]. destruct Hed as [H1 H2 H3 H4 H5].
      split; [done|done| |done|done].
      rewrite H3, Hes. destruct n as [c|]; simpl; [|done].
      destruct (Hn c eq_refl) as [_ [<- _]]; [done|]. by rewrite with_key_id. }
  unfold ed_modify. rewrite E. cbn [mbind option_bind]. eexists. split; [done|].
  split_and!; [split|..]; simpl; try done.
  intros Hinc. by rewrite Hincr, Hi.
Qed.

(** Dropping the editor commits a branch with a current hash. *)
Lemma ed_drop_spec ed e : ed_inv ed →
  ∃ b, ed_drop (KEY_LEN:=KEY_LEN) rand_hash e ed = Some (HBranch e b) ∧ branch_ok wf b false ∧
    kids b = kids (ed_branch ed) ∧ end_depth b = end_depth (ed_branch ed) ∧
    childleaf b = childleaf (ed_branch ed).
Proof.
  intros [Hok Hincr]. unfold ed_drop. destruct (bo_childleaf _ _ _ _ _ Hok) as (c & Hc & Hcl).
  destruct (negb INCREMENTAL_BRANCH && hash_dirty ed) eqn:E.
  - assert (key_ok KEY_LEN (bytes (childleaf (ed_branch ed)))) as Hk.
    { rewrite <-Hcl. apply childleaf_key_ok. by eapply bo_children. }
    rewrite (recompute_hash_spec _ (bytes (childleaf (ed_branch ed)))).
    + cbn [mbind option_bind]. eexists. split; [done|]. split_and!; try done.
      destruct Hok as [H1 H2 H3 H4 H5 H6 H7 _]. by split.
    + apply Hok.
    + intros E0. rewrite E0 in Hc. set_solver.
    + apply Nat.lt_le_incl, Hok.
    + done.
    + apply Hok.
    + intros c' Hc'. pose proof (bo_children _ _ _ _ _ Hok c' Hc') as Hwf.
      split; [by apply childleaf_key_ok|].
      eapply bo_keys; [done|done|]. by apply childleaf_key_in.
  - cbn [mbind option_bind]. eexists. split; [done|]. split_and!; try done.
    destruct (hash_dirty ed) eqn:Ed; [|done]. rewrite andb_true_r in E. apply negb_false_iff in E.
    by specialize (Hincr E).
Qed.

(** The child at one edge byte and the rest. *)
Lemma kids_split b dirty key : branch_ok wf b dirty →
  ∃ o es, kids b ≡ₚ option_list o ++ es ∧ (∀ c, o = Some c → hkey c = key) ∧ key ∉ hkey <$> es.
Proof.
  intros Hok. pose proof (ok_unique _ _ _ (bo_table _ _ _ _ _ Hok)) as Hnd.
  destruct (decide (key ∈ hkey <$> kids b)) as [Hin|Hin].
  - apply list_elem_of_fmap in Hin as (c & -> & Hc). apply elem_of_Permutation in Hc as [es Hes].
    exists (Some c), es. split_and!; [done|by intros ? [= <-]|].
    rewrite Hes in Hnd. by apply NoDup_cons in Hnd as [? _].
  - by exists None, (kids b).
Qed.

Lemma table_get_kids b dirty key o es : branch_ok wf b dirty → kids b ≡ₚ option_list o ++ es →
  (∀ c, o = Some c → hkey c = key) → key ∉ hkey <$> es →
  table_get hkey rand_hash (child_table b) key = Some o.
Proof.
  intros Hok Hes Ho Hfresh. pose proof (bo_table _ _ _ _ _ Hok) as Ht. destruct o as [c|].
  - apply table_get_Some; [done|]. split; [|by apply Ho]. rewrite Hes. set_solver.
  - apply table_get_None; [done|]. by rewrite Hes.
Qed.
End lemmas.
