(* ===== verification/Head.v ===== *)
(** * Head: point operations on the PATCH trie

    Source: [triblespace-core/src/patch.rs], the [impl] blocks of [Head], and
    the lookups of [patch/branch.rs]: insertion (heap and archive leaves),
    replacement, removal, lookup and prefix tests.

    The recursion of every operation goes down one edge of the trie, where the
    end depth grows; [fuel] bounds the number of edges and [S KEY_LEN] is always
    enough ([*_spec]).  The closure given to [modify_child] is the recursive
    call, as in the source. *)

From S2P Require Import Prelude ByteTable KeySchema PatchHash Branch.

Open Scope nat_scope.

Section ops.
Context {KEY_LEN : nat} {O : KeySchema KEY_LEN} {H : PatchHash} {V : Type}.
Context (rand_hash : N → N) (UNIT : V).
Abbreviation head := (head Digest V).
Abbreviation branch := (branch Digest head).
Abbreviation hend := (hend (KEY_LEN:=KEY_LEN)).
Abbreviation ed_drop := (ed_drop (KEY_LEN:=KEY_LEN)).
Implicit Types (h : head) (b : branch).

(** ** Lookups *)

(** [Branch::has_prefix] and [Head::has_prefix]. *)
Fixpoint has_prefix (fuel : nat) h (at_depth : nat) (prefix : list N) : res bool :=
  match h with
  | HLeaf _ l => Some (key_has_prefix (bytes (leaf_ptr l)) at_depth prefix)
  | HLocalLeaf _ p => Some (key_has_prefix (bytes p) at_depth prefix)
  | HBranch _ b =>
      match fuel with
      | 0 => None
      | S fuel =>
          let limit := length prefix `min` end_depth b in
          if negb (key_has_prefix (bytes (childleaf b)) at_depth (take limit prefix))
          then Some false
          else if length prefix <=? end_depth b then Some true
          else
            e ← prefix !! end_depth b;
            o ← table_get hkey rand_hash (child_table b) e;
            match o with
            | Some child => has_prefix fuel child (end_depth b) prefix
            | None => Some false
            end
      end
  end.

(** [Head::get].  A branch with [end_depth >= KEY_LEN] does not exist; the
    source would read the value through the representative pointer there. *)
Fixpoint get (fuel : nat) h (at_depth : nat) (key : list N) : res (option V) :=
  match h with
  | HLeaf _ l =>
      Some (if key_matches (bytes (leaf_ptr l)) at_depth key then Some (leaf_value l) else None)
  | HLocalLeaf _ p => Some (if key_matches (bytes p) at_depth key then Some UNIT else None)
  | HBranch _ b =>
      match fuel with
      | 0 => None
      | S fuel =>
          let limit := KEY_LEN `min` end_depth b in
          if negb (key_has_prefix (bytes (childleaf b)) at_depth (take limit key)) then Some None
          else if KEY_LEN <=? end_depth b then None
          else
            e ← key !! end_depth b;
            o ← table_get hkey rand_hash (child_table b) e;
            match o with
            | Some child => get fuel child (end_depth b) key
            | None => Some None
            end
      end
  end.

(** [Head::get_key]. *)
Fixpoint get_key (fuel : nat) h (at_depth : nat) (key : list N) : res (option (list N)) :=
  match h with
  | HLeaf _ l =>
      Some (if key_matches (bytes (leaf_ptr l)) at_depth key then Some (bytes (leaf_ptr l)) else None)
  | HLocalLeaf _ p => Some (if key_matches (bytes p) at_depth key then Some (bytes p) else None)
  | HBranch _ b =>
      match fuel with
      | 0 => None
      | S fuel =>
          if negb (key_has_prefix (bytes (childleaf b)) at_depth
                     (take (end_depth b `min` KEY_LEN) key)) then Some None
          else if KEY_LEN <=? end_depth b then Some (Some (bytes (childleaf b)))
          else
            e ← key !! end_depth b;
            o ← table_get hkey rand_hash (child_table b) e;
            match o with
            | Some child => get_key fuel child (end_depth b) key
            | None => Some None
            end
      end
  end.

(** ** Insertion *)

Fixpoint insert_leaf (fuel : nat) (this leaf : head) (start_depth : nat) : res head :=
  match fuel with
  | 0 => None
  | S fuel =>
      match first_divergence this leaf start_depth with
      | Some (depth, this_byte_key, leaf_byte_key) =>
          b ← branch_new depth (with_key this this_byte_key) (with_key leaf leaf_byte_key);
          Some (HBranch (hkey this) b)
      | None =>
          let end_depth := hend this in
          if negb (end_depth =? KEY_LEN) then
            ed ← from_head this;
            inserted ← with_start leaf (Branch.end_depth (ed_branch ed));
            ed ← modify_child rand_hash ed (hkey inserted) (λ opt,
              match opt with
              | Some old => r ← insert_leaf fuel old inserted end_depth; Some (Some r)
              | None => Some (Some inserted)
              end);
            ed_drop rand_hash (hkey this) ed
          else Some this
      end
  end.

(** [insert_archive_leaf] carries the leaf's hash down. *)
Fixpoint insert_archive_leaf (fuel : nat) (this leaf : head) (leaf_hash : Digest)
    (start_depth : nat) : res head :=
  match fuel with
  | 0 => None
  | S fuel =>
      match first_divergence this leaf start_depth with
      | Some (depth, this_byte_key, leaf_byte_key) =>
          b ← new_with_rchild_hash depth (with_key this this_byte_key)
                (with_key leaf leaf_byte_key) leaf_hash;
          Some (HBranch (hkey this) b)
      | None =>
          let end_depth := hend this in
          if negb (end_depth =? KEY_LEN) then
            ed ← from_head this;
            inserted ← with_start leaf (Branch.end_depth (ed_branch ed));
            ed ← modify_child_with_inserted_hint rand_hash ed (hkey inserted) leaf_hash (λ opt,
              match opt with
              | Some old => r ← insert_archive_leaf fuel old inserted leaf_hash end_depth; Some (Some r)
              | None => Some (Some inserted)
              end);
            ed_drop rand_hash (hkey this) ed
          else Some this
      end
  end.

(** [replace_leaf] also returns the retired leaf. *)
Fixpoint replace_leaf (fuel : nat) (this leaf : head) (start_depth : nat)
    : res (head * option head) :=
  match fuel with
  | 0 => None
  | S fuel =>
      match first_divergence this leaf start_depth with
      | Some (depth, this_byte_key, leaf_byte_key) =>
          b ← branch_new depth (with_key this this_byte_key) (with_key leaf leaf_byte_key);
          Some (HBranch (hkey this) b, None)
      | None =>
          let end_depth := hend this in
          if end_depth =? KEY_LEN then Some (with_key leaf (hkey this), Some this)
          else
            ed ← from_head this;
            inserted ← with_start leaf (Branch.end_depth (ed_branch ed));
            '(ed, retired) ← ed_modify rand_hash None ed (hkey inserted) (λ opt,
              match opt with
              | Some old =>
                  '(replacement, old_leaf) ← replace_leaf fuel old inserted end_depth;
                  Some (Some replacement, old_leaf)
              | None => Some (Some inserted, None)
              end);
            h ← ed_drop rand_hash (hkey this) ed;
            Some (h, retired)
      end
  end.

(** ** Removal *)

(** Takes the first occupied slot. *)
Fixpoint take_first (t : list (option head)) : option head * list (option head) :=
  match t with
  | [] => (None, [])
  | Some c :: t => (Some c, None :: t)
  | None :: t => let '(o, t) := take_first t in (o, None :: t)
  end.

(** [remove_leaf] returns the new slot and the retired heap leaf. *)
Fixpoint remove_leaf (fuel : nat) (slot : option head) (leaf_key : list N) (start_depth : nat)
    : res (option head * option head) :=
  match slot with
  | None => Some (None, None)
  | Some this =>
      let end_depth := hend this `min` KEY_LEN in
      found ← has_prefix (S KEY_LEN) this start_depth leaf_key;
      if negb found then Some (Some this, None) else
      match this with
      | HLeaf _ _ => Some (None, Some this)
      | HLocalLeaf _ _ => Some (None, None)
      | HBranch _ _ =>
          match fuel with
          | 0 => None
          | S fuel =>
              ed ← from_head this;
              key ← leaf_key !! end_depth;
              '(ed, retired_leaf) ← ed_modify rand_hash None ed key (λ opt,
                remove_leaf fuel opt leaf_key end_depth);
              let t := child_table (ed_branch ed) in
              let occupied_children := length (take 2 (entries t)) in
              if occupied_children =? 0 then
                _ ← ed_drop rand_hash (hkey this) ed;
                Some (None, retired_leaf)
              else if occupied_children =? 1 then
                let '(first, t) := take_first t in
                child ← first;
                remaining ← with_start child start_depth;
                _ ← ed_drop rand_hash (hkey this)
                      (mkEd (set_table (ed_branch ed) t) (hash_dirty ed));
                Some (Some remaining, retired_leaf)
              else
                h ← ed_drop rand_hash (hkey this) ed;
                Some (Some h, retired_leaf)
          end
      end
  end.
End ops.

(** ** Lookups: correctness *)

Section lookups.
Context {KEY_LEN : nat} {O : KeySchema KEY_LEN} `{!KeySchemaOk KEY_LEN O}.
Context {H : PatchHash} `{!PatchHashOk H} {V : Type}.
Context (rand_hash : N → N) (UNIT : V).
Abbreviation head := (head Digest V).
Abbreviation branch := (branch Digest head).
Abbreviation kvs := (kvs UNIT).
Abbreviation keys := (keys UNIT).
Abbreviation wf := (wf rand_hash UNIT).
Abbreviation branch_ok := (branch_ok rand_hash UNIT).
Abbreviation kids b := (entries (child_table b)).
Abbreviation hend := (hend (KEY_LEN:=KEY_LEN)).
Implicit Types (h c : head) (b : branch) (k : list N).

(** The tree-ordered key [k] carries the bytes of [q] from depth [a] on. *)
Definition pref (a : nat) k (q : list N) : Prop :=
  ∀ d, a ≤ d → d < length q → d < KEY_LEN → tb k d = nth d q 0%N.

Lemma key_has_prefix_pref k a q : key_has_prefix k a q = true ↔ pref a k q.
Proof. apply key_has_prefix_spec. Qed.

Lemma nth_take {A} d n (q : list A) x : d < n → nth d (take n q) x = nth d q x.
Proof. intros Hd. rewrite !nth_lookup. by rewrite lookup_take_lt. Qed.

Lemma pref_take k a n q :
  pref a k (take n q) ↔ ∀ d, a ≤ d → d < n → d < length q → d < KEY_LEN → tb k d = nth d q 0%N.
Proof.
  unfold pref. rewrite length_take. split; intros Hp d; intros.
  - rewrite <-(nth_take d n) by done. apply Hp; lia.
  - rewrite nth_take by lia. apply Hp; lia.
Qed.

(** One edge of a descent that looks for the keys with a given prefix. *)
Lemma descend_spec e b a q : branch_ok wf b false → a ≤ end_depth b → length q ≤ KEY_LEN →
  let ok := key_has_prefix (bytes (childleaf b)) a (take (length q `min` end_depth b) q) in
  (ok = false → ∀ k, k ∈ keys (HBranch e b) → ¬ pref a k q) ∧
  (ok = true → length q ≤ end_depth b → ∀ k, k ∈ keys (HBranch e b) → pref a k q) ∧
  (ok = true → end_depth b < length q →
    ∃ x o, q !! end_depth b = Some x ∧ table_get hkey rand_hash (child_table b) x = Some o ∧
      (∀ c, o = Some c → c ∈ kids b) ∧
      ∀ k v, (k, v) ∈ kvs (HBranch e b) ∧ pref a k q ↔
        ∃ c, o = Some c ∧ (k, v) ∈ kvs c ∧ pref (end_depth b) k q).
Proof.
  intros Hok Ha Hq ok. pose proof (bo_depth _ _ _ _ _ Hok) as Hd.
  assert (ok = true ↔ ∀ d, a ≤ d → d < end_depth b → d < length q →
    tb (bytes (childleaf b)) d = nth d q 0%N) as Hiff.
  { unfold ok. rewrite key_has_prefix_pref, pref_take. split; intros Hp d; intros; apply Hp; lia. }
  assert (∀ k, k ∈ keys (HBranch e b) → agree (end_depth b) k (bytes (childleaf b))) as Hag.
  { intros k (c & Hc & Hk)%elem_of_keys_branch. by eapply bo_keys. }
  split_and!.
  - intros Hf k Hk Hp. assert (ok = true); [|congruence]. apply Hiff. intros d Had Hde Hdq.
    rewrite <-(Hag k Hk d Hde). apply Hp; lia.
  - intros Ht Hle k Hk d Had Hdq HdK. rewrite (Hag k Hk d) by lia. apply Hiff; [done|lia..].
  - intros Ht Hlt. destruct (lookup_lt_is_Some_2 q (end_depth b) Hlt) as [x Hx].
    destruct (kids_split rand_hash UNIT b false x Hok) as (o & es & Hes & Ho & Hfresh).
    exists x, o. split_and!; [done|by eapply table_get_kids| |].
    + intros c ->. rewrite Hes. set_solver.
    + intros k v. assert (nth (end_depth b) q 0%N = x) as Hnx by by rewrite nth_lookup, Hx.
      rewrite (kvs_child rand_hash UNIT wf b false) by done. split.
      * intros [(c & Hc & Hbyte & Hkv) Hp].
        assert (hkey c = x) as Hcx by (rewrite Hbyte, <-Hnx; apply Hp; lia).
        rewrite Hes in Hc. apply elem_of_app in Hc as [Hc|Hc].
        -- destruct o as [c'|]; simpl in Hc; [|set_solver]. apply list_elem_of_singleton in Hc as ->.
           exists c'. split_and!; [done..|]. intros d; intros. apply Hp; lia.
        -- destruct Hfresh. rewrite <-Hcx. by apply list_elem_of_fmap_2.
      * intros (c & -> & Hkv & Hp).
        assert (c ∈ kids b) as Hc by (rewrite Hes; set_solver).
        assert (k ∈ keys c) as Hkc by (apply elem_of_keys; eauto).
        destruct (bo_keys _ _ _ _ _ Hok c k Hc Hkc) as [Hka Hkb].
        split; [exists c; eauto|]. intros d Had Hdq HdK.
        destruct (decide (d < end_depth b)); [|apply Hp; lia].
        rewrite (Hka d) by done. apply Hiff; [done|lia..].
Qed.

Lemma has_prefix_spec fuel h a q : wf h → KEY_LEN - hend h < fuel → a ≤ hend h →
  length q ≤ KEY_LEN →
  ∃ r, has_prefix (KEY_LEN:=KEY_LEN) rand_hash fuel h a q = Some r ∧
    (r = true ↔ ∃ k, k ∈ keys h ∧ pref a k q).
Proof.
  revert h a. induction fuel as [|fuel IH]; intros h a Hwf Hfuel Ha Hq; [lia|].
  destruct Hwf as [e l Hl _|e p Hp|e b Hok Hlen]; simpl.
  1,2: eexists; split; [done|]; rewrite key_has_prefix_pref; split;
    [intros; eexists; split; [by apply list_elem_of_singleton|done]
    |by intros (k & ->%list_elem_of_singleton & ?)].
  simpl in *. destruct (descend_spec e b a q Hok Ha Hq) as (Hf & Ht & Hc).
  destruct (key_has_prefix _ a _) eqn:E; simpl.
  2:{ exists false. split; [done|]. split; [done|]. intros (k & Hk & Hp). by destruct (Hf eq_refl k Hk). }
  destruct (Nat.leb_spec (length q) (end_depth b)) as [Hle|Hlt].
  { exists true. split; [done|]. split; [|done]. intros _.
    assert (wf (HBranch e b)) as Hwf by by constructor.
    exists (childleaf_key (HBranch e b)).
    assert (childleaf_key (HBranch e b) ∈ keys (HBranch e b)) by (by eapply childleaf_key_in). auto. }
  destruct (Hc eq_refl Hlt) as (x & o & -> & Hget & Hin & Hkv). cbn [mbind option_bind].
  rewrite Hget. cbn [mbind option_bind].
  assert ((∃ k, k ∈ keys (HBranch e b) ∧ pref a k q) ↔
    ∃ c, o = Some c ∧ ∃ k, k ∈ keys c ∧ pref (end_depth b) k q) as Hex.
  { setoid_rewrite elem_of_keys. split.
    - intros (k & [v Hv] & Hp). destruct (proj1 (Hkv k v)) as (c & -> & ? & ?); eauto 10.
    - intros (c & -> & k & [v Hv] & Hp). destruct (proj2 (Hkv k v)); eauto 10. }
  setoid_rewrite Hex. destruct o as [c|].
  - pose proof (child_hend rand_hash UNIT b false c Hok (Hin c eq_refl)) as Hend.
    destruct (IH c (end_depth b) (bo_children _ _ _ _ _ Hok c (Hin c eq_refl))) as (r & -> & Hr);
      [lia|lia|done|]. exists r. split; [done|]. rewrite Hr. naive_solver.
  - exists false. split; [done|]. naive_solver.
Qed.

Lemma get_spec fuel h a q : wf h → KEY_LEN - hend h < fuel → a ≤ hend h → length q = KEY_LEN →
  ∃ r, get (KEY_LEN:=KEY_LEN) rand_hash UNIT fuel h a q = Some r ∧
    ∀ v, r = Some v ↔ ∃ k, (k, v) ∈ kvs h ∧ pref a k q.
Proof.
  revert h a. induction fuel as [|fuel IH]; intros h a Hwf Hfuel Ha Hq; [lia|].
  destruct Hwf as [e l Hl _|e p Hp|e b Hok Hlen]; simpl.
  1,2: eexists; split; [done|]; intros v; pose proof (key_has_prefix_pref) as E;
    unfold key_matches; fold (key_has_prefix (KEY_LEN:=KEY_LEN)).
  1: specialize (E (bytes (leaf_ptr l)) a q). 2: specialize (E (bytes p) a q).
  1,2: unfold key_has_prefix in E; destruct (forallb _ _); split;
    [intros [= <-]; eexists; split; [by apply list_elem_of_singleton|by apply E]
    |intros (k & [= -> ->]%list_elem_of_singleton & Hk); done
    |done|intros (k & [= -> ->]%list_elem_of_singleton & Hk%E); done].
  simpl in *. destruct (descend_spec e b a q Hok Ha) as (Hf & _ & Hc); [lia|].
  pose proof (bo_depth _ _ _ _ _ Hok) as Hd. rewrite Hq in Hf, Hc.
  destruct (key_has_prefix _ a _) eqn:E; simpl.
  2:{ exists None. split; [done|]. intros v. split; [done|]. intros (k & Hk & Hp).
      destruct (Hf eq_refl k); [apply elem_of_keys; eauto|done]. }
  rewrite (proj2 (Nat.leb_gt _ _)) by done.
  destruct (Hc eq_refl Hd) as (x & o & -> & Hget & Hin & Hkv). cbn [mbind option_bind].
  rewrite Hget. cbn [mbind option_bind].
  assert (∀ v, (∃ k, (k, v) ∈ kvs (HBranch e b) ∧ pref a k q) ↔
    ∃ c, o = Some c ∧ ∃ k, (k, v) ∈ kvs c ∧ pref (end_depth b) k q) as Hex.
  { intros v. setoid_rewrite Hkv. naive_solver. }
  destruct o as [c|].
  - pose proof (child_hend rand_hash UNIT b false c Hok (Hin c eq_refl)) as Hend.
    destruct (IH c (end_depth b) (bo_children _ _ _ _ _ Hok c (Hin c eq_refl))) as (r & -> & Hr);
      [lia|lia|done|]. exists r. split; [done|]. intros v. rewrite Hr, Hex. naive_solver.
  - exists None. split; [done|]. intros v. rewrite Hex. naive_solver.
Qed.

Lemma get_key_spec fuel h a q : wf h → KEY_LEN - hend h < fuel → a ≤ hend h → length q = KEY_LEN →
  ∃ r, get_key (KEY_LEN:=KEY_LEN) rand_hash fuel h a q = Some r ∧
    (∀ k, r = Some k → k ∈ keys h ∧ pref a k q) ∧ (r = None → ∀ k, k ∈ keys h → ¬ pref a k q).
Proof.
  revert h a. induction fuel as [|fuel IH]; intros h a Hwf Hfuel Ha Hq; [lia|].
  destruct Hwf as [e l Hl _|e p Hp|e b Hok Hlen]; simpl.
  1,2: eexists; split; [done|]; pose proof (key_has_prefix_pref) as E.
  1: specialize (E (bytes (leaf_ptr l)) a q). 2: specialize (E (bytes p) a q).
  1,2: unfold key_has_prefix in E; unfold key_matches; destruct (forallb _ _); split; try done;
    [intros k [= <-]; split; [by apply list_elem_of_singleton|by apply E]
    |intros _ k ->%list_elem_of_singleton Hk; by apply E in Hk].
  simpl in *. destruct (descend_spec e b a q Hok Ha) as (Hf & _ & Hc); [lia|].
  pose proof (bo_depth _ _ _ _ _ Hok) as Hd. rewrite Hq in Hf, Hc.
  rewrite (Nat.min_comm (end_depth b)).
  destruct (key_has_prefix _ a _) eqn:E; simpl; [|exists None; naive_solver].
  rewrite (proj2 (Nat.leb_gt _ _)) by done.
  destruct (Hc eq_refl Hd) as (x & o & -> & Hget & Hin & Hkv). cbn [mbind option_bind].
  rewrite Hget. cbn [mbind option_bind].
  assert (∀ k, k ∈ keys (HBranch e b) ∧ pref a k q ↔
    ∃ c, o = Some c ∧ k ∈ keys c ∧ pref (end_depth b) k q) as Hex.
  { intros k. rewrite elem_of_keys. split.
    - intros [[v Hv] Hp]. destruct (proj1 (Hkv k v)) as (c & Hc' & Hv' & Hp'); [done|].
      exists c. split_and!; [done| |done]. apply elem_of_keys. eauto.
    - intros (c & Hc' & [v Hv]%elem_of_keys & Hp). destruct (proj2 (Hkv k v)); eauto. }
  destruct o as [c|]; [|exists None; split_and!; [done|done|]; intros _ k Hk Hp].
  - pose proof (child_hend rand_hash UNIT b false c Hok (Hin c eq_refl)) as Hend.
    destruct (IH c (end_depth b) (bo_children _ _ _ _ _ Hok c (Hin c eq_refl))) as (r & -> & Hr & Hn);
      [lia|lia|done|]. exists r. split_and!; [done| |].
    + intros k Hk. apply Hex. destruct (Hr k Hk). eauto.
    + intros -> k Hk Hp. destruct (proj1 (Hex k)) as (c' & [= <-] & ? & ?); [done|]. by eapply Hn.
  - destruct (proj1 (Hex k)) as (? & ? & _); done.
Qed.
End lookups.

(** ** Insertion: correctness *)

Section updates.
Context {KEY_LEN : nat} {O : KeySchema KEY_LEN} `{!KeySchemaOk KEY_LEN O}.
Context {H : PatchHash} `{!PatchHashOk H} {V : Type}.
Context (rand_hash : N → N) (UNIT : V).
Abbreviation head := (head Digest V).
Abbreviation branch := (branch Digest head).
Abbreviation kvs := (kvs UNIT).
Abbreviation keys := (keys UNIT).
Abbreviation wf := (wf rand_hash UNIT).
Abbreviation branch_ok := (branch_ok rand_hash UNIT).
Abbreviation kids b := (entries (child_table b)).
Abbreviation hend := (hend (KEY_LEN:=KEY_LEN)).
Implicit Types (h c this other : head) (b : branch) (k : list N).

Lemma diverge_spec k k' a n :
  match diverge k k' a n with
  | Some (d, x, y) => a ≤ d < a + n ∧ x = tb k d ∧ y = tb k' d ∧ x ≠ y ∧
      ∀ i, a ≤ i < d → tb k i = tb k' i
  | None => ∀ i, a ≤ i < a + n → tb k i = tb k' i
  end.
Proof.
  revert a. induction n as [|n IH]; intros a; simpl; [intros; lia|].
  destruct (N.eqb_spec (tb k a) (tb k' a)) as [E|E].
  - specialize (IH (S a)). destruct (diverge k k' (S a) n) as [[[d x] y]|].
    + destruct IH as (? & -> & -> & ? & Hi). split_and!; [lia|lia|done..|]. intros i Hia.
      destruct (decide (i = a)) as [->|]; [done|]. apply Hi. lia.
    + intros i Hia. destruct (decide (i = a)) as [->|]; [done|]. apply IH. lia.
  - split_and!; [lia|lia|done..|]. intros; lia.
Qed.

(** With a shared prefix up to the starting depth, divergence is a statement
    about prefixes. *)
Lemma first_divergence_spec {V' : Type} (UNIT' : V') this (other : Branch.head Digest V') a :
  wf this → Branch.wf rand_hash UNIT' other →
  agree a (childleaf_key this) (childleaf_key other) →
  match first_divergence (KEY_LEN:=KEY_LEN) this other a with
  | Some (d, x, y) => d < hend this ∧ d < hend other ∧ d < KEY_LEN ∧
      x = tb (childleaf_key this) d ∧ y = tb (childleaf_key other) d ∧ x ≠ y ∧
      agree d (childleaf_key this) (childleaf_key other)
  | None => agree (hend this `min` hend other) (childleaf_key this) (childleaf_key other)
  end.
Proof.
  intros Hwf Hwf' Ha. unfold first_divergence.
  pose proof (hend_le _ _ this Hwf). pose proof (hend_le _ _ other Hwf').
  set (limit := (hend this `min` hend other) `min` KEY_LEN).
  pose proof (diverge_spec (childleaf_key this) (childleaf_key other) a (limit - a)) as Hd.
  destruct (diverge _ _ a (limit - a)) as [[[d x] y]|].
  - destruct Hd as (? & -> & -> & ? & Hi). split_and!; [lia..|done|done|done|].
    intros i Hid. destruct (decide (i < a)); [by apply Ha|]. apply Hi. lia.
  - intros i Hid. destruct (decide (i < a)); [by apply Ha|]. apply Hd. lia.
Qed.

(** Two heads that diverge become the children of a new branch. *)
Lemma split_spec this other d e :
  wf this → wf other → d < hend this → d < hend other →
  agree d (childleaf_key this) (childleaf_key other) →
  tb (childleaf_key this) d ≠ tb (childleaf_key other) d →
  ∃ b, new_with_child_hashes d (with_key this (tb (childleaf_key this) d))
      (with_key other (tb (childleaf_key other) d)) (hhash this) (hhash other) = Some b ∧
    wf (HBranch e b) ∧ kvs (HBranch e b) = kvs this ++ kvs other ∧
    (∀ k, k ∈ keys this → k ∉ keys other) ∧ end_depth b = d.
Proof.
  intros Hwf Hwf' Hd Hd' Ha Hne. pose proof (hend_le _ _ this Hwf).
  destruct (new_with_child_hashes_spec rand_hash UNIT d
    (with_key this (tb (childleaf_key this) d)) (with_key other (tb (childleaf_key other) d)))
    as (b & Hb & Hok & Hkids & Hed & _ & _).
  - by apply wf_with_key.
  - by apply wf_with_key.
  - lia.
  - by rewrite !with_key_hkey.
  - intros k. rewrite keys_with_key, with_key_hkey. unfold childleaf_key.
    rewrite childleaf_ptr_with_key. intros Hk. pose proof (keys_agree _ _ this k Hwf Hk) as Hag.
    split; [by eapply agree_le; [|done]; lia|by apply Hag].
  - intros k. rewrite keys_with_key, with_key_hkey. unfold childleaf_key.
    rewrite childleaf_ptr_with_key. intros Hk. pose proof (keys_agree _ _ other k Hwf' Hk) as Hag.
    split; [|by apply Hag]. eapply agree_trans; [eapply agree_le; [|done]; lia|].
    by apply agree_sym.
  - rewrite !hhash_with_key in Hb. exists b. split_and!; [done| | | |done].
    + constructor; [done|]. by rewrite Hkids.
    + rewrite kvs_branch, Hkids. csimpl. by rewrite !kvs_with_key, app_nil_r.
    + intros k Hk Hk'. apply Hne. rewrite <-(keys_agree _ _ this k Hwf Hk d Hd).
      by apply (keys_agree _ _ other k Hwf' Hk').
Qed.

(** What an editor commits: children with the contents of the branch. *)
Lemma commit_spec ed e n es key : ed_inv rand_hash UNIT ed →
  kids (ed_branch ed) ≡ₚ option_list ((λ c, with_key c key) <$> n) ++ es →
  2 ≤ length (option_list n ++ es) →
  ∃ b, ed_drop (KEY_LEN:=KEY_LEN) rand_hash e ed = Some (HBranch e b) ∧ wf (HBranch e b) ∧
    kvs (HBranch e b) ≡ₚ from_option kvs [] n ++ (es ≫= kvs) ∧
    end_depth b = end_depth (ed_branch ed).
Proof.
  intros Hinv Hk Hlen. destruct (ed_drop_spec rand_hash UNIT ed e Hinv) as (b & Hb & Hok & Hkb & Hd & _).
  exists b. split_and!; [done| | |done].
  - constructor; [done|]. rewrite Hkb, Hk, length_app. rewrite length_app in Hlen. by destruct n.
  - rewrite kvs_branch, Hkb, Hk, bind_app. apply Permutation_app_tail. destruct n; csimpl; [|done].
    by rewrite kvs_with_key, app_nil_r.
Qed.

Lemma kvs_split b e o es : kids b ≡ₚ option_list o ++ es →
  kvs (HBranch e b) ≡ₚ from_option kvs [] o ++ (es ≫= kvs).
Proof.
  intros Hes. rewrite kvs_branch, Hes, bind_app. destruct o; csimpl; [by rewrite app_nil_r|done].
Qed.

Lemma keys_perm h h' : kvs h ≡ₚ kvs h' → keys h ≡ₚ keys h'.
Proof. intros Hp. unfold Branch.keys. by rewrite Hp. Qed.

Definition is_leaf h : Prop := match h with HBranch _ _ => False | _ => True end.

Lemma wf_full_leaf h : wf h → hend h = KEY_LEN ↔ is_leaf h.
Proof.
  destruct 1 as [| |e b Hok _]; simpl; [done..|]. pose proof (bo_depth _ _ _ _ _ Hok). lia.
Qed.

(** The contents after inserting a leaf: nothing changes when its key is there. *)
Definition inserted_kvs this leaf (l : list (list N * V)) : Prop :=
  (childleaf_key leaf ∈ keys this ∧ l ≡ₚ kvs this) ∨
  (childleaf_key leaf ∉ keys this ∧ l ≡ₚ kvs leaf ++ kvs this).

Lemma leaf_keys leaf : is_leaf leaf → keys leaf = [childleaf_key leaf].
Proof. by destruct leaf. Qed.

(** The leaf may go below the branch it does not diverge from. *)
Lemma inserted_fits b e leaf : branch_ok wf b false → wf leaf → is_leaf leaf →
  agree (end_depth b) (bytes (childleaf b)) (childleaf_key leaf) →
  fits rand_hash UNIT b (tb (childleaf_key leaf) (end_depth b)) (with_key leaf e).
Proof.
  intros Hok Hwf Hl Ha. split; [by apply wf_with_key|]. intros k.
  rewrite keys_with_key, leaf_keys by done. intros ->%list_elem_of_singleton.
  split; [by apply agree_sym|done].
Qed.

Lemma with_start_spec h d : wf h → d < KEY_LEN →
  with_start h d = Some (with_key h (tb (childleaf_key h) d)).
Proof.
  intros Hwf Hd. unfold with_start.
  by rewrite (tree_byte_tb (O:=O) _ d (childleaf_key_ok _ _ h Hwf) Hd).
Qed.

(** The child at one edge byte holds exactly the keys with that byte. *)
Lemma kvs_in_child e b dirty key o es k v : branch_ok wf b dirty →
  kids b ≡ₚ option_list o ++ es → (∀ c, o = Some c → hkey c = key) → key ∉ hkey <$> es →
  tb k (end_depth b) = key → (k, v) ∈ kvs (HBranch e b) ↔ (k, v) ∈ from_option kvs [] o.
Proof.
  intros Hok Hes Ho Hfresh Hk. rewrite (kvs_child rand_hash UNIT wf b dirty e k v Hok), Hk. split.
  - intros (c & Hc & Hck & Hkv). rewrite Hes in Hc. apply elem_of_app in Hc as [Hc|Hc].
    + destruct o as [c'|]; simpl in Hc; [|set_solver]. by apply list_elem_of_singleton in Hc as ->.
    + destruct Hfresh. rewrite <-Hck. by apply list_elem_of_fmap_2.
  - destruct o as [c|]; simpl; [|set_solver]. intros Hkv. exists c. split_and!; [|auto|done].
    rewrite Hes. set_solver.
Qed.

Lemma keys_in_child e b dirty key o es k : branch_ok wf b dirty →
  kids b ≡ₚ option_list o ++ es → (∀ c, o = Some c → hkey c = key) → key ∉ hkey <$> es →
  tb k (end_depth b) = key → k ∈ keys (HBranch e b) ↔ k ∈ from_option keys [] o.
Proof.
  intros Hok Hes Ho Hfresh Hk. rewrite elem_of_keys.
  setoid_rewrite (kvs_in_child e b dirty key o es k _ Hok Hes Ho Hfresh Hk).
  destruct o as [c|]; simpl; [by rewrite elem_of_keys|]. set_solver.
Qed.

(** One step of every descending update: the closure turns the child [o] at
    [key] into [n], whose keys are old ones or belong below [key]. *)
Lemma descend_edit {R} hint b key o es (f : option head → option (option head * R)) n x e :
  branch_ok wf b false → 2 ≤ length (kids b) →
  kids b ≡ₚ option_list o ++ es → (∀ c, o = Some c → hkey c = key) → key ∉ hkey <$> es →
  f o = Some (Some n, x) → wf n →
  (∀ k, k ∈ keys n → k ∈ from_option keys [] o ∨
    agree (end_depth b) k (bytes (childleaf b)) ∧ tb k (end_depth b) = key) →
  (o = None → hkey n = key ∧ ∀ d, hint = Some d → d = hhash n) →
  ∃ ed b', ed_modify rand_hash hint (mkEd b false) key f = Some (ed, x) ∧
    ed_drop (KEY_LEN:=KEY_LEN) rand_hash e ed = Some (HBranch e b') ∧ wf (HBranch e b') ∧
    kvs (HBranch e b') ≡ₚ kvs n ++ (es ≫= kvs) ∧ end_depth b' = end_depth b.
Proof.
  intros Hok Hlen Hes Ho Hfresh Hf Hwfn Hkn Hvac.
  destruct (ed_modify_spec rand_hash UNIT hint (mkEd b false) key o (Some n) es f x)
    as (ed & Hed & Hinv & Hkids & Hdep & _); try done.
  - intros c [= <-]. split; [|done]. split; [done|]. intros k Hk.
    destruct (Hkn k Hk) as [Hko|?]; [|done]. destruct o as [c|]; simpl in Hko; [|set_solver].
    rewrite <-(Ho c eq_refl). eapply bo_keys; [done| |done]. simpl. rewrite Hes. set_solver.
  - destruct (commit_spec ed e (Some n) es key Hinv Hkids) as (b' & Hb' & Hwf' & Hkv' & Hd').
    { simpl. apply le_n_S. rewrite Hes, length_app in Hlen. destruct o; simpl in Hlen; lia. }
    exists ed, b'. split_and!; [done..|]. by rewrite Hd', Hdep.
Qed.

(** Re-keying the leaf for the child it goes into. *)
Lemma rekeyed_leaf leaf e : wf leaf → is_leaf leaf →
  wf (with_key leaf e) ∧ is_leaf (with_key leaf e) ∧
  childleaf_key (with_key leaf e) = childleaf_key leaf ∧ kvs (with_key leaf e) = kvs leaf.
Proof.
  intros Hwf Hl. split_and!; [by apply wf_with_key|by destruct leaf|by destruct leaf|apply kvs_with_key].
Qed.

Lemma full_match this leaf : wf this → wf leaf → is_leaf leaf → hend this = KEY_LEN →
  agree (hend this) (childleaf_key this) (childleaf_key leaf) →
  is_leaf this ∧ childleaf_key this = childleaf_key leaf.
Proof.
  intros Hwf Hwfl Hl E Ha. split; [by apply wf_full_leaf|].
  apply (tb_inj (O:=O)); [by eapply childleaf_key_ok..|]. intros d Hd. apply Ha. lia.
Qed.

Lemma inserted_keys this leaf (n : head) k : is_leaf leaf → inserted_kvs this leaf (kvs n) →
  k ∈ keys n → k ∈ keys this ∨ k = childleaf_key leaf.
Proof.
  intros Hl Hn [v Hv]%elem_of_keys. destruct Hn as [[_ Hp]|[_ Hp]]; rewrite Hp in Hv.
  - left. apply elem_of_keys. eauto.
  - apply elem_of_app in Hv as [Hv|Hv].
    + right. assert (k ∈ keys leaf) as Hk by (apply elem_of_keys; eauto).
      rewrite leaf_keys in Hk by done. by apply list_elem_of_singleton in Hk.
    + left. apply elem_of_keys. eauto.
Qed.

Lemma insert_leaf_spec fuel this leaf a :
  wf this → wf leaf → is_leaf leaf → KEY_LEN - hend this < fuel →
  agree a (childleaf_key this) (childleaf_key leaf) →
  ∃ r, insert_leaf (KEY_LEN:=KEY_LEN) rand_hash fuel this leaf a = Some r ∧ wf r ∧
    hkey r = hkey this ∧ inserted_kvs this leaf (kvs r).
Proof.
  revert this leaf a. induction fuel as [|fuel IH]; intros this leaf a Hwf Hwfl Hl Hfuel Ha; [lia|].
  cbn [insert_leaf]. pose proof (first_divergence_spec UNIT this leaf a Hwf Hwfl Ha) as Hfd.
  rewrite (proj2 (wf_full_leaf leaf Hwfl) Hl) in Hfd.
  destruct (first_divergence this leaf a) as [[[d x] y]|].
  { destruct Hfd as (H1 & H2 & H3 & -> & -> & Hne & Hag).
    pose proof (proj2 (wf_full_leaf leaf Hwfl) Hl) as Hel.
    destruct (split_spec this leaf d (hkey this)) as (b & Hb & Hwfb & Hkv & Hdis & _); try done; [lia|].
    unfold branch_new, new_with_rchild_hash. rewrite !hhash_with_key, Hb. cbn [mbind option_bind].
    eexists. split_and!; [done..|]. right. split; [|rewrite Hkv; apply Permutation_app_comm].
    intros Hin. apply (Hdis _ Hin). rewrite leaf_keys by done. by apply list_elem_of_singleton. }
  pose proof (hend_le _ _ this Hwf). rewrite Nat.min_l in Hfd by done.
  destruct (Nat.eqb_spec (hend this) KEY_LEN) as [E|E]; cbn [negb].
  { exists this. split_and!; [done..|]. left. split; [|done].
    destruct (full_match this leaf) as [_ <-]; try done. by eapply childleaf_key_in. }
  destruct Hwf as [| |e b Hok Hlen]; [done..|]. simpl in *. cbn [mbind option_bind].
  pose proof (bo_depth _ _ _ _ _ Hok) as Hd. rewrite with_start_spec by done.
  cbn [mbind option_bind]. rewrite with_key_hkey. set (key := tb (childleaf_key leaf) (end_depth b)).
  destruct (rekeyed_leaf leaf key Hwfl Hl) as (Hwfi & Hli & Hki & Hkvi).
  set (inserted := with_key leaf key) in *.
  destruct (kids_split rand_hash UNIT b false key Hok) as (o & es & Hes & Ho & Hfresh).
  pose proof (keys_in_child e b false key o es (childleaf_key leaf) Hok Hes Ho Hfresh eq_refl) as Hkc.
  assert (∃ n, (match o with
      | Some old => r ← insert_leaf (KEY_LEN:=KEY_LEN) rand_hash fuel old inserted (end_depth b);
          Some (Some r)
      | None => Some (Some inserted) end) = Some (Some n) ∧ wf n ∧
      (o = None → hkey n = key) ∧ (∀ k, k ∈ keys n → k ∈ from_option keys [] o ∨ k = childleaf_key leaf) ∧
      (childleaf_key leaf ∈ from_option keys [] o ∧ kvs n ≡ₚ from_option kvs [] o ∨
       childleaf_key leaf ∉ from_option keys [] o ∧ kvs n ≡ₚ kvs leaf ++ from_option kvs [] o))
    as (n & Hn & Hwfn & Hkeyn & Hkn & Hkvn).
  { destruct o as [old|].
    - assert (old ∈ kids b) as Hold by (rewrite Hes; set_solver).
      pose proof (child_hend rand_hash UNIT b false old Hok Hold) as Hend.
      pose proof (bo_children _ _ _ _ _ Hok old Hold) as Hwfo.
      destruct (IH old inserted (end_depth b)) as (r & -> & Hwfr & Hkr & Hkv); try done; [lia| |].
      { rewrite Hki. eapply agree_trans; [|exact Hfd].
        eapply bo_keys; [done|done|]. by eapply childleaf_key_in. }
      exists r. cbn [mbind option_bind]. split_and!; [done..| |].
      + intros k Hk. rewrite <-Hki. by eapply inserted_keys.
      + unfold inserted_kvs in Hkv. by rewrite Hki, Hkvi in Hkv.
    - exists inserted. split_and!; [done|done|intros _; apply with_key_hkey| |].
      + intros k. rewrite leaf_keys by done. rewrite Hki. intros ->%list_elem_of_singleton. by right.
      + right. simpl. rewrite Hkvi, app_nil_r. set_solver. }
  destruct (descend_edit None b key o es
    (λ opt, r ← match opt with
      | Some old => r ← insert_leaf (KEY_LEN:=KEY_LEN) rand_hash fuel old inserted (end_depth b);
          Some (Some r)
      | None => Some (Some inserted) end; Some (r, tt)) n tt e)
    as (ed & b' & Hed & Hdrop & Hwf' & Hkv' & _); try done; [by rewrite Hn| |naive_solver|].
  { intros k Hk. destruct (Hkn k Hk) as [?| ->]; [by left|right]. split; [by apply agree_sym|done]. }
  unfold modify_child. rewrite Hed. cbn [mbind option_bind]. rewrite Hdrop.
  eexists. split_and!; [done..|]. unfold inserted_kvs. rewrite Hkv', (kvs_split b e o es Hes), Hkc.
  destruct Hkvn as [[Hin ->]|[Hin ->]]; [by left|right]. split; [done|]. by rewrite app_assoc.
Qed.

(** Carrying the hash of an archive leaf changes nothing: the trie is the one
    ordinary insertion builds. *)
Lemma modify_child_gen_hint {R} d b key cur (f g : option head → option (option head * R)) :
  (∀ o, f o = g o) → (∀ c x, g None = Some (Some c, x) → hhash c = d) →
  modify_child_gen rand_hash (Some d) b key cur f = modify_child_gen rand_hash None b key cur g.
Proof.
  intros Hfg Hd. unfold modify_child_gen.
  destruct (table_get_slot _ _ _ _) as [[i|]|]; cbn [mbind option_bind]; [| |done].
  - destruct (child_table b !! i) as [[c|]|]; cbn [mbind option_bind]; [|done|done].
    destruct (count_segment c _); cbn [mbind option_bind]; [|done]. by rewrite Hfg.
  - rewrite Hfg. destruct (g None) as [[[c|] x]|] eqn:E; cbn [mbind option_bind]; [|done|done].
    simpl. by rewrite (Hd c x eq_refl).
Qed.

Lemma insert_archive_leaf_eq fuel this leaf a :
  insert_archive_leaf (KEY_LEN:=KEY_LEN) rand_hash fuel this leaf (hhash leaf) a =
    insert_leaf (KEY_LEN:=KEY_LEN) rand_hash fuel this leaf a.
Proof.
  revert this leaf a. induction fuel as [|fuel IH]; intros this leaf a; [done|].
  cbn [insert_archive_leaf insert_leaf]. destruct (first_divergence this leaf a) as [[[d x] y]|].
  { unfold branch_new. by rewrite hhash_with_key. }
  destruct (negb _); [|done]. destruct (from_head this) as [ed|]; cbn [mbind option_bind]; [|done].
  unfold with_start. destruct (tree_byte _ _) as [key|]; cbn [mbind option_bind]; [|done].
  unfold modify_child_with_inserted_hint, modify_child, ed_modify.
  rewrite (modify_child_gen_hint (hhash leaf) _ _ _ _ (λ o, r ← match o with
      | Some old => r ← insert_leaf (KEY_LEN:=KEY_LEN) rand_hash fuel old (with_key leaf key) (hend this);
          Some (Some r)
      | None => Some (Some (with_key leaf key)) end; Some (r, tt))).
  - done.
  - intros [old|]; [|done]. rewrite <-(hhash_with_key leaf key) at 1. by rewrite IH.
  - intros c x. simpl. intros [= <- _]. apply hhash_with_key.
Qed.

(** ** Replacement: correctness *)

(** The contents after a replacement and the leaf it retires. *)
Definition replaced_kvs this leaf (l : list (list N * V)) (retired : option head) : Prop :=
  (childleaf_key leaf ∉ keys this ∧ l ≡ₚ kvs leaf ++ kvs this ∧ retired = None) ∨
  (∃ v rest old, kvs this ≡ₚ (childleaf_key leaf, v) :: rest ∧ l ≡ₚ kvs leaf ++ rest ∧
    retired = Some old ∧ kvs old = [(childleaf_key leaf, v)]).

Lemma leaf_kvs leaf : is_leaf leaf → ∃ v, kvs leaf = [(childleaf_key leaf, v)].
Proof. destruct leaf; [intros _; eexists; done..|done]. Qed.

Lemma replace_leaf_spec fuel this leaf a :
  wf this → wf leaf → is_leaf leaf → KEY_LEN - hend this < fuel →
  agree a (childleaf_key this) (childleaf_key leaf) →
  ∃ r retired, replace_leaf (KEY_LEN:=KEY_LEN) rand_hash fuel this leaf a = Some (r, retired) ∧
    wf r ∧ hkey r = hkey this ∧ replaced_kvs this leaf (kvs r) retired.
Proof.
  revert this leaf a. induction fuel as [|fuel IH]; intros this leaf a Hwf Hwfl Hl Hfuel Ha; [lia|].
  cbn [replace_leaf]. pose proof (first_divergence_spec UNIT this leaf a Hwf Hwfl Ha) as Hfd.
  rewrite (proj2 (wf_full_leaf leaf Hwfl) Hl) in Hfd.
  destruct (first_divergence this leaf a) as [[[d x] y]|].
  { destruct Hfd as (H1 & H2 & H3 & -> & -> & Hne & Hag).
    pose proof (proj2 (wf_full_leaf leaf Hwfl) Hl) as Hel.
    destruct (split_spec this leaf d (hkey this)) as (b & Hb & Hwfb & Hkv & Hdis & _); try done; [lia|].
    unfold branch_new, new_with_rchild_hash. rewrite !hhash_with_key, Hb. cbn [mbind option_bind].
    eexists _, _. split_and!; [done..|]. left. split_and!; [|rewrite Hkv; apply Permutation_app_comm|done].
    intros Hin. apply (Hdis _ Hin). rewrite leaf_keys by done. by apply list_elem_of_singleton. }
  pose proof (hend_le _ _ this Hwf). rewrite Nat.min_l in Hfd by done.
  destruct (Nat.eqb_spec (hend this) KEY_LEN) as [E|E].
  { destruct (full_match this leaf) as [Hlt Hkt]; try done.
    eexists _, _. split_and!; [done|by apply wf_with_key|apply with_key_hkey|]. right.
    destruct (leaf_kvs this Hlt) as [v Hv]. exists v, [], this.
    rewrite Hv, Hkt, kvs_with_key, app_nil_r. done. }
  destruct Hwf as [| |e b Hok Hlen]; [done..|]. simpl in *. cbn [mbind option_bind].
  pose proof (bo_depth _ _ _ _ _ Hok) as Hd. rewrite with_start_spec by done.
  cbn [mbind option_bind]. rewrite with_key_hkey. set (key := tb (childleaf_key leaf) (end_depth b)).
  destruct (rekeyed_leaf leaf key Hwfl Hl) as (Hwfi & Hli & Hki & Hkvi).
  set (inserted := with_key leaf key) in *.
  destruct (kids_split rand_hash UNIT b false key Hok) as (o & es & Hes & Ho & Hfresh).
  pose proof (keys_in_child e b false key o es (childleaf_key leaf) Hok Hes Ho Hfresh eq_refl) as Hkc.
  set (f := λ opt : option head, match opt with
      | Some old => '(replacement, old_leaf) ←
          replace_leaf (KEY_LEN:=KEY_LEN) rand_hash fuel old inserted (end_depth b);
          Some (Some replacement, old_leaf)
      | None => Some (Some inserted, None) end).
  assert (∃ n ret, f o = Some (Some n, ret) ∧ wf n ∧ (o = None → hkey n = key) ∧
      (∀ k, k ∈ keys n → k ∈ from_option keys [] o ∨ k = childleaf_key leaf) ∧
      (childleaf_key leaf ∉ from_option keys [] o ∧ kvs n ≡ₚ kvs leaf ++ from_option kvs [] o ∧
         ret = None ∨
       ∃ v rest old, from_option kvs [] o ≡ₚ (childleaf_key leaf, v) :: rest ∧
         kvs n ≡ₚ kvs leaf ++ rest ∧ ret = Some old ∧ kvs old = [(childleaf_key leaf, v)]))
    as (n & ret & Hn & Hwfn & Hkeyn & Hkn & Hkvn).
  { destruct o as [old|]; simpl.
    - assert (old ∈ kids b) as Hold by (rewrite Hes; set_solver).
      pose proof (child_hend rand_hash UNIT b false old Hok Hold) as Hend.
      pose proof (bo_children _ _ _ _ _ Hok old Hold) as Hwfo.
      destruct (IH old inserted (end_depth b)) as (r & ret & -> & Hwfr & Hkr & Hkv); try done; [lia| |].
      { rewrite Hki. eapply agree_trans; [|exact Hfd].
        eapply bo_keys; [done|done|]. by eapply childleaf_key_in. }
      exists r, ret. unfold replaced_kvs in Hkv. rewrite Hki, Hkvi in Hkv.
      split_and!; [done..| |done]. intros k [v Hv]%elem_of_keys.
      destruct (leaf_kvs leaf Hl) as [v' Hlk]. rewrite Hlk in Hkv.
      destruct Hkv as [(_ & Hp & _)|(v0 & rest & old' & Hp0 & Hp & _)]; rewrite Hp in Hv;
        apply elem_of_cons in Hv as [[= -> ->]|Hv]; [by right| |by right|];
        left; apply elem_of_keys; exists v; [done|]. rewrite Hp0. by right.
    - exists inserted, None. split_and!; [done|done|intros _; apply with_key_hkey| |].
      + intros k. rewrite leaf_keys by done. rewrite Hki. intros ->%list_elem_of_singleton. by right.
      + left. rewrite Hkvi, app_nil_r. set_solver. }
  destruct (descend_edit None b key o es f n ret e)
    as (ed & b' & Hed & Hdrop & Hwf' & Hkv' & _); try done; [|naive_solver|].
  { intros k Hk. destruct (Hkn k Hk) as [?| ->]; [by left|right]. split; [by apply agree_sym|done]. }
  rewrite Hed. cbn [mbind option_bind]. rewrite Hdrop. cbn [mbind option_bind].
  eexists _, _. split_and!; [done..|]. unfold replaced_kvs.
  setoid_rewrite Hkv'. setoid_rewrite (kvs_split b e o es Hes). rewrite Hkc.
  destruct Hkvn as [(Hin & Hp & ->)|(v & rest & old & Hp0 & Hp & -> & Hko)].
  - left. split_and!; [done| |done]. by rewrite Hp, app_assoc.
  - right. exists v, (rest ++ (es ≫= kvs)), old. split_and!; [by rewrite Hp0|by rewrite Hp, app_assoc|done..].
Qed.

(** ** Removal: correctness *)

Lemma take_first_spec (t : list (option head)) c rest : entries t = c :: rest →
  ∃ t', take_first t = (Some c, t') ∧ entries t' = rest.
Proof.
  induction t as [|[c'|] t IH]; simpl; [done| |].
  - intros [= -> <-]. eexists. split; [done|]. done.
  - intros (t' & -> & Ht')%IH. eexists. split; [done|]. done.
Qed.

Lemma ed_drop_empty (ed : branch_mut) e : kids (ed_branch ed) = [] →
  ∃ h, ed_drop (KEY_LEN:=KEY_LEN) rand_hash e ed = Some h.
Proof.
  intros Hk. unfold ed_drop. destruct (_ && _); [|by eexists].
  unfold recompute_hash. rewrite Hk. cbn [foldl].
  assert (byteset_drain 256 byteset_empty = []) as -> by reflexivity. cbn [foldM]. by eexists.
Qed.

(** The contents of a slot. *)
Definition slot_kvs (o : option head) : list (list N * V) := from_option kvs [] o.

Definition removed_slot this (q : list N) (a : nat) (slot' retired : option head) : Prop :=
  ((∀ k, k ∈ keys this → ¬ pref a k q) ∧ slot' = Some this ∧ retired = None) ∨
  (∃ k v, pref a k q ∧ kvs this ≡ₚ (k, v) :: slot_kvs slot' ∧
    ∀ old, retired = Some old → kvs old = [(k, v)]).

Lemma remove_leaf_spec fuel this q a :
  wf this → length q = KEY_LEN → KEY_LEN - hend this < fuel → a ≤ hend this → a < KEY_LEN →
  ∃ slot' retired, remove_leaf (KEY_LEN:=KEY_LEN) rand_hash fuel (Some this) q a = Some (slot', retired) ∧
    (∀ r, slot' = Some r → wf r) ∧ removed_slot this q a slot' retired.
Proof.
  revert this a. induction fuel as [|fuel IH]; intros this a Hwf Hq Hfuel Ha HaK; [lia|].
  cbn [remove_leaf].
  destruct (has_prefix_spec rand_hash UNIT (S KEY_LEN) this a q Hwf) as (found & -> & Hfound); [lia..|].
  cbn [mbind option_bind]. destruct found; cbn [negb].
  2:{ exists (Some this), None. split_and!; [done|by intros ? [= <-]|]. left. split_and!; [|done|done].
      intros k Hk Hp. assert (false = true); [|done]. apply Hfound. eauto. }
  destruct (proj1 Hfound eq_refl) as (k & Hk & Hp). clear Hfound.
  destruct Hwf as [e l Hl ?|e p Hl|e b Hok Hlen].
  1,2: apply list_elem_of_singleton in Hk as ->; eexists _, _; split_and!; [done|done|right].
  { exists (bytes (leaf_ptr l)), (leaf_value l). split_and!; [done..|]. by intros ? [= <-]. }
  { exists (bytes p), UNIT. by split_and!. }
  simpl in *. pose proof (bo_depth _ _ _ _ _ Hok) as Hd. rewrite Nat.min_l by lia.
  destruct (lookup_lt_is_Some_2 q (end_depth b)) as [key Hkey]; [lia|].
  cbn [mbind option_bind]. rewrite Hkey. cbn [mbind option_bind].
  assert (tb k (end_depth b) = key) as Hkb.
  { rewrite (Hp (end_depth b)) by lia. by rewrite nth_lookup, Hkey. }
  destruct (kids_split rand_hash UNIT b false key Hok) as (o & es & Hes & Ho & Hfresh).
  pose proof (proj1 (keys_in_child e b false key o es k Hok Hes Ho Hfresh Hkb) Hk) as Hko.
  destruct o as [c|]; simpl in Hko; [|set_solver].
  assert (c ∈ kids b) as Hc by (rewrite Hes; set_solver).
  pose proof (child_hend rand_hash UNIT b false c Hok Hc) as Hend.
  pose proof (bo_children _ _ _ _ _ Hok c Hc) as Hwfc.
  destruct (IH c (end_depth b)) as (n & ret & Hrec & Hwfn & Hrem); [done|done|lia|lia|done|].
  assert (∃ k' v, pref a k' q ∧ kvs c ≡ₚ (k', v) :: slot_kvs n ∧
    ∀ old, ret = Some old → kvs old = [(k', v)]) as (k' & v & Hp' & Hkv & Hret).
  { destruct Hrem as [(Hno & _)|(k' & v & Hp' & Hkv & Hret)].
    { destruct (Hno k Hko). intros d ???. apply Hp; lia. }
    exists k', v. split_and!; [|done..]. intros d Had Hdq HdK.
    destruct (decide (d < end_depth b)); [|apply Hp'; lia]. rewrite <-(Hp d) by done.
    assert (k' ∈ keys c) as Hk' by (apply elem_of_keys; exists v; rewrite Hkv; by left).
    destruct (bo_keys _ _ _ _ _ Hok c k' Hc Hk') as [E1 _], (bo_keys _ _ _ _ _ Hok c k Hc Hko) as [E2 _].
    by rewrite (E1 d), (E2 d). }
  assert (es ≠ []) as Hesne.
  { intros ->. rewrite Hes in Hlen. simpl in Hlen. lia. }
  destruct (ed_modify_spec rand_hash UNIT None (mkEd b false) key (Some c) n es
    (λ opt, remove_leaf (KEY_LEN:=KEY_LEN) rand_hash fuel opt q (end_depth b)) ret)
    as (ed & -> & Hinv & Hkids & Hdep & _); try done.
  { intros c' Hc'. split; [|done]. split; [by apply Hwfn|]. intros k0 [v0 Hk0]%elem_of_keys.
    rewrite <-(Ho c eq_refl). eapply bo_keys; [done|done|]. apply elem_of_keys. exists v0.
    rewrite Hkv, Hc'. by right. }
  { intros [_ ?]%app_eq_nil. done. }
  cbn [mbind option_bind]. rewrite length_take.
  set (kidlist := option_list ((λ c, with_key c key) <$> n) ++ es) in *.
  pose proof (Permutation_length Hkids) as Hklen. rewrite Hklen.
  assert (length kidlist ≠ 0) as Hk0.
  { unfold kidlist. rewrite length_app. destruct es; [done|]. simpl. lia. }
  rewrite (proj2 (Nat.eqb_neq _ _)) by lia.
  assert (kvs (HBranch e b) ≡ₚ (k', v) :: (slot_kvs n ++ (es ≫= kvs))) as Hall.
  { rewrite (kvs_split b e (Some c) es Hes). simpl. by rewrite Hkv. }
  destruct (Nat.eqb_spec (2 `min` length kidlist) 1) as [E1|E1].
  - assert (length kidlist = 1) as Hk1 by lia. rewrite Hk1 in Hklen.
    destruct (kids (ed_branch ed)) as [|x [|]] eqn:Ek; [done| |done].
    destruct (take_first_spec _ _ _ Ek) as (t & -> & Ht). cbn [mbind option_bind].
    assert (n = None ∧ es = [x]) as [-> ->].
    { unfold kidlist in *. destruct n as [n|]; simpl in Hk1, Hkids.
      - destruct es; [done|]. simpl in Hk1. lia.
      - split; [done|]. by apply Permutation_singleton_l in Hkids. }
    assert (x ∈ kids b) as Hx by (rewrite Hes; set_solver).
    rewrite with_start_spec by (done || by eapply bo_children). cbn [mbind option_bind].
    destruct (ed_drop_empty (mkEd (set_table (ed_branch ed) t) (hash_dirty ed)) e) as [h' ->]; [done|].
    cbn [mbind option_bind]. eexists _, _. split_and!; [done| |].
    + intros ? [= <-]. apply wf_with_key. by eapply bo_children.
    + right. exists k', v. split_and!; [done| |done]. rewrite Hall. csimpl. rewrite kvs_with_key.
      by rewrite app_nil_r.
  - destruct (commit_spec ed e n es key Hinv Hkids) as (b' & -> & Hwf' & Hkv' & _).
    { assert (length kidlist = length (option_list n ++ es)) as <-; [|lia].
      unfold kidlist. rewrite !length_app. by destruct n. }
    cbn [mbind option_bind]. eexists _, _. split_and!; [done|by intros ? [= <-]|].
    right. exists k', v. split_and!; [done| |done]. rewrite Hall. unfold slot_kvs at 2. simpl. by rewrite Hkv'.
Qed.
End updates.
