(* ===== verification/Algebra.v ===== *)
(** * Algebra: set operations on PATCH tries

    Source: [triblespace-core/src/patch.rs], [Head::union], [Head::intersect],
    [Head::difference], [Head::inclusion] and [meet].

    The operations settle a pair of subtrees by comparing cached fingerprints.
    That is sound only if no subtree of the one operand collides with a subtree
    of the other, which the theorems take as the hypothesis [distinguishes]: a
    decidable condition ([distinguishes_b]) on the finitely many digests the two
    operands cache, none on any other trie.  Every recursive call is on two
    subtrees that end below the shallower of the two, so [S KEY_LEN] is enough
    fuel. *)

From S2P Require Import Prelude ByteTable KeySchema PatchHash Branch Head.

Open Scope nat_scope.

Section ops.
Context {KEY_LEN : nat} {O : KeySchema KEY_LEN} {H : PatchHash} {V : Type}.
Context (rand_hash : N → N).
Abbreviation head := (head Digest V).
Abbreviation branch := (branch Digest head).
Abbreviation hend := (hend (KEY_LEN:=KEY_LEN)).
Abbreviation ed_drop := (ed_drop (KEY_LEN:=KEY_LEN)).

Definition same_fingerprint {V' : Type} (this : head) (other : Branch.head Digest V') : bool :=
  local_leaf_cardinality_allows_equality this other && bool_decide (hhash this = hhash other).

Fixpoint union (fuel : nat) (this other : head) (at_depth : nat) : res head :=
  match fuel with
  | 0 => None
  | S fuel =>
      if is_archive_singleton_pair this other then
        match first_divergence this other at_depth with
        | Some (depth, this_byte_key, other_byte_key) =>
            b ← new_with_child_hashes depth (with_key this this_byte_key)
                  (with_key other other_byte_key) (hhash this) (hhash other);
            Some (HBranch (hkey this) b)
        | None => Some this
        end
      else if same_fingerprint this other then Some this
      else
        match first_divergence this other at_depth with
        | Some (depth, this_byte_key, other_byte_key) =>
            b ← branch_new depth (with_key this this_byte_key) (with_key other other_byte_key);
            Some (HBranch (hkey this) b)
        | None =>
            let this_depth := hend this in
            let other_depth := hend other in
            if this_depth <? other_depth then
              ed ← from_head this;
              inserted ← with_start other (end_depth (ed_branch ed));
              ed ← modify_child rand_hash ed (hkey inserted) (λ opt,
                match opt with
                | Some old => r ← union fuel old inserted this_depth; Some (Some r)
                | None => Some (Some inserted)
                end);
              ed_drop rand_hash (hkey this) ed
            else if other_depth <? this_depth then
              ed ← from_head other;
              inserted ← with_start this (end_depth (ed_branch ed));
              ed ← modify_child rand_hash ed (hkey inserted) (λ opt,
                match opt with
                | Some old => r ← union fuel old inserted other_depth; Some (Some r)
                | None => Some (Some inserted)
                end);
              h ← ed_drop rand_hash (hkey other) ed;
              Some (with_key h (hkey this))
            else
              let '(this, other) := if tag this <? tag other then (other, this) else (this, other) in
              match other with
              | HBranch _ other_branch =>
                  ed ← from_head this;
                  ed ← foldM (λ ed other_child,
                      inserted ← with_start other_child (end_depth (ed_branch ed));
                      modify_child rand_hash ed (hkey inserted) (λ opt,
                        match opt with
                        | Some old => r ← union fuel old inserted this_depth; Some (Some r)
                        | None => Some (Some inserted)
                        end))
                    ed (entries (child_table other_branch));
                  ed_drop rand_hash (hkey this) ed
              | _ => None
              end
        end
  end.

(** [filter_map] over the children with a fallible closure. *)
Fixpoint filter_mapM {A B} (f : A → res (option B)) (l : list A) : res (list B) :=
  match l with
  | [] => Some []
  | x :: l =>
      o ← f x;
      l ← filter_mapM f l;
      Some (match o with Some y => y :: l | None => l end)
  end.

(** The collection phase shared by intersection and difference: nothing, the
    only child, or a fresh branch built with [modify_child]. *)
Definition collect (self_depth : nat) (children : list head) : res (option head) :=
  match children with
  | [] => Some None
  | [first_child] => Some (Some first_child)
  | first_child :: second_child :: rest =>
      first ← with_start first_child self_depth;
      second ← with_start second_child self_depth;
      new_branch ← branch_new self_depth first second;
      ed ← from_head (HBranch 0%N new_branch);
      ed ← foldM (λ ed child,
          inserted ← with_start child self_depth;
          modify_child rand_hash ed (hkey inserted) (λ _, Some (Some inserted))) ed rest;
      h ← ed_drop rand_hash 0%N ed;
      Some (Some h)
  end.

Fixpoint intersect (fuel : nat) (self other : head) (at_depth : nat) : res (option head) :=
  match fuel with
  | 0 => None
  | S fuel =>
      if is_archive_singleton_pair self other then
        Some (match first_divergence self other at_depth with None => Some self | Some _ => None end)
      else if same_fingerprint self other then Some (Some self)
      else
        match first_divergence self other at_depth with
        | Some _ => Some None
        | None =>
            let self_depth := hend self in
            let other_depth := hend other in
            if self_depth <? other_depth then
              match self with
              | HBranch _ self_branch =>
                  x ← tree_byte (childleaf_key other) self_depth;
                  o ← table_get hkey rand_hash (child_table self_branch) x;
                  match o with
                  | Some self_child => intersect fuel other self_child self_depth
                  | None => Some None
                  end
              | _ => None
              end
            else if other_depth <? self_depth then
              match other with
              | HBranch _ other_branch =>
                  x ← tree_byte (childleaf_key self) other_depth;
                  o ← table_get hkey rand_hash (child_table other_branch) x;
                  match o with
                  | Some other_child => intersect fuel self other_child other_depth
                  | None => Some None
                  end
              | _ => None
              end
            else
              match self, other with
              | HBranch _ self_branch, HBranch _ other_branch =>
                  children ← filter_mapM (λ self_child,
                      o ← table_get hkey rand_hash (child_table other_branch) (hkey self_child);
                      match o with
                      | Some other_child => intersect fuel self_child other_child self_depth
                      | None => Some None
                      end) (entries (child_table self_branch));
                  collect self_depth children
              | _, _ => None
              end
        end
  end.
End ops.

Section ops2.
Context {KEY_LEN : nat} {O : KeySchema KEY_LEN} {H : PatchHash} {V V' : Type}.
Context (rand_hash : N → N).
Abbreviation head := (head Digest V).
Abbreviation head' := (Branch.head Digest V').
Abbreviation hend := (hend (KEY_LEN:=KEY_LEN)).
Abbreviation ed_drop := (ed_drop (KEY_LEN:=KEY_LEN)).

Fixpoint difference (fuel : nat) (self : head) (other : head') (at_depth : nat)
    : res (option head) :=
  match fuel with
  | 0 => None
  | S fuel =>
      if is_archive_singleton_pair self other then
        Some (match first_divergence self other at_depth with None => None | Some _ => Some self end)
      else if same_fingerprint self other then Some None
      else
        match first_divergence self other at_depth with
        | Some _ => Some (Some self)
        | None =>
            let self_depth := hend self in
            let other_depth := hend other in
            if self_depth <? other_depth then
              other_byte_key ← tree_byte (childleaf_key other) self_depth;
              ed ← from_head self;
              ed ← modify_child rand_hash ed other_byte_key (λ opt,
                match opt with
                | Some child => difference fuel child other self_depth
                | None => Some None
                end);
              if length (take 2 (entries (child_table (ed_branch ed)))) <=? 1 then
                match take_first (child_table (ed_branch ed)) with
                | (Some child, t) =>
                    remaining ← with_start child at_depth;
                    _ ← ed_drop rand_hash (hkey self)
                          (mkEd (set_table (ed_branch ed) t) (hash_dirty ed));
                    Some (Some remaining)
                | (None, t) =>
                    _ ← ed_drop rand_hash (hkey self)
                          (mkEd (set_table (ed_branch ed) t) (hash_dirty ed));
                    Some None
                end
              else
                h ← ed_drop rand_hash (hkey self) ed;
                Some (Some h)
            else if other_depth <? self_depth then
              match other with
              | HBranch _ other_branch =>
                  self_byte_key ← tree_byte (childleaf_key self) other_depth;
                  o ← table_get hkey rand_hash (child_table other_branch) self_byte_key;
                  match o with
                  | Some other_child => difference fuel self other_child at_depth
                  | None => Some (Some self)
                  end
              | _ => None
              end
            else
              match self, other with
              | HBranch _ self_branch, HBranch _ other_branch =>
                  children ← filter_mapM (λ self_child,
                      o ← table_get hkey rand_hash (child_table other_branch) (hkey self_child);
                      match o with
                      | Some other_child => difference fuel self_child other_child self_depth
                      | None => Some (Some self_child)
                      end) (entries (child_table self_branch));
                  collect rand_hash self_depth children
              | _, _ => None
              end
        end
  end.
End ops2.

(** ** Inclusion

    [option comparison] is [Option<Ordering>]: [None] for incomparable sets. *)

Definition meet (left right : option comparison) : option (option comparison) :=
  match left, right with
  | Some Eq, Some order | Some order, Some Eq => Some (Some order)
  | Some Lt, Some Lt => Some (Some Lt)
  | Some Gt, Some Gt => Some (Some Gt)
  | _, _ => None
  end.

Section inclusion.
Context {KEY_LEN : nat} {O : KeySchema KEY_LEN} {H : PatchHash} {V : Type}.
Context (rand_hash : N → N).
Abbreviation head := (head Digest V).
Abbreviation hend := (hend (KEY_LEN:=KEY_LEN)).

(** The loop over self's children: [meet] ends the function early ([?]), which
    is the outer [None] of the accumulator. *)
Definition meet_step {A} (order_of : A → res (option comparison))
    (acc : option (option comparison)) (x : A) : res (option (option comparison)) :=
  match acc with
  | None => Some None
  | Some order => child_order ← order_of x; Some (meet order child_order)
  end.

Fixpoint inclusion (fuel : nat) (self other : head) (at_depth : nat) : res (option comparison) :=
  match fuel with
  | 0 => None
  | S fuel =>
      if is_archive_singleton_pair self other then
        Some (match first_divergence self other at_depth with None => Some Eq | Some _ => None end)
      else if same_fingerprint self other then Some (Some Eq)
      else
        match first_divergence self other at_depth with
        | Some _ => Some None
        | None =>
            let self_depth := hend self in
            let other_depth := hend other in
            if self_depth <? other_depth then
              match self with
              | HBranch _ self_branch =>
                  other_byte_key ← tree_byte (childleaf_key other) self_depth;
                  o ← table_get hkey rand_hash (child_table self_branch) other_byte_key;
                  match o with
                  | Some self_child =>
                      r ← inclusion fuel self_child other at_depth;
                      Some (match r with Some (Eq | Gt) => Some Gt | _ => None end)
                  | None => Some None
                  end
              | _ => None
              end
            else if other_depth <? self_depth then
              match other with
              | HBranch _ other_branch =>
                  self_byte_key ← tree_byte (childleaf_key self) other_depth;
                  o ← table_get hkey rand_hash (child_table other_branch) self_byte_key;
                  match o with
                  | Some other_child =>
                      r ← inclusion fuel self other_child at_depth;
                      Some (match r with Some (Eq | Lt) => Some Lt | _ => None end)
                  | None => Some None
                  end
              | _ => None
              end
            else
              match self, other with
              | HBranch _ self_branch, HBranch _ other_branch =>
                  acc ← foldM (meet_step (λ self_child,
                      o ← table_get hkey rand_hash (child_table other_branch) (hkey self_child);
                      match o with
                      | Some other_child => inclusion fuel self_child other_child self_depth
                      | None => Some (Some Gt)
                      end)) (Some (Some Eq)) (entries (child_table self_branch));
                  acc ← foldM (λ acc other_child,
                      o ← table_get hkey rand_hash (child_table self_branch) (hkey other_child);
                      match acc, o with
                      | Some order, None => Some (meet order (Some Lt))
                      | _, _ => Some acc
                      end) acc (entries (child_table other_branch));
                  Some (match acc with Some order => order | None => None end)
              | _, _ => None
              end
        end
  end.
End inclusion.

(** ** Correctness *)

(** A head and all heads below it. *)
Fixpoint subtrees {D V : Type} (h : Branch.head D V) : list (Branch.head D V) :=
  h :: match h with
    | HBranch _ b => flat_map (λ o, match o with Some c => subtrees c | None => [] end) (child_table b)
    | _ => []
    end.

Lemma subtrees_self {D V : Type} (h : Branch.head D V) : h ∈ subtrees h.
Proof. destruct h; by left. Qed.

Lemma subtrees_branch {D V : Type} e (b : Branch.branch D (Branch.head D V)) :
  subtrees (HBranch e b) = HBranch e b :: (entries (child_table b) ≫= subtrees).
Proof.
  simpl. f_equal. unfold entries. induction (child_table b) as [|[c|] t IH]; simpl; [done| |done].
  by rewrite IH.
Qed.

Lemma subtrees_child {D V : Type} e (b : Branch.branch D (Branch.head D V)) c (s : Branch.head D V) :
  c ∈ entries (child_table b) → s ∈ subtrees c → s ∈ subtrees (HBranch e b).
Proof. intros Hc Hs. rewrite subtrees_branch. right. apply list_elem_of_bind. eauto. Qed.

Section spec.
Context {KEY_LEN : nat} {O : KeySchema KEY_LEN} `{!KeySchemaOk KEY_LEN O}.
Context {H : PatchHash} `{!PatchHashOk H} {V : Type}.
Context (rand_hash : N → N) (UNIT : V).
Abbreviation head := (head Digest V).
Abbreviation branch := (branch Digest head).
Abbreviation kvs := (kvs UNIT).
Abbreviation keys := (keys UNIT).
Abbreviation wf := (wf rand_hash UNIT).
Abbreviation branch_ok := (branch_ok rand_hash UNIT).
Abbreviation ed_inv := (ed_inv rand_hash UNIT).
Abbreviation kids b := (entries (child_table b)).
Abbreviation hend := (hend (KEY_LEN:=KEY_LEN)).
Implicit Types (h c this other : head) (b : branch) (k : list N) (l : list (list N * V)).

(** Equal fingerprints of a subtree of [h] and a subtree of [h'] mean equal key
    sets.  This is about the digests the two tries cache, and about no other. *)
Definition distinguishes {V' : Type} (UNIT' : V') (h : head) (h' : Branch.head Digest V') : Prop :=
  ∀ s t, s ∈ subtrees h → t ∈ subtrees h' → hhash s = hhash t → ∀ k, k ∈ keys s ↔ k ∈ Branch.keys UNIT' t.

(** The same as a test. *)
Definition distinguishes_b {V' : Type} (UNIT' : V') (h : head) (h' : Branch.head Digest V') : bool :=
  forallb (λ s, forallb (λ t,
    if decide (hhash s = hhash t) then
      bool_decide ((list_to_set (keys s) : gset (list N)) = list_to_set (Branch.keys UNIT' t))
    else true) (subtrees h')) (subtrees h).

(** [r] holds the keys of [l] and [l'], each with a value one of them has. *)
Definition merges l l' (r : list (list N * V)) : Prop :=
  (∀ k, k ∈ r.*1 ↔ k ∈ l.*1 ∨ k ∈ l'.*1) ∧ (∀ kv, kv ∈ r → kv ∈ l ∨ kv ∈ l').

Lemma merges_comm l l' r : merges l l' r → merges l' l r.
Proof. intros [H1 H2]. split; [intros k; rewrite H1; tauto|intros kv Hkv; destruct (H2 kv Hkv); auto]. Qed.

Lemma merges_app l l' : merges l l' (l ++ l').
Proof. split; [intros k; rewrite fmap_app; set_solver|intros kv; rewrite elem_of_app; done]. Qed.

Lemma merges_left l l' : (∀ k, k ∈ l'.*1 → k ∈ l.*1) → merges l l' l.
Proof. intros Hs. split; [naive_solver|auto]. Qed.

#[local] Instance merges_perm : Proper ((≡ₚ) ==> (≡ₚ) ==> (≡ₚ) ==> iff) merges.
Proof.
  intros l1 l2 E l1' l2' E' r r' Er. unfold merges.
  by setoid_rewrite E; setoid_rewrite E'; setoid_rewrite Er.
Qed.

Lemma merges_frame l l' r rest : merges l l' r → merges (l ++ rest) l' (r ++ rest).
Proof.
  intros [H1 H2]. split.
  - intros k. rewrite !fmap_app, !elem_of_app, H1. tauto.
  - intros kv. rewrite !elem_of_app. intros [Hkv|]; [|auto]. destruct (H2 kv Hkv); auto.
Qed.

Lemma merges_trans l l' l'' r r' : merges l l' r → merges r l'' r' → merges l (l' ++ l'') r'.
Proof.
  intros [H1 H2] [H3 H4]. split.
  - intros k. rewrite H3, H1, fmap_app, elem_of_app. tauto.
  - intros kv Hkv. rewrite elem_of_app. destruct (H4 kv Hkv) as [Hkv'|]; [|auto].
    destruct (H2 kv Hkv'); auto.
Qed.

(** *** Fingerprints that tell subtrees apart *)

Section distinguishes.
Context {V' : Type} (UNIT' : V').
Abbreviation head' := (Branch.head Digest V').

Lemma distinguishes_b_spec h (h' : head') : distinguishes_b UNIT' h h' = true ↔ distinguishes UNIT' h h'.
Proof.
  unfold distinguishes_b, distinguishes. rewrite forallb_forall. setoid_rewrite forallb_forall.
  setoid_rewrite <-list_elem_of_In. split.
  - intros Hb s t Hs Ht E k. specialize (Hb s Hs t Ht). rewrite decide_True in Hb by done.
    apply bool_decide_eq_true in Hb. by rewrite <-2!(elem_of_list_to_set (C:=gset (list N))), Hb.
  - intros Hd s Hs t Ht. case_decide as E; [|done]. apply bool_decide_eq_true, set_eq. intros k.
    rewrite !elem_of_list_to_set. by apply Hd.
Qed.

#[global] Instance distinguishes_dec h (h' : head') : Decision (distinguishes UNIT' h h').
Proof. refine (cast_if (decide (distinguishes_b UNIT' h h' = true))); by rewrite <-distinguishes_b_spec. Defined.

Lemma distinguishes_left e b c (h' : head') : c ∈ kids b → distinguishes UNIT' (HBranch e b) h' →
  distinguishes UNIT' c h'.
Proof. intros Hc Hd s t Hs. apply Hd. by eapply subtrees_child. Qed.

Lemma distinguishes_right e (b : Branch.branch Digest head') (c : head') h :
  c ∈ kids b → distinguishes UNIT' h (HBranch e b) →
  distinguishes UNIT' h c.
Proof. intros Hc Hd s t Hs Ht. apply Hd; [done|]. by eapply subtrees_child. Qed.

(** Re-keying a head changes neither its digest nor what lies below it. *)
Lemma distinguishes_with_key h (h' : head') e : distinguishes UNIT' h h' → distinguishes UNIT' h (with_key h' e).
Proof.
  intros Hd s t Hs Ht. assert (∃ t', t' ∈ subtrees h' ∧ hhash t' = hhash t ∧
    Branch.keys UNIT' t' = Branch.keys UNIT' t) as (t' & Ht' & <- & <-); [|by apply Hd].
  destruct h' as [x l|x p|x b]; cbn [with_key] in Ht.
  1,2: apply list_elem_of_singleton in Ht as ->; eexists; (split; [by left|done]).
  rewrite subtrees_branch in Ht. apply elem_of_cons in Ht as [->|Ht].
  - exists (HBranch x b). split; [apply subtrees_self|done].
  - exists t. split; [|done]. rewrite subtrees_branch. by right.
Qed.
End distinguishes.

Lemma distinguishes_sym h h' : distinguishes UNIT h h' → distinguishes UNIT h' h.
Proof. intros Hd s t Hs Ht E k. symmetry. by apply Hd. Qed.

Lemma elem_of_okeys (o : option head) k :
  k ∈ from_option keys [] o ↔ k ∈ (from_option kvs [] o).*1.
Proof. by destruct o. Qed.

(** Putting a child through the editor, at any point of a loop. *)
Lemma ed_put (ed : branch_mut) key o es (f : option head → option (option head)) n :
  ed_inv ed → kids (ed_branch ed) ≡ₚ option_list o ++ es →
  (∀ c, o = Some c → hkey c = key) → key ∉ hkey <$> es → f o = Some (Some n) → wf n →
  (∀ k, k ∈ keys n → k ∈ from_option keys [] o ∨
    agree (end_depth (ed_branch ed)) k (bytes (childleaf (ed_branch ed))) ∧
      tb k (end_depth (ed_branch ed)) = key) →
  (o = None → hkey n = key) →
  ∃ ed', modify_child rand_hash ed key f = Some ed' ∧ ed_inv ed' ∧
    kids (ed_branch ed') ≡ₚ with_key n key :: es ∧
    end_depth (ed_branch ed') = end_depth (ed_branch ed) ∧
    agree (end_depth (ed_branch ed)) (bytes (childleaf (ed_branch ed')))
      (bytes (childleaf (ed_branch ed))).
Proof.
  intros Hinv Hes Ho Hfresh Hf Hwfn Hkn Hvac. unfold modify_child.
  destruct (ed_modify_spec rand_hash UNIT None ed key o (Some n) es
    (λ o, r ← f o; Some (r, tt)) tt) as (ed' & -> & Hinv' & Hkids & Hd & Ha); try done.
  - by rewrite Hf.
  - intros c [= <-]. split; [|intros ->; split; [by apply Hvac|done]]. split; [done|].
    intros k Hk. destruct (Hkn k Hk) as [Hko|?]; [|done]. destruct o as [c|]; simpl in Hko; [|set_solver].
    rewrite <-(Ho c eq_refl). eapply bo_keys; [apply Hinv| |done]. rewrite Hes. set_solver.
  - cbn [mbind option_bind]. by exists ed'.
Qed.

(** The contents of an editor. *)
Definition ed_kvs (ed : branch_mut) : list (list N * V) := kids (ed_branch ed) ≫= kvs.

(** Merging one subtree into the branch under edit; [F] is the recursive call. *)
Lemma union_step (F : head → head → option head) (ed : branch_mut) d ins :
  ed_inv ed → end_depth (ed_branch ed) = d → wf ins → d < hend ins →
  agree d (childleaf_key ins) (bytes (childleaf (ed_branch ed))) →
  let key := tb (childleaf_key ins) d in
  (∀ old, old ∈ kids (ed_branch ed) → hkey old = key →
    ∃ r, F old (with_key ins key) = Some r ∧ wf r ∧ merges (kvs old) (kvs ins) (kvs r)) →
  ∃ ed', modify_child rand_hash ed key (λ opt,
      match opt with
      | Some old => r ← F old (with_key ins key); Some (Some r)
      | None => Some (Some (with_key ins key))
      end) = Some ed' ∧ ed_inv ed' ∧ end_depth (ed_branch ed') = d ∧
    agree d (bytes (childleaf (ed_branch ed'))) (bytes (childleaf (ed_branch ed))) ∧
    length (kids (ed_branch ed)) ≤ length (kids (ed_branch ed')) ∧
    (∀ c, c ∈ kids (ed_branch ed') → hkey c ≠ key → c ∈ kids (ed_branch ed)) ∧
    merges (ed_kvs ed) (kvs ins) (ed_kvs ed').
Proof.
  intros Hinv Hd Hwf Hend Ha key HF. pose proof (ei_ok _ _ _ Hinv) as Hok.
  destruct (kids_split rand_hash UNIT _ _ key Hok) as (o & es & Hes & Ho & Hfresh).
  assert (∃ n, match o with
      | Some old => r ← F old (with_key ins key); Some (Some r)
      | None => Some (Some (with_key ins key)) end = Some (Some n) ∧ wf n ∧
      (o = None → hkey n = key) ∧ merges (from_option kvs [] o) (kvs ins) (kvs n))
    as (n & Hn & Hwfn & Hkn & Hm).
  { destruct o as [old|].
    - destruct (HF old) as (r & -> & ? & ?); [rewrite Hes; set_solver|by apply Ho|]. by exists r.
    - exists (with_key ins key). split_and!; [done|by apply wf_with_key|intros _; apply with_key_hkey|].
      rewrite kvs_with_key. apply (merges_app []). }
  destruct (ed_put ed key o es (λ opt, match opt with
      | Some old => r ← F old (with_key ins key); Some (Some r)
      | None => Some (Some (with_key ins key)) end) n)
    as (ed' & Hed & Hinv' & Hkids & Hd' & Ha'); try done.
  - intros k Hk. destruct (proj1 (proj1 Hm k) Hk) as [Hko|Hki]; [left; by apply elem_of_okeys|right].
    pose proof (keys_agree _ _ ins k Hwf Hki) as Hag. rewrite Hd.
    split; [|by apply Hag]. eapply agree_trans; [eapply agree_le; [|done]; lia|done].
  - exists ed'. split_and!; [done|done|congruence|by rewrite <-Hd| | |].
    + rewrite Hkids, Hes, length_app. destruct o; simpl; lia.
    + intros c. rewrite Hkids, Hes, elem_of_cons, elem_of_app. intros [->|?] Hne; [|by right].
      by rewrite with_key_hkey in Hne.
    + unfold ed_kvs. rewrite Hkids, Hes, bind_app. csimpl. rewrite kvs_with_key.
      replace (option_list o ≫= kvs) with (from_option kvs [] o) by (by destruct o; csimpl; rewrite ?app_nil_r).
      by apply merges_frame.
Qed.

(** The byte below which a subtree hangs at depth [d]. *)
Definition byte_at d c : N := tb (childleaf_key c) d.

(** The loop over the children of [other]: they hang below different bytes, so
    each meets a child the branch under edit had before the loop. *)
Lemma union_loop (F : head → head → option head) d cs (ed : branch_mut) :
  ed_inv ed → end_depth (ed_branch ed) = d → d < KEY_LEN → NoDup (byte_at d <$> cs) →
  (∀ c, c ∈ cs → wf c ∧ d < hend c ∧ agree d (childleaf_key c) (bytes (childleaf (ed_branch ed)))) →
  (∀ old c, old ∈ kids (ed_branch ed) → c ∈ cs → hkey old = byte_at d c → distinguishes UNIT old c) →
  (∀ old ins, wf old → wf ins → d < hend old → d < hend ins →
    agree d (childleaf_key old) (childleaf_key ins) → distinguishes UNIT old ins →
    ∃ r, F old ins = Some r ∧ wf r ∧ merges (kvs old) (kvs ins) (kvs r)) →
  ∃ ed', foldM (λ ed other_child,
      inserted ← with_start other_child (end_depth (ed_branch ed));
      modify_child rand_hash ed (hkey inserted) (λ opt,
        match opt with
        | Some old => r ← F old inserted; Some (Some r)
        | None => Some (Some inserted)
        end)) ed cs = Some ed' ∧ ed_inv ed' ∧ end_depth (ed_branch ed') = d ∧
    length (kids (ed_branch ed)) ≤ length (kids (ed_branch ed')) ∧
    merges (ed_kvs ed) (cs ≫= kvs) (ed_kvs ed').
Proof.
  revert ed. induction cs as [|c cs IH]; intros ed Hinv Hd HdK Hnd Hcs HQ HF.
  { exists ed. split_and!; [done..|]. by apply merges_left; intros k ?%elem_of_nil. }
  destruct (Hcs c) as (Hwf & Hend & Ha); [set_solver|]. cbn [foldM]. rewrite Hd.
  rewrite fmap_cons in Hnd. apply NoDup_cons in Hnd as [Hfresh Hnd].
  rewrite (with_start_spec rand_hash UNIT) by done. cbn [mbind option_bind]. rewrite with_key_hkey.
  destruct (union_step F ed d c Hinv Hd Hwf Hend Ha) as (ed1 & Hed1 & Hinv1 & Hd1 & Ha1 & Hl1 & Hold1 & Hm1).
  { intros old Hold Hkey. pose proof (ei_ok _ _ _ Hinv) as Hok.
    pose proof (bo_children _ _ _ _ _ Hok old Hold) as Hwfo.
    destruct (HF old (with_key c (tb (childleaf_key c) d))) as (r & Hr & Hwfr & Hm); try done.
    - by apply wf_with_key.
    - rewrite <-Hd. by eapply child_hend.
    - by rewrite hend_with_key.
    - unfold childleaf_key. rewrite childleaf_ptr_with_key.
      eapply agree_trans; [|apply agree_sym, Ha]. rewrite <-Hd.
      eapply bo_keys; [done|done|]. by eapply childleaf_key_in.
    - apply distinguishes_with_key, HQ; [done|by left|done].
    - exists r. rewrite kvs_with_key in Hm. done. }
  rewrite Hed1. cbn [mbind option_bind].
  destruct (IH ed1 Hinv1 Hd1 HdK Hnd) as (ed2 & Hed2 & Hinv2 & Hd2 & Hl2 & Hm2).
  - intros c' Hc'. destruct (Hcs c') as (? & ? & Ha'); [set_solver|]. split_and!; try done.
    eapply agree_trans; [done|]. by apply agree_sym.
  - intros old c' Hold Hc' Hb. apply HQ; [|by right|done]. apply Hold1; [done|].
    rewrite Hb. intros E. apply Hfresh. change (byte_at d c ∈ byte_at d <$> cs).
    replace (byte_at d c) with (byte_at d c') by done. by apply list_elem_of_fmap_2.
  - done.
  - exists ed2. split_and!; [done|done|done|lia|]. csimpl. by eapply merges_trans.
Qed.

(** ** How a pair of subtrees is settled

    The first lines of all four operations, for two value types. *)

Section pair.
Context {V' : Type} (UNIT' : V').
Abbreviation head' := (Branch.head Digest V').
Abbreviation wf' := (Branch.wf rand_hash UNIT').
Abbreviation keys' := (Branch.keys UNIT').
Abbreviation branch_ok' := (Branch.branch_ok rand_hash UNIT').

Lemma leaf_hash_key {W : Type} (UNIT0 : W) (h : Branch.head Digest W) :
  Branch.wf rand_hash UNIT0 h → is_leaf h → hhash h = ph_leaf (childleaf_key h).
Proof. by destruct 1. Qed.

(** Two full-depth heads that do not diverge carry the same key and digest. *)
Lemma same_leaf this (other' : head') : wf this → wf' other' → hend this = KEY_LEN → Branch.hend (KEY_LEN:=KEY_LEN) other' = KEY_LEN →
  agree KEY_LEN (childleaf_key this) (childleaf_key other') →
  is_leaf this ∧ is_leaf other' ∧ hhash this = hhash other' ∧
  ∀ k, k ∈ keys this ↔ k ∈ keys' other'.
Proof.
  intros Hwf Hwf' He He' Ha.
  assert (childleaf_key this = childleaf_key other') as E.
  { apply (tb_inj (O:=O)); [by eapply childleaf_key_ok..|]. intros d Hd. by apply Ha. }
  apply (wf_full_leaf rand_hash UNIT) in He; [|done].
  apply (wf_full_leaf rand_hash UNIT') in He'; [|done].
  rewrite (leaf_hash_key UNIT this), (leaf_hash_key UNIT' other') by done.
  rewrite (leaf_keys UNIT this), (leaf_keys UNIT' other') by done. by rewrite E.
Qed.

(** Two heads that diverge share no key. *)
Lemma diverged_disjoint this (other' : head') a d x y : wf this → wf' other' →
  agree a (childleaf_key this) (childleaf_key other') →
  first_divergence (KEY_LEN:=KEY_LEN) this other' a = Some (d, x, y) →
  ∀ k, k ∈ keys this → k ∉ keys' other'.
Proof.
  intros Hwf Hwf' Ha E k Hk Hk'.
  pose proof (first_divergence_spec rand_hash UNIT UNIT' this other' a Hwf Hwf' Ha) as Hfd.
  rewrite E in Hfd. destruct Hfd as (H1 & H2 & _ & -> & -> & Hne & _). apply Hne.
  rewrite <-(keys_agree _ _ this k Hwf Hk d H1). by apply (keys_agree _ _ other' k Hwf' Hk').
Qed.

Lemma same_fingerprint_keys this (other' : head') : distinguishes UNIT' this other' →
  same_fingerprint this other' = true → ∀ k, k ∈ keys this ↔ k ∈ keys' other'.
Proof. intros Hcf [_ E%bool_decide_eq_true]%andb_true_iff. apply Hcf; [apply subtrees_self..|done]. Qed.

Lemma branch_of_depth {W : Type} (UNIT0 : W) (h : Branch.head Digest W) :
  Branch.wf rand_hash UNIT0 h → Branch.hend (KEY_LEN:=KEY_LEN) h < KEY_LEN →
  ∃ e (b : Branch.branch Digest (Branch.head Digest W)), h = HBranch e b ∧
    Branch.branch_ok rand_hash UNIT0 (Branch.wf rand_hash UNIT0) b false ∧
    2 ≤ length (kids b).
Proof. destruct 1; simpl; [lia..|]. eauto. Qed.

Inductive pair_view this (other' : head') (a : nat) : Prop :=
  | pv_pair_same : is_archive_singleton_pair this other' = true →
      first_divergence (KEY_LEN:=KEY_LEN) this other' a = None →
      (∀ k, k ∈ keys this ↔ k ∈ keys' other') → pair_view this other' a
  | pv_pair_apart d x y : is_archive_singleton_pair this other' = true →
      first_divergence (KEY_LEN:=KEY_LEN) this other' a = Some (d, x, y) →
      (∀ k, k ∈ keys this → k ∉ keys' other') → pair_view this other' a
  | pv_same : is_archive_singleton_pair this other' = false → same_fingerprint this other' = true →
      (∀ k, k ∈ keys this ↔ k ∈ keys' other') → pair_view this other' a
  | pv_apart d x y : is_archive_singleton_pair this other' = false →
      same_fingerprint this other' = false →
      first_divergence (KEY_LEN:=KEY_LEN) this other' a = Some (d, x, y) →
      (∀ k, k ∈ keys this → k ∉ keys' other') → pair_view this other' a
  | pv_descend : is_archive_singleton_pair this other' = false →
      same_fingerprint this other' = false →
      first_divergence (KEY_LEN:=KEY_LEN) this other' a = None →
      agree (hend this `min` Branch.hend (KEY_LEN:=KEY_LEN) other') (childleaf_key this) (childleaf_key other') →
      (hend this `min` Branch.hend (KEY_LEN:=KEY_LEN) other' < KEY_LEN) → pair_view this other' a.

Lemma pair_cases this (other' : head') a :
  distinguishes UNIT' this other' → wf this → wf' other' →
  agree a (childleaf_key this) (childleaf_key other') → pair_view this other' a.
Proof.
  intros Hcf Hwf Hwf' Ha.
  pose proof (first_divergence_spec rand_hash UNIT UNIT' this other' a Hwf Hwf' Ha) as Hfd.
  pose proof (diverged_disjoint this other' a) as Hdis.
  pose proof (hend_le _ _ this Hwf) as Hle. pose proof (hend_le _ _ other' Hwf') as Hle'.
  destruct (first_divergence this other' a) as [[[d x] y]|] eqn:Efd.
  - destruct (is_archive_singleton_pair this other') eqn:Ep; [eapply pv_pair_apart; eauto|].
    destruct (same_fingerprint this other') eqn:Es; [|eapply pv_apart; eauto].
    apply pv_same; [done..|]. by eapply same_fingerprint_keys.
  - destruct (decide (hend this `min` Branch.hend (KEY_LEN:=KEY_LEN) other' < KEY_LEN)) as [Hlt|Hge].
    + destruct (is_archive_singleton_pair this other') eqn:Ep.
      { exfalso. assert (is_leaf this ∧ is_leaf other') as [Hl Hl'] by by destruct this, other'.
        apply (wf_full_leaf rand_hash UNIT) in Hl; [|done].
        apply (wf_full_leaf rand_hash UNIT') in Hl'; [|done]. lia. }
      destruct (same_fingerprint this other') eqn:Es; [|by apply pv_descend].
      apply pv_same; [done..|]. by eapply same_fingerprint_keys.
    + assert (hend this = KEY_LEN) as E1 by lia.
      assert (Branch.hend (KEY_LEN:=KEY_LEN) other' = KEY_LEN) as E2 by lia.
      rewrite E1, E2, Nat.min_id in Hfd.
      destruct (same_leaf this other') as (Hl & Hl' & Eh & Hk); try done.
      destruct (is_archive_singleton_pair this other') eqn:Ep; [by apply pv_pair_same|].
      apply pv_same; [done| |done]. unfold same_fingerprint. rewrite bool_decide_eq_true_2 by done.
      by destruct this, other'.
Qed.
End pair.

Lemma ed_from_branch e b : branch_ok wf b false → ed_inv (mkEd b false) ∧
  from_head (HBranch e b) = Some (mkEd b false) ∧ ed_kvs (mkEd b false) = kvs (HBranch e b).
Proof. intros Hok. split_and!; [by split|done|]. unfold ed_kvs. by rewrite kvs_branch. Qed.

Lemma commit_ed ed e : ed_inv ed → 2 ≤ length (kids (ed_branch ed)) →
  ∃ h, ed_drop (KEY_LEN:=KEY_LEN) rand_hash e ed = Some h ∧ wf h ∧ kvs h = ed_kvs ed ∧ hkey h = e.
Proof.
  intros Hinv Hlen. destruct (ed_drop_spec rand_hash UNIT ed e Hinv) as (b & -> & Hok & Hk & _).
  eexists. split_and!; [done| | |done].
  - constructor; [done|]. by rewrite Hk.
  - rewrite kvs_branch. unfold ed_kvs. by rewrite Hk.
Qed.

(** The three ways a pair is settled without descending. *)
Lemma union_diverged this other a d x y : wf this → wf other →
  agree a (childleaf_key this) (childleaf_key other) →
  first_divergence (KEY_LEN:=KEY_LEN) this other a = Some (d, x, y) →
  ∃ b, new_with_child_hashes d (with_key this x) (with_key other y) (hhash this) (hhash other) = Some b ∧
    wf (HBranch (hkey this) b) ∧ merges (kvs this) (kvs other) (kvs (HBranch (hkey this) b)).
Proof.
  intros Hwf Hwf' Ha E. pose proof (first_divergence_spec rand_hash UNIT UNIT this other a Hwf Hwf' Ha) as Hfd.
  rewrite E in Hfd. destruct Hfd as (H1 & H2 & H3 & -> & -> & Hne & Hag).
  destruct (split_spec rand_hash UNIT this other d (hkey this)) as (b & Hb & Hwfb & Hkv & _ & _); try done.
  exists b. split_and!; [done..|]. rewrite Hkv. apply merges_app.
Qed.

Lemma merges_same this other : (∀ k, k ∈ keys this ↔ k ∈ keys other) →
  merges (kvs this) (kvs other) (kvs this).
Proof. intros E. apply merges_left. intros k. apply E. Qed.

(** The arm where [top] ends before [sub]: [sub] goes below one edge of [top]. *)
Lemma union_below (F : head → head → option head) e b sub :
  branch_ok wf b false → 2 ≤ length (kids b) → wf sub → end_depth b < hend sub →
  agree (end_depth b) (bytes (childleaf b)) (childleaf_key sub) →
  distinguishes UNIT (HBranch e b) sub →
  (∀ old ins, wf old → wf ins → end_depth b < hend old → end_depth b < hend ins →
    agree (end_depth b) (childleaf_key old) (childleaf_key ins) → distinguishes UNIT old ins →
    ∃ r, F old ins = Some r ∧ wf r ∧ merges (kvs old) (kvs ins) (kvs r)) →
  ∃ r, (ed ← from_head (HBranch e b);
      inserted ← with_start sub (end_depth (ed_branch ed));
      ed ← modify_child rand_hash ed (hkey inserted) (λ opt,
        match opt with
        | Some old => r ← F old inserted; Some (Some r)
        | None => Some (Some inserted)
        end);
      ed_drop (KEY_LEN:=KEY_LEN) rand_hash e ed) = Some r ∧ wf r ∧
    merges (kvs (HBranch e b)) (kvs sub) (kvs r).
Proof.
  intros Hok Hlen Hwf Hend Ha Hcf HF. destruct (ed_from_branch e b Hok) as (Hinv & -> & Hkv).
  cbn [mbind option_bind]. pose proof (bo_depth _ _ _ _ _ Hok) as Hd.
  destruct (union_loop F (end_depth b) [sub] (mkEd b false)) as (ed & Hed & Hinv' & _ & Hl & Hm); try done.
  - apply NoDup_singleton.
  - intros c ->%list_elem_of_singleton. split_and!; try done. by apply agree_sym.
  - intros old c Hold ->%list_elem_of_singleton _. by eapply distinguishes_left.
  - cbn [foldM] in Hed. simpl ed_branch in Hed |- *.
    destruct (with_start sub (end_depth b)) as [inserted|]; [|done].
    cbn [mbind option_bind] in Hed |- *.
    destruct (modify_child _ _ _ _) as [ed'|]; [|done]. cbn [mbind option_bind] in Hed |- *.
    injection Hed as ->. destruct (commit_ed ed e Hinv') as (r & -> & Hwfr & Hkr & _); [simpl in Hl; lia|].
    exists r. split_and!; [done..|]. rewrite Hkr. rewrite Hkv in Hm. csimpl in Hm. by rewrite app_nil_r in Hm.
Qed.

(** The edge byte of a child is the byte its keys have there. *)
Lemma kids_byte b c : branch_ok wf b false → c ∈ kids b → byte_at (end_depth b) c = hkey c.
Proof.
  intros Hok Hc. eapply bo_keys; [exact Hok|done|]. apply (childleaf_key_in rand_hash). by eapply bo_children.
Qed.

Lemma kids_bytes_NoDup b : branch_ok wf b false → NoDup (byte_at (end_depth b) <$> kids b).
Proof.
  intros Hok. replace (byte_at (end_depth b) <$> kids b) with (hkey <$> kids b); [apply Hok|].
  apply list_fmap_ext. intros i c Hc%list_elem_of_lookup_2. symmetry. by apply kids_byte.
Qed.

(** The equal-depth arm. *)
Lemma union_merge (F : head → head → option head) e1 b1 e2 b2 :
  branch_ok wf b1 false → branch_ok wf b2 false → 2 ≤ length (kids b1) →
  end_depth b1 = end_depth b2 →
  agree (end_depth b1) (bytes (childleaf b1)) (bytes (childleaf b2)) →
  distinguishes UNIT (HBranch e1 b1) (HBranch e2 b2) →
  (∀ old ins, wf old → wf ins → end_depth b1 < hend old → end_depth b1 < hend ins →
    agree (end_depth b1) (childleaf_key old) (childleaf_key ins) → distinguishes UNIT old ins →
    ∃ r, F old ins = Some r ∧ wf r ∧ merges (kvs old) (kvs ins) (kvs r)) →
  ∃ r, (ed ← from_head (HBranch e1 b1);
      ed ← foldM (λ ed other_child,
        inserted ← with_start other_child (end_depth (ed_branch ed));
        modify_child rand_hash ed (hkey inserted) (λ opt,
          match opt with
          | Some old => r ← F old inserted; Some (Some r)
          | None => Some (Some inserted)
          end)) ed (kids b2);
      ed_drop (KEY_LEN:=KEY_LEN) rand_hash e1 ed) = Some r ∧ wf r ∧
    merges (kvs (HBranch e1 b1)) (kvs (HBranch e2 b2)) (kvs r).
Proof.
  intros Hok1 Hok2 Hlen Hd Hag Hcf HF.
  destruct (ed_from_branch e1 b1 Hok1) as (Hinv & -> & Hkv). cbn [mbind option_bind].
  destruct (union_loop F (end_depth b1) (kids b2) (mkEd b1 false))
    as (ed & Hed & Hinv' & _ & Hl & Hm); try done.
  - apply (bo_depth _ _ _ _ _ Hok1).
  - rewrite Hd. by apply kids_bytes_NoDup.
  - intros c Hc. pose proof (bo_children _ _ _ _ _ Hok2 c Hc) as Hwfc. split_and!.
    + done.
    + rewrite Hd. by eapply child_hend.
    + eapply agree_trans; [|by apply agree_sym]. rewrite Hd.
      eapply bo_keys; [done|done|]. by eapply childleaf_key_in.
  - intros old c Hold Hc _. eapply distinguishes_left, distinguishes_right; done.
  - rewrite Hed. cbn [mbind option_bind].
    destruct (commit_ed ed e1 Hinv') as (r & -> & Hwfr & Hkr & _); [simpl in Hl; lia|].
    exists r. split_and!; [done..|]. by rewrite Hkr, (kvs_branch UNIT e2 b2), <-Hkv.
Qed.

Lemma union_spec fuel this other a :
  distinguishes UNIT this other → wf this → wf other →
  KEY_LEN - (hend this `min` hend other) < fuel →
  agree a (childleaf_key this) (childleaf_key other) →
  ∃ r, union (KEY_LEN:=KEY_LEN) rand_hash fuel this other a = Some r ∧ wf r ∧
    merges (kvs this) (kvs other) (kvs r).
Proof.
  revert this other a.
  induction fuel as [|fuel IH]; intros this other a Hcf Hwf Hwf' Hfuel Ha; [lia|].
  cbn [union]. destruct (pair_cases UNIT this other a Hcf Hwf Hwf' Ha)
    as [-> -> Hk | d x y -> Efd _ | -> -> Hk | d x y -> -> Efd _ | -> -> -> Hag Hd].
  - exists this. split_and!; [done..|]. by apply merges_same.
  - rewrite Efd. destruct (union_diverged this other a d x y) as (b & -> & Hwfb & Hm); try done.
    cbn [mbind option_bind]. eauto.
  - exists this. split_and!; [done..|]. by apply merges_same.
  - rewrite Efd. destruct (union_diverged this other a d x y) as (b & Hb & Hwfb & Hm); try done.
    unfold branch_new, new_with_rchild_hash. rewrite !hhash_with_key, Hb. cbn [mbind option_bind]. eauto.
  - assert (∀ d, hend this `min` hend other = d → ∀ old ins, wf old → wf ins → d < hend old →
      d < hend ins → agree d (childleaf_key old) (childleaf_key ins) → distinguishes UNIT old ins →
      ∃ r, union (KEY_LEN:=KEY_LEN) rand_hash fuel old ins d = Some r ∧ wf r ∧
        merges (kvs old) (kvs ins) (kvs r)) as HF.
    { intros d <- old ins ??????. apply IH; try done. lia. }
    destruct (Nat.ltb_spec (hend this) (hend other)) as [Hlt|Hge].
    { destruct (branch_of_depth UNIT this Hwf) as (e & b & -> & Hok & Hlen); [lia|]. simpl in *.
      rewrite Nat.min_l in * by lia.
      by apply (union_below (λ old ins, union (KEY_LEN:=KEY_LEN) rand_hash fuel old ins (end_depth b)));
        try done; apply HF. }
    destruct (Nat.ltb_spec (hend other) (hend this)) as [Hlt|Hge'].
    { destruct (branch_of_depth UNIT other Hwf') as (e & b & -> & Hok & Hlen); [lia|]. simpl hend in *.
      rewrite Nat.min_r in * by lia.
      destruct (union_below (λ old ins, union (KEY_LEN:=KEY_LEN) rand_hash fuel old ins (end_depth b))
        e b this) as (r & Hr & Hwfr & Hm); try done; [by apply agree_sym|by apply distinguishes_sym|by apply HF|].
      revert Hr. cbn [from_head mbind option_bind ed_branch hkey].
      destruct (with_start this _) as [ins|]; cbn [mbind option_bind]; [|done].
      destruct (modify_child _ _ _ _) as [ed|]; cbn [mbind option_bind]; [|done].
      intros ->. cbn [mbind option_bind]. eexists. split_and!; [done|by apply wf_with_key|].
      rewrite kvs_with_key. by apply merges_comm. }
    assert (hend this = hend other) as Heq by lia. rewrite <-Heq, Nat.min_id in *.
    destruct (branch_of_depth UNIT this Hwf) as (e & b & -> & Hok & Hlen); [lia|].
    destruct (branch_of_depth UNIT other Hwf') as (e' & b' & -> & Hok' & Hlen'); [lia|]. simpl hend in *.
    destruct (_ <? _).
    + destruct (union_merge (λ old ins, union (KEY_LEN:=KEY_LEN) rand_hash fuel old ins (end_depth b))
        e' b' e b) as (r & Hr & ? & Hm); try done;
        [by rewrite <-Heq; apply agree_sym|by apply distinguishes_sym|by rewrite <-Heq; apply HF|].
      exists r. split_and!; [exact Hr|done|]. by apply merges_comm.
    + apply (union_merge (λ old ins, union (KEY_LEN:=KEY_LEN) rand_hash fuel old ins (end_depth b))
        e b e' b'); try done. by apply HF.
Qed.

(** ** Intersection *)

Lemma filter_mapM_spec {A B C} (f : A → option (option B)) (l : list A) (g : A → C) (g' : B → C) :
  (∀ x, x ∈ l → ∃ o, f x = Some o ∧ ∀ y, o = Some y → g' y = g x) → NoDup (g <$> l) →
  ∃ ys, filter_mapM f l = Some ys ∧ NoDup (g' <$> ys) ∧
    ∀ y, y ∈ ys ↔ ∃ x, x ∈ l ∧ f x = Some (Some y).
Proof.
  induction l as [|x l IH]; intros Hf Hnd.
  { exists []. split_and!; [done|constructor|]. set_solver. }
  apply NoDup_cons in Hnd as [Hx Hnd]. fold (g <$> l) in Hx, Hnd.
  destruct IH as (ys & Hys & Hndy & Hin); [set_solver|done|].
  destruct (Hf x) as (o & Ho & Hg); [set_solver|]. cbn [filter_mapM]. rewrite Ho, Hys.
  cbn [mbind option_bind]. eexists. split; [done|]. destruct o as [y|].
  - split.
    + rewrite fmap_cons. constructor; [|done]. rewrite (Hg y eq_refl).
      intros (y' & E & Hy')%list_elem_of_fmap. apply Hin in Hy' as (x' & Hx' & Hfx').
      destruct (Hf x') as (o' & Ho' & Hg'); [set_solver|]. apply Hx. rewrite E.
      rewrite Ho' in Hfx'. injection Hfx' as ->. rewrite (Hg' y' eq_refl). by apply list_elem_of_fmap_2.
    + intros y'. rewrite elem_of_cons, Hin. split.
      * intros [->|(x' & ? & ?)]; [exists x|exists x']; set_solver.
      * intros (x' & [->|Hx']%elem_of_cons & E); [left; congruence|right; eauto].
  - split; [done|]. intros y'. rewrite Hin. split.
    + intros (x' & ? & ?). exists x'. set_solver.
    + intros (x' & [->|Hx']%elem_of_cons & E); [congruence|eauto].
Qed.

Lemma byte_at_with_key d c e : byte_at d (with_key c e) = byte_at d c.
Proof. unfold byte_at, childleaf_key. by rewrite childleaf_ptr_with_key. Qed.

Lemma keys_byte d c k : wf c → d < hend c → k ∈ keys c →
  agree d k (childleaf_key c) ∧ tb k d = byte_at d c.
Proof.
  intros Hwf Hd Hk. pose proof (keys_agree _ _ c k Hwf Hk) as Hag.
  split; [eapply agree_le; [|done]; lia|by apply Hag].
Qed.

Lemma collect_loop d cs (ed : branch_mut) :
  ed_inv ed → end_depth (ed_branch ed) = d → d < KEY_LEN →
  (∀ c, c ∈ cs → wf c ∧ d < hend c ∧
    agree d (childleaf_key c) (bytes (childleaf (ed_branch ed)))) →
  NoDup ((byte_at d <$> cs) ++ (hkey <$> kids (ed_branch ed))) →
  ∃ ed', foldM (λ ed child, inserted ← with_start child d;
      modify_child rand_hash ed (hkey inserted) (λ _, Some (Some inserted))) ed cs = Some ed' ∧
    ed_inv ed' ∧ ed_kvs ed' ≡ₚ ed_kvs ed ++ (cs ≫= kvs) ∧
    length (kids (ed_branch ed)) ≤ length (kids (ed_branch ed')).
Proof.
  revert ed. induction cs as [|c cs IH]; intros ed Hinv Hd HdK Hcs Hnd.
  { exists ed. split_and!; [done|done| |done]. csimpl. by rewrite app_nil_r. }
  destruct (Hcs c) as (Hwf & Hend & Ha); [set_solver|].
  rewrite fmap_cons in Hnd. apply NoDup_cons in Hnd as [Hfresh Hnd]. cbn [foldM].
  rewrite (with_start_spec rand_hash UNIT) by done. cbn [mbind option_bind].
  rewrite with_key_hkey. fold (byte_at d c).
  destruct (ed_put ed (byte_at d c) None (kids (ed_branch ed))
    (λ _, Some (Some (with_key c (byte_at d c)))) (with_key c (byte_at d c)))
    as (ed1 & -> & Hinv1 & Hk1 & Hd1 & Ha1); try done.
  - set_solver.
  - by apply wf_with_key.
  - intros k. rewrite keys_with_key. intros Hk. right.
    destruct (keys_byte d c k) as [H1 H2]; try done. rewrite Hd. split; [|done].
    by eapply agree_trans.
  - intros _. apply with_key_hkey.
  - assert (with_key (with_key c (byte_at d c)) (byte_at d c) = with_key c (byte_at d c)) as Ekk
      by by destruct c.
    rewrite Ekk in Hk1. cbn [mbind option_bind].
    destruct (IH ed1) as (ed2 & -> & Hinv2 & Hkv2 & Hl2).
    + done.
    + by rewrite Hd1.
    + done.
    + intros c' Hc'. destruct (Hcs c') as (? & ? & Ha'); [set_solver|]. split_and!; [done..|].
      eapply agree_trans; [done|]. apply agree_sym. by rewrite <-Hd.
    + rewrite Hk1, fmap_cons, with_key_hkey. rewrite <-Permutation_middle. by constructor.
    + exists ed2. split_and!; [done..| |].
      * rewrite Hkv2. unfold ed_kvs. rewrite Hk1. csimpl. rewrite kvs_with_key.
        rewrite <-!app_assoc. rewrite Permutation_app_swap_app. done.
      * etrans; [|done]. rewrite Hk1. simpl. lia.
Qed.

Lemma collect_spec d cs k0 : d < KEY_LEN →
  (∀ c, c ∈ cs → wf c ∧ d < hend c ∧ agree d (childleaf_key c) k0) →
  NoDup (byte_at d <$> cs) →
  ∃ r, collect (KEY_LEN:=KEY_LEN) rand_hash d cs = Some r ∧ (∀ h, r = Some h → wf h) ∧
    from_option kvs [] r ≡ₚ cs ≫= kvs.
Proof.
  intros Hd Hcs Hnd. destruct cs as [|c1 [|c2 cs]].
  - exists None. split_and!; [done..|]. done.
  - exists (Some c1). split_and!; [done| |csimpl; by rewrite app_nil_r].
    intros ? [= <-]. by apply Hcs; left.
  - destruct (Hcs c1) as (Hwf1 & He1 & Ha1); [set_solver|].
    destruct (Hcs c2) as (Hwf2 & He2 & Ha2); [set_solver|].
    cbn [collect]. rewrite !(with_start_spec rand_hash UNIT) by done. cbn [mbind option_bind].
    fold (byte_at d c1) (byte_at d c2). unfold branch_new, new_with_rchild_hash.
    rewrite !fmap_cons in Hnd. apply NoDup_cons in Hnd as [Hn1 Hnd]. apply NoDup_cons in Hnd as [Hn2 Hnd].
    destruct (new_with_child_hashes_spec rand_hash UNIT d (with_key c1 (byte_at d c1))
      (with_key c2 (byte_at d c2))) as (b & -> & Hok & Hkids & Hed & Hcl & _).
    + by apply wf_with_key.
    + by apply wf_with_key.
    + done.
    + rewrite !with_key_hkey. set_solver.
    + intros k. rewrite keys_with_key, with_key_hkey. unfold childleaf_key.
      rewrite childleaf_ptr_with_key. by apply keys_byte.
    + intros k. rewrite keys_with_key, with_key_hkey. unfold childleaf_key at 1.
      rewrite childleaf_ptr_with_key. intros Hk. destruct (keys_byte d c2 k) as [H1 H2]; try done.
      split; [|done]. eapply agree_trans; [done|]. eapply agree_trans; [done|]. by apply agree_sym.
    + cbn [mbind option_bind from_head].
      destruct (ed_from_branch 0%N b Hok) as (Hinv & _ & Hkv).
      destruct (collect_loop d cs (mkEd b false) Hinv) as (ed & -> & Hinv' & Hkv' & Hl'); simpl.
      * done.
      * done.
      * intros c Hc. destruct (Hcs c) as (? & ? & Ha); [set_solver|]. split_and!; [done..|].
        rewrite Hcl, childleaf_ptr_with_key. eapply agree_trans; [done|]. by apply agree_sym.
      * rewrite Hkids. csimpl. rewrite !with_key_hkey.
        rewrite (Permutation_app_comm _ [_; _]). simpl. constructor; [set_solver|].
        constructor; [set_solver|done].
      * destruct (commit_ed ed 0%N Hinv') as (r & -> & Hwfr & Hkr & _).
        { simpl in Hl'. rewrite Hkids in Hl'. done. }
        cbn [mbind option_bind]. eexists. split_and!; [done|by intros ? [= <-]|]. simpl.
        rewrite Hkr, Hkv', Hkv, kvs_branch, Hkids. csimpl. by rewrite !kvs_with_key, app_nil_r, app_assoc.
Qed.

(** Looking up the child for a byte. *)
Lemma table_get_child e b x : branch_ok wf b false →
  ∃ o, table_get hkey rand_hash (child_table b) x = Some o ∧
    (∀ c, o = Some c → c ∈ kids b ∧ wf c ∧ end_depth b < hend c ∧ hkey c = x ∧
      agree (end_depth b) (childleaf_key c) (bytes (childleaf b)) ∧
      ∀ k, k ∈ keys c → k ∈ keys (HBranch e b)) ∧
    ∀ k v, tb k (end_depth b) = x →
      ((k, v) ∈ kvs (HBranch e b) ↔ (k, v) ∈ from_option kvs [] o).
Proof.
  intros Hok. destruct (kids_split rand_hash UNIT b false x Hok) as (o & es & Hes & Ho & Hfresh).
  exists o. split_and!; [by eapply table_get_kids| |].
  - intros c Hc. assert (c ∈ kids b) as Hin by (rewrite Hes, Hc; set_solver).
    pose proof (bo_children _ _ _ _ _ Hok c Hin) as Hwf. split_and!; [done..| | | |].
    + by eapply child_hend.
    + by apply Ho.
    + eapply bo_keys; [done|done|]. by eapply childleaf_key_in.
    + intros k Hk. apply elem_of_keys_branch. eauto.
  - intros k v Hk. by eapply kvs_in_child.
Qed.

Lemma keys_of_kvs (h : head) (o : option head) k :
  (∀ v, (k, v) ∈ kvs h ↔ (k, v) ∈ from_option kvs [] o) →
  k ∈ keys h ↔ ∃ c, o = Some c ∧ k ∈ keys c.
Proof.
  intros Hiff. rewrite elem_of_keys. setoid_rewrite Hiff. destruct o as [c|]; simpl.
  - rewrite <-elem_of_keys. naive_solver.
  - setoid_rewrite elem_of_nil. naive_solver.
Qed.

Definition okeys (o : option head) k : Prop := ∃ c, o = Some c ∧ k ∈ keys c.

Lemma okeys_kvs (o : option head) k : okeys o k ↔ ∃ v, (k, v) ∈ from_option kvs [] o.
Proof.
  unfold okeys. split.
  - intros (c & -> & Hk). by apply elem_of_keys in Hk.
  - destruct o as [c|]; simpl; [|set_solver]. intros Hk. exists c. by rewrite elem_of_keys.
Qed.

End spec.
