(* ===== verification/Overlap.v ===== *)
(** * Overlap: correctness of intersection, difference and inclusion

    Source: [triblespace-core/src/patch.rs], [Head::intersect],
    [Head::difference] and [Head::inclusion], as defined in [Algebra].

    The three walk two tries in lockstep.  This file proves what they return,
    for operands whose cached fingerprints tell their subtrees apart
    ([distinguishes]); the difference is proved for two value types, as the source has it. *)

From S2P Require Import Prelude ByteTable KeySchema PatchHash Branch Head Algebra.

Open Scope nat_scope.

Section lockstep.
Context {KEY_LEN : nat} {O : KeySchema KEY_LEN} `{!KeySchemaOk KEY_LEN O}.
Context {H : PatchHash} `{!PatchHashOk H} {V V' : Type}.
Context (rand_hash : N → N) (UNIT : V) (UNIT' : V').
Abbreviation head := (head Digest V).
Abbreviation head' := (Branch.head Digest V').
Abbreviation kvs := (kvs UNIT).
Abbreviation keys := (keys UNIT).
Abbreviation wf := (wf rand_hash UNIT).
Abbreviation branch_ok := (branch_ok rand_hash UNIT).
Abbreviation okeys := (okeys UNIT).
Abbreviation kvs' := (Branch.kvs UNIT').
Abbreviation keys' := (Branch.keys UNIT').
Abbreviation wf' := (Branch.wf rand_hash UNIT').
Abbreviation branch_ok' := (Branch.branch_ok rand_hash UNIT').
Abbreviation okeys' := (Algebra.okeys UNIT').
Abbreviation kids b := (entries (child_table b)).
Abbreviation hend := (hend (KEY_LEN:=KEY_LEN)).
Implicit Types (k : list N).

(** The child of [b'] that a child of [b] meets at equal depth. *)
Lemma pairwise e b e' (b' : Branch.branch Digest head') (c : head) :
  branch_ok wf b false → branch_ok' wf' b' false → end_depth b = end_depth b' →
  agree (end_depth b) (bytes (childleaf b)) (bytes (childleaf b')) → c ∈ kids b →
  ∃ o, table_get Branch.hkey rand_hash (child_table b') (hkey c) = Some o ∧
    (∀ c', o = Some c' → c' ∈ kids b' ∧ Branch.hkey c' = hkey c ∧ wf' c' ∧ end_depth b < hend c ∧
      end_depth b < Branch.hend (KEY_LEN:=KEY_LEN) c' ∧
      agree (end_depth b) (childleaf_key c) (childleaf_key c') ∧
      ∀ k, k ∈ keys' c' → k ∈ keys' (HBranch e' b')) ∧
    (∀ k, k ∈ keys c → (k ∈ keys' (HBranch e' b') ↔ okeys' o k)) ∧
    (∀ k, k ∈ keys c → k ∈ keys (HBranch e b)).
Proof.
  intros Hok Hok' Hd Hag Hc.
  destruct (table_get_child rand_hash UNIT' e' b' (hkey c) Hok') as (o & Ho & Hoc & Hkv).
  exists o. split_and!; [done| | |].
  - intros c' Hc'. destruct (Hoc c' Hc') as (Hin & ? & ? & ? & Ha & ?).
    rewrite <-Hd in *. split_and!; [done|done|done| |done| |done].
    + by eapply (child_hend rand_hash UNIT b false c Hok Hc).
    + eapply agree_trans; [|eapply agree_trans; [exact Hag|by apply agree_sym]].
      eapply bo_keys; [exact Hok|done|]. eapply (childleaf_key_in rand_hash). by eapply bo_children.
  - intros k Hk. apply keys_of_kvs. intros v. apply Hkv. rewrite <-Hd.
    by destruct (bo_keys _ _ _ _ _ Hok c k Hc Hk).
  - intros k Hk. apply elem_of_keys_branch. eauto.
Qed.

(** Descending into the one child of [b'] that [sub] can meet. *)
Lemma one_child e (b' : Branch.branch Digest head') (sub : head) x o :
  branch_ok' wf' b' false → wf sub → end_depth b' < hend sub → x = byte_at (end_depth b') sub →
  (∀ k v, tb k (end_depth b') = x → ((k, v) ∈ kvs' (HBranch e b') ↔ (k, v) ∈ from_option kvs' [] o)) →
  ∀ k, k ∈ keys sub → k ∈ keys' (HBranch e b') ↔ okeys' o k.
Proof.
  intros Hok Hwf Hend -> Hkv k Hk. apply keys_of_kvs. intros v. apply Hkv.
  by apply (keys_byte rand_hash UNIT).
Qed.

(** The collection phase: the surviving children of [b], each within its own
    byte, become the result. *)
Lemma gather (F : head → option (option head)) b :
  branch_ok wf b false →
  (∀ c, c ∈ kids b → ∃ r, F c = Some r ∧ (∀ h, r = Some h → wf h) ∧ ∀ k, okeys r k → k ∈ keys c) →
  ∃ cs r, filter_mapM F (kids b) = Some cs ∧
    collect (KEY_LEN:=KEY_LEN) rand_hash (end_depth b) cs = Some r ∧ (∀ h, r = Some h → wf h) ∧
    ∀ kv, kv ∈ from_option kvs [] r ↔ ∃ c h, c ∈ kids b ∧ F c = Some (Some h) ∧ kv ∈ kvs h.
Proof.
  intros Hok HF. pose proof (bo_depth _ _ _ _ _ Hok) as Hd.
  destruct (filter_mapM_spec F (kids b) hkey (byte_at (end_depth b))) as (cs & Hcs & Hnd & Hin).
  { intros c Hc. destruct (HF c Hc) as (r & Hr & Hwfr & Hkr). exists r. split; [done|].
    intros y ->. assert (okeys (Some y) (childleaf_key y)) as Hy%Hkr.
    { exists y. split; [done|]. eapply (childleaf_key_in rand_hash). by apply Hwfr. }
    unfold byte_at. by destruct (bo_keys _ _ _ _ _ Hok c _ Hc Hy). }
  { apply Hok. }
  destruct (collect_spec rand_hash UNIT (end_depth b) cs (bytes (childleaf b)))
    as (r & Hr & Hwfr & Hkvr); [done| |done|].
  { intros y Hy. apply Hin in Hy as (c & Hc & E). destruct (HF c Hc) as (r & Hr & Hwfr & Hkr).
    assert (r = Some y) as -> by congruence. pose proof (Hwfr y eq_refl) as Hwfy.
    assert (∀ k, k ∈ keys y → agree (end_depth b) k (bytes (childleaf b)) ∧ tb k (end_depth b) = hkey c)
      as Hsub by (intros k Hk; eapply bo_keys; [done|done|]; apply Hkr; by exists y).
    split_and!; [done| |].
    - apply (hend_lower rand_hash UNIT y (S (end_depth b)) Hwfy); [done|]. intros k k' [H1 H2]%Hsub [H3 H4]%Hsub.
      apply agree_S; [|congruence]. eapply agree_trans; [done|by apply agree_sym].
    - apply Hsub. by eapply childleaf_key_in. }
  exists cs, r. split_and!; [done..|]. intros kv. rewrite Hkvr, list_elem_of_bind. split.
  - intros (y & Hkv & Hy). apply Hin in Hy as (c & ? & ?). eauto.
  - intros (c & h & Hc & E & Hkv). exists h. split; [done|]. apply Hin. eauto.
Qed.
End lockstep.

(** ** Intersection *)

Section intersection.
Context {KEY_LEN : nat} {O : KeySchema KEY_LEN} `{!KeySchemaOk KEY_LEN O}.
Context {H : PatchHash} `{!PatchHashOk H} {V : Type}.
Context (rand_hash : N → N) (UNIT : V).
Abbreviation head := (head Digest V).
Abbreviation kvs := (kvs UNIT).
Abbreviation keys := (keys UNIT).
Abbreviation wf := (wf rand_hash UNIT).
Abbreviation branch_ok := (branch_ok rand_hash UNIT).
Abbreviation okeys := (okeys UNIT).
Abbreviation kids b := (entries (child_table b)).
Abbreviation hend := (hend (KEY_LEN:=KEY_LEN)).
Implicit Types (k : list N) (this other h : head).

(** The result of an intersection: the common keys, each with the value one
    side has for it. *)
Definition meets this other (r : option head) : Prop :=
  (∀ h, r = Some h → wf h) ∧ (∀ k, okeys r k ↔ k ∈ keys this ∧ k ∈ keys other) ∧
  (∀ kv, kv ∈ from_option kvs [] r → kv ∈ kvs this ∨ kv ∈ kvs other).

Lemma meets_comm this other r : meets this other r → meets other this r.
Proof. intros (H1 & H2 & H3). split_and!; [done|firstorder|]. intros kv Hkv. destruct (H3 kv Hkv); auto. Qed.

Lemma okeys_None k : okeys None k ↔ False.
Proof. unfold okeys. naive_solver. Qed.

Lemma okeys_Some h k : okeys (Some h) k ↔ k ∈ keys h.
Proof. unfold okeys. naive_solver. Qed.

Lemma meets_none this other : (∀ k, k ∈ keys this → k ∉ keys other) → meets this other None.
Proof.
  intros Hk. split_and!; [done| |set_solver]. intros k. rewrite okeys_None. naive_solver.
Qed.

Lemma meets_same this other : wf this → (∀ k, k ∈ keys this ↔ k ∈ keys other) →
  meets this other (Some this).
Proof.
  intros Hwf Hk. split_and!; [by intros ? [= <-]| |by auto].
  intros k. rewrite okeys_Some, <-Hk. tauto.
Qed.

(** What [sub] shares with [top] it shares with the one child it can meet. *)
Lemma meets_within sub top (o : option head) r :
  (∀ c, o = Some c → (∀ k, k ∈ keys c → k ∈ keys top) ∧ ∀ kv, kv ∈ kvs c → kv ∈ kvs top) →
  (∀ k, k ∈ keys sub → (k ∈ keys top ↔ okeys o k)) →
  match o with Some c => meets sub c r | None => r = None end → meets sub top r.
Proof.
  intros Hsub Hone Hr. destruct o as [c|].
  - destruct (Hsub c eq_refl) as [Hk Hkv]. destruct Hr as (H1 & H2 & H3). split_and!; [done| |].
    + intros k. rewrite H2. split; [naive_solver|]. intros [Hk1 Hk2]. split; [done|].
      by apply Hone, okeys_Some in Hk2.
    + intros kv Hr. destruct (H3 kv Hr); auto.
  - subst r. apply meets_none. intros k Hk Hk'. apply Hone, okeys_None in Hk'; done.
Qed.

Lemma intersect_below fuel e b sub : 
  branch_ok wf b false → wf sub → end_depth b < hend sub →
  agree (end_depth b) (bytes (childleaf b)) (childleaf_key sub) →
  (∀ c, c ∈ kids b → wf c → end_depth b < hend c → agree (end_depth b) (childleaf_key sub) (childleaf_key c) →
    (∀ k, k ∈ keys c → k ∈ keys (HBranch e b)) →
    ∃ r, intersect (KEY_LEN:=KEY_LEN) rand_hash fuel sub c (end_depth b) = Some r ∧ meets sub c r) →
  ∃ r, (x ← tree_byte (childleaf_key sub) (end_depth b);
        o ← table_get hkey rand_hash (child_table b) x;
        match o with
        | Some c => intersect (KEY_LEN:=KEY_LEN) rand_hash fuel sub c (end_depth b)
        | None => Some None
        end) = Some r ∧ meets sub (HBranch e b) r.
Proof.
  intros Hok Hwf Hend Hag IH. pose proof (bo_depth _ _ _ _ _ Hok) as Hd.
  rewrite (tree_byte_tb (O:=O)) by (done || by eapply childleaf_key_ok). cbn [mbind option_bind].
  fold (byte_at (end_depth b) sub).
  destruct (table_get_child rand_hash UNIT e b (byte_at (end_depth b) sub) Hok) as (o & -> & Hoc & Hkv).
  cbn [mbind option_bind]. pose proof (one_child rand_hash UNIT UNIT e b sub _ o Hok Hwf Hend eq_refl Hkv) as Hone.
  assert (∀ c, o = Some c → (∀ k, k ∈ keys c → k ∈ keys (HBranch e b)) ∧
    ∀ kv, kv ∈ kvs c → kv ∈ kvs (HBranch e b)) as Hsub.
  { intros c Hc. destruct (Hoc c Hc) as (Hin & _ & _ & _ & _ & ?). split; [done|].
    intros [k v] ?. apply elem_of_kvs_branch; eauto. }
  destruct o as [c|].
  - destruct (Hoc c eq_refl) as (Hc & Hwfc & Hendc & _ & Hac & Hk).
    destruct (IH c Hc Hwfc Hendc) as (r & -> & Hr); [|done|].
    { eapply agree_trans; [apply agree_sym, Hag|by apply agree_sym]. }
    exists r. split; [done|]. by eapply (meets_within _ _ (Some c)).
  - exists None. split; [done|]. by eapply (meets_within _ _ None).
Qed.

Lemma intersect_spec fuel this other a :
  distinguishes UNIT UNIT this other → wf this → wf other →
  KEY_LEN - (hend this `min` hend other) < fuel →
  agree a (childleaf_key this) (childleaf_key other) →
  ∃ r, intersect (KEY_LEN:=KEY_LEN) rand_hash fuel this other a = Some r ∧ meets this other r.
Proof.
  revert this other a.
  induction fuel as [|fuel IH]; intros this other a Hcf Hwf Hwf' Hfuel Ha; [lia|].
  cbn [intersect].
  destruct (pair_cases rand_hash UNIT UNIT this other a Hcf Hwf Hwf' Ha)
    as [-> -> Hk | d x y -> -> Hk | -> -> Hk | d x y -> -> -> Hk | -> -> -> Hag Hd].
  1,3: eexists; split; [done|by apply meets_same].
  1,2: eexists; split; [done|by apply meets_none].
  destruct (Nat.ltb_spec (hend this) (hend other)) as [Hlt|Hge].
  { destruct (branch_of_depth rand_hash UNIT this Hwf) as (e & b & -> & Hok & Hlen); [lia|].
    simpl hend in *. rewrite Nat.min_l in * by lia.
    destruct (intersect_below fuel e b other) as (r & Hr & Hm); try done.
    - intros c Hc Hwfc Hendc Hac Hk. apply IH; try done; [|lia].
      by eapply distinguishes_sym, distinguishes_left.
    - exists r. split; [exact Hr|by apply meets_comm]. }
  destruct (Nat.ltb_spec (hend other) (hend this)) as [Hlt|Hge'].
  { destruct (branch_of_depth rand_hash UNIT other Hwf') as (e & b & -> & Hok & Hlen); [lia|].
    simpl hend in *. rewrite Nat.min_r in * by lia.
    apply (intersect_below fuel e b this); try done; [by apply agree_sym|].
    intros c Hc Hwfc Hendc Hac Hk. apply IH; try done; [by eapply distinguishes_right|lia]. }
  assert (hend this = hend other) as Heq by lia. rewrite <-Heq, Nat.min_id in *.
  destruct (branch_of_depth rand_hash UNIT this Hwf) as (e & b & -> & Hok & Hlen); [lia|].
  destruct (branch_of_depth rand_hash UNIT other Hwf') as (e' & b' & -> & Hok' & Hlen'); [lia|].
  simpl hend in *.
  set (F := λ self_child, o ← table_get hkey rand_hash (child_table b') (hkey self_child);
    match o with
    | Some other_child => intersect (KEY_LEN:=KEY_LEN) rand_hash fuel self_child other_child (end_depth b)
    | None => Some None
    end).
  assert (∀ c, c ∈ kids b → ∃ r, F c = Some r ∧ meets c (HBranch e' b') r) as HF.
  { intros c Hc. destruct (pairwise rand_hash UNIT UNIT e b e' b' c Hok Hok' Heq Hag Hc)
      as (o & Ho & Hoc & Hone & Hck). unfold F. rewrite Ho. cbn [mbind option_bind].
    destruct o as [c'|]; [|exists None; split; [done|by eapply (meets_within _ _ None)]].
    destruct (Hoc c' eq_refl) as (Hin' & _ & Hwfc' & Hend & Hend' & Hac & Hk').
    destruct (IH c c' (end_depth b)) as (r & -> & Hr); try done;
      [by eapply distinguishes_left, distinguishes_right|by apply (bo_children _ _ _ _ _ Hok)|lia|].
    exists r. split; [done|]. eapply (meets_within _ _ (Some c')); [|done|done].
    intros ? [= <-]. split; [done|]. intros [k v] ?. apply elem_of_kvs_branch; eauto. }
  destruct (gather rand_hash UNIT F b Hok) as (cs & r & -> & Hr & Hwfr & Hkvr).
  { intros c Hc. destruct (HF c Hc) as (r & Hr & Hwfr & Hkr & _). exists r. split_and!; [done..|].
    intros k. rewrite Hkr. tauto. }
  cbn [mbind option_bind]. rewrite Hr. exists r. split; [done|]. split_and!; [done| |].
  - intros k. rewrite okeys_kvs. setoid_rewrite Hkvr. split.
    + intros (v & c & h & Hc & Hh & Hv). destruct (HF c Hc) as (r' & Hr' & _ & Hk & _).
      assert (r' = Some h) as -> by congruence. destruct (proj1 (Hk k)) as [H1 H2].
      { apply okeys_Some, elem_of_keys. eauto. }
      split; [apply elem_of_keys_branch; eauto|done].
    + intros [(c & Hc & Hk)%elem_of_keys_branch Hk']. destruct (HF c Hc) as (r' & Hr' & _ & Hkr & _).
      destruct (proj2 (Hkr k)) as (h & -> & [v Hv]%elem_of_keys); [done|]. eauto 10.
  - intros kv. rewrite Hkvr. intros (c & h & Hc & Hh & Hv). destruct (HF c Hc) as (r' & Hr' & _ & _ & Hkv).
    assert (r' = Some h) as -> by congruence. destruct (Hkv kv Hv) as [?|?]; [left|by right].
    destruct kv. apply elem_of_kvs_branch; eauto.
Qed.
End intersection.

(** ** Difference *)

Section difference.
Context {KEY_LEN : nat} {O : KeySchema KEY_LEN} `{!KeySchemaOk KEY_LEN O}.
Context {H : PatchHash} `{!PatchHashOk H} {V V' : Type}.
Context (rand_hash : N → N) (UNIT : V) (UNIT' : V').
Abbreviation head := (head Digest V).
Abbreviation head' := (Branch.head Digest V').
Abbreviation kvs := (kvs UNIT).
Abbreviation keys := (keys UNIT).
Abbreviation wf := (wf rand_hash UNIT).
Abbreviation branch_ok := (branch_ok rand_hash UNIT).
Abbreviation keys' := (Branch.keys UNIT').
Abbreviation wf' := (Branch.wf rand_hash UNIT').
Abbreviation branch_ok' := (Branch.branch_ok rand_hash UNIT').
Abbreviation kids b := (entries (child_table b)).
Abbreviation hend := (hend (KEY_LEN:=KEY_LEN)).
Abbreviation hend' := (Branch.hend (KEY_LEN:=KEY_LEN)).
Implicit Types (k : list N) (this h : head) (other : head').

(** The result of a difference: the entries of [l] whose key is not in [other]. *)
Definition leaves (l : list (list N * V)) other (r : option head) : Prop :=
  (∀ h, r = Some h → wf h) ∧
  ∀ k v, (k, v) ∈ from_option kvs [] r ↔ (k, v) ∈ l ∧ k ∉ keys' other.

Lemma leaves_same this other : (∀ k, k ∈ keys this ↔ k ∈ keys' other) → leaves (kvs this) other None.
Proof.
  intros Hk. split; [done|]. intros k v. simpl. rewrite <-Hk, elem_of_keys.
  split; [set_solver|]. intros [? []]. eauto.
Qed.

Lemma leaves_all this other : wf this → (∀ k, k ∈ keys this → k ∉ keys' other) →
  leaves (kvs this) other (Some this).
Proof.
  intros Hwf Hk. split; [by intros ? [= <-]|]. intros k v. simpl. split; [|tauto].
  intros Hkv. split; [done|]. apply Hk, elem_of_keys. eauto.
Qed.

(** Only the child [o] of the other side matters to [this]. *)
Lemma leaves_within this top (o : option head') r :
  (∀ k, k ∈ keys this → (k ∈ keys' top ↔ okeys UNIT' o k)) → wf this →
  match o with Some c => leaves (kvs this) c r | None => r = Some this end → leaves (kvs this) top r.
Proof.
  intros Hone Hwf Hr. destruct o as [c|].
  - destruct Hr as [H1 H2]. split; [done|]. intros k v. rewrite H2.
    assert ((k, v) ∈ kvs this → (k ∈ keys' top ↔ k ∈ keys' c)) as Hkc.
    { intros Hkv. rewrite Hone by (apply elem_of_keys; eauto). unfold okeys. naive_solver. }
    naive_solver.
  - subst r. apply leaves_all; [done|]. intros k Hk Hk'. apply Hone in Hk' as (? & ? & _); done.
Qed.

(** The arm where [this] ends first: the child at one edge byte shrinks, and a
    branch left with a single child dissolves into it. *)
Lemma shrink_below (F : option head → option (option head)) e b key o es n a :
  branch_ok wf b false → 2 ≤ length (kids b) → a < KEY_LEN →
  kids b ≡ₚ option_list o ++ es → (∀ c, o = Some c → hkey c = key) → key ∉ hkey <$> es →
  F o = Some n → (o = None → n = None) →
  (∀ h, n = Some h → wf h ∧ ∀ k, k ∈ keys h → k ∈ from_option keys [] o) →
  ∃ r, (ed ← from_head (HBranch e b);
        ed ← modify_child rand_hash ed key F;
        if length (take 2 (kids (ed_branch ed))) <=? 1 then
          match take_first (child_table (ed_branch ed)) with
          | (Some child, t) =>
              remaining ← with_start child a;
              _ ← ed_drop (KEY_LEN:=KEY_LEN) rand_hash e (mkEd (set_table (ed_branch ed) t) (hash_dirty ed));
              Some (Some remaining)
          | (None, t) =>
              _ ← ed_drop (KEY_LEN:=KEY_LEN) rand_hash e (mkEd (set_table (ed_branch ed) t) (hash_dirty ed));
              Some None
          end
        else h ← ed_drop (KEY_LEN:=KEY_LEN) rand_hash e ed; Some (Some h)) = Some r ∧
    (∀ h, r = Some h → wf h) ∧ from_option kvs [] r ≡ₚ from_option kvs [] n ++ (es ≫= kvs).
Proof.
  intros Hok Hlen HaK Hes Ho Hfresh HF Hvac Hn.
  destruct (ed_from_branch rand_hash UNIT e b Hok) as (Hinv0 & -> & _). cbn [mbind option_bind].
  pose proof (Permutation_length Hes) as Hl. rewrite length_app in Hl.
  assert (es ≠ []) as Hesne by (intros ->; destruct o; simpl in *; lia).
  unfold modify_child.
  destruct (ed_modify_spec rand_hash UNIT None (mkEd b false) key o n es
    (λ o, r ← F o; Some (r, tt)) tt) as (ed & -> & Hinv & Hkids & _); try done.
  { by rewrite HF. }
  { intros c ->. destruct (Hn c eq_refl) as [Hwfc Hk]. split; [|naive_solver]. split; [done|].
    intros k Hk'%Hk. destruct o as [c0|]; simpl in Hk'; [|set_solver]. rewrite <-(Ho c0 eq_refl).
    eapply bo_keys; [done| |done]. simpl. rewrite Hes. set_solver. }
  { intros [_ ?]%app_eq_nil. done. }
  cbn [mbind option_bind]. rewrite length_take.
  set (kidlist := option_list ((λ c, with_key c key) <$> n) ++ es) in *.
  pose proof (Permutation_length Hkids) as Hklen. rewrite Hklen.
  destruct (Nat.leb_spec (2 `min` length kidlist) 1) as [E1|E1].
  - assert (n = None ∧ ∃ x, es = [x]) as [-> [x ->]].
    { unfold kidlist in E1. destruct n, es as [|? [|]]; simpl in E1; try done; [lia..|eauto|lia]. }
    unfold kidlist in *. simpl in Hkids, Hklen.
    destruct (kids (ed_branch ed)) as [|y [|]] eqn:Ek; [done| |done].
    apply Permutation_singleton_l in Hkids as [= E]. subst y.
    destruct (take_first_spec _ _ _ Ek) as (t & -> & Ht).
    assert (wf x) as Hwfx by (apply (bo_children _ _ _ _ _ Hok); rewrite Hes; set_solver).
    rewrite (with_start_spec rand_hash UNIT) by done. cbn [mbind option_bind].
    destruct (ed_drop_empty rand_hash (mkEd (set_table (ed_branch ed) t) (hash_dirty ed)) e)
      as [h' ->]; [done|].
    cbn [mbind option_bind]. eexists. split_and!; [done| |].
    + intros ? [= <-]. by apply wf_with_key.
    + simpl. csimpl. by rewrite kvs_with_key, app_nil_r.
  - destruct (commit_spec rand_hash UNIT ed e n es key Hinv Hkids) as (b' & -> & Hwf' & Hkv' & _).
    { assert (length kidlist = length (option_list n ++ es)) as <-; [|lia].
      unfold kidlist. rewrite !length_app. by destruct n. }
    cbn [mbind option_bind]. eexists. split_and!; [done|by intros ? [= <-]|]. simpl. by rewrite Hkv'.
Qed.

Lemma difference_below e b key other r :
  branch_ok wf b false → wf' other → end_depth b < hend' other →
  key = byte_at (end_depth b) other →
  ∀ o es n, kids b ≡ₚ option_list o ++ es → key ∉ hkey <$> es →
  match o with Some c => leaves (kvs c) other n | None => n = None end →
  from_option kvs [] r ≡ₚ from_option kvs [] n ++ (es ≫= kvs) → (∀ h, r = Some h → wf h) →
  leaves (kvs (HBranch e b)) other r.
Proof.
  intros Hok Hwf' Hend -> o es n Hes Hfresh Hn Hr Hwfr. split; [done|]. intros k v.
  rewrite Hr, (kvs_split UNIT b e o es Hes), !elem_of_app.
  assert ((k, v) ∈ es ≫= kvs → k ∉ keys' other) as Hdis.
  { intros (c & Hkv & Hc)%list_elem_of_bind Hk'. apply Hfresh.
    destruct (keys_byte rand_hash UNIT' (end_depth b) other k Hwf' Hend Hk') as [_ <-].
    assert (c ∈ kids b) as Hin by (rewrite Hes; set_solver).
    destruct (bo_keys _ _ _ _ _ Hok c k Hin) as [_ ->]; [apply elem_of_keys; eauto|].
    by apply list_elem_of_fmap_2. }
  destruct o as [c|]; simpl.
  - destruct Hn as [_ Hn]. rewrite Hn. naive_solver.
  - subst n. simpl. rewrite elem_of_nil. naive_solver.
Qed.

Lemma difference_spec fuel this other a :
  distinguishes UNIT UNIT' this other → wf this → wf' other →
  KEY_LEN - (hend this `min` hend' other) < fuel → a < KEY_LEN → a ≤ hend' other →
  agree a (childleaf_key this) (childleaf_key other) →
  ∃ r, difference (KEY_LEN:=KEY_LEN) rand_hash fuel this other a = Some r ∧ leaves (kvs this) other r.
Proof.
  revert this other a.
  induction fuel as [|fuel IH]; intros this other a Hcf Hwf Hwf' Hfuel HaK Hao Ha; [lia|].
  cbn [difference].
  destruct (pair_cases rand_hash UNIT UNIT' this other a Hcf Hwf Hwf' Ha)
    as [-> -> Hk | d x y -> -> Hk | -> -> Hk | d x y -> -> -> Hk | -> -> -> Hag Hd].
  1,3: eexists; split; [done|by apply leaves_same].
  1,2: eexists; split; [done|by apply leaves_all].
  destruct (Nat.ltb_spec (hend this) (hend' other)) as [Hlt|Hge].
  { destruct (branch_of_depth rand_hash UNIT this Hwf) as (e & b & -> & Hok & Hlen); [lia|].
    simpl hend in *. rewrite Nat.min_l in * by lia.
    rewrite (tree_byte_tb (O:=O)) by (done || by eapply childleaf_key_ok). cbn [mbind option_bind].
    fold (byte_at (end_depth b) other). set (key := byte_at (end_depth b) other).
    destruct (kids_split rand_hash UNIT b false key Hok) as (o & es & Hes & Ho & Hfresh).
    set (F := λ opt : option head, match opt with
      | Some child => difference (KEY_LEN:=KEY_LEN) rand_hash fuel child other (end_depth b)
      | None => Some None end).
    assert (∃ n, F o = Some n ∧ match o with Some c => leaves (kvs c) other n | None => n = None end)
      as (n & Hn & Hleft).
    { destruct o as [c|]; [|by exists None].
      assert (c ∈ kids b) as Hc by (rewrite Hes; set_solver).
      pose proof (bo_children _ _ _ _ _ Hok c Hc) as Hwfc.
      pose proof (child_hend rand_hash UNIT b false c Hok Hc).
      apply IH; try done; [|lia|lia|].
      - by eapply distinguishes_left.
      - eapply agree_trans; [|exact Hag]. eapply bo_keys; [done|done|]. by eapply childleaf_key_in. }
    destruct (shrink_below F e b key o es n a) as (r & Hr & Hwfr & Hkr); try done.
    - intros ->. done.
    - intros h ->. destruct o as [c|]; [|done]. destruct Hleft as [Hw Hl]. split; [by apply Hw|].
      intros k [v Hv]%elem_of_keys. simpl. apply elem_of_keys. exists v. by apply Hl.
    - exists r. split; [exact Hr|]. by eapply difference_below. }
  destruct (Nat.ltb_spec (hend' other) (hend this)) as [Hlt|Hge'].
  { destruct (branch_of_depth rand_hash UNIT' other Hwf') as (e & b & -> & Hok & Hlen); [lia|].
    simpl hend' in *. rewrite Nat.min_r in * by lia.
    rewrite (tree_byte_tb (O:=O)) by (done || by eapply childleaf_key_ok). cbn [mbind option_bind].
    fold (byte_at (end_depth b) this).
    destruct (table_get_child rand_hash UNIT' e b (byte_at (end_depth b) this) Hok)
      as (o & -> & Hoc & Hkv).
    cbn [mbind option_bind].
    pose proof (one_child rand_hash UNIT UNIT' e b this _ o Hok Hwf Hlt eq_refl Hkv) as Hone.
    destruct o as [c|]; [|exists (Some this); split; [done|by eapply (leaves_within _ _ None)]].
    destruct (Hoc c eq_refl) as (Hc & Hwfc & Hendc & _ & Hac & Hk).
    destruct (IH this c a) as (r & -> & Hr); try done; [by eapply distinguishes_right|lia|simpl in Hao; lia| |].
    - eapply agree_trans; [exact Ha|]. apply agree_sym. by eapply agree_le; [|exact Hac].
    - exists r. split; [done|]. by eapply (leaves_within _ _ (Some c)). }
  assert (hend this = hend' other) as Heq by lia. rewrite <-Heq, Nat.min_id in *.
  destruct (branch_of_depth rand_hash UNIT this Hwf) as (e & b & -> & Hok & Hlen); [lia|].
  destruct (branch_of_depth rand_hash UNIT' other Hwf') as (e' & b' & -> & Hok' & Hlen'); [lia|].
  simpl hend in *. simpl hend' in *.
  set (F := λ self_child, o ← table_get Branch.hkey rand_hash (child_table b') (hkey self_child);
    match o with
    | Some other_child => difference (KEY_LEN:=KEY_LEN) rand_hash fuel self_child other_child (end_depth b)
    | None => Some (Some self_child)
    end).
  assert (∀ c, c ∈ kids b → ∃ r, F c = Some r ∧ leaves (kvs c) (HBranch e' b') r) as HF.
  { intros c Hc. pose proof (bo_children _ _ _ _ _ Hok c Hc) as Hwfc.
    destruct (pairwise rand_hash UNIT UNIT' e b e' b' c Hok Hok' Heq Hag Hc)
      as (o & Ho & Hoc & Hone & Hck). unfold F. rewrite Ho. cbn [mbind option_bind].
    destruct o as [c'|]; [|exists (Some c); split; [done|by eapply (leaves_within _ _ None)]].
    destruct (Hoc c' eq_refl) as (Hin' & _ & Hwfc' & Hend & Hend' & Hac & Hk').
    destruct (IH c c' (end_depth b)) as (r & -> & Hr); try done;
      [by eapply distinguishes_left, distinguishes_right|lia|lia|].
    exists r. split; [done|]. by eapply (leaves_within _ _ (Some c')). }
  destruct (gather rand_hash UNIT F b Hok) as (cs & r & -> & Hr & Hwfr & Hkvr).
  { intros c Hc. destruct (HF c Hc) as (r & Hr & Hwfr & Hkr). exists r. split_and!; [done..|].
    intros k (v & Hv%Hkr)%okeys_kvs. apply elem_of_keys. exists v. apply Hv. }
  cbn [mbind option_bind]. rewrite Hr. exists r. split; [done|]. split; [done|]. intros k v.
  rewrite Hkvr, elem_of_kvs_branch. split.
  - intros (c & h & Hc & Hh & Hv). destruct (HF c Hc) as (r' & Hr' & _ & Hk).
    assert (r' = Some h) as -> by congruence. apply Hk in Hv as [? ?]. eauto.
  - intros [(c & Hc & Hv) Hk']. destruct (HF c Hc) as (r' & Hr' & _ & Hk).
    pose proof (proj2 (Hk k v) (conj Hv Hk')) as Hin. destruct r' as [h|]; [|simpl in Hin; set_solver].
    eauto 10.
Qed.
End difference.

(** ** Inclusion *)

(** The two verdicts an order carries: "this is contained in other" and the
    converse; [None] denies both. *)
Definition flip_order (r : option comparison) : option comparison := CompOpp <$> r.
Definition below (r : option comparison) : bool :=
  match r with Some (Eq | Lt) => true | _ => false end.
Definition above (r : option comparison) : bool :=
  match r with Some (Eq | Gt) => true | _ => false end.

Lemma meet_verdicts l r :
  below (mjoin (meet l r)) = below l && below r ∧ above (mjoin (meet l r)) = above l && above r.
Proof. by destruct l as [[]|], r as [[]|]. Qed.

Lemma meet_loop {A} (f : A → option (option comparison)) (g : A → option comparison) l acc :
  (∀ x, x ∈ l → f x = Some (g x)) →
  ∃ acc', foldM (meet_step f) acc l = Some acc' ∧
    below (mjoin acc') = below (mjoin acc) && forallb (below ∘ g) l ∧
    above (mjoin acc') = above (mjoin acc) && forallb (above ∘ g) l.
Proof.
  revert acc. induction l as [|x l IH]; intros acc Hf.
  { exists acc. by rewrite !andb_true_r. }
  cbn [foldM forallb]. destruct acc as [order|]; cbn [meet_step].
  - rewrite (Hf x) by set_solver. cbn [mbind option_bind].
    destruct (IH (meet order (g x))) as (acc' & -> & Hb & Ha); [set_solver|].
    exists acc'. destruct (meet_verdicts order (g x)) as [Hmb Hma]. split; [done|].
    by rewrite Hb, Ha, Hmb, Hma, <-!andb_assoc.
  - cbn [mbind option_bind]. destruct (IH None) as (acc' & -> & Hb & Ha); [set_solver|]. by exists acc'.
Qed.

Lemma forallb_True_in {A} (f : A → bool) l : forallb f l = true ↔ ∀ x, x ∈ l → f x = true.
Proof. rewrite forallb_forall. by setoid_rewrite list_elem_of_In. Qed.

(** The second loop: a child only the other side has makes the order at most [Lt]. *)
Lemma missing_loop {A B} (f : A → option (option B)) (t : A → option B) l acc :
  (∀ x, x ∈ l → f x = Some (t x)) →
  ∃ acc', foldM (λ acc x, o ← f x;
      match acc, o with
      | Some order, None => Some (meet order (Some Lt))
      | _, _ => Some acc
      end) acc l = Some acc' ∧
    below (mjoin acc') = below (mjoin acc) ∧
    above (mjoin acc') = above (mjoin acc) && forallb (λ x, bool_decide (is_Some (t x))) l.
Proof.
  revert acc. induction l as [|x l IH]; intros acc Hf.
  { exists acc. by rewrite andb_true_r. }
  cbn [foldM forallb]. rewrite (Hf x) by set_solver. cbn [mbind option_bind].
  destruct (t x) as [y|] eqn:Et.
  - rewrite bool_decide_eq_true_2 by by eexists. destruct (IH acc) as (acc' & Hacc & ?); [set_solver|].
    exists acc'. by destruct acc; cbn [mbind option_bind].
  - rewrite bool_decide_eq_false_2 by by intros []. rewrite andb_false_r. destruct acc as [order|].
    + cbn [mbind option_bind]. destruct (IH (meet order (Some Lt))) as (acc' & -> & Hb & Ha); [set_solver|].
      exists acc'. destruct (meet_verdicts order (Some Lt)) as [Hmb Hma].
      rewrite Hb, Ha, Hmb, Hma, andb_true_r, andb_false_r. done.
    + cbn [mbind option_bind]. destruct (IH None) as (acc' & -> & Hb & Ha); [set_solver|]. by exists acc'.
Qed.

Section inclusion.
Context {KEY_LEN : nat} {O : KeySchema KEY_LEN} `{!KeySchemaOk KEY_LEN O}.
Context {H : PatchHash} `{!PatchHashOk H} {V : Type}.
Context (rand_hash : N → N) (UNIT : V).
Abbreviation head := (head Digest V).
Abbreviation kvs := (kvs UNIT).
Abbreviation keys := (keys UNIT).
Abbreviation wf := (wf rand_hash UNIT).
Abbreviation branch_ok := (branch_ok rand_hash UNIT).
Abbreviation okeys := (okeys UNIT).
Abbreviation kids b := (entries (child_table b)).
Abbreviation hend := (hend (KEY_LEN:=KEY_LEN)).
Implicit Types (k : list N) (this other h : head).

Definition subset this other : Prop := ∀ k, k ∈ keys this → k ∈ keys other.

(** [r] is the order of the two key sets under inclusion. *)
Definition ordered this other (r : option comparison) : Prop :=
  (subset this other ↔ below r = true) ∧ (subset other this ↔ above r = true).

Lemma ordered_same this other : (∀ k, k ∈ keys this ↔ k ∈ keys other) → ordered this other (Some Eq).
Proof. intros Hk. unfold ordered, subset. naive_solver. Qed.

Lemma ordered_apart this other : wf this → wf other →
  (∀ k, k ∈ keys this → k ∉ keys other) → ordered this other None.
Proof.
  intros Hwf Hwf' Hk. pose proof (childleaf_key_in rand_hash UNIT this Hwf).
  pose proof (childleaf_key_in rand_hash UNIT other Hwf'). unfold ordered, subset.
  split; (split; [intros Hs; exfalso|done]); naive_solver.
Qed.

Lemma ordered_flip this other r : ordered this other r → ordered other this (flip_order r).
Proof. unfold ordered. destruct r as [[]|]; simpl; tauto. Qed.

(** A branch is not contained in what hangs below one of its bytes. *)
Lemma branch_not_below e b x other : branch_ok wf b false → 2 ≤ length (kids b) →
  (∀ k, k ∈ keys other → tb k (end_depth b) = x) → ¬ subset (HBranch e b) other.
Proof.
  intros Hok Hlen Hx Hs.
  assert (∃ c, c ∈ kids b ∧ hkey c ≠ x) as (c & Hc & Hne).
  { pose proof (ok_unique _ _ _ (bo_table _ _ _ _ _ Hok)) as Hnd.
    destruct (kids b) as [|c1 [|c2 l]]; [simpl in Hlen; lia..|].
    apply NoDup_cons in Hnd as [Hn _]. destruct (decide (hkey c1 = x)) as [<-|?].
    - exists c2. split; [set_solver|]. intros E. apply Hn. rewrite <-E. csimpl. by left.
    - exists c1. split; [set_solver|done]. }
  pose proof (childleaf_key_in rand_hash UNIT c (bo_children _ _ _ _ _ Hok c Hc)) as Hk.
  apply Hne. destruct (bo_keys _ _ _ _ _ Hok c _ Hc Hk) as [_ <-]. apply Hx, Hs.
  apply elem_of_keys_branch. eauto.
Qed.

(** The two arms of unequal depth: [top] is a branch, [sub] hangs below one of
    its bytes, where [top] has the child [o]. *)
Lemma ordered_within e b sub (o : option head) r :
  branch_ok wf b false → 2 ≤ length (kids b) → wf sub → end_depth b < hend sub →
  (∀ c, o = Some c → ∀ k, k ∈ keys c → k ∈ keys (HBranch e b)) →
  (∀ k, k ∈ keys sub → (k ∈ keys (HBranch e b) ↔ okeys o k)) →
  match o with Some c => ordered c sub r | None => r = None end →
  ordered (HBranch e b) sub (if above r then Some Gt else None).
Proof.
  intros Hok Hlen Hwf Hend Hsub Hone Hr.
  assert (¬ subset (HBranch e b) sub) as Hnot.
  { eapply (branch_not_below e b (byte_at (end_depth b) sub)); [done..|].
    intros k Hk. by apply (keys_byte rand_hash UNIT). }
  assert (subset sub (HBranch e b) ↔ above r = true) as Hab.
  { destruct o as [c|].
    - destruct Hr as [_ <-]. unfold subset. split; intros Hs k Hk.
      + specialize (Hs k Hk). apply Hone in Hs as (? & [= <-] & ?); done.
      + by apply (Hsub c eq_refl), Hs.
    - subst r. split; [|done]. intros Hs. exfalso.
      pose proof (childleaf_key_in rand_hash UNIT sub Hwf) as Hk.
      specialize (Hs _ Hk). apply Hone in Hs as (? & ? & _); done. }
  unfold ordered. destruct (above r); (split; [split; [intros ?; contradiction|done]|exact Hab]).
Qed.

Lemma table_get_member b c : branch_ok wf b false → c ∈ kids b →
  table_get hkey rand_hash (child_table b) (hkey c) = Some (Some c).
Proof.
  intros Hok Hc. destruct (kids_split rand_hash UNIT b false (hkey c) Hok) as (o & es & Hes & Ho & Hfresh).
  rewrite (table_get_kids rand_hash UNIT b false (hkey c) o es) by done. do 2 f_equal.
  rewrite Hes in Hc. apply elem_of_app in Hc as [Hc|Hc].
  - destruct o as [c'|]; simpl in Hc; [|set_solver]. by apply list_elem_of_singleton in Hc as ->.
  - destruct Hfresh. by apply list_elem_of_fmap_2.
Qed.

Section merge.
Context (e : N) (b : Branch.branch Digest head) (e' : N) (b' : Branch.branch Digest head).
Context (Hok : branch_ok wf b false) (Hok' : branch_ok wf b' false).
Context (Hd : end_depth b = end_depth b').
Context (Hag : agree (end_depth b) (bytes (childleaf b)) (bytes (childleaf b'))).

(** The children two branches of equal depth have below the byte of [c]. *)
Definition partner (c : head) : option head :=
  default None (table_get hkey rand_hash (child_table b') (hkey c)).
Definition partner_of (c' : head) : option head :=
  default None (table_get hkey rand_hash (child_table b) (hkey c')).

Lemma partner_spec c : c ∈ kids b →
  table_get hkey rand_hash (child_table b') (hkey c) = Some (partner c) ∧
  (∀ c', partner c = Some c' → c' ∈ kids b' ∧ partner_of c' = Some c) ∧
  (∀ k, k ∈ keys c → (k ∈ keys (HBranch e' b') ↔ okeys (partner c) k)).
Proof using KeySchemaOk0 PatchHashOk0 e e' Hok Hok' Hd Hag.
  intros Hc. destruct (pairwise rand_hash UNIT UNIT e b e' b' c Hok Hok' Hd Hag Hc) as (o & Ho & Hoc & Hone & _).
  unfold partner. rewrite Ho. simpl. split_and!; [done| |done].
  intros c' Hc'. destruct (Hoc c' Hc') as (Hin & Hk & _). split; [done|].
  unfold partner_of. by rewrite Hk, table_get_member.
Qed.

Lemma partner_of_spec c' : c' ∈ kids b' →
  table_get hkey rand_hash (child_table b) (hkey c') = Some (partner_of c') ∧
  (∀ c, partner_of c' = Some c → c ∈ kids b ∧ partner c = Some c') ∧
  (∀ k, k ∈ keys c' → (k ∈ keys (HBranch e b) ↔ okeys (partner_of c') k)).
Proof using KeySchemaOk0 PatchHashOk0 e e' Hok Hok' Hd Hag.
  intros Hc. assert (agree (end_depth b') (bytes (childleaf b')) (bytes (childleaf b))) as Hag'.
  { rewrite <-Hd. by apply agree_sym. }
  destruct (pairwise rand_hash UNIT UNIT e' b' e b c' Hok' Hok (eq_sym Hd) Hag' Hc) as (o & Ho & Hoc & Hone & _).
  unfold partner_of. rewrite Ho. simpl. split_and!; [done| |done].
  intros c Hc'. destruct (Hoc c Hc') as (Hin & Hk & _). split; [done|].
  unfold partner. by rewrite Hk, table_get_member.
Qed.

(** Containment, child by child. *)
Lemma subset_children : subset (HBranch e b) (HBranch e' b') ↔
  ∀ c, c ∈ kids b → ∃ c', partner c = Some c' ∧ subset c c'.
Proof using KeySchemaOk0 PatchHashOk0 e e' Hok Hok' Hd Hag.
  unfold subset. split.
  - intros Hs c Hc. destruct (partner_spec c Hc) as (_ & _ & Hone).
    assert (∀ k, k ∈ keys c → okeys (partner c) k) as Hk.
    { intros k Hk. apply Hone; [done|]. apply Hs, elem_of_keys_branch. eauto. }
    destruct (Hk (childleaf_key c)) as (c' & Hc' & _).
    { apply (childleaf_key_in rand_hash). by apply (bo_children _ _ _ _ _ Hok). }
    exists c'. split; [done|]. intros k (? & ? & ?)%Hk. by simplify_eq.
  - intros Hs k (c & Hc & Hk)%elem_of_keys_branch. destruct (partner_spec c Hc) as (_ & _ & Hone).
    apply Hone; [done|]. destruct (Hs c Hc) as (c' & Hc' & Hsub). exists c'. auto.
Qed.
End merge.

Lemma subset_children_of e b e' b' : branch_ok wf b false → branch_ok wf b' false →
  end_depth b = end_depth b' → agree (end_depth b) (bytes (childleaf b)) (bytes (childleaf b')) →
  subset (HBranch e' b') (HBranch e b) ↔
    (∀ c c', c ∈ kids b → partner b' c = Some c' → subset c' c) ∧
    ∀ c', c' ∈ kids b' → is_Some (partner_of b c').
Proof.
  intros Hok Hok' Hd Hag. rewrite (subset_children e' b' e b); [|done..| |].
  2:{ done. } 2:{ rewrite <-Hd. by apply agree_sym. }
  pose proof (partner_spec e b e' b' Hok Hok' Hd Hag) as Hp.
  pose proof (partner_of_spec e b e' b' Hok Hok' Hd Hag) as Hp'.
  change (partner b) with (partner_of b). split.
  - intros Hs. split.
    + intros c c' Hc Hc'. destruct (Hp c Hc) as (_ & Hpc & _). destruct (Hpc c' Hc') as [Hin E].
      destruct (Hs c' Hin) as (c0 & E' & ?). by simplify_eq.
    + intros c' Hc'. destruct (Hs c' Hc') as (c & -> & _). by eexists.
  - intros [Hs Hsome] c' Hc'. destruct (Hsome c' Hc') as [c E].
    destruct (Hp' c' Hc') as (_ & Hpc & _). destruct (Hpc c E). exists c. split; [done|]. by apply Hs.
Qed.

(** The equal-depth arm. [order] is what the recursive call answers on a pair
    of children. *)
Lemma ordered_merge (F : head → option (option comparison)) (g : head → option comparison)
    e b e' b' :
  branch_ok wf b false → branch_ok wf b' false → end_depth b = end_depth b' →
  agree (end_depth b) (bytes (childleaf b)) (bytes (childleaf b')) →
  (∀ c, c ∈ kids b → F c = Some (g c) ∧
    match partner b' c with Some c' => ordered c c' (g c) | None => g c = Some Gt end) →
  ∃ acc acc', foldM (meet_step F) (Some (Some Eq)) (kids b) = Some acc ∧
    foldM (λ acc other_child,
      o ← table_get hkey rand_hash (child_table b) (hkey other_child);
      match acc, o with
      | Some order, None => Some (meet order (Some Lt))
      | _, _ => Some acc
      end) acc (kids b') = Some acc' ∧
    ordered (HBranch e b) (HBranch e' b') (mjoin acc').
Proof.
  intros Hok Hok' Hd Hag HF.
  destruct (meet_loop F g (kids b) (Some (Some Eq))) as (acc & Hacc & Hb & Ha).
  { intros c Hc. by apply HF. }
  destruct (missing_loop (λ c : head, table_get hkey rand_hash (child_table b) (hkey c))
    (partner_of b) (kids b') acc) as (acc' & Hacc' & Hb' & Ha').
  { intros c Hc. by apply (partner_of_spec e b e' b'). }
  exists acc, acc'. split_and!; [done..|]. unfold ordered.
  rewrite (subset_children e b e' b'), (subset_children_of e b e' b') by done.
  rewrite Hb', Ha', Hb, Ha. simpl. rewrite andb_true_iff, !forallb_True_in. unfold compose. split.
  - split; intros Hs c Hc; destruct (HF c Hc) as [_ Hg]; specialize (Hs c Hc).
    + destruct Hs as (c' & E & Hs). rewrite E in Hg. by apply Hg.
    + destruct (partner b' c) as [c'|]; [|by rewrite Hg in Hs]. exists c'. split; [done|]. by apply Hg.
  - f_equiv.
    + split; [intros Hs c Hc|intros Hs c c' Hc E]; destruct (HF c Hc) as [_ Hg].
      * destruct (partner b' c) as [c'|] eqn:E; [|by rewrite Hg]. apply Hg. by apply Hs.
      * rewrite E in Hg. apply Hg. by apply Hs.
    + setoid_rewrite bool_decide_eq_true. done.
Qed.

(** One arm of unequal depth, as the code computes it: [go] is the recursive
    call on the child, [post] folds its answer. *)
Lemma inclusion_below (go : head → option (option comparison)) (post : option comparison → option comparison)
    e b sub :
  branch_ok wf b false → 2 ≤ length (kids b) → wf sub → end_depth b < hend sub →
  (∀ c, c ∈ kids b → wf c → end_depth b < hend c →
    agree (end_depth b) (childleaf_key c) (bytes (childleaf b)) →
    (∀ k, k ∈ keys c → k ∈ keys (HBranch e b)) →
    ∃ r, go c = Some r ∧ ordered c sub (flip_order r)) →
  (∀ r, post r = if below r then Some Lt else None) →
  ∃ r, (x ← tree_byte (childleaf_key sub) (end_depth b);
        o ← table_get hkey rand_hash (child_table b) x;
        match o with
        | Some c => r ← go c; Some (post r)
        | None => Some None
        end) = Some r ∧ ordered sub (HBranch e b) r.
Proof.
  intros Hok Hlen Hwf Hend Hgo Hpost. pose proof (bo_depth _ _ _ _ _ Hok) as Hd.
  rewrite (tree_byte_tb (O:=O)) by (done || by eapply childleaf_key_ok). cbn [mbind option_bind].
  fold (byte_at (end_depth b) sub).
  destruct (table_get_child rand_hash UNIT e b (byte_at (end_depth b) sub) Hok) as (o & -> & Hoc & Hkv).
  cbn [mbind option_bind].
  pose proof (one_child rand_hash UNIT UNIT e b sub _ o Hok Hwf Hend eq_refl Hkv) as Hone.
  assert (∀ r, match o with Some c => ordered c sub (flip_order r) | None => r = None end →
    ordered sub (HBranch e b) (if below r then Some Lt else None)) as Hw.
  { intros r Hr. assert (above (flip_order r) = below r) as E by by destruct r as [[]|].
    pose proof (ordered_within e b sub o (flip_order r) Hok Hlen Hwf Hend) as Ho.
    rewrite E in Ho. apply ordered_flip in Ho; [by destruct (below r)| |done|].
    - intros c Hc. by apply Hoc.
    - destruct o; [done|]. by rewrite Hr. }
  destruct o as [c|].
  - destruct (Hoc c eq_refl) as (Hc & Hwfc & Hendc & _ & Hac & Hk).
    destruct (Hgo c Hc Hwfc Hendc Hac Hk) as (r & -> & Hr). cbn [mbind option_bind].
    eexists. split; [done|]. rewrite Hpost. by apply Hw.
  - exists None. split; [done|]. by apply (Hw None).
Qed.

Lemma inclusion_spec fuel this other a :
  distinguishes UNIT UNIT this other → wf this → wf other →
  KEY_LEN - (hend this `min` hend other) < fuel → a ≤ hend this → a ≤ hend other →
  agree a (childleaf_key this) (childleaf_key other) →
  ∃ r, inclusion (KEY_LEN:=KEY_LEN) rand_hash fuel this other a = Some r ∧ ordered this other r.
Proof.
  revert this other a.
  induction fuel as [|fuel IH]; intros this other a Hcf Hwf Hwf' Hfuel Hat Hao Ha; [lia|].
  cbn [inclusion].
  destruct (pair_cases rand_hash UNIT UNIT this other a Hcf Hwf Hwf' Ha)
    as [-> -> Hk | d x y -> -> Hk | -> -> Hk | d x y -> -> -> Hk | -> -> -> Hag Hd].
  1,3: eexists; split; [done|by apply ordered_same].
  1,2: eexists; split; [done|by apply ordered_apart].
  destruct (Nat.ltb_spec (hend this) (hend other)) as [Hlt|Hge].
  { destruct (branch_of_depth rand_hash UNIT this Hwf) as (e & b & -> & Hok & Hlen); [lia|].
    simpl hend in *. rewrite Nat.min_l in * by lia.
    destruct (inclusion_below (λ c, flip_order <$> inclusion (KEY_LEN:=KEY_LEN) rand_hash fuel c other a) (λ r, if below r then Some Lt else None) e b other) as (r & Hr & Ho); try done.
    { intros c Hc Hwfc Hendc Hac Hk. destruct (IH c other a) as (r & -> & Hr); try done;
        [by eapply distinguishes_left|lia|lia| |].
      - eapply agree_trans; [|exact Ha]. by eapply agree_le; [|exact Hac].
      - eexists. split; [done|]. by destruct r as [[]|]. }
    exists (flip_order r). split; [|by apply ordered_flip].
    destruct (tree_byte _ _) as [z|]; [|done]. cbn [mbind option_bind] in Hr |- *.
    destruct (table_get _ _ _ z) as [[c|]|]; [| |done]; cbn [mbind option_bind] in Hr |- *; [|by simplify_eq].
    destruct (inclusion _ _ c _ _) as [q|]; [|done]. cbn [mbind option_bind fmap option_fmap option_map] in Hr |- *.
    injection Hr as <-. by destruct q as [[]|]. }
  destruct (Nat.ltb_spec (hend other) (hend this)) as [Hlt|Hge'].
  { destruct (branch_of_depth rand_hash UNIT other Hwf') as (e & b & -> & Hok & Hlen); [lia|].
    simpl hend in *. rewrite Nat.min_r in * by lia.
    apply (inclusion_below (λ c, inclusion (KEY_LEN:=KEY_LEN) rand_hash fuel this c a)); try done.
    - intros c Hc Hwfc Hendc Hac Hk. destruct (IH this c a) as (r & -> & Hr); try done;
        [by eapply distinguishes_right|lia|lia| |].
      + eapply agree_trans; [exact Ha|]. apply agree_sym. by eapply agree_le; [|exact Hac].
      + exists r. split; [done|]. by apply ordered_flip.
    - by intros [[]|]. }
  assert (hend this = hend other) as Heq by lia. rewrite <-Heq, Nat.min_id in *.
  destruct (branch_of_depth rand_hash UNIT this Hwf) as (e & b & -> & Hok & Hlen); [lia|].
  destruct (branch_of_depth rand_hash UNIT other Hwf') as (e' & b' & -> & Hok' & Hlen'); [lia|].
  simpl hend in *.
  set (F := λ self_child, o ← table_get hkey rand_hash (child_table b') (hkey self_child);
    match o with
    | Some other_child => inclusion (KEY_LEN:=KEY_LEN) rand_hash fuel self_child other_child (end_depth b)
    | None => Some (Some Gt)
    end).
  destruct (ordered_merge F (λ c, default None (F c)) e b e' b') as (acc & acc' & -> & Hacc' & Hord); try done.
  { intros c Hc. destruct (partner_spec e b e' b' Hok Hok' Heq Hag c Hc) as (Ho & Hp & _).
    assert (F c = o ← Some (partner b' c); match o with
      | Some other_child => inclusion (KEY_LEN:=KEY_LEN) rand_hash fuel c other_child (end_depth b)
      | None => Some (Some Gt) end) as -> by (unfold F; by rewrite Ho).
    destruct (partner b' c) as [c'|] eqn:E; cbn [mbind option_bind]; [|done].
    destruct (Hp c' eq_refl) as [Hin _].
    destruct (pairwise rand_hash UNIT UNIT e b e' b' c Hok Hok' Heq Hag Hc) as (o & Ho' & Hoc & _ & Hck).
    assert (o = Some c') as -> by congruence.
    destruct (Hoc c' eq_refl) as (_ & _ & Hwfc' & Hend & Hend' & Hac & Hk').
    destruct (IH c c' (end_depth b)) as (r & -> & Hr); try done;
      [by eapply distinguishes_left, distinguishes_right|by apply (bo_children _ _ _ _ _ Hok)|lia|lia|lia]. }
  cbn [mbind option_bind]. rewrite Hacc'. cbn [mbind option_bind]. eexists. split; [done|].
  by destruct acc'.
Qed.
End inclusion.
