(* ===== verification/Canonical.v ===== *)
(** * Canonical: what the cached summaries of a PATCH node mean

    Source: [triblespace-core/src/patch.rs] and [patch/branch.rs], the cached
    fields [leaf_count], [segment_count] and [hash] of [Branch].

    A well-formed node's counts and digest are functions of its key set: the
    leaf count is the number of keys, the segment count the number of distinct
    segment values, and the digest does not depend on the history of the trie. *)

From S2P Require Import Prelude ByteTable KeySchema PatchHash Branch Head Algebra.

Open Scope nat_scope.

(** Two lists sorted by a strict numeric key with the same members are equal. *)
Lemma strict_by_unique {A} (f : A → N) (l l' : list A) :
  Sorted.StronglySorted N.lt (f <$> l) → Sorted.StronglySorted N.lt (f <$> l') →
  (∀ x, x ∈ l ↔ x ∈ l') → l = l'.
Proof.
  intros Hs Hs' Heq.
  assert (∀ l, Sorted.StronglySorted N.lt (f <$> l) →
    Sorted.StronglySorted (λ x y, (f x < f y)%N) l ∧ NoDup l) as Hl.
  { induction l0 as [|x l0 IH]; [split; constructor|]. rewrite fmap_cons. intros H0.
    inversion H0 as [|? ? H1 H2]; subst. destruct (IH H1) as [H3 H4]. rewrite Forall_fmap in H2. split.
    - by constructor.
    - constructor; [|done]. intros Hx. rewrite Forall_forall in H2. specialize (H2 x Hx).
      simpl in H2. lia. }
  destruct (Hl l Hs) as [H1 H2], (Hl l' Hs') as [H3 H4].
  apply (StronglySorted_unique_strong (λ x y, (f x < f y)%N)); [|done|done|by apply NoDup_Permutation].
  intros x y _ _ Hxy Hyx. lia.
Qed.

Section canonical.
Context {KEY_LEN : nat} {O : KeySchema KEY_LEN} `{!KeySchemaOk KEY_LEN O}.
Context {H : PatchHash} `{!PatchHashOk H} {V : Type}.
Context (rand_hash : N → N) (UNIT : V).
Abbreviation head := (head Digest V).
Abbreviation branch := (branch Digest head).
Abbreviation kvs := (kvs UNIT).
Abbreviation keys := (keys UNIT).
Abbreviation wf := (wf rand_hash UNIT).
Abbreviation branch_ok := (branch_ok rand_hash UNIT).
Abbreviation kids b := (entries (child_table b)).
Abbreviation hend := (hend (KEY_LEN:=KEY_LEN)).
Implicit Types (h c : head) (b : branch) (k : list N).

Lemma count_kvs h : wf h → count h = N.of_nat (length (kvs h)).
Proof.
  revert h. apply wf_children_ind; [done|done|].
  intros e b Hok _ IH. cbn [count]. rewrite (bo_leaf_count _ _ _ _ _ Hok), kvs_branch.
  induction (kids b) as [|c l IHl]; [done|]. simpl.
  rewrite length_app, IH, IHl by set_solver. by rewrite Nat2N.inj_add.
Qed.

(** ** Segment counts *)

(** The tree bytes of [k] in the segment that depth [n] lies in. *)
Definition seg_view (n : nat) k : list N :=
  tb k <$> filter (λ d, same_segment_tree n d = Some true) (seq 0 KEY_LEN).

Definition seg_views (n : nat) h : gset (list N) := list_to_set (seg_view n <$> keys h).

Lemma same_segment_iff n m : n < KEY_LEN → m < KEY_LEN →
  same_segment_tree n m = Some true ↔ segment_of_tree_depth n = segment_of_tree_depth m.
Proof.
  intros Hn Hm. unfold same_segment_tree, segment_of_tree_depth.
  destruct (t2k_lookup (O:=O) n Hn) as (i & -> & Hi). destruct (t2k_lookup (O:=O) m Hm) as (j & -> & Hj).
  simpl. destruct (lookup_lt_is_Some_2 SEGMENTS i) as [x ->]; [by rewrite ks_seg_len|].
  destruct (lookup_lt_is_Some_2 SEGMENTS j) as [y ->]; [by rewrite ks_seg_len|]. simpl.
  destruct (Nat.eqb_spec x y); naive_solver.
Qed.

Lemma seg_view_ext n k k' : (∀ d, d < KEY_LEN → same_segment_tree n d = Some true → tb k d = tb k' d) →
  seg_view n k = seg_view n k'.
Proof.
  intros Hd. apply list_fmap_ext. intros i d Hi%list_elem_of_lookup_2.
  apply list_elem_of_filter in Hi as [H1 H2%elem_of_seq]. apply Hd; [lia|done].
Qed.

Lemma seg_view_eq n k k' d : seg_view n k = seg_view n k' → d < KEY_LEN →
  same_segment_tree n d = Some true → tb k d = tb k' d.
Proof.
  intros E Hd Hs. unfold seg_view in E.
  assert (d ∈ filter (λ d, same_segment_tree n d = Some true) (seq 0 KEY_LEN)) as Hin.
  { apply list_elem_of_filter. split; [done|]. apply elem_of_seq. lia. }
  revert E Hin. generalize (filter (λ d, same_segment_tree n d = Some true) (seq 0 KEY_LEN)).
  induction l as [|d' l IH]; [set_solver|]. rewrite !fmap_cons. intros [= E1 E2] [->|Hin]%elem_of_cons; auto.
Qed.

Lemma same_segment_lt n d : same_segment_tree n d = Some true → d < KEY_LEN.
Proof.
  unfold same_segment_tree. intros E. destruct (TREE_TO_KEY !! n) as [i|]; [|done]. cbn [mbind option_bind] in E.
  destruct (SEGMENTS !! i); [|done]. cbn [mbind option_bind] in E.
  destruct (TREE_TO_KEY !! d) as [j|] eqn:Ed; [|done]. apply lookup_lt_Some in Ed. by rewrite ks_t2k_len in Ed.
Qed.

(** Segments equal, views equal. *)
Lemma seg_view_same n n' k : n < KEY_LEN → n' < KEY_LEN →
  same_segment_tree n n' = Some true → seg_view n k = seg_view n' k.
Proof.
  intros Hn Hn' E%same_segment_iff; [|done..]. unfold seg_view. f_equal. apply list_filter_iff.
  intros d. split; intros Hd; pose proof (same_segment_lt _ _ Hd);
    apply same_segment_iff in Hd; try done; apply same_segment_iff; congruence.
Qed.

Lemma seg_views_size_1 n h : wf h → (∀ d, d < KEY_LEN → same_segment_tree n d = Some true → d < hend h) →
  size (seg_views n h) = 1.
Proof.
  intros Hwf Hd. assert (seg_views n h = {[seg_view n (childleaf_key h)]}) as ->; [|apply size_singleton].
  apply set_eq. intros x. unfold seg_views. rewrite elem_of_list_to_set, elem_of_singleton. split.
  - intros (k & -> & Hk)%list_elem_of_fmap. apply seg_view_ext. intros d Hd1 Hd2.
    apply (keys_agree rand_hash UNIT h k Hwf Hk). auto.
  - intros ->. apply list_elem_of_fmap_2. by eapply childleaf_key_in.
Qed.

(** Subtrees below different bytes of one segment have different views. *)
Lemma seg_views_branch b e : branch_ok wf b false →
  size (seg_views (end_depth b) (HBranch e b)) =
    sum_list_with (λ c, size (seg_views (end_depth b) c)) (kids b).
Proof.
  intros Hok. pose proof (bo_depth _ _ _ _ _ Hok) as Hd.
  assert (same_segment_tree (end_depth b) (end_depth b) = Some true) as Hself by by apply same_segment_iff.
  assert (seg_views (end_depth b) (HBranch e b) = ⋃ (seg_views (end_depth b) <$> kids b)) as ->.
  { apply set_eq. intros x. rewrite elem_of_union_list. unfold seg_views at 1.
    rewrite elem_of_list_to_set, list_elem_of_fmap. split.
    - intros (k & -> & (c & Hc & Hk)%elem_of_keys_branch). exists (seg_views (end_depth b) c).
      split; [by apply list_elem_of_fmap_2|]. apply elem_of_list_to_set. by apply list_elem_of_fmap_2.
    - intros (X & (c & -> & Hc)%list_elem_of_fmap & (k & -> & Hk)%elem_of_list_to_set%list_elem_of_fmap).
      exists k. split; [done|]. apply elem_of_keys_branch. eauto. }
  assert (∀ c, c ∈ kids b → ∀ x, x ∈ seg_views (end_depth b) c → ∃ k, x = seg_view (end_depth b) k ∧
    tb k (end_depth b) = hkey c) as Hbyte.
  { intros c Hc x (k & -> & Hk)%elem_of_list_to_set%list_elem_of_fmap. exists k. split; [done|].
    by apply (bo_keys _ _ _ _ _ Hok c k Hc Hk). }
  pose proof (ok_unique _ _ _ (bo_table _ _ _ _ _ Hok)) as Hnd.
  revert Hbyte Hnd. generalize (kids b). intros l. induction l as [|c l IH]; intros Hbyte Hnd; [done|].
  rewrite fmap_cons in Hnd. rewrite fmap_cons. apply NoDup_cons in Hnd as [Hc Hnd]. simpl.
  rewrite size_union.
  - rewrite IH; [done| |done]. set_solver.
  - intros x Hx (X & (c' & -> & Hc')%list_elem_of_fmap & Hx')%elem_of_union_list.
    destruct (Hbyte c (list_elem_of_here _ _) x Hx) as (k & -> & Hk).
    destruct (Hbyte c' (list_elem_of_further _ _ _ Hc') _ Hx') as (k' & E & Hk').
    apply Hc. rewrite <-Hk. rewrite (seg_view_eq _ _ _ (end_depth b) E Hd Hself), Hk'.
    by apply list_elem_of_fmap_2.
Qed.

(** The segment count at depth [n] is the number of distinct values the keys
    have in the segment of [n]. *)
Lemma seg_size n h : wf h → n < KEY_LEN → n ≤ hend h → seg n h = N.of_nat (size (seg_views n h)).
Proof.
  intros Hwf. revert n. revert h Hwf. refine (wf_children_ind _ _ _ _ _ _).
  1,2: intros e l Hl n Hn _; rewrite seg_views_size_1; [done|done|intros d ? _; done].
  intros e b Hok Hlen IH n Hn Hle. pose proof (bo_depth _ _ _ _ _ Hok) as Hd. simpl in Hle.
  unfold seg. simpl. unfold branch_count_segment.
  assert (wf (HBranch e b)) as Hwf by by constructor.
  destruct (same_segment_tree n (end_depth b)) as [[]|] eqn:Es; simpl.
  - assert (seg_views n (HBranch e b) = seg_views (end_depth b) (HBranch e b)) as ->.
    { unfold seg_views. f_equal. apply list_fmap_ext. intros i k _. by apply seg_view_same. }
    rewrite seg_views_branch by done. rewrite (bo_segment_count _ _ _ _ _ Hok).
    assert (∀ c, c ∈ kids b → end_depth b < hend c) as Hend by (intros; by eapply child_hend).
    revert IH Hend. generalize (kids b). intros l. induction l as [|c l IHl]; intros IH Hend; [done|].
    simpl. rewrite IHl by set_solver. rewrite IH by (set_solver || (apply Nat.lt_le_incl; set_solver)).
    by rewrite Nat2N.inj_add.
  - rewrite seg_views_size_1; [done|done|]. intros d Hd1 Hd2. simpl.
    destruct (Nat.lt_ge_cases d (end_depth b)) as [|Hge]; [done|exfalso].
    apply same_segment_iff in Hd2; [|done..].
    assert (same_segment_tree n (end_depth b) = Some true) as E; [|by rewrite E in Es].
    apply same_segment_iff; [done..|]. symmetry. by apply (ks_contiguous n (end_depth b) d).
  - exfalso. unfold same_segment_tree in Es.
    destruct (t2k_lookup (O:=O) n Hn) as (i & E1 & Hi). destruct (t2k_lookup (O:=O) (end_depth b) Hd) as (j & E2 & Hj).
    rewrite E1, E2 in Es. simpl in Es.
    destruct (lookup_lt_is_Some_2 SEGMENTS i) as [x E3]; [by rewrite ks_seg_len|].
    destruct (lookup_lt_is_Some_2 SEGMENTS j) as [y E4]; [by rewrite ks_seg_len|]. by rewrite E3, E4 in Es.
Qed.
End canonical.

(** ** Digests *)

Section digest.
Context {KEY_LEN : nat} {O : KeySchema KEY_LEN} `{!KeySchemaOk KEY_LEN O}.
Context {H : PatchHash} `{!PatchHashOk H} {V V' : Type}.
Context (rand_hash : N → N) (UNIT : V) (UNIT' : V').
Abbreviation head := (head Digest V).
Abbreviation head' := (Branch.head Digest V').
Abbreviation keys := (keys UNIT).
Abbreviation keys' := (Branch.keys UNIT').
Abbreviation wf := (wf rand_hash UNIT).
Abbreviation wf' := (Branch.wf rand_hash UNIT').
Abbreviation branch_ok := (branch_ok rand_hash UNIT).
Abbreviation branch_ok' := (Branch.branch_ok rand_hash UNIT').
Abbreviation kids b := (entries (child_table b)).
Abbreviation hend := (hend (KEY_LEN:=KEY_LEN)).
Abbreviation hend' := (Branch.hend (KEY_LEN:=KEY_LEN)).

Lemma keys_hend (h : head) (h' : head') : wf h → wf' h' → (∀ k, k ∈ keys h ↔ k ∈ keys' h') →
  hend h = hend' h'.
Proof.
  intros Hwf Hwf' Heq. apply Nat.le_antisymm.
  - apply (hend_lower rand_hash UNIT' h' (hend h) Hwf'); [by eapply hend_le|].
    intros k k' Hk%Heq Hk'%Heq. by eapply keys_agree2.
  - apply (hend_lower rand_hash UNIT h (hend' h') Hwf); [by eapply hend_le|].
    intros k k' Hk%Heq Hk'%Heq. by eapply keys_agree2.
Qed.

Lemma keys_count (h : head) (h' : head') : wf h → wf' h' → (∀ k, k ∈ keys h ↔ k ∈ keys' h') →
  count h = count h'.
Proof.
  intros Hwf Hwf' Heq. rewrite (count_kvs rand_hash UNIT h), (count_kvs rand_hash UNIT' h') by done.
  assert (keys h ≡ₚ keys' h') as Hp%Permutation_length.
  { apply NoDup_Permutation; [by eapply keys_NoDup..|done]. }
  unfold keys, Branch.keys in Hp. rewrite !length_fmap in Hp. by rewrite Hp.
Qed.

(** Branches over the same keys have the same children, up to history. *)
Lemma same_kid e b e' (b' : Branch.branch Digest head') :
  branch_ok wf b false → branch_ok' wf' b' false → end_depth b = end_depth b' →
  (∀ k, k ∈ keys (HBranch e b) ↔ k ∈ keys' (HBranch e' b')) →
  ∀ c, c ∈ kids b → ∃ c', c' ∈ kids b' ∧ hkey c = Branch.hkey c' ∧ ∀ k, k ∈ keys c ↔ k ∈ keys' c'.
Proof.
  intros Hok Hok' Hd Heq c Hc. set (x := childleaf_key c).
  assert (x ∈ keys c) as Hx by (eapply (childleaf_key_in rand_hash); by apply (bo_children _ _ _ _ _ Hok)).
  assert (x ∈ keys' (HBranch e' b')) as Hx' by (apply Heq, elem_of_keys_branch; eauto).
  rewrite (keys_child rand_hash UNIT' wf' b' false e' x Hok') in Hx'. destruct Hx' as (c' & Hc' & Hh & _).
  destruct (bo_keys _ _ _ _ _ Hok c x Hc Hx) as [_ Hb].
  assert (hkey c = Branch.hkey c') as Hcc by (rewrite Hh, <-Hd; done).
  exists c'. split_and!; [done..|]. intros k.
  assert (∀ k, k ∈ keys c ↔ tb k (end_depth b) = hkey c ∧ k ∈ keys (HBranch e b)) as Hkc.
  { intros k0. split.
    - intros Hk0. split; [by apply (bo_keys _ _ _ _ _ Hok)|]. apply elem_of_keys_branch. eauto.
    - intros [Hb0 (c0 & Hc0 & Hh0 & Hk0)%(keys_child rand_hash UNIT wf b false e k0 Hok)].
      assert (c0 = c) as <-; [|done].
      apply (kids_inj rand_hash UNIT wf b false c0 c Hok Hc0 Hc). congruence. }
  assert (∀ k, k ∈ keys' c' ↔ tb k (end_depth b') = Branch.hkey c' ∧ k ∈ keys' (HBranch e' b')) as Hkc'.
  { intros k0. split.
    - intros Hk0. split; [by apply (bo_keys _ _ _ _ _ Hok')|]. apply elem_of_keys_branch. eauto.
    - intros [Hb0 (c0 & Hc0 & Hh0 & Hk0)%(keys_child rand_hash UNIT' wf' b' false e' k0 Hok')].
      assert (c0 = c') as <-; [|done].
      apply (kids_inj rand_hash UNIT' wf' b' false c0 c' Hok' Hc0 Hc'). congruence. }
  by rewrite Hkc, Hkc', Heq, Hd, Hcc.
Qed.

Lemma summaries_strict {W} (l : list (Branch.head Digest W)) : NoDup (Branch.hkey <$> l) →
  Sorted.StronglySorted N.lt ((λ s : N * N * Digest, s.1.1) <$> (summary <$> sorted_children l)).
Proof. intros Hnd%sorted_children_strict. by rewrite <-list_fmap_compose. Qed.

Lemma elem_of_summaries {W} (l : list (Branch.head Digest W)) s :
  s ∈ summary <$> sorted_children l ↔ ∃ c, c ∈ l ∧ s = summary c.
Proof. rewrite list_elem_of_fmap. setoid_rewrite sorted_children_perm. naive_solver. Qed.
End digest.

Section canonical_digest.
Context {KEY_LEN : nat} {O : KeySchema KEY_LEN} `{!KeySchemaOk KEY_LEN O}.
Context {H : PatchHash} `{!PatchHashOk H} {V V' : Type}.
Context (rand_hash : N → N) (UNIT : V) (UNIT' : V').

Lemma leaf_digest {W} (UNIT0 : W) (h : head Digest W) : wf rand_hash UNIT0 h → is_leaf h →
  hhash h = ph_leaf (childleaf_key h) ∧ ∀ k, k ∈ keys UNIT0 h ↔ k = childleaf_key h.
Proof.
  intros Hwf Hl. split; [by destruct Hwf|]. intros k. rewrite leaf_keys by done.
  apply list_elem_of_singleton.
Qed.

(** The digest is a function of the key set. *)
Lemma keys_hash (h : head Digest V) (h' : head Digest V') :
  wf rand_hash UNIT h → wf rand_hash UNIT' h' → (∀ k, k ∈ keys UNIT h ↔ k ∈ keys UNIT' h') →
  hhash h = hhash h'.
Proof.
  intros Hwf. revert h'. revert h Hwf. refine (wf_children_ind _ _ _ _ _ _).
  1,2: intros e l Hwf h' Hwf' Heq;
    pose proof (keys_hend rand_hash UNIT UNIT' _ h' Hwf Hwf' Heq) as Hend; symmetry in Hend;
    apply (wf_full_leaf rand_hash UNIT') in Hend; [|done];
    destruct (leaf_digest UNIT' h' Hwf' Hend) as [-> Hk'];
    destruct (leaf_digest UNIT _ Hwf) as [-> Hk]; [done|];
    f_equal; by apply Hk', Heq, Hk.
  intros e b Hok Hlen IH h' Hwf' Heq. assert (wf rand_hash UNIT (HBranch e b)) as Hwf by by constructor.
  pose proof (keys_hend rand_hash UNIT UNIT' _ h' Hwf Hwf' Heq) as Hd. simpl in Hd.
  pose proof (bo_depth _ _ _ _ _ Hok) as HdK.
  destruct (branch_of_depth rand_hash UNIT' h' Hwf') as (e' & b' & -> & Hok' & Hlen'); [lia|].
  simpl in Hd |- *. rewrite (bo_hash _ _ _ _ _ Hok), (bo_hash _ _ _ _ _ Hok') by done.
  assert (key_ok KEY_LEN (bytes (childleaf b))) as Hk1 by apply (childleaf_key_ok rand_hash UNIT _ Hwf).
  assert (key_ok KEY_LEN (bytes (childleaf b'))) as Hk2 by apply (childleaf_key_ok rand_hash UNIT' _ Hwf').
  rewrite (canon_digest_prefix (bytes (childleaf b)) (bytes (childleaf b'))); [|done..|lia|].
  2:{ assert (bytes (childleaf b) ∈ keys UNIT' (HBranch e' b')) as Hin.
      { apply Heq. apply (childleaf_key_in rand_hash UNIT _ Hwf). }
      rewrite Hd. apply (keys_agree rand_hash UNIT' _ _ Hwf' Hin). }
  unfold canon_digest. rewrite <-Hd. f_equal.
  apply (strict_by_unique (λ s : N * N * Digest, s.1.1)).
  1: apply summaries_strict, (ok_unique _ _ _ (bo_table _ _ _ _ _ Hok)).
  1: apply summaries_strict, (ok_unique _ _ _ (bo_table _ _ _ _ _ Hok')).
  intros s. rewrite !elem_of_summaries. split.
  - intros (c & Hc & ->).
    destruct (same_kid rand_hash UNIT UNIT' e b e' b' Hok Hok' Hd Heq c Hc) as (c' & Hc' & Hh & Hk).
    exists c'. split; [done|]. pose proof (bo_children _ _ _ _ _ Hok c Hc). pose proof (bo_children _ _ _ _ _ Hok' c' Hc').
    unfold summary. by rewrite Hh, (keys_count rand_hash UNIT UNIT' c c'), (IH c Hc c').
  - intros (c' & Hc' & ->).
    destruct (same_kid rand_hash UNIT' UNIT e' b' e b Hok' Hok (eq_sym Hd) (λ k, iff_sym (Heq k)) c' Hc')
      as (c & Hc & Hh & Hk).
    exists c. split; [done|]. pose proof (bo_children _ _ _ _ _ Hok c Hc). pose proof (bo_children _ _ _ _ _ Hok' c' Hc').
    unfold summary. rewrite Hh, (keys_count rand_hash UNIT UNIT' c c'), (IH c Hc c'); try done; intros k; by rewrite Hk.
Qed.
End canonical_digest.
