(* ===== verification/XorDigest.v ===== *)
(** * XorDigest: what the XOR policy computes

    Source: [XorSip128] of [triblespace-core/src/patch.rs], as defined in
    [PatchHash].

    Under the XOR policy the digest of a trie is the exclusive or of the 128-bit
    digests of its leaves, whatever the schema and the shape of the trie. *)

From S2P Require Import Prelude ByteTable KeySchema PatchHash Branch Head Algebra.

Open Scope nat_scope.

Definition leaf_digest (sip : list N → N) (k : list N) : N := u128 (sip k).

Section xor.
Context {KEY_LEN : nat} {O : KeySchema KEY_LEN} `{!KeySchemaOk KEY_LEN O}.
Context (sip : list N → N) {V : Type} (rand_hash : N → N) (UNIT : V).
#[local] Existing Instance XorSip128.
Abbreviation P := (XorSip128 sip).

Lemma xor_all_bind {A} (f : A → list N) (l : list A) : xor_all (l ≫= f) = xor_all ((xor_all ∘ f) <$> l).
Proof. induction l as [|x l IH]; [done|]. csimpl. by rewrite xor_all_app, IH. Qed.

Lemma fmap_bind {A B C} (f : B → C) (g : A → list B) (l : list A) :
  f <$> (l ≫= g) = l ≫= (λ x, f <$> g x).
Proof. induction l as [|x l IH]; [done|]. csimpl. by rewrite fmap_app, IH. Qed.

(** The digest of a subtree is the exclusive or of its leaf digests. *)
Lemma xor_hash (h : head (@Digest P) V) : wf (H:=P) rand_hash UNIT h →
  hhash (H:=P) h = xor_all (leaf_digest sip <$> keys UNIT h).
Proof.
  revert h. apply (wf_children_ind (H:=P) rand_hash UNIT).
  - intros e l Hwf. inversion Hwf; subst. csimpl. rewrite N.lxor_0_r. done.
  - intros e p _. csimpl. by rewrite N.lxor_0_r.
  - intros e b Hok _ IH. cbn [hhash]. rewrite (bo_hash _ _ _ _ _ Hok) by done.
    rewrite canon_digest_comm, xor_branch_digest by done. unfold keys. rewrite kvs_branch.
    rewrite !(fmap_bind (A:=head (@Digest P) V)).
    rewrite xor_all_bind, <-list_fmap_compose. f_equal. apply list_fmap_ext.
    intros i c Hc%list_elem_of_lookup_2. simpl. by apply IH.
Qed.

(** The digest a well-formed trie caches at its root is the exclusive or of the
    leaf digests of its keys, and a [u128]. *)
Theorem xor_digest (h : head (@Digest P) V) : wf (H:=P) rand_hash UNIT h →
  hhash (H:=P) h = xor_all (leaf_digest sip <$> keys UNIT h) ∧ (hhash (H:=P) h < 2 ^ 128)%N.
Proof.
  intros Hwf. rewrite xor_hash by done. split; [done|].
  apply xor_all_bound, Forall_fmap, Forall_forall. intros k _. apply u128_bound.
Qed.
End xor.
