(* ===== verification/Patch.v ===== *)
(** * Patch: the public operations of PATCH

    Source: [triblespace-core/src/patch.rs], [impl PATCH], and
    [patch/entry.rs].  A PATCH is an optional root and the receipt of the
    archive owners it retains.

    The abstract specification is a finite map from keys (in key order) to
    values: [to_map].  Every operation is refined to the map operation it
    stands for.  Under the default feature [parallel] the source calls the
    [par_] variants of the set operations, which run the sequential ones on
    small inputs; the sequential ones are the model.  [S KEY_LEN] is the fuel of
    every descent, and it is enough: no operation on a well-formed PATCH is
    [None]. *)

From S2P Require Import Prelude OwnerCover ByteTable KeySchema PatchHash Branch Head Algebra.
From S2P Require Import Overlap Canonical.

Open Scope nat_scope.

(** ** Data *)

Record PATCH {D V : Type} := mkPATCH { proot : option (head D V); powners : option OwnerCover }.
Arguments PATCH : clear implicits.
Arguments mkPATCH {D V}.

(** The entry is the shared heap leaf. *)
Record Entry {D V : Type} := mkEntry { entry_ptr : leaf D V }.
Arguments Entry : clear implicits.
Arguments mkEntry {D V}.

Record ArchiveEntry {D : Type} := mkArchiveEntry { ae_ptr : kptr; ae_owner : N; ae_hash : D }.
Arguments ArchiveEntry : clear implicits.
Arguments mkArchiveEntry {D}.

Section ops.
Context {KEY_LEN : nat} {O : KeySchema KEY_LEN} {H : PatchHash} {V : Type}.
Context (rand_hash : N → N) (UNIT : V).
Abbreviation PATCH := (PATCH Digest V).
Abbreviation FUEL := (S KEY_LEN).
Abbreviation head := (head Digest V).

(** [Leaf::new] at address [a]. *)
Definition leaf_new (a : N) (key : list N) (value : V) : leaf Digest V :=
  mkLeaf (mkPtr a key) (ph_leaf key) value.
Definition with_value (a : N) (key : list N) (value : V) : Entry Digest V :=
  mkEntry (leaf_new a key value).
Definition entry_leaf (e : Entry Digest V) : head := HLeaf 0%N (entry_ptr e).

Definition archive_entry_new (ptr : kptr) (owner : N) : ArchiveEntry Digest :=
  mkArchiveEntry ptr owner (ph_leaf (bytes ptr)).
Definition archive_leaf (e : ArchiveEntry Digest) : head * N * Digest :=
  (HLocalLeaf 0%N (ae_ptr e), ae_owner e, ae_hash e).

Definition new : PATCH := mkPATCH None None.

Definition insert (p : PATCH) (entry : Entry Digest V) : res PATCH :=
  match proot p with
  | Some this =>
      new_head ← insert_leaf (KEY_LEN:=KEY_LEN) rand_hash FUEL this (entry_leaf entry) 0;
      Some (mkPATCH (Some new_head) (powners p))
  | None => Some (mkPATCH (Some (entry_leaf entry)) (powners p))
  end.

Definition insert_archive (p : PATCH) (entry : ArchiveEntry Digest) : res PATCH :=
  let '(leaf_head, leaf_owner, leaf_hash) := archive_leaf entry in
  owners ← OwnerCover.retain (powners p) leaf_owner;
  match proot p with
  | Some this =>
      new_head ← insert_archive_leaf (KEY_LEN:=KEY_LEN) rand_hash FUEL this leaf_head leaf_hash 0;
      Some (mkPATCH (Some new_head) owners)
  | None => Some (mkPATCH (Some leaf_head) owners)
  end.

(** [replace] and [remove] also hand out what they retire: dropping it is the
    last thing the source does. *)
Definition replace (p : PATCH) (entry : Entry Digest V) : res (PATCH * option head) :=
  match proot p with
  | Some this =>
      '(new_head, retired_leaf) ←
        replace_leaf (KEY_LEN:=KEY_LEN) rand_hash FUEL this (entry_leaf entry) 0;
      Some (mkPATCH (Some new_head) (powners p), retired_leaf)
  | None => Some (mkPATCH (Some (entry_leaf entry)) (powners p), None)
  end.

(** [key] is in tree order. *)
Definition remove (p : PATCH) (key : list N) : res (PATCH * option OwnerCover * option head) :=
  '(root, retired_leaf) ← remove_leaf (KEY_LEN:=KEY_LEN) rand_hash FUEL (proot p) key 0;
  match root with
  | None => Some (mkPATCH None None, powners p, retired_leaf)
  | Some _ => Some (mkPATCH root (powners p), None, retired_leaf)
  end.

Definition len (p : PATCH) : N := match proot p with Some root => count root | None => 0%N end.
Definition is_empty (p : PATCH) : bool := (len p =? 0)%N.
Definition root_hash (p : PATCH) : option Digest := hhash <$> proot p.

Definition get (p : PATCH) (key : list N) : res (option V) :=
  match proot p with
  | Some root => Head.get (KEY_LEN:=KEY_LEN) rand_hash UNIT FUEL root 0 key
  | None => Some None
  end.

Definition get_key (p : PATCH) (key : list N) : res (option (list N)) :=
  match proot p with
  | Some root => Head.get_key (KEY_LEN:=KEY_LEN) rand_hash FUEL root 0 key
  | None => Some None
  end.

Definition has_prefix (p : PATCH) (prefix : list N) : res bool :=
  match proot p with
  | Some root => Head.has_prefix (KEY_LEN:=KEY_LEN) rand_hash FUEL root 0 prefix
  | None => Some (length prefix =? 0)
  end.

(** [same_arc]: the two receipts are one allocation. *)
Definition union (same_arc : bool) (self other : PATCH) : res PATCH :=
  match proot other with
  | Some other_root =>
      match proot self with
      | Some this =>
          owners ← OwnerCover.union same_arc (powners self) (powners other);
          merged ← Algebra.union (KEY_LEN:=KEY_LEN) rand_hash FUEL this other_root 0;
          Some (mkPATCH (Some merged) owners)
      | None => Some (mkPATCH (Some other_root) (powners other))
      end
  | None => Some self
  end.

Definition intersect_with_guard (self other : PATCH) (guard : option OwnerCover) : res PATCH :=
  root ← match proot self, proot other with
    | Some root, Some other_root =>
        result ← Algebra.intersect (KEY_LEN:=KEY_LEN) rand_hash FUEL root other_root 0;
        match result with
        | Some root => r ← with_start root 0; Some (Some r)
        | None => Some None
        end
    | _, _ => Some None
    end;
  Some (mkPATCH root (match root with Some _ => guard | None => None end)).

Definition intersect (same_arc : bool) (self other : PATCH) : res PATCH :=
  guard ← OwnerCover.union same_arc (powners self) (powners other);
  intersect_with_guard self other guard.

Definition partial_cmp (self other : PATCH) : res (option comparison) :=
  match proot self, proot other with
  | None, None => Some (Some Eq)
  | None, Some _ => Some (Some Lt)
  | Some _, None => Some (Some Gt)
  | Some root, Some other_root =>
      inclusion (KEY_LEN:=KEY_LEN) rand_hash FUEL root other_root 0
  end.
End ops.

Section ops2.
Context {KEY_LEN : nat} {O : KeySchema KEY_LEN} {H : PatchHash} {V V' : Type}.
Context (rand_hash : N → N).

Definition eq (self : PATCH Digest V) (other : PATCH Digest V') : bool :=
  bool_decide (root_hash self = root_hash other).

Definition difference_with_guard (self : PATCH Digest V) (other : PATCH Digest V')
    (guard : option OwnerCover) : res (PATCH Digest V) :=
  root ← match proot self, proot other with
    | Some root, Some other_root =>
        difference (KEY_LEN:=KEY_LEN) rand_hash (S KEY_LEN) root other_root 0
    | Some root, None => Some (Some root)
    | None, _ => Some None
    end;
  Some (mkPATCH root (match root with Some _ => guard | None => None end)).

(** [difference] is [difference_keys] at one value type. *)
Definition difference_keys (self : PATCH Digest V) (other : PATCH Digest V') : res (PATCH Digest V) :=
  difference_with_guard self other (powners self).
End ops2.

(** ** The abstract specification *)

Section spec.
Context {KEY_LEN : nat} {O : KeySchema KEY_LEN} `{!KeySchemaOk KEY_LEN O}.
Context {H : PatchHash} `{!PatchHashOk H} {V : Type}.
Context (rand_hash : N → N) (UNIT : V).
Abbreviation PATCH := (PATCH Digest V).
Abbreviation head := (head Digest V).
Abbreviation kvs := (kvs UNIT).
Abbreviation keys := (keys UNIT).
Abbreviation wf := (wf rand_hash UNIT).
Abbreviation hend := (hend (KEY_LEN:=KEY_LEN)).
Implicit Types (p : PATCH) (k : list N) (v : V).

Definition pkvs p : list (list N * V) := from_option kvs [] (proot p).

(** The finite map a PATCH stands for, with keys in key order. *)
Definition to_map p : gmap (list N) V := list_to_map (pkvs p).

Record patch_ok p : Prop := {
  po_root : ∀ h, proot p = Some h → wf h;
  po_owners : receipt_ok (powners p);
}.

Lemma pkvs_NoDup p : patch_ok p → NoDup (pkvs p).*1.
Proof.
  intros [Hr _]. unfold pkvs. destruct (proot p) as [h|]; simpl; [|constructor].
  by apply (keys_NoDup rand_hash UNIT), Hr.
Qed.

Lemma to_map_lookup p k v : patch_ok p → to_map p !! k = Some v ↔ (k, v) ∈ pkvs p.
Proof. intros Hp. symmetry. by apply elem_of_list_to_map, pkvs_NoDup. Qed.

Lemma to_map_None p k : patch_ok p → to_map p !! k = None ↔ k ∉ (pkvs p).*1.
Proof. intros Hp. symmetry. apply not_elem_of_list_to_map. Qed.

Lemma elem_of_dom_keys p k : patch_ok p → k ∈ dom (to_map p) ↔ k ∈ (pkvs p).*1.
Proof.
  intros Hp. rewrite elem_of_dom, list_elem_of_fmap. unfold is_Some. setoid_rewrite to_map_lookup; [|done].
  split; [intros [v Hv]; exists (k, v); done|intros ([k' v] & -> & Hv); by exists v].
Qed.

Lemma dom_root p h k : patch_ok p → proot p = Some h → k ∈ dom (to_map p) ↔ k ∈ keys h.
Proof. intros Hp Hh. rewrite elem_of_dom_keys by done. unfold pkvs. by rewrite Hh. Qed.

Lemma dom_key_ok p k : patch_ok p → k ∈ dom (to_map p) → key_ok KEY_LEN k.
Proof.
  intros Hp Hk. apply elem_of_dom_keys in Hk; [|done]. unfold pkvs in Hk.
  destruct (proot p) as [h|] eqn:E; simpl in Hk; [|set_solver].
  eapply keys_ok; [by eapply po_root|exact Hk].
Qed.

(** The map of a permuted list of entries. *)
Lemma to_map_perm p l : patch_ok p → pkvs p ≡ₚ l → to_map p = list_to_map l.
Proof. intros Hp E. apply list_to_map_proper; [by apply pkvs_NoDup|done]. Qed.

(** A full-length tree-ordered key matches its own key only. *)
Lemma pref_full k k' q : key_ok KEY_LEN k → key_ok KEY_LEN k' → tree_ordered k = Some q →
  pref (KEY_LEN:=KEY_LEN) 0 k' q ↔ k' = k.
Proof.
  intros Hk Hk' Hq. destruct (tree_ordered_spec (O:=O) k Hk) as (q' & Hq' & Hok & Hd).
  assert (q' = q) as <- by congruence. split.
  - intros Hp. apply (tb_inj (O:=O)); [done..|]. intros d Hlt. rewrite Hp; [by apply Hd|lia| |done].
    by rewrite (key_len _ _ Hok).
  - intros -> d _ _ Hlt. by rewrite Hd.
Qed.

Lemma tree_ordered_len k q : key_ok KEY_LEN k → tree_ordered k = Some q → length q = KEY_LEN.
Proof.
  intros Hk Hq. destruct (tree_ordered_spec (O:=O) k Hk) as (q' & Hq' & Hok & _).
  assert (q' = q) as <- by congruence. apply Hok.
Qed.

Lemma agree_0 k k' : agree (O:=O) 0 k k'.
Proof. intros d Hd. lia. Qed.

(** A PATCH rebuilt around a well-formed root. *)
Lemma patch_ok_root h owners : wf h → receipt_ok owners → patch_ok (mkPATCH (Some h) owners).
Proof. intros Hwf Ho. by split; [intros ? [= <-]|]. Qed.

Lemma entry_leaf_wf a k v : key_ok KEY_LEN k → wf (entry_leaf (with_value a k v)).
Proof. by constructor. Qed.

(** ** Updates *)

Lemma inserted_map p h k v owners : patch_ok p → key_ok KEY_LEN k → wf h → receipt_ok owners →
  kvs h ≡ₚ (if decide (k ∈ (pkvs p).*1) then [] else [(k, v)]) ++ pkvs p →
  patch_ok (mkPATCH (Some h) owners) ∧ to_map (mkPATCH (Some h) owners) = to_map p ∪ {[k := v]}.
Proof.
  intros Hp Hk Hwf Ho Hkv. pose proof (patch_ok_root h owners Hwf Ho) as Hp'. split; [done|].
  rewrite (to_map_perm _ _ Hp' Hkv). apply map_eq. intros i. rewrite lookup_union.
  case_decide as Hin; simpl.
  - fold (to_map p). destruct (decide (i = k)) as [->|Hne].
    + apply elem_of_dom_keys, elem_of_dom in Hin as [v' ->]; [|done]. by rewrite lookup_singleton_eq.
    + rewrite lookup_singleton_ne by done. by rewrite (right_id_L None (∪)).
  - fold (to_map p). destruct (decide (i = k)) as [->|Hne].
    + rewrite lookup_insert_eq, lookup_singleton_eq. apply to_map_None in Hin; [|done]. by rewrite Hin.
    + rewrite lookup_insert_ne, lookup_singleton_ne by done. by rewrite (right_id_L None (∪)).
Qed.

Lemma insert_leaf_patch p h leaf k v : patch_ok p → proot p = Some h → wf leaf → is_leaf leaf →
  kvs leaf = [(k, v)] →
  ∃ r, insert_leaf (KEY_LEN:=KEY_LEN) rand_hash (S KEY_LEN) h leaf 0 = Some r ∧ wf r ∧
    kvs r ≡ₚ (if decide (k ∈ (pkvs p).*1) then [] else [(k, v)]) ++ pkvs p.
Proof.
  intros Hp Hh Hwfl Hl Hkv. pose proof (po_root _ Hp h Hh) as Hwf.
  destruct (insert_leaf_spec rand_hash UNIT (S KEY_LEN) h leaf 0) as (r & Hr & Hwfr & _ & Hins);
    [done..|lia|apply agree_0|]. exists r. split_and!; [done..|].
  assert (childleaf_key leaf = k) as <-.
  { pose proof (leaf_keys UNIT leaf Hl) as E. unfold Branch.keys in E. rewrite Hkv in E. by injection E. }
  unfold pkvs. rewrite Hh. cbn [from_option]. unfold inserted_kvs, Branch.keys in Hins.
  destruct Hins as [[Hin E]|[Hin E]]; case_decide; try done. by rewrite E, Hkv.
Qed.

Lemma insert_spec p a k v : patch_ok p → key_ok KEY_LEN k →
  ∃ p', insert (KEY_LEN:=KEY_LEN) rand_hash p (with_value a k v) = Some p' ∧ patch_ok p' ∧
    to_map p' = to_map p ∪ {[k := v]} ∧ powners p' = powners p.
Proof.
  intros Hp Hk. unfold insert. pose proof (entry_leaf_wf a k v Hk) as Hwf.
  destruct (proot p) as [h|] eqn:Hh.
  - destruct (insert_leaf_patch p h (entry_leaf (with_value a k v)) k v) as (r & -> & Hwfr & Hkv); try done.
    cbn [mbind option_bind]. eexists. split; [done|].
    destruct (inserted_map p r k v (powners p)) as [? ?]; try done. by apply Hp.
  - eexists. split; [done|].
    destruct (inserted_map p (entry_leaf (with_value a k v)) k v (powners p)) as [? ?]; try done; [by apply Hp|].
    unfold pkvs. by rewrite Hh.
Qed.

(** C4. [insert] never panics, keeps the trie well formed and adds the entry
    unless its key is present, whose value it leaves alone. *)
Theorem insert_refines p a k v : patch_ok p → key_ok KEY_LEN k →
  ∃ p', insert (KEY_LEN:=KEY_LEN) rand_hash p (with_value a k v) = Some p' ∧ patch_ok p' ∧
    to_map p' = to_map p ∪ {[k := v]} ∧ powners p' = powners p.
Proof. apply insert_spec. Qed.

Lemma insert_archive_spec p ptr owner : patch_ok p → key_ok KEY_LEN (bytes ptr) →
  (owner < 2 ^ 64)%N →
  ∃ p', insert_archive (KEY_LEN:=KEY_LEN) rand_hash p (archive_entry_new ptr owner) = Some p' ∧
    patch_ok p' ∧ to_map p' = to_map p ∪ {[bytes ptr := UNIT]} ∧
    owner_set (powners p') = {[owner]} ∪ owner_set (powners p).
Proof.
  intros Hp Hk Ho. unfold insert_archive, archive_leaf, archive_entry_new. cbn [ae_ptr ae_owner ae_hash].
  destruct (retain_spec (powners p) owner (po_owners _ Hp) Ho) as (owners & -> & Hok & _ & Hs).
  cbn [mbind option_bind].
  set (leaf := HLocalLeaf 0%N ptr : head). assert (wf leaf) as Hwf by by constructor.
  destruct (proot p) as [h|] eqn:Hh.
  - change (ph_leaf (bytes ptr)) with (hhash leaf). rewrite insert_archive_leaf_eq.
    destruct (insert_leaf_patch p h leaf (bytes ptr) UNIT) as (r & -> & Hwfr & Hkv); try done.
    cbn [mbind option_bind]. eexists. split; [done|].
    destruct (inserted_map p r (bytes ptr) UNIT (Some owners)) as [? ?]; try done. by intros ? [= <-].
  - eexists. split; [done|].
    destruct (inserted_map p leaf (bytes ptr) UNIT (Some owners)) as [? ?]; try done; [by intros ? [= <-]|].
    unfold pkvs. by rewrite Hh.
Qed.

(** [insert_archive] is [insert] of the unit value for an archive-backed
    key, and retains the owner of the archive: the receipt afterwards is the
    old one and that owner. *)
Theorem insert_archive_refines p ptr owner : patch_ok p → key_ok KEY_LEN (bytes ptr) →
  (owner < 2 ^ 64)%N →
  ∃ p', insert_archive (KEY_LEN:=KEY_LEN) rand_hash p (archive_entry_new ptr owner) = Some p' ∧
    patch_ok p' ∧ to_map p' = to_map p ∪ {[bytes ptr := UNIT]} ∧
    owner_set (powners p') = {[owner]} ∪ owner_set (powners p).
Proof. apply insert_archive_spec. Qed.

(** [replace] never panics, binds the key to the new value, and hands out
    the leaf it replaced, which holds the old binding, or nothing when there was
    none. *)
Theorem replace_refines p a k v : patch_ok p → key_ok KEY_LEN k →
  ∃ p' retired, replace (KEY_LEN:=KEY_LEN) rand_hash p (with_value a k v) = Some (p', retired) ∧
    patch_ok p' ∧ to_map p' = <[k := v]> (to_map p) ∧ powners p' = powners p ∧
    kvs <$> retired = (λ old, [(k, old)]) <$> to_map p !! k.
Proof.
  intros Hp Hk. unfold replace. pose proof (entry_leaf_wf a k v Hk) as Hwf.
  destruct (proot p) as [h|] eqn:Hh.
  - destruct (replace_leaf_spec rand_hash UNIT (S KEY_LEN) h (entry_leaf (with_value a k v)) 0)
      as (r & ret & -> & Hwfr & _ & Hkv); [by apply Hp|done|done|lia|apply agree_0|].
    cbn [mbind option_bind]. eexists _, _. split; [done|].
    pose proof (patch_ok_root r (powners p) Hwfr (po_owners _ Hp)) as Hp'. split; [done|].
    change (childleaf_key (entry_leaf (with_value a k v))) with k in Hkv.
    change (kvs (entry_leaf (with_value a k v))) with [(k, v)] in Hkv.
    assert (pkvs p = kvs h) as Hpk by (unfold pkvs; by rewrite Hh).
    destruct Hkv as [(Hin & Hkv & ->)|(v0 & rest & old & Hkv0 & Hkv & -> & Hold)].
    + rewrite (to_map_perm _ _ Hp' Hkv), (proj2 (to_map_None p k Hp)) by (by rewrite Hpk).
      unfold to_map. rewrite Hpk. by split_and!.
    + rewrite (to_map_perm _ _ Hp' Hkv), (to_map_perm p ((k, v0) :: rest) Hp) by (by rewrite Hpk).
      simpl. rewrite lookup_insert_eq, insert_insert_eq. simpl. rewrite Hold. by split_and!.
  - eexists _, _. split; [done|]. split; [by apply patch_ok_root; [|apply Hp]|].
    unfold to_map, pkvs. rewrite Hh. simpl. by rewrite lookup_empty.
Qed.

Lemma patch_remove_spec p k q : patch_ok p → key_ok KEY_LEN k → tree_ordered k = Some q →
  0 < KEY_LEN →
  ∃ p' owners retired, remove (KEY_LEN:=KEY_LEN) rand_hash p q = Some (p', owners, retired) ∧
    patch_ok p' ∧ to_map p' = delete k (to_map p) ∧
    (powners p' = if decide (proot p' = None) then None else powners p) ∧
    (∀ old, retired = Some old → ∃ v, kvs old = [(k, v)] ∧ to_map p !! k = Some v).
Proof.
  intros Hp Hk Hq HK. pose proof (tree_ordered_len k q Hk Hq) as Hlen. unfold remove.
  destruct (proot p) as [h|] eqn:Hh.
  2:{ cbn [remove_leaf mbind option_bind]. eexists _, _, _. split; [done|]. simpl.
      split_and!; [by split|unfold to_map, pkvs; rewrite Hh; simpl; by rewrite delete_empty|done|done]. }
  pose proof (po_root _ Hp h Hh) as Hwf. assert (pkvs p = kvs h) as Hpk by (unfold pkvs; by rewrite Hh).
  destruct (remove_leaf_spec rand_hash UNIT (S KEY_LEN) h q 0) as (slot & ret & -> & Hwfs & Hrem);
    [done|done|lia|lia|lia|]. cbn [mbind option_bind].
  assert (∃ p' owners, match slot with
      | Some _ => Some (mkPATCH slot (powners p), None, ret)
      | None => Some (mkPATCH None None, powners p, ret) end = Some (p', owners, ret) ∧
    patch_ok p' ∧ pkvs p' = from_option kvs [] slot ∧ 
    (powners p' = if decide (proot p' = None) then None else powners p)) as (p' & owners & -> & Hp' & Hpk' & Ho).
  { destruct slot as [s|]; eexists _, _; (split; [done|]).
    - split_and!; [apply patch_ok_root; [by apply Hwfs|apply Hp]|done|done].
    - split_and!; [by split|done|done]. }
  exists p', owners, ret. split_and!; try done.
  - destruct Hrem as [(Hno & -> & ->)|(k' & v & Hpref & Hkv & Hret)].
    + unfold to_map at 1. rewrite Hpk'. simpl. rewrite <-Hpk. fold (to_map p).
      symmetry. apply delete_id, to_map_None; [done|]. rewrite Hpk. intros Hin.
      apply (Hno k Hin). by apply (pref_full k k q).
    + assert (k' = k) as ->.
      { apply (pref_full k k' q); try done. eapply keys_ok; [exact Hwf|].
        apply elem_of_keys. exists v. rewrite Hkv. by left. }
      rewrite (to_map_perm p ((k, v) :: from_option kvs [] slot) Hp) by (by rewrite Hpk, Hkv). simpl. unfold to_map at 1. rewrite Hpk'.
      rewrite delete_insert_id; [done|]. apply not_elem_of_list_to_map_1.
      pose proof (pkvs_NoDup p Hp) as Hnd. rewrite Hpk, Hkv in Hnd. by apply NoDup_cons in Hnd as [? _].
  - intros old ->. destruct Hrem as [(_ & _ & ?)|(k' & v & Hpref & Hkv & Hret)]; [done|].
    assert ((k', v) ∈ kvs h) as Hin by (rewrite Hkv; by left).
    assert (k' = k) as ->.
    { apply (pref_full k k' q); try done. eapply keys_ok; [exact Hwf|]. apply elem_of_keys. eauto. }
    exists v. split; [by apply Hret|]. apply to_map_lookup; [done|]. by rewrite Hpk.
Qed.

(** C5. [remove] of a tree-ordered key never panics and deletes exactly that
    key; an emptied PATCH gives up its receipt, any other keeps it. *)
Theorem remove_refines p k q : patch_ok p → key_ok KEY_LEN k → tree_ordered k = Some q →
  0 < KEY_LEN →
  ∃ p' owners retired, remove (KEY_LEN:=KEY_LEN) rand_hash p q = Some (p', owners, retired) ∧
    patch_ok p' ∧ to_map p' = delete k (to_map p) ∧
    (powners p' = if decide (proot p' = None) then None else powners p) ∧
    (∀ old, retired = Some old → ∃ v, kvs old = [(k, v)] ∧ to_map p !! k = Some v).
Proof. apply patch_remove_spec. Qed.

(** ** Lookups *)

(** [get] and [get_key] of a tree-ordered key are the lookup of that key:
    the value bound to it, and the stored key itself. *)
Theorem get_refines p k q : patch_ok p → key_ok KEY_LEN k → tree_ordered k = Some q →
  get (KEY_LEN:=KEY_LEN) rand_hash UNIT p q = Some (to_map p !! k) ∧
  get_key (KEY_LEN:=KEY_LEN) rand_hash p q = Some ((λ _, k) <$> to_map p !! k).
Proof.
  intros Hp Hk Hq. pose proof (tree_ordered_len k q Hk Hq) as Hlen. unfold get, get_key.
  destruct (proot p) as [h|] eqn:Hh; [|unfold to_map, pkvs; rewrite Hh; by split].
  pose proof (po_root _ Hp h Hh) as Hwf. assert (pkvs p = kvs h) as Hpk by (unfold pkvs; by rewrite Hh).
  assert (∀ k' v, (k', v) ∈ kvs h → pref (KEY_LEN:=KEY_LEN) 0 k' q ↔ k' = k) as Hpref.
  { intros k' v Hin. apply pref_full; [done| |done]. eapply keys_ok; [exact Hwf|]. apply elem_of_keys. eauto. }
  split.
  - destruct (get_spec rand_hash UNIT (S KEY_LEN) h 0 q) as (r & -> & Hr); [done|lia|lia|done|].
    f_equal. apply option_eq. intros v. rewrite Hr, to_map_lookup, Hpk by done. split.
    + intros (k' & Hin & ->%(Hpref _ _ Hin)). done.
    + intros Hin. exists k. split; [done|]. by eapply Hpref.
  - destruct (get_key_spec rand_hash UNIT (S KEY_LEN) h 0 q) as (r & -> & Hr & Hn); [done|lia|lia|done|].
    f_equal. destruct r as [k'|].
    + destruct (Hr k' eq_refl) as [[v Hin]%elem_of_keys Hpr]. pose proof (proj1 (Hpref k' v Hin) Hpr) as ->.
      rewrite <-Hpk in Hin. apply to_map_lookup in Hin as ->; done.
    + destruct (to_map p !! k) as [v|] eqn:E; [exfalso|done]. apply to_map_lookup in E; [|done].
      rewrite Hpk in E. apply (Hn eq_refl k); [apply elem_of_keys; eauto|by eapply Hpref].
Qed.

(** The tree-ordered bytes of [k] start with [prefix]. *)
Definition tree_prefix k (prefix : list N) : Prop :=
  ∃ q, tree_ordered k = Some q ∧ take (length prefix) q = prefix.

Lemma pref_tree_prefix k prefix : key_ok KEY_LEN k → length prefix ≤ KEY_LEN →
  pref (KEY_LEN:=KEY_LEN) 0 k prefix ↔ tree_prefix k prefix.
Proof.
  intros Hk Hlen. destruct (tree_ordered_spec (O:=O) k Hk) as (q & Hq & Hok & Hd).
  assert (tree_prefix k prefix ↔ take (length prefix) q = prefix) as ->.
  { unfold tree_prefix. rewrite Hq. naive_solver. }
  pose proof (key_len _ _ Hok) as Hql. split.
  - intros Hp. apply list_eq_same_length with (length prefix); [done|rewrite length_take; lia|].
    intros i x y Hi Hx Hy. apply lookup_take_Some in Hx as [Hx _].
    specialize (Hp i ltac:(lia) Hi ltac:(lia)). rewrite <-Hd in Hp by lia.
    rewrite !nth_lookup, Hx, Hy in Hp. done.
  - intros E d _ Hlt HdK. rewrite <-Hd by done. rewrite <-E, nth_take by done. done.
Qed.

Lemma patch_has_prefix_spec p prefix : patch_ok p → length prefix ≤ KEY_LEN →
  ∃ r, has_prefix (KEY_LEN:=KEY_LEN) rand_hash p prefix = Some r ∧
    (r = true ↔ (∃ k, k ∈ dom (to_map p) ∧ tree_prefix k prefix) ∨ (proot p = None ∧ prefix = [])).
Proof.
  intros Hp Hlen. unfold has_prefix. destruct (proot p) as [h|] eqn:Hh.
  - pose proof (po_root _ Hp h Hh) as Hwf.
    destruct (has_prefix_spec rand_hash UNIT (S KEY_LEN) h 0 prefix) as (r & -> & Hr); [done|lia|lia|done|].
    exists r. split; [done|]. rewrite Hr. split.
    + intros (k & Hk & Hpr). left. exists k. rewrite (dom_root p h) by done. split; [done|].
      apply pref_tree_prefix; [by eapply keys_ok|done|done].
    + intros [(k & Hk & Hpr)|[? _]]; [|done]. rewrite (dom_root p h) in Hk by done.
      exists k. split; [done|]. apply pref_tree_prefix; [by eapply keys_ok|done|done].
  - eexists. split; [done|]. rewrite Nat.eqb_eq. split.
    + intros E%nil_length_inv. by right.
    + intros [(k & Hk & _)|[_ ->]]; [|done]. rewrite elem_of_dom_keys in Hk by done.
      unfold pkvs in Hk. rewrite Hh in Hk. by apply elem_of_nil in Hk.
Qed.

(** [has_prefix] decides whether some key starts with the prefix, except on
    the empty PATCH, where it answers whether the prefix is empty. *)
Theorem has_prefix_refines p prefix : patch_ok p → length prefix ≤ KEY_LEN →
  ∃ r, has_prefix (KEY_LEN:=KEY_LEN) rand_hash p prefix = Some r ∧
    (r = true ↔ (∃ k, k ∈ dom (to_map p) ∧ tree_prefix k prefix) ∨ (proot p = None ∧ prefix = [])).
Proof. apply patch_has_prefix_spec. Qed.

(** ** Summaries *)

Lemma patch_len_spec p : patch_ok p →
  len p = N.of_nat (size (to_map p)) ∧ (is_empty p = true ↔ to_map p = ∅).
Proof.
  intros Hp. assert (len p = N.of_nat (size (to_map p))) as Hlen.
  { rewrite <-length_map_to_list. unfold to_map. rewrite map_to_list_to_map by by apply pkvs_NoDup.
    unfold len, pkvs.
    destruct (proot p) as [h|] eqn:Hh; [|done]. by apply (count_kvs rand_hash UNIT), Hp. }
  split; [done|]. unfold is_empty. rewrite Hlen, N.eqb_eq, <-map_size_empty_iff. lia.
Qed.

(** [len] is the number of keys, and [is_empty] says there is none. *)
Theorem len_size p : patch_ok p →
  len p = N.of_nat (size (to_map p)) ∧ (is_empty p = true ↔ to_map p = ∅).
Proof. apply patch_len_spec. Qed.

Lemma new_ok : patch_ok new.
Proof. by split. Qed.
End spec.

(** ** Set algebra *)

Section algebra.
Context {KEY_LEN : nat} {O : KeySchema KEY_LEN} `{!KeySchemaOk KEY_LEN O}.
Context {H : PatchHash} `{!PatchHashOk H} {V V' : Type}.
Context (rand_hash : N → N) (UNIT : V) (UNIT' : V').
Abbreviation to_map := (to_map UNIT).
Abbreviation to_map' := (Patch.to_map UNIT').
Abbreviation patch_ok := (patch_ok rand_hash UNIT).
Abbreviation patch_ok' := (Patch.patch_ok rand_hash UNIT').
Abbreviation wf := (wf rand_hash UNIT).
Abbreviation kvs := (kvs UNIT).

(** No subtree of [p] collides with a subtree of [p']: where the digests the two
    tries cache are equal, so are the keys below. *)
Definition no_collision (p : PATCH Digest V) (p' : PATCH Digest V') : Prop :=
  match proot p, proot p' with
  | Some h, Some h' => distinguishes UNIT UNIT' h h'
  | _, _ => True
  end.

#[global] Instance no_collision_dec p p' : Decision (no_collision p p').
Proof. unfold no_collision. destruct (proot p), (proot p'); apply _. Defined.

Lemma no_collision_roots p p' h h' : no_collision p p' → proot p = Some h → proot p' = Some h' →
  distinguishes UNIT UNIT' h h'.
Proof. unfold no_collision. intros Hn E E'. by rewrite E, E' in Hn. Qed.

Lemma dom_None {W} (UNIT0 : W) (p : PATCH Digest W) : proot p = None → dom (Patch.to_map UNIT0 p) = ∅.
Proof. intros E. unfold Patch.to_map, pkvs. rewrite E. apply dom_empty_L. Qed.

Lemma dom_Some {W} (UNIT0 : W) (p : PATCH Digest W) h : Patch.patch_ok rand_hash UNIT0 p →
  proot p = Some h → childleaf_key h ∈ dom (Patch.to_map UNIT0 p).
Proof.
  intros Hp Hh. apply (dom_root rand_hash UNIT0 p h); [done..|].
  apply (childleaf_key_in rand_hash UNIT0). by apply Hp.
Qed.

Lemma root_hash_dom (p : PATCH Digest V) (p' : PATCH Digest V') :
  patch_ok p → patch_ok' p' → dom (to_map p) = dom (to_map' p') → root_hash p = root_hash p'.
Proof.
  intros Hp Hp' E. unfold root_hash.
  destruct (proot p) as [h|] eqn:Hh, (proot p') as [h'|] eqn:Hh'; simpl; [| | |done].
  - f_equal. apply (keys_hash rand_hash UNIT UNIT'); [by apply Hp|by apply Hp'|]. intros k.
    by rewrite <-(dom_root rand_hash UNIT p h), <-(dom_root rand_hash UNIT' p' h'), E by done.
  - exfalso. pose proof (dom_Some UNIT p h Hp Hh) as Hin. rewrite E, dom_None in Hin by done. set_solver.
  - exfalso. pose proof (dom_Some UNIT' p' h' Hp' Hh') as Hin. rewrite <-E, dom_None in Hin by done. set_solver.
Qed.

(** C9. The root digest is a function of the key set: PATCHes over the same
    keys have the same root hash and compare equal, whatever their values,
    their histories and the order of their insertions. *)
Theorem root_hash_canonical (p : PATCH Digest V) (p' : PATCH Digest V') :
  patch_ok p → patch_ok' p' → dom (to_map p) = dom (to_map' p') →
  root_hash p = root_hash p' ∧ eq p p' = true.
Proof.
  intros Hp Hp' E. pose proof (root_hash_dom p p' Hp Hp' E) as Hr. split; [done|].
  unfold eq. by rewrite bool_decide_eq_true_2.
Qed.

Lemma patch_eq_spec (p : PATCH Digest V) (p' : PATCH Digest V') :
  patch_ok p → patch_ok' p' → no_collision p p' →
  eq p p' = bool_decide (dom (to_map p) = dom (to_map' p')).
Proof.
  intros Hp Hp' Hcf. apply eq_iff_eq_true. unfold eq. rewrite !bool_decide_eq_true.
  split; [|by apply root_hash_dom]. unfold root_hash. intros E.
  destruct (proot p) as [h|] eqn:Hh, (proot p') as [h'|] eqn:Hh'; simpl in *; try done.
  - apply set_eq. intros k. rewrite (dom_root rand_hash UNIT p h), (dom_root rand_hash UNIT' p' h') by done.
    apply (no_collision_roots p p' h h' Hcf Hh Hh'); [apply subtrees_self..|by injection E].
  - by rewrite !dom_None.
Qed.

(** Equality of PATCHes, which compares root digests, decides equality of
    key sets when the digests of the two do not collide. *)
Theorem eq_refines (p : PATCH Digest V) (p' : PATCH Digest V') :
  patch_ok p → patch_ok' p' → no_collision p p' →
  eq p p' = bool_decide (dom (to_map p) = dom (to_map' p')).
Proof. apply patch_eq_spec. Qed.

Lemma difference_with_guard_spec (p : PATCH Digest V) (p' : PATCH Digest V') guard :
  patch_ok p → patch_ok' p' → no_collision p p' → 0 < KEY_LEN →
  receipt_ok guard →
  ∃ r, difference_with_guard (KEY_LEN:=KEY_LEN) rand_hash p p' guard = Some r ∧ patch_ok r ∧
    to_map r = filter (λ kv, kv.1 ∉ dom (to_map' p')) (to_map p) ∧
    powners r = if decide (to_map r = ∅) then None else guard.
Proof.
  intros Hp Hp' Hcf HK Hg. unfold difference_with_guard.
  assert (∃ root, match proot p, proot p' with
      | Some root, Some other_root => difference (KEY_LEN:=KEY_LEN) rand_hash (S KEY_LEN) root other_root 0
      | Some root, None => Some (Some root)
      | None, _ => Some None
      end = Some root ∧ (∀ h, root = Some h → wf h) ∧
    ∀ k v, (k, v) ∈ from_option kvs [] root ↔ (k, v) ∈ pkvs UNIT p ∧ k ∉ dom (to_map' p'))
    as (root & -> & Hwf & Hkv).
  { destruct (proot p) as [h|] eqn:Hh.
    - assert (pkvs UNIT p = kvs h) as -> by (unfold pkvs; by rewrite Hh).
      destruct (proot p') as [h'|] eqn:Hh'.
      + destruct (difference_spec rand_hash UNIT UNIT' (S KEY_LEN) h h' 0)
          as (r & -> & Hwfr & Hr); [by eapply no_collision_roots|by apply Hp|by apply Hp'|lia|lia|lia|apply agree_0|].
        exists r. split_and!; [done..|]. intros k v. by rewrite Hr, (dom_root rand_hash UNIT' p' h').
      + exists (Some h). split_and!; [done|intros ? [= <-]; by apply Hp|].
        intros k v. rewrite dom_None by done. set_solver.
    - exists None. split_and!; [done..|]. intros k v. unfold pkvs. rewrite Hh. simpl. set_solver. }
  cbn [mbind option_bind]. set (r := mkPATCH root _).
  assert (patch_ok r) as Hr by (split; [done|]; by destruct root).
  exists r. split_and!; [done..| |].
  - apply map_eq. intros k. apply option_eq. intros v.
    rewrite (to_map_lookup rand_hash UNIT), map_lookup_filter_Some by done.
    rewrite (to_map_lookup rand_hash UNIT) by done. simpl. by rewrite <-Hkv.
  - subst r. simpl. destruct root as [h|]; [|by case_decide].
    rewrite decide_False; [done|]. intros E.
    pose proof (dom_Some UNIT _ h Hr eq_refl) as Hin. rewrite E, dom_empty_L in Hin. set_solver.
Qed.

(** C7. [difference], for any value type of the right operand, never panics and
    keeps exactly the bindings whose key the right operand lacks; the receipt is
    the left one, given up when nothing is left.  Hypothesis: no digest cached in
    the left trie is also cached in the right one for a different key set
    ([no_collision], about the subtrees of these two operands only). *)
Theorem difference_refines (p : PATCH Digest V) (p' : PATCH Digest V') :
  patch_ok p → patch_ok' p' → no_collision p p' → 0 < KEY_LEN →
  ∃ r, difference_keys (KEY_LEN:=KEY_LEN) rand_hash p p' = Some r ∧ patch_ok r ∧
    to_map r = filter (λ kv, kv.1 ∉ dom (to_map' p')) (to_map p) ∧
    powners r = if decide (to_map r = ∅) then None else powners p.
Proof. intros Hp Hp' Hcf HK. apply difference_with_guard_spec; try done. apply Hp. Qed.
End algebra.

Section algebra1.
Context {KEY_LEN : nat} {O : KeySchema KEY_LEN} `{!KeySchemaOk KEY_LEN O}.
Context {H : PatchHash} `{!PatchHashOk H} {V : Type}.
Context (rand_hash : N → N) (UNIT : V).
Abbreviation to_map := (to_map UNIT).
Abbreviation patch_ok := (patch_ok rand_hash UNIT).
Abbreviation wf := (wf rand_hash UNIT).
Abbreviation kvs := (kvs UNIT).
Abbreviation no_collision := (no_collision UNIT UNIT).
Implicit Types p q : PATCH Digest V.

(** Which operand a surviving value comes from is not specified: every binding
    of [r] is one of [p] or of [q]. *)
Definition values_from p q (r : PATCH Digest V) : Prop :=
  ∀ k v, to_map r !! k = Some v → to_map p !! k = Some v ∨ to_map q !! k = Some v.

(** The owners a union keeps alive: those of both operands, but an empty operand
    adds nothing to the other. *)
Definition retained_by_union p q : gset N :=
  if decide (to_map q = ∅) then owner_set (powners p)
  else if decide (to_map p = ∅) then owner_set (powners q)
  else owner_set (powners p) ∪ owner_set (powners q).

Lemma nonempty_map p h : patch_ok p → proot p = Some h → to_map p ≠ ∅.
Proof.
  intros Hp Hh E. pose proof (dom_Some rand_hash UNIT p h Hp Hh) as Hin.
  rewrite E, dom_empty_L in Hin. set_solver.
Qed.

Lemma patch_union_spec same_arc p q : patch_ok p → patch_ok q →
  no_collision p q → (same_arc = true → powners p = powners q) →
  ∃ r, union (KEY_LEN:=KEY_LEN) rand_hash same_arc p q = Some r ∧ patch_ok r ∧
    dom (to_map r) = dom (to_map p) ∪ dom (to_map q) ∧ values_from p q r ∧
    owner_set (powners r) = retained_by_union p q.
Proof.
  intros Hp Hq Hcf Harc. unfold union, values_from, retained_by_union.
  destruct (proot q) as [h'|] eqn:Hh'.
  2:{ pose proof (dom_None UNIT q Hh') as E. rewrite (decide_True (P:=to_map q = ∅)) by by apply dom_empty_iff_L.
      exists p. rewrite E. split_and!; [done..|set_solver|auto|done]. }
  rewrite (decide_False (P:=to_map q = ∅)) by by eapply nonempty_map.
  destruct (proot p) as [h|] eqn:Hh.
  2:{ pose proof (dom_None UNIT p Hh) as E. rewrite (decide_True (P:=to_map p = ∅)) by by apply dom_empty_iff_L.
      eexists. split; [done|]. assert (mkPATCH (Some h') (powners q) = q) as -> by (destruct q; by f_equal).
      rewrite E. split_and!; [done|set_solver|auto|done]. }
  rewrite (decide_False (P:=to_map p = ∅)) by by eapply nonempty_map.
  destruct (cover_union_spec same_arc (powners p) (powners q)) as (u & -> & Hu & Hus & _);
    [apply Hp|apply Hq|done|]. cbn [mbind option_bind].
  destruct (Algebra.union_spec rand_hash UNIT (S KEY_LEN) h h' 0)
    as (m & -> & Hwf & Hk & Hkv); [by eapply no_collision_roots|by apply Hp|by apply Hq|lia|apply agree_0|].
  cbn [mbind option_bind]. pose proof (patch_ok_root rand_hash UNIT m u Hwf Hu) as Hr.
  exists (mkPATCH (Some m) u). split_and!; [done..| | |done].
  - apply set_eq. intros k. rewrite elem_of_union, (dom_root rand_hash UNIT _ m),
      (dom_root rand_hash UNIT p h), (dom_root rand_hash UNIT q h') by done. apply Hk.
  - intros k v. rewrite !(to_map_lookup rand_hash UNIT) by done. unfold pkvs. rewrite Hh, Hh'. apply Hkv.
Qed.

(** C6. [union] never panics; its keys are those of either operand, each with
    the value an operand has for it, and it retains the owners of both, except
    that an operand that is empty adds no owners.  Hypotheses: no digest cached
    in the one trie is also cached in the other for a different key set
    ([no_collision], about the subtrees of these two operands only), and two
    receipts are one allocation only if they are equal. *)
Theorem union_refines same_arc p q : patch_ok p → patch_ok q →
  no_collision p q → (same_arc = true → powners p = powners q) →
  ∃ r, union (KEY_LEN:=KEY_LEN) rand_hash same_arc p q = Some r ∧ patch_ok r ∧
    dom (to_map r) = dom (to_map p) ∪ dom (to_map q) ∧ values_from p q r ∧
    owner_set (powners r) = retained_by_union p q.
Proof. apply patch_union_spec. Qed.

Lemma intersect_with_guard_spec p q guard : patch_ok p → patch_ok q →
  no_collision p q → 0 < KEY_LEN → receipt_ok guard →
  ∃ r, intersect_with_guard (KEY_LEN:=KEY_LEN) rand_hash p q guard = Some r ∧ patch_ok r ∧
    dom (to_map r) = dom (to_map p) ∩ dom (to_map q) ∧ values_from p q r ∧
    powners r = if decide (to_map r = ∅) then None else guard.
Proof.
  intros Hp Hq Hcf HK Hu. unfold intersect_with_guard, values_from.
  assert (∀ guard, patch_ok (mkPATCH None guard) → dom (to_map (mkPATCH None guard)) = ∅) as Hempty
    by (intros; by apply dom_None).
  destruct (proot p) as [h|] eqn:Hh, (proot q) as [h'|] eqn:Hh'.
  2-4: cbn [mbind option_bind]; eexists; split; [done|];
    assert (patch_ok (mkPATCH None None)) as Hr by by split.
  2-4: split_and!; [done| |intros k v; unfold Patch.to_map; simpl; by rewrite lookup_empty|by case_decide];
    rewrite Hempty by done; symmetry.
  2: rewrite (dom_None UNIT q) by done; set_solver.
  2: rewrite (dom_None UNIT p) by done; set_solver.
  2: rewrite (dom_None UNIT p) by done; set_solver.
  destruct (intersect_spec rand_hash UNIT (S KEY_LEN) h h' 0)
    as (m & -> & Hwf & Hk & Hkv); [by eapply no_collision_roots|by apply Hp|by apply Hq|lia|apply agree_0|].
  cbn [mbind option_bind].
  assert (∃ root, match m with Some root => r ← with_start root 0; Some (Some r) | None => Some None end
      = Some root ∧ (∀ h, root = Some h → wf h) ∧ from_option kvs [] root = from_option kvs [] m)
    as (root & -> & Hwfr & Hkvr).
  { destruct m as [m|]; [|by exists None]. rewrite (with_start_spec rand_hash UNIT) by auto.
    cbn [mbind option_bind]. eexists. split; [done|]. simpl. split; [|by rewrite kvs_with_key].
    intros ? [= <-]. apply wf_with_key. by apply Hwf. }
  cbn [mbind option_bind]. set (r := mkPATCH root _).
  assert (patch_ok r) as Hr by (split; [done|]; by destruct root).
  assert (pkvs UNIT r = from_option kvs [] m) as Hpr by done.
  exists r. split_and!; [done..| | |].
  - apply set_eq. intros k. rewrite elem_of_intersection, (dom_root rand_hash UNIT p h),
      (dom_root rand_hash UNIT q h'), (elem_of_dom_keys rand_hash UNIT r) by done.
    rewrite <-Hk, Hpr, list_elem_of_fmap, (okeys_kvs UNIT).
    split; [intros ([k' v] & -> & ?); by exists v|intros [v ?]; by exists (k, v)].
  - intros k v. rewrite !(to_map_lookup rand_hash UNIT) by done. rewrite Hpr. unfold pkvs.
    rewrite Hh, Hh'. apply Hkv.
  - subst r. simpl. destruct root as [h0|]; [|by case_decide]. rewrite decide_False; [done|]. intros E.
    pose proof (dom_Some rand_hash UNIT _ h0 Hr eq_refl) as Hin. rewrite E, dom_empty_L in Hin. set_solver.
Qed.

(** C8. [intersect] never panics; its keys are the common ones, each with the
    value an operand has for it, and it retains the owners of both operands
    unless it is empty.  Hypotheses as for the union: the digests cached in the
    two tries do not collide, and one allocation is one receipt. *)
Theorem intersect_refines same_arc p q : patch_ok p → patch_ok q →
  no_collision p q → (same_arc = true → powners p = powners q) →
  0 < KEY_LEN →
  ∃ r, intersect (KEY_LEN:=KEY_LEN) rand_hash same_arc p q = Some r ∧ patch_ok r ∧
    dom (to_map r) = dom (to_map p) ∩ dom (to_map q) ∧ values_from p q r ∧
    (to_map r ≠ ∅ → owner_set (powners r) = owner_set (powners p) ∪ owner_set (powners q)).
Proof.
  intros Hp Hq Hcf Harc HK. unfold intersect.
  destruct (cover_union_spec same_arc (powners p) (powners q)) as (u & -> & Hu & Hus & _);
    [apply Hp|apply Hq|done|]. cbn [mbind option_bind].
  destruct (intersect_with_guard_spec p q u) as (r & -> & Hr & Hd & Hv & Ho); [done..|].
  exists r. split_and!; [done..|]. intros Hne. by rewrite Ho, decide_False.
Qed.

(** [partial_cmp] never panics and is the inclusion order of the key sets:
    equal, contained, containing, or none of them. *)
Theorem partial_cmp_refines p q : patch_ok p → patch_ok q →
  no_collision p q →
  partial_cmp (KEY_LEN:=KEY_LEN) rand_hash p q = Some (
    if decide (dom (to_map p) ⊆ dom (to_map q)) then
      if decide (dom (to_map q) ⊆ dom (to_map p)) then Some Eq else Some Lt
    else if decide (dom (to_map q) ⊆ dom (to_map p)) then Some Gt else None).
Proof.
  intros Hp Hq Hcf. unfold partial_cmp.
  assert (∃ o, match proot p, proot q with
    | None, None => Some (Some Eq)
    | None, Some _ => Some (Some Lt)
    | Some _, None => Some (Some Gt)
    | Some root, Some other_root => inclusion (KEY_LEN:=KEY_LEN) rand_hash (S KEY_LEN) root other_root 0
    end = Some o ∧ (dom (to_map p) ⊆ dom (to_map q) ↔ below o = true) ∧
    (dom (to_map q) ⊆ dom (to_map p) ↔ above o = true)) as (o & -> & Hb & Ha).
  { destruct (proot p) as [h|] eqn:Hh, (proot q) as [h'|] eqn:Hh'.
    - destruct (inclusion_spec rand_hash UNIT (S KEY_LEN) h h' 0)
        as (o & -> & Hb & Ha); [by eapply no_collision_roots|by apply Hp|by apply Hq|lia|lia|lia|apply agree_0|].
      exists o. split; [done|]. rewrite <-Hb, <-Ha. unfold subset. rewrite !elem_of_subseteq.
        split; apply forall_proper; intros k; by rewrite (dom_root rand_hash UNIT p h), (dom_root rand_hash UNIT q h').
    - exists (Some Gt). split; [done|]. rewrite (dom_None UNIT q) by done.
      pose proof (dom_Some rand_hash UNIT p h Hp Hh). split; split; try done; set_solver.
    - exists (Some Lt). split; [done|]. rewrite (dom_None UNIT p) by done.
      pose proof (dom_Some rand_hash UNIT q h' Hq Hh'). split; split; try done; set_solver.
    - exists (Some Eq). split; [done|]. by rewrite !dom_None. }
  f_equal. destruct (below o) eqn:Eb.
  - rewrite decide_True by by apply Hb. destruct (above o) eqn:Ea.
    + rewrite decide_True by by apply Ha. by destruct o as [[]|].
    + rewrite decide_False by by rewrite Ha. by destruct o as [[]|].
  - rewrite decide_False by by rewrite Hb. destruct (above o) eqn:Ea.
    + rewrite decide_True by by apply Ha. by destruct o as [[]|].
    + rewrite decide_False by by rewrite Ha. by destruct o as [[]|].
Qed.
End algebra1.
