(* ===== verification/CheckedInsert.v ===== *)
(** * CheckedInsert: insertion with callbacks

    Source: [triblespace-core/src/patch/checked_insert.rs],
    [BranchMut::try_update_child] and [PATCH::try_insert_with].

    [vacant] makes the value of a new key, [occupied] judges the value of a
    present one; one of them runs.  A path of unshared branches is updated in
    place, from the first shared branch on nothing is touched before absence is
    known.  Which branches are shared is a matter of reference counts, which a
    pure model does not have: [is_unique] answers for the branch met at a given
    depth, and the theorem holds for every answer.  [&mut self] is state
    passing: every outcome, errors too, returns the head as the call leaves
    it. *)

From S2P Require Import Prelude OwnerCover ByteTable KeySchema PatchHash Branch Head Algebra.
From S2P Require Import Overlap Canonical Patch.

Open Scope nat_scope.

Inductive Position :=
  | Split (depth : nat) (old new : N)
  | Occupied
  | Child (depth : nat) (edge : N).

Section ops.
Context {KEY_LEN : nat} {O : KeySchema KEY_LEN} {H : PatchHash} {V : Type}.
Context (rand_hash : N → N) (UNIT : V).
Abbreviation PATCH := (PATCH Digest V).
Abbreviation head := (head Digest V).
Abbreviation branch := (branch Digest head).
Abbreviation branch_mut := (branch_mut (H:=H) (V:=V)).
Abbreviation hend := (hend (KEY_LEN:=KEY_LEN)).
Implicit Types (h : head) (b : branch) (key : list N).

(** The value of a leaf. *)
Definition leaf_value_of h : res V :=
  match h with
  | HLeaf _ l => Some (leaf_value l)
  | HLocalLeaf _ _ => Some UNIT
  | HBranch _ _ => None
  end.

Definition insertion_position h key (start : nat) : res Position :=
  match diverge (childleaf_key h) key start (hend h - start) with
  | Some (depth, old, new) => Some (Split depth old new)
  | None =>
      if hend h =? KEY_LEN then Some Occupied
      else edge ← tree_byte key (hend h); Some (Child (hend h) edge)
  end.

(** [BranchMut::try_update_child]: the aggregates change only when [update]
    reports an insertion. *)
Definition try_update_child {E} (ed : branch_mut) (key : N) (update : head → res (head * (E + bool)))
    : res (branch_mut * (E + bool)) :=
  let b := ed_branch ed in
  slot ← table_get_slot hkey rand_hash (child_table b) key;
  i ← slot;
  s ← child_table b !! i;
  child ← s;
  let old_hash := hhash child in
  old_segments ← count_segment child (end_depth b);
  let old_count := count child in
  let represented := ptr_eq (childleaf_ptr child) (childleaf b) in
  '(child, r) ← update child;
  let b := set_table b (<[i := Some child]> (child_table b)) in
  match r with
  | inr true =>
      '(d, dirty) ← (if INCREMENTAL_BRANCH && negb (hash_dirty ed) then
          d ← edit_branch (hash b) key (Some old_hash) (Some (hhash child)); Some (d, hash_dirty ed)
        else Some (hash b, true));
      sc ← checked_sub (segment_count b) old_segments;
      new_sc ← count_segment child (end_depth b);
      lc ← checked_sub (leaf_count b) old_count;
      let b := set_counts (set_hash b d) (lc + count child) (sc + new_sc) in
      let b := if represented then set_childleaf b (childleaf_ptr child) else b in
      Some (mkEd b dirty, r)
  | _ => Some (mkEd b (hash_dirty ed), r)
  end.

Section call.
Context {E : Type} (is_unique : nat → bool) (a : N) (vacant : unit → V) (occupied : V → option E).

(** [Entry::with_value(key, vacant()).leaf()]. *)
Definition new_leaf key : head := entry_leaf (with_value a key (vacant tt)).

(** [insert_shared_at]: [None] for a present key. *)
Fixpoint insert_shared_at (fuel : nat) h key (position : Position) : res (E + option head) :=
  match fuel with
  | 0 => None
  | S fuel =>
      match position with
      | Occupied =>
          v ← leaf_value_of h;
          Some (match occupied v with Some e => inl e | None => inr None end)
      | Split depth old new =>
          b ← branch_new depth (with_key h old) (with_key (new_leaf key) new);
          Some (inr (Some (HBranch (hkey h) b)))
      | Child depth edge =>
          match h with
          | HBranch _ b =>
              o ← table_get hkey rand_hash (child_table b) edge;
              inserted ← match o with
                | Some child =>
                    position ← insertion_position child key (S depth);
                    insert_shared_at fuel child key position
                | None => Some (inr (Some (with_key (new_leaf key) edge)))
                end;
              match inserted with
              | inl e => Some (inl e)
              | inr None => Some (inr None)
              | inr (Some inserted) =>
                  ed ← from_head h;
                  ed ← modify_child rand_hash ed edge (λ _, Some (Some inserted));
                  result ← ed_drop (KEY_LEN:=KEY_LEN) rand_hash (hkey h) ed;
                  Some (inr (Some result))
              end
          | _ => None
          end
      end
  end.

(** [Head::try_insert_with]: [start] identifies the call along the path. *)
Fixpoint try_insert (fuel : nat) h key (start : nat) : res (head * (E + bool)) :=
  match fuel with
  | 0 => None
  | S fuel =>
      position ← insertion_position h key start;
      if match h with HBranch _ _ => negb (is_unique start) | _ => false end then
        r ← insert_shared_at (S fuel) h key position;
        Some (match r with
              | inl e => (h, inl e)
              | inr (Some inserted) => (inserted, inr true)
              | inr None => (h, inr false)
              end)
      else
        match position with
        | Occupied =>
            v ← leaf_value_of h;
            Some (h, match occupied v with Some e => inl e | None => inr false end)
        | Split depth old new =>
            b ← branch_new depth (with_key h old) (with_key (new_leaf key) new);
            Some (HBranch (hkey h) b, inr true)
        | Child depth edge =>
            editor ← from_head h;
            o ← table_get hkey rand_hash (child_table (ed_branch editor)) edge;
            match o with
            | Some _ =>
                '(editor, r) ← try_update_child editor edge (λ child, try_insert fuel child key (S depth));
                h ← ed_drop (KEY_LEN:=KEY_LEN) rand_hash (hkey h) editor;
                Some (h, r)
            | None =>
                editor ← modify_child rand_hash editor edge (λ _, Some (Some (with_key (new_leaf key) edge)));
                h ← ed_drop (KEY_LEN:=KEY_LEN) rand_hash (hkey h) editor;
                Some (h, inr true)
            end
        end
  end.

(** [PATCH::try_insert_with]. *)
Definition try_insert_with (p : PATCH) key : res (PATCH * (E + bool)) :=
  match proot p with
  | Some root =>
      '(root, r) ← try_insert (S KEY_LEN) root key 0;
      Some (mkPATCH (Some root) (powners p), r)
  | None => Some (mkPATCH (Some (new_leaf key)) (powners p), inr true)
  end.
End call.
End ops.

(** ** Correctness *)

Section spec.
Context {KEY_LEN : nat} {O : KeySchema KEY_LEN} `{!KeySchemaOk KEY_LEN O}.
Context {H : PatchHash} `{!PatchHashOk H} {V : Type}.
Context (rand_hash : N → N) (UNIT : V).
Context {E : Type} (is_unique : nat → bool) (a : N) (vacant : unit → V) (occupied : V → option E).
Abbreviation PATCH := (PATCH Digest V).
Abbreviation head := (head Digest V).
Abbreviation branch := (branch Digest head).
Abbreviation kvs := (kvs UNIT).
Abbreviation keys := (keys UNIT).
Abbreviation wf := (wf rand_hash UNIT).
Abbreviation branch_ok := (branch_ok rand_hash UNIT).
Abbreviation kids b := (entries (child_table b)).
Abbreviation hend := (hend (KEY_LEN:=KEY_LEN)).
Abbreviation new_leaf := (new_leaf a vacant).
Implicit Types (h c : head) (b : branch) (k : list N).

(** Where a key belongs in a subtree whose prefix it shares up to [start]. *)
Inductive located h k : Position → Prop :=
  | loc_split d : d < hend h → agree d (childleaf_key h) k → tb (childleaf_key h) d ≠ tb k d →
      located h k (Split d (tb (childleaf_key h) d) (tb k d))
  | loc_occupied : is_leaf h → childleaf_key h = k → located h k Occupied
  | loc_child e b : h = HBranch e b → agree (end_depth b) (bytes (childleaf b)) k →
      located h k (Child (end_depth b) (tb k (end_depth b))).

Lemma insertion_position_spec h k start : wf h → key_ok KEY_LEN k → start ≤ hend h →
  agree start (childleaf_key h) k →
  ∃ pos, insertion_position (KEY_LEN:=KEY_LEN) h k start = Some pos ∧ located h k pos.
Proof.
  intros Hwf Hk Hst Ha. unfold insertion_position.
  pose proof (diverge_spec (O:=O) (childleaf_key h) k start (hend h - start)) as Hd.
  pose proof (hend_le rand_hash UNIT h Hwf) as Hle.
  destruct (diverge _ _ _ _) as [[[d x] y]|].
  - destruct Hd as (Hsd & -> & -> & Hne & Hi). eexists. split; [done|]. constructor; [lia| |done].
    intros i Hid. destruct (decide (i < start)); [by apply Ha|]. apply Hi. lia.
  - assert (agree (hend h) (childleaf_key h) k) as Hag.
    { intros i Hi. destruct (decide (i < start)); [by apply Ha|]. apply Hd. lia. }
    destruct (Nat.eqb_spec (hend h) KEY_LEN) as [E0|E0].
    + eexists. split; [done|]. constructor; [by apply (wf_full_leaf rand_hash UNIT)|].
      apply (tb_inj (O:=O)); [by eapply (childleaf_key_ok rand_hash UNIT)|done|].
      intros i Hi. apply Hag. lia.
    + destruct Hwf as [| |e b Hok _]; [done..|]. simpl in *. rewrite (tree_byte_tb (O:=O)) by (done || lia).
      cbn [mbind option_bind]. eexists. split; [done|]. by econstructor.
Qed.

Lemma new_leaf_wf k : key_ok KEY_LEN k → wf (new_leaf k).
Proof. by constructor. Qed.

(** [h'] is [h] with the absent key added. *)
Definition added h k h' : Prop :=
  k ∉ keys h ∧ wf h' ∧ hkey h' = hkey h ∧ kvs h' ≡ₚ (k, vacant tt) :: kvs h.

Lemma added_keys h k h' k' : added h k h' → k' ∈ keys h' ↔ k' = k ∨ k' ∈ keys h.
Proof. intros (_ & _ & _ & Hp). unfold Branch.keys. rewrite Hp. csimpl. apply elem_of_cons. Qed.

Lemma split_added h k d : wf h → key_ok KEY_LEN k → d < hend h → agree d (childleaf_key h) k →
  tb (childleaf_key h) d ≠ tb k d →
  ∃ b, branch_new d (with_key h (tb (childleaf_key h) d)) (with_key (new_leaf k) (tb k d)) = Some b ∧
    added h k (HBranch (hkey h) b).
Proof.
  intros Hwf Hk Hd Ha Hne. pose proof (hend_le rand_hash UNIT h Hwf) as Hle.
  destruct (split_spec rand_hash UNIT h (new_leaf k) d (hkey h)) as (b & Hb & Hwfb & Hkv & Hdis & _);
    [done|by apply new_leaf_wf|done|simpl; lia|done..|].
  exists b. unfold branch_new, new_with_rchild_hash. rewrite !hhash_with_key. split; [exact Hb|].
  split_and!; [|done..|].
  - intros Hin. apply (Hdis _ Hin). by left.
  - rewrite Hkv. rewrite (Permutation_app_comm (kvs h)). done.
Qed.

(** Hanging a subtree below the edge of a branch. *)
Lemma child_added e b k o es n : branch_ok wf b false → 2 ≤ length (kids b) →
  kids b ≡ₚ option_list o ++ es → (∀ c, o = Some c → hkey c = tb k (end_depth b)) →
  tb k (end_depth b) ∉ hkey <$> es → agree (end_depth b) (bytes (childleaf b)) k →
  k ∉ from_option keys [] o → wf n → hkey n = tb k (end_depth b) →
  kvs n ≡ₚ (k, vacant tt) :: from_option kvs [] o →
  ∃ ed h', ed_modify rand_hash None (mkEd b false) (tb k (end_depth b))
      (λ _, Some (Some n, tt)) = Some (ed, tt) ∧
    ed_drop (KEY_LEN:=KEY_LEN) rand_hash e ed = Some h' ∧ added (HBranch e b) k h'.
Proof.
  intros Hok Hlen Hes Ho Hfresh Ha Hno Hwfn Hkn Hn.
  destruct (descend_edit rand_hash UNIT None b (tb k (end_depth b)) o es (λ _, Some (Some n, tt)) n tt e)
    as (ed & b' & Hed & Hdrop & Hwf' & Hkv & _); try done.
  - intros k' Hk'. unfold Branch.keys in Hk'. rewrite Hn in Hk'. csimpl in Hk'.
    apply elem_of_cons in Hk' as [->|Hk']; [right; split; [by apply agree_sym|done]|left]. by destruct o.
  - exists ed, (HBranch e b'). split_and!; [done..|]. split_and!; [|done..|].
    + by rewrite (keys_in_child rand_hash UNIT e b false (tb k (end_depth b)) o es k).
    + rewrite Hkv, Hn, (kvs_split UNIT b e o es Hes). done.
Qed.

Lemma try_update_same b key c es update (r : E + bool) : branch_ok wf b false → kids b ≡ₚ c :: es →
  hkey c = key → key ∉ hkey <$> es → update c = Some (c, r) → r ≠ inr true →
  try_update_child rand_hash (mkEd b false) key update = Some (mkEd b false, r).
Proof.
  intros Hok Hes Hc Hfresh Hu Hr.
  destruct (slot_cases rand_hash UNIT b false key (Some c) es Hok Hes) as (i & Hslot & Hi & _);
    [by intros ? [= <-]|done|].
  pose proof (bo_depth _ _ _ _ _ Hok) as Hd.
  assert (wf c) as Hwfc by (eapply bo_children; [done|]; rewrite Hes; by left).
  unfold try_update_child. simpl ed_branch. rewrite Hslot. cbn [mbind option_bind]. rewrite Hi.
  cbn [mbind option_bind]. rewrite (wf_count_segment rand_hash UNIT c _ Hwfc Hd).
  cbn [mbind option_bind]. rewrite Hu. cbn [mbind option_bind]. rewrite list_insert_id by done.
  destruct b. by destruct r as [|[]].
Qed.

Lemma try_update_modify b key c es c' update ed : branch_ok wf b false → kids b ≡ₚ c :: es →
  hkey c = key → key ∉ hkey <$> es → update c = Some (c', inr true) → hkey c' = key →
  ed_modify rand_hash None (mkEd b false) key (λ _, Some (Some c', tt)) = Some (ed, tt) →
  try_update_child (E:=E) rand_hash (mkEd b false) key update = Some (ed, inr true).
Proof.
  intros Hok Hes Hc Hfresh Hu Hc'.
  destruct (slot_cases rand_hash UNIT b false key (Some c) es Hok Hes) as (i & Hslot & Hi & _);
    [by intros ? [= <-]|done|].
  pose proof (bo_depth _ _ _ _ _ Hok) as Hd.
  assert (wf c) as Hwfc by (eapply bo_children; [done|]; rewrite Hes; by left).
  unfold ed_modify, modify_child_gen, try_update_child, edit_hash. simpl ed_branch. simpl hash_dirty.
  rewrite Hslot. cbn [mbind option_bind]. rewrite Hi. cbn [mbind option_bind].
  change (end_depth (set_table b _)) with (end_depth b).
  rewrite (wf_count_segment rand_hash UNIT c _ Hwfc Hd). cbn [mbind option_bind]. rewrite Hu.
  cbn [mbind option_bind negb andb]. rewrite andb_true_r. simpl child_table. simpl hash. simpl segment_count.
  simpl leaf_count. simpl childleaf.
  assert (with_key c' key = c') as -> by (rewrite <-Hc'; apply with_key_id).
  destruct INCREMENTAL_BRANCH; cbn [negb andb orb mbind option_bind].
  1: destruct (edit_branch _ _ _ _) as [d|]; cbn [mbind option_bind]; [|done].
  all: destruct (checked_sub (segment_count b) _) as [sc|]; cbn [mbind option_bind]; [|done];
    change (end_depth (set_table b _)) with (end_depth b);
    destruct (count_segment c' (end_depth b)) as [nsc|]; cbn [mbind option_bind]; [|done];
    destruct (checked_sub (leaf_count b) _) as [lc|]; cbn [mbind option_bind]; [|done];
    intros [= <-]; destruct (ptr_eq _ _); unfold set_table, set_childleaf, set_counts, set_hash; simpl;
    by rewrite list_insert_insert_eq.
Qed.

(** What a call leaves behind: an added key, or the head it found. *)
Definition outcome h k h' (r : E + bool) : Prop :=
  (added h k h' ∧ r = inr true) ∨
  (h' = h ∧ ∃ v, (k, v) ∈ kvs h ∧ r = match occupied v with Some e => inl e | None => inr false end).

Lemma occupied_outcome h k : wf h → is_leaf h → childleaf_key h = k →
  ∃ v, leaf_value_of UNIT h = Some v ∧
    outcome h k h (match occupied v with Some e => inl e | None => inr false end).
Proof.
  intros Hwf Hl <-. destruct h as [e l|e p|]; [| |done]; eexists; (split; [done|]); right;
    (split; [done|]); eexists; (split; [by left|done]).
Qed.

(** The child at the edge of a key, and what belongs to it. *)
Lemma child_cases e b k : wf (HBranch e b) → key_ok KEY_LEN k →
  agree (end_depth b) (bytes (childleaf b)) k → ∃ o es,
    table_get hkey rand_hash (child_table b) (tb k (end_depth b)) = Some o ∧
    kids b ≡ₚ option_list o ++ es ∧ (∀ c, o = Some c → hkey c = tb k (end_depth b)) ∧
    tb k (end_depth b) ∉ hkey <$> es ∧
    (∀ c, o = Some c → wf c ∧ end_depth b < hend c ∧ agree (S (end_depth b)) (childleaf_key c) k) ∧
    ∀ v, (k, v) ∈ kvs (HBranch e b) ↔ (k, v) ∈ from_option kvs [] o.
Proof.
  intros Hwf Hk Ha. inversion Hwf as [| |? ? Hok Hlen]; subst.
  destruct (kids_split rand_hash UNIT b false (tb k (end_depth b)) Hok) as (o & es & Hes & Ho & Hfresh).
  exists o, es. split_and!; [by eapply (table_get_kids rand_hash UNIT)|done..| |].
  - intros c ->. assert (c ∈ kids b) as Hc by (rewrite Hes; by left).
    pose proof (bo_children _ _ _ _ _ Hok c Hc) as Hwfc. split_and!; [done|by eapply (child_hend rand_hash UNIT)|].
    destruct (bo_keys _ _ _ _ _ Hok c (childleaf_key c) Hc) as [Hag Hb]; [by eapply (childleaf_key_in rand_hash UNIT)|].
    apply agree_S; [by eapply agree_trans|]. by rewrite Hb, (Ho c).
  - intros v. by eapply kvs_in_child.
Qed.

Lemma insert_shared_at_spec fuel h k pos : wf h → key_ok KEY_LEN k → located h k pos →
  KEY_LEN - hend h < fuel →
  ∃ r, insert_shared_at (KEY_LEN:=KEY_LEN) rand_hash UNIT a vacant occupied fuel h k pos = Some r ∧
    outcome h k (match r with inr (Some h') => h' | _ => h end)
      (match r with inl e => inl e | inr (Some _) => inr true | inr None => inr false end).
Proof.
  revert h pos. induction fuel as [|fuel IH]; intros h pos Hwf Hk Hloc Hfuel; [lia|].
  destruct Hloc as [d Hd Ha Hne|Hl Hkey|e b -> Ha]; cbn [insert_shared_at].
  - destruct (split_added h k d) as (b & -> & Hadd); [done..|]. cbn [mbind option_bind].
    eexists. split; [done|]. by left.
  - destruct (occupied_outcome h k Hwf Hl Hkey) as (v & -> & Ho). cbn [mbind option_bind].
    eexists. split; [done|]. by destruct (occupied v).
  - destruct (child_cases e b k Hwf Hk Ha) as (o & es & -> & Hes & Hok' & Hfresh & Hc & Hkv).
    cbn [mbind option_bind]. inversion Hwf as [| |? ? Hok Hlen]; subst. simpl in Hfuel.
    assert (∀ n, k ∉ from_option keys [] o → wf n → hkey n = tb k (end_depth b) →
      kvs n ≡ₚ (k, vacant tt) :: from_option kvs [] o → ∃ ed h',
      modify_child rand_hash (mkEd b false) (tb k (end_depth b)) (λ _, Some (Some n)) = Some ed ∧
      ed_drop (KEY_LEN:=KEY_LEN) rand_hash e ed = Some h' ∧ added (HBranch e b) k h') as Hput.
    { intros n Hno Hwfn Hkn Hn. destruct (child_added e b k o es n) as (ed & h' & Hed & Hdrop & Hadd); try done.
      exists ed, h'. split_and!; [|done..]. unfold modify_child. cbn [mbind option_bind]. by rewrite Hed. }
    destruct o as [c|].
    + destruct (Hc c eq_refl) as (Hwfc & Hend & Hag). pose proof (hend_le rand_hash UNIT c Hwfc).
      destruct (insertion_position_spec c k (S (end_depth b))) as (pos & -> & Hloc); [done|done|lia|done|].
      cbn [mbind option_bind]. destruct (IH c pos) as (r & -> & Hr); [done|done|done|lia|].
      cbn [mbind option_bind]. destruct r as [x|[c'|]].
      * destruct Hr as [[_ [=]]|(_ & v & Hv & Hx)]. eexists. split; [done|]. right. split; [done|].
        exists v. by rewrite Hkv.
      * destruct Hr as [[(Hno & Hwf' & Hk' & Hp) _]|(_ & v & _ & Hx)]; [|by destruct (occupied v)].
        destruct (Hput c') as (ed & h' & Hed & Hdrop & Hadd); [done|done|by rewrite Hk', (Hok' c)|done|].
        simpl. rewrite Hed. cbn [mbind option_bind]. rewrite Hdrop. eexists. split; [done|]. by left.
      * destruct Hr as [[_ [=]]|(_ & v & Hv & Hx)]. eexists. split; [done|]. right. split; [done|].
        exists v. by rewrite Hkv.
    + cbn [mbind option_bind].
      destruct (Hput (with_key (new_leaf k) (tb k (end_depth b)))) as (ed & h' & Hed & Hdrop & Hadd);
        [set_solver|by apply wf_with_key, new_leaf_wf|apply with_key_hkey|done|].
      simpl from_head. cbn [mbind option_bind]. rewrite Hed. cbn [mbind option_bind]. simpl hkey. rewrite Hdrop.
      eexists. split; [done|]. by left.
Qed.

Lemma try_insert_spec fuel h k start : wf h → key_ok KEY_LEN k → start ≤ hend h →
  agree start (childleaf_key h) k → KEY_LEN - hend h < fuel →
  ∃ h' r, try_insert (KEY_LEN:=KEY_LEN) rand_hash UNIT is_unique a vacant occupied fuel h k start = Some (h', r) ∧
    outcome h k h' r.
Proof.
  revert h start. induction fuel as [|fuel IH]; intros h start Hwf Hk Hst Hag Hfuel; [lia|]. cbn [try_insert].
  destruct (insertion_position_spec h k start) as (pos & -> & Hloc); [done..|]. cbn [mbind option_bind].
  destruct (match h with HBranch _ _ => _ | _ => _ end).
  { destruct (insert_shared_at_spec (S fuel) h k pos) as (r & -> & Ho); [done..|]. cbn [mbind option_bind].
    destruct r as [x|[h'|]]; eexists _, _; split; done. }
  destruct Hloc as [d Hd Ha Hne|Hl Hkey|e b -> Ha].
  - destruct (split_added h k d) as (b & -> & Hadd); [done..|]. cbn [mbind option_bind].
    eexists _, _. split; [done|]. by left.
  - destruct (occupied_outcome h k Hwf Hl Hkey) as (v & -> & Ho). cbn [mbind option_bind]. by eexists _, _.
  - destruct (child_cases e b k Hwf Hk Ha) as (o & es & Hget & Hes & Hok' & Hfresh & Hc & Hkv).
    inversion Hwf as [| |? ? Hok Hlen]; subst. simpl in Hfuel. simpl from_head. cbn [mbind option_bind].
    simpl ed_branch. rewrite Hget. cbn [mbind option_bind]. destruct o as [c|].
    + destruct (Hc c eq_refl) as (Hwfc & Hend & Hagc). pose proof (hend_le rand_hash UNIT c Hwfc).
      destruct (IH c (S (end_depth b))) as (c' & r & Hr & Ho); [done|done|lia|done|lia|].
      destruct Ho as [[(Hno & Hwf' & Hk' & Hp) ->]|(-> & v & Hv & Hx)].
      * destruct (child_added e b k (Some c) es c') as (ed & h' & Hed & Hdrop & Hadd); try done.
        { by rewrite Hk', (Hok' c). }
        rewrite (try_update_modify b _ c es c' _ ed); try done; [|by apply Hok'|by rewrite Hk', (Hok' c)].
        cbn [mbind option_bind]. simpl hkey. rewrite Hdrop. eexists _, _. split; [done|]. by left.
      * rewrite (try_update_same b _ c es _ r); try done; [|by apply Hok'|by rewrite Hx; destruct (occupied v)].
        cbn [mbind option_bind]. unfold ed_drop. simpl hash_dirty. rewrite andb_false_r. cbn [mbind option_bind].
        eexists _, _. split; [done|]. right. split; [done|]. exists v. by rewrite Hkv.
    + destruct (child_added e b k None es (with_key (new_leaf k) (tb k (end_depth b)))) as (ed & h' & Hed & Hdrop & Hadd);
        try done; [apply not_elem_of_nil|by apply wf_with_key, new_leaf_wf|].
      unfold modify_child. cbn [mbind option_bind]. rewrite Hed. cbn [mbind option_bind]. simpl hkey. rewrite Hdrop.
      eexists _, _. split; [done|]. by left.
Qed.

(** [try_insert_with] never panics and decides by the whole key: for an
    absent key it binds the key to the value [vacant] makes and reports an
    insertion; for a present one [occupied] judges the value, its error is the
    result, and the PATCH is exactly the one found, whatever is shared. *)
Theorem try_insert_with_refines p k : patch_ok rand_hash UNIT p → key_ok KEY_LEN k →
  ∃ p' r, try_insert_with (KEY_LEN:=KEY_LEN) rand_hash UNIT is_unique a vacant occupied p k = Some (p', r) ∧
    patch_ok rand_hash UNIT p' ∧
    match to_map UNIT p !! k with
    | None => r = inr true ∧ to_map UNIT p' = <[k := vacant tt]> (to_map UNIT p) ∧ powners p' = powners p
    | Some v => p' = p ∧ r = match occupied v with Some e => inl e | None => inr false end
    end.
Proof.
  intros Hp Hk. unfold try_insert_with. destruct (proot p) as [h|] eqn:Hh.
  - pose proof (po_root _ _ _ Hp h Hh) as Hwf.
    destruct (try_insert_spec (S KEY_LEN) h k 0) as (h' & r & -> & Ho); [done|done|lia|apply agree_0|lia|].
    cbn [mbind option_bind]. eexists _, r. split; [done|].
    assert (pkvs UNIT p = kvs h) as Hpk by (unfold pkvs; by rewrite Hh).
    destruct Ho as [[(Hno & Hwf' & _ & Hkv) ->]|(-> & v & Hv & ->)].
    + destruct (inserted_map rand_hash UNIT p h' k (vacant tt) (powners p)) as [Hp' Hm]; try done; [by apply Hp| |].
      { rewrite decide_False; [by rewrite Hkv, Hpk|]. by rewrite Hpk. }
      split; [done|]. assert (to_map UNIT p !! k = None) as Hnone.
      { apply (to_map_None rand_hash UNIT); [done|]. by rewrite Hpk. }
      rewrite Hnone. split_and!; [done| |done]. rewrite Hm. symmetry. rewrite insert_union_singleton_l.
      by apply map_union_comm, map_disjoint_singleton_l.
    + assert (mkPATCH (Some h) (powners p) = p) as -> by (destruct p; simpl in *; congruence).
      split; [done|]. assert (to_map UNIT p !! k = Some v) as ->; [|done].
      apply (to_map_lookup rand_hash UNIT); [done|]. by rewrite Hpk.
  - eexists _, _. split; [done|]. assert (to_map UNIT p = ∅) as Hm by (unfold to_map, pkvs; by rewrite Hh).
    destruct (inserted_map rand_hash UNIT p (new_leaf k) k (vacant tt) (powners p)) as [Hp' Hm'];
      try done; [by apply new_leaf_wf|by apply Hp|unfold pkvs; by rewrite Hh|].
    split; [done|]. rewrite Hm, lookup_empty. split_and!; [done| |done]. by rewrite Hm', Hm, (left_id_L ∅ _).
Qed.
End spec.
