(* ===== verification/Examples.v ===== *)
(** * Examples: a concrete PATCH, and the properties at work on it

    One-byte keys under the identity schema and the XOR policy with FNV-1a on
    128 bits as the leaf digest.  That the digests of two operands do not
    collide, the hypothesis of the set-algebra theorems, is decided by
    computation, on operands of three or four keys and on two of 200 keys each,
    more than a digest has bits.  The witnesses apply the theorems of [Patch] to
    them. *)

From S2P Require Import Prelude OwnerCover ByteTable KeySchema PatchHash Branch Head Algebra.
From S2P Require Import Overlap Canonical XorDigest Patch CheckedInsert.

Open Scope nat_scope.

(** ** The instance *)

(** FNV-1a with its 128-bit parameters. *)
Definition fnv1a (k : list N) : N :=
  foldl (λ h b, u128 (N.lxor h b * 0x1000000000000000000013B)) 0x6C62272E07BB014262B821756295C58D%N k.

Definition ex_sip : list N → N := fnv1a.

#[local] Instance ex_schema : KeySchema 1 := IdentitySchema 1.
#[local] Instance ex_schema_ok : KeySchemaOk 1 ex_schema := identity_schema_ok 1.
#[local] Instance ex_policy : PatchHash := XorSip128 ex_sip.
#[local] Instance ex_policy_ok : PatchHashOk ex_policy := XorSip128_ok ex_sip.

Abbreviation ex_PATCH := (PATCH Digest N).

(** One-byte keys. *)
Definition small_key (k : list N) : Prop := ∃ b, k = [b] ∧ (b < 256)%N.

Lemma small_key_ok k : small_key k → key_ok 1 k.
Proof. intros (b & -> & Hb). split; [done|]. by intros x ->%list_elem_of_singleton. Qed.

(** A PATCH built by insertion. *)
Definition ex_patch (l : list (N * N)) : ex_PATCH :=
  default new (foldM (λ p kv, insert (KEY_LEN:=1) ex_rand p (with_value (kv.1 * 16) [kv.1] kv.2)) new l).

Lemma ex_patch_spec (l : list (N * N)) : Forall (λ kv, (kv.1 < 256)%N) l →
  patch_ok ex_rand 0%N (ex_patch l) ∧ powners (ex_patch l) = None ∧
  to_map 0%N (ex_patch l) = foldl (λ m kv, m ∪ {[ [kv.1] := kv.2 ]}) ∅ l.
Proof.
  intros Hl. unfold ex_patch.
  assert (∀ p, patch_ok ex_rand 0%N p → ∃ p', foldM (λ p kv,
      insert (KEY_LEN:=1) ex_rand p (with_value (kv.1 * 16) [kv.1] kv.2)) p l = Some p' ∧
    patch_ok ex_rand 0%N p' ∧ powners p' = powners p ∧
    to_map 0%N p' = foldl (λ m kv, m ∪ {[ [kv.1] := kv.2 ]}) (to_map 0%N p) l) as Hf.
  { induction Hl as [|[k v] l Hk Hl IH]; intros p Hp; [by exists p|]. cbn [foldM fst snd].
    destruct (insert_spec ex_rand 0%N p (k * 16) [k] v Hp) as (p1 & -> & Hp1 & Hm1 & Ho1).
    { apply small_key_ok. by exists k. }
    cbn [mbind option_bind].
    destruct (IH p1 Hp1) as (p' & -> & Hp' & Ho & Hm). exists p'. split_and!; try done; [congruence|].
    by rewrite Hm, Hm1. }
  destruct (Hf new (new_ok _ _)) as (p' & -> & Hp' & Ho & Hm). simpl. by split_and!.
Qed.

Lemma ex_patch_ok l : Forall (λ kv, (kv.1 < 256)%N) l → patch_ok ex_rand 0%N (ex_patch l).
Proof. apply ex_patch_spec. Qed.

Ltac ex_small := repeat constructor.

(** ** The properties of [Patch] on it *)

(** Three keys, the second one in a table that had to grow. *)
Definition ex_p : ex_PATCH := ex_patch [(7, 70); (20, 200); (90, 900)]%N.
Definition ex_q : ex_PATCH := ex_patch [(20, 201); (90, 900); (91, 910); (3, 30)]%N.

Lemma ex_p_ok : patch_ok ex_rand 0%N ex_p.
Proof. apply ex_patch_ok. ex_small. Qed.
Lemma ex_q_ok : patch_ok ex_rand 0%N ex_q.
Proof. apply ex_patch_ok. ex_small. Qed.
Lemma ex_key_ok (b : N) : (b < 256)%N → key_ok 1 [b].
Proof. intros Hb. apply small_key_ok. by exists b. Qed.
(** Decided on the digests cached in the two tries. *)
Lemma ex_pq_collision : no_collision 0%N 0%N ex_p ex_q.
Proof. apply (bool_decide_unpack _). vm_compute. exact I. Qed.

(** Two PATCHes of 200 keys each, of which 144 are common. *)
Definition ex_range (from : nat) : list (N * N) := (λ i, (N.of_nat i, N.of_nat i)) <$> seq from 200.
Definition ex_low : ex_PATCH := ex_patch (ex_range 0).
Definition ex_high : ex_PATCH := ex_patch (ex_range 56).
Lemma ex_range_ok from : (from ≤ 56)%nat → patch_ok ex_rand 0%N (ex_patch (ex_range from)).
Proof.
  intros Hf. apply ex_patch_ok, Forall_fmap, Forall_forall. intros i Hi%elem_of_seq. simpl. lia.
Qed.
Lemma ex_range_collision : no_collision 0%N 0%N ex_low ex_high.
Proof. apply (bool_decide_unpack _). vm_compute. exact I. Qed.

Lemma insert_refines_witness :
  ∃ p', insert (KEY_LEN:=1) ex_rand ex_p (with_value 5 [20] 999)%N = Some p' ∧ len p' = 3%N ∧
    to_map 0%N p' = to_map 0%N ex_p ∪ {[ [20%N] := 999%N ]}.
Proof.
  destruct (insert_refines ex_rand 0%N ex_p 5%N [20%N] 999%N ex_p_ok) as (p' & Hp' & _ & Hm & _);
    [by apply ex_key_ok|].
  exists p'. split; [done|]. split; [|done]. vm_compute in Hp'. injection Hp' as <-. reflexivity.
Defined.

Lemma insert_archive_refines_witness :
  ∃ p', insert_archive (KEY_LEN:=1) ex_rand ex_p (archive_entry_new (mkPtr 64 [21]) 32)%N = Some p' ∧
    len p' = 4%N ∧ to_map 0%N p' = to_map 0%N ex_p ∪ {[ [21%N] := 0%N ]} ∧
    owner_set (powners p') = {[32%N]} ∪ owner_set (powners ex_p).
Proof.
  destruct (insert_archive_refines ex_rand 0%N ex_p (mkPtr 64 [21])%N 32%N ex_p_ok)
    as (p' & Hp' & _ & Hm & Ho); [by apply ex_key_ok|done|].
  exists p'. split; [done|]. split; [|done]. vm_compute in Hp'. injection Hp' as <-. reflexivity.
Defined.

Lemma replace_refines_witness :
  ∃ p' retired, replace (KEY_LEN:=1) ex_rand ex_p (with_value 5 [20] 999)%N = Some (p', retired) ∧
    to_map 0%N p' = <[ [20%N] := 999%N ]> (to_map 0%N ex_p) ∧ is_Some retired.
Proof.
  destruct (replace_refines ex_rand 0%N ex_p 5%N [20%N] 999%N ex_p_ok) as (p' & ret & Hp' & _ & Hm & _);
    [by apply ex_key_ok|].
  exists p', ret. split; [done|]. split; [done|]. vm_compute in Hp'. injection Hp' as <- <-. by eexists.
Defined.

Lemma remove_refines_witness :
  ∃ p' owners retired, remove (KEY_LEN:=1) ex_rand ex_p [20%N] = Some (p', owners, retired) ∧
    to_map 0%N p' = delete [20%N] (to_map 0%N ex_p) ∧ len p' = 2%N.
Proof.
  destruct (remove_refines ex_rand 0%N ex_p [20%N] [20%N] ex_p_ok)
    as (p' & ow & ret & Hp' & _ & Hm & _); [by apply ex_key_ok|done|lia|].
  exists p', ow, ret. split; [done|]. split; [done|]. vm_compute in Hp'. injection Hp' as <- <- <-. reflexivity.
Defined.

Lemma get_refines_witness :
  get (KEY_LEN:=1) ex_rand 0%N ex_p [20%N] = Some (to_map 0%N ex_p !! [20%N]) ∧
  get (KEY_LEN:=1) ex_rand 0%N ex_p [20%N] = Some (Some 200%N).
Proof.
  destruct (get_refines ex_rand 0%N ex_p [20%N] [20%N] ex_p_ok) as [H _]; [by apply ex_key_ok|done|].
  split; [exact H|reflexivity].
Defined.

Lemma has_prefix_refines_witness :
  ∃ r, has_prefix (KEY_LEN:=1) ex_rand ex_p [20%N] = Some r ∧ r = true ∧
    (r = true ↔ (∃ k, k ∈ dom (to_map 0%N ex_p) ∧ tree_prefix (KEY_LEN:=1) k [20%N]) ∨
       (proot ex_p = None ∧ [20%N] = [])).
Proof.
  destruct (has_prefix_refines ex_rand 0%N ex_p [20%N] ex_p_ok) as (r & Hr & Hiff); [simpl; lia|].
  exists r. split; [done|]. split; [|done]. vm_compute in Hr. by injection Hr as <-.
Defined.

Lemma len_size_witness : len ex_p = N.of_nat (size (to_map 0%N ex_p)) ∧ len ex_p = 3%N.
Proof. split; [apply (len_size ex_rand 0%N ex_p ex_p_ok)|reflexivity]. Defined.

(** The same keys, inserted in another order and with other values. *)
Lemma root_hash_canonical_witness :
  root_hash ex_p = root_hash (ex_patch [(90, 1); (7, 2); (20, 3)]%N) ∧
  root_hash ex_p ≠ root_hash ex_q.
Proof.
  split; [|vm_compute; congruence].
  apply (root_hash_canonical ex_rand 0%N 0%N ex_p (ex_patch [(90, 1); (7, 2); (20, 3)]%N) ex_p_ok).
  - apply ex_patch_ok. ex_small.
  - unfold ex_p. destruct (ex_patch_spec [(7, 70); (20, 200); (90, 900)]%N) as (_ & _ & ->); [ex_small|].
    destruct (ex_patch_spec [(90, 1); (7, 2); (20, 3)]%N) as (_ & _ & ->); [ex_small|].
    simpl. rewrite !dom_union_L, !dom_singleton_L. set_solver.
Defined.

Lemma eq_refines_witness :
  eq ex_p ex_q = bool_decide (dom (to_map 0%N ex_p) = dom (to_map 0%N ex_q)) ∧ eq ex_p ex_q = false.
Proof.
  split; [|reflexivity]. apply (eq_refines ex_rand 0%N 0%N ex_p ex_q ex_p_ok ex_q_ok ex_pq_collision).
Defined.

Lemma union_refines_witness :
  (∃ r, union (KEY_LEN:=1) ex_rand false ex_p ex_q = Some r ∧ len r = 5%N ∧
    dom (to_map 0%N r) = dom (to_map 0%N ex_p) ∪ dom (to_map 0%N ex_q)) ∧
  ∃ r, union (KEY_LEN:=1) ex_rand false ex_low ex_high = Some r ∧
    dom (to_map 0%N r) = dom (to_map 0%N ex_low) ∪ dom (to_map 0%N ex_high).
Proof.
  split.
  - destruct (union_refines ex_rand 0%N false ex_p ex_q ex_p_ok ex_q_ok ex_pq_collision)
      as (r & Hr & _ & Hd & _); [done|].
    exists r. split; [done|]. split; [|done]. vm_compute in Hr. injection Hr as <-. reflexivity.
  - destruct (union_refines ex_rand 0%N false ex_low ex_high (ex_range_ok 0 ltac:(lia)) (ex_range_ok 56 ltac:(lia))
      ex_range_collision) as (r & Hr & _ & Hd & _); [discriminate|]. exact (ex_intro _ r (conj Hr Hd)).
Defined.

Lemma intersect_refines_witness :
  ∃ r, intersect (KEY_LEN:=1) ex_rand false ex_p ex_q = Some r ∧ len r = 2%N ∧
    dom (to_map 0%N r) = dom (to_map 0%N ex_p) ∩ dom (to_map 0%N ex_q).
Proof.
  destruct (intersect_refines ex_rand 0%N false ex_p ex_q ex_p_ok ex_q_ok ex_pq_collision)
    as (r & Hr & _ & Hd & _); [done|lia|].
  exists r. split; [done|]. split; [|done]. vm_compute in Hr. injection Hr as <-. reflexivity.
Defined.

Lemma difference_refines_witness :
  ∃ r, difference_keys (KEY_LEN:=1) ex_rand ex_p ex_q = Some r ∧ len r = 1%N ∧
    to_map 0%N r = filter (λ kv, kv.1 ∉ dom (to_map 0%N ex_q)) (to_map 0%N ex_p).
Proof.
  destruct (difference_refines ex_rand 0%N 0%N ex_p ex_q ex_p_ok ex_q_ok ex_pq_collision)
    as (r & Hr & _ & Hm & _); [lia|].
  exists r. split; [done|]. split; [|done]. vm_compute in Hr. injection Hr as <-. reflexivity.
Defined.

Lemma partial_cmp_refines_witness :
  partial_cmp (KEY_LEN:=1) ex_rand ex_p ex_q = Some (
    if decide (dom (to_map 0%N ex_p) ⊆ dom (to_map 0%N ex_q)) then
      if decide (dom (to_map 0%N ex_q) ⊆ dom (to_map 0%N ex_p)) then Some Eq else Some Lt
    else if decide (dom (to_map 0%N ex_q) ⊆ dom (to_map 0%N ex_p)) then Some Gt else None) ∧
  partial_cmp (KEY_LEN:=1) ex_rand ex_p ex_q = Some None.
Proof.
  split; [|reflexivity]. apply (partial_cmp_refines ex_rand 0%N ex_p ex_q ex_p_ok ex_q_ok ex_pq_collision).
Defined.

(** A present key whose callback refuses its value: the error comes back and
    the PATCH is the one found. *)
Lemma try_insert_with_refines_witness :
  ∃ p' r, try_insert_with (KEY_LEN:=1) ex_rand 0%N Nat.even 5%N (λ _, 1%N)
      (λ v : N, if (v =? 200)%N then Some v else None) ex_p [20%N] = Some (p', r) ∧
    p' = ex_p ∧ r = inl 200%N.
Proof.
  destruct (try_insert_with_refines ex_rand 0%N Nat.even 5%N (λ _, 1%N)
    (λ v : N, if (v =? 200)%N then Some v else None) ex_p [20%N] ex_p_ok) as (p' & r & Hp' & _ & Hm);
    [by apply ex_key_ok|].
  exists p', r. split; [done|]. assert (to_map 0%N ex_p !! [20%N] = Some 200%N) as E by reflexivity.
  rewrite E in Hm. exact Hm.
Defined.
