(* ===== verification/Queries.v ===== *)
(** * Queries: enumerating and counting infixes below a prefix

    Source: [triblespace-core/src/patch/branch.rs] and [patch.rs], [infixes],
    [infixes_range], [first_infix_range], [count_range], [segmented_len],
    [traversal_depth], [locate_prefix] and [infixes_from_matched_prefix].

    All of them work on tree-ordered bytes: a query fixes the first
    [PREFIX_LEN] bytes and asks for the next [INFIX_LEN].  A callback is
    modelled by the list of the values it is called with.  The reference is
    [infixes] itself, which lists every distinct infix once; the others are
    proved to be its filter, its minimum and its length. *)

From S2P Require Import Prelude Lex ByteTable KeySchema PatchHash Branch Head Algebra Canonical.

Open Scope nat_scope.

(** Runs a callback-passing function on each child and collects the calls. *)
Fixpoint concatM {A B} (f : A → res (list B)) (l : list A) : res (list B) :=
  match l with
  | [] => Some []
  | x :: l => r ← f x; rest ← concatM f l; Some (r ++ rest)
  end.

Fixpoint sumM {A} (f : A → res N) (l : list A) : res N :=
  match l with
  | [] => Some 0%N
  | x :: l => n ← f x; rest ← sumM f l; Some (n + rest)%N
  end.

(** The first answer along a list. *)
Fixpoint firstM {A B} (f : A → res (option B)) (l : list A) : res (option B) :=
  match l with
  | [] => Some None
  | x :: l => r ← f x; match r with Some y => Some (Some y) | None => firstM f l end
  end.

(** The compressed path against the bounds: [None] when the whole branch is
    outside, else which of the two bounds still constrains the next byte. *)
Fixpoint tighten (path min_infix max_infix : list N) (min_tight max_tight : bool) : option (bool * bool) :=
  match path with
  | [] => Some (min_tight, max_tight)
  | path_byte :: path =>
      let lo := hd 0%N min_infix in
      let hi := hd 0%N max_infix in
      if min_tight && (path_byte <? lo)%N then None
      else
        let min_tight := min_tight && negb (lo <? path_byte)%N in
        if max_tight && (hi <? path_byte)%N then None
        else
          let max_tight := max_tight && negb (path_byte <? hi)%N in
          tighten path (tl min_infix) (tl max_infix) min_tight max_tight
  end.

Section ops.
Context {KEY_LEN : nat} {O : KeySchema KEY_LEN} {H : PatchHash} {V : Type}.
Context (rand_hash : N → N).
Abbreviation head := (head Digest V).
Abbreviation branch := (branch Digest head).
Abbreviation hend := (hend (KEY_LEN:=KEY_LEN)).
Implicit Types (h : head) (b : branch).

(** The early prune of every branch query. *)
Definition branch_prefix_ok b (at_depth : nat) (prefix : list N) : bool :=
  key_has_prefix (bytes (childleaf b)) at_depth (take (length prefix `min` end_depth b) prefix).

Fixpoint infixes (fuel : nat) h (prefix : list N) (infix_len at_depth : nat) : res (list (list N)) :=
  match h with
  | HLeaf _ l => Some (key_infixes (bytes (leaf_ptr l)) prefix infix_len at_depth)
  | HLocalLeaf _ p => Some (key_infixes (bytes p) prefix infix_len at_depth)
  | HBranch _ b =>
      match fuel with
      | 0 => None
      | S fuel =>
          if negb (branch_prefix_ok b at_depth prefix) then Some []
          else if length prefix + infix_len <=? end_depth b then
            Some [key_infix (bytes (childleaf b)) (length prefix) infix_len]
          else if end_depth b <? length prefix then
            e ← prefix !! end_depth b;
            o ← table_get hkey rand_hash (child_table b) e;
            match o with
            | Some child => infixes fuel child prefix infix_len (end_depth b)
            | None => Some []
            end
          else
            concatM (λ entry, infixes fuel entry prefix infix_len (end_depth b))
              (entries (child_table b))
      end
  end.

Fixpoint infixes_range (fuel : nat) h (prefix : list N) (infix_len at_depth : nat)
    (min_infix max_infix : list N) : res (list (list N)) :=
  match h with
  | HLeaf _ l => Some (key_infixes_range (bytes (leaf_ptr l)) prefix infix_len at_depth min_infix max_infix)
  | HLocalLeaf _ p => Some (key_infixes_range (bytes p) prefix infix_len at_depth min_infix max_infix)
  | HBranch _ b =>
      match fuel with
      | 0 => None
      | S fuel =>
          if negb (branch_prefix_ok b at_depth prefix) then Some []
          else if length prefix + infix_len <=? end_depth b then
            let infix := key_infix (bytes (childleaf b)) (length prefix) infix_len in
            Some (if in_range min_infix max_infix infix then [infix] else [])
          else if end_depth b <? length prefix then
            e ← prefix !! end_depth b;
            o ← table_get hkey rand_hash (child_table b) e;
            match o with
            | Some child => infixes_range fuel child prefix infix_len (end_depth b) min_infix max_infix
            | None => Some []
            end
          else
            let idx := end_depth b - length prefix in
            match tighten (key_infix (bytes (childleaf b)) (length prefix) idx)
                    min_infix max_infix true true with
            | None => Some []
            | Some (min_tight, max_tight) =>
                lo ← min_infix !! idx;
                hi ← max_infix !! idx;
                concatM (λ entry,
                  if min_tight && (hkey entry <? lo)%N then Some []
                  else if max_tight && (hi <? hkey entry)%N then Some []
                  else infixes_range fuel entry prefix infix_len (end_depth b) min_infix max_infix)
                  (entries (child_table b))
            end
      end
  end.

(** [lower ..= upper] over [u8]. *)
Definition byte_range (lower upper : N) : list N :=
  (λ i, lower + N.of_nat i)%N <$> seq 0 (N.to_nat (upper + 1 - lower)).

Fixpoint first_infix_range (fuel : nat) h (prefix : list N) (infix_len at_depth : nat)
    (min_infix max_infix : list N) : res (option (list N)) :=
  match h with
  | HLeaf _ l =>
      Some (key_first_infix_range (bytes (leaf_ptr l)) prefix infix_len at_depth min_infix max_infix)
  | HLocalLeaf _ p =>
      Some (key_first_infix_range (bytes p) prefix infix_len at_depth min_infix max_infix)
  | HBranch _ b =>
      match fuel with
      | 0 => None
      | S fuel =>
          if negb (branch_prefix_ok b at_depth prefix) then Some None
          else if length prefix + infix_len <=? end_depth b then
            let infix := key_infix (bytes (childleaf b)) (length prefix) infix_len in
            Some (if in_range min_infix max_infix infix then Some infix else None)
          else if end_depth b <? length prefix then
            e ← prefix !! end_depth b;
            o ← table_get hkey rand_hash (child_table b) e;
            match o with
            | Some child => first_infix_range fuel child prefix infix_len (end_depth b) min_infix max_infix
            | None => Some None
            end
          else
            let idx := end_depth b - length prefix in
            match tighten (key_infix (bytes (childleaf b)) (length prefix) idx)
                    min_infix max_infix true true with
            | None => Some None
            | Some (min_tight, max_tight) =>
                lower ← (if min_tight then min_infix !! idx else Some 0%N);
                upper ← (if max_tight then max_infix !! idx else Some 255%N);
                firstM (λ child_byte,
                  o ← table_get hkey rand_hash (child_table b) child_byte;
                  match o with
                  | Some child =>
                      first_infix_range fuel child prefix infix_len (end_depth b) min_infix max_infix
                  | None => Some None
                  end) (byte_range lower upper)
            end
      end
  end.

Fixpoint count_range (fuel : nat) h (prefix : list N) (infix_len at_depth : nat)
    (min_infix max_infix : list N) : res N :=
  match h with
  | HLeaf _ l => Some (key_count_range (bytes (leaf_ptr l)) prefix infix_len at_depth min_infix max_infix)
  | HLocalLeaf _ p => Some (key_count_range (bytes p) prefix infix_len at_depth min_infix max_infix)
  | HBranch _ b =>
      match fuel with
      | 0 => None
      | S fuel =>
          if negb (branch_prefix_ok b at_depth prefix) then Some 0%N
          else if length prefix + infix_len <=? end_depth b then
            let infix := key_infix (bytes (childleaf b)) (length prefix) infix_len in
            Some (if in_range min_infix max_infix infix then 1%N else 0%N)
          else if end_depth b <? length prefix then
            e ← prefix !! end_depth b;
            o ← table_get hkey rand_hash (child_table b) e;
            match o with
            | Some child => count_range fuel child prefix infix_len (end_depth b) min_infix max_infix
            | None => Some 0%N
            end
          else
            let idx := end_depth b - length prefix in
            match tighten (key_infix (bytes (childleaf b)) (length prefix) idx)
                    min_infix max_infix true true with
            | None => Some 0%N
            | Some (min_tight, max_tight) =>
                lo ← min_infix !! idx;
                hi ← max_infix !! idx;
                sumM (λ entry,
                  if min_tight && (hkey entry <? lo)%N || max_tight && (hi <? hkey entry)%N then Some 0%N
                  else if min_tight && (hkey entry =? lo)%N || max_tight && (hkey entry =? hi)%N then
                    count_range fuel entry prefix infix_len (end_depth b) min_infix max_infix
                  else count_segment entry (end_depth b))
                  (entries (child_table b))
            end
      end
  end.

Fixpoint segmented_len (fuel : nat) h (at_depth : nat) (prefix : list N) : res N :=
  match h with
  | HLeaf _ l => Some (key_segmented_len (bytes (leaf_ptr l)) at_depth prefix)
  | HLocalLeaf _ p => Some (key_segmented_len (bytes p) at_depth prefix)
  | HBranch _ b =>
      match fuel with
      | 0 => None
      | S fuel =>
          if negb (branch_prefix_ok b at_depth prefix) then Some 0%N
          else if length prefix <=? end_depth b then
            same ← same_segment_tree (length prefix) (end_depth b);
            Some (if negb same then 1%N else segment_count b)
          else
            e ← prefix !! end_depth b;
            o ← table_get hkey rand_hash (child_table b) e;
            match o with
            | Some child => segmented_len fuel child (end_depth b) prefix
            | None => Some 0%N
            end
      end
  end.

Fixpoint traversal_depth (fuel : nat) h (at_depth : nat) (prefix : list N) : res nat :=
  match h with
  | HLeaf _ _ | HLocalLeaf _ _ => Some 1
  | HBranch _ b =>
      match fuel with
      | 0 => None
      | S fuel =>
          if negb (branch_prefix_ok b at_depth prefix) then Some 1
          else if length prefix <=? end_depth b then Some 1
          else
            e ← prefix !! end_depth b;
            o ← table_get hkey rand_hash (child_table b) e;
            match o with
            | Some child => n ← traversal_depth fuel child (end_depth b) prefix; Some (1 + n)
            | None => Some 1
            end
      end
  end.

Fixpoint locate_prefix (fuel : nat) h (at_depth : nat) (prefix : list N) : res (option head) :=
  match fuel with
  | 0 => None
  | S fuel =>
      let node_end_depth := hend h in
      let limit := length prefix `min` node_end_depth in
      if negb (key_has_prefix (childleaf_key h) at_depth (take limit prefix)) then Some None
      else if length prefix <=? node_end_depth then Some (Some h)
      else
        match h with
        | HBranch _ b =>
            e ← prefix !! node_end_depth;
            o ← table_get hkey rand_hash (child_table b) e;
            match o with
            | Some child => locate_prefix fuel child node_end_depth prefix
            | None => Some None
            end
        | _ => None
        end
  end.

Fixpoint infixes_from_matched_prefix (fuel : nat) h (prefix_len infix_len : nat) : res (list (list N)) :=
  match fuel with
  | 0 => None
  | S fuel =>
      if prefix_len + infix_len <=? hend h then Some [key_infix (childleaf_key h) prefix_len infix_len]
      else
        match h with
        | HBranch _ b =>
            concatM (λ child, infixes_from_matched_prefix fuel child prefix_len infix_len)
              (entries (child_table b))
        | _ => None
        end
  end.
End ops.

(** ** Loops over the children *)

Lemma concatM_some {A B} (f : A → res (list B)) (g : A → list B) l :
  (∀ x, x ∈ l → f x = Some (g x)) → concatM f l = Some (l ≫= g).
Proof.
  induction l as [|x l IH]; intros Hf; [done|]. cbn [concatM]. rewrite (Hf x), IH by set_solver. done.
Qed.

Lemma sumM_some {A} (f : A → res N) (g : A → N) l :
  (∀ x, x ∈ l → f x = Some (g x)) → sumM f l = Some (sum_of g l).
Proof.
  induction l as [|x l IH]; intros Hf; [done|]. cbn [sumM]. rewrite (Hf x), IH by set_solver. done.
Qed.

Lemma choose_some {A B} (f : A → res B) (P : A → B → Prop) (d : B) (l : list A) :
  (∀ x, x ∈ l → ∃ r, f x = Some r ∧ P x r) →
  ∀ x, x ∈ l → f x = Some (default d (f x)) ∧ P x (default d (f x)).
Proof. intros Hf x Hx. destruct (Hf x Hx) as (r & -> & Hr). done. Qed.

Lemma filter_bind {A B} (P : B → Prop) `{!∀ x, Decision (P x)} (g : A → list B) (l : list A) :
  filter P (l ≫= g) = l ≫= (λ x, filter P (g x)).
Proof. induction l as [|x l IH]; [done|]. csimpl. by rewrite filter_app, IH. Qed.

Lemma bind_ext_in {A B} (g g' : A → list B) (l : list A) :
  (∀ x, x ∈ l → g x = g' x) → l ≫= g = l ≫= g'.
Proof. induction l as [|x l IH]; intros E; [done|]. csimpl. rewrite E, IH by set_solver. done. Qed.

Lemma bind_nil {A B} (g : A → list B) (l : list A) : (∀ x, x ∈ l → g x = []) → l ≫= g = [].
Proof. induction l as [|x l IH]; intros E; [done|]. csimpl. rewrite E, IH by set_solver. done. Qed.

(** ** The reference: [infixes] *)

Section spec.
Context {KEY_LEN : nat} {O : KeySchema KEY_LEN} `{!KeySchemaOk KEY_LEN O}.
Context {H : PatchHash} `{!PatchHashOk H} {V : Type}.
Context (rand_hash : N → N) (UNIT : V).
Abbreviation head := (head Digest V).
Abbreviation branch := (branch Digest head).
Abbreviation kvs := (kvs UNIT).
Abbreviation keys := (keys UNIT).
Abbreviation wf := (wf rand_hash UNIT).
Abbreviation branch_ok := (branch_ok rand_hash UNIT).
Abbreviation kids b := (entries (child_table b)).
Abbreviation hend := (hend (KEY_LEN:=KEY_LEN)).
Abbreviation pref := (pref (KEY_LEN:=KEY_LEN)).
Implicit Types (h c : head) (b : branch) (k q : list N).

Lemma key_infix_length k n i : length (key_infix k n i) = i.
Proof. unfold key_infix. by rewrite length_fmap, length_seq. Qed.

Lemma key_infix_lookup k n i j : j < i → key_infix k n i !! j = Some (tb k (n + j)).
Proof. intros Hj. unfold key_infix. by rewrite list_lookup_fmap, lookup_seq_lt. Qed.

Lemma key_infix_agree k k' n i : agree (n + i) k k' → key_infix k n i = key_infix k' n i.
Proof.
  intros Ha. apply list_fmap_ext. intros j d Hd. apply lookup_seq in Hd as [-> Hd]. apply Ha. lia.
Qed.

(** The infixes below [h] of the keys with prefix [q]. *)
Definition lists_infixes h q (infix_len a : nat) (r : list (list N)) : Prop :=
  NoDup r ∧ ∀ x, x ∈ r ↔ ∃ k, k ∈ keys h ∧ pref a k q ∧ x = key_infix k (length q) infix_len.

Lemma lists_leaf e k q n a : keys e = [k] → lists_infixes e q n a (key_infixes k q n a).
Proof.
  intros Hk. unfold lists_infixes, key_infixes. rewrite Hk. pose proof (key_has_prefix_pref k a q) as E.
  setoid_rewrite list_elem_of_singleton.
  destruct (key_has_prefix k a q); (split; [try apply NoDup_singleton; try constructor|]); intros x.
  - rewrite list_elem_of_singleton. naive_solver.
  - rewrite elem_of_nil. naive_solver.
Qed.

(** The three ways a branch answers, by where the prefix and the infix end. *)
Inductive branch_view e b q (infix_len a : nat) : Prop :=
  | bv_prune : branch_prefix_ok b a q = false →
      (∀ k, k ∈ keys (HBranch e b) → ¬ pref a k q) → branch_view e b q infix_len a
  | bv_inside : branch_prefix_ok b a q = true → (length q + infix_len <=? end_depth b) = true →
      (∀ k, k ∈ keys (HBranch e b) → pref a k q ∧
        key_infix k (length q) infix_len = key_infix (bytes (childleaf b)) (length q) infix_len) →
      branch_view e b q infix_len a
  | bv_child x o : branch_prefix_ok b a q = true → (length q + infix_len <=? end_depth b) = false →
      (end_depth b <? length q) = true → (length q <=? end_depth b) = false →
      q !! end_depth b = Some x → table_get hkey rand_hash (child_table b) x = Some o →
      (∀ c, o = Some c → c ∈ kids b) →
      (∀ k, k ∈ keys (HBranch e b) ∧ pref a k q ↔ ∃ c, o = Some c ∧ k ∈ keys c ∧ pref (end_depth b) k q) →
      branch_view e b q infix_len a
  | bv_split : branch_prefix_ok b a q = true → (length q + infix_len <=? end_depth b) = false →
      (end_depth b <? length q) = false →
      (∀ k, k ∈ keys (HBranch e b) → pref a k q) →
      (∀ k, pref (end_depth b) k q) → branch_view e b q infix_len a.

Lemma branch_cases e b q n a : branch_ok wf b false → 2 ≤ length (kids b) → a ≤ end_depth b →
  length q + n ≤ KEY_LEN → branch_view e b q n a.
Proof.
  intros Hok Hlen Ha Hq. destruct (descend_spec rand_hash UNIT e b a q Hok Ha) as (Hf & Ht & Hc); [lia|].
  fold (branch_prefix_ok b a q) in *. destruct (branch_prefix_ok b a q) eqn:Ep; [|by apply bv_prune; auto].
  assert (wf (HBranch e b)) as Hwf by by constructor.
  destruct (Nat.leb_spec (length q + n) (end_depth b)) as [Hle|Hgt].
  { apply bv_inside; [done|by apply Nat.leb_le|]. intros k Hk. split; [apply Ht; [done|lia|done]|].
    apply key_infix_agree. eapply agree_le; [exact Hle|]. by apply (keys_agree rand_hash UNIT _ k Hwf). }
  destruct (Nat.ltb_spec (end_depth b) (length q)) as [Hlt|Hge].
  - destruct (Hc eq_refl Hlt) as (x & o & Hx & Ho & Hin & Hkv).
    apply (bv_child _ _ _ _ _ x o); try done; [by apply Nat.leb_gt|by apply Nat.ltb_lt|by apply Nat.leb_gt|].
    intros k. rewrite elem_of_keys. split.
    + intros [[v Hv] Hp]. destruct (proj1 (Hkv k v)) as (c & Hc' & Hv' & Hp'); [done|].
      exists c. split_and!; [done| |done]. apply elem_of_keys. eauto.
    + intros (c & Hc' & [v Hv]%elem_of_keys & Hp). destruct (proj2 (Hkv k v)); eauto.
  - apply bv_split; [done|by apply Nat.leb_gt|by apply Nat.ltb_ge| |].
    + intros k Hk. by apply Ht.
    + intros k d; lia.
Qed.

(** Below a split, the infixes of a child carry its edge byte. *)
Lemma split_byte b q n c k : branch_ok wf b false → c ∈ kids b → k ∈ keys c →
  length q ≤ end_depth b → end_depth b < length q + n →
  key_infix k (length q) n !! (end_depth b - length q) = Some (hkey c).
Proof.
  intros Hok Hc Hk Hle Hlt. rewrite key_infix_lookup by lia.
  replace (length q + (end_depth b - length q)) with (end_depth b) by lia. f_equal. by eapply bo_keys.
Qed.

Lemma infixes_spec fuel h q n a : wf h → KEY_LEN - hend h < fuel → a ≤ hend h → length q + n ≤ KEY_LEN →
  ∃ r, infixes (KEY_LEN:=KEY_LEN) rand_hash fuel h q n a = Some r ∧ lists_infixes h q n a r.
Proof.
  revert h a. induction fuel as [|fuel IH]; intros h a Hwf Hfuel Ha Hq; [lia|].
  destruct Hwf as [e l Hl _|e p Hp|e b Hok Hlen]; simpl.
  1,2: eexists; split; [done|]; by apply lists_leaf.
  simpl in *. pose proof (bo_depth _ _ _ _ _ Hok) as HdK.
  assert (∀ c, c ∈ kids b → wf c ∧ end_depth b < hend c) as Hkid.
  { intros c Hc. split; [by eapply bo_children|by eapply child_hend]. }
  destruct (branch_cases e b q n a Hok Hlen Ha Hq)
    as [-> Hno | -> -> Hin | x o -> -> -> _ -> Ho Hoin Hiff | -> E1 E2 Hall Hdeep]; cbn [negb].
  - eexists. split; [done|]. split; [constructor|]. intros x. rewrite elem_of_nil. naive_solver.
  - eexists. split; [done|]. split; [apply NoDup_singleton|]. intros x. rewrite list_elem_of_singleton. split.
    + intros ->. assert (wf (HBranch e b)) as Hwf by by constructor.
      pose proof (childleaf_key_in rand_hash UNIT _ Hwf) as Hk. exists (bytes (childleaf b)).
      split_and!; [done|by apply Hin|done].
    + intros (k & Hk & _ & ->). by apply Hin.
  - cbn [mbind option_bind]. rewrite Ho. cbn [mbind option_bind]. destruct o as [c|].
    + destruct (Hkid c (Hoin c eq_refl)) as [Hwfc Hend].
      destruct (IH c (end_depth b)) as (r & -> & Hnd & Hr); [done|lia|lia|done|].
      exists r. split; [done|]. split; [done|]. intros y. rewrite Hr. split.
      * intros (k & Hk & Hp & ->). exists k. destruct (proj2 (Hiff k)); eauto.
      * intros (k & Hk & Hp & ->). destruct (proj1 (Hiff k)) as (? & [= <-] & ? & ?); eauto.
    + eexists. split; [done|]. split; [constructor|]. intros y. rewrite elem_of_nil. split; [done|].
      intros (k & Hk & Hp & ->). destruct (proj1 (Hiff k)) as (? & ? & _); done.
  - rewrite E1, E2. apply Nat.leb_gt in E1. apply Nat.ltb_ge in E2.
    set (f := λ entry, infixes (KEY_LEN:=KEY_LEN) rand_hash fuel entry q n (end_depth b)).
    set (g c := default [] (f c)).
    assert (∀ c, c ∈ kids b → f c = Some (g c) ∧ lists_infixes c q n (end_depth b) (g c)) as Hg.
    { apply (choose_some f (λ c r, lists_infixes c q n (end_depth b) r) []). intros c Hc.
      destruct (Hkid c Hc). apply IH; [done|lia|lia|done]. }
    rewrite (concatM_some f g) by (intros; by apply Hg). eexists. split; [done|]. split.
    + apply NoDup_bind; [| |by apply (NoDup_fmap_1 hkey), Hok].
      * intros c1 c2 y Hc1 Hc2 Hy1 Hy2. apply Hg in Hy1 as (k1 & Hk1 & _ & ->); [|done].
        apply Hg in Hy2 as (k2 & Hk2 & _ & E); [|done].
        apply (kids_inj rand_hash UNIT wf b false c1 c2 Hok Hc1 Hc2).
        pose proof (split_byte b q n c1 k1 Hok Hc1 Hk1 E2 E1) as H1. rewrite E in H1.
        pose proof (split_byte b q n c2 k2 Hok Hc2 Hk2 E2 E1) as H2. congruence.
      * intros c Hc. by apply Hg.
    + intros y. rewrite list_elem_of_bind. split.
      * intros (c & Hy & Hc). apply Hg in Hy as (k & Hk & _ & ->); [|done]. exists k.
        assert (k ∈ keys (HBranch e b)) by (apply elem_of_keys_branch; eauto). split_and!; auto.
      * intros (k & (c & Hc & Hk)%elem_of_keys_branch & _ & ->). exists c. split; [|done].
        apply Hg; [done|]. exists k. auto.
Qed.

(** ** Ranges *)

Definition tle (tight : bool) (x y : list N) : bool := negb tight || lex_le x y.

Lemma tighten_spec path rest lo hi mt xt :
  length path ≤ length lo → length path ≤ length hi →
  match tighten path lo hi mt xt with
  | None => tle mt lo (path ++ rest) && tle xt (path ++ rest) hi = false
  | Some (mt', xt') =>
      tle mt lo (path ++ rest) = tle mt' (drop (length path) lo) rest ∧
      tle xt (path ++ rest) hi = tle xt' rest (drop (length path) hi)
  end.
Proof.
  revert lo hi mt xt. induction path as [|x path IH]; intros lo hi mt xt Hlo Hhi; [done|].
  destruct lo as [|l lo]; [simpl in Hlo; lia|]. destruct hi as [|u hi]; [simpl in Hhi; lia|].
  cbn [tighten hd tl]. simpl in Hlo, Hhi.
  destruct (mt && (x <? l)%N) eqn:E1.
  { apply andb_true_iff in E1 as [-> E1%N.ltb_lt]. unfold tle. simpl.
    rewrite (proj2 (N.ltb_ge l x)) by lia. rewrite (proj2 (N.eqb_neq l x)) by lia. done. }
  destruct (xt && (u <? x)%N) eqn:E2.
  { apply andb_true_iff in E2 as [-> E2%N.ltb_lt]. unfold tle. simpl.
    rewrite (proj2 (N.ltb_ge x u)) by lia. rewrite (proj2 (N.eqb_neq x u)) by lia. by rewrite andb_false_r. }
  assert (tle mt (l :: lo) ((x :: path) ++ rest) = tle (mt && negb (l <? x)%N) lo (path ++ rest)) as ->.
  { unfold tle. simpl. destruct mt; [|done]. simpl in *. apply N.ltb_ge in E1.
    destruct (N.ltb_spec l x); [done|]. by rewrite (proj2 (N.eqb_eq l x)) by lia. }
  assert (tle xt ((x :: path) ++ rest) (u :: hi) = tle (xt && negb (x <? u)%N) (path ++ rest) hi) as ->.
  { unfold tle. simpl. destruct xt; [|done]. simpl in *. apply N.ltb_ge in E2.
    destruct (N.ltb_spec x u); [done|]. by rewrite (proj2 (N.eqb_eq x u)) by lia. }
  simpl drop. apply IH; lia.
Qed.

Lemma key_infix_split k n i j : i < j →
  key_infix k n j = key_infix k n i ++ tb k (n + i) :: key_infix k (n + S i) (j - S i).
Proof.
  intros Hij. unfold key_infix. replace j with (i + S (j - S i)) at 1 by lia.
  rewrite seq_app, fmap_app. f_equal. simpl. f_equal.
  transitivity ((λ d, tb k (n + d)) <$> (Nat.add (S i) <$> seq 0 (j - S i))).
  - by rewrite fmap_add_seq, Nat.add_0_r.
  - rewrite <-list_fmap_compose. apply list_fmap_ext. intros ? d _. simpl. f_equal. lia.
Qed.

(** Below a split, a range check is decided by the compressed path and the
    edge byte, up to the bytes after it on a boundary. *)
Lemma split_range b q n lo hi c k : branch_ok wf b false → c ∈ kids b → k ∈ keys c →
  length q ≤ end_depth b → end_depth b < length q + n → length lo = n → length hi = n →
  let idx := end_depth b - length q in
  match tighten (key_infix (bytes (childleaf b)) (length q) idx) lo hi true true with
  | None => in_range lo hi (key_infix k (length q) n) = false
  | Some (mt, xt) => ∃ l u lo' hi' rest, lo !! idx = Some l ∧ hi !! idx = Some u ∧
      in_range lo hi (key_infix k (length q) n) =
        tle mt (l :: lo') (hkey c :: rest) && tle xt (hkey c :: rest) (u :: hi')
  end.
Proof.
  intros Hok Hc Hk Hle Hlt Hlo Hhi idx. destruct (bo_keys _ _ _ _ _ Hok c k Hc Hk) as [Ha Hb].
  assert (key_infix k (length q) n = key_infix (bytes (childleaf b)) (length q) idx ++
    hkey c :: key_infix k (length q + S idx) (n - S idx)) as Hsplit.
  { rewrite (key_infix_split k (length q) idx n) by lia. f_equal; [|f_equal].
    - apply key_infix_agree. eapply agree_le; [|exact Ha]. lia.
    - rewrite <-Hb. f_equal. lia. }
  pose proof (tighten_spec (key_infix (bytes (childleaf b)) (length q) idx)
    (hkey c :: key_infix k (length q + S idx) (n - S idx)) lo hi true true) as Ht.
  rewrite key_infix_length in Ht. specialize (Ht ltac:(lia) ltac:(lia)). rewrite <-Hsplit in Ht.
  destruct (tighten _ lo hi true true) as [[mt xt]|]; [|exact Ht]. destruct Ht as [H1 H2].
  destruct (lookup_lt_is_Some_2 lo idx) as [l Hl]; [lia|].
  destruct (lookup_lt_is_Some_2 hi idx) as [u Hu]; [lia|].
  rewrite (drop_S _ _ _ Hl) in H1. rewrite (drop_S _ _ _ Hu) in H2.
  exists l, u, (drop (S idx) lo), (drop (S idx) hi), (key_infix k (length q + S idx) (n - S idx)).
  split_and!; [done..|]. unfold in_range. unfold tle at 1 in H1. unfold tle at 1 in H2. simpl in H1, H2.
  by rewrite H1, H2.
Qed.

(** What the edge byte alone decides. *)
Lemma edge_outside mt xt l u x lo hi rest :
  mt && (x <? l)%N || xt && (u <? x)%N = true →
  tle mt (l :: lo) (x :: rest) && tle xt (x :: rest) (u :: hi) = false.
Proof.
  intros [[-> Hx%N.ltb_lt]%andb_true_iff|[-> Hx%N.ltb_lt]%andb_true_iff]%orb_true_iff; unfold tle; simpl.
  - rewrite (proj2 (N.ltb_ge l x)) by lia. by rewrite (proj2 (N.eqb_neq l x)) by lia.
  - rewrite (proj2 (N.ltb_ge x u)) by lia. rewrite (proj2 (N.eqb_neq x u)) by lia. by rewrite andb_false_r.
Qed.

Lemma edge_inside mt xt l u x lo hi rest :
  mt && (x <? l)%N || xt && (u <? x)%N = false → mt && (x =? l)%N || xt && (x =? u)%N = false →
  tle mt (l :: lo) (x :: rest) && tle xt (x :: rest) (u :: hi) = true.
Proof.
  intros [H1 H2]%orb_false_iff [H3 H4]%orb_false_iff. apply andb_true_iff. unfold tle. simpl. split.
  - destruct mt; [|done]. simpl in *. apply N.ltb_ge in H1. apply N.eqb_neq in H3.
    by rewrite (proj2 (N.ltb_lt l x)) by lia.
  - destruct xt; [|done]. simpl in *. apply N.ltb_ge in H2. apply N.eqb_neq in H4.
    by rewrite (proj2 (N.ltb_lt x u)) by lia.
Qed.

Lemma filter_none {A} (P : A → Prop) `{!∀ x, Decision (P x)} (l : list A) :
  (∀ x, x ∈ l → ¬ P x) → filter P l = [].
Proof.
  induction l as [|x l IH]; intros Hl; [done|]. rewrite filter_cons_False, IH by set_solver. done.
Qed.

Lemma filter_singleton {A} (f : A → bool) (x : A) :
  filter (λ x, f x = true) [x] = if f x then [x] else [].
Proof. rewrite filter_cons. destruct (f x) eqn:E; by case_decide. Qed.

Lemma infixes_range_filter fuel h q n a lo hi r : wf h → KEY_LEN - hend h < fuel → a ≤ hend h →
  length q + n ≤ KEY_LEN → length lo = n → length hi = n →
  infixes (KEY_LEN:=KEY_LEN) rand_hash fuel h q n a = Some r →
  infixes_range (KEY_LEN:=KEY_LEN) rand_hash fuel h q n a lo hi =
    Some (filter (λ x, in_range lo hi x = true) r).
Proof.
  revert h a r. induction fuel as [|fuel IH]; intros h a r Hwf Hfuel Ha Hq Hlo Hhi; [lia|].
  destruct Hwf as [e l Hl _|e p Hp|e b Hok Hlen]; simpl.
  1,2: intros [= <-]; unfold key_infixes, key_infixes_range; f_equal;
    destruct (key_has_prefix _ a q); [by rewrite filter_singleton|done].
  simpl in *. pose proof (bo_depth _ _ _ _ _ Hok) as HdK.
  assert (∀ c, c ∈ kids b → wf c ∧ end_depth b < hend c) as Hkid.
  { intros c Hc. split; [by eapply bo_children|by eapply child_hend]. }
  destruct (branch_cases e b q n a Hok Hlen Ha Hq)
    as [-> _ | -> -> _ | x o -> -> -> _ -> Ho Hoin _ | -> E1 E2 _ _]; cbn [negb].
  - by intros [= <-].
  - intros [= <-]. by rewrite filter_singleton.
  - cbn [mbind option_bind]. rewrite Ho. cbn [mbind option_bind]. destruct o as [c|]; [|by intros [= <-]].
    destruct (Hkid c (Hoin c eq_refl)). apply IH; try done; lia.
  - rewrite E1, E2. apply Nat.leb_gt in E1. apply Nat.ltb_ge in E2.
    assert (∀ c, c ∈ kids b → ∃ rc, infixes (KEY_LEN:=KEY_LEN) rand_hash fuel c q n (end_depth b) = Some rc ∧
      lists_infixes c q n (end_depth b) rc) as Hc.
    { intros c Hc. destruct (Hkid c Hc). apply infixes_spec; [done|lia|lia|done]. }
    set (f := λ c, infixes (KEY_LEN:=KEY_LEN) rand_hash fuel c q n (end_depth b)) in *.
    set (g c := default [] (f c)).
    assert (∀ c, c ∈ kids b → f c = Some (g c) ∧ lists_infixes c q n (end_depth b) (g c)) as Hg
      by (by apply (choose_some f (λ c r, lists_infixes c q n (end_depth b) r) [])).
    rewrite (concatM_some f g) by (intros; by apply Hg). intros [= <-]. rewrite filter_bind.
    pose proof (λ c k Hc Hk, split_range b q n lo hi c k Hok Hc Hk E2 E1 Hlo Hhi) as Hrange. cbv zeta in Hrange.
    destruct (tighten _ lo hi true true) as [[mt xt]|].
    + destruct (lookup_lt_is_Some_2 lo (end_depth b - length q)) as [l Hl]; [lia|].
      destruct (lookup_lt_is_Some_2 hi (end_depth b - length q)) as [u Hu]; [lia|].
      rewrite Hl, Hu. cbn [mbind option_bind]. apply concatM_some. intros c Hcin.
      destruct (Hg c Hcin) as [Hfc [_ Hin]]. destruct (Hkid c Hcin).
      assert (mt && (hkey c <? l)%N = true ∨ xt && (u <? hkey c)%N = true →
        filter (λ x, in_range lo hi x = true) (g c) = []) as Hskip.
      { intros Hor. apply filter_none. intros y (k & Hk & _ & ->)%Hin.
        destruct (Hrange c k Hcin Hk) as (l' & u' & lo' & hi' & rest & Hl' & Hu' & ->).
        assert (l' = l) as -> by congruence. assert (u' = u) as -> by congruence.
        rewrite edge_outside; [done|]. apply orb_true_iff. destruct Hor as [-> | ->]; [by left|by right]. }
      destruct (mt && (hkey c <? l)%N) eqn:Em; [by rewrite Hskip by by left|].
      destruct (xt && (u <? hkey c)%N) eqn:Ex; [by rewrite Hskip by by right|].
      apply IH; try done; lia.
    + f_equal. symmetry. apply bind_nil. intros c Hcin. apply filter_none. intros y Hy.
      destruct (Hg c Hcin) as [_ [_ Hin]]. apply Hin in Hy as (k & Hk & _ & ->).
      by rewrite (Hrange c k Hcin Hk).
Qed.

(** ** Counts *)

(** The infix of length [n] after a prefix of length [p] ends with the segment
    it starts in: the condition the callers assert. *)
Definition segment_tail (p n : nat) : Prop :=
  p + n ≤ KEY_LEN ∧ p < KEY_LEN ∧
  ∀ d, p ≤ d → d < KEY_LEN → same_segment_tree p d = Some true ↔ d < p + n.

Lemma filter_all {A} (P : A → Prop) `{!∀ x, Decision (P x)} (l : list A) :
  (∀ x, x ∈ l → P x) → filter P l = l.
Proof.
  induction l as [|x l IH]; intros Hl; [done|]. rewrite filter_cons_True, IH by set_solver. done.
Qed.

Lemma length_bind {A B} (g : A → list B) (l : list A) :
  N.of_nat (length (l ≫= g)) = sum_of (λ x, N.of_nat (length (g x))) l.
Proof. induction l as [|x l IH]; [done|]. csimpl. rewrite length_app, Nat2N.inj_add, IH. done. Qed.

(** The view of the segment is its part in the prefix and the infix. *)
Lemma seg_view_infix p n d k : segment_tail p n → d < KEY_LEN → same_segment_tree p d = Some true →
  seg_view d k = (tb k <$> filter (λ d, same_segment_tree p d = Some true) (seq 0 p)) ++ key_infix k p n.
Proof.
  intros (Hpn & HpK & Hseg) Hd Hsame. rewrite <-(seg_view_same p d) by done.
  unfold seg_view. assert (filter (λ d, same_segment_tree p d = Some true) (seq 0 KEY_LEN) =
    filter (λ d, same_segment_tree p d = Some true) (seq 0 p) ++ seq p n) as ->.
  { replace KEY_LEN with (p + (n + (KEY_LEN - p - n))) at 1 by lia. rewrite !seq_app, !filter_app.
    rewrite (filter_none _ (seq (0 + p + n) _)), (filter_all _ (seq (0 + p) n)); [by rewrite app_nil_r|..].
    all: intros e He%elem_of_seq; rewrite Hseg by lia; lia. }
  rewrite fmap_app. f_equal. unfold key_infix. rewrite <-(Nat.add_0_r p) at 1.
  by rewrite <-fmap_add_seq, <-list_fmap_compose.
Qed.

Lemma segment_tail_pos p n : segment_tail p n → 0 < n.
Proof.
  intros (Hpn & HpK & Hseg). assert (p < p + n); [|lia]. apply Hseg; [done..|]. by apply same_segment_iff.
Qed.

Lemma same_segment_total d d' : d < KEY_LEN → d' < KEY_LEN → ∃ s, same_segment_tree d d' = Some s.
Proof.
  intros Hd Hd'. unfold same_segment_tree.
  destruct (t2k_lookup (O:=O) d Hd) as (i & -> & Hi). destruct (t2k_lookup (O:=O) d' Hd') as (j & -> & Hj).
  simpl. destruct (lookup_lt_is_Some_2 SEGMENTS i) as [x ->]; [by rewrite ks_seg_len|].
  destruct (lookup_lt_is_Some_2 SEGMENTS j) as [y ->]; [by rewrite ks_seg_len|]. by eexists.
Qed.

(** The segment count of a subtree counts its infixes. *)
Lemma seg_infixes c q n d r : wf c → segment_tail (length q) n → d < KEY_LEN → d ≤ hend c →
  length q ≤ d → same_segment_tree (length q) d = Some true → (∀ k, k ∈ keys c → pref d k q) →
  lists_infixes c q n d r → seg d c = N.of_nat (length r).
Proof.
  intros Hwf Hseg Hd Hend Hpd Hsame Hp [Hnd Hr]. rewrite (seg_size rand_hash UNIT) by done. f_equal.
  set (pre := tb (childleaf_key c) <$> filter (λ d, same_segment_tree (length q) d = Some true) (seq 0 (length q))).
  assert (∀ k, k ∈ keys c → seg_view d k = pre ++ key_infix k (length q) n) as Hview.
  { intros k Hk. rewrite (seg_view_infix (length q) n) by done. f_equal. apply list_fmap_ext.
    intros i d' Hd'%list_elem_of_lookup_2. apply list_elem_of_filter in Hd' as [_ Hd'%elem_of_seq].
    apply (keys_agree rand_hash UNIT c k Hwf Hk). lia. }
  rewrite <-(length_fmap (app pre) r), <-(size_list_to_set (C:=gset (list N)) (app pre <$> r)).
  2:{ apply NoDup_fmap_2; [|done]. intros x y. apply app_inj_1. done. }
  f_equal. apply set_eq. intros x. unfold seg_views. rewrite !elem_of_list_to_set, !list_elem_of_fmap. split.
  - intros (k & -> & Hk). exists (key_infix k (length q) n). split; [by apply Hview|]. apply Hr. exists k. auto.
  - intros (y & -> & (k & Hk & _ & ->)%Hr). exists k. split; [|done]. symmetry. by apply Hview.
Qed.

Lemma count_range_length fuel h q n a lo hi r : wf h → KEY_LEN - hend h < fuel → a ≤ hend h →
  segment_tail (length q) n → length lo = n → length hi = n →
  infixes (KEY_LEN:=KEY_LEN) rand_hash fuel h q n a = Some r →
  count_range (KEY_LEN:=KEY_LEN) rand_hash fuel h q n a lo hi =
    Some (N.of_nat (length (filter (λ x, in_range lo hi x = true) r))).
Proof.
  revert h a r. induction fuel as [|fuel IH]; intros h a r Hwf Hfuel Ha Hseg Hlo Hhi; [lia|].
  assert (length q + n ≤ KEY_LEN) as Hq by apply Hseg.
  destruct Hwf as [e l Hl _|e p Hp|e b Hok Hlen]; simpl.
  1,2: intros [= <-]; unfold key_infixes, key_count_range; f_equal;
    destruct (key_has_prefix _ a q); [rewrite filter_singleton; by destruct (in_range _ _ _)|done].
  simpl in *. pose proof (bo_depth _ _ _ _ _ Hok) as HdK.
  assert (∀ c, c ∈ kids b → wf c ∧ end_depth b < hend c) as Hkid.
  { intros c Hc. split; [by eapply bo_children|by eapply child_hend]. }
  destruct (branch_cases e b q n a Hok Hlen Ha Hq)
    as [-> _ | -> -> _ | x o -> -> -> _ -> Ho Hoin _ | -> E1 E2 _ Hdeep]; cbn [negb].
  - by intros [= <-].
  - intros [= <-]. rewrite filter_singleton. by destruct (in_range _ _ _).
  - cbn [mbind option_bind]. rewrite Ho. cbn [mbind option_bind]. destruct o as [c|]; [|by intros [= <-]].
    destruct (Hkid c (Hoin c eq_refl)). apply IH; try done; lia.
  - rewrite E1, E2. apply Nat.leb_gt in E1. apply Nat.ltb_ge in E2.
    set (f := λ c, infixes (KEY_LEN:=KEY_LEN) rand_hash fuel c q n (end_depth b)) in *.
    set (g c := default [] (f c)).
    assert (∀ c, c ∈ kids b → f c = Some (g c) ∧ lists_infixes c q n (end_depth b) (g c)) as Hg.
    { apply (choose_some f (λ c r, lists_infixes c q n (end_depth b) r) []). intros c Hc.
      destruct (Hkid c Hc). apply infixes_spec; [done|lia|lia|done]. }
    rewrite (concatM_some f g) by (intros; by apply Hg). intros [= <-]. rewrite filter_bind, length_bind.
    pose proof (λ c k Hc Hk, split_range b q n lo hi c k Hok Hc Hk E2 E1 Hlo Hhi) as Hrange. cbv zeta in Hrange.
    destruct (tighten _ lo hi true true) as [[mt xt]|].
    + destruct (lookup_lt_is_Some_2 lo (end_depth b - length q)) as [l Hl]; [lia|].
      destruct (lookup_lt_is_Some_2 hi (end_depth b - length q)) as [u Hu]; [lia|].
      rewrite Hl, Hu. cbn [mbind option_bind]. apply sumM_some. intros c Hcin.
      destruct (Hg c Hcin) as [Hfc [Hndc Hin]]. destruct (Hkid c Hcin) as [Hwfc Hend].
      assert (∀ y, y ∈ g c → ∃ lo' hi' rest, in_range lo hi y =
        tle mt (l :: lo') (hkey c :: rest) && tle xt (hkey c :: rest) (u :: hi')) as Hy.
      { intros y (k & Hk & _ & ->)%Hin.
        destruct (Hrange c k Hcin Hk) as (l' & u' & lo' & hi' & rest & Hl' & Hu' & ->).
        assert (l' = l) as -> by congruence. assert (u' = u) as -> by congruence. eauto. }
      destruct (mt && (hkey c <? l)%N || xt && (u <? hkey c)%N) eqn:Eout.
      { rewrite filter_none; [done|]. intros y (lo' & hi' & rest & ->)%Hy. by rewrite edge_outside. }
      destruct (mt && (hkey c =? l)%N || xt && (hkey c =? u)%N) eqn:Eon; [apply IH; (done || lia)|].
      rewrite filter_all.
      * rewrite (wf_count_segment rand_hash UNIT) by done. f_equal.
        apply (seg_infixes c q n); [done..|lia|done| |auto|by apply Hg]. apply Hseg; lia.
      * intros y (lo' & hi' & rest & ->)%Hy. by apply edge_inside.
    + f_equal. rewrite <-length_bind, bind_nil; [done|]. intros c Hcin. apply filter_none. intros y Hy.
      destruct (Hg c Hcin) as [_ [_ Hin]]. apply Hin in Hy as (k & Hk & _ & ->).
      by rewrite (Hrange c k Hcin Hk).
Qed.

Lemma segmented_len_length fuel h q n a r : wf h → KEY_LEN - hend h < fuel → a ≤ hend h →
  segment_tail (length q) n → infixes (KEY_LEN:=KEY_LEN) rand_hash fuel h q n a = Some r →
  segmented_len (KEY_LEN:=KEY_LEN) rand_hash fuel h a q = Some (N.of_nat (length r)).
Proof.
  revert h a r. induction fuel as [|fuel IH]; intros h a r Hwf Hfuel Ha Hseg; [lia|].
  assert (length q + n ≤ KEY_LEN) as Hq by apply Hseg. pose proof Hseg as (_ & HqK & Hsame).
  destruct Hwf as [e l Hl _|e p Hp|e b Hok Hlen]; simpl.
  1,2: intros [= <-]; unfold key_infixes, key_segmented_len, key_has_prefix;
    rewrite Nat.min_l by lia; by destruct (forallb _ _).
  intros Hr. assert (wf (HBranch e b)) as Hwf by by constructor. simpl in *.
  pose proof (bo_depth _ _ _ _ _ Hok) as HdK.
  destruct (infixes_spec (S fuel) (HBranch e b) q n a Hwf) as (r' & Hr' & Hlist); [simpl; lia|done|done|].
  simpl in Hr'. assert (r' = r) as -> by congruence. clear Hr'.
  assert (∀ c, c ∈ kids b → wf c ∧ end_depth b < hend c) as Hkid.
  { intros c Hc. split; [by eapply bo_children|by eapply child_hend]. }
  destruct (branch_cases e b q n a Hok Hlen Ha Hq)
    as [E Hno | E E1 Hin | x o E E1 E2 E3 Hx Ho Hoin _ | E E1 E2 Hall Hdeep]; rewrite E in *; cbn [negb] in *.
  - by injection Hr as <-.
  - rewrite E1 in Hr. injection Hr as <-. apply Nat.leb_le in E1.
    assert ((length q <=? end_depth b) = true) as -> by (apply Nat.leb_le; lia).
    assert (same_segment_tree (length q) (end_depth b) = Some false) as ->.
    { destruct (same_segment_total (length q) (end_depth b)) as [[] Es]; [done..| |done].
      apply Hsame in Es; [|lia|done]. pose proof (segment_tail_pos _ _ Hseg). lia. }
    done.
  - rewrite E3. rewrite E1, E2, Hx in Hr. rewrite Hx. cbn [mbind option_bind] in *. rewrite Ho in *.
    cbn [mbind option_bind] in *. destruct o as [c|]; [|by injection Hr as <-].
    destruct (Hkid c (Hoin c eq_refl)). apply IH; try done; lia.
  - apply Nat.leb_gt in E1. apply Nat.ltb_ge in E2.
    assert ((length q <=? end_depth b) = true) as -> by (apply Nat.leb_le; lia).
    assert (same_segment_tree (length q) (end_depth b) = Some true) as Es by (apply Hsame; lia).
    rewrite Es. cbn [mbind option_bind negb]. f_equal.
    assert (seg (end_depth b) (HBranch e b) = segment_count b) as <-.
    { unfold seg. simpl. unfold branch_count_segment.
      by rewrite (proj2 (same_segment_iff (end_depth b) (end_depth b) HdK HdK) eq_refl). }
    apply (seg_infixes (HBranch e b) q n); [done|done|done|done|done|done|auto|].
    destruct Hlist as [Hnd Hiff]. split; [done|]. intros y. rewrite Hiff. naive_solver.
Qed.

(** ** The first infix of a range *)

Lemma elem_of_byte_range x lower upper : x ∈ byte_range lower upper ↔ (lower ≤ x ≤ upper)%N.
Proof.
  unfold byte_range. rewrite list_elem_of_fmap. setoid_rewrite elem_of_seq. split.
  - intros (i & -> & Hi). lia.
  - intros Hx. exists (N.to_nat (x - lower)). lia.
Qed.

Lemma byte_range_sorted lower upper : Sorted.StronglySorted N.lt (byte_range lower upper).
Proof.
  unfold byte_range. generalize (N.to_nat (upper + 1 - lower)) as m, 0 as i.
  induction m as [|m IH]; intros i; [constructor|]. simpl. constructor; [apply IH|].
  apply Forall_fmap, Forall_forall. intros j Hj%elem_of_seq. simpl. lia.
Qed.

(** The loop stops at the first child that answers. *)
Lemma firstM_spec {B} (f : N → res (option B)) (g : N → option B) l :
  Sorted.StronglySorted N.lt l → (∀ x, x ∈ l → f x = Some (g x)) →
  ∃ o, firstM f l = Some o ∧
    match o with
    | Some y => ∃ x, x ∈ l ∧ g x = Some y ∧ ∀ x', x' ∈ l → (x' < x)%N → g x' = None
    | None => ∀ x, x ∈ l → g x = None
    end.
Proof.
  induction 1 as [|x l Hs IH Hx]; intros Hf; [exists None; set_solver|].
  cbn [firstM]. rewrite (Hf x) by (by left). cbn [mbind option_bind]. destruct (g x) as [y|] eqn:Eg.
  - exists (Some y). split; [done|]. exists x. split_and!; [by left|done|]. rewrite Forall_forall in Hx.
    intros x' [->|Hx']%elem_of_cons Hlt; [lia|]. specialize (Hx x' Hx'). lia.
  - destruct IH as (o & -> & Ho); [intros; apply Hf; by right|]. exists o. split; [done|]. destruct o as [y|].
    + destruct Ho as (z & Hz & Hgz & Hmin). exists z. split_and!; [by right|done|].
      intros x' [->|Hx']%elem_of_cons Hlt; auto.
    + intros x' [->|Hx']%elem_of_cons; auto.
Qed.

(** [o] is the least of the members of [r] in the range. *)
Definition least_in_range lo hi (r : list (list N)) (o : option (list N)) : Prop :=
  match o with
  | Some x => x ∈ r ∧ in_range lo hi x = true ∧ ∀ y, y ∈ r → in_range lo hi y = true → lex_le x y = true
  | None => ∀ y, y ∈ r → in_range lo hi y = false
  end.

Lemma least_singleton lo hi x :
  least_in_range lo hi [x] (if in_range lo hi x then Some x else None).
Proof.
  destruct (in_range lo hi x) eqn:E; simpl; setoid_rewrite list_elem_of_singleton; [|naive_solver].
  split_and!; [done|done|]. intros y -> _. apply lex_le_refl.
Qed.

(** Smaller edge byte, smaller infix. *)
Lemma split_order b q n c c' k k' : branch_ok wf b false → c ∈ kids b → c' ∈ kids b →
  k ∈ keys c → k' ∈ keys c' → length q ≤ end_depth b → end_depth b < length q + n →
  (hkey c < hkey c')%N → lex_le (key_infix k (length q) n) (key_infix k' (length q) n) = true.
Proof.
  intros Hok Hc Hc' Hk Hk' Hle Hlt Hb. set (idx := end_depth b - length q).
  destruct (bo_keys _ _ _ _ _ Hok c k Hc Hk) as [Ha Hbk].
  destruct (bo_keys _ _ _ _ _ Hok c' k' Hc' Hk') as [Ha' Hbk'].
  rewrite (key_infix_split k (length q) idx n), (key_infix_split k' (length q) idx n) by lia.
  replace (length q + idx) with (end_depth b) by lia. rewrite Hbk, Hbk'.
  rewrite (key_infix_agree k k' (length q) idx).
  - rewrite lex_le_app. simpl. by rewrite (proj2 (N.ltb_lt _ _)).
  - replace (length q + idx) with (end_depth b) by lia. eapply agree_trans; [exact Ha|by apply agree_sym].
Qed.

(** The probe of the child bytes in ascending order. *)
Lemma first_split (F : head → option (option (list N))) (g : head → list (list N)) b q n lo hi :
  branch_ok wf b false → length q ≤ end_depth b → end_depth b < length q + n →
  length lo = n → length hi = n →
  (∀ c, c ∈ kids b → ∃ o, F c = Some o ∧ least_in_range lo hi (g c) o) →
  (∀ c, c ∈ kids b → lists_infixes c q n (end_depth b) (g c)) →
  let idx := end_depth b - length q in
  ∃ o, match tighten (key_infix (bytes (childleaf b)) (length q) idx) lo hi true true with
    | None => Some None
    | Some (min_tight, max_tight) =>
        lower ← (if min_tight then lo !! idx else Some 0%N);
        upper ← (if max_tight then hi !! idx else Some 255%N);
        firstM (λ child_byte,
          o ← table_get hkey rand_hash (child_table b) child_byte;
          match o with Some child => F child | None => Some None end) (byte_range lower upper)
    end = Some o ∧ least_in_range lo hi (kids b ≫= g) o.
Proof.
  intros Hok Hle Hlt Hlo Hhi HF Hg idx.
  pose proof (λ c k Hc Hk, split_range b q n lo hi c k Hok Hc Hk Hle Hlt Hlo Hhi) as Hrange.
  cbv zeta in Hrange. fold idx in Hrange.
  destruct (tighten _ lo hi true true) as [[mt xt]|].
  2:{ exists None. split; [done|]. intros y (c & Hy & Hc)%list_elem_of_bind.
      apply (Hg c Hc) in Hy as (k & Hk & _ & ->). by apply Hrange with c. }
  destruct (lookup_lt_is_Some_2 lo idx) as [l Hl]; [lia|].
  destruct (lookup_lt_is_Some_2 hi idx) as [u Hu]; [lia|].
  set (lower := if mt then l else 0%N). set (upper := if xt then u else 255%N).
  replace (if mt then lo !! idx else Some 0%N) with (Some lower) by (by destruct mt).
  replace (if xt then hi !! idx else Some 255%N) with (Some upper) by (by destruct xt).
  cbn [mbind option_bind].
  assert (∀ c y, c ∈ kids b → y ∈ g c → in_range lo hi y = true → hkey c ∈ byte_range lower upper) as Hbyte.
  { intros c y Hc (k & Hk & _ & ->)%(Hg c Hc) Hin. apply elem_of_byte_range.
    destruct (Hrange c k Hc Hk) as (l' & u' & lo' & hi' & rest & Hl' & Hu' & E).
    assert (l' = l) as -> by congruence. assert (u' = u) as -> by congruence. rewrite E in Hin.
    assert (hkey c < 256)%N as Hb.
    { destruct (bo_keys _ _ _ _ _ Hok c k Hc Hk) as [_ <-]. apply (tb_lt (O:=O)).
      eapply keys_ok; [by eapply bo_children|exact Hk]. }
    destruct (mt && (hkey c <? l)%N || xt && (u <? hkey c)%N) eqn:Eo; [by rewrite edge_outside in Hin|].
    apply orb_false_iff in Eo as [E1 E2]. unfold lower, upper.
    destruct mt, xt; simpl in *; rewrite ?N.ltb_ge in *; lia. }
  set (f := λ child_byte, o ← table_get hkey rand_hash (child_table b) child_byte;
    match o with Some child => F child | None => Some None end).
  assert (∀ x, ∃ o, f x = Some o ∧ (o ≠ None → ∃ c, c ∈ kids b ∧ hkey c = x) ∧
    ∀ c, c ∈ kids b → hkey c = x → least_in_range lo hi (g c) o) as Hf.
  { intros x. destruct (kids_split rand_hash UNIT b false x Hok) as (o & es & Hes & Hox & Hfresh).
    unfold f. rewrite (table_get_kids rand_hash UNIT b false x o es) by done. cbn [mbind option_bind].
    destruct o as [c|].
    - assert (c ∈ kids b) as Hc by (rewrite Hes; set_solver). destruct (HF c Hc) as (o & -> & Ho).
      exists o. split_and!; [done|intros _; exists c; auto|]. intros c' Hc' E.
      assert (c' = c) as ->; [|done].
      apply (kids_inj rand_hash UNIT wf b false c' c Hok Hc' Hc). rewrite E. symmetry. by apply Hox.
    - exists None. split_and!; [done|done|]. intros c Hc E. exfalso. apply Hfresh. rewrite <-E.
      rewrite Hes in Hc. by apply list_elem_of_fmap_2. }
  destruct (firstM_spec f (λ x, default None (f x)) (byte_range lower upper)) as (o & -> & Ho).
  { apply byte_range_sorted. }
  { intros x _. by destruct (Hf x) as (o & -> & _). }
  exists o. split; [done|]. destruct o as [y|].
  - destruct Ho as (x & Hx & Hgx & Hmin). destruct (Hf x) as (o & E & Hex & Hleast). rewrite E in Hgx.
    simpl in Hgx. subst o. destruct Hex as (c & Hc & Hcx); [done|].
    destruct (Hleast c Hc Hcx) as (Hy & Hin & Hmn). split_and!; [apply list_elem_of_bind; eauto|done|].
    intros z (c' & Hz & Hc')%list_elem_of_bind Hzin. destruct (N.lt_trichotomy (hkey c') x) as [Hlt'|[He|Hgt]].
    + exfalso. destruct (Hf (hkey c')) as (o & E' & _ & Hleast').
      specialize (Hmin (hkey c') (Hbyte c' z Hc' Hz Hzin) Hlt'). rewrite E' in Hmin. simpl in Hmin. subst o.
      specialize (Hleast' c' Hc' eq_refl z Hz). congruence.
    + apply Hmn; [|done]. assert (c' = c) as <-; [|done].
      apply (kids_inj rand_hash UNIT wf b false c' c Hok Hc' Hc). congruence.
    + apply (Hg c Hc) in Hy as (k & Hk & _ & ->). apply (Hg c' Hc') in Hz as (k' & Hk' & _ & ->).
      apply (split_order b q n c c'); try done. by rewrite Hcx.
  - intros z (c & Hz & Hc)%list_elem_of_bind. destruct (in_range lo hi z) eqn:Hzin; [exfalso|done].
    destruct (Hf (hkey c)) as (o & E' & _ & Hleast').
    specialize (Ho (hkey c) (Hbyte c z Hc Hz Hzin)). rewrite E' in Ho. simpl in Ho. subst o.
    specialize (Hleast' c Hc eq_refl z Hz). congruence.
Qed.

Lemma first_infix_range_least fuel h q n a lo hi r : wf h → KEY_LEN - hend h < fuel → a ≤ hend h →
  length q + n ≤ KEY_LEN → length lo = n → length hi = n →
  infixes (KEY_LEN:=KEY_LEN) rand_hash fuel h q n a = Some r →
  ∃ o, first_infix_range (KEY_LEN:=KEY_LEN) rand_hash fuel h q n a lo hi = Some o ∧
    least_in_range lo hi r o.
Proof.
  revert h a r. induction fuel as [|fuel IH]; intros h a r Hwf Hfuel Ha Hq Hlo Hhi; [lia|].
  assert (least_in_range lo hi [] None) as Hnil by (by intros y ?%elem_of_nil).
  destruct Hwf as [e l Hl _|e p Hp|e b Hok Hlen]; simpl.
  1,2: intros [= <-]; unfold key_infixes, key_first_infix_range; eexists; split; [done|];
    destruct (key_has_prefix _ a q); [apply least_singleton|exact Hnil].
  simpl in *. pose proof (bo_depth _ _ _ _ _ Hok) as HdK.
  assert (∀ c, c ∈ kids b → wf c ∧ end_depth b < hend c) as Hkid.
  { intros c Hc. split; [by eapply bo_children|by eapply child_hend]. }
  destruct (branch_cases e b q n a Hok Hlen Ha Hq)
    as [-> _ | -> -> _ | x o -> -> -> _ -> Ho Hoin _ | -> E1 E2 _ _]; cbn [negb].
  - intros [= <-]. eexists. split; [done|]. exact Hnil.
  - intros [= <-]. eexists. split; [done|]. apply least_singleton.
  - cbn [mbind option_bind]. rewrite Ho. cbn [mbind option_bind]. destruct o as [c|].
    + destruct (Hkid c (Hoin c eq_refl)). apply IH; (done || lia).
    + intros [= <-]. eexists. split; [done|]. exact Hnil.
  - rewrite E1, E2. apply Nat.leb_gt in E1. apply Nat.ltb_ge in E2.
    set (f := λ c, infixes (KEY_LEN:=KEY_LEN) rand_hash fuel c q n (end_depth b)) in *.
    set (g c := default [] (f c)).
    assert (∀ c, c ∈ kids b → f c = Some (g c) ∧ lists_infixes c q n (end_depth b) (g c)) as Hg.
    { apply (choose_some f (λ c r, lists_infixes c q n (end_depth b) r) []). intros c Hc.
      destruct (Hkid c Hc). apply infixes_spec; [done|lia|lia|done]. }
    rewrite (concatM_some f g) by (intros; by apply Hg). intros [= <-].
    apply (first_split (λ c, first_infix_range (KEY_LEN:=KEY_LEN) rand_hash fuel c q n (end_depth b) lo hi)
      g b q n lo hi); try done; [|intros; by apply Hg].
    intros c Hc. destruct (Hkid c Hc). apply IH; [done|lia|lia|done..|]. by apply Hg.
Qed.

(** ** Locating a prefix *)

Lemma locate_prefix_spec fuel h q a : wf h → KEY_LEN - hend h < fuel → a ≤ hend h → length q ≤ KEY_LEN →
  ∃ o, locate_prefix (KEY_LEN:=KEY_LEN) rand_hash fuel h a q = Some o ∧
    match o with
    | Some c => wf c ∧ length q ≤ hend c ∧ ∀ k, k ∈ keys c ↔ k ∈ keys h ∧ pref a k q
    | None => ∀ k, k ∈ keys h → ¬ pref a k q
    end.
Proof.
  revert h a. induction fuel as [|fuel IH]; intros h a Hwf Hfuel Ha Hq; [lia|]. cbn [locate_prefix].
  assert (is_leaf h ∨ ¬ is_leaf h) as [Hl|Hl] by (destruct h; simpl; tauto).
  { rewrite (proj2 (wf_full_leaf rand_hash UNIT h Hwf) Hl), Nat.min_l, firstn_all by done.
    rewrite (proj2 (Nat.leb_le _ _)) by done. pose proof (key_has_prefix_pref (childleaf_key h) a q) as E.
    assert (∀ k, k ∈ keys h ↔ k = childleaf_key h) as Hk
      by (intros k; rewrite leaf_keys by done; apply list_elem_of_singleton).
    destruct (key_has_prefix (childleaf_key h) a q); cbn [negb]; eexists; (split; [done|]).
    - split_and!; [done|by rewrite (proj2 (wf_full_leaf rand_hash UNIT h Hwf) Hl)|].
      intros k. rewrite Hk. naive_solver.
    - intros k ->%Hk. naive_solver. }
  pose proof Hwf as Hwf0. destruct Hwf as [| |e b Hok Hlen]; [by destruct Hl..|].
  cbn [Branch.hend] in *. pose proof (bo_depth _ _ _ _ _ Hok) as HdK.
  destruct (descend_spec rand_hash UNIT e b a q Hok Ha Hq) as (Hf & Ht & Hc).
  change (childleaf_key (HBranch e b)) with (bytes (childleaf b)).
  destruct (key_has_prefix _ a _) eqn:E; cbn [negb]; [|exists None; split; [done|auto]].
  destruct (Nat.leb_spec (length q) (end_depth b)) as [Hle|Hlt].
  - eexists. split; [done|]. split_and!; [done|done|]. intros k. split; [|by intros []]. auto.
  - destruct (Hc eq_refl Hlt) as (x & o & -> & Ho & Hin & Hkv). cbn [mbind option_bind]. rewrite Ho.
    cbn [mbind option_bind].
    assert (∀ k, k ∈ keys (HBranch e b) ∧ pref a k q ↔
      ∃ c, o = Some c ∧ k ∈ keys c ∧ pref (end_depth b) k q) as Hiff.
    { intros k. rewrite elem_of_keys. split.
      - intros [[v Hv] Hp]. destruct (proj1 (Hkv k v)) as (c & Hc' & Hv' & Hp'); [done|].
        exists c. split_and!; [done| |done]. apply elem_of_keys. eauto.
      - intros (c & Hc' & [v Hv]%elem_of_keys & Hp). destruct (proj2 (Hkv k v)); eauto. }
    destruct o as [c|].
    + pose proof (child_hend rand_hash UNIT b false c Hok (Hin c eq_refl)) as Hend.
      destruct (IH c (end_depth b)) as (o & -> & Ho'); [by eapply bo_children; eauto|lia|lia|done|].
      exists o. split; [done|]. destruct o as [c'|].
      * destruct Ho' as (H1 & H2 & H3). split_and!; [done..|]. intros k. rewrite H3, Hiff. naive_solver.
      * intros k Hk Hp. destruct (proj1 (Hiff k)) as (? & [= <-] & ? & ?); [done|]. by eapply Ho'.
    + exists None. split; [done|]. intros k Hk Hp. destruct (proj1 (Hiff k)) as (? & ? & _); done.
Qed.

(** Past the prefix, the depth a query starts at no longer matters. *)
Lemma infixes_deep fuel c q n a a' : length q ≤ a → length q ≤ a' →
  infixes (KEY_LEN:=KEY_LEN) rand_hash fuel c q n a = infixes (KEY_LEN:=KEY_LEN) rand_hash fuel c q n a'.
Proof.
  intros Ha Ha'.
  assert (∀ k a q', length q' ≤ a → key_has_prefix (KEY_LEN:=KEY_LEN) k a q' = true) as Hdeep.
  { intros k x q' Hle. apply key_has_prefix_pref. intros d; lia. }
  destruct fuel, c; simpl; unfold key_infixes; rewrite ?Hdeep by done; try done.
  unfold branch_prefix_ok. by rewrite !Hdeep by (rewrite length_take; lia).
Qed.

(** Enumerating the located subtree is enumerating from the root of it. *)
Lemma infixes_from_matched fuel fuel' c q n : wf c → KEY_LEN - hend c < fuel →
  KEY_LEN - hend c < fuel' → length q ≤ hend c → length q + n ≤ KEY_LEN →
  infixes_from_matched_prefix (KEY_LEN:=KEY_LEN) fuel c (length q) n =
    infixes (KEY_LEN:=KEY_LEN) rand_hash fuel' c q n (hend c).
Proof.
  revert fuel' c. induction fuel as [|fuel IH]; intros fuel' c Hwf Hf Hf' Hq Hqn; [lia|].
  destruct fuel' as [|fuel']; [lia|]. cbn [infixes_from_matched_prefix].
  assert (∀ k a q', length q' ≤ a → key_has_prefix (KEY_LEN:=KEY_LEN) k a q' = true) as Hdeep.
  { intros k a q' Hle. apply key_has_prefix_pref. intros d; lia. }
  destruct Hwf as [e l Hl Hh|e p Hp|e b Hok Hlen].
  1,2: cbn [Branch.hend] in *; rewrite (proj2 (Nat.leb_le _ _)) by done;
    cbn [infixes]; unfold key_infixes; rewrite Hdeep by done; done.
  cbn [Branch.hend infixes] in *. unfold branch_prefix_ok. rewrite Hdeep by (rewrite length_take; lia).
  cbn [negb]. destruct (length q + n <=? end_depth b); [done|].
  rewrite (proj2 (Nat.ltb_ge _ _)) by done. pose proof (bo_depth _ _ _ _ _ Hok) as HdK.
  assert (∀ c, c ∈ kids b → infixes_from_matched_prefix (KEY_LEN:=KEY_LEN) fuel c (length q) n =
    infixes (KEY_LEN:=KEY_LEN) rand_hash fuel' c q n (end_depth b)) as Hc.
  { intros c Hc. pose proof (bo_children _ _ _ _ _ Hok c Hc) as Hwfc.
    pose proof (child_hend rand_hash UNIT b false c Hok Hc). rewrite (IH fuel') by (done || lia).
    apply infixes_deep; lia. }
  revert Hc. generalize (kids b). intros l Hc. induction l as [|c l IHl]; [done|]. cbn [concatM].
  rewrite (Hc c) by (by left). destruct (infixes _ _ c _ _ _); cbn [mbind option_bind]; [|done].
  rewrite IHl; [done|]. intros c' Hc'. apply Hc. by right.
Qed.
End spec.
