(* ===== verification/PatchQueries.v ===== *)
(** * PatchQueries: the prefix and range queries of PATCH

    Source: [triblespace-core/src/patch.rs], [PATCH::infixes],
    [bounded_infixes], [infixes_range], [first_infix_range],
    [next_infix_after], [count_range], [segmented_len], [traversal_depth].

    The prefix and the bounds are in tree order.  The lengths are const generics
    in the source; here they are the lengths of the lists, and a const assertion
    is a run-time one. *)

From S2P Require Import Prelude Lex OwnerCover ByteTable KeySchema PatchHash Branch Head Algebra.
From S2P Require Import Overlap Canonical Patch Queries.

Open Scope nat_scope.

(** The loop of [next_infix_after] over [cursor]. *)
Fixpoint successor (cursor : nat) (lower : list N) : option (list N) :=
  match cursor with
  | 0 => None
  | S cursor =>
      match lower !! cursor with
      | Some byte =>
          if negb (byte =? 255)%N then
            Some (take cursor lower ++ (byte + 1)%N :: replicate (length lower - S cursor) 0%N)
          else successor cursor lower
      | None => None
      end
  end.

Section ops.
Context {KEY_LEN : nat} {O : KeySchema KEY_LEN} {H : PatchHash} {V : Type}.
Context (rand_hash : N → N).
Abbreviation PATCH := (PATCH Digest V).
Abbreviation head := (head Digest V).
Abbreviation FUEL := (S KEY_LEN).
Implicit Types p : PATCH.

(** "INFIX_LEN must cover a whole segment". *)
Definition segment_assert (prefix_len infix_len : nat) : res unit :=
  _ ← massert (prefix_len + infix_len <=? KEY_LEN);
  _ ← massert (0 <? prefix_len + infix_len);
  let last := prefix_len + infix_len - 1 in
  same ← same_segment_tree prefix_len last;
  ok ← (if same : bool then
          if prefix_len + infix_len =? KEY_LEN then Some true
          else next ← same_segment_tree last (prefix_len + infix_len); Some (negb next)
        else Some false);
  massert ok.

(** "PREFIX_LEN must align to segment boundary". *)
Definition prefix_assert (prefix_len : nat) : res unit :=
  _ ← massert (prefix_len <=? KEY_LEN);
  if (0 <? prefix_len) && (prefix_len <? KEY_LEN) then
    same ← same_segment_tree (prefix_len - 1) prefix_len;
    massert (negb same)
  else Some tt.

Definition infixes p (prefix : list N) (infix_len : nat) : res (list (list N)) :=
  _ ← segment_assert (length prefix) infix_len;
  match proot p with
  | Some root => Queries.infixes (KEY_LEN:=KEY_LEN) rand_hash FUEL root prefix infix_len 0
  | None => Some []
  end.

Record PATCHBoundedInfixes := mkBounded { located : option head; bi_count : N }.

Definition bounded_infixes p (prefix : list N) (infix_len : nat) (limit : N)
    : res (option PATCHBoundedInfixes) :=
  _ ← segment_assert (length prefix) infix_len;
  _ ← prefix_assert (length prefix);
  match proot p with
  | None => Some (Some (mkBounded None 0))
  | Some root =>
      o ← locate_prefix (KEY_LEN:=KEY_LEN) rand_hash FUEL root 0 prefix;
      match o with
      | None => Some (Some (mkBounded None 0))
      | Some located =>
          count ← count_segment (KEY_LEN:=KEY_LEN) located (length prefix);
          Some (if (limit <? count)%N then None else Some (mkBounded (Some located) count))
      end
  end.

(** [PATCHBoundedInfixes::for_each]. *)
Definition bounded_for_each (view : PATCHBoundedInfixes) (prefix_len infix_len : nat)
    : res (list (list N)) :=
  match located view with
  | Some located =>
      infixes_from_matched_prefix (KEY_LEN:=KEY_LEN) FUEL located prefix_len infix_len
  | None => Some []
  end.

Definition infixes_range p (prefix : list N) (infix_len : nat) (min_infix max_infix : list N)
    : res (list (list N)) :=
  _ ← segment_assert (length prefix) infix_len;
  match proot p with
  | Some root =>
      Queries.infixes_range (KEY_LEN:=KEY_LEN) rand_hash FUEL root prefix infix_len 0 min_infix max_infix
  | None => Some []
  end.

Definition first_infix_range p (prefix : list N) (infix_len : nat) (min_infix max_infix : list N)
    : res (option (list N)) :=
  _ ← segment_assert (length prefix) infix_len;
  if negb (lex_le min_infix max_infix) then Some None
  else
    match proot p with
    | Some root =>
        Queries.first_infix_range (KEY_LEN:=KEY_LEN) rand_hash FUEL root prefix infix_len 0
          min_infix max_infix
    | None => Some None
    end.

Definition next_infix_after p (prefix : list N) (infix_len : nat) (after max_infix : list N)
    : res (option (list N)) :=
  match successor (length after) after with
  | None => Some None
  | Some lower => first_infix_range p prefix infix_len lower max_infix
  end.

(** No run-time assertion here. *)
Definition count_range p (prefix : list N) (infix_len : nat) (min_infix max_infix : list N) : res N :=
  _ ← massert (length prefix + infix_len <=? KEY_LEN);
  match proot p with
  | Some root =>
      Queries.count_range (KEY_LEN:=KEY_LEN) rand_hash FUEL root prefix infix_len 0 min_infix max_infix
  | None => Some 0%N
  end.

Definition segmented_len p (prefix : list N) : res N :=
  _ ← prefix_assert (length prefix);
  match proot p with
  | Some root => Queries.segmented_len (KEY_LEN:=KEY_LEN) rand_hash FUEL root 0 prefix
  | None => Some 0%N
  end.

Definition traversal_depth p (prefix : list N) : res nat :=
  _ ← massert (length prefix <=? KEY_LEN);
  match proot p with
  | Some root => Queries.traversal_depth (KEY_LEN:=KEY_LEN) rand_hash FUEL root 0 prefix
  | None => Some 0
  end.
End ops.

(** ** The successor of a byte string *)

Definition is_bytes (l : list N) : Prop := Forall (λ b, (b < 256)%N) l.

Lemma lex_le_zeros n x : length x = n → lex_le (replicate n 0%N) x = true.
Proof.
  revert x. induction n as [|n IH]; intros [|b x] Hx; try done. injection Hx as Hx. simpl.
  rewrite IH by done. by destruct b.
Qed.

Lemma lex_le_ones n x : length x = n → is_bytes x → lex_le x (replicate n 255%N) = true.
Proof.
  revert x. induction n as [|n IH]; intros [|b x] Hx Hb; try done. injection Hx as Hx. apply Forall_cons in Hb as [Hb Hxs].
  simpl. rewrite IH by done. rewrite andb_true_r. apply orb_true_iff.
  destruct (N.lt_ge_cases b 255); [left; by apply N.ltb_lt|right; apply N.eqb_eq; lia].
Qed.

Lemma successor_step p b m x : is_bytes x → length x = length p + S m → (b < 255)%N →
  lex_le (p ++ (b + 1)%N :: replicate m 0%N) x = lex_lt (p ++ b :: replicate m 255%N) x.
Proof.
  unfold lex_lt. revert x. induction p as [|c p IH]; intros [|d x] Hb Hx Hlt; simpl in Hx; try lia.
  - apply Forall_cons in Hb as [Hd Hxs]. simpl. rewrite lex_le_zeros, lex_le_ones by (done || lia).
    rewrite !andb_true_r. apply eq_iff_eq_true. rewrite negb_true_iff, orb_true_iff, orb_false_iff.
    rewrite N.ltb_lt, N.eqb_eq, N.ltb_ge, N.eqb_neq. lia.
  - apply Forall_cons in Hb as [Hd Hxs]. simpl. rewrite IH by (done || lia).
    destruct (N.lt_trichotomy c d) as [Hcd|[->|Hcd]].
    + rewrite (proj2 (N.ltb_lt c d)) by done. rewrite (proj2 (N.ltb_ge d c)) by lia.
      by rewrite (proj2 (N.eqb_neq d c)) by lia.
    + by rewrite N.ltb_irrefl, N.eqb_refl.
    + rewrite (proj2 (N.ltb_ge c d)) by lia. rewrite (proj2 (N.ltb_lt d c)) by done.
      by rewrite (proj2 (N.eqb_neq c d)) by lia.
Qed.

Lemma successor_spec cursor p m : is_bytes p → length p = cursor →
  match successor cursor (p ++ replicate m 255%N) with
  | Some s => length s = cursor + m ∧
      ∀ x, is_bytes x → length x = cursor + m → lex_le s x = lex_lt (p ++ replicate m 255%N) x
  | None => ∀ x, is_bytes x → length x = cursor + m → lex_lt (p ++ replicate m 255%N) x = false
  end.
Proof.
  revert p m. induction cursor as [|cursor IH]; intros p m Hp Hl.
  - apply nil_length_inv in Hl as ->. simpl. intros x Hx Hlx. unfold lex_lt. by rewrite lex_le_ones.
  - assert (p ≠ []) as Hne by (intros ->; done).
    destruct (exists_last Hne) as [p' [b Hpb]]. subst p. rename p' into p.
    rewrite length_app in Hl. simpl in Hl. assert (length p = cursor) as Hlp by lia.
    apply Forall_app in Hp as [Hp Hb]. apply Forall_cons in Hb as [Hb _].
    cbn [successor]. rewrite <-app_assoc. simpl app.
    rewrite lookup_app_r, Hlp, Nat.sub_diag by lia. simpl.
    destruct (N.eqb_spec b 255) as [->|Hb255]; simpl.
    + specialize (IH p (S m) Hp Hlp). simpl in IH. rewrite Nat.add_succ_r in IH. exact IH.
    + rewrite take_app_length' by done.
      assert (length (p ++ b :: replicate m 255%N) - S cursor = m) as ->.
      { rewrite length_app. simpl. rewrite length_replicate. lia. } split.
      { rewrite length_app. simpl. rewrite length_replicate. lia. }
      intros x Hx Hlx. apply successor_step; [done|lia|lia].
Qed.

Lemma is_bytes_tail l : is_bytes l →
  match successor (length l) l with
  | Some s => length s = length l ∧ ∀ x, is_bytes x → length x = length l → lex_le s x = lex_lt l x
  | None => ∀ x, is_bytes x → length x = length l → lex_lt l x = false
  end.
Proof.
  intros Hl. pose proof (successor_spec (length l) l 0 Hl eq_refl) as Hs.
  simpl in Hs. rewrite app_nil_r, Nat.add_0_r in Hs. exact Hs.
Qed.

(** ** The assertions *)

Section spec.
Context {KEY_LEN : nat} {O : KeySchema KEY_LEN} `{!KeySchemaOk KEY_LEN O}.
Context {H : PatchHash} `{!PatchHashOk H} {V : Type}.
Context (rand_hash : N → N) (UNIT : V).
Abbreviation PATCH := (PATCH Digest V).
Abbreviation head := (head Digest V).
Abbreviation keys := (keys UNIT).
Abbreviation wf := (wf rand_hash UNIT).
Abbreviation hend := (hend (KEY_LEN:=KEY_LEN)).
Abbreviation to_map := (to_map UNIT).
Abbreviation patch_ok := (patch_ok rand_hash UNIT).
Implicit Types (p : PATCH) (k q : list N).

Lemma massert_true b u : massert b = Some u → b = true.
Proof. by destruct b. Qed.

(** A passed assertion puts the infix at the end of its segment. *)
Lemma segment_assert_tail m n : segment_assert (O:=O) m n = Some tt → segment_tail (O:=O) m n.
Proof.
  unfold segment_assert. intros Hs.
  apply bind_Some in Hs as ([] & Hle%massert_true & Hs). apply Nat.leb_le in Hle.
  apply bind_Some in Hs as ([] & Hpos%massert_true & Hs). apply Nat.ltb_lt in Hpos.
  apply bind_Some in Hs as (same & Hsame & Hs).
  apply bind_Some in Hs as (ok & Hok & ->%massert_true).
  destruct same; [|done].
  assert (m < KEY_LEN) as Hm.
  { unfold same_segment_tree in Hsame. apply bind_Some in Hsame as (i & Hi%lookup_lt_Some & _).
    by rewrite ks_t2k_len in Hi. }
  assert (m + n - 1 < KEY_LEN) as Hlast by lia.
  pose proof (proj1 (same_segment_iff m (m + n - 1) Hm Hlast) Hsame) as E.
  assert (0 < n) as Hn.
  { destruct n as [|n]; [|lia]. exfalso. rewrite (proj2 (Nat.eqb_neq (m + 0) KEY_LEN)) in Hok by lia.
    rewrite Nat.add_0_r in *. rewrite (proj2 (same_segment_iff (m - 1) m ltac:(lia) Hm)) in Hok by done.
    done. }
  split_and!; [done..|]. intros d Hmd Hd. rewrite same_segment_iff by done. split.
  - intros Ed. destruct (decide (d < m + n)) as [|Hge]; [done|]. exfalso.
    rewrite (proj2 (Nat.eqb_neq (m + n) KEY_LEN)) in Hok by lia.
    rewrite (proj2 (same_segment_iff (m + n - 1) (m + n) Hlast ltac:(lia))) in Hok; [done|].
    rewrite <-E. symmetry. apply (ks_contiguous m (m + n) d); [lia|done|done].
  - intros Hlt. symmetry. apply (ks_contiguous m d (m + n - 1)); [lia|done|done].
Qed.

(** ** The enumeration of a PATCH *)

(** [r] lists every infix after [q] once. *)
Definition plists p q (n : nat) (r : list (list N)) : Prop :=
  NoDup r ∧ ∀ x, x ∈ r ↔ ∃ k, k ∈ dom (to_map p) ∧ tree_prefix (KEY_LEN:=KEY_LEN) k q ∧
    x = key_infix k (length q) n.

Lemma plists_root p h q n r : patch_ok p → proot p = Some h → length q ≤ KEY_LEN →
  lists_infixes UNIT h q n 0 r ↔ plists p q n r.
Proof.
  intros Hp Hh Hq. pose proof (po_root _ _ _ Hp h Hh) as Hwf. unfold lists_infixes, plists.
  apply and_iff_compat_l. apply forall_proper; intros x. f_equiv. f_equiv; intros k.
  rewrite (dom_root rand_hash UNIT p h) by done. split.
  - intros (Hk & Hpr & ->). split_and!; [done| |done].
    apply pref_tree_prefix; [by eapply keys_ok|done|done].
  - intros (Hk & Hpr & ->). split_and!; [done| |done].
    apply pref_tree_prefix; [by eapply keys_ok|done|done].
Qed.

Lemma plists_None p q n r : patch_ok p → proot p = None → plists p q n r → r = [].
Proof.
  intros Hp Hh [_ Hr]. destruct r as [|x r]; [done|]. exfalso.
  destruct (proj1 (Hr x)) as (k & Hk & _); [by left|]. by rewrite (dom_None UNIT p Hh) in Hk.
Qed.

(** What the root-level functions see: the descent below a root, or nothing. *)
Lemma infixes_run p q n : patch_ok p → segment_assert (O:=O) (length q) n = Some tt →
  ∃ r, infixes (KEY_LEN:=KEY_LEN) rand_hash p q n = Some r ∧ plists p q n r ∧
    match proot p with
    | Some h => wf h ∧ Queries.infixes (KEY_LEN:=KEY_LEN) rand_hash (S KEY_LEN) h q n 0 = Some r
    | None => r = []
    end.
Proof.
  intros Hp Hs. pose proof (segment_assert_tail _ _ Hs) as (Hle & HK & _). unfold infixes. rewrite Hs.
  cbn [mbind option_bind]. destruct (proot p) as [h|] eqn:Hh.
  - pose proof (po_root _ _ _ Hp h Hh) as Hwf.
    destruct (infixes_spec rand_hash UNIT (S KEY_LEN) h q n 0) as (r & Hr & Hl); [done|lia|lia|done|].
    exists r. split_and!; [done| |done..]. apply (plists_root p h); [done..|lia|done].
  - exists []. split_and!; [done| |done]. split; [constructor|]. intros x. rewrite elem_of_nil.
    split; [done|]. intros (k & Hk & _). by rewrite (dom_None UNIT p Hh) in Hk.
Qed.

Lemma count_segment_wf h d : wf h → d < KEY_LEN → count_segment (KEY_LEN:=KEY_LEN) h d = Some (seg d h).
Proof.
  intros Hwf Hd. apply count_segment_seg; [by apply (hend_le rand_hash UNIT)|done|].
  destruct Hwf as [| |e b Hok _]; [done..|]. by apply (bo_depth _ _ _ _ _ Hok).
Qed.

Lemma traversal_depth_spec fuel h q a : wf h → KEY_LEN - hend h < fuel → a ≤ hend h → length q ≤ KEY_LEN →
  ∃ d, Queries.traversal_depth (KEY_LEN:=KEY_LEN) rand_hash fuel h a q = Some d ∧
    0 < d ≤ S (KEY_LEN - hend h).
Proof.
  revert h a. induction fuel as [|fuel IH]; intros h a Hwf Hf Ha Hq; [lia|].
  destruct Hwf as [e l Hl _|e p Hp|e b Hok Hlen]; simpl.
  1,2: eexists; split; [done|lia].
  simpl in *. pose proof (bo_depth _ _ _ _ _ Hok) as HdK.
  destruct (branch_prefix_ok b a q); cbn [negb]; [|eexists; split; [done|lia]].
  destruct (length q <=? end_depth b) eqn:E; [eexists; split; [done|lia]|]. apply Nat.leb_gt in E.
  destruct (lookup_lt_is_Some_2 q (end_depth b)) as [x ->]; [done|]. cbn [mbind option_bind].
  destruct (table_get_child rand_hash UNIT e b x Hok) as (o & -> & Ho & _). cbn [mbind option_bind].
  destruct o as [c|]; [|eexists; split; [done|lia]]. destruct (Ho c eq_refl) as (_ & Hc & Hlt & _).
  pose proof (hend_le rand_hash UNIT c Hc).
  destruct (IH c (end_depth b)) as (d & -> & Hd); [done|lia|lia|done|].
  cbn [mbind option_bind]. eexists. split; [done|]. lia.
Qed.

(** ** Properties *)

(** [infixes] with a passed assertion never panics and calls its closure
    once for each distinct infix that follows the prefix in a key. *)
Theorem infixes_refines p q n : patch_ok p → segment_assert (O:=O) (length q) n = Some tt →
  ∃ r, infixes (KEY_LEN:=KEY_LEN) rand_hash p q n = Some r ∧ plists p q n r.
Proof. intros Hp Hs. destruct (infixes_run p q n Hp Hs) as (r & ? & ? & _). eauto. Qed.

(** [infixes_range] lists exactly the infixes of [infixes] in the bounds,
    in the same order. *)
Theorem infixes_range_refines p q n lo hi : patch_ok p → segment_assert (O:=O) (length q) n = Some tt →
  length lo = n → length hi = n →
  ∃ r, infixes (KEY_LEN:=KEY_LEN) rand_hash p q n = Some r ∧
    infixes_range (KEY_LEN:=KEY_LEN) rand_hash p q n lo hi =
      Some (filter (λ x, in_range lo hi x = true) r).
Proof.
  intros Hp Hs Hlo Hhi. destruct (infixes_run p q n Hp Hs) as (r & Hr & _ & Hrun). exists r. split; [done|].
  pose proof (segment_assert_tail _ _ Hs) as (Hle & HK & _). unfold infixes_range. rewrite Hs.
  cbn [mbind option_bind]. destruct (proot p) as [h|]; [|by subst r]. destruct Hrun as [Hwf Hi].
  apply (infixes_range_filter rand_hash UNIT); [done|lia|lia|done..].
Qed.

(** [count_range] next to [infixes]. *)
Lemma patch_count_range p q n lo hi r : patch_ok p → segment_assert (O:=O) (length q) n = Some tt →
  length lo = n → length hi = n → infixes (KEY_LEN:=KEY_LEN) rand_hash p q n = Some r →
  count_range (KEY_LEN:=KEY_LEN) rand_hash p q n lo hi =
    Some (N.of_nat (length (filter (λ x, in_range lo hi x = true) r))).
Proof.
  intros Hp Hs Hlo Hhi Hr'. destruct (infixes_run p q n Hp Hs) as (r' & Hr & _ & Hrun).
  assert (r' = r) as -> by congruence. pose proof (segment_assert_tail _ _ Hs) as Hst. pose proof Hst as (Hle & HK & _).
  unfold count_range. rewrite (proj2 (Nat.leb_le _ _)) by done.
  cbn [massert mbind option_bind]. destruct (proot p) as [h|]; [|by subst r]. destruct Hrun as [Hwf Hi].
  apply (count_range_length rand_hash UNIT); [done|lia|lia|done..].
Qed.

(** [count_range] is the number of infixes [infixes_range] lists: distinct
    infixes are counted, not the entries that carry them. *)
Theorem count_range_refines p q n lo hi : patch_ok p → segment_assert (O:=O) (length q) n = Some tt →
  length lo = n → length hi = n →
  ∃ r, infixes_range (KEY_LEN:=KEY_LEN) rand_hash p q n lo hi = Some r ∧
    count_range (KEY_LEN:=KEY_LEN) rand_hash p q n lo hi = Some (N.of_nat (length r)).
Proof.
  intros Hp Hs Hlo Hhi. destruct (infixes_range_refines p q n lo hi) as (r & Hr & Hrange); [done..|].
  eexists. split; [exact Hrange|]. by apply patch_count_range.
Qed.

(** [segmented_len] is the number of distinct infixes after the prefix, for
    the infix that completes the segment the prefix ends before. *)
Theorem segmented_len_refines p q n : patch_ok p → segment_assert (O:=O) (length q) n = Some tt →
  prefix_assert (O:=O) (length q) = Some tt →
  ∃ r, infixes (KEY_LEN:=KEY_LEN) rand_hash p q n = Some r ∧
    segmented_len (KEY_LEN:=KEY_LEN) rand_hash p q = Some (N.of_nat (length r)).
Proof.
  intros Hp Hs Hpre. destruct (infixes_run p q n Hp Hs) as (r & Hr & _ & Hrun). exists r. split; [done|].
  pose proof (segment_assert_tail _ _ Hs) as Hst. pose proof Hst as (Hle & HK & _).
  unfold segmented_len. rewrite Hpre. cbn [mbind option_bind].
  destruct (proot p) as [h|]; [|by subst r]. destruct Hrun as [Hwf Hi].
  apply (segmented_len_length rand_hash UNIT) with n; [done|lia|lia|done..].
Qed.

(** The located subtree of [bounded_infixes]. *)
Lemma located_infixes h q n r : wf h → segment_tail (O:=O) (length q) n →
  Queries.infixes (KEY_LEN:=KEY_LEN) rand_hash (S KEY_LEN) h q n 0 = Some r →
  ∃ o, locate_prefix (KEY_LEN:=KEY_LEN) rand_hash (S KEY_LEN) h 0 q = Some o ∧
    match o with
    | Some c => count_segment (KEY_LEN:=KEY_LEN) c (length q) = Some (N.of_nat (length r)) ∧
        ∃ r', infixes_from_matched_prefix (KEY_LEN:=KEY_LEN) (S KEY_LEN) c (length q) n = Some r' ∧ r' ≡ₚ r
    | None => r = []
    end.
Proof.
  intros Hwf Hst Hr. pose proof Hst as (Hle & HK & _).
  destruct (infixes_spec rand_hash UNIT (S KEY_LEN) h q n 0) as (r0 & Hr0 & Hl); [done|lia|lia|done|].
  assert (r0 = r) as -> by congruence. destruct Hl as [Hnd Hl].
  destruct (locate_prefix_spec rand_hash UNIT (S KEY_LEN) h q 0) as (o & -> & Ho); [done|lia|lia|lia|].
  exists o. split; [done|]. destruct o as [c|].
  2:{ destruct r as [|x r]; [done|]. destruct (proj1 (Hl x)) as (k & Hk & Hpr & _); [by left|].
      by destruct (Ho k Hk). }
  destruct Ho as (Hwfc & Hend & Hk).
  destruct (infixes_spec rand_hash UNIT (S KEY_LEN) c q n (hend c)) as (r' & Hr' & [Hnd' Hl']);
    [done|lia|lia|done|].
  assert (∀ k, pref (KEY_LEN:=KEY_LEN) (length q) k q) as Htriv by (intros k d; lia).
  assert (r' ≡ₚ r) as Hperm.
  { apply NoDup_Permutation; [done..|]. intros x. rewrite Hl, Hl'. f_equiv. intros k. rewrite Hk.
    assert (pref (KEY_LEN:=KEY_LEN) (hend c) k q) by (intros d; lia). tauto. }
  split.
  - rewrite count_segment_wf by done. f_equal. rewrite <-Hperm.
    apply (seg_infixes rand_hash UNIT c q n); try done.
    + by apply same_segment_iff.
    + split; [done|]. intros x. rewrite Hl'. f_equiv. intros k.
      assert (pref (KEY_LEN:=KEY_LEN) (hend c) k q) by (intros d; lia). pose proof (Htriv k). tauto.
  - exists r'. split; [|done]. rewrite <-Hr'.
    apply (infixes_from_matched rand_hash UNIT); [done|lia|lia|done..].
Qed.

(** [bounded_infixes] answers exactly when the infixes fit the limit; the
    view's length is their number, and [for_each] lists each of them once. *)
Theorem bounded_infixes_refines p q n limit : patch_ok p →
  segment_assert (O:=O) (length q) n = Some tt → prefix_assert (O:=O) (length q) = Some tt →
  ∃ r o, plists p q n r ∧ bounded_infixes (KEY_LEN:=KEY_LEN) rand_hash p q n limit = Some o ∧
    match o with
    | Some view => (N.of_nat (length r) ≤ limit)%N ∧ bi_count view = N.of_nat (length r) ∧
        ∃ r', bounded_for_each (KEY_LEN:=KEY_LEN) view (length q) n = Some r' ∧ r' ≡ₚ r
    | None => (limit < N.of_nat (length r))%N
    end.
Proof.
  intros Hp Hs Hpre. destruct (infixes_run p q n Hp Hs) as (r & _ & Hl & Hrun). exists r.
  pose proof (segment_assert_tail _ _ Hs) as Hst. unfold bounded_infixes. rewrite Hs, Hpre.
  cbn [mbind option_bind]. destruct (proot p) as [h|].
  2:{ subst r. eexists. split_and!; [done..|]. simpl. split_and!; [lia|done|]. by exists []. }
  destruct Hrun as [Hwf Hi]. destruct (located_infixes h q n r Hwf Hst Hi) as (o & -> & Ho).
  cbn [mbind option_bind]. destruct o as [c|].
  2:{ subst r. eexists. split_and!; [done..|]. simpl. split_and!; [lia|done|]. by exists []. }
  destruct Ho as (-> & r' & Hr' & Hperm). cbn [mbind option_bind]. eexists. split_and!; [done..|].
  destruct (N.ltb_spec limit (N.of_nat (length r))); [done|]. simpl. split_and!; [done..|]. by exists r'.
Qed.

Lemma first_infix_range_spec p q n lo hi : patch_ok p → segment_assert (O:=O) (length q) n = Some tt →
  length lo = n → length hi = n →
  ∃ r o, plists p q n r ∧ first_infix_range (KEY_LEN:=KEY_LEN) rand_hash p q n lo hi = Some o ∧
    least_in_range lo hi r o.
Proof.
  intros Hp Hs Hlo Hhi. destruct (infixes_run p q n Hp Hs) as (r & _ & Hl & Hrun). exists r.
  pose proof (segment_assert_tail _ _ Hs) as (Hle & HK & _). unfold first_infix_range. rewrite Hs.
  cbn [mbind option_bind]. destruct (lex_le lo hi) eqn:Hlh; cbn [negb].
  - destruct (proot p) as [h|].
    + destruct Hrun as [Hwf Hi].
      destruct (first_infix_range_least rand_hash UNIT (S KEY_LEN) h q n 0 lo hi r) as (o & -> & Ho);
        [done|lia|lia|done..|]. eauto.
    + subst r. eexists. split_and!; [done..|]. by intros y ?%elem_of_nil.
  - eexists. split_and!; [done..|]. intros y _. unfold in_range. apply not_true_is_false.
    intros [H1 H2]%andb_true_iff. rewrite (lex_le_trans lo y hi) in Hlh by done. done.
Qed.

(** [first_infix_range] is the least infix in the bounds, [None] exactly
    when there is none (in particular for reversed bounds). *)
Theorem first_infix_range_refines p q n lo hi : patch_ok p →
  segment_assert (O:=O) (length q) n = Some tt → length lo = n → length hi = n →
  ∃ r o, plists p q n r ∧ first_infix_range (KEY_LEN:=KEY_LEN) rand_hash p q n lo hi = Some o ∧
    least_in_range lo hi r o.
Proof. apply first_infix_range_spec. Qed.

(** [next_infix_after] is the least infix strictly after [after] and at most
    [max_infix], and [None] exactly when there is none: its carry propagation
    skips nothing, at the all-[0xff] value too. *)
Theorem next_infix_after_refines p q n after hi : patch_ok p →
  segment_assert (O:=O) (length q) n = Some tt → length after = n → length hi = n → is_bytes after →
  ∃ r o, plists p q n r ∧ next_infix_after (KEY_LEN:=KEY_LEN) rand_hash p q n after hi = Some o ∧
    match o with
    | Some x => x ∈ r ∧ lex_lt after x = true ∧ lex_le x hi = true ∧
        ∀ y, y ∈ r → lex_lt after y = true → lex_le y hi = true → lex_le x y = true
    | None => ∀ y, y ∈ r → lex_lt after y = true → lex_le y hi = false
    end.
Proof.
  intros Hp Hs Ha Hhi Hb. unfold next_infix_after. pose proof (is_bytes_tail after Hb) as Hsucc.
  assert (∀ r x, plists p q n r → x ∈ r → is_bytes x ∧ length x = n) as Hr.
  { intros r x [_ Hr] (k & Hk & _ & ->)%Hr. rewrite key_infix_length. split; [|done].
    apply Forall_forall. intros b Hin. apply list_elem_of_fmap in Hin as (i & -> & _).
    apply tb_lt. by apply (dom_key_ok rand_hash UNIT p). }
  destruct (successor (length after) after) as [lo|].
  - destruct Hsucc as [Hlo Hsucc].
    destruct (first_infix_range_spec p q n lo hi) as (r & o & Hl & -> & Ho); [done..|congruence|done|].
    assert (∀ x, x ∈ r → lex_le lo x = lex_lt after x) as Heq.
    { intros x Hx. destruct (Hr r x Hl Hx). apply Hsucc; congruence. }
    exists r, o. split_and!; [done..|]. destruct o as [x|]; simpl in Ho; unfold in_range in Ho.
    + destruct Ho as (Hx & [H1 H2]%andb_true_iff & Hmin). rewrite Heq in H1 by done.
      split_and!; [done..|]. intros y Hy H3 H4. apply Hmin; [done|]. by rewrite Heq, H3, H4.
    + intros y Hy H3. specialize (Ho y Hy). by rewrite Heq, H3 in Ho.
  - destruct (infixes_run p q n Hp Hs) as (r & _ & Hl & _). exists r, None. split_and!; [done..|].
    intros y Hy H3. destruct (Hr r y Hl Hy). rewrite Hsucc in H3 by congruence. done.
Qed.

(** [traversal_depth] never panics, is zero for the empty PATCH only, and is
    bounded by the key width: a descent visits one node per depth. *)
Lemma traversal_depth_bounds p q : patch_ok p → length q ≤ KEY_LEN →
  ∃ d, traversal_depth (KEY_LEN:=KEY_LEN) rand_hash p q = Some d ∧ d ≤ S KEY_LEN ∧
    (d = 0 ↔ proot p = None).
Proof.
  intros Hp Hq. unfold traversal_depth. rewrite (proj2 (Nat.leb_le _ _)) by done.
  cbn [massert mbind option_bind]. destruct (proot p) as [h|] eqn:Hh; [|eexists; split_and!; [done|lia|done]].
  destruct (traversal_depth_spec (S KEY_LEN) h q 0) as (d & -> & Hd); [by eapply po_root|lia|lia|done|].
  exists d. split_and!; [done|lia|]. split; [lia|done].
Qed.
End spec.
