(* ===== verification/Machine.v ===== *)
(** * Machine: loops that stop, and the items an iterator yields

    A Rust [loop] or [while] is a body run until it breaks; [loopM] runs it
    with fuel.  An iterator is a state with a [next]; [yields] says which items
    it hands out, what its [size_hint] is before every item, and that it is
    fused.  [drains] is the same at the level of one loop iteration, and is what
    the proofs about traversals produce; [drains_yields] and [counted_yields]
    turn it into [yields] for every large enough fuel. *)

From S2P Require Import Prelude.

Open Scope nat_scope.

(** The body either continues with a new state or breaks with a result. *)
Fixpoint loopM {S A} (body : S → res (S + A)) (fuel : nat) (s : S) : res A :=
  match fuel with
  | 0 => None
  | Datatypes.S fuel =>
      r ← body s;
      match r with
      | inl s => loopM body fuel s
      | inr a => Some a
      end
  end.

(** A traversal that keeps [remaining], a saturating count of the items left. *)
Definition counted {S A} (body : S → res (S + (option A * S))) (st : S * N)
    : res (S * N + (option A * (S * N))) :=
  let '(s, remaining) := st in
  r ← body s;
  Some (match r with
        | inl s => inl (s, remaining)
        | inr (Some x, s) => inr (Some x, (s, (remaining - 1)%N))
        | inr (None, s) => inr (None, (s, remaining))
        end).

(** An iterator adapter that maps the items. *)
Definition map_next {S A B} (f : A → B) (next : S → res (option A * S)) (s : S) : res (option B * S) :=
  '(o, s) ← next s; Some (option_map f o, s).

(** The exact [size_hint] of a counted traversal, and the hint of an iterator
    that defines none: the default [(0, None)] says nothing. *)
Definition exact_hint {S} (st : S * N) (n : nat) : Prop := st.2 = N.of_nat n.
Definition no_hint {S} (st : S) (n : nat) : Prop := True.

Section yields.
Context {S A : Type}.

Inductive yields (hint : S → nat → Prop) (next : S → res (option A * S)) : S → list A → Prop :=
  | yields_end s s' :
      next s = Some (None, s') → next s' = Some (None, s') → hint s 0 → yields hint next s []
  | yields_item s x s' l :
      next s = Some (Some x, s') → hint s (Datatypes.S (length l)) →
      yields hint next s' l → yields hint next s (x :: l).

Inductive drains (body : S → res (S + (option A * S))) : S → list A → Prop :=
  | drains_skip s s' l : body s = Some (inl s') → drains body s' l → drains body s l
  | drains_item s x s' l : body s = Some (inr (Some x, s')) → drains body s' l → drains body s (x :: l)
  | drains_end s : body s = Some (inr (None, s)) → drains body s [].

Lemma yields_no_hint hint (next : S → res (option A * S)) st l :
  yields hint next st l → yields no_hint next st l.
Proof. induction 1; [by eapply yields_end|by eapply yields_item]. Qed.

Implicit Type body : S → res (S + (option A * S)).

Lemma loopM_le body n m s r : loopM body n s = Some r → n ≤ m → loopM body m s = Some r.
Proof.
  revert m s. induction n as [|n IH]; intros [|m] s; simpl; try done; [lia|].
  destruct (body s) as [[s'|a]|]; simpl; try done. intros Hr Hle. apply IH; [done|lia].
Qed.

(** What an iterator yields is unique. *)
Lemma yields_unique hint (next : S → res (option A * S)) s l l' :
  yields hint next s l → yields hint next s l' → l = l'.
Proof.
  intros Hl. revert l'. induction Hl as [s s' H1 _ _|s x s' l Hx _ _ IH]; intros l' Hl'.
  - inversion Hl'; [done|]. congruence.
  - inversion Hl' as [|? y s2 l2 Hy _ H2]; [congruence|]. subst.
    assert (y = x ∧ s2 = s') as [-> ->] by (rewrite Hx in Hy; by injection Hy). f_equal. by apply IH.
Qed.

Lemma yields_ext hint (next next' : S → res (option A * S)) s l :
  (∀ s, next s = next' s) → yields hint next s l → yields hint next' s l.
Proof.
  intros Heq. induction 1 as [s s' H1 H2 Hh|s x s' l Hx Hh _ IH].
  - by apply yields_end with s'; [rewrite <- Heq..|].
  - by apply yields_item with s'; [rewrite <- Heq| |].
Qed.

(** Enough fuel runs a terminating traversal to its end. *)
Lemma drains_yields_hint hint body s l : drains body s l →
  (∀ s s' n, body s = Some (inl s') → hint s n → hint s' n) →
  (∀ s x s' n, body s = Some (inr (Some x, s')) → hint s (Datatypes.S n) → hint s' n) →
  hint s (length l) → ∃ n, ∀ fuel, n ≤ fuel → yields hint (loopM body fuel) s l.
Proof.
  intros Hd Hskip Hitem. induction Hd as [s s' l Hb _ IH|s x s' l Hb _ IH|s Hb]; intros Hr.
  - destruct (IH (Hskip _ _ _ Hb Hr)) as [n Hn]. exists (Datatypes.S n). intros [|fuel] Hle; [lia|].
    assert (∀ r, loopM body fuel s' = Some r → loopM body (Datatypes.S fuel) s = Some r) as Hs.
    { intros r. simpl. by rewrite Hb. }
    pose proof (Hn fuel ltac:(lia)) as H1. pose proof (Hn (Datatypes.S fuel) ltac:(lia)) as H2.
    inversion H1 as [? s1 E1 E1' E0|? x s1 l' E1 E0 H3]; subst.
    + apply yields_end with s1; [by apply Hs| |done]. by apply (loopM_le _ fuel); [|lia].
    + inversion H2 as [|? ? s2 ? E2 _ H4]; subst.
      assert (s2 = s1) as -> by (apply (loopM_le _ _ (Datatypes.S fuel)) in E1; [congruence|lia]).
      apply yields_item with s1; [by apply Hs|done|done].
  - destruct (IH (Hitem _ _ _ _ Hb Hr)) as [n Hn]. exists (Datatypes.S n).
    intros [|fuel] Hle; [lia|]. apply yields_item with s'; [simpl; by rewrite Hb|done|]. apply Hn. lia.
  - exists 1. intros [|fuel] Hle; [lia|]. apply yields_end with s; [simpl; by rewrite Hb..|done].
Qed.

Lemma drains_yields body s l : drains body s l →
  ∃ n, ∀ fuel, n ≤ fuel → yields no_hint (loopM body fuel) s l.
Proof. intros Hd. by apply drains_yields_hint. Qed.
End yields.

Lemma counted_drains {S A} (body : S → res (S + (option A * S))) s l rem :
  drains body s l → drains (counted body) (s, rem) l.
Proof.
  intros Hd. revert rem. induction Hd as [s s' l Hb _ IH|s x s' l Hb _ IH|s Hb]; intros rem.
  - apply drains_skip with (s', rem); [simpl; by rewrite Hb|apply IH].
  - apply drains_item with (s', (rem - 1)%N); [simpl; by rewrite Hb|apply IH].
  - apply drains_end. simpl. by rewrite Hb.
Qed.

Lemma counted_yields {S A} (body : S → res (S + (option A * S))) s l :
  drains body s l →
  ∃ n, ∀ fuel, n ≤ fuel → yields exact_hint (loopM (counted body) fuel) (s, N.of_nat (length l)) l.
Proof.
  intros Hd. apply drains_yields_hint; [by apply counted_drains|..|done].
  - intros [s1 rem] [s2 rem'] n. simpl. intros Hb. apply bind_Some in Hb as ([s3|[[x|] s3]] & _ & E); try done.
    injection E as <- <-. done.
  - intros [s1 rem] x [s2 rem'] n. simpl. intros Hb. apply bind_Some in Hb as ([s3|[[y|] s3]] & _ & E); try done.
    injection E as <- <- <-. unfold exact_hint. simpl. lia.
Qed.

Lemma yields_map {S A B} (hint : S → nat → Prop) (f : A → B) (next : S → res (option A * S)) s l :
  yields hint next s l → yields hint (map_next f next) s (f <$> l).
Proof.
  induction 1 as [s s' H1 H2 Hr|s x s' l Hx Hr _ IH].
  - apply yields_end with s'; unfold map_next; [by rewrite H1|by rewrite H2|done].
  - change (yields hint (map_next f next) s (f x :: (f <$> l))).
    apply yields_item with s'; unfold map_next; [by rewrite Hx|by rewrite length_fmap|done].
Qed.
