(* ===== verification/Iterators.v ===== *)
(** * Iterators: enumerating the keys, entries and prefixes of a PATCH

    Source: [triblespace-core/src/patch.rs], [PATCHIterator],
    [PATCHOrderedIterator], [PATCHEntriesOrderedIterator], [PATCHIntoIterator],
    [PATCHIntoOrderedIterator], [PATCHPrefixIterator], [PATCHPrefixSet] and
    [PATCHIntoPrefixSetIterator].

    The body of each [next] loop is a definition; [loopM] runs it with fuel.
    A [Vec] used as a stack is a list with its top first; a sorted level that is
    popped from its end is a list in popping order.  The receipt a consuming
    iterator keeps alive plays no part in what it yields and is left out. *)

From S2P Require Import Prelude Lex Machine OwnerCover ByteTable KeySchema PatchHash Branch Head Algebra.
From S2P Require Import Overlap Canonical Patch Queries PatchQueries.

Open Scope nat_scope.

Definition USIZE_MAX : N := (2 ^ 64 - 1)%N.

Section ops.
Context {KEY_LEN : nat} {O : KeySchema KEY_LEN} {H : PatchHash} {V : Type}.
Context (UNIT : V).
Abbreviation PATCH := (PATCH Digest V).
Abbreviation head := (head Digest V).
Abbreviation branch := (branch Digest head).
Abbreviation hend := (hend (KEY_LEN:=KEY_LEN)).
Implicit Types (p : PATCH) (h : head) (b : branch).

Definition remaining p : N := N.min (len p) USIZE_MAX.

(** ** Physical order: [PATCHIterator]

    A frame is what is left of the slots of one branch. *)
Definition frame : Type := list (option head).
Record PATCHIterator := mkIter { pending_leaf : option (list N); it_rest : list frame * N }.

(** [stack] is an [ArrayVec] of capacity [KEY_LEN]: pushing beyond it panics. *)
Definition push_frame (f : frame) (stack : list frame) : res (list frame) :=
  _ ← massert (length stack <? KEY_LEN); Some (f :: stack).

Definition iter p : res PATCHIterator :=
  match proot p with
  | Some (HBranch _ b) => stack ← push_frame (child_table b) []; Some (mkIter None (stack, remaining p))
  | Some h => Some (mkIter (Some (childleaf_key h)) ([], remaining p))
  | None => Some (mkIter None ([], remaining p))
  end.

Definition iter_body (stack : list frame) : res (list frame + (option (list N) * list frame)) :=
  match stack with
  | [] => Some (inr (None, []))
  | [] :: stack => Some (inl stack)
  | (None :: iter) :: stack => Some (inl (iter :: stack))
  | (Some (HBranch _ b) :: iter) :: stack =>
      stack ← push_frame (child_table b) (iter :: stack); Some (inl stack)
  | (Some child :: iter) :: stack => Some (inr (Some (childleaf_key child), iter :: stack))
  end.

Definition iter_next (fuel : nat) (it : PATCHIterator) : res (option (list N) * PATCHIterator) :=
  match pending_leaf it with
  | Some key => Some (Some key, mkIter None ((it_rest it).1, ((it_rest it).2 - 1)%N))
  | None =>
      '(o, rest) ← loopM (counted iter_body) fuel (it_rest it);
      Some (o, mkIter None rest)
  end.

Definition iter_hint (it : PATCHIterator) (n : nat) : Prop := (it_rest it).2 = N.of_nat n.

(** ** What a traversal does with a node: emits it, or visits its children *)

Definition emit_key h : res (option (list N)) :=
  match h with HBranch _ _ => Some None | _ => Some (Some (childleaf_key h)) end.

(** [Head::leaf_entry]. *)
Definition leaf_entry h : res (list N * V) :=
  match h with
  | HLeaf _ l => Some (bytes (leaf_ptr l), leaf_value l)
  | HLocalLeaf _ p => Some (bytes p, UNIT)
  | HBranch _ _ => None
  end.

Definition emit_entry h : res (option (list N * V)) :=
  match h with HBranch _ _ => Some None | _ => e ← leaf_entry h; Some (Some e) end.

Definition emit_leaf h : res (option head) :=
  match h with HBranch _ _ => Some None | _ => Some (Some h) end.

Definition emit_prefix (prefix_len : nat) h : res (option (list N * N)) :=
  if prefix_len <=? hend h then
    key ← tree_ordered (childleaf_key h);
    _ ← massert (prefix_len <=? length key);
    Some (Some (take prefix_len key, count h))
  else Some None.

Definition emit_member (prefix_len : nat) h : res (option (list N)) :=
  if prefix_len <=? hend h then
    key ← tree_ordered (childleaf_key h);
    _ ← massert (prefix_len <=? length key);
    Some (Some (take prefix_len key))
  else Some None.

(** The occupied slots in ascending edge order, collected in an [ArrayVec] of
    capacity 256. *)
Definition ordered_children b : res (list head) :=
  let children := entries (child_table b) in
  _ ← massert (length children <=? 256);
  Some (sorted_children children).

(** ** Consuming iterators: a queue of heads *)

Definition queue_body {A} (emit : head → res (option A)) (push : branch → list head → res (list head))
    (queue : list head) : res (list head + (option A * list head)) :=
  match queue with
  | [] => Some (inr (None, []))
  | h :: queue =>
      o ← emit h;
      match o, h with
      | Some x, _ => Some (inr (Some x, queue))
      | None, HBranch _ b => queue ← push b queue; Some (inl queue)
      | None, _ => None
      end
  end.

(** [PATCHIntoIterator] takes the children out slot by slot, from the last. *)
Definition push_slots b (queue : list head) : res (list head) :=
  Some (foldl (λ q slot, match slot with Some c => c :: q | None => q end) queue (rev (child_table b))).

(** The ordered ones push clones of the sorted children in reverse. *)
Definition push_sorted b (queue : list head) : res (list head) :=
  children ← ordered_children b;
  Some (foldl (λ q child, child :: q) queue (rev children)).

(** [PATCHIntoIterator] counts [remaining] down, but defines no [size_hint]: the
    field is never read. *)
Definition into_iter p : list head * N := (option_list (proot p), remaining p).
Definition into_next : nat → list head * N → res (option (list N) * (list head * N)) :=
  loopM (counted (queue_body emit_key push_slots)).

Definition into_iter_ordered p : list head * N := (option_list (proot p), remaining p).
(** [next_with] hands the entry to its callback. *)
Definition next_with : nat → list head * N → res (option (list N * V) * (list head * N)) :=
  loopM (counted (queue_body emit_entry push_sorted)).
Definition into_ordered_next (fuel : nat) : list head * N → res (option (list N) * (list head * N)) :=
  map_next fst (next_with fuel).

Definition prefix_set_assert (prefix_len : nat) : res unit :=
  _ ← massert (0 <? prefix_len); prefix_assert prefix_len.

Definition into_prefixes p (prefix_len : nat) : res (list head) :=
  _ ← prefix_set_assert prefix_len; Some (option_list (proot p)).
Definition into_prefixes_next (prefix_len : nat) : nat → list head → res (option (list N) * list head) :=
  loopM (queue_body (emit_member prefix_len) push_sorted).

(** ** Borrowing ordered iterators: a stack of sorted levels *)

Definition level_body {A} (emit : head → res (option A)) (stack : list (list head))
    : res (list (list head) + (option A * list (list head))) :=
  match stack with
  | [] => Some (inr (None, []))
  | [] :: stack => Some (inl stack)
  | (child :: level) :: stack =>
      o ← emit child;
      match o, child with
      | Some x, _ => Some (inr (Some x, level :: stack))
      | None, HBranch _ b => children ← ordered_children b; Some (inl (children :: level :: stack))
      | None, _ => None
      end
  end.

Definition iter_ordered p : res (list (list head) * N) :=
  match proot p with
  | Some (HBranch _ b) => children ← ordered_children b; Some ([children], remaining p)
  | Some root => Some ([[root]], remaining p)
  | None => Some ([], remaining p)
  end.
Definition next_leaf : nat → list (list head) * N → res (option head * (list (list head) * N)) :=
  loopM (counted (level_body emit_leaf)).
Definition ordered_next (fuel : nat) : list (list head) * N → res (option (list N) * (list (list head) * N)) :=
  map_next childleaf_key (next_leaf fuel).
(** [PATCHEntriesOrderedIterator]: [next_leaf] only hands out leaves. *)
Definition entries_next (fuel : nat) (st : list (list head) * N)
    : res (option (list N * V) * (list (list head) * N)) :=
  '(o, st) ← next_leaf fuel st;
  match o with
  | Some h => e ← leaf_entry h; Some (Some e, st)
  | None => Some (None, st)
  end.

Definition iter_prefix_count p (prefix_len : nat) : res (list (list head)) :=
  _ ← massert (prefix_len <=? KEY_LEN);
  match proot p with
  | Some root =>
      if prefix_len <=? hend root then Some [[root]]
      else
        match root with
        | HBranch _ b => children ← ordered_children b; Some [children]
        | _ => None
        end
  | None => Some []
  end.
Definition prefix_next (prefix_len : nat)
    : nat → list (list head) → res (option (list N * N) * list (list head)) :=
  loopM (level_body (emit_prefix prefix_len)).

(** [PATCHPrefixSet]: the view is the PATCH itself. *)
Definition prefix_set p (prefix_len : nat) : res PATCH := _ ← prefix_set_assert prefix_len; Some p.
Definition prefix_set_iter p (prefix_len : nat) : res (list (list head)) := iter_prefix_count p prefix_len.
Definition prefix_set_next (prefix_len : nat) (fuel : nat)
    : list (list head) → res (option (list N) * list (list head)) :=
  map_next fst (prefix_next prefix_len fuel).
Definition prefix_set_is_empty p : bool := is_empty p.
End ops.

(** ** Traversals *)

Section visits.
Context {KEY_LEN : nat} {O : KeySchema KEY_LEN} `{!KeySchemaOk KEY_LEN O}.
Context {H : PatchHash} `{!PatchHashOk H} {V : Type}.
Context (rand_hash : N → N) (UNIT : V).
Abbreviation PATCH := (PATCH Digest V).
Abbreviation head := (head Digest V).
Abbreviation branch := (branch Digest head).
Abbreviation kvs := (kvs UNIT).
Abbreviation keys := (keys UNIT).
Abbreviation wf := (wf rand_hash UNIT).
Abbreviation branch_ok := (branch_ok rand_hash UNIT).
Abbreviation kids b := (entries (child_table b)).
Abbreviation hend := (hend (KEY_LEN:=KEY_LEN)).
Implicit Types (h c : head) (b : branch) (k q : list N).

(** A depth-first visit of [h] hands out [l]. *)
#[warnings="-register-all"]
Inductive visits {A} (order : branch → list head) (emit : head → res (option A)) : head → list A → Prop :=
  | visits_emit h x : emit h = Some (Some x) → visits order emit h [x]
  | visits_branch e b ls : emit (HBranch e b) = Some None → Forall2 (visits order emit) (order b) ls →
      visits order emit (HBranch e b) (concat ls).

Definition sorted_kids b : list head := sorted_children (kids b).

Lemma Forall2_choose {A B} (P : A → B → Prop) (l : list A) :
  (∀ x, x ∈ l → ∃ y, P x y) → ∃ l', Forall2 P l l'.
Proof.
  induction l as [|x l IH]; intros Hl; [by exists []|].
  destruct (Hl x) as [y Hy]; [by left|]. destruct IH as [l' Hl']; [by intros; apply Hl; right|].
  exists (y :: l'). by constructor.
Qed.

Lemma sorted_concat {A} (R : relation A) (E : relation head) (Q : head → A → Prop) cs ls :
  Sorted.StronglySorted E cs → Forall2 (λ c l, Sorted.StronglySorted R l ∧ ∀ x, x ∈ l → Q c x) cs ls →
  (∀ c c' x y, c ∈ cs → c' ∈ cs → E c c' → Q c x → Q c' y → R x y) → Sorted.StronglySorted R (concat ls).
Proof.
  intros Hs Hf. induction Hf as [|c l cs ls [Hl Hq] Hf IH]; intros HR; [constructor|].
  apply Sorted.StronglySorted_inv in Hs as [Hs Hc]. simpl.
  assert (Sorted.StronglySorted R (concat ls)) as Hrest.
  { apply IH; [done|]. intros c1 c2 x y H1 H2. apply HR; by right. }
  assert (∀ x y, x ∈ l → y ∈ concat ls → R x y) as Hxy.
  { intros x y Hx Hy. apply list_elem_of_In, in_concat in Hy as (l' & Hl' & Hy).
    apply list_elem_of_In, list_elem_of_lookup in Hl' as [i Hi].
    destruct (Forall2_lookup_r _ _ _ _ _ Hf Hi) as (c' & Hc' & _ & Hq'). apply list_elem_of_lookup_2 in Hc'.
    apply (HR c c'); [by left|by right| |by apply Hq|by apply Hq', list_elem_of_In].
    rewrite Forall_forall in Hc. by apply Hc. }
  clear -Hl Hrest Hxy. induction Hl as [|x l Hl IH Hx]; [done|]. simpl. constructor.
  - apply IH. intros; apply Hxy; [by right|done].
  - apply Forall_app. split; [done|]. apply Forall_forall. intros y Hy. apply Hxy; [by left|done].
Qed.

(** *** The two machines run a visit *)

Lemma fmap_concat {T U} (f : T → U) (ls : list (list T)) : f <$> concat ls = concat (fmap (M:=list) f <$> ls).
Proof. induction ls as [|l ls IH]; [done|]. csimpl. by rewrite fmap_app, IH. Qed.

Lemma length_filter_fst {T U} (P : T → Prop) `{!∀ x : T * U, Decision (P x.1)} `{!∀ x, Decision (P x)}
    (l : list (T * U)) :
  length (filter (λ kv, P kv.1) l) = length (filter P l.*1).
Proof.
  induction l as [|[x y] l IH]; [done|]. csimpl. rewrite !filter_cons. 
  repeat case_decide; simpl in *; try done; by rewrite IH.
Qed.

Lemma entries_length {T} (t : list (option T)) : length (entries t) ≤ length t.
Proof. unfold entries. induction t as [|[x|] t IH]; csimpl; lia. Qed.

Lemma foldl_push {T} (l acc : list T) : foldl (λ acc x, x :: acc) acc (rev l) = l ++ acc.
Proof. revert acc. induction l as [|x l IH]; intros acc; [done|]. simpl. by rewrite foldl_app, IH. Qed.

Lemma ordered_children_ok b : branch_ok wf b false → ordered_children b = Some (sorted_kids b).
Proof.
  intros Hok. unfold ordered_children. rewrite (proj2 (Nat.leb_le _ _)); [done|].
  pose proof (size_ok_even _ (ok_size _ _ _ (bo_table _ _ _ _ _ Hok))) as [_ [_ Hle]].
  etrans; [apply entries_length|exact Hle].
Qed.

Lemma push_sorted_ok b : branch_ok wf b false →
  ∀ queue, push_sorted b queue = Some (sorted_kids b ++ queue).
Proof.
  intros Hok queue. unfold push_sorted. rewrite ordered_children_ok by done. cbn [mbind option_bind].
  by rewrite foldl_push.
Qed.

Lemma push_slots_ok b queue : push_slots b queue = Some (kids b ++ queue).
Proof.
  unfold push_slots. f_equal. unfold entries. revert queue.
  induction (child_table b) as [|[c|] t IH]; intros queue; simpl; [done|..]; by rewrite foldl_app, IH.
Qed.

Lemma queue_drains {A} (order : branch → list head) (emit : head → res (option A)) push h l :
  (∀ b, branch_ok wf b false → ∀ queue, push b queue = Some (order b ++ queue)) →
  (∀ b c, c ∈ order b → c ∈ kids b) →
  wf h → visits order emit h l → ∀ queue R, drains (queue_body emit push) queue R →
  drains (queue_body emit push) (h :: queue) (l ++ R).
Proof.
  intros Hpush Horder Hwf. revert l. revert h Hwf. refine (wf_children_ind _ _ _ _ _ _).
  1,2: intros e x _ l Hv queue R HR; inversion Hv as [? y Hy|]; subst;
    apply drains_item with queue; [simpl; by rewrite Hy|done].
  intros e b Hok Hlen IH l Hv queue R HR. inversion Hv as [? y Hy|? ? ls Hn Hls]; subst.
  { apply drains_item with queue; [simpl; by rewrite Hy|done]. }
  apply drains_skip with (order b ++ queue).
  { simpl. rewrite Hn. cbn [mbind option_bind]. by rewrite Hpush. }
  clear Hv. pose proof (Horder b) as Hin. revert Hin. induction Hls as [|c l cs ls Hc Hcs IHl] using Forall2_ind;
    intros Hin; [done|]. simpl. rewrite <-app_assoc.
  apply IH; [apply Hin; by left|done|]. apply IHl. intros c' Hc'. apply Hin. by right.
Qed.

Lemma level_drains {A} (emit : head → res (option A)) h l :
  wf h → visits sorted_kids emit h l → ∀ level stack R, drains (level_body emit) (level :: stack) R →
  drains (level_body emit) ((h :: level) :: stack) (l ++ R).
Proof.
  intros Hwf. revert l. revert h Hwf. refine (wf_children_ind _ _ _ _ _ _).
  1,2: intros e x _ l Hv level stack R HR; inversion Hv as [? y Hy|]; subst;
    apply drains_item with (level :: stack); [simpl; by rewrite Hy|done].
  intros e b Hok Hlen IH l Hv level stack R HR. inversion Hv as [? y Hy|? ? ls Hn Hls]; subst.
  { apply drains_item with (level :: stack); [simpl; by rewrite Hy|done]. }
  apply drains_skip with (sorted_kids b :: level :: stack).
  { simpl. rewrite Hn. cbn [mbind option_bind]. by rewrite ordered_children_ok. }
  assert (∀ c, c ∈ sorted_kids b → c ∈ kids b) as Hin.
  { intros c. unfold sorted_kids. by rewrite sorted_children_perm. }
  clear Hv. revert Hin. induction Hls as [|c l cs ls Hc Hcs IHl] using Forall2_ind; intros Hin.
  { by apply drains_skip with (level :: stack). }
  simpl. rewrite <-app_assoc.
  apply IH; [apply Hin; by left|done|]. apply IHl. intros c' Hc'. apply Hin. by right.
Qed.

Lemma queue_nil_drains {A} (emit : head → res (option A)) push : drains (queue_body emit push) [] [].
Proof. by apply drains_end. Qed.
Lemma level_nil_drains {A} (emit : head → res (option A)) : drains (level_body emit) [] [].
Proof. by apply drains_end. Qed.
(** *** What the visits hand out *)

(** Physical order hands out [keys h]. *)
Lemma visits_keys h : wf h → visits (λ b, kids b) emit_key h (keys h).
Proof.
  revert h. refine (wf_children_ind _ _ _ _ _ _).
  1,2: intros e x _; by constructor.
  intros e b Hok Hlen IH. assert (keys (HBranch e b) = concat (keys <$> kids b)) as ->.
  { unfold Branch.keys. rewrite kvs_branch. clear. induction (kids b) as [|c cs IH]; [done|]. csimpl.
    by rewrite fmap_app, IH. }
  apply visits_branch; [done|]. apply Forall2_fmap_r, Forall_Forall2_diag, Forall_forall. done.
Qed.

Definition leaf_kv h : list N * V := default ([], UNIT) (leaf_entry UNIT h).

Lemma visits_entries h hs : visits sorted_kids emit_leaf h hs → wf h →
  visits sorted_kids (emit_entry UNIT) h (leaf_kv <$> hs) ∧ Forall is_leaf hs.
Proof.
  intros Hv Hwf. revert hs Hv. revert h Hwf. refine (wf_children_ind _ _ _ _ _ _).
  1,2: intros e x _ hs Hv; inversion Hv as [? y Hy|]; subst; simpl in Hy; injection Hy as <-; split; [by constructor|by repeat constructor].
  intros e b Hok Hlen IH hs Hv. inversion Hv as [|? ? ls Hn Hls]; subst; [done|].
  assert (Forall2 (λ c l, visits sorted_kids (emit_entry UNIT) c (leaf_kv <$> l) ∧ Forall is_leaf l)
    (sorted_kids b) ls) as Hf.
  { assert (∀ c, c ∈ sorted_kids b → c ∈ kids b) as Hin.
    { intros c. unfold sorted_kids. by rewrite sorted_children_perm. }
    clear Hv. induction Hls as [|c l cs ls Hc Hcs IHl] using Forall2_ind; constructor.
    - apply IH; [apply Hin; by left|done].
    - apply IHl. intros c' Hc'. apply Hin. by right. }
  split.
  - rewrite fmap_concat. apply visits_branch; [done|]. apply Forall2_fmap_r. eapply Forall2_impl; [exact Hf|]. by intros ?? [? _].
  - clear -Hf. induction Hf as [|c l cs ls [_ Hl] _ IH]; [constructor|]. simpl. by apply Forall_app.
Qed.

(** Tree order on keys: the lexicographic order of their first [n]
    tree-ordered bytes. *)
Definition tree_lt (n : nat) k k' : Prop := lex_lt (key_infix k 0 n) (key_infix k' 0 n) = true.

Lemma lex_lt_step (pre r r' : list N) (x y : N) :
  (x < y)%N → lex_lt (pre ++ x :: r) (pre ++ y :: r') = true.
Proof.
  intros Hxy. unfold lex_lt. rewrite lex_le_app. simpl.
  rewrite (proj2 (N.ltb_ge y x)), (proj2 (N.eqb_neq y x)) by lia. done.
Qed.

Lemma kids_lt b c c' k k' n : branch_ok wf b false → c ∈ kids b → c' ∈ kids b → k ∈ keys c → k' ∈ keys c' →
  end_depth b < n → (hkey c < hkey c')%N → tree_lt n k k'.
Proof.
  intros Hok Hc Hc' Hk Hk' Hn Hlt. unfold tree_lt.
  destruct (bo_keys _ _ _ _ _ Hok c k Hc Hk) as [Ha Hb].
  destruct (bo_keys _ _ _ _ _ Hok c' k' Hc' Hk') as [Ha' Hb']. rewrite <-Hb, <-Hb' in Hlt.
  rewrite !(key_infix_split _ 0 (end_depth b) n) by done. simpl.
  rewrite (key_infix_agree k k' 0 (end_depth b)); [by apply lex_lt_step|].
  simpl. eapply agree_trans; [exact Ha|by apply agree_sym].
Qed.

Lemma sorted_kids_strict b : branch_ok wf b false →
  Sorted.StronglySorted (λ c c', hkey c < hkey c')%N (sorted_kids b).
Proof.
  intros Hok. pose proof (sorted_children_strict (kids b) (ok_unique _ _ _ (bo_table _ _ _ _ _ Hok))) as Hs.
  unfold sorted_kids. induction (sorted_children (kids b)) as [|c cs IH]; [constructor|].
  rewrite fmap_cons in Hs. apply Sorted.StronglySorted_inv in Hs as [Hs Hc]. constructor; [by apply IH|].
  rewrite Forall_fmap in Hc. exact Hc.
Qed.

Lemma elem_of_sorted_kids b c : c ∈ sorted_kids b ↔ c ∈ kids b.
Proof. unfold sorted_kids. by rewrite sorted_children_perm. Qed.

(** The ordered visit: every entry once, in tree order. *)
Lemma visits_ordered h : wf h → ∃ hs, visits sorted_kids emit_leaf h hs ∧
  (leaf_kv <$> hs) ≡ₚ kvs h ∧
  Sorted.StronglySorted (λ h h', tree_lt KEY_LEN (leaf_kv h).1 (leaf_kv h').1) hs.
Proof.
  revert h. refine (wf_children_ind _ _ _ _ _ _).
  1,2: intros e x _; eexists [_]; split_and!; [by constructor|done|by repeat constructor].
  intros e b Hok Hlen IH.
  set (P := λ c hs, visits sorted_kids emit_leaf c hs ∧ (leaf_kv <$> hs) ≡ₚ kvs c ∧
    Sorted.StronglySorted (λ h h', tree_lt KEY_LEN (leaf_kv h).1 (leaf_kv h').1) hs).
  destruct (Forall2_choose P (sorted_kids b)) as [ls Hls].
  { intros c Hc%elem_of_sorted_kids. by apply IH. }
  exists (concat ls). split_and!.
  - apply visits_branch; [done|]. eapply Forall2_impl; [exact Hls|]. by intros ?? [? _].
  - rewrite kvs_branch. trans (sorted_kids b ≫= kvs).
    2:{ unfold sorted_kids. by rewrite sorted_children_perm. }
    rewrite fmap_concat. clear -Hls. induction Hls as [|c l cs ls (_ & Hl & _) _ IH]; [done|].
    csimpl. by rewrite Hl, IH.
  - apply (sorted_concat _ (λ c c', hkey c < hkey c')%N (λ c h, (leaf_kv h).1 ∈ keys c) (sorted_kids b)).
    + by apply sorted_kids_strict.
    + eapply Forall2_impl; [exact Hls|]. intros c l (_ & Hl & Hs). split; [done|]. intros h Hh.
      unfold Branch.keys. rewrite <-Hl. apply list_elem_of_fmap. exists (leaf_kv h). split; [done|].
      by apply list_elem_of_fmap_2.
    + intros c c' x y Hc%elem_of_sorted_kids Hc'%elem_of_sorted_kids Hlt Hx Hy.
      apply (kids_lt b c c'); try done. by apply (bo_depth _ _ _ _ _ Hok).
Qed.

(** The prefix visit: every prefix once, in tree order, with its multiplicity. *)
Definition multiplicity (n : nat) h (x : list N) : nat :=
  length (filter (λ k, key_infix k 0 n = x) (keys h)).

Lemma tree_ordered_infix k : key_ok KEY_LEN k → tree_ordered k = Some (key_infix k 0 KEY_LEN).
Proof.
  intros Hk. destruct (tree_ordered_spec k Hk) as (t & -> & Ht & Hd). f_equal.
  apply list_eq_same_length with KEY_LEN; [apply key_infix_length|apply Ht|].
  intros i x y Hi Hx Hy. rewrite key_infix_lookup in Hy by done. injection Hy as <-.
  specialize (Hd i Hi). rewrite nth_lookup, Hx in Hd. exact Hd.
Qed.

Lemma take_infix k n m : n ≤ m → take n (key_infix k 0 m) = key_infix k 0 n.
Proof.
  intros Hnm. unfold key_infix. by rewrite <-fmap_take, take_seq, Nat.min_l.
Qed.

Lemma multiplicity_pos n h x : multiplicity n h x ≠ 0 ↔ ∃ k, k ∈ keys h ∧ key_infix k 0 n = x.
Proof.
  unfold multiplicity. rewrite length_zero_iff_nil. split.
  - intros Hne. destruct (filter _ (keys h)) as [|k l] eqn:E; [done|]. exists k.
    assert (k ∈ filter (λ k, key_infix k 0 n = x) (keys h)) as Hk by (rewrite E; by left).
    by apply list_elem_of_filter in Hk as [? ?].
  - intros (k & Hk & Hx) E. assert (k ∈ filter (λ k, key_infix k 0 n = x) (keys h)) as Hin
      by by apply list_elem_of_filter. rewrite E in Hin. by apply elem_of_nil in Hin.
Qed.

(** Below a deep enough node there is one prefix. *)
Lemma multiplicity_deep n h x : wf h → n ≤ hend h →
  multiplicity n h x = if decide (key_infix (childleaf_key h) 0 n = x) then length (keys h) else 0.
Proof.
  intros Hwf Hn. unfold multiplicity.
  assert (∀ k, k ∈ keys h → key_infix k 0 n = key_infix (childleaf_key h) 0 n) as Heq.
  { intros k Hk. apply key_infix_agree. apply (agree_le _ (hend h)); [simpl; lia|].
    by apply (keys_agree rand_hash UNIT). }
  case_decide as Hx.
  - rewrite filter_all; [done|]. intros k Hk. by rewrite Heq.
  - rewrite filter_none; [done|]. intros k Hk. by rewrite Heq.
Qed.

Lemma filter_keys_branch (P : list N → Prop) `{!∀ k, Decision (P k)} e b :
  filter P (keys (HBranch e b)) = kids b ≫= (λ c, filter P (keys c)).
Proof.
  assert (keys (HBranch e b) = kids b ≫= keys) as ->.
  { unfold Branch.keys. rewrite kvs_branch. clear. induction (kids b) as [|c cs IH]; [done|]. csimpl.
    by rewrite fmap_app, IH. }
  apply filter_bind.
Qed.

(** Above that, the prefix selects a child. *)
Lemma multiplicity_branch n e b c x : branch_ok wf b false → end_depth b < n → c ∈ kids b →
  multiplicity n c x ≠ 0 → multiplicity n (HBranch e b) x = multiplicity n c x.
Proof.
  intros Hok Hn Hc (k & Hk & Hx)%multiplicity_pos. unfold multiplicity. rewrite filter_keys_branch.
  apply elem_of_Permutation in Hc as [cs Hcs]. rewrite Hcs. csimpl.
  rewrite (bind_nil _ cs); [by rewrite app_nil_r|]. intros c' Hc'.
  apply filter_none. intros k' Hk' Hx'.
  assert (tb k' (end_depth b) = tb k (end_depth b)) as Hb.
  { assert (key_infix k' 0 n !! end_depth b = key_infix k 0 n !! end_depth b) as E by congruence.
    rewrite !key_infix_lookup in E by done. by injection E. }
  assert (c ∈ kids b) as Hcin by (rewrite Hcs; by left).
  assert (c' ∈ kids b) as Hcin' by (rewrite Hcs; by right).
  rewrite (proj2 (bo_keys _ _ _ _ _ Hok c k Hcin Hk)), (proj2 (bo_keys _ _ _ _ _ Hok c' k' Hcin' Hk')) in Hb.
  pose proof (ok_unique _ _ _ (bo_table _ _ _ _ _ Hok)) as Hu. rewrite Hcs in Hu. csimpl in Hu.
  apply NoDup_cons in Hu as [Hu _]. apply Hu. rewrite <-Hb. by apply list_elem_of_fmap_2.
Qed.

Lemma emit_prefix_deep n h : wf h → n ≤ hend h →
  emit_prefix n h = Some (Some (key_infix (childleaf_key h) 0 n, count h)).
Proof.
  intros Hwf Hn. pose proof (hend_le rand_hash UNIT h Hwf) as Hle. unfold emit_prefix.
  rewrite (proj2 (Nat.leb_le _ _)) by done.
  rewrite tree_ordered_infix by by eapply (childleaf_key_ok rand_hash UNIT).
  cbn [mbind option_bind]. rewrite key_infix_length, (proj2 (Nat.leb_le n KEY_LEN)) by lia.
  cbn [massert mbind option_bind]. by rewrite take_infix by lia.
Qed.

Definition prefixes_spec (n : nat) h (l : list (list N * N)) : Prop :=
  Sorted.StronglySorted (λ x y, lex_lt x.1 y.1 = true) l ∧
  ∀ x m, (x, m) ∈ l ↔ m = N.of_nat (multiplicity n h x) ∧ m ≠ 0%N.

Lemma prefixes_deep n h : wf h → n ≤ hend h → prefixes_spec n h [(key_infix (childleaf_key h) 0 n, count h)].
Proof.
  intros Hwf Hn. split; [by repeat constructor|]. intros x m. rewrite list_elem_of_singleton, multiplicity_deep by done.
  pose proof (childleaf_key_in rand_hash UNIT h Hwf) as Hin. rewrite (count_kvs rand_hash UNIT) by done.
  assert (length (keys h) = length (kvs h)) as <- by (unfold Branch.keys; by rewrite length_fmap).
  assert (length (keys h) ≠ 0) as Hne by (intros E%nil_length_inv; rewrite E in Hin; by apply elem_of_nil in Hin).
  case_decide as Hx; [naive_solver lia|]. split; [intros [= -> ->]; done|]. intros [-> ?]. done.
Qed.

Lemma prefixes_branch n e b ls : branch_ok wf b false → end_depth b < n →
  Forall2 (prefixes_spec n) (sorted_kids b) ls → prefixes_spec n (HBranch e b) (concat ls).
Proof.
  intros Hok Hn Hls. split.
  - apply (sorted_concat _ (λ c c', hkey c < hkey c')%N
      (λ c x, ∃ k, k ∈ keys c ∧ key_infix k 0 n = x.1) (sorted_kids b)).
    + by apply sorted_kids_strict.
    + eapply Forall2_impl; [exact Hls|]. intros c l [Hs Hl]. split; [done|]. intros [x m] [-> Hm]%Hl.
      simpl. apply multiplicity_pos. lia.
    + intros c c' [x m] [y m'] Hc%elem_of_sorted_kids Hc'%elem_of_sorted_kids Hlt (k & Hk & Hx) (k' & Hk' & Hy).
      simpl in *. rewrite <-Hx, <-Hy. by apply (kids_lt b c c').
  - intros x m. transitivity (∃ c, c ∈ kids b ∧ m = N.of_nat (multiplicity n c x) ∧ m ≠ 0%N).
    + rewrite list_elem_of_In, in_concat. setoid_rewrite <-list_elem_of_In. split.
      * intros (l & [i Hi]%list_elem_of_lookup & Hx).
        destruct (Forall2_lookup_r _ _ _ _ _ Hls Hi) as (c & Hc%list_elem_of_lookup_2 & _ & Hl).
        exists c. split; [by apply elem_of_sorted_kids|]. by apply Hl.
      * intros (c & [i Hi]%elem_of_sorted_kids%list_elem_of_lookup & Hx).
        destruct (Forall2_lookup_l _ _ _ _ _ Hls Hi) as (l & Hl%list_elem_of_lookup_2 & _ & Hiff).
        exists l. split; [done|]. by apply Hiff.
    + split.
      * intros (c & Hc & -> & Hne). rewrite (multiplicity_branch n e b c) by (done || lia). done.
      * intros [-> Hne]. destruct (proj1 (multiplicity_pos n (HBranch e b) x)) as (k & Hk & Hx); [lia|].
        apply elem_of_keys_branch in Hk as (c & Hc & Hk). exists c. split; [done|].
        rewrite <-(multiplicity_branch n e b c) by (done || apply multiplicity_pos; eauto). done.
Qed.

Lemma visits_prefixes n h : wf h → n ≤ KEY_LEN →
  ∃ l, visits sorted_kids (emit_prefix n) h l ∧ prefixes_spec n h l.
Proof.
  intros Hwf Hn. revert h Hwf. refine (wf_children_ind _ _ _ _ _ _).
  1,2: intros e x Hwf; eexists; split; [by apply visits_emit, emit_prefix_deep|by apply prefixes_deep].
  intros e b Hok Hlen IH. assert (wf (HBranch e b)) as Hwf by by constructor.
  destruct (decide (n ≤ end_depth b)) as [Hle|Hgt].
  { eexists; split; [by apply visits_emit, emit_prefix_deep|by apply prefixes_deep]. }
  destruct (Forall2_choose (λ c l, visits sorted_kids (emit_prefix n) c l ∧ prefixes_spec n c l)
    (sorted_kids b)) as [ls Hls].
  { intros c Hc%elem_of_sorted_kids. by apply IH. }
  exists (concat ls). split.
  - apply visits_branch; [|eapply Forall2_impl; [exact Hls|]; by intros ?? [? _]].
    unfold emit_prefix. simpl. by rewrite (proj2 (Nat.leb_gt _ _)) by lia.
  - apply prefixes_branch; [done|lia|]. eapply Forall2_impl; [exact Hls|]. by intros ?? [_ ?].
Qed.

(** The members are the prefixes without their counts. *)
Lemma visits_members n h l : visits sorted_kids (emit_prefix n) h l → wf h →
  visits sorted_kids (emit_member n) h (l.*1).
Proof.
  assert (∀ h, emit_member n h = o ← emit_prefix n h; Some (option_map fst o)) as E.
  { intros h'. unfold emit_member, emit_prefix. destruct (n <=? hend h'); [|done].
    destruct (tree_ordered (childleaf_key h')); [|done]. simpl. by destruct (n <=? _). }
  intros Hv Hwf. revert l Hv. revert h Hwf. refine (wf_children_ind _ _ _ _ _ _).
  1,2: intros e x _ l Hv; inversion Hv as [? y Hy|]; subst; apply visits_emit; by rewrite E, Hy.
  intros e b Hok Hlen IH l Hv. inversion Hv as [? y Hy|? ? ls Hn Hls]; subst.
  { apply visits_emit. by rewrite E, Hy. }
  rewrite fmap_concat. apply visits_branch; [by rewrite E, Hn|]. apply Forall2_fmap_r.
  assert (∀ c, c ∈ sorted_kids b → c ∈ kids b) as Hin by (intros c; apply elem_of_sorted_kids).
  clear Hv. induction Hls as [|c l cs ls Hc Hcs IHl] using Forall2_ind; constructor.
  - apply IH; [apply Hin; by left|done].
  - apply IHl. intros c' Hc'. apply Hin. by right.
Qed.

(** *** Frames of slots *)

Definition frame_keys (f : frame) : list (list N) :=
  (flat_map (λ o, match o with Some c => kvs c | None => [] end) f).*1.

(** The rest of a frame, when each of its children can be visited. *)
Lemma slots_drains stack R f : drains (iter_body (KEY_LEN:=KEY_LEN)) stack R →
  (∀ c, Some c ∈ f → ∀ iter R, drains (iter_body (KEY_LEN:=KEY_LEN)) (iter :: stack) R →
    drains (iter_body (KEY_LEN:=KEY_LEN)) ((Some c :: iter) :: stack) (keys c ++ R)) →
  drains (iter_body (KEY_LEN:=KEY_LEN)) (f :: stack) (frame_keys f ++ R).
Proof.
  intros HR. induction f as [|[c|] f IH]; intros Hc; unfold frame_keys; simpl.
  - by apply drains_skip with stack.
  - rewrite fmap_app, <-app_assoc. apply Hc; [by left|]. apply IH. intros c' Hc'. apply Hc. by right.
  - apply drains_skip with (f :: stack); [done|]. apply IH. intros c' Hc'. apply Hc. by right.
Qed.

Lemma frame_drains h : wf h → ∀ iter stack R, length stack < hend h →
  drains (iter_body (KEY_LEN:=KEY_LEN)) (iter :: stack) R →
  drains (iter_body (KEY_LEN:=KEY_LEN)) ((Some h :: iter) :: stack) (keys h ++ R).
Proof.
  revert h. refine (wf_children_ind _ _ _ _ _ _).
  1,2: intros e x _ iter stack R _ HR; by apply drains_item with (iter :: stack).
  intros e b Hok Hlen IH iter stack R Hst HR. simpl in Hst.
  pose proof (bo_depth _ _ _ _ _ Hok) as HdK.
  apply drains_skip with (child_table b :: iter :: stack).
  { simpl. unfold push_frame. rewrite (proj2 (Nat.ltb_lt _ _)); [done|simpl; lia]. }
  apply slots_drains; [done|]. intros c Hc. assert (c ∈ kids b) as Hin by by apply elem_of_entries, list_elem_of_lookup.
  intros iter' R' HR'. apply IH; [done| |done]. simpl.
  assert (end_depth b < hend c); [|lia]. by eapply (child_hend rand_hash UNIT).
Qed.

Lemma root_frame_drains e b : wf (HBranch e b) →
  drains (iter_body (KEY_LEN:=KEY_LEN)) [child_table b] (keys (HBranch e b)).
Proof.
  intros Hwf. inversion Hwf as [| |? ? Hok Hlen]; subst. rewrite <-(app_nil_r (keys _)).
  apply slots_drains; [by apply drains_end|]. intros c Hc.
  assert (c ∈ kids b) as Hin by by apply elem_of_entries, list_elem_of_lookup.
  intros iter' R' HR'. apply frame_drains; [by eapply bo_children| |done]. simpl.
  assert (end_depth b < hend c); [|lia]. by eapply (child_hend rand_hash UNIT).
Qed.

Lemma remaining_len p l : patch_ok rand_hash UNIT p → (len p < 2 ^ 64)%N → length l = length (pkvs UNIT p) →
  remaining p = N.of_nat (length (A:=list N) l).
Proof.
  intros Hp Hlen ->. assert (len p = N.of_nat (length (pkvs UNIT p))) as <-.
  { unfold len, pkvs. destruct (proot p) as [h|] eqn:Hh; [|done].
    by apply (count_kvs rand_hash UNIT), (po_root _ _ _ Hp). }
  unfold remaining, USIZE_MAX. lia.
Qed.

Lemma elements_keys p : patch_ok rand_hash UNIT p → (pkvs UNIT p).*1 ≡ₚ elements (dom (to_map UNIT p)).
Proof.
  intros Hp. apply NoDup_Permutation; [by eapply (pkvs_NoDup rand_hash)|apply NoDup_elements|].
  intros k. rewrite elem_of_elements. symmetry. by apply (elem_of_dom_keys rand_hash).
Qed.

Lemma entries_map p : patch_ok rand_hash UNIT p → pkvs UNIT p ≡ₚ map_to_list (to_map UNIT p).
Proof. intros Hp. symmetry. apply map_to_list_to_map. by eapply (pkvs_NoDup rand_hash). Qed.

(** [iter_next] without a pending leaf is its loop. *)
Lemma iter_next_loop fuel stack rem l :
  yields exact_hint (loopM (counted (iter_body (KEY_LEN:=KEY_LEN) (H:=H) (V:=V))) fuel) (stack, rem) l →
  yields iter_hint (iter_next (KEY_LEN:=KEY_LEN) (V:=V) fuel) (mkIter None (stack, rem)) l.
Proof.
  generalize (stack, rem). intros st. induction 1 as [st st' H1 H2 Hr|st x st' l Hx Hr _ IH].
  - apply yields_end with (mkIter None st'); unfold iter_next; simpl; [by rewrite H1|by rewrite H2|done].
  - apply yields_item with (mkIter None st'); unfold iter_next; simpl; [by rewrite Hx|done|done].
Qed.

Lemma entries_next_yields fuel st hs : Forall is_leaf hs →
  yields exact_hint (next_leaf fuel) st hs → yields exact_hint (entries_next UNIT fuel) st (leaf_kv <$> hs).
Proof.
  intros Hl Hy. induction Hy as [st st' H1 H2 Hr|st h st' hs Hx Hr _ IH].
  - apply yields_end with st'; unfold entries_next; [by rewrite H1|by rewrite H2|done].
  - apply Forall_cons in Hl as [Hh Hl]. change (leaf_kv <$> h :: hs) with (leaf_kv h :: (leaf_kv <$> hs)).
    apply yields_item with st'; [|by rewrite length_fmap|by apply IH].
    unfold entries_next. rewrite Hx. simpl. by destruct h.
Qed.
End visits.

(** ** Properties *)

Section properties.
Context {KEY_LEN : nat} {O : KeySchema KEY_LEN} `{!KeySchemaOk KEY_LEN O}.
Context {H : PatchHash} `{!PatchHashOk H} {V : Type}.
Context (rand_hash : N → N) (UNIT : V).
Abbreviation PATCH := (PATCH Digest V).
Abbreviation to_map := (to_map UNIT).
Abbreviation patch_ok := (patch_ok rand_hash UNIT).
Implicit Types (p : PATCH).

Lemma into_iter_yields p : patch_ok p → (len p < 2 ^ 64)%N →
  ∃ n, ∀ fuel, n ≤ fuel → yields no_hint (into_next fuel) (into_iter p) (pkvs UNIT p).*1.
Proof.
  intros Hp Hlen. unfold into_iter, into_next.
  rewrite (remaining_len rand_hash UNIT p (pkvs UNIT p).*1) by (done || by rewrite length_fmap).
  assert (drains (queue_body emit_key push_slots) (option_list (proot p)) (pkvs UNIT p).*1) as Hd;
    [|destruct (counted_yields _ _ _ Hd) as [n Hn]; exists n; intros fuel Hf; eapply yields_no_hint, Hn, Hf].
  unfold pkvs. destruct (proot p) as [h|] eqn:Hh; [|apply queue_nil_drains].
  rewrite <-(app_nil_r ((from_option _ _ _).*1)). pose proof (po_root _ _ _ Hp h Hh) as Hwf.
  apply (queue_drains rand_hash UNIT (λ b, entries (child_table b))); [intros; apply push_slots_ok|done..| |].
  - by apply (visits_keys rand_hash UNIT).
  - apply queue_nil_drains.
Qed.

Lemma iter_yields p : patch_ok p → (len p < 2 ^ 64)%N →
  ∃ it n, iter (KEY_LEN:=KEY_LEN) p = Some it ∧
    ∀ fuel, n ≤ fuel → yields iter_hint (iter_next (KEY_LEN:=KEY_LEN) fuel) it (pkvs UNIT p).*1.
Proof.
  intros Hp Hlen. unfold iter.
  rewrite (remaining_len rand_hash UNIT p (pkvs UNIT p).*1) by (done || by rewrite length_fmap).
  destruct (counted_yields (iter_body (KEY_LEN:=KEY_LEN) (V:=V)) [] []) as [n0 Hn0]; [by apply drains_end|].
  unfold pkvs. destruct (proot p) as [h|] eqn:Hh; simpl from_option.
  2:{ exists (mkIter None ([], 0%N)), n0. split; [done|]. intros fuel Hf. by apply iter_next_loop, Hn0. }
  pose proof (po_root _ _ _ Hp h Hh) as Hwf. pose proof Hwf as Hwf'.
  destruct Hwf as [e l _ _|e k _|e b Hok Hlen'].
  1,2: eexists _, n0; (split; [done|]); intros fuel Hf;
    eapply yields_item; [done|done|by apply iter_next_loop, Hn0].
  pose proof (bo_depth _ _ _ _ _ Hok) as HdK.
  destruct (counted_yields _ _ _ (root_frame_drains rand_hash UNIT e b Hwf')) as [n Hn].
  eexists _, n. split.
  - unfold push_frame. rewrite (proj2 (Nat.ltb_lt _ _)) by (simpl; lia). done.
  - intros fuel Hf. by apply iter_next_loop, Hn.
Qed.

(** C38. [iter] and the consuming [into_iter] yield every key exactly once, in
    one and the same order, and then [None].  The borrowing iterator has an exact
    size hint before every item, and its stack never outgrows its [KEY_LEN]
    capacity; the consuming one defines no size hint. *)
Theorem iter_refines p : patch_ok p → (len p < 2 ^ 64)%N →
  ∃ l it n, l ≡ₚ elements (dom (to_map p)) ∧ iter (KEY_LEN:=KEY_LEN) p = Some it ∧
    ∀ fuel, n ≤ fuel →
      yields iter_hint (iter_next (KEY_LEN:=KEY_LEN) fuel) it l ∧
      yields no_hint (into_next fuel) (into_iter p) l.
Proof.
  intros Hp Hlen. destruct (iter_yields p Hp Hlen) as (it & n1 & Hit & H1).
  destruct (into_iter_yields p Hp Hlen) as (n2 & H2).
  exists (pkvs UNIT p).*1, it, (max n1 n2). split_and!; [by eapply elements_keys|done|].
  intros fuel Hf. split; [apply H1; lia|apply H2; lia].
Qed.

(** The levels an ordered iterator starts from. *)
Lemma levels_drains {A} (emit : head Digest V → res (option A)) h l : wf rand_hash UNIT h →
  visits sorted_kids emit h l → drains (level_body emit) [[h]] l ∧
  ∀ e b, h = HBranch e b → emit h = Some None → drains (level_body emit) [sorted_kids b] l.
Proof.
  intros Hwf Hv.
  assert (drains (level_body emit) [[]] []) as Hnil by (apply drains_skip with []; [done|apply level_nil_drains]).
  split.
  - rewrite <-(app_nil_r l). by apply (level_drains rand_hash UNIT).
  - intros e b -> Hn. inversion Hv as [? y Hy|? ? ls _ Hls]; subst; [congruence|]. clear Hv.
    assert (∀ c, c ∈ sorted_kids b → wf rand_hash UNIT c) as Hin.
    { intros c Hc%elem_of_sorted_kids. inversion Hwf as [| |? ? Hok _]; subst. by eapply bo_children. }
    induction Hls as [|c l cs ls Hc Hcs IH] using Forall2_ind; [done|]. simpl.
    apply (level_drains rand_hash UNIT); [apply Hin; by left|done|]. apply IH.
    intros c' Hc'. apply Hin. by right.
Qed.

Lemma iter_ordered_yields p : patch_ok p → (len p < 2 ^ 64)%N →
  ∃ hs st n, (leaf_kv UNIT <$> hs) ≡ₚ map_to_list (to_map p) ∧ Forall is_leaf hs ∧
    Sorted.StronglySorted (λ h h', tree_lt KEY_LEN (leaf_kv UNIT h).1 (leaf_kv UNIT h').1) hs ∧
    iter_ordered p = Some st ∧
    ∀ fuel, n ≤ fuel → yields exact_hint (next_leaf fuel) st hs ∧
      yields exact_hint (next_with UNIT fuel) (into_iter_ordered p) (leaf_kv UNIT <$> hs).
Proof.
  intros Hp Hlen. pose proof (entries_map rand_hash UNIT p Hp) as Hmap. setoid_rewrite <-Hmap.
  unfold into_iter_ordered, iter_ordered, next_leaf, next_with.
  assert (∀ (hs : list (head Digest V)), (leaf_kv UNIT <$> hs) ≡ₚ pkvs UNIT p → remaining p = N.of_nat (length hs)) as Hrem.
  { intros hs E. rewrite (remaining_len rand_hash UNIT p (pkvs UNIT p).*1) by (done || by rewrite length_fmap).
    by rewrite length_fmap, <-E, length_fmap. }
  unfold pkvs in *. destruct (proot p) as [h|] eqn:Hh.
  2:{ rewrite (Hrem []) by done. destruct (counted_yields (level_body (V:=V) emit_leaf) [] []) as [n1 H1];
        [apply level_nil_drains|].
      destruct (counted_yields (queue_body (V:=V) (emit_entry UNIT) push_sorted) [] []) as [n2 H2]; [apply queue_nil_drains|].
      exists [], ([], 0%N), (max n1 n2). split_and!; [done|constructor|constructor|done|].
      intros fuel Hf. split; [apply H1; lia|apply H2; lia]. }
  pose proof (po_root _ _ _ Hp h Hh) as Hwf.
  destruct (visits_ordered rand_hash UNIT h Hwf) as (hs & Hv & Hkv & Hs). simpl from_option in *.
  rewrite (Hrem hs) by done.
  destruct (visits_entries rand_hash UNIT h hs Hv Hwf) as [Hve Hl].
  destruct (levels_drains emit_leaf h hs Hwf Hv) as [Hd1 Hd2].
  destruct (counted_yields (queue_body (emit_entry UNIT) push_sorted) [h] (leaf_kv UNIT <$> hs)) as [n2 H2].
  { rewrite <-(app_nil_r (_ <$> _)).
    apply (queue_drains rand_hash UNIT sorted_kids); [intros b Hok queue; by apply (push_sorted_ok rand_hash UNIT)| |done..|].
    - intros b c. apply elem_of_sorted_kids.
    - apply queue_nil_drains. }
  rewrite length_fmap in H2.
  assert (∃ st n1, match h with HBranch _ b => children ← ordered_children b; Some ([children], N.of_nat (length hs))
      | _ => Some ([[h]], N.of_nat (length hs)) end = Some st ∧
      ∀ fuel, n1 ≤ fuel → yields exact_hint (loopM (counted (level_body emit_leaf)) fuel) st hs)
    as (st & n1 & Hst & H1).
  { pose proof Hwf as Hwf'. destruct Hwf' as [e l _ _|e k _|e b Hok Hlen'].
    1,2: destruct (counted_yields _ _ _ Hd1) as [n1 H1]; by eexists _, n1.
    destruct (counted_yields _ _ _ (Hd2 e b eq_refl eq_refl)) as [n1 H1].
    rewrite (ordered_children_ok rand_hash UNIT) by done. by eexists _, n1. }
  exists hs, st, (max n1 n2). split_and!; [done..| |].
  - by destruct h.
  - intros fuel Hf. split; [apply H1; lia|apply H2; lia].
Qed.

Lemma iter_ordered_spec p : patch_ok p → (len p < 2 ^ 64)%N →
  ∃ l st n, l ≡ₚ map_to_list (to_map p) ∧
    Sorted.StronglySorted (λ e e', tree_lt KEY_LEN e.1 e'.1) l ∧ iter_ordered p = Some st ∧
    ∀ fuel, n ≤ fuel →
      yields exact_hint (entries_next UNIT fuel) st l ∧
      yields exact_hint (ordered_next fuel) st l.*1 ∧
      yields exact_hint (next_with UNIT fuel) (into_iter_ordered p) l ∧
      yields exact_hint (into_ordered_next UNIT fuel) (into_iter_ordered p) l.*1.
Proof.
  intros Hp Hlen. destruct (iter_ordered_yields p Hp Hlen) as (hs & st & n & Hkv & Hl & Hs & Hst & Hn).
  exists (leaf_kv UNIT <$> hs), st, n. split_and!; [done| |done|].
  - clear -Hs. induction Hs as [|h hs _ IH Hh]; [constructor|]. csimpl. constructor; [done|].
    by apply Forall_fmap.
  - intros fuel [H1 H2]%Hn. split_and!; [by apply entries_next_yields| |done|by apply yields_map].
    assert ((leaf_kv UNIT <$> hs).*1 = childleaf_key <$> hs) as ->; [|by apply yields_map].
    rewrite <-list_fmap_compose. apply list_fmap_ext. intros i h Hi%list_elem_of_lookup_2.
    rewrite Forall_forall in Hl. specialize (Hl h Hi). by destruct h.
Qed.

(** C39. The ordered iterators, borrowing and consuming, over keys and over
    entries, yield every binding exactly once in the tree order of the schema,
    with an exact size hint. *)
Theorem iter_ordered_refines p : patch_ok p → (len p < 2 ^ 64)%N →
  ∃ l st n, l ≡ₚ map_to_list (to_map p) ∧
    Sorted.StronglySorted (λ e e', tree_lt KEY_LEN e.1 e'.1) l ∧ iter_ordered p = Some st ∧
    ∀ fuel, n ≤ fuel →
      yields exact_hint (entries_next UNIT fuel) st l ∧
      yields exact_hint (ordered_next fuel) st l.*1 ∧
      yields exact_hint (next_with UNIT fuel) (into_iter_ordered p) l ∧
      yields exact_hint (into_ordered_next UNIT fuel) (into_iter_ordered p) l.*1.
Proof. apply iter_ordered_spec. Qed.

(** The bindings whose key starts with [x] in tree order. *)
Definition with_prefix p (x : list N) : gmap (list N) V :=
  filter (λ kv, key_infix kv.1 0 (length x) = x) (to_map p).

Lemma with_prefix_size p n x : patch_ok p → length x = n →
  size (with_prefix p x) = length (filter (λ k, key_infix k 0 n = x) (pkvs UNIT p).*1).
Proof.
  intros Hp <-. unfold with_prefix. rewrite <-length_map_to_list.
  assert (map_to_list (filter (λ kv, key_infix kv.1 0 (length x) = x) (to_map p)) ≡ₚ
    filter (λ kv, key_infix kv.1 0 (length x) = x) (pkvs UNIT p)) as ->.
  { apply NoDup_Permutation; [apply NoDup_map_to_list|apply NoDup_filter|].
    - eapply NoDup_fmap_1, (pkvs_NoDup rand_hash UNIT). done.
    - intros [k v]. rewrite elem_of_map_to_list, map_lookup_filter_Some, list_elem_of_filter.
      rewrite (to_map_lookup rand_hash) by done. tauto. }
  apply (length_filter_fst (λ k, key_infix k 0 (length x) = x)).
Qed.

(** The prefixes of length [n] with their multiplicities, in tree order. *)
Definition lists_prefixes p (n : nat) (l : list (list N * N)) : Prop :=
  Sorted.StronglySorted (λ x y, lex_lt x.1 y.1 = true) l ∧
  ∀ x m, (x, m) ∈ l ↔ length x = n ∧ m = N.of_nat (size (with_prefix p x)) ∧ m ≠ 0%N.

Lemma lists_prefixes_root p h n l : patch_ok p → proot p = Some h →
  prefixes_spec UNIT n h l → lists_prefixes p n l.
Proof.
  intros Hp Hh [Hs Hl]. split; [done|]. intros x m. rewrite Hl. unfold multiplicity.
  assert ((pkvs UNIT p).*1 = keys UNIT h) as Hk by (unfold pkvs; by rewrite Hh). split.
  - intros [-> Hne]. assert (length x = n) as Hx.
    { destruct (proj1 (multiplicity_pos UNIT n h x)) as (k & _ & <-); [unfold multiplicity; lia|].
      apply key_infix_length. }
    by rewrite (with_prefix_size p n), Hk.
  - intros (Hx & -> & Hne). by rewrite (with_prefix_size p n), Hk in *.
Qed.

(** The prefix iterators yield each tree-ordered prefix of the given length
    exactly once, in ascending order, [iter_prefix_count] with the number of
    keys under it; the prefix set and the consuming iterator hand out the same
    prefixes. *)
Theorem prefixes_refines p n : patch_ok p → n ≤ KEY_LEN →
  ∃ l st fuel0, lists_prefixes p n l ∧ iter_prefix_count (KEY_LEN:=KEY_LEN) p n = Some st ∧
    ∀ fuel, fuel0 ≤ fuel →
      yields no_hint (prefix_next n fuel) st l ∧
      (prefix_set_assert (O:=O) n = Some tt →
        prefix_set (O:=O) p n = Some p ∧ yields no_hint (prefix_set_next n fuel) st l.*1 ∧
        ∃ q, into_prefixes (O:=O) p n = Some q ∧ yields no_hint (into_prefixes_next n fuel) q l.*1).
Proof.
  intros Hp Hn. unfold iter_prefix_count. rewrite (proj2 (Nat.leb_le _ _)) by done. cbn [massert mbind option_bind].
  assert (∃ l st n1 n2, lists_prefixes p n l ∧ match proot p with
      | Some root => if n <=? hend (KEY_LEN:=KEY_LEN) root then Some [[root]]
          else match root with HBranch _ b => children ← ordered_children b; Some [children] | _ => None end
      | None => Some [] end = Some st ∧
    (∀ fuel, n1 ≤ fuel → yields no_hint (prefix_next n fuel) st l) ∧
    ∀ fuel, n2 ≤ fuel → yields no_hint (into_prefixes_next n fuel) (option_list (proot p)) l.*1)
    as (l & st & n1 & n2 & Hl & Hst & H1 & H2).
  { unfold prefix_next, into_prefixes_next. destruct (proot p) as [h|] eqn:Hh.
    - pose proof (po_root _ _ _ Hp h Hh) as Hwf.
      destruct (visits_prefixes rand_hash UNIT n h Hwf Hn) as (l & Hv & Hl).
      pose proof (visits_members rand_hash UNIT n h l Hv Hwf) as Hvm.
      destruct (levels_drains (emit_prefix n) h l Hwf Hv) as [Hd1 Hd2].
      destruct (drains_yields (queue_body (emit_member n) push_sorted) [h] l.*1) as [n2 H2].
      { rewrite <-(app_nil_r l.*1).
        apply (queue_drains rand_hash UNIT sorted_kids);
          [intros b Hok queue; by apply (push_sorted_ok rand_hash UNIT)| |done..|apply queue_nil_drains].
        intros b c. apply elem_of_sorted_kids. }
      assert (lists_prefixes p n l) as Hlp by (by eapply lists_prefixes_root).
      destruct (n <=? hend (KEY_LEN:=KEY_LEN) h) eqn:E.
      + destruct (drains_yields _ _ _ Hd1) as [n1 H1]. by exists l, [[h]], n1, n2.
      + apply Nat.leb_gt in E. pose proof Hwf as Hwf'. destruct Hwf' as [e x _ _|e k _|e b Hok Hlen'];
          [simpl in E; lia..|]. simpl in E.
        destruct (drains_yields _ _ _ (Hd2 e b eq_refl ltac:(unfold emit_prefix; simpl; by rewrite (proj2 (Nat.leb_gt _ _))))) as [n1 H1].
        rewrite (ordered_children_ok rand_hash UNIT) by done. by eexists l, _, n1, n2.
    - destruct (drains_yields (level_body (V:=V) (emit_prefix n)) [] []) as [n1 H1]; [apply level_nil_drains|].
      destruct (drains_yields (queue_body (V:=V) (emit_member n) push_sorted) [] []) as [n2 H2]; [apply queue_nil_drains|].
      exists [], [], n1, n2. split_and!; [|done..]. split; [constructor|]. intros x m. rewrite elem_of_nil.
      split; [done|]. intros (_ & -> & Hne). apply Hne. unfold with_prefix, Patch.to_map, pkvs. rewrite Hh. simpl.
      by rewrite map_filter_empty, map_size_empty. }
  exists l, st, (max n1 n2). split_and!; [done..|]. intros fuel Hf. split; [apply H1; lia|].
  intros Ha. unfold prefix_set, into_prefixes. rewrite Ha. split_and!; [done| |].
  - apply yields_map. apply H1. lia.
  - eexists. split; [done|]. apply H2. lia.
Qed.
End properties.
