(* ===== verification/Trible.v ===== *)
(** * Trible: identifiers, tribles and the rows of the six indexes

    Source: [triblespace-core/src/id.rs] (the type [Id]), [inline.rs] (raw
    values) and [trible.rs].

    An id is a non-zero 128-bit integer read from 16 bytes in the byte order of
    the target (little-endian here); nothing outside [Id_new] and [raw] sees
    that order, since ids compare by their bytes. *)

From S2P Require Import Prelude Lex KeySchema.

Open Scope nat_scope.

(** ** Identifiers *)

Definition ID_LEN : nat := 16.
Definition INLINE_LEN : nat := 32.

(** [from_ne_bytes]. *)
Fixpoint of_le_bytes (l : list N) : N :=
  match l with [] => 0%N | b :: l => (b + 256 * of_le_bytes l)%N end.

Record Id := mkId { inner : N }.
#[global] Instance Id_eq_dec : EqDecision Id.
Proof. solve_decision. Defined.

(** [Id::new]: [NonZero::new]. *)
Definition Id_new (id : list N) : option Id :=
  let n := of_le_bytes id in if (n =? 0)%N then None else Some (mkId n).
(** [Id::raw], and the [Deref] to the bytes. *)
Definition raw (i : Id) : list N := le_bytes ID_LEN (inner i).
(** [Ord for Id]. *)
Definition Id_cmp (i j : Id) : comparison := lex_cmp (raw i) (raw j).

Definition id_into_value (id : list N) : list N := replicate 16 0%N ++ id.
Definition id_from_value (v : list N) : option (list N) :=
  if decide (take 16 v = replicate 16 0%N) then Some (take 16 (drop 16 v)) else None.

(** ** Tribles *)

Definition E_START : nat := 0.
Definition E_END : nat := 15.
Definition A_START : nat := 16.
Definition A_END : nat := 31.
Definition V_START : nat := 32.
Definition V_END : nat := 63.

(** [data[start..=end]]. *)
Definition segment (start stop : nat) (data : list N) : list N := take (S stop - start) (drop start data).

Record Trible := mkTrible { e : Id; a : Id; v : list N }.
#[global] Instance Trible_eq_dec : EqDecision Trible.
Proof. solve_decision. Defined.

(** [Trible::force]. *)
Definition force (e a : Id) (v : list N) : Trible := mkTrible e a v.

Definition as_raw (t : Trible) : list N := raw (e t) ++ raw (a t) ++ v t.

(** [Trible::force_raw] of a 64-byte array: zerocopy checks the validity of the
    fields, which is that neither id is zero. *)
Definition force_raw (data : list N) : option Trible :=
  e ← Id_new (segment E_START E_END data);
  a ← Id_new (segment A_START A_END data);
  Some (mkTrible e a (segment V_START V_END data)).

(** The derived [Ord]: field by field in layout order. *)
Definition Trible_cmp (t t' : Trible) : comparison :=
  cmp_then (Id_cmp (e t) (e t')) (cmp_then (Id_cmp (a t) (a t')) (lex_cmp (v t) (v t'))).

(** ** Lemmas *)

Record bytes_ok (n : nat) (l : list N) : Prop := { bo_len : length l = n; bo_bytes : Forall (λ b, (b < 256)%N) l }.

Lemma key_ok_bytes n l : key_ok n l ↔ bytes_ok n l.
Proof.
  split; intros [Hl Hb]; split; [done|by apply Forall_forall|done|by apply Forall_forall].
Qed.

Lemma bytes_ok_app n m l l' : bytes_ok n l → bytes_ok m l' → bytes_ok (n + m) (l ++ l').
Proof. intros [Hl Hb] [Hl' Hb']. split; [rewrite length_app; lia|by apply Forall_app]. Qed.

Lemma bytes_ok_segment n l i j : bytes_ok n l → i ≤ S j ≤ n → bytes_ok (S j - i) (segment i j l).
Proof.
  intros [Hl Hb] Hj. unfold segment. split; [rewrite length_take, length_drop; lia|].
  by apply Forall_take, Forall_drop.
Qed.

Lemma of_le_bytes_bound l : Forall (λ b, (b < 256)%N) l → (of_le_bytes l < 256 ^ N.of_nat (length l))%N.
Proof.
  induction 1 as [|b l Hb _ IH]; cbn [of_le_bytes length]; [done|].
  rewrite Nat2N.inj_succ, N.pow_succ_r'. lia.
Qed.

Lemma le_of_le_bytes l : Forall (λ b, (b < 256)%N) l → le_bytes (length l) (of_le_bytes l) = l.
Proof.
  induction 1 as [|b l Hb _ IH]; [done|]. cbn [of_le_bytes length le_bytes].
  rewrite (N.mul_comm 256), N.Div0.mod_add, N.mod_small, N.div_add, N.div_small, N.add_0_l by lia. by rewrite IH.
Qed.

Lemma of_le_le_bytes n x : (x < 256 ^ N.of_nat n)%N → of_le_bytes (le_bytes n x) = x.
Proof.
  revert x. induction n as [|n IH]; intros x; cbn [le_bytes of_le_bytes].
  - change (256 ^ N.of_nat 0)%N with 1%N. lia.
  - rewrite Nat2N.inj_succ, N.pow_succ_r'. intros Hx. rewrite IH by by apply N.Div0.div_lt_upper_bound.
    pose proof (N.div_mod' x 256). lia.
Qed.

Lemma le_bytes_ok n x : bytes_ok n (le_bytes n x).
Proof.
  split; [apply le_bytes_length|]. revert x. induction n as [|n IH]; intros x; constructor; [|apply IH].
  by apply N.mod_upper_bound.
Qed.

Lemma of_le_bytes_zero l : of_le_bytes l = 0%N ↔ Forall (λ b, b = 0%N) l.
Proof.
  induction l as [|b l IH]; cbn [of_le_bytes]; [done|]. rewrite Forall_cons, <-IH. lia.
Qed.

(** An id in range: every id the code can hold. *)
Definition id_ok (i : Id) : Prop := (0 < inner i < 256 ^ N.of_nat ID_LEN)%N.

Lemma raw_ok i : bytes_ok ID_LEN (raw i).
Proof. apply le_bytes_ok. Qed.

Lemma id_new_spec l : bytes_ok ID_LEN l →
  match Id_new l with
  | Some i => id_ok i ∧ raw i = l
  | None => l = replicate ID_LEN 0%N
  end.
Proof.
  intros [Hl Hb]. unfold Id_new. destruct (N.eqb_spec (of_le_bytes l) 0) as [E|E].
  - apply of_le_bytes_zero in E. rewrite <-Hl. clear Hl Hb.
    induction E as [|b l -> _ IH]; [done|]. simpl. by f_equal.
  - pose proof (of_le_bytes_bound l Hb). rewrite Hl in *. split; [unfold id_ok; simpl; lia|].
    unfold raw. simpl inner. rewrite <-Hl at 1. by apply le_of_le_bytes.
Qed.

Lemma id_new_raw i : id_ok i → Id_new (raw i) = Some i.
Proof.
  intros [Hp Hi]. unfold Id_new, raw. rewrite of_le_le_bytes by done.
  rewrite (proj2 (N.eqb_neq _ _)) by lia. by destruct i.
Qed.

Lemma raw_inj i j : id_ok i → id_ok j → raw i = raw j → i = j.
Proof. intros Hi Hj E. apply id_new_raw in Hi, Hj. congruence. Qed.

Lemma id_cmp_eq i j : id_ok i → id_ok j → Id_cmp i j = Eq ↔ i = j.
Proof. intros Hi Hj. unfold Id_cmp. rewrite lex_cmp_eq. split; [by apply raw_inj|by intros ->]. Qed.

(** A trible the code can hold. *)
Record trible_ok (t : Trible) : Prop := {
  to_e : id_ok (e t); to_a : id_ok (a t); to_v : bytes_ok INLINE_LEN (v t);
}.

Lemma as_raw_ok t : trible_ok t → bytes_ok TRIBLE_LEN (as_raw t).
Proof.
  intros [_ _ Hv]. apply (bytes_ok_app 16 48); [apply raw_ok|]. apply (bytes_ok_app 16 32); [apply raw_ok|done].
Qed.

Lemma segments_app (x y z : list N) : length x = 16 → length y = 16 → length z = 32 →
  segment E_START E_END (x ++ y ++ z) = x ∧ segment A_START A_END (x ++ y ++ z) = y ∧
  segment V_START V_END (x ++ y ++ z) = z.
Proof.
  intros Hx Hy Hz. unfold segment, E_START, E_END, A_START, A_END, V_START, V_END.
  change (S 15 - 0) with 16. change (S 31 - 16) with 16. change (S 63 - 32) with 32. split_and!.
  - rewrite drop_0. by apply take_app_length'.
  - rewrite drop_app_length' by done. by apply take_app_length'.
  - rewrite (assoc_L (++)), drop_app_length' by (rewrite length_app; lia). apply take_ge. lia.
Qed.

Lemma segments_join data : length data = TRIBLE_LEN →
  segment E_START E_END data ++ segment A_START A_END data ++ segment V_START V_END data = data.
Proof.
  intros Hl. unfold segment, E_START, E_END, A_START, A_END, V_START, V_END.
  change (S 15 - 0) with 16. change (S 31 - 16) with 16. change (S 63 - 32) with 32.
  rewrite drop_0, (take_ge (drop 32 data)) by (rewrite length_drop, Hl; reflexivity).
  change (drop 32 data) with (drop (16 + 16) data). rewrite <-drop_drop. by rewrite !take_drop.
Qed.

Lemma force_raw_as_raw t : trible_ok t → force_raw (as_raw t) = Some t.
Proof.
  intros [He Ha Hv]. unfold force_raw, as_raw.
  destruct (segments_app (raw (e t)) (raw (a t)) (v t)) as (-> & -> & ->);
    [apply raw_ok|apply raw_ok|apply Hv|].
  rewrite !id_new_raw by done. by destruct t.
Qed.

(** The row rule: neither the entity nor the attribute is nil. *)
Definition row_rule (data : list N) : Prop :=
  segment E_START E_END data ≠ replicate 16 0%N ∧ segment A_START A_END data ≠ replicate 16 0%N.
#[global] Instance row_rule_dec data : Decision (row_rule data).
Proof. apply _. Defined.

Lemma force_raw_spec data : bytes_ok TRIBLE_LEN data →
  match force_raw data with
  | Some t => trible_ok t ∧ as_raw t = data ∧ row_rule data
  | None => ¬ row_rule data
  end.
Proof.
  intros Hd. unfold force_raw, row_rule.
  pose proof (bytes_ok_segment _ _ E_START E_END Hd ltac:(unfold E_START, E_END, TRIBLE_LEN; lia)) as He.
  pose proof (bytes_ok_segment _ _ A_START A_END Hd ltac:(unfold A_START, A_END, TRIBLE_LEN; lia)) as Ha.
  pose proof (bytes_ok_segment _ _ V_START V_END Hd ltac:(unfold V_START, V_END, TRIBLE_LEN; lia)) as Hv.
  pose proof (id_new_spec _ He) as Ee. pose proof (id_new_spec _ Ha) as Ea.
  destruct (Id_new (segment E_START E_END data)) as [i|]; cbn [mbind option_bind]; [|tauto].
  destruct (Id_new (segment A_START A_END data)) as [j|]; cbn [mbind option_bind]; [|tauto].
  destruct Ee as [Hi Ee], Ea as [Hj Ea]. split_and!; [done| |..].
  - unfold as_raw. cbn [e a v]. rewrite Ee, Ea. apply segments_join, Hd.
  - intros E. rewrite <-Ee in E. pose proof (id_new_raw i Hi) as Hn. by rewrite E in Hn.
  - intros E. rewrite <-Ea in E. pose proof (id_new_raw j Hj) as Hn. by rewrite E in Hn.
Qed.

Lemma as_raw_rule t : trible_ok t → row_rule (as_raw t).
Proof.
  intros Ht. pose proof (force_raw_spec _ (as_raw_ok t Ht)) as Hs. rewrite force_raw_as_raw in Hs by done. apply Hs.
Qed.

Lemma as_raw_inj t t' : trible_ok t → trible_ok t' → as_raw t = as_raw t' → t = t'.
Proof. intros Ht Ht' E. apply force_raw_as_raw in Ht, Ht'. congruence. Qed.

Lemma id_value_spec (id v : list N) : length id = ID_LEN → length v = INLINE_LEN →
  id_from_value v = Some id ↔ v = id_into_value id.
Proof.
  unfold id_from_value, id_into_value, ID_LEN, INLINE_LEN. intros Hi Hv. split.
  - case_decide as E; [|done]. intros [= <-]. rewrite <-E. rewrite (take_ge (drop 16 v)) by (rewrite length_drop; lia).
    by rewrite take_drop.
  - intros ->. rewrite take_app_length' by done. rewrite decide_True by done. f_equal.
    rewrite drop_app_length' by done. by apply take_ge; rewrite Hi.
Qed.

(** ** The properties *)

(** A trible is its 64 bytes: reading back the bytes of a trible gives that
    trible; reading any 64 bytes succeeds exactly when neither the entity nor
    the attribute is nil, and the trible read has those bytes. *)
Theorem trible_roundtrip :
  (∀ t, trible_ok t → bytes_ok TRIBLE_LEN (as_raw t) ∧ force_raw (as_raw t) = Some t) ∧
  (∀ data, bytes_ok TRIBLE_LEN data →
    (is_Some (force_raw data) ↔ row_rule data) ∧
    ∀ t, force_raw data = Some t → trible_ok t ∧ as_raw t = data) ∧
  (∀ id v, length id = ID_LEN → length v = INLINE_LEN → id_from_value v = Some id ↔ v = id_into_value id).
Proof.
  split; [intros t Ht; split; [by apply as_raw_ok|by apply force_raw_as_raw]|].
  split; [|intros id v; apply id_value_spec].
  intros data Hd. pose proof (force_raw_spec data Hd) as Hs. destruct (force_raw data) as [t|].
  - destruct Hs as (Ht & E & Hr). split; [split; [done|by eexists]|]. by intros t' [= <-].
  - split; [|done]. split; [by intros [? ?]|done].
Qed.

(** The derived order of tribles is the lexicographic order of their 64
    bytes, and equality of tribles is equality of the bytes. *)
Theorem trible_order t t' : trible_ok t → trible_ok t' →
  Trible_cmp t t' = lex_cmp (as_raw t) (as_raw t') ∧ (Trible_cmp t t' = Eq ↔ t = t').
Proof.
  intros Ht Ht'. assert (Trible_cmp t t' = lex_cmp (as_raw t) (as_raw t')) as E.
  { unfold Trible_cmp, as_raw, Id_cmp.
    rewrite !lex_cmp_app; [done|by rewrite !(bo_len _ _ (raw_ok _))..]. }
  split; [done|]. rewrite E, lex_cmp_eq. split; [by apply as_raw_inj|by intros ->].
Qed.
