(* ===== verification/TribleSet.v ===== *)
(** * TribleSet: the six covering indexes

    Source: [triblespace-core/src/trible/tribleset.rs].

    A trible set keeps every trible in six PATCHes, one per order of entity,
    attribute and value.  The abstract specification is the set of 64-byte rows
    ([rows]); the invariant [ts_ok] is that the six indexes are well formed,
    hold the same valid rows and retain the same archive owners.

    Under the feature [parallel] the source forks large set operations into six
    tasks on disjoint indexes; the sequence is the model.  Whether two receipts
    are one [Arc] is a matter of allocation: every [Arc::ptr_eq] is answered by
    an argument, and the theorems hold for all answers that can arise. *)

From S2P Require Import Prelude Lex OwnerCover ByteTable KeySchema PatchHash Branch Head Algebra.
From S2P Require Import XorDigest Patch Machine Iterators Trible.

Open Scope nat_scope.

Abbreviation index := (PATCH N unit).

Record TribleSet := mkTS { eav : index; vea : index; ave : index; vae : index; eva : index; aev : index }.

Record TribleSetFingerprint := mkFingerprint { token : option N }.

(** ** Receipts of one index *)

(** [PATCH::shares_owner_guard]; [arc] answers [Arc::ptr_eq]. *)
Definition shares_owner_guard (arc : bool) (p q : index) : bool :=
  match powners p, powners q with
  | None, None => true
  | Some _, Some _ => arc
  | _, _ => false
  end.

Definition owner_guard_latest_is (p : index) (owner : N) : bool :=
  match powners p with Some cover => (latest_address cover =? owner)%N | None => false end.

(** Assigning a receipt that is already installed changes nothing, so the test
    for that case is left out. *)
Definition set_owner_guard1 (p : index) (guard : option OwnerCover) : index := mkPATCH (proot p) guard.

Section ops.
Context (sip : list N → N) (rand_hash : N → N).
Abbreviation policy := (XorSip128 sip).
#[local] Hint Extern 0 PatchHash => exact policy : typeclass_instances.

(** *** The receipts of a set: [arc 0 .. 4] answer for the five comparisons of
    [owner_guards_are_shared], [arc 5 .. 9] for the five joins. *)

Definition owner_guards_are_shared (arc : nat → bool) (s : TribleSet) : bool :=
  shares_owner_guard (arc 0) (eav s) (eva s) && shares_owner_guard (arc 1) (eav s) (aev s) &&
  shares_owner_guard (arc 2) (eav s) (ave s) && shares_owner_guard (arc 3) (eav s) (vea s) &&
  shares_owner_guard (arc 4) (eav s) (vae s).

Definition shared_owner_guard_latest_is (arc : nat → bool) (s : TribleSet) (owner : N) : bool :=
  owner_guards_are_shared arc s && owner_guard_latest_is (eav s) owner.

Definition combined_owner_guard (arc : nat → bool) (s : TribleSet) : res (option OwnerCover) :=
  let guard := powners (eav s) in
  if owner_guards_are_shared arc s then Some guard
  else
    guard ← OwnerCover.union (arc 5) guard (powners (eva s));
    guard ← OwnerCover.union (arc 6) guard (powners (aev s));
    guard ← OwnerCover.union (arc 7) guard (powners (ave s));
    guard ← OwnerCover.union (arc 8) guard (powners (vea s));
    OwnerCover.union (arc 9) guard (powners (vae s)).

Definition set_owner_guard (s : TribleSet) (guard : option OwnerCover) : TribleSet :=
  mkTS (set_owner_guard1 (eav s) guard) (set_owner_guard1 (vea s) guard) (set_owner_guard1 (ave s) guard)
    (set_owner_guard1 (vae s) guard) (set_owner_guard1 (eva s) guard) (set_owner_guard1 (aev s) guard).

(** *** Set operations *)

Definition ts_new : TribleSet := mkTS new new new new new new.

Definition ts_len (s : TribleSet) : N := len (H:=policy) (eav s).
Definition ts_is_empty (s : TribleSet) : bool := (ts_len s =? 0)%N.

(** [insert]: one heap leaf at address [p], shared by the six indexes. *)
Definition ts_insert (s : TribleSet) (p : N) (t : Trible) : res TribleSet :=
  let key := with_value p (as_raw t) tt in
  eav' ← insert (O:=EAVOrder) rand_hash (eav s) key;
  eva' ← insert (O:=EVAOrder) rand_hash (eva s) key;
  aev' ← insert (O:=AEVOrder) rand_hash (aev s) key;
  ave' ← insert (O:=AVEOrder) rand_hash (ave s) key;
  vea' ← insert (O:=VEAOrder) rand_hash (vea s) key;
  vae' ← insert (O:=VAEOrder) rand_hash (vae s) key;
  Some (mkTS eav' vea' ave' vae' eva' aev').

(** [insert_archive] of the trible that lies at address [p] of the archive. *)
Definition ts_insert_archive (arc : nat → bool) (s : TribleSet) (p : N) (t : Trible) (owner : N)
    : res TribleSet :=
  let entry := archive_entry_new (mkPtr p (as_raw t)) owner in
  s ← (if negb (shared_owner_guard_latest_is arc s (ae_owner entry)) then
      owners ← combined_owner_guard arc s;
      owners ← OwnerCover.retain owners (ae_owner entry);
      Some (set_owner_guard s owners)
    else Some s);
  eav' ← insert_archive (O:=EAVOrder) rand_hash (eav s) entry;
  eva' ← insert_archive (O:=EVAOrder) rand_hash (eva s) entry;
  aev' ← insert_archive (O:=AEVOrder) rand_hash (aev s) entry;
  ave' ← insert_archive (O:=AVEOrder) rand_hash (ave s) entry;
  vea' ← insert_archive (O:=VEAOrder) rand_hash (vea s) entry;
  vae' ← insert_archive (O:=VAEOrder) rand_hash (vae s) entry;
  Some (mkTS eav' vea' ave' vae' eva' aev').

(** [arcs] and [arco] answer inside each operand, [arc] for the join of the two. *)
Definition joined_owner_guard (arc : bool) (arcs arco : nat → bool) (s o : TribleSet) : res (option OwnerCover) :=
  gs ← combined_owner_guard arcs s;
  go ← combined_owner_guard arco o;
  OwnerCover.union arc gs go.

(** After [set_owner_guard] the twelve receipts are one [Arc]. *)
Definition ts_union (arc : bool) (arcs arco : nat → bool) (s o : TribleSet) : res TribleSet :=
  owners ← joined_owner_guard arc arcs arco s o;
  let s := set_owner_guard s owners in
  let o := set_owner_guard o owners in
  eav' ← union (O:=EAVOrder) rand_hash true (eav s) (eav o);
  eva' ← union (O:=EVAOrder) rand_hash true (eva s) (eva o);
  aev' ← union (O:=AEVOrder) rand_hash true (aev s) (aev o);
  ave' ← union (O:=AVEOrder) rand_hash true (ave s) (ave o);
  vea' ← union (O:=VEAOrder) rand_hash true (vea s) (vea o);
  vae' ← union (O:=VAEOrder) rand_hash true (vae s) (vae o);
  Some (mkTS eav' vea' ave' vae' eva' aev').

Definition ts_intersect (arc : bool) (arcs arco : nat → bool) (s o : TribleSet) : res TribleSet :=
  owners ← joined_owner_guard arc arcs arco s o;
  eav' ← intersect_with_guard (O:=EAVOrder) rand_hash (eav s) (eav o) owners;
  eva' ← intersect_with_guard (O:=EVAOrder) rand_hash (eva s) (eva o) owners;
  aev' ← intersect_with_guard (O:=AEVOrder) rand_hash (aev s) (aev o) owners;
  ave' ← intersect_with_guard (O:=AVEOrder) rand_hash (ave s) (ave o) owners;
  vea' ← intersect_with_guard (O:=VEAOrder) rand_hash (vea s) (vea o) owners;
  vae' ← intersect_with_guard (O:=VAEOrder) rand_hash (vae s) (vae o) owners;
  Some (mkTS eav' vea' ave' vae' eva' aev').

Definition ts_difference (arcs : nat → bool) (s o : TribleSet) : res TribleSet :=
  owners ← combined_owner_guard arcs s;
  eav' ← difference_with_guard (O:=EAVOrder) rand_hash (eav s) (eav o) owners;
  eva' ← difference_with_guard (O:=EVAOrder) rand_hash (eva s) (eva o) owners;
  aev' ← difference_with_guard (O:=AEVOrder) rand_hash (aev s) (aev o) owners;
  ave' ← difference_with_guard (O:=AVEOrder) rand_hash (ave s) (ave o) owners;
  vea' ← difference_with_guard (O:=VEAOrder) rand_hash (vea s) (vea o) owners;
  vae' ← difference_with_guard (O:=VAEOrder) rand_hash (vae s) (vae o) owners;
  Some (mkTS eav' vea' ave' vae' eva' aev').

Definition ts_contains (s : TribleSet) (t : Trible) : res bool :=
  has_prefix (O:=EAVOrder) rand_hash (eav s) (as_raw t).

(** [PartialEq]. *)
Definition ts_eq (s o : TribleSet) : bool := eq (H:=policy) (eav s) (eav o).

(** [fingerprint]: [blind] is the keyed hash of [blind_root_hash]. *)
Definition ts_fingerprint (blind : N → N) (s : TribleSet) : TribleSetFingerprint :=
  mkFingerprint (blind <$> root_hash (H:=policy) (eav s)).

(** [FromIterator]: [insert] allocates at the address listed with the trible. *)
Definition from_iter (l : list (N * Trible)) : res TribleSet :=
  foldM (λ s pt, ts_insert s pt.1 pt.2) ts_new l.

(** [index_key_as_trible]: every key is a valid row, or the view is undefined. *)
Definition index_key_as_trible (key : list N) : res Trible := force_raw key.

Definition viewed {S} (next : S → res (option (list N) * S)) (st : S) : res (option Trible * S) :=
  '(o, st) ← next st;
  match o with
  | Some key => t ← index_key_as_trible key; Some (Some t, st)
  | None => Some (None, st)
  end.

Definition ts_iter (s : TribleSet) := iter (KEY_LEN:=TRIBLE_LEN) (eav s).
Definition ts_iter_next (fuel : nat) :=
  viewed (iter_next (H:=policy) (V:=unit) (KEY_LEN:=TRIBLE_LEN) fuel).
Definition ts_iter_ordered (s : TribleSet) := iter_ordered (H:=policy) (eav s).
Definition ts_ordered_next (fuel : nat) :=
  viewed (ordered_next (H:=policy) (V:=unit) fuel).
End ops.

(** ** One index

    [index_ok p K g]: the index [p] is well formed, holds the keys [K] and
    retains the receipt [g]. *)

Lemma unions_same same_arc g : receipt_ok g → OwnerCover.union same_arc g g = Some g.
Proof.
  intros Hg. destruct (cover_union_spec same_arc g g) as (u & -> & Hu & Hs & Hl); [done..|]. f_equal.
  destruct g as [c|].
  - specialize (Hl c eq_refl). destruct u as [c'|]; [|done].
    destruct (cover_set_eq c' c) as [Er El]; [by apply Hu|by apply Hg|rewrite Hs; set_solver|].
    destruct c, c'; simpl in *. congruence.
  - destruct u as [c'|]; [|done]. exfalso. specialize (Hu c' eq_refl).
    assert (latest_address c' ∈ owner_set (Some c')) as Hin by apply owner_set_elem, Hu.
    rewrite Hs in Hin. unfold owner_set in Hin. simpl in Hin. set_solver.
Qed.

Section index.
Context {O : KeySchema TRIBLE_LEN} `{!KeySchemaOk TRIBLE_LEN O}.
Context (sip : list N → N) (rand_hash : N → N).
Abbreviation policy := (XorSip128 sip).
#[local] Hint Extern 0 PatchHash => exact policy : typeclass_instances.
#[local] Hint Extern 0 (PatchHashOk _) => exact (XorSip128_ok sip) : typeclass_instances.
Implicit Types (p q : PATCH Digest unit) (K : gset (list N)) (g : option OwnerCover).

Record index_ok p K g : Prop := {
  io_ok : patch_ok rand_hash tt p;
  io_keys : dom (to_map tt p) = K;
  io_receipt : powners p = g;
}.

Lemma index_new : index_ok new ∅ None.
Proof. split; [apply new_ok|apply dom_empty_L|done]. Qed.

Lemma index_set_owner_guard p K g g' : index_ok p K g → receipt_ok g' → index_ok (set_owner_guard1 p g') K g'.
Proof. intros [[Hr _] Hk _] Hg. by split. Qed.

Lemma index_insert p K g addr k : index_ok p K g → bytes_ok TRIBLE_LEN k →
  ∃ p', insert rand_hash p (with_value addr k tt) = Some p' ∧ index_ok p' ({[k]} ∪ K) g.
Proof.
  intros [Hp Hk Hg] Hok%key_ok_bytes.
  destruct (insert_spec (H:=policy) rand_hash tt p addr k tt Hp Hok) as (p' & Hp' & Hok' & Hm & Ho).
  exists p'. split; [done|]. split; [done| |exact (eq_trans Ho Hg)]. rewrite Hm, dom_union_L, dom_singleton_L, Hk. set_solver.
Qed.

Lemma insert_archive_receipt p entry p' : insert_archive rand_hash p entry = Some p' →
  OwnerCover.retain (powners p) (ae_owner entry) = Some (powners p').
Proof.
  unfold insert_archive, archive_leaf. destruct (OwnerCover.retain _ _) as [o|]; cbn [mbind option_bind]; [|done].
  destruct (proot p); [|by intros [= <-]].
  destruct (insert_archive_leaf _ _ _ _ _ _); cbn [mbind option_bind]; [|done]. by intros [= <-].
Qed.

(** The receipt is told the owner it already has as its latest. *)
Lemma index_insert_archive p K c addr k : index_ok p K (Some c) → bytes_ok TRIBLE_LEN k →
  cover_ok c →
  ∃ p', insert_archive rand_hash p (archive_entry_new (mkPtr addr k) (latest_address c)) = Some p' ∧
    index_ok p' ({[k]} ∪ K) (Some c).
Proof.
  intros [Hp Hk Hg] Hok%key_ok_bytes Hc.
  assert (latest_address c < 2 ^ 64)%N as Hl.
  { apply (cover_bound c); [done|]. apply owner_set_elem, Hc. }
  destruct (insert_archive_spec (H:=policy) rand_hash tt p (mkPtr addr k) (latest_address c) Hp Hok Hl)
    as (p' & Hp' & Hok' & Hm & _).
  exists p'. split; [done|]. split; [done| |].
  - rewrite Hm, dom_union_L, dom_singleton_L, Hk. set_solver.
  - apply insert_archive_receipt in Hp'. rewrite Hg in Hp'. simpl in Hp'. rewrite N.eqb_refl in Hp'. by injection Hp'.
Qed.

Lemma patch_union_receipt same_arc p q r : patch_ok rand_hash tt p → powners p = powners q →
  union (H:=policy) rand_hash same_arc p q = Some r → powners r = powners p.
Proof.
  intros Hp E. unfold union. destruct (proot q); [|by intros [= <-]]. destruct (proot p); [|by intros [= <-]].
  rewrite <-E, unions_same by apply Hp. cbn [mbind option_bind].
  destruct (Algebra.union _ _ _ _ _); [|done]. by intros [= <-].
Qed.

Lemma index_union p q K K' g : no_collision (H:=policy) tt tt p q →
  index_ok p K g → index_ok q K' g →
  ∃ r, union rand_hash true p q = Some r ∧ index_ok r (K ∪ K') g.
Proof.
  intros Hn [Hp Hk Hg] [Hq Hk' Hg'].
  destruct (patch_union_spec (H:=policy) rand_hash tt true p q) as (r & Hr & Hok & Hd & _);
    [done..|intros _; exact (eq_trans Hg (eq_sym Hg'))|].
  exists r. split; [done|]. split; [done|by rewrite Hd, Hk, Hk'|].
  rewrite <-Hg. by eapply patch_union_receipt; [|rewrite Hg, Hg'|].
Qed.

Lemma dom_empty_iff p : to_map tt p = ∅ ↔ dom (to_map tt p) = ∅.
Proof. symmetry. apply dom_empty_iff_L. Qed.

(** The receipt of a result: given up by an empty one. *)
Definition kept K g : option OwnerCover := if decide (K = ∅) then None else g.

Lemma index_intersect p q K K' gp gq g : no_collision (H:=policy) tt tt p q →
  index_ok p K gp → index_ok q K' gq → receipt_ok g →
  ∃ r, intersect_with_guard rand_hash p q g = Some r ∧ index_ok r (K ∩ K') (kept (K ∩ K') g).
Proof.
  intros Hn [Hp Hk Hg] [Hq Hk' Hg'] Hgo.
  destruct (intersect_with_guard_spec (H:=policy) rand_hash tt p q g) as (r & Hr & Hok & Hd & _ & Ho);
    [done..|unfold TRIBLE_LEN; lia|done|].
  exists r. split; [done|]. rewrite Hk, Hk' in Hd. split; [done..|]. rewrite Ho, <-Hd. unfold kept. apply decide_ext, dom_empty_iff.
Qed.

Lemma index_difference p q K K' gp gq g : no_collision (H:=policy) tt tt p q →
  index_ok p K gp → index_ok q K' gq → receipt_ok g →
  ∃ r, difference_with_guard rand_hash p q g = Some r ∧ index_ok r (K ∖ K') (kept (K ∖ K') g).
Proof.
  intros Hn [Hp Hk Hg] [Hq Hk' Hg'] Hgo.
  destruct (difference_with_guard_spec (H:=policy) rand_hash tt tt p q g) as (r & Hr & Hok & Hm & Ho);
    [done..|unfold TRIBLE_LEN; lia|done|].
  assert (dom (to_map tt r) = K ∖ K') as Hd.
  { rewrite Hm. apply set_eq. intros k. rewrite elem_of_difference, elem_of_dom, <-Hk, <-Hk', elem_of_dom.
    unfold is_Some. setoid_rewrite map_lookup_filter_Some. naive_solver. }
  exists r. split; [done|]. split; [done..|]. rewrite Ho, <-Hd. unfold kept. apply decide_ext, dom_empty_iff.
Qed.
End index.

(** ** The whole set *)

Section spec.
Context (sip : list N → N) (rand_hash : N → N).
Abbreviation policy := (XorSip128 sip).
#[local] Hint Extern 0 PatchHash => exact policy : typeclass_instances.
#[local] Hint Extern 0 (PatchHashOk _) => exact (XorSip128_ok sip) : typeclass_instances.
#[local] Existing Instances eav_ok eva_ok aev_ok ave_ok vea_ok vae_ok.
Implicit Types (s o r : TribleSet) (K : gset (list N)) (g : option OwnerCover) (t : Trible).
Abbreviation ix O := (index_ok (O:=O) sip rand_hash).

(** The abstract value of a set: its 64-byte rows. *)
Definition rows s : gset (list N) := dom (to_map tt (eav s)).
(** The archive owners it keeps alive. *)
Definition owners_of s : gset N := owner_set (powners (eav s)).

(** In none of the six indexes does a subtree of [s] collide with one of [o]. *)
Record ts_no_collision s o : Prop := {
  nc_eav : no_collision (H:=policy) tt tt (eav s) (eav o);
  nc_vea : no_collision (H:=policy) tt tt (vea s) (vea o);
  nc_ave : no_collision (H:=policy) tt tt (ave s) (ave o);
  nc_vae : no_collision (H:=policy) tt tt (vae s) (vae o);
  nc_eva : no_collision (H:=policy) tt tt (eva s) (eva o);
  nc_aev : no_collision (H:=policy) tt tt (aev s) (aev o);
}.

Record holds s K g : Prop := {
  h_eav : ix EAVOrder (eav s) K g;
  h_vea : ix VEAOrder (vea s) K g;
  h_ave : ix AVEOrder (ave s) K g;
  h_vae : ix VAEOrder (vae s) K g;
  h_eva : ix EVAOrder (eva s) K g;
  h_aev : ix AEVOrder (aev s) K g;
  h_receipt : receipt_ok g;
  h_rows : ∀ k, k ∈ K → bytes_ok TRIBLE_LEN k ∧ row_rule k;
}.

(** The invariant: six well-formed indexes over the same valid rows, with one
    and the same receipt. *)
Definition ts_ok s : Prop := holds s (rows s) (powners (eav s)).

#[global] Instance ts_no_collision_dec s o : Decision (ts_no_collision s o).
Proof.
  refine (cast_if (decide (
    no_collision (H:=policy) tt tt (eav s) (eav o) ∧ no_collision (H:=policy) tt tt (vea s) (vea o) ∧
    no_collision (H:=policy) tt tt (ave s) (ave o) ∧ no_collision (H:=policy) tt tt (vae s) (vae o) ∧
    no_collision (H:=policy) tt tt (eva s) (eva o) ∧ no_collision (H:=policy) tt tt (aev s) (aev o))));
    [abstract by destruct_and!|abstract (intros []; naive_solver)].
Defined.

Lemma holds_ok s K g : holds s K g → ts_ok s ∧ rows s = K ∧ powners (eav s) = g.
Proof.
  intros Hs. pose proof (io_keys _ _ _ _ _ (h_eav _ _ _ Hs)) as Hk.
  pose proof (io_receipt _ _ _ _ _ (h_eav _ _ _ Hs)) as Hg.
  assert (rows s = K) as E by exact Hk. split; [|done]. unfold ts_ok. rewrite E.
  assert (powners (eav s) = g) as -> by exact Hg. done.
Qed.

Lemma kept_receipt K g : receipt_ok g → receipt_ok (kept K g).
Proof. intros Hg. unfold kept. by case_decide. Qed.

Lemma combined_spec arc s K g : holds s K g → combined_owner_guard arc s = Some g.
Proof.
  intros [He Hv Ha Hw Hx Hy Hg _]. apply io_receipt in He, Hv, Ha, Hw, Hx, Hy.
  unfold combined_owner_guard. destruct (owner_guards_are_shared arc s); [by f_equal|].
  destruct s as [p1 p2 p3 p4 p5 p6]. simpl in *. subst g. rewrite Hx. 
  rewrite (unions_same (arc 5)) by done. cbn [mbind option_bind]. rewrite Hy.
  rewrite (unions_same (arc 6)) by done. cbn [mbind option_bind]. rewrite Ha.
  rewrite (unions_same (arc 7)) by done. cbn [mbind option_bind]. rewrite Hv.
  rewrite (unions_same (arc 8)) by done. cbn [mbind option_bind]. rewrite Hw. by apply unions_same.
Qed.

Lemma set_owner_guard_holds s K g g' : holds s K g → receipt_ok g' → holds (set_owner_guard s g') K g'.
Proof. intros [] Hg. split; try done; by eapply index_set_owner_guard. Qed.

Lemma new_holds : holds (ts_new sip) ∅ None.
Proof. split; [apply index_new..|done|]. intros k. by rewrite elem_of_empty. Qed.

(** One step of a composed operation: the index lemma runs it. *)
Ltac index_step H := destruct H as (? & -> & ?); cbn [mbind option_bind].

Lemma rows_insert K t : trible_ok t → (∀ k, k ∈ K → bytes_ok TRIBLE_LEN k ∧ row_rule k) →
  ∀ k, k ∈ {[as_raw t]} ∪ K → bytes_ok TRIBLE_LEN k ∧ row_rule k.
Proof.
  intros Ht HK k [->%elem_of_singleton|Hk]%elem_of_union; [|by apply HK].
  split; [by apply as_raw_ok|by apply as_raw_rule].
Qed.

Lemma insert_holds s K g p t : holds s K g → trible_ok t →
  ∃ s', ts_insert sip rand_hash s p t = Some s' ∧ holds s' ({[as_raw t]} ∪ K) g.
Proof.
  intros Hs Ht. pose proof (as_raw_ok t Ht) as Hk. unfold ts_insert.
  index_step (index_insert (O:=EAVOrder) sip rand_hash (eav s) K g p _ (h_eav _ _ _ Hs) Hk).
  index_step (index_insert (O:=EVAOrder) sip rand_hash (eva s) K g p _ (h_eva _ _ _ Hs) Hk).
  index_step (index_insert (O:=AEVOrder) sip rand_hash (aev s) K g p _ (h_aev _ _ _ Hs) Hk).
  index_step (index_insert (O:=AVEOrder) sip rand_hash (ave s) K g p _ (h_ave _ _ _ Hs) Hk).
  index_step (index_insert (O:=VEAOrder) sip rand_hash (vea s) K g p _ (h_vea _ _ _ Hs) Hk).
  index_step (index_insert (O:=VAEOrder) sip rand_hash (vae s) K g p _ (h_vae _ _ _ Hs) Hk).
  eexists. split; [done|]. split; try done; [apply Hs|apply rows_insert; [done|apply Hs]].
Qed.

Lemma insert_archive_holds arc s K g p t owner : holds s K g → trible_ok t → (owner < 2 ^ 64)%N →
  ∃ s' c, ts_insert_archive sip rand_hash arc s p t owner = Some s' ∧ holds s' ({[as_raw t]} ∪ K) (Some c) ∧
    owner_set (Some c) = {[owner]} ∪ owner_set g.
Proof.
  intros Hs Ht Ho. pose proof (as_raw_ok t Ht) as Hk. unfold ts_insert_archive.
  change (ae_owner (archive_entry_new (mkPtr p (as_raw t)) owner)) with owner.
  assert (∃ s0 c, (if negb (shared_owner_guard_latest_is arc s owner) then
      owners ← combined_owner_guard arc s; owners ← OwnerCover.retain owners owner;
      Some (set_owner_guard s owners) else Some s) = Some s0 ∧ holds s0 K (Some c) ∧
    latest_address c = owner ∧ owner_set (Some c) = {[owner]} ∪ owner_set g) as (s0 & c & -> & Hs0 & Hl & Hset).
  { destruct (shared_owner_guard_latest_is arc s owner) eqn:E; cbn [negb].
    - unfold shared_owner_guard_latest_is, owner_guard_latest_is in E. apply andb_true_iff in E as [_ E].
      assert (powners (eav s) = g) as Hg by exact (io_receipt _ _ _ _ _ (h_eav _ _ _ Hs)). rewrite Hg in E.
      destruct g as [c|]; [|done]. apply N.eqb_eq in E. exists s, c. split_and!; [done..|].
      assert (owner ∈ owner_set (Some c)); [|set_solver]. apply owner_set_elem. rewrite <-E.
      by apply (h_receipt _ _ _ Hs).
    - rewrite (combined_spec arc s K g Hs). cbn [mbind option_bind].
      destruct (retain_spec g owner (h_receipt _ _ _ Hs) Ho) as (c & -> & Hc & Hl & Hset).
      cbn [mbind option_bind]. exists (set_owner_guard s (Some c)), c. split_and!; [done| |done..].
      eapply set_owner_guard_holds; [done|]. by intros ? [= <-]. }
  cbn [mbind option_bind]. rewrite <-Hl. assert (cover_ok c) as Hc by by apply (h_receipt _ _ _ Hs0).
  index_step (index_insert_archive (O:=EAVOrder) sip rand_hash (eav s0) K c p _ (h_eav _ _ _ Hs0) Hk Hc).
  index_step (index_insert_archive (O:=EVAOrder) sip rand_hash (eva s0) K c p _ (h_eva _ _ _ Hs0) Hk Hc).
  index_step (index_insert_archive (O:=AEVOrder) sip rand_hash (aev s0) K c p _ (h_aev _ _ _ Hs0) Hk Hc).
  index_step (index_insert_archive (O:=AVEOrder) sip rand_hash (ave s0) K c p _ (h_ave _ _ _ Hs0) Hk Hc).
  index_step (index_insert_archive (O:=VEAOrder) sip rand_hash (vea s0) K c p _ (h_vea _ _ _ Hs0) Hk Hc).
  index_step (index_insert_archive (O:=VAEOrder) sip rand_hash (vae s0) K c p _ (h_vae _ _ _ Hs0) Hk Hc).
  eexists _, c. split_and!; [done| |by rewrite Hset, Hl].
  split; try done; [apply Hs0|apply rows_insert; [done|apply Hs0]].
Qed.

Lemma joined_spec arc arcs arco s o K K' g g' : holds s K g → holds o K' g' → (arc = true → g = g') →
  ∃ u, joined_owner_guard arc arcs arco s o = Some u ∧ receipt_ok u ∧
    owner_set u = owner_set g ∪ owner_set g'.
Proof.
  intros Hs Ho Harc. unfold joined_owner_guard. rewrite (combined_spec arcs s K g), (combined_spec arco o K' g') by done.
  cbn [mbind option_bind].
  destruct (cover_union_spec arc g g') as (u & -> & Hu & Hset & _); [by eapply h_receipt..|done|]. by exists u.
Qed.

Lemma union_holds arc arcs arco s o K K' g g' : holds s K g → holds o K' g' → ts_no_collision s o →
  (arc = true → g = g') →
  ∃ r u, ts_union sip rand_hash arc arcs arco s o = Some r ∧ holds r (K ∪ K') u ∧
    owner_set u = owner_set g ∪ owner_set g'.
Proof.
  intros Hs Ho Hn Harc. unfold ts_union.
  destruct (joined_spec arc arcs arco s o K K' g g') as (u & -> & Hu & Hset); [done..|]. cbn [mbind option_bind].
  pose proof (set_owner_guard_holds s K g u Hs Hu) as Hs1. pose proof (set_owner_guard_holds o K' g' u Ho Hu) as Ho1.
  set (s1 := set_owner_guard s u) in *. set (o1 := set_owner_guard o u) in *. cbn zeta.
  index_step (index_union (O:=EAVOrder) sip rand_hash (eav s1) (eav o1) K K' u (nc_eav _ _ Hn) (h_eav _ _ _ Hs1) (h_eav _ _ _ Ho1)).
  index_step (index_union (O:=EVAOrder) sip rand_hash (eva s1) (eva o1) K K' u (nc_eva _ _ Hn) (h_eva _ _ _ Hs1) (h_eva _ _ _ Ho1)).
  index_step (index_union (O:=AEVOrder) sip rand_hash (aev s1) (aev o1) K K' u (nc_aev _ _ Hn) (h_aev _ _ _ Hs1) (h_aev _ _ _ Ho1)).
  index_step (index_union (O:=AVEOrder) sip rand_hash (ave s1) (ave o1) K K' u (nc_ave _ _ Hn) (h_ave _ _ _ Hs1) (h_ave _ _ _ Ho1)).
  index_step (index_union (O:=VEAOrder) sip rand_hash (vea s1) (vea o1) K K' u (nc_vea _ _ Hn) (h_vea _ _ _ Hs1) (h_vea _ _ _ Ho1)).
  index_step (index_union (O:=VAEOrder) sip rand_hash (vae s1) (vae o1) K K' u (nc_vae _ _ Hn) (h_vae _ _ _ Hs1) (h_vae _ _ _ Ho1)).
  eexists _, u. split_and!; [done| |done]. split; try done.
  intros k [Hk|Hk]%elem_of_union; [by apply (h_rows _ _ _ Hs)|by apply (h_rows _ _ _ Ho)].
Qed.

Lemma intersect_holds arc arcs arco s o K K' g g' : holds s K g → holds o K' g' → ts_no_collision s o →
  (arc = true → g = g') →
  ∃ r u, ts_intersect sip rand_hash arc arcs arco s o = Some r ∧ holds r (K ∩ K') (kept (K ∩ K') u) ∧
    owner_set u = owner_set g ∪ owner_set g'.
Proof.
  intros Hs Ho Hn Harc. unfold ts_intersect.
  destruct (joined_spec arc arcs arco s o K K' g g') as (u & -> & Hu & Hset); [done..|]. cbn [mbind option_bind].
  index_step (index_intersect (O:=EAVOrder) sip rand_hash (eav s) (eav o) K K' g g' u (nc_eav _ _ Hn) (h_eav _ _ _ Hs) (h_eav _ _ _ Ho) Hu).
  index_step (index_intersect (O:=EVAOrder) sip rand_hash (eva s) (eva o) K K' g g' u (nc_eva _ _ Hn) (h_eva _ _ _ Hs) (h_eva _ _ _ Ho) Hu).
  index_step (index_intersect (O:=AEVOrder) sip rand_hash (aev s) (aev o) K K' g g' u (nc_aev _ _ Hn) (h_aev _ _ _ Hs) (h_aev _ _ _ Ho) Hu).
  index_step (index_intersect (O:=AVEOrder) sip rand_hash (ave s) (ave o) K K' g g' u (nc_ave _ _ Hn) (h_ave _ _ _ Hs) (h_ave _ _ _ Ho) Hu).
  index_step (index_intersect (O:=VEAOrder) sip rand_hash (vea s) (vea o) K K' g g' u (nc_vea _ _ Hn) (h_vea _ _ _ Hs) (h_vea _ _ _ Ho) Hu).
  index_step (index_intersect (O:=VAEOrder) sip rand_hash (vae s) (vae o) K K' g g' u (nc_vae _ _ Hn) (h_vae _ _ _ Hs) (h_vae _ _ _ Ho) Hu).
  eexists _, u. split_and!; [done| |done]. split; try done; [by apply kept_receipt|].
  intros k [Hk _]%elem_of_intersection. by apply (h_rows _ _ _ Hs).
Qed.

Lemma difference_holds arcs s o K K' g g' : holds s K g → holds o K' g' → ts_no_collision s o →
  ∃ r, ts_difference sip rand_hash arcs s o = Some r ∧ holds r (K ∖ K') (kept (K ∖ K') g).
Proof.
  intros Hs Ho Hn. unfold ts_difference. pose proof (h_receipt _ _ _ Hs) as Hg.
  rewrite (combined_spec arcs s K g) by done. cbn [mbind option_bind].
  index_step (index_difference (O:=EAVOrder) sip rand_hash (eav s) (eav o) K K' g g' g (nc_eav _ _ Hn) (h_eav _ _ _ Hs) (h_eav _ _ _ Ho) Hg).
  index_step (index_difference (O:=EVAOrder) sip rand_hash (eva s) (eva o) K K' g g' g (nc_eva _ _ Hn) (h_eva _ _ _ Hs) (h_eva _ _ _ Ho) Hg).
  index_step (index_difference (O:=AEVOrder) sip rand_hash (aev s) (aev o) K K' g g' g (nc_aev _ _ Hn) (h_aev _ _ _ Hs) (h_aev _ _ _ Ho) Hg).
  index_step (index_difference (O:=AVEOrder) sip rand_hash (ave s) (ave o) K K' g g' g (nc_ave _ _ Hn) (h_ave _ _ _ Hs) (h_ave _ _ _ Ho) Hg).
  index_step (index_difference (O:=VEAOrder) sip rand_hash (vea s) (vea o) K K' g g' g (nc_vea _ _ Hn) (h_vea _ _ _ Hs) (h_vea _ _ _ Ho) Hg).
  index_step (index_difference (O:=VAEOrder) sip rand_hash (vae s) (vae o) K K' g g' g (nc_vae _ _ Hn) (h_vae _ _ _ Hs) (h_vae _ _ _ Ho) Hg).
  eexists. split; [done|]. split; try done; [by apply kept_receipt|].
  intros k [Hk _]%elem_of_difference. by apply (h_rows _ _ _ Hs).
Qed.

(** The sets the API builds from tribles whose rows are in [U].  Whether a set
    operation went right depends on the digests of its operands; each step asks
    that of its own two operands. *)
Section built.
Context (U : list N → Prop).

Inductive built : TribleSet → Prop :=
  | built_new : built (ts_new sip)
  | built_insert s p t s' : built s → trible_ok t → U (as_raw t) →
      ts_insert sip rand_hash s p t = Some s' → built s'
  | built_insert_archive arc s p t owner s' : built s → trible_ok t → U (as_raw t) → (owner < 2 ^ 64)%N →
      ts_insert_archive sip rand_hash arc s p t owner = Some s' → built s'
  | built_union arc arcs arco s o r : built s → built o →
      (arc = true → powners (eav s) = powners (eav o)) → ts_no_collision s o →
      ts_union sip rand_hash arc arcs arco s o = Some r → built r
  | built_intersect arc arcs arco s o r : built s → built o →
      (arc = true → powners (eav s) = powners (eav o)) → ts_no_collision s o →
      ts_intersect sip rand_hash arc arcs arco s o = Some r → built r
  | built_difference arcs s o r : built s → built o → ts_no_collision s o →
      ts_difference sip rand_hash arcs s o = Some r → built r.

Lemma built_holds s : built s → ts_ok s ∧ ∀ k, k ∈ rows s → U k.
Proof.
  assert (∀ s K g, holds s K g → (∀ k, k ∈ K → U k) → ts_ok s ∧ ∀ k, k ∈ rows s → U k) as Hfin.
  { intros s0 K g H1 H2. destruct (holds_ok s0 K g H1) as (? & -> & _). done. }
  induction 1 as [|s p t s' _ [IH IU] Ht Hu E|arc s p t owner s' _ [IH IU] Ht Hu Ho E
    |arc arcs arco s o r _ [IH IU] _ [IH' IU'] Harc Hn E|arc arcs arco s o r _ [IH IU] _ [IH' IU'] Harc Hn E
    |arcs s o r _ [IH IU] _ [IH' IU'] Hn E].
  - eapply Hfin; [apply new_holds|]. intros k. by rewrite elem_of_empty.
  - destruct (insert_holds s _ _ p t IH Ht) as (s1 & E1 & H1). simplify_eq. eapply Hfin; [done|set_solver].
  - destruct (insert_archive_holds arc s _ _ p t owner IH Ht Ho) as (s1 & c & E1 & H1 & _).
    simplify_eq. eapply Hfin; [done|set_solver].
  - destruct (union_holds arc arcs arco s o _ _ _ _ IH IH' Hn Harc) as (s1 & c & E1 & H1 & _).
    simplify_eq. eapply Hfin; [done|set_solver].
  - destruct (intersect_holds arc arcs arco s o _ _ _ _ IH IH' Hn Harc) as (s1 & c & E1 & H1 & _).
    simplify_eq. eapply Hfin; [done|set_solver].
  - destruct (difference_holds arcs s o _ _ _ _ IH IH' Hn) as (s1 & E1 & H1).
    simplify_eq. eapply Hfin; [done|set_solver].
Qed.
End built.

(** *** Reading a set *)

(** The tree order of [EAVOrder] is the order of the bytes. *)
Lemma eav_infix k : length k = TRIBLE_LEN → key_infix (O:=EAVOrder) k 0 TRIBLE_LEN = k.
Proof.
  intros Hl. unfold key_infix, tb, tree_byte.
  assert (TREE_TO_KEY (KeySchema:=EAVOrder) = seq 0 TRIBLE_LEN) as -> by (vm_compute; reflexivity).
  apply list_eq. intros i. rewrite list_lookup_fmap. destruct (decide (i < TRIBLE_LEN)).
  - rewrite (lookup_seq_lt 0) by done. cbn [fmap option_fmap option_map Nat.add]. rewrite lookup_seq_lt by done.
    cbn [mbind option_bind Nat.add]. destruct (lookup_lt_is_Some_2 k i) as [b ->]; [by rewrite Hl|done].
  - rewrite lookup_seq_ge by lia. symmetry. apply lookup_ge_None_2. lia.
Qed.

Lemma eav_tree_ordered k : bytes_ok TRIBLE_LEN k → tree_ordered (O:=EAVOrder) k = Some k.
Proof.
  intros Hk. rewrite (tree_ordered_infix (O:=EAVOrder)) by by apply key_ok_bytes.
  by rewrite eav_infix by apply Hk.
Qed.

Lemma ts_contains_spec s t : ts_ok s → trible_ok t →
  ts_contains sip rand_hash s t = Some (bool_decide (as_raw t ∈ rows s)).
Proof.
  intros Hs Ht. pose proof (as_raw_ok t Ht) as Hk. destruct (h_eav _ _ _ Hs) as [Hp _ _].
  destruct (patch_has_prefix_spec (H:=policy) (O:=EAVOrder) rand_hash tt (eav s) (as_raw t) Hp) as (b & Hb & Hiff);
    [by rewrite (bo_len _ _ Hk)|].
  unfold ts_contains. rewrite Hb. f_equal. apply eq_iff_eq_true. rewrite Hiff, bool_decide_eq_true. split.
  - intros [(k & Hin & q & Hq & Htake)|[_ E]].
    + destruct (h_rows _ _ _ Hs k Hin) as [Hk' _]. rewrite eav_tree_ordered in Hq by done. injection Hq as <-.
      rewrite take_ge in Htake by (rewrite (bo_len _ _ Hk), (bo_len _ _ Hk'); done). by subst k.
    + pose proof (bo_len _ _ Hk) as Hl. by rewrite E in Hl.
  - intros Hin. left. exists (as_raw t). split; [done|]. exists (as_raw t).
    split; [by apply eav_tree_ordered|]. by apply take_ge.
Qed.

Lemma len_spec s : ts_ok s → ts_len sip s = N.of_nat (size (rows s)) ∧
  (ts_is_empty sip s = true ↔ rows s = ∅).
Proof.
  intros Hs. destruct (h_eav _ _ _ Hs) as [Hp _ _].
  destruct (patch_len_spec (H:=policy) (O:=EAVOrder) rand_hash tt (eav s) Hp) as [Hl He].
  unfold ts_is_empty. unfold ts_len. rewrite Hl. unfold rows. rewrite size_dom. split; [done|].
  rewrite N.eqb_eq, dom_empty_iff_L, <-map_size_empty_iff. lia.
Qed.

Lemma eq_spec s o : ts_ok s → ts_ok o → no_collision (H:=policy) tt tt (eav s) (eav o) →
  ts_eq sip s o = bool_decide (rows s = rows o).
Proof.
  intros Hs Ho Hi. destruct (h_eav _ _ _ Hs) as [Hp _ _], (h_eav _ _ _ Ho) as [Hq _ _].
  by apply (patch_eq_spec (H:=policy) (O:=EAVOrder) rand_hash tt tt).
Qed.

Lemma fingerprint_spec blind s o : ts_ok s → ts_ok o → rows s = rows o →
  ts_fingerprint sip blind s = ts_fingerprint sip blind o ∧ ts_eq sip s o = true.
Proof.
  intros Hs Ho E. destruct (h_eav _ _ _ Hs) as [Hp _ _], (h_eav _ _ _ Ho) as [Hq _ _].
  pose proof (root_hash_dom (H:=policy) (O:=EAVOrder) rand_hash tt tt (eav s) (eav o) Hp Hq E) as Hr.
  unfold ts_fingerprint, ts_eq, eq. rewrite Hr. split; [done|]. by apply bool_decide_eq_true.
Qed.

(** A stepper over valid rows, viewed as tribles. *)
Lemma viewed_yields {S} hint (next : S → res (option (list N) * S)) st l :
  yields hint next st l → (∀ k, k ∈ l → bytes_ok TRIBLE_LEN k ∧ row_rule k) →
  ∃ ts, Forall trible_ok ts ∧ as_raw <$> ts = l ∧ yields hint (viewed next) st ts.
Proof.
  induction 1 as [st st' H1 H2 Hh|st k st' l Hn Hh _ IH]; intros Hv.
  - exists []. split_and!; [done..|]. apply yields_end with st'; unfold viewed; [by rewrite H1|by rewrite H2|done].
  - destruct IH as (ts & Ht & <- & Hy); [intros; apply Hv; by right|].
    destruct (Hv k) as [Hk Hr]; [by left|]. pose proof (force_raw_spec k Hk) as Hs.
    destruct (force_raw k) as [t|] eqn:E; [|done]. destruct Hs as (Hto & Htr & _).
    exists (t :: ts). split_and!; [by constructor|csimpl; by rewrite Htr|].
    apply yields_item with st'; [|by rewrite <-(length_fmap as_raw)|done].
    unfold viewed. rewrite Hn. cbn [mbind option_bind]. unfold index_key_as_trible. by rewrite E.
Qed.

Lemma iter_ordered_holds s : ts_ok s → (ts_len sip s < 2 ^ 64)%N →
  ∃ ts st n, Forall trible_ok ts ∧ lex_sorted (as_raw <$> ts) ∧ (∀ k, k ∈ as_raw <$> ts ↔ k ∈ rows s) ∧
    ts_iter_ordered sip s = Some st ∧
    ∀ fuel, n ≤ fuel → yields exact_hint (ts_ordered_next sip fuel) st ts.
Proof.
  intros Hs Hlen. destruct (h_eav _ _ _ Hs) as [Hp _ _].
  destruct (iter_ordered_spec (H:=policy) (O:=EAVOrder) rand_hash tt (eav s) Hp Hlen) as (l & st & n & Hl & Hso & Hst & Hn).
  assert (∀ k, k ∈ l.*1 ↔ k ∈ rows s) as Hin.
  { intros k. unfold rows. rewrite Hl, list_elem_of_fmap, elem_of_dom. unfold is_Some.
    setoid_rewrite <-elem_of_map_to_list. split; [intros ([k' v] & -> & ?); by exists v|intros [v ?]; by exists (k, v)]. }
  assert (∀ k, k ∈ l.*1 → bytes_ok TRIBLE_LEN k ∧ row_rule k) as Hv by (intros k Hk%Hin; by apply (h_rows _ _ _ Hs)).
  destruct (Hn n) as (_ & Hy & _); [done|]. destruct (viewed_yields _ _ _ _ Hy Hv) as (ts & Ht & E & _).
  exists ts, st, n. rewrite E. split_and!; [done| |done|done|].
  - clear -Hso Hv. induction Hso as [|[k v] l _ IH Hk]; csimpl; [constructor|]. constructor.
    + apply IH. intros; apply Hv; csimpl; by right.
    + apply Forall_fmap, Forall_forall. intros [k' v'] Hin. rewrite Forall_forall in Hk. specialize (Hk _ Hin).
      unfold tree_lt in Hk. cbn [fst] in Hk. rewrite !eav_infix in Hk; [done|..]; apply Hv; csimpl; [right|by left].
      apply list_elem_of_fmap. by exists (k', v').
  - intros fuel Hf. destruct (Hn fuel Hf) as (_ & Hy' & _).
    destruct (viewed_yields _ _ _ _ Hy' Hv) as (ts' & Ht' & E' & Hys).
    assert (ts' = ts) as <-; [|done]. rewrite <-E in E'. clear -E' Ht Ht'. revert ts Ht E'.
    induction Ht' as [|t ts' Ht1 _ IH]; intros [|t' ts] Ht E; try done. rewrite !fmap_cons in E.
    apply (inj2 cons) in E as [E1 E2]. apply Forall_cons in Ht as [Ht2 Ht]. f_equal; [by apply as_raw_inj|by apply IH].
Qed.

(** ** The properties *)

(** C16. Every set reached by the API, from [new] by inserts, archive inserts,
    unions, intersections and differences in any order, keeps the six indexes
    well formed, over the same valid rows and under one and the same receipt of
    archive owners; its rows are among the inserted ones.  Hypotheses, inside
    [built]: the digests cached in the two operands of each set operation do not
    collide ([ts_no_collision]), and one allocation is one receipt. *)
Theorem tribleset_invariant U s : built U s → ts_ok s ∧ ∀ k, k ∈ rows s → U k.
Proof. apply built_holds. Qed.

(** Inserting never panics and adds the row to all six indexes; an archive
    insert also keeps the owner of the archive alive, and nothing else; the
    rows of a set collected from tribles are theirs. *)
Theorem tribleset_insert_refines s p t : ts_ok s → trible_ok t →
  (∃ s', ts_insert sip rand_hash s p t = Some s' ∧ ts_ok s' ∧ rows s' = {[as_raw t]} ∪ rows s ∧
    owners_of s' = owners_of s) ∧
  (∀ arc owner, (owner < 2 ^ 64)%N →
    ∃ s', ts_insert_archive sip rand_hash arc s p t owner = Some s' ∧ ts_ok s' ∧
      rows s' = {[as_raw t]} ∪ rows s ∧ owners_of s' = {[owner]} ∪ owners_of s) ∧
  (∀ l, Forall (λ pt, trible_ok pt.2) l → ∃ s', from_iter sip rand_hash l = Some s' ∧ ts_ok s' ∧
    rows s' = list_to_set ((λ pt, as_raw pt.2) <$> l)).
Proof.
  intros Hs Ht. unfold owners_of. split_and!.
  - destruct (insert_holds s _ _ p t Hs Ht) as (s' & Hs' & Hh). exists s'.
    destruct (holds_ok _ _ _ Hh) as (? & ? & ->). by split_and!.
  - intros arc owner Ho. destruct (insert_archive_holds arc s _ _ p t owner Hs Ht Ho) as (s' & c & Hs' & Hh & Hset).
    exists s'. destruct (holds_ok _ _ _ Hh) as (? & ? & ->). by split_and!.
  - intros l Hl. unfold from_iter.
    assert (∀ s0 K, holds s0 K None → ∃ s', foldM (λ s pt, ts_insert sip rand_hash s pt.1 pt.2) s0 l = Some s' ∧
      holds s' (list_to_set ((λ pt, as_raw pt.2) <$> l) ∪ K) None) as Hf.
    { induction Hl as [|[q u] l Hu _ IH]; intros s0 K H0; cbn [foldM fst snd].
      - exists s0. split; [done|]. csimpl. by rewrite (left_id_L ∅ _).
      - destruct (insert_holds s0 K None q u H0 Hu) as (s1 & -> & H1). cbn [mbind option_bind].
        destruct (IH _ _ H1) as (s' & -> & H'). exists s'. split; [done|]. csimpl.
        replace (_ ∪ _ ∪ K) with (list_to_set ((λ pt : N * Trible, as_raw pt.2) <$> l) ∪ ({[as_raw u]} ∪ K) : gset (list N));
          [done|set_solver]. }
    destruct (Hf _ _ new_holds) as (s' & -> & Hh). exists s'. destruct (holds_ok _ _ _ Hh) as (? & -> & _).
    split_and!; [done..|]. by rewrite (right_id_L ∅ _).
Qed.

(** C17. Union, intersection and difference never panic and are the set
    operations on rows.  A union keeps the archive owners of both operands
    alive, a non-empty intersection those of both, a non-empty difference those
    of the left operand only; an empty intersection or difference drops all
    owners.  Hypotheses: the digests cached in the two operands do not collide
    ([ts_no_collision], about the subtrees of their six indexes only), and one
    allocation is one receipt. *)
Theorem tribleset_algebra_refines arc arcs arco s o : ts_ok s → ts_ok o →
  ts_no_collision s o → (arc = true → powners (eav s) = powners (eav o)) →
  (∃ r, ts_union sip rand_hash arc arcs arco s o = Some r ∧ ts_ok r ∧ rows r = rows s ∪ rows o ∧
    owners_of r = owners_of s ∪ owners_of o) ∧
  (∃ r, ts_intersect sip rand_hash arc arcs arco s o = Some r ∧ ts_ok r ∧ rows r = rows s ∩ rows o ∧
    owners_of r = if decide (rows r = ∅) then ∅ else owners_of s ∪ owners_of o) ∧
  (∃ r, ts_difference sip rand_hash arcs s o = Some r ∧ ts_ok r ∧ rows r = rows s ∖ rows o ∧
    owners_of r = if decide (rows r = ∅) then ∅ else owners_of s).
Proof.
  intros Hs Ho Hn Harc. unfold owners_of.
  assert (∀ K u, owner_set (kept K u) = if decide (K = ∅) then ∅ else owner_set u) as Hkept.
  { intros K u. unfold kept. by case_decide. }
  split_and!.
  - destruct (union_holds arc arcs arco s o _ _ _ _ Hs Ho Hn Harc) as (r & u & Hr & Hh & Hset).
    exists r. destruct (holds_ok _ _ _ Hh) as (? & ? & ->). by split_and!.
  - destruct (intersect_holds arc arcs arco s o _ _ _ _ Hs Ho Hn Harc) as (r & u & Hr & Hh & Hset).
    exists r. destruct (holds_ok _ _ _ Hh) as (? & E & ->). split_and!; [done..|]. by rewrite Hkept, Hset, E.
  - destruct (difference_holds arcs s o _ _ _ _ Hs Ho Hn) as (r & Hr & Hh).
    exists r. destruct (holds_ok _ _ _ Hh) as (? & E & ->). split_and!; [done..|]. by rewrite Hkept, E.
Qed.

(** Reading a set: [len] counts its rows, [contains] is membership, equal
    sets have equal fingerprints, and [==] decides equality of the row sets when
    the digests of the two do not collide. *)
Theorem tribleset_reads s o t blind : ts_ok s → ts_ok o → trible_ok t →
  ts_len sip s = N.of_nat (size (rows s)) ∧ (ts_is_empty sip s = true ↔ rows s = ∅) ∧
  ts_contains sip rand_hash s t = Some (bool_decide (as_raw t ∈ rows s)) ∧
  (rows s = rows o → ts_fingerprint sip blind s = ts_fingerprint sip blind o ∧ ts_eq sip s o = true) ∧
  (no_collision (H:=policy) tt tt (eav s) (eav o) → ts_eq sip s o = bool_decide (rows s = rows o)).
Proof.
  intros Hs Ho Ht. destruct (len_spec s Hs) as [H1 H2]. split_and!; [done..| | |].
  - by apply ts_contains_spec.
  - by apply fingerprint_spec.
  - by apply eq_spec.
Qed.
End spec.
