(* ===== verification/SimpleArchive.v ===== *)
(** * SimpleArchive: the canonical archive of a trible set

    Source: [triblespace-core/src/blob/encodings/simplearchive.rs].

    An archive is the rows of a set in ascending order, 64 bytes each.  Bytes
    are a base address and the bytes that lie there, since the decoder refuses a
    misaligned base.  [anybytes] and [rayon] are third-party: the checked view
    of bytes as rows and the parallel [try_for_each] are the classes
    [ByteViews] and [Rayon], with what their documentation promises as laws. *)

From S2P Require Import Prelude Lex OwnerCover KeySchema PatchHash XorDigest Patch Machine Iterators.
From S2P Require Import Trible TribleSet.

Open Scope nat_scope.

Inductive UnarchiveError :=
  | BadArchive
  | BadTrible
  | BadCanonicalizationRedundancy
  | BadCanonicalizationOrdering.
#[global] Instance UnarchiveError_eq_dec : EqDecision UnarchiveError.
Proof. solve_decision. Defined.

(** [Result<A, UnarchiveError>]. *)
Abbreviation result A := (UnarchiveError + A)%type.

(** ** What the libraries do *)

Record Bytes := mkBytes { base : N; data : list N }.

Inductive ViewError := Alignment | Size | Validity.

(** [slice::chunks]: the fuel is the length. *)
Fixpoint chunks_fuel {A} (fuel n : nat) (l : list A) : list (list A) :=
  match fuel, l with
  | _, [] => []
  | 0, _ :: _ => []
  | S fuel, _ :: _ => take n l :: chunks_fuel fuel n (drop n l)
  end.
Definition chunks {A} (n : nat) (l : list A) : list (list A) := chunks_fuel (length l) n l.

(** [slice::windows(2)]. *)
Definition windows2 {A} (l : list A) : list (A * A) := zip l (tail l).

Class ByteViews := {
  view_tribles : Bytes → ViewError + list Trible;
  view_raw_rows : Bytes → ViewError + list (list N);
}.

Definition fits (b : Bytes) : Prop := (base b mod 16 = 0)%N ∧ length (data b) mod TRIBLE_LEN = 0.

(** A view checks alignment and size, then the validity of every element;
    [view_raw_rows] is at a type without invalid bit patterns. *)
Class ByteViewsOk (W : ByteViews) : Prop := {
  view_misfit b : ¬ fits b →
    (view_tribles b = inl Alignment ∨ view_tribles b = inl Size) ∧
    (view_raw_rows b = inl Alignment ∨ view_raw_rows b = inl Size);
  view_fit b : fits b →
    view_tribles b = match mapM force_raw (chunks TRIBLE_LEN (data b)) with
      | Some ts => inr ts | None => inl Validity end ∧
    view_raw_rows b = inr (chunks TRIBLE_LEN (data b));
}.

(** [ParallelIterator::try_for_each] over the results of the items. *)
Class Rayon := {
  current_num_threads : nat;
  try_for_each : list (option UnarchiveError) → option UnarchiveError;
}.
Class RayonOk (R : Rayon) : Prop := {
  try_ok l : Forall (λ r, r = None) l → try_for_each l = None;
  try_err l e : Some e ∈ l → ∃ e', try_for_each l = Some e' ∧ Some e' ∈ l;
}.

(** ** The ordering check *)

Fixpoint check_increasing_from {St} (visit : nat → Trible → St → res St) (previous : option (list N))
    (index : nat) (rows : list Trible) (st : St) : res (St * option UnarchiveError) :=
  match rows with
  | [] => Some (st, None)
  | trible :: rows =>
      let row := as_raw trible in
      match
        match previous with
        | Some previous =>
            if decide (previous = row) then Some BadCanonicalizationRedundancy
            else if lex_lt row previous then Some BadCanonicalizationOrdering else None
        | None => None
        end
      with
      | Some e => Some (st, Some e)
      | None =>
          st ← visit index trible st;
          check_increasing_from visit (Some row) (S index) rows st
      end
  end.
Definition check_increasing {St} (rows : list Trible) (visit : nat → Trible → St → res St) (st : St)
    : res (St * option UnarchiveError) := check_increasing_from visit None 0 rows st.

(** [CanonicalTribles::from_tribles]: the rows themselves, checked. *)
Definition from_tribles (rows : list Trible) : res (result (list Trible)) :=
  '(_, e) ← check_increasing rows (λ _ _ u, Some u) tt;
  Some (match e with Some e => inl e | None => inr rows end).

Section archive.
Context `{W : ByteViews} `{R : Rayon}.

Definition rebased (bytes : Bytes) : Bytes :=
  match data bytes with [] => mkBytes 0 [] | _ => bytes end.

Definition view_rows (bytes : Bytes) : result (list Trible) :=
  match view_tribles (rebased bytes) with
  | inr rows => inr rows
  | inl (Alignment | Size) => inl BadArchive
  | inl Validity => inl BadTrible
  end.

Definition validate_with {St} (bytes : Bytes) (visit : nat → Trible → St → res St) (st : St)
    : res (St * result (list Trible)) :=
  match view_rows bytes with
  | inl e => Some (st, inl e)
  | inr rows =>
      '(st, e) ← check_increasing rows visit st;
      Some (st, match e with Some e => inl e | None => inr rows end)
  end.

Definition validate (bytes : Bytes) : res (result (list Trible)) :=
  '(_, r) ← validate_with bytes (λ _ _ u, Some u) tt; Some r.

(** *** The parallel validator *)

(** [unreachable!] at a validity error. *)
Definition view_aligned_rows (bytes : Bytes) : res (result (list (list N))) :=
  match view_raw_rows (rebased bytes) with
  | inr rows => Some (inr rows)
  | inl (Alignment | Size) => Some (inl BadArchive)
  | inl Validity => None
  end.

Definition run_rule (run : list (list N)) : result (list Trible) :=
  match mapM force_raw run with Some ts => inr ts | None => inl BadTrible end.

Definition offence (pair : list N * list N) : option UnarchiveError :=
  if decide (pair.1 = pair.2) then Some BadCanonicalizationRedundancy
  else if lex_lt pair.2 pair.1 then Some BadCanonicalizationOrdering else None.

(** The last and the first row of neighbouring runs; an empty run panics. *)
Definition check_seams (rows : list (list N)) (run_len : nat) : res (option UnarchiveError) :=
  foldM (λ found seam,
      match found with
      | Some e => Some (Some e)
      | None => x ← last seam.1; y ← head_of seam.2; Some (offence (x, y))
      end) None (windows2 (chunks run_len rows)).

Definition first_offence (rows : list (list N)) : option UnarchiveError :=
  head_of (omap offence (windows2 rows)).

Definition parallel_run_len (rows : nat) : nat :=
  let threads := current_num_threads `max` 1 in
  ((rows + threads - 1) / threads) `max` 1.

(** One worker: the row rule, then the ordering of the run, writing the image
    of each row to its slot. *)
Definition worker {T} (dflt : T) (map : Trible → T) (run : list (list N))
    : res (list T * option UnarchiveError) :=
  match run_rule run with
  | inl e => Some (replicate (length run) dflt, Some e)
  | inr ts => check_increasing ts (λ index trible out, arr_set out index (map trible))
      (replicate (length run) dflt)
  end.

Definition par_validate_map {T} (dflt : T) (bytes : Bytes) (map : Trible → T)
    : res (result (list Trible * list T)) :=
  rows ← view_aligned_rows bytes;
  match rows with
  | inl e => Some (inl e)
  | inr rows =>
      let run_len := parallel_run_len (length rows) in
      seams ← check_seams rows run_len;
      runs ← match seams with
        | Some e => Some (inl e)
        | None =>
            outs ← mapM (worker dflt map) (chunks run_len rows);
            Some (match try_for_each (snd <$> outs) with
                  | Some e => inl e
                  | None => inr (concat (fst <$> outs))
                  end)
        end;
      match runs with
      | inr mapped =>
          tribles ← mapM force_raw rows;
          Some (inr (tribles, mapped))
      | inl BadTrible => Some (inl BadTrible)
      | inl _ =>
          match try_for_each ((λ run, match run_rule run with inl e => Some e | inr _ => None end)
                  <$> chunks run_len rows) with
          | Some e => Some (inl e)
          | None => e ← first_offence rows; Some (inl e)
          end
      end
  end.
End archive.

(** ** Runs *)

Section chunks.
Context {A : Type}.
Implicit Types (l : list A) (n : nat).

Lemma chunks_fuel_spec fuel n l : 1 ≤ n → length l ≤ fuel →
  concat (chunks_fuel fuel n l) = l ∧ Forall (λ c, c ≠ []) (chunks_fuel fuel n l) ∧
  (length l mod n = 0 → Forall (λ c, length c = n) (chunks_fuel fuel n l)).
Proof.
  intros Hn. revert l. induction fuel as [|fuel IH]; intros [|x l] Hl; simpl in Hl; try lia;
    try (split_and!; [done|constructor|intros; constructor]).
  cbn [chunks_fuel]. destruct (IH (drop n (x :: l))) as (Hc & Hne & Hlen); [rewrite length_drop; simpl; lia|].
  split_and!.
  - simpl concat. rewrite Hc. apply take_drop.
  - constructor; [|done]. destruct n; [lia|done].
  - intros Hmod. assert (n ≤ length (x :: l)) as Hle.
    { destruct (decide (length (x :: l) < n)) as [Hlt|]; [|lia].
      rewrite Nat.mod_small in Hmod by done. simpl in Hmod. lia. }
    constructor; [rewrite length_take; lia|]. apply Hlen. rewrite length_drop.
    apply Nat.Div0.div_exact in Hmod. rewrite Hmod.
    replace (n * (length (x :: l) / n) - n) with ((length (x :: l) / n - 1) * n) by nia.
    apply Nat.Div0.mod_mul.
Qed.

Lemma chunks_concat n l : 1 ≤ n → concat (chunks n l) = l.
Proof. intros Hn. by apply chunks_fuel_spec. Qed.
Lemma chunks_nonempty n l : 1 ≤ n → Forall (λ c, c ≠ []) (chunks n l).
Proof. intros Hn. by apply chunks_fuel_spec. Qed.
Lemma chunks_length n l : 1 ≤ n → length l mod n = 0 → Forall (λ c, length c = n) (chunks n l).
Proof. intros Hn. by apply chunks_fuel_spec. Qed.
Lemma chunks_elem (P : A → Prop) n l c : 1 ≤ n → Forall P l → c ∈ chunks n l → Forall P c.
Proof.
  intros Hn Hl Hc. apply Forall_forall. intros x Hx. rewrite Forall_forall in Hl. apply Hl.
  rewrite <-(chunks_concat n l Hn). apply list_elem_of_In, in_concat. exists c. split; by apply list_elem_of_In.
Qed.
End chunks.

Lemma chunks_of_concat {A} n (ls : list (list A)) : 1 <= n → Forall (λ c, length c = n) ls → chunks n (concat ls) = ls.
Proof.
  intros Hn Hls. assert (∀ fuel, length (concat ls) <= fuel → chunks_fuel fuel n (concat ls) = ls) as Hf; [|by apply Hf].
  induction Hls as [|c ls Hc _ IH]; intros fuel Hf; [by destruct fuel|]. cbn [concat] in *. rewrite length_app in Hf.
  destruct fuel as [|fuel]; [lia|]. assert (∃ x l, c ++ concat ls = x :: l) as (x & l & E) by (destruct c; [simpl in *; lia|by eexists _, _]).
  cbn [chunks_fuel]. rewrite E. rewrite <- E. rewrite take_app_length', drop_app_length' by done. f_equal. apply IH. lia.
Qed.

Lemma mapM_concat {A B} (f : A → option B) (cs : list (list A)) :
  mapM f (concat cs) = (tss ← mapM (mapM f) cs; Some (concat tss)).
Proof.
  induction cs as [|c cs IH]; [done|]. simpl concat. rewrite mapM_app, IH. simpl.
  destruct (mapM f c); simpl; [|done]. by destruct (mapM (mapM f) cs).
Qed.

(** ** The order of rows *)

Section order.
Implicit Types (l : list (list N)).

Definition errs (e : UnarchiveError) : Prop := e ≠ BadArchive ∧ e ≠ BadTrible.

Lemma offence_errs p e : offence p = Some e → errs e.
Proof. unfold offence, errs. repeat case_match; naive_solver. Qed.

Lemma offence_none x y : offence (x, y) = None ↔ lex_lt x y = true.
Proof.
  unfold offence. simpl. case_decide as E; [subst; by rewrite lex_lt_irrefl|].
  unfold lex_lt. pose proof (lex_cmp_spec x y) as Hc. destruct (lex_cmp x y); [done|..]; destruct Hc as [-> ->]; done.
Qed.

Lemma first_offence_cons x y l : first_offence (x :: y :: l) =
  match offence (x, y) with Some e => Some e | None => first_offence (y :: l) end.
Proof. unfold first_offence, windows2. simpl. by destruct (offence (x, y)). Qed.

Lemma first_offence_sorted l : first_offence l = None ↔ lex_sorted l.
Proof.
  split.
  - intros Hf. apply Sorted.Sorted_StronglySorted; [apply lex_lt_trans'|].
    induction l as [|x l IH]; [constructor|]. destruct l as [|y l]; [repeat constructor|].
    rewrite first_offence_cons in Hf. destruct (offence (x, y)) eqn:E; [done|]. constructor; [by apply IH|].
    constructor. by apply offence_none.
  - induction 1 as [|x l Hs IH Hx]; [done|]. destruct l as [|y l]; [done|]. rewrite first_offence_cons.
    apply Forall_cons in Hx as [Hx _]. apply offence_none in Hx. by rewrite Hx.
Qed.

(** The first offence of two runs: in the first, at the seam, in the second. *)
Lemma first_offence_app l l' x y : last l = Some x → head_of l' = Some y →
  first_offence (l ++ l') = None ↔ first_offence l = None ∧ offence (x, y) = None ∧ first_offence l' = None.
Proof.
  intros Hx Hy. destruct l' as [|z l']; [done|]. injection Hy as ->.
  induction l as [|a l IH]; [done|]. destruct l as [|b l].
  - injection Hx as ->. simpl app. rewrite first_offence_cons.
    change (first_offence [x]) with (@None UnarchiveError). destruct (offence (x, y)); naive_solver.
  - simpl app in *. rewrite !first_offence_cons. destruct (offence (a, b)); [naive_solver|]. by apply IH.
Qed.

Lemma first_offence_errs l e : first_offence l = Some e → errs e.
Proof.
  unfold first_offence. intros He. assert (e ∈ omap offence (windows2 l)) as Hin.
  { destruct (omap _ _); [done|]. injection He as ->. by left. }
  apply list_elem_of_omap in Hin as (p & _ & Hp). by eapply offence_errs.
Qed.

(** The seams and the interiors of runs decide the order of the whole. *)
Lemma seams_spec (cs : list (list (list N))) : Forall (λ c, c ≠ []) cs →
  ∃ o, foldM (λ found seam,
      match found with
      | Some e => Some (Some e)
      | None => x ← last seam.1; y ← head_of seam.2; Some (offence (x, y))
      end) None (windows2 cs) = Some o ∧ (∀ e, o = Some e → errs e) ∧
    (first_offence (concat cs) = None ↔ o = None ∧ Forall (λ c, first_offence c = None) cs).
Proof.
  assert (∀ e ps, foldM (λ (found : option UnarchiveError) (seam : list (list N) * list (list N)),
      match found with
      | Some e => Some (Some e)
      | None => x ← last seam.1; y ← head_of seam.2; Some (offence (x, y))
      end) (Some e) ps = Some (Some e)) as Hstop by (intros e ps; by induction ps).
  induction 1 as [|c cs Hc Hcs IH]; [exists None; split_and!; [done..|]; split; [by split|done]|].
  destruct cs as [|c' cs].
  { exists None. split_and!; [done..|]. simpl concat. rewrite app_nil_r, Forall_singleton. tauto. }
  destruct IH as (o & Ho & Herr & Hiff). apply Forall_cons in Hcs as [Hc' _].
  destruct (last c) as [x|] eqn:Hx; [|by apply last_None in Hx].
  destruct c' as [|y c']; [done|].
  change (windows2 (c :: (y :: c') :: cs)) with ((c, y :: c') :: windows2 ((y :: c') :: cs)).
  cbn [foldM fst snd]. rewrite Hx. cbn [mbind option_bind head_of].
  change (concat (c :: (y :: c') :: cs)) with (c ++ concat ((y :: c') :: cs)).
  assert (first_offence (c ++ concat ((y :: c') :: cs)) = None ↔
    first_offence c = None ∧ offence (x, y) = None ∧ first_offence (concat ((y :: c') :: cs)) = None) as Happ
    by by apply first_offence_app.
  destruct (offence (x, y)) as [e|] eqn:E.
  - exists (Some e). split_and!; [apply Hstop|intros ? [= <-]; by eapply offence_errs|]. rewrite Happ. naive_solver.
  - exists o. split_and!; [done..|]. rewrite Happ, Hiff, (Forall_cons _ c). tauto.
Qed.
End order.

(** ** The one pass over the rows *)

Definition scan (previous : option (list N)) (l : list (list N)) : option UnarchiveError :=
  first_offence (option_list previous ++ l).

Lemma scan_cons previous row l : scan previous (row :: l) =
  match (match previous with Some p => offence (p, row) | None => None end) with
  | Some e => Some e
  | None => scan (Some row) l
  end.
Proof. destruct previous as [p|]; [|done]. unfold scan. simpl app. apply first_offence_cons. Qed.

(** What [visit] has seen: the rows before the first offence, in order. *)
Lemma check_increasing_from_spec {St} (visit : nat → Trible → St → res St) previous index rows st :
  ∃ n, (match scan previous (as_raw <$> rows) with Some _ => n < length rows | None => n = length rows end) ∧
    check_increasing_from visit previous index rows st =
      (st' ← foldM (λ st it, visit it.1 it.2 st) st (zip (seq index n) (take n rows));
       Some (st', scan previous (as_raw <$> rows))).
Proof.
  revert previous index st. induction rows as [|t rows IH]; intros previous index st.
  { exists 0. destruct previous; by split. }
  rewrite fmap_cons, scan_cons. cbn [check_increasing_from].
  assert (match previous with
    | Some previous => if decide (previous = as_raw t) then Some BadCanonicalizationRedundancy
        else if lex_lt (as_raw t) previous then Some BadCanonicalizationOrdering else None
    | None => None
    end = match previous with Some p => offence (p, as_raw t) | None => None end) as -> by by destruct previous.
  destruct (match previous with Some p => _ | None => None end) as [e|].
  - exists 0. split; [simpl; lia|done].
  - destruct (visit index t st) as [st1|] eqn:E.
    + destruct (IH (Some (as_raw t)) (S index) st1) as (n & Hn & Heq). exists (S n). split.
      * destruct (scan _ _); simpl; lia.
      * cbn [mbind option_bind seq take zip zip_with foldM fst snd]. rewrite E. apply Heq.
    + destruct (IH (Some (as_raw t)) (S index) st) as (n & Hn & _). exists (S n). split.
      * destruct (scan _ _); simpl; lia.
      * cbn [mbind option_bind seq take zip zip_with foldM fst snd]. by rewrite E.
Qed.

Lemma check_increasing_spec {St} (visit : nat → Trible → St → res St) rows st :
  ∃ n, (match first_offence (as_raw <$> rows) with Some _ => n < length rows | None => n = length rows end) ∧
    check_increasing rows visit st =
      (st' ← foldM (λ st it, visit it.1 it.2 st) st (zip (seq 0 n) (take n rows));
       Some (st', first_offence (as_raw <$> rows))).
Proof. apply (check_increasing_from_spec visit None 0). Qed.

Lemma foldM_unit {A} (l : list A) : foldM (λ (u : unit) (_ : A), Some u) tt l = Some tt.
Proof. by induction l. Qed.

Lemma check_increasing_unit rows :
  check_increasing rows (λ _ _ (u : unit), Some u) tt = Some (tt, first_offence (as_raw <$> rows)).
Proof. destruct (check_increasing_spec (λ _ _ (u : unit), Some u) rows tt) as (n & _ & ->). by rewrite foldM_unit. Qed.

(** Filling the slots of a run, one per row. *)
Lemma fill_slots {T} (map : Trible → T) (dflt : T) rows n : n ≤ length rows →
  foldM (λ out it, arr_set out it.1 (map it.2)) (replicate (length rows) dflt) (zip (seq 0 n) (take n rows)) =
    Some ((map <$> take n rows) ++ replicate (length rows - n) dflt).
Proof.
  intros Hn.
  assert (∀ i pre (l : list Trible) k, length pre = i → foldM (λ out it, arr_set out it.1 (map it.2))
    (pre ++ replicate (length l + k) dflt) (zip (seq i (length l)) l) =
    Some (pre ++ (map <$> l) ++ replicate k dflt)) as Hf.
  { intros i pre l. revert i pre. induction l as [|t l IH]; intros i pre k Hl; [done|].
    cbn [length seq zip zip_with foldM fst snd Nat.add]. rewrite arr_set_Some.
    2:{ rewrite length_app. simpl. lia. }
    cbn [mbind option_bind]. cbn [replicate]. rewrite insert_app_r_alt by lia. rewrite Hl, Nat.sub_diag. simpl.
    change (map t :: replicate (length l + k) dflt) with ([map t] ++ replicate (length l + k) dflt).
    rewrite (assoc_L (++)). rewrite IH by (rewrite length_app; simpl; lia). by rewrite <-(assoc_L (++)). }
  specialize (Hf 0 [] (take n rows) (length rows - n) eq_refl). rewrite length_take, Nat.min_l in Hf by done.
  replace (n + (length rows - n)) with (length rows) in Hf by lia. exact Hf.
Qed.

(** ** The validators *)

Section spec.
Context `{W : ByteViews, !ByteViewsOk W} `{R : Rayon, !RayonOk R}.

(** Real bytes. *)
Definition bytes_real (b : Bytes) : Prop := Forall (λ x, (x < 256)%N) (data b).

(** What decides the outcome of every validator, in the order of the checks. *)
Definition verdict (b : Bytes) : result (list Trible) :=
  if decide (data b = [] ∨ fits b) then
    match mapM force_raw (chunks TRIBLE_LEN (data b)) with
    | None => inl BadTrible
    | Some ts =>
        match first_offence (chunks TRIBLE_LEN (data b)) with
        | Some e => inl e
        | None => inr ts
        end
    end
  else inl BadArchive.

Lemma force_rows_spec (l : list (list N)) ts : Forall (bytes_ok TRIBLE_LEN) l → mapM force_raw l = Some ts →
  as_raw <$> ts = l ∧ Forall trible_ok ts.
Proof.
  intros Hl Hm. apply mapM_Some_1 in Hm. induction Hm as [|k t l ts E _ IH]; [by split|].
  apply Forall_cons in Hl as [Hk Hl]. pose proof (force_raw_spec k Hk) as Hs. rewrite E in Hs.
  destruct Hs as (Ht & Er & _). destruct (IH Hl) as [IH1 IH2]. split; [csimpl; by f_equal|by constructor].
Qed.

Lemma rows_real b : bytes_real b → length (data b) mod TRIBLE_LEN = 0 →
  Forall (bytes_ok TRIBLE_LEN) (chunks TRIBLE_LEN (data b)).
Proof.
  intros Hb Hmod. assert (1 ≤ TRIBLE_LEN) as H1 by (unfold TRIBLE_LEN; lia).
  pose proof (chunks_length TRIBLE_LEN (data b) H1 Hmod) as Hl. apply Forall_forall. intros c Hc. split.
  - rewrite Forall_forall in Hl. by apply Hl.
  - by eapply chunks_elem.
Qed.

Lemma rebased_fits b : (data b = [] ∨ fits b) ↔ fits (rebased b).
Proof.
  unfold rebased, fits. destruct (data b) as [|x l] eqn:E; simpl; [naive_solver|]. rewrite E. naive_solver.
Qed.

Lemma rebased_data b : data (rebased b) = data b.
Proof. unfold rebased. by destruct (data b) eqn:E. Qed.

Lemma fits_mod b : data b = [] ∨ fits b → length (data b) mod TRIBLE_LEN = 0.
Proof. intros [E|[_ E]]; [by rewrite E|exact E]. Qed.

Lemma view_rows_spec b :
  view_rows b = if decide (data b = [] ∨ fits b) then
    match mapM force_raw (chunks TRIBLE_LEN (data b)) with Some ts => inr ts | None => inl BadTrible end
  else inl BadArchive.
Proof.
  unfold view_rows. case_decide as Hf.
  - apply rebased_fits, view_fit in Hf as [-> _]. rewrite rebased_data. by destruct (mapM _ _).
  - rewrite rebased_fits in Hf. by destruct (view_misfit _ Hf) as [[-> | ->] _].
Qed.

Lemma view_aligned_spec b :
  view_aligned_rows b = Some (if decide (data b = [] ∨ fits b) then inr (chunks TRIBLE_LEN (data b)) else inl BadArchive).
Proof.
  unfold view_aligned_rows. case_decide as Hf.
  - apply rebased_fits, view_fit in Hf as [_ ->]. by rewrite rebased_data.
  - rewrite rebased_fits in Hf. by destruct (view_misfit _ Hf) as [_ [-> | ->]].
Qed.

(** The visits of a validation: all rows of a canonical archive, a proper
    prefix of an offending one, none where the rows cannot be viewed. *)
Lemma validate_with_spec {St} (visit : nat → Trible → St → res St) b st : bytes_real b →
  match verdict b with
  | inr ts =>
      validate_with b visit st =
        (st' ← foldM (λ st it, visit it.1 it.2 st) st (zip (seq 0 (length ts)) ts); Some (st', inr ts))
  | inl e =>
      ∃ ts n, (n < length ts ∨ ts = []) ∧ Forall trible_ok ts ∧
      validate_with b visit st =
        (st' ← foldM (λ st it, visit it.1 it.2 st) st (zip (seq 0 n) (take n ts)); Some (st', inl e))
  end.
Proof.
  intros Hb. unfold validate_with, verdict. rewrite view_rows_spec. case_decide as Hf.
  2:{ exists [], 0. split_and!; [by right|constructor|done]. }
  pose proof (rows_real b Hb (fits_mod b Hf)) as Hr.
  destruct (mapM force_raw _) as [ts|] eqn:Hm; [|exists [], 0; split_and!; [by right|constructor|done]].
  destruct (force_rows_spec _ _ Hr Hm) as [E Ht].
  destruct (check_increasing_spec visit ts st) as (n & Hn & ->). rewrite E in *.
  destruct (first_offence _) as [e|]; cbn [mbind option_bind].
  - exists ts, n. split_and!; [by left|done|]. by destruct (foldM _ _ _).
  - subst n. rewrite take_ge by done. by destruct (foldM _ _ _).
Qed.

Lemma validate_spec b : bytes_real b → validate b = Some (verdict b).
Proof.
  intros Hb. unfold validate. pose proof (validate_with_spec (λ _ _ (u : unit), Some u) b tt Hb) as Hv.
  destruct (verdict b) as [e|ts].
  - destruct Hv as (ts & n & _ & _ & ->). by rewrite foldM_unit.
  - rewrite Hv. by rewrite foldM_unit.
Qed.

Lemma verdict_spec b : bytes_real b →
  match verdict b with
  | inr ts => Forall trible_ok ts ∧ data b = concat (as_raw <$> ts) ∧ lex_sorted (as_raw <$> ts)
  | inl e => True
  end.
Proof.
  intros Hb. unfold verdict. case_decide as Hf; [|done].
  pose proof (rows_real b Hb (fits_mod b Hf)) as Hr. destruct (mapM force_raw _) as [ts|] eqn:Hm; [|done].
  destruct (force_rows_spec _ _ Hr Hm) as [E Ht]. destruct (first_offence _) eqn:Ho; [done|].
  split_and!; [done| |].
  - rewrite E. symmetry. apply chunks_concat. unfold TRIBLE_LEN. lia.
  - rewrite E. by apply first_offence_sorted.
Qed.

(** *** The parallel validator *)

Lemma run_rule_none run : (match run_rule run with inl e => Some e | inr _ => None end) =
  match mapM force_raw run with Some _ => None | None => Some BadTrible end.
Proof. unfold run_rule. by destruct (mapM _ _). Qed.

Lemma worker_spec {T} (dflt : T) (map : Trible → T) run : Forall (bytes_ok TRIBLE_LEN) run →
  ∃ out, worker dflt map run = Some (out, match mapM force_raw run with
      | Some _ => first_offence run | None => Some BadTrible end) ∧
    ∀ ts, mapM force_raw run = Some ts → first_offence run = None → out = map <$> ts.
Proof.
  intros Hr. unfold worker, run_rule. destruct (mapM force_raw run) as [ts|] eqn:Hm; [|by eexists].
  destruct (force_rows_spec _ _ Hr Hm) as [E _].
  destruct (check_increasing_spec (λ index trible out, arr_set out index (map trible)) ts
    (replicate (length run) dflt)) as (n & Hn & ->).
  assert (length run = length ts) as -> by (by rewrite <-E, length_fmap). rewrite E in *.
  rewrite fill_slots by (destruct (first_offence run); lia). cbn [mbind option_bind].
  eexists. split; [done|]. intros ts' [= <-] Ho. rewrite Ho in Hn. subst n.
  rewrite Nat.sub_diag, take_ge by done. apply app_nil_r.
Qed.

Lemma workers_spec {T} (dflt : T) (map : Trible → T) (cs : list (list (list N))) :
  Forall (Forall (bytes_ok TRIBLE_LEN)) cs →
  ∃ outs, mapM (worker dflt map) cs = Some outs ∧
    snd <$> outs = (λ run, match mapM force_raw run with
      | Some _ => first_offence run | None => Some BadTrible end) <$> cs ∧
    ∀ tss, mapM (mapM force_raw) cs = Some tss → Forall (λ c, first_offence c = None) cs →
      concat (fst <$> outs) = map <$> concat tss.
Proof.
  induction 1 as [|c cs Hc _ IH]; [exists []; split_and!; [done..|]; by intros tss [= <-] _|].
  destruct IH as (outs & Ho & Hs & Hm). destruct (worker_spec dflt map c Hc) as (out & Hw & Hout).
  exists ((out, match mapM force_raw c with Some _ => first_offence c | None => Some BadTrible end) :: outs).
  split_and!.
  - cbn [mapM]. by rewrite Hw, Ho.
  - csimpl. by f_equal.
  - intros tss. cbn [mapM]. destruct (mapM force_raw c) as [ts|] eqn:E; cbn [mbind option_bind]; [|done].
    destruct (mapM (mapM force_raw) cs) as [tss'|]; cbn [mbind option_bind]; [|done].
    intros [= <-] [Hf Hfs]%Forall_cons. csimpl. rewrite fmap_app. rewrite (Hout ts) by done.
    by rewrite (Hm tss').
Qed.

Lemma mapM_None_elem {A B} (f : A → option B) l : mapM f l = None → ∃ x, x ∈ l ∧ f x = None.
Proof.
  induction l as [|x l IH]; [done|]. cbn [mapM]. destruct (f x) eqn:E; cbn [mbind option_bind].
  - destruct (mapM f l); cbn [mbind option_bind]; [done|]. intros _. destruct IH as (y & Hy & ?); [done|].
    exists y. split; [by right|done].
  - intros _. exists x. split; [by left|done].
Qed.

Lemma parallel_run_len_pos n : 1 ≤ parallel_run_len n.
Proof. unfold parallel_run_len. lia. Qed.

Lemma rules_ok (cs : list (list (list N))) tss : mapM (mapM force_raw) cs = Some tss →
  try_for_each ((λ run, match run_rule run with inl e => Some e | inr _ => None end) <$> cs) = None.
Proof.
  intros Hm. apply try_ok. rewrite Forall_fmap. apply mapM_Some_1 in Hm.
  induction Hm as [|c ts cs tss Hc _ IH]; constructor; [|done]. simpl. by rewrite run_rule_none, Hc.
Qed.

Lemma rules_bad (cs : list (list (list N))) : mapM (mapM force_raw) cs = None →
  try_for_each ((λ run, match run_rule run with inl e => Some e | inr _ => None end) <$> cs) = Some BadTrible.
Proof.
  intros (run & Hin & Hr)%mapM_None_elem.
  destruct (try_err ((λ run, match run_rule run with inl e => Some e | inr _ => None end) <$> cs) BadTrible)
    as (e & -> & He).
  - apply list_elem_of_fmap. exists run. by rewrite run_rule_none, Hr.
  - apply list_elem_of_fmap in He as (run' & He & _). rewrite run_rule_none in He. destruct (mapM _ run'); congruence.
Qed.

(** The worker that fails first reports the row rule, or an order. *)
Lemma workers_fail {T} (dflt : T) (map : Trible → T) (cs : list (list (list N))) outs e :
  snd <$> outs = (λ run, match mapM force_raw run with
      | Some _ => first_offence run | None => Some BadTrible end) <$> cs →
  mapM (worker dflt map) cs = Some outs → is_Some (mapM (mapM force_raw) cs) →
  Some e ∈ snd <$> outs → errs e.
Proof.
  intros -> _ [tss Hm] He. apply list_elem_of_fmap in He as (run & He & Hin).
  apply list_elem_of_lookup in Hin as [i Hi].
  apply mapM_Some_1 in Hm. destruct (Forall2_lookup_l _ _ _ _ _ Hm Hi) as (ts & _ & Hts). rewrite Hts in He.
  by eapply first_offence_errs.
Qed.

Lemma par_validate_spec {T} (dflt : T) (map : Trible → T) b : bytes_real b →
  par_validate_map dflt b map = Some (match verdict b with inl e => inl e | inr ts => inr (ts, map <$> ts) end).
Proof.
  intros Hb. unfold par_validate_map, verdict. rewrite view_aligned_spec. cbn [mbind option_bind].
  case_decide as Hf; [|done]. pose proof (rows_real b Hb (fits_mod b Hf)) as Hr.
  set (raws := chunks TRIBLE_LEN (data b)) in *. pose proof (parallel_run_len_pos (length raws)) as Hn.
  unfold check_seams. set (n := parallel_run_len (length raws)) in *.
  pose proof (chunks_concat n raws Hn) as Hcat.
  destruct (seams_spec (chunks n raws) (chunks_nonempty n raws Hn)) as (seams & -> & Herr & Hiff).
  cbn [mbind option_bind]. rewrite Hcat in Hiff.
  destruct (workers_spec dflt map (chunks n raws)) as (outs & Hw & Hs & Hout).
  { apply Forall_forall. intros c Hc. by eapply chunks_elem. }
  rewrite Hw. cbn [mbind option_bind].
  assert (mapM force_raw raws = (tss ← mapM (mapM force_raw) (chunks n raws); Some (concat tss))) as ->
    by (by rewrite <-mapM_concat, Hcat).
  destruct (mapM (mapM force_raw) (chunks n raws)) as [tss|] eqn:Hm; cbn [mbind option_bind].
  - rewrite (rules_ok _ tss Hm). destruct (first_offence raws) as [e|] eqn:Ho; cbn [mbind option_bind].
    + destruct seams as [e0|]; cbn [mbind option_bind].
      { destruct (Herr e0 eq_refl) as [_ H0]. by destruct e0. }
      destruct (decide (Forall (λ r, r = None) (snd <$> outs))) as [Hall|Hnot].
      * exfalso. assert (Some e = None) as E; [|done]. apply Hiff. split; [done|]. rewrite Hs, Forall_fmap in Hall.
        apply mapM_Some_1 in Hm. clear -Hall Hm. induction Hm as [|c ts cs tss Hc _ IH]; [done|].
        apply Forall_cons in Hall as [H1 H2]. constructor; [|by apply IH]. simpl in H1. by rewrite Hc in H1.
      * apply not_Forall_Exists in Hnot; [|apply _]. apply Exists_exists in Hnot as ([e1|] & Hin & Hne); [|by destruct Hne].
        destruct (try_err _ _ Hin) as (e' & -> & He'). destruct (workers_fail dflt map _ _ e' Hs Hw) as [_ H0];
          [by rewrite Hm|done|]. by destruct e'.
    + destruct (proj1 Hiff eq_refl) as [-> Hall]. cbn [mbind option_bind].
      rewrite try_ok.
      * cbn [mbind option_bind]. by rewrite (Hout tss).
      * rewrite Hs, Forall_fmap. apply mapM_Some_1 in Hm. clear -Hall Hm.
        induction Hm as [|c ts cs tss Hc _ IH]; [constructor|]. apply Forall_cons in Hall as [H1 H2].
        constructor; [simpl; by rewrite Hc|by apply IH].
  - rewrite (rules_bad _ Hm). destruct seams as [e0|]; cbn [mbind option_bind]; [by destruct e0|].
    pose proof Hm as (run & Hin & Hrun)%mapM_None_elem.
    destruct (try_err (snd <$> outs) BadTrible) as (e' & -> & _); [|by destruct e'].
    rewrite Hs. apply list_elem_of_fmap. exists run. by rewrite Hrun.
Qed.

(** ** The properties *)

Lemma first_offence_position l e : first_offence l = Some e →
  ∃ i x y, l !! i = Some x ∧ l !! S i = Some y ∧ offence (x, y) = Some e ∧ lex_sorted (take (S i) l).
Proof.
  induction l as [|x l IH]; [done|]. destruct l as [|y l]; [done|]. rewrite first_offence_cons.
  destruct (offence (x, y)) as [e'|] eqn:E.
  - intros [= ->]. exists 0, x, y. split_and!; [done..|]. simpl. repeat constructor.
  - intros (i & x' & y' & Hx & Hy & Ho & Hs)%IH. exists (S i), x', y'. split_and!; [done..|].
    apply first_offence_sorted. apply first_offence_sorted in Hs. cbn [take] in *. by rewrite first_offence_cons, E.
Qed.

(** C19. Validation never panics and reports the first check that fails, in the
    documented order: the shape of the bytes, then the row rule over all rows,
    then the first pair of neighbours that is not ascending; otherwise the
    archive's rows are the tribles of the result, strictly ascending. *)
Theorem validate_errors b : bytes_real b → ∃ r, validate b = Some r ∧
  let raws := chunks TRIBLE_LEN (data b) in
  match r with
  | inl BadArchive => data b ≠ [] ∧ ¬ fits b
  | inl BadTrible => (data b = [] ∨ fits b) ∧ ∃ row, row ∈ raws ∧ ¬ row_rule row
  | inl BadCanonicalizationRedundancy => (data b = [] ∨ fits b) ∧ Forall row_rule raws ∧
      ∃ i x, raws !! i = Some x ∧ raws !! S i = Some x ∧ lex_sorted (take (S i) raws)
  | inl BadCanonicalizationOrdering => (data b = [] ∨ fits b) ∧ Forall row_rule raws ∧
      ∃ i x y, raws !! i = Some x ∧ raws !! S i = Some y ∧ lex_lt y x = true ∧ lex_sorted (take (S i) raws)
  | inr ts => (data b = [] ∨ fits b) ∧ as_raw <$> ts = raws ∧ Forall trible_ok ts ∧ lex_sorted raws
  end.
Proof.
  intros Hb. rewrite validate_spec by done. eexists. split; [done|]. cbn zeta. unfold verdict.
  case_decide as Hf; [|naive_solver]. pose proof (rows_real b Hb (fits_mod b Hf)) as Hr.
  set (raws := chunks TRIBLE_LEN (data b)) in *. destruct (mapM force_raw raws) as [ts|] eqn:Hm.
  - destruct (force_rows_spec _ _ Hr Hm) as [E Ht].
    assert (Forall row_rule raws) as Hrule.
    { rewrite <-E. apply Forall_fmap. eapply Forall_impl; [exact Ht|]. intros t. apply as_raw_rule. }
    destruct (first_offence raws) as [e|] eqn:Ho; [|split_and!; [done..|by apply first_offence_sorted]].
    destruct (first_offence_position _ _ Ho) as (i & x & y & Hx & Hy & Hoff & Hs).
    unfold offence in Hoff. simpl in Hoff. case_decide as Exy; [injection Hoff as <-; subst y; naive_solver|].
    destruct (lex_lt y x) eqn:Hlt; [injection Hoff as <-|done]. split_and!; [done..|]. by exists i, x, y.
  - apply mapM_None_elem in Hm as (row & Hin & Hrow). split; [done|]. exists row. split; [done|].
    rewrite Forall_forall in Hr. pose proof (force_raw_spec row (Hr row Hin)) as Hs. by rewrite Hrow in Hs.
Qed.

(** C20. The parallel validator, for every number of threads and whichever
    worker is heard first, returns what the serial one returns: the same error,
    or the same rows with their images in archive order. *)
Theorem par_validate_serial {T} (dflt : T) (map : Trible → T) b : bytes_real b →
  ∃ r, validate b = Some r ∧
    par_validate_map dflt b map = Some (match r with inl e => inl e | inr ts => inr (ts, map <$> ts) end).
Proof. intros Hb. exists (verdict b). split; [by apply validate_spec|by apply par_validate_spec]. Qed.
End spec.
