(* ===== verification/Unarchive.v ===== *)
(** * Unarchive: trible sets to archives and back

    Source: [triblespace-core/src/blob/encodings/simplearchive.rs]
    ([encode_rows], [CanonicalTribles::from_set], [serial_unarchive]).

    The encoder collects the ordered iterator of the set; the decoder inserts
    each row as soon as it has passed the ordering check.  A trible of an
    archive-backed decode lies in the archive itself, 64 bytes after its
    predecessor. *)

From S2P Require Import Prelude Lex OwnerCover KeySchema PatchHash XorDigest Patch Machine Iterators.
From S2P Require Import Trible TribleSet SimpleArchive.

Open Scope nat_scope.

(** [Extend] from an iterator. *)
Fixpoint collect {S A} (fuel : nat) (next : S → res (option A * S)) (s : S) : res (list A) :=
  match fuel with
  | 0 => None
  | Datatypes.S fuel =>
      '(o, s) ← next s;
      match o with
      | Some x => l ← collect fuel next s; Some (x :: l)
      | None => Some []
      end
  end.

Section ops.
Context (sip : list N → N) (rand_hash : N → N) `{W : ByteViews}.

(** The rows in a fresh vector at [alloc]. *)
Definition ordered_rows (fuel : nat) (alloc : N) (source : TribleSet) : res Bytes :=
  st ← ts_iter_ordered sip source;
  tribles ← collect fuel (ts_ordered_next sip fuel) st;
  Some (mkBytes alloc (concat (as_raw <$> tribles))).

(** [encode_rows], and [encode] of a set; a blob is its bytes. *)
Definition encode_rows (fuel : nat) (alloc : N) (source : TribleSet) : res Bytes :=
  ordered_rows fuel alloc source.

(** [CanonicalTribles::from_set]: the [expect] on the view, and the debug
    assertion on the order. *)
Definition from_set (fuel : nat) (alloc : N) (set : TribleSet) : res (list Trible) :=
  bytes ← ordered_rows fuel alloc set;
  rows ← match view_rows bytes with inr rows => Some rows | inl _ => None end;
  '(_, e) ← check_increasing rows (λ _ _ u, Some u) tt;
  _ ← massert (match e with None => true | Some _ => false end);
  Some rows.

Definition archive_owner (owner : N) (archive_backed : bool) : option N :=
  if archive_backed then Some owner else None.

Definition insert_row (arc : nat → bool) (p : N) (set : TribleSet) (trible : Trible) (owner : option N)
    : res TribleSet :=
  match owner with
  | Some owner => ts_insert_archive sip rand_hash arc set p trible owner
  | None => ts_insert sip rand_hash set p trible
  end.

(** Row [i] lies in the archive, or is copied to a heap leaf at [heap i];
    [arcs i] answers the pointer comparisons of its insertion. *)
Definition serial_unarchive (arcs : nat → nat → bool) (heap : nat → N) (owner : N) (bytes : Bytes)
    (archive_backed : bool) : res (result TribleSet) :=
  let owner := archive_owner owner archive_backed in
  '(tribles, r) ← validate_with bytes (λ i trible tribles,
      insert_row (arcs i) (if archive_backed then base bytes + 64 * N.of_nat i else heap i)%N
        tribles trible owner) (ts_new sip);
  Some (match r with inl e => inl e | inr _ => inr tribles end).
End ops.

Lemma yields_collect {S A} hint (next : S → res (option A * S)) s l fuel :
  yields hint next s l → length l < fuel → collect fuel next s = Some l.
Proof.
  intros Hy. revert fuel. induction Hy as [s s' H1 _ _|s x s' l Hn _ _ IH]; intros [|fuel] Hf; simpl in Hf; try lia.
  - cbn [collect]. by rewrite H1.
  - cbn [collect]. rewrite Hn. cbn [mbind option_bind]. by rewrite IH by lia.
Qed.

Section spec.
Context (sip : list N → N) (rand_hash : N → N) `{W : ByteViews, !ByteViewsOk W}.
Implicit Types (s : TribleSet).
Abbreviation ts_ok := (ts_ok sip rand_hash).
Abbreviation rows := (TribleSet.rows sip).
Abbreviation holds := (holds sip rand_hash).

Lemma ordered_rows_spec s alloc : ts_ok s → (ts_len sip s < 2 ^ 64)%N →
  ∃ ts n, Forall trible_ok ts ∧ lex_sorted (as_raw <$> ts) ∧ (∀ k, k ∈ as_raw <$> ts ↔ k ∈ rows s) ∧
    ∀ fuel, n ≤ fuel → ordered_rows sip fuel alloc s = Some (mkBytes alloc (concat (as_raw <$> ts))).
Proof.
  intros Hs Hlen. destruct (iter_ordered_holds sip rand_hash s Hs Hlen) as (ts & st & n & Ht & Hso & Hin & Hst & Hn).
  exists ts, (n `max` S (length ts)). split_and!; [done..|]. intros fuel Hf. unfold ordered_rows. rewrite Hst.
  cbn [mbind option_bind]. rewrite (yields_collect exact_hint _ _ ts) by (try apply Hn; lia). done.
Qed.

(** The bytes of sorted tribles, as the validators see them. *)
Lemma chunks_rows (ts : list Trible) : Forall trible_ok ts →
  chunks TRIBLE_LEN (concat (as_raw <$> ts)) = as_raw <$> ts.
Proof.
  intros Ht. assert (∀ fuel, length (concat (as_raw <$> ts)) ≤ fuel →
    chunks_fuel fuel TRIBLE_LEN (concat (as_raw <$> ts)) = as_raw <$> ts) as Hf; [|by apply Hf].
  induction Ht as [|t ts Ht _ IH]; intros fuel Hf; [by destruct fuel|].
  rewrite fmap_cons in *. cbn [concat] in *. pose proof (bo_len _ _ (as_raw_ok t Ht)) as Hl.
  rewrite length_app, Hl in Hf. destruct fuel as [|fuel]; [unfold TRIBLE_LEN in Hf; lia|].
  assert (∃ x l, as_raw t ++ concat (as_raw <$> ts) = x :: l) as (x & l & E).
  { destruct (as_raw t); [done|]. by eexists _, _. }
  cbn [chunks_fuel]. rewrite E. rewrite <-E. rewrite take_app_length', drop_app_length' by done.
  f_equal. apply IH. unfold TRIBLE_LEN in Hf. lia.
Qed.

Lemma force_rows (ts : list Trible) : Forall trible_ok ts → mapM force_raw (as_raw <$> ts) = Some ts.
Proof.
  intros Ht. apply mapM_Some_2. induction Ht as [|t ts Ht _ IH]; csimpl; constructor; [|done].
  by apply force_raw_as_raw.
Qed.

Lemma rows_bytes (ts : list Trible) alloc : Forall trible_ok ts → (alloc mod 16 = 0)%N →
  fits (mkBytes alloc (concat (as_raw <$> ts))) ∧ bytes_real (mkBytes alloc (concat (as_raw <$> ts))).
Proof.
  intros Ht Ha. split; [split; [done|]|].
  - simpl data. induction Ht as [|t ts Ht _ IH]; [done|]. rewrite fmap_cons. cbn [concat].
    rewrite length_app, (bo_len _ _ (as_raw_ok t Ht)). rewrite Nat.Div0.add_mod, IH. reflexivity.
  - unfold bytes_real. simpl data. induction Ht as [|t ts Ht _ IH]; [constructor|]. rewrite fmap_cons. cbn [concat].
    apply Forall_app. split; [apply (as_raw_ok t Ht)|done].
Qed.

Lemma verdict_rows (ts : list Trible) alloc : Forall trible_ok ts → (alloc mod 16 = 0)%N →
  lex_sorted (as_raw <$> ts) → verdict (mkBytes alloc (concat (as_raw <$> ts))) = inr ts.
Proof.
  intros Ht Ha Hs. unfold verdict. rewrite decide_True by (right; by apply rows_bytes). simpl data.
  rewrite chunks_rows, force_rows by done. by apply first_offence_sorted in Hs as ->.
Qed.

Lemma insert_row_holds arc p s K g t owner : holds s K g → trible_ok t →
  (∀ o, owner = Some o → (o < 2 ^ 64)%N) →
  ∃ s' g', insert_row sip rand_hash arc p s t owner = Some s' ∧ holds s' ({[as_raw t]} ∪ K) g' ∧
    owner_set g' = (if owner is Some o then {[o]} else ∅) ∪ owner_set g.
Proof.
  intros Hs Ht Ho. unfold insert_row. destruct owner as [o|].
  - destruct (insert_archive_holds sip rand_hash arc s K g p t o Hs Ht) as (s' & c & Hs' & Hh & Hset); [by apply Ho|].
    by exists s', (Some c).
  - destruct (insert_holds sip rand_hash s K g p t Hs Ht) as (s' & Hs' & Hh). exists s', g.
    split_and!; [done..|]. set_solver.
Qed.

Lemma insert_rows_holds arcs place ts owner : Forall trible_ok ts → (∀ o, owner = Some o → (o < 2 ^ 64)%N) →
  ∀ i s K g, holds s K g →
  ∃ s' g', foldM (λ st it, insert_row sip rand_hash (arcs it.1) (place it.1) st it.2 owner) s
      (zip (seq i (length ts)) ts) = Some s' ∧
    holds s' (list_to_set (as_raw <$> ts) ∪ K) g' ∧
    owner_set g' = (if owner is Some o then if decide (ts = []) then ∅ else {[o]} else ∅) ∪ owner_set g.
Proof.
  intros Ht Ho. induction Ht as [|t ts Ht _ IH]; intros i s K g Hs.
  - exists s, g. split_and!; [done|csimpl; by rewrite (left_id_L ∅ _)|].
    destruct owner; rewrite ?decide_True by done; set_solver.
  - destruct (insert_row_holds (arcs i) (place i) s K g t owner Hs Ht Ho) as (s1 & g1 & H1 & Hh1 & Hg1).
    cbn [length seq zip zip_with foldM fst snd]. rewrite H1. cbn [mbind option_bind].
    destruct (IH (S i) s1 _ g1 Hh1) as (s' & g' & Hs' & Hh & Hg). exists s', g'. split_and!; [done| |].
    + csimpl. replace (_ ∪ _ ∪ K) with (list_to_set (as_raw <$> ts) ∪ ({[as_raw t]} ∪ K) : gset (list N)); [done|set_solver].
    + rewrite Hg, Hg1. destruct owner as [o|]; [|set_solver]. rewrite (decide_False (P:=t :: ts = [])) by done.
      case_decide; set_solver.
Qed.

Lemma zip_seq_take {A} (l : list A) i n : zip (seq i n) (take n l) = zip (seq i (length (take n l))) (take n l).
Proof. revert i l. induction n as [|n IH]; intros i [|x l]; [done..|]. simpl. f_equal. apply IH. Qed.

(** The decoder: the verdict on the bytes, and the set of the rows. *)
Lemma serial_unarchive_spec arcs heap owner b backed : bytes_real b → (owner < 2 ^ 64)%N →
  match verdict b with
  | inl e => serial_unarchive sip rand_hash arcs heap owner b backed = Some (inl e)
  | inr ts => ∃ s, serial_unarchive sip rand_hash arcs heap owner b backed = Some (inr s) ∧ ts_ok s ∧
      rows s = list_to_set (as_raw <$> ts) ∧
      owners_of s = if decide (backed = true ∧ data b ≠ []) then {[owner]} else ∅
  end.
Proof.
  intros Hb Ho. unfold serial_unarchive.
  set (visit := λ (i : nat) (trible : Trible) (tribles : TribleSet), insert_row sip rand_hash (arcs i)
    (if backed then base b + 64 * N.of_nat i else heap i)%N tribles trible (archive_owner owner backed)).
  assert (∀ o, archive_owner owner backed = Some o → (o < 2 ^ 64)%N) as Ho'.
  { intros o. unfold archive_owner. destruct backed; [by intros [= <-]|done]. }
  pose proof (insert_rows_holds arcs (λ i, if backed then base b + 64 * N.of_nat i else heap i)%N) as Hins.
  pose proof (validate_with_spec visit b (ts_new sip) Hb) as Hv. pose proof (verdict_spec b Hb) as Hts.
  destruct (verdict b) as [e|ts].
  - destruct Hv as (ts & n & _ & Ht & ->).
    destruct (Hins (take n ts) (archive_owner owner backed) (Forall_take _ _ _ Ht) Ho' 0 (ts_new sip) ∅ None
      (new_holds sip rand_hash)) as (s & g & Hf & _).
    assert (zip (seq 0 n) (take n ts) = zip (seq 0 (length (take n ts))) (take n ts)) as -> by apply zip_seq_take.
    change (foldM (λ st it, visit it.1 it.2 st) (ts_new sip) (zip (seq 0 (length (take n ts))) (take n ts)) = Some s) in Hf.
    by rewrite Hf.
  - rewrite Hv. destruct Hts as (Ht & Hd & _).
    destruct (Hins ts (archive_owner owner backed) Ht Ho' 0 (ts_new sip) ∅ None (new_holds sip rand_hash))
      as (s & g & Hf & Hh & Hg).
    change (foldM (λ st it, visit it.1 it.2 st) (ts_new sip) (zip (seq 0 (length ts)) ts) = Some s) in Hf.
    rewrite Hf. cbn [mbind option_bind]. exists s.
    destruct (holds_ok sip rand_hash s _ _ Hh) as (Hok & Hr & Hp). split_and!; [done..| |].
    + rewrite Hr. apply (right_id_L ∅ _).
    + unfold owners_of. rewrite Hp, Hg. change (owner_set None) with (∅ : gset N). rewrite (right_id_L ∅ _). assert (data b = [] ↔ ts = []) as He.
      { rewrite Hd. split; [|by intros ->]. destruct ts as [|t ts]; [done|]. rewrite fmap_cons. cbn [concat].
        apply Forall_cons in Ht as [Ht _]. pose proof (bo_len _ _ (as_raw_ok t Ht)) as Hl. by destruct (as_raw t). }
      unfold archive_owner. destruct backed; [|rewrite decide_False by naive_solver; done].
      case_decide as E; [rewrite decide_False by naive_solver; done|]. by rewrite decide_True by naive_solver.
Qed.

(** ** The properties *)

(** The serial decoder never panics; it refuses exactly the bytes the
    validator refuses, with the same error, and decodes canonical bytes to a
    well-formed set of exactly their rows, which keeps the archive alive iff it
    is archive-backed and has a row. *)
Theorem serial_unarchive_refines arcs heap owner b backed : bytes_real b → (owner < 2 ^ 64)%N →
  ∃ r, validate b = Some r ∧ match r with
  | inl e => serial_unarchive sip rand_hash arcs heap owner b backed = Some (inl e)
  | inr ts => ∃ s, serial_unarchive sip rand_hash arcs heap owner b backed = Some (inr s) ∧ ts_ok s ∧
      rows s = list_to_set (as_raw <$> ts) ∧
      owners_of s = if decide (backed = true ∧ data b ≠ []) then {[owner]} else ∅
  end.
Proof.
  intros Hb Ho. exists (verdict b). split; [by apply validate_spec|]. by apply serial_unarchive_spec.
Qed.

(** C18. Encoding a set and decoding the archive gives the set's rows back, the
    encoder's own checks pass, and the archive is canonical: any canonical bytes
    decode to a set whose archive is those bytes. *)
Theorem archive_roundtrip s alloc arcs heap owner backed : ts_ok s → (ts_len sip s < 2 ^ 64)%N →
  (alloc mod 16 = 0)%N → (owner < 2 ^ 64)%N →
  ∃ b ts n, (∀ fuel, n ≤ fuel → encode_rows sip fuel alloc s = Some b ∧ from_set sip fuel alloc s = Some ts) ∧
    as_raw <$> ts = chunks TRIBLE_LEN (data b) ∧ lex_sorted (as_raw <$> ts) ∧
    (∃ s', serial_unarchive sip rand_hash arcs heap owner b backed = Some (inr s') ∧ ts_ok s' ∧ rows s' = rows s) ∧
    (∀ b' ts', bytes_real b' → validate b' = Some (inr ts') → rows s = list_to_set (as_raw <$> ts') →
      data b = data b').
Proof.
  intros Hs Hlen Ha Ho. destruct (ordered_rows_spec s alloc Hs Hlen) as (ts & n & Ht & Hso & Hin & Hn).
  exists (mkBytes alloc (concat (as_raw <$> ts))), ts, n. pose proof (verdict_rows ts alloc Ht Ha Hso) as Hv.
  destruct (rows_bytes ts alloc Ht Ha) as [Hfit Hreal]. split_and!.
  - intros fuel Hf. unfold encode_rows, from_set. rewrite Hn by done. split; [done|]. cbn [mbind option_bind].
    rewrite view_rows_spec. rewrite decide_True by by right. simpl data. rewrite chunks_rows, force_rows by done.
    cbn [mbind option_bind]. rewrite check_increasing_unit. by apply first_offence_sorted in Hso as ->.
  - simpl data. by rewrite chunks_rows.
  - done.
  - pose proof (serial_unarchive_spec arcs heap owner _ backed Hreal Ho) as Hd. rewrite Hv in Hd.
    destruct Hd as (s' & Hs' & Hok & Hr & _). exists s'. split_and!; [done..|]. rewrite Hr.
    apply set_eq. intros k. by rewrite elem_of_list_to_set, Hin.
  - intros b' ts' Hb' Hv' Hr. rewrite validate_spec in Hv' by done. injection Hv' as Hv'.
    pose proof (verdict_spec b' Hb') as Hs'. rewrite Hv' in Hs'. destruct Hs' as (_ & -> & Hso'). simpl data.
    f_equal. apply lex_sorted_unique; [done..|]. intros k. by rewrite Hin, Hr, elem_of_list_to_set.
Qed.
End spec.
