(* ===== verification/TribleExamples.v ===== *)
(** * TribleExamples: a concrete trible set and its archive

    Tribles of one entity and one attribute that differ in the last byte [b] of
    the value, under FNV-1a as the leaf digest.  That the digests of two sets do
    not collide is decided by computation, on small sets and on two sets of 135
    rows.  The library classes have reference instances.  The witnesses apply
    the theorems of [Trible], [TribleSet], [SimpleArchive] and [Unarchive] to
    them. *)

From S2P Require Import Prelude Lex OwnerCover ByteTable KeySchema PatchHash Branch Head Algebra.
From S2P Require Import XorDigest Patch Examples Machine Iterators Trible TribleSet SimpleArchive Unarchive.

Open Scope nat_scope.

(** ** Tribles *)

Definition ex_trible (b : N) : Trible :=
  mkTrible (mkId (256 ^ 15)) (mkId (2 * 256 ^ 15)) (replicate 31 0%N ++ [b]).
Definition ex_row (b : N) : list N :=
  replicate 15 0%N ++ [1%N] ++ replicate 15 0%N ++ [2%N] ++ replicate 31 0%N ++ [b].
Definition ex_sip64 : list N → N := fnv1a.

Lemma ex_trible_raw b : as_raw (ex_trible b) = ex_row b.
Proof. unfold as_raw, ex_trible, raw, ex_row. vm_compute (le_bytes _ _). reflexivity. Qed.

Lemma ex_trible_ok b : (b < 256)%N → trible_ok (ex_trible b).
Proof.
  intros Hb. split; [done..|]. split; [done|]. apply Forall_app. split; [|by repeat constructor].
  by apply Forall_replicate.
Qed.

Definition ex_rows (k : list N) : Prop := ∃ b, k = ex_row b ∧ (b < 256)%N.

(** ** Sets *)

Definition ex_set (l : list N) : TribleSet :=
  default (ts_new ex_sip64) (from_iter ex_sip64 ex_rand ((λ b, (16 * b, ex_trible b)%N) <$> l)).

Abbreviation ex_ok := (ts_ok ex_sip64 ex_rand).
Abbreviation ex_keys := (rows ex_sip64).

Lemma ex_set_holds l : Forall (λ b, (b < 256)%N) l →
  holds ex_sip64 ex_rand (ex_set l) (list_to_set (ex_row <$> l)) None ∧
  built ex_sip64 ex_rand ex_rows (ex_set l).
Proof.
  intros Hl. unfold ex_set, from_iter.
  assert (∀ s K, holds ex_sip64 ex_rand s K None → built ex_sip64 ex_rand ex_rows s →
    ∃ s', foldM (λ s pt, ts_insert ex_sip64 ex_rand s pt.1 pt.2) s ((λ b, (16 * b, ex_trible b)%N) <$> l) = Some s' ∧
      holds ex_sip64 ex_rand s' (list_to_set (ex_row <$> l) ∪ K) None ∧ built ex_sip64 ex_rand ex_rows s') as Hf.
  { induction Hl as [|b l Hb _ IH]; intros s K Hs Hbt.
    - exists s. split_and!; [done|simpl; by rewrite (left_id_L ∅ _)|done].
    - rewrite fmap_cons. cbn [foldM fst snd]. assert (trible_ok (ex_trible b)) as Ht by by apply ex_trible_ok.
      destruct (insert_holds ex_sip64 ex_rand s K None (16 * b) (ex_trible b) Hs Ht) as (s1 & E & H1).
      rewrite E. cbn [mbind option_bind]. rewrite ex_trible_raw in H1. destruct (IH s1 _ H1) as (s' & -> & H' & Hb').
      { eapply built_insert; [done|done| |done]. rewrite ex_trible_raw. by exists b. }
      exists s'. split_and!; [done| |done]. rewrite fmap_cons. cbn [list_to_set].
      replace (_ ∪ _ ∪ K) with (list_to_set (ex_row <$> l) ∪ ({[ex_row b]} ∪ K) : gset (list N)); [done|set_solver]. }
  destruct (Hf _ _ (new_holds ex_sip64 ex_rand) (built_new _ _ _)) as (s' & -> & H' & Hb).
  simpl. by rewrite (right_id_L ∅ _) in H'.
Qed.

Lemma ex_set_ok l : Forall (λ b, (b < 256)%N) l → ex_ok (ex_set l) ∧ ex_keys (ex_set l) = list_to_set (ex_row <$> l).
Proof. intros Hl. destruct (ex_set_holds l Hl) as [Hh _]. by destruct (holds_ok _ _ _ _ _ Hh) as (? & ? & _). Qed.

Definition ex_s : TribleSet := ex_set [7; 20; 90]%N.
Definition ex_o : TribleSet := ex_set [20; 3]%N.
Lemma ex_s_ok : ex_ok ex_s.
Proof. apply ex_set_ok. by repeat constructor. Qed.
Lemma ex_o_ok : ex_ok ex_o.
Proof. apply ex_set_ok. by repeat constructor. Qed.
(** Decided on the digests cached in the twelve indexes. *)
Lemma ex_so_collision : ts_no_collision ex_sip64 ex_s ex_o.
Proof. apply (bool_decide_unpack _). vm_compute. exact I. Qed.

(** Two sets of 135 rows, more than a digest has bits, of which 35 are common. *)
Definition ex_wide (from : nat) : TribleSet := ex_set (N.of_nat <$> seq from 135).
Lemma ex_wide_ok from : from ≤ 100 → ex_ok (ex_wide from).
Proof.
  intros Hf. apply ex_set_ok, Forall_fmap, Forall_forall. intros i Hi%elem_of_seq. simpl. lia.
Qed.
Lemma ex_wide_collision : ts_no_collision ex_sip64 (ex_wide 0) (ex_wide 100).
Proof. apply (bool_decide_unpack _). vm_compute. exact I. Qed.

Lemma trible_order_witness :
  Trible_cmp (ex_trible 7) (ex_trible 20) = lex_cmp (as_raw (ex_trible 7)) (as_raw (ex_trible 20)) ∧
  (Trible_cmp (ex_trible 7) (ex_trible 20) = Eq ↔ ex_trible 7 = ex_trible 20).
Proof. apply trible_order; apply ex_trible_ok; lia. Defined.

(** The union of the two sets, less the second one. *)
Definition ex_union : TribleSet :=
  default ex_s (ts_union ex_sip64 ex_rand false (λ _, false) (λ _, true) ex_s ex_o).

Lemma tribleset_invariant_witness :
  ∃ d, ts_difference ex_sip64 ex_rand (λ _, false) ex_union ex_o = Some d ∧ ts_len ex_sip64 d = 2%N ∧
    ex_ok d ∧ ∀ k, k ∈ ex_keys d → ex_rows k.
Proof.
  destruct (ts_difference ex_sip64 ex_rand (λ _, false) ex_union ex_o) as [d|] eqn:E;
    [|vm_compute in E; discriminate].
  exists d. split; [reflexivity|]. split; [vm_compute in E; injection E as <-; reflexivity|].
  apply (tribleset_invariant ex_sip64 ex_rand ex_rows).
  refine (built_difference ex_sip64 ex_rand ex_rows (λ _, false) ex_union ex_o d _ _ _ E).
  - refine (built_union ex_sip64 ex_rand ex_rows false (λ _, false) (λ _, true) ex_s ex_o ex_union _ _ _ ex_so_collision _);
      [apply ex_set_holds; repeat constructor|apply ex_set_holds; repeat constructor|discriminate|].
    vm_compute. reflexivity.
  - apply ex_set_holds. repeat constructor.
  - apply (bool_decide_unpack _). vm_compute. exact I.
Defined.

Lemma tribleset_insert_refines_witness :
  ∃ s', ts_insert_archive ex_sip64 ex_rand (λ _, false) ex_s 64 (ex_trible 33) 4096 = Some s' ∧
    ts_len ex_sip64 s' = 4%N ∧ ex_keys s' = {[as_raw (ex_trible 33)]} ∪ ex_keys ex_s ∧
    owners_of s' = {[4096%N]} ∪ owners_of ex_s.
Proof.
  destruct (tribleset_insert_refines ex_sip64 ex_rand ex_s 64%N (ex_trible 33) ex_s_ok) as (_ & Ha & _);
    [by apply ex_trible_ok|].
  destruct (Ha (λ _, false) 4096%N) as (s' & Hs' & _ & Hr & Ho); [done|].
  exists s'. split; [exact Hs'|]. split; [|exact (conj Hr Ho)]. vm_compute in Hs'. injection Hs' as <-. reflexivity.
Defined.

Lemma tribleset_algebra_refines_witness :
  (∃ u i d, ts_union ex_sip64 ex_rand false (λ _, false) (λ _, true) ex_s ex_o = Some u ∧ ts_len ex_sip64 u = 4%N ∧
    ts_intersect ex_sip64 ex_rand false (λ _, false) (λ _, true) ex_s ex_o = Some i ∧ ex_keys i = ex_keys ex_s ∩ ex_keys ex_o ∧
    ts_difference ex_sip64 ex_rand (λ _, false) ex_s ex_o = Some d ∧ ex_keys d = ex_keys ex_s ∖ ex_keys ex_o) ∧
  ∃ u, ts_union ex_sip64 ex_rand false (λ _, false) (λ _, true) (ex_wide 0) (ex_wide 100) = Some u ∧
    ex_keys u = ex_keys (ex_wide 0) ∪ ex_keys (ex_wide 100).
Proof.
  split.
  - destruct (tribleset_algebra_refines ex_sip64 ex_rand false (λ _, false) (λ _, true) ex_s ex_o ex_s_ok ex_o_ok
      ex_so_collision) as ((u & Hu & _) & (i & Hi & _ & Hri & _) & (d & Hd & _ & Hrd & _)); [discriminate|].
    exists u, i, d. split; [exact Hu|].
    split; [vm_compute in Hu; injection Hu as <-; reflexivity|]. exact (conj Hi (conj Hri (conj Hd Hrd))).
  - destruct (tribleset_algebra_refines ex_sip64 ex_rand false (λ _, false) (λ _, true) (ex_wide 0) (ex_wide 100)
      (ex_wide_ok 0 ltac:(lia)) (ex_wide_ok 100 ltac:(lia)) ex_wide_collision) as ((u & Hu & _ & Hru & _) & _); [discriminate|].
    exact (ex_intro _ u (conj Hu Hru)).
Defined.

Lemma tribleset_reads_witness :
  ts_len ex_sip64 ex_s = N.of_nat (size (ex_keys ex_s)) ∧ ts_len ex_sip64 ex_s = 3%N ∧
  ts_contains ex_sip64 ex_rand ex_s (ex_trible 20) = Some true ∧
  ts_eq ex_sip64 ex_s ex_o = bool_decide (ex_keys ex_s = ex_keys ex_o).
Proof.
  destruct (tribleset_reads ex_sip64 ex_rand ex_s ex_o (ex_trible 20) id ex_s_ok ex_o_ok)
    as (Hl & _ & _ & _ & He); [by apply ex_trible_ok|].
  split; [exact Hl|]. split; [vm_compute; reflexivity|]. split; [vm_compute; reflexivity|]. apply He, ex_so_collision.
Defined.

(** ** Archives *)

(** The reference view: alignment before size. *)
Definition ex_view {A} (b : Bytes) (rows : ViewError + A) : ViewError + A :=
  if decide (base b mod 16 = 0)%N then if decide (length (data b) mod TRIBLE_LEN = 0) then rows else inl Size
  else inl Alignment.
#[local] Instance ex_views : ByteViews := {|
  view_tribles b := ex_view b (match mapM force_raw (chunks TRIBLE_LEN (data b)) with
    | Some ts => inr ts | None => inl Validity end);
  view_raw_rows b := ex_view b (inr (chunks TRIBLE_LEN (data b)));
|}.
#[local] Instance ex_views_ok : ByteViewsOk ex_views.
Proof.
  split; intros b; unfold fits; simpl; unfold ex_view; repeat case_decide; naive_solver.
Qed.

(** Two workers; the last failure is heard first. *)
#[local] Instance ex_rayon : Rayon := {| current_num_threads := 2; try_for_each l := last (omap id l) |}.
#[local] Instance ex_rayon_ok : RayonOk ex_rayon.
Proof.
  split; simpl.
  - intros l Hl. assert (omap id l = []) as ->; [|done]. by induction Hl as [|r l -> _ IH].
  - intros l e He. assert (e ∈ omap id l) as Hin by (apply list_elem_of_omap; by exists (Some e)).
    destruct (last (omap id l)) as [x|] eqn:E.
    + exists x. split; [done|]. apply last_Some in E as [l' E].
      assert (x ∈ omap id l) as Hx by (rewrite E; apply elem_of_app; right; by left).
      apply list_elem_of_omap in Hx as (o & Ho & Eo). unfold id in Eo. by subst o.
    + apply last_None in E. rewrite E in Hin. by apply elem_of_nil in Hin.
Qed.

(** A row out of order in the first run and a repeated one across the seam. *)
Definition ex_bad : Bytes := mkBytes 64 (concat (ex_row <$> [9; 5; 5; 6]%N)).
Definition ex_good : Bytes := mkBytes 64 (concat (ex_row <$> [3; 5; 8]%N)).

Lemma ex_bytes_real l : Forall (λ b, (b < 256)%N) l → bytes_real (mkBytes 64 (concat (ex_row <$> l))).
Proof.
  intros Hl. unfold bytes_real. simpl data. induction Hl as [|b l Hb _ IH]; [constructor|].
  rewrite fmap_cons. cbn [concat]. apply Forall_app. split; [|done]. unfold ex_row.
  rewrite !Forall_app. split_and!; try (by apply Forall_replicate); by repeat constructor.
Qed.

Lemma validate_errors_witness :
  validate ex_bad = Some (inl BadCanonicalizationOrdering) ∧
  ∃ i x y, chunks TRIBLE_LEN (data ex_bad) !! i = Some x ∧ chunks TRIBLE_LEN (data ex_bad) !! S i = Some y ∧
    lex_lt y x = true.
Proof.
  destruct (validate_errors ex_bad) as (r & Hr & Hm); [apply ex_bytes_real; repeat constructor|].
  assert (validate ex_bad = Some (inl BadCanonicalizationOrdering)) as E by (vm_compute; reflexivity).
  rewrite E in Hr. injection Hr as <-. split; [done|]. destruct Hm as (_ & _ & i & x & y & Hx & Hy & Hlt & _).
  exact (ex_intro _ i (ex_intro _ x (ex_intro _ y (conj Hx (conj Hy Hlt))))).
Defined.

Lemma par_validate_serial_witness :
  par_validate_map 0%N ex_bad (λ _, 1%N) = Some (inl BadCanonicalizationOrdering).
Proof.
  destruct (par_validate_serial 0%N (λ _, 1%N) ex_bad) as (r & Hr & ->); [apply ex_bytes_real; repeat constructor|].
  vm_compute in Hr. injection Hr as <-. reflexivity.
Defined.

Lemma serial_unarchive_refines_witness :
  ∃ s, serial_unarchive ex_sip64 ex_rand (λ _ _, false) (λ _, 0%N) 4096 ex_good true = Some (inr s) ∧ ex_ok s ∧
    ts_len ex_sip64 s = 3%N ∧ owners_of s = {[4096%N]}.
Proof.
  destruct (serial_unarchive_refines ex_sip64 ex_rand (λ _ _, false) (λ _, 0%N) 4096%N ex_good true)
    as (r & Hr & Hm); [apply ex_bytes_real; repeat constructor|reflexivity|].
  assert (∃ ts, validate ex_good = Some (inr ts)) as [ts E] by (eexists; vm_compute; reflexivity).
  rewrite E in Hr. injection Hr as <-. destruct Hm as (s & Hs & Hok & _ & Ho). exists s.
  split; [exact Hs|]. split; [exact Hok|]. split; [vm_compute in Hs; injection Hs as <-; reflexivity|]. exact Ho.
Defined.

Lemma archive_roundtrip_witness :
  ∃ b ts n, (∀ fuel, n ≤ fuel → encode_rows ex_sip64 fuel 64 ex_s = Some b ∧ from_set ex_sip64 fuel 64 ex_s = Some ts) ∧
    as_raw <$> ts = chunks TRIBLE_LEN (data b) ∧
    ∃ s', serial_unarchive ex_sip64 ex_rand (λ _ _, false) (λ _, 0%N) 4096 b true = Some (inr s') ∧
      ex_keys s' = ex_keys ex_s.
Proof.
  destruct (archive_roundtrip ex_sip64 ex_rand ex_s 64%N (λ _ _, false) (λ _, 0%N) 4096%N true ex_s_ok)
    as (b & ts & n & Hn & Hc & _ & (s' & Hs' & _ & Hr) & _); [reflexivity|reflexivity|reflexivity|].
  exists b, ts, n. split; [exact Hn|]. split; [exact Hc|]. exists s'. exact (conj Hs' Hr).
Defined.
