(* ===== verification/Liveness.v ===== *)
(** * Liveness: candidate storage of one search level

    Source: [triblespace-core/src/query/liveness.rs].

    Proposed candidates are values with a parent tag (a [u32] frontier row) and
    a liveness bit; the bits are packed 32 to a word.  A [Candidates] region
    views the bits of a buffer from an arbitrary index on, so its first and
    last word are shared with neighbouring regions.  Every operation is
    specified on single bits, the bits it must leave alone included.

    A [&mut [u32]] of a region is the list of its words; what a borrow of a
    part of it does is written back by [put_words]. *)

From S2P Require Import Prelude Lex Machine.

Open Scope nat_scope.

Abbreviation RawInline := (list N) (only parsing).

(** ** Packed words *)

Definition LIVENESS_WORD_BITS : nat := 32.
Abbreviation BITS := LIVENESS_WORD_BITS (only parsing).

(** [&mut words[k]] updated by [f]. *)
Definition word_update (words : list N) (k : nat) (f : N → N) : res (list N) :=
  w ← words !! k; arr_set words k (f w).
Definition one_bit (b : nat) : N := wshl 32 1 (N.of_nat (b mod BITS)).
(** [(words[b / BITS] >> (b % BITS)) & 1 != 0] *)
Definition read_bit (words : list N) (b : nat) : res bool :=
  w ← words !! (b / BITS);
  Some (negb (N.land (N.shiftr w (N.of_nat (b mod BITS))) 1 =? 0)%N).
Definition set_bit (words : list N) (b : nat) : res (list N) :=
  word_update words (b / BITS) (λ w, N.lor w (one_bit b)).
Definition clear_bit (words : list N) (b : nat) : res (list N) :=
  word_update words (b / BITS) (λ w, N.land w (wnot 32 (one_bit b))).

Definition and_words (words other : list N) : list N :=
  zip_with N.land words other ++ drop (length other) words.
Definition or_words (words other : list N) : list N :=
  zip_with N.lor words other ++ drop (length other) words.

Definition words_for (bits : nat) : nat := (bits + (BITS - 1)) / BITS.

Definition bit_range_mask (lo hi : nat) : N :=
  wshl 32 (N.shiftr (N.ones 32) (N.of_nat (BITS - (hi - lo)))) (N.of_nat lo).

Definition set_bits (live : list N) (from to : nat) : res (list N) :=
  if to <=? from then Some live else
  let first := from / BITS in
  let last := (to - 1) / BITS in
  if first =? last then
    word_update live first (λ w, N.lor w (bit_range_mask (from - first * BITS) (to - first * BITS)))
  else
    live ← word_update live first (λ w, N.lor w (bit_range_mask (from - first * BITS) BITS));
    live ← foldM (λ live k, word_update live k (λ _, N.ones 32)) live (seq (S first) (last - S first));
    word_update live last (λ w, N.lor w (bit_range_mask 0 (to - last * BITS))).

Definition clamp (x lo hi : nat) : nat := if x <? lo then lo else if hi <? x then hi else x.

Definition region_mask (bit_offset len k : nat) : N :=
  let word_lo := k * BITS in
  let word_hi := word_lo + BITS in
  let lo := clamp bit_offset word_lo word_hi in
  let hi := clamp (bit_offset + len) word_lo word_hi in
  if hi <=? lo then 0%N else bit_range_mask (lo - word_lo) (hi - word_lo).

Definition truncate_live (live : list N) (len : nat) : res (list N) :=
  let live := take (words_for len) live in
  let tail := len mod BITS in
  if negb (tail =? 0) then
    massert (0 <? length live);; 
    word_update live (length live - 1) (λ w, N.land w (bit_range_mask 0 tail))
  else Some live.

(** ** The buffer a proposer appends to *)

Record ProposalBuffer := mkProposalBuffer {
  pb_entries : list RawInline;
  pb_live : list N;
  pb_parents : list N;
  pb_parent : N;
}.

Definition pb_new : ProposalBuffer := mkProposalBuffer [] [] [] 0.

Definition pb_open (b : ProposalBuffer) (parent : N) : ProposalBuffer :=
  mkProposalBuffer (pb_entries b) (pb_live b) (pb_parents b) parent.

Definition pb_len (b : ProposalBuffer) : nat := length (pb_entries b).

Definition pb_parent_of (b : ProposalBuffer) (i : nat) : res N := pb_parents b !! i.

(** The common tail of [push] and of the loop of [rewrite_region]. *)
Definition pb_append (b : ProposalBuffer) (parent : N) (value : RawInline) : res ProposalBuffer :=
  let i := pb_len b in
  let entries := pb_entries b ++ [value] in
  let parents := pb_parents b ++ [parent] in
  let live := if i mod BITS =? 0 then pb_live b ++ [0%N] else pb_live b in
  live ← set_bit live i;
  Some (mkProposalBuffer entries live parents (pb_parent b)).

Definition pb_push (b : ProposalBuffer) (value : RawInline) : res ProposalBuffer :=
  pb_append b (pb_parent b) value.

Definition pb_extend (b : ProposalBuffer) (iter : list RawInline) : res ProposalBuffer :=
  foldM pb_push b iter.

(** [Vec::resize] *)
Definition vec_resize {A} (l : list A) (n : nat) (x : A) : list A :=
  take n l ++ replicate (n - length l) x.

Definition pb_extend_from_slice (b : ProposalBuffer) (slice : list RawInline) : res ProposalBuffer :=
  let from := pb_len b in
  let entries := pb_entries b ++ slice in
  let to := length entries in
  let parents := vec_resize (pb_parents b) to (pb_parent b) in
  let live := vec_resize (pb_live b) (words_for to) 0%N in
  live ← set_bits live from to;
  Some (mkProposalBuffer entries live parents (pb_parent b)).

Definition pb_clear (b : ProposalBuffer) : ProposalBuffer := mkProposalBuffer [] [] [] 0.

(** One turn of the loop over the words. *)
Definition next_live_body (live : list N) (st : nat * N) : res (nat * N + option nat) :=
  let '(w, word) := st in
  if negb (word =? 0)%N then Some (inr (Some (w * BITS + N.to_nat (trailing_zeros word)))) else
  let w := S w in
  if length live <=? w then Some (inr None) else
  word ← live !! w;
  Some (inl (w, word)).

Definition pb_next_live (b : ProposalBuffer) (from : nat) : res (option nat) :=
  if pb_len b <=? from then Some None else
  let w := from / BITS in
  word ← pb_live b !! w;
  let word := N.land word (wshl 32 (N.ones 32) (N.of_nat (from mod BITS))) in
  loopM (next_live_body (pb_live b)) (S (length (pb_live b))) (w, word).

Definition pb_count_live (b : ProposalBuffer) (from : nat) : res nat :=
  if pb_len b <=? from then Some 0 else
  let first := from / BITS in
  word ← pb_live b !! first;
  let head := N.land word (wshl 32 (N.ones 32) (N.of_nat (from mod BITS))) in
  Some (count_ones head + sum_list (count_ones <$> drop (S first) (pb_live b))).

Definition pb_is_live (b : ProposalBuffer) (i : nat) : res bool := read_bit (pb_live b) i.

(** [filter_map] over the entries from [from] on, by their liveness. *)
Fixpoint filter_live {A} (live : list N) (i : nat) (l : list A) : res (list A) :=
  match l with
  | [] => Some []
  | x :: l =>
      alive ← read_bit live i;
      rest ← filter_live live (S i) l;
      Some (if alive : bool then x :: rest else rest)
  end.

Definition pb_live_values (b : ProposalBuffer) (from : nat) : res (list RawInline) :=
  massert (from <=? pb_len b);;
  filter_live (pb_live b) from (drop from (pb_entries b)).

Definition pb_tagged (b : ProposalBuffer) (base : nat) : res (list (N * RawInline)) :=
  massert (base <=? pb_len b);; massert (base <=? length (pb_parents b));;
  filter_live (pb_live b) base (zip (drop base (pb_parents b)) (drop base (pb_entries b))).

(** The state of [retain_region]: the three vectors and [write]. *)
Definition retain_region_step (keep : N → RawInline → res bool)
    (st : list RawInline * list N * list N * nat) (read : nat)
    : res (list RawInline * list N * list N * nat) :=
  let '(entries, live, parents, write) := st in
  parent ← parents !! read;
  value ← entries !! read;
  kept ← keep parent value;
  if (kept : bool) then
    entries ← arr_set entries write value;
    parents ← arr_set parents write parent;
    word ← live !! (read / BITS);
    let bit := N.land (N.shiftr word (N.of_nat (read mod BITS))) 1 in
    let b := write mod BITS in
    live ← word_update live (write / BITS)
             (λ w, N.lor (N.land w (wnot 32 (wshl 32 1 (N.of_nat b)))) (wshl 32 bit (N.of_nat b)));
    Some (entries, live, parents, S write)
  else Some st.

Definition pb_retain_region (b : ProposalBuffer) (base : nat) (keep : N → RawInline → res bool)
    : res ProposalBuffer :=
  '(entries, live, parents, write) ←
    foldM (retain_region_step keep) (pb_entries b, pb_live b, pb_parents b, base)
      (seq base (pb_len b - base));
  live ← truncate_live live write;
  Some (mkProposalBuffer (take write entries) live (take write parents) (pb_parent b)).

Definition pb_rewrite_region (b : ProposalBuffer) (base : nat) (values : list (N * RawInline))
    : res ProposalBuffer :=
  live ← truncate_live (pb_live b) base;
  foldM (λ b pv, pb_append b pv.1 pv.2)
    (mkProposalBuffer (take base (pb_entries b)) live (take base (pb_parents b)) (pb_parent b)) values.

Definition pb_remap_region (b : ProposalBuffer) (base : nat) (map : list N) : res ProposalBuffer :=
  massert (base <=? length (pb_parents b));;
  tail ← mapM (λ parent, map !! N.to_nat parent) (drop base (pb_parents b));
  Some (mkProposalBuffer (pb_entries b) (pb_live b) (take base (pb_parents b) ++ tail) (pb_parent b)).

(** ** The region a confirmer kills in *)

Record Candidates := mkCandidates {
  cd_values : list RawInline;
  cd_parents : list N;
  cd_words : list N;
  cd_bit_offset : nat;
}.

Definition pb_region (b : ProposalBuffer) (base : nat) : res Candidates :=
  let first := base / BITS in
  massert (base <=? pb_len b);; massert (base <=? length (pb_parents b));;
  massert (first <=? length (pb_live b));;
  Some (mkCandidates (drop base (pb_entries b)) (drop base (pb_parents b))
          (drop first (pb_live b)) (base mod BITS)).

(** The words of a borrow that ends, back in place. *)
Definition put_words (words : list N) (first : nat) (part : list N) : list N :=
  take first words ++ part ++ drop (first + length part) words.
Definition with_words (c : Candidates) (words : list N) : Candidates :=
  mkCandidates (cd_values c) (cd_parents c) words (cd_bit_offset c).
Definition put_region (b : ProposalBuffer) (base : nat) (c : Candidates) : ProposalBuffer :=
  mkProposalBuffer (pb_entries b) (put_words (pb_live b) (base / BITS) (cd_words c))
    (pb_parents b) (pb_parent b).

Definition cd_parent (c : Candidates) (i : nat) : res N := cd_parents c !! i.
Definition cd_len (c : Candidates) : nat := length (cd_values c).
Definition cd_is_empty (c : Candidates) : bool := cd_len c =? 0.

Definition cd_is_live (c : Candidates) (i : nat) : res bool :=
  read_bit (cd_words c) (cd_bit_offset c + i).
Definition cd_kill (c : Candidates) (i : nat) : res Candidates :=
  words ← clear_bit (cd_words c) (cd_bit_offset c + i); Some (with_words c words).

(** The run of equal tags that starts at [start]: its exclusive end. *)
Fixpoint run_length (tag : N) (tags : list N) : nat :=
  match tags with
  | t :: tags => if (t =? tag)%N then S (run_length tag tags) else 0
  | [] => 0
  end.
Definition run_end (tag : N) (tags : list N) (start : nat) : nat :=
  S start + run_length tag (drop (S start) tags).

(** One turn of [for_each_parent]: the sub-region of the run at [start]. *)
Definition parent_run_step (confirm : N → Candidates → res Candidates) (st : Candidates * nat)
    : res (Candidates * nat + Candidates) :=
  let '(c, start) := st in
  if length (cd_parents c) <=? start then Some (inr c) else
  parent ← cd_parents c !! start;
  let stop := run_end parent (cd_parents c) start in
  let first := (cd_bit_offset c + start) / BITS in
  let last := (cd_bit_offset c + stop - 1) / BITS in
  massert (stop <=? length (cd_values c));; massert (last <? length (cd_words c));;
  let run := mkCandidates (take (stop - start) (drop start (cd_values c)))
               (take (stop - start) (drop start (cd_parents c)))
               (take (S last - first) (drop first (cd_words c)))
               ((cd_bit_offset c + start) mod BITS) in
  run ← confirm parent run;
  Some (inl (with_words c (put_words (cd_words c) first (cd_words run)), stop)).

Definition cd_for_each_parent (c : Candidates) (confirm : N → Candidates → res Candidates)
    : res Candidates :=
  loopM (parent_run_step confirm) (S (length (cd_parents c))) (c, 0).

Definition cd_retain (c : Candidates) (keep : RawInline → res bool) : res Candidates :=
  foldM (λ c i,
    alive ← cd_is_live c i;
    if (alive : bool) then
      value ← cd_values c !! i;
      kept ← keep value;
      if (kept : bool) then Some c else cd_kill c i
    else Some c) c (seq 0 (cd_len c)).

Definition cd_kill_all (c : Candidates) : Candidates :=
  with_words c (imap (λ k w, N.land w (wnot 32 (region_mask (cd_bit_offset c) (cd_len c) k))) (cd_words c)).

Definition cd_live_word_len (c : Candidates) : nat := length (cd_words c).

Definition cd_split_at_word_boundary (c : Candidates) (mid : nat) : res (Candidates * Candidates) :=
  massert ((0 <? mid) && (mid <? cd_len c));;
  let word_mid_bits := cd_bit_offset c + mid in
  massert (word_mid_bits mod BITS =? 0);;
  let word_mid := word_mid_bits / BITS in
  massert (mid <=? length (cd_parents c));; massert (word_mid <=? length (cd_words c));;
  Some (mkCandidates (take mid (cd_values c)) (take mid (cd_parents c))
          (take word_mid (cd_words c)) (cd_bit_offset c),
        mkCandidates (drop mid (cd_values c)) (drop mid (cd_parents c))
          (drop word_mid (cd_words c)) 0).

Definition cd_live_words (c : Candidates) : list N :=
  imap (λ k w, N.land w (region_mask (cd_bit_offset c) (cd_len c) k)) (cd_words c).

Definition cd_set_live_words (c : Candidates) (words : list N) : Candidates :=
  with_words c (imap (λ k w,
    match words !! k with
    | Some incoming =>
        let mask := region_mask (cd_bit_offset c) (cd_len c) k in
        N.lor (N.land w (wnot 32 mask)) (N.land incoming mask)
    | None => w
    end) (cd_words c)).

Definition cd_scratch (c : Candidates) (words : list N) : Candidates := with_words c words.

(** ** Single bits *)

(** Bit [b] of a packed vector. *)
Definition wbit (words : list N) (b : nat) : bool :=
  match words !! (b / BITS) with
  | Some w => N.testbit w (N.of_nat (b mod BITS))
  | None => false
  end.
Definition words_ok (words : list N) : Prop := Forall (λ w, (w < 2 ^ 32)%N) words.
#[global] Arguments LIVENESS_WORD_BITS : simpl never.
#[global] Arguments pb_append : simpl never.
#[global] Arguments pb_push : simpl never.
#[global] Arguments cd_kill : simpl never.
#[global] Arguments cd_is_live : simpl never.
#[global] Arguments read_bit : simpl never.
#[global] Arguments run_end : simpl never.
#[global] Arguments Nat.div : simpl never.
#[global] Arguments Nat.modulo : simpl never.

(** Puts [b / BITS] and [b mod BITS] within reach of [lia]. *)
Ltac bits_of b :=
  let q := fresh "q" in let r := fresh "r" in
  pose proof (Nat.div_mod_eq b BITS) as ?; pose proof (Nat.mod_upper_bound b BITS ltac:(done)) as ?.
Ltac bits_lia := unfold LIVENESS_WORD_BITS in *; lia.

Lemma BITS_val : BITS = 32. Proof. done. Qed.

Lemma div_lt_words b n : b < BITS * n → b / BITS < n.
Proof. intros. apply Nat.Div0.div_lt_upper_bound. bits_lia. Qed.

Lemma word_index b k j : j < BITS → b = k * BITS + j → b / BITS = k ∧ b mod BITS = j.
Proof.
  intros Hj ->. split; symmetry; [apply (Nat.div_unique _ _ _ j)|apply (Nat.mod_unique _ _ k)]; lia.
Qed.

Lemma words_for_le n k : words_for n <= k ↔ n <= BITS * k.
Proof.
  unfold words_for. bits_of (n + (BITS - 1)). bits_lia.
Qed.
Lemma words_for_lt n k : k < words_for n ↔ BITS * k < n.
Proof. pose proof (words_for_le n k). lia. Qed.

Lemma wbit_lookup ws b w : ws !! (b / BITS) = Some w → wbit ws b = N.testbit w (N.of_nat (b mod BITS)).
Proof. unfold wbit. by intros ->. Qed.

Lemma wbit_at ws k w j : ws !! k = Some w → j < BITS → wbit ws (k * BITS + j) = N.testbit w (N.of_nat j).
Proof. intros Hw Hj. unfold wbit. destruct (word_index (k * BITS + j) k j) as [-> ->]; [done..|]. by rewrite Hw. Qed.

Lemma wbit_out ws b : length ws <= b / BITS → wbit ws b = false.
Proof. intros. unfold wbit. by rewrite (proj2 (lookup_ge_None _ _)). Qed.

Lemma land_one x : N.land x 1 = N.b2n (N.testbit x 0).
Proof. rewrite N.bit0_mod. apply (N.land_ones x 1). Qed.

Lemma shiftr_land_one w i : N.land (N.shiftr w i) 1 = N.b2n (N.testbit w i).
Proof. by rewrite land_one, N.shiftr_spec', N.add_0_l. Qed.

Lemma read_bit_spec ws b : b < BITS * length ws → read_bit ws b = Some (wbit ws b).
Proof.
  intros Hb%div_lt_words. unfold read_bit, wbit. destruct (lookup_lt_is_Some_2 ws _ Hb) as [w ->]. simpl.
  rewrite shiftr_land_one. by destruct (N.testbit _ _).
Qed.

Lemma testbit_one_bit b j : j < BITS → N.testbit (one_bit b) (N.of_nat j) = (j =? b mod BITS).
Proof.
  intros Hj. unfold one_bit. bits_of b. rewrite testbit_wshl by bits_lia.
  destruct (Nat.eqb_spec j (b mod BITS)) as [->|Hne].
  - rewrite N.sub_diag. simpl. rewrite andb_true_r, N.leb_refl, andb_true_r. apply N.ltb_lt. bits_lia.
  - destruct (N.leb_spec (N.of_nat (b mod BITS)) (N.of_nat j)); [|by rewrite andb_false_r].
    rewrite andb_true_r. destruct (_ - _)%N as [|p] eqn:E; [bits_lia|]. by destruct p; rewrite andb_false_r.
Qed.

Lemma word_lt_bits w : (∀ i, BITS <= i → N.testbit w (N.of_nat i) = false) → (w < 2 ^ 32)%N.
Proof.
  intros Hw. apply lt_pow2_testbit. intros i Hi. rewrite <- (N2Nat.id i). apply Hw. bits_lia.
Qed.
Lemma word_high w i : (w < 2 ^ 32)%N → BITS <= i → N.testbit w (N.of_nat i) = false.
Proof. intros Hw Hi. apply (proj1 (lt_pow2_testbit 32 w) Hw). bits_lia. Qed.

Lemma land_word w m : (w < 2 ^ 32)%N → (N.land w m < 2 ^ 32)%N.
Proof. intros Hw. apply word_lt_bits. intros i Hi. rewrite N.land_spec, word_high; done. Qed.
Lemma lor_word w m : (w < 2 ^ 32)%N → (m < 2 ^ 32)%N → (N.lor w m < 2 ^ 32)%N.
Proof. intros Hw Hm. apply word_lt_bits. intros i Hi. rewrite N.lor_spec, !word_high; done. Qed.
Lemma wshl_word x i : (wshl 32 x i < 2 ^ 32)%N.
Proof.
  apply word_lt_bits. intros j Hj. unfold wshl. rewrite N.land_spec, testbit_ones.
  rewrite (proj2 (N.ltb_ge _ _)) by bits_lia. apply andb_false_r.
Qed.
Create HintDb word.
#[local] Hint Resolve land_word lor_word wshl_word : word.

Lemma testbit_range_mask lo hi j : lo < hi → hi <= BITS →
  N.testbit (bit_range_mask lo hi) (N.of_nat j) = (lo <=? j) && (j <? hi).
Proof.
  intros Hl Hh. unfold bit_range_mask. rewrite testbit_wshl by bits_lia.
  destruct (Nat.leb_spec lo j), (N.leb_spec (N.of_nat lo) (N.of_nat j)); [|bits_lia..|by rewrite andb_false_r].
  rewrite andb_true_r, N.shiftr_spec', testbit_ones. simpl.
  destruct (Nat.ltb_spec j hi), (N.ltb_spec (N.of_nat j) 32),
    (N.ltb_spec (N.of_nat j - N.of_nat lo + N.of_nat (BITS - (hi - lo))) 32); simpl; bits_lia.
Qed.

Lemma testbit_region_mask off len k j : j < BITS →
  N.testbit (region_mask off len k) (N.of_nat j) = (off <=? k * BITS + j) && (k * BITS + j <? off + len).
Proof.
  intros Hj. unfold region_mask, clamp.
  destruct (Nat.ltb_spec off (k * BITS)), (Nat.ltb_spec (off + len) (k * BITS)),
    (Nat.ltb_spec (k * BITS + BITS) off), (Nat.ltb_spec (k * BITS + BITS) (off + len));
    try lia; destruct (Nat.leb_spec off (k * BITS + j)), (Nat.ltb_spec (k * BITS + j) (off + len)); try lia;
    match goal with |- context [?x <=? ?y] => destruct (Nat.leb_spec x y) end; try lia;
    try (rewrite testbit_range_mask by lia;
      repeat match goal with |- context [?x <=? ?y] => destruct (Nat.leb_spec x y) end;
      repeat match goal with |- context [?x <? ?y] => destruct (Nat.ltb_spec x y) end; simpl; try lia);
    rewrite ?N.bits_0; done.
Qed.

Lemma words_lookup ws k w : words_ok ws → ws !! k = Some w → (w < 2 ^ 32)%N.
Proof. intros Hok. by apply (proj1 (Forall_lookup _ _) Hok). Qed.

(** One word rewritten bit by bit. *)
Lemma word_update_bits ws k f (g : nat → bool → bool) : words_ok ws → k < length ws →
  (∀ w, (w < 2 ^ 32)%N → (f w < 2 ^ 32)%N ∧
    ∀ j, j < BITS → N.testbit (f w) (N.of_nat j) = g (k * BITS + j) (N.testbit w (N.of_nat j))) →
  ∃ ws', word_update ws k f = Some ws' ∧ words_ok ws' ∧ length ws' = length ws ∧
    ∀ b, wbit ws' b = if b / BITS =? k then g b (wbit ws b) else wbit ws b.
Proof.
  intros Hok Hk Hf. destruct (lookup_lt_is_Some_2 ws _ Hk) as [w Hw].
  pose proof (words_lookup _ _ _ Hok Hw) as Hlt. destruct (Hf w Hlt) as [Hfw Hbits].
  exists (<[k := f w]> ws). unfold word_update. rewrite Hw. simpl. split_and!.
  - by apply arr_set_Some.
  - by apply Forall_insert.
  - apply length_insert.
  - intros b. unfold wbit. destruct (Nat.eqb_spec (b / BITS) k) as [<-|Hne].
    + rewrite list_lookup_insert_eq by done. rewrite Hw. bits_of b. rewrite Hbits by done.
      f_equal. bits_lia.
    + by rewrite list_lookup_insert_ne.
Qed.

(** All words rewritten bit by bit. *)
Lemma imap_bits ws (f : nat → N → N) (g : nat → bool → bool) : words_ok ws →
  (∀ k w, ws !! k = Some w → (w < 2 ^ 32)%N → (f k w < 2 ^ 32)%N ∧
    ∀ j, j < BITS → N.testbit (f k w) (N.of_nat j) = g (k * BITS + j) (N.testbit w (N.of_nat j))) →
  words_ok (imap f ws) ∧ ∀ b, b < BITS * length ws → wbit (imap f ws) b = g b (wbit ws b).
Proof.
  intros Hok Hf. split.
  - apply Forall_lookup. intros k w' Hw'. apply list_lookup_imap_Some in Hw' as (w & Hw & ->).
    apply (Hf k w Hw). by apply (words_lookup _ _ _ Hok Hw).
  - intros b Hb%div_lt_words. unfold wbit. rewrite list_lookup_imap.
    destruct (lookup_lt_is_Some_2 ws _ Hb) as [w Hw]. rewrite Hw. simpl. bits_of b.
    rewrite (proj2 (Hf _ w Hw (words_lookup _ _ _ Hok Hw))) by done. f_equal. bits_lia.
Qed.

Lemma wbit_bound ws b : wbit ws b = true → b < BITS * length ws.
Proof.
  intros Hb. destruct (decide (b < BITS * length ws)); [done|]. rewrite wbit_out in Hb; [done|].
  bits_of b. bits_lia.
Qed.

(** Vectors of the same length are equal if their bits are. *)
Lemma words_ext ws ws' : words_ok ws → words_ok ws' → length ws = length ws' →
  (∀ b, b < BITS * length ws → wbit ws b = wbit ws' b) → ws = ws'.
Proof.
  intros Hok Hok' Hl Hb. apply list_eq. intros k.
  destruct (ws !! k) as [w|] eqn:Hw; [|symmetry; apply lookup_ge_None; rewrite <- Hl; by apply lookup_ge_None].
  pose proof (lookup_lt_Some _ _ _ Hw) as Hk. destruct (lookup_lt_is_Some_2 ws' k) as [w' Hw']; [lia|].
  rewrite Hw'. f_equal. apply N.bits_inj. intros i. rewrite <- (N2Nat.id i).
  destruct (decide (N.to_nat i < BITS)) as [Hi|Hi].
  - specialize (Hb (k * BITS + N.to_nat i) ltac:(nia)).
    by rewrite (wbit_at _ _ _ _ Hw), (wbit_at _ _ _ _ Hw') in Hb.
  - apply words_lookup in Hw; [|done]. apply words_lookup in Hw'; [|done]. rewrite !word_high; (done || lia).
Qed.

(** ** Masks and word loops, bit by bit *)

Lemma set_bit_spec ws b : words_ok ws → b < BITS * length ws →
  ∃ ws', set_bit ws b = Some ws' ∧ words_ok ws' ∧ length ws' = length ws ∧
    ∀ i, wbit ws' i = wbit ws i || (i =? b).
Proof.
  intros Hok Hb. unfold set_bit. destruct (word_update_bits ws (b / BITS) (λ w, N.lor w (one_bit b)) (λ i x, x || (i =? b)))
    as (ws' & -> & ? & ? & Hbits); [done|by apply div_lt_words|..].
  { intros w Hw. split; [by apply lor_word, wshl_word|]. intros j Hj.
    rewrite N.lor_spec, testbit_one_bit by done. f_equal. bits_of b.
    destruct (Nat.eqb_spec j (b mod BITS)), (Nat.eqb_spec (b / BITS * BITS + j) b); bits_lia. }
  exists ws'. split_and!; [done..|]. intros i. rewrite Hbits. destruct (Nat.eqb_spec (i / BITS) (b / BITS)); [done|].
  destruct (Nat.eqb_spec i b) as [->|]; [done|by rewrite orb_false_r].
Qed.

Lemma clear_bit_spec ws b : words_ok ws → b < BITS * length ws →
  ∃ ws', clear_bit ws b = Some ws' ∧ words_ok ws' ∧ length ws' = length ws ∧
    ∀ i, wbit ws' i = wbit ws i && negb (i =? b).
Proof.
  intros Hok Hb. unfold clear_bit. destruct (word_update_bits ws (b / BITS) (λ w, N.land w (wnot 32 (one_bit b)))
    (λ i x, x && negb (i =? b))) as (ws' & -> & ? & ? & Hbits); [done|by apply div_lt_words|..].
  { intros w Hw. split; [by apply land_word|]. intros j Hj.
    rewrite N.land_spec, testbit_wnot, testbit_one_bit by done.
    rewrite (proj2 (N.ltb_lt _ _)) by bits_lia. simpl. do 2 f_equal. bits_of b.
    destruct (Nat.eqb_spec j (b mod BITS)), (Nat.eqb_spec (b / BITS * BITS + j) b); bits_lia. }
  exists ws'. split_and!; [done..|]. intros i. rewrite Hbits. destruct (Nat.eqb_spec (i / BITS) (b / BITS)); [done|].
  destruct (Nat.eqb_spec i b) as [->|]; [done|by rewrite andb_true_r].
Qed.

(** A word or-ed with a range of its bits. *)
Lemma set_range_spec ws k lo hi : words_ok ws → k < length ws → lo < hi → hi <= BITS →
  ∃ ws', word_update ws k (λ w, N.lor w (bit_range_mask lo hi)) = Some ws' ∧ words_ok ws' ∧
    length ws' = length ws ∧
    ∀ i, wbit ws' i = wbit ws i || ((k * BITS + lo <=? i) && (i <? k * BITS + hi)).
Proof.
  intros Hok Hk Hl Hh. destruct (word_update_bits ws k (λ w, N.lor w (bit_range_mask lo hi))
    (λ i x, x || ((k * BITS + lo <=? i) && (i <? k * BITS + hi)))) as (ws' & -> & ? & ? & Hbits); [done..| |].
  { intros w Hw. split; [by apply lor_word, wshl_word|]. intros j Hj.
    rewrite N.lor_spec, testbit_range_mask by done. f_equal.
    destruct (Nat.leb_spec lo j), (Nat.ltb_spec j hi), (Nat.leb_spec (k * BITS + lo) (k * BITS + j)),
      (Nat.ltb_spec (k * BITS + j) (k * BITS + hi)); done || lia. }
  exists ws'. split_and!; [done..|]. intros i. rewrite Hbits. destruct (Nat.eqb_spec (i / BITS) k); [done|].
  bits_of i. destruct (Nat.leb_spec (k * BITS + lo) i), (Nat.ltb_spec i (k * BITS + hi)); simpl;
    rewrite ?orb_false_r; try done. exfalso. bits_lia.
Qed.

Lemma fill_words_spec ws first n : words_ok ws → first + n <= length ws →
  ∃ ws', foldM (λ live k, word_update live k (λ _, N.ones 32)) ws (seq first n) = Some ws' ∧
    words_ok ws' ∧ length ws' = length ws ∧
    ∀ i, wbit ws' i = wbit ws i || ((first * BITS <=? i) && (i <? (first + n) * BITS)).
Proof.
  revert ws first. induction n as [|n IH]; intros ws first Hok Hn; simpl.
  { exists ws. split_and!; [done..|]. intros i.
    destruct (Nat.leb_spec (first * BITS) i), (Nat.ltb_spec i ((first + 0) * BITS)); simpl; rewrite ?orb_false_r; (done || lia). }
  destruct (word_update_bits ws first (λ _, N.ones 32) (λ _ _, true)) as (ws1 & -> & Hok1 & Hl1 & Hb1); [done|lia| |].
  { intros w _. split; [done|]. intros j Hj. rewrite testbit_ones. apply N.ltb_lt. bits_lia. }
  simpl. destruct (IH ws1 (S first)) as (ws' & -> & ? & ? & Hb); [done|lia|].
  exists ws'. split_and!; [done..|lia|]. intros i. rewrite Hb, Hb1. bits_of i.
  destruct (Nat.eqb_spec (i / BITS) first), (wbit ws i), (Nat.leb_spec (S first * BITS) i),
    (Nat.ltb_spec i ((S first + n) * BITS)), (Nat.leb_spec (first * BITS) i),
    (Nat.ltb_spec i ((first + S n) * BITS)); simpl; try done; bits_lia.
Qed.

Lemma set_bits_spec ws from to : words_ok ws → to <= BITS * length ws →
  ∃ ws', set_bits ws from to = Some ws' ∧ words_ok ws' ∧ length ws' = length ws ∧
    ∀ i, wbit ws' i = wbit ws i || ((from <=? i) && (i <? to)).
Proof.
  intros Hok Hto. unfold set_bits. destruct (Nat.leb_spec to from) as [Hle|Hlt].
  { exists ws. split_and!; [done..|]. intros i. destruct (Nat.leb_spec from i), (Nat.ltb_spec i to);
      simpl; rewrite ?orb_false_r; (done || lia). }
  bits_of from. bits_of (to - 1). set (first := from / BITS) in *. set (last := (to - 1) / BITS) in *.
  assert (first <= last) by (apply Nat.Div0.div_le_mono; lia).
  assert (last < length ws) by (apply div_lt_words; lia).
  destruct (Nat.eqb_spec first last) as [He|Hne].
  { destruct (set_range_spec ws first (from - first * BITS) (to - first * BITS))
      as (ws' & -> & ? & ? & Hb); [done|lia|bits_lia..|].
    exists ws'. split_and!; [done..|]. intros i. rewrite Hb. do 2 f_equal; f_equal; bits_lia. }
  destruct (set_range_spec ws first (from - first * BITS) BITS) as (ws1 & -> & ? & ? & Hb1);
    [done|lia|bits_lia..|]. simpl.
  destruct (fill_words_spec ws1 (S first) (last - S first)) as (ws2 & -> & ? & ? & Hb2); [done|lia|]. simpl.
  destruct (set_range_spec ws2 last 0 (to - last * BITS)) as (ws3 & -> & ? & ? & Hb3); [done|lia|bits_lia..|].
  exists ws3. split_and!; [done|done|lia|]. intros i. rewrite Hb3, Hb2, Hb1.
  replace (S first + (last - S first)) with last by lia.
  replace (first * BITS + (from - first * BITS)) with from by bits_lia.
  replace (last * BITS + (to - last * BITS)) with to by bits_lia. rewrite Nat.add_0_r.
  destruct (wbit ws i); [done|]. cbn [orb].
  destruct (Nat.leb_spec from i), (Nat.ltb_spec i (first * BITS + BITS)), (Nat.leb_spec (S first * BITS) i),
    (Nat.ltb_spec i (last * BITS)), (Nat.leb_spec (last * BITS) i), (Nat.ltb_spec i to); cbn [andb orb]; try done; bits_lia.
Qed.

(** ** The buffer: invariant and items *)

Record pb_ok (b : ProposalBuffer) : Prop := {
  pb_ok_words : words_ok (pb_live b);
  pb_ok_live : length (pb_live b) = words_for (pb_len b);
  pb_ok_parents : length (pb_parents b) = pb_len b;
  pb_ok_tail : ∀ i, pb_len b <= i → wbit (pb_live b) i = false;
}.

(** What a buffer means: the tagged candidates with their liveness. *)
Abbreviation candidate := (N * list N * bool)%type (only parsing).
Definition wbits (words : list N) (from n : nat) : list bool := wbit words <$> seq from n.
Definition items (b : ProposalBuffer) : list candidate :=
  zip (zip (pb_parents b) (pb_entries b)) (wbits (pb_live b) 0 (pb_len b)).

Lemma wbits_length ws from n : length (wbits ws from n) = n.
Proof. unfold wbits. by rewrite length_fmap, length_seq. Qed.

Lemma wbits_lookup ws from n i : i < n → wbits ws from n !! i = Some (wbit ws (from + i)).
Proof. intros Hi. unfold wbits. by rewrite list_lookup_fmap, lookup_seq_lt. Qed.

Lemma wbits_app ws from n m : wbits ws from (n + m) = wbits ws from n ++ wbits ws (from + n) m.
Proof. unfold wbits. by rewrite seq_app, fmap_app. Qed.

Lemma wbits_ext ws ws' from from' n :
  (∀ i, i < n → wbit ws (from + i) = wbit ws' (from' + i)) → wbits ws from n = wbits ws' from' n.
Proof.
  intros Hb. apply list_eq. intros i. destruct (decide (i < n)) as [Hi|Hi].
  - rewrite !wbits_lookup by done. f_equal. by apply Hb.
  - rewrite !(proj2 (lookup_ge_None _ _)); [done|rewrite wbits_length; lia..].
Qed.

Lemma items_length b : pb_ok b → length (items b) = pb_len b.
Proof.
  intros Hb. unfold items. rewrite !length_zip_with, wbits_length, (pb_ok_parents _ Hb).
  unfold pb_len. lia.
Qed.

Lemma items_lookup b i p v l : pb_ok b → items b !! i = Some (p, v, l) ↔
  pb_parents b !! i = Some p ∧ pb_entries b !! i = Some v ∧ l = wbit (pb_live b) i.
Proof.
  intros Hb. unfold items. rewrite lookup_zip_with_Some. split.
  - intros (pv & l' & Heq & Hpv & Hl). simplify_eq.
    apply lookup_zip_with_Some in Hpv as (p' & v' & Heq & Hp & Hv). simplify_eq.
    split_and!; [done..|]. apply lookup_lt_Some in Hv as Hlt. rewrite wbits_lookup in Hl by done. by simplify_eq.
  - intros (Hp & Hv & ->). exists (p, v), (wbit (pb_live b) i). split_and!; [done| |].
    + apply lookup_zip_with_Some. eauto.
    + apply lookup_lt_Some in Hv. by rewrite wbits_lookup.
Qed.

(** Items determined entry by entry. *)
Lemma items_fmap_fst b : pb_ok b → (items b).*1 = zip (pb_parents b) (pb_entries b).
Proof.
  intros Hb. unfold items. apply fst_zip. rewrite wbits_length, length_zip_with, (pb_ok_parents _ Hb). unfold pb_len. lia.
Qed.

Lemma pb_len_bits b i : pb_ok b → i < pb_len b → i < BITS * length (pb_live b).
Proof.
  intros Hb Hi. rewrite (pb_ok_live _ Hb). pose proof (proj1 (words_for_le (pb_len b) _) (Nat.le_refl _)). lia.
Qed.

Lemma wbit_snoc_zero ws i : wbit (ws ++ [0%N]) i = wbit ws i.
Proof.
  unfold wbit. destruct (decide (i / BITS < length ws)).
  - by rewrite lookup_app_l.
  - rewrite (proj2 (lookup_ge_None ws _)) by lia. rewrite lookup_app_r by lia.
    destruct (i / BITS - length ws) as [|k]; [|done]. by rewrite list_lookup_singleton.
Qed.

Lemma wbit_app_zeros ws n i : wbit (ws ++ replicate n 0%N) i = wbit ws i.
Proof.
  revert ws. induction n as [|n IH]; intros ws; simpl; [by rewrite app_nil_r|].
  change (0%N :: replicate n 0%N) with ([0%N] ++ replicate n 0%N).
  rewrite app_assoc, IH. apply wbit_snoc_zero.
Qed.

Lemma words_for_add n m : words_for n <= words_for (n + m).
Proof. apply words_for_le. pose proof (proj1 (words_for_le (n + m) _) (Nat.le_refl _)). lia. Qed.

Lemma pb_new_ok : pb_ok pb_new.
Proof. split; [apply Forall_nil_2|done..]. Qed.
Lemma pb_clear_ok b : pb_ok (pb_clear b).
Proof. apply pb_new_ok. Qed.
Lemma pb_open_ok b p : pb_ok b → pb_ok (pb_open b p).
Proof. intros [????]. by split. Qed.
Lemma items_open b p : items (pb_open b p) = items b.
Proof. done. Qed.

(** The items after entries [es] with tags [ps] were appended live. *)
Lemma items_app b b' ps es : pb_ok b → pb_ok b' → length ps = length es →
  pb_parents b' = pb_parents b ++ ps → pb_entries b' = pb_entries b ++ es →
  (∀ i, wbit (pb_live b') i = wbit (pb_live b) i || ((pb_len b <=? i) && (i <? pb_len b + length es))) →
  items b' = items b ++ ((λ pv, (pv, true)) <$> zip ps es).
Proof.
  intros Hb Hb' Hlen Hp He Hl. unfold items. rewrite Hp, He.
  rewrite zip_with_app by apply (pb_ok_parents _ Hb).
  assert (pb_len b' = pb_len b + length es) as Hn by (unfold pb_len; by rewrite He, length_app).
  rewrite Hn, wbits_app, Nat.add_0_l.
  rewrite zip_with_app.
  - f_equal.
    + f_equal. apply wbits_ext. intros i Hi. rewrite Hl. simpl.
      destruct (Nat.leb_spec (pb_len b) i); [lia|]. by rewrite orb_false_r.
    + apply list_eq. intros i. apply option_eq. intros [pv l].
      rewrite lookup_zip_with_Some, list_lookup_fmap, fmap_Some. split.
      * intros (x & y & Heq & Hx & Hy). simplify_eq. exists x. split; [done|]. f_equal.
        assert (i < length es) as Hi by (apply lookup_lt_Some in Hy; by rewrite wbits_length in Hy).
        rewrite wbits_lookup in Hy by done. simplify_eq. rewrite Hl.
        destruct (Nat.leb_spec (pb_len b) (pb_len b + i)), (Nat.ltb_spec (pb_len b + i) (pb_len b + length es));
          first [lia|by rewrite orb_true_r].
      * intros (x & Hx & Heq). simplify_eq. exists x, true. split_and!; [done..|].
        assert (i < length es) as Hi by (apply lookup_lt_Some in Hx; rewrite length_zip_with in Hx; lia).
        rewrite wbits_lookup, Hl by done. f_equal.
        destruct (Nat.leb_spec (pb_len b) (pb_len b + i)), (Nat.ltb_spec (pb_len b + i) (pb_len b + length es));
          first [lia|by rewrite orb_true_r].
  - rewrite length_zip_with, wbits_length, (pb_ok_parents _ Hb). unfold pb_len. lia.
Qed.

Lemma pb_append_spec b p v : pb_ok b → ∃ b', pb_append b p v = Some b' ∧ pb_ok b' ∧
  pb_parent b' = pb_parent b ∧ items b' = items b ++ [(p, v, true)].
Proof.
  intros Hb. unfold pb_append. set (i := pb_len b).
  set (ws := if i mod BITS =? 0 then pb_live b ++ [0%N] else pb_live b).
  assert (words_ok ws ∧ length ws = words_for (S i) ∧ ∀ j, wbit ws j = wbit (pb_live b) j) as (Hok & Hlen & Hws).
  { assert (words_for (S i) = if i mod BITS =? 0 then S (words_for i) else words_for i) as ->.
    { unfold words_for. bits_of i. destruct (Nat.eqb_spec (i mod BITS) 0) as [Hz|Hz].
      - destruct (word_index (S i + (BITS - 1)) (S (i / BITS)) 0) as [-> _]; [bits_lia..|].
        destruct (word_index (i + (BITS - 1)) (i / BITS) 31) as [-> _]; bits_lia.
      - destruct (word_index (S i + (BITS - 1)) (S (i / BITS)) (i mod BITS)) as [-> _]; [bits_lia..|].
        destruct (word_index (i + (BITS - 1)) (S (i / BITS)) (i mod BITS - 1)) as [-> _]; bits_lia. }
    unfold ws. destruct (i mod BITS =? 0); split_and!; try done.
    - apply Forall_app. split; [apply (pb_ok_words _ Hb)|]. by repeat constructor.
    - rewrite length_app, (pb_ok_live _ Hb). simpl. fold i. lia.
    - intros j. apply wbit_snoc_zero.
    - apply (pb_ok_words _ Hb).
    - apply (pb_ok_live _ Hb). }
  destruct (set_bit_spec ws i) as (ws' & -> & Hok' & Hl' & Hb'); [done| |].
  { rewrite Hlen. pose proof (proj1 (words_for_le (S i) _) (Nat.le_refl _)). lia. }
  simpl. eexists. split; [done|].
  assert (pb_ok (mkProposalBuffer (pb_entries b ++ [v]) ws' (pb_parents b ++ [p]) (pb_parent b))) as Hok2.
  { split; unfold pb_len; simpl; rewrite ?length_app; simpl.
    - done.
    - rewrite Hl', Hlen. f_equal. unfold i, pb_len. lia.
    - rewrite (pb_ok_parents _ Hb). done.
    - intros j Hj. rewrite Hb', Hws, (pb_ok_tail _ Hb) by (unfold pb_len; lia).
      simpl. apply Nat.eqb_neq. unfold i, pb_len. lia. }
  split_and!; [done..|]. apply (items_app b _ [p] [v]); [done..|]. intros j. simpl. rewrite Hb', Hws. f_equal. fold i.
  destruct (Nat.eqb_spec j i), (Nat.leb_spec i j), (Nat.ltb_spec j (i + 1)); simpl; (done || lia).
Qed.

Lemma pb_push_spec b v : pb_ok b → ∃ b', pb_push b v = Some b' ∧ pb_ok b' ∧
  pb_parent b' = pb_parent b ∧ items b' = items b ++ [(pb_parent b, v, true)].
Proof. apply pb_append_spec. Qed.

Lemma pb_extend_spec b vs : pb_ok b → ∃ b', pb_extend b vs = Some b' ∧ pb_ok b' ∧
  pb_parent b' = pb_parent b ∧ items b' = items b ++ ((λ v, (pb_parent b, v, true)) <$> vs).
Proof.
  unfold pb_extend. revert b. induction vs as [|v vs IH]; intros b Hb; simpl.
  { exists b. by rewrite app_nil_r. }
  destruct (pb_push_spec b v Hb) as (b1 & -> & Hb1 & Hp1 & Hi1). simpl.
  destruct (IH b1 Hb1) as (b' & -> & ? & Hp & Hi). exists b'. split_and!; [done..|congruence|].
  by rewrite Hi, Hi1, Hp1, <- app_assoc.
Qed.

Lemma zip_replicate {A B} (x : A) (l : list B) : zip (replicate (length l) x) l = (λ y, (x, y)) <$> l.
Proof. induction l as [|y l IH]; simpl; f_equal; done. Qed.

Lemma pb_extend_from_slice_spec b vs : pb_ok b → ∃ b', pb_extend_from_slice b vs = Some b' ∧ pb_ok b' ∧
  pb_parent b' = pb_parent b ∧ items b' = items b ++ ((λ v, (pb_parent b, v, true)) <$> vs).
Proof.
  intros Hb. unfold pb_extend_from_slice. rewrite length_app. fold (pb_len b). set (to := pb_len b + length vs).
  assert (length (vec_resize (pb_live b) (words_for to) 0%N) = words_for to) as Hlen.
  { unfold vec_resize. rewrite length_app, length_take, length_replicate, (pb_ok_live _ Hb).
    pose proof (words_for_add (pb_len b) (length vs)). lia. }
  assert (vec_resize (pb_live b) (words_for to) 0%N =
    pb_live b ++ replicate (words_for to - words_for (pb_len b)) 0%N) as He.
  { unfold vec_resize. rewrite (pb_ok_live _ Hb), take_ge; [done|].
    rewrite (pb_ok_live _ Hb). apply words_for_add. }
  destruct (set_bits_spec (vec_resize (pb_live b) (words_for to) 0%N) (pb_len b) to) as (ws & -> & Hok & Hl & Hbits).
  { rewrite He. apply Forall_app. split; [apply (pb_ok_words _ Hb)|]. by apply Forall_replicate. }
  { rewrite Hlen. by apply words_for_le. }
  simpl. eexists. split; [done|].
  assert (vec_resize (pb_parents b) to (pb_parent b) = pb_parents b ++ replicate (length vs) (pb_parent b)) as Hp.
  { unfold vec_resize. rewrite (pb_ok_parents _ Hb), take_ge by (rewrite (pb_ok_parents _ Hb); unfold to; lia).
    do 2 f_equal. unfold to. lia. }
  assert (∀ i, wbit ws i = wbit (pb_live b) i || ((pb_len b <=? i) && (i <? to))) as Hw.
  { intros i. by rewrite Hbits, He, wbit_app_zeros. }
  assert (pb_ok (mkProposalBuffer (pb_entries b ++ vs) ws (vec_resize (pb_parents b) to (pb_parent b)) (pb_parent b))) as Hok2.
  { split; unfold pb_len; simpl; rewrite ?length_app; fold (pb_len b); fold to.
    - done.
    - congruence.
    - rewrite Hp, length_app, length_replicate, (pb_ok_parents _ Hb). done.
    - intros i Hi. rewrite Hw, (pb_ok_tail _ Hb) by (unfold to in *; lia). simpl.
      apply andb_false_iff. right. by apply Nat.ltb_ge. }
  split_and!; [done..|].
  rewrite (items_app b _ (replicate (length vs) (pb_parent b)) vs); try done.
  - by rewrite zip_replicate, <- list_fmap_compose.
  - by rewrite length_replicate.
Qed.

(** The least live entry from [from] on. *)
Definition least_live (b : ProposalBuffer) (from : nat) (r : option nat) : Prop :=
  match r with
  | Some i => from <= i < pb_len b ∧ wbit (pb_live b) i = true ∧ ∀ j, from <= j < i → wbit (pb_live b) j = false
  | None => ∀ j, from <= j → wbit (pb_live b) j = false
  end.

(** [word]: what is left of word [w]; bits below [from] are masked off. *)
Lemma next_live_loop b from w word fuel : pb_ok b → (word < 2 ^ 32)%N → w < length (pb_live b) →
  from <= S w * BITS →
  (∀ j, j < BITS → N.testbit word (N.of_nat j) = (from <=? w * BITS + j) && wbit (pb_live b) (w * BITS + j)) →
  (∀ j, from <= j < w * BITS → wbit (pb_live b) j = false) →
  length (pb_live b) < w + fuel →
  ∃ r, loopM (next_live_body (pb_live b)) fuel (w, word) = Some r ∧ least_live b from r.
Proof.
  intros Hb. revert w word. induction fuel as [|fuel IH]; intros w word Hword Hw Hfrom Hbits Hprev Hfuel; [lia|].
  simpl. destruct (N.eqb_spec word 0) as [->|Hne]; simpl.
  - assert (∀ j, from <= j < S w * BITS → wbit (pb_live b) j = false) as Hprev'.
    { intros j Hj. destruct (decide (j < w * BITS)); [apply Hprev; lia|].
      specialize (Hbits (j - w * BITS) ltac:(lia)). rewrite N.bits_0 in Hbits.
      replace (w * BITS + (j - w * BITS)) with j in Hbits by lia.
      destruct (Nat.leb_spec from j); [done|lia]. }
    destruct (Nat.leb_spec (length (pb_live b)) (S w)) as [Hge|Hlt]; simpl.
    + eexists. split; [done|]. intros j Hj. destruct (decide (j < S w * BITS)); [by apply Hprev'|].
      destruct (wbit (pb_live b) j) eqn:E; [|done]. apply wbit_bound in E. nia.
    + destruct (lookup_lt_is_Some_2 (pb_live b) (S w)) as [word' Hword']; [lia|]. rewrite Hword'. simpl.
      apply IH; try lia.
      * by apply (words_lookup _ _ _ (pb_ok_words _ Hb) Hword').
      * intros j Hj. rewrite (wbit_at _ _ _ _ Hword') by done. destruct (Nat.leb_spec from (S w * BITS + j)); [done|lia].
      * done.
  - destruct (trailing_zeros_lt 32 word) as (Hlt & Htrue & Hzero); [done..|].
    set (t := N.to_nat (trailing_zeros word)). assert (t < BITS) as Ht by (unfold t; bits_lia).
    assert (trailing_zeros word = N.of_nat t) as Et by (unfold t; lia).
    rewrite Et in Htrue. rewrite Hbits in Htrue by done. apply andb_true_iff in Htrue as [Hf Hl].
    apply Nat.leb_le in Hf. eexists. split; [done|]. fold t. split_and!; [done| |done|].
    + destruct (decide (w * BITS + t < pb_len b)); [done|]. rewrite (pb_ok_tail _ Hb) in Hl; [done|lia].
    + intros j Hj. destruct (decide (j < w * BITS)); [apply Hprev; lia|].
      specialize (Hbits (j - w * BITS) ltac:(lia)). replace (w * BITS + (j - w * BITS)) with j in Hbits by lia.
      rewrite Hzero in Hbits by lia. destruct (Nat.leb_spec from j); [done|lia].
Qed.

(** A word with the bits below [from] masked off. *)
Lemma head_mask b from word j : pb_ok b → pb_live b !! (from / BITS) = Some word → j < BITS →
  N.testbit (N.land word (wshl 32 (N.ones 32) (N.of_nat (from mod BITS)))) (N.of_nat j) =
  (from <=? from / BITS * BITS + j) && wbit (pb_live b) (from / BITS * BITS + j).
Proof.
  intros Hb Hw Hj. rewrite (wbit_at _ _ _ _ Hw) by done. bits_of from.
  rewrite N.land_spec, testbit_wshl, testbit_ones by bits_lia.
  rewrite andb_comm. f_equal.
  destruct (N.ltb_spec (N.of_nat j) 32), (N.leb_spec (N.of_nat (from mod BITS)) (N.of_nat j)),
    (N.ltb_spec (N.of_nat j - N.of_nat (from mod BITS)) 32), (Nat.leb_spec from (from / BITS * BITS + j));
    cbn [andb]; (done || bits_lia).
Qed.

Lemma pb_next_live_spec b from : pb_ok b → ∃ r, pb_next_live b from = Some r ∧ least_live b from r.
Proof.
  intros Hb. unfold pb_next_live. destruct (Nat.leb_spec (pb_len b) from) as [Hle|Hlt].
  { eexists. split; [done|]. intros j Hj. apply (pb_ok_tail _ Hb). lia. }
  pose proof (div_lt_words _ _ (pb_len_bits b from Hb Hlt)) as Hw.
  destruct (lookup_lt_is_Some_2 _ _ Hw) as [word Hword]. rewrite Hword. cbn [mbind option_bind]. bits_of from.
  apply next_live_loop; try done; try lia.
  - by apply land_word, (words_lookup _ _ _ (pb_ok_words _ Hb) Hword).
  - intros j Hj. by apply head_mask.
Qed.

Definition is_live_item (it : candidate) : bool := it.2.

Lemma filter_live_spec {A} ws (l : list A) i : i + length l <= BITS * length ws →
  filter_live ws i l = Some (filter (λ xl, xl.2 = true) (zip l (wbits ws i (length l)))).*1.
Proof.
  revert i. induction l as [|x l IH]; intros i Hi; cbn [length filter_live] in *; [done|].
  rewrite read_bit_spec by lia. cbn [mbind option_bind]. rewrite IH by lia. simpl.
  rewrite filter_cons. simpl. by destruct (wbit ws i).
Qed.

Lemma drop_wbits ws from n k : k <= n → drop k (wbits ws from n) = wbits ws (from + k) (n - k).
Proof.
  intros Hk. replace n with (k + (n - k)) at 1 by lia. rewrite wbits_app, drop_app_length'; [done|].
  by rewrite wbits_length.
Qed.

Lemma drop_items b base : pb_ok b → base <= pb_len b →
  drop base (items b) = zip (zip (drop base (pb_parents b)) (drop base (pb_entries b)))
    (wbits (pb_live b) base (pb_len b - base)).
Proof. intros Hb Hbase. unfold items. by rewrite !zip_with_drop, drop_wbits. Qed.

Lemma pb_tagged_spec b base : pb_ok b → base <= pb_len b →
  pb_tagged b base = Some (filter (λ it, it.2 = true) (drop base (items b))).*1.
Proof.
  intros Hb Hbase. unfold pb_tagged. rewrite (pb_ok_parents _ Hb). apply Nat.leb_le in Hbase as Hle.
  rewrite Hle. simpl. assert (length (zip (drop base (pb_parents b)) (drop base (pb_entries b))) = pb_len b - base) as Hl.
  { rewrite length_zip_with, !length_drop, (pb_ok_parents _ Hb). unfold pb_len. lia. }
  rewrite filter_live_spec, Hl, drop_items; [done..|].
  rewrite Hl. pose proof (proj1 (words_for_le (pb_len b) _) (Nat.le_refl _)). rewrite (pb_ok_live _ Hb). lia.
Qed.

Lemma truncate_live_spec ws n : words_ok ws → n <= BITS * length ws →
  ∃ ws', truncate_live ws n = Some ws' ∧ words_ok ws' ∧ length ws' = words_for n ∧
    ∀ i, wbit ws' i = wbit ws i && (i <? n).
Proof.
  intros Hok Hn. unfold truncate_live. set (ws1 := take (words_for n) ws).
  assert (length ws1 = words_for n) as Hl1.
  { unfold ws1. rewrite length_take. apply words_for_le in Hn. lia. }
  assert (words_ok ws1) as Hok1 by by apply Forall_take.
  assert (∀ i, wbit ws1 i = wbit ws i && (i / BITS <? words_for n)) as Hb1.
  { intros i. unfold wbit, ws1. destruct (Nat.ltb_spec (i / BITS) (words_for n)).
    - rewrite lookup_take_lt by done. by rewrite andb_true_r.
    - rewrite lookup_take_ge by done. by rewrite andb_false_r. }
  bits_of n. destruct (Nat.eqb_spec (n mod BITS) 0) as [Hz|Hz]; simpl.
  - exists ws1. split_and!; [done..|]. intros i. rewrite Hb1. f_equal. bits_of i.
    assert (words_for n = n / BITS) as ->.
    { unfold words_for. apply (word_index _ _ 31); bits_lia. }
    destruct (Nat.ltb_spec (i / BITS) (n / BITS)), (Nat.ltb_spec i n); try done; bits_lia.
  - assert (words_for n = S (n / BITS)) as Hwf.
    { unfold words_for. apply (word_index _ _ (n mod BITS - 1)); bits_lia. }
    destruct (Nat.ltb_spec 0 (length ws1)); [|lia]. cbn [massert mbind option_bind].
    rewrite Hl1, Hwf. replace (S (n / BITS) - 1) with (n / BITS) by lia.
    destruct (word_update_bits ws1 (n / BITS) (λ w, N.land w (bit_range_mask 0 (n mod BITS)))
      (λ i x, x && (i <? n))) as (ws' & -> & ? & ? & Hb'); [done|lia| |].
    { intros w Hw. split; [by apply land_word|]. intros j Hj.
      rewrite N.land_spec, testbit_range_mask by lia. f_equal. simpl.
      destruct (Nat.ltb_spec j (n mod BITS)), (Nat.ltb_spec (n / BITS * BITS + j) n); try done; bits_lia. }
    exists ws'. split_and!; [done..|lia|]. intros i. rewrite Hb', Hb1, Hwf. bits_of i.
    destruct (Nat.eqb_spec (i / BITS) (n / BITS)), (wbit ws i), (Nat.ltb_spec (i / BITS) (S (n / BITS))),
      (Nat.ltb_spec i n); cbn [andb]; try done; bits_lia.
Qed.

(** A prefix of a buffer. *)
Lemma pb_prefix b n ws : pb_ok b → n <= pb_len b → words_ok ws → length ws = words_for n →
  (∀ i, wbit ws i = wbit (pb_live b) i && (i <? n)) →
  let b' := mkProposalBuffer (take n (pb_entries b)) ws (take n (pb_parents b)) (pb_parent b) in
  pb_ok b' ∧ items b' = take n (items b).
Proof.
  intros Hb Hn Hok Hl Hbits b'.
  assert (pb_len b' = n) as Hlen by (unfold b', pb_len in *; simpl; rewrite length_take; lia).
  split.
  - split; [done|by rewrite Hlen| |].
    + rewrite Hlen. unfold b'. simpl. rewrite length_take, (pb_ok_parents _ Hb). lia.
    + intros i Hi. unfold b'. simpl. rewrite Hbits. rewrite Hlen in Hi.
      apply andb_false_iff. right. by apply Nat.ltb_ge.
  - unfold items. rewrite Hlen. unfold b'. simpl. rewrite !zip_with_take. f_equal.
    rewrite <- (firstn_skipn n (wbits (pb_live b) 0 (pb_len b))) at 1.
    rewrite take_app_length' by (rewrite length_take, wbits_length; lia).
    apply list_eq. intros i. destruct (decide (i < n)).
    + rewrite lookup_take_lt, !wbits_lookup by lia. rewrite Hbits. simpl.
      rewrite (proj2 (Nat.ltb_lt _ _)) by done. by rewrite andb_true_r.
    + rewrite lookup_take_ge by lia. apply lookup_ge_None. rewrite wbits_length. lia.
Qed.

Lemma pb_rewrite_region_spec b base values : pb_ok b → base <= pb_len b →
  ∃ b', pb_rewrite_region b base values = Some b' ∧ pb_ok b' ∧
    items b' = take base (items b) ++ ((λ pv, (pv, true)) <$> values).
Proof.
  intros Hb Hbase. unfold pb_rewrite_region.
  destruct (truncate_live_spec (pb_live b) base) as (ws & -> & Hok & Hl & Hbits); [apply (pb_ok_words _ Hb)| |].
  { rewrite (pb_ok_live _ Hb). pose proof (proj1 (words_for_le (pb_len b) _) (Nat.le_refl _)).
    lia. }
  cbn [mbind option_bind]. destruct (pb_prefix b base ws Hb Hbase Hok Hl Hbits) as [Hb0 Hi0].
  revert Hb0 Hi0. generalize (mkProposalBuffer (take base (pb_entries b)) ws (take base (pb_parents b)) (pb_parent b)) as b0.
  generalize (take base (items b)) as its. clear. induction values as [|[p v] values IH]; intros its b0 Hb0 Hi0; simpl.
  { exists b0. by rewrite app_nil_r. }
  destruct (pb_append_spec b0 p v Hb0) as (b1 & -> & Hb1 & _ & Hi1). simpl.
  destruct (IH (its ++ [(p, v, true)]) b1 Hb1) as (b' & -> & ? & Hi); [by rewrite Hi1, Hi0|].
  exists b'. split_and!; [done..|]. by rewrite Hi, <- app_assoc.
Qed.

Lemma zip_fmap_tag {A B C D} (f : A → D) (l : list A) (k : list B) (m : list C) :
  zip (zip (f <$> l) k) m = (λ it : A * B * C, (f it.1.1, it.1.2, it.2)) <$> zip (zip l k) m.
Proof. revert k m. induction l as [|x l IH]; intros [|y k] [|z m]; simpl; f_equal; auto. Qed.

Lemma pb_remap_region_spec b base map : pb_ok b → base <= pb_len b →
  (∀ p, p ∈ drop base (pb_parents b) → N.to_nat p < length map) →
  ∃ b', pb_remap_region b base map = Some b' ∧ pb_ok b' ∧
    items b' = take base (items b) ++
      ((λ it : candidate, (default 0%N (map !! N.to_nat it.1.1), it.1.2, it.2)) <$> drop base (items b)).
Proof.
  intros Hb Hbase Hmap. unfold pb_remap_region. rewrite (pb_ok_parents _ Hb).
  apply Nat.leb_le in Hbase as Hle. rewrite Hle. simpl.
  set (f := λ p : N, default 0%N (map !! N.to_nat p)).
  assert (mapM (λ parent, map !! N.to_nat parent) (drop base (pb_parents b)) = Some (f <$> drop base (pb_parents b))) as ->.
  { apply mapM_Some_2, Forall2_fmap_r, Forall2_same_length_lookup_2; [done|]. intros i x y Hx Hy. simplify_eq.
    apply list_elem_of_lookup_2 in Hx. apply Hmap in Hx. unfold f, compose.
    by destruct (lookup_lt_is_Some_2 map (N.to_nat x) Hx) as [z ->]. }
  simpl. eexists. split; [done|].
  assert (length (pb_parents b) = length (pb_entries b)) as Hpe by apply (pb_ok_parents _ Hb).
  split.
  - destruct Hb as [H1 H2 H3 H4]. split; [done..| |done]. unfold pb_len in *. simpl.
    rewrite length_app, length_fmap, length_take, length_drop. lia.
  - rewrite (drop_items b base) by done. unfold items. unfold pb_len at 1. simpl. fold (pb_len b).
    rewrite !zip_with_take.
    rewrite <- (take_drop base (pb_entries b)) at 1. rewrite zip_with_app
      by (rewrite !length_take, Hpe; done).
    replace (pb_len b) with (base + (pb_len b - base)) at 1 by lia. rewrite wbits_app, zip_with_app.
    + f_equal.
      * f_equal. replace (pb_len b) with (base + (pb_len b - base)) by lia. rewrite wbits_app, take_app_length'; [done|].
        by rewrite wbits_length.
      * apply (zip_fmap_tag f).
    + rewrite length_zip_with, !length_take, wbits_length. unfold pb_len in *. lia.
Qed.

(** [retain_region] filters in place: what is written never overtakes what is
    read, so entries from [read] on are as they were. *)
Section retain.
Context (b : ProposalBuffer) (Hb : pb_ok b) (base : nat) (Hbase : base <= pb_len b).
Context (keep : N → RawInline → res bool) (k : candidate → bool).
Hypothesis Hkeep : ∀ p v l, (p, v, l) ∈ drop base (items b) → keep p v = Some (k (p, v, l)).

Definition kept_until (read : nat) : list candidate :=
  take base (items b) ++ filter (λ it, k it = true) (take (read - base) (drop base (items b))).

Record retain_inv (read : nat) (st : list RawInline * list N * list N * nat) : Prop := {
  ri_entries : length st.1.1.1 = pb_len b;
  ri_parents : length st.1.2 = pb_len b;
  ri_live : length st.1.1.2 = length (pb_live b);
  ri_words : words_ok st.1.1.2;
  ri_write : st.2 = length (kept_until read);
  ri_rest : ∀ i, read <= i → st.1.1.1 !! i = pb_entries b !! i ∧ st.1.2 !! i = pb_parents b !! i ∧
    wbit st.1.1.2 i = wbit (pb_live b) i;
  ri_done : ∀ i p v l, kept_until read !! i = Some (p, v, l) →
    st.1.1.1 !! i = Some v ∧ st.1.2 !! i = Some p ∧ wbit st.1.1.2 i = l;
}.

Lemma kept_until_length read : base <= read <= pb_len b → length (kept_until read) <= read.
Proof.
  intros Hr. unfold kept_until. rewrite length_app, length_take, items_length by done.
  pose proof (length_filter (λ it, k it = true) (take (read - base) (drop base (items b)))) as Hf.
  rewrite length_take in Hf. lia.
Qed.

Lemma kept_until_S read it : base <= read → items b !! read = Some it →
  kept_until (S read) = kept_until read ++ (if k it then [it] else []).
Proof.
  intros Hr Hit. unfold kept_until. rewrite <- app_assoc. f_equal.
  replace (S read - base) with (S (read - base)) by lia.
  rewrite (take_S_r _ _ it) by (rewrite lookup_drop; by replace (base + (read - base)) with read by lia).
  rewrite filter_app. f_equal. rewrite filter_cons, filter_nil. by destruct (k it).
Qed.

(** A bit copied to [write]. *)
Lemma move_bit_spec ws write (bit : bool) : words_ok ws → write < BITS * length ws →
  ∃ ws', word_update ws (write / BITS) (λ w,
      N.lor (N.land w (wnot 32 (wshl 32 1 (N.of_nat (write mod BITS)))))
        (wshl 32 (N.b2n bit) (N.of_nat (write mod BITS)))) = Some ws' ∧ words_ok ws' ∧
    length ws' = length ws ∧ ∀ i, wbit ws' i = if i =? write then bit else wbit ws i.
Proof.
  intros Hok Hw. destruct (word_update_bits ws (write / BITS) (λ w,
      N.lor (N.land w (wnot 32 (wshl 32 1 (N.of_nat (write mod BITS)))))
        (wshl 32 (N.b2n bit) (N.of_nat (write mod BITS)))) (λ i x, if i =? write then bit else x))
    as (ws' & -> & ? & ? & Hbits); [done|by apply div_lt_words| |].
  { intros w Hlt. split; [by apply lor_word, wshl_word; apply land_word|]. intros j Hj.
    fold (one_bit write). bits_of write.
    rewrite N.lor_spec, N.land_spec, testbit_wnot, testbit_one_bit by done.
    assert (N.testbit (wshl 32 (N.b2n bit) (N.of_nat (write mod BITS))) (N.of_nat j) = (j =? write mod BITS) && bit) as ->.
    { destruct bit; cbn [N.b2n]; rewrite ?andb_true_r, ?andb_false_r.
      - by apply testbit_one_bit.
      - rewrite testbit_wshl, N.bits_0 by bits_lia. by rewrite andb_false_r. }
    rewrite (proj2 (N.ltb_lt (N.of_nat j) 32)) by bits_lia.
    destruct (Nat.eqb_spec j (write mod BITS)), (Nat.eqb_spec (write / BITS * BITS + j) write); try bits_lia;
      cbn [andb negb orb]; rewrite ?andb_false_r, ?andb_true_r, ?orb_false_r; done. }
  exists ws'. split_and!; [done..|]. intros i. rewrite Hbits. destruct (Nat.eqb_spec (i / BITS) (write / BITS)); [done|].
  destruct (Nat.eqb_spec i write) as [->|]; done.
Qed.

Lemma retain_step_inv read st : base <= read < pb_len b → retain_inv read st →
  ∃ st', retain_region_step keep st read = Some st' ∧ retain_inv (S read) st'.
Proof.
  intros Hr Hinv. destruct st as [[[entries live] parents] write]. destruct Hinv as [H1 H2 H3 H4 H5 H6 H7]; simpl in *.
  destruct (lookup_lt_is_Some_2 (items b) read) as [[[p v] l] Hit]; [rewrite items_length by done; lia|].
  apply items_lookup in Hit as Hit'; [|done]. destruct Hit' as (Hp & Hv & Hl).
  destruct (H6 read (Nat.le_refl _)) as (E1 & E2 & E3). rewrite E2, Hp. simpl. rewrite E1, Hv. simpl.
  rewrite (Hkeep p v l); [|apply list_elem_of_lookup; exists (read - base);
    rewrite lookup_drop; by replace (base + (read - base)) with read by lia].
  simpl. pose proof (kept_until_length read ltac:(lia)) as Hwr. rewrite <- H5 in Hwr.
  pose proof (kept_until_S read _ ltac:(lia) Hit) as HS.
  destruct (k (p, v, l)) eqn:Hk.
  - rewrite !arr_set_Some by lia. cbn [mbind option_bind].
    pose proof (pb_len_bits b read Hb ltac:(lia)) as Hrb. rewrite <- H3 in Hrb.
    destruct (lookup_lt_is_Some_2 live (read / BITS)) as [word Hword]; [by apply div_lt_words|].
    rewrite Hword. cbn [mbind option_bind]. rewrite shiftr_land_one, <- (wbit_lookup _ _ _ Hword), E3, <- Hl.
    destruct (move_bit_spec live write l) as (ws' & -> & ? & Hlen & Hbits); [done|lia|]. cbn [mbind option_bind].
    eexists. split; [done|]. split; simpl.
    + by rewrite length_insert.
    + by rewrite length_insert.
    + lia.
    + done.
    + rewrite HS, length_app. simpl. lia.
    + intros i Hi. rewrite !list_lookup_insert_ne by lia. rewrite Hbits, (proj2 (Nat.eqb_neq _ _)) by lia.
      apply H6. lia.
    + intros i p' v' l' Hi. rewrite HS in Hi. rewrite Hbits. destruct (Nat.eqb_spec i write) as [->|Hne].
      * rewrite H5, lookup_app_r, Nat.sub_diag in Hi by done. simplify_eq/=.
        rewrite !list_lookup_insert_eq by lia. done.
      * rewrite !list_lookup_insert_ne by done. apply H7.
        apply lookup_lt_Some in Hi as Hlt. rewrite length_app in Hlt. simpl in Hlt.
        rewrite lookup_app_l in Hi by lia. done.
  - eexists. split; [done|]. split; simpl; try done.
    + by rewrite HS, app_nil_r.
    + intros i Hi. apply H6. lia.
    + intros i p' v' l'. rewrite HS, app_nil_r. apply H7.
Qed.

Lemma retain_loop n read st : base <= read → read + n <= pb_len b → retain_inv read st →
  ∃ st', foldM (retain_region_step keep) st (seq read n) = Some st' ∧ retain_inv (read + n) st'.
Proof.
  revert read st. induction n as [|n IH]; intros read st Hr Hn Hinv; simpl.
  { exists st. by rewrite Nat.add_0_r. }
  destruct (retain_step_inv read st) as (st1 & -> & Hinv1); [lia|done|]. simpl.
  destruct (IH (S read) st1) as (st' & -> & Hinv'); [lia..|done|]. exists st'.
  by replace (read + S n) with (S read + n) by lia.
Qed.

Lemma pb_retain_region_spec : ∃ b', pb_retain_region b base keep = Some b' ∧ pb_ok b' ∧
  pb_parent b' = pb_parent b ∧
  items b' = take base (items b) ++ filter (λ it, k it = true) (drop base (items b)).
Proof.
  unfold pb_retain_region.
  destruct (retain_loop (pb_len b - base) base (pb_entries b, pb_live b, pb_parents b, base))
    as (st & -> & Hinv); [done|lia| |].
  { split; simpl; try done.
    - apply (pb_ok_parents _ Hb).
    - apply (pb_ok_words _ Hb).
    - unfold kept_until. rewrite Nat.sub_diag, take_0, filter_nil, app_nil_r, length_take, items_length by done. lia.
    - intros i p v l. unfold kept_until. rewrite Nat.sub_diag, take_0, filter_nil, app_nil_r.
      intros Hi. apply lookup_take_Some in Hi as [Hi _].
      apply items_lookup in Hi as (? & ? & ?); done. }
  replace (base + (pb_len b - base)) with (pb_len b) in Hinv by lia.
  pose proof (kept_until_length (pb_len b) ltac:(lia)) as Hwl.
  assert (kept_until (pb_len b) = take base (items b) ++ filter (λ it, k it = true) (drop base (items b))) as Hku.
  { unfold kept_until. rewrite (take_ge (drop base (items b))); [done|]. rewrite length_drop, items_length by done. lia. }
  destruct st as [[[entries live] parents] write]. destruct Hinv as [H1 H2 H3 H4 H5 H6 H7]; simpl in *.
  destruct (truncate_live_spec live write) as (ws & -> & Hok & Hl & Hbits); [done| |].
  { rewrite H3, (pb_ok_live _ Hb). pose proof (proj1 (words_for_le (pb_len b) _) (Nat.le_refl _)). lia. }
  simpl. eexists. split; [done|].
  match goal with |- pb_ok ?x ∧ _ => set (b' := x) end.
  assert (pb_len b' = write) as Hlen by (unfold b', pb_len in *; simpl; rewrite length_take; lia).
  assert (pb_ok b') as Hb'.
  { split; [done|by rewrite Hlen| |].
    - rewrite Hlen. unfold b'. simpl. rewrite length_take. lia.
    - intros i Hi. unfold b'. simpl. rewrite Hbits. rewrite Hlen in Hi. apply andb_false_iff. right. by apply Nat.ltb_ge. }
  split_and!; [done..|]. rewrite <- Hku. apply list_eq. intros i. apply option_eq. intros [[p v] l].
  rewrite items_lookup by done. unfold b'. simpl. rewrite !lookup_take_Some, Hbits. split.
  - intros ([Hp Hi] & [Hv _] & ->). destruct (lookup_lt_is_Some_2 (kept_until (pb_len b)) i) as [[[p' v'] l'] Hi']; [lia|].
    destruct (H7 _ _ _ _ Hi') as (? & ? & Hl'). rewrite (proj2 (Nat.ltb_lt _ _)), andb_true_r by done. simplify_eq. done.
  - intros Hi. destruct (H7 _ _ _ _ Hi) as (? & ? & ?). apply lookup_lt_Some in Hi. rewrite <- H5 in Hi.
    rewrite (proj2 (Nat.ltb_lt _ _)), andb_true_r by done. done.
Qed.
End retain.

(** ** Counting live entries *)

Definition count_true (l : list bool) : nat := length (filter (λ x, x = true) l).

Lemma count_true_app l l' : count_true (l ++ l') = count_true l + count_true l'.
Proof. unfold count_true. by rewrite filter_app, length_app. Qed.

Lemma count_true_fmap {A} (f : A → bool) (l : list A) :
  count_true (f <$> l) = length (filter (λ x, f x = true) l).
Proof.
  unfold count_true. induction l as [|x l IH]; [done|]. rewrite fmap_cons, !filter_cons.
  destruct (f x); simpl; [by rewrite IH|done].
Qed.

Lemma count_true_false l : (∀ x, x ∈ l → x = false) → count_true l = 0.
Proof.
  unfold count_true. intros Hl. induction l as [|x l IH]; [done|]. rewrite filter_cons, (Hl x) by set_solver.
  simpl. apply IH. set_solver.
Qed.

Lemma count_ones_bits w : (w < 2 ^ 32)%N →
  count_ones w = count_true ((λ i, N.testbit w (N.of_nat i)) <$> seq 0 BITS).
Proof.
  intros Hw. unfold count_ones. change 128 with (BITS + 96). rewrite seq_app, filter_app, length_app, count_true_fmap.
  rewrite (proj2 (length_zero_iff_nil (filter _ (seq (0 + BITS) 96)))); [lia|].
  apply elem_of_nil_inv. intros i Hi. apply list_elem_of_filter in Hi as [Hb Hi%elem_of_seq].
  by rewrite word_high in Hb by (done || lia).
Qed.

Lemma count_ones_word ws k w : words_ok ws → ws !! k = Some w →
  count_ones w = count_true (wbits ws (k * BITS) BITS).
Proof.
  intros Hok Hw. rewrite count_ones_bits by by eapply words_lookup. f_equal. unfold wbits.
  apply list_eq. intros i. rewrite !list_lookup_fmap. destruct (decide (i < BITS)).
  - rewrite !lookup_seq_lt by done. simpl. f_equal. by rewrite (wbit_at _ _ _ _ Hw).
  - by rewrite !lookup_seq_ge by lia.
Qed.

Lemma count_ones_words ws k n : words_ok ws → k + n = length ws →
  sum_list (count_ones <$> drop k ws) = count_true (wbits ws (k * BITS) (n * BITS)).
Proof.
  intros Hok. revert k. induction n as [|n IH]; intros k Hk.
  { rewrite drop_ge by lia. done. }
  destruct (lookup_lt_is_Some_2 ws k) as [w Hw]; [lia|]. rewrite (drop_S _ _ _ Hw), fmap_cons.
  change (count_ones w + sum_list (count_ones <$> drop (S k) ws) = count_true (wbits ws (k * BITS) (S n * BITS))).
  rewrite (count_ones_word _ _ _ Hok Hw), (IH (S k)) by lia.
  replace (S n * BITS) with (BITS + n * BITS) by lia. rewrite wbits_app, count_true_app.
  by replace (S k * BITS) with (k * BITS + BITS) by lia.
Qed.

Lemma count_items b from : pb_ok b → from <= pb_len b →
  length (filter (λ it, it.2 = true) (drop from (items b))) = count_true (wbits (pb_live b) from (pb_len b - from)).
Proof.
  intros Hb Hf. rewrite <- (count_true_fmap (λ it : candidate, it.2)). rewrite drop_items by done. f_equal.
  apply snd_zip. rewrite wbits_length, length_zip_with, !length_drop, (pb_ok_parents _ Hb). unfold pb_len. lia.
Qed.

Lemma pb_count_live_spec b from : pb_ok b →
  pb_count_live b from = Some (length (filter (λ it, it.2 = true) (drop from (items b)))).
Proof.
  intros Hb. unfold pb_count_live. destruct (Nat.leb_spec (pb_len b) from) as [Hle|Hlt].
  { rewrite drop_ge by (rewrite items_length; done). done. }
  pose proof (div_lt_words _ _ (pb_len_bits b from Hb Hlt)) as Hw. set (k := from / BITS) in *.
  destruct (lookup_lt_is_Some_2 _ _ Hw) as [word Hword]. rewrite Hword. cbn [mbind option_bind]. f_equal.
  rewrite count_items, (count_ones_words _ _ (length (pb_live b) - S k)) by (apply Hb || lia).
  bits_of from. fold k in H.
  rewrite count_ones_bits by by apply land_word, (words_lookup _ _ _ (pb_ok_words _ Hb) Hword).
  assert (∀ n m, count_true (wbits (pb_live b) (pb_len b + n) m) = 0) as Htail.
  { intros n m. apply count_true_false. intros x Hx. unfold wbits in Hx.
    apply list_elem_of_fmap in Hx as (i & -> & Hi%elem_of_seq). apply (pb_ok_tail _ Hb). lia. }
  assert (pb_len b <= BITS * length (pb_live b)) as Hn.
  { rewrite (pb_ok_live _ Hb). by apply words_for_le. }
  (* both sides count the bits from [from] to the end of the last word *)
  transitivity (count_true (wbits (pb_live b) from (BITS * length (pb_live b) - from))).
  - replace (BITS * length (pb_live b) - from) with ((S k * BITS - from) + (length (pb_live b) - S k) * BITS) by nia.
    rewrite wbits_app, count_true_app. replace (from + (S k * BITS - from)) with (S k * BITS) by lia. f_equal.
    replace (seq 0 BITS) with (seq 0 (from mod BITS) ++ seq (from mod BITS) (S k * BITS - from)).
    2: { rewrite <- (Nat.add_0_l (from mod BITS)) at 2. rewrite <- seq_app. f_equal. lia. }
    rewrite fmap_app, count_true_app, count_true_false.
    + rewrite Nat.add_0_l. f_equal. unfold wbits. apply list_eq. intros i. rewrite !list_lookup_fmap.
      destruct (decide (i < S k * BITS - from)); [|by rewrite !lookup_seq_ge by lia].
      rewrite !lookup_seq_lt by done. cbn [fmap option_fmap option_map]. f_equal. rewrite (head_mask b from word _ Hb Hword) by lia. fold k.
      destruct (Nat.leb_spec from (k * BITS + (from mod BITS + i))); [|lia]. cbn [andb]. f_equal. lia.
    + intros x Hx. apply list_elem_of_fmap in Hx as (i & -> & Hi%elem_of_seq).
      rewrite (head_mask b from word _ Hb Hword) by lia. fold k.
      destruct (Nat.leb_spec from (k * BITS + i)); [lia|done].
  - replace (BITS * length (pb_live b) - from) with
      ((pb_len b - from) + (BITS * length (pb_live b) - pb_len b)) by lia.
    rewrite wbits_app, count_true_app. replace (from + (pb_len b - from)) with (pb_len b + 0) by lia.
    rewrite Htail. lia.
Qed.

(** ** Regions *)

Record cd_ok (c : Candidates) : Prop := {
  cd_ok_words : words_ok (cd_words c);
  cd_ok_offset : cd_bit_offset c < BITS;
  cd_ok_length : length (cd_words c) = words_for (cd_bit_offset c + cd_len c);
  cd_ok_parents : length (cd_parents c) = cd_len c;
}.

(** Liveness of entry [i]. *)
Definition live_at (c : Candidates) (i : nat) : bool := wbit (cd_words c) (cd_bit_offset c + i).

(** [c'] is [c] with the liveness [f]: the bits of neighbouring regions, values
    and tags are as they were. *)
Record updated (c : Candidates) (f : nat → bool) (c' : Candidates) : Prop := {
  up_values : cd_values c' = cd_values c;
  up_parents : cd_parents c' = cd_parents c;
  up_offset : cd_bit_offset c' = cd_bit_offset c;
  up_words : words_ok (cd_words c');
  up_length : length (cd_words c') = length (cd_words c);
  up_in : ∀ i, i < cd_len c → live_at c' i = f i;
  up_out : ∀ b, b < cd_bit_offset c ∨ cd_bit_offset c + cd_len c <= b →
    wbit (cd_words c') b = wbit (cd_words c) b;
}.
(** Kill-only: the live entries that satisfy [v] survive. *)
Definition killed (c : Candidates) (v : nat → bool) : Candidates → Prop :=
  updated c (λ i, live_at c i && v i).

Lemma up_len c f c' : updated c f c' → cd_len c' = cd_len c.
Proof. intros Hu. unfold cd_len. by rewrite (up_values _ _ _ Hu). Qed.

Lemma updated_ok c f c' : cd_ok c → updated c f c' → cd_ok c'.
Proof.
  intros [H1 H2 H3 H4] Hu. pose proof (up_len _ _ _ Hu) as Hl. destruct Hu as [U1 U2 U3 U4 U5 U6 U7].
  split; rewrite ?U2, ?U3, ?U5, ?Hl; done.
Qed.

Lemma updated_refl c f : cd_ok c → (∀ i, i < cd_len c → f i = live_at c i) → updated c f c.
Proof. intros [H1 H2 H3 H4] Hf. split; try done. intros i Hi. by rewrite Hf. Qed.

Lemma updated_trans c f c' g c'' : updated c f c' → updated c' g c'' → updated c g c''.
Proof.
  intros Hu Hu'. pose proof (up_len _ _ _ Hu) as Hl. destruct Hu as [U1 U2 U3 U4 U5 U6 U7], Hu' as [W1 W2 W3 W4 W5 W6 W7].
  split; try congruence.
  - intros i Hi. apply W6. lia.
  - intros b Hb. rewrite <- U7 by done. apply W7. by rewrite U3, Hl.
Qed.

Lemma updated_ext c f g c' : updated c f c' → (∀ i, i < cd_len c → f i = g i) → updated c g c'.
Proof. intros [U1 U2 U3 U4 U5 U6 U7] Hfg. split; try done. intros i Hi. by rewrite U6, Hfg. Qed.

Lemma killed_trans c v c' v' c'' : killed c v c' → killed c' v' c'' → killed c (λ i, v i && v' i) c''.
Proof.
  intros Hu Hu'. eapply updated_ext; [by eapply updated_trans|]. intros i Hi. simpl.
  rewrite (up_in _ _ _ Hu i Hi). by rewrite andb_assoc.
Qed.

Lemma killed_ext c v v' c' : killed c v c' → (∀ i, i < cd_len c → live_at c i = true → v i = v' i) → killed c v' c'.
Proof.
  intros Hk Hv. eapply updated_ext; [done|]. intros i Hi. simpl. destruct (live_at c i) eqn:E; [|done].
  simpl. by apply Hv.
Qed.

Lemma killed_refl c v : cd_ok c → (∀ i, i < cd_len c → live_at c i = true → v i = true) → killed c v c.
Proof.
  intros Hc Hv. apply updated_refl; [done|]. intros i Hi. destruct (live_at c i) eqn:E; [|done]. by apply Hv.
Qed.

(** Regions with the same view and the same bits are equal. *)
Lemma updated_unique c f c1 c2 : updated c f c1 → updated c f c2 → c1 = c2.
Proof.
  intros [U1 U2 U3 U4 U5 U6 U7] [W1 W2 W3 W4 W5 W6 W7].
  destruct c1 as [v1 p1 w1 o1], c2 as [v2 p2 w2 o2]; simpl in *. unfold live_at in *; simpl in *. subst.
  f_equal. apply words_ext; [done..|congruence|]. intros b _.
  destruct (decide (cd_bit_offset c <= b < cd_bit_offset c + cd_len c)) as [Hb|Hb].
  - specialize (U6 (b - cd_bit_offset c) ltac:(lia)). specialize (W6 (b - cd_bit_offset c) ltac:(lia)).
    replace (cd_bit_offset c + (b - cd_bit_offset c)) with b in U6, W6 by lia. congruence.
  - rewrite U7, W7 by lia. done.
Qed.

Lemma cd_bits c i : cd_ok c → i < cd_len c → cd_bit_offset c + i < BITS * length (cd_words c).
Proof.
  intros Hc Hi. rewrite (cd_ok_length _ Hc).
  pose proof (proj1 (words_for_le (cd_bit_offset c + cd_len c) _) (Nat.le_refl _)). lia.
Qed.

Lemma cd_is_live_spec c i : cd_ok c → i < cd_len c → cd_is_live c i = Some (live_at c i).
Proof. intros Hc Hi. by apply read_bit_spec, cd_bits. Qed.

Lemma cd_parent_some c i : cd_ok c → i < cd_len c → ∃ p, cd_parents c !! i = Some p.
Proof. intros Hc Hi. apply lookup_lt_is_Some_2. by rewrite (cd_ok_parents _ Hc). Qed.

Lemma cd_kill_spec c i : cd_ok c → i < cd_len c →
  ∃ c', cd_kill c i = Some c' ∧ killed c (λ j, negb (j =? i)) c'.
Proof.
  intros Hc Hi. unfold cd_kill.
  destruct (clear_bit_spec (cd_words c) (cd_bit_offset c + i)) as (ws & -> & ? & ? & Hb);
    [apply (cd_ok_words _ Hc)|by apply cd_bits|]. simpl. eexists. split; [done|].
  split; try done; simpl.
  - intros j Hj. unfold live_at. simpl. rewrite Hb. do 2 f_equal.
    destruct (Nat.eqb_spec (cd_bit_offset c + j) (cd_bit_offset c + i)), (Nat.eqb_spec j i); (done || lia).
  - intros b Hout. rewrite Hb. destruct (Nat.eqb_spec b (cd_bit_offset c + i)); [lia|]. by rewrite andb_true_r.
Qed.

(** A loop that visits entries in turn and leaves each entry's verdict. *)
Lemma fold_verdicts (step : Candidates → nat → res Candidates) (v : nat → bool) c start n :
  cd_ok c → start + n <= cd_len c →
  (∀ c1 i, cd_ok c1 → cd_values c1 = cd_values c → cd_parents c1 = cd_parents c → start <= i < start + n →
    ∃ c2, step c1 i = Some c2 ∧ killed c1 (λ j, negb (j =? i) || v i) c2) →
  ∃ c', foldM step c (seq start n) = Some c' ∧
    killed c (λ i, negb ((start <=? i) && (i <? start + n)) || v i) c'.
Proof.
  revert c start. induction n as [|n IH]; intros c start Hc Hn Hstep; simpl.
  { exists c. split; [done|]. apply killed_refl; [done|]. intros i Hi _.
    destruct (Nat.leb_spec start i), (Nat.ltb_spec i (start + 0)); simpl; (done || lia). }
  destruct (Hstep c start) as (c1 & -> & Hk1); [done..|lia|]. simpl.
  pose proof (updated_ok _ _ _ Hc Hk1) as Hc1. pose proof (up_len _ _ _ Hk1) as Hl1.
  destruct (IH c1 (S start)) as (c' & -> & Hk'); [done|lia| |].
  { intros c2 i Hc2 Hv Hp Hi. apply Hstep; [done| | |lia].
    - by rewrite Hv, (up_values _ _ _ Hk1).
    - by rewrite Hp, (up_parents _ _ _ Hk1). }
  exists c'. split; [done|]. eapply killed_ext; [by eapply killed_trans|]. intros i Hi _. cbv beta.
  destruct (Nat.eqb_spec i start), (Nat.leb_spec start i), (Nat.leb_spec (S start) i),
    (Nat.ltb_spec i (start + S n)), (Nat.ltb_spec i (S start + n)); subst; cbn [andb orb negb]; try lia; by rewrite ?andb_true_r.
Qed.

Lemma cd_retain_spec c keep (k : RawInline → bool) : cd_ok c →
  (∀ v, v ∈ cd_values c → keep v = Some (k v)) →
  ∃ c', cd_retain c keep = Some c' ∧ killed c (λ i, k (cd_values c !!! i)) c'.
Proof.
  intros Hc Hkeep. unfold cd_retain.
  destruct (fold_verdicts (λ c i,
    alive ← cd_is_live c i;
    if (alive : bool) then
      value ← cd_values c !! i;
      kept ← keep value;
      if (kept : bool) then Some c else cd_kill c i
    else Some c) (λ i, k (cd_values c !!! i)) c 0 (cd_len c)) as (c' & -> & Hk); [done|lia| |].
  - intros c1 i Hc1 Hv Hp Hi. assert (cd_len c1 = cd_len c) as Hl by (unfold cd_len; by rewrite Hv).
    rewrite cd_is_live_spec by (done || lia). simpl. destruct (live_at c1 i) eqn:Hlive.
    + destruct (lookup_lt_is_Some_2 (cd_values c1) i) as [x Hx]; [unfold cd_len in *; lia|]. rewrite Hx. simpl.
      rewrite Hkeep by (rewrite <- Hv; by eapply list_elem_of_lookup_2). simpl.
      rewrite (list_lookup_total_correct (cd_values c) i x) by by rewrite <- Hv.
      destruct (k x).
      * exists c1. split; [done|]. apply killed_refl; [done|]. intros. by rewrite orb_true_r.
      * destruct (cd_kill_spec c1 i) as (c2 & -> & Hk); [done|lia|]. exists c2. split; [done|].
        eapply killed_ext; [done|]. intros. by rewrite orb_false_r.
    + exists c1. split; [done|]. apply killed_refl; [done|]. intros j Hj Hlj.
      destruct (Nat.eqb_spec j i) as [->|]; [congruence|done].
  - exists c'. split; [done|]. eapply killed_ext; [done|]. intros i Hi _.
    destruct (Nat.leb_spec 0 i), (Nat.ltb_spec i (0 + cd_len c)); (done || lia).
Qed.

(** Whether bit [b] belongs to the region. *)
Definition owned (c : Candidates) (b : nat) : bool :=
  (cd_bit_offset c <=? b) && (b <? cd_bit_offset c + cd_len c).

Lemma owned_in c i : i < cd_len c → owned c (cd_bit_offset c + i) = true.
Proof.
  intros Hi. unfold owned. destruct (Nat.leb_spec (cd_bit_offset c) (cd_bit_offset c + i)),
    (Nat.ltb_spec (cd_bit_offset c + i) (cd_bit_offset c + cd_len c)); (done || lia).
Qed.
Lemma owned_out c b : b < cd_bit_offset c ∨ cd_bit_offset c + cd_len c <= b → owned c b = false.
Proof.
  intros Hb. unfold owned. destruct (Nat.leb_spec (cd_bit_offset c) b),
    (Nat.ltb_spec b (cd_bit_offset c + cd_len c)); (done || lia).
Qed.

(** An update of all words through the region mask. *)
Lemma masked_update c f (h : nat → bool → bool) : cd_ok c →
  (∀ k w, cd_words c !! k = Some w → (w < 2 ^ 32)%N → (f k w < 2 ^ 32)%N ∧ ∀ j, j < BITS →
    N.testbit (f k w) (N.of_nat j) =
    if owned c (k * BITS + j) then h (k * BITS + j) (N.testbit w (N.of_nat j)) else N.testbit w (N.of_nat j)) →
  updated c (λ i, h (cd_bit_offset c + i) (live_at c i)) (with_words c (imap f (cd_words c))).
Proof.
  intros Hc Hf. destruct (imap_bits (cd_words c) f (λ b x, if owned c b then h b x else x)) as [Hok Hb];
    [apply (cd_ok_words _ Hc)|done|].
  split; simpl; try done.
  - apply length_imap.
  - intros i Hi. unfold live_at. simpl. rewrite Hb by by apply cd_bits. by rewrite owned_in.
  - intros b Hout. destruct (decide (b < BITS * length (cd_words c))) as [Hlt|Hge].
    + by rewrite Hb, owned_out.
    + rewrite !wbit_out; [done| |]; rewrite ?length_imap; bits_of b; bits_lia.
Qed.

Lemma cd_kill_all_spec c : cd_ok c → killed c (λ _, false) (cd_kill_all c).
Proof.
  intros Hc. unfold cd_kill_all. eapply updated_ext; [apply (masked_update c _ (λ _ _, false)); [done|]|].
  - intros k w _ Hw. split; [by apply land_word|]. intros j Hj.
    rewrite N.land_spec, testbit_wnot, testbit_region_mask by done. fold (owned c (k * BITS + j)).
    rewrite (proj2 (N.ltb_lt _ _)) by bits_lia. by destruct (owned c _), (N.testbit w _).
  - intros i Hi. simpl. by rewrite andb_false_r.
Qed.

Lemma cd_live_words_spec c : cd_ok c →
  words_ok (cd_live_words c) ∧ length (cd_live_words c) = length (cd_words c) ∧
  ∀ b, wbit (cd_live_words c) b = wbit (cd_words c) b && owned c b.
Proof.
  intros Hc. unfold cd_live_words.
  destruct (imap_bits (cd_words c) (λ k w, N.land w (region_mask (cd_bit_offset c) (cd_len c) k))
    (λ b x, x && owned c b)) as [Hok Hb]; [apply (cd_ok_words _ Hc)| |].
  { intros k w _ Hw. split; [by apply land_word|]. intros j Hj. by rewrite N.land_spec, testbit_region_mask. }
  split_and!; [done|apply length_imap|]. intros b. destruct (decide (b < BITS * length (cd_words c))) as [Hlt|Hge]; [by apply Hb|].
  rewrite !wbit_out; [done| |]; rewrite ?length_imap; bits_of b; bits_lia.
Qed.

Lemma cd_set_live_words_spec c words : cd_ok c → words_ok words → length words = length (cd_words c) →
  updated c (λ i, wbit words (cd_bit_offset c + i)) (cd_set_live_words c words).
Proof.
  intros Hc Hok Hl. unfold cd_set_live_words. apply (masked_update c _ (λ b _, wbit words b)); [done|].
  intros k w Hk Hw. destruct (lookup_lt_is_Some_2 words k) as [w' Hw'].
  { rewrite Hl. by eapply lookup_lt_Some. }
  rewrite Hw'. pose proof (words_lookup _ _ _ Hok Hw') as Hlt.
  split; [by apply lor_word; apply land_word|]. intros j Hj.
  rewrite N.lor_spec, !N.land_spec, testbit_wnot, testbit_region_mask by done. fold (owned c (k * BITS + j)).
  rewrite (proj2 (N.ltb_lt _ _)) by bits_lia. rewrite (wbit_at _ _ _ _ Hw') by done.
  by destruct (owned c _), (N.testbit w _), (N.testbit w' _).
Qed.

(** A scratch copy of the region, over the words [live_words] hands out. *)
Lemma cd_scratch_ok c words : cd_ok c → words_ok words → length words = length (cd_words c) →
  cd_ok (cd_scratch c words).
Proof. intros [H1 H2 H3 H4] Hok Hl. split; simpl; try done. by rewrite Hl. Qed.

Lemma or_words_spec ws ws' : words_ok ws → words_ok ws' → length ws = length ws' →
  words_ok (or_words ws ws') ∧ length (or_words ws ws') = length ws ∧
  ∀ b, wbit (or_words ws ws') b = wbit ws b || wbit ws' b.
Proof.
  intros Hok Hok' Hl. unfold or_words. rewrite drop_ge, app_nil_r by lia. split_and!.
  - apply Forall_lookup. intros k w Hw. apply lookup_zip_with_Some in Hw as (x & y & -> & Hx & Hy).
    apply lor_word; [by apply (words_lookup ws k)|by apply (words_lookup ws' k)].
  - rewrite length_zip_with. lia.
  - intros b. unfold wbit. rewrite lookup_zip_with.
    destruct (ws !! (b / BITS)) as [x|] eqn:Hx; simpl.
    + destruct (lookup_lt_is_Some_2 ws' (b / BITS)) as [y Hy]; [rewrite <- Hl; by eapply lookup_lt_Some|].
      rewrite Hy. simpl. by rewrite N.lor_spec.
    + apply lookup_ge_None in Hx. rewrite (proj2 (lookup_ge_None ws' _)) by lia. done.
Qed.

Lemma and_words_spec ws ws' : words_ok ws → words_ok ws' → length ws = length ws' →
  words_ok (and_words ws ws') ∧ length (and_words ws ws') = length ws ∧
  ∀ b, wbit (and_words ws ws') b = wbit ws b && wbit ws' b.
Proof.
  intros Hok Hok' Hl. unfold and_words. rewrite drop_ge, app_nil_r by lia. split_and!.
  - apply Forall_lookup. intros k w Hw. apply lookup_zip_with_Some in Hw as (x & y & -> & Hx & Hy).
    by apply land_word, (words_lookup ws k).
  - rewrite length_zip_with. lia.
  - intros b. unfold wbit. rewrite lookup_zip_with.
    destruct (ws !! (b / BITS)) as [x|] eqn:Hx; simpl.
    + destruct (lookup_lt_is_Some_2 ws' (b / BITS)) as [y Hy]; [rewrite <- Hl; by eapply lookup_lt_Some|].
      rewrite Hy. simpl. by rewrite N.land_spec.
    + done.
Qed.

(** A slice of the words. *)
Lemma wbit_slice ws first n b : b < n * BITS →
  wbit (take n (drop first ws)) b = wbit ws (first * BITS + b).
Proof.
  intros Hb. unfold wbit. bits_of b.
  destruct (word_index (first * BITS + b) (first + b / BITS) (b mod BITS)) as [-> ->]; [done|bits_lia|].
  rewrite lookup_take_lt by (apply Nat.Div0.div_lt_upper_bound; lia). by rewrite lookup_drop.
Qed.

Lemma wbit_put ws first part b : first + length part <= length ws →
  wbit (put_words ws first part) b =
  if (first <=? b / BITS) && (b / BITS <? first + length part) then wbit part (b - first * BITS) else wbit ws b.
Proof.
  intros Hl. unfold put_words. bits_of b.
  destruct (Nat.leb_spec first (b / BITS)), (Nat.ltb_spec (b / BITS) (first + length part)); cbn [andb]; unfold wbit.
  - destruct (word_index (b - first * BITS) (b / BITS - first) (b mod BITS)) as [-> ->]; [done|bits_lia|].
    rewrite lookup_app_r by (rewrite length_take; lia). rewrite lookup_app_l by (rewrite length_take; lia).
    rewrite length_take. by replace (first `min` length ws) with first by lia.
  - rewrite !lookup_app_r by (rewrite ?length_app, ?length_take; lia).
    rewrite lookup_drop, length_take.
    by replace (first + length part + (b / BITS - first `min` length ws - length part)) with (b / BITS) by lia.
  - rewrite lookup_app_l by (rewrite length_take; lia). by rewrite lookup_take_lt.
  - lia.
Qed.

Lemma put_words_length ws first part : first + length part <= length ws →
  length (put_words ws first part) = length ws.
Proof. intros Hl. unfold put_words. rewrite !length_app, length_take, length_drop. lia. Qed.

Lemma put_words_ok ws first part : words_ok ws → words_ok part → words_ok (put_words ws first part).
Proof.
  intros Hok Hp. unfold put_words. apply Forall_app. split; [by apply Forall_take|].
  apply Forall_app. split; [done|by apply Forall_drop].
Qed.

(** ** Regions of a buffer *)

Definition set_live (its : list candidate) (f : nat → bool) : list candidate :=
  imap (λ i it, (it.1, f i)) its.

Lemma pb_region_spec b base : pb_ok b → base <= pb_len b →
  ∃ c, pb_region b base = Some c ∧ cd_ok c ∧
    cd_values c = drop base (pb_entries b) ∧ cd_parents c = drop base (pb_parents b) ∧
    cd_len c = pb_len b - base ∧ ∀ i, live_at c i = wbit (pb_live b) (base + i).
Proof.
  intros Hb Hbase. unfold pb_region. rewrite (pb_ok_parents _ Hb). apply Nat.leb_le in Hbase as Hle. rewrite Hle.
  cbn [massert mbind option_bind]. bits_of base.
  assert (base / BITS <= length (pb_live b)) as Hf.
  { rewrite (pb_ok_live _ Hb). pose proof (proj1 (words_for_le (pb_len b) _) (Nat.le_refl _)). nia. }
  apply Nat.leb_le in Hf as Hf'. rewrite Hf'. cbn [massert mbind option_bind].
  eexists. split; [done|].
  assert (length (drop base (pb_entries b)) = pb_len b - base) as Hl by by rewrite length_drop.
  split_and!; try done.
  - split; simpl; try done.
    + by apply Forall_drop, (pb_ok_words _ Hb).
    + unfold cd_len. simpl. rewrite Hl, length_drop, (pb_ok_live _ Hb). unfold words_for.
      replace (pb_len b + (BITS - 1)) with (base mod BITS + (pb_len b - base) + (BITS - 1) + base / BITS * BITS) by lia.
      rewrite Nat.div_add by done. lia.
    + unfold cd_len. simpl. rewrite Hl, length_drop, (pb_ok_parents _ Hb). done.
  - intros i. unfold live_at. simpl. unfold wbit. rewrite lookup_drop. bits_of (base mod BITS + i).
    destruct (word_index (base + i) (base / BITS + (base mod BITS + i) / BITS) ((base mod BITS + i) mod BITS)) as [-> ->];
      [done|bits_lia|done].
Qed.

Lemma put_region_bits b base c f c' : pb_ok b → base <= pb_len b → pb_region b base = Some c → updated c f c' →
  words_ok (pb_live (put_region b base c')) ∧ length (pb_live (put_region b base c')) = length (pb_live b) ∧
  ∀ i, wbit (pb_live (put_region b base c')) i =
    if (base <=? i) && (i <? pb_len b) then f (i - base) else wbit (pb_live b) i.
Proof.
  intros Hb Hbase Hr Hu. destruct (pb_region_spec b base Hb Hbase) as (c0 & Hr0 & Hc & Hv & Hp & Hlen & Hlive).
  rewrite Hr in Hr0. injection Hr0 as <-.
  assert (cd_words c = drop (base / BITS) (pb_live b) ∧ cd_bit_offset c = base mod BITS) as [Hw Ho].
  { unfold pb_region in Hr. rewrite (pb_ok_parents _ Hb), (proj2 (Nat.leb_le _ _) Hbase) in Hr. simpl in Hr.
    destruct (_ <=? _); by simplify_eq/=. }
  destruct Hu as [U1 U2 U3 U4 U5 U6 U7]. unfold put_region; simpl. bits_of base.
  assert (base / BITS <= length (pb_live b)) as Hf.
  { rewrite (pb_ok_live _ Hb). pose proof (proj1 (words_for_le (pb_len b) _) (Nat.le_refl _)). nia. }
  assert (base / BITS + length (cd_words c') = length (pb_live b)) as Hl by (rewrite U5, Hw, length_drop; lia).
  split_and!; [by apply put_words_ok; [apply (pb_ok_words _ Hb)|]|apply put_words_length; lia|].
  intros i. rewrite wbit_put, Hl by lia. bits_of i.
  destruct (decide (base <= i < pb_len b)) as [[Hi1 Hi2]|Hi].
  - rewrite (proj2 (Nat.leb_le base i)), (proj2 (Nat.ltb_lt i (pb_len b))) by done. cbn [andb].
    rewrite (proj2 (Nat.leb_le (base / BITS) (i / BITS))) by by apply Nat.Div0.div_le_mono.
    rewrite (proj2 (Nat.ltb_lt (i / BITS) _)) by by apply div_lt_words, pb_len_bits. cbn [andb].
    rewrite <- (U6 (i - base)) by lia. unfold live_at. rewrite U3, Ho. f_equal. lia.
  - replace ((base <=? i) && (i <? pb_len b)) with false
      by (destruct (Nat.leb_spec base i), (Nat.ltb_spec i (pb_len b)); (done || lia)).
    destruct ((base / BITS <=? i / BITS) && (i / BITS <? length (pb_live b))) eqn:E; [|done]. bool_hyps.
    rewrite U7 by (rewrite Ho, Hlen; nia). rewrite Hw. unfold wbit. rewrite lookup_drop.
    destruct (word_index (i - base / BITS * BITS) (i / BITS - base / BITS) (i mod BITS)) as [-> ->]; [done|nia|].
    by replace (base / BITS + (i / BITS - base / BITS)) with (i / BITS) by lia.
Qed.

(** What a region's confirmers do to the buffer it was taken from. *)
Lemma put_region_spec b base c f c' : pb_ok b → base <= pb_len b → pb_region b base = Some c → updated c f c' →
  pb_ok (put_region b base c') ∧
  items (put_region b base c') = take base (items b) ++ set_live (drop base (items b)) f.
Proof.
  intros Hb Hbase Hr Hu. destruct (put_region_bits b base c f c' Hb Hbase Hr Hu) as (Hok & Hl & Hbits).
  assert (pb_ok (put_region b base c')) as Hb'.
  { destruct Hb as [H1 H2 H3 H4]. split; try done.
    - rewrite Hl, H2. done.
    - intros i Hi. rewrite Hbits. change (pb_len (put_region b base c')) with (pb_len b) in Hi.
      destruct (Nat.ltb_spec i (pb_len b)); [lia|]. rewrite andb_false_r. by apply H4. }
  split; [done|]. apply list_eq. intros i. apply option_eq. intros [[p v] l].
  rewrite items_lookup by done. rewrite Hbits. simpl.
  destruct (decide (i < base)) as [Hi|Hi].
  - rewrite lookup_app_l by (rewrite length_take, items_length by done; lia).
    rewrite lookup_take_lt by done. rewrite items_lookup by done. destruct (Nat.leb_spec base i); [lia|]. done.
  - rewrite lookup_app_r by (rewrite length_take; lia). rewrite length_take, items_length by done.
    replace (base `min` pb_len b) with base by lia. unfold set_live. rewrite list_lookup_imap, lookup_drop.
    replace (base + (i - base)) with i by lia. rewrite fmap_Some. split.
    + intros (Hp & Hv & ->). exists (p, v, wbit (pb_live b) i). rewrite items_lookup by done. split; [done|].
      simpl. f_equal. apply lookup_lt_Some in Hv. fold (pb_len b) in Hv.
      destruct (Nat.leb_spec base i), (Nat.ltb_spec i (pb_len b)); (done || lia).
    + intros ([[p' v'] l'] & Hit & [= -> -> ->]). apply items_lookup in Hit as (Hp & Hv & _); [|done].
      split_and!; [done..|]. apply lookup_lt_Some in Hv. fold (pb_len b) in Hv.
      destruct (Nat.leb_spec base i), (Nat.ltb_spec i (pb_len b)); (done || lia).
Qed.

(** ** Runs and halves of a region *)

(** The sub-region of the entries [start] to [stop - 1]. *)
Definition sub_region (c : Candidates) (start stop : nat) : Candidates :=
  let first := (cd_bit_offset c + start) / BITS in
  let last := (cd_bit_offset c + stop - 1) / BITS in
  mkCandidates (take (stop - start) (drop start (cd_values c)))
    (take (stop - start) (drop start (cd_parents c)))
    (take (S last - first) (drop first (cd_words c)))
    ((cd_bit_offset c + start) mod BITS).

Lemma sub_region_ok c start stop : cd_ok c → start < stop <= cd_len c →
  cd_ok (sub_region c start stop) ∧ cd_len (sub_region c start stop) = stop - start ∧
  (∀ i, i < stop - start → live_at (sub_region c start stop) i = live_at c (start + i)).
Proof.
  intros Hc Hs. unfold sub_region. set (o := cd_bit_offset c). bits_of (o + start). bits_of (o + stop - 1).
  set (first := (o + start) / BITS) in *. set (last := (o + stop - 1) / BITS) in *.
  assert (first <= last) by (apply Nat.Div0.div_le_mono; lia).
  assert (last < length (cd_words c)).
  { apply div_lt_words. pose proof (cd_bits c (stop - 1) Hc ltac:(lia)). unfold o. lia. }
  assert (length (take (stop - start) (drop start (cd_values c))) = stop - start) as Hl.
  { rewrite length_take, length_drop. unfold cd_len in Hs. lia. }
  split_and!; [split; simpl|..].
  - apply Forall_take, Forall_drop, (cd_ok_words _ Hc).
  - done.
  - rewrite length_take, length_drop. unfold cd_len. simpl. rewrite Hl. symmetry.
    transitivity (S last - first); [|lia]. unfold words_for.
    apply (word_index _ _ ((o + stop - 1) mod BITS)); [done|bits_lia].
  - unfold cd_len. simpl. rewrite Hl, length_take, length_drop, (cd_ok_parents _ Hc). unfold cd_len in Hs. unfold cd_len. lia.
  - done.
  - intros i Hi. unfold live_at. simpl. rewrite wbit_slice; [f_equal; fold o; lia|]. bits_lia.
Qed.

Lemma sub_region_put c start stop v run' : cd_ok c → start < stop <= cd_len c →
  killed (sub_region c start stop) (λ i, v (start + i)) run' →
  killed c (λ i, negb ((start <=? i) && (i <? stop)) || v i)
    (with_words c (put_words (cd_words c) ((cd_bit_offset c + start) / BITS) (cd_words run'))).
Proof.
  intros Hc Hs Hk. destruct (sub_region_ok c start stop Hc Hs) as (Hok & Hlen & Hlive).
  pose proof (up_in _ _ _ Hk) as U6. pose proof (up_out _ _ _ Hk) as U7. rewrite Hlen in U6, U7.
  assert (cd_bit_offset run' = (cd_bit_offset c + start) mod BITS) as U3 by apply (up_offset _ _ _ Hk).
  unfold sub_region in U7; simpl in U7.
  assert (words_ok (cd_words run')) as U4 by apply (up_words _ _ _ Hk). pose proof (up_length _ _ _ Hk) as U5.
  unfold sub_region in U5; simpl in U5. set (o := cd_bit_offset c) in *. bits_of (o + start). bits_of (o + stop - 1).
  set (first := (o + start) / BITS) in *. set (last := (o + stop - 1) / BITS) in *.
  assert (first <= last) by (apply Nat.Div0.div_le_mono; lia).
  assert (last < length (cd_words c)).
  { apply div_lt_words. pose proof (cd_bits c (stop - 1) Hc ltac:(lia)). unfold o. lia. }
  rewrite length_take, length_drop in U5. assert (length (cd_words run') = S last - first) as Hrl by lia.
  assert (∀ b, wbit (put_words (cd_words c) first (cd_words run')) b =
    if decide (o + start <= b < o + stop) then wbit (cd_words run') (b - first * BITS) else wbit (cd_words c) b) as Hbits.
  { intros b. rewrite wbit_put by lia. bits_of b. rewrite Hrl. destruct (decide _) as [Hin|Hout].
    - rewrite (proj2 (Nat.leb_le first (b / BITS))) by (apply Nat.Div0.div_le_mono; lia).
      rewrite (proj2 (Nat.ltb_lt (b / BITS) _)); [done|].
      assert (b / BITS <= last) by (apply Nat.Div0.div_le_mono; lia). lia.
    - destruct ((first <=? b / BITS) && (b / BITS <? first + (S last - first))) eqn:E; [|done]. bool_hyps.
      rewrite U7 by nia. rewrite wbit_slice by nia. f_equal. nia. }
  split; simpl; try done.
  - apply put_words_ok; [apply (cd_ok_words _ Hc)|done].
  - apply put_words_length. lia.
  - intros i Hi. unfold live_at at 1. simpl. rewrite Hbits. fold o. destruct (decide _) as [Hin|Hout].
    + specialize (U6 (i - start) ltac:(lia)). unfold live_at at 1 in U6. rewrite U3 in U6.
      replace (start + (i - start)) with i in U6 by lia.
      rewrite Hlive in U6 by lia. replace (start + (i - start)) with i in U6 by lia.
      replace (o + i - first * BITS) with ((o + start) mod BITS + (i - start)) by lia. rewrite U6.
      destruct (Nat.leb_spec start i), (Nat.ltb_spec i stop); cbn [andb negb orb]; (done || lia).
    + destruct (Nat.leb_spec start i), (Nat.ltb_spec i stop); cbn [andb negb orb]; try lia;
        by rewrite andb_true_r.
  - intros b Hb. rewrite Hbits. destruct (decide _); [|done]. fold o in Hb. lia.
Qed.

Lemma run_length_spec tag tags : run_length tag tags <= length tags ∧
  ∀ i, i < run_length tag tags → tags !! i = Some tag.
Proof.
  induction tags as [|t tags [IH1 IH2]]; simpl; [split; [lia|intros; lia]|].
  destruct (N.eqb_spec t tag) as [->|]; [|split; [lia|intros; lia]]. split; [lia|].
  intros [|i] Hi; [done|]. apply IH2. lia.
Qed.

Lemma run_end_spec tag tags start : tags !! start = Some tag →
  start < run_end tag tags start <= length tags ∧
  ∀ i, start <= i < run_end tag tags start → tags !! i = Some tag.
Proof.
  intros Hs. unfold run_end. destruct (run_length_spec tag (drop (S start) tags)) as [H1 H2].
  rewrite length_drop in H1. apply lookup_lt_Some in Hs as Hlt. split; [lia|]. intros i Hi.
  destruct (decide (i = start)) as [->|]; [done|]. specialize (H2 (i - S start) ltac:(lia)).
  rewrite lookup_drop in H2. by replace (S start + (i - S start)) with i in H2 by lia.
Qed.

(** Per-parent confirmation: the verdicts of the runs together. *)
Lemma cd_for_each_parent_spec c confirm (v : nat → bool) : cd_ok c →
  (∀ c1 start stop p, cd_ok c1 → cd_values c1 = cd_values c → cd_parents c1 = cd_parents c →
    start < stop <= cd_len c → (∀ i, start <= i < stop → cd_parents c !! i = Some p) →
    ∃ run', confirm p (sub_region c1 start stop) = Some run' ∧
      killed (sub_region c1 start stop) (λ i, v (start + i)) run') →
  ∃ c', cd_for_each_parent c confirm = Some c' ∧ killed c v c'.
Proof.
  intros Hc Hconfirm. unfold cd_for_each_parent.
  assert (∀ fuel c1 start, killed c (λ i, negb (i <? start) || v i) c1 → start <= cd_len c → cd_len c < start + fuel →
    ∃ c', loopM (parent_run_step confirm) fuel (c1, start) = Some c' ∧ killed c v c') as Hloop.
  { induction fuel as [|fuel IH]; intros c1 start Hk Hs Hf; [lia|]. cbn [loopM parent_run_step].
    pose proof (updated_ok _ _ _ Hc Hk) as Hc1. pose proof (up_len _ _ _ Hk) as Hl1.
    rewrite (cd_ok_parents _ Hc1). destruct (Nat.leb_spec (cd_len c1) start) as [Hge|Hlt]; cbn [mbind option_bind].
    - eexists. split; [done|]. eapply killed_ext; [done|]. intros i Hi _. simpl.
      destruct (Nat.ltb_spec i start); [done|lia].
    - destruct (cd_parent_some c1 start Hc1 Hlt) as [p Hp]. rewrite Hp. cbn [mbind option_bind].
      destruct (run_end_spec p (cd_parents c1) start Hp) as [Hstop Htags]. rewrite (cd_ok_parents _ Hc1) in Hstop.
      set (stop := run_end p (cd_parents c1) start) in *.
      fold (cd_len c1). rewrite (proj2 (Nat.leb_le stop _)) by lia.
      assert ((cd_bit_offset c1 + stop - 1) / BITS < length (cd_words c1)) as Hlast.
      { apply div_lt_words. pose proof (cd_bits c1 (stop - 1) Hc1 ltac:(lia)). lia. }
      rewrite (proj2 (Nat.ltb_lt _ _) Hlast). cbn [massert mbind option_bind].
      destruct (Hconfirm c1 start stop p) as (run' & Hrun & Hkr); [done|apply (up_values _ _ _ Hk)|apply (up_parents _ _ _ Hk)|lia| |].
      { intros i Hi. rewrite <- (up_parents _ _ _ Hk). by apply Htags. }
      unfold sub_region in Hrun at 1. rewrite Hrun. cbn [mbind option_bind].
      apply IH; [|lia|lia]. eapply killed_ext; [eapply killed_trans; [done|apply (sub_region_put c1 start stop v); [done|lia|done]]|].
      intros i Hi _. cbv beta. destruct (Nat.ltb_spec i start), (Nat.ltb_spec i stop), (Nat.leb_spec start i);
        cbn [andb negb orb]; try lia; by rewrite ?andb_true_r. }
  apply Hloop; [|lia|rewrite (cd_ok_parents _ Hc); lia]. by apply killed_refl.
Qed.

(** The halves at a word boundary own disjoint words. *)
Lemma cd_split_spec c mid : cd_ok c → 0 < mid < cd_len c → (cd_bit_offset c + mid) mod BITS = 0 →
  ∃ l r, cd_split_at_word_boundary c mid = Some (l, r) ∧ cd_ok l ∧ cd_ok r ∧
    cd_values l = take mid (cd_values c) ∧ cd_values r = drop mid (cd_values c) ∧
    cd_parents l = take mid (cd_parents c) ∧ cd_parents r = drop mid (cd_parents c) ∧
    ∀ vl vr l' r', killed l vl l' → killed r vr r' →
      killed c (λ i, if i <? mid then vl i else vr (i - mid)) (with_words c (cd_words l' ++ cd_words r')).
Proof.
  intros Hc Hm Hal. unfold cd_split_at_word_boundary.
  rewrite (proj2 (Nat.ltb_lt 0 mid)), (proj2 (Nat.ltb_lt mid _)), Hal by lia. cbn [andb Nat.eqb massert mbind option_bind].
  rewrite (cd_ok_parents _ Hc), (proj2 (Nat.leb_le mid _)) by lia. cbn [massert mbind option_bind].
  set (o := cd_bit_offset c) in *. bits_of (o + mid). set (k := (o + mid) / BITS) in *.
  assert (o + mid = k * BITS) as Hmk by lia.
  pose proof (cd_bits c mid Hc ltac:(lia)) as Hbound. fold o in Hbound.
  assert (k < length (cd_words c)) as Hk by (apply div_lt_words; lia).
  rewrite (proj2 (Nat.leb_le k _)) by lia. cbn [massert mbind option_bind].
  pose proof (cd_ok_length _ Hc) as Hlen. fold o in Hlen.
  assert (length (take mid (cd_values c)) = mid) as Hl1 by (rewrite length_take; unfold cd_len in Hm; lia).
  assert (length (drop mid (cd_values c)) = cd_len c - mid) as Hl2 by by rewrite length_drop.
  assert (words_for (o + mid) = k) as Hwl.
  { unfold words_for. apply (word_index _ _ 31); bits_lia. }
  assert (words_for (o + cd_len c) = k + words_for (cd_len c - mid)) as Hwr.
  { unfold words_for. replace (o + cd_len c + (BITS - 1)) with (cd_len c - mid + (BITS - 1) + k * BITS) by lia.
    rewrite Nat.div_add by done. lia. }
  eexists _, _. split; [done|].
  assert (∀ i, i < mid → wbit (take k (cd_words c)) (o + i) = live_at c i) as Hlive1.
  { intros i Hi. rewrite <- (drop_0 (cd_words c)), wbit_slice by lia. done. }
  assert (∀ b, wbit (drop k (cd_words c)) b = wbit (cd_words c) (k * BITS + b)) as Hlive2.
  { intros b. unfold wbit. rewrite lookup_drop. bits_of b.
    by destruct (word_index (k * BITS + b) (k + b / BITS) (b mod BITS)) as [-> ->]; [|bits_lia|]. }
  split_and!; try done.
  - split; simpl.
    + by apply Forall_take, (cd_ok_words _ Hc).
    + apply (cd_ok_offset _ Hc).
    + unfold cd_len. simpl. rewrite Hl1, length_take. fold o. lia.
    + unfold cd_len. simpl. rewrite Hl1, length_take, (cd_ok_parents _ Hc). lia.
  - split; simpl; [by apply Forall_drop, (cd_ok_words _ Hc)|bits_lia| |].
    + unfold cd_len. simpl. rewrite Hl2, length_drop. lia.
    + unfold cd_len. simpl. rewrite Hl2, length_drop, (cd_ok_parents _ Hc). done.
  - intros vl vr l' r' Hkl Hkr. pose proof (up_words _ _ _ Hkl) as Wl. pose proof (up_words _ _ _ Hkr) as Wr.
    pose proof (up_length _ _ _ Hkl) as Ll. pose proof (up_length _ _ _ Hkr) as Lr.
    pose proof (up_in _ _ _ Hkl) as Il. pose proof (up_in _ _ _ Hkr) as Ir.
    pose proof (up_out _ _ _ Hkl) as Ol. pose proof (up_out _ _ _ Hkr) as Or.
    pose proof (up_offset _ _ _ Hkl) as El. pose proof (up_offset _ _ _ Hkr) as Er.
    unfold cd_len, live_at in *; simpl in *. rewrite Hl1 in Il, Ol. rewrite Hl2 in Ir, Or.
    fold o in El, Il, Ol. rewrite El in Il. rewrite Er in Ir. rewrite length_take in Ll. rewrite length_drop in Lr.
    assert (∀ b, wbit (cd_words l' ++ cd_words r') b =
      if decide (b < k * BITS) then wbit (cd_words l') b else wbit (cd_words r') (b - k * BITS)) as Hb.
    { intros b. unfold wbit at 1. bits_of b. destruct (decide (b < k * BITS)).
      - rewrite lookup_app_l by (rewrite Ll; assert (b / BITS < k) by (apply div_lt_words; lia); lia). done.
      - assert (k <= b / BITS) by (apply Nat.div_le_lower_bound; [done|lia]).
        rewrite lookup_app_r by lia. unfold wbit.
        destruct (word_index (b - k * BITS) (b / BITS - k) (b mod BITS)) as [-> ->]; [done|nia|].
        rewrite Ll. by replace (k `min` length (cd_words c)) with k by lia. }
    split; simpl; try done.
    + by apply Forall_app.
    + rewrite length_app. lia.
    + intros i Hi. unfold live_at. simpl. rewrite Hb. fold o. destruct (decide _) as [Hlt|Hge].
      * rewrite (proj2 (Nat.ltb_lt _ _)) by lia. rewrite Il by lia. f_equal. apply Hlive1. lia.
      * destruct (Nat.ltb_spec i mid); [lia|]. replace (o + i - k * BITS) with (0 + (i - mid)) by lia.
        fold (cd_len c) in Hi. unfold cd_len in *. rewrite Ir by lia. f_equal. rewrite Hlive2. f_equal. lia.
    + intros b Hout. fold o in Hout. unfold cd_len in Hout. rewrite Hb. destruct (decide _) as [Hlt|Hge].
      * rewrite Ol by lia. rewrite <- (drop_0 (cd_words c)) at 1. rewrite wbit_slice by lia. done.
      * rewrite Or by lia. rewrite Hlive2. f_equal. lia.
Qed.

(** The list and the open parent determine the buffer. *)
Lemma items_inj b b' : pb_ok b → pb_ok b' → items b = items b' → pb_parent b = pb_parent b' → b = b'.
Proof.
  intros Hb Hb' Hi Hp. assert (pb_len b = pb_len b') as Hl by by rewrite <- !items_length, Hi.
  assert (zip (pb_parents b) (pb_entries b) = zip (pb_parents b') (pb_entries b')) as Hz by by rewrite <- !items_fmap_fst, Hi.
  assert (pb_parents b = pb_parents b' ∧ pb_entries b = pb_entries b') as [E1 E2].
  { pose proof (pb_ok_parents _ Hb). pose proof (pb_ok_parents _ Hb'). unfold pb_len in *. split.
    - rewrite <- (fst_zip (pb_parents b) (pb_entries b)), <- (fst_zip (pb_parents b') (pb_entries b')), Hz by lia. done.
    - rewrite <- (snd_zip (pb_parents b) (pb_entries b)), <- (snd_zip (pb_parents b') (pb_entries b')), Hz by lia. done. }
  assert (pb_live b = pb_live b') as E3.
  { apply words_ext; [apply (pb_ok_words _ Hb)|apply (pb_ok_words _ Hb')|by rewrite !pb_ok_live, Hl|].
    intros i _. destruct (decide (i < pb_len b)) as [Hlt|Hge].
    - destruct (lookup_lt_is_Some_2 (items b) i) as [[[p v] l] Hit]; [by rewrite items_length|].
      pose proof Hit as Hit'. rewrite Hi in Hit'. apply items_lookup in Hit as (_ & _ & ->); [|done].
      by apply items_lookup in Hit' as (_ & _ & ->).
    - by rewrite (pb_ok_tail _ Hb), (pb_ok_tail _ Hb') by lia. }
  destruct b, b'; simpl in *; congruence.
Qed.

(** ** The two contracts of the file *)

(** C37. The packed buffer is a list of tagged candidates with a liveness flag:
    every operation on a well-formed buffer returns, keeps it well formed and
    is its list counterpart.  Appending tags with the open parent and is born
    live; the region operations rewrite nothing before their base; the scans
    read the flags word by word and skip no live entry. *)
Theorem buffer_refines b base : pb_ok b → base <= pb_len b →
  (pb_ok pb_new ∧ items pb_new = []) ∧
  (∀ p, pb_ok (pb_open b p) ∧ items (pb_open b p) = items b ∧ pb_parent (pb_open b p) = p) ∧
  (∀ vs, ∃ b', pb_extend b vs = Some b' ∧ pb_extend_from_slice b vs = Some b' ∧ pb_ok b' ∧
    items b' = items b ++ ((λ v, (pb_parent b, v, true)) <$> vs)) ∧
  (∃ r, pb_next_live b base = Some r ∧ least_live b base r) ∧
  pb_count_live b base = Some (length (filter (λ it, it.2 = true) (drop base (items b)))) ∧
  pb_tagged b base = Some (filter (λ it, it.2 = true) (drop base (items b))).*1 ∧
  (∀ keep k, (∀ p v l, (p, v, l) ∈ drop base (items b) → keep p v = Some (k (p, v, l))) →
    ∃ b', pb_retain_region b base keep = Some b' ∧ pb_ok b' ∧
      items b' = take base (items b) ++ filter (λ it, k it = true) (drop base (items b))) ∧
  (∀ values, ∃ b', pb_rewrite_region b base values = Some b' ∧ pb_ok b' ∧
    items b' = take base (items b) ++ ((λ pv, (pv, true)) <$> values)) ∧
  (∀ map, (∀ p, p ∈ drop base (pb_parents b) → N.to_nat p < length map) →
    ∃ b', pb_remap_region b base map = Some b' ∧ pb_ok b' ∧
      items b' = take base (items b) ++
        ((λ it : candidate, (default 0%N (map !! N.to_nat it.1.1), it.1.2, it.2)) <$> drop base (items b))).
Proof.
  intros Hb Hbase. split_and!.
  - by apply pb_new_ok.
  - done.
  - intros p. split_and!; [by apply pb_open_ok|done..].
  - intros vs. destruct (pb_extend_spec b vs Hb) as (b1 & -> & Hb1 & Hp1 & Hi1).
    destruct (pb_extend_from_slice_spec b vs Hb) as (b2 & -> & Hb2 & Hp2 & Hi2).
    exists b1. split_and!; [done| |done..]. f_equal. apply items_inj; congruence.
  - by apply pb_next_live_spec.
  - by apply pb_count_live_spec.
  - by apply pb_tagged_spec.
  - intros keep k Hk. destruct (pb_retain_region_spec b Hb base Hbase keep k Hk) as (b' & ? & ? & _ & ?). eauto.
  - intros values. by apply pb_rewrite_region_spec.
  - intros map Hm. by apply pb_remap_region_spec.
Qed.

(** A region handed to a confirmer is the buffer from its base on, at any
    bit alignment: reads see the flags of its entries, kills and writes change
    flags of its own entries only, the bits of neighbouring regions that share
    its first and last words survive, and giving it back changes nothing of
    the buffer but the flags.  Per-parent runs and the halves at a word
    boundary are regions again whose verdicts combine. *)
Theorem region_refines b base : pb_ok b → base <= pb_len b →
  ∃ c, pb_region b base = Some c ∧ cd_ok c ∧
    cd_values c = drop base (pb_entries b) ∧ cd_parents c = drop base (pb_parents b) ∧
    (∀ i, i < cd_len c → cd_is_live c i = Some (live_at c i) ∧ live_at c i = wbit (pb_live b) (base + i)) ∧
    (∀ f c', updated c f c' → pb_ok (put_region b base c') ∧
      items (put_region b base c') = take base (items b) ++ set_live (drop base (items b)) f) ∧
    (∀ i, i < cd_len c → ∃ c', cd_kill c i = Some c' ∧ killed c (λ j, negb (j =? i)) c') ∧
    killed c (λ _, false) (cd_kill_all c) ∧
    (∀ keep k, (∀ v, v ∈ cd_values c → keep v = Some (k v)) →
      ∃ c', cd_retain c keep = Some c' ∧ killed c (λ i, k (cd_values c !!! i)) c') ∧
    cd_set_live_words c (cd_live_words c) = c ∧
    (∀ words, words_ok words → length words = cd_live_word_len c →
      updated c (λ i, wbit words (cd_bit_offset c + i)) (cd_set_live_words c words)) ∧
    (∀ confirm v, (∀ c1 start stop p, cd_ok c1 → cd_values c1 = cd_values c → cd_parents c1 = cd_parents c →
        start < stop <= cd_len c → (∀ i, start <= i < stop → cd_parents c !! i = Some p) →
        ∃ run', confirm p (sub_region c1 start stop) = Some run' ∧
          killed (sub_region c1 start stop) (λ i, v (start + i)) run') →
      ∃ c', cd_for_each_parent c confirm = Some c' ∧ killed c v c') ∧
    (∀ mid, 0 < mid < cd_len c → (cd_bit_offset c + mid) mod BITS = 0 →
      ∃ l r, cd_split_at_word_boundary c mid = Some (l, r) ∧ cd_ok l ∧ cd_ok r ∧
        ∀ vl vr l' r', killed l vl l' → killed r vr r' →
          killed c (λ i, if i <? mid then vl i else vr (i - mid)) (with_words c (cd_words l' ++ cd_words r'))).
Proof.
  intros Hb Hbase. destruct (pb_region_spec b base Hb Hbase) as (c & Hr & Hc & Hv & Hp & _ & Hl).
  exists c. split_and!; [done..| | | | | | | | |].
  - intros i Hi. split; [by apply cd_is_live_spec|done].
  - intros f c' Hu. by apply (put_region_spec b base c).
  - intros i Hi. by apply cd_kill_spec.
  - by apply cd_kill_all_spec.
  - intros keep k Hk. by apply cd_retain_spec.
  - destruct (cd_live_words_spec c Hc) as (Hok & Hlen & Hbit).
    eapply updated_unique; [by apply cd_set_live_words_spec|]. apply updated_refl; [done|].
    intros i Hi. by rewrite Hbit, owned_in, andb_true_r.
  - intros words Hw Hlw. by apply cd_set_live_words_spec.
  - intros confirm v Hconf. by apply cd_for_each_parent_spec.
  - intros mid Hm Hal. destruct (cd_split_spec c mid Hc Hm Hal) as (l & r & ? & ? & ? & _ & _ & _ & _ & ?).
    exists l, r. done.
Qed.
