(* ===== verification/Query.v ===== *)
(** * Query: bindings, frontiers and the constraint protocol

    Source: [triblespace-core/src/query.rs] ([RawTerm], [Binding], [Frontier],
    [BindingStore], the trait [Constraint]) and [query/ordinal.rs].

    A binding is a row of indexes into per-variable candidate buffers; a
    frontier is a batch of such rows over shared buffers.  The trait is the
    record [Constraint] of its methods; what the engine relies on, and every
    implementation provides, is the class [ConstraintOk]: a meaning [sat] of
    partial assignments, which [satisfied] decides and which [propose] and
    [confirm] extend by one variable, soundly and without losing a solution. *)

From S2P Require Import Prelude Lex VariableSet Machine Trible Liveness.

Open Scope nat_scope.

Abbreviation VariableId := N (only parsing).

(** [x as u32] of a [usize]. *)
Definition as_u32 (n : nat) : N := (N.of_nat n mod 2 ^ 32)%N.

(** ** Row selections *)

Inductive RowSelection :=
  | Consecutive (first : N) (len : nat)
  | Explicit (values : list N).

Definition consecutive_last (first : N) (len : nat) : option N :=
  if len =? 0 then Some first else
  let offset := N.of_nat (len - 1) in
  if (2 ^ 32 <=? offset)%N then None else
  if (first + offset <? 2 ^ 32)%N then Some (first + offset)%N else None.

Definition consecutive (first : N) (len : nat) : res RowSelection :=
  match consecutive_last first len with
  | Some _ => Some (Consecutive first len)
  | None => None
  end.
Definition sel_identity (len : nat) : res RowSelection := consecutive 0 len.
Definition sel_explicit (values : list N) : RowSelection := Explicit values.

Definition sel_len (s : RowSelection) : nat :=
  match s with Consecutive _ len => len | Explicit values => length values end.

(** [None] of the source is the inner option; the outer one is the [expect]. *)
Definition sel_get (s : RowSelection) (index : nat) : res (option N) :=
  match s with
  | Consecutive first len =>
      if index <? len then
        massert (N.of_nat index <? 2 ^ 32)%N;;
        Some (Some ((first + N.of_nat index) mod 2 ^ 32)%N)
      else Some None
  | Explicit values => Some (values !! index)
  end.

Definition sel_slice (s : RowSelection) (start stop : nat) : res RowSelection :=
  massert ((start <=? stop) && (stop <=? sel_len s));;
  let len := stop - start in
  match s with
  | Consecutive first _ =>
      if len =? 0 then consecutive 0 0 else
      massert (N.of_nat start <? 2 ^ 32)%N;;
      massert (first + N.of_nat start <? 2 ^ 32)%N;;
      consecutive (first + N.of_nat start) len
  | Explicit values => Some (Explicit (take len (drop start values)))
  end.

(** ** Levels, bindings and frontiers *)

Record LevelValues := mkLevel { lv_buffer : option ProposalBuffer; lv_pos : nat }.
Definition level_empty : LevelValues := mkLevel None 0.
(** [LevelValues::buffer] expects a buffer. *)
Definition level_buffer (l : LevelValues) : res ProposalBuffer := lv_buffer l.

Record Binding := mkBinding { b_bound : VariableSet; b_indexes : list N; b_levels : list LevelValues }.

(** The outer option is a panic: a missing buffer or an index out of range. *)
Definition bget (b : Binding) (variable : VariableId) : res (option RawInline) :=
  if is_set (b_bound b) variable then
    level ← b_levels b !! N.to_nat variable;
    buffer ← level_buffer level;
    index ← b_indexes b !! N.to_nat variable;
    value ← pb_entries buffer !! N.to_nat index;
    Some (Some value)
  else Some None.

Definition NO_LEVELS : list LevelValues := replicate 128 level_empty.
Definition NO_INDEXES : list N := replicate 128 0%N.
Definition binding_default : Binding := mkBinding new_empty NO_INDEXES NO_LEVELS.

Record Frontier := mkFrontier {
  f_bound : VariableSet;
  f_block : list N;
  f_stride : nat;
  f_select : RowSelection;
  f_levels : list LevelValues;
  f_parallel : bool;
}.

Definition f_len (f : Frontier) : nat := sel_len (f_select f).
Definition f_is_empty (f : Frontier) : bool := f_len f =? 0.

(** [&block[from..to]] *)
Definition slice_range {A} (l : list A) (from to : nat) : res (list A) :=
  if (from <=? to) && (to <=? length l) then Some (take (to - from) (drop from l)) else None.

Definition row_indexes (f : Frontier) (i : nat) : res (list N) :=
  o ← sel_get (f_select f) i;
  row ← o;
  let row := N.to_nat row in
  slice_range (f_block f) (row * f_stride f) (S row * f_stride f).

Definition f_row (f : Frontier) (i : nat) : res Binding :=
  indexes ← row_indexes f i; Some (mkBinding (f_bound f) indexes (f_levels f)).

Definition f_compose (f : Frontier) (positions : list N) (out : list N) : res (list N) :=
  rows ← mapM (λ position, o ← sel_get (f_select f) (N.to_nat position); o) positions;
  Some (out ++ rows).

Definition f_with_select (f : Frontier) (select : list N) : Frontier :=
  mkFrontier (f_bound f) (f_block f) (f_stride f) (sel_explicit select) (f_levels f) (f_parallel f).

(** ** Terms of a pattern *)

Inductive RawTerm := Var (v : VariableId) | Const (c : RawInline).

Definition is_var (t : RawTerm) (variable : VariableId) : bool :=
  match t with Var v => (v =? variable)%N | Const _ => false end.
Definition position_value (t : RawTerm) (b : Binding) : res (option RawInline) :=
  match t with Var v => bget b v | Const c => Some (Some c) end.
Definition add_to (t : RawTerm) (s : VariableSet) : VariableSet :=
  match t with Var v => set s v | Const _ => s end.

(** ** The store of a binding, for callers outside the search *)

Record BindingStore := mkStore { s_bound : VariableSet; s_indexes : list N; s_levels : list LevelValues }.

Definition store_new : BindingStore := mkStore new_empty (replicate 128 0%N) (replicate 128 level_empty).
Definition store_view (s : BindingStore) : Binding := mkBinding (s_bound s) (s_indexes s) (s_levels s).
Definition store_frontier (s : BindingStore) : res Frontier :=
  select ← sel_identity 1;
  Some (mkFrontier (s_bound s) (s_indexes s) (length (s_indexes s)) select (s_levels s) false).

Definition store_bind (s : BindingStore) (variable : VariableId) (value : RawInline) : res BindingStore :=
  let v := N.to_nat variable in
  level ← s_levels s !! v;
  let buffer := default pb_new (lv_buffer level) in
  let index := pb_len buffer in
  buffer ← pb_push buffer value;
  levels ← arr_set (s_levels s) v (mkLevel (Some buffer) (lv_pos level));
  indexes ← arr_set (s_indexes s) v (as_u32 index);
  Some (mkStore (set (s_bound s) variable) indexes levels).

Definition store_unset (s : BindingStore) (variable : VariableId) : BindingStore :=
  mkStore (unset (s_bound s) variable) (s_indexes s) (s_levels s).

(** ** The constraint protocol *)

Record Constraint := mkConstraint {
  variables : VariableSet;
  estimate : VariableId → Binding → res (option N);
  propose : VariableId → Frontier → ProposalBuffer → res ProposalBuffer;
  confirm : VariableId → Frontier → Candidates → res Candidates;
  satisfied : Binding → res bool;
  influence : VariableId → VariableSet;
}.

(** The default methods of the trait. *)
Definition default_satisfied (b : Binding) : res bool := Some true.
Definition default_influence (vars : VariableSet) (variable : VariableId) : VariableSet :=
  if is_set vars variable then unset vars variable else new_empty.

(** ** What bindings and frontiers mean *)

(** A partial assignment of values to variables. *)
Definition asg : Type := VariableId → option RawInline.
Definition value_ok (x : RawInline) : Prop := bytes_ok INLINE_LEN x.

(** Variables are below 128: [VariableContext] hands out no others. *)
Definition bval (b : Binding) : asg := λ v, if (v <? 128)%N then default None (bget b v) else None.

(** Every index of a bound variable resolves to a value. *)
Definition binding_ok (b : Binding) : Prop :=
  ∀ v, (v < 128)%N → ∃ o, bget b v = Some o ∧ (is_Some o ↔ is_set (b_bound b) v = true) ∧ ∀ x, o = Some x → value_ok x.

Definition extend (a : asg) (v : VariableId) (x : RawInline) : asg :=
  λ w, if (w =? v)%N then Some x else a w.
Definition asg_sub (a a' : asg) : Prop := ∀ v x, a v = Some x → a' v = Some x.
Definition asg_ok (a : asg) : Prop := ∀ v x, a v = Some x → value_ok x.
(** All variables of a set have a value. *)
Definition total_on (vs : VariableSet) (a : asg) : Prop := ∀ v, (v < 128)%N → is_set vs v = true → is_Some (a v).

Record frontier_ok (f : Frontier) : Prop := {
  fo_rows : ∀ i, i < f_len f → ∃ b, f_row f i = Some b ∧ b_bound b = f_bound f ∧ binding_ok b;
  fo_len : (N.of_nat (f_len f) < 2 ^ 32)%N;
}.

Definition frow (f : Frontier) (i : nat) : Binding := default binding_default (f_row f i).
(** The assignment of row [i]. *)
Definition fval (f : Frontier) (i : nat) : asg := bval (frow f i).

(** Live candidates tagged with row [r]. *)
Definition proposed_for (its : list candidate) (r : nat) : list RawInline :=
  (filter (λ it : candidate, it.2 = true ∧ it.1.1 = N.of_nat r) its).*1.*2.

(** Tags name rows of the frontier, entries are values. *)
Definition tagged_ok (f : Frontier) (its : list candidate) : Prop :=
  ∀ p x l, (p, x, l) ∈ its → N.to_nat p < f_len f ∧ value_ok x.

Definition cands_ok (f : Frontier) (c : Candidates) : Prop :=
  cd_ok c ∧ (∀ i p, cd_parents c !! i = Some p → N.to_nat p < f_len f) ∧ Forall value_ok (cd_values c).

(** The assignment a candidate extends, and the candidate. *)
Definition cand_asg (f : Frontier) (c : Candidates) (i : nat) : asg := fval f (N.to_nat (cd_parents c !!! i)).
Definition cand_value (c : Candidates) (i : nat) : RawInline := cd_values c !!! i.

(** [x] extends [a] to a solution. *)
Definition extendable (vs : VariableSet) (sat : asg → Prop) (a : asg) (v : VariableId) (x : RawInline) : Prop :=
  ∃ a', asg_ok a' ∧ asg_sub (extend a v x) a' ∧ total_on vs a' ∧ sat a'.

(** What a proposer promises about the live candidates it appends for a row. *)
Record proposal_ok (vs : VariableSet) (sat : asg → Prop) (a : asg) (v : VariableId) (xs : list RawInline) : Prop := {
  pr_nodup : NoDup xs;
  pr_sound : ∀ x, x ∈ xs → sat a → sat (extend a v x);
  pr_complete : ∀ x, extendable vs sat a v x → x ∈ xs;
}.

(** What a confirmer promises about the verdict [k] on one candidate. *)
Record verdict_ok (vs : VariableSet) (sat : asg → Prop) (a : asg) (v : VariableId) (x : RawInline) (k : bool) : Prop := {
  vd_sound : k = true → sat a → sat (extend a v x);
  vd_complete : extendable vs sat a v x → k = true;
}.

(** The laws of the trait.  [relevant] says for which sets of bound variables
    the constraint has an opinion on a variable: the documentation requires that
    this depends on nothing else.  [satisfied] may be optimistic, as its default
    is, once a variable is bound. *)
Class ConstraintOk (c : Constraint) (sat : asg → Prop) (relevant : VariableSet → VariableId → bool) : Prop := {
  co_variables : vs_wf (variables c);
  co_relevant : ∀ s v, (v < 128)%N → relevant s v = true → is_set (variables c) v = true;
  co_mono : ∀ a a', asg_sub a a' → asg_ok a' → sat a' → sat a;
  co_satisfied : ∀ b, binding_ok b → ∃ r, satisfied c b = Some r ∧ (sat (bval b) → r = true) ∧
    ((∀ v, bval b v = None) → r = true → sat (bval b));
  co_estimate : ∀ v b, (v < 128)%N → binding_ok b → is_set (b_bound b) v = false →
    ∃ r, estimate c v b = Some r ∧ (is_Some r ↔ relevant (b_bound b) v = true);
  co_irrelevant : ∀ b v x, (v < 128)%N → binding_ok b → is_set (b_bound b) v = false → value_ok x →
    relevant (b_bound b) v = false → sat (bval b) → sat (extend (bval b) v x);
  co_propose : ∀ v f b, (v < 128)%N → frontier_ok f → is_set (f_bound f) v = false → relevant (f_bound f) v = true → pb_ok b →
    ∃ b' new, propose c v f b = Some b' ∧ pb_ok b' ∧ items b' = items b ++ new ∧ tagged_ok f new ∧
      ∀ r, r < f_len f → proposal_ok (variables c) sat (fval f r) v (proposed_for new r);
  co_confirm : ∀ v f cands, (v < 128)%N → frontier_ok f → is_set (f_bound f) v = false → cands_ok f cands →
    ∃ c' k, confirm c v f cands = Some c' ∧ killed cands k c' ∧
      ∀ i, i < cd_len cands → live_at cands i = true →
        verdict_ok (variables c) sat (cand_asg f cands i) v (cand_value cands i) (k i);
}.

(** What remains of the laws for a constraint that is never asked to propose,
    as one that only confirms. *)
Class FilterOk (c : Constraint) (sat : asg → Prop) (relevant : VariableSet → VariableId → bool) : Prop := {
  fl_variables : vs_wf (variables c);
  fl_relevant : ∀ s v, (v < 128)%N → relevant s v = true → is_set (variables c) v = true;
  fl_mono : ∀ a a', asg_sub a a' → asg_ok a' → sat a' → sat a;
  fl_satisfied : ∀ b, binding_ok b → ∃ r, satisfied c b = Some r ∧ (sat (bval b) → r = true) ∧
    ((∀ v, bval b v = None) → r = true → sat (bval b));
  fl_estimate : ∀ v b, (v < 128)%N → binding_ok b → is_set (b_bound b) v = false →
    ∃ r, estimate c v b = Some r ∧ (is_Some r ↔ relevant (b_bound b) v = true);
  fl_irrelevant : ∀ b v x, (v < 128)%N → binding_ok b → is_set (b_bound b) v = false → value_ok x →
    relevant (b_bound b) v = false → sat (bval b) → sat (extend (bval b) v x);
  fl_confirm : ∀ v f cands, (v < 128)%N → frontier_ok f → is_set (f_bound f) v = false → cands_ok f cands →
    ∃ c' k, confirm c v f cands = Some c' ∧ killed cands k c' ∧
      ∀ i, i < cd_len cands → live_at cands i = true →
        verdict_ok (variables c) sat (cand_asg f cands i) v (cand_value cands i) (k i);
}.

Lemma constraint_filter c sat rel : ConstraintOk c sat rel → FilterOk c sat rel.
Proof. intros [H1 H2 H3 H4 H5 H6 _ H8]. by split. Qed.

(** The constraint refutes every binding that contradicts it, which a
    disjunction relies on and the default method does not do. *)
Class ConstraintDecides (c : Constraint) (sat : asg → Prop) : Prop :=
  co_decides : ∀ b, binding_ok b → satisfied c b = Some true → sat (bval b).

(** ** Lemmas *)

Lemma decides_satisfied c sat rel `{!ConstraintOk c sat rel, !ConstraintDecides c sat} b : binding_ok b →
  ∃ r, satisfied c b = Some r ∧ (r = true ↔ sat (bval b)).
Proof.
  intros Hb. destruct (co_satisfied b Hb) as (r & Hr & Hs & _). exists r. split; [done|]. split; [|done].
  intros ->. by apply co_decides.
Qed.

Lemma satisfied_weak c (sat : asg → Prop) b : (∃ r, satisfied c b = Some r ∧ (r = true ↔ sat (bval b))) →
  ∃ r, satisfied c b = Some r ∧ (sat (bval b) → r = true) ∧ ((∀ v, bval b v = None) → r = true → sat (bval b)).
Proof. intros (r & Hr & Hiff). exists r. split_and!; [done|by apply Hiff|]. intros _. apply Hiff. Qed.

Lemma satisfied_decides c (sat : asg → Prop) :
  (∀ b, binding_ok b → ∃ r, satisfied c b = Some r ∧ (r = true ↔ sat (bval b))) → ConstraintDecides c sat.
Proof. intros H b Hb Hs. destruct (H b Hb) as (r & Hr & Hiff). rewrite Hs in Hr. simplify_eq. by apply Hiff. Qed.

Lemma bval_get b v : binding_ok b → (v < 128)%N → bget b v = Some (bval b v).
Proof.
  intros Hb Hv. destruct (Hb v Hv) as (o & Hg & _). unfold bval. apply N.ltb_lt in Hv as ->. by rewrite Hg.
Qed.

Lemma bval_bound b v : binding_ok b → (v < 128)%N → is_Some (bval b v) ↔ is_set (b_bound b) v = true.
Proof.
  intros Hb Hv. destruct (Hb v Hv) as (o & Hg & Ho & _). rewrite bval_get in Hg by done. by simplify_eq.
Qed.

Lemma bval_unbound b v : binding_ok b → (v < 128)%N → is_set (b_bound b) v = false → bval b v = None.
Proof.
  intros Hb Hv Hs. destruct (bval b v) eqn:E; [|done].
  assert (is_set (b_bound b) v = true) by (apply bval_bound; rewrite ?E; eauto). congruence.
Qed.

Lemma bval_ok b : binding_ok b → asg_ok (bval b).
Proof.
  intros Hb v x Hx. assert ((v < 128)%N) as Hv.
  { unfold bval in Hx. destruct (N.ltb_spec v 128); done. }
  destruct (Hb v Hv) as (o & Hg & _ & Ho). rewrite bval_get in Hg by done. simplify_eq. auto.
Qed.

Lemma frontier_row f i : frontier_ok f → i < f_len f →
  f_row f i = Some (frow f i) ∧ b_bound (frow f i) = f_bound f ∧ binding_ok (frow f i).
Proof.
  intros Hf Hi. destruct (fo_rows _ Hf i Hi) as (b & Hb & ? & ?). unfold frow. by rewrite Hb.
Qed.

Lemma asg_sub_refl a : asg_sub a a.
Proof. by intros v x. Qed.
Lemma asg_sub_trans a b c : asg_sub a b → asg_sub b c → asg_sub a c.
Proof. intros H1 H2 v x Hx. by apply H2, H1. Qed.
Lemma extend_sub a v x : a v = None → asg_sub a (extend a v x).
Proof. intros Hv w y Hw. unfold extend. destruct (N.eqb_spec w v); [congruence|done]. Qed.
Lemma extend_eq a v x : extend a v x v = Some x.
Proof. unfold extend. by rewrite N.eqb_refl. Qed.
Lemma extend_ne a v x w : w ≠ v → extend a v x w = a w.
Proof. unfold extend. by intros ->%N.eqb_neq. Qed.
Lemma extend_ok a v x : asg_ok a → value_ok x → asg_ok (extend a v x).
Proof. intros Ha Hx w y. unfold extend. destruct (w =? v)%N; [by intros [= ->]|apply Ha]. Qed.

Lemma extendable_value vs sat a v x : extendable vs sat a v x → value_ok x.
Proof. intros (a' & Hok & Hsub & _). apply (Hok v), Hsub, extend_eq. Qed.

Lemma as_u32_id n : (N.of_nat n < 2 ^ 32)%N → as_u32 n = N.of_nat n.
Proof. intros Hn. unfold as_u32. by apply N.mod_small. Qed.

Lemma proposed_for_app its its' r : proposed_for (its ++ its') r = proposed_for its r ++ proposed_for its' r.
Proof. unfold proposed_for. by rewrite filter_app, !fmap_app. Qed.

Lemma elem_of_proposed its r x : x ∈ proposed_for its r ↔ (N.of_nat r, x, true) ∈ its.
Proof.
  unfold proposed_for. rewrite list_elem_of_fmap. split.
  - intros ([p y] & -> & Hy). apply list_elem_of_fmap in Hy as ([[p' y'] l] & [= -> ->] & Hy).
    apply list_elem_of_filter in Hy as [[Hl Hp] Hin]. simpl in *. by subst.
  - intros Hin. exists (N.of_nat r, x). split; [done|]. apply list_elem_of_fmap. exists (N.of_nat r, x, true).
    split; [done|]. by apply list_elem_of_filter.
Qed.

(** Values proposed live for one row. *)
Lemma proposed_for_push r r' (xs : list RawInline) :
  proposed_for ((λ x, (N.of_nat r, x, true)) <$> xs) r' = if decide (r = r') then xs else [].
Proof.
  unfold proposed_for. destruct (decide (r = r')) as [->|Hne].
  - induction xs as [|x xs IH]; [done|]. rewrite fmap_cons, filter_cons_True, !fmap_cons by done. simpl. f_equal. apply IH.
  - induction xs as [|x xs IH]; [done|]. rewrite fmap_cons, filter_cons_False; [done|]. simpl. intros [_ ?]. lia.
Qed.

(** ** Variable sets, by membership *)

Lemma is_set_new_empty v : is_set new_empty v = false.
Proof. unfold is_set. done. Qed.

Lemma is_set_set s v w : (v < 128)%N → (w < 128)%N → is_set (set s v) w = (w =? v)%N || is_set s w.
Proof.
  intros Hv Hw. rewrite !is_set_spec, elements_set by done. apply eq_true_iff_eq.
  rewrite orb_true_iff, !bool_decide_eq_true, N.eqb_eq. set_solver.
Qed.

Lemma is_set_unset s v w : (v < 128)%N → (w < 128)%N → is_set (unset s v) w = negb (w =? v)%N && is_set s w.
Proof.
  intros Hv Hw. rewrite !is_set_spec, elements_unset by done. apply eq_true_iff_eq.
  rewrite andb_true_iff, negb_true_iff, !bool_decide_eq_true, N.eqb_neq. set_solver.
Qed.

Lemma is_set_union s t v : (v < 128)%N → is_set (union s t) v = is_set s v || is_set t v.
Proof.
  intros Hv. rewrite !is_set_spec by done. apply eq_true_iff_eq.
  rewrite orb_true_iff, !bool_decide_eq_true, !elem_of_elements. unfold union. simpl.
  rewrite N.lor_spec, orb_true_iff. naive_solver.
Qed.

Lemma wf_set s v : vs_wf s → vs_wf (set s v).
Proof.
  intros Hs. apply lt_pow2_testbit. intros i Hi. unfold set. simpl. rewrite N.lor_spec.
  rewrite (wf_high s i Hs Hi). unfold wshl. rewrite N.land_spec, testbit_ones.
  rewrite (proj2 (N.ltb_ge i 128)) by done. by rewrite andb_false_r.
Qed.
Lemma wf_union s t : vs_wf s → vs_wf t → vs_wf (union s t).
Proof.
  intros Hs Ht. apply lt_pow2_testbit. intros i Hi. unfold union. simpl.
  by rewrite N.lor_spec, (wf_high s i Hs Hi), (wf_high t i Ht Hi).
Qed.
Lemma wf_new_empty : vs_wf new_empty.
Proof. done. Qed.

(** ** Proposers that visit the rows one by one *)

Lemma rows_propose f (step : ProposalBuffer → nat → res ProposalBuffer) (xs : nat → list RawInline) start n b :
  pb_ok b → start + n <= f_len f →
  (∀ b r, pb_ok b → start <= r < start + n → ∃ b', step b r = Some b' ∧ pb_ok b' ∧
    items b' = items b ++ ((λ x, (N.of_nat r, x, true)) <$> xs r)) →
  (∀ r, start <= r < start + n → Forall value_ok (xs r)) →
  ∃ b' new, foldM step b (seq start n) = Some b' ∧ pb_ok b' ∧ items b' = items b ++ new ∧ tagged_ok f new ∧
    ∀ r, proposed_for new r = if decide (start <= r < start + n) then xs r else [].
Proof.
  revert start b. induction n as [|n IH]; intros start b Hb Hn Hstep Hok; simpl.
  { exists b, []. rewrite app_nil_r. split_and!; [done..| |].
    - intros p x l Hin. by apply not_elem_of_nil in Hin.
    - intros r. destruct (decide _); [lia|done]. }
  destruct (Hstep b start Hb) as (b1 & -> & Hb1 & Hi1); [lia|]. simpl.
  destruct (IH (S start) b1 Hb1) as (b' & new & -> & Hb' & Hi' & Ht & Hp); [lia|intros; apply Hstep; (done || lia)|intros; apply Hok; lia|].
  eexists b', (_ ++ new). split_and!; [done|done| | |].
  - by rewrite Hi', Hi1, <- app_assoc.
  - intros p x l Hin. apply elem_of_app in Hin as [Hin|Hin]; [|by eapply Ht].
    apply list_elem_of_fmap in Hin as (y & [= -> -> ->] & Hy). rewrite Nat2N.id. split; [lia|].
    specialize (Hok start ltac:(lia)). rewrite Forall_forall in Hok. auto.
  - intros r. rewrite proposed_for_app, proposed_for_push, Hp.
    destruct (decide (start = r)), (decide (S start <= r < S start + n)),
      (decide (start <= r < start + S n)); try lia; subst; rewrite ?app_nil_r; done.
Qed.

(** One row: open its segment and append its values. *)
Lemma open_row b r : (N.of_nat r < 2 ^ 32)%N → pb_ok b →
  pb_ok (pb_open b (as_u32 r)) ∧ pb_parent (pb_open b (as_u32 r)) = N.of_nat r ∧ items (pb_open b (as_u32 r)) = items b.
Proof. intros Hr Hb. split_and!; [by apply pb_open_ok|simpl; by apply as_u32_id|done]. Qed.

Lemma row_u32 f r : frontier_ok f → r < f_len f → (N.of_nat r < 2 ^ 32)%N.
Proof. intros Hf Hr. pose proof (fo_len _ Hf). lia. Qed.

(** ** Regions handed to a confirmer *)

Lemma cands_ok_killed f c k c' : cands_ok f c → killed c k c' → cands_ok f c'.
Proof.
  intros (Hc & Hp & Hv) Hk. split_and!.
  - by eapply updated_ok.
  - by rewrite (up_parents _ _ _ Hk).
  - by rewrite (up_values _ _ _ Hk).
Qed.

Lemma cand_row f c i : cands_ok f c → i < cd_len c →
  ∃ p, cd_parents c !! i = Some p ∧ N.to_nat p < f_len f ∧ cand_asg f c i = fval f (N.to_nat p).
Proof.
  intros (Hc & Hp & _) Hi. destruct (cd_parent_some c i Hc Hi) as [p Hpi]. exists p. split_and!; [done|by eapply Hp|].
  unfold cand_asg. by rewrite (list_lookup_total_correct _ _ _ Hpi).
Qed.

Lemma cand_value_lookup c i : i < cd_len c → cd_values c !! i = Some (cand_value c i).
Proof. intros Hi. unfold cand_value. apply list_lookup_lookup_total_lt. done. Qed.

Lemma cand_value_ok f c i : cands_ok f c → i < cd_len c → value_ok (cand_value c i).
Proof.
  intros (_ & _ & Hv) Hi. rewrite Forall_lookup in Hv. eapply Hv. by apply cand_value_lookup.
Qed.

(** A region of a frontier's buffer. *)
Lemma region_cands_ok f b new its c base : pb_ok b → items b = its ++ new → length its = base →
  tagged_ok f new → pb_region b base = Some c → cands_ok f c.
Proof.
  intros Hb Hi Hl Ht Hr. assert (base <= pb_len b) as Hbase.
  { rewrite <- items_length, Hi, length_app by done. lia. }
  destruct (pb_region_spec b base Hb Hbase) as (c0 & Hr0 & Hc & Hv & Hp & Hlen & _). simplify_eq.
  assert (∀ i p x, cd_parents c !! i = Some p → cd_values c !! i = Some x → N.to_nat p < f_len f ∧ value_ok x) as Hboth.
  { intros i p x Hpi Hxi. rewrite Hp, lookup_drop in Hpi. rewrite Hv, lookup_drop in Hxi.
    apply (Ht p x (wbit (pb_live b) (length its + i))). apply list_elem_of_lookup. exists i.
    assert (items b !! (length its + i) = Some (p, x, wbit (pb_live b) (length its + i))) as Hit by by apply items_lookup.
    rewrite Hi, lookup_app_r in Hit by (lia).
    rewrite <- Hit. f_equal. lia. }
  split_and!; [done| |].
  - intros i p Hpi. apply lookup_lt_Some in Hpi as Hlt. rewrite (cd_ok_parents _ Hc) in Hlt.
    by eapply Hboth, cand_value_lookup.
  - apply Forall_lookup. intros i x Hx. apply lookup_lt_Some in Hx as Hlt.
    destruct (cd_parent_some c i Hc Hlt) as [p Hpi]. by eapply Hboth.
Qed.

(** ** The store *)

Record store_ok (s : BindingStore) : Prop := {
  so_indexes : length (s_indexes s) = 128;
  so_levels : length (s_levels s) = 128;
  so_buffers : ∀ i l b, s_levels s !! i = Some l → lv_buffer l = Some b → pb_ok b;
  so_binding : binding_ok (store_view s);
}.

(** How many values level [v] holds. *)
Definition level_size (s : BindingStore) (v : VariableId) : nat :=
  match s_levels s !! N.to_nat v with Some l => pb_len (default pb_new (lv_buffer l)) | None => 0 end.

Lemma store_new_ok : store_ok store_new ∧ ∀ v, bval (store_view store_new) v = None.
Proof.
  assert (∀ v, bget (store_view store_new) v = Some None) as Hg by (intros v; unfold bget; by rewrite is_set_new_empty).
  split; [|intros v; unfold bval; destruct (v <? 128)%N; by rewrite ?Hg]. split; try done.
  - intros i l b Hl Hb. apply lookup_replicate in Hl as [-> _]. done.
  - intros v Hv. exists None. rewrite Hg. split_and!; [done| |done]. simpl. rewrite is_set_new_empty. split; [by intros [??]|done].
Qed.

Lemma store_bind_spec s v x : store_ok s → (v < 128)%N → value_ok x → (N.of_nat (level_size s v) < 2 ^ 32)%N →
  ∃ s', store_bind s v x = Some s' ∧ store_ok s' ∧ level_size s' v = S (level_size s v) ∧
    ∀ w, bval (store_view s') w = extend (bval (store_view s)) v x w.
Proof.
  intros [Hi Hl Hb Hok] Hv Hx Hsize. unfold store_bind, level_size in *.
  destruct (lookup_lt_is_Some_2 (s_levels s) (N.to_nat v)) as [l El]; [lia|]. rewrite El in *. cbn [mbind option_bind].
  set (buf := default pb_new (lv_buffer l)) in *.
  assert (pb_ok buf) as Hbuf.
  { unfold buf. destruct (lv_buffer l) eqn:E; [by eapply Hb|apply pb_new_ok]. }
  destruct (pb_push_spec buf x Hbuf) as (buf' & Hp & Hbuf' & _ & Hit). rewrite Hp. cbn [mbind option_bind].
  assert (pb_entries buf' = pb_entries buf ++ [x]) as He.
  { unfold pb_push, pb_append in Hp. destruct (set_bit _ _); [|done]. by simplify_eq/=. }
  rewrite !arr_set_Some by lia. cbn [mbind option_bind]. eexists. split; [done|].
  set (s' := mkStore _ _ _).
  assert (∀ w, (w < 128)%N → bget (store_view s') w = if (w =? v)%N then Some (Some x) else bget (store_view s) w) as Hg.
  { intros w Hw. unfold bget. simpl. rewrite is_set_set by done. destruct (N.eqb_spec w v) as [->|Hne]; simpl.
    - rewrite list_lookup_insert_eq by lia. simpl. rewrite list_lookup_insert_eq by lia. simpl.
      rewrite as_u32_id by done. rewrite Nat2N.id, He. unfold pb_len. by rewrite lookup_app_r, Nat.sub_diag by lia.
    - by rewrite !list_lookup_insert_ne by lia. }
  split_and!.
  - split; simpl; rewrite ?length_insert; try done.
    + intros i l' b. destruct (decide (i = N.to_nat v)) as [->|Hne].
      * rewrite list_lookup_insert_eq by lia. intros [= <-] [= <-]. done.
      * rewrite list_lookup_insert_ne by done. apply Hb.
    + intros w Hw. rewrite Hg by done. simpl. rewrite is_set_set by done. destruct (N.eqb_spec w v) as [->|Hne]; simpl.
      * exists (Some x). split_and!; [done|by eauto|by intros y [= <-]].
      * by apply Hok.
  - simpl. rewrite list_lookup_insert_eq by lia. simpl. unfold pb_len. rewrite He, length_app. simpl. lia.
  - intros w. unfold bval, extend. destruct (N.ltb_spec w 128) as [Hw|Hw]; [rewrite Hg by done|];
      destruct (N.eqb_spec w v); (done || lia).
Qed.

Lemma store_frontier_spec s : store_ok s →
  ∃ f, store_frontier s = Some f ∧ frontier_ok f ∧ f_len f = 1 ∧ f_bound f = s_bound s ∧
    f_row f 0 = Some (store_view s) ∧ fval f 0 = bval (store_view s).
Proof.
  intros [Hi Hl Hb Hok]. unfold store_frontier. simpl. eexists. split; [done|].
  assert (f_row (mkFrontier (s_bound s) (s_indexes s) (length (s_indexes s)) (Consecutive 0 1) (s_levels s) false) 0
    = Some (store_view s)) as Hr.
  { unfold f_row, row_indexes. simpl. unfold slice_range. simpl. rewrite Nat.add_0_r, Nat.leb_refl. simpl.
    rewrite Nat.sub_0_r, drop_0, firstn_all. done. }
  split_and!; try done.
  - split; [|by vm_compute]. intros i Hi1. unfold f_len in Hi1. simpl in Hi1. assert (i = 0) as -> by lia. eauto.
  - unfold fval, frow. by rewrite Hr.
Qed.

Lemma store_unset_spec s v : store_ok s → (v < 128)%N → store_ok (store_unset s v) ∧
  ∀ w, bval (store_view (store_unset s v)) w = if (w =? v)%N then None else bval (store_view s) w.
Proof.
  intros [Hi Hl Hb Hok] Hv.
  assert (∀ w, (w < 128)%N → bget (store_view (store_unset s v)) w = if (w =? v)%N then Some None else bget (store_view s) w) as Hg.
  { intros w Hw. unfold bget. simpl. rewrite is_set_unset by done. by destruct (N.eqb_spec w v). }
  split.
  - split; try done. intros w Hw. rewrite Hg by done. simpl. rewrite is_set_unset by done.
    destruct (N.eqb_spec w v) as [->|]; simpl; [|by apply Hok]. exists None. split_and!; [done| |done]. split; [by intros [??]|done].
  - intros w. unfold bval. destruct (N.ltb_spec w 128); [rewrite Hg by done|]; by destruct (N.eqb_spec w v).
Qed.

(** The binding store is a partial assignment: binding a variable extends
    it, unsetting one forgets it, the other variables keep their values across
    rebinding, and its frontier is the one row of that assignment.  Binding
    does not panic while the level holds fewer than 2^32 values. *)
Theorem binding_store_refines s v x : store_ok s → (v < 128)%N → value_ok x → (N.of_nat (level_size s v) < 2 ^ 32)%N →
  ∃ s' f, store_bind s v x = Some s' ∧ store_ok s' ∧ level_size s' v = S (level_size s v) ∧
    (∀ w, bval (store_view s') w = extend (bval (store_view s)) v x w) ∧
    (store_ok (store_unset s' v) ∧
      ∀ w, bval (store_view (store_unset s' v)) w = if (w =? v)%N then None else bval (store_view s) w) ∧
    store_frontier s' = Some f ∧ frontier_ok f ∧ f_len f = 1 ∧ f_row f 0 = Some (store_view s').
Proof.
  intros Hs Hv Hx Hsize. destruct (store_bind_spec s v x) as (s' & Hs' & Hok & Hl & Hval); [done..|].
  destruct (store_frontier_spec s' Hok) as (f & Hf & Hfok & Hlen & _ & Hrow & _).
  exists s', f. split_and!; try done; [by apply store_unset_spec|]. intros w.
  rewrite (proj2 (store_unset_spec s' v Hok Hv)), Hval. unfold extend. by destruct (w =? v)%N.
Qed.
