(* ===== verification/Constraints.v ===== *)
(** * Constraints: constants and equality

    Source: [triblespace-core/src/query/constantconstraint.rs] and
    [query/equalityconstraint.rs].

    Both implementations satisfy the laws of the protocol.  The equality
    constraint has an opinion on a variable only when its peer is bound. *)

From S2P Require Import Prelude Lex VariableSet Machine Trible Liveness Query.

Open Scope nat_scope.

(** ** A variable pinned to a value *)

Record ConstantConstraint := mkConstant { cc_variable : VariableId; cc_constant : RawInline }.

Module Constant.

Definition variables (c : ConstantConstraint) : VariableSet := new_singleton (cc_variable c).

Definition estimate (c : ConstantConstraint) (variable : VariableId) (_ : Binding) : res (option N) :=
  Some (if (cc_variable c =? variable)%N then Some 1%N else None).

Definition propose (c : ConstantConstraint) (variable : VariableId) (f : Frontier) (b : ProposalBuffer)
    : res ProposalBuffer :=
  if (cc_variable c =? variable)%N then
    foldM (λ b row, pb_push (pb_open b (as_u32 row)) (cc_constant c)) b (seq 0 (f_len f))
  else Some b.

Definition confirm (c : ConstantConstraint) (variable : VariableId) (_ : Frontier) (cands : Candidates)
    : res Candidates :=
  if (cc_variable c =? variable)%N then
    foldM (λ cands i,
      v ← cd_values cands !! i;
      alive ← cd_is_live cands i;
      if alive && negb (bool_decide (v = cc_constant c)) then cd_kill cands i else Some cands)
      cands (seq 0 (cd_len cands))
  else Some cands.

Definition satisfied (c : ConstantConstraint) (b : Binding) : res bool :=
  o ← bget b (cc_variable c);
  Some (match o with Some v => bool_decide (v = cc_constant c) | None => true end).

Definition constraint (c : ConstantConstraint) : Constraint :=
  mkConstraint (variables c) (estimate c) (propose c) (confirm c) (satisfied c)
    (default_influence (variables c)).

End Constant.

(** ** Two variables with the same value *)

Record EqualityConstraint := mkEquality { eq_a : VariableId; eq_b : VariableId }.

Module Equality.

Definition variables (c : EqualityConstraint) : VariableSet := set (set new_empty (eq_a c)) (eq_b c).

Definition estimate (c : EqualityConstraint) (variable : VariableId) (b : Binding) : res (option N) :=
  if (variable =? eq_a c)%N then
    o ← bget b (eq_b c); Some (match o with Some _ => Some 1%N | None => None end)
  else if (variable =? eq_b c)%N then
    o ← bget b (eq_a c); Some (match o with Some _ => Some 1%N | None => None end)
  else Some None.

Definition peer (c : EqualityConstraint) (variable : VariableId) : option VariableId :=
  if (variable =? eq_a c)%N then Some (eq_b c)
  else if (variable =? eq_b c)%N then Some (eq_a c)
  else None.

Definition propose (c : EqualityConstraint) (variable : VariableId) (f : Frontier) (b : ProposalBuffer)
    : res ProposalBuffer :=
  match peer c variable with
  | Some peer =>
      foldM (λ b row,
        binding ← f_row f row;
        o ← bget binding peer;
        match o with
        | Some v => pb_push (pb_open b (as_u32 row)) v
        | None => Some b
        end) b (seq 0 (f_len f))
  | None => Some b
  end.

Definition confirm (c : EqualityConstraint) (variable : VariableId) (f : Frontier) (cands : Candidates)
    : res Candidates :=
  match peer c variable with
  | Some peer =>
      cd_for_each_parent cands (λ row run,
        binding ← f_row f (N.to_nat row);
        o ← bget binding peer;
        match o with
        | Some v => cd_retain run (λ value, Some (bool_decide (value = v)))
        | None => Some run
        end)
  | None => Some cands
  end.

Definition satisfied (c : EqualityConstraint) (b : Binding) : res bool :=
  x ← bget b (eq_a c);
  y ← bget b (eq_b c);
  Some (match x, y with
        | Some x, Some y => bool_decide (x = y)
        | _, _ => true
        end).

Definition constraint (c : EqualityConstraint) : Constraint :=
  mkConstraint (variables c) (estimate c) (propose c) (confirm c) (satisfied c)
    (default_influence (variables c)).

End Equality.

(** ** Lemmas *)

(** Verdicts that depend on the candidate and its row only. *)
Lemma confirm_each f c (step : Candidates → nat → res Candidates) (k : asg → RawInline → bool) :
  cands_ok f c →
  (∀ c1 i, cands_ok f c1 → cd_values c1 = cd_values c → cd_parents c1 = cd_parents c → i < cd_len c →
    ∃ c2, step c1 i = Some c2 ∧ killed c1 (λ j, negb (j =? i) || k (cand_asg f c i) (cand_value c i)) c2) →
  ∃ c', foldM step c (seq 0 (cd_len c)) = Some c' ∧ killed c (λ i, k (cand_asg f c i) (cand_value c i)) c'.
Proof.
  intros Hc Hstep.
  destruct (fold_verdicts step (λ i, k (cand_asg f c i) (cand_value c i)) c 0 (cd_len c)) as (c' & -> & Hk).
  - apply Hc.
  - lia.
  - intros c1 i Hc1 Hv Hp Hi. apply Hstep; [|done|done|lia].
    destruct Hc as (_ & H1 & H2). split_and!; [done| |]; by rewrite ?Hp, ?Hv.
  - exists c'. split; [done|]. eapply killed_ext; [done|]. intros i Hi _.
    cbv beta. rewrite (proj2 (Nat.ltb_lt i _)) by lia. done.
Qed.

(** One entry judged by its value. *)
Lemma judge_entry f c i (keep : bool) : cands_ok f c → i < cd_len c →
  ∃ c2, (if (live_at c i && negb keep : bool) then cd_kill c i else Some c) = Some c2 ∧
    killed c (λ j, negb (j =? i) || keep) c2.
Proof.
  intros (Hc & _) Hi. destruct (live_at c i) eqn:Hl, keep; simpl.
  - exists c. split; [done|]. apply killed_refl; [done|]. intros. by rewrite orb_true_r.
  - destruct (cd_kill_spec c i) as (c2 & -> & Hk); [done..|]. exists c2. split; [done|].
    eapply killed_ext; [done|]. intros. by rewrite orb_false_r.
  - exists c. split; [done|]. apply killed_refl; [done|]. intros. by rewrite orb_true_r.
  - exists c. split; [done|]. apply killed_refl; [done|]. intros j Hj Hlj.
    destruct (Nat.eqb_spec j i) as [->|]; [congruence|done].
Qed.

Lemma const_set v w : (v < 128)%N → (w < 128)%N → is_set (new_singleton v) w = (w =? v)%N.
Proof. intros. unfold new_singleton. by rewrite is_set_set, is_set_new_empty, orb_false_r. Qed.

(** ** The constant constraint obeys the protocol *)

Section constant.
Context (c : ConstantConstraint) (Hv : (cc_variable c < 128)%N) (Hx : value_ok (cc_constant c)).

Definition constant_sat (a : asg) : Prop := ∀ x, a (cc_variable c) = Some x → x = cc_constant c.
Definition constant_relevant (_ : VariableSet) (v : VariableId) : bool := (v =? cc_variable c)%N.

Lemma constant_extend a x : constant_sat (extend a (cc_variable c) x) ↔ x = cc_constant c.
Proof.
  unfold constant_sat. rewrite extend_eq. split; [intros H; by apply H|by intros -> ? [= ->]].
Qed.

Lemma constant_satisfied b : binding_ok b →
  ∃ r, satisfied (Constant.constraint c) b = Some r ∧ (r = true ↔ constant_sat (bval b)).
Proof.
  intros Hb. simpl. unfold Constant.satisfied. rewrite bval_get by done. simpl. eexists. split; [done|].
  unfold constant_sat. destruct (bval b (cc_variable c)) as [x|]; [|naive_solver].
  rewrite bool_decide_eq_true. naive_solver.
Qed.
#[global] Instance constant_decides : ConstraintDecides (Constant.constraint c) constant_sat.
Proof. apply satisfied_decides, constant_satisfied. Qed.

#[global] Instance constant_ok : ConstraintOk (Constant.constraint c) constant_sat constant_relevant.
Proof.
  split; simpl.
  - by apply wf_set.
  - intros s v Hv' Hr. unfold constant_relevant in Hr. unfold Constant.variables. by rewrite const_set.
  - intros a a' Hsub _ Ha x Hax. by apply Ha, Hsub.
  - intros b Hb. by apply (satisfied_weak (Constant.constraint c)), constant_satisfied.
  - intros v b Hv' Hb Hu. eexists. split; [done|]. unfold constant_relevant. rewrite N.eqb_sym.
    destruct (v =? cc_variable c)%N; split; try done; by intros [? ?].
  - intros b v x Hv' Hb Hu Hxo Hr Ha y Hy. unfold constant_relevant in Hr. bool_hyps.
    rewrite extend_ne in Hy by done. by apply Ha.
  - intros v f b Hv' Hf Hu Hr Hb. unfold constant_relevant in Hr. bool_hyps. subst v.
    unfold Constant.propose. rewrite N.eqb_refl.
    destruct (rows_propose f (λ b row, pb_push (pb_open b (as_u32 row)) (cc_constant c))
      (λ _, [cc_constant c]) 0 (f_len f) b) as (b' & new & -> & Hb' & Hi & Ht & Hp); [done|lia| |intros; by apply Forall_singleton|].
    { intros b0 r Hb0 Hr. destruct (open_row b0 r) as (Ho1 & Ho2 & Ho3); [by eapply row_u32; [|apply Hr]|done|].
      destruct (pb_push_spec _ (cc_constant c) Ho1) as (b1 & -> & ? & _ & Hi1). exists b1.
      by rewrite Hi1, Ho2, Ho3. }
    exists b', new. split_and!; try done. intros r Hr. rewrite Hp. destruct (decide _); [|lia]. split.
    + apply NoDup_singleton.
    + intros x ->%list_elem_of_singleton _. by apply constant_extend.
    + intros x (a' & _ & Hsub & _ & Ha'). apply list_elem_of_singleton. apply Ha', Hsub, extend_eq.
  - intros v f cands Hv' Hf Hu Hc. unfold Constant.confirm. destruct (N.eqb_spec (cc_variable c) v) as [<-|Hne].
    + destruct (confirm_each f cands (λ cands i,
        v ← cd_values cands !! i;
        alive ← cd_is_live cands i;
        if alive && negb (bool_decide (v = cc_constant c)) then cd_kill cands i else Some cands)
        (λ _ x, bool_decide (x = cc_constant c))) as (c' & -> & Hk); [done| |].
      { intros c1 i Hc1 Hvs Hps Hi. rewrite Hvs, cand_value_lookup by done. simpl.
        assert (cd_len c1 = cd_len cands) as Hl by (unfold cd_len; by rewrite Hvs).
        rewrite cd_is_live_spec by (apply Hc1 || lia). simpl. eapply judge_entry; [done|lia]. }
      exists c', (λ i, bool_decide (cand_value cands i = cc_constant c)). split_and!; [done..|]. intros i Hi _. split.
      * rewrite bool_decide_eq_true. intros -> _. by apply constant_extend.
      * intros (a' & _ & Hsub & _ & Ha'). apply bool_decide_eq_true, Ha', Hsub, extend_eq.
    + exists cands, (λ _, true). split_and!; [done|apply killed_refl; [apply Hc|done]|]. intros i Hi _. split; [|done].
      intros _ Ha x. rewrite extend_ne by done. apply Ha.
Qed.
End constant.

(** ** The equality constraint obeys the protocol *)

Lemma sub_region_lookup c start stop i : cd_ok c → start < stop <= cd_len c → i < stop - start →
  cand_value (sub_region c start stop) i = cand_value c (start + i) ∧
  cd_parents (sub_region c start stop) !! i = cd_parents c !! (start + i).
Proof.
  intros Hc Hs Hi. unfold sub_region, cand_value. simpl. split.
  - rewrite !list_lookup_total_alt. f_equal. by rewrite lookup_take_lt, lookup_drop.
  - by rewrite lookup_take_lt, lookup_drop.
Qed.

(** A confirmer that asks each run's row for a verdict on every value. *)
Lemma confirm_runs f c (confirm : N → Candidates → res Candidates) (k : asg → RawInline → bool) : cands_ok f c →
  (∀ p run, N.to_nat p < f_len f → cd_ok run → Forall value_ok (cd_values run) →
    ∃ run', confirm p run = Some run' ∧ killed run (λ i, k (fval f (N.to_nat p)) (cand_value run i)) run') →
  ∃ c', cd_for_each_parent c confirm = Some c' ∧ killed c (λ i, k (cand_asg f c i) (cand_value c i)) c'.
Proof.
  intros (Hc & Hp & Hv) Hconfirm. apply cd_for_each_parent_spec; [done|].
  intros c1 start stop p Hc1 Hvs Hps Hs Htags.
  assert (cd_len c1 = cd_len c) as Hl by (unfold cd_len; by rewrite Hvs).
  destruct (sub_region_ok c1 start stop Hc1) as (Hok & Hlen & _); [lia|].
  assert (cd_parents c !! start = Some p) as Hpar by (apply Htags; lia).
  destruct (Hconfirm p (sub_region c1 start stop)) as (run' & -> & Hk); [by eapply Hp|done| |].
  { unfold sub_region. simpl. rewrite Hvs. by apply Forall_take, Forall_drop. }
  exists run'. split; [done|]. eapply killed_ext; [done|]. intros i Hi _. rewrite Hlen in Hi.
  destruct (sub_region_lookup c1 start stop i) as [Hval _]; [done|lia|lia|]. rewrite Hval. unfold cand_asg.
  rewrite (list_lookup_total_correct _ _ p) by (apply Htags; lia). unfold cand_value. by rewrite Hvs.
Qed.

Section equality.
Context (c : EqualityConstraint) (Ha : (eq_a c < 128)%N) (Hb : (eq_b c < 128)%N).

Definition equality_sat (a : asg) : Prop := ∀ x y, a (eq_a c) = Some x → a (eq_b c) = Some y → x = y.
Definition equality_relevant (s : VariableSet) (v : VariableId) : bool :=
  match Equality.peer c v with Some peer => is_set s peer | None => false end.

Lemma equality_variables v : (v < 128)%N →
  is_set (Equality.variables c) v = (v =? eq_b c)%N || ((v =? eq_a c)%N || false).
Proof. intros Hv. unfold Equality.variables. by rewrite !is_set_set, is_set_new_empty by done. Qed.

Lemma peer_lt v p : Equality.peer c v = Some p → (p < 128)%N.
Proof. unfold Equality.peer. destruct (_ =? _)%N; [by intros [= <-]|]. destruct (_ =? _)%N; by intros [= <-]. Qed.

(** What a new value of [v] has to be. *)
Lemma equality_extend a v x : a v = None → equality_sat a →
  equality_sat (extend a v x) ↔
  ∀ p y, Equality.peer c v = Some p → a p = Some y → x = y.
Proof.
  intros Hn Hs. unfold equality_sat, Equality.peer, extend.
  destruct (N.eqb_spec v (eq_a c)) as [Hva|Hva]; [|destruct (N.eqb_spec v (eq_b c)) as [Hvb|Hvb]].
  - rewrite <- Hva, N.eqb_refl. destruct (N.eqb_spec (eq_b c) v) as [Hbv|Hbv].
    + rewrite Hbv. split; [intros _ p y [= <-]; congruence|congruence].
    + split; [intros H p y [= <-] Hy; by apply H|]. intros H x' y [= <-] Hy. by eapply H.
  - rewrite <- Hvb, N.eqb_refl. destruct (N.eqb_spec (eq_a c) v) as [Hbv|Hbv]; [congruence|].
    split; [intros H p y [= <-] Hy; symmetry; by apply H|]. intros H x' y Hx' [= <-]. symmetry. by eapply H.
  - destruct (N.eqb_spec (eq_a c) v), (N.eqb_spec (eq_b c) v); try congruence.
    split; [done|]. intros _. apply Hs.
Qed.

Lemma equality_satisfied b : binding_ok b →
  ∃ r, satisfied (Equality.constraint c) b = Some r ∧ (r = true ↔ equality_sat (bval b)).
Proof.
  intros Hok. simpl. unfold Equality.satisfied. rewrite !bval_get by done. simpl. eexists. split; [done|].
  unfold equality_sat. destruct (bval b (eq_a c)), (bval b (eq_b c)); try naive_solver.
  rewrite bool_decide_eq_true. naive_solver.
Qed.
#[global] Instance equality_decides : ConstraintDecides (Equality.constraint c) equality_sat.
Proof. apply satisfied_decides, equality_satisfied. Qed.

#[global] Instance equality_ok : ConstraintOk (Equality.constraint c) equality_sat equality_relevant.
Proof.
  split; simpl.
  - by apply wf_set, wf_set.
  - intros s v Hv. unfold equality_relevant, Equality.peer. rewrite equality_variables by done.
    destruct (v =? eq_a c)%N, (v =? eq_b c)%N; done.
  - intros a a' Hsub _ Hsat x y Hx Hy. apply Hsat; by apply Hsub.
  - intros b Hok. by apply (satisfied_weak (Equality.constraint c)), equality_satisfied.
  - intros v b Hv Hok Hu. unfold Equality.estimate, equality_relevant, Equality.peer.
    destruct (v =? eq_a c)%N; [|destruct (v =? eq_b c)%N]; rewrite ?bval_get by done; simpl;
      eexists; (split; [done|]); [rewrite <- (bval_bound b) by done..|by split; [intros [??]|]].
    + destruct (bval b (eq_b c)); split; eauto; by intros [??].
    + destruct (bval b (eq_a c)); split; eauto; by intros [??].
  - intros b v x Hv Hok Hu Hx Hr Hs. apply equality_extend; [by apply bval_unbound|done|].
    intros p y Hp Hy. unfold equality_relevant in Hr. rewrite Hp in Hr.
    rewrite bval_unbound in Hy; [done..|by eapply peer_lt|done].
  - intros v f b Hv Hf Hu Hr Hpb. unfold Equality.propose. unfold equality_relevant in Hr.
    destruct (Equality.peer c v) as [p|] eqn:Hp; [|done]. pose proof (peer_lt v p Hp) as Hpl.
    assert (∀ r, r < f_len f → ∃ y, fval f r p = Some y ∧ value_ok y) as Hpeer.
    { intros r Hr'. destruct (frontier_row f r Hf Hr') as (_ & Hbd & Hok).
      destruct (proj2 (bval_bound (frow f r) p Hok Hpl)) as [y Hy]; [by rewrite Hbd|].
      exists y. split; [done|]. by eapply bval_ok. }
    destruct (rows_propose f (λ b row,
        binding ← f_row f row;
        o ← bget binding p;
        match o with
        | Some v => pb_push (pb_open b (as_u32 row)) v
        | None => Some b
        end) (λ r, [default [] (fval f r p)]) 0 (f_len f) b) as (b' & new & -> & Hb' & Hi & Ht & Hpr); [done|lia| | |].
    { intros b0 r Hb0 Hr'. destruct (frontier_row f r Hf) as (-> & Hbd & Hok); [lia|]. simpl.
      rewrite bval_get by done. simpl. destruct (Hpeer r) as (y & Hy & _); [lia|]. unfold fval in Hy. rewrite Hy. simpl.
      destruct (open_row b0 r) as (Ho1 & Ho2 & Ho3); [eapply row_u32; [done|lia]|done|].
      destruct (pb_push_spec _ y Ho1) as (b1 & -> & ? & _ & Hi1). exists b1.
      split_and!; [done..|]. rewrite Hi1, Ho2, Ho3. unfold fval. by rewrite Hy. }
    { intros r Hr'. apply Forall_singleton. destruct (Hpeer r) as (y & -> & Hy); [lia|done]. }
    exists b', new. split_and!; [done..|]. intros r Hr'. rewrite Hpr. destruct (decide _); [|lia].
    destruct (Hpeer r Hr') as (y & Hy & _). rewrite Hy. simpl. destruct (frontier_row f r Hf Hr') as (_ & Hbd & Hok).
    assert (fval f r v = None) as Hn by (apply bval_unbound; [done..|by rewrite Hbd]). split.
    + apply NoDup_singleton.
    + intros x ->%list_elem_of_singleton Hs. apply equality_extend; [done..|].
      intros p' y' Hp' Hy'. congruence.
    + intros x (a' & _ & Hsub & _ & Hs'). apply list_elem_of_singleton.
      assert (p ≠ v) as Hpv by (intros ->; congruence).
      assert (a' v = Some x) as Hx' by apply Hsub, extend_eq.
      assert (a' p = Some y) as Hy' by (apply Hsub; by rewrite extend_ne).
      unfold Equality.peer in Hp. destruct (N.eqb_spec v (eq_a c)) as [->|]; [simplify_eq; by apply Hs'|].
      destruct (N.eqb_spec v (eq_b c)) as [->|]; simplify_eq. symmetry. by apply Hs'.
  - intros v f cands Hv Hf Hu Hc. unfold Equality.confirm. destruct (Equality.peer c v) as [p|] eqn:Hp.
    + pose proof (peer_lt v p Hp) as Hpl.
      destruct (confirm_runs f cands (λ row run,
        binding ← f_row f (N.to_nat row);
        o ← bget binding p;
        match o with
        | Some v => cd_retain run (λ value, Some (bool_decide (value = v)))
        | None => Some run
        end) (λ a x, match a p with Some y => bool_decide (x = y) | None => true end)) as (c' & -> & Hk); [done| |].
      { intros q run Hq Hrun Hvals. destruct (frontier_row f (N.to_nat q) Hf Hq) as (-> & Hbd & Hok). simpl.
        rewrite bval_get by done. simpl. unfold fval. destruct (bval (frow f (N.to_nat q)) p) as [y|].
        - by destruct (cd_retain_spec run (λ value, Some (bool_decide (value = y))) (λ x, bool_decide (x = y)) Hrun)
            as (run' & ? & ?); [|exists run'].
        - exists run. split; [done|]. by apply killed_refl. }
      eexists c', _. split_and!; [done..|]. intros i Hi _. simpl.
      destruct (cand_row f cands i Hc Hi) as (q & _ & Hq & Hasg). rewrite Hasg.
      destruct (frontier_row f (N.to_nat q) Hf Hq) as (_ & Hbd & Hok).
      assert (fval f (N.to_nat q) v = None) as Hn by (apply bval_unbound; [done..|by rewrite Hbd]). split.
      * intros Hk' Hs. apply equality_extend; [done..|]. intros p' y Hp' Hy. rewrite Hp in Hp'. injection Hp' as <-.
        rewrite Hy in Hk'. by apply bool_decide_eq_true in Hk'.
      * intros (a' & _ & Hsub & _ & Hs'). destruct (fval f (N.to_nat q) p) as [y|] eqn:Hy; [|done].
        apply bool_decide_eq_true. assert (p ≠ v) as Hpv by (intros ->; congruence).
        assert (a' v = Some (cand_value cands i)) as Hx' by apply Hsub, extend_eq.
        assert (a' p = Some y) as Hy' by (apply Hsub; by rewrite extend_ne).
        unfold Equality.peer in Hp. destruct (N.eqb_spec v (eq_a c)) as [->|]; [simplify_eq; by apply Hs'|].
        destruct (N.eqb_spec v (eq_b c)) as [->|]; simplify_eq. symmetry. by apply Hs'.
    + exists cands, (λ _, true). split_and!; [done|apply killed_refl; [apply Hc|done]|]. intros i Hi _. split; [|done].
      intros _ Hs. destruct (cand_row f cands i Hc Hi) as (q & _ & Hq & Hasg). rewrite Hasg in *.
      destruct (frontier_row f (N.to_nat q) Hf Hq) as (_ & Hbd & Hok).
      apply equality_extend; [by apply bval_unbound; rewrite ?Hbd|done|]. intros p y Hp'. congruence.
Qed.
End equality.

(** The constraint on one variable obeys the protocol with the meaning "the
    variable, once bound, has the constant's value": proposals are exactly
    that value, confirmations keep exactly it, other variables are none of its
    business.  Its estimate is one. *)
Theorem constant_protocol c : (cc_variable c < 128)%N → value_ok (cc_constant c) →
  ConstraintOk (Constant.constraint c) (λ a, ∀ x, a (cc_variable c) = Some x → x = cc_constant c)
    (λ _ v, (v =? cc_variable c)%N) ∧
  ConstraintDecides (Constant.constraint c) (λ a, ∀ x, a (cc_variable c) = Some x → x = cc_constant c) ∧
  (∀ b, Constant.estimate c (cc_variable c) b = Some (Some 1%N)).
Proof.
  intros Hv Hx. split; [by apply constant_ok|]. split; [by apply constant_decides|]. intros b. unfold Constant.estimate. by rewrite N.eqb_refl.
Qed.

(** The equality of two variables obeys the protocol with the meaning "both,
    once bound, have the same value".  It has an opinion on a variable exactly
    when its peer is bound: then it proposes the peer's value and its estimate
    is one.  Bound to different values it is refuted. *)
Theorem equality_protocol c : (eq_a c < 128)%N → (eq_b c < 128)%N →
  ConstraintOk (Equality.constraint c) (λ a, ∀ x y, a (eq_a c) = Some x → a (eq_b c) = Some y → x = y)
    (λ s v, match Equality.peer c v with Some peer => is_set s peer | None => false end) ∧
  ConstraintDecides (Equality.constraint c) (λ a, ∀ x y, a (eq_a c) = Some x → a (eq_b c) = Some y → x = y).
Proof. intros Ha Hb. split; [by apply equality_ok|by apply equality_decides]. Qed.
