(* ===== verification/Intersection.v ===== *)
(** * Intersection: the conjunction of constraints

    Source: [triblespace-core/src/query/intersectionconstraint.rs].

    Each row's tightest child proposes, the other relevant children confirm the
    region it appended.  Rows that disagree on the tightest child travel as
    sub-frontiers.  [sort_by_estimate] is [sort_unstable_by_key], which leaves
    the order of equal estimates open; only that it permutes is used. *)

From S2P Require Import Prelude Lex VariableSet Machine Trible Liveness Query Constraints.

Open Scope nat_scope.

Module Intersection.
Section ops.
Context (sort_by_estimate : list (N * nat) → list (N * nat)).
Implicit Types cs : list Constraint.

Definition variables cs : VariableSet := foldl (λ vs c, union vs (Query.variables c)) new_empty cs.

(** [Iterator::min]. *)
Definition list_min (l : list N) : option N :=
  foldl (λ acc x, Some (match acc with Some m => N.min m x | None => x end)) None l.

Definition estimate cs (variable : VariableId) (b : Binding) : res (option N) :=
  es ← mapM (λ c, Query.estimate c variable b) cs;
  Some (list_min (omap id es)).

Definition is_sorted_by_estimate (l : list (N * nat)) : bool :=
  forallb (λ i, match l !! i, l !! S i with
                | Some (x, _), Some (y, _) => (x <=? y)%N
                | _, _ => true
                end) (seq 0 (length l)).
Definition sorted_confirmers (l : list (N * nat)) : list (N * nat) :=
  if is_sorted_by_estimate l then l else sort_by_estimate l.

(** The scan of one child for one row: [relevant_rows], [confirmers] and the
    best child so far with its estimate. *)
Definition scan_child (variable : VariableId) (row : nat) (binding : Binding)
    (st : list nat * list (N * nat) * option (N * nat)) (ic : nat * Constraint)
    : res (list nat * list (N * nat) * option (N * nat)) :=
  let '(relevant_rows, confirmers, best) := st in
  let '(i, c) := ic in
  o ← Query.estimate c variable binding;
  match o with
  | Some estimate =>
      n ← relevant_rows !! i;
      relevant_rows ← arr_set relevant_rows i (S n);
      let confirmers := if row =? 0 then confirmers ++ [(estimate, i)] else confirmers in
      let best := match best with
                  | None => Some (estimate, i)
                  | Some (b, _) => if (estimate <? b)%N then Some (estimate, i) else best
                  end in
      Some (relevant_rows, confirmers, best)
  | None => Some st
  end.

Definition scan_row cs (variable : VariableId) (f : Frontier)
    (st : list nat * list (N * nat) * list (option nat)) (row : nat)
    : res (list nat * list (N * nat) * list (option nat)) :=
  let '(relevant_rows, confirmers, choice) := st in
  binding ← f_row f row;
  '(relevant_rows, confirmers, best) ←
    foldM (scan_child variable row binding) (relevant_rows, confirmers, None) (imap pair cs);
  Some (relevant_rows, confirmers, choice ++ [snd <$> best]).

(** The confirmers other than the proposer, on one region. *)
Definition confirm_others cs (variable : VariableId) (f : Frontier) (confirmers : list (N * nat))
    (proposer : nat) (region : Candidates) : res Candidates :=
  foldM (λ region ei, c ← cs !! snd ei; Query.confirm c variable f region) region
    (filter (λ ei, snd ei ≠ proposer) (sorted_confirmers confirmers)).

(** Propose with one child and confirm with the others. *)
Definition narrow cs (variable : VariableId) (f : Frontier) (confirmers : list (N * nat)) (proposer : nat)
    (proposals : ProposalBuffer) : res ProposalBuffer :=
  let base := pb_len proposals in
  c ← cs !! proposer;
  proposals ← Query.propose c variable f proposals;
  region ← pb_region proposals base;
  region ← confirm_others cs variable f confirmers proposer region;
  Some (put_region proposals base region).

Definition rows_of (choice : list (option nat)) (proposer : nat) : list nat :=
  filter (λ row, choice !! row = Some (Some proposer)) (seq 0 (length choice)).

Definition split_step cs (variable : VariableId) (f : Frontier) (confirmers : list (N * nat))
    (choice : list (option nat)) (proposals : ProposalBuffer) (proposer : nat) : res ProposalBuffer :=
  let positions := as_u32 <$> rows_of choice proposer in
  if bool_decide (positions = []) then Some proposals else
  select ← f_compose f positions [];
  let sub := f_with_select f select in
  let base := pb_len proposals in
  proposals ← narrow cs variable sub confirmers proposer proposals;
  pb_remap_region proposals base positions.

Definition propose cs (variable : VariableId) (f : Frontier) (proposals : ProposalBuffer) : res ProposalBuffer :=
  let rows := f_len f in
  if rows =? 0 then Some proposals else
  '(relevant_rows, confirmers, choice) ←
    foldM (scan_row cs variable f) (replicate (length cs) 0, [], []) (seq 0 rows);
  massert (forallb (λ n, (n =? 0) || (n =? rows)) relevant_rows);;
  if forallb (λ c, bool_decide (c = None)) choice then Some proposals else
  first ← choice !! 0;
  if forallb (λ c, bool_decide (c = first)) choice then
    proposer ← first;
    narrow cs variable f confirmers proposer proposals
  else
    foldM (split_step cs variable f confirmers choice) proposals (seq 0 (length cs)).

(** A relevant child, by its index, with its estimate. *)
Definition with_estimate (variable : VariableId) (binding : Binding) (ic : nat * Constraint)
    : res (option (N * nat)) :=
  o ← Query.estimate (snd ic) variable binding;
  Some (match o with Some e => Some (e, fst ic) | None => None end).

Definition confirm cs (variable : VariableId) (f : Frontier) (cands : Candidates) : res Candidates :=
  if f_is_empty f then Some cands else
  binding ← f_row f 0;
  es ← mapM (with_estimate variable binding) (imap pair cs);
  foldM (λ region ei, c ← cs !! snd ei; Query.confirm c variable f region) cands
    (sorted_confirmers (omap id es)).

(** [Iterator::all], which stops at the first [false]. *)
Fixpoint satisfied cs (b : Binding) : res bool :=
  match cs with
  | [] => Some true
  | c :: cs => r ← Query.satisfied c b; if (r : bool) then satisfied cs b else Some false
  end.

Definition influence cs (variable : VariableId) : VariableSet :=
  foldl (λ vs c, union vs (Query.influence c variable)) new_empty cs.

Definition constraint cs : Constraint :=
  mkConstraint (variables cs) (estimate cs) (propose cs) (confirm cs) (satisfied cs) (influence cs).

End ops.
End Intersection.

(** ** Regions after confirmation *)

Lemma elem_of_set_live its f p x l : (p, x, l) ∈ set_live its f ↔ ∃ i l', its !! i = Some (p, x, l') ∧ l = f i.
Proof.
  unfold set_live. rewrite list_elem_of_lookup. split.
  - intros [i Hi]. apply list_lookup_imap_Some in Hi as ([[p' x'] l'] & Hit & [= -> -> ->]). eauto.
  - intros (i & l' & Hi & ->). exists i. by rewrite list_lookup_imap, Hi.
Qed.

Lemma tagged_ok_set_live f its g : tagged_ok f its → tagged_ok f (set_live its g).
Proof. intros Ht p x l (i & l' & Hi & _)%elem_of_set_live. eapply Ht, list_elem_of_lookup_2, Hi. Qed.

Lemma proposed_for_sublist its g r : (∀ i p x l, its !! i = Some (p, x, l) → g i = true → l = true) →
  proposed_for (set_live its g) r `sublist_of` proposed_for its r.
Proof.
  revert g. induction its as [|[[p x] l] its IH]; intros g Hg; [done|].
  unfold set_live. rewrite imap_cons. change (imap _ its) with (set_live its (g ∘ S)). simpl.
  change ((p, x, g 0) :: set_live its (g ∘ S)) with ([(p, x, g 0)] ++ set_live its (g ∘ S)).
  change ((p, x, l) :: its) with ([(p, x, l)] ++ its). rewrite !proposed_for_app.
  apply sublist_app; [|apply IH; intros i p' x' l' Hi; by apply (Hg (S i) p' x' l')].
  unfold proposed_for. rewrite !filter_cons, !filter_nil. specialize (Hg 0 p x l eq_refl). simpl in *.
  case_decide as Hd; [|apply sublist_nil_l]. destruct Hd as [Hg0 Hp]. rewrite Hg by done. by rewrite decide_True.
Qed.

(** What killing in the region a proposer appended does to the buffer. *)
Lemma confirm_region f b its new : pb_ok b → items b = its ++ new → tagged_ok f new →
  ∃ c, pb_region b (length its) = Some c ∧ cands_ok f c ∧ cd_len c = length new ∧
    (∀ i p x l, new !! i = Some (p, x, l) →
      cd_parents c !! i = Some p ∧ cand_value c i = x ∧ live_at c i = l) ∧
    ∀ k c', killed c k c' → pb_ok (put_region b (length its) c') ∧
      items (put_region b (length its) c') = its ++ set_live new (λ i, live_at c i && k i).
Proof.
  intros Hb Hi Ht. assert (length its <= pb_len b) as Hbase.
  { rewrite <- items_length, Hi, length_app by done. lia. }
  destruct (pb_region_spec b (length its) Hb Hbase) as (c & Hr & Hc & Hv & Hp & Hlen & Hlive).
  exists c. split_and!; [done|by eapply region_cands_ok| | |].
  - rewrite Hlen, <- items_length, Hi, length_app by done. lia.
  - intros i p x l Hn. assert (items b !! (length its + i) = Some (p, x, l)) as Hit.
    { rewrite Hi, lookup_app_r by (lia). rewrite <- Hn. f_equal. lia. }
    apply items_lookup in Hit as (Hpi & Hxi & ->); [|done]. split_and!.
    + by rewrite Hp, lookup_drop.
    + unfold cand_value. apply list_lookup_total_correct. by rewrite Hv, lookup_drop.
    + apply Hlive.
  - intros k c' Hk. destruct (put_region_spec b (length its) c _ c' Hb Hbase Hr Hk) as [Hok Hits].
    split; [done|]. by rewrite Hits, Hi, take_app_length, drop_app_length.
Qed.

(** ** Sub-frontiers *)

Section sub.
Context (f : Frontier) (Hf : frontier_ok f) (rows : list nat) (Hrows : Forall (λ r, r < f_len f) rows) (Hnd : NoDup rows).

Lemma compose_spec : ∃ select, f_compose f (as_u32 <$> rows) [] = Some select ∧
  length select = length rows ∧
  ∀ j r, rows !! j = Some r → f_row (f_with_select f select) j = f_row f r.
Proof.
  assert (∃ select, Forall2 (λ r x, r < f_len f ∧ sel_get (f_select f) r = Some (Some x)) rows select) as [select H2].
  { clear Hnd. induction Hrows as [|r rows' Hr Hrest IH]; [by exists []|]. destruct (IH Hrest) as [select H2].
    destruct (fo_rows _ Hf r Hr) as (b & Hb & _). unfold f_row, row_indexes in Hb.
    destruct (sel_get (f_select f) r) as [[x|]|] eqn:Hx; [|done..]. exists (x :: select). by constructor. }
  assert (mapM (λ position, o ← sel_get (f_select f) (N.to_nat position); o) (as_u32 <$> rows) = Some select) as Hm.
  { apply mapM_Some_2, Forall2_fmap_l. eapply Forall2_impl; [done|]. intros r x [Hr Hx]. unfold compose.
    rewrite as_u32_id by by eapply row_u32. by rewrite Nat2N.id, Hx. }
  unfold f_compose. rewrite Hm. simpl. exists select. split; [done|]. split; [by rewrite (Forall2_length _ _ _ H2)|].
  intros j r Hj. destruct (Forall2_lookup_l _ _ _ _ _ H2 Hj) as (x & Hx & _ & Hsel).
  unfold f_row, row_indexes. simpl. by rewrite Hx, Hsel.
Qed.

Lemma sub_frontier_ok select : length select = length rows →
  (∀ j r, rows !! j = Some r → f_row (f_with_select f select) j = f_row f r) →
  frontier_ok (f_with_select f select) ∧ f_len (f_with_select f select) = length rows ∧
  ∀ j r, rows !! j = Some r → fval (f_with_select f select) j = fval f r.
Proof.
  intros Hl Hrow. split; [|split].
  - split.
    + intros j Hj. change (f_len (f_with_select f select)) with (length select) in Hj.
      destruct (lookup_lt_is_Some_2 rows j) as [r Hr]; [lia|]. rewrite (Hrow _ _ Hr).
      apply (fo_rows _ Hf). by eapply (proj1 (Forall_lookup _ _) Hrows).
    + change (f_len (f_with_select f select)) with (length select). rewrite Hl.
      assert (rows ⊆+ seq 0 (f_len f)) as Hsub%submseteq_length.
      { apply NoDup_submseteq; [done|]. intros r Hr. rewrite Forall_forall in Hrows. apply elem_of_seq. specialize (Hrows r Hr). lia. }
      rewrite length_seq in Hsub. pose proof (fo_len _ Hf). lia.
  - done.
  - intros j r Hr. unfold fval, frow. by rewrite (Hrow _ _ Hr).
Qed.
End sub.

(** ** What the children of a combinator answer *)

Lemma imap_pair_fst {A} (l : list A) : (imap pair l).*1 = seq 0 (length l).
Proof.
  apply list_eq. intros i. rewrite list_lookup_fmap, list_lookup_imap.
  destruct (l !! i) as [x|] eqn:Hi; simpl.
  - apply lookup_lt_Some in Hi. by rewrite lookup_seq_lt.
  - apply lookup_ge_None in Hi. by rewrite lookup_seq_ge.
Qed.

Lemma elem_of_imap_pair {A} (l : list A) i x : (i, x) ∈ imap pair l ↔ l !! i = Some x.
Proof.
  rewrite list_elem_of_lookup. split.
  - intros [j Hj]. apply list_lookup_imap_Some in Hj as (y & Hy & [= -> ->]). done.
  - intros Hi. exists i. by rewrite list_lookup_imap, Hi.
Qed.

Section children.
Context (cs : list Constraint) (sat : nat → asg → Prop) (rel : nat → VariableSet → VariableId → bool).
Hypothesis children : ∀ i c, cs !! i = Some c → FilterOk c (sat i) (rel i).

Lemma child_estimates v b : (v < 128)%N → binding_ok b → is_set (b_bound b) v = false →
  ∃ es, mapM (λ c, estimate c v b) cs = Some es ∧
    Forall2 (λ i o, is_Some o ↔ rel i (b_bound b) v = true) (seq 0 (length cs)) es.
Proof.
  intros Hv Hb Hu.
  assert (∀ l : list (nat * Constraint), (∀ i c, (i, c) ∈ l → cs !! i = Some c) →
    ∃ es, mapM (λ c, estimate c v b) l.*2 = Some es ∧ Forall2 (λ i o, is_Some o ↔ rel i (b_bound b) v = true) l.*1 es) as Hgen.
  { induction l as [|[i c] l IH]; intros Hl; [by exists []|].
    assert (cs !! i = Some c) as Hi by (apply Hl; set_solver).
    destruct IH as (es & Hes & H2); [intros; apply Hl; set_solver|].
    destruct (fl_estimate (FilterOk:=children i c Hi) v b) as (o & Ho & Hr); [done..|].
    exists (o :: es). rewrite !fmap_cons. cbn [mapM fst snd]. rewrite Ho. cbn [mbind option_bind]. rewrite Hes.
    split; [done|]. by constructor. }
  assert ((imap pair cs).*2 = cs) as Hsnd.
  { apply list_eq. intros i. rewrite list_lookup_fmap, list_lookup_imap. by destruct (cs !! i). }
  destruct (Hgen (imap pair cs)) as (es & Hes & H2); [by intros; apply elem_of_imap_pair|].
  rewrite Hsnd in Hes. rewrite imap_pair_fst in H2. by exists es.
Qed.

Lemma some_estimate (n : nat) (P : nat → Prop) (es : list (option N)) :
  Forall2 (λ i o, is_Some o ↔ P i) (seq 0 n) es → omap id es ≠ [] ↔ ∃ i, i < n ∧ P i.
Proof.
  intros H2. split.
  - intros Hne. destruct (omap id es) as [|e es'] eqn:E; [done|].
    assert (e ∈ omap id es) as Hin by (rewrite E; by left). apply list_elem_of_omap in Hin as (o & Ho & He). unfold id in He. subst o.
    apply list_elem_of_lookup in Ho as [i Hi]. destruct (Forall2_lookup_r _ _ _ _ _ H2 Hi) as (j & Hj & Hr).
    apply lookup_seq in Hj as [-> Hj]. exists i. split; [done|]. apply Hr. eauto.
  - intros (i & Hi & Hr). destruct (Forall2_lookup_l _ _ _ i i H2) as (o & Ho & Ho'); [by rewrite lookup_seq_lt|].
    apply Ho' in Hr. destruct Hr as [e He]. subst o. intros Hnil. apply list_elem_of_lookup_2 in Ho.
    assert (e ∈ omap id es) as Hin by (apply list_elem_of_omap; by exists (Some e)). rewrite Hnil in Hin.
    by apply not_elem_of_nil in Hin.
Qed.

End children.

(** ** The intersection obeys the protocol *)

Section intersection.
Context (sort_by_estimate : list (N * nat) → list (N * nat)) (Hsort : ∀ l, sort_by_estimate l ≡ₚ l).
Context (cs : list Constraint) (sat : nat → asg → Prop) (rel : nat → VariableSet → VariableId → bool).
Context (filters : nat → bool).
Hypothesis children : ∀ i c, cs !! i = Some c → FilterOk c (sat i) (rel i).
Hypothesis proposers : ∀ i c, cs !! i = Some c → filters i = false → ConstraintOk c (sat i) (rel i).
(** Whatever a filter estimates, a child that proposes estimates less. *)
Hypothesis led : ∀ i c v b e, cs !! i = Some c → filters i = true → (v < 128)%N → binding_ok b → is_set (b_bound b) v = false →
  estimate c v b = Some (Some e) → ∃ j d e', cs !! j = Some d ∧ filters j = false ∧ estimate d v b = Some (Some e') ∧ (e' < e)%N.

Definition intersection_sat (a : asg) : Prop := ∀ i, i < length cs → sat i a.
Definition intersection_relevant (s : VariableSet) (v : VariableId) : bool :=
  existsb (λ i, rel i s v) (seq 0 (length cs)).
Abbreviation vars := (Intersection.variables cs).
(** The children with an opinion. *)
Abbreviation relevant s v := (filter (λ i, rel i s v = true) (seq 0 (length cs))).

Lemma intersection_relevant_spec s v :
  intersection_relevant s v = true ↔ ∃ i, i < length cs ∧ rel i s v = true.
Proof.
  unfold intersection_relevant. rewrite existsb_exists. split.
  - intros (i & Hi & Hr). apply in_seq in Hi. exists i. split; [lia|done].
  - intros (i & Hi & Hr). exists i. split; [apply in_seq; lia|done].
Qed.

Lemma foldl_union (g : Constraint → VariableSet) (l : list Constraint) s v : (v < 128)%N →
  is_set (foldl (λ vs c, union vs (g c)) s l) v = true ↔ is_set s v = true ∨ ∃ c, c ∈ l ∧ is_set (g c) v = true.
Proof.
  intros Hv. revert s. induction l as [|c l IH]; intros s; simpl.
  - split; [by left|]. intros [?|(c & Hc & _)]; [done|]. by apply not_elem_of_nil in Hc.
  - rewrite IH, is_set_union, orb_true_iff by done. setoid_rewrite elem_of_cons. naive_solver.
Qed.

Lemma intersection_variables v : (v < 128)%N →
  is_set vars v = true ↔ ∃ i c, cs !! i = Some c ∧ is_set (variables c) v = true.
Proof.
  intros Hv. unfold Intersection.variables. rewrite foldl_union by done. rewrite is_set_new_empty. split.
  - intros [?|(c & (i & Hi)%list_elem_of_lookup & Hc)]; [done|eauto].
  - intros (i & c & Hi & Hc). right. exists c. split; [by eapply list_elem_of_lookup_2|done].
Qed.

Lemma extendable_child i c a v x : cs !! i = Some c →
  extendable vars intersection_sat a v x → extendable (variables c) (sat i) a v x.
Proof.
  intros Hi (a' & Hok & Hsub & Htot & Hs). exists a'. split_and!; [done..| |].
  - intros w Hw Hc. apply Htot; [done|]. apply intersection_variables; [done|]. eauto.
  - apply Hs. by eapply lookup_lt_Some.
Qed.

(** Several children confirm in turn: the verdicts conjoin. *)
Lemma fold_confirms v g (L : list (N * nat)) c : (v < 128)%N → frontier_ok g → is_set (f_bound g) v = false →
  cands_ok g c → (∀ j, j ∈ L.*2 → j < length cs) →
  ∃ c' k, foldM (λ region ei, c ← cs !! snd ei; confirm c v g region) c L = Some c' ∧ killed c k c' ∧
    ∀ i, i < cd_len c → live_at c i = true →
      (k i = true → ∀ j, j ∈ L.*2 → sat j (cand_asg g c i) → sat j (extend (cand_asg g c i) v (cand_value c i))) ∧
      ((∀ j d, j ∈ L.*2 → cs !! j = Some d →
        extendable (variables d) (sat j) (cand_asg g c i) v (cand_value c i)) → k i = true).
Proof.
  intros Hv Hg Hu. revert c. induction L as [|[e j] L IH]; intros c Hc HL; simpl.
  { exists c, (λ _, true). split_and!; [done|apply killed_refl; [apply Hc|done]|]. intros i Hi _.
    split; [|done]. intros _ j Hj. by apply not_elem_of_nil in Hj. }
  destruct (lookup_lt_is_Some_2 cs j) as [d Hd]; [apply HL; set_solver|]. rewrite Hd. simpl.
  destruct (fl_confirm (FilterOk:=children j d Hd) v g c) as (c1 & k1 & -> & Hk1 & Hver1); [done..|]. simpl.
  pose proof (cands_ok_killed _ _ _ _ Hc Hk1) as Hc1. pose proof (up_len _ _ _ Hk1) as Hl1.
  destruct (IH c1 Hc1) as (c' & k & -> & Hk & Hver); [set_solver|].
  exists c', (λ i, k1 i && k i). split_and!; [done|by eapply killed_trans|]. intros i Hi Hlive.
  destruct (Hver1 i Hi Hlive) as [Hs1 Hx1].
  assert (cand_asg g c1 i = cand_asg g c i) as Ea by (unfold cand_asg; by rewrite (up_parents _ _ _ Hk1)).
  assert (cand_value c1 i = cand_value c i) as Ev by (unfold cand_value; by rewrite (up_values _ _ _ Hk1)).
  assert (live_at c1 i = k1 i) as El by (rewrite (up_in _ _ _ Hk1 i Hi), Hlive; done).
  specialize (Hver i ltac:(lia)). rewrite Ea, Ev, El in Hver. split.
  - intros [Ht1 Ht]%andb_true_iff j'. rewrite elem_of_cons. intros [->|Hj']; [by apply Hs1|]. by apply Hver.
  - intros Hall. assert (k1 i = true) as Ht1 by (apply Hx1; apply (Hall j d); [set_solver|done]).
    rewrite Ht1. simpl. apply Hver; [done|]. intros j' d' Hj'. apply Hall. set_solver.
Qed.

Lemma sorted_confirmers_perm L : Intersection.sorted_confirmers sort_by_estimate L ≡ₚ L.
Proof. unfold Intersection.sorted_confirmers. by destruct (Intersection.is_sorted_by_estimate L). Qed.

(** A child the others confirm: the proposals of the intersection. *)
Lemma narrow_spec v g L p b : (v < 128)%N → frontier_ok g → is_set (f_bound g) v = false → pb_ok b →
  L.*2 ≡ₚ relevant (f_bound g) v → p ∈ relevant (f_bound g) v → filters p = false →
  ∃ b' new, Intersection.narrow sort_by_estimate cs v g L p b = Some b' ∧ pb_ok b' ∧
    items b' = items b ++ new ∧ tagged_ok g new ∧
    ∀ r, r < f_len g → proposal_ok vars intersection_sat (fval g r) v (proposed_for new r).
Proof.
  intros Hv Hg Hu Hb HL Hp Hfp. apply list_elem_of_filter in Hp as [Hrel Hp%elem_of_seq].
  destruct (lookup_lt_is_Some_2 cs p) as [c Hc]; [lia|]. unfold Intersection.narrow. rewrite Hc. simpl.
  destruct (co_propose (ConstraintOk:=proposers p c Hc Hfp) v g b) as (b1 & new & -> & Hb1 & Hi1 & Ht1 & Hprop); [done..|].
  simpl. destruct (confirm_region g b1 (items b) new Hb1 Hi1 Ht1) as (reg & Hreg & Hcok & Hlen & Hits & Hput).
  rewrite items_length in Hreg, Hput by done. rewrite Hreg. simpl.
  unfold Intersection.confirm_others. set (L' := filter _ _).
  assert (∀ j, j ∈ L'.*2 ↔ j ∈ relevant (f_bound g) v ∧ j ≠ p) as HL'.
  { intros j. rewrite <- HL. unfold L'. rewrite !list_elem_of_fmap. split.
    - intros ([e i] & -> & [Hne Hin]%list_elem_of_filter). rewrite sorted_confirmers_perm in Hin.
      split; [by exists (e, i)|done].
    - intros [([e i] & -> & Hin) Hne]. exists (e, i). split; [done|]. apply list_elem_of_filter.
      split; [done|]. by rewrite sorted_confirmers_perm. }
  destruct (fold_confirms v g L' reg) as (reg' & k & -> & Hk & Hver); [done..| |].
  { intros j [[_ Hj%elem_of_seq]%list_elem_of_filter _]%HL'. lia. }
  simpl. destruct (Hput k reg' Hk) as [Hb' Hi']. eexists _, _. split_and!; [done|done|done|by apply tagged_ok_set_live|].
  intros r Hr. destruct (Hprop r Hr) as [Hnd Hsound Hcomp].
  assert (proposed_for (set_live new (λ i, live_at reg i && k i)) r `sublist_of` proposed_for new r) as Hsl.
  { apply proposed_for_sublist. intros i q x l Hn [Hl _]%andb_true_iff. destruct (Hits i q x l Hn) as (_ & _ & <-). done. }
  destruct (frontier_row g r Hg Hr) as (_ & Hbd & Hok).
  assert (∀ i q x, new !! i = Some (q, x, true) → q = N.of_nat r →
    i < cd_len reg ∧ live_at reg i = true ∧ cand_asg g reg i = fval g r ∧ cand_value reg i = x ∧ value_ok x) as Hentry.
  { intros i q x Hn ->. destruct (Hits i _ x true Hn) as (Hpar & Hval & Hlive). split_and!; [|done| |done|].
    - rewrite Hlen. by eapply lookup_lt_Some.
    - unfold cand_asg. by rewrite (list_lookup_total_correct _ _ _ Hpar), Nat2N.id.
    - by apply (Ht1 (N.of_nat r) x true), list_elem_of_lookup_2 with i. }
  split.
  - by eapply sublist_NoDup.
  - intros x Hx. apply elem_of_proposed, elem_of_set_live in Hx as (i & l' & Hn & Hl).
    symmetry in Hl. apply andb_true_iff in Hl as [Hlive Hki]. destruct (Hits _ _ _ _ Hn) as (_ & _ & Hl'). rewrite Hlive in Hl'. subst l'.
    destruct (Hentry i _ x Hn eq_refl) as (Hi & _ & Ea & Ev & Hxok). intros Hs j Hj.
    destruct (Hver i Hi Hlive) as [Hver1 _]. rewrite Ea, Ev in Hver1.
    destruct (decide (j = p)) as [->|Hne]; [apply Hsound; [apply elem_of_proposed; by eapply list_elem_of_lookup_2|by apply Hs]|].
    destruct (rel j (f_bound g) v) eqn:Hrj.
    + apply Hver1; [done| |by apply Hs]. apply HL'. split; [|done]. apply list_elem_of_filter. split; [done|]. apply elem_of_seq. lia.
    + destruct (lookup_lt_is_Some_2 cs j Hj) as [d Hd].
      apply (fl_irrelevant (FilterOk:=children j d Hd)); rewrite ?Hbd; try done. by apply Hs.
  - intros x Hx. pose proof (extendable_child p c _ v x Hc Hx) as Hxp. apply Hcomp, elem_of_proposed in Hxp.
    apply elem_of_proposed, elem_of_set_live. apply list_elem_of_lookup in Hxp as [i Hi]. exists i, true. split; [done|].
    destruct (Hentry i _ x Hi eq_refl) as (Hil & Hlive & Ea & Ev & _). rewrite Hlive. simpl. symmetry.
    destruct (Hver i Hil Hlive) as [_ Hver2]. apply Hver2. rewrite Ea, Ev. intros j d _ Hd. by apply extendable_child.
Qed.

(** ** The scan over the rows *)

(** A choice for one row: a relevant child that proposes, if there is one. *)
Definition choice_ok (s : VariableSet) (v : VariableId) (o : option nat) : Prop :=
  match o with
  | Some p => p ∈ relevant s v ∧ filters p = false
  | None => ∀ i, i < length cs → rel i s v = false
  end.

Lemma scan_children v row b l rr cf best : (v < 128)%N → binding_ok b → is_set (b_bound b) v = false →
  (∀ i c, (i, c) ∈ l → cs !! i = Some c) → NoDup l.*1 → length rr = length cs →
  ∃ rr' cf' best', foldM (Intersection.scan_child v row b) (rr, cf, best) l = Some (rr', cf', best') ∧
    length rr' = length cs ∧
    (∀ i n, rr !! i = Some n →
      rr' !! i = Some (n + (if bool_decide (i ∈ l.*1) && rel i (b_bound b) v then 1 else 0))) ∧
    cf'.*2 = cf.*2 ++ (if row =? 0 then filter (λ i, rel i (b_bound b) v = true) l.*1 else []) ∧
    match best' with
    | Some (e, p) => (best = Some (e, p) ∨ (p ∈ l.*1 ∧ rel p (b_bound b) v = true ∧
          ∃ c, cs !! p = Some c ∧ estimate c v b = Some (Some e))) ∧
        (∀ e0 q, best = Some (e0, q) → (e <= e0)%N) ∧
        ∀ i c e1, (i, c) ∈ l → estimate c v b = Some (Some e1) → (e <= e1)%N
    | None => best = None ∧ ∀ i, i ∈ l.*1 → rel i (b_bound b) v = false
    end.
Proof.
  intros Hv Hb Hu. revert rr cf best. induction l as [|[i c] l IH]; intros rr cf best Hl Hnd Hrr;
    cbn [foldM Intersection.scan_child fmap list_fmap fst].
  { eexists _, _, _. split_and!; [done|done| | |].
    - intros i n Hi. rewrite bool_decide_eq_false_2 by apply not_elem_of_nil. by rewrite Nat.add_0_r.
    - destruct (row =? 0); by rewrite ?filter_nil, app_nil_r.
    - destruct best as [[e p]|]; [|split; [done|]; intros i Hi; by apply not_elem_of_nil in Hi].
      split_and!; [by left|intros e0 q [= -> ->]; done|]. intros i c e1 Hi. by apply not_elem_of_nil in Hi. }
  rewrite fmap_cons in Hnd. apply NoDup_cons in Hnd as [Hni Hnd]. simpl in Hni.
  assert (cs !! i = Some c) as Hi by (apply Hl; set_solver).
  destruct (fl_estimate (FilterOk:=children i c Hi) v b) as (o & Heo & Ho); [done..|]. rewrite Heo. cbn [mbind option_bind].
  assert (i < length rr) as Hir by (rewrite Hrr; by eapply lookup_lt_Some).
  destruct (rel i (b_bound b) v) eqn:Hrel.
  - destruct o as [e|]; [|by destruct (proj2 Ho eq_refl)].
    destruct (lookup_lt_is_Some_2 rr i Hir) as [n Hn]. rewrite Hn. cbn [mbind option_bind].
    rewrite arr_set_Some by done. cbn [mbind option_bind].
    set (best1 := match best with None => Some (e, i) | Some (b0, _) => if (e <? b0)%N then Some (e, i) else best end).
    assert (∃ e1 q1, best1 = Some (e1, q1) ∧ (best = Some (e1, q1) ∨ (e1 = e ∧ q1 = i)) ∧ (e1 <= e)%N ∧
      ∀ e0 q, best = Some (e0, q) → (e1 <= e0)%N) as (e1 & q1 & Hb1 & Hfrom & Hle & Hmin).
    { unfold best1. destruct best as [[b0 q]|]; [destruct (N.ltb_spec e b0)|]; eexists _, _; (split_and!; [done| | |]); try (by left); try (by right);
        try lia; intros ? ? [= -> ->]; lia. }
    destruct (IH (<[i:=S n]> rr) (if row =? 0 then cf ++ [(e, i)] else cf) best1) as (rr' & cf' & best' & -> & Hlen & Hcount & Hcf & Hbest);
      [intros; apply Hl; set_solver|done|by rewrite length_insert|].
    exists rr', cf', best'. split_and!; [done|done| | |].
    + intros j m Hj. destruct (decide (j = i)) as [->|Hne].
      * rewrite (Hcount i (S n)) by by rewrite list_lookup_insert_eq.
        rewrite bool_decide_eq_false_2, bool_decide_eq_true_2, Hrel by set_solver. simplify_eq/=. f_equal. lia.
      * rewrite (Hcount j m) by by rewrite list_lookup_insert_ne.
        rewrite (bool_decide_ext (j ∈ i :: l.*1) (j ∈ l.*1)); [done|set_solver].
    + rewrite Hcf. destruct (row =? 0); [|done]. rewrite filter_cons, decide_True by done.
      rewrite fmap_app, <- app_assoc. done.
    + destruct best' as [[e' p]|]; [|destruct Hbest as [Hbest _]; congruence]. destruct Hbest as (Hbest & M1 & M2).
      specialize (M1 e1 q1 Hb1). split_and!.
      * destruct Hbest as [Hbest|(Hp & Hr & Hc)]; [|right; set_solver]. rewrite Hb1 in Hbest. injection Hbest as -> ->.
        destruct Hfrom as [?|[-> ->]]; [by left|]. right. split_and!; [by left|done|by exists c].
      * intros e0 q Hq. specialize (Hmin e0 q Hq). lia.
      * intros j d e2 [[= -> ->]|Hj]%elem_of_cons He2; [|by eapply M2]. rewrite Heo in He2. injection He2 as ->. lia.
  - destruct o as [e|]; [assert (is_Some (Some e)) as Hs by done; by apply Ho in Hs|]. cbn [mbind option_bind].
    destruct (IH rr cf best) as (rr' & cf' & best' & -> & Hlen & Hcount & Hcf & Hbest);
      [intros; apply Hl; set_solver|done|done|].
    exists rr', cf', best'. split_and!; [done|done| | |].
    + intros j m Hj. rewrite (Hcount j m Hj). destruct (decide (j = i)) as [->|Hne].
      * by rewrite Hrel, !andb_false_r.
      * rewrite (bool_decide_ext (j ∈ i :: l.*1) (j ∈ l.*1)); [done|set_solver].
    + rewrite Hcf. destruct (row =? 0); [|done]. by rewrite filter_cons, decide_False by congruence.
    + destruct best' as [[e' p]|].
      * destruct Hbest as (Hbest & M1 & M2). split_and!; [|done|].
        -- destruct Hbest as [?|(Hp & Hr & Hc)]; [by left|right; set_solver].
        -- intros j d e2 [[= -> ->]|Hj]%elem_of_cons He2; [congruence|by eapply M2].
      * destruct Hbest as [? Hbest]. split; [done|]. intros j [->|Hj]%elem_of_cons; auto.
Qed.

Lemma scan_rows v f n : (v < 128)%N → frontier_ok f → is_set (f_bound f) v = false → n <= f_len f →
  ∃ rr cf choice, foldM (Intersection.scan_row cs v f) (replicate (length cs) 0, [], []) (seq 0 n) = Some (rr, cf, choice) ∧
    (∀ i, i < length cs → rr !! i = Some (if rel i (f_bound f) v then n else 0)) ∧ length rr = length cs ∧
    (0 < n → cf.*2 = relevant (f_bound f) v) ∧
    length choice = n ∧ Forall (choice_ok (f_bound f) v) choice.
Proof.
  intros Hv Hf Hu. induction n as [|n IH]; intros Hn.
  { eexists _, _, _. split; [done|]. split_and!; try done; [|by rewrite length_replicate|lia].
    intros i Hi. rewrite lookup_replicate_2 by done. by destruct (rel i (f_bound f) v). }
  destruct IH as (rr & cf & choice & Hfold & Hrr & Hlen & Hcf & Hch & Hok); [lia|].
  rewrite seq_S, foldM_app, Hfold. simpl. destruct (frontier_row f n Hf) as (-> & Hbd & Hb); [lia|]. simpl.
  destruct (scan_children v n (frow f n) (imap pair cs) rr cf None) as (rr' & cf' & best' & -> & Hlen' & Hcount & Hcf' & Hbest);
    [done|done|by rewrite Hbd| | |done|].
  { intros i c. apply elem_of_imap_pair. }
  { rewrite imap_pair_fst. apply NoDup_seq. }
  rewrite Hbd, imap_pair_fst in *. simpl. eexists _, _, _. split; [done|]. split_and!.
  - intros i Hi. rewrite (Hcount i _ (Hrr i Hi)). rewrite bool_decide_eq_true_2 by (apply elem_of_seq; lia).
    f_equal. destruct (rel i (f_bound f) v); simpl; lia.
  - done.
  - intros _. rewrite Hcf'. destruct (Nat.eqb_spec n 0) as [->|Hne].
    + assert (cf = []) as ->; [|done]. simpl in Hfold. by simplify_eq.
    + rewrite Hcf by lia. by rewrite app_nil_r.
  - rewrite length_app, Hch. simpl. lia.
  - apply Forall_app. split; [done|]. apply Forall_singleton. destruct best' as [[e p]|]; simpl.
    + destruct Hbest as ([?|(Hp & Hr & c & Hc & He)] & _ & Hmin); [done|]. split; [by apply list_elem_of_filter|].
      apply not_true_is_false. intros Hfp. rewrite <- Hbd in Hu.
      destruct (led p c v (frow f n) e Hc Hfp Hv Hb Hu He) as (j & d & e' & Hd & _ & He' & Hlt).
      specialize (Hmin j d e' (proj2 (elem_of_imap_pair _ _ _) Hd) He'). lia.
    + destruct Hbest as [_ Hbest]. intros i Hi. apply Hbest. apply elem_of_seq. lia.
Qed.

(** ** Rows that disagree *)

Lemma elem_of_rows choice p r : r ∈ Intersection.rows_of choice p ↔ choice !! r = Some (Some p).
Proof.
  unfold Intersection.rows_of. rewrite list_elem_of_filter, elem_of_seq. split; [by intros [??]|].
  intros Hr. split; [done|]. apply lookup_lt_Some in Hr. lia.
Qed.

Lemma as_u32_rows f rows : frontier_ok f → Forall (λ r, r < f_len f) rows → as_u32 <$> rows = N.of_nat <$> rows.
Proof.
  intros Hf Hr. induction Hr as [|r rows Hr _ IH]; [done|]. rewrite !fmap_cons, IH. f_equal.
  by apply as_u32_id, (row_u32 f).
Qed.

(** Tags of a sub-frontier lifted back. *)
Lemma proposed_for_remap new rows : NoDup rows →
  (∀ p x l, (p, x, l) ∈ new → N.to_nat p < length rows) →
  let lifted := (λ it : candidate, (default 0%N ((N.of_nat <$> rows) !! N.to_nat it.1.1), it.1.2, it.2)) <$> new in
  (∀ j r, rows !! j = Some r → proposed_for lifted r = proposed_for new j) ∧
  (∀ r, r ∉ rows → proposed_for lifted r = []).
Proof.
  intros Hnd Ht lifted. unfold lifted. clear lifted. induction new as [|[[p x] l] new IH].
  { split; done. }
  destruct IH as [IH1 IH2]; [intros; by eapply Ht; right|].
  assert (N.to_nat p < length rows) as Hp by (eapply Ht; by left).
  destruct (lookup_lt_is_Some_2 rows _ Hp) as [q Hq]. rewrite fmap_cons. simpl.
  rewrite list_lookup_fmap, Hq. simpl.
  change ((N.of_nat q, x, l) :: ?t) with ([(N.of_nat q, x, l)] ++ t). change ((p, x, l) :: new) with ([(p, x, l)] ++ new).
  split.
  - intros j r Hj. rewrite !proposed_for_app, (IH1 j r Hj). f_equal. unfold proposed_for. rewrite !filter_cons, !filter_nil.
    simpl. destruct l; [|by rewrite !decide_False by naive_solver].
    destruct (decide (p = N.of_nat j)) as [->|Hne].
    + rewrite Nat2N.id in Hq. simplify_eq. by rewrite !decide_True.
    + rewrite !decide_False; [done|naive_solver|]. intros [_ ?]. assert (q = r) as -> by lia. apply Hne.
      assert (N.to_nat p = j) by by eapply NoDup_lookup. lia.
  - intros r Hr. rewrite proposed_for_app, (IH2 r Hr), app_nil_r. unfold proposed_for. rewrite filter_cons, filter_nil.
    simpl. rewrite decide_False; [done|]. intros [_ ?]. apply Hr. assert (q = r) as <- by lia.
    by eapply list_elem_of_lookup_2.
Qed.

Lemma split_step_spec v f L choice p b : (v < 128)%N → frontier_ok f → is_set (f_bound f) v = false → pb_ok b →
  L.*2 ≡ₚ relevant (f_bound f) v → length choice = f_len f → Forall (choice_ok (f_bound f) v) choice →
  ∃ b' new, Intersection.split_step sort_by_estimate cs v f L choice b p = Some b' ∧ pb_ok b' ∧
    items b' = items b ++ new ∧ tagged_ok f new ∧ ∀ r, r < f_len f →
      if decide (choice !! r = Some (Some p)) then proposal_ok vars intersection_sat (fval f r) v (proposed_for new r)
      else proposed_for new r = [].
Proof.
  intros Hv Hf Hu Hb HL Hch Hok. unfold Intersection.split_step. set (rows := Intersection.rows_of choice p).
  assert (Forall (λ r, r < f_len f) rows) as Hrows.
  { apply Forall_forall. intros r Hr%elem_of_rows. rewrite <- Hch. by eapply lookup_lt_Some. }
  assert (NoDup rows) as Hnd by apply NoDup_filter, NoDup_seq.
  case_bool_decide as Hemp.
  { exists b, []. rewrite app_nil_r. split_and!; [done..|by intros ??? ?%not_elem_of_nil|].
    intros r Hr. destruct (decide _) as [Hd|]; [|done]. apply elem_of_rows in Hd. fold rows in Hd.
    apply fmap_nil_inv in Hemp. rewrite Hemp in Hd. by apply not_elem_of_nil in Hd. }
  destruct (compose_spec f Hf rows Hrows) as (select & -> & Hsl & Hrow). simpl.
  destruct (sub_frontier_ok f Hf rows Hrows Hnd select Hsl Hrow) as (Hsub & Hlen & Hval).
  destruct (narrow_spec v (f_with_select f select) L p b) as (b1 & new & -> & Hb1 & Hi1 & Ht1 & Hp1); try done.
  { destruct rows as [|r rows'] eqn:E; [done|]. assert (r ∈ Intersection.rows_of choice p) as Hr%elem_of_rows by (fold rows; rewrite E; by left).
    rewrite Forall_forall in Hok. by apply (Hok (Some p)), list_elem_of_lookup_2 with r. }
  { destruct rows as [|r rows'] eqn:E; [done|]. assert (r ∈ Intersection.rows_of choice p) as Hr%elem_of_rows by (fold rows; rewrite E; by left).
    rewrite Forall_forall in Hok. by apply (Hok (Some p)), list_elem_of_lookup_2 with r. }
  cbn [mbind option_bind]. rewrite Hlen in *. rewrite (as_u32_rows f) by done.
  assert (pb_len b <= pb_len b1) as Hle.
  { rewrite <- !items_length, Hi1, length_app by done. lia. }
  assert (drop (pb_len b) (items b1) = new ∧ take (pb_len b) (items b1) = items b) as [Hdrop Htake].
  { rewrite Hi1, <- (items_length b) by done. by rewrite drop_app_length, take_app_length. }
  destruct (pb_remap_region_spec b1 (pb_len b) (N.of_nat <$> rows)) as (b2 & -> & Hb2 & Hi2); [done..| |].
  { intros q Hq. rewrite length_fmap. apply list_elem_of_lookup in Hq as [i Hi].
    assert (∃ x l, new !! i = Some (q, x, l)) as (x & l & Hn).
    { rewrite <- Hdrop. rewrite lookup_drop in *. rewrite lookup_drop in Hi.
      destruct (lookup_lt_is_Some_2 (pb_entries b1) (pb_len b + i)) as [x Hx].
      { apply lookup_lt_Some in Hi. by rewrite (pb_ok_parents _ Hb1) in Hi. }
      eexists x, _. by apply items_lookup. }
    destruct (Ht1 q x l) as [Hq _]; [by eapply list_elem_of_lookup_2|]. by rewrite Hlen in Hq. }
  rewrite Hdrop, Htake in Hi2. eexists b2, _. split_and!; [done|done|done| |].
  - intros q x l Hin. apply list_elem_of_fmap in Hin as ([[q' x'] l'] & [= -> -> ->] & Hin). simpl.
    destruct (Ht1 _ _ _ Hin) as [Hq Hx]. split; [|done]. rewrite Hlen in Hq.
    destruct (lookup_lt_is_Some_2 rows _ Hq) as [r Hr]. rewrite list_lookup_fmap, Hr. simpl. rewrite Nat2N.id.
    by eapply (proj1 (Forall_lookup _ _) Hrows).
  - intros r Hr. destruct (proposed_for_remap new rows Hnd) as [Hin Hout].
    { intros q x l Hq. destruct (Ht1 _ _ _ Hq) as [Hq' _]. by rewrite Hlen in Hq'. }
    destruct (decide _) as [Hd|Hd]; rewrite <- elem_of_rows in Hd; fold rows in Hd.
    + apply list_elem_of_lookup in Hd as [j Hj]. rewrite (Hin j r Hj), <- (Hval j r Hj). apply Hp1. by eapply lookup_lt_Some.
    + by apply Hout.
Qed.

Lemma split_steps v f L choice b n : (v < 128)%N → frontier_ok f → is_set (f_bound f) v = false → pb_ok b →
  L.*2 ≡ₚ relevant (f_bound f) v → length choice = f_len f → Forall (choice_ok (f_bound f) v) choice →
  ∃ b' new, foldM (Intersection.split_step sort_by_estimate cs v f L choice) b (seq 0 n) = Some b' ∧ pb_ok b' ∧
    items b' = items b ++ new ∧ tagged_ok f new ∧ ∀ r, r < f_len f →
      match choice !! r with
      | Some (Some p) => if decide (p < n) then proposal_ok vars intersection_sat (fval f r) v (proposed_for new r)
                         else proposed_for new r = []
      | _ => proposed_for new r = []
      end.
Proof.
  intros Hv Hf Hu Hb HL Hch Hok. induction n as [|n IH].
  { exists b, []. rewrite app_nil_r. split_and!; [done..|by intros ??? ?%not_elem_of_nil|].
    intros r Hr. by destruct (choice !! r) as [[p|]|]. }
  destruct IH as (b1 & new1 & Hfold & Hb1 & Hi1 & Ht1 & Hp1). rewrite seq_S, foldM_app, Hfold.
  cbn [mbind option_bind foldM Nat.add].
  destruct (split_step_spec v f L choice n b1) as (b2 & new2 & -> & Hb2 & Hi2 & Ht2 & Hp2); [done..|].
  simpl. exists b2, (new1 ++ new2). split_and!; [done|done| | |].
  - by rewrite Hi2, Hi1, <- app_assoc.
  - intros p x l [Hin|Hin]%elem_of_app; [by eapply Ht1|by eapply Ht2].
  - intros r Hr. specialize (Hp1 r Hr). specialize (Hp2 r Hr). rewrite proposed_for_app.
    destruct (choice !! r) as [[p|]|].
    + destruct (decide (p < n)), (decide (p < S n)), (decide (Some (Some p) = Some (Some n))) as [[= ->]|]; try lia.
      * by rewrite Hp2, app_nil_r.
      * by rewrite Hp1.
      * assert (p = n) by lia. by subst.
      * by rewrite Hp1, Hp2.
    + rewrite decide_False in Hp2 by done. by rewrite Hp1, Hp2.
    + rewrite decide_False in Hp2 by done. by rewrite Hp1, Hp2.
Qed.

Lemma intersection_propose v f b : (v < 128)%N → frontier_ok f → is_set (f_bound f) v = false →
  intersection_relevant (f_bound f) v = true → pb_ok b →
  ∃ b' new, Intersection.propose sort_by_estimate cs v f b = Some b' ∧ pb_ok b' ∧ items b' = items b ++ new ∧
    tagged_ok f new ∧ ∀ r, r < f_len f → proposal_ok vars intersection_sat (fval f r) v (proposed_for new r).
Proof.
  intros Hv Hf Hu Hrel Hb. unfold Intersection.propose. destruct (Nat.eqb_spec (f_len f) 0) as [Hz|Hz].
  { exists b, []. rewrite app_nil_r. split_and!; [done..|by intros ??? ?%not_elem_of_nil|]. intros r Hr. lia. }
  destruct (scan_rows v f (f_len f) Hv Hf Hu) as (rr & cf & choice & -> & Hrr & Hlr & Hcf & Hch & Hok); [done|].
  cbn [mbind option_bind]. assert (forallb (λ n, (n =? 0) || (n =? f_len f)) rr = true) as ->.
  { apply forallb_forall. intros n Hn. apply list_elem_of_In, list_elem_of_lookup in Hn as [i Hi].
    rewrite Hrr in Hi by (rewrite <- Hlr; by eapply lookup_lt_Some). injection Hi as <-.
    destruct (rel i (f_bound f) v); rewrite ?Nat.eqb_refl, ?orb_true_r; done. }
  cbn [massert mbind option_bind]. apply intersection_relevant_spec in Hrel as (i0 & Hi0 & Hr0).
  assert (∀ o, o ∈ choice → ∃ p, o = Some p ∧ p ∈ relevant (f_bound f) v ∧ filters p = false) as Hsome.
  { intros o Ho. rewrite Forall_forall in Hok. specialize (Hok o Ho). destruct o as [p|]; [by exists p|].
    simpl in Hok. rewrite Hok in Hr0 by done. done. }
  destruct (lookup_lt_is_Some_2 choice 0) as [first Hfirst]; [lia|].
  destruct (Hsome first) as (p & -> & Hp & Hfp); [by eapply list_elem_of_lookup_2|].
  assert (forallb (λ c : option nat, bool_decide (c = None)) choice = false) as ->.
  { apply not_true_is_false. rewrite forallb_forall. intros Hall.
    specialize (Hall (Some p)). rewrite bool_decide_eq_true in Hall. discriminate Hall.
    by apply list_elem_of_In, list_elem_of_lookup_2 with 0. }
  rewrite Hfirst. cbn [mbind option_bind]. specialize (Hcf ltac:(lia)).
  destruct (forallb _ choice); cbn [mbind option_bind].
  - by apply narrow_spec; rewrite ?Hcf.
  - destruct (split_steps v f cf choice b (length cs)) as (b' & new & -> & Hb' & Hi & Ht & Hpr); [done..|by rewrite Hcf|done|done|].
    exists b', new. split_and!; [done..|]. intros r Hr. specialize (Hpr r Hr).
    destruct (lookup_lt_is_Some_2 choice r) as [o Ho]; [lia|]. rewrite Ho in Hpr.
    destruct (Hsome o) as (q & -> & Hq & _); [by eapply list_elem_of_lookup_2|].
    apply list_elem_of_filter in Hq as [_ Hq%elem_of_seq]. destruct (decide _); [done|lia].
Qed.

Lemma relevant_estimates v b : (v < 128)%N → binding_ok b → is_set (b_bound b) v = false →
  ∃ es, mapM (Intersection.with_estimate v b) (imap pair cs) = Some es ∧
    (omap id es).*2 = relevant (b_bound b) v.
Proof.
  intros Hv Hb Hu. rewrite <- imap_pair_fst.
  assert (∀ i c, (i, c) ∈ imap pair cs → cs !! i = Some c) as Hl by by (intros; apply elem_of_imap_pair).
  induction (imap pair cs) as [|[i c] l IH]; [by exists []|].
  assert (cs !! i = Some c) as Hi by (apply Hl; set_solver).
  destruct IH as (es & Hes & He); [intros; apply Hl; set_solver|].
  destruct (fl_estimate (FilterOk:=children i c Hi) v b) as (o & Ho & Hr); [done..|].
  exists ((match o with Some e => Some (e, i) | None => None end) :: es). split.
  - assert (Intersection.with_estimate v b (i, c) = Some (match o with Some e => Some (e, i) | None => None end)) as E
      by (unfold Intersection.with_estimate; simpl; by rewrite Ho).
    cbn [mapM]. rewrite E. cbn [mbind option_bind]. by rewrite Hes.
  - rewrite fmap_cons, filter_cons. cbn [fst]. destruct o as [e|].
    + rewrite decide_True by (apply Hr; eauto). rewrite <- He. done.
    + rewrite decide_False; [exact He|]. intros Hr'%Hr. by destruct Hr'.
Qed.

Lemma estimate_min v b : (v < 128)%N → binding_ok b → is_set (b_bound b) v = false →
  ∃ r, Intersection.estimate cs v b = Some r ∧ (is_Some r ↔ intersection_relevant (b_bound b) v = true).
Proof.
  intros Hv Hb Hu. unfold Intersection.estimate.
  destruct (child_estimates cs sat rel children v b) as (es & -> & H2); [done..|]. simpl. eexists. split; [done|].
  rewrite intersection_relevant_spec, <- (some_estimate _ _ _ H2).
  assert (∀ l acc, is_Some (foldl (λ acc x, Some (match acc with Some m => N.min m x | None => x end)) acc l) ↔
    is_Some acc ∨ l ≠ []) as Hmin.
  { induction l as [|x l IH]; intros acc; simpl; [naive_solver|]. rewrite IH. split; [by right|]. intros _. left. eauto. }
  unfold Intersection.list_min. rewrite Hmin. split; [intros [[? ?]|?]; done|by right].
Qed.

Lemma satisfied_all b : binding_ok b → ∃ r, Intersection.satisfied cs b = Some r ∧
  (r = true ↔ ∀ i c, cs !! i = Some c → satisfied c b = Some true).
Proof.
  intros Hb. clear Hsort.
  assert (∀ l k, drop k cs = l → ∃ r, Intersection.satisfied l b = Some r ∧
    (r = true ↔ ∀ i c, k <= i → cs !! i = Some c → satisfied c b = Some true)) as Hgen.
  { induction l as [|c l IH]; intros k Hk; simpl.
    - exists true. split; [done|]. split; [|done]. intros _ i c Hi Hc. apply (f_equal length) in Hk.
      rewrite length_drop in Hk. simpl in Hk. apply lookup_lt_Some in Hc. lia.
    - assert (cs !! k = Some c) as Hc by (rewrite <- (Nat.add_0_r k), <- lookup_drop, Hk; done).
      destruct (fl_satisfied (FilterOk:=children k c Hc) b Hb) as (r & Hr & _). rewrite Hr. cbn [mbind option_bind].
      destruct (IH (S k)) as (r' & Hr' & Hs').
      { replace (S k) with (k + 1) by lia. by rewrite <- drop_drop, Hk. }
      destruct r.
      + exists r'. split; [done|]. rewrite Hs'. split.
        * intros H i d Hi Hd. destruct (decide (i = k)) as [->|]; [congruence|]. apply (H i); [lia|done].
        * intros H i d Hi. apply H. lia.
      + exists false. split; [done|]. split; [done|]. intros H. specialize (H k c (le_n _) Hc). congruence. }
  destruct (Hgen cs 0) as (r & Hr & Hs); [by rewrite drop_0|]. exists r. split; [done|]. rewrite Hs.
  split; intros H i c; [apply H; lia|intros _; apply H].
Qed.

Lemma satisfied_some b : binding_ok b → ∃ r, Intersection.satisfied cs b = Some r ∧
  (intersection_sat (bval b) → r = true) ∧ ((∀ v, bval b v = None) → r = true → intersection_sat (bval b)).
Proof.
  intros Hb. destruct (satisfied_all b Hb) as (r & Hr & Hiff). exists r. split; [done|]. rewrite Hiff. split.
  - intros Hs i c Hc. destruct (fl_satisfied (FilterOk:=children i c Hc) b Hb) as (r' & -> & Hr' & _).
    f_equal. apply Hr', Hs. by eapply lookup_lt_Some.
  - intros Hn Hall i Hi. destruct (lookup_lt_is_Some_2 cs i Hi) as [c Hc].
    destruct (fl_satisfied (FilterOk:=children i c Hc) b Hb) as (r' & Hr' & _ & Hu). apply Hu; [done|].
    specialize (Hall i c Hc). congruence.
Qed.

Lemma intersection_decides : (∀ i c, cs !! i = Some c → ConstraintDecides c (sat i)) →
  ConstraintDecides (Intersection.constraint sort_by_estimate cs) intersection_sat.
Proof.
  intros Hd b Hb Hs i Hi. simpl in Hs. destruct (satisfied_all b Hb) as (r & Hr & Hiff). rewrite Hs in Hr. injection Hr as <-.
  destruct (lookup_lt_is_Some_2 cs i Hi) as [c Hc]. by eapply (Hd i c Hc), Hiff.
Qed.

#[global] Instance intersection_ok :
  ConstraintOk (Intersection.constraint sort_by_estimate cs) intersection_sat intersection_relevant.
Proof.
  split; simpl.
  - assert (∀ l s, vs_wf s → (∀ c, c ∈ l → vs_wf (variables c)) → vs_wf (foldl (λ vs c, union vs (variables c)) s l)) as Hwf.
    { induction l as [|c l IH]; intros s Hs Hl; simpl; [done|]. apply IH; [|set_solver]. apply wf_union; set_solver. }
    apply Hwf; [done|]. intros c [i Hi]%list_elem_of_lookup. apply (fl_variables (FilterOk:=children i c Hi)).
  - intros s v Hv (i & Hi & Hr)%intersection_relevant_spec. apply intersection_variables; [done|].
    destruct (lookup_lt_is_Some_2 cs i Hi) as [c Hc]. exists i, c. split; [done|].
    by apply (fl_relevant (FilterOk:=children i c Hc) s).
  - intros a a' Hsub Hok Hs i Hi. destruct (lookup_lt_is_Some_2 cs i Hi) as [c Hc].
    apply (fl_mono (FilterOk:=children i c Hc) a a'); [done..|by apply Hs].
  - apply satisfied_some.
  - apply estimate_min.
  - intros b v x Hv Hb Hu Hx Hr Hs i Hi. destruct (lookup_lt_is_Some_2 cs i Hi) as [c Hc].
    apply (fl_irrelevant (FilterOk:=children i c Hc)); [done..| |by apply Hs].
    apply not_true_is_false. intros Hri. assert (intersection_relevant (b_bound b) v = true); [|congruence].
    apply intersection_relevant_spec. eauto.
  - apply intersection_propose.
  - intros v f cands Hv Hf Hu Hc. unfold Intersection.confirm, f_is_empty.
    destruct (Nat.eqb_spec (f_len f) 0) as [Hz|Hz].
    { exists cands, (λ _, true). split_and!; [done|apply killed_refl; [apply Hc|done]|].
      intros i Hi _. destruct (cand_row f cands i Hc Hi) as (p & _ & Hp & _). lia. }
    destruct (frontier_row f 0 Hf) as (-> & Hbd & Hok); [lia|]. cbn [mbind option_bind].
    destruct (relevant_estimates v (frow f 0)) as (es & -> & He); [done|done|by rewrite Hbd|]. cbn [mbind option_bind].
    rewrite Hbd in He.
    destruct (fold_confirms v f (Intersection.sorted_confirmers sort_by_estimate (omap id es)) cands) as (c' & k & -> & Hk & Hver); [done..| |].
    { intros j Hj. rewrite sorted_confirmers_perm, He in Hj. apply list_elem_of_filter in Hj as [_ Hj%elem_of_seq]. lia. }
    exists c', k. split_and!; [done..|]. intros i Hi Hl. destruct (Hver i Hi Hl) as [H1 H2]. split.
    + intros Hki Hs j Hj. destruct (lookup_lt_is_Some_2 cs j Hj) as [c Hcj].
      destruct (rel j (f_bound f) v) eqn:Hr.
      * apply H1; [done| |by apply Hs]. rewrite sorted_confirmers_perm, He. apply list_elem_of_filter. split; [done|]. apply elem_of_seq. lia.
      * destruct (cand_row f cands i Hc Hi) as (p & _ & Hp & Ea). rewrite Ea in *. unfold fval in *.
        destruct (frontier_row f (N.to_nat p) Hf Hp) as (_ & Hbd' & Hok').
        apply (fl_irrelevant (FilterOk:=children j c Hcj)); rewrite ?Hbd'; try done; [by eapply cand_value_ok|by apply Hs].
    + intros Hx. apply H2. intros j d _ Hd. by apply extendable_child.
Qed.

End intersection.

(** C31. The conjunction of constraints that obey the protocol obeys it again,
    for any order the sort leaves among equal estimates: rows that disagree on
    the tightest child are proposed by their own one, lifted back to their row,
    and the other relevant children confirm the region.  It refutes what one of
    its children refutes. *)
Theorem intersection_protocol sort_by_estimate cs sat rel : (∀ l, sort_by_estimate l ≡ₚ l) →
  (∀ i c, cs !! i = Some c → ConstraintOk c (sat i) (rel i)) →
  let c := Intersection.constraint sort_by_estimate cs in
  let all_sat := λ a, ∀ i, i < length cs → sat i a in
  ConstraintOk c all_sat (λ s v, existsb (λ i, rel i s v) (seq 0 (length cs))) ∧
  ((∀ i c, cs !! i = Some c → ConstraintDecides c (sat i)) → ConstraintDecides c all_sat).
Proof.
  intros Hsort Hcs. assert (∀ i c, cs !! i = Some c → FilterOk c (sat i) (rel i)) as Hfl by eauto using constraint_filter.
  split; [|by eapply intersection_decides].
  apply (intersection_ok sort_by_estimate Hsort cs sat rel (λ _, false)); [done|by intros i c Hc _; apply Hcs|done].
Qed.
