(* ===== verification/Union.v ===== *)
(** * Union: the disjunction of constraints

    Source: [triblespace-core/src/query/unionconstraint.rs].

    Every variant that [satisfied] does not refute for a row proposes; the
    region is then sorted and deduplicated per row.  Confirmation lets the
    variants vote on copies of the liveness words and merges the votes.

    The laws need that every variant has an opinion on every variable of the
    union ([total]).  An equality has none while neither of its sides is bound,
    and the sum of the estimates ignores a variant that answers [None]: such a
    union offers itself all the same and loses the solutions of the equality
    ([union_misses]). *)

From S2P Require Import Prelude Lex VariableSet Machine Trible Liveness Query Constraints Intersection.

Open Scope nat_scope.

(** ** Sorting and deduplication of tagged values *)

(** The order of [(u32, RawInline)]. *)
Definition tagged_le : relation (N * RawInline) :=
  λ a b, (a.1 < b.1)%N ∨ (a.1 = b.1 ∧ lex_le a.2 b.2 = true).
#[global] Instance tagged_le_dec : RelDecision tagged_le.
Proof. intros a b. unfold tagged_le. apply _. Defined.

Definition sort_unstable (l : list (N * RawInline)) : list (N * RawInline) := merge_sort tagged_le l.

(** [Vec::dedup]: consecutive equal elements are merged. *)
Fixpoint dedup {A} `{EqDecision A} (l : list A) : list A :=
  match l with
  | x :: l' =>
      match l' with
      | y :: _ => if decide (x = y) then dedup l' else x :: dedup l'
      | [] => [x]
      end
  | [] => []
  end.

Module Union.
Implicit Types cs : list Constraint.

(** The constructor asserts that there are variants and that neighbours declare
    the same variables. *)
Definition new cs : res (list Constraint) :=
  massert (negb (length cs =? 0));;
  massert (forallb (λ cd, bits (Query.variables cd.1) =? bits (Query.variables cd.2))%N (zip cs (tail cs)));;
  Some cs.

Definition variables cs : VariableSet :=
  match cs with c :: _ => Query.variables c | [] => new_empty end.

(** [reduce] with the addition of [usize]. *)
Definition list_sum (l : list N) : option N :=
  match l with
  | [] => None
  | x :: l => Some (foldl (λ acc e, (acc + e) mod 2 ^ 64) x l)%N
  end.

Definition estimate cs (variable : VariableId) (b : Binding) : res (option N) :=
  es ← mapM (λ c, Query.estimate c variable b) cs;
  Some (list_sum (omap id es)).

(** For which rows a variant is not refuted. *)
Definition satisfied_rows (c : Constraint) (f : Frontier) : res (list bool) :=
  mapM (λ row, b ← f_row f row; Query.satisfied c b) (seq 0 (f_len f)).

Definition propose_variant (variable : VariableId) (f : Frontier) (proposals : ProposalBuffer) (c : Constraint)
    : res ProposalBuffer :=
  satisfied ← satisfied_rows c f;
  if negb (existsb id satisfied) then Some proposals else
  let variant_base := pb_len proposals in
  proposals ← Query.propose c variable f proposals;
  if negb (forallb id satisfied) then
    pb_retain_region proposals variant_base (λ row _, satisfied !! N.to_nat row)
  else Some proposals.

Definition propose cs (variable : VariableId) (f : Frontier) (proposals : ProposalBuffer) : res ProposalBuffer :=
  let base := pb_len proposals in
  proposals ← foldM (propose_variant variable f) proposals cs;
  fresh ← pb_tagged proposals base;
  let fresh := dedup (sort_unstable fresh) in
  pb_rewrite_region proposals base fresh.

(** The votes of one variant: it is judged on its own copy of the words. *)
Definition confirm_variant (variable : VariableId) (f : Frontier) (cands : Candidates) (any_live : list N)
    (c : Constraint) : res (list N) :=
  satisfied ← satisfied_rows c f;
  if negb (existsb id satisfied) then Some any_live else
  let scratch := cd_live_words cands in
  votes ←
    (if negb (forallb id satisfied) then
       foldM (λ votes i,
         row ← cd_parents votes !! i;
         alive ← satisfied !! N.to_nat row;
         if negb alive then cd_kill votes i else Some votes)
         (cd_scratch cands scratch) (seq 0 (cd_len cands))
     else Some (cd_scratch cands scratch));
  votes ← Query.confirm c variable f (cd_scratch cands (cd_words votes));
  Some (or_words any_live (cd_words votes)).

Definition confirm cs (variable : VariableId) (f : Frontier) (cands : Candidates) : res Candidates :=
  any_live ← foldM (confirm_variant variable f cands) (replicate (cd_live_word_len cands) 0%N) cs;
  Some (cd_set_live_words cands any_live).

(** [Iterator::any], which stops at the first [true]. *)
Fixpoint satisfied cs (b : Binding) : res bool :=
  match cs with
  | [] => Some false
  | c :: cs => r ← Query.satisfied c b; if (r : bool) then Some true else satisfied cs b
  end.

Definition influence cs (variable : VariableId) : VariableSet :=
  foldl (λ vs c, union vs (Query.influence c variable)) new_empty cs.

Definition constraint cs : Constraint :=
  mkConstraint (variables cs) (estimate cs) (propose cs) (confirm cs) (satisfied cs) (influence cs).

End Union.

(** ** Sorted lists without repetitions *)

#[global] Instance tagged_le_trans : Transitive tagged_le.
Proof.
  intros [p x] [q y] [r z]. unfold tagged_le; simpl.
  intros [?|[-> H1]] [?|[-> H2]]; [left; lia|left; lia|left; lia|]. right. split; [done|]. by eapply lex_le_trans.
Qed.
#[global] Instance tagged_le_total : Total tagged_le.
Proof.
  intros [p x] [q y]. unfold tagged_le; simpl. destruct (N.lt_trichotomy p q) as [?|[->|?]]; [by left; left| |by right; left].
  destruct (lex_le_total x y) as [H|H]; [left|right]; by right.
Qed.
#[global] Instance tagged_le_antisym : AntiSymm (=) tagged_le.
Proof.
  intros [p x] [q y]. unfold tagged_le; simpl. intros [?|[-> H1]] [?|[? H2]]; try lia. f_equal. by apply lex_le_antisym.
Qed.

Lemma elem_of_dedup {A} `{EqDecision A} (l : list A) x : x ∈ dedup l ↔ x ∈ l.
Proof.
  induction l as [|y l IH]; [done|]. destruct l as [|z l]; [done|].
  change (dedup (y :: z :: l)) with (if decide (y = z) then dedup (z :: l) else y :: dedup (z :: l)).
  destruct (decide (y = z)) as [->|]; [rewrite IH|rewrite elem_of_cons, IH]; set_solver.
Qed.

Lemma dedup_NoDup {A} `{EqDecision A} (R : relation A) `{!AntiSymm (=) R} (l : list A) :
  Sorted.StronglySorted R l → NoDup (dedup l).
Proof.
  induction 1 as [|y l Hl IH Hy]; [constructor|]. destruct l as [|z l]; [by apply NoDup_singleton|].
  change (dedup (y :: z :: l)) with (if decide (y = z) then dedup (z :: l) else y :: dedup (z :: l)).
  destruct (decide (y = z)) as [->|Hne]; [done|]. apply NoDup_cons. split; [|done].
  rewrite elem_of_dedup. intros Hin. apply Hne. rewrite Forall_forall in Hy. apply (anti_symm R).
  - apply Hy. by left.
  - apply elem_of_cons in Hin as [->|Hin]; [apply Hy; by left|].
    apply Sorted.StronglySorted_inv in Hl as [_ Hz]. rewrite Forall_forall in Hz. by apply Hz.
Qed.

Lemma fresh_spec (l : list (N * RawInline)) :
  NoDup (dedup (sort_unstable l)) ∧ ∀ x, x ∈ dedup (sort_unstable l) ↔ x ∈ l.
Proof.
  unfold sort_unstable. split.
  - apply (dedup_NoDup tagged_le). apply StronglySorted_merge_sort; apply _.
  - intros x. by rewrite elem_of_dedup, merge_sort_Permutation.
Qed.

(** ** The union obeys the protocol *)

Section union.
Context (cs : list Constraint) (sat : nat → asg → Prop) (rel : nat → VariableSet → VariableId → bool).
Hypothesis children : ∀ i c, cs !! i = Some c → ConstraintOk c (sat i) (rel i).
Hypothesis decides : ∀ i c, cs !! i = Some c → ConstraintDecides c (sat i).
Hypothesis nonempty : cs ≠ [].
Abbreviation vars := (Union.variables cs).
Hypothesis same : ∀ i c v, cs !! i = Some c → (v < 128)%N → is_set (variables c) v = is_set vars v.
Hypothesis total : ∀ i s v, i < length cs → (v < 128)%N → is_set vars v = true → is_set s v = false → rel i s v = true.

Definition union_sat (a : asg) : Prop := ∃ i, i < length cs ∧ sat i a.
Definition union_relevant (s : VariableSet) (v : VariableId) : bool :=
  existsb (λ i, rel i s v) (seq 0 (length cs)).

Lemma union_relevant_spec s v : union_relevant s v = true ↔ ∃ i, i < length cs ∧ rel i s v = true.
Proof.
  unfold union_relevant. rewrite existsb_exists. split.
  - intros (i & Hi & Hr). apply in_seq in Hi. exists i. split; [lia|done].
  - intros (i & Hi & Hr). exists i. split; [apply in_seq; lia|done].
Qed.

Lemma relevant_var s v : (v < 128)%N → union_relevant s v = true → is_set vars v = true.
Proof.
  intros Hv (i & Hi & Hr)%union_relevant_spec. destruct (lookup_lt_is_Some_2 cs i Hi) as [c Hc].
  rewrite <- (same i c) by done. by apply (co_relevant (ConstraintOk:=children i c Hc) s).
Qed.

Lemma satisfied_rows_spec i c f : cs !! i = Some c → frontier_ok f →
  ∃ l, Union.satisfied_rows c f = Some l ∧ length l = f_len f ∧
    ∀ r, r < f_len f → ∃ s, l !! r = Some s ∧ (s = true ↔ sat i (fval f r)).
Proof.
  intros Hc Hf. unfold Union.satisfied_rows.
  assert (∃ l, Forall2 (λ r s, (b ← f_row f r; satisfied c b) = Some s ∧ (s = true ↔ sat i (fval f r))) (seq 0 (f_len f)) l) as [l H2].
  { assert (Forall (λ r, r < f_len f) (seq 0 (f_len f))) as Hall.
    { apply Forall_forall. intros r Hr%elem_of_seq. lia. }
    induction (seq 0 (f_len f)) as [|r rows IH]; [by exists []|]. apply Forall_cons in Hall as [Hr Hall].
    destruct (IH Hall) as [l H2]. destruct (frontier_row f r Hf Hr) as (Hrow & _ & Hok).
    destruct (decides_satisfied c _ _ _ Hok (ConstraintOk0:=children i c Hc) (ConstraintDecides0:=decides i c Hc)) as (s & Hs & Hiff).
    exists (s :: l). constructor; [|done]. by rewrite Hrow. }
  exists l. split_and!.
  - apply mapM_Some_2. eapply Forall2_impl; [done|]. by intros r s [? _].
  - by rewrite <- (Forall2_length _ _ _ H2), length_seq.
  - intros r Hr. destruct (Forall2_lookup_l _ _ _ r r H2) as (s & Hs & _ & Hiff); [by rewrite lookup_seq_lt|]. eauto.
Qed.

Lemma union_extendable_mono a v x a' : a v = None → asg_sub (extend a v x) a' → asg_sub a a'.
Proof. intros Hn Hsub. eapply asg_sub_trans; [by apply extend_sub|done]. Qed.

(** What one variant contributes to a row: nothing if it is refuted there. *)
Definition contributes (i : nat) (c : Constraint) (v : VariableId) (a : asg) (xs : list RawInline) : Prop :=
  (∀ x, x ∈ xs → sat i a ∧ sat i (extend a v x)) ∧
  (∀ x, sat i a → extendable (variables c) (sat i) a v x → x ∈ xs).

Lemma propose_variant_spec i c v f b : cs !! i = Some c → (v < 128)%N → frontier_ok f →
  is_set (f_bound f) v = false → is_set vars v = true → pb_ok b →
  ∃ b' new, Union.propose_variant v f b c = Some b' ∧ pb_ok b' ∧ items b' = items b ++ new ∧ tagged_ok f new ∧
    ∀ r, r < f_len f → contributes i c v (fval f r) (proposed_for new r).
Proof.
  intros Hc Hv Hf Hu Hvar Hb. unfold Union.propose_variant.
  destruct (satisfied_rows_spec i c f Hc Hf) as (l & -> & Hlen & Hl). cbn [mbind option_bind].
  assert (∀ r, r < f_len f → sat i (fval f r) → true ∈ l) as Hex.
  { intros r Hr Hs. destruct (Hl r Hr) as (s & Hs' & Hiff). apply Hiff in Hs. subst. by eapply list_elem_of_lookup_2. }
  destruct (existsb id l) eqn:Hany; cbn [negb].
  2: { exists b, []. rewrite app_nil_r. split_and!; [done..|by intros ??? ?%not_elem_of_nil|].
    intros r Hr. split; [by intros x ?%not_elem_of_nil|]. intros x Hs _. specialize (Hex r Hr Hs).
    assert (existsb id l = true); [|congruence]. apply existsb_exists. exists true. by rewrite <- list_elem_of_In. }
  destruct (co_propose (ConstraintOk:=children i c Hc) v f b) as (b1 & new & -> & Hb1 & Hi1 & Ht1 & Hp1); [done..| |done|].
  { apply total; [by eapply lookup_lt_Some|done..]. }
  cbn [mbind option_bind]. destruct (forallb id l) eqn:Hall; cbn [negb].
  - exists b1, new. split_and!; [done..|]. intros r Hr. destruct (Hp1 r Hr) as [_ Hsound Hcomp].
    assert (sat i (fval f r)) as Hs.
    { destruct (Hl r Hr) as (s & Hs' & Hiff). apply Hiff. rewrite forallb_forall in Hall. apply (Hall s), list_elem_of_In.
      by eapply list_elem_of_lookup_2. }
    split; [|by intros x _ Hx; apply Hcomp]. intros x Hx. split; [done|by apply Hsound].
  - assert (drop (pb_len b) (items b1) = new ∧ take (pb_len b) (items b1) = items b) as [Hdrop Htake].
    { rewrite Hi1, <- (items_length b) by done. by rewrite drop_app_length, take_app_length. }
    assert (pb_len b <= pb_len b1) as Hle by (rewrite <- !items_length, Hi1, length_app by done; lia).
    destruct (pb_retain_region_spec b1 Hb1 (pb_len b) Hle (λ row _, l !! N.to_nat row)
      (λ it, default false (l !! N.to_nat it.1.1))) as (b2 & -> & Hb2 & _ & Hi2).
    { intros p x s. rewrite Hdrop. intros Hin. destruct (Ht1 _ _ _ Hin) as [Hp _]. simpl.
      destruct (Hl _ Hp) as (q & Hq & _). by rewrite Hq. }
    rewrite Hdrop, Htake in Hi2. eexists b2, _. split_and!; [done|done|done| |].
    + intros p x s [_ Hin]%list_elem_of_filter. by eapply Ht1.
    + intros r Hr. destruct (Hp1 r Hr) as [_ Hsound Hcomp]. destruct (Hl r Hr) as (s & Hs & Hiff). split.
      * intros x [Hk Hin]%elem_of_proposed%list_elem_of_filter. simpl in Hk. rewrite Nat2N.id, Hs in Hk. simpl in Hk.
        subst s. assert (sat i (fval f r)) as Hsat by by apply Hiff. split; [done|]. apply Hsound; [|done]. by apply elem_of_proposed.
      * intros x Hsat Hx. apply Hcomp, elem_of_proposed in Hx. apply elem_of_proposed, list_elem_of_filter. split; [|done].
        simpl. rewrite Nat2N.id, Hs. simpl. by apply Hiff.
Qed.

Lemma propose_variants v f b n : (v < 128)%N → frontier_ok f → is_set (f_bound f) v = false → is_set vars v = true →
  pb_ok b → n <= length cs →
  ∃ b' new, foldM (Union.propose_variant v f) b (take n cs) = Some b' ∧ pb_ok b' ∧ items b' = items b ++ new ∧
    tagged_ok f new ∧ ∀ r, r < f_len f →
      (∀ x, x ∈ proposed_for new r → ∃ i, i < n ∧ sat i (fval f r) ∧ sat i (extend (fval f r) v x)) ∧
      (∀ x i c, i < n → cs !! i = Some c → sat i (fval f r) → extendable (variables c) (sat i) (fval f r) v x →
        x ∈ proposed_for new r).
Proof.
  intros Hv Hf Hu Hvar Hb. induction n as [|n IH]; intros Hn.
  { exists b, []. rewrite app_nil_r. split_and!; [done..|by intros ??? ?%not_elem_of_nil|].
    intros r Hr. split; [by intros x ?%not_elem_of_nil|lia]. }
  destruct IH as (b1 & new1 & Hfold & Hb1 & Hi1 & Ht1 & Hp1); [lia|].
  destruct (lookup_lt_is_Some_2 cs n) as [c Hc]; [lia|]. rewrite (take_S_r _ _ _ Hc), foldM_app, Hfold. simpl.
  destruct (propose_variant_spec n c v f b1) as (b2 & new2 & -> & Hb2 & Hi2 & Ht2 & Hp2); [done..|]. simpl.
  exists b2, (new1 ++ new2). split_and!; [done|done| | |].
  - by rewrite Hi2, Hi1, <- app_assoc.
  - intros p x l [Hin|Hin]%elem_of_app; [by eapply Ht1|by eapply Ht2].
  - intros r Hr. destruct (Hp1 r Hr) as [Hs1 Hc1], (Hp2 r Hr) as [Hs2 Hc2]. rewrite proposed_for_app. split.
    + intros x [Hx|Hx]%elem_of_app.
      * destruct (Hs1 x Hx) as (i & Hi & Hrest). exists i. split; [lia|done].
      * exists n. split; [lia|]. by apply Hs2.
    + intros x i d Hi Hd Hs Hx. apply elem_of_app. destruct (decide (i = n)) as [->|].
      * right. simplify_eq. by apply Hc2.
      * left. apply (Hc1 x i d); (done || lia).
Qed.

Lemma proposed_for_tagged (l : list (N * RawInline)) r : NoDup l →
  NoDup (proposed_for ((λ pv, (pv, true)) <$> l) r) ∧
  ∀ x, x ∈ proposed_for ((λ pv, (pv, true)) <$> l) r ↔ (N.of_nat r, x) ∈ l.
Proof.
  intros Hnd. assert (∀ l x, x ∈ proposed_for ((λ pv : N * RawInline, (pv, true)) <$> l) r ↔ (N.of_nat r, x) ∈ l) as Hel.
  { intros l' x. rewrite elem_of_proposed, list_elem_of_fmap. split; [intros (pv & [= <-] & ?); done|].
    intros Hx. by exists (N.of_nat r, x). }
  split; [|apply Hel]. induction Hnd as [|[p x] l Hx _ IH]; [constructor|]. rewrite fmap_cons.
  change (((p, x), true) :: ?t) with ([(p, x, true)] ++ t). rewrite proposed_for_app.
  unfold proposed_for at 1. rewrite filter_cons, filter_nil. simpl. case_decide as Hd; [|done]. destruct Hd as [_ ->].
  simpl. apply NoDup_cons. split; [|done]. by rewrite Hel.
Qed.

Lemma union_propose v f b : (v < 128)%N → frontier_ok f → is_set (f_bound f) v = false →
  union_relevant (f_bound f) v = true → pb_ok b →
  ∃ b' new, Union.propose cs v f b = Some b' ∧ pb_ok b' ∧ items b' = items b ++ new ∧
    tagged_ok f new ∧ ∀ r, r < f_len f → proposal_ok vars union_sat (fval f r) v (proposed_for new r).
Proof.
  intros Hv Hf Hu Hrel Hb. unfold Union.propose.
  destruct (propose_variants v f b (length cs)) as (b1 & new & Hfold & Hb1 & Hi1 & Ht1 & Hp1); [done..|by eapply relevant_var|done|done|].
  rewrite take_ge in Hfold by done. rewrite Hfold. cbn [mbind option_bind].
  assert (drop (pb_len b) (items b1) = new ∧ take (pb_len b) (items b1) = items b) as [Hdrop Htake].
  { rewrite Hi1, <- (items_length b) by done. by rewrite drop_app_length, take_app_length. }
  assert (pb_len b <= pb_len b1) as Hle by (rewrite <- !items_length, Hi1, length_app by done; lia).
  rewrite pb_tagged_spec by done. cbn [mbind option_bind]. rewrite Hdrop.
  set (live := (filter (λ it : candidate, it.2 = true) new).*1). destruct (fresh_spec live) as [Hnd Hel].
  assert (∀ p x, (p, x) ∈ live ↔ (p, x, true) ∈ new) as Hlive.
  { intros p x. unfold live. rewrite list_elem_of_fmap. setoid_rewrite list_elem_of_filter. split.
    - intros ([[p' x'] l] & [= -> ->] & Hl & Hin). simpl in Hl. by subst.
    - intros Hin. by exists (p, x, true). }
  destruct (pb_rewrite_region_spec b1 (pb_len b) (dedup (sort_unstable live))) as (b2 & -> & Hb2 & Hi2); [done..|].
  rewrite Htake in Hi2. eexists b2, _. split_and!; [done|done|done| |].
  - intros p x l Hin. apply list_elem_of_fmap in Hin as ([p' x'] & [= -> -> ->] & Hin).
    rewrite Hel, Hlive in Hin. by eapply Ht1.
  - intros r Hr. destruct (proposed_for_tagged _ r Hnd) as [Hnd' Hel']. destruct (Hp1 r Hr) as [Hs Hcomp].
    destruct (frontier_row f r Hf Hr) as (_ & Hbd & Hok). split; [done| |].
    + intros x Hx _. rewrite Hel', Hel, Hlive in Hx. destruct (Hs x) as (i & Hi & _ & Hsi); [by apply elem_of_proposed|].
      by exists i.
    + intros x (a' & Hok' & Hsub & Htot & (i & Hi & Hsi)). rewrite Hel', Hel, Hlive. apply elem_of_proposed.
      destruct (lookup_lt_is_Some_2 cs i Hi) as [c Hc]. apply (Hcomp x i c); [done..| |].
      * apply (co_mono (ConstraintOk:=children i c Hc) _ a'); [|done..]. eapply union_extendable_mono; [|done].
        apply bval_unbound; rewrite ?Hbd; done.
      * exists a'. split_and!; [done..| |done]. intros w Hw. rewrite (same i c) by done. by apply Htot.
Qed.

(** ** Votes *)

(** The verdict of one variant on a candidate: a dead row gets no vote. *)
Record vote_ok (i : nat) (c : Constraint) (a : asg) (v : VariableId) (x : RawInline) (k : bool) : Prop := {
  vote_sound : k = true → sat i a ∧ sat i (extend a v x);
  vote_complete : sat i a → extendable (variables c) (sat i) a v x → k = true;
}.

(** Killing the candidates of the rows where the variant is refuted. *)
Lemma dead_rows f cands (l : list bool) : cands_ok f cands → length l = f_len f →
  ∃ votes, foldM (λ votes i,
      row ← cd_parents votes !! i;
      alive ← l !! N.to_nat row;
      if negb alive then cd_kill votes i else Some votes) cands (seq 0 (cd_len cands)) = Some votes ∧
    killed cands (λ i, default false (l !! N.to_nat (cd_parents cands !!! i))) votes.
Proof.
  intros Hc Hl. pose proof Hc as (Hok & Hp & _).
  destruct (fold_verdicts (λ votes i,
      row ← cd_parents votes !! i;
      alive ← l !! N.to_nat row;
      if negb alive then cd_kill votes i else Some votes)
    (λ i, default false (l !! N.to_nat (cd_parents cands !!! i))) cands 0 (cd_len cands)) as (c' & -> & Hk); [done|lia| |].
  - intros c1 i Hc1 Hv1 Hp1 Hi. destruct (cd_parent_some cands i Hok ltac:(lia)) as [p Hpi].
    rewrite Hp1, Hpi, (list_lookup_total_correct _ _ _ Hpi). simpl.
    destruct (lookup_lt_is_Some_2 l (N.to_nat p)) as [s Hs]; [rewrite Hl; by eapply Hp|]. rewrite Hs. simpl.
    destruct s; simpl.
    + exists c1. split; [done|]. apply killed_refl; [done|]. intros. by rewrite orb_true_r.
    + destruct (cd_kill_spec c1 i) as (c2 & -> & Hk); [done|unfold cd_len in *; rewrite Hv1; lia|]. exists c2. split; [done|].
      eapply killed_ext; [done|]. intros. by rewrite orb_false_r.
  - exists c'. split; [done|]. eapply killed_ext; [done|]. intros i Hi _.
    destruct (Nat.leb_spec 0 i), (Nat.ltb_spec i (0 + cd_len cands)); (done || lia).
Qed.

Lemma scratch_ok f cands : cands_ok f cands → cands_ok f (cd_scratch cands (cd_live_words cands)) ∧
  ∀ i, i < cd_len cands → live_at (cd_scratch cands (cd_live_words cands)) i = live_at cands i.
Proof.
  intros (Hok & Hp & Hv). destruct (cd_live_words_spec cands Hok) as (Hw & Hl & Hb). split.
  - split_and!; [by apply cd_scratch_ok|done..].
  - intros i Hi. unfold live_at. simpl. by rewrite Hb, owned_in, andb_true_r.
Qed.

Lemma confirm_variant_spec i c v f cands any : cs !! i = Some c → (v < 128)%N → frontier_ok f →
  is_set (f_bound f) v = false → cands_ok f cands → words_ok any → length any = length (cd_words cands) →
  ∃ any' k, Union.confirm_variant v f cands any c = Some any' ∧ words_ok any' ∧ length any' = length (cd_words cands) ∧
    (∀ j, j < cd_len cands → wbit any' (cd_bit_offset cands + j) = wbit any (cd_bit_offset cands + j) || (live_at cands j && k j)) ∧
    ∀ j, j < cd_len cands → live_at cands j = true → vote_ok i c (cand_asg f cands j) v (cand_value cands j) (k j).
Proof.
  intros Hc Hv Hf Hu Hcs Hany Hlany. unfold Union.confirm_variant.
  destruct (satisfied_rows_spec i c f Hc Hf) as (l & -> & Hlen & Hl). cbn [mbind option_bind].
  destruct (scratch_ok f cands Hcs) as [Hsc Hlive]. set (scratch := cd_scratch cands (cd_live_words cands)) in *.
  assert (∀ j, j < cd_len cands → ∃ s, default false (l !! N.to_nat (cd_parents cands !!! j)) = s ∧
    l !! N.to_nat (cd_parents cands !!! j) = Some s ∧ (s = true ↔ sat i (cand_asg f cands j))) as Hrow.
  { intros j Hj. destruct (cand_row f cands j Hcs Hj) as (p & Hp & Hpf & ->).
    rewrite (list_lookup_total_correct _ _ _ Hp). destruct (Hl _ Hpf) as (s & Hs & Hiff). exists s. by rewrite Hs. }
  destruct (existsb id l) eqn:Hex; cbn [negb].
  2: { exists any, (λ _, false). split_and!; [done..| |].
    - intros j _. by rewrite andb_false_r, orb_false_r.
    - intros j Hj _. destruct (Hrow j Hj) as (s & _ & Hs & Hiff). split; [done|]. intros Hsat _.
      rewrite <- not_true_iff_false, existsb_exists in Hex. exfalso. apply Hex. exists s. split; [|by apply Hiff].
      by eapply list_elem_of_In, list_elem_of_lookup_2. }
  assert (∃ votes, (if negb (forallb id l) then _ else Some scratch) = Some votes ∧
    killed scratch (λ j, default false (l !! N.to_nat (cd_parents cands !!! j))) votes) as (votes & -> & Hk1).
  { destruct (forallb id l) eqn:Hall; cbn [negb].
    - exists scratch. split; [done|]. apply killed_refl; [apply Hsc|]. intros j Hj _.
      destruct (Hrow j Hj) as (s & -> & Hs & _). rewrite forallb_forall in Hall. apply (Hall s).
      by eapply list_elem_of_In, list_elem_of_lookup_2.
    - by apply (dead_rows f scratch l Hsc). }
  cbn [mbind option_bind]. pose proof (cands_ok_killed _ _ _ _ Hsc Hk1) as Hvs.
  assert (cd_scratch cands (cd_words votes) = votes) as ->.
  { unfold cd_scratch, with_words. pose proof (up_values _ _ _ Hk1) as E1. pose proof (up_parents _ _ _ Hk1) as E2.
    pose proof (up_offset _ _ _ Hk1) as E3. simpl in *. rewrite <- E1, <- E2, <- E3. by destruct votes. }
  destruct (co_confirm (ConstraintOk:=children i c Hc) v f votes) as (c' & k & -> & Hk2 & Hver); [done..|].
  cbn [mbind option_bind]. pose proof (killed_trans _ _ _ _ _ Hk1 Hk2) as Hk.
  destruct (cd_live_words_spec cands (proj1 Hcs)) as (_ & Hlw & _).
  assert (length (cd_words c') = length (cd_words cands)) as Hlc by (rewrite (up_length _ _ _ Hk); done).
  destruct (or_words_spec any (cd_words c')) as (Ho1 & Ho2 & Ho3); [done|apply (up_words _ _ _ Hk)|congruence|].
  eexists _, (λ j, default false (l !! N.to_nat (cd_parents cands !!! j)) && k j).
  split; [done|]. split_and!; [done|congruence| |].
  - intros j Hj. rewrite Ho3. f_equal. pose proof (up_in _ _ _ Hk j Hj) as Hin. cbv beta in Hin.
    rewrite Hlive in Hin by done. rewrite <- Hin. unfold live_at. by rewrite (up_offset _ _ _ Hk).
  - intros j Hj Hjl. cbv beta. destruct (Hrow j Hj) as (s & -> & Hs & Hiff).
    assert (cand_asg f votes j = cand_asg f cands j ∧ cand_value votes j = cand_value cands j) as [Ea Ev].
    { unfold cand_asg, cand_value. by rewrite (up_parents _ _ _ Hk1), (up_values _ _ _ Hk1). }
    assert (s = true → verdict_ok (variables c) (sat i) (cand_asg f cands j) v (cand_value cands j) (k j)) as Hj'.
    { intros ->. rewrite <- Ea, <- Ev. apply Hver; [by rewrite (up_len _ _ _ Hk1)|]. rewrite (up_in _ _ _ Hk1 j Hj).
      cbv beta. rewrite Hlive, Hjl by done. by rewrite Hs. }
    split.
    + intros [-> Hkj]%andb_true_iff. assert (sat i (cand_asg f cands j)) by by apply Hiff. split; [done|].
      by apply (vd_sound _ _ _ _ _ _ (Hj' eq_refl)).
    + intros Hsat Hx. assert (s = true) as E by by apply Hiff. rewrite E. simpl. by apply (vd_complete _ _ _ _ _ _ (Hj' E)).
Qed.

Lemma confirm_variants v f cands n : (v < 128)%N → frontier_ok f → is_set (f_bound f) v = false → cands_ok f cands →
  n <= length cs →
  ∃ any, foldM (Union.confirm_variant v f cands) (replicate (cd_live_word_len cands) 0%N) (take n cs) = Some any ∧
    words_ok any ∧ length any = length (cd_words cands) ∧
    ∀ j, j < cd_len cands →
      (wbit any (cd_bit_offset cands + j) = true → live_at cands j = true ∧
        ∃ i, i < n ∧ sat i (extend (cand_asg f cands j) v (cand_value cands j))) ∧
      (live_at cands j = true → ∀ i c, i < n → cs !! i = Some c → sat i (cand_asg f cands j) →
        extendable (variables c) (sat i) (cand_asg f cands j) v (cand_value cands j) →
        wbit any (cd_bit_offset cands + j) = true).
Proof.
  intros Hv Hf Hu Hc. induction n as [|n IH]; intros Hn.
  { eexists. split; [done|]. unfold cd_live_word_len. split_and!; [|by rewrite length_replicate|].
    - by apply Forall_replicate.
    - intros j _. split; [|lia]. unfold wbit. destruct (_ !! _) eqn:E; [|done].
      apply lookup_replicate in E as [-> _]. by rewrite N.bits_0. }
  destruct IH as (any & Hfold & Hok & Hl & Hb); [lia|].
  destruct (lookup_lt_is_Some_2 cs n) as [c Hcn]; [lia|]. rewrite (take_S_r _ _ _ Hcn), foldM_app, Hfold. cbn [foldM mbind option_bind].
  destruct (confirm_variant_spec n c v f cands any) as (any' & k & -> & Hok' & Hl' & Hb' & Hvote); [done..|].
  exists any'. split_and!; [done..|]. intros j Hj. destruct (Hb j Hj) as [Hs1 Hc1]. rewrite (Hb' j Hj). split.
  - intros [Hw|[Hlj Hk]%andb_true_iff]%orb_true_iff.
    + destruct (Hs1 Hw) as (? & i & ? & ?). split; [done|]. exists i. split; [lia|done].
    + split; [done|]. exists n. split; [lia|]. by apply (vote_sound _ _ _ _ _ _ (Hvote j Hj Hlj)).
  - intros Hlj i d Hi Hd Hsat Hx. destruct (decide (i = n)) as [->|].
    + apply orb_true_iff. right. rewrite Hlj. simplify_eq. by apply (vote_complete _ _ _ _ _ _ (Hvote j Hj Hlj)).
    + apply orb_true_iff. left. eapply Hc1; [done| |done..]. lia.
Qed.

Lemma union_confirm v f cands : (v < 128)%N → frontier_ok f → is_set (f_bound f) v = false → cands_ok f cands →
  ∃ c' k, Union.confirm cs v f cands = Some c' ∧ killed cands k c' ∧
    ∀ i, i < cd_len cands → live_at cands i = true →
      verdict_ok vars union_sat (cand_asg f cands i) v (cand_value cands i) (k i).
Proof.
  intros Hv Hf Hu Hc. unfold Union.confirm.
  destruct (confirm_variants v f cands (length cs)) as (any & Hfold & Hok & Hl & Hb); [done..|].
  rewrite take_ge in Hfold by done. rewrite Hfold. cbn [mbind option_bind].
  eexists _, (λ j, wbit any (cd_bit_offset cands + j)). split; [done|]. split.
  - eapply updated_ext; [apply cd_set_live_words_spec; [apply Hc|done..]|]. intros i Hi. simpl.
    destruct (wbit any _) eqn:E; [|by rewrite andb_false_r]. by rewrite (proj1 (proj1 (Hb i Hi) E)).
  - intros j Hj Hlj. destruct (Hb j Hj) as [Hs Hcomp]. split.
    + intros Hw _. destruct (Hs Hw) as (_ & i & ? & ?). by exists i.
    + intros (a' & Hok' & Hsub & Htot & (i & Hi & Hsi)). destruct (lookup_lt_is_Some_2 cs i Hi) as [c Hci].
      apply (Hcomp Hlj i c); [done..| |].
      * apply (co_mono (ConstraintOk:=children i c Hci) _ a'); [|done..]. eapply union_extendable_mono; [|done].
        destruct (cand_row f cands j Hc Hj) as (p & _ & Hp & ->).
        destruct (frontier_row f (N.to_nat p) Hf Hp) as (_ & Hbd & Hbok). apply bval_unbound; rewrite ?Hbd; done.
      * exists a'. split_and!; [done..| |done]. intros w Hw. rewrite (same i c) by done. by apply Htot.
Qed.

Lemma estimate_sum v b : (v < 128)%N → binding_ok b → is_set (b_bound b) v = false →
  ∃ r, Union.estimate cs v b = Some r ∧ (is_Some r ↔ union_relevant (b_bound b) v = true).
Proof.
  intros Hv Hb Hu. unfold Union.estimate.
  destruct (child_estimates cs sat rel (λ i c Hc, constraint_filter _ _ _ (children i c Hc)) v b) as (es & -> & H2); [done..|]. simpl. eexists. split; [done|].
  rewrite union_relevant_spec, <- (some_estimate _ _ _ H2).
  destruct (omap id es) as [|e l]; simpl; split; [by intros []|done|done|eauto].
Qed.

Lemma satisfied_any b : binding_ok b →
  ∃ r, Union.satisfied cs b = Some r ∧ (r = true ↔ union_sat (bval b)).
Proof.
  intros Hb. unfold union_sat.
  assert (∀ l k, drop k cs = l → ∃ r, Union.satisfied l b = Some r ∧
    (r = true ↔ ∃ i, k <= i < length cs ∧ sat i (bval b))) as Hgen.
  { induction l as [|c l IH]; intros k Hk; simpl.
    - exists false. split; [done|]. split; [done|]. intros (i & Hi & _). apply (f_equal length) in Hk.
      rewrite length_drop in Hk. simpl in Hk. lia.
    - assert (cs !! k = Some c) as Hc by (rewrite <- (Nat.add_0_r k), <- lookup_drop, Hk; done).
      destruct (decides_satisfied c _ _ _ Hb (ConstraintOk0:=children k c Hc) (ConstraintDecides0:=decides k c Hc)) as (r & -> & Hr). simpl.
      apply lookup_lt_Some in Hc as Hlt. destruct r.
      + exists true. split; [done|]. split; [|done]. intros _. exists k. split; [lia|]. by apply Hr.
      + destruct (IH (S k)) as (r' & Hr' & Hs').
        { replace (S k) with (k + 1) by lia. by rewrite <- drop_drop, Hk. }
        exists r'. split; [done|]. rewrite Hs'. split; intros (i & Hi & Hsi); exists i; (split; [|done]); [lia|].
        destruct (decide (i = k)) as [->|]; [|lia]. by apply Hr in Hsi. }
  destruct (Hgen cs 0) as (r & Hr & Hs); [by rewrite drop_0|]. exists r. split; [done|]. rewrite Hs.
  split; intros (i & Hi & Hsi); exists i; (split; [|done]); lia.
Qed.

Lemma union_decides : ConstraintDecides (Union.constraint cs) union_sat.
Proof. apply satisfied_decides, satisfied_any. Qed.

#[global] Instance union_ok : ConstraintOk (Union.constraint cs) union_sat union_relevant.
Proof.
  split; simpl.
  - unfold Union.variables. destruct cs as [|c l] eqn:E; [done|]. by apply (co_variables (ConstraintOk:=children 0 c eq_refl)).
  - intros s v Hv Hr. by eapply relevant_var.
  - intros a a' Hsub Hok (i & Hi & Hs). exists i. split; [done|]. destruct (lookup_lt_is_Some_2 cs i Hi) as [c Hc].
    by apply (co_mono (ConstraintOk:=children i c Hc) a a').
  - intros b Hb. by apply (satisfied_weak (Union.constraint cs)), satisfied_any.
  - apply estimate_sum.
  - intros b v x Hv Hb Hu Hx Hr (i & Hi & Hs). exists i. split; [done|]. destruct (lookup_lt_is_Some_2 cs i Hi) as [c Hc].
    apply (co_irrelevant (ConstraintOk:=children i c Hc)); [done..| |done].
    apply not_true_is_false. intros Hri. assert (union_relevant (b_bound b) v = true); [|congruence].
    apply union_relevant_spec. eauto.
  - apply union_propose.
  - apply union_confirm.
Qed.

End union.

(** What the constructor's assertions give. *)
Lemma union_new_spec cs : Union.new cs = Some cs →
  cs ≠ [] ∧ ∀ i c v, cs !! i = Some c → is_set (variables c) v = is_set (Union.variables cs) v.
Proof.
  unfold Union.new. destruct (Nat.eqb_spec (length cs) 0) as [|Hne]; [done|]. cbn [negb massert mbind option_bind].
  destruct (forallb _ (zip cs (tail cs))) eqn:Hall; [|done]. intros _. split; [by intros ->|].
  assert (∀ i c, cs !! i = Some c → bits (variables c) = bits (Union.variables cs)) as Hb.
  { destruct cs as [|c0 l]; [done|]. clear Hne. simpl in *. revert c0 Hall.
    induction l as [|c1 l IH]; intros c0 Hall [|i] c Hi; simpl in *; simplify_eq; try done.
    apply andb_true_iff in Hall as [E%N.eqb_eq Hall]. rewrite E. by apply (IH c1 Hall i). }
  intros i c v Hc. unfold is_set. by rewrite (Hb i c Hc).
Qed.

(** C32. A disjunction that its constructor accepts, whose variants obey the
    protocol, refute every binding that contradicts them ([ConstraintDecides]: a
    variant that keeps the optimistic default of [satisfied] breaks the
    conclusion), and have an opinion on each of its variables, obeys the protocol
    and refutes too: what a variant proposes counts for the rows it is not
    refuted in, repetitions within a row collapse, and a candidate survives when
    some variant that is alive for its row confirms it. *)
Theorem union_protocol cs sat rel : Union.new cs = Some cs →
  (∀ i c, cs !! i = Some c → ConstraintOk c (sat i) (rel i)) →
  (∀ i c, cs !! i = Some c → ConstraintDecides c (sat i)) →
  (∀ i s v, i < length cs → (v < 128)%N → is_set (Union.variables cs) v = true → is_set s v = false → rel i s v = true) →
  ConstraintOk (Union.constraint cs) (λ a, ∃ i, i < length cs ∧ sat i a)
    (λ s v, existsb (λ i, rel i s v) (seq 0 (length cs))) ∧
  ConstraintDecides (Union.constraint cs) (λ a, ∃ i, i < length cs ∧ sat i a).
Proof. intros [Hne Hsame]%union_new_spec Hcs Hd Htotal. split; [apply union_ok|eapply union_decides]; eauto. Qed.

(** ** A variant without an opinion *)

Lemma foldM_const {A B} (g : A → B → option A) (x : A) l : (∀ y, y ∈ l → g x y = Some x) → foldM g x l = Some x.
Proof.
  induction l as [|y l IH]; intros Hg; [done|]. cbn [foldM]. rewrite Hg by by left. cbn [mbind option_bind].
  apply IH. intros z Hz. apply Hg. by right.
Qed.

Lemma mapM_const {A B} (g : A → option B) (y : B) l : (∀ x, x ∈ l → g x = Some y) →
  mapM g l = Some (replicate (length l) y).
Proof.
  intros Hg. apply mapM_Some_2. induction l as [|x l IH]; simpl; constructor; [apply Hg; by left|].
  apply IH. intros z Hz. apply Hg. by right.
Qed.

Section silent.
Context (e : EqualityConstraint) (d : Constraint).
Hypothesis Ha : (eq_a e < 128)%N.
Hypothesis Hb : (eq_b e < 128)%N.

(** An equality neither side of which is bound is not refuted and has nothing to
    propose. *)
Lemma silent_variant f b : frontier_ok f → is_set (f_bound f) (eq_a e) = false →
  is_set (f_bound f) (eq_b e) = false → Union.propose_variant (eq_a e) f b (Equality.constraint e) = Some b.
Proof using Ha Hb.
  intros Hf Hua Hub. unfold Union.propose_variant.
  assert (∀ r, r < f_len f → f_row f r = Some (frow f r) ∧ bget (frow f r) (eq_a e) = Some None ∧
    bget (frow f r) (eq_b e) = Some None) as Hrow.
  { intros r Hr. destruct (frontier_row f r Hf Hr) as (Hfr & Hbd & Hok). split; [done|].
    rewrite !bval_get, !bval_unbound by (done || by rewrite Hbd). done. }
  assert (Union.satisfied_rows (Equality.constraint e) f = Some (replicate (f_len f) true)) as ->.
  { unfold Union.satisfied_rows. replace (replicate (f_len f) true) with (replicate (length (seq 0 (f_len f))) true) by by rewrite length_seq.
    apply mapM_const. intros r Hr%elem_of_seq. destruct (Hrow r) as (-> & E1 & E2); [lia|]. cbn [mbind option_bind].
    simpl satisfied. unfold Equality.satisfied. by rewrite E1, E2. }
  cbn [mbind option_bind]. assert (∀ n, forallb id (replicate n true) = true) as Hall by by induction n.
  rewrite Hall. cbn [negb]. destruct (existsb id _); cbn [negb]; [|done]. simpl propose.
  unfold Equality.propose, Equality.peer. rewrite N.eqb_refl, foldM_const; [done|].
  intros r Hr%elem_of_seq. destruct (Hrow r) as (-> & _ & E2); [lia|]. cbn [mbind option_bind]. by rewrite E2.
Qed.

Lemma silent_propose f b : frontier_ok f → is_set (f_bound f) (eq_a e) = false → is_set (f_bound f) (eq_b e) = false →
  Union.propose [Equality.constraint e; d] (eq_a e) f b = Union.propose [d] (eq_a e) f b.
Proof using Ha Hb. intros Hf Hua Hub. unfold Union.propose. cbn [foldM]. by rewrite silent_variant. Qed.

Lemma silent_estimate b : binding_ok b → is_set (b_bound b) (eq_b e) = false →
  Union.estimate [Equality.constraint e; d] (eq_a e) b = Union.estimate [d] (eq_a e) b.
Proof using Ha Hb.
  intros Hok Hub. unfold Union.estimate. cbn [mapM]. simpl estimate. unfold Equality.estimate.
  rewrite N.eqb_refl, bval_get, bval_unbound by done. cbn [mbind option_bind].
  by destruct (estimate d (eq_a e) b).
Qed.
End silent.

(** C40. A union of an equality [a = b] and any constraint [d] on the same two
    variables that obeys the protocol loses the solutions of the equality that
    [d] refutes: the constructor accepts the union; while neither variable is
    bound it gives an estimate for [a], so it offers itself as a proposer, and
    then proposes for [a] only values that [d] accepts, although every binding of
    [a] and [b] to one and the same value satisfies the union. *)
Theorem union_misses (e : EqualityConstraint) (d : Constraint) (sat : asg → Prop)
    (rel : VariableSet → VariableId → bool) (f : Frontier) :
  (eq_a e < 128)%N → (eq_b e < 128)%N → bits (variables d) = bits (Equality.variables e) →
  ConstraintOk d sat rel → ConstraintDecides d sat →
  (∀ s v, (v < 128)%N → is_set (variables d) v = true → is_set s v = false → rel s v = true) →
  frontier_ok f → is_set (f_bound f) (eq_a e) = false → is_set (f_bound f) (eq_b e) = false →
  let cs := [Equality.constraint e; d] in
  Union.new cs = Some cs ∧
  (∀ r, r < f_len f → ∃ n, (b ← f_row f r; Union.estimate cs (eq_a e) b) = Some (Some n)) ∧
  (∃ b, Union.propose cs (eq_a e) f pb_new = Some b ∧
    ∀ r x, r < f_len f → x ∈ proposed_for (items b) r → sat (fval f r) → sat (extend (fval f r) (eq_a e) x)) ∧
  ∀ b x, binding_ok b → bval b (eq_a e) = Some x → bval b (eq_b e) = Some x → Union.satisfied cs b = Some true.
Proof.
  intros Ha Hb Hv Hd Hdec Htot Hf Hua Hub cs.
  assert (is_set (variables d) (eq_a e) = true) as Hin.
  { unfold is_set. rewrite Hv. fold (is_set (Equality.variables e) (eq_a e)).
    rewrite equality_variables, N.eqb_refl by done. by rewrite orb_true_r. }
  assert (ConstraintOk (Union.constraint [d]) (union_sat [d] (λ _, sat)) (union_relevant [d] (λ _, rel))) as Hok.
  { apply union_ok; try done.
    - by intros [|i] c [= <-].
    - by intros [|i] c [= <-].
    - by intros [|i] c v [= <-].
    - intros i s v _. apply Htot. }
  assert (union_relevant [d] (λ _, rel) (f_bound f) (eq_a e) = true) as Hrel.
  { unfold union_relevant. simpl. by rewrite Htot. }
  split_and!.
  - unfold Union.new. simpl. by rewrite Hv, N.eqb_refl.
  - intros r Hr. destruct (frontier_row f r Hf Hr) as (-> & Hbd & Hbok). cbn [mbind option_bind].
    unfold cs. rewrite silent_estimate by (done || by rewrite Hbd).
    destruct (co_estimate (ConstraintOk:=Hok) (eq_a e) (frow f r)) as (o & Ho & Hiff); [done..|by rewrite Hbd|].
    simpl in Ho. rewrite Ho. rewrite Hbd in Hiff. destruct (proj2 Hiff Hrel) as [n ->]. by exists n.
  - unfold cs. rewrite silent_propose by done.
    destruct (co_propose (ConstraintOk:=Hok) (eq_a e) f pb_new) as (b & new & Hp & _ & Hi & _ & Hprop);
      [done..|apply pb_new_ok|]. exists b. split; [exact Hp|]. intros r x Hr. rewrite Hi. intros Hx Hs.
    destruct (pr_sound _ _ _ _ _ (Hprop r Hr) x Hx) as (i & _ & ?); [|done]. exists 0. split; [simpl; lia|done].
  - intros b x Hbok Ea Eb. unfold cs. simpl Union.satisfied. unfold Equality.satisfied.
    rewrite !bval_get, Ea, Eb by done. cbn [mbind option_bind]. by rewrite bool_decide_eq_true_2.
Qed.
