(* ===== verification/ConstraintExamples.v ===== *)
(** * ConstraintExamples: buffers, regions and constraints on concrete values

    The witnesses of [Liveness], [Query], [Constraints], [Intersection] and
    [Union], and a union that loses solutions. *)

From S2P Require Import Prelude Lex VariableSet Machine Trible Liveness Query Constraints Intersection Union.

Open Scope nat_scope.

(** ** Values, buffers and stores *)

Definition ex_value (b : N) : RawInline := replicate 31 0%N ++ [b].
Lemma ex_value_ok b : (b < 256)%N → value_ok (ex_value b).
Proof.
  intros Hb. split; [done|]. apply Forall_app. split; [|by repeat constructor].
  by apply Forall_replicate.
Qed.

(** Forty entries of two rows: the flags span two words. *)
Definition ex_buffer : ProposalBuffer :=
  default pb_new (b ← pb_extend (pb_open pb_new 1) (ex_value <$> repeat 7%N 20); pb_extend (pb_open b 3) (ex_value <$> repeat 9%N 20)).

Lemma ex_buffer_ok : pb_ok ex_buffer.
Proof.
  unfold ex_buffer. destruct (pb_extend_spec (pb_open pb_new 1) (ex_value <$> repeat 7%N 20)) as (b & -> & Hb & _);
    [apply pb_open_ok, pb_new_ok|]. cbn [mbind option_bind].
  destruct (pb_extend_spec (pb_open b 3) (ex_value <$> repeat 9%N 20)) as (b' & -> & Hb' & _); [by apply pb_open_ok|done].
Qed.

Lemma buffer_refines_witness :
  pb_count_live ex_buffer 35 = Some 5 ∧
  ∃ b, pb_rewrite_region ex_buffer 35 [(2%N, ex_value 4)] = Some b ∧ pb_len b = 36.
Proof.
  destruct (buffer_refines ex_buffer 35 ex_buffer_ok) as (_ & _ & _ & _ & Hc & _ & _ & Hr & _); [vm_compute; lia|].
  split; [rewrite Hc; vm_compute; reflexivity|]. destruct (Hr [(2%N, ex_value 4)]) as (b & Hb & Hok & Hi).
  exists b. split; [done|]. rewrite <- items_length, Hi by done. vm_compute. reflexivity.
Defined.

Lemma region_refines_witness :
  ∃ c c', pb_region ex_buffer 35 = Some c ∧ cd_bit_offset c = 3 ∧ cd_kill c 2 = Some c' ∧
    live_at c' 1 = true ∧ live_at c' 2 = false ∧ pb_ok (put_region ex_buffer 35 c').
Proof.
  destruct (region_refines ex_buffer 35 ex_buffer_ok) as (c & Hc & Hok & _ & _ & _ & Hput & Hkill & _); [vm_compute; lia|].
  assert (Hc' := Hc). vm_compute in Hc'. injection Hc' as Ec.
  destruct (Hkill 2) as (c' & Hc' & Hk); [rewrite <- Ec; vm_compute; lia|].
  exists c, c'. split; [done|]. split; [by rewrite <- Ec|]. split; [done|].
  split; [rewrite (up_in _ _ _ Hk) by (rewrite <- Ec; vm_compute; lia); rewrite <- Ec; reflexivity|].
  split; [rewrite (up_in _ _ _ Hk) by (rewrite <- Ec; vm_compute; lia); rewrite <- Ec; reflexivity|].
  by eapply (Hput _ c' Hk).
Defined.

Lemma binding_store_refines_witness :
  ∃ s f, store_bind store_new 5 (ex_value 7) = Some s ∧ store_frontier s = Some f ∧ frontier_ok f ∧
    bval (store_view s) 5%N = Some (ex_value 7).
Proof.
  destruct (binding_store_refines store_new 5 (ex_value 7)) as (s & f & Hs & _ & _ & Hv & _ & Hf & Hok & _);
    [apply store_new_ok|done|by apply ex_value_ok|done|].
  exists s, f. split; [done|]. split; [done|]. split; [done|]. by rewrite Hv.
Defined.

(** ** Constraints *)

Definition ex_const (v b : N) : ConstantConstraint := mkConstant v (ex_value b).
Definition by_estimate : relation (N * nat) := λ a b, (a.1 <= b.1)%N.
#[local] Instance by_estimate_dec : RelDecision by_estimate.
Proof. intros a b. unfold by_estimate. apply _. Defined.
Definition ex_sort (l : list (N * nat)) : list (N * nat) := merge_sort by_estimate l.

Definition ex_root : Frontier := default (mkFrontier new_empty [] 0 (Explicit []) [] false) (store_frontier store_new).

(** The live values a constraint proposes for the empty assignment. *)
Definition ex_propose (c : Constraint) (v : N) : option (list (N * RawInline)) :=
  b ← propose c v ex_root pb_new; pb_tagged b 0.

Lemma constant_protocol_witness :
  ConstraintOk (Constant.constraint (ex_const 3 7)) (λ a, ∀ x, a 3%N = Some x → x = ex_value 7) (λ _ v, (v =? 3)%N) ∧
  ex_propose (Constant.constraint (ex_const 3 7)) 3 = Some [(0%N, ex_value 7)].
Proof.
  split; [|vm_compute; reflexivity]. apply (constant_protocol (ex_const 3 7)); [reflexivity|by apply ex_value_ok].
Defined.

Definition ex_eq : EqualityConstraint := mkEquality 0 1.

Lemma equality_protocol_witness :
  ConstraintOk (Equality.constraint ex_eq) (λ a, ∀ x y, a 0%N = Some x → a 1%N = Some y → x = y)
    (λ s v, match Equality.peer ex_eq v with Some peer => is_set s peer | None => false end) ∧
  (s ← store_bind store_new 1 (ex_value 7); Equality.estimate ex_eq 0 (store_view s)) = Some (Some 1%N).
Proof. split; [|vm_compute; reflexivity]. apply (equality_protocol ex_eq); reflexivity. Defined.

(** [?0 = 7 and ?1 = 9] *)
Definition ex_and : list Constraint := [Constant.constraint (ex_const 0 7); Constant.constraint (ex_const 1 9)].

Lemma ex_const_ok v b : (v < 128)%N → (b < 256)%N →
  ConstraintOk (Constant.constraint (ex_const v b)) (λ a, ∀ x, a v = Some x → x = ex_value b) (λ _ w, (w =? v)%N).
Proof. intros Hv Hb. apply (constant_ok (ex_const v b)); [done|by apply ex_value_ok]. Qed.

Lemma ex_const_decides v b : (v < 128)%N → ConstraintDecides (Constant.constraint (ex_const v b)) (λ a, ∀ x, a v = Some x → x = ex_value b).
Proof. intros Hv. by apply (constant_decides (ex_const v b)). Qed.

Lemma intersection_protocol_witness :
  ConstraintOk (Intersection.constraint ex_sort ex_and)
    (λ a, ∀ i, i < 2 → ∀ x, a (N.of_nat i) = Some x → x = ex_value (7 + 2 * N.of_nat i))
    (λ s v, existsb (λ i, (v =? N.of_nat i)%N) (seq 0 2)) ∧
  ex_propose (Intersection.constraint ex_sort ex_and) 1 = Some [(0%N, ex_value 9)].
Proof.
  split; [|vm_compute; reflexivity].
  destruct (intersection_protocol ex_sort ex_and (λ i a, ∀ x, a (N.of_nat i) = Some x → x = ex_value (7 + 2 * N.of_nat i))
    (λ i _ v, (v =? N.of_nat i)%N)) as [Hok _].
  - intros l. apply merge_sort_Permutation.
  - intros [|[|i]] c Hc; simpl in Hc; try done; injection Hc as <-; by apply ex_const_ok.
  - exact Hok.
Defined.

(** [?0 = 7 or ?0 = 9] *)
Definition ex_or : list Constraint := [Constant.constraint (ex_const 0 9); Constant.constraint (ex_const 0 7)].

Lemma union_protocol_witness :
  ConstraintOk (Union.constraint ex_or)
    (λ a, ∃ i, i < 2 ∧ ∀ x, a 0%N = Some x → x = ex_value (9 - 2 * N.of_nat i))
    (λ s v, existsb (λ i, (v =? 0)%N) (seq 0 2)) ∧
  ex_propose (Union.constraint ex_or) 0 = Some [(0%N, ex_value 7); (0%N, ex_value 9)].
Proof.
  split; [|vm_compute; reflexivity].
  apply (union_protocol ex_or (λ i a, ∀ x, a 0%N = Some x → x = ex_value (9 - 2 * N.of_nat i)) (λ i _ v, (v =? 0)%N)).
  - reflexivity.
  - intros [|[|i]] c Hc; simpl in Hc; try done; injection Hc as <-; by apply ex_const_ok.
  - intros [|[|i]] c Hc; simpl in Hc; try done; injection Hc as <-; by apply ex_const_decides.
  - intros i s v _ Hv Hs _. unfold Union.variables in Hs. simpl in Hs. unfold Constant.variables in Hs.
    rewrite const_set in Hs by done. done.
Defined.

(** ** A union that loses solutions *)

(** [?0 = ?1 or (?0 = 7 and ?1 = 9)] *)
Definition ex_lossy : list Constraint :=
  [Equality.constraint ex_eq; Intersection.constraint ex_sort ex_and].

(** The union of the equality with the two constants proposes 7 alone for the
    first variable, although [?0 = ?1 = 4] satisfies it. *)
Lemma union_misses_witness :
  Union.new ex_lossy = Some ex_lossy ∧
  (∃ n, Union.estimate ex_lossy 0 (store_view store_new) = Some (Some n)) ∧
  ex_propose (Union.constraint ex_lossy) 0 = Some [(0%N, ex_value 7)] ∧
  ∃ s s', store_bind store_new 0 (ex_value 4) = Some s ∧ store_bind s 1 (ex_value 4) = Some s' ∧
    Union.satisfied ex_lossy (store_view s') = Some true.
Proof.
  destruct (intersection_protocol ex_sort ex_and (λ i a, ∀ x, a (N.of_nat i) = Some x → x = ex_value (7 + 2 * N.of_nat i))
    (λ i _ v, (v =? N.of_nat i)%N)) as [Hok Hdec].
  { intros l. apply merge_sort_Permutation. }
  { intros [|[|i]] c Hc; simpl in Hc; try done; injection Hc as <-; by apply ex_const_ok. }
  destruct (store_frontier_spec store_new) as (f & Hf & Hfok & Hlen & Hbd & Hrow & _); [apply store_new_ok|].
  destruct (union_misses ex_eq (Intersection.constraint ex_sort ex_and)
    (λ a, ∀ i, i < 2 → ∀ x, a (N.of_nat i) = Some x → x = ex_value (7 + 2 * N.of_nat i))
    (λ s v, existsb (λ i, (v =? N.of_nat i)%N) (seq 0 2)) f) as (H1 & H2 & _ & H4); try done.
  - apply Hdec. intros [|[|i]] c Hc; simpl in Hc; try done; injection Hc as <-; by apply ex_const_decides.
  - intros s v Hv Hs _. apply orb_true_iff.
    destruct (N.eqb_spec v 0) as [->|H0]; [by left|]. destruct (N.eqb_spec v 1) as [->|H1]; [by right|].
    exfalso. assert (is_set (variables (Intersection.constraint ex_sort ex_and)) v = (v =? 1)%N || ((v =? 0)%N || false)) as E.
    { change (variables (Intersection.constraint ex_sort ex_and)) with (Equality.variables ex_eq). by apply equality_variables. }
    rewrite E in Hs. apply N.eqb_neq in H0, H1. by rewrite H0, H1 in Hs.
  - by rewrite Hbd.
  - by rewrite Hbd.
  - destruct (binding_store_refines store_new 0 (ex_value 4)) as (s & g & Hs & Hsok & _ & Hsv & _);
      [apply store_new_ok|done|by apply ex_value_ok|done|].
    destruct (binding_store_refines s 1 (ex_value 4)) as (s' & g' & Hs' & _ & _ & Hsv' & _ & _ & Hgok & Hg1 & Hg);
      [done|done|by apply ex_value_ok|vm_compute in Hs; injection Hs as <-; vm_compute; done|].
    split; [exact H1|]. split.
    { destruct (H2 0) as [n Hn]; [lia|]. rewrite Hrow in Hn. exists n. exact Hn. }
    split; [vm_compute; reflexivity|]. exists s, s'. split; [exact Hs|]. split; [exact Hs'|].
    destruct (fo_rows _ Hgok 0) as (b & Hb & _ & Hbok); [lia|]. assert (b = store_view s') as -> by congruence.
    apply (H4 _ (ex_value 4)); [done| |]; rewrite Hsv'; unfold extend; simpl; rewrite ?Hsv; done.
Defined.
