(* ===== verification/TribleIndex.v ===== *)
(** * TribleIndex: the segments of rows behind the six indexes

    The prefix queries of [PatchQueries], read in terms of entity, attribute
    and value: an index of order [x y z] lists, for a prefix that ends at a
    segment boundary, the distinct next segments of the rows that carry the
    prefix, counts them, and decides whether any row carries it. *)

From S2P Require Import Prelude Lex OwnerCover ByteTable KeySchema PatchHash Branch Head Algebra.
From S2P Require Import Overlap Canonical XorDigest Patch Queries PatchQueries Machine Trible TribleSet.

Open Scope nat_scope.

Inductive position := E | A | V.

(** The bytes of a row at a position. *)
Definition at_pos (x : position) (row : list N) : list N :=
  match x with
  | E => segment E_START E_END row
  | A => segment A_START A_END row
  | V => segment V_START V_END row
  end.
Definition pos_len (x : position) : nat := match x with V => INLINE_LEN | _ => ID_LEN end.

Lemma at_pos_ok x row : bytes_ok TRIBLE_LEN row → bytes_ok (pos_len x) (at_pos x row).
Proof.
  intros Hr. destruct x; [apply (bytes_ok_segment _ _ E_START E_END Hr)|apply (bytes_ok_segment _ _ A_START A_END Hr)
    |apply (bytes_ok_segment _ _ V_START V_END Hr)]; vm_compute; lia.
Qed.

Lemma at_pos_len x row : bytes_ok TRIBLE_LEN row → length (at_pos x row) = pos_len x.
Proof. intros Hr. apply (at_pos_ok x row Hr). Qed.

(** ** The layout of an order *)

Record layout (O : KeySchema TRIBLE_LEN) (x y z : position) : Prop := {
  ly_table : TREE_TO_KEY (KeySchema:=O) = concat ((λ p, seq (match p with E => 0 | A => 16 | V => 32 end) (pos_len p)) <$> [x; y; z]);
  ly_total : pos_len x + pos_len y + pos_len z = TRIBLE_LEN;
  ly_first : segment_assert (O:=O) 0 (pos_len x) = Some tt ∧ prefix_assert (O:=O) 0 = Some tt;
  ly_second : segment_assert (O:=O) (pos_len x) (pos_len y) = Some tt ∧ prefix_assert (O:=O) (pos_len x) = Some tt;
  ly_third : segment_assert (O:=O) (pos_len x + pos_len y) (pos_len z) = Some tt ∧
    prefix_assert (O:=O) (pos_len x + pos_len y) = Some tt;
}.

Lemma eav_layout : layout EAVOrder E A V.
Proof. split; try split; vm_compute; reflexivity. Qed.
Lemma eva_layout : layout EVAOrder E V A.
Proof. split; try split; vm_compute; reflexivity. Qed.
Lemma aev_layout : layout AEVOrder A E V.
Proof. split; try split; vm_compute; reflexivity. Qed.
Lemma ave_layout : layout AVEOrder A V E.
Proof. split; try split; vm_compute; reflexivity. Qed.
Lemma vea_layout : layout VEAOrder V E A.
Proof. split; try split; vm_compute; reflexivity. Qed.
Lemma vae_layout : layout VAEOrder V A E.
Proof. split; try split; vm_compute; reflexivity. Qed.

Section layout.
Context (O : KeySchema TRIBLE_LEN) `{!KeySchemaOk TRIBLE_LEN O} (x y z : position) (Hly : layout O x y z).
Implicit Type row : list N.

Definition tree_row row : list N := at_pos x row ++ at_pos y row ++ at_pos z row.

Lemma tree_row_ok row : bytes_ok TRIBLE_LEN row → length (tree_row row) = TRIBLE_LEN.
Proof.
  intros Hr. unfold tree_row. rewrite !length_app, !at_pos_len by done. rewrite <- (ly_total _ _ _ _ Hly). lia.
Qed.

Lemma tree_row_tb row d : bytes_ok TRIBLE_LEN row → d < TRIBLE_LEN → tree_row row !! d = Some (tb (O:=O) row d).
Proof.
  intros Hr Hd. rewrite <- (tree_byte_tb (O:=O) row d) by (done || by apply key_ok_bytes).
  assert (tree_row row = (λ i, row !!! i) <$> TREE_TO_KEY (KeySchema:=O)) as ->.
  { assert (∀ a n, a + n <= TRIBLE_LEN → take n (drop a row) = (λ i, row !!! i) <$> seq a n) as Hseg.
    { intros a n Hn. apply list_eq. intros i. rewrite list_lookup_fmap. pose proof (bo_len _ _ Hr).
      destruct (decide (i < n)).
      - rewrite lookup_take_lt, lookup_drop, lookup_seq_lt by done. simpl. apply list_lookup_lookup_total_lt. lia.
      - rewrite lookup_take_ge, lookup_seq_ge by lia. done. }
    rewrite (ly_table _ _ _ _ Hly). unfold tree_row. simpl. rewrite app_nil_r, !fmap_app.
    assert (∀ p, at_pos p row = (λ i, row !!! i) <$> seq (match p with E => 0 | A => 16 | V => 32 end) (pos_len p)) as Hp.
    { intros [| |]; apply Hseg; unfold TRIBLE_LEN, ID_LEN, INLINE_LEN; simpl; unfold TRIBLE_LEN, ID_LEN, INLINE_LEN; lia. }
    by rewrite !Hp. }
  unfold tree_byte. rewrite list_lookup_fmap. destruct (t2k_lookup (O:=O) d Hd) as (i & -> & Hi). simpl.
  symmetry. apply list_lookup_lookup_total_lt. by rewrite (bo_len _ _ Hr).
Qed.

Lemma tree_row_ordered row : bytes_ok TRIBLE_LEN row → tree_ordered (O:=O) row = Some (tree_row row).
Proof.
  intros Hr. destruct (tree_ordered_spec (O:=O) row) as (t & -> & Ht & Hd); [by apply key_ok_bytes|]. f_equal.
  pose proof (key_len _ _ Ht) as Hl. apply list_eq_same_length with TRIBLE_LEN; [by apply tree_row_ok|done|].
  intros i b c Hi Hb Hc. rewrite tree_row_tb in Hc by done. injection Hc as <-. rewrite <- Hd by done.
  by rewrite nth_lookup, Hb.
Qed.

Lemma tree_row_infix row m n : bytes_ok TRIBLE_LEN row → m + n <= TRIBLE_LEN →
  key_infix (O:=O) row m n = take n (drop m (tree_row row)).
Proof.
  intros Hr Hn. pose proof (tree_row_ok row Hr) as Hl. apply list_eq. intros i. destruct (decide (i < n)).
  - rewrite key_infix_lookup, lookup_take_lt, lookup_drop by done. symmetry. apply tree_row_tb; [done|lia].
  - rewrite lookup_take_ge by lia. unfold key_infix. by rewrite list_lookup_fmap, lookup_seq_ge by lia.
Qed.

Lemma tree_row_prefix row q : bytes_ok TRIBLE_LEN row →
  tree_prefix (O:=O) row q ↔ take (length q) (tree_row row) = q.
Proof. intros Hr. unfold tree_prefix. rewrite tree_row_ordered by done. naive_solver. Qed.

(** ** Prefixes that end at segment boundaries *)

Lemma tree_take row : bytes_ok TRIBLE_LEN row →
  take (pos_len x) (tree_row row) = at_pos x row ∧
  take (pos_len x + pos_len y) (tree_row row) = at_pos x row ++ at_pos y row ∧
  take TRIBLE_LEN (tree_row row) = at_pos x row ++ at_pos y row ++ at_pos z row.
Proof.
  intros Hr. pose proof (at_pos_len x row Hr) as Hx. pose proof (at_pos_len y row Hr) as Hy.
  split_and!.
  - unfold tree_row. by rewrite take_app_length' by done.
  - unfold tree_row. rewrite (app_assoc (at_pos x row)), take_app_length'; [done|]. rewrite length_app. lia.
  - by rewrite take_ge by by rewrite tree_row_ok.
Qed.

Lemma tree_drop row : bytes_ok TRIBLE_LEN row →
  take (pos_len x) (drop 0 (tree_row row)) = at_pos x row ∧
  take (pos_len y) (drop (pos_len x) (tree_row row)) = at_pos y row ∧
  take (pos_len z) (drop (pos_len x + pos_len y) (tree_row row)) = at_pos z row.
Proof.
  intros Hr. pose proof (at_pos_len x row Hr) as Hx. pose proof (at_pos_len y row Hr) as Hy.
  pose proof (at_pos_len z row Hr) as Hz. unfold tree_row. split_and!.
  - rewrite drop_0. by rewrite take_app_length' by done.
  - rewrite drop_app_length' by done. by rewrite take_app_length' by done.
  - rewrite (app_assoc (at_pos x row)), drop_app_length' by (rewrite length_app; lia). by rewrite take_ge by lia.
Qed.
End layout.

(** ** The queries of one index *)

Section queries.
Context (O : KeySchema TRIBLE_LEN) `{!KeySchemaOk TRIBLE_LEN O} (x y z : position) (Hly : layout O x y z).
Context (sip : list N → N) (rand_hash : N → N).
Abbreviation policy := (XorSip128 sip).
#[local] Hint Extern 0 PatchHash => exact policy : typeclass_instances.
#[local] Hint Extern 0 (PatchHashOk _) => exact (XorSip128_ok sip) : typeclass_instances.
Context (p : index) (K : gset (list N)) (g : option OwnerCover).
Context (Hp : index_ok (O:=O) sip rand_hash p K g) (HK : ∀ k, k ∈ K → bytes_ok TRIBLE_LEN k).

(** [l] lists the segments at [w] of the rows that satisfy [P], each once. *)
Definition lists_pos (l : list (list N)) (P : list N → Prop) (w : position) : Prop :=
  NoDup l ∧ ∀ s, s ∈ l ↔ ∃ k, k ∈ K ∧ P k ∧ at_pos w k = s.

Lemma infixes_at q n w (P : list N → Prop) :
  segment_assert (O:=O) (length q) n = Some tt → prefix_assert (O:=O) (length q) = Some tt →
  length q + n <= TRIBLE_LEN →
  (∀ k, k ∈ K → take (length q) (tree_row x y z k) = q ↔ P k) →
  (∀ k, k ∈ K → take n (drop (length q) (tree_row x y z k)) = at_pos w k) →
  ∃ l, infixes (O:=O) (KEY_LEN:=TRIBLE_LEN) rand_hash p q n = Some l ∧
    segmented_len (O:=O) (KEY_LEN:=TRIBLE_LEN) rand_hash p q = Some (N.of_nat (length l)) ∧ lists_pos l P w.
Proof.
  intros Hs Hpre Hn HP Hw. destruct Hp as [Hok Hdom _].
  destruct (segmented_len_refines (H:=policy) rand_hash tt p q n Hok Hs Hpre) as (l & Hl & Hlen).
  destruct (infixes_run (H:=policy) rand_hash tt p q n Hok Hs) as (l' & Hl' & [Hnd Hel] & _).
  assert (l' = l) as -> by congruence. exists l. split; [done|]. split; [done|]. split; [done|].
  intros s. rewrite Hel. rewrite Hdom. split.
  - intros (k & Hk & Hpr & ->). exists k. rewrite (tree_row_prefix O x y z Hly) in Hpr by auto.
    split; [done|]. split; [by apply HP|]. by rewrite (tree_row_infix O x y z Hly), Hw by auto.
  - intros (k & Hk & Hpr & <-). exists k. split; [done|]. split.
    + rewrite (tree_row_prefix O x y z Hly) by auto. by apply HP.
    + by rewrite (tree_row_infix O x y z Hly), Hw by auto.
Qed.

Lemma list_first :
  ∃ l, infixes (O:=O) (KEY_LEN:=TRIBLE_LEN) rand_hash p [] (pos_len x) = Some l ∧
    segmented_len (O:=O) (KEY_LEN:=TRIBLE_LEN) rand_hash p [] = Some (N.of_nat (length l)) ∧ lists_pos l (λ _, True) x.
Proof.
  destruct (ly_first _ _ _ _ Hly) as [H1 H2]. pose proof (ly_total _ _ _ _ Hly).
  apply infixes_at; [done..|simpl; lia| |]; intros k Hk.
  - done.
  - apply (tree_drop x y z); auto.
Qed.

Lemma list_second u : length u = pos_len x →
  ∃ l, infixes (O:=O) (KEY_LEN:=TRIBLE_LEN) rand_hash p u (pos_len y) = Some l ∧
    segmented_len (O:=O) (KEY_LEN:=TRIBLE_LEN) rand_hash p u = Some (N.of_nat (length l)) ∧
    lists_pos l (λ k, at_pos x k = u) y.
Proof.
  intros Hu. destruct (ly_second _ _ _ _ Hly) as [H1 H2]. pose proof (ly_total _ _ _ _ Hly).
  apply infixes_at; rewrite ?Hu; [done..|lia| |]; intros k Hk.
  - by destruct (tree_take O x y z Hly k (HK k Hk)) as (-> & _).
  - apply (tree_drop x y z); auto.
Qed.

Lemma list_third u w : length u = pos_len x → length w = pos_len y →
  ∃ l, infixes (O:=O) (KEY_LEN:=TRIBLE_LEN) rand_hash p (u ++ w) (pos_len z) = Some l ∧
    segmented_len (O:=O) (KEY_LEN:=TRIBLE_LEN) rand_hash p (u ++ w) = Some (N.of_nat (length l)) ∧
    lists_pos l (λ k, at_pos x k = u ∧ at_pos y k = w) z.
Proof.
  intros Hu Hw. destruct (ly_third _ _ _ _ Hly) as [H1 H2]. pose proof (ly_total _ _ _ _ Hly).
  apply infixes_at; rewrite ?length_app, ?Hu, ?Hw; [done..|lia| |]; intros k Hk.
  - destruct (tree_take O x y z Hly k (HK k Hk)) as (_ & -> & _). split; [|by intros [-> ->]].
    apply app_inj_1. by rewrite at_pos_len by auto.
  - apply (tree_drop x y z); auto.
Qed.

Lemma has_prefix_at q (P : list N → Prop) : 0 < length q <= TRIBLE_LEN →
  (∀ k, k ∈ K → take (length q) (tree_row x y z k) = q ↔ P k) →
  ∃ r, has_prefix (O:=O) (KEY_LEN:=TRIBLE_LEN) rand_hash p q = Some r ∧ (r = true ↔ ∃ k, k ∈ K ∧ P k).
Proof.
  intros Hq HP. destruct Hp as [Hok Hdom _].
  destruct (patch_has_prefix_spec (H:=policy) (O:=O) rand_hash tt p q Hok) as (r & Hr & Hiff); [lia|].
  exists r. split; [done|]. rewrite Hiff, Hdom. split.
  - intros [(k & Hk & Hpr)|[_ ->]]; [|simpl in Hq; lia]. exists k. split; [done|]. apply HP; [done|].
    by rewrite <- (tree_row_prefix O x y z Hly) by auto.
  - intros (k & Hk & Hpr). left. exists k. split; [done|]. rewrite (tree_row_prefix O x y z Hly) by auto. by apply HP.
Qed.

Lemma has_first u : length u = pos_len x →
  ∃ r, has_prefix (O:=O) (KEY_LEN:=TRIBLE_LEN) rand_hash p u = Some r ∧ (r = true ↔ ∃ k, k ∈ K ∧ at_pos x k = u).
Proof.
  intros Hu. pose proof (ly_total _ _ _ _ Hly). apply has_prefix_at; rewrite ?Hu.
  - split; [destruct x; vm_compute; lia|lia].
  - intros k Hk. by destruct (tree_take O x y z Hly k (HK k Hk)) as (-> & _).
Qed.

Lemma has_second u w : length u = pos_len x → length w = pos_len y →
  ∃ r, has_prefix (O:=O) (KEY_LEN:=TRIBLE_LEN) rand_hash p (u ++ w) = Some r ∧
    (r = true ↔ ∃ k, k ∈ K ∧ at_pos x k = u ∧ at_pos y k = w).
Proof.
  intros Hu Hw. pose proof (ly_total _ _ _ _ Hly). apply has_prefix_at; rewrite ?length_app, ?Hu, ?Hw.
  - split; [destruct x; vm_compute; lia|lia].
  - intros k Hk. destruct (tree_take O x y z Hly k (HK k Hk)) as (_ & -> & _). split; [|by intros [-> ->]].
    apply app_inj_1. by rewrite at_pos_len by auto.
Qed.

Lemma has_third u w t : length u = pos_len x → length w = pos_len y → length t = pos_len z →
  ∃ r, has_prefix (O:=O) (KEY_LEN:=TRIBLE_LEN) rand_hash p (u ++ w ++ t) = Some r ∧
    (r = true ↔ ∃ k, k ∈ K ∧ at_pos x k = u ∧ at_pos y k = w ∧ at_pos z k = t).
Proof.
  intros Hu Hw Ht. pose proof (ly_total _ _ _ _ Hly) as Htot.
  assert (length (u ++ w ++ t) = TRIBLE_LEN) as Hl by (rewrite !length_app; lia).
  apply has_prefix_at; rewrite Hl; [unfold TRIBLE_LEN; lia|].
  intros k Hk. destruct (tree_take O x y z Hly k (HK k Hk)) as (_ & _ & ->). split; [|by intros (-> & -> & ->)].
  intros [-> E]%app_inj_1; [|by rewrite at_pos_len by auto]. apply app_inj_1 in E as [-> ->]; [done|].
  by rewrite at_pos_len by auto.
Qed.
End queries.
