(* ===== verification/TriblePattern.v ===== *)
(** * TriblePattern: the triple pattern over a trible set

    Source: [triblespace-core/src/trible/tribleset/triblesetconstraint.rs].

    Each position of the pattern is a variable or a constant; the six indexes
    answer whichever positions have values.  Batched calls group the rows of
    a frontier by their probe key.  The closures of the source push or judge one
    value: here an arm of the dispatch gives the list of pushed values, or the
    judging function.  Under the feature [parallel] a region divides at word
    boundaries: the halves run in sequence, [threads] is the size of the pool.

    A pattern is satisfied by an assignment of all its variables when the row it
    spells is in the set. *)

From S2P Require Import Prelude Lex OwnerCover ByteTable KeySchema PatchHash Branch Head Algebra.
From S2P Require Import Overlap Canonical XorDigest Patch Queries PatchQueries Machine Trible TribleSet.
From S2P Require Import VariableSet Liveness Query Constraints TribleIndex.

Open Scope nat_scope.

Definition SORTED_PROBE_MIN : nat := 2.
Definition PARALLEL_CONFIRM_MIN : nat := 1024.

(** ** Judging the entries of a range *)

(** [memo]: the last value judged, with its verdict. *)
Definition retain_step (keep : RawInline → res bool) (st : Candidates * option (RawInline * bool)) (i : nat)
    : res (Candidates * option (RawInline * bool)) :=
  let '(cands, memo) := st in
  alive ← cd_is_live cands i;
  if negb alive then Some (cands, memo) else
  value ← cd_values cands !! i;
  '(verdict, memo) ←
    match memo with
    | Some (seen, verdict) =>
        if decide (seen = value) then Some (verdict, memo)
        else verdict ← keep value; Some (verdict, Some (value, verdict))
    | None => verdict ← keep value; Some (verdict, Some (value, verdict))
    end;
  if negb verdict then cands ← cd_kill cands i; Some (cands, memo) else Some (cands, memo).

Definition retain_range (cands : Candidates) (start stop : nat) (keep : RawInline → res bool) : res Candidates :=
  '(cands, _) ← foldM (retain_step keep) (cands, None) (seq start (stop - start));
  Some cands.

Definition kill_range (cands : Candidates) (start stop : nat) : res Candidates :=
  foldM cd_kill cands (seq start (stop - start)).

(** ** The pattern *)

Record TribleSetConstraint := mkPattern { term_e : RawTerm; term_a : RawTerm; term_v : RawTerm; in_set : TribleSet }.

(** The id at a position: a value that is no id refutes the row. *)
Inductive IdBound := Malformed | Unbound | Bound (id : list N).

Definition id_bound (t : RawTerm) (b : Binding) : res IdBound :=
  o ← position_value t b;
  Some (match o with
        | Some value => match id_from_value value with Some id => Bound id | None => Malformed end
        | None => Unbound
        end).

(** The ids and the value at the positions; [None]: one of the ids is malformed. *)
Definition bounds (c : TribleSetConstraint) (b : Binding)
    : res (option (option (list N) * option (list N) * option RawInline)) :=
  e ← id_bound (term_e c) b;
  match e with
  | Malformed => Some None
  | _ =>
      a ← id_bound (term_a c) b;
      match a with
      | Malformed => Some None
      | _ =>
          v ← position_value (term_v c) b;
          let id x := match x with Bound id => Some id | _ => None end in
          Some (Some (id e, id a, v))
      end
  end.

(** A closure that starts by reading the value as an id. *)
Definition with_id (keep : list N → res bool) (value : RawInline) : res bool :=
  match id_from_value value with Some id => keep id | None => Some false end.

(** [for] each listed item that passes, push its embedding. *)
Fixpoint push_if (keep : list N → res bool) (l : list (list N)) : res (list RawInline) :=
  match l with
  | [] => Some []
  | x :: l => k ← keep x; rest ← push_if keep l; Some (if (k : bool) then id_into_value x :: rest else rest)
  end.

Section ops.
Context (sip : list N → N) (rand_hash : N → N).
Abbreviation policy := (XorSip128 sip).
#[local] Hint Extern 0 PatchHash => exact policy : typeclass_instances.
Abbreviation has O := (has_prefix (O:=O) (KEY_LEN:=TRIBLE_LEN) rand_hash).
Abbreviation ids O p q := (infixes (O:=O) (KEY_LEN:=TRIBLE_LEN) rand_hash p q ID_LEN).
Abbreviation values O p q := (infixes (O:=O) (KEY_LEN:=TRIBLE_LEN) rand_hash p q INLINE_LEN).
Abbreviation count O p q := (segmented_len (O:=O) (KEY_LEN:=TRIBLE_LEN) rand_hash p q).
Abbreviation push_ids r := (ids ← r; Some (id_into_value <$> ids)).
Implicit Types (c : TribleSetConstraint) (s : TribleSet).

Definition judge s (e_bound a_bound : option (list N)) (v_bound : option RawInline) (e_var a_var v_var : bool)
    : res (RawInline → res bool) :=
  match e_bound, a_bound, v_bound, e_var, a_var, v_var with
  | None, None, None, true, false, false => Some (with_id (λ id, has EAVOrder (eav s) id))
  | None, None, None, false, true, false => Some (with_id (λ id, has AEVOrder (aev s) id))
  | None, None, None, false, false, true => Some (λ value, has VEAOrder (vea s) value)
  | Some e, None, None, false, true, false => Some (with_id (λ id, has EAVOrder (eav s) (e ++ id)))
  | Some e, None, None, false, false, true => Some (λ value, has EVAOrder (eva s) (e ++ value))
  | None, Some a, None, true, false, false => Some (with_id (λ id, has AEVOrder (aev s) (a ++ id)))
  | None, Some a, None, false, false, true => Some (λ value, has AVEOrder (ave s) (a ++ value))
  | None, None, Some v, true, false, false => Some (with_id (λ id, has VEAOrder (vea s) (v ++ id)))
  | None, None, Some v, false, true, false => Some (with_id (λ id, has VAEOrder (vae s) (v ++ id)))
  | None, Some a, Some v, true, false, false => Some (with_id (λ id, has AVEOrder (ave s) (a ++ v ++ id)))
  | Some e, None, Some v, false, true, false => Some (with_id (λ id, has EVAOrder (eva s) (e ++ v ++ id)))
  | Some e, Some a, None, false, false, true => Some (λ value, has EAVOrder (eav s) (e ++ a ++ value))
  | _, Some a, _, true, false, true => Some (with_id (λ id, has EAVOrder (eav s) (id ++ a ++ id_into_value id)))
  | _, None, _, true, false, true => Some (with_id (λ id, has EVAOrder (eva s) (id ++ id_into_value id)))
  | _, _, Some v, true, true, false => Some (with_id (λ id, has EAVOrder (eav s) (id ++ id ++ v)))
  | _, _, None, true, true, false => Some (with_id (λ id, has EAVOrder (eav s) (id ++ id)))
  | Some e, _, _, false, true, true => Some (with_id (λ id, has EAVOrder (eav s) (e ++ id ++ id_into_value id)))
  | None, _, _, false, true, true => Some (with_id (λ id, has AVEOrder (ave s) (id ++ id_into_value id)))
  | _, _, _, true, true, true => Some (with_id (λ id, has EAVOrder (eav s) (id ++ id ++ id_into_value id)))
  | _, _, _, _, _, _ => None
  end.

Definition is_variable c (variable : VariableId) : bool * bool * bool :=
  (is_var (term_e c) variable, is_var (term_a c) variable, is_var (term_v c) variable).

Definition confirm_at c (variable : VariableId) (binding : Binding) (cands : Candidates) (start stop : nat)
    : res Candidates :=
  let '(e_var, a_var, v_var) := is_variable c variable in
  if negb e_var && negb a_var && negb v_var then Some cands else
  o ← bounds c binding;
  match o with
  | None => kill_range cands start stop
  | Some (e_bound, a_bound, v_bound) =>
      keep ← judge (in_set c) e_bound a_bound v_bound e_var a_var v_var;
      retain_range cands start stop keep
  end.

(** The exclusive end of the run of label [label] from [i] on; [n] entries are left. *)
Fixpoint run_end_from (group parents : list N) (label : N) (i n : nat) : res nat :=
  match n with
  | 0 => Some i
  | S n =>
      parent ← parents !! i;
      l ← group !! N.to_nat parent;
      if (l =? label)%N then run_end_from group parents label (S i) n else Some i
  end.

Definition grouped_step c (variable : VariableId) (f : Frontier) (group : list N) (st : Candidates * nat)
    : res (Candidates * nat + Candidates) :=
  let '(cands, run_start) := st in
  if cd_len cands <=? run_start then Some (inr cands) else
  lead ← cd_parent cands run_start;
  label ← group !! N.to_nat lead;
  run_end ← run_end_from group (cd_parents cands) label (S run_start) (cd_len cands - S run_start);
  binding ← f_row f (N.to_nat lead);
  cands ← confirm_at c variable binding cands run_start run_end;
  Some (inl (cands, run_end)).

Definition confirm_grouped c (variable : VariableId) (f : Frontier) (group : list N) (cands : Candidates)
    : res Candidates :=
  loopM (grouped_step c variable f group) (S (cd_len cands)) (cands, 0).

(** The halves own disjoint words of the region; [fuel] bounds the divisions. *)
Fixpoint confirm_parallel (threads : nat) c (variable : VariableId) (f : Frontier) (group : list N) (fuel : nat)
    (cands : Candidates) : res Candidates :=
  match fuel with
  | 0 => None
  | S fuel =>
      if (cd_len cands <? PARALLEL_CONFIRM_MIN) || (threads =? 1) then
        confirm_grouped c variable f group cands
      else
        let midpoint := cd_bit_offset cands + cd_len cands / 2 in
        let boundary := midpoint / LIVENESS_WORD_BITS * LIVENESS_WORD_BITS in
        let mid := boundary - cd_bit_offset cands in
        if (mid =? 0) || (cd_len cands <=? mid) then confirm_grouped c variable f group cands
        else
          '(lo, hi) ← cd_split_at_word_boundary cands mid;
          lo ← confirm_parallel threads c variable f group fuel lo;
          hi ← confirm_parallel threads c variable f group fuel hi;
          Some (with_words cands (cd_words lo ++ cd_words hi))
  end.

(** The values one row proposes, in the order of the pushes. *)
Definition row_values s (e_bound a_bound : option (list N)) (v_bound : option RawInline) (e_var a_var v_var : bool)
    : res (list RawInline) :=
  match e_bound, a_bound, v_bound, e_var, a_var, v_var with
  | None, None, None, true, false, false => push_ids (ids EAVOrder (eav s) [])
  | None, None, None, false, true, false => push_ids (ids AEVOrder (aev s) [])
  | None, None, None, false, false, true => values VEAOrder (vea s) []
  | Some e, None, None, false, true, false => push_ids (ids EAVOrder (eav s) e)
  | Some e, None, None, false, false, true => values EVAOrder (eva s) e
  | None, Some a, None, true, false, false => push_ids (ids AEVOrder (aev s) a)
  | None, Some a, None, false, false, true => values AVEOrder (ave s) a
  | None, None, Some v, true, false, false => push_ids (ids VEAOrder (vea s) v)
  | None, None, Some v, false, true, false => push_ids (ids VAEOrder (vae s) v)
  | None, Some a, Some v, true, false, false => push_ids (ids AVEOrder (ave s) (a ++ v))
  | Some e, None, Some v, false, true, false => push_ids (ids EVAOrder (eva s) (e ++ v))
  | Some e, Some a, None, false, false, true => values EAVOrder (eav s) (e ++ a)
  | _, Some a, _, true, false, true =>
      l ← ids AEVOrder (aev s) a; push_if (λ e, has EAVOrder (eav s) (e ++ a ++ id_into_value e)) l
  | _, None, _, true, false, true =>
      l ← ids EAVOrder (eav s) []; push_if (λ e, has EVAOrder (eva s) (e ++ id_into_value e)) l
  | _, _, Some v, true, true, false =>
      l ← ids VAEOrder (vae s) v; push_if (λ a, has EAVOrder (eav s) (a ++ a ++ v)) l
  | _, _, None, true, true, false =>
      l ← ids AEVOrder (aev s) []; push_if (λ a, has EAVOrder (eav s) (a ++ a)) l
  | Some e, _, _, false, true, true =>
      l ← ids EAVOrder (eav s) e; push_if (λ a, has EAVOrder (eav s) (e ++ a ++ id_into_value a)) l
  | None, _, _, false, true, true =>
      l ← ids AEVOrder (aev s) []; push_if (λ a, has AVEOrder (ave s) (a ++ id_into_value a)) l
  | _, _, _, true, true, true =>
      l ← ids EAVOrder (eav s) []; push_if (λ e, has EAVOrder (eav s) (e ++ e ++ id_into_value e)) l
  | _, _, _, _, _, _ => None
  end.

Definition propose_row c (variable : VariableId) (binding : Binding) (proposals : ProposalBuffer)
    : res ProposalBuffer :=
  let '(e_var, a_var, v_var) := is_variable c variable in
  if negb e_var && negb a_var && negb v_var then Some proposals else
  o ← bounds c binding;
  match o with
  | None => Some proposals
  | Some (e_bound, a_bound, v_bound) =>
      l ← row_values (in_set c) e_bound a_bound v_bound e_var a_var v_var;
      pb_extend proposals l
  end.

Definition touches c (variable : VariableId) : bool :=
  is_var (term_e c) variable || is_var (term_a c) variable || is_var (term_v c) variable.

Definition write_probe_key c (binding : Binding) (out : list N) : res (list N) :=
  foldM (λ out term,
    o ← position_value term binding;
    Some (match o with Some value => out ++ value | None => out end)) out [term_e c; term_a c; term_v c].

(** The order [sort_unstable_by] establishes on row numbers. *)
Definition by_key (key : N → list N) : relation N :=
  λ a b, match lex_cmp (key a) (key b) with Lt => True | Gt => False | Eq => (a <= b)%N end.
#[global] Instance by_key_dec key : RelDecision (by_key key).
Proof. intros a b. unfold by_key. destruct (lex_cmp _ _); apply _. Defined.

(** The label of position [i] of the order: a new one when the key changes. *)
Definition label_step (order : list N) (key : N → list N) (st : list N * N) (i : nat) : res (list N * N) :=
  let '(group, label) := st in
  this ← order !! i;
  before ← order !! (i - 1);
  let label := if decide (key this = key before) then label else (label + 1)%N in
  group ← arr_set group (N.to_nat this) label;
  Some (group, label).

Definition probe_groups c (f : Frontier) : res (list N * list N) :=
  let rows := f_len f in
  let order := N.of_nat <$> seq 0 (N.to_nat (as_u32 rows)) in
  if rows <? SORTED_PROBE_MIN then Some (order, order) else
  keys ← foldM (λ keys row, binding ← f_row f row; write_probe_key c binding keys) [] (seq 0 rows);
  let stride := length keys / rows in
  let key row := take stride (drop (N.to_nat row * stride) keys) in
  let order := if negb (stride =? 0) then merge_sort (by_key key) order else order in
  '(group, _) ← foldM (label_step order key) (replicate rows 0%N, 0%N) (seq 1 (rows - 1));
  Some (group, order).

Definition variables c : VariableSet :=
  add_to (term_v c) (add_to (term_a c) (add_to (term_e c) new_empty)).

Definition row_count s (e_bound a_bound : option (list N)) (v_bound : option RawInline) (e_var a_var v_var : bool)
    : res N :=
  match e_bound, a_bound, v_bound, e_var, a_var, v_var with
  | None, None, None, true, false, false => count EAVOrder (eav s) []
  | None, None, None, false, true, false => count AEVOrder (aev s) []
  | None, None, None, false, false, true => count VEAOrder (vea s) []
  | Some e, None, None, false, true, false => count EAVOrder (eav s) e
  | Some e, None, None, false, false, true => count EVAOrder (eva s) e
  | None, Some a, None, true, false, false => count AEVOrder (aev s) a
  | None, Some a, None, false, false, true => count AVEOrder (ave s) a
  | None, None, Some v, true, false, false => count VEAOrder (vea s) v
  | None, None, Some v, false, true, false => count VAEOrder (vae s) v
  | None, Some a, Some v, true, false, false => count AVEOrder (ave s) (a ++ v)
  | Some e, None, Some v, false, true, false => count EVAOrder (eva s) (e ++ v)
  | Some e, Some a, None, false, false, true => count EAVOrder (eav s) (e ++ a)
  | _, Some a, _, true, false, true => count AEVOrder (aev s) a
  | _, None, _, true, false, true => count EAVOrder (eav s) []
  | _, _, Some v, true, true, false => count VAEOrder (vae s) v
  | _, _, None, true, true, false => count AEVOrder (aev s) []
  | Some e, _, _, false, true, true => count EAVOrder (eav s) e
  | None, _, _, false, true, true => count AEVOrder (aev s) []
  | _, _, _, true, true, true => count EAVOrder (eav s) []
  | _, _, _, _, _, _ => None
  end.

Definition estimate c (variable : VariableId) (binding : Binding) : res (option N) :=
  let '(e_var, a_var, v_var) := is_variable c variable in
  if negb e_var && negb a_var && negb v_var then Some None else
  o ← bounds c binding;
  match o with
  | None => Some (Some 0%N)
  | Some (e_bound, a_bound, v_bound) =>
      n ← row_count (in_set c) e_bound a_bound v_bound e_var a_var v_var; Some (Some n)
  end.

(** One run of equal labels in [order]. *)
Definition propose_step c (variable : VariableId) (f : Frontier) (group order : list N)
    (st : ProposalBuffer * nat) : res (ProposalBuffer * nat + ProposalBuffer) :=
  let '(proposals, run_start) := st in
  let rows := f_len f in
  if rows <=? run_start then Some (inr proposals) else
  lead ← order !! run_start;
  label ← group !! N.to_nat lead;
  run_end ← run_end_from group order label (S run_start) (rows - S run_start);
  let base := pb_len proposals in
  binding ← f_row f (N.to_nat lead);
  proposals ← propose_row c variable binding (pb_open proposals lead);
  proposals ←
    (if 1 <? run_end - run_start then
       let shared := drop base (pb_entries proposals) in
       others ← slice_range order (S run_start) run_end;
       foldM (λ proposals row, pb_extend_from_slice (pb_open proposals row) shared) proposals others
     else Some proposals);
  Some (inl (proposals, run_end)).

Definition propose c (variable : VariableId) (f : Frontier) (proposals : ProposalBuffer) : res ProposalBuffer :=
  if (f_len f =? 0) || negb (touches c variable) then Some proposals else
  '(group, order) ← probe_groups c f;
  loopM (propose_step c variable f group order) (S (f_len f)) (proposals, 0).

(** [parallel]: whether the crate is built with that feature. *)
Definition confirm (parallel : bool) (threads : nat) c (variable : VariableId) (f : Frontier) (cands : Candidates)
    : res Candidates :=
  if (cd_len cands =? 0) || f_is_empty f || negb (touches c variable) then Some cands else
  '(group, _) ← probe_groups c f;
  if parallel && f_parallel f then confirm_parallel threads c variable f group (S (cd_len cands)) cands
  else confirm_grouped c variable f group cands.

Definition satisfied c (binding : Binding) : res bool :=
  e ← position_value (term_e c) binding;
  a ← position_value (term_a c) binding;
  v ← position_value (term_v c) binding;
  match e, a, v with
  | Some e_raw, Some a_raw, Some v_raw =>
      match id_from_value e_raw with
      | None => Some false
      | Some e =>
          match id_from_value a_raw with
          | None => Some false
          | Some a => has EAVOrder (eav (in_set c)) (e ++ a ++ v_raw)
          end
      end
  | _, _, _ => Some true
  end.

Definition constraint (parallel : bool) (threads : nat) c : Constraint :=
  mkConstraint (variables c) (estimate c) (propose c) (confirm parallel threads c) (satisfied c)
    (default_influence (variables c)).
End ops.

(** ** What the pattern means *)

(** The value an assignment gives a term. *)
Definition term_val (t : RawTerm) (a : asg) : option RawInline :=
  match t with Var v => a v | Const x => Some x end.
Definition term_ok (t : RawTerm) : Prop := match t with Var v => (v < 128)%N | Const x => value_ok x end.

Definition term_at (c : TribleSetConstraint) (p : position) : RawTerm :=
  match p with E => term_e c | A => term_a c | V => term_v c end.
(** The value a row has at a position. *)
Definition value_at (p : position) (row : list N) : RawInline :=
  match p with V => at_pos V row | _ => id_into_value (at_pos p row) end.

Definition agrees (t : RawTerm) (a : asg) (x : RawInline) : Prop := ∀ y, term_val t a = Some y → y = x.

(** No position of the row contradicts the assignment. *)
Definition spells (c : TribleSetConstraint) (a : asg) (row : list N) : Prop :=
  ∀ p, agrees (term_at c p) a (value_at p row).

Definition has_row (K : gset (list N)) (c : TribleSetConstraint) (a : asg) : Prop := ∃ k, k ∈ K ∧ spells c a k.

(** Once all positions have values, a row spells them. *)
Definition pattern_sat (K : gset (list N)) (c : TribleSetConstraint) (a : asg) : Prop :=
  (∀ p, is_Some (term_val (term_at c p) a)) → has_row K c a.

Definition pattern_ok (c : TribleSetConstraint) : Prop := ∀ p, term_ok (term_at c p).

(** ** Values at positions *)

Lemma id_into_value_inj i j : id_into_value i = id_into_value j → i = j.
Proof. unfold id_into_value. by intros ?%app_inv_head. Qed.

Lemma id_value_ok i : bytes_ok ID_LEN i → value_ok (id_into_value i).
Proof.
  intros Hi. apply (bytes_ok_app 16 16); [|done]. split; [done|]. by apply Forall_replicate.
Qed.

Lemma value_at_ok p row : bytes_ok TRIBLE_LEN row → value_ok (value_at p row).
Proof.
  intros Hr. destruct p; [by apply id_value_ok, (at_pos_ok E)|by apply id_value_ok, (at_pos_ok A)|by apply (at_pos_ok V)].
Qed.

Lemma id_from_value_cases x : value_ok x →
  match id_from_value x with
  | Some i => x = id_into_value i ∧ bytes_ok ID_LEN i
  | None => ∀ i, length i = ID_LEN → x ≠ id_into_value i
  end.
Proof.
  intros [Hl Hb]. destruct (id_from_value x) as [i|] eqn:E.
  - assert (i = take 16 (drop 16 x)) as Ei.
    { unfold id_from_value in E. case_decide; [|done]. by simplify_eq. }
    assert (bytes_ok ID_LEN i) as Hi.
    { subst i. split; [rewrite length_take, length_drop, Hl; done|]. by apply Forall_take, Forall_drop. }
    split; [|done]. by apply id_value_spec; [apply Hi|done|].
  - intros i Hi Hx. apply id_value_spec in Hx; [congruence|done..].
Qed.

Lemma position_value_spec t b : binding_ok b → term_ok t →
  position_value t b = Some (term_val t (bval b)) ∧ ∀ x, term_val t (bval b) = Some x → value_ok x.
Proof.
  intros Hb Ht. destruct t as [v|x]; simpl in *.
  - split; [by apply bval_get|]. intros x Hx. by apply (bval_ok b Hb v).
  - split; [done|]. by intros y [= <-].
Qed.

Lemma agrees_extend t a v x y : a v = None →
  agrees t (extend a v x) y ↔ if is_var t v then x = y else agrees t a y.
Proof.
  intros Hn. unfold agrees, extend. destruct t as [w|z]; simpl; [|done].
  destruct (N.eqb_spec w v) as [->|Hne]; [|done]. split; [intros H; by apply H|by intros -> ? [= ->]].
Qed.

(** ** The bound positions *)

Definition pinned (o : option (list N)) (s : list N) : Prop := match o with Some i => s = i | None => True end.

Record bounds_ok (c : TribleSetConstraint) (a : asg) (eb ab : option (list N)) (vb : option RawInline) : Prop := {
  bk_e : ∀ s, length s = ID_LEN → agrees (term_e c) a (id_into_value s) ↔ pinned eb s;
  bk_a : ∀ s, length s = ID_LEN → agrees (term_a c) a (id_into_value s) ↔ pinned ab s;
  bk_v : ∀ s, agrees (term_v c) a s ↔ pinned vb s;
  bk_elen : ∀ i, eb = Some i → length i = ID_LEN;
  bk_alen : ∀ i, ab = Some i → length i = ID_LEN;
  bk_vlen : ∀ i, vb = Some i → length i = INLINE_LEN;
  bk_free : (term_val (term_e c) a = None → eb = None) ∧ (term_val (term_a c) a = None → ab = None) ∧
    (term_val (term_v c) a = None → vb = None);
}.

Lemma id_bound_spec t b : binding_ok b → term_ok t → ∃ o, id_bound t b = Some o ∧
  match o with
  | Malformed => ∀ s, length s = ID_LEN → ¬ agrees t (bval b) (id_into_value s)
  | Unbound => term_val t (bval b) = None
  | Bound i => length i = ID_LEN ∧ term_val t (bval b) = Some (id_into_value i)
  end.
Proof.
  intros Hb Ht. destruct (position_value_spec t b Hb Ht) as [Hp Hok]. unfold id_bound. rewrite Hp. simpl.
  eexists. split; [done|]. destruct (term_val t (bval b)) as [x|] eqn:Ex; [|done].
  pose proof (id_from_value_cases x (Hok x eq_refl)) as Hc. destruct (id_from_value x) as [i|].
  - destruct Hc as [-> Hi]. split; [apply Hi|done].
  - intros s Hs Ha. by apply (Hc s Hs), Ha.
Qed.

Lemma agrees_None t a y : term_val t a = None → agrees t a y ↔ True.
Proof. intros E. unfold agrees. rewrite E. split; done. Qed.
Lemma agrees_Some t a x y : term_val t a = Some x → agrees t a y ↔ y = x.
Proof. intros E. unfold agrees. rewrite E. split; [intros H; symmetry; by apply H|by intros -> ? [= ->]]. Qed.
Lemma into_value_eq i j : id_into_value i = id_into_value j ↔ i = j.
Proof. split; [apply id_into_value_inj|by intros ->]. Qed.

Lemma bounds_spec c b : binding_ok b → pattern_ok c → ∃ o, bounds c b = Some o ∧
  match o with
  | None => ∀ k, bytes_ok TRIBLE_LEN k → ¬ spells c (bval b) k
  | Some (eb, ab, vb) => bounds_ok c (bval b) eb ab vb
  end.
Proof.
  intros Hb Hc. unfold bounds. destruct (id_bound_spec (term_e c) b Hb (Hc E)) as (e & -> & He). cbn [mbind option_bind].
  destruct (id_bound_spec (term_a c) b Hb (Hc A)) as (a & Ha' & Ha).
  destruct (position_value_spec (term_v c) b Hb (Hc V)) as [Hv Hvok].
  assert (∀ x, agrees (term_v c) (bval b) x ↔ pinned (term_val (term_v c) (bval b)) x) as Hvv.
  { intros x. destruct (term_val (term_v c) (bval b)) eqn:Ev; [by apply agrees_Some|by apply agrees_None]. }
  assert (∀ i, term_val (term_v c) (bval b) = Some i → length i = INLINE_LEN) as Hvl by (intros i Hi; apply (Hvok i Hi)).
  destruct e as [| |e].
  { eexists. split; [done|]. simpl. intros k Hk Hs. apply (He (at_pos E k)); [by apply (at_pos_len E)|apply (Hs E)]. }
  all: rewrite Ha'; cbn [mbind option_bind]; destruct a as [| |a];
    [eexists; split; [done|]; simpl; intros k Hk Hs; apply (Ha (at_pos A k)); [by apply (at_pos_len A)|apply (Hs A)]| |];
    rewrite Hv; cbn [mbind option_bind]; eexists; (split; [done|]); simpl; split; try done; try naive_solver.
  all: intros s Hs; simpl; rewrite ?(agrees_Some _ _ _ _ (proj2 He)), ?(agrees_Some _ _ _ _ (proj2 Ha)), ?into_value_eq;
    try done; rewrite ?(agrees_None _ _ _ He), ?(agrees_None _ _ _ Ha); done.
Qed.

(** ** The arms *)

(** What an arm with these bounds looks for: rows with [x] at the positions of
    the variable and the given values at the others. *)
Definition wanted (eb ab : option (list N)) (vb : option RawInline) (ev av vv : bool) (x : RawInline) (k : list N) : Prop :=
  (if ev then x = id_into_value (at_pos E k) else pinned eb (at_pos E k)) ∧
  (if av then x = id_into_value (at_pos A k) else pinned ab (at_pos A k)) ∧
  (if vv then x = at_pos V k else pinned vb (at_pos V k)).

Lemma spells_extend c a v x k eb ab vb : a v = None → bounds_ok c a eb ab vb → bytes_ok TRIBLE_LEN k →
  spells c (extend a v x) k ↔
  wanted eb ab vb (is_var (term_e c) v) (is_var (term_a c) v) (is_var (term_v c) v) x k.
Proof.
  intros Hn Hb Hk. assert (∀ p, agrees (term_at c p) (extend a v x) (value_at p k) ↔
    if is_var (term_at c p) v then x = value_at p k else agrees (term_at c p) a (value_at p k)) as Hp.
  { intros p. by apply agrees_extend. }
  pose proof (bk_e _ _ _ _ _ Hb (at_pos E k) (at_pos_len E k Hk)) as He.
  pose proof (bk_a _ _ _ _ _ Hb (at_pos A k) (at_pos_len A k Hk)) as Ha.
  pose proof (bk_v _ _ _ _ _ Hb (at_pos V k)) as Hv. unfold wanted. split.
  - intros Hs. pose proof (proj1 (Hp E) (Hs E)) as H1. pose proof (proj1 (Hp A) (Hs A)) as H2.
    pose proof (proj1 (Hp V) (Hs V)) as H3. simpl in *.
    destruct (is_var (term_e c) v), (is_var (term_a c) v), (is_var (term_v c) v); rewrite <- ?He, <- ?Ha, <- ?Hv; done.
  - intros (H1 & H2 & H3) p. apply Hp. destruct p; simpl.
    + destruct (is_var (term_e c) v); [done|by apply He].
    + destruct (is_var (term_a c) v); [done|by apply Ha].
    + destruct (is_var (term_v c) v); [done|by apply Hv].
Qed.

Section lists.
Context (K : gset (list N)) (Q : RawInline → list N → Prop) (P : list N → Prop).

Lemma listed_ids l w : lists_pos K l P w → (∀ x k, k ∈ K → Q x k ↔ P k ∧ x = id_into_value (at_pos w k)) →
  NoDup (id_into_value <$> l) ∧ ∀ x, x ∈ id_into_value <$> l ↔ ∃ k, k ∈ K ∧ Q x k.
Proof.
  intros [Hnd Hin] HQ. split.
  - apply NoDup_fmap_2_strong; [|done]. intros i j _ _. apply id_into_value_inj.
  - intros x. rewrite list_elem_of_fmap. setoid_rewrite Hin. split.
    + intros (i & -> & k & Hk & HP & <-). exists k. split; [done|]. by apply HQ.
    + intros (k & Hk & Hq). apply HQ in Hq as [HP ->]; [|done]. eauto 10.
Qed.

Lemma listed_values l w : lists_pos K l P w → (∀ x k, k ∈ K → Q x k ↔ P k ∧ x = at_pos w k) →
  NoDup l ∧ ∀ x, x ∈ l ↔ ∃ k, k ∈ K ∧ Q x k.
Proof.
  intros [Hnd Hin] HQ. split; [done|]. intros x. rewrite Hin. split.
  - intros (k & Hk & HP & <-). exists k. split; [done|]. by apply HQ.
  - intros (k & Hk & Hq). apply HQ in Hq as [HP ->]; [|done]. eauto.
Qed.

(** Listed ids that pass a test of the index. *)
Lemma listed_if l w (keep : list N → res bool) : lists_pos K l P w → w ≠ V → (∀ k, k ∈ K → bytes_ok TRIBLE_LEN k) →
  (∀ i, length i = ID_LEN → ∃ r, keep i = Some r ∧ (r = true ↔ ∃ k, k ∈ K ∧ Q (id_into_value i) k)) →
  (∀ x k, k ∈ K → Q x k → P k ∧ x = id_into_value (at_pos w k)) →
  ∃ out, push_if keep l = Some out ∧ length out <= length l ∧ NoDup out ∧ ∀ x, x ∈ out ↔ ∃ k, k ∈ K ∧ Q x k.
Proof.
  intros [Hnd Hin] Hw HK Hkeep HQ.
  assert (∀ l', (∀ i, i ∈ l' → length i = ID_LEN) → NoDup l' → ∃ out, push_if keep l' = Some out ∧
    length out <= length l' ∧ NoDup out ∧ ∀ x, x ∈ out ↔ ∃ i, i ∈ l' ∧ x = id_into_value i ∧ ∃ k, k ∈ K ∧ Q x k) as Hgen.
  { induction l' as [|i l' IH]; intros Hlen Hnd'.
    { exists []. split_and!; [done..|constructor|]. intros x. rewrite elem_of_nil. split; [done|].
      by intros (i & ?%not_elem_of_nil & _). }
    apply NoDup_cons in Hnd' as [Hi Hnd']. destruct IH as (out & Ho & Hlo & Hndo & Hino); [set_solver|done|].
    destruct (Hkeep i) as (r & Hr & Hiff); [apply Hlen; by left|]. cbn [push_if]. rewrite Hr. cbn [mbind option_bind].
    rewrite Ho. cbn [mbind option_bind]. exists (if r then id_into_value i :: out else out). split; [done|].
    destruct r.
    - split_and!; [simpl; lia| |].
      + apply NoDup_cons. split; [|done]. rewrite Hino. intros (j & Hj & E' & _). by apply id_into_value_inj in E' as ->.
      + intros x. rewrite elem_of_cons, Hino. split.
        * intros [->|(j & Hj & Hx & Hk)]; [|exists j; split; [by right|done]]. exists i. split; [by left|].
          split; [done|]. by apply Hiff.
        * intros (j & [->|Hj]%elem_of_cons & -> & Hk); [by left|right; eauto].
    - split_and!; [simpl; lia|done|]. intros x. rewrite Hino. split.
      + intros (j & Hj & Hx & Hk). exists j. split; [by right|done].
      + intros (j & [->|Hj]%elem_of_cons & -> & Hk); [by apply Hiff in Hk|eauto]. }
  destruct (Hgen l) as (out & Ho & Hlo & Hndo & Hino); [|done|].
  { intros i (k & Hk & _ & <-)%Hin. rewrite at_pos_len by auto. by destruct w. }
  exists out. split_and!; [done..|]. intros x. rewrite Hino. split; [by intros (i & _ & _ & ?)|].
  intros (k & Hk & Hq). destruct (HQ x k Hk Hq) as [HP ->]. exists (at_pos w k). split; [by apply Hin; eauto|]. eauto.
Qed.
End lists.

Section arms.
Context (sip : list N → N) (rand_hash : N → N) (s : TribleSet) (Hs : ts_ok sip rand_hash s).
Abbreviation policy := (XorSip128 sip).
#[local] Hint Extern 0 PatchHash => exact policy : typeclass_instances.
#[local] Hint Extern 0 (PatchHashOk _) => exact (XorSip128_ok sip) : typeclass_instances.
#[local] Existing Instances eav_ok eva_ok aev_ok ave_ok vea_ok vae_ok.
Abbreviation K := (rows sip s).

Lemma rows_ok k : k ∈ K → bytes_ok TRIBLE_LEN k.
Proof. intros Hk. by apply (h_rows _ _ _ _ _ Hs). Qed.

Definition arm_ok (Q : RawInline → list N → Prop) (tight : bool) (r : res (list RawInline)) (n : res N) : Prop :=
  ∃ l m, r = Some l ∧ n = Some m ∧ NoDup l ∧ (∀ x, x ∈ l ↔ ∃ k, k ∈ K ∧ Q x k) ∧
    (N.of_nat (length l) <= m)%N ∧ (tight = true → m = N.of_nat (length l)).

Lemma arm_ids Q tight P l w r n : lists_pos K l P w → r = Some (id_into_value <$> l) → n = Some (N.of_nat (length l)) →
  (∀ x k, k ∈ K → Q x k ↔ P k ∧ x = id_into_value (at_pos w k)) → arm_ok Q tight r n.
Proof.
  intros Hl -> -> HQ. destruct (listed_ids K Q P l w Hl HQ) as [Hnd Hin]. eexists _, _. split; [done|]. split; [done|].
  rewrite length_fmap. split_and!; done.
Qed.

Lemma arm_values Q tight P l w r n : lists_pos K l P w → r = Some l → n = Some (N.of_nat (length l)) →
  (∀ x k, k ∈ K → Q x k ↔ P k ∧ x = at_pos w k) → arm_ok Q tight r n.
Proof.
  intros Hl -> -> HQ. destruct (listed_values K Q P l w Hl HQ) as [Hnd Hin]. eexists _, _. split; [done|]. split; [done|].
  split_and!; done.
Qed.

Lemma arm_if Q P l w keep r n : lists_pos K l P w → w ≠ V → r = push_if keep l → n = Some (N.of_nat (length l)) →
  (∀ i, length i = ID_LEN → ∃ r, keep i = Some r ∧ (r = true ↔ ∃ k, k ∈ K ∧ Q (id_into_value i) k)) →
  (∀ x k, k ∈ K → Q x k → P k ∧ x = id_into_value (at_pos w k)) → arm_ok Q false r n.
Proof.
  intros Hl Hw -> -> Hkeep HQ. destruct (listed_if K Q P l w keep Hl Hw rows_ok Hkeep HQ) as (out & -> & Hle & Hnd & Hin).
  eexists _, _. split; [done|]. split; [done|]. split_and!; [done|done|lia|done].
Qed.

(** The queries of the six indexes. *)
Ltac on_eav f := f EAVOrder E A V eav_layout (h_eav _ _ _ _ _ Hs).
Ltac on_eva f := f EVAOrder E V A eva_layout (h_eva _ _ _ _ _ Hs).
Ltac on_aev f := f AEVOrder A E V aev_layout (h_aev _ _ _ _ _ Hs).
Ltac on_ave f := f AVEOrder A V E ave_layout (h_ave _ _ _ _ _ Hs).
Ltac on_vea f := f VEAOrder V E A vea_layout (h_vea _ _ _ _ _ Hs).
Ltac on_vae f := f VAEOrder V A E vae_layout (h_vae _ _ _ _ _ Hs).

(** Close an arm with the listing of an index: [fin] handles what is listed. *)
Ltac listing fin L := let l := fresh "l" in destruct L as (l & Hl & Hn & Hlp);
  cbn [pos_len] in Hl, Hn; rewrite Hl, Hn; cbn [mbind option_bind]; fin Hlp.
Ltac first_of fin O x y z ly h := listing fin (list_first O x y z ly sip rand_hash _ _ _ h rows_ok).
Ltac second_of fin u O x y z ly h := listing fin (list_second O x y z ly sip rand_hash _ _ _ h rows_ok u ltac:(eauto)).
Ltac third_of fin u w O x y z ly h := listing fin (list_third O x y z ly sip rand_hash _ _ _ h rows_ok u w ltac:(eauto) ltac:(eauto)).
Ltac by_cases := split; intros; destruct_and?; subst; split_and?; (done || congruence).
Ltac by_rows := intros x k Hk; unfold wanted, pinned; cbv beta iota; by_cases || (intros; destruct_and?; subst; split_and?; (done || congruence)).
Ltac as_ids Hlp := eapply arm_ids; [exact Hlp|reflexivity|reflexivity|by_rows].
Ltac as_values Hlp := eapply arm_values; [exact Hlp|reflexivity|reflexivity|by_rows].
Ltac tested t Hlp := eapply arm_if; [exact Hlp|discriminate|reflexivity|reflexivity|intros i Hi; t i|by_rows].
Ltac verdict L := destruct L as (r & Hr & Hiff); exists r; split; [exact Hr|]; rewrite Hiff; apply exist_proper; intros k;
  apply and_iff_compat_l; unfold wanted, pinned; cbv beta iota; rewrite ?into_value_eq; by_cases.
Ltac second_is u w O x y z ly h := verdict (has_second O x y z ly sip rand_hash _ _ _ h rows_ok u w ltac:(eauto) ltac:(eauto)).
Ltac third_is u w t O x y z ly h :=
  verdict (has_third O x y z ly sip rand_hash _ _ _ h rows_ok u w t ltac:(eauto) ltac:(eauto) ltac:(eauto)).

Lemma id_value_len i : length i = ID_LEN → length (id_into_value i) = INLINE_LEN.
Proof. intros Hi. unfold id_into_value. by rewrite length_app, length_replicate, Hi. Qed.
#[local] Hint Resolve id_value_len : core.

Lemma arms_spec eb ab vb (ev av vv : bool) : ev || av || vv = true →
  (ev = true → eb = None) → (av = true → ab = None) → (vv = true → vb = None) →
  (∀ i, eb = Some i → length i = ID_LEN) → (∀ i, ab = Some i → length i = ID_LEN) → (∀ i, vb = Some i → length i = INLINE_LEN) →
  arm_ok (wanted eb ab vb ev av vv) (negb (ev && av || ev && vv || av && vv))
    (row_values sip rand_hash s eb ab vb ev av vv) (row_count sip rand_hash s eb ab vb ev av vv).
Proof.
  intros Hany He Ha Hv Hel Hal Hvl.
  destruct ev; [rewrite He by done|]; (destruct av; [rewrite Ha by done|]); (destruct vv; [rewrite Hv by done|]); try discriminate Hany;
    clear He Ha Hv Hany; unfold row_values, row_count; cbn [andb orb negb].
  - on_eav ltac:(first_of ltac:(fun H => tested ltac:(fun i => on_eav ltac:(third_is i i (id_into_value i))) H)).
  - destruct vb as [v|].
    + specialize (Hvl v eq_refl). on_vae ltac:(second_of ltac:(fun H => tested ltac:(fun i => on_eav ltac:(third_is i i v)) H) v).
    + on_aev ltac:(first_of ltac:(fun H => tested ltac:(fun i => on_eav ltac:(second_is i i)) H)).
  - destruct ab as [a|].
    + specialize (Hal a eq_refl).
      on_aev ltac:(second_of ltac:(fun H => tested ltac:(fun i => on_eav ltac:(third_is i a (id_into_value i))) H) a).
    + on_eav ltac:(first_of ltac:(fun H => tested ltac:(fun i => on_eva ltac:(second_is i (id_into_value i))) H)).
  - destruct ab as [a|], vb as [v|]; try specialize (Hal a eq_refl); try specialize (Hvl v eq_refl).
    + on_ave ltac:(third_of as_ids a v).
    + on_aev ltac:(second_of as_ids a).
    + on_vea ltac:(second_of as_ids v).
    + on_eav ltac:(first_of as_ids).
  - destruct eb as [e|].
    + specialize (Hel e eq_refl).
      on_eav ltac:(second_of ltac:(fun H => tested ltac:(fun i => on_eav ltac:(third_is e i (id_into_value i))) H) e).
    + on_aev ltac:(first_of ltac:(fun H => tested ltac:(fun i => on_ave ltac:(second_is i (id_into_value i))) H)).
  - destruct eb as [e|], vb as [v|]; try specialize (Hel e eq_refl); try specialize (Hvl v eq_refl).
    + on_eva ltac:(third_of as_ids e v).
    + on_eav ltac:(second_of as_ids e).
    + on_vae ltac:(second_of as_ids v).
    + on_aev ltac:(first_of as_ids).
  - destruct eb as [e|], ab as [a|]; try specialize (Hel e eq_refl); try specialize (Hal a eq_refl).
    + on_eav ltac:(third_of as_values e a).
    + on_eva ltac:(second_of as_values e).
    + on_ave ltac:(second_of as_values a).
    + on_vea ltac:(first_of as_values).
Qed.

(** The judging function decides whether a wanted row exists. *)
Definition judges (Q : RawInline → list N → Prop) (r : res (RawInline → res bool)) : Prop :=
  ∃ keep, r = Some keep ∧ ∀ x, value_ok x → ∃ b, keep x = Some b ∧ (b = true ↔ ∃ k, k ∈ K ∧ Q x k).

Lemma judge_id Q (keep : list N → res bool) : (∀ x k, k ∈ K → Q x k → ∃ i, x = id_into_value i ∧ length i = ID_LEN) →
  (∀ i, length i = ID_LEN → ∃ b, keep i = Some b ∧ (b = true ↔ ∃ k, k ∈ K ∧ Q (id_into_value i) k)) →
  judges Q (Some (with_id keep)).
Proof.
  intros HQ Hkeep. eexists. split; [done|]. intros x Hx. unfold with_id. pose proof (id_from_value_cases x Hx) as Hc.
  destruct (id_from_value x) as [i|].
  - destruct Hc as [-> Hi]. apply Hkeep, Hi.
  - exists false. split; [done|]. split; [done|]. intros (k & Hk & Hq). destruct (HQ x k Hk Hq) as (i & -> & Hi).
    by destruct (Hc i Hi).
Qed.

Lemma judge_value Q (keep : RawInline → res bool) :
  (∀ x, length x = INLINE_LEN → ∃ b, keep x = Some b ∧ (b = true ↔ ∃ k, k ∈ K ∧ Q x k)) → judges Q (Some keep).
Proof. intros Hkeep. eexists. split; [done|]. intros x Hx. apply Hkeep, Hx. Qed.

Lemma at_id_len k (w : position) : k ∈ K → w ≠ V → length (at_pos w k) = ID_LEN.
Proof. intros Hk Hw. rewrite at_pos_len by by apply rows_ok. by destruct w. Qed.

Ltac is_id := let x := fresh in let k := fresh in let Hk := fresh in
  intros x k Hk; unfold wanted, pinned; cbv beta iota; intros (? & ? & ?);
  first [exists (at_pos E k); split; [assumption|by apply at_id_len]|exists (at_pos A k); split; [assumption|by apply at_id_len]].
Ltac ids_judged t := apply judge_id; [is_id|intros i Hi; t i].
Ltac values_judged t := apply judge_value; intros i Hi; t i.
Ltac first_is u O x y z ly h := verdict (has_first O x y z ly sip rand_hash _ _ _ h rows_ok u ltac:(eauto)).

Lemma judge_spec eb ab vb (ev av vv : bool) : ev || av || vv = true →
  (ev = true → eb = None) → (av = true → ab = None) → (vv = true → vb = None) →
  (∀ i, eb = Some i → length i = ID_LEN) → (∀ i, ab = Some i → length i = ID_LEN) → (∀ i, vb = Some i → length i = INLINE_LEN) →
  judges (wanted eb ab vb ev av vv) (judge sip rand_hash s eb ab vb ev av vv).
Proof.
  intros Hany He Ha Hv Hel Hal Hvl.
  destruct ev; [rewrite He by done|]; (destruct av; [rewrite Ha by done|]); (destruct vv; [rewrite Hv by done|]); try discriminate Hany;
    clear He Ha Hv Hany; unfold judge.
  - ids_judged ltac:(fun i => on_eav ltac:(third_is i i (id_into_value i))).
  - destruct vb as [v|]; [specialize (Hvl v eq_refl)|].
    + ids_judged ltac:(fun i => on_eav ltac:(third_is i i v)).
    + ids_judged ltac:(fun i => on_eav ltac:(second_is i i)).
  - destruct ab as [a|]; [specialize (Hal a eq_refl)|].
    + ids_judged ltac:(fun i => on_eav ltac:(third_is i a (id_into_value i))).
    + ids_judged ltac:(fun i => on_eva ltac:(second_is i (id_into_value i))).
  - destruct ab as [a|], vb as [v|]; try specialize (Hal a eq_refl); try specialize (Hvl v eq_refl).
    + ids_judged ltac:(fun i => on_ave ltac:(third_is a v i)).
    + ids_judged ltac:(fun i => on_aev ltac:(second_is a i)).
    + ids_judged ltac:(fun i => on_vea ltac:(second_is v i)).
    + ids_judged ltac:(fun i => on_eav ltac:(first_is i)).
  - destruct eb as [e|]; [specialize (Hel e eq_refl)|].
    + ids_judged ltac:(fun i => on_eav ltac:(third_is e i (id_into_value i))).
    + ids_judged ltac:(fun i => on_ave ltac:(second_is i (id_into_value i))).
  - destruct eb as [e|], vb as [v|]; try specialize (Hel e eq_refl); try specialize (Hvl v eq_refl).
    + ids_judged ltac:(fun i => on_eva ltac:(third_is e v i)).
    + ids_judged ltac:(fun i => on_eav ltac:(second_is e i)).
    + ids_judged ltac:(fun i => on_vae ltac:(second_is v i)).
    + ids_judged ltac:(fun i => on_aev ltac:(first_is i)).
  - destruct eb as [e|], ab as [a|]; try specialize (Hel e eq_refl); try specialize (Hal a eq_refl).
    + values_judged ltac:(fun i => on_eav ltac:(third_is e a i)).
    + values_judged ltac:(fun i => on_eva ltac:(second_is e i)).
    + values_judged ltac:(fun i => on_ave ltac:(second_is a i)).
    + values_judged ltac:(fun i => on_vea ltac:(first_is i)).
Qed.
End arms.

(** ** Deciding whether a row exists *)

#[global] Instance agrees_dec t a x : Decision (agrees t a x).
Proof.
  destruct (term_val t a) as [y|] eqn:Ey.
  - destruct (decide (x = y)) as [->|Hne]; [left; by apply (agrees_Some _ _ y)|right; by rewrite (agrees_Some _ _ y)].
  - left. by apply agrees_None.
Defined.
#[global] Instance spells_dec c a k : Decision (spells c a k).
Proof.
  destruct (decide (agrees (term_e c) a (value_at E k))) as [He|He]; [|right; intros Hs; apply He, (Hs E)].
  destruct (decide (agrees (term_a c) a (value_at A k))) as [Ha|Ha]; [|right; intros Hs; apply Ha, (Hs A)].
  destruct (decide (agrees (term_v c) a (value_at V k))) as [Hv|Hv]; [|right; intros Hs; apply Hv, (Hs V)].
  left. by intros [| |].
Defined.
#[global] Instance has_row_dec K c a : Decision (has_row K c a).
Proof.
  refine (cast_if (decide (Exists (spells c a) (base.elements K)))); rewrite Exists_exists in *; unfold has_row; set_solver.
Defined.

Lemma agrees_mono t a a' x : asg_sub a a' → agrees t a' x → agrees t a x.
Proof. intros Hsub Ha y Hy. apply Ha. destruct t; [by apply Hsub|done]. Qed.
Lemma spells_mono c a a' k : asg_sub a a' → spells c a' k → spells c a k.
Proof. intros Hsub Hs p. by eapply agrees_mono. Qed.
Lemma has_row_mono K c a a' : asg_sub a a' → has_row K c a' → has_row K c a.
Proof. intros Hsub (k & Hk & Hs). exists k. split; [done|]. by eapply spells_mono. Qed.

(** Rows that agree on the positions agree on every extension. *)
Definition same_terms (c : TribleSetConstraint) (a a' : asg) : Prop :=
  ∀ p, term_val (term_at c p) a = term_val (term_at c p) a'.

Lemma has_row_same K c a a' v x : same_terms c a a' → has_row K c (extend a v x) ↔ has_row K c (extend a' v x).
Proof.
  intros Hsame. apply exist_proper. intros k. apply and_iff_compat_l. unfold spells. apply forall_proper. intros p.
  unfold agrees. specialize (Hsame p). destruct (term_at c p) as [w|y]; simpl in *; [|done].
  unfold extend. destruct (w =? v)%N; [done|]. by rewrite Hsame.
Qed.

(** ** Ranges *)

Definition in_range (start stop i : nat) : bool := (start <=? i) && (i <? stop).

Lemma retain_fold keep (k : RawInline → bool) n : ∀ c start memo, cd_ok c → start + n <= cd_len c →
  (∀ x, x ∈ cd_values c → keep x = Some (k x)) → (∀ x b, memo = Some (x, b) → b = k x) →
  ∃ c' memo', foldM (retain_step keep) (c, memo) (seq start n) = Some (c', memo') ∧
    killed c (λ i, negb (in_range start (start + n) i) || k (cand_value c i)) c'.
Proof.
  induction n as [|n IH]; intros c start memo Hc Hn Hkeep Hmemo; simpl.
  { exists c, memo. split; [done|]. apply killed_refl; [done|]. intros i Hi _. unfold in_range.
    destruct (Nat.leb_spec start i), (Nat.ltb_spec i (start + 0)); (done || lia). }
  rewrite cd_is_live_spec by (done || lia). cbn [mbind option_bind].
  assert (∃ c1 memo1, (if negb (live_at c start) then Some (c, memo) else
      value ← cd_values c !! start;
      '(verdict, memo) ← match memo with
        | Some (seen, verdict) => if decide (seen = value) then Some (verdict, memo)
            else verdict ← keep value; Some (verdict, Some (value, verdict))
        | None => verdict ← keep value; Some (verdict, Some (value, verdict)) end;
      if negb verdict then cands ← cd_kill c start; Some (cands, memo) else Some (c, memo)) = Some (c1, memo1) ∧
    killed c (λ i, negb (i =? start) || k (cand_value c i)) c1 ∧ ∀ x b, memo1 = Some (x, b) → b = k x)
    as (c1 & memo1 & -> & Hk1 & Hm1).
  { destruct (live_at c start) eqn:Hlive; cbn [negb].
    2: { exists c, memo. split_and!; [done| |done]. apply killed_refl; [done|]. intros i Hi Hl.
      destruct (Nat.eqb_spec i start); [congruence|done]. }
    rewrite cand_value_lookup by lia. cbn [mbind option_bind]. set (x := cand_value c start).
    assert (keep x = Some (k x)) as Hx.
    { apply Hkeep, list_elem_of_lookup. exists start. apply cand_value_lookup. lia. }
    assert (∃ memo1, match memo with
        | Some (seen, verdict) => if decide (seen = x) then Some (verdict, memo)
            else verdict ← keep x; Some (verdict, Some (x, verdict))
        | None => verdict ← keep x; Some (verdict, Some (x, verdict)) end = Some (k x, memo1) ∧
      ∀ y b, memo1 = Some (y, b) → b = k y) as (memo1 & -> & Hm1).
    { rewrite Hx. cbn [mbind option_bind].
      assert (∀ y b, Some (x, k x) = Some (y, b) → b = k y) as Hnew by by intros y b [= -> <-].
      destruct memo as [[seen b]|]; [destruct (decide (seen = x)) as [->|]|]; eexists; (split; [|done]); try done.
      by rewrite (Hmemo x b). }
    cbn [mbind option_bind]. destruct (k x) eqn:Ekx; cbn [negb].
    - exists c, memo1. split_and!; [done| |done]. apply killed_refl; [done|]. intros i Hi _.
      destruct (Nat.eqb_spec i start) as [->|]; [|done]. fold x. by rewrite Ekx.
    - destruct (cd_kill_spec c start) as (c1 & -> & Hk); [done|lia|]. cbn [mbind option_bind].
      exists c1, memo1. split_and!; [done| |done]. eapply killed_ext; [done|]. intros i Hi _. cbv beta.
      destruct (Nat.eqb_spec i start) as [->|]; cbn [negb orb]; [|done]. fold x. by rewrite Ekx. }
  cbn [mbind option_bind]. pose proof (up_len _ _ _ Hk1) as Hl1.
  destruct (IH c1 (S start) memo1) as (c' & memo' & -> & Hk'); [by eapply updated_ok|lia|by rewrite (up_values _ _ _ Hk1)|done|].
  exists c', memo'. split; [done|]. eapply killed_ext; [by eapply killed_trans|]. intros i Hi _. cbv beta. unfold in_range.
  assert (cand_value c1 i = cand_value c i) as -> by (unfold cand_value; by rewrite (up_values _ _ _ Hk1)).
  destruct (Nat.eqb_spec i start), (Nat.leb_spec start i), (Nat.leb_spec (S start) i),
    (Nat.ltb_spec i (start + S n)), (Nat.ltb_spec i (S start + n)); subst; cbn [andb orb negb]; try lia; by rewrite ?andb_true_r.
Qed.

Lemma retain_range_spec c start stop keep (k : RawInline → bool) : cd_ok c → start <= stop <= cd_len c →
  (∀ x, x ∈ cd_values c → keep x = Some (k x)) →
  ∃ c', retain_range c start stop keep = Some c' ∧
    killed c (λ i, negb (in_range start stop i) || k (cand_value c i)) c'.
Proof.
  intros Hc Hr Hkeep. unfold retain_range.
  destruct (retain_fold keep k (stop - start) c start None) as (c' & memo & -> & Hk); [done|lia|done|done|].
  cbn [mbind option_bind]. exists c'. split; [done|]. by replace (start + (stop - start)) with stop in Hk by lia.
Qed.

Lemma kill_range_spec c start stop : cd_ok c → start <= stop <= cd_len c →
  ∃ c', kill_range c start stop = Some c' ∧ killed c (λ i, negb (in_range start stop i)) c'.
Proof.
  intros Hc Hr. unfold kill_range.
  destruct (fold_verdicts cd_kill (λ _, false) c start (stop - start)) as (c' & -> & Hk); [done|lia| |].
  - intros c1 i Hc1 Hv _ Hi. destruct (cd_kill_spec c1 i) as (c2 & -> & Hk); [done|unfold cd_len in *; rewrite Hv; lia|].
    exists c2. split; [done|]. eapply killed_ext; [done|]. intros. by rewrite orb_false_r.
  - exists c'. split; [done|]. eapply killed_ext; [done|]. intros i Hi _. cbv beta. rewrite orb_false_r. unfold in_range.
    by replace (start + (stop - start)) with stop by lia.
Qed.
