(* ===== verification/TriblePatternSpec.v ===== *)
(** * TriblePatternSpec: the triple pattern obeys the constraint protocol

    Rows of a frontier, probe groups and candidate regions of [TriblePattern]:
    grouped and divided calls answer every row as if it were alone, and the
    answers are the rows of the set. *)

From S2P Require Import Prelude Lex OwnerCover ByteTable KeySchema PatchHash Branch Head Algebra.
From S2P Require Import XorDigest Patch Queries PatchQueries Machine Trible TribleSet.
From S2P Require Import VariableSet Liveness Query Constraints TribleIndex TriblePattern.

Open Scope nat_scope.

Section pattern.
Context (sip : list N → N) (rand_hash : N → N) (c : TribleSetConstraint).
Context (Hs : ts_ok sip rand_hash (in_set c)) (Hc : pattern_ok c).
Abbreviation K := (rows sip (in_set c)).

(** ** One row *)

Lemma is_var_None t a v : a v = None → is_var t v = true → term_val t a = None.
Proof. intros Hn. destruct t as [w|]; simpl; [by intros ->%N.eqb_eq|done]. Qed.

(** The bounds of a row in which [v] is free fit the arms. *)
Lemma bounds_free a eb ab vb v : bounds_ok c a eb ab vb → a v = None →
  (is_var (term_e c) v = true → eb = None) ∧ (is_var (term_a c) v = true → ab = None) ∧ (is_var (term_v c) v = true → vb = None).
Proof.
  intros Hb Hn. destruct (bk_free _ _ _ _ _ Hb) as (H1 & H2 & H3).
  split_and!; intros Hv; [apply H1|apply H2|apply H3]; by eapply is_var_None.
Qed.

Lemma touches_any v : touches c v = true →
  is_var (term_e c) v || is_var (term_a c) v || is_var (term_v c) v = true ∧
  negb (is_var (term_e c) v) && negb (is_var (term_a c) v) && negb (is_var (term_v c) v) = false.
Proof. unfold touches. by destruct (is_var _ _), (is_var _ _), (is_var _ _). Qed.

Lemma has_row_wanted a v x eb ab vb : a v = None → bounds_ok c a eb ab vb →
  has_row K c (extend a v x) ↔
  ∃ k, k ∈ K ∧ wanted eb ab vb (is_var (term_e c) v) (is_var (term_a c) v) (is_var (term_v c) v) x k.
Proof.
  intros Hn Hb. split; intros (k & Hk & Hw); exists k; (split; [done|]);
    by apply (spells_extend c a v x k eb ab vb Hn Hb (rows_ok _ _ _ Hs k Hk)).
Qed.

Lemma has_row_malformed a v x : a v = None → (∀ k, bytes_ok TRIBLE_LEN k → ¬ spells c a k) → ¬ has_row K c (extend a v x).
Proof.
  intros Hn Hm (k & Hk & Hsp). apply (Hm k); [by apply (rows_ok _ _ _ Hs)|]. by eapply spells_mono; [apply extend_sub|].
Qed.

Lemma touches_at v : touches c v = true → ∃ p, is_var (term_at c p) v = true.
Proof.
  intros Ht. destruct (touches_any v Ht) as [Hany _]. destruct (is_var (term_e c) v) eqn:E1; [by exists E|].
  destruct (is_var (term_a c) v) eqn:E2; [by exists A|]. by exists V.
Qed.

Lemma has_row_value a v x : touches c v = true → a v = None → has_row K c (extend a v x) → value_ok x.
Proof.
  intros Ht Hn (k & Hk & Hsp). destruct (touches_at v Ht) as [p Hp].
  specialize (Hsp p). apply agrees_extend in Hsp; [|done]. rewrite Hp in Hsp. subst x.
  by apply value_at_ok, (rows_ok _ _ _ Hs).
Qed.

(** What a row proposes, and its estimate. *)
Definition answers (a : asg) (v : VariableId) (l : list RawInline) : Prop :=
  NoDup l ∧ ∀ x, x ∈ l ↔ has_row K c (extend a v x).

(** The variable stands at one position only. *)
Definition one_position (v : VariableId) : bool :=
  let '(e, a, v) := is_variable c v in negb (e && a || e && v || a && v).

Lemma row_spec v b : touches c v = true → binding_ok b → (v < 128)%N → is_set (b_bound b) v = false →
  ∃ l n, answers (bval b) v l ∧ estimate sip rand_hash c v b = Some (Some n) ∧ (N.of_nat (length l) <= n)%N ∧
    (one_position v = true → n = N.of_nat (length l)) ∧
    ∀ pb, propose_row sip rand_hash c v b pb = pb_extend pb l.
Proof.
  intros Ht Hb Hv Hu. destruct (touches_any v Ht) as [Hany Hnone]. pose proof (bval_unbound b v Hb Hv Hu) as Hn.
  unfold propose_row, estimate, one_position, is_variable. rewrite Hnone.
  destruct (bounds_spec c b Hb Hc) as (o & -> & Ho). cbn [mbind option_bind]. destruct o as [[[eb ab] vb]|].
  - destruct (bounds_free _ _ _ _ _ Ho Hn) as (F1 & F2 & F3).
    destruct (arms_spec sip rand_hash (in_set c) Hs eb ab vb _ _ _ Hany F1 F2 F3 (bk_elen _ _ _ _ _ Ho) (bk_alen _ _ _ _ _ Ho)
      (bk_vlen _ _ _ _ _ Ho)) as (l & m & -> & -> & Hnd & Hin & Hle & Ht').
    exists l, m. cbn [mbind option_bind]. split; [|by split_and!].
    split; [done|]. intros x. rewrite Hin. symmetry. by apply has_row_wanted.
  - exists [], 0%N. split; [|by split_and!]. split; [constructor|]. intros x.
    rewrite elem_of_nil. split; [done|]. by apply has_row_malformed.
Qed.

(** A range of candidates of one row. *)
Lemma confirm_at_spec v b f cands start stop : touches c v = true → binding_ok b → (v < 128)%N → is_set (b_bound b) v = false →
  cands_ok f cands → start <= stop <= cd_len cands →
  ∃ c', confirm_at sip rand_hash c v b cands start stop = Some c' ∧
    killed cands (λ i, negb (in_range start stop i) || bool_decide (has_row K c (extend (bval b) v (cand_value cands i)))) c'.
Proof.
  intros Ht Hb Hv Hu Hcs Hr. destruct (touches_any v Ht) as [Hany Hnone]. pose proof (bval_unbound b v Hb Hv Hu) as Hn.
  unfold confirm_at, is_variable. rewrite Hnone. destruct (bounds_spec c b Hb Hc) as (o & -> & Ho). cbn [mbind option_bind].
  destruct o as [[[eb ab] vb]|].
  - destruct (bounds_free _ _ _ _ _ Ho Hn) as (F1 & F2 & F3).
    destruct (judge_spec sip rand_hash (in_set c) Hs eb ab vb _ _ _ Hany F1 F2 F3 (bk_elen _ _ _ _ _ Ho) (bk_alen _ _ _ _ _ Ho)
      (bk_vlen _ _ _ _ _ Ho)) as (keep & -> & Hkeep). cbn [mbind option_bind].
    destruct (retain_range_spec cands start stop keep (λ x, bool_decide (has_row K c (extend (bval b) v x)))) as (c' & Hc' & Hk);
      [apply Hcs|done| |by exists c'].
    intros x Hx. destruct Hcs as (_ & _ & Hval). rewrite Forall_forall in Hval. destruct (Hkeep x (Hval x Hx)) as (r & -> & Hiff).
    f_equal. apply eq_true_iff_eq. rewrite Hiff, bool_decide_eq_true. symmetry. by apply has_row_wanted.
  - destruct (kill_range_spec cands start stop) as (c' & -> & Hk); [apply Hcs|done|]. exists c'. split; [done|].
    eapply killed_ext; [done|]. intros i Hi _. simpl. rewrite bool_decide_eq_false_2; [by rewrite orb_false_r|].
    by apply has_row_malformed.
Qed.

(** ** Probe keys *)

Definition probe_key (a : asg) : list N :=
  default [] (term_val (term_e c) a) ++ default [] (term_val (term_a c) a) ++ default [] (term_val (term_v c) a).

Lemma write_probe_key_spec b out : binding_ok b → write_probe_key c b out = Some (out ++ probe_key (bval b)).
Proof.
  intros Hb. unfold write_probe_key, probe_key. cbn [foldM].
  rewrite (proj1 (position_value_spec (term_e c) b Hb (Hc E))), (proj1 (position_value_spec (term_a c) b Hb (Hc A))),
    (proj1 (position_value_spec (term_v c) b Hb (Hc V))).
  destruct (term_val (term_e c) (bval b)), (term_val (term_a c) (bval b)), (term_val (term_v c) (bval b));
    cbn [mbind option_bind default from_option]; unfold id; rewrite ?app_nil_r, <- ?app_assoc; done.
Qed.

(** Rows of one frontier bind the same positions. *)
Definition same_shape (a a' : asg) : Prop :=
  ∀ p, length (default [] (term_val (term_at c p) a)) = length (default [] (term_val (term_at c p) a')) ∧
    (is_Some (term_val (term_at c p) a) ↔ is_Some (term_val (term_at c p) a')).

Lemma term_val_shape t f r r' : frontier_ok f → r < f_len f → r' < f_len f → term_ok t →
  (length (default [] (term_val t (fval f r))) = length (default [] (term_val t (fval f r'))) ∧
    (is_Some (term_val t (fval f r)) ↔ is_Some (term_val t (fval f r')))).
Proof.
  intros Hf Hr Hr' Ht. destruct (frontier_row f r Hf Hr) as (_ & Hb & Hok), (frontier_row f r' Hf Hr') as (_ & Hb' & Hok').
  destruct (position_value_spec t _ Hok Ht) as [_ Hv], (position_value_spec t _ Hok' Ht) as [_ Hv'].
  assert (is_Some (term_val t (fval f r)) ↔ is_Some (term_val t (fval f r'))) as Hiff.
  { destruct t as [w|x]; simpl; [|done]. unfold fval. rewrite !bval_bound, Hb, Hb' by done. done. }
  split; [|done]. unfold fval in *. destruct (term_val t (bval (frow f r))) as [x|] eqn:E1, (term_val t (bval (frow f r'))) as [y|] eqn:E2; simpl.
  - by rewrite (bo_len _ _ (Hv x eq_refl)), (bo_len _ _ (Hv' y eq_refl)).
  - destruct (proj1 Hiff) as [? ?]; [eauto|congruence].
  - destruct (proj2 Hiff) as [? ?]; [eauto|congruence].
  - done.
Qed.

Lemma probe_key_len f r r' : frontier_ok f → r < f_len f → r' < f_len f →
  length (probe_key (fval f r)) = length (probe_key (fval f r')).
Proof.
  intros Hf Hr Hr'. unfold probe_key. rewrite !length_app.
  destruct (term_val_shape (term_e c) f r r' Hf Hr Hr' (Hc E)) as [-> _].
  destruct (term_val_shape (term_a c) f r r' Hf Hr Hr' (Hc A)) as [-> _].
  by destruct (term_val_shape (term_v c) f r r' Hf Hr Hr' (Hc V)) as [-> _].
Qed.

(** The probe key is all a pattern reads of a row. *)
Lemma probe_key_same f r r' : frontier_ok f → r < f_len f → r' < f_len f →
  probe_key (fval f r) = probe_key (fval f r') → same_terms c (fval f r) (fval f r').
Proof.
  intros Hf Hr Hr' Ek. destruct (term_val_shape (term_e c) f r r' Hf Hr Hr' (Hc E)) as [Le Se].
  destruct (term_val_shape (term_a c) f r r' Hf Hr Hr' (Hc A)) as [La Sa].
  destruct (term_val_shape (term_v c) f r r' Hf Hr Hr' (Hc V)) as [Lv Sv].
  unfold probe_key in Ek. apply app_inj_1 in Ek as [E1 Ek]; [|done]. apply app_inj_1 in Ek as [E2 E3]; [|done].
  assert (∀ o o' : option RawInline, (is_Some o ↔ is_Some o') → default [] o = default [] o' → o = o') as Ho.
  { intros [x|] [y|] Hiff Hd; simpl in Hd; [by rewrite Hd|..|done].
    - destruct (proj1 Hiff) as [? ?]; [eauto|congruence].
    - destruct (proj2 Hiff) as [? ?]; [eauto|congruence]. }
  intros [| |]; simpl; by apply Ho.
Qed.

Lemma concat_slice {X} (l : list (list X)) st i x : (∀ y, y ∈ l → length y = st) → l !! i = Some x →
  take st (drop (i * st) (concat l)) = x.
Proof.
  revert i. induction l as [|y l IH]; intros [|i] Hl Hx; simplify_eq/=.
  - apply take_app_length'. symmetry. apply Hl. by left.
  - rewrite drop_app_ge by (rewrite (Hl y) by (by left); lia). rewrite (Hl y) by by left.
    replace (st + i * st - st) with (i * st) by lia. apply IH; [|done]. intros z Hz. apply Hl. by right.
Qed.

Lemma keys_fold f n : frontier_ok f → n <= f_len f →
  foldM (λ keys row, binding ← f_row f row; write_probe_key c binding keys) [] (seq 0 n) =
  Some (concat ((λ r, probe_key (fval f r)) <$> seq 0 n)).
Proof.
  intros Hf. induction n as [|n IH]; intros Hn; [done|]. rewrite seq_S, foldM_app, IH by lia.
  cbn [mbind option_bind foldM Nat.add]. destruct (frontier_row f n Hf) as (-> & _ & Hok); [lia|]. cbn [mbind option_bind].
  rewrite write_probe_key_spec by done. cbn [mbind option_bind]. rewrite fmap_app, concat_app. simpl. by rewrite app_nil_r.
Qed.

(** ** Labels *)

Section labels.
Context (order : list N) (rows : nat) (key : N → list N).
Hypothesis Hlen : length order = rows.
Hypothesis Hnd : NoDup order.
Hypothesis Hlt : ∀ r, r ∈ order → N.to_nat r < rows.

(** After position [m]: equal labels are equal keys, the last label is the largest. *)
Record labelled (m : nat) (group : list N) (label : N) : Prop := {
  lb_len : length group = rows;
  lb_last : ∀ r, order !! m = Some r → group !! N.to_nat r = Some label;
  lb_le : ∀ j r l, j <= m → order !! j = Some r → group !! N.to_nat r = Some l → (l <= label)%N;
  lb_same : ∀ i j r q l, i <= m → j <= m → order !! i = Some r → order !! j = Some q →
    group !! N.to_nat r = Some l → group !! N.to_nat q = Some l → key r = key q;
}.

Lemma labels_fold n : n < rows → ∃ group label,
  foldM (label_step order key) (replicate rows 0%N, 0%N) (seq 1 n) = Some (group, label) ∧ labelled n group label.
Proof.
  induction n as [|n IH]; intros Hn.
  { eexists _, _. split; [done|]. split.
    - apply length_replicate.
    - intros r Hr. apply lookup_replicate_2, Hlt. by eapply list_elem_of_lookup_2.
    - intros j r l _ _ Hl. apply lookup_replicate in Hl as [-> _]. done.
    - intros i j r q l Hi Hj Hr Hq _ _. assert (i = 0) as -> by lia. assert (j = 0) as -> by lia. congruence. }
  destruct IH as (group & label & Hfold & [L1 L2 L3 L4]); [lia|].
  rewrite seq_S, foldM_app, Hfold. cbn [mbind option_bind foldM label_step Nat.add].
  replace (S n - 1) with n by lia. destruct (lookup_lt_is_Some_2 order (S n)) as [this Ht]; [lia|].
  destruct (lookup_lt_is_Some_2 order n) as [before Hb]; [lia|]. rewrite Ht, Hb. cbn [mbind option_bind].
  assert (N.to_nat this < rows) as Hthis by (apply Hlt; by eapply list_elem_of_lookup_2).
  rewrite arr_set_Some by lia. cbn [mbind option_bind]. eexists _, _. split; [done|].
  set (label' := if decide _ then label else _).
  assert (label <= label')%N as Hle by (unfold label'; destruct (decide _); lia).
  assert (∀ j r, j <= n → order !! j = Some r → <[N.to_nat this:=label']> group !! N.to_nat r = group !! N.to_nat r) as Hold.
  { intros j r Hj Hr. apply list_lookup_insert_ne. intros E. apply N2Nat.inj in E. subst r.
    pose proof (NoDup_lookup _ _ _ _ Hnd Hr Ht). lia. }
  assert (∀ j r l, j <= n → order !! j = Some r → group !! N.to_nat r = Some l → l = label' → key r = key this) as Hnew.
  { intros j r l Hj Hr Hl ->. unfold label' in Hl. destruct (decide (key this = key before)) as [->|].
    - eapply (L4 j n); [done|done|done|done|done|by apply L2].
    - pose proof (L3 j r _ Hj Hr Hl). lia. }
  split.
  - by rewrite length_insert.
  - intros r Hr. rewrite Ht in Hr. injection Hr as <-. apply list_lookup_insert_eq. lia.
  - intros j r l Hj Hr Hl. destruct (decide (j = S n)) as [->|].
    + rewrite Ht in Hr. injection Hr as <-. rewrite list_lookup_insert_eq in Hl by lia. injection Hl as <-. done.
    + rewrite (Hold j r) in Hl by (done || lia). pose proof (L3 j r l ltac:(lia) Hr Hl). lia.
  - intros i j r q l Hi Hj Hr Hq Hl Hl'.
    destruct (decide (i = S n)) as [->|Hin], (decide (j = S n)) as [->|Hjn].
    + congruence.
    + rewrite Ht in Hr. injection Hr as <-. rewrite list_lookup_insert_eq in Hl by lia. injection Hl as <-.
      rewrite (Hold j q) in Hl' by (done || lia). symmetry. eapply (Hnew j q); [lia|done..].
    + rewrite Ht in Hq. injection Hq as <-. rewrite list_lookup_insert_eq in Hl' by lia. injection Hl' as <-.
      rewrite (Hold i r) in Hl by (done || lia). eapply (Hnew i r); [lia|done..].
    + rewrite (Hold i r) in Hl by (done || lia). rewrite (Hold j q) in Hl' by (done || lia).
      eapply (L4 i j); [lia|lia|done..].
Qed.
End labels.

(** Rows with the same label have the same terms; the order visits every row. *)
Record groups_ok (f : Frontier) (group order : list N) : Prop := {
  go_len : length group = f_len f;
  go_order : order ≡ₚ N.of_nat <$> seq 0 (f_len f);
  go_same : ∀ r q l, group !! r = Some l → group !! q = Some l → same_terms c (fval f r) (fval f q);
}.

Lemma go_nodup f group order : groups_ok f group order → NoDup order.
Proof. intros Hg. rewrite (go_order _ _ _ Hg). apply NoDup_fmap_2; [intros ???; lia|apply NoDup_seq]. Qed.
Lemma go_in f group order r : groups_ok f group order → r ∈ order ↔ N.to_nat r < f_len f.
Proof.
  intros Hg. rewrite (go_order _ _ _ Hg), list_elem_of_fmap. split.
  - intros (i & -> & Hi%elem_of_seq). rewrite Nat2N.id. lia.
  - intros Hr. exists (N.to_nat r). split; [lia|]. apply elem_of_seq. lia.
Qed.
Lemma go_order_len f group order : groups_ok f group order → length order = f_len f.
Proof. intros Hg. by rewrite (Permutation_length (go_order _ _ _ Hg)), length_fmap, length_seq. Qed.

Lemma probe_groups_spec f : frontier_ok f →
  ∃ group order, probe_groups c f = Some (group, order) ∧ groups_ok f group order.
Proof.
  intros Hf. unfold probe_groups. set (rows := f_len f).
  assert (N.of_nat rows < 2 ^ 32)%N as Hrows by apply (fo_len _ Hf).
  rewrite as_u32_id, Nat2N.id by done. set (order := N.of_nat <$> seq 0 rows).
  assert (length order = rows) as Hol by (unfold order; by rewrite length_fmap, length_seq).
  destruct (Nat.ltb_spec rows SORTED_PROBE_MIN) as [Hsmall|Hlarge].
  { exists order, order. split; [done|]. split; [done|done|]. intros r q l Hr Hq.
    unfold order in Hr, Hq. rewrite list_lookup_fmap in Hr, Hq.
    destruct (seq 0 rows !! r) as [a|] eqn:E1; [|done]. destruct (seq 0 rows !! q) as [b|] eqn:E2; [|done].
    apply lookup_seq in E1 as [-> _]. apply lookup_seq in E2 as [-> _]. simplify_eq/=.
    by intros p. }
  unfold SORTED_PROBE_MIN in Hlarge. rewrite keys_fold by done. cbn [mbind option_bind].
  set (keys := concat _). set (st := length (probe_key (fval f 0))).
  assert (∀ r, r < rows → length (probe_key (fval f r)) = st) as Hst by (intros r Hr; apply probe_key_len; [done|done|unfold rows in *; lia]).
  assert (length keys = rows * st) as Hkl.
  { unfold keys. assert (∀ n, n <= rows → length (concat ((λ r, probe_key (fval f r)) <$> seq 0 n)) = n * st) as Hgen.
    { induction n as [|n IH]; intros Hn; [done|]. rewrite seq_S, fmap_app, concat_app, length_app, IH by lia. simpl.
      rewrite app_nil_r, Hst by lia. lia. }
    by apply Hgen. }
  assert (length keys / rows = st) as -> by (rewrite Hkl, Nat.mul_comm; apply Nat.div_mul; lia).
  set (key := λ row, take st (drop (N.to_nat row * st) keys)).
  assert (∀ r, N.to_nat r < rows → key r = probe_key (fval f (N.to_nat r))) as Hkey.
  { intros r Hr. unfold key, keys. apply concat_slice.
    - intros y (i & -> & Hi%elem_of_seq)%list_elem_of_fmap. apply Hst. lia.
    - by rewrite list_lookup_fmap, lookup_seq_lt. }
  set (sorted := if negb (st =? 0) then merge_sort (by_key key) order else order).
  assert (sorted ≡ₚ order) as Hperm by (unfold sorted; destruct (negb _); [apply merge_sort_Permutation|done]).
  assert (length sorted = rows) as Hsl by by rewrite (Permutation_length Hperm).
  assert (∀ r, r ∈ sorted ↔ N.to_nat r < rows) as Hin.
  { intros r. rewrite Hperm. unfold order. rewrite list_elem_of_fmap. split.
    - intros (i & -> & Hi%elem_of_seq). rewrite Nat2N.id. lia.
    - intros Hr. exists (N.to_nat r). split; [lia|]. apply elem_of_seq. lia. }
  assert (NoDup sorted) as Hnd.
  { rewrite Hperm. apply NoDup_fmap_2; [intros ???; lia|apply NoDup_seq]. }
  destruct (labels_fold sorted rows key Hsl Hnd (λ r, proj1 (Hin r)) (rows - 1)) as (group & label & Hfold & [L1 _ _ L4]); [lia|].
  change (λ row : N, take st (drop (N.to_nat row * st) keys)) with key.
  rewrite Hfold. cbn [mbind option_bind]. exists group, sorted. split; [done|]. split; [done|done|].
  intros r q l Hr Hq. assert (r < rows) as Hrl by (rewrite <- L1; by eapply lookup_lt_Some).
  assert (q < rows) as Hql by (rewrite <- L1; by eapply lookup_lt_Some).
  destruct (proj1 (list_elem_of_lookup sorted (N.of_nat r))) as [i Hi]; [apply Hin; lia|].
  destruct (proj1 (list_elem_of_lookup sorted (N.of_nat q))) as [j Hj]; [apply Hin; lia|].
  apply probe_key_same; [done..|]. rewrite <- (Nat2N.id r) at 1. rewrite <- (Nat2N.id q) at 1.
  rewrite <- !Hkey by lia. apply lookup_lt_Some in Hi as Hil. apply lookup_lt_Some in Hj as Hjl.
  eapply (L4 i j); [lia|lia|done|done|by rewrite Nat2N.id|by rewrite Nat2N.id].
Qed.

(** ** Grouped confirmation *)

Lemma label_run_end_spec group parents label n : ∀ i, i + n = length parents →
  (∀ p, p ∈ parents → N.to_nat p < length group) →
  ∃ stop, run_end_from group parents label i n = Some stop ∧ i <= stop <= length parents ∧
    ∀ m p, i <= m < stop → parents !! m = Some p → group !! N.to_nat p = Some label.
Proof.
  induction n as [|n IH]; intros i Hi Hp; simpl.
  { exists i. split_and!; [done|lia|lia|]. intros m p Hm. lia. }
  destruct (lookup_lt_is_Some_2 parents i) as [p Hpi]; [lia|]. rewrite Hpi. cbn [mbind option_bind].
  destruct (lookup_lt_is_Some_2 group (N.to_nat p)) as [l Hl]; [apply Hp; by eapply list_elem_of_lookup_2|].
  rewrite Hl. cbn [mbind option_bind]. destruct (N.eqb_spec l label) as [->|].
  - destruct (IH (S i)) as (stop & -> & Hs' & Hlab); [lia|done|]. exists stop. split_and!; [done|lia|lia|].
    intros m q Hm Hq. destruct (decide (m = i)) as [->|]; [congruence|]. apply (Hlab m q); [lia|done].
  - exists i. split_and!; [done|lia|lia|]. intros m q Hm. lia.
Qed.

(** The verdict on a candidate. *)
Definition verdict (f : Frontier) (v : VariableId) (cands : Candidates) (i : nat) : bool :=
  bool_decide (has_row K c (extend (cand_asg f cands i) v (cand_value cands i))).

Lemma confirm_grouped_spec v f group order cands : touches c v = true → (v < 128)%N → frontier_ok f →
  is_set (f_bound f) v = false → groups_ok f group order → cands_ok f cands →
  ∃ c', confirm_grouped sip rand_hash c v f group cands = Some c' ∧ killed cands (verdict f v cands) c'.
Proof.
  intros Ht Hv Hf Hu Hg Hcs. unfold confirm_grouped.
  assert (∀ fuel c1 start, killed cands (λ i, negb (i <? start) || verdict f v cands i) c1 → start <= cd_len cands →
    cd_len cands < start + fuel → ∃ c', loopM (grouped_step sip rand_hash c v f group) fuel (c1, start) = Some c' ∧
      killed cands (verdict f v cands) c') as Hloop.
  { induction fuel as [|fuel IH]; intros c1 start Hk Hst Hfuel; [lia|]. cbn [loopM grouped_step].
    pose proof (cands_ok_killed _ _ _ _ Hcs Hk) as Hc1. pose proof (up_len _ _ _ Hk) as Hl1. rewrite Hl1.
    destruct (Nat.leb_spec (cd_len cands) start) as [Hge|Hlt]; cbn [mbind option_bind].
    - eexists. split; [done|]. eapply killed_ext; [done|]. intros i Hi _. cbv beta.
      destruct (Nat.ltb_spec i start); [done|lia].
    - destruct (cand_row f c1 start Hc1) as (lead & Hlead & Hlf & _); [lia|]. unfold cd_parent. rewrite Hlead. cbn [mbind option_bind].
      destruct (lookup_lt_is_Some_2 group (N.to_nat lead)) as [label Hlab]; [by rewrite (go_len _ _ _ Hg)|].
      rewrite Hlab. cbn [mbind option_bind].
      assert (length (cd_parents c1) = cd_len cands) as Hpl by (rewrite (cd_ok_parents _ (proj1 Hc1)); done).
      destruct (label_run_end_spec group (cd_parents c1) label (cd_len cands - S start) (S start)) as (stop & -> & Hstop & Hrun); [lia| |].
      { intros p [i Hi]%list_elem_of_lookup. rewrite (go_len _ _ _ Hg). destruct Hc1 as (_ & Hp & _). by eapply Hp. }
      cbn [mbind option_bind]. destruct (frontier_row f (N.to_nat lead) Hf Hlf) as (-> & Hbd & Hok). cbn [mbind option_bind].
      destruct (confirm_at_spec v (frow f (N.to_nat lead)) f c1 start stop) as (c2 & -> & Hk2); [done|done|done|by rewrite Hbd|done|lia|].
      cbn [mbind option_bind]. apply IH; [|lia|lia].
      eapply killed_ext; [by eapply killed_trans|]. intros i Hi _. cbv beta. unfold in_range.
      assert (start <= i < stop → bool_decide (has_row K c (extend (bval (frow f (N.to_nat lead))) v (cand_value c1 i))) =
        verdict f v cands i) as Hsame.
      { intros Hin. unfold verdict. apply bool_decide_ext. destruct (cand_row f cands i Hcs Hi) as (q & Hq & _ & ->).
        assert (cand_value c1 i = cand_value cands i) as -> by (unfold cand_value; by rewrite (up_values _ _ _ Hk)).
        apply has_row_same, (go_same _ _ _ Hg (N.to_nat lead) (N.to_nat q) label); [done|].
        rewrite <- (up_parents _ _ _ Hk) in Hq. destruct (decide (i = start)) as [->|]; [congruence|].
        apply (Hrun i q); [lia|done]. }
      destruct (Nat.ltb_spec i start), (Nat.leb_spec start i), (Nat.ltb_spec i stop); cbn [andb orb negb]; try lia;
        rewrite ?andb_true_r; try done; by apply Hsame. }
  apply Hloop; [|lia|lia]. apply killed_refl; [apply Hcs|done].
Qed.

Lemma confirm_parallel_spec threads v f group order : touches c v = true → (v < 128)%N → frontier_ok f →
  is_set (f_bound f) v = false → groups_ok f group order → ∀ fuel cands, cands_ok f cands → cd_len cands < fuel →
  ∃ c', confirm_parallel sip rand_hash threads c v f group fuel cands = Some c' ∧ killed cands (verdict f v cands) c'.
Proof.
  intros Ht Hv Hf Hu Hg. induction fuel as [|fuel IH]; intros cands Hcs Hfuel; [lia|]. cbn [confirm_parallel].
  destruct (_ || _); [by eapply confirm_grouped_spec|].
  set (mid := _ - cd_bit_offset cands). destruct (_ || _) eqn:Hm; [by eapply confirm_grouped_spec|].
  apply orb_false_iff in Hm as [Hm1%Nat.eqb_neq Hm2%Nat.leb_gt]. pose proof Hcs as (Hok & Hp & Hval).
  destruct (cd_split_spec cands mid Hok) as (l & r & -> & Hl & Hr & Hvl & Hvr & Hpl & Hpr & Hjoin); [lia| |].
  { assert (cd_bit_offset cands + mid = (cd_bit_offset cands + cd_len cands / 2) / LIVENESS_WORD_BITS * LIVENESS_WORD_BITS) as ->
      by (unfold mid in *; lia). unfold BITS, LIVENESS_WORD_BITS. by apply Nat.Div0.mod_mul. }
  cbn [mbind option_bind].
  assert (cands_ok f l) as Hlok.
  { split_and!; [done| |rewrite Hvl; by apply Forall_take]. intros i p. rewrite Hpl. intros E'.
    apply lookup_take_Some in E' as [E' _]. by eapply Hp. }
  assert (cands_ok f r) as Hrok.
  { split_and!; [done| |rewrite Hvr; by apply Forall_drop]. intros i p. rewrite Hpr, lookup_drop. apply Hp. }
  assert (cd_len l = mid ∧ cd_len r = cd_len cands - mid) as [Hll Hlr].
  { unfold cd_len in *. rewrite Hvl, Hvr, length_take, length_drop. lia. }
  destruct (IH l Hlok) as (l' & -> & Hkl); [lia|]. destruct (IH r Hrok) as (r' & -> & Hkr); [lia|].
  cbn [mbind option_bind]. eexists. split; [done|]. eapply killed_ext; [by apply Hjoin|]. intros i Hi _. cbv beta.
  unfold verdict, cand_asg, cand_value. rewrite Hvl, Hvr, Hpl, Hpr.
  destruct (Nat.ltb_spec i mid); [by rewrite !list_lookup_total_alt, !lookup_take_lt by done|].
  rewrite !list_lookup_total_alt, !lookup_drop. by replace (mid + (i - mid)) with i by lia.
Qed.

(** ** Grouped proposals *)

(** The candidates [l] fanned out to the rows [rs]. *)
Definition fanned (rs : list N) (l : list RawInline) : list candidate :=
  concat ((λ row, (λ x, (row, x, true)) <$> l) <$> rs).

Lemma fanned_cons row rs l : fanned (row :: rs) l = ((λ x, (row, x, true)) <$> l) ++ fanned rs l.
Proof. done. Qed.

Lemma proposed_for_fanned rs l r : NoDup rs →
  proposed_for (fanned rs l) r = if decide (N.of_nat r ∈ rs) then l else [].
Proof.
  induction 1 as [|row rs Hrow _ IH]; [done|]. rewrite fanned_cons, proposed_for_app, IH.
  rewrite <- (N2Nat.id row), proposed_for_push. destruct (decide (N.to_nat row = r)) as [<-|Hne].
  - rewrite N2Nat.id, decide_False by done. rewrite decide_True by by left. by rewrite app_nil_r.
  - simpl. destruct (decide (N.of_nat r ∈ rs)).
    + rewrite decide_True; [done|by right].
    + rewrite decide_False; [done|]. intros [E'|?]%elem_of_cons; [|done]. rewrite N2Nat.id in E'. lia.
Qed.

Lemma tagged_ok_fanned f rs l : (∀ r, r ∈ rs → N.to_nat r < f_len f) → Forall value_ok l → tagged_ok f (fanned rs l).
Proof.
  intros Hrs Hl p x b Hin. unfold fanned in Hin. apply list_elem_of_In, in_concat in Hin as (its & Hits & Hin).
  apply list_elem_of_In, list_elem_of_fmap in Hits as (row & -> & Hrow).
  apply list_elem_of_In, list_elem_of_fmap in Hin as (y & [= -> -> ->] & Hy). rewrite Forall_forall in Hl. auto.
Qed.

Lemma fanned_live rs l : Forall (λ it : candidate, it.2 = true) (fanned rs l).
Proof.
  apply Forall_concat, Forall_fmap, Forall_forall. intros row _. by apply Forall_fmap, Forall_forall.
Qed.

Lemma entries_items b : pb_ok b → pb_entries b = (items b).*1.*2.
Proof.
  intros Hb. rewrite items_fmap_fst by done. symmetry. apply snd_zip. rewrite (pb_ok_parents _ Hb). done.
Qed.

Lemma fan_out l rs b : pb_ok b → ∃ b',
  foldM (λ proposals row, pb_extend_from_slice (pb_open proposals row) l) b rs = Some b' ∧ pb_ok b' ∧
  items b' = items b ++ fanned rs l.
Proof.
  revert b. induction rs as [|row rs IH]; intros b Hb; cbn [foldM].
  { exists b. by rewrite app_nil_r. }
  destruct (pb_extend_from_slice_spec (pb_open b row) l) as (b1 & -> & Hb1 & _ & Hi1); [by apply pb_open_ok|].
  cbn [mbind option_bind]. destruct (IH b1 Hb1) as (b' & -> & Hb' & Hi'). exists b'. split_and!; [done..|].
  by rewrite Hi', Hi1, items_open, fanned_cons, <- app_assoc.
Qed.

Lemma slice_order (order : list N) start stop : start < stop <= length order → ∃ lead,
  order !! start = Some lead ∧ slice_range order (S start) stop = Some (take (stop - S start) (drop (S start) order)) ∧
  take stop order = take start order ++ lead :: take (stop - S start) (drop (S start) order).
Proof.
  intros Hs'. destruct (lookup_lt_is_Some_2 order start) as [lead Hl]; [lia|]. exists lead. split; [done|]. split.
  - unfold slice_range. rewrite (proj2 (Nat.leb_le _ _)), (proj2 (Nat.leb_le stop _)) by lia. done.
  - rewrite <- (take_drop_middle order start lead Hl) at 1. rewrite take_app_ge by (rewrite length_take; lia).
    rewrite length_take. replace (stop - start `min` length order) with (S (stop - S start)) by lia. done.
Qed.

(** What the loop has done when the rows [take start order] are answered. *)
Definition answered (v : VariableId) (f : Frontier) (done : list N) (new : list candidate) : Prop :=
  tagged_ok f new ∧ Forall (λ it : candidate, it.2 = true) new ∧ ∀ r, r < f_len f →
    if decide (N.of_nat r ∈ done) then answers (fval f r) v (proposed_for new r) else proposed_for new r = [].

Lemma answered_run v f old rs new l : NoDup (old ++ rs) → answered v f old new → (∀ r, r ∈ rs → N.to_nat r < f_len f) →
  Forall value_ok l → (∀ r, r ∈ rs → answers (fval f (N.to_nat r)) v l) → answered v f (old ++ rs) (new ++ fanned rs l).
Proof.
  intros (_ & Hdisj & Hnd)%NoDup_app (Ht & Hlive & Ha) Hrs Hl Hans. split; [|split].
  - intros p x b [?|?]%elem_of_app; [by eapply Ht|by eapply (tagged_ok_fanned f rs l)].
  - apply Forall_app. by split; [|apply fanned_live].
  - intros r Hr. rewrite proposed_for_app, proposed_for_fanned by done. specialize (Ha r Hr).
    destruct (decide (N.of_nat r ∈ old)) as [Ho|Ho].
    + rewrite decide_True by (by apply elem_of_app; left). rewrite decide_False by by apply Hdisj. by rewrite app_nil_r.
    + rewrite Ha. simpl. destruct (decide (N.of_nat r ∈ rs)) as [Hin|Hin].
      * rewrite decide_True by (by apply elem_of_app; right). specialize (Hans _ Hin). by rewrite Nat2N.id in Hans.
      * rewrite decide_False; [done|]. by intros [?|?]%elem_of_app.
Qed.

Lemma answers_same a a' v l : same_terms c a a' → answers a v l → answers a' v l.
Proof. intros Hsame [Hnd Hin]. split; [done|]. intros x. rewrite Hin. by apply has_row_same. Qed.

Lemma propose_step_spec v f group order b new base start : touches c v = true → (v < 128)%N → frontier_ok f →
  is_set (f_bound f) v = false → groups_ok f group order → pb_ok b → items b = base ++ new → start < f_len f →
  answered v f (take start order) new →
  ∃ b' new' stop, propose_step sip rand_hash c v f group order (b, start) = Some (inl (b', stop)) ∧ pb_ok b' ∧
    items b' = base ++ new' ∧ start < stop <= f_len f ∧ answered v f (take stop order) new'.
Proof.
  intros Ht Hv Hf Hu Hg Hb Hi Hst Ha. pose proof (go_order_len _ _ _ Hg) as Hol. unfold propose_step.
  rewrite (proj2 (Nat.leb_gt _ _)) by done.
  destruct (lookup_lt_is_Some_2 order start) as [lead Hlead]; [lia|]. rewrite Hlead. cbn [mbind option_bind].
  assert (N.to_nat lead < f_len f) as Hlf by (apply (go_in f group order); [done|by eapply list_elem_of_lookup_2]).
  destruct (lookup_lt_is_Some_2 group (N.to_nat lead)) as [label Hlab]; [by rewrite (go_len _ _ _ Hg)|].
  rewrite Hlab. cbn [mbind option_bind].
  destruct (label_run_end_spec group order label (f_len f - S start) (S start)) as (stop & -> & Hstop & Hrun); [lia| |].
  { intros p Hp. rewrite (go_len _ _ _ Hg). by apply (go_in f group order). }
  cbn [mbind option_bind]. destruct (frontier_row f (N.to_nat lead) Hf Hlf) as (-> & Hbd & Hok). cbn [mbind option_bind].
  destruct (row_spec v (frow f (N.to_nat lead))) as (l & n & Hans & _ & _ & _ & ->); [done|done|done|by rewrite Hbd|].
  fold (fval f (N.to_nat lead)) in Hans.
  assert (bval (frow f (N.to_nat lead)) v = None) as Hn by by apply bval_unbound; rewrite ?Hbd.
  assert (Forall value_ok l) as Hlv by (apply Forall_forall; intros x Hx%Hans; by eapply has_row_value).
  destruct (pb_extend_spec (pb_open b lead) l) as (b1 & -> & Hb1 & _ & Hi1); [by apply pb_open_ok|].
  cbn [mbind option_bind]. rewrite items_open in Hi1. cbn [pb_open pb_parent] in Hi1.
  assert (drop (pb_len b) (pb_entries b1) = l) as ->.
  { rewrite (entries_items b1), Hi1, !fmap_app, <- (entries_items b) by done. unfold pb_len. rewrite drop_app_length.
    rewrite <- !list_fmap_compose. apply list_fmap_id. }
  destruct (slice_order order start stop) as (lead' & Hl' & Hslice & Htake); [lia|]. rewrite Hlead in Hl'. injection Hl' as <-.
  set (others := take (stop - S start) (drop (S start) order)) in *.
  assert (∃ b2, (if 1 <? stop - start then
      others ← slice_range order (S start) stop;
      foldM (λ proposals row, pb_extend_from_slice (pb_open proposals row) l) b1 others
    else Some b1) = Some b2 ∧ pb_ok b2 ∧ items b2 = items b1 ++ fanned others l) as (b2 & -> & Hb2 & Hi2).
  { destruct (Nat.ltb_spec 1 (stop - start)).
    - rewrite Hslice. cbn [mbind option_bind]. by apply fan_out.
    - exists b1. split_and!; [done..|]. assert (others = []) as -> by (unfold others; by replace (stop - S start) with 0 by lia).
      by rewrite app_nil_r. }
  cbn [mbind option_bind]. exists b2, (new ++ fanned (lead :: others) l), stop. split_and!; [done|done| |lia|lia|].
  - rewrite Hi2, Hi1, Hi, fanned_cons. by rewrite <- !app_assoc.
  - pose proof (go_nodup _ _ _ Hg) as Hnd. rewrite Htake.
    assert (∀ r, r ∈ lead :: others → N.to_nat r < f_len f) as Hin.
    { intros r Hr. apply (go_in f group order); [done|]. apply (subseteq_take stop). rewrite Htake. by apply elem_of_app; right. }
    apply answered_run; try done.
    + rewrite <- Htake. apply (NoDup_app (take stop order) (drop stop order)). by rewrite take_drop.
    + intros r Hr. eapply answers_same; [|done]. apply (go_same _ _ _ Hg _ _ label); [done|].
      apply elem_of_cons in Hr as [->|Hr]; [done|]. apply list_elem_of_lookup in Hr as [m Hm]. unfold others in Hm.
      apply lookup_take_Some in Hm as [Hm Hlt]. rewrite lookup_drop in Hm. apply (Hrun (S start + m)); [lia|done].
Qed.

Lemma propose_spec v f b : (v < 128)%N → frontier_ok f → is_set (f_bound f) v = false → touches c v = true → pb_ok b →
  ∃ b' new, propose sip rand_hash c v f b = Some b' ∧ pb_ok b' ∧ items b' = items b ++ new ∧ tagged_ok f new ∧
    Forall (λ it : candidate, it.2 = true) new ∧ ∀ r, r < f_len f → answers (fval f r) v (proposed_for new r).
Proof.
  intros Hv Hf Hu Ht Hb. unfold propose. destruct (Nat.eqb_spec (f_len f) 0) as [Hz|Hz]; cbn [orb].
  { exists b, []. rewrite app_nil_r. split_and!; [done..|by intros ??? ?%not_elem_of_nil|done|lia]. }
  rewrite Ht. cbn [negb]. destruct (probe_groups_spec f Hf) as (group & order & -> & Hg). cbn [mbind option_bind].
  pose proof (go_order_len _ _ _ Hg) as Hol.
  assert (∀ fuel b1 new start, pb_ok b1 → items b1 = items b ++ new → start <= f_len f → f_len f < start + fuel →
    answered v f (take start order) new → ∃ b' new', loopM (propose_step sip rand_hash c v f group order) fuel (b1, start) = Some b' ∧
      pb_ok b' ∧ items b' = items b ++ new' ∧ answered v f order new') as Hloop.
  { induction fuel as [|fuel IH]; intros b1 new start Hb1 Hi1 Hst Hfuel Ha; [lia|]. cbn [loopM].
    destruct (decide (start = f_len f)) as [->|Hne].
    - unfold propose_step. rewrite Nat.leb_refl. cbn [mbind option_bind]. exists b1, new. split_and!; [done..|].
      rewrite <- Hol, firstn_all in Ha. done.
    - destruct (propose_step_spec v f group order b1 new (items b) start) as (b2 & new2 & stop & -> & Hb2 & Hi2 & Hstop & Ha2); [done..|lia|done|].
      cbn [mbind option_bind]. apply (IH b2 new2 stop); [done|done|lia|lia|done]. }
  destruct (Hloop (S (f_len f)) b [] 0) as (b' & new & -> & Hb' & Hi' & Htag & Hlive & Ha); [done|by rewrite app_nil_r|lia|lia| |].
  { split; [by intros ??? ?%not_elem_of_nil|]. split; [done|]. intros r Hr. rewrite decide_False; [done|]. by apply not_elem_of_nil. }
  exists b', new. split_and!; [done..|]. intros r Hr. specialize (Ha r Hr). rewrite decide_True in Ha; [done|].
  apply (go_in f group order); [done|]. by rewrite Nat2N.id.
Qed.

(** A proposal holds at most a value per row of the frontier and trible of the set. *)
Lemma live_by_row n m its : (∀ it, it ∈ its → it.2 = true ∧ N.to_nat it.1.1 < n) →
  (∀ r, r < n → length (proposed_for its r) <= m) → length its <= n * m.
Proof.
  revert its. induction n as [|n IH]; intros its Hin Hlen.
  { destruct its as [|it its]; [done|]. destruct (Hin it) as [_ ?]; [by left|lia]. }
  set (P := λ it : candidate, it.2 = true ∧ it.1.1 = N.of_nat n).
  pose proof (Permutation_length (filter_app_complement P its)) as Hsplit. rewrite length_app in Hsplit.
  assert (length (filter P its) <= m) as H1.
  { specialize (Hlen n ltac:(lia)). unfold proposed_for in Hlen. by rewrite !length_fmap in Hlen. }
  enough (length (filter (λ x, ¬ P x) its) <= n * m) by lia. apply IH.
  - intros it [Hp Hit]%list_elem_of_filter. destruct (Hin it Hit) as [Hl Ht]. split; [done|].
    destruct (decide (N.to_nat it.1.1 = n)) as [E|]; [|lia]. exfalso. apply Hp. split; [done|lia].
  - intros r Hr. etransitivity; [|apply (Hlen r); lia]. unfold proposed_for. rewrite !length_fmap.
    rewrite list_filter_filter_l; [done|]. intros it [_ E] [_ E']. lia.
Qed.

Lemma answers_small a v l : touches c v = true → a v = None → answers a v l → length l <= size K.
Proof.
  intros Ht Hn [Hnd Hin]. destruct (touches_at v Ht) as [p Hp].
  change (size K) with (length (base.elements K)). rewrite <- (length_fmap (value_at p) (base.elements K)).
  apply submseteq_length, NoDup_submseteq; [done|].
  intros x (k & Hk & Hsp)%Hin. specialize (Hsp p). apply agrees_extend in Hsp; [|done]. rewrite Hp in Hsp. subst x.
  apply list_elem_of_fmap. exists k. split; [done|]. by apply base.elem_of_elements.
Qed.

Lemma propose_small v f b b' : (v < 128)%N → frontier_ok f → is_set (f_bound f) v = false → touches c v = true → pb_ok b →
  propose sip rand_hash c v f b = Some b' → pb_len b' <= pb_len b + f_len f * size K.
Proof.
  intros Hv Hf Hu Ht Hb Hp. destruct (propose_spec v f b Hv Hf Hu Ht Hb) as (b2 & new & Hp2 & Hb2 & Hi & Htag & Hlive & Ha).
  rewrite Hp in Hp2. injection Hp2 as <-. rewrite <- !items_length, Hi, length_app by done. apply Nat.add_le_mono_l, live_by_row.
  - intros [[t x] l] Hin. split; [|by eapply Htag]. rewrite Forall_forall in Hlive. by apply (Hlive _ Hin).
  - intros r Hr. eapply answers_small; [done| |by apply Ha]. apply bval_unbound; [by apply frontier_row|done|].
    destruct (frontier_row f r Hf Hr) as (_ & -> & _). done.
Qed.

(** ** The protocol *)

Lemma is_set_add_to t vs w : term_ok t → (w < 128)%N → is_set (add_to t vs) w = is_var t w || is_set vs w.
Proof.
  intros Ht Hw. destruct t as [u|x]; simpl in *; [|done]. rewrite is_set_set by done. by rewrite N.eqb_sym.
Qed.

Lemma pattern_variables w : (w < 128)%N → is_set (variables c) w = touches c w.
Proof.
  intros Hw. unfold variables, touches. rewrite !is_set_add_to, is_set_new_empty by (done || apply (Hc E) || apply (Hc A) || apply (Hc V)).
  by destruct (is_var (term_e c) w), (is_var (term_a c) w), (is_var (term_v c) w).
Qed.

Lemma wf_add_to t vs : vs_wf vs → vs_wf (add_to t vs).
Proof. intros Hw. destruct t; [by apply wf_set|done]. Qed.

(** A solution that extends a candidate spells a row. *)
Lemma extendable_row a v x : extendable (variables c) (pattern_sat K c) a v x → has_row K c (extend a v x).
Proof.
  intros (a' & Hok & Hsub & Htot & Hsat). eapply has_row_mono; [done|]. apply Hsat. intros p.
  pose proof (Hc p) as Hp. destruct (term_at c p) as [w|y] eqn:Ew; simpl in *; [|eauto]. apply Htot; [done|].
  rewrite pattern_variables by done. unfold touches.
  destruct p; simpl in Ew; rewrite Ew; simpl; rewrite N.eqb_refl; rewrite ?orb_true_r; done.
Qed.

Lemma id_into_value_from x : value_ok x → ∀ i, id_from_value x = Some i → x = id_into_value i ∧ length i = ID_LEN.
Proof. intros Hx i Hi. pose proof (id_from_value_cases x Hx) as Hcs. rewrite Hi in Hcs. destruct Hcs as [? Hb]. split; [done|apply Hb]. Qed.

Lemma satisfied_spec b : binding_ok b → ∃ r, satisfied sip rand_hash c b = Some r ∧ (r = true ↔ pattern_sat K c (bval b)).
Proof.
  intros Hb. destruct (position_value_spec (term_e c) b Hb (Hc E)) as [Pe He].
  destruct (position_value_spec (term_a c) b Hb (Hc A)) as [Pa Ha]. destruct (position_value_spec (term_v c) b Hb (Hc V)) as [Pv Hv].
  unfold satisfied. rewrite Pe, Pa, Pv. cbn [mbind option_bind].
  assert ((∃ p, term_val (term_at c p) (bval b) = None) → pattern_sat K c (bval b)) as Hfree.
  { intros [p Hp] Hall. destruct (Hall p) as [x Hx]. congruence. }
  destruct (term_val (term_e c) (bval b)) as [e|] eqn:Ee; [|exists true; split; [done|]; split; [|done]; intros _; apply Hfree; by exists E].
  destruct (term_val (term_a c) (bval b)) as [a|] eqn:Ea; [|exists true; split; [done|]; split; [|done]; intros _; apply Hfree; by exists A].
  destruct (term_val (term_v c) (bval b)) as [v|] eqn:Ev; [|exists true; split; [done|]; split; [|done]; intros _; apply Hfree; by exists V].
  assert (pattern_sat K c (bval b) ↔ ∃ k, k ∈ K ∧ id_into_value (at_pos E k) = e ∧ id_into_value (at_pos A k) = a ∧ at_pos V k = v) as Hsat.
  { assert (∀ p, is_Some (term_val (term_at c p) (bval b))) as Hall by (intros [| |]; simpl; rewrite ?Ee, ?Ea, ?Ev; eauto).
    transitivity (has_row K c (bval b)); [split; [intros H; by apply H|by intros H _]|].
    apply exist_proper. intros k. apply and_iff_compat_l. split.
    - intros Hsp. pose proof (Hsp E) as S1. pose proof (Hsp A) as S2. pose proof (Hsp V) as S3.
      split_and!; symmetry; [by apply S1|by apply S2|by apply S3].
    - intros (<- & <- & <-) [| |] y; simpl; rewrite ?Ee, ?Ea, ?Ev; by intros [= <-]. }
  setoid_rewrite Hsat. clear Hsat Hfree.
  destruct (id_from_value e) as [ei|] eqn:Ei.
  2: { exists false. split; [done|]. split; [done|]. intros (k & Hk & He' & _).
    pose proof (id_from_value_cases e (He e eq_refl)) as Hcs. rewrite Ei in Hcs. destruct (Hcs (at_pos E k)); [|done].
    by apply (at_id_len _ _ _ Hs k E). }
  destruct (id_into_value_from e (He e eq_refl) ei Ei) as [-> Hel].
  destruct (id_from_value a) as [ai|] eqn:Eai.
  2: { exists false. split; [done|]. split; [done|]. intros (k & Hk & _ & Ha' & _).
    pose proof (id_from_value_cases a (Ha a eq_refl)) as Hcs. rewrite Eai in Hcs. destruct (Hcs (at_pos A k)); [|done].
    by apply (at_id_len _ _ _ Hs k A). }
  destruct (id_into_value_from a (Ha a eq_refl) ai Eai) as [-> Hal].
  destruct (has_third EAVOrder (KeySchemaOk0:=eav_ok) E A V eav_layout sip rand_hash _ _ _ (h_eav _ _ _ _ _ Hs) (rows_ok _ _ _ Hs)
    ei ai v Hel Hal (bo_len _ _ (Hv v eq_refl))) as (r & Hr & Hiff).
  exists r. split; [done|]. rewrite Hiff. apply exist_proper. intros k. by rewrite !into_value_eq.
Qed.

#[global] Instance pattern_constraint_ok parallel threads :
  ConstraintOk (constraint sip rand_hash parallel threads c) (pattern_sat K c) (λ _ v, touches c v).
Proof.
  split; simpl.
  - unfold variables. by do 3 apply wf_add_to.
  - intros s v Hv Ht. by rewrite pattern_variables.
  - intros a a' Hsub _ Hsat Hall. eapply has_row_mono; [done|]. apply Hsat. intros p. destruct (Hall p) as [x Hx].
    exists x. destruct (term_at c p); [by apply Hsub|done].
  - intros b Hb. by apply (satisfied_weak (constraint sip rand_hash parallel threads c)), satisfied_spec.
  - intros v b Hv Hb Hu. destruct (touches c v) eqn:Ht.
    + destruct (row_spec v b Ht Hb Hv Hu) as (l & n & _ & -> & _). eexists. split; [done|]. split; eauto.
    + unfold estimate, is_variable. unfold touches in Ht. apply orb_false_iff in Ht as [[Ht1 Ht2]%orb_false_iff Ht3].
      rewrite Ht1, Ht2, Ht3. exists None. split; [done|]. split; [by intros [??]|done].
  - intros b v x Hv Hb Hu Hx Ht Hsat Hall.
    assert (∀ p, term_val (term_at c p) (extend (bval b) v x) = term_val (term_at c p) (bval b)) as Heq.
    { intros p. unfold touches in Ht. apply orb_false_iff in Ht as [[Ht1 Ht2]%orb_false_iff Ht3].
      assert (is_var (term_at c p) v = false) as Hp by by destruct p.
      destruct (term_at c p) as [w|y]; simpl in *; [|done]. unfold extend. by rewrite Hp. }
    destruct Hsat as (k & Hk & Hsp); [intros p; rewrite <- Heq; apply Hall|]. exists k. split; [done|]. intros p y Hy.
    rewrite Heq in Hy. by apply Hsp.
  - intros v f b Hv Hf Hu Ht Hb. destruct (propose_spec v f b Hv Hf Hu Ht Hb) as (b' & new & Hp & Hb' & Hi & Htag & _ & Ha).
    exists b', new. split_and!; [done..|]. intros r Hr. destruct (Ha r Hr) as [Hnd Hin]. split; [done| |].
    + intros x Hx%Hin _ _. done.
    + intros x Hx. by apply Hin, extendable_row.
  - intros v f cands Hv Hf Hu Hcs. unfold confirm.
    destruct (Nat.eqb_spec (cd_len cands) 0) as [Hz|Hz]; cbn [orb].
    { exists cands, (λ _, true). split_and!; [done|apply killed_refl; [apply Hcs|done]|lia]. }
    destruct (cand_row f cands 0 Hcs ltac:(lia)) as (p & _ & Hp & _).
    unfold f_is_empty. rewrite (proj2 (Nat.eqb_neq _ _)) by lia. cbn [orb].
    destruct (touches c v) eqn:Ht; cbn [negb].
    + destruct (probe_groups_spec f Hf) as (group & order & -> & Hg). cbn [mbind option_bind].
      assert (∃ c', (if parallel && f_parallel f then confirm_parallel sip rand_hash threads c v f group (S (cd_len cands)) cands
        else confirm_grouped sip rand_hash c v f group cands) = Some c' ∧ killed cands (verdict f v cands) c') as (c' & -> & Hk).
      { destruct (parallel && f_parallel f); [eapply confirm_parallel_spec; try done; lia|by eapply confirm_grouped_spec]. }
      exists c', (verdict f v cands). split_and!; [done..|]. intros i Hi _. unfold verdict. split.
      * intros Hr%bool_decide_eq_true _ _. done.
      * intros Hx. by apply bool_decide_eq_true, extendable_row.
    + exists cands, (λ _, true). split_and!; [done|apply killed_refl; [apply Hcs|done]|]. intros i Hi _. split; [|done].
      intros _ Hsat Hall. unfold touches in Ht. apply orb_false_iff in Ht as [[Ht1 Ht2]%orb_false_iff Ht3].
      assert (∀ q, term_val (term_at c q) (extend (cand_asg f cands i) v (cand_value cands i)) =
        term_val (term_at c q) (cand_asg f cands i)) as Heq.
      { intros q. assert (is_var (term_at c q) v = false) as Hq by by destruct q.
        destruct (term_at c q) as [w|y]; simpl in *; [|done]. unfold extend. by rewrite Hq. }
      destruct Hsat as (k & Hk & Hsp); [intros q; rewrite <- Heq; apply Hall|]. exists k. split; [done|]. intros q y Hy.
      rewrite Heq in Hy. by apply Hsp.
Qed.

Lemma pattern_decides parallel threads : ConstraintDecides (constraint sip rand_hash parallel threads c) (pattern_sat K c).
Proof. apply satisfied_decides, satisfied_spec. Qed.
End pattern.

(** C33. The triple pattern over a trible set obeys the protocol, with the meaning
    "once all positions have values, the set has the row they spell": whatever
    the bound positions, constants and repeated variables, whatever the rows of
    the frontier, serial or divided at word boundaries for any number of
    threads, its proposals and confirmations neither panic nor lose a row, and
    a full binding without a row is refuted. *)
Theorem pattern_protocol sip rand_hash c parallel threads : ts_ok sip rand_hash (in_set c) → pattern_ok c →
  let sat := λ a, (∀ p, is_Some (term_val (term_at c p) a)) →
    ∃ k, k ∈ rows sip (in_set c) ∧ ∀ p, agrees (term_at c p) a (value_at p k) in
  ConstraintOk (constraint sip rand_hash parallel threads c) sat (λ _ v, touches c v) ∧
  ConstraintDecides (constraint sip rand_hash parallel threads c) sat.
Proof. intros Hs Hc. split; [by apply pattern_constraint_ok|by apply pattern_decides]. Qed.

(** A row proposes every value that some row of the set has at the variable,
    consistently with the other positions, once and no other, and the estimate
    bounds their number: it is exact when the variable stands at one position. *)
Theorem pattern_estimate sip rand_hash c v b pb : ts_ok sip rand_hash (in_set c) → pattern_ok c → touches c v = true →
  binding_ok b → (v < 128)%N → is_set (b_bound b) v = false → pb_ok pb →
  ∃ l n pb', estimate sip rand_hash c v b = Some (Some n) ∧ propose_row sip rand_hash c v b pb = Some pb' ∧ pb_ok pb' ∧
    items pb' = items pb ++ ((λ x, (pb_parent pb, x, true)) <$> l) ∧ NoDup l ∧
    (∀ x, x ∈ l ↔ has_row (rows sip (in_set c)) c (extend (bval b) v x)) ∧
    (N.of_nat (length l) <= n)%N ∧ (one_position c v = true → n = N.of_nat (length l)).
Proof.
  intros Hs Hc Ht Hb Hv Hu Hpb. destruct (row_spec sip rand_hash c Hs Hc v b) as (l & n & [Hnd Hin] & He & Hle & Hone & Hp); [done..|].
  destruct (pb_extend_spec pb l Hpb) as (pb' & Hx & Hok & _ & Hi). exists l, n, pb'. rewrite Hp. done.
Qed.
