(* ===== verification/PatternExamples.v ===== *)
(** * PatternExamples: triple patterns over a concrete set

    The set of [TribleExamples] with the values of [ConstraintExamples]: one
    entity, one attribute and the values 7, 20 and 90. *)

From S2P Require Import Prelude Lex VariableSet OwnerCover ByteTable KeySchema PatchHash Branch Head Algebra.
From S2P Require Import Machine Trible TribleSet Examples TribleExamples.
From S2P Require Import Liveness Query Constraints Intersection Union ConstraintExamples.
From S2P Require Import TribleIndex TriblePattern TriblePatternSpec.

Open Scope nat_scope.

(** [pattern(1, 2, ?0)], [pattern(?1, ?1, ?0)] and [pattern(?0, 2, ?1)] *)
Definition ex_pattern : TribleSetConstraint := mkPattern (Const (ex_value 1)) (Const (ex_value 2)) (Var 0) ex_s.
Definition ex_twice : TribleSetConstraint := mkPattern (Var 1) (Var 1) (Var 0) ex_s.
Definition ex_edges : TribleSetConstraint := mkPattern (Var 0) (Const (ex_value 2)) (Var 1) ex_s.

Definition ex_tc (c : TribleSetConstraint) : Constraint := constraint ex_sip64 ex_rand true 4 c.

Lemma ex_pattern_ok : pattern_ok ex_pattern.
Proof. intros [| |]; simpl; [by apply ex_value_ok|by apply ex_value_ok|done]. Qed.

Lemma pattern_protocol_witness :
  ConstraintOk (ex_tc ex_pattern)
    (λ a, (∀ p, is_Some (term_val (term_at ex_pattern p) a)) →
      ∃ k, k ∈ ex_keys ex_s ∧ ∀ p, agrees (term_at ex_pattern p) a (value_at p k)) (λ _ v, touches ex_pattern v) ∧
  length <$> ex_propose (ex_tc ex_pattern) 0 = Some 3 ∧ ex_propose (ex_tc ex_twice) 1 = Some [] ∧
  ex_propose (ex_tc ex_edges) 0 = Some [(0%N, ex_value 1)].
Proof.
  split; [apply (pattern_protocol ex_sip64 ex_rand ex_pattern true 4 ex_s_ok ex_pattern_ok)|].
  split; [vm_compute; reflexivity|]. split; vm_compute; reflexivity.
Defined.

Lemma pattern_estimate_witness :
  ∃ l, estimate ex_sip64 ex_rand ex_pattern 0 (store_view store_new) = Some (Some 3%N) ∧ NoDup l ∧ length l = 3 ∧
    ∀ x, x ∈ l ↔ has_row (ex_keys ex_s) ex_pattern (extend (bval (store_view store_new)) 0 x).
Proof.
  destruct (pattern_estimate ex_sip64 ex_rand ex_pattern 0 (store_view store_new) pb_new ex_s_ok ex_pattern_ok)
    as (l & n & pb' & He & _ & _ & _ & Hnd & Hin & _ & Hone);
    [reflexivity|apply store_new_ok|reflexivity|reflexivity|apply pb_new_ok|].
  specialize (Hone eq_refl). exists l.
  assert (estimate ex_sip64 ex_rand ex_pattern 0 (store_view store_new) = Some (Some 3%N)) as E3 by (vm_compute; reflexivity).
  rewrite E3 in He. injection He as He. split; [exact E3|]. split; [exact Hnd|]. split; [lia|exact Hin].
Defined.
