(* ===== verification/QueryExamples.v ===== *)
(** * QueryExamples: the prefix queries and the iterators on a concrete PATCH

    Two-byte keys of two one-byte segments, the second segment first in tree
    order.  The witnesses apply the theorems of [PatchQueries] and [Iterators] to it. *)

From S2P Require Import Prelude Lex OwnerCover ByteTable KeySchema PatchHash Branch Head Algebra.
From S2P Require Import Overlap Canonical Patch Examples Queries PatchQueries Machine Iterators.

Open Scope nat_scope.

#[local] Instance ex2_schema : KeySchema 2 := from_schema (key_schema 2 [1; 1] [1; 0]).
#[local] Instance ex2_schema_ok : KeySchemaOk 2 ex2_schema.
Proof. apply schema_okb_sound. vm_compute. reflexivity. Qed.
#[local] Instance ex2_policy : PatchHash := XorSip128 (foldr N.lxor 0%N).
#[local] Instance ex2_policy_ok : PatchHashOk ex2_policy := XorSip128_ok _.

Abbreviation ex2_PATCH := (PATCH Digest N).

Definition ex2_patch (l : list (list N * N)) : ex2_PATCH :=
  default new (foldM (λ p kv, insert (KEY_LEN:=2) ex_rand p (with_value 16 kv.1 kv.2)) new l).

Lemma ex2_patch_ok l : Forall (λ kv, key_ok 2 kv.1) l → patch_ok ex_rand 0%N (ex2_patch l).
Proof.
  intros Hl. unfold ex2_patch.
  assert (∀ p : ex2_PATCH, patch_ok ex_rand 0%N p → ∃ p', foldM (λ p kv,
      insert (KEY_LEN:=2) ex_rand p (with_value 16 kv.1 kv.2)) p l = Some p' ∧
    patch_ok ex_rand 0%N p') as Hf.
  { induction Hl as [|[k v] l Hk Hl IH]; intros p Hp; [by exists p|]. cbn [foldM fst snd].
    destruct (insert_spec ex_rand 0%N p 16 k v Hp Hk) as (p1 & -> & Hp1 & _).
    cbn [mbind option_bind]. by apply IH. }
  by destruct (Hf new (new_ok _ _)) as (p' & -> & Hp').
Qed.

Definition ex2_p : ex2_PATCH :=
  ex2_patch [([1; 9], 10); ([2; 9], 20); ([3; 8], 30); ([7; 9], 40); ([250; 9], 50)]%N.

Lemma ex2_p_ok : patch_ok ex_rand 0%N ex2_p.
Proof.
  apply ex2_patch_ok. rewrite !Forall_cons. split_and!; [..|by constructor]; (split; [reflexivity|]);
    intros b; cbn [fst]; rewrite !elem_of_cons, elem_of_nil; intros [->|[->|[]]]; reflexivity.
Qed.

Lemma ex2_p_len : (len ex2_p < 2 ^ 64)%N.
Proof. vm_compute. reflexivity. Qed.

Lemma infixes_refines_witness :
  ∃ r, infixes (KEY_LEN:=2) ex_rand ex2_p [9%N] 1 = Some r ∧ plists 0%N ex2_p [9%N] 1 r ∧
    length r = 4.
Proof.
  destruct (infixes_refines ex_rand 0%N ex2_p [9%N] 1 ex2_p_ok) as (r & Hr & Hl); [reflexivity|].
  exists r. split; [done|]. split; [done|]. vm_compute in Hr. injection Hr as <-. reflexivity.
Defined.

Lemma infixes_range_refines_witness :
  ∃ r, infixes (KEY_LEN:=2) ex_rand ex2_p [9%N] 1 = Some r ∧
    infixes_range (KEY_LEN:=2) ex_rand ex2_p [9%N] 1 [2%N] [7%N] =
      Some (filter (λ x, in_range [2%N] [7%N] x = true) r) ∧
    length (filter (λ x, in_range [2%N] [7%N] x = true) r) = 2.
Proof.
  destruct (infixes_range_refines ex_rand 0%N ex2_p [9%N] 1 [2%N] [7%N] ex2_p_ok) as (r & Hr & Hl);
    [reflexivity..|].
  exists r. split; [done|]. split; [done|]. vm_compute in Hr. injection Hr as <-. reflexivity.
Defined.

Lemma count_range_refines_witness :
  ∃ r, infixes_range (KEY_LEN:=2) ex_rand ex2_p [9%N] 1 [2%N] [7%N] = Some r ∧
    count_range (KEY_LEN:=2) ex_rand ex2_p [9%N] 1 [2%N] [7%N] = Some (N.of_nat (length r)) ∧
    length r = 2.
Proof.
  destruct (count_range_refines ex_rand 0%N ex2_p [9%N] 1 [2%N] [7%N] ex2_p_ok) as (r & Hr & Hl);
    [reflexivity..|].
  exists r. split; [done|]. split; [done|]. vm_compute in Hr. injection Hr as <-. reflexivity.
Defined.

Lemma segmented_len_refines_witness :
  ∃ r, infixes (KEY_LEN:=2) ex_rand ex2_p [9%N] 1 = Some r ∧
    segmented_len (KEY_LEN:=2) ex_rand ex2_p [9%N] = Some (N.of_nat (length r)) ∧ length r = 4.
Proof.
  destruct (segmented_len_refines ex_rand 0%N ex2_p [9%N] 1 ex2_p_ok) as (r & Hr & Hl); [reflexivity..|].
  exists r. split; [done|]. split; [done|]. vm_compute in Hr. injection Hr as <-. reflexivity.
Defined.

(** The limit four is enough for the four infixes, and three is not. *)
Lemma bounded_infixes_refines_witness :
  (∃ r view, plists 0%N ex2_p [9%N] 1 r ∧
    bounded_infixes (KEY_LEN:=2) ex_rand ex2_p [9%N] 1 4%N = Some (Some view) ∧
    bi_count view = N.of_nat (length r) ∧
    ∃ r', bounded_for_each (KEY_LEN:=2) view 1 1 = Some r' ∧ r' ≡ₚ r) ∧
  bounded_infixes (KEY_LEN:=2) ex_rand ex2_p [9%N] 1 3%N = Some None.
Proof.
  split; [|reflexivity].
  destruct (bounded_infixes_refines ex_rand 0%N ex2_p [9%N] 1 4%N ex2_p_ok) as (r & o & Hl & Ho & Hv);
    [reflexivity..|].
  destruct o as [view|]; [|vm_compute in Ho; discriminate].
  destruct Hv as (_ & Hc & Hf). exists r, view. split; [done|]. split; [done|]. by split.
Defined.

Lemma first_infix_range_refines_witness :
  ∃ r o, plists 0%N ex2_p [9%N] 1 r ∧
    first_infix_range (KEY_LEN:=2) ex_rand ex2_p [9%N] 1 [2%N] [200%N] = Some o ∧
    least_in_range [2%N] [200%N] r o ∧ o = Some [2%N].
Proof.
  destruct (first_infix_range_refines ex_rand 0%N ex2_p [9%N] 1 [2%N] [200%N] ex2_p_ok)
    as (r & o & Hl & Ho & Hm); [reflexivity..|].
  exists r, o. split_and!; [done..|]. vm_compute in Ho. by injection Ho as <-.
Defined.

Lemma next_infix_after_refines_witness :
  ∃ r o, plists 0%N ex2_p [9%N] 1 r ∧
    next_infix_after (KEY_LEN:=2) ex_rand ex2_p [9%N] 1 [2%N] [255%N] = Some o ∧ o = Some [7%N] ∧
    ∀ y, y ∈ r → lex_lt [2%N] y = true → lex_le y [255%N] = true → lex_le [7%N] y = true.
Proof.
  destruct (next_infix_after_refines ex_rand 0%N ex2_p [9%N] 1 [2%N] [255%N] ex2_p_ok)
    as (r & o & Hl & Ho & Hm); [reflexivity..|by repeat constructor|].
  assert (o = Some [7%N]) as -> by (vm_compute in Ho; by injection Ho as <-).
  exists r, (Some [7%N]). split_and!; [done..|]. apply Hm.
Defined.

Lemma iter_refines_witness :
  ∃ l it n, l ≡ₚ elements (dom (to_map 0%N ex2_p)) ∧ iter (KEY_LEN:=2) ex2_p = Some it ∧
    (it_rest it).2 = 5%N ∧
    ∀ fuel, n ≤ fuel →
      yields iter_hint (iter_next (KEY_LEN:=2) fuel) it l ∧
      yields no_hint (into_next fuel) (into_iter ex2_p) l.
Proof.
  destruct (iter_refines ex_rand 0%N ex2_p ex2_p_ok ex2_p_len) as (l & it & n & Hl & Hit & Hn).
  exists l, it, n. split; [exact Hl|]. split; [exact Hit|]. split; [|exact Hn].
  vm_compute in Hit. injection Hit as <-. reflexivity.
Defined.

Lemma iter_ordered_refines_witness :
  ∃ l st n, l ≡ₚ map_to_list (to_map 0%N ex2_p) ∧ iter_ordered ex2_p = Some st ∧ st.2 = 5%N ∧
    ∀ fuel, n ≤ fuel →
      yields exact_hint (entries_next 0%N fuel) st l ∧ yields exact_hint (ordered_next fuel) st l.*1.
Proof.
  destruct (iter_ordered_refines ex_rand 0%N ex2_p ex2_p_ok ex2_p_len) as (l & st & n & Hl & _ & Hst & Hn).
  exists l, st, n. split; [exact Hl|]. split; [exact Hst|]. split.
  - vm_compute in Hst. injection Hst as <-. reflexivity.
  - intros fuel Hf. destruct (Hn fuel Hf) as (H1 & H2 & _). by split.
Defined.

(** Four keys under [9], one under [8]. *)
Lemma prefixes_refines_witness :
  ∃ l st fuel0, lists_prefixes 0%N ex2_p 1 l ∧ iter_prefix_count (KEY_LEN:=2) ex2_p 1 = Some st ∧
    ∀ fuel, fuel0 ≤ fuel → yields no_hint (prefix_next (KEY_LEN:=2) 1 fuel) st l ∧
      yields no_hint (prefix_set_next (KEY_LEN:=2) 1 fuel) st l.*1.
Proof.
  destruct (prefixes_refines ex_rand 0%N ex2_p 1 ex2_p_ok) as (l & st & n & Hl & Hst & Hn); [lia|].
  exists l, st, n. split; [exact Hl|]. split; [exact Hst|]. intros fuel Hf.
  destruct (Hn fuel Hf) as [H1 H2]. destruct H2 as (_ & H2 & _); [reflexivity|]. by split.
Defined.
