(* ===== verification/Engine.v ===== *)
(** * Engine: the search of a query

    Source: [triblespace-core/src/query.rs] ([BindingStore::refill] and its
    siblings, [DepthPlan], [Depth], [Query]).

    The search keeps a stack of frontiers.  Each step plans the top frontier
    (which variable every row wants bound next), proposes candidates for one
    group of rows that agree, draws a chunk of candidates into the next
    frontier, or emits a complete row.  Counters of [FrontierStats] and the
    scratch vectors, which are cleared before every use, are left out; so is the
    debug assertion of [refill].  [usize] is 64 bits.

    Matrices and buffers sit behind [Arc]: whether this query is their only
    owner is asked of the two oracles [sole_buffer] and [sole_matrices]. *)

From S2P Require Import Prelude Lex VariableSet Machine Trible Liveness Query.

Open Scope nat_scope.

Definition usize_max : N := (2 ^ 64 - 1)%N.

(** ** The store during the search *)

(** Returns the number of proposals. *)
Definition refill (s : BindingStore) (sole : bool) (variable : VariableId) (block : list N) (select : RowSelection)
    (stride : nat) (parallel : bool) (propose : Frontier → ProposalBuffer → res ProposalBuffer)
    : res (nat * BindingStore) :=
  let v := N.to_nat variable in
  level ← s_levels s !! v;
  levels ← arr_set (s_levels s) v level_empty;
  let buffer := default pb_new (lv_buffer level) in
  let buffer := if sole then buffer else pb_new in
  buffer ← propose (mkFrontier (s_bound s) block stride select levels parallel) (pb_clear buffer);
  levels ← arr_set levels v (mkLevel (Some buffer) 0);
  Some (pb_len buffer, mkStore (s_bound s) (s_indexes s) levels).

Definition batch (s : BindingStore) (block : list N) (select : RowSelection) (stride : nat) (parallel : bool) : Frontier :=
  mkFrontier (s_bound s) block stride select (s_levels s) parallel.

Definition consumed (s : BindingStore) (variable : VariableId) : res nat :=
  level ← s_levels s !! N.to_nat variable; Some (lv_pos level).

(** The tag of candidate [i], through the selection. *)
Definition drawn_parent (select : RowSelection) (buffer : ProposalBuffer) (i : nat) : res N :=
  tag ← pb_parent_of buffer i; o ← sel_get select (N.to_nat tag); o.

(** One iteration of [take_chunk]; the state is the cursor, the rows written,
    their number and their parents. *)
Definition chunk_step (buffer : ProposalBuffer) (variable : VariableId) (width : N) (parent_block : list N)
    (select : RowSelection) (stride : nat) (st : nat * list N * nat * list N)
    : res ((nat * list N * nat * list N) + (nat * list N * nat * list N)) :=
  let '(pos, out, rows, parents) := st in
  if (N.of_nat rows <? width)%N then
    next ← pb_next_live buffer pos;
    match next with
    | None => Some (inr (pos, out, rows, parents))
    | Some i =>
        parent ← drawn_parent select buffer i;
        source ← slice_range parent_block (N.to_nat parent * stride) (S (N.to_nat parent) * stride);
        let out := out ++ source in
        let base := length out - stride in
        out ← arr_set out (base + N.to_nat variable) (as_u32 i);
        Some (inl (S i, out, S rows, parents ++ [parent]))
    end
  else Some (inr (pos, out, rows, parents)).

(** Returns the number of rows, the rows, their parents and the store. *)
Definition take_chunk (s : BindingStore) (variable : VariableId) (width : N) (parent_block : list N)
    (select : RowSelection) (stride : nat) : res (nat * list N * list N * BindingStore) :=
  level ← s_levels s !! N.to_nat variable;
  buffer ← level_buffer level;
  '(pos, out, rows, parents) ←
    loopM (chunk_step buffer variable width parent_block select stride) (S (S (pb_len buffer))) (lv_pos level, [], 0, []);
  levels ← arr_set (s_levels s) (N.to_nat variable) (mkLevel (Some buffer) pos);
  Some (rows, out, parents, mkStore (set_value (s_bound s) variable (negb (rows =? 0))) (s_indexes s) levels).

Definition draw_step (buffer : ProposalBuffer) (width : N) (select : RowSelection) (st : nat * list N * list N)
    : res ((nat * list N * list N) + (nat * list N * list N)) :=
  let '(pos, drawn, parents) := st in
  if (N.of_nat (length drawn) <? width)%N then
    next ← pb_next_live buffer pos;
    match next with
    | None => Some (inr (pos, drawn, parents))
    | Some i =>
        parent ← drawn_parent select buffer i;
        Some (inl (S i, drawn ++ [as_u32 i], parents ++ [parent]))
    end
  else Some (inr (pos, drawn, parents)).

Definition draw (s : BindingStore) (variable : VariableId) (width : N) (select : RowSelection)
    : res (list N * list N * BindingStore) :=
  level ← s_levels s !! N.to_nat variable;
  buffer ← level_buffer level;
  '(pos, drawn, parents) ← loopM (draw_step buffer width select) (S (S (pb_len buffer))) (lv_pos level, [], []);
  levels ← arr_set (s_levels s) (N.to_nat variable) (mkLevel (Some buffer) pos);
  Some (drawn, parents, mkStore (set_value (s_bound s) variable (negb (length drawn =? 0))) (s_indexes s) levels).

Definition spent (s : BindingStore) (variable : VariableId) : res bool :=
  level ← s_levels s !! N.to_nat variable;
  buffer ← level_buffer level;
  o ← pb_next_live buffer (lv_pos level);
  Some (match o with None => true | Some _ => false end).

(** ** Levels, plans and frontiers *)

Definition DEFAULT_FRONTIER_WIDTH : N := 16384.
Definition INITIAL_FRONTIER_WIDTH : N := 1.
Definition FRONTIER_RAMP_BASE : N := 8.

Record Level := mkStackLevel { l_variable : VariableId; l_width : N; l_proposed : nat }.

Inductive DepthPlan :=
  | Unplanned
  | Universal (variable : VariableId)
  | Split (order_override : list N) (groups : list (VariableId * nat)).

Definition plan_selection (p : DepthPlan) (rows : nat) : res RowSelection :=
  match p with
  | Split (x :: order) _ => Some (sel_explicit (x :: order))
  | _ => sel_identity rows
  end.

Definition group_count (p : DepthPlan) : nat :=
  match p with Unplanned => 0 | Universal _ => 1 | Split _ groups => length groups end.

Definition plan_group (p : DepthPlan) (group rows : nat) : res (VariableId * (nat * nat)) :=
  match p with
  | Unplanned => None
  | Universal variable => massert (group =? 0);; Some (variable, (0, rows))
  | Split _ groups =>
      start ← (if group =? 0 then Some 0 else g ← groups !! (group - 1); Some g.2);
      '(variable, stop) ← groups !! group;
      Some (variable, (start, stop))
  end.

Record Depth := mkDepth {
  d_block : list N;
  d_rows : nat;
  d_estimates : list N;
  d_plan : DepthPlan;
  d_group : nat;
  d_group_limit : nat;
  d_emit : nat;
}.

Definition depth_default : Depth := mkDepth [] 0 [] Unplanned 0 0 0.
Definition d_selection (d : Depth) : res RowSelection := plan_selection (d_plan d) (d_rows d).
Definition depth_group (d : Depth) (group : nat) : res (VariableId * (nat * nat)) := plan_group (d_plan d) group (d_rows d).

Definition with_plan (d : Depth) (p : DepthPlan) : Depth :=
  mkDepth (d_block d) (d_rows d) (d_estimates d) p 0 (group_count p) (d_emit d).
Definition with_group (d : Depth) (group : nat) : Depth :=
  mkDepth (d_block d) (d_rows d) (d_estimates d) (d_plan d) group (d_group_limit d) (d_emit d).
Definition with_group_limit (d : Depth) (limit : nat) : Depth :=
  mkDepth (d_block d) (d_rows d) (d_estimates d) (d_plan d) (d_group d) limit (d_emit d).
Definition with_emit (d : Depth) (emit : nat) : Depth :=
  mkDepth (d_block d) (d_rows d) (d_estimates d) (d_plan d) (d_group d) (d_group_limit d) emit.
Definition with_matrices (d : Depth) (block estimates : list N) : Depth :=
  mkDepth block (d_rows d) estimates (d_plan d) (d_group d) (d_group_limit d) (d_emit d).

Inductive Search := Plan | NextGroup | NextChunk | Emit | Done.
#[global] Instance search_eq_dec : EqDecision Search.
Proof. solve_decision. Defined.

Record Query := mkQuery {
  q_mode : Search;
  q_bindings : BindingStore;
  q_influences : list VariableSet;
  q_unbound : VariableSet;
  q_slots : nat;
  q_width : N;
  q_parallel : bool;
  q_stack : list Level;
  q_depths : list Depth;
  q_depth : nat;
}.

Definition with_mode (q : Query) (m : Search) : Query :=
  mkQuery m (q_bindings q) (q_influences q) (q_unbound q) (q_slots q) (q_width q) (q_parallel q) (q_stack q) (q_depths q) (q_depth q).
Definition with_bindings (q : Query) (s : BindingStore) : Query :=
  mkQuery (q_mode q) s (q_influences q) (q_unbound q) (q_slots q) (q_width q) (q_parallel q) (q_stack q) (q_depths q) (q_depth q).
Definition with_unbound (q : Query) (u : VariableSet) : Query :=
  mkQuery (q_mode q) (q_bindings q) (q_influences q) u (q_slots q) (q_width q) (q_parallel q) (q_stack q) (q_depths q) (q_depth q).
Definition with_stack (q : Query) (st : list Level) : Query :=
  mkQuery (q_mode q) (q_bindings q) (q_influences q) (q_unbound q) (q_slots q) (q_width q) (q_parallel q) st (q_depths q) (q_depth q).
Definition with_depths (q : Query) (ds : list Depth) : Query :=
  mkQuery (q_mode q) (q_bindings q) (q_influences q) (q_unbound q) (q_slots q) (q_width q) (q_parallel q) (q_stack q) ds (q_depth q).
Definition with_depth (q : Query) (d : nat) : Query :=
  mkQuery (q_mode q) (q_bindings q) (q_influences q) (q_unbound q) (q_slots q) (q_width q) (q_parallel q) (q_stack q) (q_depths q) d.

(** [self.depths[d] = x] *)
Definition set_depth (q : Query) (d : nat) (x : Depth) : res Query :=
  ds ← arr_set (q_depths q) d x; Some (with_depths q ds).

(** [Iterator::max_by_key]: of several maxima the last one. *)
Definition max_step {A K} (le : K → K → bool) (best x : K * A) : K * A := if le best.1 x.1 then x else best.
Definition max_by_key {A K} (le : K → K → bool) (key : A → res K) (l : list A) : res (option A) :=
  keyed ← mapM (λ x, k ← key x; Some (k, x)) l;
  Some (match keyed with [] => None | x :: l => Some (foldl (max_step le) x l).2 end).

(** [windows(2).all(|pair| pair[0] <= pair[1])] *)
Fixpoint nondecreasing (l : list N) : bool :=
  match l with
  | x :: (y :: _) as l' => (x <=? y)%N && nondecreasing l'
  | _ => true
  end.

(** ** Planning *)

(** [checked_ilog2] plus one, zero for zero. *)
Definition bucket (n : N) : N := if (n =? 0)%N then 0%N else (N.log2 n + 1)%N.

(** The order of the keys [(Reverse(bucket), influence)]. *)
Definition choice_le (x y : N * nat) : bool :=
  (y.1 <? x.1)%N || ((y.1 =? x.1)%N && (x.2 <=? y.2)).

Definition preferred (slots : nat) (influences : list VariableSet) (unbound : VariableSet) (estimates : list N)
    (row : nat) : res VariableId :=
  row_estimates ← slice_range estimates (row * slots) (S row * slots);
  o ← max_by_key choice_le
        (λ v, n ← row_estimates !! N.to_nat v; i ← influences !! N.to_nat v; Some (bucket n, count i))
        (into_iter unbound);
  o.

Fixpoint disagreement (prefers : nat → res VariableId) (first : VariableId) (rows : list nat)
    : res (option (nat * VariableId)) :=
  match rows with
  | [] => Some None
  | row :: rows =>
      variable ← prefers row;
      if (variable =? first)%N then disagreement prefers first rows else Some (Some (row, variable))
  end.

Definition count_choices (choice : list VariableId) : res (list nat) :=
  foldM (λ counts variable, n ← counts !! N.to_nat variable; arr_set counts (N.to_nat variable) (S n))
    (replicate 128 0) choice.

(** The state is [starts], the groups and the offset. *)
Definition group_step (counts : list nat) (st : list nat * list (VariableId * nat) * nat) (variable : nat)
    : res (list nat * list (VariableId * nat) * nat) :=
  let '(starts, groups, offset) := st in
  starts ← arr_set starts variable offset;
  n ← counts !! variable;
  Some (if n =? 0 then (starts, groups, offset)
        else (starts, groups ++ [(N.of_nat variable, offset + n)], offset + n)).

Definition place_step (st : list N * list nat) (x : nat * VariableId) : res (list N * list nat) :=
  let '(order, starts) := st in
  start ← starts !! N.to_nat x.2;
  massert (N.of_nat x.1 <? 2 ^ 32)%N;;
  order ← arr_set order start (N.of_nat x.1);
  starts ← arr_set starts (N.to_nat x.2) (S start);
  Some (order, starts).

(** The stable partition of the rows by choice. *)
Definition split_plan (slots : nat) (choice : list VariableId) : res DepthPlan :=
  let rows := length choice in
  counts ← count_choices choice;
  '(starts, groups, _) ← foldM (group_step counts) (replicate 128 0, [], 0) (seq 0 slots);
  if nondecreasing choice then Some (Split [] groups) else
  '(order, _) ← foldM place_step (replicate rows 0%N, starts) (zip (seq 0 rows) choice);
  Some (Split order groups).

Definition plan_rows (prefers : nat → res VariableId) (slots rows : nat) : res DepthPlan :=
  first ← prefers 0;
  o ← disagreement prefers first (seq 1 (rows - 1));
  match o with
  | None => Some (Universal first)
  | Some (row, variable) =>
      rest ← mapM prefers (seq (S row) (rows - S row));
      split_plan slots (replicate row first ++ [variable] ++ rest)
  end.

Definition plan (q : Query) : res Query :=
  depth ← q_depths q !! q_depth q;
  if is_empty (q_unbound q) then
    q ← set_depth q (q_depth q) (with_emit depth 0); Some (with_mode q Emit)
  else
    let rows := d_rows depth in
    massert (negb (rows =? 0));;
    massert (N.of_nat (rows - 1) <? 2 ^ 32)%N;;
    p ← plan_rows (preferred (q_slots q) (q_influences q) (q_unbound q) (d_estimates depth)) (q_slots q) rows;
    q ← set_depth q (q_depth q) (with_plan depth p);
    Some (with_mode q NextGroup).

(** ** The other steps *)

Definition ramp (ceiling : N) (top : Level) (consumed : nat) : N :=
  let next := N.min (N.min usize_max (l_width top * FRONTIER_RAMP_BASE)) ceiling in
  let remaining := N.of_nat (l_proposed top - consumed) in
  if (remaining <? N.min usize_max (next * 2))%N then N.min (N.max remaining next) ceiling else next.

(** [last_mut] *)
Definition widen_last (ceiling : N) (consumed : nat) (stack : list Level) : list Level :=
  alter (λ top, mkStackLevel (l_variable top) (ramp ceiling top consumed) (l_proposed top)) (length stack - 1) stack.

(** The row [parent] of a matrix. *)
Definition matrix_row (block : list N) (slots : nat) (parent : N) : res (list N) :=
  slice_range block (N.to_nat parent * slots) (S (N.to_nat parent) * slots).

(** A fresh child block from a deferred draw. *)
Definition copy_rows (block : list N) (slots : nat) (variable : VariableId) (drawn parents : list N) : res (list N) :=
  foldM (λ out (x : N * N),
    source ← matrix_row block slots x.2;
    let out := out ++ source in
    arr_set out (length out - slots + N.to_nat variable) x.1) [] (zip drawn parents).

Definition copy_estimates (estimates : list N) (slots : nat) (parents : list N) : res (list N) :=
  foldM (λ out parent, source ← matrix_row estimates slots parent; Some (out ++ source)) [] parents.

(** The in-place descent fills one slot of every row. *)
Definition fill_rows (block : list N) (slots : nat) (variable : VariableId) (drawn : list N) : res (list N) :=
  foldM (λ block (x : nat * N), arr_set block (x.1 * slots + N.to_nat variable) x.2) block
    (zip (seq 0 (length drawn)) drawn).

Definition in_order (parents : list N) : bool := bool_decide (parents = N.of_nat <$> seq 0 (length parents)).

Section engine.
Context (c : Constraint) (sole_buffer sole_matrices : Query → bool).

Definition refresh (s : BindingStore) (block estimates : list N) (stale : VariableSet) (rows slots : nat) (parallel : bool)
    : res (list N) :=
  if is_empty stale then Some estimates else
  select ← sel_identity rows;
  let f := batch s block select slots parallel in
  foldM (λ estimates row,
    binding ← f_row f row;
    foldM (λ estimates v,
      o ← estimate c v binding; n ← o; arr_set estimates (row * slots + N.to_nat v) n)
      estimates (into_iter stale))
    estimates (seq 0 rows).

Definition new : res Query :=
  let vars := variables c in
  let influences := (λ v, if is_set vars v then influence c v else new_empty) <$> (N.of_nat <$> seq 0 128) in
  let slots := match find_last_set vars with Some v => S (N.to_nat v) | None => 0 end in
  estimates ← mapM (λ v, if is_set vars v then o ← estimate c v (store_view store_new); o else Some usize_max)
    (N.of_nat <$> seq 0 slots);
  ok ← satisfied c (store_view store_new);
  let root := mkDepth (replicate slots 0%N) 1 estimates Unplanned 0 0 0 in
  Some (mkQuery (if ok : bool then Plan else Done) store_new influences vars slots DEFAULT_FRONTIER_WIDTH false [] [root] 0).

Definition with_frontier_width (q : Query) (width : N) : res Query :=
  massert (0 <? width)%N;;
  Some (mkQuery (q_mode q) (q_bindings q) (q_influences q) (q_unbound q) (q_slots q) width (q_parallel q) (q_stack q)
    (q_depths q) (q_depth q)).

Definition frontier (q : Query) : res Frontier :=
  depth ← q_depths q !! q_depth q;
  select ← d_selection depth;
  Some (batch (q_bindings q) (d_block depth) select (q_slots q) (q_parallel q)).

(** Leave the top frontier. *)
Definition retire (q : Query) : Query :=
  if q_depth q =? 0 then with_mode q Done else with_mode (with_depth q (q_depth q - 1)) NextChunk.

Definition next_group (q : Query) : res Query :=
  depth ← q_depths q !! q_depth q;
  let group := d_group depth in
  if d_group_limit depth <=? group then Some (retire q) else
  '(variable, (start, stop)) ← depth_group depth group;
  q ← set_depth q (q_depth q) (with_group depth (S group));
  let q := with_unbound q (unset (q_unbound q) variable) in
  select ← d_selection depth;
  select ← sel_slice select start stop;
  '(proposed, bindings) ← refill (q_bindings q) (sole_buffer q) variable (d_block depth) select (q_slots q)
    (q_parallel q) (propose c variable);
  massert (length (q_stack q) <? 128);;
  let q := with_stack q (q_stack q ++ [mkStackLevel variable (N.min INITIAL_FRONTIER_WIDTH (q_width q)) proposed]) in
  Some (with_mode (with_bindings q bindings) NextChunk).

(** The next chunk of candidates: deferred when the descent may be one to one,
    else written to the child's block at once. *)
Definition draw_chunk (s : BindingStore) (level : Level) (source child : Depth) (select : RowSelection) (slots : nat)
    (speculate : bool) : res (nat * list N * list N * BindingStore * Depth) :=
  if speculate then
    '(drawn, parents, s) ← draw s (l_variable level) (l_width level) select;
    Some (length drawn, drawn, parents, s, child)
  else
    '(rows, out, parents, s) ← take_chunk s (l_variable level) (l_width level) (d_block source) select slots;
    Some (rows, [], parents, s, with_matrices child out (d_estimates child)).

(** The rows of a draw, with the matrices of source and child after it. *)
Definition descend (q : Query) (source child : Depth) (variable : VariableId) (speculate reusable : bool)
    (rows : nat) (drawn parents : list N) : res (Depth * Depth) :=
  let slots := q_slots q in
  if reusable && sole_matrices q then
    block ← fill_rows (d_block source) slots variable drawn;
    Some (with_matrices source (d_block child) (d_estimates child), with_matrices child block (d_estimates source))
  else
    block ← (if speculate then copy_rows (d_block source) slots variable drawn parents else Some (d_block child));
    estimates ← copy_estimates (d_estimates source) slots parents;
    Some (source, with_matrices child block estimates).

(** The level is spent: its group is done. *)
Definition retire_level (q : Query) (variable : VariableId) : Query :=
  let q := with_stack q (take (length (q_stack q) - 1) (q_stack q)) in
  let q := with_bindings q (store_unset (q_bindings q) variable) in
  with_mode (with_unbound q (set (q_unbound q) variable)) NextGroup.

(** Build the child frontier from the drawn rows and enter it. *)
Definition enter_child (q : Query) (source child : Depth) (variable : VariableId) (speculate : bool) (source_rows rows : nat)
    (drawn parents : list N) : res Query :=
  let parent := q_depth q in
  reusable ← (if speculate && (rows =? source_rows) && in_order parents then spent (q_bindings q) variable else Some false);
  '(source, child) ← descend q source child variable speculate reusable rows drawn parents;
  stale ← q_influences q !! N.to_nat variable;
  estimates ← refresh (q_bindings q) (d_block child) (d_estimates child) (intersect stale (q_unbound q)) rows (q_slots q)
    (q_parallel q);
  q ← set_depth q parent source;
  q ← set_depth q (S parent) (mkDepth (d_block child) rows estimates Unplanned 0 0 0);
  Some (with_mode (with_depth q (S parent)) Plan).

Definition next_chunk (q : Query) : res Query :=
  level ← last (q_stack q);
  let variable := l_variable level in
  let parent := q_depth q in
  source ← q_depths q !! parent;
  massert (1 <=? d_group source);;
  '(_, (start, stop)) ← depth_group source (d_group source - 1);
  let q := if length (q_depths q) <=? S parent then with_depths q (q_depths q ++ [depth_default]) else q in
  let source_rows := stop - start in
  let speculate := (l_proposed level =? source_rows) && (N.of_nat source_rows <=? l_width level)%N &&
    (d_group_limit source <=? d_group source) in
  select ← d_selection source;
  select ← sel_slice select start stop;
  child ← q_depths q !! S parent;
  '(rows, drawn, parents, bindings, child) ← draw_chunk (q_bindings q) level source child select (q_slots q) speculate;
  consumed ← consumed bindings variable;
  let q := with_stack (with_bindings q bindings) (widen_last (q_width q) consumed (q_stack q)) in
  if rows =? 0 then
    q ← set_depth q (S parent) child; Some (retire_level q variable)
  else enter_child q source child variable speculate source_rows rows drawn parents.

(** ** Iteration *)

(** One turn of the loop of [try_next_where]; [inr] returns. *)
Definition try_step {E R} (postprocessing : Binding → option R) (predicate : Binding → E + bool) (q : Query)
    : res (Query + ((E + option R) * Query)) :=
  match q_mode q with
  | Plan => q ← plan q; Some (inl q)
  | NextGroup => q ← next_group q; Some (inl q)
  | NextChunk => q ← next_chunk q; Some (inl q)
  | Emit =>
      depth ← q_depths q !! q_depth q;
      let emit := d_emit depth in
      f ← frontier q;
      if emit <? f_len f then
        binding ← f_row f emit;
        match predicate binding with
        | inl e => Some (inr (inl e, q))
        | inr verdict =>
            let result := if verdict then postprocessing binding else None in
            q ← set_depth q (q_depth q) (with_emit depth (S emit));
            Some (match result with Some r => inr (inr (Some r), q) | None => inl q end)
        end
      else Some (inl (retire q))
  | Done => Some (inr (inr None, q))
  end.

Definition try_next_where {E R} (postprocessing : Binding → option R) (predicate : Binding → E + bool) (fuel : nat) (q : Query)
    : res ((E + option R) * Query) :=
  loopM (try_step postprocessing predicate) fuel q.

Definition next {R} (postprocessing : Binding → option R) (fuel : nat) (q : Query) : res (option R * Query) :=
  '(r, q) ← try_next_where postprocessing (λ _, inr true) fuel q;
  match r : Empty_set + option R with inr o => Some (o, q) | inl e => match e with end end.

(** ** Splitting for parallel execution *)

(** [Clone]: the retired frontiers are dropped. *)
Definition clone (q : Query) : Query := with_depths q (take (S (q_depth q)) (q_depths q)).

Fixpoint any_upto (f : nat → res bool) (n : nat) : res bool :=
  match n with
  | 0 => Some false
  | S n => b ← any_upto f n; if (b : bool) then Some true else f n
  end.

Definition has_ancestor_continuation (q : Query) : res bool :=
  any_upto (λ depth,
    frontier ← q_depths q !! depth;
    if d_group frontier <? d_group_limit frontier then Some true else
    match q_stack q !! depth with
    | None => Some false
    | Some level => n ← consumed (q_bindings q) (l_variable level); Some (n <? l_proposed level)
    end) (q_depth q).

(** The clone, re-rooted at its top frontier. *)
Definition reroot (q : Query) : Query :=
  let right := clone q in
  with_depth (with_depths (with_stack right (drop (q_depth q) (q_stack right))) (drop (q_depth q) (q_depths right))) 0.

(** The remaining query and its sibling. *)
Definition split_pending_group (q : Query) : res (option (Query * Query)) :=
  let depth := q_depth q in
  d ← q_depths q !! depth;
  let current := d_group d in
  let later_group := S current <? d_group_limit d in
  if d_group_limit d <=? current then Some None else
  continues ← (if later_group then Some true else has_ancestor_continuation q);
  if negb continues then Some None else
  let sibling := reroot q in
  q ← set_depth q depth (with_group d (S current));
  root ← q_depths sibling !! 0;
  sibling ← set_depth sibling 0 (with_group_limit root (S (d_group root)));
  Some (Some (q, sibling)).

Definition split_terminal_frontier (q : Query) : res (option (Query * Query)) :=
  let depth := q_depth q in
  d ← q_depths q !! depth;
  if (depth =? 0) || (d_rows d <=? d_emit d) then Some None else
  continues ← has_ancestor_continuation q;
  if negb continues then Some None else
  Some (Some (with_mode (with_depth q (depth - 1)) NextChunk, reroot q)).

Definition into_par_iter (q : Query) : Query :=
  mkQuery (q_mode q) (q_bindings q) (q_influences q) (q_unbound q) (q_slots q) (q_width q) true (q_stack q) (q_depths q) (q_depth q).

(** [QueryParIter::split] *)
Definition split_step (q : Query) : res (Query + (Query * option Query)) :=
  match q_mode q with
  | Plan => q ← plan q; Some (inl q)
  | NextGroup =>
      o ← split_pending_group q;
      match o with
      | Some (q, sibling) => Some (inr (q, Some sibling))
      | None => q ← next_group q; Some (inl q)
      end
  | Emit =>
      o ← split_terminal_frontier q;
      Some (inr (match o with Some (q, sibling) => (q, Some sibling) | None => (q, None) end))
  | Done => Some (inr (q, None))
  | NextChunk => q ← next_chunk q; Some (inl q)
  end.

Definition split (fuel : nat) (q : Query) : res (Query * option Query) := loopM split_step fuel q.
End engine.
