(* ===== verification/EngineRows.v ===== *)
(** * EngineRows: selections, rows and draws of the search

    What the store operations of [Engine] do, in terms of the rows of index
    matrices: a selection is a list of row numbers, a row of a matrix under the
    levels is a binding, and a draw consumes a prefix of the live candidates of a
    level and appends one row per candidate. *)

From Stdlib Require Import FunctionalExtensionality.
From S2P Require Import Prelude Lex VariableSet Machine Trible Liveness Query Engine.

Open Scope nat_scope.

(** ** Variable sets, by membership *)

Lemma vs_ext s t : vs_wf s → vs_wf t → (∀ v, (v < 128)%N → is_set s v = is_set t v) → s = t.
Proof.
  intros Hs Ht Heq. apply bits_inj_elements; [done..|]. apply set_eq. intros v.
  destruct (N.lt_ge_cases v 128) as [Hv|Hv].
  - rewrite <- (bool_decide_eq_true (v ∈ elements s)), <- (bool_decide_eq_true (v ∈ elements t)).
    rewrite <- !is_set_spec by done. by rewrite Heq.
  - rewrite !elem_of_elements. lia.
Qed.

Lemma is_set_intersect s t v : (v < 128)%N → is_set (intersect s t) v = is_set s v && is_set t v.
Proof.
  intros Hv. rewrite !is_set_spec by done. apply eq_true_iff_eq.
  rewrite andb_true_iff, !bool_decide_eq_true, !elem_of_elements. unfold intersect. simpl.
  rewrite N.land_spec, andb_true_iff. naive_solver.
Qed.

Lemma wf_intersect s t : vs_wf t → vs_wf (intersect s t).
Proof. intros Ht. unfold intersect. rewrite N.land_comm. by apply wf_land. Qed.

Lemma into_iter_in s v : vs_wf s → v ∈ into_iter s ↔ (v < 128)%N ∧ is_set s v = true.
Proof.
  intros Hs. destruct (variableset_iteration s Hs) as (He & _).
  rewrite <- (elem_of_list_to_set (C:=gset N)), He. split.
  - intros Hv. assert ((v < 128)%N) by by apply elem_of_elements in Hv as [? _].
    split; [done|]. rewrite is_set_spec by done. by apply bool_decide_eq_true.
  - intros [Hv Hb]. rewrite is_set_spec in Hb by done. by apply bool_decide_eq_true in Hb.
Qed.

Lemma is_empty_spec s : vs_wf s → is_empty s = true ↔ ∀ v, (v < 128)%N → is_set s v = false.
Proof.
  intros Hs. unfold is_empty. rewrite N.eqb_eq, elements_empty_iff by done. split.
  - intros He v Hv. rewrite is_set_spec, He by done. by apply bool_decide_eq_false.
  - intros He. apply leibniz_equiv, elem_of_equiv_empty. intros v Hv.
    assert ((v < 128)%N) as Hlt by by apply elem_of_elements in Hv as [? _].
    specialize (He v Hlt). rewrite is_set_spec in He by done. by apply bool_decide_eq_false in He.
Qed.

(** ** Selections *)

Definition sel_rows (s : RowSelection) : list nat :=
  match s with Consecutive first len => seq (N.to_nat first) len | Explicit values => N.to_nat <$> values end.
Definition sel_ok (s : RowSelection) : Prop :=
  match s with Consecutive first len => (first + N.of_nat len <= 2 ^ 32)%N | Explicit _ => True end.

Lemma sel_len_rows s : sel_len s = length (sel_rows s).
Proof. destruct s; simpl; by rewrite ?length_seq, ?length_fmap. Qed.

Lemma sel_get_spec s i : sel_ok s → sel_get s i = Some (N.of_nat <$> sel_rows s !! i).
Proof.
  destruct s as [first len|values]; simpl; intros Hs.
  - destruct (Nat.ltb_spec i len) as [Hi|Hi].
    + unfold massert. assert ((N.of_nat i < 2 ^ 32)%N) as Hi32 by lia. apply N.ltb_lt in Hi32 as ->.
      cbn [mbind option_bind]. rewrite lookup_seq_lt by done. simpl. do 2 f_equal. rewrite N.mod_small by lia. lia.
    + by rewrite lookup_seq_ge.
  - f_equal. rewrite list_lookup_fmap. destruct (values !! i); simpl; [by rewrite N2Nat.id|done].
Qed.

Lemma consecutive_spec first len : (first + N.of_nat len <= 2 ^ 32)%N →
  consecutive first len = Some (Consecutive first len).
Proof.
  intros Hle. unfold consecutive, consecutive_last. destruct (Nat.eqb_spec len 0); [done|].
  rewrite (proj2 (N.leb_gt _ _)) by lia. by rewrite (proj2 (N.ltb_lt _ _)) by lia.
Qed.

Lemma sel_identity_spec n : (N.of_nat n <= 2 ^ 32)%N →
  ∃ s, sel_identity n = Some s ∧ sel_ok s ∧ sel_rows s = seq 0 n.
Proof. intros Hn. exists (Consecutive 0 n). unfold sel_identity. by rewrite consecutive_spec by lia. Qed.

Lemma sel_slice_spec s a b : sel_ok s → a <= b → b <= length (sel_rows s) →
  ∃ s', sel_slice s a b = Some s' ∧ sel_ok s' ∧ sel_rows s' = take (b - a) (drop a (sel_rows s)).
Proof.
  intros Hs Hab Hb. unfold sel_slice. rewrite (proj2 (Nat.leb_le a b)), (proj2 (Nat.leb_le b _)) by (rewrite ?sel_len_rows; lia).
  cbn [andb massert mbind option_bind]. destruct s as [first len|values].
  - simpl in *. rewrite length_seq in Hb. destruct (Nat.eqb_spec (b - a) 0) as [E|E].
    + rewrite E. simpl. exists (Consecutive 0 0). split_and!; [done|simpl; lia|done].
    + unfold massert. rewrite !(proj2 (N.ltb_lt _ _)) by lia. cbn [mbind option_bind].
      rewrite consecutive_spec by lia. eexists. split_and!; [done|simpl; lia|]. simpl.
      rewrite drop_seq, take_seq. f_equal; lia.
  - eexists. split_and!; [done..|]. simpl. by rewrite fmap_take, fmap_drop.
Qed.

(** ** Rows of a matrix *)

Definition row_cells (stride : nat) (block : list N) (r : nat) : list N := take stride (drop (r * stride) block).
Definition row_fits (stride : nat) (block : list N) (r : nat) : Prop := S r * stride <= length block.
(** Row [r] of [block] under the levels. *)
Definition row_binding (B : VariableSet) (L : list LevelValues) (stride : nat) (block : list N) (r : nat) : Binding :=
  mkBinding B (row_cells stride block r) L.
Definition row_asg B L stride block r : asg := bval (row_binding B L stride block r).
Definition row_ok B L stride block r : Prop := row_fits stride block r ∧ binding_ok (row_binding B L stride block r).

Lemma row_cells_length stride block r : row_fits stride block r → length (row_cells stride block r) = stride.
Proof. unfold row_fits, row_cells. intros Hf. rewrite length_take, length_drop. simpl in Hf. lia. Qed.

Lemma slice_row stride (block : list N) r : row_fits stride block r →
  slice_range block (r * stride) (S r * stride) = Some (row_cells stride block r).
Proof.
  unfold row_fits, slice_range, row_cells. intros Hf. simpl in *.
  rewrite !(proj2 (Nat.leb_le _ _)) by lia. simpl. do 2 f_equal. lia.
Qed.

Lemma f_row_spec f i r : sel_ok (f_select f) → sel_rows (f_select f) !! i = Some r → row_fits (f_stride f) (f_block f) r →
  f_row f i = Some (row_binding (f_bound f) (f_levels f) (f_stride f) (f_block f) r).
Proof.
  intros Hs Hi Hf. unfold f_row, row_indexes. rewrite sel_get_spec, Hi by done. cbn [mbind option_bind fmap option_fmap option_map].
  rewrite Nat2N.id, slice_row by done. done.
Qed.

Lemma frontier_rows_ok f : sel_ok (f_select f) → (N.of_nat (f_len f) < 2 ^ 32)%N →
  Forall (row_ok (f_bound f) (f_levels f) (f_stride f) (f_block f)) (sel_rows (f_select f)) → frontier_ok f.
Proof.
  intros Hs Hlen Hrows. split; [|done]. intros i Hi. unfold f_len in Hi. rewrite sel_len_rows in Hi.
  destruct (lookup_lt_is_Some_2 _ _ Hi) as [r Hr]. rewrite Forall_lookup in Hrows. destruct (Hrows _ _ Hr) as [Hf Hb].
  eexists. by rewrite (f_row_spec f i r).
Qed.

Lemma fval_row f i r : sel_ok (f_select f) → sel_rows (f_select f) !! i = Some r → row_fits (f_stride f) (f_block f) r →
  fval f i = row_asg (f_bound f) (f_levels f) (f_stride f) (f_block f) r.
Proof. intros Hs Hi Hf. unfold fval, frow. by rewrite (f_row_spec f i r). Qed.

(** Two stores whose buffers agree on the variables of [B]. *)
Definition agree (B : VariableSet) (L L' : list LevelValues) : Prop :=
  ∀ v, (v < 128)%N → is_set B v = true → L !! N.to_nat v = L' !! N.to_nat v.

Lemma bget_agree B L L' cells v : agree B L L' → (v < 128)%N → bget (mkBinding B cells L) v = bget (mkBinding B cells L') v.
Proof. intros Ha Hv. unfold bget. simpl. destruct (is_set B v) eqn:E; [|done]. by rewrite (Ha v Hv E). Qed.

Lemma binding_ok_agree B L L' cells : agree B L L' → binding_ok (mkBinding B cells L) → binding_ok (mkBinding B cells L').
Proof. intros Ha Hb v Hv. rewrite <- (bget_agree B L L') by done. by apply Hb. Qed.

Lemma bval_agree B L L' cells : agree B L L' → bval (mkBinding B cells L) = bval (mkBinding B cells L').
Proof.
  intros Ha. apply functional_extensionality. intros v. unfold bval. destruct (N.ltb_spec v 128); [|done].
  by rewrite (bget_agree B L L').
Qed.

Lemma row_ok_agree B L L' stride block r : agree B L L' → row_ok B L stride block r → row_ok B L' stride block r.
Proof. intros Ha [Hf Hb]. split; [done|]. by eapply binding_ok_agree. Qed.
Lemma row_asg_agree B L L' stride block r : agree B L L' → row_asg B L stride block r = row_asg B L' stride block r.
Proof. intros Ha. by apply bval_agree. Qed.

Lemma levels_agree_insert B L v l : (v < 128)%N → is_set B v = false → agree B L (<[N.to_nat v := l]> L).
Proof. intros Hv Hs w Hw Hsw. rewrite list_lookup_insert_ne; [done|]. intros E%N2Nat.inj. congruence. Qed.

(** ** Live candidates *)

Lemma filter_absent {A} (P : A → Prop) `{∀ x, Decision (P x)} (l : list A) : (∀ x, x ∈ l → ¬ P x) → filter P l = [].
Proof.
  induction l as [|x l IH]; intros Hn; [done|]. rewrite filter_cons_False by (apply Hn; set_solver). apply IH. set_solver.
Qed.

(** The live candidates a cursor has not reached. *)
Definition pending_from (b : ProposalBuffer) (pos : nat) : list nat :=
  filter (λ i, wbit (pb_live b) i = true) (seq pos (pb_len b - pos)).

Lemma elem_of_pending b pos i : i ∈ pending_from b pos ↔ pos <= i < pb_len b ∧ wbit (pb_live b) i = true.
Proof. unfold pending_from. rewrite list_elem_of_filter, elem_of_seq. split; intros [? ?]; split; (done || lia). Qed.

Lemma NoDup_pending b pos : NoDup (pending_from b pos).
Proof. apply NoDup_filter, NoDup_seq. Qed.

Lemma pending_skip b pos i : pos <= i <= pb_len b → (∀ j, pos <= j < i → wbit (pb_live b) j = false) →
  pending_from b pos = pending_from b i.
Proof.
  intros Hi Hdead. unfold pending_from. replace (pb_len b - pos) with ((i - pos) + (pb_len b - i)) by lia.
  rewrite seq_app, filter_app. replace (pos + (i - pos)) with i by lia.
  rewrite (filter_absent _ (seq pos (i - pos))); [done|]. intros j Hj%elem_of_seq. rewrite Hdead by lia. done.
Qed.

Lemma pending_cons b i : i < pb_len b → wbit (pb_live b) i = true → pending_from b i = i :: pending_from b (S i).
Proof.
  intros Hi Hl. unfold pending_from. replace (pb_len b - i) with (S (pb_len b - S i)) by lia. simpl.
  by rewrite filter_cons_True.
Qed.

Lemma next_live_pending b pos : pb_ok b → pos <= pb_len b →
  ∃ o, pb_next_live b pos = Some o ∧
    match o with
    | None => pending_from b pos = []
    | Some i => pos <= i < pb_len b ∧ pending_from b pos = i :: pending_from b (S i)
    end.
Proof.
  intros Hb Hpos. destruct (pb_next_live_spec b pos Hb) as (o & Ho & Hl). exists o. split; [done|].
  destruct o as [i|]; simpl in Hl.
  - destruct Hl as (Hi & Hw & Hd). split; [done|]. rewrite (pending_skip b pos i); [apply pending_cons; [lia|done]|lia|exact Hd].
  - rewrite (pending_skip b pos (pb_len b)); [|lia|by intros j Hj; apply Hl; lia]. unfold pending_from. by rewrite Nat.sub_diag.
Qed.

(** ** Draws *)

Lemma row_concat stride (ls : list (list N)) k row : Forall (λ l, length l = stride) ls → ls !! k = Some row →
  row_fits stride (concat ls) k ∧ row_cells stride (concat ls) k = row.
Proof.
  intros Hl. revert k. induction Hl as [|l ls Hlen Hls IH]; intros k Hk; [done|].
  unfold row_fits, row_cells in *. destruct k as [|k]; simpl in *.
  - injection Hk as <-. rewrite length_app. split; [lia|]. rewrite drop_0. by apply take_app_length'.
  - destruct (IH k Hk) as [Hf Hc]. rewrite length_app. split; [lia|].
    rewrite drop_app_ge by lia. rewrite Hlen. by replace (stride + k * stride - stride) with (k * stride) by lia.
Qed.

Lemma concat_rows_length stride (ls : list (list N)) : Forall (λ l, length l = stride) ls → length (concat ls) = length ls * stride.
Proof. induction 1 as [|l ls Hl _ IH]; simpl; [done|]. rewrite length_app. lia. Qed.

(** The row and the value of candidate [i]; [rs] are the rows the tags select. *)
Definition cand_row (b : ProposalBuffer) (rs : list nat) (i : nat) : option (nat * RawInline) :=
  p ← pb_parents b !! i; x ← pb_entries b !! i; r ← rs !! N.to_nat p; Some (r, x).
Definition crow b rs i : nat := match cand_row b rs i with Some (r, _) => r | None => 0 end.

Section draws.
Context (b : ProposalBuffer) (Hb : pb_ok b) (variable : VariableId) (width : N).
Context (select : RowSelection) (Hsel : sel_ok select) (stride : nat) (block : list N).
Abbreviation rs := (sel_rows select).
Implicit Types (pos i : nat).

(** What a draw needs of the candidates ahead. *)
Definition drawable pos : Prop :=
  ∀ i, i ∈ pending_from b pos → is_Some (cand_row b rs i) ∧ row_fits stride block (crow b rs i).

Definition child_cells i : list N := <[N.to_nat variable := as_u32 i]> (row_cells stride block (crow b rs i)).
Definition tags (l : list nat) : list N := (λ i, N.of_nat (crow b rs i)) <$> l.

Lemma drawn_parent_spec i : is_Some (cand_row b rs i) → drawn_parent select b i = Some (N.of_nat (crow b rs i)).
Proof.
  intros [[r x] Hc]. unfold crow. rewrite Hc. unfold cand_row in Hc. unfold drawn_parent, pb_parent_of.
  destruct (pb_parents b !! i) as [p|]; [|done]. cbn [mbind option_bind] in *. rewrite sel_get_spec by done.
  destruct (pb_entries b !! i); [|done]. cbn [mbind option_bind] in *.
  destruct (rs !! N.to_nat p) as [r'|]; [|done]. by injection Hc as -> ->.
Qed.

Lemma drawable_tail pos i : pending_from b pos = i :: pending_from b (S i) → drawable pos → drawable (S i).
Proof. intros Hp Hd j Hj. apply Hd. rewrite Hp. by right. Qed.

Definition taken (n pos : nat) : list nat := take (N.to_nat width - n) (pending_from b pos).

(** The cursor after a draw. *)
Definition drawn_to (n pos pos' : nat) : Prop :=
  pos <= pos' <= pb_len b ∧ pending_from b pos' = drop (length (taken n pos)) (pending_from b pos) ∧
  (taken n pos ≠ [] → pos < pos').

(** Both draws consume the live candidates one by one while there is room. *)
Lemma draw_ind (P : nat → nat → nat → Prop) :
  (∀ fuel n pos, pos <= pb_len b → (width <= N.of_nat n)%N ∨ pending_from b pos = [] → taken n pos = [] → P (S fuel) n pos) →
  (∀ fuel n pos i, pos <= i < pb_len b → (N.of_nat n < width)%N → pb_next_live b pos = Some (Some i) →
    pending_from b pos = i :: pending_from b (S i) → taken n pos = i :: taken (S n) (S i) →
    P fuel (S n) (S i) → P (S fuel) n pos) →
  ∀ fuel n pos, pos <= pb_len b → length (pending_from b pos) < fuel → P fuel n pos.
Proof.
  intros Hstop Hstep. induction fuel as [|fuel IH]; intros n pos Hpos Hf; [lia|].
  destruct (N.le_gt_cases width (N.of_nat n)) as [Hw|Hw].
  { apply Hstop; [done|by left|]. unfold taken. by replace (N.to_nat width - n) with 0 by lia. }
  destruct (next_live_pending b pos Hb Hpos) as ([i|] & Ho & Hp).
  - destruct Hp as [Hi Hp]. eapply Hstep; eauto.
    + unfold taken. rewrite Hp. replace (N.to_nat width - n) with (S (N.to_nat width - S n)) by lia. done.
    + apply IH; [lia|]. rewrite Hp in Hf. simpl in Hf. lia.
  - apply Hstop; [done|by right|]. unfold taken. rewrite Hp. by rewrite take_nil.
Qed.

Lemma drawn_to_stop n pos : pos <= pb_len b → taken n pos = [] → drawn_to n pos pos.
Proof. intros Hpos Ht. unfold drawn_to. rewrite Ht. split_and!; [lia|done|done|done]. Qed.

Lemma drawn_to_step n pos i pos' : pos <= i < pb_len b → pending_from b pos = i :: pending_from b (S i) →
  taken n pos = i :: taken (S n) (S i) → drawn_to (S n) (S i) pos' → drawn_to n pos pos'.
Proof.
  intros Hi Hp Ht (Hpos & Hd & _). unfold drawn_to. rewrite Ht, Hp. split_and!; [lia|lia|done|lia].
Qed.

Lemma drawn_split n pos pos' : drawn_to n pos pos' → pending_from b pos = taken n pos ++ pending_from b pos'.
Proof.
  intros (_ & -> & _). unfold taken. rewrite length_take. destruct (Nat.le_gt_cases (N.to_nat width - n) (length (pending_from b pos))).
  - rewrite Nat.min_l by done. by rewrite take_drop.
  - rewrite take_ge, drop_ge, app_nil_r by lia. done.
Qed.

Lemma chunk_loop fuel n pos out parents : N.to_nat variable < stride → pos <= pb_len b →
  length (pending_from b pos) < fuel → drawable pos →
  ∃ pos', loopM (chunk_step b variable width block select stride) fuel (pos, out, n, parents) =
      Some (pos', out ++ concat (child_cells <$> taken n pos), n + length (taken n pos), parents ++ tags (taken n pos)) ∧
    drawn_to n pos pos'.
Proof.
  intros Hv Hpos Hf. revert fuel n pos Hpos Hf out parents. apply (draw_ind (λ fuel n pos, ∀ out parents, drawable pos → _)).
  - intros fuel n pos Hpos Hstop Ht out parents _. exists pos. rewrite Ht. split; [|by apply drawn_to_stop].
    simpl. rewrite !app_nil_r, Nat.add_0_r. destruct (N.ltb_spec (N.of_nat n) width); [|done].
    destruct Hstop as [?|Hnil]; [lia|]. destruct (next_live_pending b pos Hb Hpos) as ([i|] & Ho & Hp).
    + destruct Hp as [_ Hp]. by rewrite Hp in Hnil.
    + by rewrite Ho.
  - intros fuel n pos i Hi Hw Ho Hp Ht IH out parents Hd.
    destruct (Hd i) as [Hc Hfit]; [rewrite Hp; by left|].
    simpl. apply N.ltb_lt in Hw as ->. rewrite Ho. cbn [mbind option_bind]. rewrite drawn_parent_spec by done.
    cbn [mbind option_bind]. rewrite Nat2N.id. change (stride + crow b rs i * stride) with (S (crow b rs i) * stride).
    rewrite slice_row by done. cbn [mbind option_bind].
    pose proof (row_cells_length _ _ _ Hfit) as Hlen. rewrite arr_set_Some by (rewrite length_app; lia). cbn [mbind option_bind].
    replace (length (out ++ row_cells stride block (crow b rs i)) - stride + N.to_nat variable)
      with (length out + N.to_nat variable) by (rewrite length_app; lia).
    rewrite insert_app_r. destruct (IH (out ++ child_cells i) (parents ++ [N.of_nat (crow b rs i)])) as (pos' & Hl & Hto);
      [by eapply drawable_tail|].
    exists pos'. split; [|by eapply drawn_to_step]. rewrite Ht. unfold child_cells at 1 in Hl. rewrite Hl. simpl.
    rewrite <- !app_assoc. do 2 f_equal. do 2 f_equal. lia.
Qed.

Lemma draw_loop fuel drawn pos parents : pos <= pb_len b → length (pending_from b pos) < fuel → drawable pos →
  ∃ pos', loopM (draw_step b width select) fuel (pos, drawn, parents) =
      Some (pos', drawn ++ (as_u32 <$> taken (length drawn) pos), parents ++ tags (taken (length drawn) pos)) ∧
    drawn_to (length drawn) pos pos'.
Proof.
  intros Hpos Hf. remember (length drawn) as n eqn:En. revert fuel n pos Hpos Hf drawn parents En.
  apply (draw_ind (λ fuel n pos, ∀ drawn parents, n = length drawn → drawable pos → _)).
  - intros fuel n pos Hpos Hstop Ht drawn parents -> _. exists pos. rewrite Ht. split; [|by apply drawn_to_stop].
    simpl. rewrite !app_nil_r. destruct (N.ltb_spec (N.of_nat (length drawn)) width); [|done].
    destruct Hstop as [?|Hnil]; [lia|]. destruct (next_live_pending b pos Hb Hpos) as ([i|] & Ho & Hp).
    + destruct Hp as [_ Hp]. by rewrite Hp in Hnil.
    + by rewrite Ho.
  - intros fuel n pos i Hi Hw Ho Hp Ht IH drawn parents -> Hd.
    destruct (Hd i) as [Hc Hfit]; [rewrite Hp; by left|].
    simpl. apply N.ltb_lt in Hw as ->. rewrite Ho. cbn [mbind option_bind]. rewrite drawn_parent_spec by done.
    cbn [mbind option_bind]. destruct (IH (drawn ++ [as_u32 i]) (parents ++ [N.of_nat (crow b rs i)])) as (pos' & Hl & Hto);
      [rewrite length_app; simpl; lia|by eapply drawable_tail|].
    exists pos'. split; [|by eapply drawn_to_step]. rewrite Ht, Hl. simpl. by rewrite <- !app_assoc.
Qed.
End draws.

(** ** The store operations *)

Definition with_bound (s : BindingStore) (variable : VariableId) (b : bool) (L : list LevelValues) : BindingStore :=
  mkStore (set_value (s_bound s) variable b) (s_indexes s) L.

Section store.
Context (s : BindingStore) (variable : VariableId) (b : ProposalBuffer) (pos : nat).
Context (Hlevel : s_levels s !! N.to_nat variable = Some (mkLevel (Some b) pos)) (Hb : pb_ok b) (Hpos : pos <= pb_len b).
Context (width : N) (select : RowSelection) (Hsel : sel_ok select) (stride : nat) (block : list N).
Context (Hdraw : drawable b select stride block pos).
Abbreviation taken := (taken b width 0 pos).
Abbreviation moved pos' := (<[N.to_nat variable := mkLevel (Some b) pos']> (s_levels s)).

Lemma pending_fuel : length (pending_from b pos) < S (S (pb_len b)).
Proof.
  unfold pending_from. pose proof (length_filter (λ i, wbit (pb_live b) i = true) (seq pos (pb_len b - pos))) as Hl.
  rewrite length_seq in Hl. lia.
Qed.

Lemma take_chunk_spec : N.to_nat variable < stride →
  ∃ pos', take_chunk s variable width block select stride =
      Some (length taken, concat (child_cells b variable select stride block <$> taken), tags b select taken,
            with_bound s variable (negb (length taken =? 0)) (moved pos')) ∧
    drawn_to b width 0 pos pos'.
Proof.
  intros Hv. unfold take_chunk. rewrite Hlevel. cbn [mbind option_bind level_buffer lv_buffer lv_pos].
  destruct (chunk_loop b Hb variable width select Hsel stride block (S (S (pb_len b))) 0 pos [] []) as (pos' & Hl & Hto);
    [done|done|apply pending_fuel|done|].
  rewrite Hl. cbn [mbind option_bind app Nat.add]. apply lookup_lt_Some in Hlevel as Hlt.
  rewrite arr_set_Some by done. cbn [mbind option_bind]. by exists pos'.
Qed.

Lemma draw_spec :
  ∃ pos', draw s variable width select =
      Some (as_u32 <$> taken, tags b select taken, with_bound s variable (negb (length taken =? 0)) (moved pos')) ∧
    drawn_to b width 0 pos pos'.
Proof.
  unfold draw. rewrite Hlevel. cbn [mbind option_bind level_buffer lv_buffer lv_pos].
  destruct (draw_loop b Hb width select Hsel stride block (S (S (pb_len b))) [] pos []) as (pos' & Hl & Hto);
    [done|apply pending_fuel|done|].
  rewrite Hl. cbn [mbind option_bind app length]. apply lookup_lt_Some in Hlevel as Hlt.
  rewrite arr_set_Some by done. cbn [mbind option_bind]. rewrite length_fmap. by exists pos'.
Qed.
End store.

Lemma spent_spec s variable b pos : s_levels s !! N.to_nat variable = Some (mkLevel (Some b) pos) → pb_ok b → pos <= pb_len b →
  ∃ r, spent s variable = Some r ∧ (r = true ↔ pending_from b pos = []).
Proof.
  intros Hl Hb Hpos. unfold spent. rewrite Hl. cbn [mbind option_bind level_buffer lv_buffer lv_pos].
  destruct (next_live_pending b pos Hb Hpos) as ([i|] & -> & Hp); cbn [mbind option_bind]; eexists; (split; [done|]); [|done].
  destruct Hp as [_ ->]. by split.
Qed.

(** ** Matrices of the child frontier *)

(** [block] holds the rows of the drawn candidates [l], in order. *)
Definition child_block b variable select stride (source : list N) (l : list nat) (block : list N) : Prop :=
  ∀ k i, l !! k = Some i → row_fits stride block k ∧ row_cells stride block k = child_cells b variable select stride source i.

Lemma matrix_row_spec block stride r : row_fits stride block r → matrix_row block stride (N.of_nat r) = Some (row_cells stride block r).
Proof. intros Hf. unfold matrix_row. by rewrite Nat2N.id, slice_row. Qed.

Section matrices.
Context (b : ProposalBuffer) (variable : VariableId) (select : RowSelection) (stride : nat) (source : list N).
Context (l : list nat) (Hfit : ∀ i, i ∈ l → row_fits stride source (crow b (sel_rows select) i)).
Context (Hv : N.to_nat variable < stride).

Lemma child_cells_length i : i ∈ l → length (child_cells b variable select stride source i) = stride.
Proof. intros Hi. unfold child_cells. rewrite length_insert. by apply row_cells_length, Hfit. Qed.

Lemma child_cells_rows l' : (∀ i, i ∈ l' → i ∈ l) → Forall (λ c, length c = stride) (child_cells b variable select stride source <$> l').
Proof.
  intros Hsub. apply Forall_fmap, Forall_forall. intros i Hi. simpl. by apply child_cells_length, Hsub.
Qed.

Lemma concat_child_block : child_block b variable select stride source l (concat (child_cells b variable select stride source <$> l)).
Proof. intros k i Hk. apply row_concat; [by apply child_cells_rows|]. rewrite list_lookup_fmap, Hk. done. Qed.

Lemma copy_rows_from l' out : (∀ i, i ∈ l' → i ∈ l) →
  foldM (λ out (x : N * N), source ← matrix_row source stride x.2;
    let out := out ++ source in arr_set out (length out - stride + N.to_nat variable) x.1) out
    (zip (as_u32 <$> l') (tags b select l')) =
  Some (out ++ concat (child_cells b variable select stride source <$> l')).
Proof.
  revert out. induction l' as [|i l' IH]; intros out Hsub; [simpl; by rewrite app_nil_r|].
  pose proof (Hfit i (Hsub i ltac:(by left))) as Hi. pose proof (row_cells_length _ _ _ Hi) as Hlen.
  unfold tags in *. rewrite !fmap_cons. cbn [zip zip_with foldM snd fst]. rewrite matrix_row_spec by done. cbn [mbind option_bind]. rewrite arr_set_Some by (rewrite length_app; lia). cbn [mbind option_bind].
  replace (length (out ++ row_cells stride source (crow b (sel_rows select) i)) - stride + N.to_nat variable)
    with (length out + N.to_nat variable) by (rewrite length_app; lia).
  rewrite insert_app_r, IH by (intros; apply Hsub; by right). by rewrite <- app_assoc.
Qed.

Lemma copy_rows_spec :
  copy_rows source stride variable (as_u32 <$> l) (tags b select l) = Some (concat (child_cells b variable select stride source <$> l)).
Proof. unfold copy_rows. by rewrite copy_rows_from. Qed.

Lemma copy_estimates_spec estimates : (∀ i, i ∈ l → row_fits stride estimates (crow b (sel_rows select) i)) →
  ∃ out, copy_estimates estimates stride (tags b select l) = Some out ∧ length out = length l * stride.
Proof.
  intros Hest. unfold copy_estimates.
  assert (∀ l' out, (∀ i, i ∈ l' → i ∈ l) → ∃ out', foldM (λ out parent, source ← matrix_row estimates stride parent;
    Some (out ++ source)) out (tags b select l') = Some out' ∧ length out' = length out + length l' * stride) as Hgen.
  { induction l' as [|i l' IH]; intros out Hsub; [exists out; split; [done|simpl; lia]|].
    pose proof (Hest i (Hsub i ltac:(by left))) as Hi. unfold tags. rewrite fmap_cons. cbn [foldM]. rewrite matrix_row_spec by done. cbn [mbind option_bind].
    destruct (IH (out ++ row_cells stride estimates (crow b (sel_rows select) i))) as (out' & Ho & Hlen);
      [by intros; apply Hsub; right|].
    exists out'. split; [exact Ho|]. rewrite Hlen, length_app, row_cells_length by done. simpl. lia. }
  destruct (Hgen l []) as (out & Ho & Hlen); [done|]. by exists out.
Qed.
End matrices.

(** Filling one slot of the rows [0, n) leaves the other cells alone. *)
Lemma fill_rows_from stride v (block drawn : list N) n0 : v < stride → (n0 + length drawn) * stride <= length block →
  ∃ block', foldM (λ block (x : nat * N), arr_set block (x.1 * stride + v) x.2) block (zip (seq n0 (length drawn)) drawn) = Some block' ∧
    length block' = length block ∧
    ∀ k, row_fits stride block k →
      row_cells stride block' k = match drawn !! (k - n0) with
        | Some e => if n0 <=? k then <[v := e]> (row_cells stride block k) else row_cells stride block k
        | None => row_cells stride block k end.
Proof.
  intros Hv. revert block n0. induction drawn as [|e drawn IH]; intros block n0 Hlen; simpl in *; [by exists block|].
  rewrite arr_set_Some by nia. cbn [mbind option_bind].
  destruct (IH (<[n0 * stride + v := e]> block) (S n0)) as (block' & -> & Hl & Hrow); [rewrite length_insert; lia|].
  rewrite length_insert in Hl. exists block'. split_and!; [done|done|]. intros k Hk.
  rewrite Hrow by (unfold row_fits in *; by rewrite length_insert).
  assert (row_cells stride (<[n0 * stride + v := e]> block) k =
    if k =? n0 then <[v := e]> (row_cells stride block k) else row_cells stride block k) as Hcell.
  { unfold row_cells, row_fits in *. apply list_eq. intros i.
    destruct (decide (i < stride)) as [Hi|Hi].
    - rewrite lookup_take_lt, lookup_drop by done. destruct (Nat.eqb_spec k n0) as [->|Hne].
      + destruct (decide (i = v)) as [->|Hiv].
        * rewrite !list_lookup_insert_eq; [done|rewrite length_take, length_drop; simpl in *; lia|simpl in *; lia].
        * rewrite !list_lookup_insert_ne by lia. by rewrite lookup_take_lt, lookup_drop.
      + rewrite list_lookup_insert_ne by nia. by rewrite lookup_take_lt, lookup_drop.
    - rewrite lookup_take_ge by lia. symmetry. apply lookup_ge_None. destruct (k =? n0);
        rewrite ?length_insert, length_take; lia. }
  rewrite Hcell. destruct (Nat.eqb_spec k n0) as [->|Hne].
  - rewrite Nat.sub_diag, Nat.leb_refl, (proj2 (Nat.leb_gt (S n0) n0)) by lia.
    by destruct (drawn !! (n0 - S n0)).
  - destruct (Nat.leb_spec n0 k).
    + replace (k - n0) with (S (k - S n0)) by lia. by rewrite (proj2 (Nat.leb_le (S n0) k)) by lia.
    + replace (k - n0) with 0 by lia. replace (k - S n0) with 0 by lia.
      rewrite (proj2 (Nat.leb_gt (S n0) k)) by lia. by destruct (drawn !! 0).
Qed.

(** The in-place descent: candidate [k] of the draw extends row [k]. *)
Lemma fill_rows_spec b variable select stride source l : N.to_nat variable < stride →
  tags b select l = N.of_nat <$> seq 0 (length l) → (∀ i, i ∈ l → row_fits stride source (crow b (sel_rows select) i)) →
  ∃ block, fill_rows source stride variable (as_u32 <$> l) = Some block ∧ child_block b variable select stride source l block.
Proof.
  intros Hv Htags Hfit.
  assert (∀ k i, l !! k = Some i → crow b (sel_rows select) i = k) as Hrow.
  { intros k i Hk. assert (tags b select l !! k = Some (N.of_nat k)) as Ht.
    { rewrite Htags, list_lookup_fmap, lookup_seq_lt by by eapply lookup_lt_Some. done. }
    unfold tags in Ht. rewrite list_lookup_fmap, Hk in Ht. injection Ht as Ht. lia. }
  assert (length l * stride <= length source) as Hlen.
  { destruct (decide (length l = 0)) as [->|Hl]; [simpl; lia|].
    destruct (lookup_lt_is_Some_2 l (length l - 1)) as [i Hi]; [lia|].
    pose proof (Hfit i (list_elem_of_lookup_2 _ _ _ Hi)) as Hf. unfold row_fits in Hf. rewrite (Hrow _ _ Hi) in Hf.
    by replace (S (length l - 1)) with (length l) in Hf by lia. }
  unfold fill_rows. destruct (fill_rows_from stride (N.to_nat variable) source (as_u32 <$> l) 0 Hv) as (block & -> & Hl & Hcells);
    [by rewrite length_fmap|].
  exists block. split; [done|]. intros k i Hk. pose proof (Hfit i (list_elem_of_lookup_2 _ _ _ Hk)) as Hf.
  rewrite (Hrow _ _ Hk) in Hf. split; [unfold row_fits; by rewrite Hl|].
  rewrite Hcells by done. rewrite Nat.sub_0_r, list_lookup_fmap, Hk. simpl. unfold child_cells. by rewrite (Hrow _ _ Hk).
Qed.

Lemma in_order_spec parents : in_order parents = true ↔ parents = N.of_nat <$> seq 0 (length parents).
Proof. apply bool_decide_eq_true. Qed.
