(* ===== verification/EnginePlan.v ===== *)
(** * EnginePlan: the partition of a frontier by preferred variable

    [plan_rows] groups the rows of a frontier by the variable each prefers, with
    a counting sort.  Here: which rows every group selects, in which order, and
    that a preference is a maximum of the engine's key. *)

From S2P Require Import Prelude Lex VariableSet Machine Trible Liveness Query Engine EngineRows.

Open Scope nat_scope.

(** ** Rows by choice *)

(** The rows, numbered from [k], that choose [v]. *)
Definition rows_choosing (k : nat) (choice : list VariableId) (v : nat) : list nat :=
  (filter (λ x : nat * N, x.2 = N.of_nat v) (zip (seq k (length choice)) choice)).*1.
(** The rows that choose a variable below [n], by variable. *)
Definition sorted_rows (choice : list VariableId) (n : nat) : list nat :=
  concat (rows_choosing 0 choice <$> seq 0 n).
Definition offset choice n : nat := length (sorted_rows choice n).

Lemma sorted_rows_S choice n : sorted_rows choice (S n) = sorted_rows choice n ++ rows_choosing 0 choice n.
Proof. unfold sorted_rows. by rewrite seq_S, fmap_app, concat_app, fmap_cons, fmap_nil, concat_cons, concat_nil, app_nil_r. Qed.

Lemma offset_S choice n : offset choice (S n) = offset choice n + length (rows_choosing 0 choice n).
Proof. unfold offset. by rewrite sorted_rows_S, length_app. Qed.

Lemma offset_le choice n m : n <= m → offset choice n <= offset choice m.
Proof. induction 1 as [|m Hm IH]; [done|]. rewrite offset_S. lia. Qed.

Lemma rows_choosing_snoc k choice x v :
  rows_choosing k (choice ++ [x]) v = rows_choosing k choice v ++ (if decide (x = N.of_nat v) then [k + length choice] else []).
Proof.
  unfold rows_choosing. rewrite length_app, seq_app. simpl.
  rewrite zip_with_app by by rewrite length_seq. rewrite filter_app, fmap_app. f_equal. simpl.
  rewrite filter_cons. simpl. by destruct (decide _).
Qed.

Lemma elem_of_choosing k choice v r : r ∈ rows_choosing k choice v ↔ k <= r ∧ choice !! (r - k) = Some (N.of_nat v).
Proof.
  revert r. induction choice as [|x choice IH] using rev_ind; intros r.
  - unfold rows_choosing. simpl. split; [set_solver|by intros []].
  - rewrite rows_choosing_snoc, elem_of_app, IH. split.
    + intros [[Hk Hc]|Hin]; [split; [done|]; by apply lookup_app_l_Some|].
      destruct (decide _) as [->|]; [|set_solver]. apply list_elem_of_singleton in Hin as ->. split; [lia|].
      replace (k + length choice - k) with (length choice + 0) by lia. by rewrite lookup_app_r, Nat.add_0_r, Nat.sub_diag by lia.
    + intros [Hk Hc]. destruct (decide (r - k < length choice)) as [Hlt|Hge].
      * rewrite lookup_app_l in Hc by done. by left.
      * rewrite lookup_app_r in Hc by lia. apply list_lookup_singleton_Some in Hc as [Hr ->]. right.
        rewrite decide_True by done. apply list_elem_of_singleton. lia.
Qed.

Lemma sorted_rows_lookup choice n i r : sorted_rows choice n !! i = Some r →
  ∃ v j, v < n ∧ rows_choosing 0 choice v !! j = Some r ∧ i = offset choice v + j.
Proof.
  induction n as [|n IH]; [done|]. rewrite sorted_rows_S. intros [Hi|[Hi Hr]]%lookup_app_Some.
  - destruct (IH Hi) as (v & j & ? & ? & ?). exists v, j. split_and!; (done || lia).
  - exists n, (i - offset choice n). split_and!; [lia|exact Hr|]. unfold offset in *. lia.
Qed.

Lemma sorted_rows_slice choice n v : v < n →
  take (offset choice (S v) - offset choice v) (drop (offset choice v) (sorted_rows choice n)) = rows_choosing 0 choice v.
Proof.
  intros Hv. replace n with (S v + (n - S v)) by lia. unfold sorted_rows at 1.
  rewrite seq_app, fmap_app, concat_app, Nat.add_0_l. fold (sorted_rows choice (S v)).
  rewrite sorted_rows_S, <- app_assoc, drop_app_length', offset_S by done. apply take_app_length'. lia.
Qed.

Lemma elem_of_sorted choice n r : r ∈ sorted_rows choice n ↔ ∃ v, v < n ∧ choice !! r = Some (N.of_nat v).
Proof.
  unfold sorted_rows. rewrite list_elem_of_In, in_concat. setoid_rewrite <- list_elem_of_In.
  setoid_rewrite list_elem_of_fmap. split.
  - intros (l & (v & -> & Hv) & Hr). apply elem_of_seq in Hv. apply elem_of_choosing in Hr as [_ Hr].
    rewrite Nat.sub_0_r in Hr. exists v. split; [lia|done].
  - intros (v & Hv & Hr). exists (rows_choosing 0 choice v). split; [exists v; split; [done|apply elem_of_seq; lia]|].
    apply elem_of_choosing. rewrite Nat.sub_0_r. split; [lia|done].
Qed.

Lemma NoDup_choosing choice v : NoDup (rows_choosing 0 choice v).
Proof.
  eapply sublist_NoDup; [apply (NoDup_seq 0 (length choice))|]. unfold rows_choosing.
  rewrite <- (fst_zip (seq 0 (length choice)) choice) at 2 by (rewrite length_seq; lia).
  apply fmap_sublist, sublist_filter.
Qed.

Lemma NoDup_sorted choice n : NoDup (sorted_rows choice n).
Proof.
  apply NoDup_alt. intros i j r Hi Hj.
  apply sorted_rows_lookup in Hi as (v & i' & _ & Hi & ->). apply sorted_rows_lookup in Hj as (w & j' & _ & Hj & ->).
  pose proof (list_elem_of_lookup_2 _ _ _ Hi) as Ei. pose proof (list_elem_of_lookup_2 _ _ _ Hj) as Ej.
  apply elem_of_choosing in Ei as [_ Ei]. apply elem_of_choosing in Ej as [_ Ej].
  assert (v = w) as -> by (rewrite Ei in Ej; injection Ej; lia). f_equal. by eapply NoDup_lookup; [apply NoDup_choosing|..].
Qed.

Definition choices_ok (slots : nat) (choice : list VariableId) : Prop := Forall (λ v, N.to_nat v < slots) choice.

(** The grouped order visits every row once. *)
Lemma sorted_rows_perm slots choice : choices_ok slots choice → sorted_rows choice slots ≡ₚ seq 0 (length choice).
Proof.
  intros Hok. apply NoDup_Permutation; [apply NoDup_sorted|apply NoDup_seq|]. intros r. rewrite elem_of_sorted, elem_of_seq. split.
  - intros (v & _ & Hr). apply lookup_lt_Some in Hr. lia.
  - intros [_ Hr]. destruct (lookup_lt_is_Some_2 choice r Hr) as [v Hv]. exists (N.to_nat v).
    rewrite N2Nat.id. split; [|done]. unfold choices_ok in Hok. rewrite Forall_lookup in Hok. by eapply Hok.
Qed.

Lemma sorted_rows_length slots choice : choices_ok slots choice → offset choice slots = length choice.
Proof. intros Hok. unfold offset. rewrite (sorted_rows_perm slots choice Hok). apply length_seq. Qed.

(** ** The counting sort *)

Lemma count_choices_spec choice : choices_ok 128 choice →
  ∃ counts, count_choices choice = Some counts ∧ length counts = 128 ∧
    ∀ v, v < 128 → counts !! v = Some (length (rows_choosing 0 choice v)).
Proof.
  unfold count_choices. induction choice as [|x choice IH] using rev_ind; intros Hok.
  - eexists. split_and!; [done|done|]. intros v Hv. by apply lookup_replicate_2.
  - apply Forall_app in Hok as [Hok Hx]. rewrite Forall_singleton in Hx. destruct (IH Hok) as (counts & Hc & Hl & Hn).
    rewrite foldM_app, Hc. simpl. rewrite Hn by done. cbn [mbind option_bind]. rewrite arr_set_Some by lia. simpl.
    eexists. split_and!; [done|by rewrite length_insert|]. intros v Hv. rewrite rows_choosing_snoc, length_app.
    destruct (decide (x = N.of_nat v)) as [->|Hne].
    + rewrite Nat2N.id, list_lookup_insert_eq by lia. f_equal. simpl. lia.
    + rewrite list_lookup_insert_ne by lia. rewrite Hn by done. f_equal. simpl. lia.
Qed.

(** The end offset of the group before [g]. *)
Definition groups_start (groups : list (VariableId * nat)) (g : nat) : nat :=
  match g with 0 => 0 | S g => match groups !! g with Some x => x.2 | None => 0 end end.

Record groups_ok (choice : list VariableId) (n : nat) (groups : list (VariableId * nat)) : Prop := {
  go_group : ∀ g x, groups !! g = Some x → ∃ v, x = (N.of_nat v, offset choice (S v)) ∧ v < n ∧
    rows_choosing 0 choice v ≠ [] ∧ groups_start groups g = offset choice v;
  go_end : groups_start groups (length groups) = offset choice n;
}.

Lemma groups_start_snoc groups x g : g <= length groups → groups_start (groups ++ [x]) g = groups_start groups g.
Proof. destruct g as [|g]; simpl; [done|]. intros Hg. by rewrite lookup_app_l by lia. Qed.

Lemma group_loop choice counts n : n <= 128 → (∀ v, v < 128 → counts !! v = Some (length (rows_choosing 0 choice v))) →
  ∃ starts groups, foldM (group_step counts) (replicate 128 0, [], 0) (seq 0 n) = Some (starts, groups, offset choice n) ∧
    length starts = 128 ∧ (∀ v, v < n → starts !! v = Some (offset choice v)) ∧ groups_ok choice n groups.
Proof.
  intros Hn Hc. induction n as [|n IH]; [exists (replicate 128 0), []; split_and!; [done|done|intros; lia|by split]|].
  destruct IH as (starts & groups & Hf & Hl & Hs & Hgo); [lia|].
  rewrite seq_S, foldM_app, Hf. simpl. rewrite arr_set_Some by lia. cbn [mbind option_bind]. rewrite Hc by lia. cbn [mbind option_bind].
  assert (∀ v, v < S n → <[n:=offset choice n]> starts !! v = Some (offset choice v)) as Hs'.
  { intros v Hv. destruct (decide (v = n)) as [->|Hne]; [by rewrite list_lookup_insert_eq by lia|].
    rewrite list_lookup_insert_ne by done. apply Hs. lia. }
  rewrite offset_S. destruct (Nat.eqb_spec (length (rows_choosing 0 choice n)) 0) as [E|E].
  - exists (<[n:=offset choice n]> starts), groups. rewrite E, Nat.add_0_r. split_and!; [done|by rewrite length_insert|done|].
    split.
    + intros g x Hg. destruct (go_group _ _ _ Hgo g x Hg) as (v & ? & ? & ? & ?). exists v. split_and!; (done || lia).
    + rewrite (go_end _ _ _ Hgo), offset_S. lia.
  - eexists _, _. split_and!; [done|by rewrite length_insert|done|]. split.
    + intros g x [Hg|[Hg Hx]]%lookup_app_Some.
      * destruct (go_group _ _ _ Hgo g x Hg) as (v & ? & ? & ? & ?). exists v. apply lookup_lt_Some in Hg.
        rewrite groups_start_snoc by lia. split_and!; (done || lia).
      * apply list_lookup_singleton_Some in Hx as [Hlen <-]. exists n. rewrite offset_S. split_and!; [done|lia| |].
        { by intros Hnil; rewrite Hnil in E. }
        replace g with (length groups) by lia. rewrite groups_start_snoc by lia. apply Hgo.
    + rewrite length_app, Nat.add_1_r. simpl. rewrite lookup_app_r, Nat.sub_diag by lia. simpl. by rewrite offset_S.
Qed.

(** What [place_step] has written after the choices [pre]. *)
Record placed (choice pre : list VariableId) (order : list N) (starts : list nat) : Prop := {
  pl_order : length order = length choice;
  pl_starts : length starts = 128;
  pl_next : ∀ v, N.of_nat v ∈ choice → starts !! v = Some (offset choice v + length (rows_choosing 0 pre v));
  pl_rows : ∀ v j r, rows_choosing 0 pre v !! j = Some r → order !! (offset choice v + j) = Some (N.of_nat r);
}.

Lemma choosing_prefix choice pre suf v : choice = pre ++ suf → length (rows_choosing 0 pre v) <= length (rows_choosing 0 choice v).
Proof.
  intros ->. induction suf as [|x suf IH] using rev_ind; [by rewrite app_nil_r|].
  rewrite app_assoc, rows_choosing_snoc, length_app. lia.
Qed.

(** The region of variable [v] ends before that of [w]. *)
Lemma offset_apart choice v w j k : j < length (rows_choosing 0 choice v) → k < length (rows_choosing 0 choice w) →
  offset choice v + j = offset choice w + k → v = w ∧ j = k.
Proof.
  intros Hj Hk Heq. assert (v = w) as ->; [|lia]. destruct (Nat.lt_trichotomy v w) as [Hlt|[->|Hlt]]; [|done|].
  - pose proof (offset_le choice (S v) w Hlt) as Ho. rewrite offset_S in Ho. lia.
  - pose proof (offset_le choice (S w) v Hlt) as Ho. rewrite offset_S in Ho. lia.
Qed.

Lemma region_end slots choice v j : choices_ok slots choice → j < length (rows_choosing 0 choice v) → offset choice v + j < length choice.
Proof.
  intros Hok Hj. assert (v < slots) as Hv.
  { destruct (lookup_lt_is_Some_2 _ _ Hj) as [r Hr%list_elem_of_lookup_2]. apply elem_of_choosing in Hr as [_ Hr].
    unfold choices_ok in Hok. rewrite Forall_lookup in Hok. apply Hok in Hr. lia. }
  rewrite <- (sorted_rows_length slots choice Hok). pose proof (offset_le choice (S v) slots Hv) as Ho. rewrite offset_S in Ho. lia.
Qed.

Lemma place_loop slots choice pre suf order starts : slots <= 128 → choices_ok slots choice → (N.of_nat (length choice) <= 2 ^ 32)%N →
  choice = pre ++ suf → placed choice pre order starts →
  ∃ order' starts', foldM place_step (order, starts) (zip (seq (length pre) (length suf)) suf) = Some (order', starts') ∧
    placed choice choice order' starts'.
Proof.
  intros Hslots Hok H32. revert pre order starts. induction suf as [|x suf IH]; intros pre order starts Hch Hpl.
  { rewrite app_nil_r in Hch. subst pre. by exists order, starts. }
  assert (choice = (pre ++ [x]) ++ suf) as Hch' by by rewrite <- app_assoc.
  assert (x ∈ choice) as Hx by (rewrite Hch; set_solver).
  assert (N.to_nat x < slots) as Hxs by (unfold choices_ok in Hok; rewrite Forall_forall in Hok; by apply Hok).
  assert (length pre < length choice) as Hpre by (rewrite Hch, length_app; simpl; lia).
  pose proof (choosing_prefix choice (pre ++ [x]) suf (N.to_nat x) Hch') as Hcnt.
  rewrite rows_choosing_snoc, N2Nat.id, decide_True, length_app in Hcnt by done. simpl in Hcnt.
  assert (offset choice (N.to_nat x) + length (rows_choosing 0 pre (N.to_nat x)) < length choice) as Hpos
    by (eapply region_end; [done|lia]).
  simpl. rewrite (pl_next _ _ _ _ Hpl) by by rewrite N2Nat.id. unfold massert. rewrite (proj2 (N.ltb_lt _ _)) by lia.
  cbn [mbind option_bind]. rewrite !arr_set_Some by (rewrite ?(pl_order _ _ _ _ Hpl), ?(pl_starts _ _ _ _ Hpl); lia).
  cbn [mbind option_bind].
  replace (S (length pre)) with (length (pre ++ [x])) by (rewrite length_app; simpl; lia). apply IH; [done|].
  split; rewrite ?length_insert; [apply Hpl|apply Hpl| |].
  - intros v Hv. rewrite rows_choosing_snoc. destruct (decide (x = N.of_nat v)) as [->|Hne].
    + rewrite Nat2N.id, list_lookup_insert_eq by (rewrite (pl_starts _ _ _ _ Hpl); lia). f_equal. rewrite length_app. simpl. lia.
    + rewrite list_lookup_insert_ne by lia. rewrite app_nil_r. by apply Hpl.
  - intros v j r Hr. rewrite rows_choosing_snoc in Hr.
    assert (j < length (rows_choosing 0 choice v)) as Hj.
    { pose proof (choosing_prefix choice (pre ++ [x]) suf v Hch') as Hle. rewrite rows_choosing_snoc in Hle.
      apply lookup_lt_Some in Hr. lia. }
    apply lookup_app_Some in Hr as [Hr|[Hge Hr]].
    + apply lookup_lt_Some in Hr as Hlt. rewrite list_lookup_insert_ne; [by apply Hpl|].
      intros Heq. apply offset_apart in Heq as [<- <-]; [lia|lia|done].
    + destruct (decide (x = N.of_nat v)) as [->|]; [|done]. apply list_lookup_singleton_Some in Hr as [Hj0 <-].
      rewrite Nat2N.id in *. replace j with (length (rows_choosing 0 pre v)) by lia.
      rewrite list_lookup_insert_eq by (rewrite (pl_order _ _ _ _ Hpl); lia). done.
Qed.

Lemma placed_order slots choice order starts : choices_ok slots choice → placed choice choice order starts →
  order = N.of_nat <$> sorted_rows choice slots.
Proof.
  intros Hok Hpl. symmetry. apply list_eq_same_length with (length choice).
  - apply Hpl.
  - rewrite length_fmap. by apply sorted_rows_length.
  - intros i x y Hi Hx Hy. rewrite list_lookup_fmap in Hx. destruct (sorted_rows choice slots !! i) as [r|] eqn:Er; [|done].
    simpl in Hx. apply sorted_rows_lookup in Er as (v & j & _ & Hj & ->). rewrite (pl_rows _ _ _ _ Hpl v j r Hj) in Hy. congruence.
Qed.

(** In nondecreasing choices the rows are grouped already. *)
Lemma nondecreasing_cons x l : nondecreasing (x :: l) = true → nondecreasing l = true ∧ Forall (λ y, (x <= y)%N) l.
Proof.
  revert x. induction l as [|y l IH]; intros x Hnd; [done|].
  cbn [nondecreasing] in Hnd. apply andb_true_iff in Hnd as [Hxy Hnd]. apply N.leb_le in Hxy. split; [done|].
  destruct (IH y Hnd) as [_ Hall]. constructor; [done|]. eapply Forall_impl; [exact Hall|]. simpl. lia.
Qed.

Definition below_choosing (k : nat) (choice : list VariableId) (n : nat) : list nat :=
  (filter (λ x : nat * N, (x.2 < N.of_nat n)%N) (zip (seq k (length choice)) choice)).*1.

Lemma below_choosing_S k choice n : nondecreasing choice = true →
  below_choosing k choice (S n) = below_choosing k choice n ++ rows_choosing k choice n.
Proof.
  unfold below_choosing, rows_choosing. revert k. induction choice as [|x choice IH]; intros k Hnd; [done|].
  apply nondecreasing_cons in Hnd as [Hnd Hall]. specialize (IH (S k) Hnd). simpl.
  assert (∀ l, (∀ z, z ∈ l → z ∈ zip (seq (S k) (length choice)) choice) → (N.of_nat n <= x)%N →
    filter (λ x : nat * N, (x.2 < N.of_nat n)%N) l = []) as Hnone.
  { intros l Hl Hx. apply filter_absent. intros [r y] Hin%Hl%elem_of_zip_r. rewrite Forall_forall in Hall.
    specialize (Hall y Hin). simpl in *. lia. }
  destruct (N.lt_trichotomy x (N.of_nat n)) as [Hlt|[->|Hgt]].
  - rewrite !(filter_cons_True (λ x : nat * N, (_ < _)%N)), filter_cons_False by (simpl; lia). simpl. by f_equal.
  - rewrite Hnone in IH by (done || lia).
    rewrite filter_cons_True, filter_cons_False, filter_cons_True by (simpl; lia). rewrite Hnone by (done || lia). simpl in *. by f_equal.
  - rewrite Hnone in IH by (done || lia). rewrite !filter_cons_False by (simpl; lia). rewrite Hnone by (done || lia). done.
Qed.

Lemma nondecreasing_sorted slots choice : choices_ok slots choice → nondecreasing choice = true →
  sorted_rows choice slots = seq 0 (length choice).
Proof.
  intros Hok Hnd. assert (∀ n, sorted_rows choice n = below_choosing 0 choice n) as ->.
  { induction n as [|n IH].
    - unfold below_choosing. rewrite filter_absent; [done|]. intros x _. lia.
    - by rewrite sorted_rows_S, IH, below_choosing_S. }
  unfold below_choosing. transitivity ((zip (seq 0 (length choice)) choice).*1); [|apply fst_zip; rewrite length_seq; lia].
  f_equal.
  assert (∀ l : list (nat * N), Forall (λ x, (x.2 < N.of_nat slots)%N) l → filter (λ x : nat * N, (x.2 < N.of_nat slots)%N) l = l) as Hall.
  { induction 1 as [|x l Hx _ IH]; [done|]. rewrite filter_cons_True by done. by rewrite IH. }
  apply Hall, Forall_forall. intros [r y] Hin%elem_of_zip_r. unfold choices_ok in Hok. rewrite Forall_forall in Hok.
  specialize (Hok y Hin). simpl in *. lia.
Qed.

(** ** Plans *)

(** The order in which a plan visits the rows, and where its groups start. *)
Definition plan_order (p : DepthPlan) (rows : nat) : list nat :=
  match p with Split (x :: order) _ => N.to_nat <$> x :: order | _ => seq 0 rows end.
Definition group_start (p : DepthPlan) (rows g : nat) : nat :=
  match p with
  | Unplanned => 0
  | Universal _ => if g =? 0 then 0 else rows
  | Split _ groups => groups_start groups g
  end.
(** The rows of the groups from [g] up to [stop]. *)
Definition group_rows (p : DepthPlan) (rows g stop : nat) : list nat :=
  take (group_start p rows stop - group_start p rows g) (drop (group_start p rows g) (plan_order p rows)).

Lemma plan_selection_spec p rows : (N.of_nat rows <= 2 ^ 32)%N →
  ∃ s, plan_selection p rows = Some s ∧ sel_ok s ∧ sel_rows s = plan_order p rows.
Proof. intros H32. destruct p as [|v|[|x order] groups]; try by apply sel_identity_spec. by eexists. Qed.

(** A plan for the preferences of the rows: every group has the rows that
    prefer its variable, in ascending order, and every row is in one group. *)
Record planned (prefers : nat → res VariableId) (p : DepthPlan) (rows : nat) : Prop := {
  pd_order : plan_order p rows ≡ₚ seq 0 rows;
  pd_end : group_start p rows (group_count p) = rows;
  pd_group : ∀ g, g < group_count p → ∃ v, plan_group p g rows = Some (v, (group_start p rows g, group_start p rows (S g))) ∧
    group_start p rows g < group_start p rows (S g) <= rows ∧
    group_rows p rows g (S g) = filter (λ r, prefers r = Some v) (seq 0 rows);
}.

Lemma choosing_filter prefers choice v : (∀ r x, choice !! r = Some x → prefers r = Some x) →
  rows_choosing 0 choice v = filter (λ r, prefers r = Some (N.of_nat v)) (seq 0 (length choice)).
Proof.
  induction choice as [|x choice IH] using rev_ind; intros Hp; [done|].
  rewrite rows_choosing_snoc, IH by (intros r y Hr; apply Hp; by apply lookup_app_l_Some).
  rewrite length_app, Nat.add_1_r, seq_S, filter_app. f_equal. simpl.
  assert (prefers (length choice) = Some x) as Hx by (apply Hp; by rewrite lookup_app_r, Nat.sub_diag by lia).
  destruct (decide (x = N.of_nat v)) as [->|Hne].
  - by rewrite filter_cons_True.
  - rewrite filter_cons_False; [done|]. rewrite Hx. by intros [= ?].
Qed.

Lemma disagreement_spec prefers first s n : (∀ r, s <= r < s + n → is_Some (prefers r)) →
  ∃ o, disagreement prefers first (seq s n) = Some o ∧
    match o with
    | None => ∀ r, s <= r < s + n → prefers r = Some first
    | Some (row, v) => s <= row < s + n ∧ prefers row = Some v ∧ ∀ r, s <= r < row → prefers r = Some first
    end.
Proof.
  revert s. induction n as [|n IH]; intros s Hp; simpl.
  { exists None. split; [done|]. lia. }
  destruct (Hp s) as [v Hv]; [lia|]. rewrite Hv. cbn [mbind option_bind]. destruct (N.eqb_spec v first) as [->|Hne].
  - destruct (IH (S s)) as (o & -> & Ho); [intros; apply Hp; lia|]. exists o. split; [done|].
    destruct o as [[row w]|].
    + destruct Ho as (? & ? & Ho). split; [lia|]. split; [done|]. intros r Hr. destruct (decide (r = s)) as [->|]; [done|]. apply Ho. lia.
    + intros r Hr. destruct (decide (r = s)) as [->|]; [done|]. apply Ho. lia.
  - exists (Some (s, v)). split; [done|]. split; [lia|]. split; [done|]. intros r Hr. lia.
Qed.

Lemma split_plan_spec prefers slots choice : slots <= 128 → choices_ok slots choice → choice ≠ [] →
  (N.of_nat (length choice) <= 2 ^ 32)%N → (∀ r x, choice !! r = Some x → prefers r = Some x) →
  ∃ p, split_plan slots choice = Some p ∧ planned prefers p (length choice).
Proof.
  intros Hslots Hok Hne H32 Hp. unfold split_plan.
  assert (choices_ok 128 choice) as Hok128 by (eapply Forall_impl; [exact Hok|]; simpl; lia).
  destruct (count_choices_spec choice Hok128) as (counts & -> & Hcl & Hc). cbn [mbind option_bind].
  destruct (group_loop choice counts slots Hslots Hc) as (starts & groups & -> & Hsl & Hs & Hgo). cbn [mbind option_bind].
  assert (∀ order, plan_order (Split order groups) (length choice) = sorted_rows choice slots →
    planned prefers (Split order groups) (length choice)) as Hplanned.
  { intros order Ho. split.
    - rewrite Ho. by apply sorted_rows_perm.
    - simpl. rewrite (go_end _ _ _ Hgo). by apply sorted_rows_length.
    - intros g Hg. simpl in Hg. destruct (lookup_lt_is_Some_2 groups g Hg) as [x Hx].
      destruct (go_group _ _ _ Hgo g x Hx) as (v & -> & Hv & Hnil & Hstart).
      assert (group_start (Split order groups) (length choice) (S g) = offset choice (S v)) as Hstop by (simpl; by rewrite Hx).
      assert (group_start (Split order groups) (length choice) g = offset choice v) as Hstart' by done.
      exists (N.of_nat v). unfold group_rows. rewrite Hstop, Hstart', Ho. split_and!.
      + simpl. assert ((if g =? 0 then Some 0 else g0 ← groups !! (g - 1); Some g0.2) = Some (offset choice v)) as ->.
        { rewrite <- Hstart. destruct g as [|g]; [done|]. simpl. rewrite Nat.sub_0_r.
          by destruct (lookup_lt_is_Some_2 groups g) as [y ->]; [lia|]. }
        cbn [mbind option_bind]. by rewrite Hx.
      + rewrite offset_S. destruct (rows_choosing 0 choice v); [done|simpl; lia].
      + rewrite <- (sorted_rows_length slots choice Hok). by apply offset_le.
      + rewrite sorted_rows_slice by done. by apply choosing_filter. }
  destruct (nondecreasing choice) eqn:Hnd.
  { eexists. split; [done|]. apply Hplanned. simpl. symmetry. by apply nondecreasing_sorted. }
  destruct (place_loop slots choice [] choice (replicate (length choice) 0%N) starts) as (order & starts' & Hf & Hpl); [done..| |].
  { split; [by rewrite length_replicate|done| |done]. intros v Hv. unfold choices_ok in Hok. rewrite Forall_forall in Hok.
    apply Hok in Hv. rewrite Hs by lia. f_equal. simpl. lia. }
  change (length (@nil N)) with 0 in Hf. rewrite Hf. cbn [mbind option_bind]. eexists. split; [done|]. apply Hplanned.
  rewrite (placed_order slots choice order starts' Hok Hpl).
  assert (length (sorted_rows choice slots) = length choice) as Hl by by apply sorted_rows_length.
  destruct (sorted_rows choice slots) as [|r l] eqn:Er; [by destruct choice|].
  simpl. rewrite Nat2N.id. f_equal. rewrite <- list_fmap_compose. rewrite <- (list_fmap_id l) at 2.
  apply list_fmap_ext. intros i x _. apply Nat2N.id.
Qed.

Lemma plan_rows_spec prefers slots rows : slots <= 128 → 0 < rows → (N.of_nat rows <= 2 ^ 32)%N →
  (∀ r, r < rows → ∃ v, prefers r = Some v ∧ N.to_nat v < slots) →
  ∃ p, plan_rows prefers slots rows = Some p ∧ planned prefers p rows.
Proof.
  intros Hslots Hrows H32 Hp. unfold plan_rows. destruct (Hp 0) as (first & Hf & Hfs); [lia|]. rewrite Hf. cbn [mbind option_bind].
  destruct (disagreement_spec prefers first 1 (rows - 1)) as (o & -> & Ho).
  { intros r Hr. destruct (Hp r) as (v & -> & _); [lia|]. done. }
  cbn [mbind option_bind]. destruct o as [[row v]|].
  - destruct Ho as (Hrow & Hv & Hbefore).
    assert (∃ rest, mapM prefers (seq (S row) (rows - S row)) = Some rest ∧ Forall2 (λ r x, prefers r = Some x) (seq (S row) (rows - S row)) rest) as (rest & -> & Hrest).
    { assert (∀ l, (∀ r, r ∈ l → r < rows) → is_Some (mapM prefers l)) as Hall.
      { intros l Hl. apply mapM_is_Some_2, Forall_forall. intros r Hr. destruct (Hp r (Hl r Hr)) as (x & Hx & _). by exists x. }
      destruct (Hall (seq (S row) (rows - S row))) as [rest Hr]; [intros r Hr%elem_of_seq; lia|]. exists rest. split; [done|by apply mapM_Some]. }
    cbn [mbind option_bind]. set (choice := replicate row first ++ [v] ++ rest).
    pose proof (Forall2_length _ _ _ Hrest) as Hlr. rewrite length_seq in Hlr.
    assert (length choice = rows) as Hlen by (unfold choice; rewrite !length_app, length_replicate; simpl; lia).
    assert (∀ r x, choice !! r = Some x → prefers r = Some x) as Hch.
    { intros r x [Hr|[Hge Hr]]%lookup_app_Some.
      - apply lookup_replicate in Hr as [-> Hr]. destruct (decide (r = 0)) as [->|]; [done|]. apply Hbefore. lia.
      - rewrite length_replicate in *. apply lookup_app_Some in Hr as [Hr|[Hge' Hr]].
        + apply list_lookup_singleton_Some in Hr as [Hr0 <-]. by replace r with row by lia.
        + simpl in *. destruct (Forall2_lookup_r _ _ _ _ _ Hrest Hr) as (r' & Hr' & Hx). apply lookup_seq in Hr' as [-> _].
          by replace (S row + (r - row - 1)) with r in Hx by lia. }
    destruct (split_plan_spec prefers slots choice) as (p & Hs & Hpl); [done| | |by rewrite Hlen|done|].
    + apply Forall_lookup. intros r x Hr. apply lookup_lt_Some in Hr as Hlt. apply Hch in Hr. destruct (Hp r) as (y & Hy & ?); [lia|].
      by simplify_eq.
    + unfold choice. by destruct (replicate row first).
    + exists p. rewrite Hs. split; [done|]. by rewrite Hlen in Hpl.
  - exists (Universal first). split; [done|]. split; [done|simpl; done|].
    intros g Hg. simpl in Hg. assert (g = 0) as -> by lia. exists first. unfold group_rows. simpl. split_and!; [done|lia|lia|].
    rewrite drop_0, Nat.sub_0_r, take_ge by (rewrite length_seq; lia).
    assert (∀ l : list nat, (∀ r, r ∈ l → prefers r = Some first) → filter (λ r, prefers r = Some first) l = l) as Hall.
    { induction l as [|r l IH]; intros Hl; [done|]. rewrite filter_cons_True by (apply Hl; by left). f_equal. apply IH. intros. apply Hl. by right. }
    symmetry. apply Hall. intros r Hr%elem_of_seq. destruct (decide (r = 0)) as [->|]; [done|]. apply Ho. lia.
Qed.

(** ** Preferences *)

Lemma choice_le_total x y : choice_le x y = false → choice_le y x = true.
Proof.
  unfold choice_le. destruct (N.ltb_spec y.1 x.1), (N.eqb_spec y.1 x.1), (Nat.leb_spec x.2 y.2),
    (N.ltb_spec x.1 y.1), (N.eqb_spec x.1 y.1), (Nat.leb_spec y.2 x.2); simpl; intros; (done || lia).
Qed.
Lemma choice_le_refl x : choice_le x x = true.
Proof. unfold choice_le. by rewrite N.eqb_refl, Nat.leb_refl, orb_true_r. Qed.
Lemma choice_le_trans x y z : choice_le x y = true → choice_le y z = true → choice_le x z = true.
Proof.
  unfold choice_le. destruct (N.ltb_spec y.1 x.1), (N.eqb_spec y.1 x.1), (Nat.leb_spec x.2 y.2),
    (N.ltb_spec z.1 y.1), (N.eqb_spec z.1 y.1), (Nat.leb_spec y.2 z.2),
    (N.ltb_spec z.1 x.1), (N.eqb_spec z.1 x.1), (Nat.leb_spec x.2 z.2); simpl; intros; (done || lia).
Qed.

Lemma max_fold {A} (l : list ((N * nat) * A)) x :
  foldl (max_step choice_le) x l ∈ x :: l ∧ ∀ y, y ∈ x :: l → choice_le y.1 (foldl (max_step choice_le) x l).1 = true.
Proof.
  revert x. induction l as [|z l IH]; intros x; simpl.
  { split; [by left|]. intros y ->%list_elem_of_singleton. apply choice_le_refl. }
  destruct (IH (max_step choice_le x z)) as [Hin Hmax]. split.
  - unfold max_step in *. destruct (choice_le x.1 z.1); set_solver.
  - pose proof (Hmax _ (list_elem_of_here _ _)) as Hhead. unfold max_step in *.
    intros y [->|[->|Hy]%elem_of_cons]%elem_of_cons; [| |apply Hmax; by right];
      destruct (choice_le x.1 z.1) eqn:E; try done; eapply choice_le_trans; try exact Hhead; [done|by apply choice_le_total].
Qed.

Lemma max_by_key_spec {A} (key : A → res (N * nat)) (l : list A) : l ≠ [] → (∀ x, x ∈ l → is_Some (key x)) →
  ∃ x k, max_by_key choice_le key l = Some (Some x) ∧ x ∈ l ∧ key x = Some k ∧
    ∀ y ky, y ∈ l → key y = Some ky → choice_le ky k = true.
Proof.
  intros Hne Hkey. unfold max_by_key.
  assert (∃ keyed, mapM (λ x, k ← key x; Some (k, x)) l = Some keyed ∧ Forall2 (λ x y, key x = Some y.1 ∧ y.2 = x) l keyed) as (keyed & -> & Hk).
  { assert (is_Some (mapM (λ x, k ← key x; Some (k, x)) l)) as [keyed Hm].
    { apply mapM_is_Some_2, Forall_forall. intros x Hx. destruct (Hkey x Hx) as [k Hk]. simpl. rewrite Hk. done. }
    exists keyed. split; [done|]. apply mapM_Some in Hm. eapply Forall2_impl; [exact Hm|]. simpl.
    intros x y Hy. apply bind_Some in Hy as (k & Hk & [= <-]). done. }
  cbn [mbind option_bind]. destruct keyed as [|x0 keyed]; [by destruct l; [|inversion Hk]|].
  destruct (max_fold keyed x0) as [Hin Hmax]. set (m := foldl _ _ _) in *. exists m.2, m.1.
  apply list_elem_of_lookup in Hin as [i Hi]. destruct (Forall2_lookup_r _ _ _ _ _ Hk Hi) as (x & Hx & Hkx & Hmx).
  rewrite Hmx. split_and!; [done|by eapply list_elem_of_lookup_2|done|].
  intros y ky Hy Hky. apply list_elem_of_lookup in Hy as [j Hj]. destruct (Forall2_lookup_l _ _ _ _ _ Hk Hj) as (z & Hz & Hkz & _).
  rewrite Hky in Hkz. injection Hkz as ->. apply Hmax. by eapply list_elem_of_lookup_2.
Qed.

(** What a row weighs of a variable: the bucket of its estimate and its influence. *)
Definition choice_key (slots : nat) (influences : list VariableSet) (estimates : list N) (row : nat) (v : VariableId) : N * nat :=
  (bucket (estimates !!! (row * slots + N.to_nat v)), count (default new_empty (influences !! N.to_nat v))).

Lemma row_cells_lookup slots (estimates : list N) row k : k < slots →
  row_cells slots estimates row !! k = estimates !! (row * slots + k).
Proof. intros Hk. unfold row_cells. by rewrite lookup_take_lt, lookup_drop by done. Qed.

Lemma preferred_max slots influences unbound estimates row : vs_wf unbound → is_empty unbound = false →
  (∀ v, (v < 128)%N → is_set unbound v = true → N.to_nat v < slots) → slots <= length influences → row_fits slots estimates row →
  ∃ v, preferred slots influences unbound estimates row = Some v ∧ (v < 128)%N ∧ is_set unbound v = true ∧
    ∀ w, (w < 128)%N → is_set unbound w = true →
      choice_le (choice_key slots influences estimates row w) (choice_key slots influences estimates row v) = true.
Proof.
  intros Hw Hne Hslots Hinf Hfit. unfold preferred. rewrite slice_row by done. cbn [mbind option_bind].
  set (key := λ v, n ← row_cells slots estimates row !! N.to_nat v; i ← influences !! N.to_nat v; Some (bucket n, count i)).
  assert (∀ v, v ∈ into_iter unbound → key v = Some (choice_key slots influences estimates row v)) as Hkey.
  { intros v [Hv Hs]%into_iter_in; [|done]. specialize (Hslots v Hv Hs). unfold key, choice_key.
    rewrite row_cells_lookup, (list_lookup_lookup_total_lt estimates) by (unfold row_fits in Hfit; simpl in Hfit; lia). cbn [mbind option_bind].
    by destruct (lookup_lt_is_Some_2 influences (N.to_nat v)) as [i ->]; [lia|]. }
  destruct (max_by_key_spec key (into_iter unbound)) as (v & k & -> & Hin & Hk & Hmax).
  - intros Hnil. apply not_true_iff_false in Hne. apply Hne. apply is_empty_spec; [done|]. intros v Hv.
    apply not_true_iff_false. intros Hs. assert (v ∈ into_iter unbound) as Hin by by apply into_iter_in.
    rewrite Hnil in Hin. by apply not_elem_of_nil in Hin.
  - intros v Hv%Hkey. by rewrite Hv.
  - cbn [mbind option_bind]. exists v. apply into_iter_in in Hin as Hvs; [|done]. destruct Hvs as [Hv Hs]. split_and!; [done..|].
    intros w Hwv Hws. rewrite (Hkey v Hin) in Hk. injection Hk as <-.
    assert (w ∈ into_iter unbound) as Hwin by by apply into_iter_in. by apply (Hmax w); [|apply Hkey].
Qed.

(** Every row is in a group. *)
Lemma planned_covers prefers p rows r : planned prefers p rows → r < rows →
  ∃ g, g < group_count p ∧ r ∈ group_rows p rows g (S g).
Proof.
  intros [Hperm Hend Hg] Hr. assert (r ∈ plan_order p rows) as [i Hi]%list_elem_of_lookup by (rewrite Hperm; apply elem_of_seq; lia).
  assert (i < rows) as Hlt by (apply lookup_lt_Some in Hi; by rewrite Hperm, length_seq in Hi).
  assert (∀ n, n <= group_count p → i < group_start p rows n → ∃ g, g < n ∧ group_start p rows g <= i < group_start p rows (S g)) as Hfind.
  { induction n as [|n IH]; intros Hn Hin; [by (destruct p; unfold group_start, groups_start in Hin; simpl in Hin; lia)|]. destruct (decide (i < group_start p rows n)) as [Hb|Hb].
    - destruct (IH ltac:(lia) Hb) as (g & ? & ?). exists g. split; [lia|done].
    - exists n. split; [lia|]. lia. }
  destruct (Hfind (group_count p)) as (g & Hgc & Hgi); [done|by rewrite Hend|]. exists g. split; [done|].
  apply list_elem_of_lookup. exists (i - group_start p rows g). unfold group_rows.
  rewrite lookup_take_lt, lookup_drop by lia. rewrite <- Hi. f_equal. lia.
Qed.

(** Planning partitions the rows of a frontier: every row is in exactly one
    group, a group has the rows that prefer its variable, in ascending order, and
    the variable a row prefers is an unbound one with the smallest power of two
    bucket of estimates and, among those, the largest influence. *)
Theorem plan_partition slots influences unbound estimates rows : slots <= 128 → 0 < rows → (N.of_nat rows <= 2 ^ 32)%N →
  vs_wf unbound → is_empty unbound = false → (∀ v, (v < 128)%N → is_set unbound v = true → N.to_nat v < slots) →
  slots <= length influences → rows * slots <= length estimates →
  let prefers := preferred slots influences unbound estimates in
  ∃ p sel, plan_rows prefers slots rows = Some p ∧ plan_selection p rows = Some sel ∧ sel_rows sel ≡ₚ seq 0 rows ∧
    (∀ g, g < group_count p → ∃ v start stop, plan_group p g rows = Some (v, (start, stop)) ∧ start < stop <= rows ∧
      take (stop - start) (drop start (sel_rows sel)) = filter (λ r, prefers r = Some v) (seq 0 rows)) ∧
    (∀ r, r < rows → ∃ g v start stop, g < group_count p ∧ plan_group p g rows = Some (v, (start, stop)) ∧
      prefers r = Some v ∧ (v < 128)%N ∧ is_set unbound v = true ∧ ∀ w, (w < 128)%N → is_set unbound w = true →
        let bucket_of v := bucket (estimates !!! (r * slots + N.to_nat v)) in
        (bucket_of v < bucket_of w)%N ∨ bucket_of v = bucket_of w ∧
          count (default new_empty (influences !! N.to_nat w)) <= count (default new_empty (influences !! N.to_nat v))).
Proof.
  intros Hslots Hrows H32 Hw Hne Hvs Hinf Hest prefers.
  assert (∀ r, r < rows → row_fits slots estimates r) as Hfit by (intros r Hr; unfold row_fits; nia).
  pose proof (λ r Hr, preferred_max slots influences unbound estimates r Hw Hne Hvs Hinf (Hfit r Hr)) as Hpref.
  destruct (plan_rows_spec prefers slots rows) as (p & Hp & Hpl); [done..| |].
  { intros r Hr. destruct (Hpref r Hr) as (v & Hv & ? & ? & _). exists v. auto. }
  destruct (plan_selection_spec p rows H32) as (sel & Hsel & _ & Horder).
  exists p, sel. rewrite Horder. split_and!; [done..|apply Hpl| |].
  - intros g Hg. destruct (pd_group _ _ _ Hpl g Hg) as (v & Hpg & Hse & Hgr). eexists v, _, _. split; [done|]. split; [done|]. exact Hgr.
  - intros r Hr. destruct (planned_covers _ _ _ _ Hpl Hr) as (g & Hg & Hin).
    destruct (pd_group _ _ _ Hpl g Hg) as (v & Hpg & _ & Hgr). rewrite Hgr in Hin. apply list_elem_of_filter in Hin as [Hrv _].
    destruct (Hpref r Hr) as (v' & Hv' & Hlt & Hset & Hmax). fold (prefers r) in Hv'. simplify_eq.
    eexists g, v, _, _. split_and!; [done..|]. intros w Hwl Hws. specialize (Hmax w Hwl Hws). unfold choice_le, choice_key in Hmax. simpl in Hmax.
    apply orb_true_iff in Hmax as [?%N.ltb_lt|[?%N.eqb_eq ?%Nat.leb_le]%andb_true_iff]; [by left|by right].
Qed.
