(* ===== verification/EngineSpec.v ===== *)
(** * EngineSpec: the invariant of the search

    A state of the search stands for its pending roots: partial assignments,
    pairwise incompatible, below which the remaining solutions lie.  The
    invariant [inv] reads the roots off the stack of frontiers: the rows of the
    groups not expanded yet and the live candidates not drawn yet, at every
    depth.  It also carries a measure, one or two numbers per depth, that
    decreases lexicographically. *)

From Stdlib Require Import FunctionalExtensionality.
From S2P Require Import Prelude Lex VariableSet Machine Trible Liveness Query Engine EngineRows EnginePlan.

Open Scope nat_scope.

(** ** A lexicographic order that is well founded on bounded lists *)

Inductive lexlt : list nat → list nat → Prop :=
  | lex_prefix y l' : lexlt [] (y :: l')
  | lex_head x y l l' : x < y → lexlt (x :: l) (y :: l')
  | lex_tail x l l' : lexlt l l' → lexlt (x :: l) (x :: l').

Lemma lexlt_app k l l' : lexlt l l' → lexlt (k ++ l) (k ++ l').
Proof. intros Hl. induction k as [|x k IH]; [done|]. by apply lex_tail. Qed.

Lemma lexlt_snoc l x : lexlt l (l ++ [x]).
Proof. rewrite <- (app_nil_r l) at 1. apply lexlt_app, lex_prefix. Qed.

Lemma lexlt_acc n l : length l <= n → Acc (λ l l', length l <= n ∧ lexlt l l') l.
Proof.
  revert l. induction n as [|n IH]; intros l Hl.
  { destruct l as [|? ?]; simpl in Hl; [|lia]. constructor. intros l' [_ Hlt]. inversion Hlt. }
  destruct l as [|x l]; [constructor; intros l' [_ Hlt]; inversion Hlt|].
  revert l Hl. induction (lt_wf x) as [x _ IHx]. intros l Hl. simpl in Hl.
  assert (length l <= n) as Hl' by lia. pose proof (IH l Hl') as Hacc. clear Hl. revert Hl'.
  induction Hacc as [l _ IHl]. intros Hl'. constructor. intros l2 [Hlen Hlt]. simpl in Hlen.
  inversion Hlt as [y k|x' y k k' Hx|x' k k' Hk]; subst.
  - constructor. intros l' [_ H]. inversion H.
  - simpl in Hlen. apply IHx; [done|simpl; lia].
  - simpl in Hlen. assert (length k <= n) by lia. by apply IHl.
Qed.

(** ** Pending roots *)

Definition conflict (p p' : asg) : Prop := ∃ v x y, p v = Some x ∧ p' v = Some y ∧ x ≠ y.
Definition apart (l : list asg) : Prop := ∀ i j p p', i ≠ j → l !! i = Some p → l !! j = Some p' → conflict p p'.

Lemma conflict_sym p p' : conflict p p' → conflict p' p.
Proof. intros (v & x & y & ? & ? & ?). exists v, y, x. by split_and!. Qed.

Lemma conflict_sub p p' q q' : asg_sub p q → asg_sub p' q' → conflict p p' → conflict q q'.
Proof. intros H1 H2 (v & x & y & Hx & Hy & Hne). exists v, x, y. split_and!; [by apply H1|by apply H2|done]. Qed.

Lemma apart_perm l l' : l ≡ₚ l' → apart l → apart l'.
Proof.
  intros [_ (f & Hf & Hl)]%symmetry%Permutation_inj Ha i j p p' Hij Hi Hj. rewrite Hl in Hi, Hj.
  eapply Ha; [|exact Hi|exact Hj]. intros E. by apply Hf in E.
Qed.

Lemma lookup_app_plus {A} (l k : list A) i : (l ++ k) !! (length l + i) = k !! i.
Proof. rewrite lookup_app_r by lia. f_equal. lia. Qed.

Lemma apart_app l k : apart (l ++ k) ↔ apart l ∧ apart k ∧ ∀ p p', p ∈ l → p' ∈ k → conflict p p'.
Proof.
  split.
  - intros Ha. split_and!.
    + intros i j p p' Hij Hi Hj. by apply (Ha i j); [|apply lookup_app_l_Some..].
    + intros i j p p' Hij Hi Hj. apply (Ha (length l + i) (length l + j)); [lia|by rewrite lookup_app_plus..].
    + intros p p' [i Hi]%list_elem_of_lookup [j Hj]%list_elem_of_lookup.
      apply (Ha i (length l + j)); [apply lookup_lt_Some in Hi; lia|by apply lookup_app_l_Some|by rewrite lookup_app_plus].
  - intros (Hl & Hk & Hlk) i j p p' Hij [Hi|[? Hi]]%lookup_app_Some [Hj|[? Hj]]%lookup_app_Some.
    + by eapply Hl.
    + apply Hlk; by eapply list_elem_of_lookup_2.
    + apply conflict_sym, Hlk; by eapply list_elem_of_lookup_2.
    + eapply Hk; [|exact Hi|exact Hj]. lia.
Qed.

Section roots.
Context (vars : VariableSet) (sat : asg → Prop).

(** A solution of the query. *)
Definition full (a : asg) : Prop := asg_ok a ∧ total_on vars a ∧ sat a.

(** [l'] has the same solutions below it as [l]. *)
Record refine (l l' : list asg) : Prop := {
  rf_up : ∀ p', p' ∈ l' → ∃ p, p ∈ l ∧ asg_sub p p';
  rf_down : ∀ a p, full a → p ∈ l → asg_sub p a → ∃ p', p' ∈ l' ∧ asg_sub p' a;
  rf_sat : Forall sat l → Forall sat l';
  rf_apart : apart l → apart l';
}.

Lemma refine_perm l l' : l ≡ₚ l' → refine l l'.
Proof.
  intros Hp. split.
  - intros p Hin. exists p. split; [by rewrite Hp|apply asg_sub_refl].
  - intros a p _ Hin Hs. exists p. split; [by rewrite <- Hp|done].
  - by rewrite Hp.
  - by apply apart_perm.
Qed.

Lemma refine_trans l1 l2 l3 : refine l1 l2 → refine l2 l3 → refine l1 l3.
Proof.
  intros [U1 D1 S1 A1] [U2 D2 S2 A2]. split; [| |auto|auto].
  - intros p (p2 & H2 & Hs2)%U2. destruct (U1 _ H2) as (p1 & ? & ?). exists p1. split; [done|]. by eapply asg_sub_trans.
  - intros a p Hf Hin Hs. destruct (D1 a p Hf Hin Hs) as (p2 & H2 & Hs2). by apply (D2 a p2).
Qed.

Lemma refine_app k l l' : refine l l' → refine (k ++ l) (k ++ l').
Proof.
  intros [U D S A]. split.
  - intros p [Hp|Hp]%elem_of_app; [exists p; split; [set_solver|apply asg_sub_refl]|].
    destruct (U p Hp) as (p1 & ? & ?). exists p1. split; [set_solver|done].
  - intros a p Hf [Hp|Hp]%elem_of_app Hs; [exists p; split; [set_solver|done]|].
    destruct (D a p Hf Hp Hs) as (p1 & ? & ?). exists p1. split; [set_solver|done].
  - rewrite !Forall_app. naive_solver.
  - rewrite !apart_app. intros (Hk & Hl & Hkl). split_and!; [done|auto|].
    intros p p' Hp (p1 & H1 & Hs)%U. eapply conflict_sub; [apply asg_sub_refl|exact Hs|by apply Hkl].
Qed.
End roots.

(** ** Frames *)

Section frames.
Context (vars : VariableSet) (slots : nat) (width : N).
Implicit Types (B : VariableSet) (L : list LevelValues) (d : Depth) (l : Level).

Definition depth_rows B L d (rs : list nat) : Prop :=
  Forall (λ r, row_ok B L slots (d_block d) r ∧ row_fits slots (d_estimates d) r) rs.
Definition roots_of B L d (rs : list nat) : list asg := row_asg B L slots (d_block d) <$> rs.

(** The variable is one of the query that [B] leaves open. *)
Definition open_variable B (v : VariableId) : Prop := (v < 128)%N ∧ is_set vars v = true ∧ is_set B v = false.

Record plan_ok B (p : DepthPlan) (rows : nat) : Prop := {
  po_length : length (plan_order p rows) = rows;
  po_end : group_start p rows (group_count p) = rows;
  po_group : ∀ g, g < group_count p → ∃ v, plan_group p g rows = Some (v, (group_start p rows g, group_start p rows (S g))) ∧
    group_start p rows g < group_start p rows (S g) <= rows ∧ open_variable B v;
}.

(** The groups of a frontier that are still to expand. *)
Record groups_left B L d (roots : list asg) : Prop := {
  gl_plan : plan_ok B (d_plan d) (d_rows d);
  gl_group : d_group d <= d_group_limit d <= group_count (d_plan d);
  gl_width : (N.of_nat (d_rows d) <= width)%N;
  gl_rows : depth_rows B L d (group_rows (d_plan d) (d_rows d) (d_group d) (d_group_limit d));
  gl_roots : roots = roots_of B L d (group_rows (d_plan d) (d_rows d) (d_group d) (d_group_limit d));
}.

(** The root of candidate [i] of a level proposed for the rows [rs] of [d]. *)
Definition cand_root B L d (v : VariableId) (b : ProposalBuffer) (rs : list nat) (i : nat) : asg :=
  match cand_row b rs i with Some (r, x) => extend (row_asg B L slots (d_block d) r) v x | None => λ _, None end.
Definition cand_ok B L d (b : ProposalBuffer) (rs : list nat) (i : nat) : Prop :=
  ∃ r x, cand_row b rs i = Some (r, x) ∧ row_ok B L slots (d_block d) r ∧ row_fits slots (d_estimates d) r ∧ value_ok x.

(** The rows of the group a level was proposed for. *)
Definition level_rows d : list nat := group_rows (d_plan d) (d_rows d) (d_group d - 1) (d_group d).

Record level_left B L d l (b : ProposalBuffer) (pos : nat) (roots : list asg) : Prop := {
  ll_variable : open_variable B (l_variable l);
  ll_group : 1 <= d_group d <= group_count (d_plan d);
  ll_plan : plan_group (d_plan d) (d_group d - 1) (d_rows d) =
    Some (l_variable l, (group_start (d_plan d) (d_rows d) (d_group d - 1), group_start (d_plan d) (d_rows d) (d_group d)));
  ll_width : (0 < l_width l <= width)%N;
  ll_level : L !! N.to_nat (l_variable l) = Some (mkLevel (Some b) pos);
  ll_buffer : pb_ok b;
  ll_proposed : l_proposed l = pb_len b;
  ll_pos : pos <= pb_len b;
  ll_small : (N.of_nat (pb_len b) < 2 ^ 32)%N;
  ll_cands : ∀ i, i ∈ pending_from b pos → cand_ok B L d b (level_rows d) i;
  ll_roots : roots = cand_root B L d (l_variable l) b (level_rows d) <$> pending_from b pos;
}.

(** The frontiers below the top one, with the variables their levels bind, the
    roots they hold and their measure. *)
Inductive below L : VariableSet → list Depth → list Level → VariableSet → list asg → list nat → Prop :=
  | below_nil B : vs_wf B → below L B [] [] B [] []
  | below_snoc B0 ds st B d l b pos r0 rg rc m :
      below L B0 ds st B r0 m → groups_left B L d rg → level_left B L d l b pos rc →
      below L B0 (ds ++ [d]) (st ++ [l]) (set B (l_variable l)) (r0 ++ rg ++ rc)
        (m ++ [d_group_limit d - d_group d; l_proposed l - pos]).

(** ** Frames survive changes to levels they do not read *)

Lemma depth_rows_agree B L L' d rs : agree B L L' → depth_rows B L d rs → depth_rows B L' d rs.
Proof.
  intros Ha Hr. eapply Forall_impl; [exact Hr|]. simpl. intros r [Hok Hf]. split; [|done]. by eapply row_ok_agree.
Qed.

Lemma roots_of_agree B L L' d rs : agree B L L' → roots_of B L d rs = roots_of B L' d rs.
Proof. intros Ha. unfold roots_of. apply list_fmap_ext. intros i r _. by apply row_asg_agree. Qed.

Lemma groups_left_agree B L L' d roots : agree B L L' → groups_left B L d roots → groups_left B L' d roots.
Proof.
  intros Ha [Hp Hg Hw Hr ->]. split; [done..| |]; [by eapply depth_rows_agree|by apply roots_of_agree].
Qed.

Lemma cand_root_agree B L L' d v b rs i : agree B L L' → cand_root B L d v b rs i = cand_root B L' d v b rs i.
Proof.
  intros Ha. unfold cand_root. destruct (cand_row b rs i) as [[r x]|]; [|done]. by rewrite (row_asg_agree B L L').
Qed.

Lemma cand_ok_agree B L L' d b rs i : agree B L L' → cand_ok B L d b rs i → cand_ok B L' d b rs i.
Proof. intros Ha (r & x & Hc & Hr & Hf & Hx). exists r, x. split_and!; [done|by eapply row_ok_agree|done..]. Qed.

Lemma level_left_agree B L L' d l b pos roots : agree B L L' → L !! N.to_nat (l_variable l) = L' !! N.to_nat (l_variable l) →
  level_left B L d l b pos roots → level_left B L' d l b pos roots.
Proof.
  intros Ha Hl [? ? ? ? Hlev ? ? ? ? Hc ->]. split; try done.
  - by rewrite <- Hl.
  - intros i Hi. by eapply cand_ok_agree, Hc.
  - apply list_fmap_ext. intros k i _. by apply cand_root_agree.
Qed.

Lemma agree_set B v L L' : (v < 128)%N → agree (set B v) L L' → agree B L L' ∧ L !! N.to_nat v = L' !! N.to_nat v.
Proof.
  intros Hv Ha. split; [intros w Hw Hs; apply Ha; [done|]|apply Ha; [done|]]; rewrite is_set_set by done.
  - by rewrite Hs, orb_true_r.
  - by rewrite N.eqb_refl.
Qed.

Lemma below_agree L L' B0 ds st B roots m : agree B L L' → below L B0 ds st B roots m → below L' B0 ds st B roots m.
Proof.
  intros Ha Hb. revert Ha. induction Hb as [B HB|B0 ds st B d l b pos r0 rg rc m Hb IH Hg Hl]; intros Ha; [by constructor|].
  apply agree_set in Ha as [Ha Hv]; [|apply Hl]. apply below_snoc with b; [by apply IH|by eapply groups_left_agree|by eapply level_left_agree].
Qed.

Lemma below_facts L B0 ds st B roots m : below L B0 ds st B roots m →
  length st = length ds ∧ length m = 2 * length ds ∧ vs_wf B ∧ length ds <= size (elements B).
Proof.
  induction 1 as [B HB|B0 ds st B d l b pos r0 rg rc m Hb IH Hg Hl]; [simpl; split_and!; (done || lia)|].
  destruct IH as (IHs & IHm & IHw & IHl). destruct (ll_variable _ _ _ _ _ _ _ Hl) as (Hv & _ & Hs).
  rewrite !length_app. simpl. split_and!; [lia|lia|by apply wf_set|].
  rewrite elements_set, size_union, size_singleton; [lia| |done].
  rewrite is_set_spec in Hs by done. apply bool_decide_eq_false in Hs. set_solver.
Qed.

(** ** Slices of plans *)

Lemma group_start_lt B p rows g h : plan_ok B p rows → g <= h <= group_count p →
  group_start p rows g <= group_start p rows h <= rows ∧ h - g <= group_start p rows h - group_start p rows g.
Proof.
  intros Hp [Hgh Hh]. induction Hgh as [|h Hgh IH].
  - split; [|lia]. split; [done|]. destruct (decide (g = group_count p)) as [->|]; [by rewrite (po_end _ _ _ Hp)|].
    destruct (po_group _ _ _ Hp g) as (v & _ & ? & _); lia.
  - destruct (po_group _ _ _ Hp h) as (v & _ & ? & _); [lia|]. lia.
Qed.

Lemma group_rows_split B p rows g h k : plan_ok B p rows → g <= h <= k → k <= group_count p →
  group_rows p rows g k = group_rows p rows g h ++ group_rows p rows h k.
Proof.
  intros Hp Hgh Hk. unfold group_rows.
  destruct (group_start_lt B p rows g h Hp) as [[? ?] _]; [lia|]. destruct (group_start_lt B p rows h k Hp) as [[? ?] _]; [lia|].
  set (a := group_start p rows g) in *. set (b := group_start p rows h) in *. set (e := group_start p rows k) in *.
  replace (e - a) with ((b - a) + (e - b)) by lia. rewrite <- (take_take_drop _ (b - a) (e - b)), drop_drop.
  by replace (a + (b - a)) with b by lia.
Qed.

Lemma group_rows_length B p rows g h : plan_ok B p rows → g <= h <= group_count p →
  length (group_rows p rows g h) = group_start p rows h - group_start p rows g.
Proof.
  intros Hp Hg. unfold group_rows. rewrite length_take, length_drop, (po_length _ _ _ Hp).
  destruct (group_start_lt B p rows g h Hp Hg) as [? _]. lia.
Qed.

Lemma group_rows_nil p rows g : group_rows p rows g g = [].
Proof. unfold group_rows. by rewrite Nat.sub_diag. Qed.

Lemma group_rows_all B p rows : plan_ok B p rows → group_start p rows 0 = 0 → group_rows p rows 0 (group_count p) = plan_order p rows.
Proof.
  intros Hp H0. unfold group_rows. rewrite H0, (po_end _ _ _ Hp), Nat.sub_0_r, drop_0. apply take_ge. by rewrite (po_length _ _ _ Hp).
Qed.

Lemma group_start_0 p rows : group_start p rows 0 = 0.
Proof. by destruct p. Qed.

Lemma group_count_le B p rows : plan_ok B p rows → group_count p <= rows.
Proof.
  intros Hp. destruct (group_start_lt B p rows 0 (group_count p) Hp) as [_ ?]; [lia|].
  rewrite (po_end _ _ _ Hp), group_start_0 in *. lia.
Qed.

(** The rows of a group, as the selection the engine passes on. *)
Lemma group_selection B d g : plan_ok B (d_plan d) (d_rows d) → (N.of_nat (d_rows d) <= 2 ^ 32)%N → g < group_count (d_plan d) →
  ∃ whole select, d_selection d = Some whole ∧
    sel_slice whole (group_start (d_plan d) (d_rows d) g) (group_start (d_plan d) (d_rows d) (S g)) = Some select ∧
    sel_ok select ∧ sel_rows select = group_rows (d_plan d) (d_rows d) g (S g).
Proof.
  intros Hp H32 Hg. destruct (plan_selection_spec (d_plan d) (d_rows d) H32) as (whole & Hs & Hok & Hrows).
  destruct (group_start_lt B _ _ g (S g) Hp) as [[? ?] _]; [lia|].
  destruct (sel_slice_spec whole (group_start (d_plan d) (d_rows d) g) (group_start (d_plan d) (d_rows d) (S g)) Hok)
    as (select & Hsl & Hsok & Hsr); [done|by rewrite Hrows, (po_length _ _ _ Hp)|].
  exists whole, select. split_and!; [done..|]. by rewrite Hsr, Hrows.
Qed.

(** ** The invariant *)

Definition unbound_is (u B : VariableSet) : Prop :=
  vs_wf u ∧ ∀ v, (v < 128)%N → is_set u v = is_set vars v && negb (is_set B v).

Record core (q : Query) B : Prop := {
  cr_levels : length (s_levels (q_bindings q)) = 128;
  cr_influences : length (q_influences q) = 128;
  cr_slots : q_slots q = slots;
  cr_width : q_width q = width;
  cr_bound : ∀ v, (v < 128)%N → is_set B v = true → is_set vars v = true;
}.

(** The top frontier, by mode: the levels above the frames below, the roots and the measure. *)
Definition top (q : Query) B d (st : list Level) (roots : list asg) (m : list nat) : Prop :=
  let L := s_levels (q_bindings q) in
  match q_mode q with
  | Plan => st = [] ∧ s_bound (q_bindings q) = B ∧ unbound_is (q_unbound q) B ∧ d_plan d = Unplanned ∧
      0 < d_rows d ∧ (N.of_nat (d_rows d) <= width)%N ∧ depth_rows B L d (seq 0 (d_rows d)) ∧
      roots = roots_of B L d (seq 0 (d_rows d)) ∧ m = [S (d_rows d)]
  | Emit => st = [] ∧ s_bound (q_bindings q) = B ∧ unbound_is (q_unbound q) B ∧
      (∀ v, (v < 128)%N → is_set vars v = true → is_set B v = true) ∧ d_plan d = Unplanned ∧
      d_emit d <= d_rows d ∧ (N.of_nat (d_rows d) <= width)%N ∧
      depth_rows B L d (seq (d_emit d) (d_rows d - d_emit d)) ∧
      roots = roots_of B L d (seq (d_emit d) (d_rows d - d_emit d)) ∧ m = [d_rows d - d_emit d]
  | NextGroup => st = [] ∧ s_bound (q_bindings q) = B ∧ unbound_is (q_unbound q) B ∧
      groups_left B L d roots ∧ m = [d_group_limit d - d_group d]
  | NextChunk => ∃ l b pos rg rc, st = [l] ∧
      (s_bound (q_bindings q) = B ∨ s_bound (q_bindings q) = set B (l_variable l)) ∧
      unbound_is (q_unbound q) (set B (l_variable l)) ∧
      groups_left B L d rg ∧ level_left B L d l b pos rc ∧ roots = rg ++ rc ∧
      m = [d_group_limit d - d_group d; l_proposed l - pos]
  | Done => False
  end.

Inductive inv (q : Query) : list asg → list nat → Prop :=
  | inv_done : q_mode q = Done → inv q [] []
  | inv_run B0 ds d rest B r0 r1 m0 m1 st0 st1 :
      core q B → q_depths q = ds ++ d :: rest → q_depth q = length ds → q_stack q = st0 ++ st1 →
      below (s_levels (q_bindings q)) B0 ds st0 B r0 m0 → top q B d st1 r1 m1 →
      inv q (r0 ++ r1) (m0 ++ m1).
End frames.
