(* ===== verification/EngineSteps.v ===== *)
(** * EngineSteps: every step of the search keeps the invariant

    For a constraint that obeys the protocol and has an opinion on every
    variable of the query, each step of [Engine] succeeds, keeps [inv] and its
    measure decreases; the roots stay the same up to order, except that
    expanding a group refines its rows by the proposed values and that an
    emission hands one root out. *)

From Stdlib Require Import FunctionalExtensionality.
From S2P Require Import Prelude Lex VariableSet Machine Trible Liveness Query Engine EngineRows EnginePlan EngineSpec.

Open Scope nat_scope.

Lemma unbound_set vars u B v : unbound_is vars u B → (v < 128)%N → is_set vars v = true → is_set B v = false →
  unbound_is vars (unset u v) (set B v).
Proof.
  intros [Hw Hu] Hv Hvars HB. split; [by apply wf_unset|]. intros w Hwlt. rewrite is_set_unset, is_set_set, Hu by done.
  destruct (w =? v)%N, (is_set vars w), (is_set B w); done.
Qed.

Lemma unbound_unset vars u B v : unbound_is vars u (set B v) → (v < 128)%N → is_set vars v = true → is_set B v = false →
  unbound_is vars (set u v) B.
Proof.
  intros [Hw Hu] Hv Hvars HB. split; [by apply wf_set|]. intros w Hwlt. rewrite is_set_set, Hu, is_set_set by done.
  destruct (N.eqb_spec w v) as [->|]; simpl; [by rewrite Hvars, HB|]. done.
Qed.

Lemma set_value_after B v b (s : VariableSet) : vs_wf B → (v < 128)%N → is_set B v = false → s = B ∨ s = set B v →
  set_value s v b = if b then set B v else B.
Proof.
  intros HB Hv Hs Heq.
  assert (vs_wf s) as Hw by (destruct Heq as [->| ->]; [done|by apply wf_set]).
  assert (∀ w, (w < 128)%N → is_set s w = is_set B w ∨ is_set s w = (w =? v)%N || is_set B w) as Hsw.
  { intros w Hwl. destruct Heq as [->| ->]; [by left|right; by apply is_set_set]. }
  unfold set_value. destruct b; apply vs_ext; try done; try (by apply wf_set); try (by apply wf_unset).
  - intros w Hwl. rewrite !is_set_set by done. destruct (Hsw w Hwl) as [->| ->]; [done|]. by destruct (w =? v)%N.
  - intros w Hwl. rewrite is_set_unset by done. destruct (Hsw w Hwl) as [->| ->]; destruct (N.eqb_spec w v) as [->|]; done.
Qed.

(** Values proposed once per row stand at one index only. *)
Lemma proposed_for_distinct its p x i j : NoDup (proposed_for its p) → i ≠ j →
  its !! i = Some (N.of_nat p, x, true) → its !! j = Some (N.of_nat p, x, true) → False.
Proof.
  assert (∀ i j, i < j → NoDup (proposed_for its p) → its !! i = Some (N.of_nat p, x, true) →
    its !! j = Some (N.of_nat p, x, true) → False) as Hlt.
  { clear i j. intros i j Hij Hnd Hi Hj. rewrite <- (take_drop_middle its i _ Hi) in Hnd.
    change (take i its ++ (N.of_nat p, x, true) :: drop (S i) its) with (take i its ++ [(N.of_nat p, x, true)] ++ drop (S i) its) in Hnd.
    rewrite !proposed_for_app in Hnd. apply NoDup_app in Hnd as (_ & _ & Hnd).
    apply NoDup_app in Hnd as (_ & Hdis & _). apply (Hdis x); apply elem_of_proposed; [by left|].
    apply list_elem_of_lookup. exists (j - S i). rewrite lookup_drop. by replace (S i + (j - S i)) with j by lia. }
  intros Hnd Hne Hi Hj. destruct (Nat.lt_trichotomy i j) as [?|[?|?]]; [by eapply (Hlt i j)|done|by eapply (Hlt j i)].
Qed.

Lemma lookup_depths {A} (ds : list A) d rest : (ds ++ d :: rest) !! length ds = Some d.
Proof. by rewrite lookup_app_r, Nat.sub_diag by lia. Qed.

Lemma set_depth_mid q ds d rest x : q_depths q = ds ++ d :: rest →
  set_depth q (length ds) x = Some (with_depths q (ds ++ x :: rest)).
Proof.
  intros Hq. unfold set_depth. rewrite Hq, arr_set_Some by (rewrite length_app; simpl; lia). cbn [mbind option_bind].
  do 2 f_equal. replace (length ds) with (length ds + 0) by lia. by rewrite insert_app_r.
Qed.

Section steps.
Context (c : Constraint) (sat : asg → Prop) (rel : VariableSet → VariableId → bool) `{Hc : !ConstraintOk c sat rel}.
Context (sole_buffer sole_matrices : Query → bool).
Context (slots : nat) (width : N) (Hwidth : (0 < width < 2 ^ 32)%N).
Context (Hslots : slots <= 128) (Hvslots : ∀ v, (v < 128)%N → is_set (variables c) v = true → N.to_nat v < slots).
(** Every variable of the query has an estimate, whatever is bound. *)
Context (Hrel : ∀ s v, (v < 128)%N → is_set (variables c) v = true → is_set s v = false → rel s v = true).
(** No level outgrows its 32-bit indexes. *)
Context (Hsmall : ∀ v f b', (v < 128)%N → is_set (variables c) v = true → is_set (f_bound f) v = false → frontier_ok f →
  (N.of_nat (f_len f) <= width)%N → propose c v f pb_new = Some b' → (N.of_nat (pb_len b') < 2 ^ 32)%N).
Abbreviation vars := (variables c).
Abbreviation inv := (inv vars slots width).
Abbreviation top := (top vars slots width).
Abbreviation core := (core vars slots width).
Abbreviation below := (below vars slots width).
Abbreviation refine := (refine vars sat).
Abbreviation levels q := (s_levels (q_bindings q)).

(** ** Leaving a frontier *)

Lemma retire_inv q B0 ds d rest B r0 m0 m1 st0 :
  core q B → q_depths q = ds ++ d :: rest → q_depth q = length ds → q_stack q = st0 → s_bound (q_bindings q) = B →
  unbound_is vars (q_unbound q) B → below (levels q) B0 ds st0 B r0 m0 →
  ∃ m', inv (retire q) r0 m' ∧ lexlt m' (m0 ++ [m1]).
Proof.
  intros Hcore Hds Hd Hst HB Hu Hb. unfold retire. rewrite Hd.
  revert Hcore Hds Hd Hst HB Hu.
  destruct Hb as [B' HB'|B0' ds' st' B1 d1 l b pos r1 rg rc m' Hb1 Hg Hl]; intros Hcore Hds Hd Hst HB Hu.
  - simpl. exists []. split; [by apply inv_done|]. apply lex_prefix.
  - rewrite length_app, Nat.add_1_r. cbn [Nat.eqb]. eexists. split; [|apply lexlt_snoc].
    eapply (inv_run _ _ _ _ B0' ds' d1 (d :: rest) B1 r1 (rg ++ rc) m' _ st' [l]).
    + destruct Hcore as [? ? ? ? Hbd]. split; try done. intros v Hv Hs. apply Hbd; [done|].
      destruct Hl as [[Hvl _] _]. rewrite is_set_set by done. by rewrite Hs, orb_true_r.
    + simpl. by rewrite Hds, <- app_assoc.
    + simpl. lia.
    + done.
    + done.
    + simpl. exists l, b, pos, rg, rc. split_and!; try done. by right.
Qed.

(** ** Planning *)

Lemma preferred_spec q B estimates row : core q B → unbound_is vars (q_unbound q) B → is_empty (q_unbound q) = false →
  row_fits slots estimates row →
  ∃ v, preferred slots (q_influences q) (q_unbound q) estimates row = Some v ∧ open_variable vars B v.
Proof.
  intros Hcore [Hw Hu] Hne Hfit. destruct (preferred_max slots (q_influences q) (q_unbound q) estimates row) as (v & Hv & Hlt & Hs & _);
    try done.
  - intros v Hv Hs. rewrite Hu in Hs by done. apply andb_true_iff in Hs as [Hs _]. by apply Hvslots.
  - rewrite (cr_influences _ _ _ _ _ Hcore). lia.
  - exists v. split; [done|]. rewrite Hu in Hs by done. apply andb_true_iff in Hs as [? Hs%negb_true_iff]. done.
Qed.

Lemma planned_ok prefers B p rows : planned prefers p rows →
  (∀ r v, r < rows → prefers r = Some v → open_variable vars B v) → plan_ok vars B p rows.
Proof.
  intros [Hperm Hend Hg] Ho. split; [by rewrite Hperm, length_seq|done|].
  intros g Hlt. destruct (Hg g Hlt) as (v & Hpg & Hse & Hrows). exists v. split_and!; [done|lia|lia|].
  destruct (group_rows p rows g (S g)) as [|r l] eqn:E.
  - apply (f_equal length) in E. unfold group_rows in E. rewrite length_take, length_drop, Hperm, length_seq in E. simpl in E. lia.
  - assert (r ∈ filter (λ r, prefers r = Some v) (seq 0 rows)) as Hr by (rewrite <- Hrows; by left).
    apply list_elem_of_filter in Hr as [Hr Hin%elem_of_seq]. apply (Ho r); [lia|done].
Qed.

Lemma plan_inv q roots m : inv q roots m → q_mode q = Plan →
  ∃ q' roots' m', plan q = Some q' ∧ inv q' roots' m' ∧ roots ≡ₚ roots' ∧ lexlt m' m.
Proof.
  intros Hi Hmode. destruct Hi as [Hdone|B0 ds d rest B r0 r1 m0 m1 st0 st1 Hcore Hds Hd Hst Hb Ht]; [congruence|].
  unfold EngineSpec.top in Ht. rewrite Hmode in Ht. destruct Ht as (-> & HB & Hu & Hpl & Hrows & Hwid & Hok & -> & ->).
  unfold plan. rewrite Hd, Hds, lookup_depths. cbn [mbind option_bind].
  destruct (is_empty (q_unbound q)) eqn:Hem.
  - rewrite (set_depth_mid q ds d rest) by done. cbn [mbind option_bind]. eexists _, _, _. split; [done|]. split; [|split; [done|]].
    + eapply (inv_run _ _ _ _ B0 ds (with_emit d 0) rest B r0 _ m0 [d_rows d] st0 []); [destruct Hcore; by split|done|done|done|done|].
      unfold EngineSpec.top. simpl. rewrite Nat.sub_0_r. split_and!; try done; try lia.
      intros v Hv Hs. destruct Hu as [Hw Hu]. rewrite is_empty_spec in Hem by done. specialize (Hem v Hv).
      rewrite Hu, Hs in Hem by done. simpl in Hem. by apply negb_false_iff in Hem.
    + apply lexlt_app, lex_head. lia.
  - unfold massert. rewrite (proj2 (Nat.eqb_neq _ 0)) by lia. rewrite (proj2 (N.ltb_lt _ _)) by lia. cbn [negb mbind option_bind].
    set (prefers := preferred _ _ _ _).
    assert (∀ r, r < d_rows d → ∃ v, prefers r = Some v ∧ open_variable vars B v) as Hp.
    { intros r Hr. unfold prefers. rewrite (cr_slots _ _ _ _ _ Hcore). apply (preferred_spec q B); [done..|].
      unfold depth_rows in Hok. rewrite Forall_forall in Hok. apply Hok, elem_of_seq. lia. }
    destruct (plan_rows_spec prefers (q_slots q) (d_rows d)) as (p & -> & Hplan); [by rewrite (cr_slots _ _ _ _ _ Hcore)|done|lia| |].
    { intros r Hr. destruct (Hp r Hr) as (v & Hv & ? & ? & ?). exists v. split; [done|].
      rewrite (cr_slots _ _ _ _ _ Hcore). by apply Hvslots. }
    cbn [mbind option_bind]. rewrite (set_depth_mid q ds d rest) by done. cbn [mbind option_bind].
    assert (plan_ok vars B p (d_rows d)) as Hpok.
    { eapply planned_ok; [exact Hplan|]. intros r v Hr Hv. destruct (Hp r Hr) as (w & Hw & ?). by simplify_eq. }
    pose proof (group_rows_all _ _ _ _ Hpok (group_start_0 _ _)) as Hall.
    eexists _, _, _. split; [done|]. split; [|split].
    + eapply (inv_run _ _ _ _ B0 ds (with_plan d p) rest B r0 _ m0 [group_count p - 0] st0 []);
        [destruct Hcore; by split|done|done|done|done|].
      unfold EngineSpec.top. simpl. split_and!; try done. split; simpl; try done; try lia.
      rewrite Hall. unfold depth_rows. by rewrite (pd_order _ _ _ Hplan).
    + apply Permutation_app; [done|]. simpl. rewrite Hall. unfold roots_of. by rewrite (pd_order _ _ _ Hplan).
    + apply lexlt_app, lex_head. pose proof (group_count_le _ _ _ _ Hpok). lia.
Qed.

(** ** Expanding a group *)

(** The candidates proposed for the rows [rs] of a frontier. *)
Lemma candidate_lookup b' rs n i : pb_ok b' → (∀ p x l, (p, x, l) ∈ items b' → N.to_nat p < n ∧ value_ok x) → n <= length rs →
  i < pb_len b' → ∃ p x r, items b' !! i = Some (p, x, wbit (pb_live b') i) ∧ N.to_nat p < n ∧ rs !! N.to_nat p = Some r ∧
    cand_row b' rs i = Some (r, x) ∧ value_ok x.
Proof.
  intros Hb Htag Hn Hi. destruct (lookup_lt_is_Some_2 (items b') i) as [[[p x] l] Hit]; [by rewrite items_length|].
  destruct (Htag p x l) as [Hp Hx]; [by eapply list_elem_of_lookup_2|].
  pose proof Hit as Hit'. apply items_lookup in Hit' as (Hpp & Hpe & ->); [|done].
  destruct (lookup_lt_is_Some_2 rs (N.to_nat p)) as [r Hr]; [lia|]. exists p, x, r. split_and!; [done..| |done].
  unfold cand_row. rewrite Hpp. cbn [mbind option_bind]. rewrite Hpe. cbn [mbind option_bind]. by rewrite Hr.
Qed.

Lemma children_refine B L d v b' rs : open_variable vars B v → pb_ok b' →
  depth_rows slots B L d rs → (∀ p x l, (p, x, l) ∈ items b' → N.to_nat p < length rs ∧ value_ok x) →
  (∀ p r, rs !! p = Some r → proposal_ok vars sat (row_asg B L slots (d_block d) r) v (proposed_for (items b') p)) →
  refine (roots_of slots B L d rs) (cand_root slots B L d v b' rs <$> pending_from b' 0).
Proof.
  intros (Hv & Hvars & HvB) Hb Hrows Htag Hprop.
  assert (∀ r, r ∈ rs → row_asg B L slots (d_block d) r v = None) as Hfree.
  { intros r Hr. unfold depth_rows in Hrows. rewrite Forall_forall in Hrows. destruct (Hrows r Hr) as [[_ Hbok] _].
    by apply bval_unbound. }
  assert (∀ i, i ∈ pending_from b' 0 → ∃ p x r, (p, x, true) ∈ items b' ∧ items b' !! i = Some (p, x, true) ∧ rs !! N.to_nat p = Some r ∧
    cand_root slots B L d v b' rs i = extend (row_asg B L slots (d_block d) r) v x) as Hcand.
  { intros i [Hi Hl]%elem_of_pending. destruct (candidate_lookup b' rs (length rs) i Hb Htag) as (p & x & r & Hit & Hp & Hr & Hcr & _);
      [done|lia|]. rewrite Hl in Hit. exists p, x, r. split_and!; [by eapply list_elem_of_lookup_2|done|done|].
    unfold cand_root. by rewrite Hcr. }
  split.
  - intros p' (i & -> & Hi)%list_elem_of_fmap. destruct (Hcand i Hi) as (p & x & r & _ & _ & Hr & ->).
    exists (row_asg B L slots (d_block d) r). split; [|apply extend_sub, Hfree; by eapply list_elem_of_lookup_2].
    apply list_elem_of_fmap. exists r. split; [done|]. by eapply list_elem_of_lookup_2.
  - intros a p0 (Haok & Htot & Hsat) (r & -> & Hr)%list_elem_of_fmap Hsub. apply list_elem_of_lookup in Hr as [p Hp].
    destruct (Htot v Hv Hvars) as [x Hx].
    assert (asg_sub (extend (row_asg B L slots (d_block d) r) v x) a) as Hext.
    { intros w y. unfold extend. destruct (N.eqb_spec w v) as [->|]; [congruence|apply Hsub]. }
    assert (x ∈ proposed_for (items b') p) as Hin.
    { eapply pr_complete; [by apply Hprop|]. by exists a. }
    apply elem_of_proposed, list_elem_of_lookup in Hin as [i Hi]. pose proof Hi as Hil. apply items_lookup in Hil as (Hpp & Hpe & Hl); [|done].
    assert (i ∈ pending_from b' 0) as Hpend.
    { apply elem_of_pending. split; [|done]. split; [lia|]. by apply lookup_lt_Some in Hpe. }
    exists (cand_root slots B L d v b' rs i). split; [apply list_elem_of_fmap; by exists i|].
    destruct (Hcand i Hpend) as (p' & x' & r' & _ & Hi' & Hr' & ->). rewrite Hi in Hi'. simplify_eq.
    rewrite Nat2N.id in Hr'. by simplify_eq.
  - intros Hsat. apply Forall_fmap, Forall_forall. intros i Hi. simpl.
    destruct (Hcand i Hi) as (p & x & r & Hin & _ & Hr & ->). eapply pr_sound; [by apply Hprop| |].
    + apply elem_of_proposed. by rewrite N2Nat.id.
    + rewrite Forall_forall in Hsat. apply Hsat, list_elem_of_fmap. exists r. split; [done|]. by eapply list_elem_of_lookup_2.
  - intros Hap i j q q' Hij Hi Hj. rewrite list_lookup_fmap in Hi, Hj.
    destruct (pending_from b' 0 !! i) as [i'|] eqn:Ei; [|done]. destruct (pending_from b' 0 !! j) as [j'|] eqn:Ej; [|done].
    simpl in Hi, Hj. injection Hi as <-. injection Hj as <-.
    assert (i' ≠ j') as Hne by (intros ->; by eapply Hij, NoDup_lookup; [apply NoDup_pending|..]).
    destruct (Hcand i') as (p & x & r & _ & Hi & Hr & ->); [by eapply list_elem_of_lookup_2|].
    destruct (Hcand j') as (p' & x' & r' & _ & Hj & Hr' & ->); [by eapply list_elem_of_lookup_2|].
    destruct (decide (p = p')) as [->|Hpp].
    + simplify_eq. exists v, x, x'. rewrite !extend_eq. split_and!; [done..|]. intros ->.
      pose proof (pr_nodup _ _ _ _ _ (Hprop (N.to_nat p') r Hr)) as Hnd.
      eapply proposed_for_distinct; [exact Hnd|exact Hne|rewrite N2Nat.id; exact Hi|rewrite N2Nat.id; exact Hj].
    + eapply conflict_sub; [apply extend_sub, Hfree; by eapply list_elem_of_lookup_2..|].
      apply (Hap (N.to_nat p) (N.to_nat p')); [lia|..]; unfold roots_of; rewrite list_lookup_fmap; [by rewrite Hr|by rewrite Hr'].
Qed.

Lemma refill_spec s B v block select stride parallel : length (s_levels s) = 128 → s_bound s = B →
  open_variable vars B v → sel_ok select → (N.of_nat (length (sel_rows select)) <= width)%N →
  Forall (row_ok B (s_levels s) stride block) (sel_rows select) → ∀ sole,
  ∃ b', refill s sole v block select stride parallel (propose c v) =
      Some (pb_len b', mkStore B (s_indexes s) (<[N.to_nat v := mkLevel (Some b') 0]> (s_levels s))) ∧
    pb_ok b' ∧ (N.of_nat (pb_len b') < 2 ^ 32)%N ∧
    (∀ p x l, (p, x, l) ∈ items b' → N.to_nat p < length (sel_rows select) ∧ value_ok x) ∧
    ∀ p r, sel_rows select !! p = Some r → proposal_ok vars sat (row_asg B (s_levels s) stride block r) v (proposed_for (items b') p).
Proof.
  intros HL HB (Hv & Hvars & HvB) Hsel Hlen Hrows sole. unfold refill.
  destruct (lookup_lt_is_Some_2 (s_levels s) (N.to_nat v)) as [lv Hlv]; [lia|]. rewrite Hlv. cbn [mbind option_bind].
  rewrite arr_set_Some by lia. cbn [mbind option_bind].
  set (f := mkFrontier _ _ _ _ _ _). change (pb_clear _) with pb_new.
  assert (agree B (s_levels s) (<[N.to_nat v:=level_empty]> (s_levels s))) as Hag by by apply levels_agree_insert.
  assert (f_len f = length (sel_rows select)) as Hfl by apply sel_len_rows.
  assert (frontier_ok f) as Hf.
  { apply frontier_rows_ok; [done|unfold f_len; simpl; rewrite sel_len_rows; lia|]. simpl. rewrite HB.
    eapply Forall_impl; [exact Hrows|]. intros r Hr. by eapply row_ok_agree. }
  destruct (co_propose v f pb_new) as (b' & new & Hp & Hb & Hit & Htag & Hprop);
    [done|done|simpl; by rewrite HB|simpl; apply Hrel; [done|done|by rewrite HB]|apply pb_new_ok|].
  rewrite Hp. cbn [mbind option_bind]. rewrite arr_set_Some by (rewrite length_insert; lia). cbn [mbind option_bind].
  rewrite list_insert_insert_eq, HB. simpl in Hit. exists b'. split_and!; [done|done|by eapply Hsmall; [..|exact Hp]; rewrite ?Hfl; simpl; rewrite ?HB| |].
  - intros p x l Hin. rewrite Hit in Hin. rewrite <- Hfl. by eapply Htag.
  - intros p r Hr. apply lookup_lt_Some in Hr as Hlt. rewrite Hit. specialize (Hprop p ltac:(by rewrite Hfl)).
    rewrite Forall_lookup in Hrows. destruct (Hrows p r Hr) as [Hfit _]. erewrite fval_row in Hprop; [|done..].
    simpl in Hprop. rewrite HB in Hprop. by rewrite <- (row_asg_agree B _ _ _ _ _ Hag) in Hprop.
Qed.

Lemma group_inv q roots m : inv q roots m → q_mode q = NextGroup →
  ∃ q' roots' m', next_group c sole_buffer q = Some q' ∧ inv q' roots' m' ∧ refine roots roots' ∧ lexlt m' m.
Proof.
  intros Hi Hmode. destruct Hi as [Hdone|B0 ds d rest B r0 r1 m0 m1 st0 st1 Hcore Hds Hd Hst Hb Ht]; [congruence|].
  unfold EngineSpec.top in Ht. rewrite Hmode in Ht. destruct Ht as (-> & HB & Hu & Hgl & ->).
  pose proof Hgl as [Hpl Hg Hwid Hrows Hroots].
  unfold next_group. rewrite Hd, Hds, lookup_depths. cbn [mbind option_bind].
  destruct (Nat.leb_spec (d_group_limit d) (d_group d)) as [Hge|Hlt].
  { assert (d_group d = d_group_limit d) as Heq by lia. rewrite Heq, group_rows_nil in Hroots. subst r1.
    destruct (retire_inv q B0 ds d rest B r0 m0 (d_group_limit d - d_group d) st0) as (m' & Hi & Hm); try done.
    { by rewrite Hst, app_nil_r. }
    exists (retire q), r0, m'. split_and!; [done|done| |done]. simpl. rewrite app_nil_r. by apply refine_perm. }
  destruct (po_group _ _ _ _ Hpl (d_group d)) as (v & Hpg & Hse & Hv); [lia|]. unfold depth_group. rewrite Hpg. cbn [mbind option_bind].
  rewrite (set_depth_mid q ds d rest) by done. cbn [mbind option_bind].
  destruct (group_selection vars B d (d_group d)) as (whole & select & -> & Hsl & Hsok & Hsr); [done|lia|lia|].
  cbn [mbind option_bind]. rewrite Hsl. cbn [mbind option_bind].
  rewrite (group_rows_split _ _ _ _ _ (S (d_group d)) _ Hpl) in Hrows, Hroots by lia.
  set (rs := group_rows _ _ (d_group d) (S (d_group d))) in *. set (later := group_rows _ _ (S (d_group d)) _) in *.
  apply Forall_app in Hrows as [Hrs Hlater]. unfold roots_of in Hroots. rewrite fmap_app in Hroots.
  assert (length rs <= d_rows d) as Hlrs.
  { unfold rs. rewrite (group_rows_length vars B) by (done || lia). lia. }
  destruct (refill_spec (q_bindings q) B v (d_block d) select (q_slots q) (q_parallel q)) with (sole := sole_buffer
    (with_unbound (with_depths q (ds ++ with_group d (S (d_group d)) :: rest)) (unset (q_unbound q) v)))
    as (b' & Href & Hb' & Hsm & Htag & Hprop); try done.
  { apply Hcore. } { rewrite Hsr. lia. }
  { rewrite Hsr, (cr_slots _ _ _ _ _ Hcore). eapply Forall_impl; [exact Hrs|]. by intros r [? _]. }
  simpl. simpl in Href. rewrite Href. cbn [mbind option_bind].
  destruct (below_facts _ _ _ _ _ _ _ _ _ _ Hb) as (Hlst & _ & HwB & Hsize).
  destruct Hv as (Hv & Hvars & HvB).
  assert (length st0 < 128) as Hcap.
  { rewrite Hlst. pose proof HvB as Hvb. rewrite is_set_spec in Hvb by done. apply bool_decide_eq_false in Hvb.
    assert (size ({[v]} ∪ elements B) <= 128) as H128.
    { rewrite <- elements_set by done. rewrite size_elements. apply count_le_128. }
    rewrite size_union, size_singleton in H128 by set_solver. lia. }
  rewrite Hst, app_nil_r. unfold massert. rewrite (proj2 (Nat.ltb_lt _ _)) by done. cbn [mbind option_bind].
  set (q' := with_mode _ _). set (d' := with_group d (S (d_group d))).
  set (L' := <[N.to_nat v := mkLevel (Some b') 0]> (levels q)).
  assert (agree B (levels q) L') as Hag by by apply levels_agree_insert.
  set (l := mkStackLevel v (N.min INITIAL_FRONTIER_WIDTH (q_width q)) (pb_len b')).
  set (rc := cand_root slots B L' d' v b' rs <$> pending_from b' 0).
  exists q', (r0 ++ (roots_of slots B L' d' later ++ rc)), (m0 ++ [d_group_limit d - S (d_group d); pb_len b' - 0]).
  split; [done|]. rewrite Hsr in Htag, Hprop. rewrite (cr_slots _ _ _ _ _ Hcore) in Hprop.
  assert (depth_rows slots B L' d' rs) as Hrs' by (eapply (depth_rows_agree slots B (levels q)) in Hrs; [exact Hrs|done]).
  assert (length (levels q) = 128) as HL by apply Hcore.
  split; [|split].
  - eapply (inv_run _ _ _ _ B0 ds d' rest B r0 _ m0 _ st0 [l]); [|done|done|done|by eapply below_agree|].
    { destruct Hcore as [? ? ? ? ?]. split; try done. simpl. by rewrite length_insert. }
    unfold EngineSpec.top, q', d', l. simpl. eexists _, b', 0, _, _. split_and!; [done|by left|by apply unbound_set| | |done|done].
    + split; simpl; try done; [lia|]. eapply (depth_rows_agree slots B (levels q)) in Hlater; [exact Hlater|done].
    + split; simpl; try done.
      * lia.
      * by rewrite Nat.sub_0_r.
      * rewrite (cr_width _ _ _ _ _ Hcore). unfold INITIAL_FRONTIER_WIDTH. lia.
      * rewrite list_lookup_insert_eq by lia. done.
      * lia.
      * unfold level_rows. simpl. rewrite Nat.sub_0_r. fold rs. intros i [Hi Hl]%elem_of_pending.
        destruct (candidate_lookup b' rs (length rs) i Hb' Htag) as (p & x & r & _ & _ & Hr & Hcr & Hx); [done|lia|].
        unfold depth_rows in Hrs'. rewrite Forall_lookup in Hrs'. destruct (Hrs' _ _ Hr) as [Hr1 Hr2]. by exists r, x.
      * unfold level_rows. simpl. rewrite Nat.sub_0_r. done.
  - apply refine_app. subst r1. eapply refine_trans; [apply refine_perm, Permutation_app_comm|].
    assert (roots_of slots B L' d' later = row_asg B (levels q) slots (d_block d) <$> later) as ->.
    { symmetry. apply (roots_of_agree slots B (levels q) L' d later Hag). }
    apply refine_app. assert (row_asg B (levels q) slots (d_block d) <$> rs = roots_of slots B L' d' rs) as ->.
    { apply (roots_of_agree slots B (levels q) L' d rs Hag). }
    apply children_refine; try done. intros p r Hr. rewrite <- (row_asg_agree B (levels q)) by done. by apply Hprop.
  - apply lexlt_app, lex_head. lia.
Qed.

(** ** Drawing a chunk *)

Lemma cand_row_entry b rs i r x : cand_row b rs i = Some (r, x) → pb_entries b !! i = Some x.
Proof.
  unfold cand_row. intros H. apply bind_Some in H as (p & _ & H). apply bind_Some in H as (y & Hy & H).
  apply bind_Some in H as (r' & _ & [= -> ->]). done.
Qed.

(** The row written for a candidate is the root of the candidate. *)
Lemma child_row B L L' d v b select block k i pos' : open_variable vars B v → agree B L L' →
  L' !! N.to_nat v = Some (mkLevel (Some b) pos') → (N.of_nat i < 2 ^ 32)%N → cand_ok slots B L d b (sel_rows select) i →
  row_fits slots block k → row_cells slots block k = child_cells b v select slots (d_block d) i →
  row_ok (set B v) L' slots block k ∧ row_asg (set B v) L' slots block k = cand_root slots B L d v b (sel_rows select) i.
Proof.
  intros (Hv & Hvars & HvB) Hag Hlv Hi (r & x & Hcr & [Hfr Hbr] & _ & Hx) Hfit Hcells.
  pose proof (row_cells_length _ _ _ Hfr) as Hlen. pose proof (Hvslots v Hv Hvars) as Hvs.
  assert (crow b (sel_rows select) i = r) as Hcrow by (unfold crow; by rewrite Hcr).
  assert (∀ w, (w < 128)%N → bget (row_binding (set B v) L' slots block k) w =
    if (w =? v)%N then Some (Some x) else bget (row_binding B L slots (d_block d) r) w) as Hg.
  { intros w Hw. unfold bget, row_binding. simpl. rewrite is_set_set, Hcells by done. unfold child_cells. rewrite Hcrow.
    destruct (N.eqb_spec w v) as [->|Hne]; simpl.
    - rewrite Hlv. simpl. rewrite list_lookup_insert_eq by lia. cbn [mbind option_bind]. rewrite as_u32_id, Nat2N.id by done.
      by rewrite (cand_row_entry _ _ _ _ _ Hcr).
    - rewrite list_lookup_insert_ne by lia. destruct (is_set B w) eqn:Ew; [|done]. by rewrite (Hag w Hw Ew). }
  split.
  - split; [done|]. intros w Hw. rewrite Hg by done. simpl. rewrite is_set_set by done.
    destruct (N.eqb_spec w v) as [->|Hne]; simpl; [|by apply Hbr].
    exists (Some x). split_and!; [done|by eauto|by intros y [= <-]].
  - unfold cand_root. rewrite Hcr. apply functional_extensionality. intros w. unfold row_asg, bval, extend.
    destruct (N.ltb_spec w 128) as [Hw|Hw]; [rewrite Hg by done|]; by destruct (N.eqb_spec w v) as [->|]; [|]; try lia.
Qed.

(** The refresh writes the estimates of the rows of the child. *)
Lemma refresh_spec B s block estimates stale rows parallel : s_bound s = B →
  (∀ v, v ∈ into_iter stale → open_variable vars B v) → (N.of_nat rows < 2 ^ 32)%N →
  Forall (row_ok B (s_levels s) slots block) (seq 0 rows) → Forall (row_fits slots estimates) (seq 0 rows) →
  ∃ estimates', refresh c s block estimates stale rows slots parallel = Some estimates' ∧ length estimates' = length estimates.
Proof.
  intros HB Hst H32 Hrows Hest. unfold refresh. destruct (is_empty stale); [by exists estimates|].
  destruct (sel_identity_spec rows) as (sel & -> & Hsok & Hsr); [lia|]. cbn [mbind option_bind].
  set (f := batch _ _ _ _ _).
  assert (∀ v row est, open_variable vars B v → row < rows → length est = length estimates →
    ∃ est', (o ← estimate c v (row_binding B (s_levels s) slots block row); n ← o; arr_set est (row * slots + N.to_nat v) n) = Some est' ∧
      length est' = length estimates) as Hone.
  { intros v row est (Hv & Hvars & HvB) Hrow Hlen.
    assert (row ∈ seq 0 rows) as Hin by (apply elem_of_seq; lia).
    rewrite Forall_forall in Hrows. destruct (Hrows _ Hin) as [_ Hbok]. rewrite Forall_forall in Hest. pose proof (Hest _ Hin) as Hfit.
    unfold row_fits in Hfit. simpl in Hfit. pose proof (Hvslots v Hv Hvars).
    destruct (co_estimate v _ Hv Hbok) as (o & -> & Ho); [done|]. cbn [mbind option_bind].
    destruct (proj2 Ho) as [n ->]; [by apply Hrel|]. cbn [mbind option_bind]. rewrite arr_set_Some by lia.
    eexists. split; [done|]. by rewrite length_insert. }
  assert (∀ l est, (∀ row, row ∈ l → row < rows) → length est = length estimates →
    ∃ est', foldM (λ est row, binding ← f_row f row;
      foldM (λ est v, o ← estimate c v binding; n ← o; arr_set est (row * slots + N.to_nat v) n) est (into_iter stale)) est l = Some est' ∧
      length est' = length estimates) as Hall.
  { induction l as [|row l IH]; intros est Hl Hlen; [by exists est|]. simpl.
    assert (row < rows) as Hrow by (apply Hl; by left).
    rewrite (f_row_spec f row row); [|done|simpl; rewrite Hsr; by apply lookup_seq_lt|].
    2: { rewrite Forall_forall in Hrows. simpl. apply Hrows, elem_of_seq. lia. }
    cbn [mbind option_bind]. subst f. simpl. rewrite HB.
    assert (∀ vs est, (∀ v, v ∈ vs → open_variable vars B v) → length est = length estimates →
      ∃ est', foldM (λ est v, o ← estimate c v (row_binding B (s_levels s) slots block row); n ← o;
        arr_set est (row * slots + N.to_nat v) n) est vs = Some est' ∧ length est' = length estimates) as Hvs.
    { induction vs as [|v vs IHv]; intros est1 Hvs Hl1; [by exists est1|]. simpl.
      destruct (Hone v row est1) as (est2 & -> & Hl2); [apply Hvs; by left|done|done|]. cbn [mbind option_bind].
      apply IHv; [intros; apply Hvs; by right|done]. }
    destruct (Hvs (into_iter stale) est) as (est2 & -> & Hl2); [done|done|]. cbn [mbind option_bind].
    apply IH; [intros; apply Hl; by right|done]. }
  destruct (Hall (seq 0 rows) estimates) as (est' & He & Hl); [intros row Hr%elem_of_seq; lia|done|]. by exists est'.
Qed.

Lemma ramp_width l n : (0 < l_width l <= width)%N → (0 < ramp width l n <= width)%N.
Proof.
  intros Hl. unfold ramp, FRONTIER_RAMP_BASE, usize_max. set (remaining := N.of_nat _).
  destruct (N.ltb_spec remaining (N.min (2 ^ 64 - 1) (N.min (N.min (2 ^ 64 - 1) (l_width l * 8)) width * 2))); lia.
Qed.

Lemma widen_last_snoc st l n : widen_last width n (st ++ [l]) = st ++ [mkStackLevel (l_variable l) (ramp width l n) (l_proposed l)].
Proof.
  unfold widen_last. rewrite length_app. simpl. replace (length st + 1 - 1) with (length st + 0) by lia.
  by rewrite alter_app_r.
Qed.

Lemma level_drawable B L d l b pos rc select : level_left vars slots width B L d l b pos rc → sel_rows select = level_rows d →
  drawable b select slots (d_block d) pos.
Proof.
  intros Hl Hsel i Hi. destruct (ll_cands _ _ _ _ _ _ _ _ _ _ Hl i Hi) as (r & x & Hcr & [Hf _] & _ & _).
  rewrite <- Hsel in Hcr. split; [by rewrite Hcr|]. unfold crow. by rewrite Hcr.
Qed.

(** The draw, fused or deferred. *)
Lemma draw_chunk_spec B d l b pos rc select child (speculate : bool) s :
  level_left vars slots width B (s_levels s) d l b pos rc → sel_ok select → sel_rows select = level_rows d →
  let tk := taken b (l_width l) 0 pos in
  ∃ pos' drawn child', draw_chunk s l d child select slots speculate =
      Some (length tk, drawn, tags b select tk,
        with_bound s (l_variable l) (negb (length tk =? 0)) (<[N.to_nat (l_variable l) := mkLevel (Some b) pos']> (s_levels s)), child') ∧
    drawn_to b (l_width l) 0 pos pos' ∧
    (if speculate then drawn = as_u32 <$> tk
     else d_block child' = concat (child_cells b (l_variable l) select slots (d_block d) <$> tk)).
Proof.
  intros Hl Hsok Hsel tk. pose proof (level_drawable _ _ _ _ _ _ _ _ Hl Hsel) as Hdraw.
  destruct (ll_variable _ _ _ _ _ _ _ _ _ _ Hl) as (Hv & Hvars & _).
  unfold draw_chunk. destruct speculate.
  - destruct (draw_spec s (l_variable l) b pos) with (width := l_width l) (select := select) (stride := slots) (block := d_block d)
      as (pos' & -> & Hto); [apply Hl..|done|done|]. cbn [mbind option_bind]. rewrite length_fmap. by eexists pos', _, _.
  - destruct (take_chunk_spec s (l_variable l) b pos) with (width := l_width l) (select := select) (stride := slots) (block := d_block d)
      as (pos' & -> & Hto); [apply Hl..|done|done|by apply Hvslots|]. cbn [mbind option_bind]. by eexists pos', _, _.
Qed.

Lemma descent_spec q d child v b select tk (speculate reusable : bool) (drawn : list N) : q_slots q = slots → N.to_nat v < slots →
  (∀ i, i ∈ tk → row_fits slots (d_block d) (crow b (sel_rows select) i) ∧ row_fits slots (d_estimates d) (crow b (sel_rows select) i)) →
  (if speculate then drawn = as_u32 <$> tk else d_block child = concat (child_cells b v select slots (d_block d) <$> tk)) →
  (reusable = true → speculate = true ∧ in_order (tags b select tk) = true) →
  ∃ d' child', descend sole_matrices q d child v speculate reusable (length tk) drawn (tags b select tk) = Some (d', child') ∧
    child_block b v select slots (d_block d) tk (d_block child') ∧ Forall (row_fits slots (d_estimates child')) (seq 0 (length tk)) ∧
    (d' = d ∨ reusable = true ∧ d' = with_matrices d (d_block d') (d_estimates d')).
Proof.
  intros Hq Hv Hfit Hdrawn Hre. unfold descend. rewrite Hq. destruct (reusable && sole_matrices q) eqn:E.
  - apply andb_true_iff in E as [-> _]. destruct (Hre eq_refl) as [-> Ho]. subst drawn. apply in_order_spec in Ho.
    unfold tags at 2 in Ho. rewrite length_fmap in Ho.
    destruct (fill_rows_spec b v select slots (d_block d) tk Hv Ho) as (block & -> & Hcb); [by intros i Hi; apply Hfit|].
    cbn [mbind option_bind]. eexists _, _. split; [done|]. simpl. split_and!; [done| |by right].
    apply Forall_forall. intros k Hk%elem_of_seq. destruct (lookup_lt_is_Some_2 tk k) as [i Hi]; [lia|].
    assert (tags b select tk !! k = Some (N.of_nat k)) as Ht by (rewrite Ho, list_lookup_fmap, lookup_seq_lt by lia; done).
    unfold tags in Ht. rewrite list_lookup_fmap, Hi in Ht. injection Ht as Ht%Nat2N.inj. rewrite <- Ht.
    apply Hfit. by eapply list_elem_of_lookup_2.
  - assert ((if speculate then copy_rows (d_block d) slots v drawn (tags b select tk) else Some (d_block child)) =
      Some (concat (child_cells b v select slots (d_block d) <$> tk))) as ->.
    { destruct speculate; [subst drawn; apply copy_rows_spec; [|done]|by rewrite Hdrawn]. by intros i Hi; apply Hfit. }
    cbn [mbind option_bind]. destruct (copy_estimates_spec b v select slots tk Hv (d_estimates d)) as (est & -> & Hlen); [by intros i Hi; apply Hfit|].
    cbn [mbind option_bind]. eexists _, _. split; [done|]. simpl. split_and!; [|..|by left].
    + apply concat_child_block; [by intros i Hi; apply Hfit].
    + apply Forall_forall. intros k Hk%elem_of_seq. unfold row_fits. nia.
Qed.

Lemma groups_left_done B L d d' rg : groups_left vars slots width B L d rg → d_group_limit d <= d_group d →
  d' = with_matrices d (d_block d') (d_estimates d') → groups_left vars slots width B L d' rg.
Proof.
  intros [Hp Hg Hw _ ->] Hle ->. assert (d_group d = d_group_limit d) as Heq by lia.
  split; simpl; try done; rewrite Heq, group_rows_nil; [apply Forall_nil_2|done].
Qed.

Lemma level_left_moved B L L' d l l' b pos pos' rc : level_left vars slots width B L d l b pos rc → agree B L L' →
  L' !! N.to_nat (l_variable l) = Some (mkLevel (Some b) pos') → drawn_to b (l_width l) 0 pos pos' →
  l_variable l' = l_variable l → l_proposed l' = l_proposed l → (0 < l_width l' <= width)%N →
  level_left vars slots width B L' d l' b pos' (cand_root slots B L d (l_variable l) b (level_rows d) <$> pending_from b pos').
Proof.
  intros [? ? ? ? ? ? ? ? ? Hcands ?] Hag Hlv (Hpos & Hpend & _) Ev Ep Hw. split; rewrite ?Ev; try done.
  - by rewrite Ep.
  - lia.
  - intros i Hi. eapply cand_ok_agree, Hcands; [done|]. rewrite Hpend in Hi. apply list_elem_of_lookup in Hi as [k Hk].
    rewrite lookup_drop in Hk. by eapply list_elem_of_lookup_2.
  - apply list_fmap_ext. intros k i _. by apply cand_root_agree.
Qed.

Lemma level_left_spent B L d d' l b pos rc : level_left vars slots width B L d l b pos rc → pending_from b pos = [] →
  d' = with_matrices d (d_block d') (d_estimates d') → level_left vars slots width B L d' l b pos rc.
Proof.
  intros [? ? ? ? ? ? ? ? ? Hcands ->] Hnil ->. split; simpl; try done.
  - rewrite Hnil. intros i Hi. by apply not_elem_of_nil in Hi.
  - by rewrite Hnil.
Qed.

Lemma retire_level_inv q B0 ds d rest B r0 m0 st0 l b pos rg rc :
  core q B → q_depths q = ds ++ d :: rest → q_depth q = length ds → q_stack q = st0 ++ [l] →
  s_bound (q_bindings q) = B → unbound_is vars (q_unbound q) (set B (l_variable l)) →
  below (levels q) B0 ds st0 B r0 m0 → groups_left vars slots width B (levels q) d rg →
  level_left vars slots width B (levels q) d l b pos rc →
  inv (retire_level q (l_variable l)) (r0 ++ rg) (m0 ++ [d_group_limit d - d_group d]).
Proof.
  intros Hcore Hds Hd Hst HB Hu Hb Hgl Hll. destruct (ll_variable _ _ _ _ _ _ _ _ _ _ Hll) as (Hv & Hvars & HvB).
  eapply (inv_run _ _ _ _ B0 ds d rest B r0 rg m0 _ st0 []); [destruct Hcore; by split|done|done| |done|].
  - simpl. rewrite Hst, length_app. simpl. rewrite app_nil_r. apply take_app_length'. lia.
  - unfold EngineSpec.top. simpl. split_and!; [done| |by apply unbound_unset|done|done].
    rewrite HB. apply vs_ext; [apply wf_unset; by eapply below_facts|by eapply below_facts|].
    intros w Hw. rewrite is_set_unset by done. by destruct (N.eqb_spec w (l_variable l)) as [->|].
Qed.

(** The rows of the child frontier are the roots of the drawn candidates. *)
Lemma child_rows B L L' d v b select block pos pos' tk : open_variable vars B v → agree B L L' →
  L' !! N.to_nat v = Some (mkLevel (Some b) pos') → (N.of_nat (pb_len b) < 2 ^ 32)%N →
  (∀ i, i ∈ tk → i ∈ pending_from b pos ∧ cand_ok slots B L d b (sel_rows select) i) →
  child_block b v select slots (d_block d) tk block →
  Forall (row_ok (set B v) L' slots block) (seq 0 (length tk)) ∧
  row_asg (set B v) L' slots block <$> seq 0 (length tk) = cand_root slots B L d v b (sel_rows select) <$> tk.
Proof.
  intros Hv Hag Hlv H32 Htk Hcb.
  assert (∀ k i, tk !! k = Some i → row_ok (set B v) L' slots block k ∧
    row_asg (set B v) L' slots block k = cand_root slots B L d v b (sel_rows select) i) as Hrow.
  { intros k i Hk. destruct (Hcb k i Hk) as [Hfit Hcells]. destruct (Htk i) as [Hp Hcand]; [by eapply list_elem_of_lookup_2|].
    apply elem_of_pending in Hp as [Hi _]. eapply child_row; try done. lia. }
  split.
  - apply Forall_forall. intros k Hk%elem_of_seq. destruct (lookup_lt_is_Some_2 tk k) as [i Hi]; [lia|]. by eapply Hrow.
  - apply list_eq_same_length with (length tk); [by rewrite length_fmap|by rewrite length_fmap, length_seq|].
    intros k x y Hk Hx Hy. rewrite list_lookup_fmap, lookup_seq_lt in Hx by done. rewrite list_lookup_fmap in Hy.
    destruct (tk !! k) as [i|] eqn:Ei; [|done]. simpl in Hx, Hy. destruct (Hrow k i Ei) as [_ Heq]. congruence.
Qed.

Lemma stale_open q B w stale : unbound_is vars (q_unbound q) B →
  w ∈ into_iter (intersect stale (q_unbound q)) → open_variable vars B w.
Proof.
  intros [Hu Hub] Hw.
  apply into_iter_in in Hw as [Hw Hs]; [|by apply wf_intersect]. rewrite is_set_intersect, Hub in Hs by done.
  apply andb_true_iff in Hs as [_ Hs]. by apply andb_true_iff in Hs as [? Hs%negb_true_iff].
Qed.

Lemma reusable_spec s v b pos speculate rows (source_rows : nat) parents : s_levels s !! N.to_nat v = Some (mkLevel (Some b) pos) →
  pb_ok b → pos <= pb_len b →
  ∃ reusable, (if speculate && (rows =? source_rows) && in_order parents then spent s v else Some false) = Some reusable ∧
    (reusable = true → speculate = true ∧ in_order parents = true ∧ pending_from b pos = []).
Proof.
  intros Hl Hb Hpos. destruct (speculate && (rows =? source_rows) && in_order parents) eqn:E.
  - apply andb_true_iff in E as [[? _]%andb_true_iff ?]. destruct (spent_spec s v b pos Hl Hb Hpos) as (r & -> & Hr).
    exists r. split; [done|]. intros ->. split_and!; [done|done|by apply Hr].
  - by exists false.
Qed.

Lemma enter_child_inv q B0 ds d child child0 rest B r0 m0 st0 l b pos pos' rg select (speculate : bool) source_rows (drawn : list N) (tk : list nat) L :
  core q B → q_depths q = ds ++ d :: child0 :: rest → q_depth q = length ds → q_stack q = st0 ++ [l] →
  s_bound (q_bindings q) = set B (l_variable l) → unbound_is vars (q_unbound q) (set B (l_variable l)) →
  levels q = <[N.to_nat (l_variable l) := mkLevel (Some b) pos']> L →
  below (levels q) B0 ds st0 B r0 m0 → groups_left vars slots width B (levels q) d rg →
  level_left vars slots width B (levels q) d l b pos' (cand_root slots B L d (l_variable l) b (level_rows d) <$> pending_from b pos') →
  (∀ i, i ∈ pending_from b pos → cand_ok slots B L d b (level_rows d) i) → agree B L (levels q) →
  sel_ok select → sel_rows select = level_rows d → tk ≠ [] → (∀ i, i ∈ tk → i ∈ pending_from b pos) → (N.of_nat (length tk) <= width)%N →
  (speculate = true → d_group_limit d <= d_group d) →
  (if speculate : bool then drawn = as_u32 <$> tk else d_block child = concat (child_cells b (l_variable l) select slots (d_block d) <$> tk)) →
  ∃ q', enter_child c sole_matrices q d child (l_variable l) speculate source_rows (length tk) drawn (tags b select tk) = Some q' ∧
    inv q' ((r0 ++ rg ++ (cand_root slots B L d (l_variable l) b (level_rows d) <$> pending_from b pos')) ++
        (cand_root slots B L d (l_variable l) b (level_rows d) <$> tk))
      ((m0 ++ [d_group_limit d - d_group d; l_proposed l - pos']) ++ [S (length tk)]).
Proof.
  intros Hcore Hds Hd Hst HB Hu HL Hb Hgl Hll Hcands Hag Hsok Hsr Htk Hsub Hwid Hspec Hdrawn.
  destruct (ll_variable _ _ _ _ _ _ _ _ _ _ Hll) as (Hv & Hvars & HvB). pose proof (Hvslots _ Hv Hvars) as Hvs.
  set (v := l_variable l) in *. unfold enter_child.
  destruct (reusable_spec (q_bindings q) v b pos' speculate (length tk) source_rows (tags b select tk)) as (reusable & -> & Hre);
    [apply Hll..|]. cbn [mbind option_bind].
  assert (∀ i, i ∈ tk → i ∈ pending_from b pos ∧ cand_ok slots B L d b (sel_rows select) i) as Htkc.
  { intros i Hi. split; [by apply Hsub|]. rewrite Hsr. by apply Hcands, Hsub. }
  destruct (descent_spec q d child v b select tk speculate reusable drawn) as (d' & child' & -> & Hcb & Hest & Hd');
    [apply Hcore|done| |done|by intros Hr; apply Hre in Hr as (? & ? & _)|].
  { intros i Hi. destruct (Htkc i Hi) as [_ (r & x & Hcr & [Hf _] & He & _)]. unfold crow. by rewrite Hcr. }
  cbn [mbind option_bind]. destruct (lookup_lt_is_Some_2 (q_influences q) (N.to_nat v)) as [stale Hstale].
  { rewrite (cr_influences _ _ _ _ _ Hcore). lia. }
  rewrite Hstale. cbn [mbind option_bind]. rewrite (cr_slots _ _ _ _ _ Hcore).
  destruct (child_rows B L (levels q) d v b select (d_block child') pos pos' tk) as [Hrows Hroots];
    [done|done|apply Hll|apply Hll|done|done|].
  assert (core q (set B v)) as Hcore'.
  { destruct Hcore as [? ? ? ? Hbd]. split; try done. intros w Hw. rewrite is_set_set by done.
    destruct (N.eqb_spec w v) as [->|]; [done|by apply Hbd]. }
  destruct (refresh_spec (set B v) (q_bindings q) (d_block child') (d_estimates child') (intersect stale (q_unbound q)) (length tk) (q_parallel q))
    as (est & -> & Hlen); [done|intros w; by eapply stale_open|lia|done|done|].
  cbn [mbind option_bind]. rewrite Hd, (set_depth_mid q ds d (child0 :: rest)) by done. cbn [mbind option_bind].
  replace (S (length ds)) with (length (ds ++ [d'])) by (rewrite length_app; simpl; lia).
  rewrite (set_depth_mid _ (ds ++ [d']) child0 rest) by (simpl; by rewrite <- app_assoc). cbn [mbind option_bind].
  eexists. split; [done|]. set (dc := mkDepth _ _ _ _ _ _ _).
  assert (groups_left vars slots width B (levels q) d' rg ∧ level_left vars slots width B (levels q) d' l b pos'
    (cand_root slots B L d v b (level_rows d) <$> pending_from b pos')) as [Hgl' Hll'].
  { destruct Hd' as [->|[Hr Heq]]; [done|]. destruct (Hre Hr) as (Hsp & _ & Hnil).
    split; [by eapply groups_left_done; [|apply Hspec|]|by eapply level_left_spent]. }
  assert (d_group d' = d_group d ∧ d_group_limit d' = d_group_limit d) as [Eg El] by (destruct Hd' as [->|[_ ->]]; done).
  rewrite <- Eg, <- El. eapply (inv_run _ _ _ _ B0 (ds ++ [d']) dc rest (set B v) _ _ _ _ (st0 ++ [l]) []).
  - destruct Hcore'. by split.
  - done.
  - done.
  - simpl. by rewrite app_nil_r.
  - by apply below_snoc with b.
  - unfold EngineSpec.top. simpl. split_and!; try done.
    + destruct tk; [done|simpl; lia].
    + unfold depth_rows. rewrite Forall_forall in *. intros k Hk. split; [by apply Hrows|]. unfold row_fits. simpl.
      rewrite Hlen. by apply Hest.
    + unfold roots_of. simpl. by rewrite Hroots, Hsr.
Qed.

Lemma chunk_inv q roots m : inv q roots m → q_mode q = NextChunk →
  ∃ q' roots' m', next_chunk c sole_matrices q = Some q' ∧ inv q' roots' m' ∧ roots ≡ₚ roots' ∧ lexlt m' m.
Proof.
  intros Hi Hmode. destruct Hi as [Hdone|B0 ds d rest B r0 r1 m0 m1 st0 st1 Hcore Hds Hd Hst Hb Ht]; [congruence|].
  unfold EngineSpec.top in Ht. rewrite Hmode in Ht. destruct Ht as (l & b & pos & rg & rc & -> & HB & Hu & Hgl & Hll & -> & ->).
  pose proof (ll_group _ _ _ _ _ _ _ _ _ _ Hll) as Hgroup.
  destruct (ll_variable _ _ _ _ _ _ _ _ _ _ Hll) as (Hv & Hvars & HvB).
  pose proof (gl_width _ _ _ _ _ _ _ Hgl) as Hwid. pose proof (gl_plan _ _ _ _ _ _ _ Hgl) as Hpl.
  unfold next_chunk. rewrite Hst, last_snoc. cbn [mbind option_bind]. rewrite Hd.
  replace (q_depths q !! length ds) with (Some d) by (by rewrite Hds, lookup_depths).
  cbn [mbind option_bind]. unfold massert. rewrite (proj2 (Nat.leb_le 1 _)) by lia. cbn [mbind option_bind].
  unfold depth_group. rewrite (ll_plan _ _ _ _ _ _ _ _ _ _ Hll). cbn [mbind option_bind].
  assert (∃ child rest', (if length (q_depths q) <=? S (length ds) then with_depths q (q_depths q ++ [depth_default]) else q)
    = with_depths q (ds ++ d :: child :: rest')) as (child & rest' & ->).
  { rewrite Hds, length_app. destruct rest as [|child rest].
    - exists depth_default, []. rewrite (proj2 (Nat.leb_le _ _)) by (simpl; lia). by rewrite <- app_assoc.
    - exists child, rest. rewrite (proj2 (Nat.leb_gt _ _)) by (simpl; lia). rewrite <- Hds. by destruct q. }
  destruct (group_selection vars B d (d_group d - 1)) as (whole & select & -> & Hsl & Hsok & Hsr); [done|lia|lia|].
  replace (S (d_group d - 1)) with (d_group d) in Hsl, Hsr by lia.
  cbn [mbind option_bind]. rewrite Hsl. cbn [mbind option_bind]. set (q1 := with_depths q _).
  assert (q_depths q1 !! S (length ds) = Some child) as ->.
  { simpl. rewrite lookup_app_r by lia. by replace (S (length ds) - length ds) with 1 by lia. }
  cbn [mbind option_bind]. rewrite (cr_slots _ _ _ _ _ Hcore : q_slots q1 = slots).
  set (speculate := (_ && _ && _)%bool).
  destruct (draw_chunk_spec B d l b pos rc select child speculate (q_bindings q1) Hll Hsok Hsr)
    as (pos' & drawn & child' & -> & Hto & Hdrawn).
  cbn [mbind option_bind]. set (tk := taken b (l_width l) 0 pos) in *. set (L' := <[N.to_nat (l_variable l):=_]> _).
  assert (length (levels q) = 128) as HL by apply Hcore.
  assert (L' !! N.to_nat (l_variable l) = Some (mkLevel (Some b) pos')) as HL' by (unfold L'; by rewrite list_lookup_insert_eq by (simpl; lia)).
  unfold consumed. cbn [with_bound s_levels]. rewrite HL'. cbn [mbind option_bind lv_pos].
  rewrite (cr_width _ _ _ _ _ Hcore : q_width q1 = width). change (q_stack q1) with (q_stack q). rewrite Hst, widen_last_snoc.
  set (q2 := with_stack _ _). set (l' := mkStackLevel _ _ _) in *.
  assert (agree B (levels q) L') as Hag by by apply levels_agree_insert.
  assert (level_left vars slots width B L' d l' b pos' (cand_root slots B (levels q) d (l_variable l) b (level_rows d) <$> pending_from b pos')) as Hll'.
  { eapply level_left_moved; [exact Hll|done|exact HL'|done|done|done|].
    apply ramp_width, Hll. }
  assert (core q2 B) as Hcore2.
  { destruct Hcore. split; try done. change (length L' = 128). unfold L'. by rewrite length_insert. }
  assert (vs_wf B) as HwB by by eapply below_facts.
  pose proof (drawn_split _ _ _ _ _ Hto) as Hsplit. fold tk in Hsplit. destruct Hto as (Hpos' & Hpend & Hadv).
  rewrite (ll_roots _ _ _ _ _ _ _ _ _ _ Hll). destruct (Nat.eqb_spec (length tk) 0) as [E0|E0].
  - assert (tk = []) as Htk by by apply nil_length_inv.
    assert (pending_from b pos = []) as Hnil.
    { unfold tk, taken in Htk. destruct (pending_from b pos); [done|]. pose proof (ll_width _ _ _ _ _ _ _ _ _ _ Hll).
      destruct (N.to_nat (l_width l) - 0) eqn:E; [lia|done]. }
    replace (S (length ds)) with (length (ds ++ [d])) by (rewrite length_app; simpl; lia).
    rewrite (set_depth_mid q2 (ds ++ [d]) child rest') by (simpl; by rewrite <- app_assoc). cbn [mbind option_bind].
    eexists _, _, _. split; [done|]. change (l_variable l) with (l_variable l'). split; [|split].
    + eapply (retire_level_inv _ B0 ds d (child' :: rest') B r0 m0 st0 l' b pos' rg);
        [destruct Hcore2; by split|simpl; by rewrite <- app_assoc|done|done| |done|by eapply below_agree|by eapply groups_left_agree|exact Hll'].
      change (set_value (s_bound (q_bindings q)) (l_variable l) (negb true) = B).
      by apply (set_value_after B (l_variable l) false).
    + rewrite Hnil, fmap_nil, app_nil_r. done.
    + apply lexlt_app, lex_tail, lex_prefix.
  - assert (tk ≠ []) as Htk by by intros ->.
    destruct (enter_child_inv q2 B0 ds d child' child rest' B r0 m0 st0 l' b pos pos' rg select speculate
      (group_start (d_plan d) (d_rows d) (d_group d) - group_start (d_plan d) (d_rows d) (d_group d - 1)) drawn tk (levels q))
      as (q' & Hq' & Hi); try done.
    + by apply (set_value_after B (l_variable l) true).
    + by eapply below_agree.
    + by eapply groups_left_agree.
    + apply Hll.
    + intros i Hi. unfold tk, taken in Hi. apply list_elem_of_lookup in Hi as [k Hk].
      apply lookup_take_Some in Hk as [Hk _]. by eapply list_elem_of_lookup_2.
    + unfold tk, taken. rewrite length_take. pose proof (ll_width _ _ _ _ _ _ _ _ _ _ Hll). lia.
    + unfold speculate. intros [_ Hle%Nat.leb_le]%andb_true_iff. done.
    + eexists q', _, _. split; [exact Hq'|]. split; [exact Hi|]. split.
      * rewrite <- app_assoc. apply Permutation_app; [done|]. rewrite <- app_assoc. apply Permutation_app; [done|].
        rewrite Hsplit, fmap_app. apply Permutation_app_comm.
      * rewrite <- app_assoc. apply lexlt_app. simpl. apply lex_tail, lex_head.
        rewrite (ll_proposed _ _ _ _ _ _ _ _ _ _ Hll). specialize (Hadv Htk). lia.
Qed.
End steps.
