(* ===== verification/EngineSearch.v ===== *)
(** * EngineSearch: what a query yields

    The search terminates and its answers refine the roots of the state it
    starts from; so a fresh query yields every solution once.  A predicate that
    errs leaves its row pending, and splitting a query for parallel execution
    splits its answers. *)

From S2P Require Import Prelude Lex VariableSet Machine Trible Liveness Query Engine EngineRows EnginePlan EngineSpec EngineSteps.

Open Scope nat_scope.

(** ** The iterator as a traversal *)

(** One turn of [next]. *)
Definition next_step (c : Constraint) (sole_buffer sole_matrices : Query → bool) {R} (post : Binding → option R) (q : Query)
    : res (Query + (option R * Query)) :=
  r ← try_step c sole_buffer sole_matrices post (λ _, inr true) q;
  Some (match r with
        | inl q => inl q
        | inr (inr o, q) => inr (o, q)
        | inr (inl e, _) => match e : Empty_set with end
        end).

(** A turn is an internal step, hands out a row, or ends. *)
Inductive turn c sole_buffer sole_matrices (q : Query) : Query + (option Binding * Query) → Prop :=
  | turn_step q' : (∀ E R (post : Binding → option R) (pred : Binding → E + bool),
      try_step c sole_buffer sole_matrices post pred q = Some (inl q')) → turn c sole_buffer sole_matrices q (inl q')
  | turn_emit b q' : (∀ E R (post : Binding → option R) (pred : Binding → E + bool),
      try_step c sole_buffer sole_matrices post pred q = match pred b with
        | inl e => Some (inr (inl e, q))
        | inr v => Some (match (if v then post b else None) with Some r => inr (inr (Some r), q') | None => inl q' end)
        end) → turn c sole_buffer sole_matrices q (inr (Some b, q'))
  | turn_done : (∀ E R (post : Binding → option R) (pred : Binding → E + bool),
      try_step c sole_buffer sole_matrices post pred q = Some (inr (inr None, q))) → turn c sole_buffer sole_matrices q (inr (None, q)).

Section traversal.
Context (c : Constraint) (sole_buffer sole_matrices : Query → bool).
Abbreviation turn := (turn c sole_buffer sole_matrices).
Abbreviation search_step := (next_step c sole_buffer sole_matrices Some).

(** The rows the search hands out from a state on. *)
Definition emits : Query → list Binding → Prop := drains search_step.

Lemma next_loop {R} (post : Binding → option R) fuel q :
  next c sole_buffer sole_matrices post fuel q = loopM (next_step c sole_buffer sole_matrices post) fuel q.
Proof.
  unfold next, try_next_where. revert q. induction fuel as [|fuel IH]; intros q; [done|]. cbn [loopM].
  destruct (next_step _ _ _ post q) as [r|] eqn:En; unfold next_step in En;
    destruct (try_step _ _ _ _ _ q) as [[q'|[[e|o] q']]|]; simplify_eq/=; done || apply IH.
Qed.

Lemma turn_next {R} (post : Binding → option R) q r : turn q r → next_step c sole_buffer sole_matrices post q =
  Some (match r with
        | inl q' => inl q'
        | inr (Some b, q') => match post b with Some x => inr (Some x, q') | None => inl q' end
        | inr (None, q') => inr (None, q')
        end).
Proof.
  unfold next_step. intros [q' H|b q' H|H]; rewrite H; cbn [mbind option_bind]; [done| |done]. by destruct (post b).
Qed.

Lemma search_turn q : (∃ r, search_step q = Some r) → ∃ r, turn q r ∧ search_step q = Some r.
Proof.
  intros [r Hr]. unfold next_step, try_step in Hr. destruct (q_mode q) eqn:Em.
  - destruct (plan q) as [q'|] eqn:E; [|done]. assert (turn q (inl q')) as Ht by (apply turn_step; intros; unfold try_step; by rewrite Em, E).
    exists (inl q'). split; [done|]. by rewrite (turn_next _ _ _ Ht).
  - destruct (next_group c sole_buffer q) as [q'|] eqn:E; [|done].
    assert (turn q (inl q')) as Ht by (apply turn_step; intros; unfold try_step; by rewrite Em, E).
    exists (inl q'). split; [done|]. by rewrite (turn_next _ _ _ Ht).
  - destruct (next_chunk c sole_matrices q) as [q'|] eqn:E; [|done].
    assert (turn q (inl q')) as Ht by (apply turn_step; intros; unfold try_step; by rewrite Em, E).
    exists (inl q'). split; [done|]. by rewrite (turn_next _ _ _ Ht).
  - destruct (q_depths q !! q_depth q) as [d|] eqn:Ed; [|done]. cbn [mbind option_bind] in Hr.
    destruct (frontier q) as [f|] eqn:Ef; [|done]. cbn [mbind option_bind] in Hr. destruct (d_emit d <? f_len f) eqn:El.
    + destruct (f_row f (d_emit d)) as [b|] eqn:Eb; [|done]. cbn [mbind option_bind] in Hr.
      destruct (set_depth q (q_depth q) (with_emit d (S (d_emit d)))) as [q'|] eqn:Es; [|done].
      assert (turn q (inr (Some b, q'))) as Ht.
      { apply turn_emit. intros. unfold try_step. rewrite Em, Ed. cbn [mbind option_bind]. rewrite Ef. cbn [mbind option_bind].
        rewrite El, Eb. cbn [mbind option_bind]. rewrite Es. destruct (pred b) as [e|v]; [done|]. cbn [mbind option_bind].
        by destruct v, (post b). }
      eexists. split; [done|]. by rewrite (turn_next _ _ _ Ht).
    + assert (turn q (inl (retire q))) as Ht.
      { apply turn_step. intros. unfold try_step. rewrite Em, Ed. cbn [mbind option_bind]. rewrite Ef. cbn [mbind option_bind]. by rewrite El. }
      eexists. split; [done|]. by rewrite (turn_next _ _ _ Ht).
  - assert (turn q (inr (None, q))) as Ht by (apply turn_done; intros; unfold try_step; by rewrite Em).
    eexists. split; [done|]. by rewrite (turn_next _ _ _ Ht).
Qed.

Lemma turn_det q r r' : turn q r → search_step q = Some r' → r' = r.
Proof.
  intros Ht Hr. rewrite (turn_next _ _ _ Ht) in Hr. injection Hr as <-. by destruct r as [q'|[[b|] q']].
Qed.

(** Projecting the rows on the way. *)
Lemma emits_next {R} (post : Binding → option R) q bs : emits q bs →
  drains (next_step c sole_buffer sole_matrices post) q (omap post bs).
Proof.
  induction 1 as [q q' bs Hb _ IH|q b q' bs Hb _ IH|q Hb]; destruct (search_turn q) as (r & Ht & _); eauto;
    pose proof (turn_det _ _ _ Ht Hb) as <-; pose proof (turn_next post _ _ Ht) as Hn; simpl in Hn.
  - by eapply drains_skip.
  - simpl. destruct (post b) as [x|] eqn:Ep; [by eapply drains_item|by eapply drains_skip].
  - by apply drains_end.
Qed.

Lemma emits_yields {R} (post : Binding → option R) q bs : emits q bs →
  ∃ n, ∀ fuel, n <= fuel → yields no_hint (next c sole_buffer sole_matrices post fuel) q (omap post bs).
Proof.
  intros Hem. destruct (drains_yields _ _ _ (emits_next post q bs Hem)) as [n Hy].
  exists n. intros fuel Hf. eapply yields_ext; [|by apply Hy]. intros s. symmetry. apply next_loop.
Qed.

(** What the first call of [try_next_where] meets in the pending rows: an error,
    a row to return, or the end; and the rows pending after it. *)
Fixpoint scan {E R} (post : Binding → option R) (pred : Binding → E + bool) (bs : list Binding) : (E + option R) * list Binding :=
  match bs with
  | [] => (inr None, [])
  | b :: rest =>
      match pred b with
      | inl e => (inl e, b :: rest)
      | inr v => match (if v then post b else None) with Some r => (inr (Some r), rest) | None => scan post pred rest end
      end
  end.

Lemma emits_scan {E R} (post : Binding → option R) (pred : Binding → E + bool) q bs : emits q bs →
  ∃ n q', emits q' (scan post pred bs).2 ∧
    ∀ fuel, n <= fuel → try_next_where c sole_buffer sole_matrices post pred fuel q = Some ((scan post pred bs).1, q').
Proof.
  induction 1 as [q q' bs Hb Hd IH|q b q' bs Hb Hd IH|q Hb]; destruct (search_turn q) as (r & Ht & _); eauto;
    pose proof (turn_det _ _ _ Ht Hb) as <-.
  - destruct IH as (n & q2 & Hq2 & Hf). exists (S n), q2. split; [done|]. intros [|fuel] Hle; [lia|].
    inversion Ht as [? Hs|?|?]; subst. unfold try_next_where. simpl. rewrite Hs. cbn [mbind option_bind]. apply Hf. lia.
  - inversion Ht as [?|? ? Hs|?]; subst. specialize (Hs E R post pred). simpl.
    destruct (pred b) as [e|v] eqn:Ep.
    + exists 1, q. split; [by eapply drains_item|]. intros [|fuel] Hle; [lia|]. unfold try_next_where. simpl. by rewrite Hs.
    + destruct (if v then post b else None) as [x|] eqn:Ex.
      * exists 1, q'. split; [done|]. intros [|fuel] Hle; [lia|]. unfold try_next_where. simpl. by rewrite Hs.
      * destruct IH as (n & q2 & Hq2 & Hf). exists (S n), q2. split; [done|]. intros [|fuel] Hle; [lia|].
        unfold try_next_where. simpl. rewrite Hs. cbn [mbind option_bind]. apply Hf. lia.
  - exists 1, q. split; [by apply drains_end|]. intros [|fuel] Hle; [lia|]. inversion Ht as [?|?|Hs]; subst.
    unfold try_next_where. simpl. by rewrite Hs.
Qed.

Lemma emits_det q bs bs' : emits q bs → emits q bs' → bs = bs'.
Proof.
  intros H. revert bs'. induction H as [q q' bs Hb _ IH|q b q' bs Hb _ IH|q Hb]; intros bs' H'; inversion H' as [? ? ? Hb'|? ? ? ? Hb'|? Hb'];
    subst; rewrite Hb in Hb'; simplify_eq; f_equal; auto.
Qed.
End traversal.

(** ** The search *)

Section search.
Context (c : Constraint) (sat : asg → Prop) (rel : VariableSet → VariableId → bool) `{Hc : !ConstraintOk c sat rel}.
Context (sole_buffer sole_matrices : Query → bool).
Context (slots : nat) (width : N) (Hwidth : (0 < width < 2 ^ 32)%N).
Context (Hslots : slots <= 128) (Hvslots : ∀ v, (v < 128)%N → is_set (variables c) v = true → N.to_nat v < slots).
Context (Hrel : ∀ s v, (v < 128)%N → is_set (variables c) v = true → is_set s v = false → rel s v = true).
Context (Hsmall : ∀ v f b', (v < 128)%N → is_set (variables c) v = true → is_set (f_bound f) v = false → frontier_ok f →
  (N.of_nat (f_len f) <= width)%N → propose c v f pb_new = Some b' → (N.of_nat (pb_len b') < 2 ^ 32)%N).
Abbreviation vars := (variables c).
Abbreviation inv := (inv vars slots width).
Abbreviation refine := (refine vars sat).
Abbreviation emits := (emits c sole_buffer sole_matrices).
Abbreviation search_step := (next_step c sole_buffer sole_matrices Some).

(** A row handed out binds every variable of the query. *)
Definition complete_row (b : Binding) : Prop := binding_ok b ∧ b_bound b = vars.

Lemma emit_inv q roots m : inv q roots m → q_mode q = Emit →
  (∃ m', search_step q = Some (inl (retire q)) ∧ inv (retire q) roots m' ∧ lexlt m' m) ∨
  (∃ b q' roots' m', search_step q = Some (inr (Some b, q')) ∧ inv q' roots' m' ∧ roots ≡ₚ bval b :: roots' ∧
    complete_row b ∧ lexlt m' m).
Proof.
  intros Hi Hmode. destruct Hi as [Hdone|B0 ds d rest B r0 r1 m0 m1 st0 st1 Hcore Hds Hd Hst Hb Ht]; [congruence|].
  unfold EngineSpec.top in Ht. rewrite Hmode in Ht. destruct Ht as (-> & HB & Hu & Hall & Hpl & Hem & Hwid & Hok & -> & ->).
  assert (∃ sel, frontier q = Some (batch (q_bindings q) (d_block d) sel (q_slots q) (q_parallel q)) ∧
    sel_ok sel ∧ sel_rows sel = seq 0 (d_rows d)) as (sel & Hf & Hsok & Hsr).
  { unfold frontier. rewrite Hd, Hds, lookup_depths. cbn [mbind option_bind]. unfold d_selection. rewrite Hpl.
    destruct (sel_identity_spec (d_rows d)) as (sel & Hs & ? & ?); [lia|]. exists sel. simpl. by rewrite Hs. }
  unfold next_step, try_step. rewrite Hmode, Hd, Hds, lookup_depths. cbn [mbind option_bind]. rewrite Hf. cbn [mbind option_bind].
  unfold f_len. cbn [batch f_select]. rewrite sel_len_rows, Hsr, length_seq.
  destruct (Nat.ltb_spec (d_emit d) (d_rows d)) as [Hlt|Hge].
  - right. replace (d_rows d - d_emit d) with (S (d_rows d - S (d_emit d))) in * by lia. simpl in Hok.
    apply Forall_cons in Hok as [[[Hfit Hbok] Hest] Hok].
    rewrite (f_row_spec _ _ (d_emit d)); [|done|simpl; by rewrite Hsr, lookup_seq_lt by lia|simpl; by rewrite (cr_slots _ _ _ _ _ Hcore)].
    cbn [mbind option_bind]. rewrite (set_depth_mid q ds d rest) by done. cbn [mbind option_bind].
    simpl. rewrite HB, (cr_slots _ _ _ _ _ Hcore). eexists _, _, _, _. split; [done|]. split; [|split; [|split]].
    + eapply (inv_run _ _ _ _ B0 ds (with_emit d (S (d_emit d))) rest B r0 _ m0 [d_rows d - S (d_emit d)] st0 []);
        [destruct Hcore; by split|done|done|done|done|].
      unfold EngineSpec.top. simpl. rewrite Hmode. split_and!; try done.
    + simpl. symmetry. apply Permutation_middle.
    + split; [done|]. simpl. apply vs_ext; [apply (below_facts _ _ _ _ _ _ _ _ _ _ Hb)|apply co_variables|]. intros v Hv.
      destruct (is_set vars v) eqn:Ev; [by apply Hall|]. apply not_true_iff_false. intros Hs.
      apply (cr_bound _ _ _ _ _ Hcore) in Hs; [congruence|done].
    + apply lexlt_app, lex_head. lia.
  - left. assert (d_rows d - d_emit d = 0) as -> by lia. simpl.
    destruct (retire_inv c slots width Hwidth Hslots q B0 ds d rest B r0 m0 0 st0) as (m' & Hi & Hm); try done.
    { by rewrite Hst, app_nil_r. }
    exists m'. split_and!; [done| |done]. by rewrite app_nil_r.
Qed.

Lemma inv_small q roots m : inv q roots m → length m <= 258.
Proof.
  intros Hi. destruct Hi as [|B0 ds d rest B r0 r1 m0 m1 st0 st1 Hcore Hds Hd Hst Hb Ht]; [simpl; lia|].
  destruct (below_facts _ _ _ _ _ _ _ _ _ _ Hb) as (_ & Hl & _ & Hsize). rewrite length_app, Hl.
  pose proof (count_le_128 B) as H128. rewrite <- size_elements in H128.
  assert (length m1 <= 2) as Hm1; [|lia]. unfold EngineSpec.top in Ht. destruct (q_mode q).
  all: try (destruct Ht as (l & b & pos & rg & rc & _ & _ & _ & _ & _ & _ & ->); simpl; lia).
  all: try (decompose [and] Ht; subst; simpl; lia).
Qed.

(** The rows handed out from a state refine its roots. *)
Lemma search_from q roots m : inv q roots m → ∃ bs, emits q bs ∧ Forall complete_row bs ∧ refine roots (bval <$> bs).
Proof.
  intros Hi. pose proof (lexlt_acc 258 m (inv_small _ _ _ Hi)) as Hacc. revert q roots Hi.
  induction Hacc as [m _ IH]. intros q roots Hi.
  assert (∀ q' roots' m', search_step q = Some (inl q') → inv q' roots' m' → refine roots roots' → lexlt m' m →
    ∃ bs, emits q bs ∧ Forall complete_row bs ∧ refine roots (bval <$> bs)) as Hstep.
  { intros q' roots' m' Hs Hi' Hr Hm. destruct (IH m') with (q := q') (roots := roots') as (bs & Hbs & Hall & Href);
      [split; [by eapply inv_small|done]|done|]. exists bs. split; [by eapply drains_skip|]. split; [done|]. by eapply refine_trans. }
  assert (∀ r, try_step c sole_buffer sole_matrices Some (λ _ : Binding, inr true : Empty_set + bool) q = Some (inl r) →
    search_step q = Some (inl r)) as Hins by (intros r Hr; unfold next_step; by rewrite Hr).
  destruct (q_mode q) eqn:Em.
  - destruct (plan_inv c slots width Hwidth Hslots Hvslots q roots m Hi Em) as (q' & roots' & m' & Hp & Hi' & Hr & Hm).
    apply (Hstep q' roots' m'); [|done|by apply refine_perm|done]. apply Hins. unfold try_step. by rewrite Em, Hp.
  - destruct (group_inv c sat rel sole_buffer slots width Hwidth Hslots Hvslots Hrel Hsmall q roots m Hi Em) as (q' & roots' & m' & Hp & Hi' & Hr & Hm).
    apply (Hstep q' roots' m'); [|done..]. apply Hins. unfold try_step. by rewrite Em, Hp.
  - destruct (chunk_inv c sat rel sole_matrices slots width Hwidth Hslots Hvslots Hrel q roots m Hi Em) as (q' & roots' & m' & Hp & Hi' & Hr & Hm).
    apply (Hstep q' roots' m'); [|done|by apply refine_perm|done]. apply Hins. unfold try_step. by rewrite Em, Hp.
  - destruct (emit_inv q roots m Hi Em) as [(m' & Hs & Hi' & Hm)|(b & q' & roots' & m' & Hs & Hi' & Hr & Hb & Hm)].
    + apply (Hstep (retire q) roots m'); [done|done|by apply refine_perm|done].
    + destruct (IH m') with (q := q') (roots := roots') as (bs & Hbs & Hall & Href); [split; [by eapply inv_small|done]|done|].
      exists (b :: bs). split; [by eapply drains_item|]. split; [by constructor|].
      eapply refine_trans; [by apply refine_perm|]. change (bval <$> b :: bs) with ([bval b] ++ (bval <$> bs)).
      by apply (refine_app vars sat [bval b]).
  - destruct Hi as [_|B0 ds d rest B r0 r1 m0 m1 st0 st1 Hcore Hds Hd Hst Hb Ht]; [|unfold EngineSpec.top in Ht; by rewrite Em in Ht].
    exists []. split; [|split; [done|by apply refine_perm]]. apply drains_end. unfold next_step, try_step. by rewrite Em.
Qed.

(** ** Splitting *)

Lemma below_variables L B0 ds st B roots m l : below vars slots width L B0 ds st B roots m → l ∈ st → (l_variable l < 128)%N.
Proof.
  induction 1 as [|B0 ds st B d l' b pos r0 rg rc m Hb IH Hg Hl]; intros Hin; [by apply not_elem_of_nil in Hin|].
  apply elem_of_app in Hin as [Hin| ->%list_elem_of_singleton]; [by apply IH|]. apply Hl.
Qed.

Lemma ancestors_spec q B B0 ds d rest st0 st1 r0 m0 : core vars slots width q B → q_depths q = ds ++ d :: rest → q_depth q = length ds →
  q_stack q = st0 ++ st1 → below vars slots width (s_levels (q_bindings q)) B0 ds st0 B r0 m0 →
  is_Some (has_ancestor_continuation q).
Proof.
  intros Hcore Hds Hd Hst Hb. unfold has_ancestor_continuation. rewrite Hd.
  assert (∀ n, n <= length ds → is_Some (any_upto (λ depth,
    frontier ← q_depths q !! depth;
    if d_group frontier <? d_group_limit frontier then Some true else
    match q_stack q !! depth with
    | None => Some false
    | Some level => n ← consumed (q_bindings q) (l_variable level); Some (n <? l_proposed level)
    end) n)) as Hall; [|by apply Hall].
  induction n as [|n IH]; intros Hn; simpl; [done|]. destruct IH as [r ->]; [lia|]. cbn [mbind option_bind].
  destruct r; [done|]. rewrite Hds, lookup_app_l by lia. destruct (lookup_lt_is_Some_2 ds n) as [f ->]; [lia|]. cbn [mbind option_bind].
  destruct (d_group f <? d_group_limit f); [done|].
  destruct (below_facts _ _ _ _ _ _ _ _ _ _ Hb) as (Hls & _). rewrite Hst, lookup_app_l by lia.
  destruct (lookup_lt_is_Some_2 st0 n) as [l Hl]; [lia|]. rewrite Hl. unfold consumed.
  assert (l_variable l < 128)%N as Hv by (eapply below_variables; [exact Hb|by eapply list_elem_of_lookup_2]).
  destruct (lookup_lt_is_Some_2 (s_levels (q_bindings q)) (N.to_nat (l_variable l))) as [lv ->].
  { rewrite (cr_levels _ _ _ _ _ Hcore). lia. }
  done.
Qed.

(** The clone re-rooted at a top frontier [d]; its other fields are those of [q]. *)
Lemma reroot_fields q ds d rest st0 : q_depths q = ds ++ d :: rest → q_depth q = length ds → q_stack q = st0 → length st0 = length ds →
  q_depths (reroot q) = [d] ∧ q_stack (reroot q) = [].
Proof.
  intros Hds Hd Hst Hl. unfold reroot, clone. simpl. rewrite Hds, Hd, Hst. split.
  - replace (ds ++ d :: rest) with ((ds ++ [d]) ++ rest) by by rewrite <- app_assoc.
    rewrite take_app_length' by (rewrite length_app; simpl; lia). by rewrite drop_app_length.
  - apply drop_ge. lia.
Qed.

Lemma core_reroot q B ds : core vars slots width q B → core vars slots width (with_depths (reroot q) ds) B.
Proof. intros [H1 H2 H3 H4 H5]. by split. Qed.

Lemma split_group_inv q roots m : inv q roots m → q_mode q = NextGroup →
  ∃ o, split_pending_group q = Some o ∧
    match o with
    | None => True
    | Some (q1, q2) => ∃ r1 r2 m1 m2, inv q1 r1 m1 ∧ inv q2 r2 m2 ∧ roots ≡ₚ r1 ++ r2
    end.
Proof.
  intros Hi Hmode. destruct Hi as [Hdone|B0 ds d rest B r0 r1 m0 m1 st0 st1 Hcore Hds Hd Hst Hb Ht]; [congruence|].
  unfold EngineSpec.top in Ht. rewrite Hmode in Ht. destruct Ht as (-> & HB & Hu & [Hpl Hg Hwid Hrows ->] & ->).
  destruct (below_facts _ _ _ _ _ _ _ _ _ _ Hb) as (Hls & _ & HwB & _). rewrite app_nil_r in Hst.
  unfold split_pending_group. rewrite Hd.
  replace (q_depths q !! length ds) with (Some d) by (by rewrite Hds, lookup_depths). cbn [mbind option_bind].
  destruct (Nat.leb_spec (d_group_limit d) (d_group d)) as [?|Hlt]; [by exists None|].
  assert (∃ b, (if S (d_group d) <? d_group_limit d then Some true else has_ancestor_continuation q) = Some b) as (continues & ->).
  { destruct (S (d_group d) <? d_group_limit d); [by eexists|]. eapply ancestors_spec; eauto. by rewrite app_nil_r. }
  cbn [mbind option_bind]. destruct continues; cbn [negb]; [|by exists None].
  rewrite (set_depth_mid q ds d rest) by done. cbn [mbind option_bind].
  destruct (reroot_fields q ds d rest st0 Hds Hd Hst Hls) as [Rd Rs]. rewrite Rd.
  cbn [lookup list_lookup mbind option_bind].
  replace (set_depth (reroot q) 0 (with_group_limit d (S (d_group d)))) with
    (Some (with_depths (reroot q) [with_group_limit d (S (d_group d))])) by (unfold set_depth; by rewrite Rd).
  cbn [mbind option_bind]. eexists. split; [done|]. simpl.
  rewrite (group_rows_split _ _ _ _ _ (S (d_group d)) _ Hpl) in * by lia.
  unfold depth_rows in Hrows. apply Forall_app in Hrows as [Hrs Hlater].
  unfold roots_of. rewrite fmap_app. set (first := _ <$> group_rows _ _ (d_group d) _). set (later := _ <$> _).
  exists (r0 ++ later), ([] ++ first), (m0 ++ [d_group_limit d - S (d_group d)]), ([] ++ [S (d_group d) - d_group d]). split_and!.
  - eapply (inv_run _ _ _ _ B0 ds (with_group d (S (d_group d))) rest B r0 later m0 _ st0 []);
      [destruct Hcore; by split|done|done|by rewrite app_nil_r|done|].
    unfold EngineSpec.top. simpl. rewrite Hmode. split_and!; try done. split; simpl; try done. lia.
  - eapply (inv_run _ _ _ _ B [] (with_group_limit d (S (d_group d))) [] B [] first [] _ [] []);
      [by apply core_reroot|done|done|exact Rs|by constructor|].
    unfold EngineSpec.top. simpl. rewrite Hmode. split_and!; try done. split; simpl; try done. lia.
  - simpl. rewrite <- app_assoc. apply Permutation_app; [done|]. apply Permutation_app_comm.
Qed.

Lemma split_terminal_inv q roots m : inv q roots m → q_mode q = Emit →
  ∃ o, split_terminal_frontier q = Some o ∧
    match o with
    | None => True
    | Some (q1, q2) => ∃ r1 r2 m1 m2, inv q1 r1 m1 ∧ inv q2 r2 m2 ∧ roots ≡ₚ r1 ++ r2
    end.
Proof.
  intros Hi Hmode. destruct Hi as [Hdone|B0 ds d rest B r0 r1 m0 m1 st0 st1 Hcore Hds Hd Hst Hb Ht]; [congruence|].
  pose proof Ht as Htop. unfold EngineSpec.top in Ht. rewrite Hmode in Ht. destruct Ht as (-> & HB & Hu & _).
  destruct (below_facts _ _ _ _ _ _ _ _ _ _ Hb) as (Hls & _ & HwB & _). rewrite app_nil_r in Hst.
  unfold split_terminal_frontier. rewrite Hd.
  replace (q_depths q !! length ds) with (Some d) by (by rewrite Hds, lookup_depths). cbn [mbind option_bind].
  destruct (Nat.eqb_spec (length ds) 0) as [E0|E0]; [by exists None|]. cbn [orb].
  destruct (d_rows d <=? d_emit d); [by exists None|].
  destruct (ancestors_spec q B B0 ds d rest st0 [] r0 m0) as [continues ->]; try done; [by rewrite app_nil_r|].
  cbn [mbind option_bind]. destruct continues; cbn [negb]; [|by exists None]. eexists. split; [done|].
  destruct (retire_inv c slots width Hwidth Hslots q B0 ds d rest B r0 m0 0 st0) as (m' & Hi & _); try done.
  unfold retire in Hi. rewrite Hd, (proj2 (Nat.eqb_neq _ _) E0) in Hi.
  exists r0, ([] ++ r1), m', ([] ++ m1). split_and!; [done| |done].
  destruct (reroot_fields q ds d rest st0 Hds Hd Hst Hls) as [Rd Rs].
  eapply (inv_run _ _ _ _ B [] d [] B [] r1 [] m1 [] []); [|exact Rd|done|exact Rs|by constructor|exact Htop].
  by apply (core_reroot q B (q_depths (reroot q))).
Qed.

(** Splitting ends, with the pending roots shared out between the two queries. *)
Lemma split_inv q roots m : inv q roots m →
  ∃ n q1 o r1 r2, (∀ fuel, n <= fuel → split c sole_buffer sole_matrices fuel q = Some (q1, o)) ∧
    (∃ m1, inv q1 r1 m1) ∧ match o with Some q2 => ∃ m2, inv q2 r2 m2 | None => r2 = [] end ∧ refine roots (r1 ++ r2).
Proof.
  intros Hi. pose proof (lexlt_acc 258 m (inv_small _ _ _ Hi)) as Hacc. revert q roots Hi.
  induction Hacc as [m _ IH]. intros q roots Hi. unfold split in *.
  assert (∀ q1 o, split_step c sole_buffer sole_matrices q = Some (inr (q1, o)) → ∀ fuel, 1 <= fuel →
    loopM (split_step c sole_buffer sole_matrices) fuel q = Some (q1, o)) as Hstop.
  { intros q1 o Hs [|fuel] Hle; [lia|]. simpl. by rewrite Hs. }
  assert (∀ q' roots' m', split_step c sole_buffer sole_matrices q = Some (inl q') → inv q' roots' m' → refine roots roots' → lexlt m' m →
    ∃ n q1 o r1 r2, (∀ fuel, n <= fuel → loopM (split_step c sole_buffer sole_matrices) fuel q = Some (q1, o)) ∧
      (∃ m1, inv q1 r1 m1) ∧ match o with Some q2 => ∃ m2, inv q2 r2 m2 | None => r2 = [] end ∧ refine roots (r1 ++ r2)) as Hstep.
  { intros q' roots' m' Hs Hi' Hr Hm. destruct (IH m') with (q := q') (roots := roots') as (n & q1 & o & r1 & r2 & Hf & H1 & H2 & Href);
      [split; [by eapply inv_small|done]|done|]. exists (S n), q1, o, r1, r2. split_and!; [|done|done|by eapply refine_trans].
    intros [|fuel] Hle; [lia|]. simpl. rewrite Hs. cbn [mbind option_bind]. apply Hf. lia. }
  destruct (q_mode q) eqn:Em.
  - destruct (plan_inv c slots width Hwidth Hslots Hvslots q roots m Hi Em) as (q' & roots' & m' & Hp & Hi' & Hr & Hm).
    apply (Hstep q' roots' m'); [|done|by apply refine_perm|done]. unfold split_step. by rewrite Em, Hp.
  - destruct (split_group_inv q roots m Hi Em) as ([[q1 q2]|] & Ho & Hs).
    + destruct Hs as (r1 & r2 & m1 & m2 & H1 & H2 & Hr). exists 1, q1, (Some q2), r1, r2. split_and!; [|by eexists|by eexists|by apply refine_perm].
      apply Hstop. unfold split_step. by rewrite Em, Ho.
    + destruct (group_inv c sat rel sole_buffer slots width Hwidth Hslots Hvslots Hrel Hsmall q roots m Hi Em) as (q' & roots' & m' & Hp & Hi' & Hr & Hm).
      apply (Hstep q' roots' m'); [|done..]. unfold split_step. rewrite Em, Ho. cbn [mbind option_bind]. by rewrite Hp.
  - destruct (chunk_inv c sat rel sole_matrices slots width Hwidth Hslots Hvslots Hrel q roots m Hi Em) as (q' & roots' & m' & Hp & Hi' & Hr & Hm).
    apply (Hstep q' roots' m'); [|done|by apply refine_perm|done]. unfold split_step. by rewrite Em, Hp.
  - destruct (split_terminal_inv q roots m Hi Em) as ([[q1 q2]|] & Ho & Hs).
    + destruct Hs as (r1 & r2 & m1 & m2 & H1 & H2 & Hr). exists 1, q1, (Some q2), r1, r2. split_and!; [|by eexists|by eexists|by apply refine_perm].
      apply Hstop. unfold split_step. by rewrite Em, Ho.
    + exists 1, q, None, roots, []. split_and!; [|by eexists|done|rewrite app_nil_r; by apply refine_perm].
      apply Hstop. unfold split_step. by rewrite Em, Ho.
  - exists 1, q, None, roots, []. split_and!; [|by eexists|done|rewrite app_nil_r; by apply refine_perm].
    apply Hstop. unfold split_step. by rewrite Em.
Qed.
End search.

(** ** Queries *)

(** What a query asks of its constraint: an estimate for every variable whatever
    is bound, and levels that fit their 32-bit indexes at this frontier width. *)
Record query_ready (c : Constraint) (rel : VariableSet → VariableId → bool) (width : N) : Prop := {
  qr_width : (0 < width < 2 ^ 32)%N;
  qr_relevant : ∀ s v, (v < 128)%N → is_set (variables c) v = true → is_set s v = false → rel s v = true;
  qr_small : ∀ v f b', (v < 128)%N → is_set (variables c) v = true → is_set (f_bound f) v = false → frontier_ok f →
    (N.of_nat (f_len f) <= width)%N → propose c v f pb_new = Some b' → (N.of_nat (pb_len b') < 2 ^ 32)%N;
}.

(** A state of the search of [c], and the roots it has still to expand: they
    satisfy the constraint so far and no two have a solution in common. *)
Definition pending (c : Constraint) (sat : asg → Prop) (width : N) (q : Query) (roots : list asg) : Prop :=
  (∃ slots m, slots <= 128 ∧ (∀ v, (v < 128)%N → is_set (variables c) v = true → N.to_nat v < slots) ∧
    inv (variables c) slots width q roots m) ∧ Forall sat roots ∧ apart roots.

(** The rows [bs] bind exactly the variables of the query, are solutions below
    [roots], all of them, and pairwise different. *)
Record answers (vars : VariableSet) (sat : asg → Prop) (roots : list asg) (bs : list Binding) : Prop := {
  an_rows : ∀ b, b ∈ bs → binding_ok b ∧ b_bound b = vars ∧ sat (bval b);
  an_below : ∀ b, b ∈ bs → ∃ p, p ∈ roots ∧ asg_sub p (bval b);
  an_all : ∀ a p, full vars sat a → p ∈ roots → asg_sub p a → ∃ b, b ∈ bs ∧ ∀ v, (v < 128)%N → is_set vars v = true → bval b v = a v;
  an_distinct : NoDup (bval <$> bs);
}.

(** A solution: values for the variables and nothing else. *)
Definition solution (vars : VariableSet) (sat : asg → Prop) (a : asg) : Prop :=
  asg_ok a ∧ (∀ v, is_Some (a v) ↔ (v < 128)%N ∧ is_set vars v = true) ∧ sat a.

Section queries.
Context (c : Constraint) (sat : asg → Prop) (rel : VariableSet → VariableId → bool) `{Hc : !ConstraintOk c sat rel}.
Context (width : N) (Hready : query_ready c rel width).
Abbreviation vars := (variables c).

Lemma new_slots : let slots := match find_last_set vars with Some v => S (N.to_nat v) | None => 0 end in
  slots <= 128 ∧ ∀ v, (v < 128)%N → is_set vars v = true → N.to_nat v < slots.
Proof.
  pose proof (find_last_set_spec vars co_variables) as Hl. destruct (find_last_set vars) as [w|].
  - destruct Hl as [Hw Hmax]. split; [apply elem_of_elements in Hw as [? _]; lia|]. intros v Hv Hs.
    rewrite is_set_spec in Hs by done. apply bool_decide_eq_true, Hmax in Hs. lia.
  - split; [lia|]. intros v Hv Hs. rewrite is_set_spec, Hl in Hs by done. by apply bool_decide_eq_true in Hs.
Qed.

Lemma empty_row L slots block r : row_fits slots block r → row_ok new_empty L slots block r ∧ row_asg new_empty L slots block r = λ _, None.
Proof.
  intros Hf. assert (∀ v, bget (row_binding new_empty L slots block r) v = Some None) as Hg.
  { done. }
  split.
  - split; [done|]. intros v Hv. exists None. rewrite Hg. unfold row_binding, b_bound. rewrite is_set_new_empty.
    split_and!; [done|by split; [intros [? ?]|]|done].
  - apply FunctionalExtensionality.functional_extensionality. intros v. unfold row_asg, bval. rewrite Hg. by destruct (v <? 128)%N.
Qed.

(** A fresh query is a state of the search, with the empty root unless the
    constraint is already violated. *)
Lemma new_pending : ∃ q0 q roots, new c = Some q0 ∧ with_frontier_width q0 width = Some q ∧ pending c sat width q roots ∧
  ∀ a, full vars sat a → ∃ p, p ∈ roots ∧ asg_sub p a.
Proof.
  destruct new_slots as [Hslots Hvslots]. unfold new. set (slots := match find_last_set vars with Some _ => _ | None => _ end) in *.
  destruct store_new_ok as [Hst Hnone]. pose proof (so_binding _ Hst) as Hbok.
  assert (∃ estimates, mapM (λ v, if is_set vars v then o ← estimate c v (store_view store_new); o else Some usize_max)
    (N.of_nat <$> seq 0 slots) = Some estimates ∧ length estimates = slots) as (estimates & -> & Hlen).
  { assert (is_Some (mapM (λ v, if is_set vars v then o ← estimate c v (store_view store_new); o else Some usize_max)
      (N.of_nat <$> seq 0 slots))) as [l Hl].
    { apply mapM_is_Some_2, Forall_forall. intros v (k & -> & Hk%elem_of_seq)%list_elem_of_fmap.
      unfold compose. destruct (is_set vars (N.of_nat k)) eqn:Ev; [|by eexists].
      destruct (co_estimate (N.of_nat k) (store_view store_new)) as (o & -> & Ho); [lia|done|simpl; apply is_set_new_empty|].
      cbn [mbind option_bind]. apply Ho, (qr_relevant _ _ _ Hready); [lia|done|simpl; apply is_set_new_empty]. }
    exists l. split; [done|]. apply length_mapM in Hl. by rewrite length_fmap, length_seq in Hl. }
  cbn [mbind option_bind]. destruct (co_satisfied (store_view store_new) Hbok) as (ok & -> & Hok1 & Hok2). cbn [mbind option_bind].
  assert (bval (store_view store_new) = λ _, None) as Heq by by apply FunctionalExtensionality.functional_extensionality.
  assert (ok = true ↔ sat (λ _, None)) as Hok by (rewrite <- Heq; split; [apply Hok2; by rewrite Heq|apply Hok1]).
  eexists _, _, (if ok then [λ _, None] else []). split; [done|].
  unfold with_frontier_width, massert. rewrite (proj2 (N.ltb_lt _ _)) by apply Hready. cbn [mbind option_bind]. split; [done|].
  split; [split; [|split]|].
  - destruct ok.
    + exists slots, ([] ++ [2]). split; [done|]. split; [done|].
      assert (row_fits slots (replicate slots 0%N) 0) as Hf by (unfold row_fits; rewrite length_replicate; lia).
      destruct (empty_row (s_levels store_new) slots _ 0 Hf) as [Hrow Hroot].
      eapply (inv_run _ _ _ _ new_empty [] _ [] new_empty [] [λ _, None] [] [2] [] []);
        [|simpl; done|done|done|by constructor|].
      * by split.
      * unfold top. simpl. split_and!; try done; try lia.
        -- split; [apply co_variables|]. intros v Hv. simpl. by destruct (is_set vars v).
        -- pose proof (qr_width _ _ _ Hready). lia.
        -- constructor; [|done]. split; [done|]. unfold row_fits. simpl. lia.
        -- unfold roots_of. simpl. f_equal. symmetry. exact Hroot.
    + exists slots, []. split; [done|]. split; [done|]. by apply inv_done.
  - destruct ok; [|done]. constructor; [by apply Hok|done].
  - destruct ok; [|done]. intros [|i] [|j] p p' Hij Hi Hj; done.
  - intros a (Haok & _ & Hsat). assert (sat (λ _, None)) as H0 by by eapply co_mono.
    rewrite (proj2 Hok H0). exists (λ _, None). split; [by left|done].
Qed.

Context (sole_buffer sole_matrices : Query → bool).

Lemma apart_nodup l : apart l → NoDup l.
Proof.
  intros Ha. apply NoDup_alt. intros i j p Hi Hj. destruct (decide (i = j)) as [|Hne]; [done|].
  destruct (Ha i j p p Hne Hi Hj) as (v & x & y & ? & ? & ?). congruence.
Qed.

Lemma pending_answers q roots : pending c sat width q roots →
  ∃ bs, emits c sole_buffer sole_matrices q bs ∧ answers vars sat roots bs.
Proof.
  intros [(slots & m & Hs & Hv & Hi) [Hsat Hap]]. destruct Hready as [Hw Hrel Hsm].
  destruct (search_from c sat rel sole_buffer sole_matrices slots width Hw Hs Hv Hrel Hsm q roots m Hi) as (bs & Hem & Hall & [Hup Hdown Hst Hdis]).
  specialize (Hst Hsat). specialize (Hdis Hap). exists bs. split; [done|]. rewrite Forall_forall in Hall. rewrite Forall_fmap, Forall_forall in Hst. split.
  - intros b Hb. destruct (Hall b Hb) as [? ?]. split_and!; [done..|]. by apply Hst.
  - intros b Hb. apply Hup, list_elem_of_fmap. by exists b.
  - intros a p Hf Hp Hsub. destruct (Hdown a p Hf Hp Hsub) as (p' & (b & -> & Hb)%list_elem_of_fmap & Hsb). exists b. split; [done|].
    intros v Hvv Hset. destruct (Hall b Hb) as [Hbok Hbd]. destruct (bval b v) as [x|] eqn:Ex; [symmetry; by apply Hsb|].
    exfalso. rewrite <- Hbd in Hset. apply bval_bound in Hset; [|done..]. rewrite Ex in Hset. by destruct Hset.
  - by apply apart_nodup.
Qed.

(** A row of an answer is a solution. *)
Lemma answer_full roots bs b : answers vars sat roots bs → b ∈ bs → full vars sat (bval b).
Proof.
  intros Han Hb. destruct (an_rows _ _ _ _ Han b Hb) as (Hbok & Hbd & Hs). split; [by apply bval_ok|]. split; [|done].
  intros v Hv Hset. apply bval_bound; [done..|]. by rewrite Hbd.
Qed.

Lemma bval_dom b v : binding_ok b → is_Some (bval b v) ↔ (v < 128)%N ∧ is_set (b_bound b) v = true.
Proof.
  intros Hb. destruct (N.ltb_spec v 128) as [Hv|Hv]; [rewrite bval_bound by done; naive_solver|].
  split; [|by intros [??]; lia]. unfold bval. rewrite (proj2 (N.ltb_ge _ _)) by done. by intros [??].
Qed.

(** The rows of a whole answer are the solutions. *)
Lemma answers_solutions roots bs : answers vars sat roots bs → (∀ a, full vars sat a → ∃ p, p ∈ roots ∧ asg_sub p a) →
  ∀ a, a ∈ bval <$> bs ↔ solution vars sat a.
Proof.
  intros Han Hall a. split.
  - intros (b & -> & Hb)%list_elem_of_fmap. pose proof (an_rows _ _ _ _ Han b Hb) as (Hbok & Hbd & Hs).
    split_and!; [by apply bval_ok| |done]. intros v. by rewrite bval_dom, Hbd.
  - intros (Hok & Hdom & Hs). assert (full vars sat a) as Hf by (split_and!; [done| |done]; intros v Hv Hset; by apply Hdom).
    destruct (Hall a Hf) as (p & Hp & Hsub). destruct (an_all _ _ _ _ Han a p Hf Hp Hsub) as (b & Hb & Hval).
    apply list_elem_of_fmap. exists b. split; [|done]. destruct (an_rows _ _ _ _ Han b Hb) as (Hbok & Hbd & _).
    apply FunctionalExtensionality.functional_extensionality. intros v. symmetry.
    destruct (bval b v) as [x|] eqn:Ex.
    + assert (is_Some (bval b v)) as (Hv & Hset)%bval_dom by (by rewrite ?Ex); [|done]. rewrite Hbd in Hset. by rewrite <- Hval.
    + destruct (a v) as [x|] eqn:Ea; [|done]. assert (is_Some (a v)) as [Hv Hset]%Hdom by by rewrite Ea.
      rewrite <- Ea, <- Ex. by apply Hval.
Qed.

(** Two answers for the same solutions have the same bag of rows. *)
Lemma answers_perm roots roots' bs bs' : answers vars sat roots bs → answers vars sat roots' bs' →
  (∀ a, full vars sat a → (∃ p, p ∈ roots ∧ asg_sub p a) ↔ (∃ p, p ∈ roots' ∧ asg_sub p a)) → bval <$> bs ≡ₚ bval <$> bs'.
Proof.
  intros Ha Ha' Heq. apply NoDup_Permutation; [apply Ha|apply Ha'|].
  assert (∀ r r' l l', answers vars sat r l → answers vars sat r' l' →
    (∀ a, full vars sat a → (∃ p, p ∈ r ∧ asg_sub p a) → (∃ p, p ∈ r' ∧ asg_sub p a)) → ∀ x, x ∈ bval <$> l → x ∈ bval <$> l') as Hsub.
  { intros r r' l l' Hl Hl' Hrr x (b & -> & Hb)%list_elem_of_fmap. pose proof (answer_full _ _ _ Hl Hb) as Hf.
    destruct (Hrr _ Hf (an_below _ _ _ _ Hl b Hb)) as (p & Hp & Hpb).
    destruct (an_all _ _ _ _ Hl' _ p Hf Hp Hpb) as (b' & Hb' & Hval). apply list_elem_of_fmap. exists b'. split; [|done].
    destruct (an_rows _ _ _ _ Hl b Hb) as (Hbok & Hbd & _). destruct (an_rows _ _ _ _ Hl' b' Hb') as (Hbok' & Hbd' & _).
    apply FunctionalExtensionality.functional_extensionality. intros v. destruct (N.ltb_spec v 128) as [Hv|Hv].
    - destruct (is_set vars v) eqn:Ev; [by rewrite Hval|]. rewrite !bval_unbound; rewrite ?Hbd, ?Hbd'; done.
    - unfold bval. by rewrite (proj2 (N.ltb_ge _ _)). }
  intros x. split; eapply Hsub; try done; intros a Hf; by apply Heq.
Qed.

Lemma answers_app r1 r2 bs1 bs2 : answers vars sat r1 bs1 → answers vars sat r2 bs2 →
  (∀ p p', p ∈ r1 → p' ∈ r2 → conflict p p') → answers vars sat (r1 ++ r2) (bs1 ++ bs2).
Proof.
  intros [R1 B1 A1 D1] [R2 B2 A2 D2] Hx. split.
  - intros b [?|?]%elem_of_app; auto.
  - intros b [Hb|Hb]%elem_of_app; [destruct (B1 b Hb) as (p & ? & ?)|destruct (B2 b Hb) as (p & ? & ?)]; exists p; (split; [set_solver|done]).
  - intros a p Hf [Hp|Hp]%elem_of_app Hs; [destruct (A1 a p Hf Hp Hs) as (b & ? & ?)|destruct (A2 a p Hf Hp Hs) as (b & ? & ?)];
      exists b; (split; [set_solver|done]).
  - rewrite fmap_app. apply NoDup_app. split_and!; [done| |done]. intros x (b & -> & Hb)%list_elem_of_fmap (b' & Heq & Hb')%list_elem_of_fmap.
    destruct (B1 b Hb) as (p & Hp & Hs). destruct (B2 b' Hb') as (p' & Hp' & Hs'). rewrite <- Heq in Hs'.
    destruct (conflict_sub _ _ _ _ Hs Hs' (Hx p p' Hp Hp')) as (v & y & z & ? & ? & ?). congruence.
Qed.

Lemma into_par_iter_pending q roots : pending c sat width q roots → pending c sat width (into_par_iter q) roots.
Proof.
  intros [(slots & m & Hs & Hv & Hi) Hrest]. split; [|done]. exists slots, m. split_and!; [done..|].
  destruct Hi as [Hdone|B0 ds d rest B r0 r1 m0 m1 st0 st1 [H1 H2 H3 H4 H5] Hds Hd Hst Hb Ht]; [by apply inv_done|].
  eapply (inv_run _ _ _ _ B0 ds d rest B r0 r1 m0 m1 st0 st1); [by split|done|done|done|exact Hb|exact Ht].
Qed.

Lemma split_pending q roots : pending c sat width q roots →
  ∃ n q1 o r1 r2, (∀ fuel, n <= fuel → split c sole_buffer sole_matrices fuel q = Some (q1, o)) ∧
    pending c sat width q1 r1 ∧ match o with Some q2 => pending c sat width q2 r2 | None => r2 = [] end ∧ refine vars sat roots (r1 ++ r2).
Proof.
  intros [(slots & m & Hs & Hv & Hi) [Hsat Hap]]. destruct Hready as [Hw Hrel Hsm].
  destruct (split_inv c sat rel sole_buffer sole_matrices slots width Hw Hs Hv Hrel Hsm q roots m Hi)
    as (n & q1 & o & r1 & r2 & Hf & (m1 & H1) & H2 & Href). exists n, q1, o, r1, r2.
  pose proof (rf_sat _ _ _ _ Href Hsat) as [Hs1 Hs2]%Forall_app. pose proof (rf_apart _ _ _ _ Href Hap) as (Ha1 & Ha2 & _)%apart_app.
  split_and!; [done| | |done].
  - split; [by exists slots, m1|done].
  - destruct o as [q2|]; [|done]. destruct H2 as [m2 H2]. split; [by exists slots, m2|done].
Qed.
End queries.

(** C3. A query over a constraint that obeys the protocol and has an estimate for
    every variable terminates: whatever the frontier width, the sharing of
    buffers and the projection, iterating it hands out the projection of every
    solution exactly once, and then nothing. *)
Theorem search_complete c sat rel width sole_buffer sole_matrices : ConstraintOk c sat rel → query_ready c rel width →
  ∃ q0 q bs, new c = Some q0 ∧ with_frontier_width q0 width = Some q ∧
    (∀ R (post : Binding → option R), ∃ n, ∀ fuel, n <= fuel →
      yields no_hint (next c sole_buffer sole_matrices post fuel) q (omap post bs)) ∧
    NoDup (bval <$> bs) ∧
    ∀ a, a ∈ bval <$> bs ↔
      asg_ok a ∧ (∀ v, is_Some (a v) ↔ (v < 128)%N ∧ is_set (variables c) v = true) ∧ sat a.
Proof.
  intros Hc Hready. destruct (new_pending c sat rel width Hready) as (q0 & q & roots & Hn & Hw & Hp & Hall).
  destruct (pending_answers c sat rel width Hready sole_buffer sole_matrices q roots Hp) as (bs & Hem & Han).
  exists q0, q, bs. split_and!; [done|done|intros; by apply emits_yields|apply Han|].
  by eapply answers_solutions.
Qed.

(** The bag of rows a query hands out depends neither on the frontier width
    nor on which buffers are shared: batching is an execution strategy. *)
Theorem search_width c sat rel width width' sb sm sb' sm' q0 q q' : ConstraintOk c sat rel →
  query_ready c rel width → query_ready c rel width' →
  new c = Some q0 → with_frontier_width q0 width = Some q → with_frontier_width q0 width' = Some q' →
  ∃ bs bs', emits c sb sm q bs ∧ emits c sb' sm' q' bs' ∧ bval <$> bs ≡ₚ bval <$> bs'.
Proof.
  intros Hc H1 H2 Hn Hw Hw'.
  destruct (new_pending c sat rel width H1) as (q1 & q2 & roots & Hn1 & Hw1 & Hp1 & Hall1).
  destruct (new_pending c sat rel width' H2) as (q1' & q2' & roots' & Hn2 & Hw2 & Hp2 & Hall2). simplify_eq.
  destruct (pending_answers c sat rel width H1 sb sm _ _ Hp1) as (bs & Hem & Han).
  destruct (pending_answers c sat rel width' H2 sb' sm' _ _ Hp2) as (bs' & Hem' & Han').
  exists bs, bs'. split_and!; [done|done|]. refine (answers_perm _ _ _ _ _ _ Han Han' _).
  intros a Hf. split; intros _; [by apply Hall2|by apply Hall1].
Qed.

(** An error of the predicate of [try_next_where] leaves exactly its row
    pending: a call skips the rows that are rejected or projected away, and stops
    at the first error or result; continuing without the predicate hands out the
    rows from there on, the row of the error included. *)
Theorem try_next_where_resumes c sat rel width sb sm q roots : ConstraintOk c sat rel → query_ready c rel width →
  pending c sat width q roots →
  ∃ bs, answers (variables c) sat roots bs ∧
    ∀ E R (post : Binding → option R) (predicate : Binding → E + bool), ∃ n q',
      (∀ fuel, n <= fuel → try_next_where c sb sm post predicate fuel q = Some ((scan post predicate bs).1, q')) ∧
      ∃ n', ∀ fuel, n' <= fuel → yields no_hint (next c sb sm post fuel) q' (omap post (scan post predicate bs).2).
Proof.
  intros Hc Hready Hp. destruct (pending_answers c sat rel width Hready sb sm q roots Hp) as (bs & Hem & Han).
  exists bs. split; [done|]. intros E R post predicate. destruct (emits_scan c sb sm post predicate q bs Hem) as (n & q' & Hem' & Hf).
  exists n, q'. split; [done|]. by apply emits_yields.
Qed.

(** C30. Parallel execution loses and repeats nothing: turning a query parallel
    keeps its rows, and splitting it ends, with the rows of the query and of its
    sibling together those of the unsplit query; both can be split again. *)
Theorem split_bag c sat rel width sb sm q roots : ConstraintOk c sat rel → query_ready c rel width →
  pending c sat width q roots →
  ∃ bs, emits c sb sm q bs ∧
    (pending c sat width (into_par_iter q) roots ∧ ∃ bs', emits c sb sm (into_par_iter q) bs' ∧ bval <$> bs ≡ₚ bval <$> bs') ∧
    ∃ n q1 o bs1 bs2, (∀ fuel, n <= fuel → split c sb sm fuel q = Some (q1, o)) ∧
    emits c sb sm q1 bs1 ∧ (∃ r1, pending c sat width q1 r1) ∧
    match o with Some q2 => emits c sb sm q2 bs2 ∧ ∃ r2, pending c sat width q2 r2 | None => bs2 = [] end ∧
    bval <$> bs ≡ₚ bval <$> bs1 ++ bs2.
Proof.
  intros Hc Hready Hp. destruct (pending_answers c sat rel width Hready sb sm q roots Hp) as (bs & Hem & Han).
  pose proof (into_par_iter_pending c sat width q roots Hp) as Hpp.
  destruct (pending_answers c sat rel width Hready sb sm _ roots Hpp) as (bs' & Hem' & Han').
  exists bs. split; [done|]. split.
  { split; [done|]. exists bs'. split; [done|]. by refine (answers_perm _ _ _ _ _ _ Han Han' _). }
  destruct (split_pending c sat rel width Hready sb sm q roots Hp) as (n & q1 & o & r1 & r2 & Hf & Hp1 & Hp2 & Href).
  destruct (pending_answers c sat rel width Hready sb sm q1 r1 Hp1) as (bs1 & Hem1 & Han1).
  assert (∃ bs2, match o with Some q2 => emits c sb sm q2 bs2 ∧ ∃ r2, pending c sat width q2 r2 | None => bs2 = [] end ∧
    answers (variables c) sat r2 bs2) as (bs2 & Hem2 & Han2).
  { destruct o as [q2|].
    - destruct (pending_answers c sat rel width Hready sb sm q2 r2 Hp2) as (bs2 & ? & ?). exists bs2. by eauto.
    - subst r2. exists []. split; [done|]. split; try (intros; set_solver). constructor. }
  exists n, q1, o, bs1, bs2. split_and!; [done..|by eexists|done|].
  refine (answers_perm _ _ _ (r1 ++ r2) _ _ Han _ _).
  - destruct Hp as (_ & _ & Hap). apply (rf_apart _ _ _ _ Href), apart_app in Hap as (_ & _ & Hx).
    by apply (answers_app c sat rel width Hready).
  - intros a Hfull. split; intros (p & Hin & Hs); [by eapply rf_down|].
    destruct (rf_up _ _ _ _ Href p Hin) as (p' & ? & ?). exists p'. split; [done|]. by eapply asg_sub_trans.
Qed.
