(* ===== verification/QueryJoin.v ===== *)
(** * QueryJoin: conjunctive queries over trible sets

    The engine of [Engine] over an [Intersection] of triple patterns: what
    [find!] with [and!] and [pattern!] runs.  The levels of the search stay
    within their 32-bit indexes because a proposer hands out at most a value per
    row of the frontier and trible of its set. *)

From S2P Require Import Prelude Lex VariableSet OwnerCover ByteTable KeySchema PatchHash Branch Head Algebra.
From S2P Require Import Machine Trible TribleSet Liveness Query Constraints Intersection.
From S2P Require Import TribleIndex TriblePattern TriblePatternSpec.
From S2P Require Import Engine EngineRows EnginePlan EngineSpec EngineSteps EngineSearch.

Open Scope nat_scope.

(** ** Bounds of proposals *)

(** [c] appends at most [m] candidates per row. *)
Class ProposeSmall (c : Constraint) (m : nat) : Prop :=
  proposes_small v f b b' : (v < 128)%N → is_set (Query.variables c) v = true →
    is_set (f_bound f) v = false → frontier_ok f → pb_ok b → Query.propose c v f b = Some b' → pb_len b' <= pb_len b + f_len f * m.

#[global] Instance pattern_small sip rand_hash parallel threads c : ts_ok sip rand_hash (in_set c) → pattern_ok c →
  ProposeSmall (constraint sip rand_hash parallel threads c) (size (rows sip (in_set c))).
Proof.
  intros Hs Hc v f b b' Hv Hvars Hu Hf Hb Hp. simpl in Hvars. rewrite pattern_variables in Hvars by done.
  by eapply propose_small.
Qed.

Lemma remap_len b base map b' : pb_remap_region b base map = Some b' → pb_len b' = pb_len b.
Proof. unfold pb_remap_region, massert. intros H. case_match; [|done]. by destruct (mapM _ _); simplify_eq/=. Qed.

Section intersection.
Context (sort_by_estimate : list (N * nat) → list (N * nat)) (Hsort : ∀ l, sort_by_estimate l ≡ₚ l).
Context (cs : list Constraint) (sat : nat → asg → Prop) (rel : nat → VariableSet → VariableId → bool).
Context (filters : nat → bool) (children : ∀ i c, cs !! i = Some c → FilterOk c (sat i) (rel i)).
Context (proposers : ∀ i c, cs !! i = Some c → filters i = false → ConstraintOk c (sat i) (rel i)).
Context (led : ∀ i c v b e, cs !! i = Some c → filters i = true → (v < 128)%N → binding_ok b → is_set (b_bound b) v = false →
  Query.estimate c v b = Some (Some e) → ∃ j d e', cs !! j = Some d ∧ filters j = false ∧ Query.estimate d v b = Some (Some e') ∧ (e' < e)%N).
Context (m : nat) (small : ∀ i c, cs !! i = Some c → filters i = false → ProposeSmall c m).
Abbreviation choice_ok := (choice_ok cs rel filters).
Abbreviation rows_of := Intersection.rows_of.

Lemma narrow_small v g L p b b' : (v < 128)%N → frontier_ok g → is_set (f_bound g) v = false → pb_ok b →
  choice_ok (f_bound g) v (Some p) → Intersection.narrow sort_by_estimate cs v g L p b = Some b' →
  pb_len b' <= pb_len b + f_len g * m.
Proof.
  intros Hv Hg Hu Hb [[Hrel _]%list_elem_of_filter Hfp] Hn. unfold Intersection.narrow in Hn.
  destruct (cs !! p) as [c|] eqn:Hc; cbn [mbind option_bind] in Hn; [|done].
  destruct (Query.propose c v g b) as [b1|] eqn:Hp; cbn [mbind option_bind] in Hn; [|done].
  destruct (pb_region b1 (pb_len b)) as [region|]; cbn [mbind option_bind] in Hn; [|done].
  destruct (Intersection.confirm_others _ _ _ _ _ _ region) as [region'|]; cbn [mbind option_bind] in Hn; [|done].
  injection Hn as <-. change (pb_len (put_region b1 _ _)) with (pb_len b1).
  eapply (small p c Hc Hfp); [done| |done..]. by apply (fl_relevant (FilterOk:=children p c Hc) (f_bound g)).
Qed.

Lemma split_small v f L choice p b b' : (v < 128)%N → frontier_ok f → is_set (f_bound f) v = false → pb_ok b →
  length choice = f_len f → Forall (choice_ok (f_bound f) v) choice →
  Intersection.split_step sort_by_estimate cs v f L choice b p = Some b' →
  pb_len b' <= pb_len b + length (rows_of choice p) * m.
Proof.
  intros Hv Hf Hu Hb Hch Hok. unfold Intersection.split_step. set (rows := rows_of choice p).
  assert (Forall (λ r, r < f_len f) rows) as Hrows.
  { apply Forall_forall. intros r Hr%elem_of_rows. rewrite <- Hch. by eapply lookup_lt_Some. }
  case_bool_decide as Hemp; [intros [= <-]; lia|].
  destruct (compose_spec f Hf rows Hrows) as (select & -> & Hsl & Hrow). cbn [mbind option_bind].
  destruct (sub_frontier_ok f Hf rows Hrows (NoDup_filter _ _ (NoDup_seq _ _)) select Hsl Hrow) as (Hsub & Hlen & _).
  destruct (Intersection.narrow _ _ _ _ _ _ _) as [b1|] eqn:Hn; cbn [mbind option_bind]; [|done].
  intros ->%remap_len. rewrite <- Hlen. eapply narrow_small; try done.
  destruct rows as [|r rows'] eqn:E; [done|]. assert (r ∈ rows_of choice p) as Hr%elem_of_rows by (fold rows; rewrite E; by left).
  rewrite Forall_forall in Hok. by apply (Hok (Some p)), list_elem_of_lookup_2 with r.
Qed.

(** The rows of the first [n] proposers: different rows. *)
Abbreviation rows_below choice n := (concat (rows_of choice <$> seq 0 n)).

Lemma rows_below_S choice n : rows_below choice (S n) = rows_below choice n ++ rows_of choice n.
Proof. rewrite seq_S, fmap_app, concat_app. simpl. by rewrite app_nil_r. Qed.

Lemma elem_of_rows_below choice n r : r ∈ rows_below choice n → ∃ p, choice !! r = Some (Some p) ∧ p < n.
Proof.
  intros Hr. apply list_elem_of_In, in_concat in Hr as (rs & Hrs & Hr). apply list_elem_of_In, list_elem_of_fmap in Hrs as (p & -> & Hp).
  apply list_elem_of_In, elem_of_rows in Hr. apply elem_of_seq in Hp. exists p. split; [done|lia].
Qed.

Lemma rows_below_length choice n : length (rows_below choice n) <= length choice.
Proof.
  transitivity (length (seq 0 (length choice))); [|by rewrite length_seq]. apply submseteq_length, NoDup_submseteq.
  - induction n as [|n IH]; [constructor|]. rewrite rows_below_S. apply NoDup_app. split_and!; [done| |apply NoDup_filter, NoDup_seq].
    intros r (p & Hp & Hlt)%elem_of_rows_below Hn%elem_of_rows. simplify_eq. lia.
  - intros r (p & Hr%lookup_lt_Some & _)%elem_of_rows_below. apply elem_of_seq. lia.
Qed.

Lemma split_steps_small v f L choice b n b' : (v < 128)%N → frontier_ok f → is_set (f_bound f) v = false → pb_ok b →
  L.*2 ≡ₚ filter (λ i, rel i (f_bound f) v = true) (seq 0 (length cs)) →
  length choice = f_len f → Forall (choice_ok (f_bound f) v) choice →
  foldM (Intersection.split_step sort_by_estimate cs v f L choice) b (seq 0 n) = Some b' →
  pb_len b' <= pb_len b + length (rows_below choice n) * m.
Proof.
  intros Hv Hf Hu Hb HL Hch Hok. revert b'. induction n as [|n IH]; intros b' Hfold; [injection Hfold as <-; lia|].
  destruct (split_steps sort_by_estimate Hsort cs sat rel filters children proposers led v f L choice b n) as (b1 & new & H1 & Hb1 & _); [done..|].
  rewrite seq_S, foldM_app, H1 in Hfold. cbn [mbind option_bind foldM Nat.add] in Hfold.
  destruct (Intersection.split_step _ _ _ _ _ _ b1 n) as [b2|] eqn:Hs; [|done]. injection Hfold as <-.
  specialize (IH b1 H1). apply split_small in Hs; [|done..]. rewrite rows_below_S, length_app. lia.
Qed.

#[global] Instance intersection_small : ProposeSmall (Intersection.constraint sort_by_estimate cs) m.
Proof.
  intros v f b b' Hv _ Hu Hf Hb. simpl. unfold Intersection.propose. destruct (Nat.eqb_spec (f_len f) 0); [intros [= <-]; lia|].
  destruct (scan_rows sort_by_estimate Hsort cs sat rel filters children proposers led v f (f_len f) Hv Hf Hu) as (rr & cf & choice & -> & _ & _ & Hcf & Hch & Hok); [done|].
  cbn [mbind option_bind]. unfold massert. destruct (forallb _ rr); cbn [mbind option_bind]; [|done].
  destruct (forallb _ choice); [intros [= <-]; lia|].
  destruct (choice !! 0) as [first|] eqn:Hfirst; cbn [mbind option_bind]; [|done]. destruct (forallb _ choice).
  - destruct first as [p|]; cbn [mbind option_bind]; [|done]. apply narrow_small; try done.
    rewrite Forall_forall in Hok. by apply Hok, list_elem_of_lookup_2 with 0.
  - intros Hs. apply split_steps_small in Hs; [|done..|by rewrite Hcf by lia|done|done].
    pose proof (rows_below_length choice (length cs)). nia.
Qed.
End intersection.

(** ** Conjunctions of patterns *)

Section join.
Context (sip : list N → N) (rand_hash : N → N) (sort_by_estimate : list (N * nat) → list (N * nat)).
Context (Hsort : ∀ l, sort_by_estimate l ≡ₚ l) (parallel : bool) (threads : nat) (width : N) (ps : list TribleSetConstraint).
Abbreviation K p := (rows sip (in_set p)).

(** [and!(pattern!(…), …)] *)
Definition join : Constraint := Intersection.constraint sort_by_estimate (constraint sip rand_hash parallel threads <$> ps).

(** Patterns over trible sets, small enough for levels of [width] rows. *)
Record join_ready : Prop := {
  jr_width : (0 < width < 2 ^ 32)%N;
  jr_sets : Forall (λ p, ts_ok sip rand_hash (in_set p)) ps;
  jr_patterns : Forall pattern_ok ps;
  jr_small : Forall (λ p, (width * N.of_nat (size (K p)) < 2 ^ 32)%N) ps;
}.

Abbreviation patterns := (constraint sip rand_hash parallel threads <$> ps).
Definition sat_at (i : nat) (a : asg) : Prop := match ps !! i with Some p => pattern_sat (K p) p a | None => True end.
Definition rel_at (i : nat) (s : VariableSet) (v : VariableId) : bool := match ps !! i with Some p => touches p v | None => false end.

Context (Hready : join_ready).

Lemma join_child i c : patterns !! i = Some c → ∃ p, ps !! i = Some p ∧ c = constraint sip rand_hash parallel threads p ∧
  ts_ok sip rand_hash (in_set p) ∧ pattern_ok p ∧ (width * N.of_nat (size (K p)) < 2 ^ 32)%N.
Proof.
  rewrite list_lookup_fmap. destruct (ps !! i) as [p|] eqn:Hi; [|done]. intros [= <-]. exists p.
  apply list_elem_of_lookup_2 in Hi as Hin. destruct Hready as [_ H1 H2 H3]. rewrite Forall_forall in H1, H2, H3. auto 7.
Qed.

Lemma join_children i c : patterns !! i = Some c → ConstraintOk c (sat_at i) (rel_at i).
Proof.
  intros (p & Hi & -> & Hs & Hok & _)%join_child. unfold sat_at, rel_at. rewrite Hi. by apply pattern_constraint_ok.
Qed.

#[local] Instance join_ok : ConstraintOk join (intersection_sat patterns sat_at) (intersection_relevant patterns rel_at).
Proof. by apply intersection_protocol; [|apply join_children]. Qed.

Lemma join_variables v : (v < 128)%N → is_set (Query.variables join) v = true ↔ ∃ p, p ∈ ps ∧ touches p v = true.
Proof.
  intros Hv. simpl. rewrite intersection_variables by done. split.
  - intros (i & c & (p & Hi & -> & Hs & Hok & _)%join_child & Ht). simpl in Ht. rewrite pattern_variables in Ht by done.
    exists p. split; [by eapply list_elem_of_lookup_2|done].
  - intros (p & [i Hi]%list_elem_of_lookup & Ht). exists i, (constraint sip rand_hash parallel threads p).
    assert (patterns !! i = Some (constraint sip rand_hash parallel threads p)) as Hc by by rewrite list_lookup_fmap, Hi.
    split; [done|]. apply join_child in Hc as (p' & Hi' & _ & Hs & Hok & _). simplify_eq. simpl. by rewrite pattern_variables.
Qed.

(** The greatest of the sets is small. *)
Lemma join_sizes : let m := foldr (λ p, Nat.max (size (K p))) 0 ps in
  (width * N.of_nat m < 2 ^ 32)%N ∧ ∀ p, p ∈ ps → size (K p) <= m.
Proof.
  split.
  - pose proof (jr_small Hready) as Hsm. clear -Hsm. induction Hsm as [|p ps' Hp _ IH]; simpl; [lia|].
    destruct (Nat.max_spec (size (K p)) (foldr (λ p, Nat.max (size (K p))) 0 ps')) as [[_ ->]|[_ ->]]; done.
  - intros p Hp. clear -Hp. induction ps as [|q ps' IH]; [by apply not_elem_of_nil in Hp|]. simpl.
    apply elem_of_cons in Hp as [->|Hp]; [lia|]. specialize (IH Hp). lia.
Qed.

Lemma join_query_ready : query_ready join (intersection_relevant patterns rel_at) width.
Proof.
  split; [apply Hready| |].
  - intros s v Hv (p & [i Hi]%list_elem_of_lookup & Ht)%join_variables _; [|done]. apply intersection_relevant_spec.
    exists i. rewrite length_fmap. split; [by eapply lookup_lt_Some|]. unfold rel_at. by rewrite Hi.
  - intros v f b' Hv Hvars Hu Hf Hle Hp.
    set (m := foldr (λ p, Nat.max (size (K p))) 0 ps). destruct join_sizes as [Hm Hle'].
    assert (∀ i c, patterns !! i = Some c → ProposeSmall c m) as Hsmall.
    { intros i c (p & Hi%list_elem_of_lookup_2 & -> & Hs & Hok & _)%join_child. intros w g b b2 Hw Hgv Hgu Hg Hb Hgp.
      etransitivity; [by eapply pattern_small|]. by apply Nat.add_le_mono_l, Nat.mul_le_mono_l, Hle'. }
    pose proof (intersection_small sort_by_estimate Hsort patterns sat_at rel_at (λ _, false)
      (λ i c Hc, constraint_filter _ _ _ (join_children i c Hc)) (λ i c Hc _, join_children i c Hc) ltac:(done) m (λ i c Hc _, Hsmall i c Hc) v f pb_new b' Hv Hvars Hu Hf pb_new_ok Hp).
    simpl in *. nia.
Qed.

(** A row of the answer spells a row of every set. *)
Lemma join_sat_spells a : total_on (Query.variables join) a → intersection_sat patterns sat_at a ↔
  ∀ p, p ∈ ps → ∃ k, k ∈ K p ∧ spells p a k.
Proof.
  intros Htot. unfold intersection_sat. rewrite length_fmap. split.
  - intros Hsat p [i Hi]%list_elem_of_lookup. specialize (Hsat i (lookup_lt_Some _ _ _ Hi)). unfold sat_at in Hsat. rewrite Hi in Hsat.
    apply Hsat. intros q. destruct (term_at p q) as [w|x] eqn:Eq; [|by eexists]. simpl.
    pose proof (jr_patterns Hready) as Hok. rewrite Forall_forall in Hok.
    specialize (Hok p (list_elem_of_lookup_2 _ _ _ Hi) q). rewrite Eq in Hok. apply Htot; [done|]. apply join_variables; [done|].
    exists p. split; [by eapply list_elem_of_lookup_2|]. unfold touches. destruct q; simpl in Eq; rewrite Eq; simpl;
      by rewrite N.eqb_refl, ?orb_true_r.
  - intros Hall i Hi. unfold sat_at. destruct (ps !! i) as [p|] eqn:Ei; [|done]. intros _. by apply Hall, list_elem_of_lookup_2 with i.
Qed.

(** Rows that spell rows of the sets hold values. *)
Lemma spells_asg_ok a : (∀ v, is_Some (a v) → (v < 128)%N ∧ ∃ p, p ∈ ps ∧ touches p v = true) →
  (∀ p, p ∈ ps → ∃ k, k ∈ K p ∧ spells p a k) → asg_ok a.
Proof.
  intros Hdom Hall v x Hx. destruct (Hdom v) as (Hv & p & Hp & Ht); [by eexists|]. destruct (Hall p Hp) as (k & Hk & Hsp).
  apply list_elem_of_lookup in Hp as [i Hi].
  destruct (join_child i (constraint sip rand_hash parallel threads p)) as (p' & Hi' & _ & Hs & _); [by rewrite list_lookup_fmap, Hi|].
  simplify_eq. destruct (touches_at p v Ht) as [q Hq]. rewrite (Hsp q x); [by eapply value_at_ok, rows_ok|].
  destruct (term_at p q) as [w|y]; simpl in *; [|done]. by apply N.eqb_eq in Hq as ->.
Qed.
End join.

(** C1. A conjunction of triple patterns over trible sets is answered exactly:
    iterating the query hands out, whatever the frontier width, the sharing of
    buffers, the number of threads and the projection, the assignments of the
    variables of the patterns under which every pattern spells a row of its set,
    each once, and then nothing. *)
Theorem join_complete sip rand_hash sort_by_estimate parallel threads width ps sole_buffer sole_matrices :
  (∀ l, sort_by_estimate l ≡ₚ l) → join_ready sip rand_hash width ps →
  let c := join sip rand_hash sort_by_estimate parallel threads ps in
  ∃ q0 q bs, new c = Some q0 ∧ with_frontier_width q0 width = Some q ∧
    (∀ R (post : Binding → option R), ∃ n, ∀ fuel, n <= fuel →
      yields no_hint (next c sole_buffer sole_matrices post fuel) q (omap post bs)) ∧
    NoDup (bval <$> bs) ∧
    ∀ a, a ∈ bval <$> bs ↔
      (∀ v, is_Some (a v) ↔ (v < 128)%N ∧ ∃ p, p ∈ ps ∧ touches p v = true) ∧
      ∀ p, p ∈ ps → ∃ k, k ∈ rows sip (in_set p) ∧ ∀ q, agrees (term_at p q) a (value_at q k).
Proof.
  intros Hsort Hready c. pose proof (join_ok sip rand_hash sort_by_estimate Hsort parallel threads width ps Hready) as Hok.
  pose proof (join_query_ready sip rand_hash sort_by_estimate Hsort parallel threads width ps Hready) as Hqr.
  pose proof (join_variables sip rand_hash sort_by_estimate parallel threads width ps Hready) as Hvars.
  destruct (new_pending c _ _ width Hqr) as (q0 & q & roots & Hn & Hw & Hp & Hall).
  destruct (pending_answers c _ _ width Hqr sole_buffer sole_matrices q roots Hp) as (bs & Hem & Han).
  exists q0, q, bs. split_and!; [done|done|intros; by apply emits_yields|apply Han|]. intros a.
  rewrite (answers_solutions _ _ _ _ Han Hall). split.
  - intros (_ & Hdom & Hs). split.
    + intros v. rewrite Hdom. split; intros [Hv Hvv]; (split; [done|]); by apply Hvars.
    + eapply join_sat_spells; [done..| |done]. intros v Hv Hset. by apply Hdom.
  - intros [Hdom Hspell]. split_and!.
    + apply (spells_asg_ok sip rand_hash parallel threads width ps Hready); [|done]. intros v Hv. by apply Hdom.
    + intros v. rewrite Hdom. split; intros [Hv Hvv]; (split; [done|]); by apply Hvars.
    + eapply join_sat_spells; [done..| |done]. intros v Hv Hset. apply Hdom. split; [done|]. by apply Hvars.
Qed.
