(* ===== verification/EngineExamples.v ===== *)
(** * EngineExamples: queries over a concrete set

    The conjunction of two triple patterns over the set of [PatternExamples]:
    three rows each that share their entity, nine answers. *)

From S2P Require Import Prelude Lex VariableSet OwnerCover ByteTable KeySchema PatchHash Branch Head Algebra.
From S2P Require Import Machine Trible TribleSet Examples TribleExamples.
From S2P Require Import Liveness Query Constraints Intersection Union ConstraintExamples.
From S2P Require Import TribleIndex TriblePattern TriblePatternSpec PatternExamples.
From S2P Require Import Engine EngineRows EnginePlan EngineSpec EngineSteps EngineSearch QueryJoin.

Open Scope nat_scope.

(** [and!(pattern(?0, 2, ?1), pattern(?0, 2, ?2))] *)
Definition ex_patterns : list TribleSetConstraint :=
  [ex_edges; mkPattern (Var 0) (Const (ex_value 2)) (Var 2) ex_s].
Definition ex_join : Constraint := join ex_sip64 ex_rand ex_sort false 1 ex_patterns.
Definition ex_vars : VariableSet := Query.variables ex_join.

Definition ex_sat : asg → Prop :=
  intersection_sat (constraint ex_sip64 ex_rand false 1 <$> ex_patterns) (sat_at ex_sip64 ex_patterns).
Definition ex_rel : VariableSet → VariableId → bool :=
  intersection_relevant (constraint ex_sip64 ex_rand false 1 <$> ex_patterns) (rel_at ex_patterns).

Definition ex_query (width : N) : res Query := q ← new ex_join; with_frontier_width q width.

(** All rows of a query, by [next]. *)
Fixpoint ex_collect (n fuel : nat) (q : Query) : res (list Binding) :=
  match n with
  | 0 => None
  | S n =>
      '(o, q) ← next ex_join (λ _, true) (λ _, false) Some fuel q;
      match o with
      | None => Some []
      | Some b => rest ← ex_collect n fuel q; Some (b :: rest)
      end
  end.

(** The last bytes of the values of a row. *)
Definition ex_row (b : Binding) : list N := omap (λ v, o ← bval b v; last o) [0%N; 1%N; 2%N].

Lemma ex_sort_perm l : ex_sort l ≡ₚ l.
Proof. apply merge_sort_Permutation. Qed.

Lemma ex_join_ready width : (0 < width <= 16384)%N → join_ready ex_sip64 ex_rand width ex_patterns.
Proof.
  intros Hw. assert (size (rows ex_sip64 ex_s) = 3) as E by (vm_compute; reflexivity).
  assert (∀ P : TribleSetConstraint → Prop, (∀ w, (w < 128)%N → P (mkPattern (Var 0) (Const (ex_value 2)) (Var w) ex_s)) →
    Forall P ex_patterns) as Hall by (intros P HP; apply Forall_cons; split; [by apply HP|]; apply Forall_cons; by split; [apply HP|]).
  split; [clear -Hw; lia|..]; apply Hall; intros w Hv.
  - apply ex_s_ok.
  - intros [| |]; [done|by apply ex_value_ok|exact Hv].
  - change (in_set _) with ex_s. rewrite E. clear -Hw. lia.
Qed.

Lemma ex_join_ok : ConstraintOk ex_join ex_sat ex_rel.
Proof. apply (join_ok _ _ _ ex_sort_perm _ _ 4 _ (ex_join_ready 4 ltac:(done))). Qed.
Lemma ex_query_ready width : (0 < width <= 16384)%N → query_ready ex_join ex_rel width.
Proof. intros Hw. apply (join_query_ready _ _ _ ex_sort_perm _ _ _ _ (ex_join_ready width Hw)). Qed.

Lemma ex_ready4 : query_ready ex_join ex_rel 4.
Proof. apply ex_query_ready. lia. Qed.
Lemma ex_ready1 : query_ready ex_join ex_rel 1.
Proof. apply ex_query_ready. lia. Qed.

(** A row in which variable 1 is 20 is an error. *)
Definition ex_pred (b : Binding) : unit + bool := if bool_decide (bval b 1%N = Some (ex_value 20)) then inl () else inr true.

(** The first call with [ex_pred], and the rows that remain. *)
Definition ex_resume (width : N) : res (nat * nat) :=
  q ← ex_query width;
  (fix go n q := match n with
                 | 0 => None
                 | S n =>
                     '(o, q') ← try_next_where ex_join (λ _, true) (λ _, false) Some ex_pred 100 q;
                     match o with
                     | inl _ => rest ← ex_collect 10 100 q'; Some (0, length rest)
                     | inr None => None
                     | inr (Some _) => '(seen, rest) ← go n q'; Some (S seen, rest)
                     end
                 end) 10 q.

(** The rows of the two halves of a split query. *)
Definition ex_halves (width : N) : res (nat * nat) :=
  q ← ex_query width; '(q1, o) ← split ex_join (λ _, true) (λ _, false) 100 (into_par_iter q);
  left ← ex_collect 10 100 q1;
  right ← match o with Some q2 => ex_collect 10 100 q2 | None => Some [] end;
  Some (length left, length right).

Abbreviation ex_sole := (λ _ : Query, true).
Abbreviation ex_shared := (λ _ : Query, false).

(** Row 0 estimates 1 and 9, row 1 estimates 9 and 1, row 2 weighs 2 and 3 alike:
    the influence decides. *)
Lemma plan_partition_witness :
  let prefers := preferred 2 [mkVariableSet 2; mkVariableSet 3] (mkVariableSet 3) [1; 9; 9; 1; 2; 3]%N in
  ∃ p sel, plan_rows prefers 2 3 = Some p ∧ plan_selection p 3 = Some sel ∧ sel_rows sel ≡ₚ [0; 1; 2] ∧
    plan_group p 1 3 = Some (1%N, (1, 3)) ∧ prefers 2 = Some 1%N.
Proof.
  destruct (plan_partition 2 [mkVariableSet 2; mkVariableSet 3] (mkVariableSet 3) [1; 9; 9; 1; 2; 3]%N 3) as (p & sel & Hp & Hsel & Hperm & _).
  - lia.
  - lia.
  - done.
  - done.
  - done.
  - intros v Hv Hs. destruct (decide (v < 2)%N); [lia|]. exfalso. revert Hs.
    assert (Forall (λ v : nat, is_set (mkVariableSet 3) (N.of_nat v) = false) (seq 2 126)) as Hall by (vm_compute; repeat constructor).
    rewrite Forall_forall in Hall. specialize (Hall (N.to_nat v)). rewrite N2Nat.id in Hall. rewrite Hall; [done|].
    apply elem_of_seq. lia.
  - simpl. lia.
  - simpl. lia.
  - exists p, sel. split; [exact Hp|]. split; [exact Hsel|]. split; [exact Hperm|].
    vm_compute in Hp. injection Hp as <-. split; vm_compute; reflexivity.
Defined.

Lemma search_complete_witness :
  (∃ q0 q bs, new ex_join = Some q0 ∧ with_frontier_width q0 4 = Some q ∧
    (∃ n, ∀ fuel, n <= fuel → yields no_hint (next ex_join ex_sole ex_shared Some fuel) q (omap Some bs)) ∧
    NoDup (bval <$> bs) ∧
    ∀ a, a ∈ bval <$> bs ↔ asg_ok a ∧ (∀ v, is_Some (a v) ↔ (v < 128)%N ∧ is_set ex_vars v = true) ∧ ex_sat a) ∧
  length <$> (q ← ex_query 4; ex_collect 10 100 q) = Some 9.
Proof.
  split; [|vm_compute; reflexivity].
  destruct (search_complete ex_join ex_sat ex_rel 4 ex_sole ex_shared ex_join_ok ex_ready4)
    as (q0 & q & bs & Hn & Hw & Hy & Hnd & Hin).
  exists q0, q, bs. split; [exact Hn|]. split; [exact Hw|]. split; [apply Hy|]. split; [exact Hnd|exact Hin].
Defined.

Lemma search_width_witness :
  ∃ q0 q q' bs bs', new ex_join = Some q0 ∧ with_frontier_width q0 4 = Some q ∧ with_frontier_width q0 1 = Some q' ∧
    emits ex_join ex_sole ex_sole q bs ∧ emits ex_join ex_shared ex_shared q' bs' ∧ bval <$> bs ≡ₚ bval <$> bs'.
Proof.
  destruct (new_pending ex_join ex_sat ex_rel 4 (Hc := ex_join_ok) ex_ready4) as (q0 & q & _ & Hn & Hw & _).
  assert (∃ q', with_frontier_width q0 1 = Some q') as [q' Hw'] by (clear; unfold with_frontier_width; simpl; by eexists).
  destruct (search_width ex_join ex_sat ex_rel 4 1 ex_sole ex_sole ex_shared ex_shared q0 q q' ex_join_ok
    ex_ready4 ex_ready1 Hn Hw Hw') as (bs & bs' & H1 & H2 & H3).
  exists q0, q, q', bs, bs'. split; [exact Hn|]. split; [exact Hw|]. split; [exact Hw'|]. split; [exact H1|]. split; [exact H2|exact H3].
Defined.

(** The error leaves eight of nine rows, the one it occurred on included. *)
Lemma try_next_where_resumes_witness :
  (∃ q roots bs n q', pending ex_join ex_sat 4 q roots ∧ answers ex_vars ex_sat roots bs ∧
    (∀ fuel, n <= fuel → try_next_where ex_join ex_sole ex_shared Some ex_pred fuel q = Some ((scan Some ex_pred bs).1, q')) ∧
    ∃ n', ∀ fuel, n' <= fuel → yields no_hint (next ex_join ex_sole ex_shared Some fuel) q' (omap Some (scan Some ex_pred bs).2)) ∧
  ex_resume 4 = Some (1, 8).
Proof.
  split; [|vm_compute; reflexivity].
  destruct (new_pending ex_join ex_sat ex_rel 4 (Hc := ex_join_ok) ex_ready4) as (_ & q & roots & _ & _ & Hp & _).
  destruct (try_next_where_resumes ex_join ex_sat ex_rel 4 ex_sole ex_shared q roots ex_join_ok ex_ready4 Hp)
    as (bs & Han & Hr).
  destruct (Hr unit Binding Some ex_pred) as (n & q' & Hf & Hy).
  exists q, roots, bs, n, q'. split; [exact Hp|]. split; [exact Han|]. split; [exact Hf|exact Hy].
Defined.

Lemma split_bag_witness :
  (∃ q roots bs, pending ex_join ex_sat 4 q roots ∧ emits ex_join ex_sole ex_shared q bs ∧
    ∃ n q1 o bs1 bs2, (∀ fuel, n <= fuel → split ex_join ex_sole ex_shared fuel q = Some (q1, o)) ∧
      emits ex_join ex_sole ex_shared q1 bs1 ∧ bval <$> bs ≡ₚ bval <$> bs1 ++ bs2) ∧
  ex_halves 4 = Some (6, 3).
Proof.
  split; [|vm_compute; reflexivity].
  destruct (new_pending ex_join ex_sat ex_rel 4 (Hc := ex_join_ok) ex_ready4) as (_ & q & roots & _ & _ & Hp & _).
  destruct (split_bag ex_join ex_sat ex_rel 4 ex_sole ex_shared q roots ex_join_ok ex_ready4 Hp)
    as (bs & Hem & _ & n & q1 & o & bs1 & bs2 & Hf & H1 & _ & _ & Hperm).
  exists q, roots, bs. split; [exact Hp|]. split; [exact Hem|]. exists n, q1, o, bs1, bs2.
  split; [exact Hf|]. split; [exact H1|exact Hperm].
Defined.

(** Entity, value and value: nine combinations. *)
Lemma join_complete_witness :
  (∃ q0 q bs, new ex_join = Some q0 ∧ with_frontier_width q0 2 = Some q ∧
    (∃ n, ∀ fuel, n <= fuel → yields no_hint (next ex_join ex_sole ex_sole Some fuel) q (omap Some bs)) ∧
    ∀ a, a ∈ bval <$> bs ↔
      (∀ v, is_Some (a v) ↔ (v < 128)%N ∧ ∃ p, p ∈ ex_patterns ∧ touches p v = true) ∧
      ∀ p, p ∈ ex_patterns → ∃ k, k ∈ rows ex_sip64 (in_set p) ∧ ∀ x, agrees (term_at p x) a (value_at x k)) ∧
  (q ← ex_query 2; l ← ex_collect 10 100 q; Some ((λ b, ex_row b) <$> l) : option (list (list N))) =
    Some [[1; 90; 90]; [1; 20; 90]; [1; 7; 90]; [1; 90; 20]; [1; 20; 20]; [1; 7; 20]; [1; 90; 7]; [1; 20; 7]; [1; 7; 7]]%N.
Proof.
  split; [|vm_compute; reflexivity].
  destruct (join_complete ex_sip64 ex_rand ex_sort false 1 2 ex_patterns ex_sole ex_sole ex_sort_perm (ex_join_ready 2 ltac:(done)))
    as (q0 & q & bs & Hn & Hw & Hy & _ & Hin).
  exists q0, q, bs. split; [exact Hn|]. split; [exact Hw|]. split; [apply Hy|exact Hin].
Defined.
