(* ===== verification/InlineEncodings.v ===== *)
(** * InlineEncodings: 32-byte values and the types they stand for

    Source: [triblespace-core/src/inline/encodings/] ([genid.rs]).

    An encoding writes a value of a Rust type into 32 bytes and reads it back;
    reading fails on bytes that are no encoding. *)

From S2P Require Import Prelude Lex KeySchema Trible.

Open Scope nat_scope.

(** ** Identifiers: [GenId] *)

Module GenId.
Inductive IdParseError := IsNil | BadFormat.

Definition validate (value : list N) : unit + list N :=
  if decide (take 16 value = replicate 16 0%N) then inr value else inl tt.

(** [RawId] *)
Definition raw_try_from_inline (value : list N) : IdParseError + list N :=
  if decide (take 16 value = replicate 16 0%N) then inr (take 16 (drop 16 value)) else inl BadFormat.
Definition raw_encode (source : list N) : list N := replicate 16 0%N ++ source.

(** [Id] *)
Definition try_from_inline (value : list N) : IdParseError + Id :=
  if decide (take 16 value = replicate 16 0%N) then
    match Id_new (take 16 (drop 16 value)) with Some id => inr id | None => inl IsNil end
  else inl BadFormat.
Definition encode (source : Id) : list N := replicate 16 0%N ++ raw source.

Lemma raw_round_trip value : length value = INLINE_LEN →
  match raw_try_from_inline value with
  | inr id => length id = ID_LEN ∧ raw_encode id = value
  | inl _ => ∀ id, length id = ID_LEN → raw_encode id ≠ value
  end.
Proof.
  intros Hl. unfold raw_try_from_inline, raw_encode, INLINE_LEN, ID_LEN in *. case_decide as E.
  - rewrite length_take, length_drop, Hl. split; [done|]. rewrite <- E at 1.
    rewrite (take_ge (drop 16 value)) by (rewrite length_drop; lia). apply take_drop.
  - intros id Hid <-. apply E. by rewrite take_app_length'.
Qed.

Lemma round_trip value id : bytes_ok INLINE_LEN value →
  try_from_inline value = inr id ↔ id_ok id ∧ encode id = value.
Proof.
  intros [Hl Hb]. unfold try_from_inline, encode, INLINE_LEN in *. split.
  - case_decide as E; [|done]. assert (bytes_ok ID_LEN (take 16 (drop 16 value))) as Hi.
    { split; [rewrite length_take, length_drop, Hl; done|]. by apply Forall_take, Forall_drop. }
    pose proof (id_new_spec _ Hi) as Hn. destruct (Id_new _) as [i|]; [|done]. intros [= <-].
    destruct Hn as [Hok ->]. split; [done|]. rewrite <- E at 1.
    rewrite (take_ge (drop 16 value)) by (rewrite length_drop; lia). apply take_drop.
  - intros [Hok <-]. rewrite decide_True by by rewrite take_app_length'.
    rewrite drop_app_length', take_ge by (done || by rewrite (bo_len _ _ (raw_ok id))).
    by rewrite id_new_raw.
Qed.
End GenId.
