(* ===== verification/Membership.v ===== *)
(** * Membership: constraints that restrict one variable to a collection

    Source: [triblespace-core/src/query/] ([hashsetconstraint.rs],
    [hashmapconstraint.rs], [sortedsliceconstraint.rs], [patchconstraint.rs],
    [rangeconstraint.rs]) and [trible/tribleset/]
    ([triblesetrangeconstraint.rs], [triblesetidrangeconstraint.rs]).

    None of them looks at the row: a proposer pushes the same values for every
    row, a confirmer judges every candidate by its value.  A collection of [T]
    reads and writes its elements through [IntoInline] and [TryFromInline],
    here the class [InlineCodec].  A [HashSet] is the list of its elements in the
    order it iterates; the keys of a [HashMap] likewise.  [Arc], [Rc] and
    references to a collection are the collection. *)

From S2P Require Import Prelude Lex VariableSet OwnerCover ByteTable KeySchema PatchHash Branch Head Algebra.
From S2P Require Import Overlap Canonical XorDigest Patch Queries PatchQueries Machine Trible TribleSet.
From S2P Require Import Liveness Query Constraints TribleIndex TriblePattern.

Open Scope nat_scope.

(** ** Elements and inline values *)

(** [IntoInline] and [TryFromInline] *)
Class InlineCodec (T : Type) := {
  to_inline : T → RawInline;
  try_from_inline : RawInline → option T;
}.

(** Writing a [valid] element gives a value, and reading undoes exactly writing. *)
Class InlineCodecOk (T : Type) `{InlineCodec T} (valid : T → Prop) : Prop := {
  codec_value t : valid t → value_ok (to_inline t);
  codec_read x t : value_ok x → try_from_inline x = Some t ↔ valid t ∧ to_inline t = x;
}.

(** ** Loops the constraints share *)

(** Every row is proposed the values [l]. *)
Definition propose_rows (l : list RawInline) (f : Frontier) (b : ProposalBuffer) : res ProposalBuffer :=
  foldM (λ b row, pb_extend (pb_open b (as_u32 row)) l) b (seq 0 (f_len f)).

(** The live candidates are judged one by one. *)
Definition confirm_live (keep : RawInline → res bool) (cands : Candidates) : res Candidates :=
  foldM (λ cands i,
    v ← cd_values cands !! i;
    alive ← cd_is_live cands i;
    if negb alive then Some cands else
    kept ← keep v;
    if (kept : bool) then Some cands else cd_kill cands i) cands (seq 0 (cd_len cands)).

(** ** Collections in memory *)

Module HashSetConstraint.
Section ops.
Context {T : Type} `{EqDecision T, InlineCodec T}.

Record SetConstraint := mkSet { sc_variable : VariableId; sc_set : list T }.
Implicit Types c : SetConstraint.

Definition variables c : VariableSet := new_singleton (sc_variable c).

Definition estimate c (variable : VariableId) (b : Binding) : res (option N) :=
  Some (if (sc_variable c =? variable)%N then Some (N.of_nat (length (sc_set c))) else None).

Definition propose c (variable : VariableId) (f : Frontier) (proposals : ProposalBuffer) : res ProposalBuffer :=
  if (sc_variable c =? variable)%N then propose_rows (to_inline <$> sc_set c) f proposals else Some proposals.

Definition keeps (set : list T) (v : RawInline) : res bool :=
  Some (match try_from_inline v with Some t => bool_decide (t ∈ set) | None => false end).

Definition confirm c (variable : VariableId) (f : Frontier) (cands : Candidates) : res Candidates :=
  if (sc_variable c =? variable)%N then confirm_live (keeps (sc_set c)) cands else Some cands.

Definition constraint c : Constraint :=
  mkConstraint (variables c) (estimate c) (propose c) (confirm c) default_satisfied (default_influence (variables c)).
End ops.
End HashSetConstraint.

Module HashMapConstraint.
Section ops.
Context {K V : Type} `{EqDecision K, InlineCodec K}.

Record KeysConstraint := mkKeys { kc_variable : VariableId; kc_map : list (K * V) }.
Implicit Types c : KeysConstraint.

Definition variables c : VariableSet := new_singleton (kc_variable c).

Definition estimate c (variable : VariableId) (b : Binding) : res (option N) :=
  Some (if (kc_variable c =? variable)%N then Some (N.of_nat (length (kc_map c))) else None).

Definition propose c (variable : VariableId) (f : Frontier) (proposals : ProposalBuffer) : res ProposalBuffer :=
  if (kc_variable c =? variable)%N then propose_rows (to_inline <$> (kc_map c).*1) f proposals else Some proposals.

Definition contains_key (map : list (K * V)) (v : RawInline) : res bool :=
  Some (match try_from_inline v with Some key => bool_decide (key ∈ map.*1) | None => false end).

Definition confirm c (variable : VariableId) (f : Frontier) (cands : Candidates) : res Candidates :=
  if (kc_variable c =? variable)%N then confirm_live (contains_key (kc_map c)) cands else Some cands.

Definition constraint c : Constraint :=
  mkConstraint (variables c) (estimate c) (propose c) (confirm c) default_satisfied (default_influence (variables c)).
End ops.
End HashMapConstraint.

Module SortedSlice.
Section ops.
Context {T : Type} `{InlineCodec T} (cmp : T → T → comparison).

(** [windows(2).all(|w| w[0] <= w[1])] *)
Fixpoint ascending (data : list T) : bool :=
  match data with
  | x :: (y :: _) as rest => match cmp x y with Gt => false | _ => true end && ascending rest
  | _ => true
  end.

(** [None] is [NotSortedError]. *)
Definition new (data : list T) : option (list T) := if ascending data then Some data else None.
Definition new_unchecked (data : list T) : list T := data.

(** [sort_unstable], by insertion. *)
Fixpoint sort_insert (x : T) (l : list T) : list T :=
  match l with
  | [] => [x]
  | y :: l' => match cmp x y with Gt => y :: sort_insert x l' | _ => x :: l end
  end.
Definition from_mut (data : list T) : list T := foldr sort_insert [] data.

(** [binary_search(&t).is_ok()], on the elements from [lo] up to [hi]. *)
Fixpoint search (fuel : nat) (data : list T) (t : T) (lo hi : nat) : res bool :=
  match fuel with
  | 0 => None
  | S fuel =>
      if hi <=? lo then Some false else
      let mid := lo + (hi - lo) / 2 in
      x ← data !! mid;
      match cmp x t with
      | Eq => Some true
      | Lt => search fuel data t (S mid) hi
      | Gt => search fuel data t lo mid
      end
  end.
Definition binary_search (data : list T) (t : T) : res bool := search (S (length data)) data t 0 (length data).

Record SortedSliceConstraint := mkSlice { ss_variable : VariableId; ss_slice : list T }.
Implicit Types c : SortedSliceConstraint.

Definition variables c : VariableSet := new_singleton (ss_variable c).

Definition estimate c (variable : VariableId) (b : Binding) : res (option N) :=
  Some (if (ss_variable c =? variable)%N then Some (N.of_nat (length (ss_slice c))) else None).

Definition propose c (variable : VariableId) (f : Frontier) (proposals : ProposalBuffer) : res ProposalBuffer :=
  if (ss_variable c =? variable)%N then propose_rows (to_inline <$> ss_slice c) f proposals else Some proposals.

Definition finds (slice : list T) (v : RawInline) : res bool :=
  match try_from_inline v with Some t => binary_search slice t | None => Some false end.

Definition confirm c (variable : VariableId) (f : Frontier) (cands : Candidates) : res Candidates :=
  if (ss_variable c =? variable)%N then confirm_live (finds (ss_slice c)) cands else Some cands.

Definition constraint c : Constraint :=
  mkConstraint (variables c) (estimate c) (propose c) (confirm c) default_satisfied (default_influence (variables c)).
End ops.
End SortedSlice.

(** ** Values and ids in a PATCH *)

Module PatchConstraint.
Section ops.
Context (sip : list N → N) (rand_hash : N → N).
#[local] Hint Extern 0 PatchHash => exact (XorSip128 sip) : typeclass_instances.
#[local] Hint Extern 0 (KeySchema INLINE_LEN) => exact (IdentitySchema INLINE_LEN) : typeclass_instances.
#[local] Hint Extern 0 (KeySchema ID_LEN) => exact (IdentitySchema ID_LEN) : typeclass_instances.

Record PatchValueConstraint := mkPatchValue { pv_variable : VariableId; pv_patch : index }.

Definition value_variables (c : PatchValueConstraint) : VariableSet := new_singleton (pv_variable c).

Definition value_estimate (c : PatchValueConstraint) (variable : VariableId) (b : Binding) : res (option N) :=
  Some (if (pv_variable c =? variable)%N then Some (len (pv_patch c)) else None).

Definition value_propose (c : PatchValueConstraint) (variable : VariableId) (f : Frontier) (proposals : ProposalBuffer)
    : res ProposalBuffer :=
  if (pv_variable c =? variable)%N then
    foldM (λ proposals row,
      let proposals := pb_open proposals (as_u32 row) in
      keys ← infixes (KEY_LEN:=INLINE_LEN) rand_hash (pv_patch c) [] INLINE_LEN;
      pb_extend proposals keys) proposals (seq 0 (f_len f))
  else Some proposals.

Definition value_confirm (c : PatchValueConstraint) (variable : VariableId) (f : Frontier) (cands : Candidates)
    : res Candidates :=
  if (pv_variable c =? variable)%N then confirm_live (has_prefix (KEY_LEN:=INLINE_LEN) rand_hash (pv_patch c)) cands
  else Some cands.

Definition value_constraint (c : PatchValueConstraint) : Constraint :=
  mkConstraint (value_variables c) (value_estimate c) (value_propose c) (value_confirm c) default_satisfied
    (default_influence (value_variables c)).

Record PatchIdConstraint := mkPatchId { pi_variable : VariableId; pi_patch : index }.

Definition id_variables (c : PatchIdConstraint) : VariableSet := new_singleton (pi_variable c).

Definition id_estimate (c : PatchIdConstraint) (variable : VariableId) (b : Binding) : res (option N) :=
  Some (if (pi_variable c =? variable)%N then Some (len (pi_patch c)) else None).

Definition id_propose (c : PatchIdConstraint) (variable : VariableId) (f : Frontier) (proposals : ProposalBuffer)
    : res ProposalBuffer :=
  if (pi_variable c =? variable)%N then
    foldM (λ proposals row,
      let proposals := pb_open proposals (as_u32 row) in
      keys ← infixes (KEY_LEN:=ID_LEN) rand_hash (pi_patch c) [] ID_LEN;
      pb_extend proposals (id_into_value <$> keys)) proposals (seq 0 (f_len f))
  else Some proposals.

Definition id_keeps (patch : index) (v : RawInline) : res bool :=
  match id_from_value v with Some id => has_prefix (KEY_LEN:=ID_LEN) rand_hash patch id | None => Some false end.

Definition id_confirm (c : PatchIdConstraint) (variable : VariableId) (f : Frontier) (cands : Candidates) : res Candidates :=
  if (pi_variable c =? variable)%N then confirm_live (id_keeps (pi_patch c)) cands else Some cands.

Definition id_constraint (c : PatchIdConstraint) : Constraint :=
  mkConstraint (id_variables c) (id_estimate c) (id_propose c) (id_confirm c) default_satisfied
    (default_influence (id_variables c)).
End ops.
End PatchConstraint.

(** ** Ranges *)

Module InlineRange.
Record InlineRange := mkInlineRange { ir_variable : VariableId; ir_min : RawInline; ir_max : RawInline }.
Implicit Types c : InlineRange.

Definition variables c : VariableSet := new_singleton (ir_variable c).

Definition estimate c (variable : VariableId) (b : Binding) : res (option N) :=
  Some (if (ir_variable c =? variable)%N then Some (2 ^ 64 - 1)%N else None).

Definition propose c (variable : VariableId) (f : Frontier) (proposals : ProposalBuffer) : res ProposalBuffer :=
  Some proposals.

Definition confirm c (variable : VariableId) (f : Frontier) (cands : Candidates) : res Candidates :=
  if (ir_variable c =? variable)%N then confirm_live (λ v, Some (KeySchema.in_range (ir_min c) (ir_max c) v)) cands else Some cands.

Definition satisfied c (b : Binding) : res bool :=
  o ← bget b (ir_variable c);
  Some (match o with Some v => KeySchema.in_range (ir_min c) (ir_max c) v | None => true end).

Definition constraint c : Constraint :=
  mkConstraint (variables c) (estimate c) (propose c) (confirm c) (satisfied c) (default_influence (variables c)).
End InlineRange.

Module TribleRange.
Section ops.
Context (sip : list N → N) (rand_hash : N → N).
#[local] Hint Extern 0 PatchHash => exact (XorSip128 sip) : typeclass_instances.

Record TribleSetRangeConstraint := mkValueRange {
  vr_variable : VariableId;
  vr_min : RawInline;
  vr_max : RawInline;
  vr_set : TribleSet;
  vr_cached_estimate : N;
}.
Implicit Types c : TribleSetRangeConstraint.

Definition value_new (variable : VariableId) (min max : RawInline) (set : TribleSet) : res TribleSetRangeConstraint :=
  n ← count_range (O:=VEAOrder) (KEY_LEN:=TRIBLE_LEN) rand_hash (vea set) [] INLINE_LEN min max;
  Some (mkValueRange variable min max set (N.min n (2 ^ 64 - 1))).

Definition value_variables c : VariableSet := new_singleton (vr_variable c).

Definition value_estimate c (variable : VariableId) (b : Binding) : res (option N) :=
  Some (if (variable =? vr_variable c)%N then Some (vr_cached_estimate c) else None).

Definition value_propose c (variable : VariableId) (f : Frontier) (proposals : ProposalBuffer) : res ProposalBuffer :=
  if negb (variable =? vr_variable c)%N then Some proposals else
  foldM (λ proposals row,
    let proposals := pb_open proposals (as_u32 row) in
    vs ← infixes_range (O:=VEAOrder) (KEY_LEN:=TRIBLE_LEN) rand_hash (vea (vr_set c)) [] INLINE_LEN (vr_min c) (vr_max c);
    pb_extend proposals vs) proposals (seq 0 (f_len f)).

Definition value_confirm c (variable : VariableId) (f : Frontier) (cands : Candidates) : res Candidates :=
  if (variable =? vr_variable c)%N then cd_retain cands (λ v, Some (KeySchema.in_range (vr_min c) (vr_max c) v)) else Some cands.

Definition value_satisfied c (b : Binding) : res bool :=
  o ← bget b (vr_variable c);
  Some (match o with Some v => KeySchema.in_range (vr_min c) (vr_max c) v | None => true end).

Definition value_constraint c : Constraint :=
  mkConstraint (value_variables c) (value_estimate c) (value_propose c) (value_confirm c) (value_satisfied c)
    (default_influence (value_variables c)).

(** [EntityRangeConstraint] and [AttributeRangeConstraint]: the same over the
    index whose order starts with the entity and the attribute. *)
Record IdRangeConstraint := mkIdRange { dr_variable : VariableId; dr_min : list N; dr_max : list N; dr_set : TribleSet }.
Implicit Types d : IdRangeConstraint.

Definition id_variables d : VariableSet := new_singleton (dr_variable d).

Definition id_in_range d (v : RawInline) : bool :=
  match id_from_value v with Some id => KeySchema.in_range (dr_min d) (dr_max d) id | None => false end.

Definition id_confirm d (variable : VariableId) (f : Frontier) (cands : Candidates) : res Candidates :=
  if (variable =? dr_variable d)%N then cd_retain cands (λ v, Some (id_in_range d v)) else Some cands.

Definition id_satisfied d (b : Binding) : res bool :=
  o ← bget b (dr_variable d);
  Some (match o with Some v => id_in_range d v | None => true end).

Definition id_estimate (O : KeySchema TRIBLE_LEN) (axis : TribleSet → index) d (variable : VariableId) (b : Binding)
    : res (option N) :=
  if negb (variable =? dr_variable d)%N then Some None else
  n ← count_range (O:=O) (KEY_LEN:=TRIBLE_LEN) rand_hash (axis (dr_set d)) [] ID_LEN (dr_min d) (dr_max d);
  Some (Some (N.min n (2 ^ 64 - 1))).

Definition id_propose (O : KeySchema TRIBLE_LEN) (axis : TribleSet → index) d (variable : VariableId) (f : Frontier)
    (proposals : ProposalBuffer) : res ProposalBuffer :=
  if negb (variable =? dr_variable d)%N then Some proposals else
  foldM (λ proposals row,
    let proposals := pb_open proposals (as_u32 row) in
    ids ← infixes_range (O:=O) (KEY_LEN:=TRIBLE_LEN) rand_hash (axis (dr_set d)) [] ID_LEN (dr_min d) (dr_max d);
    pb_extend proposals (id_into_value <$> ids)) proposals (seq 0 (f_len f)).

Definition id_constraint (O : KeySchema TRIBLE_LEN) (axis : TribleSet → index) d : Constraint :=
  mkConstraint (id_variables d) (id_estimate O axis d) (id_propose O axis d) (id_confirm d) (id_satisfied d)
    (default_influence (id_variables d)).

Definition entity_constraint := id_constraint EAVOrder eav.
Definition attribute_constraint := id_constraint AEVOrder aev.
End ops.
End TribleRange.
