(* ===== verification/MembershipSpec.v ===== *)
(** * MembershipSpec: what the membership constraints answer

    Constraints over collections obey the protocol in a conjunction.  They keep
    the default [satisfied], so they do not refute, and a disjunction with them
    loses its soundness; the range constraints over a trible set propose from
    its domain but confirm the range alone. *)

From S2P Require Import Prelude Lex VariableSet OwnerCover ByteTable KeySchema PatchHash Branch Head Algebra.
From S2P Require Import Overlap Canonical XorDigest Patch Queries PatchQueries Machine Iterators Trible TribleSet.
From S2P Require Import Liveness Query Constraints TribleIndex TriblePattern Membership.

Open Scope nat_scope.

(** ** The shared loops *)

Lemma propose_rows_spec l f b : frontier_ok f → pb_ok b → Forall value_ok l →
  ∃ b' new, propose_rows l f b = Some b' ∧ pb_ok b' ∧ items b' = items b ++ new ∧ tagged_ok f new ∧
    ∀ r, r < f_len f → proposed_for new r = l.
Proof.
  intros Hf Hb Hl. unfold propose_rows.
  destruct (rows_propose f (λ b row, pb_extend (pb_open b (as_u32 row)) l) (λ _, l) 0 (f_len f) b)
    as (b' & new & Hp & Hb' & Hi & Ht & Hpr); [done|lia| |done|].
  { intros b0 r Hb0 Hr. destruct (open_row b0 r) as (Ho1 & Ho2 & Ho3); [eapply row_u32; [done|lia]|done|].
    destruct (pb_extend_spec _ l Ho1) as (b1 & -> & ? & _ & Hi1). exists b1. by rewrite Hi1, Ho2, Ho3. }
  exists b', new. split_and!; [done..|]. intros r Hr. rewrite Hpr. by rewrite decide_True by lia.
Qed.

(** A proposer that asks its collection once per row. *)
Lemma propose_each_row (ask : res (list RawInline)) l f b : ask = Some l →
  foldM (λ b row, vs ← ask; pb_extend (pb_open b (as_u32 row)) vs) b (seq 0 (f_len f)) = propose_rows l f b.
Proof. intros ->. done. Qed.

Lemma confirm_live_spec f cands keep (k : RawInline → bool) : cands_ok f cands → (∀ v, value_ok v → keep v = Some (k v)) →
  ∃ c', confirm_live keep cands = Some c' ∧ killed cands (λ i, k (cand_value cands i)) c'.
Proof.
  intros Hc Hkeep. unfold confirm_live.
  destruct (confirm_each f cands (λ cands i,
    v ← cd_values cands !! i;
    alive ← cd_is_live cands i;
    if negb alive then Some cands else
    kept ← keep v;
    if (kept : bool) then Some cands else cd_kill cands i) (λ _ x, k x)) as (c' & -> & Hk); [done| |by exists c'].
  intros c1 i Hc1 Hvs Hps Hi. assert (cd_len c1 = cd_len cands) as Hl by (unfold cd_len; by rewrite Hvs).
  rewrite Hvs, cand_value_lookup by done. cbn [mbind option_bind].
  rewrite cd_is_live_spec by (apply Hc1 || lia). cbn [mbind option_bind].
  rewrite Hkeep by by eapply cand_value_ok. cbn [mbind option_bind].
  destruct (judge_entry f c1 i (k (cand_value cands i)) Hc1) as (c2 & Hj & Hk); [lia|]. exists c2. split; [|done].
  destruct (live_at c1 i), (k (cand_value cands i)); simpl in *; done.
Qed.

Lemma retain_values f cands (k : RawInline → bool) : cands_ok f cands →
  ∃ c', cd_retain cands (λ v, Some (k v)) = Some c' ∧ killed cands (λ i, k (cand_value cands i)) c'.
Proof. intros Hc. apply cd_retain_spec; [apply Hc|done]. Qed.

(** ** Members obey the protocol *)

(** [c] answers for the one variable [w] with the values [l]. *)
Record member_like (c : Constraint) (w : VariableId) (l : list RawInline) : Prop := {
  ml_variable : (w < 128)%N;
  ml_variables : Query.variables c = new_singleton w;
  ml_estimate v b : ∃ n, Query.estimate c v b = Some (if (w =? v)%N then Some n else None);
  ml_satisfied : Query.satisfied c = default_satisfied;
  ml_propose f b : Query.propose c w f b = propose_rows l f b;
  ml_values : Forall value_ok l;
  ml_distinct : NoDup l;
  ml_confirm f cands : cands_ok f cands → ∃ c' k, Query.confirm c w f cands = Some c' ∧
    killed cands (λ i, k (cand_value cands i)) c' ∧ ∀ x, value_ok x → k x = true ↔ x ∈ l;
  ml_other v f cands : v ≠ w → Query.confirm c v f cands = Some cands;
}.

(** The value of [w], once bound, is a member. *)
Definition member_sat (w : VariableId) (P : RawInline → Prop) (a : asg) : Prop := ∀ x, a w = Some x → P x.
Definition only (w : VariableId) (_ : VariableSet) (v : VariableId) : bool := (v =? w)%N.

Lemma member_ok c w l P : member_like c w l → (∀ x, x ∈ l ↔ P x) → ConstraintOk c (member_sat w P) (only w).
Proof.
  unfold member_sat, only. intros [Hw Hvars Hest Hsat Hprop Hval Hnd Hconf Hother] HP.
  assert (∀ a x, (∀ y, extend a w x w = Some y → P y) ↔ x ∈ l) as Hext.
  { intros a x. rewrite extend_eq, HP. split; [intros H; by apply H|by intros H ? [= <-]]. }
  split.
  - rewrite Hvars. by apply wf_set.
  - intros s v Hv Hr. by rewrite Hvars, const_set.
  - intros a a' Hsub _ Ha x Hx. by apply Ha, Hsub.
  - intros b Hb. rewrite Hsat. exists true. split_and!; [done..|]. intros Hn _ x. by rewrite Hn.
  - intros v b Hv Hb Hu. destruct (Hest v b) as [n ->]. eexists. split; [done|]. rewrite N.eqb_sym.
    destruct (v =? w)%N; split; try done; by intros [? ?].
  - intros b v x Hv Hb Hu Hx Hr Ha y Hy. bool_hyps. rewrite extend_ne in Hy by done. by apply Ha.
  - intros v f b Hv Hf Hu Hr Hb. bool_hyps. subst v. rewrite Hprop.
    destruct (propose_rows_spec l f b Hf Hb Hval) as (b' & new & -> & Hb' & Hi & Ht & Hp).
    exists b', new. split_and!; [done..|]. intros r Hr. rewrite Hp by done. split; [done| |].
    + intros x Hx _. by apply Hext.
    + intros x (a' & _ & Hsub & _ & Ha'). apply HP, Ha', Hsub, extend_eq.
  - intros v f cands Hv Hf Hu Hc. destruct (decide (v = w)) as [->|Hne].
    + destruct (Hconf f cands Hc) as (c' & k & -> & Hk & Hkl). exists c', (λ i, k (cand_value cands i)). split_and!; [done..|].
      intros i Hi _. assert (value_ok (cand_value cands i)) as Hx by by eapply cand_value_ok. split.
      * intros Hki _. by apply Hext, Hkl.
      * intros (a' & _ & Hsub & _ & Ha'). apply Hkl; [done|]. apply HP, Ha', Hsub, extend_eq.
    + rewrite Hother by done. exists cands, (λ _, true). split_and!; [done|apply killed_refl; [apply Hc|done]|].
      intros i Hi _. split; [|done]. intros _ Ha x. rewrite extend_ne by done. apply Ha.
Qed.

(** ** Collections in memory *)

Section codec.
Context {T : Type} `{InlineCodec T} (valid : T → Prop) `{!InlineCodecOk T valid}.

(** The value of an element of [l]. *)
Definition written (l : list T) (x : RawInline) : Prop := ∃ t, t ∈ l ∧ x = to_inline t.

Lemma elem_of_written (l : list T) x : x ∈ to_inline <$> l ↔ written l x.
Proof. rewrite list_elem_of_fmap. unfold written. naive_solver. Qed.

Lemma read_written (l : list T) x : Forall valid l → value_ok x → written l x ↔ ∃ t, try_from_inline x = Some t ∧ t ∈ l.
Proof.
  intros Hl Hx. rewrite Forall_forall in Hl. split.
  - intros (t & Ht & ->). exists t. split; [|done]. apply codec_read; auto.
  - intros (t & Hr & Ht). exists t. split; [done|]. apply codec_read in Hr as [_ <-]; done.
Qed.

Lemma written_values (l : list T) : Forall valid l → Forall value_ok (to_inline <$> l).
Proof. intros Hl. apply Forall_fmap. eapply Forall_impl; [done|]. intros t. apply codec_value. Qed.

Lemma written_distinct (l : list T) : Forall valid l → NoDup l → NoDup (to_inline <$> l).
Proof.
  intros Hl Hnd. rewrite Forall_forall in Hl. assert (∀ t, t ∈ l → try_from_inline (to_inline t) = Some t) as Hr.
  { intros t Ht. apply codec_read; [by apply codec_value, Hl|]. auto. }
  clear Hl. induction Hnd as [|t l Ht Hnd IH]; [constructor|]. simpl. constructor; [|apply IH; set_solver].
  rewrite list_elem_of_fmap. intros (u & E & Hu). pose proof (Hr t (list_elem_of_here _ _)) as H1.
  rewrite E, Hr in H1 by set_solver. by simplify_eq.
Qed.

Lemma read_verdict (l : list T) (decide_in : T → bool) : Forall valid l → (∀ t, decide_in t = true ↔ t ∈ l) → ∀ x, value_ok x →
  match try_from_inline x with Some t => decide_in t | None => false end = true ↔ x ∈ to_inline <$> l.
Proof.
  intros Hl Hd x Hx. rewrite elem_of_written, read_written by done.
  destruct (try_from_inline x) as [t|]; [rewrite Hd|]; naive_solver.
Qed.

Context `{!EqDecision T}.

Lemma hashset_member (c : HashSetConstraint.SetConstraint) : (HashSetConstraint.sc_variable c < 128)%N →
  Forall valid (HashSetConstraint.sc_set c) → NoDup (HashSetConstraint.sc_set c) →
  member_like (HashSetConstraint.constraint c) (HashSetConstraint.sc_variable c) (to_inline <$> HashSetConstraint.sc_set c).
Proof.
  intros Hw Hval Hnd. split; simpl; [done|done|by eexists|done| |by apply written_values|by apply written_distinct| |].
  - intros f b. unfold HashSetConstraint.propose. by rewrite N.eqb_refl.
  - intros f cands Hc. unfold HashSetConstraint.confirm. rewrite N.eqb_refl.
    set (k := λ v, match try_from_inline v with Some t => bool_decide (t ∈ HashSetConstraint.sc_set c) | None => false end).
    destruct (confirm_live_spec f cands (HashSetConstraint.keeps (HashSetConstraint.sc_set c)) k Hc) as (c' & -> & Hk); [done|].
    exists c', k. split_and!; [done..|]. apply read_verdict; [done|]. intros t. apply bool_decide_eq_true.
  - intros v f cands Hne. unfold HashSetConstraint.confirm. by rewrite (proj2 (N.eqb_neq _ _)).
Qed.

Lemma hashmap_member {V} (c : HashMapConstraint.KeysConstraint (K:=T) (V:=V)) : (HashMapConstraint.kc_variable c < 128)%N →
  Forall valid (HashMapConstraint.kc_map c).*1 → NoDup (HashMapConstraint.kc_map c).*1 →
  member_like (HashMapConstraint.constraint c) (HashMapConstraint.kc_variable c) (to_inline <$> (HashMapConstraint.kc_map c).*1).
Proof.
  intros Hw Hval Hnd. split; simpl; [done|done|by eexists|done| |by apply written_values|by apply written_distinct| |].
  - intros f b. unfold HashMapConstraint.propose. by rewrite N.eqb_refl.
  - intros f cands Hc. unfold HashMapConstraint.confirm. rewrite N.eqb_refl.
    set (k := λ v, match try_from_inline v with Some t => bool_decide (t ∈ (HashMapConstraint.kc_map c).*1) | None => false end).
    destruct (confirm_live_spec f cands (HashMapConstraint.contains_key (HashMapConstraint.kc_map c)) k Hc) as (c' & -> & Hk); [done|].
    exists c', k. split_and!; [done..|]. apply read_verdict; [done|]. intros t. apply bool_decide_eq_true.
  - intros v f cands Hne. unfold HashMapConstraint.confirm. by rewrite (proj2 (N.eqb_neq _ _)).
Qed.
End codec.

(** ** Sorted slices *)

(** What [Ord] promises. *)
Class OrdOk {T} (cmp : T → T → comparison) : Prop := {
  ord_eq x y : cmp x y = Eq ↔ x = y;
  ord_flip x y : cmp y x = CompOpp (cmp x y);
  ord_trans x y z : cmp x y = Lt → cmp y z = Lt → cmp x z = Lt;
}.

Section slice.
Context {T : Type} `{InlineCodec T} (valid : T → Prop) `{!InlineCodecOk T valid} (cmp : T → T → comparison) `{!OrdOk cmp}.
Import SortedSlice.

Definition le (x y : T) : Prop := cmp x y ≠ Gt.

#[local] Instance le_trans : Transitive le.
Proof.
  intros x y z Hxy Hyz. unfold le in *. destruct (cmp x y) eqn:E1; [apply ord_eq in E1; by subst| |done].
  destruct (cmp y z) eqn:E2; [apply ord_eq in E2; subst; congruence| |done]. by rewrite (ord_trans _ _ _ E1 E2).
Qed.

Lemma ascending_sorted l : ascending cmp l = true ↔ Sorted.Sorted le l.
Proof.
  induction l as [|x [|y l] IH]; [split; [constructor|done]|split; [repeat constructor|done]|].
  change (ascending cmp (x :: y :: l)) with (match cmp x y with Gt => false | _ => true end && ascending cmp (y :: l)).
  rewrite andb_true_iff, IH. split.
  - intros [Hxy Hs]. constructor; [done|]. constructor. unfold le. by destruct (cmp x y).
  - intros Hs. apply Sorted.Sorted_inv in Hs as [Hs Hxy]. split; [|done]. inversion Hxy as [|? ? Hle]; subst.
    unfold le in Hle. by destruct (cmp x y).
Qed.

Lemma sorted_lookup l i j x y : Sorted.Sorted le l → i <= j → l !! i = Some x → l !! j = Some y → le x y.
Proof.
  intros Hs Hij Hx Hy. destruct (decide (i = j)) as [->|Hne].
  { unfold le. simplify_eq. by rewrite (proj2 (ord_eq _ _) eq_refl). }
  apply Sorted.Sorted_StronglySorted in Hs; [|apply le_trans]. revert i j Hij Hx Hy Hne.
  induction Hs as [|z l Hs IH Hall]; intros [|i] [|j] Hij Hx Hy Hne; simplify_eq/=; try lia.
  - rewrite Forall_forall in Hall. apply Hall. by eapply list_elem_of_lookup_2.
  - apply (IH i j); [lia|done..|lia].
Qed.

Lemma search_spec l t fuel lo hi : Sorted.Sorted le l → hi - lo < fuel → lo <= hi <= length l →
  (∀ i x, l !! i = Some x → i < lo → cmp x t = Lt) → (∀ i x, l !! i = Some x → hi <= i → cmp x t = Gt) →
  ∃ r, search cmp fuel l t lo hi = Some r ∧ (r = true ↔ t ∈ l).
Proof.
  intros Hs. revert lo hi. induction fuel as [|fuel IH]; intros lo hi Hf Hb Hlo Hhi; [lia|]. simpl.
  assert (∀ x, cmp x x = Eq) as Hrefl by (intros x; by apply ord_eq).
  destruct (Nat.leb_spec hi lo).
  { eexists. split; [done|]. split; [done|]. intros (i & Hi)%list_elem_of_lookup. destruct (decide (i < lo)) as [Hlt|Hge].
    - specialize (Hlo i t Hi Hlt). by rewrite Hrefl in Hlo.
    - specialize (Hhi i t Hi ltac:(lia)). by rewrite Hrefl in Hhi. }
  set (mid := lo + (hi - lo) / 2). assert (lo <= mid < hi) as Hm.
  { subst mid. pose proof (Nat.div_lt (hi - lo) 2 ltac:(lia) ltac:(lia)). lia. }
  destruct (lookup_lt_is_Some_2 l mid) as [x Hx]; [lia|]. rewrite Hx. cbn [mbind option_bind].
  destruct (cmp x t) eqn:E.
  - apply ord_eq in E as ->. eexists. split; [done|]. split; [|done]. intros _. by eapply list_elem_of_lookup_2.
  - apply IH; [lia|lia| |done]. intros i y Hy Hi. pose proof (sorted_lookup l i mid y x Hs ltac:(lia) Hy Hx) as Hyx.
    unfold le in Hyx. destruct (cmp y x) eqn:E2; [apply ord_eq in E2; by subst| |done]. by apply (ord_trans y x t).
  - apply IH; [lia|lia|done|]. intros i y Hy Hi. pose proof (sorted_lookup l mid i x y Hs ltac:(lia) Hx Hy) as Hxy.
    unfold le in Hxy. rewrite ord_flip in E. rewrite ord_flip. destruct (cmp t x) eqn:E3; try done.
    destruct (cmp x y) eqn:E2; [apply ord_eq in E2; subst; by rewrite E3| |done]. by rewrite (ord_trans t x y).
Qed.

Lemma binary_search_spec l t : ascending cmp l = true → ∃ r, binary_search cmp l t = Some r ∧ (r = true ↔ t ∈ l).
Proof.
  intros Hs%ascending_sorted. apply search_spec; [done|lia|lia|lia|]. intros i x Hx Hi. apply lookup_lt_Some in Hx. lia.
Qed.

Lemma sort_insert_perm x l : sort_insert cmp x l ≡ₚ x :: l.
Proof. induction l as [|y l IH]; [done|]. simpl. destruct (cmp x y); [done..|]. rewrite IH. constructor. Qed.

Lemma sort_insert_sorted x l : Sorted.Sorted le l → Sorted.Sorted le (sort_insert cmp x l).
Proof.
  induction l as [|y l IH]; intros Hs; [repeat constructor|]. simpl.
  destruct (cmp x y) eqn:E; [constructor; [done|constructor; unfold le; congruence]..|].
  apply Sorted.Sorted_inv in Hs as [Hs Hy]. constructor; [by apply IH|].
  assert (le y x) as Hyx by (unfold le; rewrite ord_flip, E; done).
  destruct l as [|z l]; simpl; [by constructor|]. inversion Hy; subst. destruct (cmp x z); by constructor.
Qed.

Lemma from_mut_spec l : ascending cmp (from_mut cmp l) = true ∧ from_mut cmp l ≡ₚ l.
Proof.
  rewrite ascending_sorted. induction l as [|x l [IH1 IH2]]; simpl; [split; [constructor|done]|].
  split; [by apply sort_insert_sorted|]. rewrite sort_insert_perm. by rewrite IH2.
Qed.

Lemma slice_member (c : SortedSliceConstraint) : (ss_variable c < 128)%N → ascending cmp (ss_slice c) = true →
  Forall valid (ss_slice c) → NoDup (ss_slice c) →
  member_like (constraint cmp c) (ss_variable c) (to_inline <$> ss_slice c).
Proof.
  intros Hw Hs Hval Hnd. split; simpl; [done|done|by eexists|done| |by apply (written_values valid)|by apply (written_distinct valid)| |].
  - intros f b. unfold propose. by rewrite N.eqb_refl.
  - intros f cands Hc. unfold confirm. rewrite N.eqb_refl.
    set (d := λ t, default false (binary_search cmp (ss_slice c) t)).
    assert (∀ t, binary_search cmp (ss_slice c) t = Some (d t) ∧ (d t = true ↔ t ∈ ss_slice c)) as Hd.
    { intros t. destruct (binary_search_spec (ss_slice c) t Hs) as (r & Hr & Ht). subst d. simpl. by rewrite Hr. }
    set (k := λ v, match try_from_inline v with Some t => d t | None => false end).
    destruct (confirm_live_spec f cands (finds cmp (ss_slice c)) k Hc) as (c' & -> & Hk).
    { intros v _. unfold finds. subst k. simpl. destruct (try_from_inline v); [apply Hd|done]. }
    exists c', k. split_and!; [done..|]. apply (read_verdict valid); [done|]. intros t. apply Hd.
  - intros v f cands Hne. unfold confirm. by rewrite (proj2 (N.eqb_neq _ _)).
Qed.
End slice.

(** ** The keys of a PATCH *)

Section patch.
Context (sip : list N → N) (rand_hash : N → N) {n : nat}.
#[local] Hint Extern 0 PatchHash => exact (XorSip128 sip) : typeclass_instances.
Abbreviation whole := (IdentitySchema n).
#[local] Instance whole_ok : KeySchemaOk n whole := identity_schema_ok n.
Context (Hn : 0 < n) (Hseg : segment_assert (O:=whole) 0 n = Some tt).
Implicit Types p : index.

Lemma whole_infix k : length k = n → key_infix (O:=whole) k 0 n = k.
Proof.
  intros Hl. unfold key_infix, tb, tree_byte. apply list_eq. intros i. rewrite list_lookup_fmap.
  destruct (decide (i < n)).
  - rewrite (lookup_seq_lt 0) by done. cbn [fmap option_fmap option_map Nat.add TREE_TO_KEY IdentitySchema].
    rewrite lookup_seq_lt by done. cbn [mbind option_bind Nat.add].
    destruct (lookup_lt_is_Some_2 k i) as [b ->]; [by rewrite Hl|done].
  - rewrite lookup_seq_ge by lia. symmetry. apply lookup_ge_None_2. lia.
Qed.

(** The keys of [p], in the order [infixes] visits them. *)
Definition patch_keys p : list (list N) := default [] (infixes (KEY_LEN:=n) (H:=XorSip128 sip) (O:=whole) rand_hash p [] n).

Lemma whole_infixes p : patch_ok (H:=XorSip128 sip) (KEY_LEN:=n) (O:=whole) rand_hash tt p →
  infixes (KEY_LEN:=n) (H:=XorSip128 sip) (O:=whole) rand_hash p [] n = Some (patch_keys p) ∧ NoDup (patch_keys p) ∧
  ∀ k, k ∈ patch_keys p ↔ k ∈ dom (to_map tt p).
Proof.
  intros Hp. destruct (infixes_run (KEY_LEN:=n) (H:=XorSip128 sip) (O:=whole) rand_hash tt p [] n Hp Hseg) as (r & Hr & [Hnd Hl] & _).
  unfold patch_keys. rewrite Hr. split_and!; [done..|]. intros k. simpl. rewrite Hl. split.
  - intros (k' & Hk' & _ & ->). rewrite whole_infix; [done|]. by apply (dom_key_ok (H:=XorSip128 sip) (O:=whole) rand_hash tt p k').
  - intros Hk. pose proof (dom_key_ok (H:=XorSip128 sip) (O:=whole) rand_hash tt p k Hp Hk) as Hok. exists k. split_and!; [done| |by rewrite whole_infix by apply Hok].
    unfold tree_prefix. rewrite (tree_ordered_infix (O:=whole)) by done. by eexists.
Qed.

Lemma patch_keys_ok p k : patch_ok (H:=XorSip128 sip) (KEY_LEN:=n) (O:=whole) rand_hash tt p → k ∈ patch_keys p → bytes_ok n k.
Proof. intros Hp Hk. apply key_ok_bytes, (dom_key_ok (H:=XorSip128 sip) (O:=whole) rand_hash tt p k Hp). by apply whole_infixes. Qed.

Lemma whole_prefix p k : patch_ok (H:=XorSip128 sip) (KEY_LEN:=n) (O:=whole) rand_hash tt p → length k = n →
  ∃ r, has_prefix (KEY_LEN:=n) (H:=XorSip128 sip) (O:=whole) rand_hash p k = Some r ∧ (r = true ↔ k ∈ patch_keys p).
Proof.
  intros Hp Hk. destruct (patch_has_prefix_spec (H:=XorSip128 sip) (O:=whole) rand_hash tt p k Hp) as (r & -> & Hr); [lia|].
  exists r. split; [done|]. destruct (whole_infixes p Hp) as (_ & _ & ->). rewrite Hr.
  assert (∀ k', k' ∈ dom (to_map tt p) → tree_ordered (O:=whole) k' = Some k') as Hto.
  { intros k' Hk'. pose proof (dom_key_ok (H:=XorSip128 sip) (O:=whole) rand_hash tt p k' Hp Hk') as Hok. rewrite (tree_ordered_infix (O:=whole)) by done.
    by rewrite whole_infix by apply Hok. }
  split.
  - intros [(k' & Hin & q & Hq & Ht)|[_ ->]]; [|simpl in Hk; lia]. rewrite Hto in Hq by done. injection Hq as <-.
    pose proof (key_len _ _ (dom_key_ok (H:=XorSip128 sip) (O:=whole) rand_hash tt p k' Hp Hin)). rewrite take_ge in Ht by lia. by subst.
  - intros Hin. left. exists k. split; [done|]. exists k. split; [by apply Hto|]. apply take_ge. lia.
Qed.
End patch.

Section patch_constraints.
Context (sip : list N → N) (rand_hash : N → N).
#[local] Hint Extern 0 PatchHash => exact (XorSip128 sip) : typeclass_instances.
Import PatchConstraint.

Lemma value_segment : segment_assert (O:=IdentitySchema INLINE_LEN) 0 INLINE_LEN = Some tt.
Proof. vm_compute. reflexivity. Qed.
Lemma value_pos : 0 < INLINE_LEN.
Proof. vm_compute. lia. Qed.
Lemma id_pos : 0 < ID_LEN.
Proof. vm_compute. lia. Qed.
Lemma id_segment : segment_assert (O:=IdentitySchema ID_LEN) 0 ID_LEN = Some tt.
Proof. vm_compute. reflexivity. Qed.

Lemma patch_value_member (c : PatchValueConstraint) : (pv_variable c < 128)%N →
  patch_ok (H:=XorSip128 sip) (KEY_LEN:=INLINE_LEN) (O:=IdentitySchema INLINE_LEN) rand_hash tt (pv_patch c) →
  member_like (value_constraint sip rand_hash c) (pv_variable c) (patch_keys (n:=INLINE_LEN) sip rand_hash (pv_patch c)).
Proof.
  intros Hw Hp. destruct (whole_infixes sip rand_hash value_pos value_segment _ Hp) as (Hi & Hnd & _).
  split; simpl; [done|done|by eexists|done| | |done| |].
  - intros f b. unfold value_propose. rewrite N.eqb_refl. by apply propose_each_row.
  - apply Forall_forall. intros x Hx. by apply (patch_keys_ok sip rand_hash value_pos value_segment _ _ Hp Hx).
  - intros f cands Hc. unfold value_confirm. rewrite N.eqb_refl.
    set (k := λ v, default false (has_prefix (KEY_LEN:=INLINE_LEN) (H:=XorSip128 sip) (O:=IdentitySchema INLINE_LEN) rand_hash (pv_patch c) v)).
    assert (∀ v, value_ok v → has_prefix (KEY_LEN:=INLINE_LEN) (H:=XorSip128 sip) (O:=IdentitySchema INLINE_LEN) rand_hash (pv_patch c) v = Some (k v) ∧
      (k v = true ↔ v ∈ patch_keys (n:=INLINE_LEN) sip rand_hash (pv_patch c))) as Hk.
    { intros v Hv. destruct (whole_prefix sip rand_hash value_pos value_segment (pv_patch c) v Hp) as (r & Hr & Hiff);
        [apply Hv|]. subst k. simpl. by rewrite Hr. }
    destruct (confirm_live_spec f cands _ k Hc (λ v Hv, proj1 (Hk v Hv))) as (c' & -> & Hkill).
    exists c', k. split_and!; [done..|]. intros x Hx. by apply Hk.
  - intros v f cands Hne. unfold value_confirm. by rewrite (proj2 (N.eqb_neq _ _)).
Qed.

Lemma patch_id_member (c : PatchIdConstraint) : (pi_variable c < 128)%N →
  patch_ok (H:=XorSip128 sip) (KEY_LEN:=ID_LEN) (O:=IdentitySchema ID_LEN) rand_hash tt (pi_patch c) →
  member_like (id_constraint sip rand_hash c) (pi_variable c) (id_into_value <$> patch_keys (n:=ID_LEN) sip rand_hash (pi_patch c)).
Proof.
  intros Hw Hp. destruct (whole_infixes sip rand_hash id_pos id_segment _ Hp) as (Hi & Hnd & _).
  split; simpl; [done|done|by eexists|done| | | | |].
  - intros f b. unfold id_propose. rewrite N.eqb_refl. rewrite Hi. done.
  - apply Forall_fmap, Forall_forall. intros x Hx. by apply id_value_ok, (patch_keys_ok sip rand_hash id_pos id_segment _ _ Hp Hx).
  - apply NoDup_fmap_2; [|done]. intros x y. apply id_into_value_inj.
  - intros f cands Hc. unfold id_confirm. rewrite N.eqb_refl.
    set (k := λ v, match id_from_value v with
      | Some i => default false (has_prefix (KEY_LEN:=ID_LEN) (H:=XorSip128 sip) (O:=IdentitySchema ID_LEN) rand_hash (pi_patch c) i) | None => false end).
    assert (∀ v, value_ok v → id_keeps sip rand_hash (pi_patch c) v = Some (k v) ∧
      (k v = true ↔ v ∈ id_into_value <$> patch_keys (n:=ID_LEN) sip rand_hash (pi_patch c))) as Hk.
    { intros v Hv. unfold id_keeps. subst k. simpl. pose proof (id_from_value_cases v Hv) as Hcs. destruct (id_from_value v) as [i|].
      - destruct Hcs as [-> Hi']. destruct (whole_prefix sip rand_hash id_pos id_segment (pi_patch c) i Hp) as (r & Hr & Hiff);
          [apply Hi'|]. rewrite Hr. split; [done|]. simpl. rewrite Hiff, list_elem_of_fmap. split; [by eexists|].
        by intros (j & ->%id_into_value_inj & ?).
      - split; [done|]. rewrite list_elem_of_fmap. split; [done|]. intros (i & Hvi & Hin). destruct (Hcs i); [|done].
        apply (patch_keys_ok sip rand_hash id_pos id_segment _ _ Hp Hin). }
    destruct (confirm_live_spec f cands _ k Hc (λ v Hv, proj1 (Hk v Hv))) as (c' & -> & Hkill).
    exists c', k. split_and!; [done..|]. intros x Hx. by apply Hk.
  - intros v f cands Hne. unfold id_confirm. by rewrite (proj2 (N.eqb_neq _ _)).
Qed.
End patch_constraints.

(** ** Ranges *)

(** [c] proposes the values [l] for [w], and judges by [inside] alone. *)
Record range_like (c : Constraint) (w : VariableId) (n : N) (l : list RawInline) (inside : RawInline → bool) : Prop := {
  rl_variables : Query.variables c = new_singleton w;
  rl_estimate v b : Query.estimate c v b = Some (if (v =? w)%N then Some n else None);
  rl_propose f b : frontier_ok f → pb_ok b → ∃ b' new, Query.propose c w f b = Some b' ∧ pb_ok b' ∧
    items b' = items b ++ new ∧ tagged_ok f new ∧ ∀ r, r < f_len f → proposed_for new r = l;
  rl_confirm f cands : cands_ok f cands → ∃ c', Query.confirm c w f cands = Some c' ∧
    killed cands (λ i, inside (cand_value cands i)) c';
  rl_other v f b cands : v ≠ w → Query.propose c v f b = Some b ∧ Query.confirm c v f cands = Some cands;
  rl_satisfied b : binding_ok b → Query.satisfied c b = Some (match bval b w with Some x => inside x | None => true end);
}.

Lemma inline_range_like (c : InlineRange.InlineRange) : (InlineRange.ir_variable c < 128)%N →
  range_like (InlineRange.constraint c) (InlineRange.ir_variable c) (2 ^ 64 - 1) []
    (KeySchema.in_range (InlineRange.ir_min c) (InlineRange.ir_max c)).
Proof.
  intros Hw. split; simpl.
  - done.
  - intros v b. unfold InlineRange.estimate. by rewrite N.eqb_sym.
  - intros f b Hf Hb. exists b, []. rewrite app_nil_r. split_and!; [done..| |done]. by intros p x l' ?%elem_of_nil.
  - intros f cands Hc. unfold InlineRange.confirm. rewrite N.eqb_refl. by apply (confirm_live_spec f).
  - intros v f b cands Hne. unfold InlineRange.confirm. by rewrite (proj2 (N.eqb_neq _ _)).
  - intros b Hb. unfold InlineRange.satisfied. by rewrite bval_get.
Qed.

Section ranges.
Context (sip : list N → N) (rand_hash : N → N).
#[local] Hint Extern 0 PatchHash => exact (XorSip128 sip) : typeclass_instances.
Import TribleRange.

(** The first segments of an index in a range, and how many they are. *)
Lemma first_range (O : KeySchema TRIBLE_LEN) `{!KeySchemaOk TRIBLE_LEN O} x y z (p : index) K g lo hi : layout O x y z →
  index_ok (O:=O) sip rand_hash p K g → (∀ k, k ∈ K → bytes_ok TRIBLE_LEN k) → length lo = pos_len x → length hi = pos_len x →
  ∃ l, infixes_range (O:=O) (KEY_LEN:=TRIBLE_LEN) rand_hash p [] (pos_len x) lo hi = Some l ∧
    count_range (O:=O) (KEY_LEN:=TRIBLE_LEN) rand_hash p [] (pos_len x) lo hi = Some (N.of_nat (length l)) ∧
    NoDup l ∧ ∀ s, s ∈ l ↔ KeySchema.in_range lo hi s = true ∧ ∃ k, k ∈ K ∧ at_pos x k = s.
Proof.
  intros Hly Hp HK Hlo Hhi. destruct (list_first O x y z Hly sip rand_hash p K g Hp HK) as (r & Hr & _ & Hnd & Hin).
  destruct (ly_first _ _ _ _ Hly) as [Hs _]. destruct Hp as [Hok _ _].
  exists (filter (λ s, KeySchema.in_range lo hi s = true) r). split_and!.
  - destruct (infixes_range_refines (H:=XorSip128 sip) (O:=O) rand_hash tt p [] (pos_len x) lo hi Hok Hs Hlo Hhi) as (r' & Hr' & ->).
    congruence.
  - by apply (patch_count_range (H:=XorSip128 sip) (O:=O) rand_hash tt).
  - by apply NoDup_filter.
  - intros s. rewrite list_elem_of_filter, Hin. naive_solver.
Qed.

Lemma range_rows (ask : res (list RawInline)) l f b : ask = Some l → frontier_ok f → pb_ok b → Forall value_ok l →
  ∃ b' new, foldM (λ b row, vs ← ask; pb_extend (pb_open b (as_u32 row)) vs) b (seq 0 (f_len f)) = Some b' ∧ pb_ok b' ∧
    items b' = items b ++ new ∧ tagged_ok f new ∧ ∀ r, r < f_len f → proposed_for new r = l.
Proof. intros Hask Hf Hb Hl. rewrite (propose_each_row ask l) by done. by apply propose_rows_spec. Qed.

Lemma value_range_like s w lo hi : ts_ok sip rand_hash s → (w < 128)%N → length lo = INLINE_LEN → length hi = INLINE_LEN →
  ∃ c l, value_new sip rand_hash w lo hi s = Some c ∧ NoDup l ∧
    (∀ x, x ∈ l ↔ KeySchema.in_range lo hi x = true ∧ ∃ k, k ∈ rows sip s ∧ at_pos V k = x) ∧
    range_like (value_constraint sip rand_hash c) w (N.min (N.of_nat (length l)) (2 ^ 64 - 1)) l (KeySchema.in_range lo hi).
Proof.
  intros Hs Hw Hlo Hhi. assert (∀ k, k ∈ rows sip s → bytes_ok TRIBLE_LEN k) as HK by (intros k Hk; by apply (h_rows _ _ _ _ _ Hs)).
  pose proof vea_ok. destruct (first_range VEAOrder V E A (vea s) (rows sip s) _ lo hi vea_layout (h_vea _ _ _ _ _ Hs) HK Hlo Hhi)
    as (l & Hl & Hn & Hnd & Hin).
  unfold value_new. cbn [pos_len] in Hl, Hn. rewrite Hn. cbn [mbind option_bind]. eexists _, l. split; [done|]. split_and!; [done..|].
  assert (Forall value_ok l) as Hval.
  { apply Forall_forall. intros x Hx. apply Hin in Hx as (_ & k & Hk & <-). by apply (at_pos_ok V), HK. }
  split; cbn [Query.variables Query.estimate Query.propose Query.confirm Query.satisfied value_constraint].
  - done.
  - done.
  - intros f b Hf Hb. unfold value_propose. cbn [vr_variable vr_set vr_min vr_max]. rewrite N.eqb_refl. cbn [negb]. by apply range_rows.
  - intros f cands Hc. unfold value_confirm. cbn [vr_variable]. rewrite N.eqb_refl. by apply (retain_values f).
  - intros v f b cands Hne. unfold value_propose, value_confirm. cbn [vr_variable].
    rewrite (proj2 (N.eqb_neq v w)) by done. cbn [negb]. by split.
  - intros b Hb. unfold value_satisfied. cbn [vr_variable vr_min vr_max]. rewrite bval_get by done. by destruct (bval b w).
Qed.

Lemma id_from_into i : bytes_ok ID_LEN i → id_from_value (id_into_value i) = Some i.
Proof. intros Hi. apply id_value_spec; [apply Hi|apply (id_value_ok i Hi)|done]. Qed.

(** An id in the range, as a value. *)
Definition id_inside (lo hi : list N) (v : RawInline) : bool :=
  match id_from_value v with Some i => KeySchema.in_range lo hi i | None => false end.

Lemma id_range_like (O : KeySchema TRIBLE_LEN) `{!KeySchemaOk TRIBLE_LEN O} x y z (axis : TribleSet → index) d :
  layout O x y z → pos_len x = ID_LEN → ts_ok sip rand_hash (dr_set d) →
  index_ok (O:=O) sip rand_hash (axis (dr_set d)) (rows sip (dr_set d)) (powners (eav (dr_set d))) →
  (dr_variable d < 128)%N → length (dr_min d) = ID_LEN → length (dr_max d) = ID_LEN →
  ∃ l, NoDup l ∧
    (∀ v, v ∈ l ↔ id_inside (dr_min d) (dr_max d) v = true ∧
      ∃ k, k ∈ rows sip (dr_set d) ∧ v = id_into_value (at_pos x k)) ∧
    range_like (id_constraint sip rand_hash O axis d) (dr_variable d) (N.min (N.of_nat (length l)) (2 ^ 64 - 1)) l
      (id_inside (dr_min d) (dr_max d)).
Proof.
  intros Hly Hx Hs Hi Hw Hlo Hhi.
  assert (∀ k, k ∈ rows sip (dr_set d) → bytes_ok TRIBLE_LEN k) as HK by (intros k Hk; by apply (h_rows _ _ _ _ _ Hs)).
  assert (∀ k, k ∈ rows sip (dr_set d) → bytes_ok ID_LEN (at_pos x k)) as Hid by (intros k Hk; rewrite <-Hx; by apply at_pos_ok, HK).
  destruct (first_range O x y z _ _ _ (dr_min d) (dr_max d) Hly Hi HK) as (l & Hl & Hn & Hnd & Hin); [by rewrite Hx..|].
  rewrite Hx in Hl, Hn. exists (id_into_value <$> l). split_and!.
  - apply NoDup_fmap_2; [|done]. intros ? ?. apply id_into_value_inj.
  - intros v. rewrite list_elem_of_fmap. unfold id_inside. split.
    + intros (i & -> & (Hr & k & Hk & <-)%Hin). rewrite id_from_into by by apply Hid. split; [done|]. by exists k.
    + intros (Hr & k & Hk & ->). rewrite id_from_into in Hr by by apply Hid. exists (at_pos x k). split; [done|].
      apply Hin. split; [done|]. by exists k.
  - assert (Forall value_ok (id_into_value <$> l)) as Hval.
    { apply Forall_fmap, Forall_forall. intros i Hii. apply Hin in Hii as (_ & k & Hk & <-). by apply id_value_ok, Hid. }
    split; cbn [Query.variables Query.estimate Query.propose Query.confirm Query.satisfied id_constraint].
    + done.
    + intros v b. unfold id_estimate. rewrite Hn. rewrite length_fmap. by destruct (v =? dr_variable d)%N.
    + intros f b Hf Hb. unfold id_propose. rewrite N.eqb_refl, Hl. cbn [negb mbind option_bind]. by apply propose_rows_spec.
    + intros f cands Hc. unfold id_confirm. rewrite N.eqb_refl. by apply (retain_values f).
    + intros v f b cands Hne. unfold id_propose, id_confirm.
      rewrite (proj2 (N.eqb_neq v (dr_variable d))) by done. cbn [negb]. by split.
    + intros b Hb. unfold id_satisfied. rewrite bval_get by done. by destruct (bval b (dr_variable d)).
Qed.
End ranges.

(** ** Properties *)

(** C34. The constraints over a [HashSet], the keys of a [HashMap], a
    [SortedSlice] without repeats — checked, or sorted in place — and a PATCH
    of values or of ids obey the protocol of a conjunction: they propose every
    member once for each row, confirm a candidate exactly if it is a member,
    and answer for their own variable alone. *)
Theorem membership_protocol {T V} `{EqDecision T, InlineCodec T} (valid : T → Prop) `{!InlineCodecOk T valid}
    (cmp : T → T → comparison) `{!OrdOk cmp} sip rand_hash w : (w < 128)%N →
  (∀ l : list T, Forall valid l → NoDup l →
    ConstraintOk (HashSetConstraint.constraint (HashSetConstraint.mkSet w l)) (member_sat w (written l)) (only w)) ∧
  (∀ m : list (T * V), Forall valid m.*1 → NoDup m.*1 →
    ConstraintOk (HashMapConstraint.constraint (HashMapConstraint.mkKeys w m)) (member_sat w (written m.*1)) (only w)) ∧
  (∀ l s : list T, Forall valid l → NoDup l → SortedSlice.new cmp l = Some s ∨ s = SortedSlice.from_mut cmp l →
    ConstraintOk (SortedSlice.constraint cmp (SortedSlice.mkSlice w s)) (member_sat w (written l)) (only w)) ∧
  (∀ p, patch_ok (H:=XorSip128 sip) (KEY_LEN:=INLINE_LEN) (O:=IdentitySchema INLINE_LEN) rand_hash tt p →
    ConstraintOk (PatchConstraint.value_constraint sip rand_hash (PatchConstraint.mkPatchValue w p))
      (member_sat w (λ x, x ∈ dom (to_map (H:=XorSip128 sip) tt p))) (only w)) ∧
  (∀ p, patch_ok (H:=XorSip128 sip) (KEY_LEN:=ID_LEN) (O:=IdentitySchema ID_LEN) rand_hash tt p →
    ConstraintOk (PatchConstraint.id_constraint sip rand_hash (PatchConstraint.mkPatchId w p))
      (member_sat w (λ x, ∃ i, i ∈ dom (to_map (H:=XorSip128 sip) tt p) ∧ x = id_into_value i)) (only w)).
Proof.
  intros Hw. split_and!.
  - intros l Hl Hnd. eapply member_ok; [by apply (hashset_member valid)|]. intros x. apply elem_of_written.
  - intros m Hl Hnd. eapply member_ok; [by apply (hashmap_member valid)|]. intros x. apply elem_of_written.
  - intros l s Hl Hnd Hs. assert (SortedSlice.ascending cmp s = true ∧ s ≡ₚ l) as [Ha Hperm].
    { destruct Hs as [Hs| ->]; [|by apply from_mut_spec]. unfold SortedSlice.new in Hs.
      destruct (SortedSlice.ascending cmp l) eqn:E; by simplify_eq. }
    eapply member_ok; [apply (slice_member valid); simpl; first [done|by rewrite Hperm]|].
    intros x. rewrite elem_of_written. simpl. unfold written. by setoid_rewrite Hperm.
  - intros p Hp. eapply member_ok; [by apply patch_value_member|]. intros x. simpl.
    by apply (whole_infixes sip rand_hash value_pos value_segment).
  - intros p Hp. eapply member_ok; [by apply patch_id_member|]. intros x. simpl. rewrite list_elem_of_fmap.
    destruct (whole_infixes sip rand_hash id_pos id_segment p Hp) as (_ & _ & Hin). naive_solver.
Qed.

(** The range constraints over a trible set propose, for each row, the
    distinct values (entities, attributes) of the set in the inclusive range,
    and their estimate is the number of these; but they confirm, and count as
    satisfied, every value (id) in the range, whether or not it is in the set.
    A plain range confirms alike and proposes nothing.  None ever panics, and
    each refutes a bound value outside its range. *)
Theorem range_constraints_refine sip rand_hash s w (lo hi : RawInline) (elo ehi : list N) :
  ts_ok sip rand_hash s → (w < 128)%N → length lo = INLINE_LEN → length hi = INLINE_LEN →
  length elo = ID_LEN → length ehi = ID_LEN →
  (∃ c l, TribleRange.value_new sip rand_hash w lo hi s = Some c ∧ NoDup l ∧
    (∀ x, x ∈ l ↔ KeySchema.in_range lo hi x = true ∧ ∃ k, k ∈ rows sip s ∧ at_pos V k = x) ∧
    range_like (TribleRange.value_constraint sip rand_hash c) w (N.min (N.of_nat (length l)) (2 ^ 64 - 1)) l
      (KeySchema.in_range lo hi)) ∧
  (∃ l, NoDup l ∧
    (∀ x, x ∈ l ↔ id_inside elo ehi x = true ∧ ∃ k, k ∈ rows sip s ∧ x = id_into_value (at_pos E k)) ∧
    range_like (TribleRange.entity_constraint sip rand_hash (TribleRange.mkIdRange w elo ehi s)) w
      (N.min (N.of_nat (length l)) (2 ^ 64 - 1)) l (id_inside elo ehi)) ∧
  (∃ l, NoDup l ∧
    (∀ x, x ∈ l ↔ id_inside elo ehi x = true ∧ ∃ k, k ∈ rows sip s ∧ x = id_into_value (at_pos A k)) ∧
    range_like (TribleRange.attribute_constraint sip rand_hash (TribleRange.mkIdRange w elo ehi s)) w
      (N.min (N.of_nat (length l)) (2 ^ 64 - 1)) l (id_inside elo ehi)) ∧
  range_like (InlineRange.constraint (InlineRange.mkInlineRange w lo hi)) w (2 ^ 64 - 1) [] (KeySchema.in_range lo hi).
Proof.
  intros Hs Hw Hlo Hhi He1 He2. split_and!.
  - by apply value_range_like.
  - pose proof eav_ok. apply (id_range_like sip rand_hash EAVOrder E A V eav (TribleRange.mkIdRange w elo ehi s));
      [apply eav_layout|done|done|apply Hs|done..].
  - pose proof aev_ok. apply (id_range_like sip rand_hash AEVOrder A E V aev (TribleRange.mkIdRange w elo ehi s));
      [apply aev_layout|done|done|apply Hs|done..].
  - by apply (inline_range_like (InlineRange.mkInlineRange w lo hi)).
Qed.
