(* ===== verification/MembershipExamples.v ===== *)
(** * MembershipExamples: collections in concrete queries

    Ids as the elements; and two queries whose answers do not follow from the
    answers of their parts. *)

From S2P Require Import Prelude Lex VariableSet OwnerCover ByteTable KeySchema PatchHash Branch Head Algebra XorDigest Patch.
From S2P Require Import Machine Trible TribleSet InlineEncodings Examples TribleExamples.
From S2P Require Import Liveness Query Constraints Intersection Union ConstraintExamples.
From S2P Require Import TribleIndex TriblePattern TriblePatternSpec PatternExamples Membership MembershipSpec Engine.

Open Scope nat_scope.

(** ** Ids in collections *)

#[export] Instance IdCodec : InlineCodec Id := {
  to_inline := GenId.encode;
  try_from_inline v := match GenId.try_from_inline v with inr id => Some id | inl _ => None end;
}.
#[export] Instance IdCodec_ok : InlineCodecOk Id id_ok.
Proof.
  split.
  - intros id Hid. apply id_value_ok, raw_ok.
  - intros x id Hx. simpl. rewrite <- (GenId.round_trip x id Hx).
    destruct (GenId.try_from_inline x); naive_solver.
Qed.

Definition ex_id (b : N) : Id := mkId (b * 256 ^ 15).

(** Ids in the order of their integers. *)
Definition ex_cmp (i j : Id) : comparison := (inner i ?= inner j)%N.
#[export] Instance ex_cmp_ok : OrdOk ex_cmp.
Proof.
  unfold ex_cmp. split.
  - intros [x] [y]. simpl. rewrite N.compare_eq_iff. naive_solver.
  - intros x y. apply N.compare_antisym.
  - intros x y z. rewrite !N.compare_lt_iff. lia.
Qed.

(** All rows of a query, by [next]. *)
Fixpoint collect (c : Constraint) (n fuel : nat) (q : Query) : res (list Binding) :=
  match n with
  | 0 => None
  | S n =>
      '(o, q) ← next c (λ _, true) (λ _, false) Some fuel q;
      match o with
      | None => Some []
      | Some b => rest ← collect c n fuel q; Some (b :: rest)
      end
  end.
(** The last bytes of the values of a row. *)
Definition last_bytes (vars : list N) (b : Binding) : list N := omap (λ v, o ← bval b v; last (o : list N)) vars.
Definition answer (c : Constraint) (vars : list N) : res (list (list N)) :=
  q ← Engine.new c; bs ← collect c 20 200 q; Some (last_bytes vars <$> (bs : list Binding)).

(** ** A disjunction of conjunctions *)

Definition ex_arm (x y : N) : Constraint :=
  Intersection.constraint ex_sort
    (HashSetConstraint.constraint <$> [HashSetConstraint.mkSet 0 [ex_id x]; HashSetConstraint.mkSet 1 [ex_id y]]).
Definition ex_arms : list Constraint := [ex_arm 7 8; ex_arm 9 10].

(** ** A range over a set *)

Definition ex_range (lo hi : N) : Constraint :=
  match TribleRange.value_new ex_sip64 ex_rand 0 (ex_value lo) (ex_value hi) ex_s with
  | Some c => TribleRange.value_constraint ex_sip64 ex_rand c
  | None => Intersection.constraint ex_sort []
  end.
Definition ex_has (xs : list N) : Constraint := HashSetConstraint.constraint (HashSetConstraint.mkSet 0 (ex_id <$> xs)).

(** ** Witnesses *)

Lemma ex_id_ok b : (0 < b < 256)%N → id_ok (ex_id b).
Proof.
  intros Hb. unfold id_ok, ex_id. cbn [inner]. change (256 ^ N.of_nat ID_LEN)%N with (256 * 256 ^ 15)%N.
  assert (0 < 256 ^ 15)%N by done. nia.
Qed.

(** The PATCH of no key and the index of the set are well formed. *)
Lemma membership_protocol_witness :
  ConstraintOk (HashSetConstraint.constraint (HashSetConstraint.mkSet 5 [ex_id 7; ex_id 9]))
    (member_sat 5 (written [ex_id 7; ex_id 9])) (only 5) ∧
  SortedSlice.new ex_cmp [ex_id 9; ex_id 7] = None ∧
  SortedSlice.from_mut ex_cmp [ex_id 9; ex_id 7] = [ex_id 7; ex_id 9] ∧
  ConstraintOk (SortedSlice.constraint ex_cmp (SortedSlice.mkSlice 5 [ex_id 7; ex_id 9]))
    (member_sat 5 (written [ex_id 9; ex_id 7])) (only 5) ∧
  answer (ex_has [7; 9]%N) [0]%N = Some [[7]; [9]]%N.
Proof.
  destruct (membership_protocol (V:=unit) id_ok ex_cmp ex_sip64 ex_rand 5%N eq_refl) as (Hset & _ & Hslice & _).
  assert (∀ x y, (0 < x < 256)%N → (0 < y < 256)%N → x ≠ y → Forall id_ok [ex_id x; ex_id y] ∧ NoDup [ex_id x; ex_id y]) as Hl.
  { intros x y Hx Hy Hxy. split; [repeat (apply Forall_cons; split; [by apply ex_id_ok|]); constructor|]. apply NoDup_cons. split; [|apply NoDup_singleton].
    rewrite list_elem_of_singleton. intros [=E]. lia. }
  split_and!; [|vm_compute; reflexivity|vm_compute; reflexivity| |vm_compute; reflexivity].
  - apply Hset; apply Hl; lia.
  - apply Hslice; [apply Hl; lia|apply Hl; lia|]. right. vm_compute. reflexivity.
Defined.

Lemma range_constraints_refine_witness :
  (∃ c l, TribleRange.value_new ex_sip64 ex_rand 0 (ex_value 10) (ex_value 50) ex_s = Some c ∧ NoDup l ∧
    (∀ x, x ∈ l ↔ KeySchema.in_range (ex_value 10) (ex_value 50) x = true ∧ ∃ k, k ∈ rows ex_sip64 ex_s ∧ at_pos V k = x) ∧
    range_like (TribleRange.value_constraint ex_sip64 ex_rand c) 0 (N.min (N.of_nat (length l)) (2 ^ 64 - 1)) l
      (KeySchema.in_range (ex_value 10) (ex_value 50))) ∧
  answer (ex_range 10 50) [0]%N = Some [[20]]%N.
Proof.
  split; [|vm_compute; reflexivity].
  apply (range_constraints_refine ex_sip64 ex_rand ex_s 0 (ex_value 10) (ex_value 50) (replicate 16 0%N) (replicate 16 9%N));
    [apply ex_s_ok|reflexivity..].
Defined.

(** ** Properties *)

(** A disjunction of conjunctions of set memberships answers rows that no
    arm allows: [or!(and!({7}.has(x), {8}.has(y)), and!({9}.has(x), {10}.has(y)))]
    has four rows, although each arm alone has its one.  Once [x] is bound, the
    arm it contradicts still counts as satisfied and contributes its [y]. *)
Theorem union_leak :
  Union.new ex_arms = Some ex_arms ∧
  answer (ex_arm 7 8) [0; 1]%N = Some [[7; 8]]%N ∧ answer (ex_arm 9 10) [0; 1]%N = Some [[9; 10]]%N ∧
  answer (Union.constraint ex_arms) [0; 1]%N = Some [[7; 8]; [9; 8]; [7; 10]; [9; 10]]%N.
Proof. split_and!; [reflexivity|vm_compute; reflexivity..]. Qed.

(** The answer of [and!(xs.has(v), set.value_in_range(v, min, max))] depends
    on which side proposes: 30 is in the range 10..50 but not a value of the set;
    it is an answer for the collection 30, and none once 31 joins it. *)
Theorem range_disagrees :
  ¬ (∃ k, k ∈ rows ex_sip64 ex_s ∧ at_pos V k = ex_value 30) ∧
  answer (Intersection.constraint ex_sort [ex_has [30]%N; ex_range 10 50]) [0]%N = Some [[30]]%N ∧
  answer (Intersection.constraint ex_sort [ex_has [30; 31]%N; ex_range 10 50]) [0]%N = Some [].
Proof.
  split_and!; [|vm_compute; reflexivity..]. intros (k & Hk & Hv).
  assert (Forall (λ k, at_pos V k ≠ ex_value 30) (base.elements (rows ex_sip64 ex_s))) as Hall by (apply (bool_decide_unpack _); vm_compute; exact I).
  rewrite Forall_forall in Hall. by apply (Hall k); [apply base.elem_of_elements|].
Qed.
