(* ===== verification/ROrd256.v ===== *)
(** * ROrd256: rationals whose bytes sort in numeric order

    Source: [triblespace-core/src/inline/encodings/rord256.rs].

    A rational is written as its continued fraction, each term in a prefix-free
    code that preserves the order, complemented at odd positions, and closed by
    a terminator that fills the 256 bits.  The integers [i128], [u128] and [u64]
    are [Z]; checked operations are written out, and the theorems show that the
    unchecked ones stay in range.  The two loops over terms run on fuel: every
    term takes a bit, so 257 rounds are enough. *)

From S2P Require Import Prelude Lex KeySchema Trible.

Open Scope nat_scope.

Inductive OrderedRatioError := OutOfDomain | ZeroDenominator | NonCanonical | Overflow.
Abbreviation result A := (sum OrderedRatioError A).

Definition INLINE_BITS : nat := 256.

(** ** Machine integers *)

Definition in_i128 (z : Z) : bool := (- 2 ^ 127 <=? z)%Z && (z <? 2 ^ 127)%Z.
Definition checked (z : Z) : option Z := if in_i128 z then Some z else None.
Definition checked_neg (z : Z) : option Z := checked (- z).
Definition checked_mul (a b : Z) : option Z := checked (a * b).
Definition checked_add (a b : Z) : option Z := checked (a + b).
Definition div_euclid (a b : Z) : Z := if (0 <? b)%Z then (a / b)%Z else (- (a / - b))%Z.
Definition rem_euclid (a b : Z) : Z := (a mod Z.abs b)%Z.
Definition leading_zeros (m : Z) : Z := if (m =? 0)%Z then 128%Z else (127 - Z.log2 m)%Z.
Definition as_u64 (z : Z) : Z := (z mod 2 ^ 64)%Z.

(** ** Bits *)

Record BitWriter := mkWriter { w_buf : list N; w_pos : nat }.

Definition writer_new : BitWriter := mkWriter (replicate 32 0%N) 0.

Definition push (w : BitWriter) (bit : bool) : result BitWriter :=
  if INLINE_BITS <=? w_pos w then inl OutOfDomain else
  let buf := if bit then alter (N.lor (N.shiftr 128 (N.of_nat (w_pos w mod 8)))) (w_pos w / 8) (w_buf w) else w_buf w in
  inr (mkWriter buf (S (w_pos w))).

(** The [for] loops of [push_term]. *)
Fixpoint push_ones (n : nat) (w : BitWriter) (invert : bool) : result BitWriter :=
  match n with
  | 0 => inr w
  | S n => w ←? push w (negb invert); push_ones n w invert
  end.
Fixpoint push_low (i : nat) (m : Z) (w : BitWriter) (invert : bool) : result BitWriter :=
  match i with
  | 0 => inr w
  | S i => w ←? push w (xorb (Z.land (Z.shiftr m (Z.of_nat i)) 1 =? 1)%Z invert); push_low i m w invert
  end.

Definition push_term (w : BitWriter) (m : Z) (invert : bool) : result BitWriter :=
  let k := Z.to_nat (127 - leading_zeros m) in
  w ←? push_ones k w invert; w ←? push w invert; push_low k m w invert.

(** [let _ = self.push(true)]: an error would leave the writer as it is. *)
Fixpoint fill_ones (n : nat) (w : BitWriter) : BitWriter :=
  match n with
  | 0 => w
  | S n => fill_ones n (match push w true with inr w' => w' | inl _ => w end)
  end.
Definition finish (w : BitWriter) (pad : bool) : list N :=
  w_buf (if pad then fill_ones (INLINE_BITS - w_pos w) w else w).

Record BitReader := mkReader { r_buf : list N; r_pos : nat }.

Definition bit_at (buf : list N) (p : nat) : bool :=
  negb (N.land (nth (p / 8) buf 0%N) (N.shiftr 128 (N.of_nat (p mod 8))) =? 0)%N.

Definition next_bit (r : BitReader) : result (bool * BitReader) :=
  if INLINE_BITS <=? r_pos r then inl NonCanonical else
  inr (bit_at (r_buf r) (r_pos r), mkReader (r_buf r) (S (r_pos r))).

(** The first loop of [rest_is], up to a byte boundary, and the second. *)
Fixpoint rest_bits (n : nat) (buf : list N) (p : nat) (v : bool) : option nat :=
  match n with
  | 0 => Some p
  | S n =>
      if (p <? INLINE_BITS) && negb (p mod 8 =? 0) then
        if negb (Bool.eqb (bit_at buf p) v) then None else rest_bits n buf (S p) v
      else Some p
  end.
Fixpoint rest_bytes (n : nat) (buf : list N) (p : nat) (fill : N) : bool :=
  match n with
  | 0 => true
  | S n =>
      if p <? INLINE_BITS then
        if negb (nth (p / 8) buf 0%N =? fill)%N then false else rest_bytes n buf (p + 8) fill
      else true
  end.
Definition rest_is (r : BitReader) (v : bool) : bool :=
  let fill := if v then 255%N else 0%N in
  match rest_bits 8 (r_buf r) (r_pos r) v with
  | None => false
  | Some p => rest_bytes 33 (r_buf r) p fill
  end.

(** The leading ones of a term code: at most 127. *)
Fixpoint count_ones (n : nat) (r : BitReader) (invert : bool) (k : nat) : result (nat * BitReader) :=
  match n with
  | 0 => inl NonCanonical
  | S n =>
      '(b, r) ←? next_bit r;
      if xorb b invert then
        if 127 <? S k then inl NonCanonical else count_ones n r invert (S k)
      else inr (k, r)
  end.
Fixpoint read_low (k : nat) (m : Z) (r : BitReader) (invert : bool) : result (Z * BitReader) :=
  match k with
  | 0 => inr (m, r)
  | S k => '(b, r) ←? next_bit r; read_low k (Z.lor (Z.shiftl m 1) (Z.b2z (xorb b invert))) r invert
  end.
Definition next_term (r : BitReader) (invert : bool) : result (Z * BitReader) :=
  '(k, r) ←? count_ones 129 r invert 0; read_low k 1 r invert.

(** ** Encoding *)

Definition odd_pos (position : nat) : bool := (position mod 2 =? 1).
Definition even_pos (position : nat) : bool := (position mod 2 =? 0).

(** The loop on 64-bit remainders. *)
Fixpoint small_terms (fuel : nat) (n d : Z) (position : nat) (w : BitWriter) : res (result (list N)) :=
  match fuel with
  | 0 => None
  | S fuel =>
      let a := (n / d)%Z in
      match push_term w a (odd_pos position) with
      | inl err => Some (inl err)
      | inr w =>
          let r := (n - a * d)%Z in
          if (r =? 0)%Z then Some (inr (finish w (even_pos (S position))))
          else small_terms fuel d r (S position) w
      end
  end.

(** [while rem != 0]; [num] is the previous [den]. *)
Fixpoint encode_terms (fuel : nat) (den rem : Z) (position : nat) (w : BitWriter) : res (result (list N)) :=
  match fuel with
  | 0 => None
  | S fuel' =>
      if (rem =? 0)%Z then Some (inr (finish w (even_pos position))) else
      let num := den in
      let den := rem in
      if (0 <=? num)%Z && (num <? 2 ^ 64)%Z then small_terms fuel num (as_u64 den) position w else
      let a := (num / den)%Z in
      match push_term w a (odd_pos position) with
      | inl err => Some (inl err)
      | inr w => encode_terms fuel' den (num - a * den)%Z (S position) w
      end
  end.

Definition encode_parts (numer denom : Z) : res (result (list N)) :=
  if (denom =? 0)%Z then Some (inl ZeroDenominator) else
  match (if (denom <? 0)%Z then
           match checked_neg numer, checked_neg denom with Some n, Some d => Some (n, d) | _, _ => None end
         else Some (numer, denom)) with
  | None => Some (inl OutOfDomain)
  | Some (num, den) =>
      let a0 := div_euclid num den in
      let rem := rem_euclid num den in
      match (if (0 <=? a0)%Z then w ←? push writer_new true; push_term w (a0 + 1)%Z false
             else w ←? push writer_new false; push_term w (Z.abs a0) true) with
      | inl err => Some (inl err)
      | inr w => encode_terms 258 den rem 1 w
      end
  end.

(** ** Decoding *)

Definition LIMIT : Z := (2 ^ 127)%Z.

Definition decode_first (r : BitReader) : result (Z * BitReader) :=
  '(b, r) ←? next_bit r;
  if (b : bool) then
    '(m, r) ←? next_term r false;
    if (LIMIT <? m)%Z then inl Overflow else inr ((m - 1)%Z, r)
  else
    '(m, r) ←? next_term r true;
    if (LIMIT <? m)%Z then inl Overflow else inr (if (m =? LIMIT)%Z then (- 2 ^ 127)%Z else (- m)%Z, r).

Definition cf_step (a x1 x2 : Z) : result Z :=
  match (match checked_mul a x1 with Some v => checked_add v x2 | None => None end) with
  | Some v => inr v
  | None => inl Overflow
  end.

Fixpoint decode_terms (fuel : nat) (r : BitReader) (position : nat) (p1 p2 q1 q2 : Z) (last : option Z)
    : res (result (Z * Z)) :=
  match fuel with
  | 0 => None
  | S fuel =>
      let invert := odd_pos position in
      if rest_is r (negb invert) then
        Some (if decide (last = Some 1%Z) then inl NonCanonical else inr (p1, q1))
      else
        match (
          '(m, r) ←? next_term r invert;
          a ←? (match checked m with Some a => inr a | None => inl Overflow end);
          p ←? cf_step a p1 p2;
          q ←? cf_step a q1 q2;
          inr (a, r, p, q)) with
        | inl err => Some (inl err)
        | inr (a, r, p, q) => decode_terms fuel r (S position) p p1 q q1 (Some a)
        end
  end.

Definition decode_parts (raw : list N) : res (result (Z * Z)) :=
  match (
    '(a0, r) ←? decode_first (mkReader raw 0);
    p ←? cf_step a0 1 0;
    q ←? cf_step a0 0 1;
    inr (r, p, q)) with
  | inl err => Some (inl err)
  | inr (r, p, q) => decode_terms 258 r 1 p 1 q 0 None
  end.

(** [InlineEncoding::validate]. *)
Definition validate (raw : list N) : res (result (list N)) :=
  o ← decode_parts raw; Some (_ ←? o; inr raw).

(** ** Conversions *)

(** [Encodes<i128>]: "every i128 integer fits", or a panic. *)
Definition encode (source : Z) : res (list N) :=
  o ← encode_parts source 1; match o with inr raw => Some raw | inl _ => None end.

(** [TryToInline] and [TryFromInline] for [Ratio<i128>], a numerator and a
    denominator. *)
Definition try_to_inline (ratio : Z * Z) : res (result (list N)) := encode_parts ratio.1 ratio.2.
Definition try_from_inline (v : list N) : res (result (Z * Z)) := decode_parts v.
