(* ===== verification/ROrd256Spec.v ===== *)
(** * ROrd256Spec: the ordered rational encoding is exact, canonical and monotone

    The writer and the reader are lists of bits; the encoder writes the terms of
    Euclid's algorithm, and the decoder computes their continuants. *)

From S2P Require Import Prelude Lex KeySchema Trible ROrd256.

Open Scope nat_scope.

(** ** Single bits *)

Definition bits (buf : list N) : list bool := bit_at buf <$> seq 0 INLINE_BITS.

Lemma shift_128 j : j < 8 → N.shiftr 128 (N.of_nat j) = (2 ^ N.of_nat (7 - j))%N.
Proof. intros Hj. do 8 (destruct j as [|j]; [done|]). lia. Qed.

Lemma bit_at_testbit buf p : bit_at buf p = N.testbit (nth (p / 8) buf 0%N) (N.of_nat (7 - p mod 8)).
Proof.
  unfold bit_at. pose proof (Nat.mod_upper_bound p 8 ltac:(lia)). rewrite shift_128 by done.
  set (x := nth _ _ _). set (j := N.of_nat _). apply eq_iff_eq_true. rewrite negb_true_iff, N.eqb_neq. split.
  - intros Hne. destruct (N.testbit x j) eqn:E; [done|]. destruct Hne. apply N.bits_inj_0. intros i.
    rewrite N.land_spec. destruct (decide (i = j)) as [->|Hij]; [by rewrite E|].
    by rewrite N.pow2_bits_false, andb_false_r by done.
  - intros E H0. apply (f_equal (λ y, N.testbit y j)) in H0. rewrite N.land_spec, E, N.pow2_bits_true, N.bits_0 in H0. done.
Qed.

Lemma nth_alter f i j (l : list N) : nth i (alter f j l) 0%N =
  if decide (i = j ∧ j < length l) then f (nth j l 0%N) else nth i l 0%N.
Proof.
  destruct (decide (i = j)) as [->|Hne].
  - destruct (decide (j < length l)) as [Hlt|Hge].
    + rewrite decide_True by done. rewrite !nth_lookup, list_lookup_alter, decide_True by done.
      by destruct (lookup_lt_is_Some_2 l j Hlt) as [x ->].
    + rewrite decide_False by naive_solver. rewrite !nth_lookup, list_lookup_alter, decide_True by done.
      by rewrite lookup_ge_None_2 by lia.
  - rewrite decide_False by naive_solver. by rewrite !nth_lookup, list_lookup_alter_ne.
Qed.

Lemma set_bit_at buf q p : length buf = 32 → q < 256 →
  bit_at (alter (N.lor (N.shiftr 128 (N.of_nat (q mod 8)))) (q / 8) buf) p = if decide (p = q) then true else bit_at buf p.
Proof.
  intros Hl Hq. rewrite !bit_at_testbit, nth_alter.
  pose proof (Nat.mod_upper_bound p 8 ltac:(lia)). pose proof (Nat.mod_upper_bound q 8 ltac:(lia)).
  pose proof (Nat.div_mod_eq p 8). pose proof (Nat.div_mod_eq q 8).
  assert (q / 8 < 32) by (apply Nat.Div0.div_lt_upper_bound; lia).
  rewrite shift_128 by done. destruct (decide (p / 8 = q / 8 ∧ q / 8 < length buf)) as [[E _]|Hne].
  - rewrite N.lor_spec, E. destruct (decide (p = q)) as [->|Hpq].
    + by rewrite N.pow2_bits_true.
    + rewrite N.pow2_bits_false by lia. done.
  - rewrite decide_False; [done|]. intros ->. apply Hne. lia.
Qed.

Lemma lookup_bits buf p : p < 256 → bits buf !! p = Some (bit_at buf p).
Proof. intros Hp. unfold bits. rewrite list_lookup_fmap, lookup_seq_lt by done. done. Qed.

Lemma bits_length buf : length (bits buf) = 256.
Proof. unfold bits. by rewrite length_fmap, length_seq. Qed.

Lemma lor_bound n a b : (a < 2 ^ n)%N → (b < 2 ^ n)%N → (N.lor a b < 2 ^ n)%N.
Proof. rewrite !lt_pow2_testbit. intros Ha Hb i Hi. by rewrite N.lor_spec, Ha, Hb. Qed.

(** ** The writer *)

(** The writer holds [bs], and zeros from there. *)
Record wrote (w : BitWriter) (bs : list bool) : Prop := {
  wr_len : bytes_ok 32 (w_buf w);
  wr_pos : w_pos w = length bs;
  wr_fit : length bs <= 256;
  wr_bits : ∀ p, p < 256 → bit_at (w_buf w) p = nth p bs false;
}.

Lemma wrote_new : wrote writer_new [].
Proof.
  split; [|done|simpl; lia|].
  - split; [done|]. change (w_buf writer_new) with (replicate 32 0%N). by apply Forall_replicate.
  - intros p Hp. rewrite bit_at_testbit. change (w_buf writer_new) with (replicate 32 0%N).
    rewrite nth_lookup. destruct (replicate 32 0%N !! (p / 8)) as [x|] eqn:E; simpl; [|by destruct p].
    apply lookup_replicate in E as [-> _]. rewrite N.bits_0. by destruct p.
Qed.

Lemma push_wrote w bs b : wrote w bs →
  if decide (length bs < 256) then ∃ w', push w b = inr w' ∧ wrote w' (bs ++ [b]) else push w b = inl OutOfDomain.
Proof.
  intros [[Hlen Hby] Hpos Hfit Hbits]. unfold push, INLINE_BITS. rewrite Hpos.
  case_decide as Hlt; [|by rewrite (proj2 (Nat.leb_le _ _)) by lia]. rewrite (proj2 (Nat.leb_gt _ _)) by lia.
  eexists. split; [done|]. split; cbn [w_buf w_pos].
  - destruct b; [|done]. split; [by rewrite length_alter|]. apply Forall_alter; [done|]. intros x Hx Hx'.
    assert (N.shiftr 128 (N.of_nat (length bs mod 8)) < 2 ^ 8)%N.
    { rewrite shift_128 by (apply Nat.mod_upper_bound; lia). apply N.pow_lt_mono_r; lia. }
    change 256%N with (2 ^ 8)%N. apply lor_bound; [done|done].
  - rewrite length_app. simpl. lia.
  - rewrite length_app. simpl. lia.
  - intros p Hp. assert (∀ p, nth p (bs ++ [b]) false = if decide (p = length bs) then b else nth p bs false) as ->.
    { intros q. destruct (decide (q = length bs)) as [->|Hne].
      - rewrite app_nth2, Nat.sub_diag by lia. done.
      - destruct (decide (q < length bs)); [by rewrite app_nth1|]. rewrite !nth_overflow; [done|lia|].
        rewrite length_app. simpl. lia. }
    destruct b.
    + rewrite set_bit_at by done. by rewrite Hbits.
    + rewrite Hbits by done. case_decide as E; [|done]. subst p. by rewrite nth_overflow by lia.
Qed.

(** [F] appends [l], or fails because it does not fit. *)
Definition writes (F : BitWriter → result BitWriter) (l : list bool) : Prop := ∀ w bs, wrote w bs →
  if decide (length bs + length l <= 256) then ∃ w', F w = inr w' ∧ wrote w' (bs ++ l) else F w = inl OutOfDomain.

Lemma writes_nil : writes inr [].
Proof. intros w bs Hw. pose proof (wr_fit _ _ Hw). rewrite decide_True by (simpl; lia). exists w. by rewrite app_nil_r. Qed.

Lemma writes_push b : writes (λ w, push w b) [b].
Proof.
  intros w bs Hw. pose proof (push_wrote w bs b Hw) as H. simpl. case_decide; case_decide; [done|lia|lia|done].
Qed.

Lemma writes_app F G l l' : writes F l → writes G l' → writes (λ w, w ←? F w; G w) (l ++ l').
Proof.
  intros HF HG w bs Hw. specialize (HF w bs Hw). rewrite length_app.
  destruct (decide (length bs + length l <= 256)) as [H1|H1].
  - destruct HF as (w1 & -> & Hw1). specialize (HG w1 _ Hw1). rewrite length_app, <-Nat.add_assoc in HG. by rewrite app_assoc.
  - rewrite decide_False by lia. by rewrite HF.
Qed.

(** The bits of [m] below [k], the highest first. *)
Fixpoint low (k : nat) (m : Z) : list bool :=
  match k with 0 => [] | S k => Z.testbit m (Z.of_nat k) :: low k m end.
Definition width (m : Z) : nat := Z.to_nat (Z.log2 m).
Definition tcode (m : Z) : list bool := replicate (width m) true ++ false :: low (width m) m.
Definition code (invert : bool) (m : Z) : list bool := xorb invert <$> tcode m.

Lemma low_length k m : length (low k m) = k.
Proof. induction k; simpl; auto. Qed.
Lemma code_length i m : length (code i m) = 2 * width m + 1.
Proof. unfold code, tcode. rewrite length_fmap, length_app, length_replicate. simpl. rewrite low_length. lia. Qed.

Lemma width_leading m : (0 < m < 2 ^ 128)%Z → Z.to_nat (127 - leading_zeros m) = width m.
Proof. intros Hm. unfold leading_zeros, width. rewrite (proj2 (Z.eqb_neq _ _)) by lia. f_equal. lia. Qed.

Lemma low_bit m i : (Z.land (Z.shiftr m (Z.of_nat i)) 1 =? 1)%Z = Z.testbit m (Z.of_nat i).
Proof.
  rewrite (Z.land_ones _ 1) by lia. rewrite <-Z.bit0_mod, Z.shiftr_spec by lia. rewrite Z.add_0_l.
  by destruct (Z.testbit m (Z.of_nat i)).
Qed.

Lemma writes_term m i : (0 < m < 2 ^ 128)%Z → writes (λ w, push_term w m i) (code i m).
Proof.
  intros Hm. unfold push_term. rewrite width_leading by done. unfold code, tcode. rewrite fmap_app, fmap_cons.
  assert (∀ k, writes (λ w, push_ones k w i) (xorb i <$> replicate k true)) as H1.
  { induction k as [|k IH]; [apply writes_nil|]. simpl. rewrite xorb_true_r. apply (writes_app _ _ [_] _ (writes_push _) IH). }
  assert (∀ k, writes (λ w, push_low k m w i) (xorb i <$> low k m)) as H2.
  { induction k as [|k IH]; [apply writes_nil|]. simpl. rewrite low_bit, xorb_comm. apply (writes_app _ _ [_] _ (writes_push _) IH). }
  apply writes_app; [apply H1|]. rewrite xorb_false_r. apply (writes_app _ _ [_] _ (writes_push _)), H2.
Qed.

(** [bs], and the terminator up to the end. *)
Definition padded (bs : list bool) (pad : bool) : list bool := bs ++ replicate (256 - length bs) pad.

Lemma wrote_bits w bs : wrote w bs → bits (w_buf w) = padded bs false.
Proof.
  intros [_ _ Hfit Hb]. unfold padded. apply list_eq. intros p. destruct (decide (p < 256)) as [Hp|Hp].
  - rewrite lookup_bits, Hb by done. destruct (decide (p < length bs)).
    + rewrite lookup_app_l by done. destruct (lookup_lt_is_Some_2 bs p) as [b Hlb]; [done|]. rewrite Hlb, nth_lookup, Hlb. done.
    + rewrite nth_overflow, lookup_app_r, lookup_replicate_2 by lia. done.
  - rewrite !lookup_ge_None_2; [done| |by rewrite bits_length; lia]. rewrite length_app, length_replicate. lia.
Qed.

Lemma finish_spec w bs pad : wrote w bs → bytes_ok 32 (finish w pad) ∧ bits (finish w pad) = padded bs pad.
Proof.
  intros Hw. unfold finish. destruct pad; [|split; [apply Hw|by apply wrote_bits]].
  assert (∀ n w bs, wrote w bs → length bs + n <= 256 → wrote (fill_ones n w) (bs ++ replicate n true)) as Hfill.
  { induction n as [|n IH]; intros w0 bs0 Hw0 Hn; simpl; [by rewrite app_nil_r|].
    pose proof (push_wrote w0 bs0 true Hw0) as Hp. rewrite decide_True in Hp by lia. destruct Hp as (w1 & -> & Hw1).
    specialize (IH w1 _ Hw1). rewrite length_app, <-app_assoc in IH. apply IH. simpl. lia. }
  pose proof (wr_fit _ _ Hw). rewrite (wr_pos _ _ Hw). unfold INLINE_BITS.
  specialize (Hfill (256 - length bs) w bs Hw ltac:(lia)). split; [apply Hfill|].
  rewrite (wrote_bits _ _ Hfill). unfold padded. rewrite length_app, length_replicate.
  replace (256 - (length bs + (256 - length bs))) with 0 by lia. by rewrite app_nil_r.
Qed.

(** ** Continued fractions *)

(** The terms of [n / d] by Euclid's algorithm. *)
Inductive euclid : Z → Z → list Z → Prop :=
  | euclid_end n : euclid n 0 []
  | euclid_step n d ts : (0 < d)%Z → euclid d (n mod d) ts → euclid n d ((n / d)%Z :: ts).

Lemma euclid_exists n d : (0 <= d)%Z → ∃ ts, euclid n d ts.
Proof.
  intros Hd. revert n. induction d as [d IH] using (well_founded_induction (Z.lt_wf 0)). intros n.
  destruct (decide (d = 0%Z)) as [->|Hne]; [exists []; constructor|].
  pose proof (Z.mod_pos_bound n d ltac:(lia)). destruct (IH (n mod d)%Z ltac:(lia) ltac:(lia) d) as [ts Hts].
  exists ((n / d)%Z :: ts). constructor; [lia|done].
Qed.

Lemma euclid_det n d ts ts' : euclid n d ts → euclid n d ts' → ts = ts'.
Proof.
  intros H. revert ts'. induction H as [n|n d ts Hd _ IH]; intros ts' H'; inversion H'; subst; try lia; [done|].
  f_equal. by apply IH.
Qed.

Fixpoint codes (position : nat) (ts : list Z) : list bool :=
  match ts with
  | [] => []
  | t :: ts => code (odd_pos position) t ++ codes (S position) ts
  end.

(** What the encoder answers once [bs] is written and the terms [ts] remain. *)
Definition encodes (bs : list bool) (position : nat) (ts : list Z) (o : result (list N)) : Prop :=
  let all := bs ++ codes position ts in
  if decide (length all <= 256) then
    ∃ raw, o = inr raw ∧ bytes_ok 32 raw ∧ bits raw = padded all (even_pos (position + length ts))
  else o = inl OutOfDomain.

Lemma encodes_end w bs position : wrote w bs → encodes bs position [] (inr (finish w (even_pos position))).
Proof.
  intros Hw. unfold encodes. simpl. rewrite app_nil_r, Nat.add_0_r. rewrite decide_True by apply (wr_fit _ _ Hw).
  destruct (finish_spec w bs (even_pos position) Hw). by eexists.
Qed.

(** One term: the writer fails, or the rest decides. *)
Lemma encodes_term w bs position t ts (k : BitWriter → res (result (list N))) : wrote w bs → (0 < t < 2 ^ 128)%Z →
  (∀ w', wrote w' (bs ++ code (odd_pos position) t) →
    ∃ o, k w' = Some o ∧ encodes (bs ++ code (odd_pos position) t) (S position) ts o) →
  ∃ o, match push_term w t (odd_pos position) with inl err => Some (inl err) | inr w => k w end = Some o ∧
    encodes bs position (t :: ts) o.
Proof.
  intros Hw Ht Hk. pose proof (writes_term t (odd_pos position) Ht w bs Hw) as Hp. destruct (decide _) as [Hfit|Hfit].
  - destruct Hp as (w' & -> & Hw'). destruct (Hk w' Hw') as (o & Ho & He). exists o. split; [done|].
    unfold encodes in *. simpl. rewrite app_assoc. replace (position + S (length ts)) with (S position + length ts) by lia. done.
  - rewrite Hp. eexists. split; [done|]. unfold encodes. rewrite decide_False; [done|]. simpl. rewrite !length_app. lia.
Qed.

Lemma code_grows bs i t : length bs < length (bs ++ code i t).
Proof. rewrite length_app, code_length. lia. Qed.

Lemma quotient_range n d : (0 < d < n)%Z → (n < 2 ^ 127)%Z → (0 < n / d < 2 ^ 128)%Z.
Proof.
  intros Hd Hn. pose proof (Z.div_str_pos n d ltac:(lia)). pose proof (Z.div_le_upper_bound n d n ltac:(lia) ltac:(nia)). lia.
Qed.

Lemma remainder n d : (n - n / d * d)%Z = (n mod d)%Z.
Proof. pose proof (Z.div_mod n d). destruct (decide (d = 0%Z)) as [->|]; [rewrite Z.mod_0_r; lia|lia]. Qed.

Lemma small_terms_spec fuel n d position w bs ts : wrote w bs → euclid n d ts → (0 < d < n)%Z → (n < 2 ^ 127)%Z →
  256 - length bs < fuel → ∃ o, small_terms fuel n d position w = Some o ∧ encodes bs position ts o.
Proof.
  intros Hw Hts Hd Hn. revert position w bs Hw fuel. induction Hts as [|n d ts _ Hts IH]; intros position w bs Hw fuel Hf; [lia|].
  destruct fuel as [|fuel]; [lia|]. cbn [small_terms]. apply encodes_term; [done|apply quotient_range; lia|]. intros w' Hw'.
  rewrite remainder. pose proof (Z.mod_pos_bound n d ltac:(lia)). pose proof (code_grows bs (odd_pos position) (n / d)).
  pose proof (wr_fit _ _ Hw'). destruct (Z.eqb_spec (n mod d) 0) as [E|E].
  - rewrite E in Hts. inversion Hts; subst; [|lia]. eexists. split; [done|]. by apply encodes_end.
  - apply IH; [lia|lia|done|lia].
Qed.

Lemma encode_terms_spec fuel den rem position w bs ts : wrote w bs → euclid den rem ts → (0 <= rem < den)%Z → (den < 2 ^ 127)%Z →
  257 - length bs < fuel → ∃ o, encode_terms fuel den rem position w = Some o ∧ encodes bs position ts o.
Proof.
  intros Hw Hts Hd Hn. revert position w bs Hw fuel. induction Hts as [n|n d ts Hd0 Hts IH]; intros position w bs Hw fuel Hf.
  all: destruct fuel as [|fuel]; [lia|]; cbn [encode_terms].
  - eexists. split; [done|]. by apply encodes_end.
  - rewrite (proj2 (Z.eqb_neq _ _)) by lia. destruct ((0 <=? n)%Z && (n <? 2 ^ 64)%Z) eqn:E.
    + apply andb_true_iff in E as [_ E%Z.ltb_lt]. unfold as_u64. rewrite Z.mod_small by lia.
      apply small_terms_spec; [done|by constructor|lia|lia|pose proof (wr_fit _ _ Hw); lia].
    + apply encodes_term; [done|apply quotient_range; lia|]. intros w' Hw'. rewrite remainder.
      pose proof (Z.mod_pos_bound n d ltac:(lia)). pose proof (code_grows bs (odd_pos position) (n / d)).
      pose proof (wr_fit _ _ Hw'). apply IH; [lia|lia|done|lia].
Qed.

(** The first term, with its sign bit. *)
Definition first_code (a0 : Z) : list bool := if (0 <=? a0)%Z then true :: code false (a0 + 1) else false :: code true (- a0).

(** The bits before the terminator. *)
Definition all_codes (a0 : Z) (ts : list Z) : list bool := first_code a0 ++ codes 1 ts.

Lemma floor_range num den : (in_i128 num = true) → (0 < den)%Z → (- 2 ^ 127 <= num / den < 2 ^ 127)%Z.
Proof.
  unfold in_i128. rewrite andb_true_iff, Z.leb_le, Z.ltb_lt. intros Hn Hd.
  pose proof (Z.div_le_lower_bound num den (-2 ^ 127) Hd ltac:(nia)).
  pose proof (Z.div_lt_upper_bound num den (2 ^ 127) Hd ltac:(nia)). lia.
Qed.

(** The encoder on a positive denominator. *)
Lemma encode_spec num den ts : in_i128 num = true → in_i128 den = true → (0 < den)%Z → euclid den (num mod den) ts →
  let all := all_codes (num / den) ts in
  ∃ o, encode_parts num den = Some o ∧
    if decide (length all <= 256) then
      ∃ raw, o = inr raw ∧ bytes_ok 32 raw ∧ bits raw = padded all (even_pos (S (length ts)))
    else o = inl OutOfDomain.
Proof.
  intros Hn Hdr Hd Hts all. unfold encode_parts. rewrite (proj2 (Z.eqb_neq _ _)), (proj2 (Z.ltb_ge _ _)) by lia.
  unfold div_euclid, rem_euclid. rewrite (proj2 (Z.ltb_lt 0 den)), (Z.abs_eq den) by lia.
  pose proof (floor_range num den Hn Hd) as Ha. unfold in_i128 in Hdr. rewrite andb_true_iff, Z.leb_le, Z.ltb_lt in Hdr.
  assert (writes (λ w, if (0 <=? num / den)%Z then w ←? push w true; push_term w (num / den + 1)%Z false
    else w ←? push w false; push_term w (Z.abs (num / den)) true) (first_code (num / den))) as Hfirst.
  { unfold first_code. destruct (Z.leb_spec 0 (num / den)).
    - apply (writes_app _ _ [_] _ (writes_push _)), writes_term. lia.
    - rewrite Z.abs_neq by lia. apply (writes_app _ _ [_] _ (writes_push _)), writes_term. lia. }
  specialize (Hfirst writer_new [] wrote_new). cbn [length Nat.add app] in Hfirst. destruct (decide (length (first_code (num / den)) <= 256)) as [Hf|Hf].
  - destruct Hfirst as (w & Hw & Hwr). rewrite Hw. pose proof (Z.mod_pos_bound num den Hd).
    destruct (encode_terms_spec 258 den (num mod den) 1 w (first_code (num / den)) ts) as (o & Ho & He); [done..|lia|lia|lia|].
    exists o. split; [done|]. exact He.
  - rewrite Hfirst. eexists. split; [done|]. rewrite decide_False; [done|]. subst all. unfold all_codes. rewrite length_app. lia.
Qed.

(** ** The order of bit strings *)

Fixpoint blex (a b : list bool) : comparison :=
  match a, b with
  | [], [] => Eq
  | [], _ :: _ => Lt
  | _ :: _, [] => Gt
  | false :: _, true :: _ => Lt
  | true :: _, false :: _ => Gt
  | _ :: a, _ :: b => blex a b
  end.

Lemma blex_refl a : blex a a = Eq.
Proof. by induction a as [|[] a IH]. Qed.
Lemma blex_antisym a b : blex b a = CompOpp (blex a b).
Proof. revert b. by induction a as [|[] a IH]; intros [|[] b]; simpl. Qed.
Lemma blex_common p a b : blex (p ++ a) (p ++ b) = blex a b.
Proof. by induction p as [|[] p IH]. Qed.
Lemma blex_app a b l l' : length a = length b →
  blex (a ++ l) (b ++ l') = match blex a b with Eq => blex l l' | c => c end.
Proof. revert b. induction a as [|[] a IH]; intros [|[] b]; simpl; intros; auto; lia. Qed.

(** They differ, and the first difference is upward. *)
Definition below (a b : list bool) : Prop := ∃ p s t, a = p ++ false :: s ∧ b = p ++ true :: t.

Lemma below_lex a b l l' : below a b → blex (a ++ l) (b ++ l') = Lt ∧ blex (b ++ l') (a ++ l) = Gt.
Proof. intros (p & s & t & -> & ->). by rewrite <-!app_assoc, !blex_common. Qed.
Lemma below_cons x a b : below a b → below (x :: a) (x :: b).
Proof. intros (p & s & t & -> & ->). by exists (x :: p), s, t. Qed.
Lemma below_app p a b : below a b → below (p ++ a) (p ++ b).
Proof. intros H. induction p; [done|]. by apply below_cons. Qed.
Lemma below_flip (i : bool) a b : below a b → if i then below (xorb true <$> b) (xorb true <$> a) else below (xorb false <$> a) (xorb false <$> b).
Proof.
  intros (p & s & t & -> & ->). rewrite !fmap_app, !fmap_cons.
  destruct i; by eexists _, _, _.
Qed.

Lemma low_succ k m : (m mod 2 ^ Z.of_nat (S k) = Z.b2z (Z.testbit m (Z.of_nat k)) * 2 ^ Z.of_nat k + m mod 2 ^ Z.of_nat k)%Z.
Proof.
  rewrite Z.testbit_spec' by lia. rewrite Nat2Z.inj_succ, Z.pow_succ_r, (Z.mul_comm 2), Z.rem_mul_r by lia. lia.
Qed.

Lemma low_order k a b : blex (low k a) (low k b) = (a mod 2 ^ Z.of_nat k ?= b mod 2 ^ Z.of_nat k)%Z.
Proof.
  induction k as [|k IH]; [by rewrite !Z.mod_1_r|]. rewrite !low_succ. cbn [low].
  pose proof (Z.mod_pos_bound a (2 ^ Z.of_nat k) ltac:(lia)). pose proof (Z.mod_pos_bound b (2 ^ Z.of_nat k) ltac:(lia)).
  destruct (Z.testbit a _), (Z.testbit b _); cbn [blex Z.b2z].
  - rewrite IH. symmetry. apply Z.add_compare_mono_l.
  - symmetry. apply Z.compare_gt_iff. lia.
  - symmetry. apply Z.compare_lt_iff. lia.
  - rewrite IH. symmetry. apply Z.add_compare_mono_l.
Qed.

Lemma low_below k a b : (a mod 2 ^ Z.of_nat k < b mod 2 ^ Z.of_nat k)%Z → below (low k a) (low k b).
Proof.
  intros Hlt. induction k as [|k IH]; [rewrite !Z.mod_1_r in Hlt; lia|]. rewrite !low_succ in Hlt. cbn [low].
  pose proof (Z.mod_pos_bound a (2 ^ Z.of_nat k) ltac:(lia)). pose proof (Z.mod_pos_bound b (2 ^ Z.of_nat k) ltac:(lia)).
  destruct (Z.testbit a _), (Z.testbit b _); cbn [Z.b2z] in Hlt; [|lia|by exists [], (low k a), (low k b)|]; apply below_cons, IH; lia.
Qed.

Lemma width_spec m : (0 < m)%Z → (2 ^ Z.of_nat (width m) <= m < 2 * 2 ^ Z.of_nat (width m))%Z.
Proof.
  intros Hm. unfold width. pose proof (Z.log2_nonneg m). rewrite Z2Nat.id by done. rewrite <-Z.pow_succ_r by done. by apply Z.log2_spec.
Qed.

Lemma tcode_below m m' : (0 < m < m')%Z → below (tcode m) (tcode m').
Proof.
  intros Hm. unfold tcode. pose proof (width_spec m ltac:(lia)). pose proof (width_spec m' ltac:(lia)).
  assert (width m <= width m') as Hw by (apply Z2Nat.inj_le; [apply Z.log2_nonneg..|apply Z.log2_le_mono; lia]).
  destruct (decide (width m = width m')) as [E|Hne].
  - rewrite <-E in *. apply below_app, below_cons, low_below.
    assert (∀ x, 2 ^ Z.of_nat (width m) <= x < 2 * 2 ^ Z.of_nat (width m) →
      x mod 2 ^ Z.of_nat (width m) = x - 2 ^ Z.of_nat (width m))%Z as Hmod.
    { intros x Hx. symmetry. apply Z.mod_unique with 1%Z; lia. }
    rewrite !Hmod by done. lia.
  - replace (width m') with (width m + S (width m' - S (width m))) at 1 by lia. rewrite replicate_add, <-app_assoc.
    apply below_app. simpl. by eexists [], _, _.
Qed.

Lemma code_below (i : bool) m m' : (0 < m < m')%Z → if i then below (code i m') (code i m) else below (code i m) (code i m').
Proof. intros Hm%tcode_below. pose proof (below_flip i _ _ Hm). by destruct i. Qed.

(** ** Bytes compare as their bits *)

Definition first_bits (n : nat) (buf : list N) : list bool := bit_at buf <$> seq 0 (8 * n).

Lemma bit_at_cons x buf p : bit_at (x :: buf) (8 + p) = bit_at buf p.
Proof.
  unfold bit_at. replace (8 + p) with (p + 1 * 8) by lia. rewrite Nat.div_add, Nat.Div0.mod_add by lia.
  by rewrite Nat.add_1_r.
Qed.

Lemma first_bits_cons n x buf : (x < 256)%N → first_bits (S n) (x :: buf) = low 8 (Z.of_N x) ++ first_bits n buf.
Proof.
  intros Hx. unfold first_bits. replace (8 * S n) with (8 + 8 * n) by lia. rewrite seq_app, fmap_app. f_equal.
  - cbn [seq fmap list_fmap low]. rewrite !bit_at_testbit.
    repeat match goal with |- context [Z.testbit (Z.of_N x) ?j] => replace (Z.testbit (Z.of_N x) j) with (N.testbit x (Z.to_N j)) by by rewrite Z.testbit_of_N' end.
    done.
  - rewrite <-(fmap_add_seq 8 0), <-list_fmap_compose. apply list_fmap_ext. intros i p _. apply bit_at_cons.
Qed.

Lemma first_bits_order n a b : bytes_ok n a → bytes_ok n b → blex (first_bits n a) (first_bits n b) = lex_cmp a b.
Proof.
  revert a b. induction n as [|n IH]; intros [|x a] [|y b] [Ha1 Ha2] [Hb1 Hb2]; try done.
  apply Forall_cons in Ha2 as [Hx Ha2], Hb2 as [Hy Hb2]. rewrite !first_bits_cons by done.
  rewrite blex_app by by rewrite !low_length. rewrite low_order, !Z.mod_small by lia. rewrite N2Z.inj_compare.
  simpl. destruct (x ?= y)%N; [|done..]. apply IH; split; [by injection Ha1|done|by injection Hb1|done].
Qed.

Lemma bits_order a b : bytes_ok 32 a → bytes_ok 32 b → blex (bits a) (bits b) = lex_cmp a b.
Proof. apply first_bits_order. Qed.

(** ** Terms compare as the numbers *)

(** The direction in which a position compares. *)
Definition dir (position : nat) (c : comparison) : comparison := if odd_pos position then CompOpp c else c.

Lemma even_odd position : even_pos position = negb (odd_pos position).
Proof. unfold even_pos, odd_pos. pose proof (Nat.mod_upper_bound position 2 ltac:(lia)). by destruct (position mod 2) as [|[|?]]; [..|lia]. Qed.
Lemma odd_succ position : odd_pos (S position) = negb (odd_pos position).
Proof.
  unfold odd_pos. pose proof (Nat.div_mod_eq position 2). pose proof (Nat.div_mod_eq (S position) 2).
  pose proof (Nat.mod_upper_bound position 2 ltac:(lia)). pose proof (Nat.mod_upper_bound (S position) 2 ltac:(lia)).
  destruct (Nat.eqb_spec (position mod 2) 1), (Nat.eqb_spec (S position mod 2) 1); simpl; lia.
Qed.

(** The bits from a term boundary on, [n] of them. *)
Definition tail_bits (n position : nat) (ts : list Z) : list bool :=
  codes position ts ++ replicate (n - length (codes position ts)) (even_pos (position + length ts)).

Lemma tail_bits_cons n position t ts : length (code (odd_pos position) t) <= n →
  tail_bits n position (t :: ts) = code (odd_pos position) t ++ tail_bits (n - length (code (odd_pos position) t)) (S position) ts.
Proof.
  intros Hn. unfold tail_bits. cbn [codes length]. rewrite <-app_assoc, length_app.
  by rewrite Nat.sub_add_distr, Nat.add_succ_r.
Qed.

(** A terminator differs from a term at the separator. *)
Lemma pad_below (i : bool) t n : (0 < t)%Z → length (code i t) <= n →
  if i then below (replicate n (negb i)) (code i t) else below (code i t) (replicate n (negb i)).
Proof.
  intros Ht. rewrite code_length. intros Hn. unfold code, tcode. rewrite fmap_app, fmap_cons, fmap_replicate.
  replace n with (width t + S (n - S (width t))) by lia. rewrite replicate_add. destruct i; apply below_app; by eexists [], _, _.
Qed.

Lemma code_order (i : bool) t t' l l' : (0 < t < t')%Z →
  blex (code i t ++ l) (code i t' ++ l') = (if i then Gt else Lt) ∧ blex (code i t' ++ l') (code i t ++ l) = (if i then Lt else Gt).
Proof. intros Ht%(code_below i). destruct i; [apply (below_lex _ _ l' l) in Ht|apply (below_lex _ _ l l') in Ht]; naive_solver. Qed.

Lemma pad_order (i : bool) t l n : (0 < t)%Z → length (code i t) <= n →
  blex (replicate n (negb i)) (code i t ++ l) = (if i then Lt else Gt) ∧ blex (code i t ++ l) (replicate n (negb i)) = (if i then Gt else Lt).
Proof.
  intros Ht Hn. pose proof (pad_below i t n Ht Hn) as Hb.
  destruct i; [apply (below_lex _ _ [] l) in Hb|apply (below_lex _ _ l []) in Hb]; rewrite app_nil_r in Hb; naive_solver.
Qed.

Lemma term_pos n d : (0 < d < n)%Z → (0 < n / d)%Z.
Proof. intros Hd. apply Z.div_str_pos. lia. Qed.

Lemma quotient_lt n1 d1 n2 d2 : (0 < d1)%Z → (0 < d2)%Z → (n1 / d1 < n2 / d2)%Z → (n1 * d2 < n2 * d1)%Z.
Proof.
  intros H1 H2 Hlt. pose proof (Z.mul_succ_div_gt n1 d1 H1). pose proof (Z.mul_div_le n2 d2 H2).
  assert (n1 * d2 < d1 * Z.succ (n1 / d1) * d2)%Z by (apply Z.mul_lt_mono_pos_r; lia).
  assert (d2 * (n2 / d2) * d1 <= n2 * d1)%Z by (apply Z.mul_le_mono_nonneg_r; lia).
  assert (d1 * d2 * Z.succ (n1 / d1) <= d1 * d2 * (n2 / d2))%Z by (apply Z.mul_le_mono_nonneg_l; lia). lia.
Qed.

Lemma tail_order n position n1 d1 ts1 n2 d2 ts2 : euclid n1 d1 ts1 → euclid n2 d2 ts2 →
  (0 <= d1 < n1)%Z → (0 <= d2 < n2)%Z → length (codes position ts1) <= n → length (codes position ts2) <= n →
  blex (tail_bits n position ts1) (tail_bits n position ts2) = dir position (n1 * d2 ?= n2 * d1)%Z.
Proof.
  intros H1. revert n position n2 d2 ts2. induction H1 as [n1|n1 d1 ts1 Hd1 H1 IH]; intros n position n2 d2 ts2 H2 Hn1 Hn2 Hf1 Hf2.
  all: destruct H2 as [n2|n2 d2 ts2 Hd2 H2]; rewrite ?Z.mul_0_r; unfold dir.
  - rewrite blex_refl. by destruct (odd_pos position).
  - cbn [codes] in Hf2. rewrite length_app in Hf2. rewrite (tail_bits_cons _ _ (n2 / d2)) by lia. unfold tail_bits at 1. cbn [codes length app].
    rewrite Nat.sub_0_r, Nat.add_0_r, even_odd.
    rewrite (proj1 (pad_order (odd_pos position) (n2 / d2) _ n (term_pos n2 d2 ltac:(lia)) ltac:(lia))).
    rewrite (proj2 (Z.compare_gt_iff (n1 * d2) 0)) by nia. by destruct (odd_pos position).
  - cbn [codes] in Hf1. rewrite length_app in Hf1. rewrite (tail_bits_cons _ _ (n1 / d1)) by lia. unfold tail_bits at 2. cbn [codes length app].
    rewrite Nat.sub_0_r, Nat.add_0_r, even_odd.
    rewrite (proj2 (pad_order (odd_pos position) (n1 / d1) _ n (term_pos n1 d1 ltac:(lia)) ltac:(lia))).
    rewrite (proj2 (Z.compare_lt_iff 0 (n2 * d1))) by nia. by destruct (odd_pos position).
  - cbn [codes] in Hf1, Hf2. rewrite length_app in Hf1, Hf2. rewrite (tail_bits_cons _ _ (n1 / d1)), (tail_bits_cons _ _ (n2 / d2)) by lia.
    pose proof (term_pos n1 d1 ltac:(lia)). pose proof (term_pos n2 d2 ltac:(lia)).
    pose proof (Z.div_mod n1 d1 ltac:(lia)) as E1. pose proof (Z.div_mod n2 d2 ltac:(lia)) as E2.
    pose proof (Z.mod_pos_bound n1 d1 ltac:(lia)) as B1. pose proof (Z.mod_pos_bound n2 d2 ltac:(lia)) as B2.
    destruct (Z.lt_trichotomy (n1 / d1) (n2 / d2)) as [Hlt|[E|Hlt]].
    + rewrite (proj1 (code_order _ _ _ _ _ (conj (term_pos n1 d1 ltac:(lia)) Hlt))).
      rewrite (proj2 (Z.compare_lt_iff (n1 * d2) (n2 * d1))) by (apply quotient_lt; lia). by destruct (odd_pos position).
    + rewrite E, blex_common. rewrite E in Hf1. rewrite (IH _ _ d2 (n2 mod d2)%Z); [|done|lia|lia|lia|lia].
      assert ((n1 * d2 ?= n2 * d1)%Z = CompOpp (d1 * (n2 mod d2) ?= d2 * (n1 mod d1))%Z) as ->.
      { rewrite <-Z.compare_antisym. rewrite (Z.compare_sub (n1 * d2)), (Z.compare_sub (d2 * _)). f_equal.
        rewrite E in E1. apply (f_equal (λ z, z * d2)%Z) in E1. apply (f_equal (λ z, z * d1)%Z) in E2. lia. }
      unfold dir. rewrite odd_succ. destruct (odd_pos position); simpl; by rewrite ?CompOpp_involutive.
    + rewrite (proj2 (code_order _ _ _ _ _ (conj (term_pos n2 d2 ltac:(lia)) Hlt))).
      rewrite (proj2 (Z.compare_gt_iff (n1 * d2) (n2 * d1))) by (apply quotient_lt; lia). by destruct (odd_pos position).
Qed.

Lemma first_below a b : (a < b)%Z → below (first_code a) (first_code b).
Proof.
  intros Hab. unfold first_code. destruct (Z.leb_spec 0 a), (Z.leb_spec 0 b).
  - apply below_cons, (code_below false). lia.
  - lia.
  - by eexists [], _, _.
  - apply below_cons, (code_below true). lia.
Qed.

Lemma first_length a : length (first_code a) <= length (all_codes a []).
Proof. unfold all_codes. simpl. by rewrite app_nil_r. Qed.

Lemma padded_all a ts : length (all_codes a ts) <= 256 →
  padded (all_codes a ts) (even_pos (S (length ts))) = first_code a ++ tail_bits (256 - length (first_code a)) 1 ts.
Proof.
  unfold padded, all_codes, tail_bits. rewrite length_app. intros Hf. rewrite <-app_assoc. do 2 f_equal.
  by rewrite Nat.sub_add_distr.
Qed.

(** An encoded rational, in terms of its continued fraction. *)
Lemma encode_inr num den raw : in_i128 num = true → in_i128 den = true → (0 < den)%Z →
  encode_parts num den = Some (inr raw) → ∃ ts, euclid den (num mod den) ts ∧ length (all_codes (num / den) ts) <= 256 ∧
    bytes_ok 32 raw ∧ bits raw = first_code (num / den) ++ tail_bits (256 - length (first_code (num / den))) 1 ts.
Proof.
  intros Hn Hd Hp He. destruct (euclid_exists den (num mod den)) as [ts Hts]; [by apply Z.mod_pos_bound|].
  destruct (encode_spec num den ts Hn Hd Hp Hts) as (o & Ho & Hc). rewrite He in Ho. injection Ho as <-.
  exists ts. destruct (decide _) as [Hfit|]; [|done]. destruct Hc as (raw' & [= <-] & Hok & Hb).
  rewrite padded_all in Hb by done. done.
Qed.

Lemma encode_order n1 d1 n2 d2 raw1 raw2 : in_i128 n1 = true → in_i128 d1 = true → in_i128 n2 = true → in_i128 d2 = true →
  (0 < d1)%Z → (0 < d2)%Z → encode_parts n1 d1 = Some (inr raw1) → encode_parts n2 d2 = Some (inr raw2) →
  lex_cmp raw1 raw2 = (n1 * d2 ?= n2 * d1)%Z.
Proof.
  intros Hn1 Hd1 Hn2 Hd2 Hp1 Hp2 He1 He2.
  destruct (encode_inr n1 d1 raw1) as (ts1 & H1 & Hf1 & Ho1 & Hb1); [done..|].
  destruct (encode_inr n2 d2 raw2) as (ts2 & H2 & Hf2 & Ho2 & Hb2); [done..|].
  rewrite <-bits_order, Hb1, Hb2 by done. unfold all_codes in Hf1, Hf2. rewrite length_app in Hf1, Hf2.
  pose proof (Z.mod_pos_bound n1 d1 Hp1) as B1. pose proof (Z.mod_pos_bound n2 d2 Hp2) as B2.
  destruct (Z.lt_trichotomy (n1 / d1) (n2 / d2)) as [Hlt|[E|Hlt]].
  - rewrite (proj1 (below_lex _ _ _ _ (first_below _ _ Hlt))). symmetry. by apply Z.compare_lt_iff, quotient_lt.
  - rewrite E in *. rewrite blex_common, (tail_order _ _ d1 (n1 mod d1)%Z _ d2 (n2 mod d2)%Z); [|done|done|lia..].
    unfold dir. change (odd_pos 1) with true. rewrite <-Z.compare_antisym. rewrite (Z.compare_sub (n1 * d2)), (Z.compare_sub (d2 * _)). f_equal.
    pose proof (Z.div_mod n1 d1 ltac:(lia)) as E1. pose proof (Z.div_mod n2 d2 ltac:(lia)) as E2. rewrite E in E1.
    apply (f_equal (λ z, z * d2)%Z) in E1. apply (f_equal (λ z, z * d1)%Z) in E2. lia.
  - rewrite (proj2 (below_lex _ _ _ _ (first_below _ _ Hlt))). symmetry. by apply Z.compare_gt_iff, quotient_lt.
Qed.
