(* ===== verification/ROrd256Read.v ===== *)
(** * ROrd256Read: the decoder of ordered rationals

    The reader is the list of bits that remain; what it accepts is exactly what
    the encoder writes. *)

From S2P Require Import Prelude Lex KeySchema Trible ROrd256 ROrd256Spec.

Open Scope nat_scope.

(** ** The reader *)

(** The bits [bs] remain. *)
Record reads (r : BitReader) (bs : list bool) : Prop := {
  rd_ok : bytes_ok 32 (r_buf r);
  rd_pos : r_pos r + length bs = 256;
  rd_bits : drop (r_pos r) (bits (r_buf r)) = bs;
}.

Lemma reads_new raw : bytes_ok 32 raw → reads (mkReader raw 0) (bits raw).
Proof. intros Hr. split; [done|by rewrite bits_length|done]. Qed.

Lemma next_bit_nil r : reads r [] → next_bit r = inl NonCanonical.
Proof. intros [_ Hp _]. unfold next_bit. by rewrite (proj2 (Nat.leb_le _ _)) by (simpl in Hp; unfold INLINE_BITS; lia). Qed.

Lemma next_bit_cons r b bs : reads r (b :: bs) → ∃ r', next_bit r = inr (b, r') ∧ reads r' bs.
Proof.
  intros [Hok Hp Hb]. simpl in Hp. unfold next_bit. rewrite (proj2 (Nat.leb_gt _ _)) by (unfold INLINE_BITS; lia).
  assert (bits (r_buf r) !! r_pos r = Some b) as Hl.
  { rewrite <-(Nat.add_0_r (r_pos r)), <-lookup_drop, Hb. done. }
  rewrite lookup_bits in Hl by lia. injection Hl as ->. eexists. split; [done|]. split; cbn [r_buf r_pos]; [done|lia|].
  replace (S (r_pos r)) with (r_pos r + 1) by lia. by rewrite <-drop_drop, Hb.
Qed.

(** ** Terms *)

Lemma lor_bit m (b : bool) : (0 <= m)%Z → Z.lor (Z.shiftl m 1) (Z.b2z b) = (2 * m + Z.b2z b)%Z.
Proof. rewrite Z.shiftl_mul_pow2 by lia. change (2 ^ 1)%Z with 2%Z. rewrite Z.mul_comm. intros Hm. by destruct m as [|p|p], b. Qed.

(** Reading [k] bits: the value, and its bits. *)
Lemma read_low_spec k m r i bs : (0 <= m)%Z → reads r bs → k <= length bs →
  ∃ r' m', read_low k m r i = inr (m', r') ∧ bs = (xorb i <$> low k m') ++ drop k bs ∧ reads r' (drop k bs) ∧
    (m' / 2 ^ Z.of_nat k = m)%Z ∧ (0 <= m')%Z.
Proof.
  revert m r bs. induction k as [|k IH]; intros m r bs Hm Hr Hk.
  { exists r, m. rewrite drop_0, Z.div_1_r. done. }
  destruct bs as [|b bs]; simpl in Hk; [lia|]. destruct (next_bit_cons r b bs Hr) as (r1 & Hn & Hr1). cbn [read_low].
  rewrite Hn, lor_bit by done. destruct (IH (2 * m + Z.b2z (xorb b i))%Z r1 bs) as (r' & m' & -> & Hbs & Hr' & Hdiv & Hpos);
    [destruct (xorb b i); simpl; lia|done|lia|].
  exists r', m'. split; [done|]. cbn [drop low]. assert (Z.testbit m' (Z.of_nat k) = xorb b i) as Hbit.
  { pose proof (Z.testbit_spec' m' (Z.of_nat k) ltac:(lia)) as Hb. rewrite Hdiv, Z.add_comm, Z.mul_comm, Z.mod_add in Hb by lia.
    by destruct (Z.testbit m' (Z.of_nat k)), (xorb b i). }
  rewrite Hbit, fmap_cons. split_and!; [|done| |done].
  - cbn [app]. rewrite <-Hbs. by destruct b, i.
  - rewrite Nat2Z.inj_succ, Z.pow_succ_r, (Z.mul_comm 2), <-Z.div_div, Hdiv by lia. destruct (xorb b i); cbn [Z.b2z].
    + symmetry. apply Z.div_unique with 1%Z; lia.
    + symmetry. apply Z.div_unique with 0%Z; lia.
Qed.

Lemma read_low_short k m r i bs : reads r bs → length bs < k → read_low k m r i = inl NonCanonical.
Proof.
  revert m r bs. induction k as [|k IH]; intros m r bs Hr Hk; [lia|]. cbn [read_low]. destruct bs as [|b bs].
  - by rewrite next_bit_nil.
  - destruct (next_bit_cons r b bs Hr) as (r1 & -> & Hr1). apply (IH _ _ bs); [done|simpl in Hk; lia].
Qed.

Lemma count_ones_reads n r i k j rest : reads r (replicate j (negb i) ++ i :: rest) → j < n → k + j <= 127 →
  ∃ r', count_ones n r i k = inr (k + j, r') ∧ reads r' rest.
Proof.
  revert r k j. induction n as [|n IH]; intros r k j Hr Hj Hk; [lia|]. cbn [count_ones]. destruct j as [|j].
  - destruct (next_bit_cons r i rest Hr) as (r' & -> & Hr'). rewrite xorb_nilpotent. exists r'. by rewrite Nat.add_0_r.
  - destruct (next_bit_cons r (negb i) _ Hr) as (r' & -> & Hr'). replace (xorb (negb i) i) with true by by destruct i.
    rewrite (proj2 (Nat.ltb_ge _ _)) by lia. destruct (IH r' (S k) j Hr' ltac:(lia) ltac:(lia)) as (r2 & -> & Hr2).
    exists r2. split; [|done]. do 2 f_equal. lia.
Qed.

Lemma count_ones_inv n r i k bs k' r' : reads r bs → count_ones n r i k = inr (k', r') → k <= 127 →
  ∃ j rest, k' = k + j ∧ k' <= 127 ∧ bs = replicate j (negb i) ++ i :: rest ∧ reads r' rest.
Proof.
  revert r k bs. induction n as [|n IH]; intros r k bs Hr Hc Hk; [done|]. cbn [count_ones] in Hc. destruct bs as [|b bs].
  { by rewrite next_bit_nil in Hc. }
  destruct (next_bit_cons r b bs Hr) as (r1 & Hn & Hr1). rewrite Hn in Hc. destruct (xorb b i) eqn:E.
  - destruct (127 <? S k) eqn:E2; [done|]. apply Nat.ltb_ge in E2. destruct (IH r1 (S k) bs Hr1 Hc E2) as (j & rest & -> & Hj & -> & Hr').
    exists (S j), rest. split_and!; [lia|done| |done]. cbn [replicate app]. f_equal. by destruct b, i.
  - injection Hc as <- <-. exists 0, bs. split_and!; [lia|done| |done]. simpl. f_equal. by destruct b, i.
Qed.

Lemma low_inj k a b : low k a = low k b → (a mod 2 ^ Z.of_nat k = b mod 2 ^ Z.of_nat k)%Z.
Proof. intros E. apply Z.compare_eq_iff. by rewrite <-low_order, E, blex_refl. Qed.

Lemma low_flip_inj i k a b l l' : (xorb i <$> low k a) ++ l = (xorb i <$> low k b) ++ l' → low k a = low k b ∧ l = l'.
Proof.
  intros [E ->]%app_inj_1; [|by rewrite !length_fmap, !low_length]. split; [|done].
  revert E. apply list_fmap_eq_inj. intros x y. by destruct i, x, y.
Qed.

Lemma code_split i t : code i t = replicate (width t) (negb i) ++ i :: (xorb i <$> low (width t) t).
Proof. unfold code, tcode. by rewrite fmap_app, fmap_replicate, fmap_cons, xorb_true_r, xorb_false_r. Qed.

Lemma top_div t : (0 < t)%Z → (t / 2 ^ Z.of_nat (width t) = 1)%Z.
Proof. intros Ht. pose proof (width_spec t Ht). symmetry. apply Z.div_unique with (t - 2 ^ Z.of_nat (width t))%Z; lia. Qed.

Lemma width_unique t k : (t / 2 ^ Z.of_nat k = 1)%Z → (0 < t)%Z ∧ width t = k.
Proof.
  intros E. assert (2 ^ Z.of_nat k <= t < 2 ^ Z.succ (Z.of_nat k))%Z as Hb.
  { rewrite Z.pow_succ_r by lia. pose proof (Z.div_mod t (2 ^ Z.of_nat k) ltac:(lia)).
    pose proof (Z.mod_pos_bound t (2 ^ Z.of_nat k) ltac:(lia)). lia. }
  split; [lia|]. unfold width. rewrite (Z.log2_unique t (Z.of_nat k)) by (done || lia). lia.
Qed.

Lemma next_term_reads r i t rest : reads r (code i t ++ rest) → (0 < t)%Z → width t <= 127 →
  ∃ r', next_term r i = inr (t, r') ∧ reads r' rest.
Proof.
  intros Hr Ht Hw. rewrite code_split, <-app_assoc in Hr. unfold next_term.
  destruct (count_ones_reads 129 r i 0 (width t) _ Hr) as (r1 & -> & Hr1); [lia|lia|]. cbn [Nat.add] in *.
  destruct (read_low_spec (width t) 1 r1 i _ ltac:(lia) Hr1) as (r' & m' & -> & Hbs & Hr' & Hd & _).
  { rewrite length_app, length_fmap, low_length. lia. }
  apply low_flip_inj in Hbs as [Hlow%low_inj Hrest]. rewrite <-Hrest in Hr'. exists r'. split; [|done]. do 2 f_equal.
  pose proof (Z.div_mod m' (2 ^ Z.of_nat (width t)) ltac:(lia)) as E1. pose proof (Z.div_mod t (2 ^ Z.of_nat (width t)) ltac:(lia)) as E2.
  rewrite top_div in E2 by done. rewrite Hd, <-Hlow in E1. lia.
Qed.

Lemma next_term_inv r i bs t r' : reads r bs → next_term r i = inr (t, r') →
  (0 < t < 2 ^ 128)%Z ∧ ∃ rest, bs = code i t ++ rest ∧ reads r' rest.
Proof.
  intros Hr. unfold next_term. destruct (count_ones 129 r i 0) as [|[k r1]] eqn:Hc; [done|]. intros Hl.
  destruct (count_ones_inv 129 r i 0 bs k r1 Hr Hc ltac:(lia)) as (j & rest & E & Hk & -> & Hr1). cbn [Nat.add] in E. subst j.
  destruct (decide (k <= length rest)) as [Hle|Hgt].
  2:{ by rewrite (read_low_short k 1 r1 i rest) in Hl by (done || lia). }
  destruct (read_low_spec k 1 r1 i rest ltac:(lia) Hr1 Hle) as (r2 & m' & Hl' & Hbs & Hr2 & Hd & _).
  rewrite Hl' in Hl. injection Hl as <- <-. apply width_unique in Hd as [Hp Hw]. pose proof (width_spec m' Hp).
  assert (2 ^ Z.of_nat (width m') <= 2 ^ 127)%Z by (apply Z.pow_le_mono_r; lia). split; [lia|].
  exists (drop k rest). split; [|done]. by rewrite code_split, Hw, <-app_assoc, <-app_comm_cons, <-Hbs.
Qed.

(** ** The terminator *)

Lemma byte_fill buf p (v : bool) : bytes_ok 32 buf → p mod 8 = 0 → p < 256 →
  nth (p / 8) buf 0%N = (if v then 255%N else 0%N) ↔ ∀ j, j < 8 → bit_at buf (p + j) = v.
Proof.
  intros [Hl Hb] Hp Hp2. assert (∀ j, j < 8 → bit_at buf (p + j) = N.testbit (nth (p / 8) buf 0%N) (N.of_nat (7 - j))) as Hbit.
  { intros j Hj. rewrite bit_at_testbit. pose proof (Nat.div_mod_eq p 8) as E. rewrite Hp, Nat.add_0_r in E.
    assert ((p + j) / 8 = p / 8 ∧ (p + j) mod 8 = j) as [-> ->]; [|done].
    replace (p + j) with (j + p / 8 * 8) by lia. rewrite Nat.div_add, Nat.Div0.mod_add, Nat.div_small, Nat.mod_small by lia. done. }
  assert (nth (p / 8) buf 0%N < 256)%N as Hx.
  { rewrite nth_lookup. destruct (buf !! (p / 8)) as [x|] eqn:E; [|simpl; lia]. eapply Forall_lookup_1 in E; [|done]. done. }
  set (x := nth (p / 8) buf 0%N) in *. split.
  - intros E j Hj. rewrite Hbit, E by done. destruct v; [|apply N.bits_0]. change 255%N with (N.ones 8).
    apply N.ones_spec_low. lia.
  - intros Hv. apply N.bits_inj. intros i. destruct (decide (i < 8)%N) as [Hi|Hi].
    + specialize (Hv (7 - N.to_nat i) ltac:(lia)). rewrite Hbit in Hv by lia. replace (N.of_nat _) with i in Hv by lia.
      rewrite Hv. destruct v; [|by rewrite N.bits_0]. change 255%N with (N.ones 8). symmetry. apply N.ones_spec_low. lia.
    + assert (∀ y, (y < 2 ^ 8)%N → N.testbit y i = false) as Hz by (intros y Hy; apply (proj1 (lt_pow2_testbit 8 y) Hy); lia).
      rewrite !Hz; [done|by destruct v|done].
Qed.

Lemma rest_bits_spec n buf p v : p <= 256 → 8 <= n + p mod 8 ∨ p mod 8 = 0 →
  match rest_bits n buf p v with
  | Some p' => p <= p' <= 256 ∧ p' mod 8 = 0 ∧ ∀ q, p <= q < p' → bit_at buf q = v
  | None => ∃ q, p <= q < 256 ∧ bit_at buf q ≠ v
  end.
Proof.
  revert p. induction n as [|n IH]; intros p Hp Hn; pose proof (Nat.mod_upper_bound p 8 ltac:(lia)).
  { cbn [rest_bits]. split_and!; [lia|lia|lia|intros; lia]. }
  cbn [rest_bits]. unfold INLINE_BITS. destruct (Nat.ltb_spec p 256), (Nat.eqb_spec (p mod 8) 0); cbn [andb negb].
  - split_and!; [lia|lia|done|intros; lia].
  - destruct (Bool.eqb_spec (bit_at buf p) v) as [E|E]; cbn [negb]; [|by exists p].
    assert (S p mod 8 = S (p mod 8) ∨ p mod 8 = 7 ∧ S p mod 8 = 0) as Hm.
    { pose proof (Nat.div_mod_eq p 8). pose proof (Nat.div_mod_eq (S p) 8). pose proof (Nat.mod_upper_bound (S p) 8 ltac:(lia)). lia. }
    specialize (IH (S p) ltac:(lia) ltac:(lia)). destruct (rest_bits n buf (S p) v) as [p'|].
    + destruct IH as (? & ? & Hq). split_and!; [lia|lia|done|]. intros q Hq'. destruct (decide (q = p)) as [->|]; [done|apply Hq; lia].
    + destruct IH as (q & ? & ?). exists q. split; [lia|done].
  - split_and!; [lia|lia|done|intros; lia].
  - assert (p = 256) as -> by lia. done.
Qed.

Lemma rest_bytes_spec n buf p (v : bool) : bytes_ok 32 buf → p mod 8 = 0 → p <= 256 → 256 - p < 8 * n →
  rest_bytes n buf p (if v then 255%N else 0%N) = true ↔ ∀ q, p <= q < 256 → bit_at buf q = v.
Proof.
  intros Hok. revert p. induction n as [|n IH]; intros p Hm Hp Hn; [lia|]. cbn [rest_bytes]. unfold INLINE_BITS.
  destruct (Nat.ltb_spec p 256); [|split; [intros _ q ?; lia|done]].
  assert ((p + 8) mod 8 = 0) as Hm8 by (replace (p + 8) with (p + 1 * 8) by lia; by rewrite Nat.Div0.mod_add).
  assert (p + 8 <= 256) as Hp8 by (pose proof (Nat.div_mod_eq p 8); lia).
  pose proof (byte_fill buf p v Hok Hm ltac:(lia)) as Hf.
  destruct (N.eqb_spec (nth (p / 8) buf 0%N) (if v then 255%N else 0%N)) as [E|E]; cbn [negb].
  - rewrite IH by (done || lia). split; intros Hq q Hq'; [|apply Hq; lia].
    destruct (decide (q < p + 8)); [|apply Hq; lia]. replace q with (p + (q - p)) by lia. apply Hf; [done|lia].
  - split; [done|]. intros Hq. destruct E. apply Hf. intros j Hj. apply Hq. lia.
Qed.

Lemma rest_is_spec r v bs : reads r bs → rest_is r v = true ↔ bs = replicate (length bs) v.
Proof.
  intros [Hok Hpos Hbs]. assert (bs = replicate (length bs) v ↔ ∀ q, r_pos r <= q < 256 → bit_at (r_buf r) q = v) as ->.
  { split.
    - intros E q Hq. assert (bs !! (q - r_pos r) = Some (bit_at (r_buf r) q)) as Hl.
      { rewrite <-Hbs, lookup_drop. replace (_ + _) with q by lia. apply lookup_bits. lia. }
      rewrite E in Hl. by apply lookup_replicate in Hl as [? _].
    - intros Hq. symmetry. apply replicate_as_elem_of. split; [done|]. intros b Hb%list_elem_of_lookup. destruct Hb as [i Hi].
      rewrite <-Hbs, lookup_drop in Hi. assert (r_pos r + i < 256).
      { apply lookup_lt_Some in Hi. by rewrite bits_length in Hi. }
      rewrite lookup_bits in Hi by done. injection Hi as <-. apply Hq. lia. }
  unfold rest_is. pose proof (Nat.mod_upper_bound (r_pos r) 8 ltac:(lia)).
  pose proof (rest_bits_spec 8 (r_buf r) (r_pos r) v ltac:(lia) ltac:(lia)) as Hb. destruct (rest_bits _ _ _ _) as [p|].
  - destruct Hb as (Hp & Hm & Hq). rewrite rest_bytes_spec by (done || lia). split; intros Ha q Hq'; [|apply Ha; lia].
    destruct (decide (q < p)); [apply Hq; lia|apply Ha; lia].
  - split; [done|]. intros Ha. destruct Hb as (q & Hq & Hne). by destruct Hne; apply Ha.
Qed.

(** ** Continuants *)

Lemma checked_in z : (- 2 ^ 127 <= z < 2 ^ 127)%Z → checked z = Some z.
Proof. intros Hz. unfold checked, in_i128. by rewrite (proj2 (Z.leb_le _ _)), (proj2 (Z.ltb_lt _ _)) by lia. Qed.

Lemma checked_inv z y : checked z = Some y → y = z ∧ (- 2 ^ 127 <= z < 2 ^ 127)%Z.
Proof.
  unfold checked, in_i128. destruct (_ && _) eqn:E; [|done]. intros [= <-]. apply andb_true_iff in E as [E1%Z.leb_le E2%Z.ltb_lt]. done.
Qed.

Lemma cf_step_in a x1 x2 : (- 2 ^ 127 <= a * x1 < 2 ^ 127)%Z → (- 2 ^ 127 <= a * x1 + x2 < 2 ^ 127)%Z →
  cf_step a x1 x2 = inr (a * x1 + x2)%Z.
Proof. intros H1 H2. unfold cf_step, checked_mul, checked_add. by rewrite (checked_in _ H1), (checked_in _ H2). Qed.

Lemma cf_step_inv a x1 x2 y : cf_step a x1 x2 = inr y → y = (a * x1 + x2)%Z ∧ (- 2 ^ 127 <= y < 2 ^ 127)%Z.
Proof.
  unfold cf_step, checked_mul, checked_add. destruct (checked (a * x1)) as [v|] eqn:E1; [|done].
  apply checked_inv in E1 as [-> _]. destruct (checked _) as [w|] eqn:E2; [|done]. apply checked_inv in E2 as [-> ?]. by intros [= <-].
Qed.

(** The signs the continuants of a numerator can have. *)
Definition signs (p1 p2 : Z) : Prop := (0 <= p1 ∧ 0 <= p2)%Z ∨ (p1 <= 0 ∧ p2 <= 0)%Z ∨ (p1 < 0 ∧ p2 = 1)%Z.

(** One step towards the numerator [num = p1 n + p2 d] of which [a = n / d] is
    the next term: nothing overflows. *)
Lemma numerator_step num n d p1 p2 : (0 < d < n)%Z → signs p1 p2 → (num = p1 * n + p2 * d)%Z → (- 2 ^ 127 < num < 2 ^ 127)%Z →
  let p := (n / d * p1 + p2)%Z in
  cf_step (n / d) p1 p2 = inr p ∧ signs p p1 ∧ num = (p * d + p1 * (n mod d))%Z.
Proof.
  intros Hd Hs Hnum Hb p. pose proof (Z.div_mod n d ltac:(lia)) as E. pose proof (Z.mod_pos_bound n d ltac:(lia)) as Hr.
  pose proof (term_pos n d Hd) as Ha. set (a := (n / d)%Z) in *. set (r := (n mod d)%Z) in *.
  assert (num = p * d + p1 * r)%Z as Hnum' by (subst p; rewrite Hnum, E; ring).
  assert ((0 <= p1 → 0 <= a * p1) ∧ (p1 <= 0 → a * p1 <= 0) ∧ (p1 < 0 → a * p1 <= p1))%Z as (S1 & S2 & S3) by nia.
  assert ((0 <= p → p <= p * d) ∧ (p <= 0 → p * d <= p) ∧ (0 <= p1 → 0 <= p1 * r) ∧ (p1 <= 0 → p1 * r <= 0))%Z as (S4 & S5 & S6 & S7) by nia.
  subst p. split_and!; [|unfold signs in *; lia|done]. apply cf_step_in; unfold signs in Hs; lia.
Qed.

Lemma denominator_step den n d q1 q2 : (0 < d < n)%Z → (0 < q1)%Z → (0 <= q2)%Z → (den = q1 * n + q2 * d)%Z → (den < 2 ^ 127)%Z →
  let q := (n / d * q1 + q2)%Z in
  cf_step (n / d) q1 q2 = inr q ∧ (0 < q)%Z ∧ den = (q * d + q1 * (n mod d))%Z ∧ (n / d < 2 ^ 127)%Z.
Proof.
  intros Hd H1 H2 Hden Hb q. pose proof (Z.div_mod n d ltac:(lia)) as E. pose proof (Z.mod_pos_bound n d ltac:(lia)) as Hr.
  pose proof (term_pos n d Hd) as Ha. set (a := (n / d)%Z) in *. set (r := (n mod d)%Z) in *.
  assert (den = q * d + q1 * r)%Z as Hden' by (subst q; rewrite Hden, E; ring).
  assert (a <= a * q1)%Z by nia. assert (q <= q * d)%Z by (subst q; nia). assert (0 <= q1 * r)%Z by nia. subst q.
  split_and!; [apply cf_step_in; lia|lia|done|lia].
Qed.

(** ** Decoding what was encoded *)

Lemma width_small t : (0 < t <= 2 ^ 127)%Z → width t <= 127.
Proof.
  intros Ht. unfold width. assert (Z.log2 t <= 127)%Z; [|pose proof (Z.log2_nonneg t); lia].
  change 127%Z with (Z.log2 (2 ^ 127)). apply Z.log2_le_mono. lia.
Qed.

Lemma tail_bits_length n position ts : length (codes position ts) <= n → length (tail_bits n position ts) = n.
Proof. intros Hn. unfold tail_bits. rewrite length_app, length_replicate. lia. Qed.

Lemma rest_end r n position : reads r (tail_bits n position []) → rest_is r (negb (odd_pos position)) = true.
Proof.
  intros Hr. apply (rest_is_spec _ _ _ Hr). unfold tail_bits. cbn [codes length app]. by rewrite length_replicate, Nat.add_0_r, even_odd.
Qed.

Lemma rest_term r position t l : reads r (code (odd_pos position) t ++ l) → (0 < t)%Z → rest_is r (negb (odd_pos position)) = false.
Proof.
  intros Hr Ht. apply not_true_iff_false. intros E. apply (rest_is_spec _ _ _ Hr) in E.
  destruct (pad_order (odd_pos position) t l (length (code (odd_pos position) t ++ l)) Ht) as [Hp _]; [rewrite length_app; lia|].
  rewrite <-E, blex_refl in Hp. by destruct (odd_pos position).
Qed.

Lemma decode_terms_reads fuel r n d ts N position p1 p2 q1 q2 last num den : euclid n d ts → (0 <= d < n)%Z →
  reads r (tail_bits N position ts) → length (codes position ts) <= N → N < fuel →
  signs p1 p2 → (0 < q1)%Z → (0 <= q2)%Z → (num = p1 * n + p2 * d)%Z → (den = q1 * n + q2 * d)%Z →
  (- 2 ^ 127 < num < 2 ^ 127)%Z → (den < 2 ^ 127)%Z → (d = 0%Z → last ≠ Some 1%Z) →
  ∃ p q, decode_terms fuel r position p1 p2 q1 q2 last = Some (inr (p, q)) ∧
    (num = p * Z.gcd n d)%Z ∧ (den = q * Z.gcd n d)%Z ∧ (0 < q)%Z.
Proof.
  intros Hts. revert fuel r N position p1 p2 q1 q2 last.
  induction Hts as [n|n d ts Hd Hts IH]; intros fuel r N position p1 p2 q1 q2 last Hn Hr HN Hf Hs Hq1 Hq2 Hnum Hden Bn Bd Hlast.
  all: destruct fuel as [|fuel]; [lia|]; cbn [decode_terms].
  - rewrite (rest_end _ _ _ Hr), decide_False by auto. exists p1, q1. rewrite Z.gcd_0_r, Z.abs_eq by lia. split_and!; [done|lia|lia|done].
  - cbn [codes] in HN. rewrite length_app in HN. rewrite tail_bits_cons in Hr by lia. pose proof (term_pos n d ltac:(lia)) as Ht.
    rewrite (rest_term _ _ _ _ Hr Ht).
    destruct (numerator_step num n d p1 p2) as (Hp & Hs' & Hnum'); [lia|done..|].
    destruct (denominator_step den n d q1 q2) as (Hq & Hq' & Hden' & Hb); [lia|done..|].
    destruct (next_term_reads r (odd_pos position) _ _ Hr Ht) as (r' & -> & Hr'); [apply width_small; lia|].
    rewrite checked_in, Hp, Hq by lia. pose proof (Z.mod_pos_bound n d Hd).
    destruct (IH fuel r' _ (S position) (n / d * p1 + p2)%Z p1 (n / d * q1 + q2)%Z q1 (Some (n / d)%Z) ltac:(lia) Hr')
      as (p & q & -> & Hnp & Hdq & Hqp); [lia|rewrite code_length in *; lia|done|done|lia|done|done|done|done| |].
    { intros Hz [= E]. pose proof (Z.div_mod n d ltac:(lia)) as Em. rewrite Hz, E in Em. lia. }
    exists p, q. rewrite Z.gcd_comm, Z.gcd_mod, Z.gcd_comm in Hnp, Hdq by lia. done.
Qed.

Lemma decode_first_reads r a0 l : reads r (first_code a0 ++ l) → (- 2 ^ 127 <= a0 < 2 ^ 127)%Z →
  ∃ r', decode_first r = inr (a0, r') ∧ reads r' l.
Proof.
  intros Hr Ha. unfold first_code in Hr. unfold decode_first, LIMIT. destruct (Z.leb_spec 0 a0).
  - destruct (next_bit_cons r _ _ Hr) as (r1 & -> & Hr1). cbn [app] in Hr1.
    destruct (next_term_reads r1 false (a0 + 1) l Hr1) as (r' & -> & Hr'); [lia|apply width_small; lia|].
    rewrite (proj2 (Z.ltb_ge _ _)) by lia. exists r'. split; [|done]. do 2 f_equal. lia.
  - destruct (next_bit_cons r _ _ Hr) as (r1 & -> & Hr1). cbn [app] in Hr1.
    destruct (next_term_reads r1 true (- a0) l Hr1) as (r' & -> & Hr'); [lia|apply width_small; lia|].
    rewrite (proj2 (Z.ltb_ge _ _)) by lia. exists r'. split; [|done]. destruct (Z.eqb_spec (- a0) (2 ^ 127)); do 2 f_equal; lia.
Qed.

Lemma decode_encoded num den raw : (- 2 ^ 127 < num < 2 ^ 127)%Z → (0 < den < 2 ^ 127)%Z → encode_parts num den = Some (inr raw) →
  ∃ p q, decode_parts raw = Some (inr (p, q)) ∧ (num = p * Z.gcd num den)%Z ∧ (den = q * Z.gcd num den)%Z ∧ (0 < q)%Z.
Proof.
  intros Hn Hd He. assert (in_i128 num = true) as Hin by (unfold in_i128; rewrite (proj2 (Z.leb_le _ _)), (proj2 (Z.ltb_lt _ _)) by lia; done).
  assert (in_i128 den = true) as Hid by (unfold in_i128; rewrite (proj2 (Z.leb_le _ _)), (proj2 (Z.ltb_lt _ _)) by lia; done).
  destruct (encode_inr num den raw Hin Hid ltac:(lia) He) as (ts & Hts & Hfit & Hok & Hb).
  pose proof (floor_range num den Hin ltac:(lia)) as Ha. pose proof (Z.mod_pos_bound num den ltac:(lia)) as Hm.
  pose proof (reads_new raw Hok) as Hr. rewrite Hb in Hr. unfold all_codes in Hfit. rewrite length_app in Hfit.
  unfold decode_parts. destruct (decode_first_reads _ _ _ Hr Ha) as (r & -> & Hr'). rewrite cf_step_in by lia. rewrite cf_step_in by lia.
  pose proof (Z.div_mod num den ltac:(lia)) as E.
  destruct (decode_terms_reads 258 r den (num mod den) ts (256 - length (first_code (num / den))) 1 (num / den * 1 + 0) 1 (num / den * 0 + 1) 0 None num den)
    as (p & q & Hdec & Hp & Hq & Hpos); [done|lia|done|lia|lia|unfold signs; lia|lia|lia|lia|lia|lia|lia|done|].
  exists p, q. split; [exact Hdec|]. rewrite Z.gcd_comm, Z.gcd_mod, Z.gcd_comm in Hp, Hq by lia. done.
Qed.

(** ** Accepting only what is encoded *)

(** The number a list of terms stands for, as [n / d]. *)
Fixpoint eval (ts : list Z) : Z * Z :=
  match ts with
  | [] => (1, 0)%Z
  | t :: ts => let '(n, d) := eval ts in ((t * n + d)%Z, n)
  end.

(** Euclid's terms: positive, the last one above one. *)
Definition canonical_terms (ts : list Z) : Prop := Forall (λ t, 0 < t)%Z ts ∧ last ts ≠ Some 1%Z.

Lemma canonical_tail t ts : canonical_terms (t :: ts) → canonical_terms ts.
Proof. intros [H1 H2]. apply Forall_cons in H1 as [_ H1]. split; [done|]. by destruct ts. Qed.

Lemma eval_euclid ts : canonical_terms ts → let '(n, d) := eval ts in (0 <= d < n)%Z ∧ euclid n d ts ∧ Z.gcd n d = 1%Z.
Proof.
  induction ts as [|t ts IH]; intros Hc; cbn [eval]; [split_and!; [lia|lia|constructor|done]|].
  pose proof (canonical_tail _ _ Hc) as Hc'. specialize (IH Hc'). destruct (eval ts) as [n d] eqn:E. destruct IH as (Hd & He & Hg).
  destruct Hc as [H1 H2]. apply Forall_cons in H1 as [Ht H1].
  assert (n < t * n + d)%Z as Hlt.
  { destruct ts as [|t' ts']; [|assert (0 < d)%Z; [|nia]].
    - cbn [eval] in E. simplify_eq. assert (t ≠ 1)%Z by (intros ->; by apply H2). lia.
    - cbn [eval] in E. destruct (eval ts') as [n' d'] eqn:E'. simplify_eq.
      pose proof (canonical_tail _ _ Hc') as Hc''. destruct ts' as [|t'' ts'']; cbn [eval] in E'; [simplify_eq; lia|].
      destruct (eval ts''); simplify_eq. inversion He; subst; lia. }
  assert ((t * n + d) / n = t ∧ (t * n + d) mod n = d)%Z as [Ediv Emod].
  { split; symmetry; [apply Z.div_unique with d; lia|apply Z.mod_unique with t; lia]. }
  split_and!; [lia|lia| |].
  - rewrite <-Ediv at 2. constructor; [lia|]. by rewrite Emod.
  - rewrite Z.gcd_comm, <-Z.gcd_mod, Emod, Z.gcd_comm by lia. done.
Qed.

Definition or_else (o l : option Z) : option Z := match o with Some x => Some x | None => l end.

Lemma decode_terms_inv fuel r position p1 p2 q1 q2 l bs p q : decode_terms fuel r position p1 p2 q1 q2 l = Some (inr (p, q)) →
  reads r bs → ∃ ts, bs = tail_bits (length bs) position ts ∧ length (codes position ts) <= length bs ∧
    Forall (λ t, 0 < t)%Z ts ∧ or_else (last ts) l ≠ Some 1%Z ∧
    p = (p1 * (eval ts).1 + p2 * (eval ts).2)%Z ∧ q = (q1 * (eval ts).1 + q2 * (eval ts).2)%Z ∧
    (ts ≠ [] → - 2 ^ 127 <= p < 2 ^ 127 ∧ - 2 ^ 127 <= q < 2 ^ 127)%Z.
Proof.
  revert r position p1 p2 q1 q2 l bs. induction fuel as [|fuel IH]; intros r position p1 p2 q1 q2 l bs Hd Hr; [done|]. cbn [decode_terms] in Hd.
  destruct (rest_is r (negb (odd_pos position))) eqn:E.
  { apply (rest_is_spec _ _ _ Hr) in E. case_decide as Hl; [done|]. simplify_eq. exists []. unfold tail_bits. cbn [codes length app eval or_else last fst snd].
    rewrite Nat.sub_0_r, Nat.add_0_r, even_odd. split_and!; [done|lia|constructor|done|lia|lia|done]. }
  destruct (next_term r (odd_pos position)) as [|[t r']] eqn:Ht; [done|].
  destruct (next_term_inv r (odd_pos position) bs t r' Hr Ht) as ([Hpos _] & rest & -> & Hr').
  destruct (checked t) as [a|] eqn:Ha; [|done]. apply checked_inv in Ha as [-> _].
  destruct (cf_step t p1 p2) as [|p'] eqn:Hp; [done|]. destruct (cf_step t q1 q2) as [|q'] eqn:Hq; [done|].
  apply cf_step_inv in Hp as [-> Bp], Hq as [-> Bq].
  destruct (IH _ _ _ _ _ _ _ rest Hd Hr') as (ts & Hrest & Hlen & Hall & Hlast & -> & -> & Hb).
  exists (t :: ts). rewrite length_app. split_and!.
  - rewrite tail_bits_cons by lia. f_equal. rewrite Hrest at 1. f_equal. lia.
  - cbn [codes]. rewrite length_app. lia.
  - by constructor.
  - rewrite last_cons. unfold or_else in *. by destruct (last ts).
  - cbn [eval]. destruct (eval ts) as [n d]. simpl. ring.
  - cbn [eval]. destruct (eval ts) as [n d]. simpl. ring.
  - intros _. destruct ts as [|t' ts]; [cbn [eval fst snd]; lia|by apply Hb].
Qed.

Lemma decode_first_inv r bs a0 r' : reads r bs → decode_first r = inr (a0, r') →
  (- 2 ^ 127 <= a0 < 2 ^ 127)%Z ∧ ∃ rest, bs = first_code a0 ++ rest ∧ reads r' rest.
Proof.
  intros Hr. unfold decode_first, first_code, LIMIT. destruct bs as [|b bs]; [by rewrite (next_bit_nil r Hr)|].
  destruct (next_bit_cons r b bs Hr) as (r1 & -> & Hr1). destruct b.
  - destruct (next_term r1 false) as [|[m r2]] eqn:Ht; [done|]. destruct (next_term_inv _ _ _ _ _ Hr1 Ht) as ([Hp _] & rest & -> & Hr2).
    destruct (Z.ltb_spec (2 ^ 127) m); [done|]. intros [= <- <-]. split; [lia|]. exists rest. split; [|done].
    rewrite (proj2 (Z.leb_le _ _)) by lia. by replace (m - 1 + 1)%Z with m by lia.
  - destruct (next_term r1 true) as [|[m r2]] eqn:Ht; [done|]. destruct (next_term_inv _ _ _ _ _ Hr1 Ht) as ([Hp _] & rest & -> & Hr2).
    destruct (Z.ltb_spec (2 ^ 127) m); [done|]. intros [= <- <-].
    assert ((if (m =? 2 ^ 127)%Z then - 2 ^ 127 else - m)%Z = (- m)%Z) as -> by (destruct (Z.eqb_spec m (2 ^ 127)); lia).
    split; [lia|]. exists rest. split; [|done]. rewrite (proj2 (Z.leb_gt _ _)) by lia. by rewrite Z.opp_involutive.
Qed.

Lemma bits_inj a b : bytes_ok 32 a → bytes_ok 32 b → bits a = bits b → a = b.
Proof. intros Ha Hb E. apply lex_cmp_eq. by rewrite <-bits_order, E, blex_refl. Qed.

(** Accepted bytes are the encoding of the number they decode to. *)
Lemma decode_inv raw p q : bytes_ok 32 raw → decode_parts raw = Some (inr (p, q)) →
  in_i128 p = true ∧ in_i128 q = true ∧ (0 < q)%Z ∧ Z.gcd p q = 1%Z ∧ encode_parts p q = Some (inr raw).
Proof.
  intros Hok. unfold decode_parts. pose proof (reads_new raw Hok) as Hr.
  destruct (decode_first (mkReader raw 0)) as [|[a0 r]] eqn:Hf; [done|].
  destruct (decode_first_inv _ _ _ _ Hr Hf) as (Ha & rest & Hb & Hr'). rewrite cf_step_in by lia. rewrite cf_step_in by lia. intros Hd.
  destruct (decode_terms_inv _ _ _ _ _ _ _ _ rest p q Hd Hr') as (ts & Hrest & Hlen & Hall & Hlast & Hp & Hq & Hrange).
  assert (canonical_terms ts) as Hc by (split; [done|]; by destruct (last ts)).
  pose proof (eval_euclid ts Hc) as He. destruct (eval ts) as [n d] eqn:Ev. destruct He as (Hnd & Heu & Hg). cbn [fst snd] in Hp, Hq.
  replace (a0 * 1 + 0)%Z with a0 in Hp by lia. replace q with n in * by lia. clear Hq. rewrite Z.mul_1_l in Hp.
  assert ((p / n)%Z = a0 ∧ (p mod n)%Z = d) as [Ediv Emod].
  { split; symmetry; [apply Z.div_unique with d; lia|apply Z.mod_unique with a0; lia]. }
  assert (- 2 ^ 127 <= p < 2 ^ 127 ∧ n < 2 ^ 127)%Z as [Hpr Hnr].
  { destruct ts as [|t ts]; [|by destruct (Hrange ltac:(done)); lia]. cbn [eval] in Ev. simplify_eq. lia. }
  assert (in_i128 p = true ∧ in_i128 n = true) as [Ip In].
  { unfold in_i128. split; rewrite (proj2 (Z.leb_le _ _)), (proj2 (Z.ltb_lt _ _)); lia || done. }
  split_and!; [done|done|lia| |].
  - rewrite Z.gcd_comm, <-Z.gcd_mod, Emod, Z.gcd_comm by lia. done.
  - rewrite <-Emod in Heu. destruct (encode_spec p n ts Ip In ltac:(lia) Heu) as (o & -> & Ho). rewrite Ediv in Ho.
    pose proof (bits_length raw) as Hlr. rewrite Hb, length_app in Hlr.
    rewrite decide_True in Ho by (unfold all_codes; rewrite length_app; lia). destruct Ho as (raw' & -> & Hok' & Hb').
    rewrite padded_all in Hb' by (unfold all_codes; rewrite length_app; lia). do 2 f_equal. apply bits_inj; [done..|].
    rewrite Hb, Hb', Hrest. do 2 f_equal. lia.
Qed.

(** ** Totality and the representable subset *)

Lemma next_term_shorter r i bs t r' : reads r bs → next_term r i = inr (t, r') → ∃ rest, reads r' rest ∧ length rest < length bs.
Proof.
  intros Hr Ht. destruct (next_term_inv r i bs t r' Hr Ht) as (_ & rest & -> & Hr'). exists rest. split; [done|].
  rewrite length_app, code_length. lia.
Qed.

Lemma decode_terms_total fuel r position p1 p2 q1 q2 l bs : reads r bs → length bs < fuel →
  ∃ o, decode_terms fuel r position p1 p2 q1 q2 l = Some o.
Proof.
  revert r position p1 p2 q1 q2 l bs. induction fuel as [|fuel IH]; intros r position p1 p2 q1 q2 l bs Hr Hf; [lia|]. cbn [decode_terms].
  destruct (rest_is r (negb (odd_pos position))); [by eexists|].
  destruct (next_term r (odd_pos position)) as [|[t r']] eqn:Ht; [by eexists|].
  destruct (next_term_shorter _ _ _ _ _ Hr Ht) as (rest & Hr' & Hlt).
  destruct (checked t); [|by eexists]. destruct (cf_step _ p1 p2); [by eexists|]. destruct (cf_step _ q1 q2); [by eexists|].
  apply (IH _ _ _ _ _ _ _ rest); [done|lia].
Qed.

Lemma decode_total raw : bytes_ok 32 raw → ∃ o, decode_parts raw = Some o.
Proof.
  intros Hok. unfold decode_parts. pose proof (reads_new raw Hok) as Hr.
  destruct (decode_first (mkReader raw 0)) as [|[a0 r]] eqn:Hf; [by eexists|].
  destruct (decode_first_inv _ _ _ _ Hr Hf) as (_ & rest & Hb & Hr').
  destruct (cf_step a0 1 0); [by eexists|]. destruct (cf_step a0 0 1); [by eexists|]. apply (decode_terms_total _ _ _ _ _ _ _ _ rest); [done|].
  pose proof (bits_length raw) as Hl. rewrite Hb, length_app in Hl. lia.
Qed.

Lemma in_i128_spec z : in_i128 z = true ↔ (- 2 ^ 127 <= z < 2 ^ 127)%Z.
Proof. unfold in_i128. by rewrite andb_true_iff, Z.leb_le, Z.ltb_lt. Qed.

Lemma encode_fits num den ts : in_i128 num = true → in_i128 den = true → (0 < den)%Z → euclid den (num mod den) ts →
  length (all_codes (num / den) ts) <= 256 → ∃ raw, bytes_ok 32 raw ∧ encode_parts num den = Some (inr raw).
Proof.
  intros Hn Hd Hp Hts Hfit. destruct (encode_spec num den ts Hn Hd Hp Hts) as (o & Ho & Hc).
  rewrite decide_True in Hc by done. destruct Hc as (raw & -> & Hok & _). by exists raw.
Qed.

Lemma first_code_length a0 : (- 2 ^ 127 <= a0 < 2 ^ 127)%Z → length (first_code a0) <= 256.
Proof.
  intros Ha. unfold first_code. destruct (Z.leb_spec 0 a0); simpl; rewrite code_length.
  - pose proof (width_small (a0 + 1) ltac:(lia)). lia.
  - pose proof (width_small (- a0) ltac:(lia)). lia.
Qed.

Lemma integers_fit num : in_i128 num = true → ∃ raw, bytes_ok 32 raw ∧ encode_parts num 1 = Some (inr raw).
Proof.
  intros Hn. apply (encode_fits num 1 []); [done|done|lia|rewrite Z.mod_1_r; constructor|]. rewrite Z.div_1_r.
  unfold all_codes. simpl. rewrite app_nil_r. by apply first_code_length, in_i128_spec.
Qed.

Lemma unit_fractions_fit den : in_i128 den = true → (0 < den)%Z → ∃ raw, bytes_ok 32 raw ∧ encode_parts 1 den = Some (inr raw).
Proof.
  intros Hd Hp. destruct (decide (den = 1%Z)) as [->|Hne]; [by apply integers_fit|].
  apply (encode_fits 1 den [den / 1]%Z); [done|done|done| |].
  - rewrite (Z.mod_small 1 den) by lia. constructor; [lia|]. rewrite Z.mod_1_r. constructor.
  - rewrite (Z.div_small 1 den), Z.div_1_r by lia. unfold all_codes, first_code. cbn [codes]. rewrite app_nil_r.
    change (0 <=? 0)%Z with true. cbn [length app]. rewrite length_app, !code_length. change (width (0 + 1)) with 0.
    apply in_i128_spec in Hd. assert (Z.log2 den <= 126)%Z; [|unfold width; pose proof (Z.log2_nonneg den); lia].
    assert (Z.log2 den < 127)%Z; [apply Z.log2_lt_pow2; lia|lia].
Qed.

(** ** Properties *)

(** C35. The bytes of ordered rationals sort as the numbers: for positive
    denominators, comparing the encodings byte by byte is comparing the
    fractions; equal fractions have equal encodings. *)
Theorem rord_monotone n1 d1 n2 d2 raw1 raw2 : in_i128 n1 = true → in_i128 d1 = true → in_i128 n2 = true → in_i128 d2 = true →
  (0 < d1)%Z → (0 < d2)%Z → encode_parts n1 d1 = Some (inr raw1) → encode_parts n2 d2 = Some (inr raw2) →
  lex_cmp raw1 raw2 = (n1 * d2 ?= n2 * d1)%Z.
Proof. apply encode_order. Qed.

(** C36. What the encoder writes the decoder reads back, in lowest terms; the
    numerator [i128::MIN] is excluded unless the denominator is one. *)
Theorem rord_roundtrip num den raw : in_i128 num = true → (0 < den < 2 ^ 127)%Z → (num = - 2 ^ 127 → den = 1)%Z →
  try_to_inline (num, den) = Some (inr raw) →
  let g := Z.gcd num den in
  try_from_inline raw = Some (inr (num / g, den / g)%Z) ∧ validate raw = Some (inr raw).
Proof.
  unfold try_to_inline, try_from_inline. cbn [fst snd]. intros Hn%in_i128_spec Hd Hmin He. set (g := Z.gcd num den).
  assert (∃ p q, decode_parts raw = Some (inr (p, q)) ∧ (num = p * g)%Z ∧ (den = q * g)%Z ∧ (0 < q)%Z) as (p & q & Hdec & Hp & Hq & Hpos).
  { destruct (decide (num = - 2 ^ 127)%Z) as [E|]; [|apply decode_encoded; [lia|done|done]].
    specialize (Hmin E). subst num den. vm_compute in He. injection He as <-. exists (- 2 ^ 127)%Z, 1%Z. by split_and!; vm_compute. }
  assert (g ≠ 0)%Z as Hg by (intros E; rewrite E in Hq; lia).
  assert ((num / g)%Z = p ∧ (den / g)%Z = q) as [-> ->].
  { split; [rewrite Hp|rewrite Hq]; by apply Z.div_mul. }
  split; [done|]. unfold validate. by rewrite Hdec.
Qed.

(** Decoding always returns, and bytes it accepts are the one encoding of the
    reduced fraction it returns: a fraction in lowest terms with a positive
    denominator, both parts 128-bit integers, which encodes to these bytes. *)
Theorem rord_canonical raw : bytes_ok 32 raw → ∃ o, decode_parts raw = Some o ∧
  ∀ p q, o = inr (p, q) → in_i128 p = true ∧ in_i128 q = true ∧ (0 < q)%Z ∧ Z.gcd p q = 1%Z ∧ encode_parts p q = Some (inr raw).
Proof.
  intros Hok. destruct (decode_total raw Hok) as (o & Ho). exists o. split; [done|]. intros p q ->. by apply decode_inv.
Qed.

(** Encoding always returns. It refuses a zero denominator, moves the sign of
    a negative one to the numerator unless a negation overflows, and otherwise
    fails exactly if the codes of the continued fraction need more than 256
    bits; every integer and every unit fraction fits. *)
Theorem rord_domain num den : in_i128 num = true → in_i128 den = true →
  encode_parts num 0 = Some (inl ZeroDenominator) ∧
  (den < 0 → encode_parts num den =
    if bool_decide (num = - 2 ^ 127 ∨ den = - 2 ^ 127) then Some (inl OutOfDomain) else encode_parts (- num) (- den))%Z ∧
  ((0 < den)%Z → ∃ ts, euclid den (num mod den) ts ∧
    if decide (length (all_codes (num / den) ts) <= 256) then ∃ raw, encode_parts num den = Some (inr raw)
    else encode_parts num den = Some (inl OutOfDomain)) ∧
  (∃ raw, encode num = Some raw) ∧
  ((0 < den)%Z → ∃ raw, encode_parts 1 den = Some (inr raw)).
Proof.
  intros Hn Hd. split_and!.
  - done.
  - intros Hneg. apply in_i128_spec in Hn, Hd. unfold encode_parts at 1. rewrite (proj2 (Z.eqb_neq den 0)), (proj2 (Z.ltb_lt den 0)) by lia.
    unfold checked_neg, checked. case_bool_decide as E.
    + assert (in_i128 (- num) = false ∨ in_i128 (- den) = false) as [-> | ->]; [|done|by destruct (in_i128 (- num))].
      destruct E as [-> | ->]; [left|right]; done.
    + assert (in_i128 (- num) = true ∧ in_i128 (- den) = true) as [-> ->] by (rewrite !in_i128_spec; lia).
      unfold encode_parts. by rewrite (proj2 (Z.eqb_neq (- den) 0)), (proj2 (Z.ltb_ge (- den) 0)) by lia.
  - intros Hp. destruct (euclid_exists den (num mod den)) as [ts Hts]; [by apply Z.mod_pos_bound|]. exists ts. split; [done|].
    destruct (encode_spec num den ts Hn Hd Hp Hts) as (o & -> & Ho). destruct (decide _); [|by subst].
    destruct Ho as (raw & -> & _). by exists raw.
  - destruct (integers_fit num Hn) as (raw & _ & Hr). exists raw. unfold encode. by rewrite Hr.
  - intros Hp. destruct (unit_fractions_fit den Hd Hp) as (raw & _ & Hr). by exists raw.
Qed.

(** The encoder accepts [i128::MIN / ((2^127 + 1) / 3)], a fraction in lowest
    terms; the decoder, and so validation, refuses the bytes with [Overflow],
    since the second continuant overflows before its addend brings it back. *)
Theorem rord_refuses_own : let den := ((2 ^ 127 + 1) / 3)%Z in Z.gcd (- 2 ^ 127) den = 1%Z ∧
  ∃ raw, encode_parts (- 2 ^ 127) den = Some (inr raw) ∧ decode_parts raw = Some (inl Overflow) ∧ validate raw = Some (inl Overflow).
Proof.
  split; [vm_compute; reflexivity|]. eexists. split; [vm_compute; reflexivity|]. split; vm_compute; reflexivity.
Qed.
