(* ===== verification/EncodingExamples.v ===== *)
(** * EncodingExamples: the inline encodings at work

    The theorems on encodings applied to concrete values. *)

From S2P Require Import Prelude Lex KeySchema Trible ROrd256 ROrd256Spec ROrd256Read.

Open Scope nat_scope.

(** ** Ordered rationals *)

Definition ex_encoded (num den : Z) : list N := match encode_parts num den with Some (inr raw) => raw | _ => [] end.

Lemma rord_monotone_witness : lex_cmp (ex_encoded 2 3) (ex_encoded 1 1) = Lt ∧ (2 * 1 ?= 1 * 3)%Z = Lt.
Proof.
  split; [|reflexivity]. rewrite (rord_monotone 2 3 1 1); [reflexivity|reflexivity..].
Defined.

Lemma rord_roundtrip_witness :
  try_from_inline (ex_encoded (-14) 24) = Some (inr (-7, 12)%Z) ∧ validate (ex_encoded (-14) 24) = Some (inr (ex_encoded (-14) 24)).
Proof.
  apply (rord_roundtrip (-14) 24); [reflexivity|lia|lia|vm_compute; reflexivity].
Defined.

Lemma rord_canonical_witness : ∃ o, decode_parts (ex_encoded 4 6) = Some o ∧ o = inr (2, 3)%Z ∧
  encode_parts 2 3 = Some (inr (ex_encoded 4 6)).
Proof.
  destruct (rord_canonical (ex_encoded 4 6)) as (o & Ho & Hc).
  - split; [vm_compute; reflexivity|]. vm_compute. repeat constructor.
  - exists o. assert (o = inr (2, 3)%Z) as E by (vm_compute in Ho; congruence). split; [exact Ho|]. split; [exact E|].
    apply (Hc 2 3)%Z. exact E.
Defined.

Lemma rord_domain_witness : encode_parts 5 (-3) = encode_parts (-5) 3 ∧ (∃ raw, encode 5 = Some raw).
Proof.
  destruct (rord_domain 5 (-3)) as (_ & Hneg & _ & Hint & _); [reflexivity|reflexivity|].
  split; [apply Hneg; lia|exact Hint].
Defined.
