(* ===== verification/Register.v ===== *)
(** * Register: the order of a register's states and the reader's choice

    Source: [triblespace-core/src/query/register.rs].

    A register is read by asking an order which states others dominate; what
    remains is current.  The trait [RegisterOrder] is the class of that name;
    asking may run a query, so it is partial. *)

From S2P Require Import Prelude Lex BTree VariableSet Liveness Query Trible InlineEncodings Membership.

Open Scope nat_scope.

Inductive End := Last | First.

Definition flip (self : End) : End := match self with Last => First | First => Last end.

Class RegisterOrder (O : Type) := dominated : O → Id → res bool.

(** ** Resolution *)

(** [BTreeSet<Id>] *)
Definition resolve {O} `{RegisterOrder O} (order : O) (candidates : list Id) : res (list Id) :=
  foldM (λ set candidate,
    d ← dominated order candidate;
    Some (if (d : bool) then set else bts_insert Id_cmp candidate set)) [] candidates.

Inductive Resolution := Empty | Sole (id : Id) | Fork (states : list Id).

Definition resolution_sole (self : Resolution) : option Id := match self with Sole id => Some id | _ => None end.
Definition resolution_states (self : Resolution) : list Id :=
  match self with Empty => [] | Sole id => [id] | Fork set => set end.

(** The [expect] on the one element. *)
Definition sole {O} `{RegisterOrder O} (order : O) (candidates : list Id) : res Resolution :=
  resolved ← resolve order candidates;
  match length resolved with
  | 0 => Some Empty
  | 1 => id ← head_of resolved; Some (Sole id)
  | _ => Some (Fork resolved)
  end.

(** ** The empty order *)

Inductive Unordered := unordered.
#[global] Instance unordered_order : RegisterOrder Unordered := λ _ _, Some false.

(** ** Restricting a variable to what is current *)

Module Maximal.
Section ops.
Context {O : Type} `{RegisterOrder O}.

Record Maximal := mkMaximal { mx_variable : VariableId; mx_order : O }.
Implicit Types c : Maximal.

Definition survives c (v : RawInline) : res bool :=
  match GenId.try_from_inline v with
  | inr state => d ← dominated (mx_order c) state; Some (negb d)
  | inl _ => Some false
  end.

Definition variables c : VariableSet := new_singleton (mx_variable c).

Definition estimate c (variable : VariableId) (b : Binding) : res (option N) :=
  Some (if (mx_variable c =? variable)%N then Some (2 ^ 64 - 1)%N else None).

Definition propose c (variable : VariableId) (f : Frontier) (proposals : ProposalBuffer) : res ProposalBuffer :=
  Some proposals.

Definition confirm c (variable : VariableId) (f : Frontier) (cands : Candidates) : res Candidates :=
  if (mx_variable c =? variable)%N then confirm_live (survives c) cands else Some cands.

Definition satisfied c (b : Binding) : res bool :=
  o ← bget b (mx_variable c);
  match o with Some v => survives c v | None => Some true end.

Definition constraint c : Constraint :=
  mkConstraint (variables c) (estimate c) (propose c) (confirm c) (satisfied c) (default_influence (variables c)).
End ops.
End Maximal.

(** ** What resolution leaves *)

Lemma raw_bts_insert x (s : list Id) : raw <$> bts_insert Id_cmp x s = bts_insert lex_cmp (raw x) (raw <$> s).
Proof.
  induction s as [|y s IH]; [done|]. rewrite fmap_cons. cbn [bts_insert]. unfold Id_cmp at 1.
  destruct (lex_cmp (raw x) (raw y)); rewrite ?fmap_cons; [done..|]. by rewrite IH.
Qed.

Lemma elem_of_id_insert x y (s : list Id) : id_ok x → Forall id_ok s → y ∈ bts_insert Id_cmp x s ↔ y = x ∨ y ∈ s.
Proof.
  intros Hx Hs. induction Hs as [|z s Hz _ IH]; cbn [bts_insert]; [set_solver|].
  destruct (Id_cmp x z) eqn:E; [apply id_cmp_eq in E as ->; [set_solver|done..]|set_solver|].
  rewrite !elem_of_cons, IH. tauto.
Qed.

Section resolve.
Context {O : Type} `{RegisterOrder O} (order : O).

(** The candidates nothing dominates, ascending and without repetition. *)
Lemma resolve_spec candidates (D : Id → bool) : Forall id_ok candidates →
  (∀ x, x ∈ candidates → dominated order x = Some (D x)) →
  ∃ set, resolve order candidates = Some set ∧ ascending lex_cmp (raw <$> set) ∧ NoDup set ∧
    ∀ x, x ∈ set ↔ x ∈ candidates ∧ D x = false.
Proof.
  intros Hok HD. unfold resolve.
  assert (∀ set, Forall id_ok set → ascending lex_cmp (raw <$> set) → ∃ set',
    foldM (λ set candidate, d ← dominated order candidate; Some (if (d : bool) then set else bts_insert Id_cmp candidate set))
      set candidates = Some set' ∧ ascending lex_cmp (raw <$> set') ∧
      ∀ x, x ∈ set' ↔ x ∈ set ∨ x ∈ candidates ∧ D x = false) as Hf.
  { induction Hok as [|c cands Hc Hok IH]; intros set Hset Hs; cbn [foldM].
    { exists set. split_and!; [done..|]. intros x. rewrite elem_of_nil. tauto. }
    rewrite HD by by left. cbn [mbind option_bind]. destruct (D c) eqn:Ec.
    - destruct (IH (λ x Hx, HD x (list_elem_of_further _ _ _ Hx)) set Hset Hs) as (s' & -> & Hs' & Hin). exists s'. split_and!; [done..|].
      intros x. rewrite Hin, elem_of_cons. split; [tauto|]. intros [?|[[-> |?] ?]]; [tauto|congruence|tauto].
    - destruct (IH (λ x Hx, HD x (list_elem_of_further _ _ _ Hx)) (bts_insert Id_cmp c set)) as (s' & -> & Hs' & Hin).
      + rewrite Forall_forall in Hset |- *. intros x [-> |?]%elem_of_id_insert; try done; [auto|]. by apply Forall_forall.
      + rewrite raw_bts_insert. by apply bts_insert_ascending; [apply _|].
      + exists s'. split_and!; [done..|]. intros x. rewrite Hin, elem_of_id_insert, elem_of_cons by done.
        split; [intros [[-> |?]|?]; tauto|tauto]. }
  destruct (Hf []) as (set & -> & Hs & Hin); [constructor..|]. exists set. split_and!; [done..| |].
  - apply (NoDup_fmap_1 raw). by apply (ascending_NoDup lex_cmp).
  - intros x. rewrite Hin, elem_of_nil. tauto.
Qed.

(** The resolution names which of the three cases it is. *)
Lemma sole_spec candidates (D : Id → bool) : Forall id_ok candidates →
  (∀ x, x ∈ candidates → dominated order x = Some (D x)) →
  ∃ r set, resolve order candidates = Some set ∧ sole order candidates = Some r ∧ resolution_states r = set ∧
    match r with Empty => set = [] | Sole id => set = [id] | Fork s => s = set ∧ 2 <= length set end.
Proof.
  intros Hok HD. destruct (resolve_spec candidates D Hok HD) as (set & Hr & _). unfold sole. rewrite Hr. cbn [mbind option_bind].
  destruct set as [|x [|y set]]; simpl; eexists _, _; (split_and!; [done..|]); [done|done|]. simpl. split; [done|lia].
Qed.
End resolve.
