(* ===== verification/LwwRegister.v ===== *)
(** * LwwRegister: the maintained projection of a last-write-wins register

    Source: [triblespace-core/src/collection/lww_register.rs], the element.

    An element is a header of two counts and two strictly ascending sections of
    rows: state and register, state and order key.  [IdentityRow], [OrderRow] and
    the tuples of the two [BTreeSet]s are pairs of byte arrays compared field by
    field.  Rows are byte aligned, so a blob is its bytes.  [usize] has 64 bits;
    the views of [zerocopy] and [anybytes] are the class [RowViews]. *)

From S2P Require Import Prelude Lex BTree Machine Query KeySchema Trible SimpleArchive InlineEncodings.

Open Scope nat_scope.

Abbreviation RawId := (list N) (only parsing).
Abbreviation RawKey := (list N) (only parsing).
Abbreviation Row := (list N * list N)%type.
Abbreviation Blob := (list N) (only parsing).

Definition row_cmp : Row → Row → comparison := pair_cmp lex_cmp lex_cmp.

Definition ROW_ID_LEN : nat := 16.
Definition ROW_KEY_LEN : nat := 32.
Definition HEADER_LEN : N := 16.
Definition IDENTITY_ROW_LEN : N := 32.
Definition ORDER_ROW_LEN : N := 48.

Definition nil_id : RawId := replicate ROW_ID_LEN 0%N.

Inductive LwwRegisterError :=
  | InvalidSource (source : UnarchiveError)
  | BadLength (expected actual : N)
  | CountOverflow
  | IdentityOrder
  | KeyOrder
  | NilState
  | NilRegister
  | ConflictingIdentity (state : RawId)
  | ConflictingOrder (state : RawId).
#[global] Instance LwwRegisterError_eq_dec : EqDecision LwwRegisterError.
Proof. solve_decision. Defined.

(** [Result<A, LwwRegisterError>]. *)
Abbreviation lww_result A := (LwwRegisterError + A)%type.

(** ** Views of bytes *)

(** [Header::ref_from_prefix], [get] of its two integers, and the views of the
    two sections. *)
Class RowViews := {
  header_prefix : list N → option (N * N);
  view_identities : list N → option (list Row);
  view_orders : list N → option (list Row);
}.

(** An integer in big-endian bytes. *)
Definition be_bytes (n : nat) (x : N) : list N := rev (le_bytes n x).
Definition of_be_bytes (l : list N) : N := of_le_bytes (rev l).

(** The rows of [n] bytes, each split after the state. *)
Definition split_rows (n : nat) (l : list N) : list Row :=
  (λ c, (take ROW_ID_LEN c, drop ROW_ID_LEN c)) <$> chunks n l.

(** A prefix must be long enough, a section a multiple of its row. *)
Class RowViewsOk (V : RowViews) : Prop := {
  header_prefix_spec l : header_prefix l =
    if decide (16 <= length l) then Some (of_be_bytes (take 8 l), of_be_bytes (take 8 (drop 8 l))) else None;
  view_identities_spec l : view_identities l = if decide (length l mod 32 = 0) then Some (split_rows 32 l) else None;
  view_orders_spec l : view_orders l = if decide (length l mod 48 = 0) then Some (split_rows 48 l) else None;
}.

(** ** Machine sizes *)

Definition usize_max : N := (2 ^ 64 - 1)%N.
Definition isize_max : N := (2 ^ 63 - 1)%N.
Definition try_usize (x : N) : option N := if (x <=? usize_max)%N then Some x else None.
Definition checked_add (x y : N) : option N := try_usize (x + y).
Definition checked_mul (x y : N) : option N := try_usize (x * y).

(** ** Projections *)

Record Projection := mkProjection { identities : list Row; orders : list Row }.
#[global] Instance Projection_eq_dec : EqDecision Projection.
Proof. solve_decision. Defined.

Definition projection_default : Projection := mkProjection [] [].

Definition projection_union (self other : Projection) : Projection :=
  mkProjection (bts_extend row_cmp (identities self) (identities other)) (bts_extend row_cmp (orders self) (orders other)).

Definition row_bytes (r : Row) : list N := r.1 ++ r.2.

(** A capacity above [isize::MAX] is a panic. *)
Definition projection_encode (p : Projection) : res Blob :=
  identity_count ← try_usize (N.of_nat (length (identities p)));
  order_count ← try_usize (N.of_nat (length (orders p)));
  _ ← massert (HEADER_LEN + identity_count * IDENTITY_ROW_LEN + order_count * ORDER_ROW_LEN <=? isize_max)%N;
  Some (be_bytes 8 identity_count ++ be_bytes 8 order_count ++ concat (row_bytes <$> identities p)
    ++ concat (row_bytes <$> orders p)).

Definition checked_payload_len (identity_count order_count : N) : option N :=
  i ← checked_mul identity_count IDENTITY_ROW_LEN;
  total ← checked_add HEADER_LEN i;
  o ← checked_mul order_count ORDER_ROW_LEN;
  checked_add total o.

Section decode.
Context `{V : RowViews}.

(** [ProjectionRows], the two sections as viewed, and [decode]. *)
Record ProjectionRows := mkRows { pr_identities : list Row; pr_orders : list Row }.

Definition projection_rows_decode (blob : Blob) : res (lww_result ProjectionRows) :=
  let len := N.of_nat (length blob) in
  match header_prefix blob with
  | None => Some (inl (BadLength HEADER_LEN len))
  | Some (h_identities, h_orders) =>
      match try_usize h_identities, try_usize h_orders with
      | Some identity_count, Some order_count =>
          match checked_payload_len identity_count order_count with
          | None => Some (inl CountOverflow)
          | Some expected =>
              if negb (len =? expected)%N then Some (inl (BadLength expected len)) else
              let identity_end := (HEADER_LEN + identity_count * IDENTITY_ROW_LEN)%N in
              identity_bytes ← slice_range blob (N.to_nat HEADER_LEN) (N.to_nat identity_end);
              order_bytes ← slice_range blob (N.to_nat identity_end) (length blob);
              match view_identities identity_bytes with
              | None => Some (inl (BadLength expected len))
              | Some ids =>
                  match view_orders order_bytes with
                  | None => Some (inl (BadLength expected len))
                  | Some ords => Some (inr (mkRows ids ords))
                  end
              end
          end
      | _, _ => Some (inl CountOverflow)
      end
  end.

(** One section: the row rule, then the order, then the insertion. *)
Fixpoint audit_rows (rule : Row → option LwwRegisterError) (misordered : LwwRegisterError) (previous : option Row)
    (rows : list Row) (set : list Row) : lww_result (list Row) :=
  match rows with
  | [] => inr set
  | current :: rows =>
      match rule current with
      | Some e => inl e
      | None =>
          if match previous with
             | Some prior => match row_cmp prior current with Lt => false | _ => true end
             | None => false
             end
          then inl misordered
          else audit_rows rule misordered (Some current) rows (bts_insert row_cmp current set)
      end
  end.

Definition identity_rule (r : Row) : option LwwRegisterError :=
  if decide (r.1 = nil_id) then Some NilState else if decide (r.2 = nil_id) then Some NilRegister else None.
Definition order_rule (r : Row) : option LwwRegisterError :=
  if decide (r.1 = nil_id) then Some NilState else None.

Definition decode_projection (blob : Blob) : res (lww_result Projection) :=
  rows ← projection_rows_decode blob;
  Some (match rows with
        | inl e => inl e
        | inr rows =>
            match audit_rows identity_rule IdentityOrder None (pr_identities rows) [] with
            | inl e => inl e
            | inr ids =>
                match audit_rows order_rule KeyOrder None (pr_orders rows) [] with
                | inl e => inl e
                | inr ords => inr (mkProjection ids ords)
                end
            end
        end).

Definition validate_element (blob : Blob) : res (lww_result unit) :=
  r ← decode_projection blob;
  Some (match r with inl e => inl e | inr _ => inr tt end).

Definition lww_empty : res Blob := projection_encode projection_default.

Definition lww_join (low high : Blob) : res (lww_result Blob) :=
  l ← decode_projection low;
  match l with
  | inl e => Some (inl e)
  | inr l =>
      h ← decode_projection high;
      match h with
      | inl e => Some (inl e)
      | inr h => out ← projection_encode (projection_union l h); Some (inr out)
      end
  end.
End decode.

(** ** Derivation from an archive *)

Definition genid_value (value : list N) : option RawId :=
  if decide (take ROW_ID_LEN value = nil_id) then
    let id := take ROW_ID_LEN (drop ROW_ID_LEN value) in
    if decide (id = nil_id) then None else Some id
  else None.

Definition project_trible (identity orders_attribute : Id) (trible : Trible) (p : Projection) : Projection :=
  let state := raw (e trible) in
  let value := v trible in
  let p :=
    if decide (a trible = identity) then
      match genid_value value with
      | Some register => mkProjection (bts_insert row_cmp (state, register) (identities p)) (orders p)
      | None => p
      end
    else p in
  if decide (a trible = orders_attribute) then
    mkProjection (identities p) (bts_insert row_cmp (state, value) (orders p))
  else p.

Definition derive_element `{W : ByteViews} (source : Bytes) (identity orders_attribute : Id) : res (lww_result Blob) :=
  '(projection, r) ← validate_with source (λ _ trible p, Some (project_trible identity orders_attribute trible p))
    projection_default;
  match r with
  | inl e => Some (inl (InvalidSource e))
  | inr _ => out ← projection_encode projection; Some (inr out)
  end.
