(* ===== verification/LwwRegisterSpec.v ===== *)
(** * LwwRegisterSpec: elements of the maintained register projection

    The layout round trips, the decoder accepts exactly the canonical bytes, the
    derivation is a homomorphism from unions of archives, and the join is a
    semilattice. *)

From S2P Require Import Prelude Lex BTree Machine Query KeySchema Trible SimpleArchive InlineEncodings LwwRegister.

Open Scope nat_scope.

(** ** Integers and rows as bytes *)

Lemma be_bytes_length n x : length (be_bytes n x) = n.
Proof. unfold be_bytes. by rewrite length_rev, le_bytes_length. Qed.

Lemma be_bytes_bytes n x : bytes_ok n (be_bytes n x).
Proof. split; [apply be_bytes_length|]. apply Forall_rev, le_bytes_ok. Qed.

Lemma of_be_be_bytes n x : (x < 256 ^ N.of_nat n)%N → of_be_bytes (be_bytes n x) = x.
Proof. unfold of_be_bytes, be_bytes. rewrite rev_involutive. apply of_le_le_bytes. Qed.

Lemma be_of_be_bytes n l : bytes_ok n l → be_bytes n (of_be_bytes l) = l.
Proof.
  intros [Hl Hb]. unfold of_be_bytes, be_bytes. rewrite <- Hl, <- length_rev, le_of_le_bytes by by apply Forall_rev.
  apply rev_involutive.
Qed.

Lemma of_be_bytes_bound n l : bytes_ok n l → (of_be_bytes l < 256 ^ N.of_nat n)%N.
Proof.
  intros [Hl Hb]. unfold of_be_bytes. rewrite <- Hl, <- length_rev. by apply of_le_bytes_bound, Forall_rev.
Qed.

(** A row whose value has [n] bytes. *)
Definition row_ok (n : nat) (r : Row) : Prop := bytes_ok ROW_ID_LEN r.1 ∧ bytes_ok n r.2.

Lemma row_bytes_ok n r : row_ok n r → bytes_ok (16 + n) (row_bytes r).
Proof. intros [H1 H2]. by apply bytes_ok_app. Qed.

Lemma split_rows_bytes n rows : Forall (row_ok n) rows → split_rows (16 + n) (concat (row_bytes <$> rows)) = rows.
Proof.
  intros Hr. unfold split_rows. rewrite chunks_of_concat; [|lia|].
  - rewrite <- list_fmap_compose. rewrite <- (list_fmap_id rows) at 2. apply list_fmap_ext. intros i r Hi. simpl.
    rewrite Forall_lookup in Hr. destruct (Hr i r Hi) as [[Hl _] _]. unfold row_bytes.
    rewrite take_app_length', drop_app_length' by done. by destruct r.
  - apply Forall_fmap. eapply Forall_impl; [done|]. intros r Hok. apply (row_bytes_ok n r Hok).
Qed.

Lemma split_rows_spec n l : Forall (λ x, (x < 256)%N) l → length l mod (16 + n) = 0 →
  concat (row_bytes <$> split_rows (16 + n) l) = l ∧ Forall (row_ok n) (split_rows (16 + n) l) ∧
  length (split_rows (16 + n) l) * (16 + n) = length l.
Proof.
  intros Hb Hm. assert (1 <= 16 + n) as H1 by lia. pose proof (chunks_length (16 + n) l H1 Hm) as Hc.
  pose proof (chunks_concat (16 + n) l H1) as Hcc. unfold split_rows. split_and!.
  - rewrite <- list_fmap_compose. rewrite <- Hcc at 2. f_equal. rewrite <- (list_fmap_id (chunks _ l)) at 2.
    apply list_fmap_ext. intros i c _. apply take_drop.
  - apply Forall_fmap. rewrite Forall_forall in Hc |- *. intros c Hin. specialize (Hc c Hin).
    assert (Forall (λ x, (x < 256)%N) c) as Hcb by by eapply chunks_elem. unfold row_ok, ROW_ID_LEN. simpl. split; split.
    + rewrite length_take. lia.
    + by apply Forall_take.
    + rewrite length_drop. lia.
    + by apply Forall_drop.
  - rewrite length_fmap. rewrite <- Hcc at 2. clear -Hc. induction Hc as [|c cs Hc _ IH]; simpl; [done|].
    rewrite length_app. lia.
Qed.

(** ** Canonical projections *)

Record projection_ok (p : Projection) : Prop := {
  po_identities : ascending row_cmp (identities p);
  po_orders : ascending row_cmp (orders p);
  po_identity_rows : Forall (λ r, row_ok 16 r ∧ identity_rule r = None) (identities p);
  po_order_rows : Forall (λ r, row_ok 32 r ∧ order_rule r = None) (orders p);
}.

Definition payload_len (p : Projection) : N :=
  (16 + 32 * N.of_nat (length (identities p)) + 48 * N.of_nat (length (orders p)))%N.
Definition projection_fits (p : Projection) : Prop := (payload_len p <= isize_max)%N.

Definition projection_bytes (p : Projection) : Blob :=
  be_bytes 8 (N.of_nat (length (identities p))) ++ be_bytes 8 (N.of_nat (length (orders p))) ++
  concat (row_bytes <$> identities p) ++ concat (row_bytes <$> orders p).

Lemma projection_encode_fits p : projection_fits p → projection_encode p = Some (projection_bytes p).
Proof.
  unfold projection_fits, payload_len, projection_encode, try_usize, usize_max, isize_max. intros Hp.
  rewrite !(proj2 (N.leb_le _ _)) by lia. cbn [mbind option_bind].
  unfold HEADER_LEN, IDENTITY_ROW_LEN, ORDER_ROW_LEN. rewrite (proj2 (N.leb_le _ _)) by lia. done.
Qed.

Lemma rows_bytes_length n rows : Forall (row_ok n) rows → length (concat (row_bytes <$> rows)) = (16 + n) * length rows.
Proof.
  induction 1 as [|r rows Hr _ IH]; [simpl; lia|]. rewrite fmap_cons. cbn [concat]. rewrite length_app, IH.
  rewrite (bo_len _ _ (row_bytes_ok n r Hr)). simpl. lia.
Qed.

Lemma projection_ok_rows p : projection_ok p → Forall (row_ok 16) (identities p) ∧ Forall (row_ok 32) (orders p).
Proof. intros [_ _ H1 H2]. split; (eapply Forall_impl; [done|]); by intros r [? _]. Qed.

Lemma projection_bytes_length p : projection_ok p → N.of_nat (length (projection_bytes p)) = payload_len p.
Proof.
  intros [H1 H2]%projection_ok_rows. unfold projection_bytes, payload_len.
  rewrite !length_app, !be_bytes_length, (rows_bytes_length 16), (rows_bytes_length 32) by done. lia.
Qed.

Lemma projection_union_ok p q : projection_ok p → projection_ok q → projection_ok (projection_union p q).
Proof.
  intros [A1 A2 A3 A4] [B1 B2 B3 B4]. split; simpl.
  - by apply bts_extend_ascending; [apply _|].
  - by apply bts_extend_ascending; [apply _|].
  - rewrite Forall_forall in A3, B3 |- *. intros r [?|?]%elem_of_bts_extend; auto. apply _.
  - rewrite Forall_forall in A4, B4 |- *. intros r [?|?]%elem_of_bts_extend; auto. apply _.
Qed.

Lemma payload_union p q : (payload_len (projection_union p q) + 16 <= payload_len p + payload_len q)%N.
Proof.
  unfold payload_len. simpl. pose proof (bts_extend_length row_cmp (identities p) (identities q)).
  pose proof (bts_extend_length row_cmp (orders p) (orders q)). lia.
Qed.

(** ** The decoder *)

Section decode.
Context `{V : RowViews, !RowViewsOk V}.
Implicit Types (blob : Blob) (p : Projection).

(** The counts a blob declares, and the length they amount to. *)
Definition declared blob : N * N := (of_be_bytes (take 8 blob), of_be_bytes (take 8 (drop 8 blob))).
Definition declared_len blob : N := (16 + 32 * (declared blob).1 + 48 * (declared blob).2)%N.

(** The rows between the header and the announced end of the identities, and
    the rows after it. *)
Definition identity_section blob : list Row := split_rows 32 (take (N.to_nat (32 * (declared blob).1)) (drop 16 blob)).
Definition order_section blob : list Row := split_rows 48 (drop (N.to_nat (32 * (declared blob).1)) (drop 16 blob)).

(** What framing decides. *)
Definition frame blob : lww_result ProjectionRows :=
  let len := N.of_nat (length blob) in
  if decide (length blob < 16) then inl (BadLength 16 len)
  else if decide (usize_max < declared_len blob)%N then inl CountOverflow
  else if decide (len ≠ declared_len blob) then inl (BadLength (declared_len blob) len)
  else
    inr (mkRows (identity_section blob) (order_section blob)).

Lemma declared_bound blob : Forall (λ x, (x < 256)%N) blob → 16 <= length blob →
  ((declared blob).1 <= usize_max)%N ∧ ((declared blob).2 <= usize_max)%N.
Proof.
  intros Hb Hl. unfold declared, usize_max. simpl.
  assert (bytes_ok 8 (take 8 blob)) as H1 by (split; [rewrite length_take; lia|by apply Forall_take]).
  assert (bytes_ok 8 (take 8 (drop 8 blob))) as H2.
  { split; [rewrite length_take, length_drop; lia|by apply Forall_take, Forall_drop]. }
  apply of_be_bytes_bound in H1, H2. change (256 ^ N.of_nat 8)%N with (2 ^ 64)%N in *. lia.
Qed.

Lemma checked_payload_spec i o : checked_payload_len i o = try_usize (16 + 32 * i + 48 * o).
Proof.
  unfold checked_payload_len, checked_add, checked_mul, try_usize, HEADER_LEN, IDENTITY_ROW_LEN, ORDER_ROW_LEN.
  rewrite (N.mul_comm i), (N.mul_comm o). destruct (N.leb_spec (16 + 32 * i + 48 * o) usize_max).
  - by do 3 (rewrite (proj2 (N.leb_le _ _)) by lia; cbn [mbind option_bind]); rewrite (proj2 (N.leb_le _ _)) by lia.
  - destruct (32 * i <=? usize_max)%N; cbn [mbind option_bind]; [|done].
    destruct (16 + 32 * i <=? usize_max)%N; cbn [mbind option_bind]; [|done].
    destruct (48 * o <=? usize_max)%N; cbn [mbind option_bind]; [|done]. by rewrite (proj2 (N.leb_gt _ _)) by lia.
Qed.

Lemma projection_rows_decode_spec blob : Forall (λ x, (x < 256)%N) blob → projection_rows_decode blob = Some (frame blob).
Proof.
  intros Hb. unfold projection_rows_decode, frame, identity_section, order_section. cbv zeta. rewrite header_prefix_spec.
  case_decide as Hl; [|by rewrite decide_True by lia]. rewrite decide_False by lia. fold (declared blob).
  destruct (declared_bound blob Hb Hl) as [Hi Ho]. unfold declared in Hi, Ho. simpl in Hi, Ho.
  unfold try_usize at 1 2. rewrite !(proj2 (N.leb_le _ _)) by done. rewrite checked_payload_spec.
  change (16 + 32 * _ + 48 * _)%N with (declared_len blob). unfold try_usize.
  destruct (N.leb_spec (declared_len blob) usize_max); case_decide; try lia; [|done].
  case_decide as Hd; destruct (N.eqb_spec (N.of_nat (length blob)) (declared_len blob)) as [E|E]; try done.
  clear Hd. unfold declared_len, declared in E. simpl in E. cbn [negb]. set (i := of_be_bytes (take 8 blob)) in *.
  set (o := of_be_bytes (take 8 (drop 8 blob))) in *. unfold HEADER_LEN, IDENTITY_ROW_LEN, slice_range. change (N.to_nat 16) with 16.
  rewrite !(proj2 (Nat.leb_le _ _)) by lia. cbn [andb mbind option_bind].
  replace (N.to_nat (16 + i * 32) - 16) with (N.to_nat (32 * i)) by lia.
  replace (N.to_nat (16 + i * 32)) with (16 + N.to_nat (32 * i)) by lia. rewrite <- drop_drop.
  rewrite (take_ge (drop _ (drop 16 blob))) by (rewrite !length_drop; lia).
  rewrite view_identities_spec, view_orders_spec. rewrite !decide_True; [done|..].
  - rewrite !length_drop. replace (length blob - 16 - N.to_nat (32 * i)) with (N.to_nat o * 48) by lia. by apply Nat.Div0.mod_mul.
  - rewrite length_take, length_drop. replace (N.to_nat (32 * i) `min` (length blob - 16)) with (N.to_nat i * 32) by lia.
    by apply Nat.Div0.mod_mul.
Qed.

(** Framed rows are real, and the blob is their bytes. *)
Lemma frame_rows blob ids ords : Forall (λ x, (x < 256)%N) blob → frame blob = inr (mkRows ids ords) →
  Forall (row_ok 16) ids ∧ Forall (row_ok 32) ords ∧ projection_bytes (mkProjection ids ords) = blob ∧
  N.of_nat (length blob) = payload_len (mkProjection ids ords).
Proof.
  intros Hb. unfold frame, identity_section, order_section. cbv zeta. case_decide as Hl; [done|]. case_decide; [done|]. case_decide as Hd; [done|].
  unfold declared_len, declared in *. simpl in *.
  set (i := of_be_bytes (take 8 blob)) in *. set (o := of_be_bytes (take 8 (drop 8 blob))) in *. intros [= <- <-].
  assert (length (take (N.to_nat (32 * i)) (drop 16 blob)) = N.to_nat i * 32) as L1 by (rewrite length_take, length_drop; lia).
  assert (length (drop (N.to_nat (32 * i)) (drop 16 blob)) = N.to_nat o * 48) as L2 by (rewrite !length_drop; lia).
  destruct (split_rows_spec 16 (take (N.to_nat (32 * i)) (drop 16 blob))) as (A1 & A2 & A3).
  { by apply Forall_take, Forall_drop. } { rewrite L1. apply Nat.Div0.mod_mul. }
  destruct (split_rows_spec 32 (drop (N.to_nat (32 * i)) (drop 16 blob))) as (B1 & B2 & B3).
  { by apply Forall_drop, Forall_drop. } { rewrite L2. apply Nat.Div0.mod_mul. }
  change (16 + 16) with 32 in *. change (16 + 32) with 48 in *. rewrite L1 in A3. rewrite L2 in B3.
  assert (length (split_rows 32 (take (N.to_nat (32 * i)) (drop 16 blob))) = N.to_nat i) as E1 by lia.
  assert (length (split_rows 48 (drop (N.to_nat (32 * i)) (drop 16 blob))) = N.to_nat o) as E2 by lia.
  split_and!; [done..| |].
  - unfold projection_bytes. cbn [identities orders]. rewrite E1, E2, A1, B1, !N2Nat.id. unfold i, o.
    rewrite !be_of_be_bytes. 2:{ split; [rewrite length_take, length_drop; lia|by apply Forall_take, Forall_drop]. }
    2:{ split; [rewrite length_take; lia|by apply Forall_take]. }
    rewrite (take_drop (N.to_nat (32 * of_be_bytes (take 8 blob))) (drop 16 blob)). change 16 with (8 + 8).
    rewrite <- drop_drop. by rewrite !take_drop.
  - unfold payload_len. cbn [identities orders]. rewrite E1, E2. lia.
Qed.

Lemma bytes_frame p : projection_ok p → projection_fits p → frame (projection_bytes p) = inr (mkRows (identities p) (orders p)).
Proof.
  intros Hp Hf. pose proof (projection_bytes_length p Hp) as Hl. destruct (projection_ok_rows p Hp) as [H1 H2].
  unfold projection_fits, payload_len, isize_max in *. unfold frame, identity_section, order_section. rewrite Hl.
  set (i := length (identities p)) in *. set (o := length (orders p)) in *.
  assert (∀ n, (N.of_nat n < 256 ^ N.of_nat 8)%N ↔ (N.of_nat n < 2 ^ 64)%N) as H64 by done.
  assert (declared (projection_bytes p) = (N.of_nat i, N.of_nat o)) as Hd.
  { unfold declared, projection_bytes. rewrite take_app_length' by by rewrite be_bytes_length.
    rewrite drop_app_length', take_app_length' by by rewrite be_bytes_length. rewrite !of_be_be_bytes; [done|apply H64; lia..]. }
  unfold declared_len, payload_len. rewrite Hd. cbn [fst snd]. fold i o. rewrite decide_False by lia.
  rewrite decide_False by (unfold usize_max; lia). rewrite decide_False by lia.
  f_equal. unfold projection_bytes. rewrite app_assoc, drop_app_length' by by rewrite length_app, !be_bytes_length.
  rewrite take_app_length' by by (rewrite (rows_bytes_length 16) by done; lia).
  rewrite drop_app_length' by by (rewrite (rows_bytes_length 16) by done; lia).
  by rewrite (split_rows_bytes 16), (split_rows_bytes 32).
Qed.

(** *** The audit of a section *)

Section audit.
Context (rule : Row → option LwwRegisterError) (misordered : LwwRegisterError).
Implicit Types (rows : list Row) (r : Row).

(** The row before position [i]. *)
Definition before rows (i : nat) : option Row := match i with 0 => None | S j => rows !! j end.

(** What is wrong with [r] after [previous]: its own offence first. *)
Definition row_fault (previous : option Row) r : option LwwRegisterError :=
  match rule r with
  | Some e => Some e
  | None => match previous with
            | Some prior => if decide (row_cmp prior r = Lt) then None else Some misordered
            | None => None
            end
  end.

Definition fault_at rows (i : nat) : option LwwRegisterError := r ← rows !! i; row_fault (before rows i) r.

(** [e] is the first fault of the section. *)
Definition first_fault rows (e : LwwRegisterError) : Prop :=
  ∃ i, fault_at rows i = Some e ∧ ∀ j, j < i → fault_at rows j = None.

Lemma before_snoc pre r rows : before (pre ++ r :: rows) (length pre) = last pre.
Proof.
  destruct pre as [|x pre] using rev_ind; [done|]. rewrite length_app, last_snoc. simpl. rewrite Nat.add_1_r. simpl.
  rewrite <- app_assoc. by apply list_lookup_middle.
Qed.

Lemma audit_step previous r rows set :
  audit_rows rule misordered previous (r :: rows) set =
    match row_fault previous r with
    | Some e => inl e
    | None => audit_rows rule misordered (Some r) rows (bts_insert row_cmp r set)
    end.
Proof.
  simpl. unfold row_fault. destruct (rule r); [done|]. destruct previous as [prior|]; [|done].
  case_decide as E; [by rewrite E|]. by destruct (row_cmp prior r).
Qed.

Lemma row_fault_none previous r : row_fault previous r = None ↔
  rule r = None ∧ ∀ prior, previous = Some prior → row_cmp prior r = Lt.
Proof.
  unfold row_fault. destruct (rule r); [naive_solver|]. destruct previous as [prior|]; [|naive_solver].
  case_decide; naive_solver.
Qed.

Lemma ascending_snoc pre r : ascending row_cmp pre → (∀ prior, last pre = Some prior → row_cmp prior r = Lt) →
  Forall (λ x, row_cmp x r = Lt) pre ∧ ascending row_cmp (pre ++ [r]).
Proof.
  intros Hp Hl. assert (Forall (λ x, row_cmp x r = Lt) pre) as Hall.
  { destruct pre as [|y pre _] using rev_ind; [constructor|]. rewrite last_snoc in Hl. specialize (Hl y eq_refl).
    apply StronglySorted_app in Hp as (Hpy & _ & _). apply Forall_app. split; [|by constructor]. apply Forall_forall. intros x Hx.
    apply (cmp_trans row_cmp) with y; [|done]. apply Hpy; [done|]. by apply list_elem_of_singleton. }
  split; [done|]. apply strongly_sorted_snoc; [done|]. by apply Forall_forall.
Qed.

Lemma audit_from rows pre : ascending row_cmp pre → (∀ j, j < length pre → fault_at (pre ++ rows) j = None) →
  Forall (λ r, rule r = None) pre →
  match audit_rows rule misordered (last pre) rows pre with
  | inl e => first_fault (pre ++ rows) e
  | inr set => set = pre ++ rows ∧ ascending row_cmp (pre ++ rows) ∧ Forall (λ r, rule r = None) (pre ++ rows)
  end.
Proof.
  revert pre. induction rows as [|r rows IH]; intros pre Hs Hno Hr; [by rewrite app_nil_r|]. rewrite audit_step.
  assert (fault_at (pre ++ r :: rows) (length pre) = row_fault (last pre) r) as Hat.
  { unfold fault_at. by rewrite list_lookup_middle, before_snoc by done. }
  destruct (row_fault (last pre) r) as [e|] eqn:E; [exists (length pre); split; [congruence|done]|].
  apply row_fault_none in E as [Hrule Hlast]. destruct (ascending_snoc pre r Hs Hlast) as [Hall Hs'].
  rewrite bts_insert_last by (apply _ || done). specialize (IH (pre ++ [r])). rewrite last_snoc, <- app_assoc in IH. cbn [app] in IH. apply IH; [done| |].
  - intros j Hj. rewrite length_app in Hj. simpl in Hj. destruct (decide (j = length pre)) as [->|]; [by rewrite Hat|apply Hno; lia].
  - apply Forall_app. split; [done|by constructor].
Qed.

Lemma audit_rows_spec rows :
  match audit_rows rule misordered None rows [] with
  | inl e => first_fault rows e
  | inr set => set = rows ∧ ascending row_cmp rows ∧ Forall (λ r, rule r = None) rows
  end.
Proof. apply (audit_from rows []); [constructor| |constructor]. simpl. lia. Qed.

Lemma audit_ascending rows : ascending row_cmp rows → Forall (λ r, rule r = None) rows →
  audit_rows rule misordered None rows [] = inr rows.
Proof.
  intros Hs Hr. pose proof (audit_rows_spec rows) as Ha. destruct (audit_rows _ _ _ _ _) as [e|set]; [|by destruct Ha as [-> _]].
  destruct Ha as (i & Hi & _). exfalso. unfold fault_at in Hi. destruct (rows !! i) as [r|] eqn:Er; simpl in Hi; [|done].
  assert (row_fault (before rows i) r = None) as Hn; [|congruence]. apply row_fault_none. split.
  - rewrite Forall_lookup in Hr. eauto.
  - intros prior Hp. destruct i as [|j]; simpl in Hp; [done|]. by apply (ascending_lookup row_cmp rows j (S j)); try lia.
Qed.
End audit.

(** *** Elements *)

(** Why [blob] is no element: the first of these that holds. *)
Inductive refused blob : LwwRegisterError → Prop :=
  | refused_header : length blob < 16 → refused blob (BadLength 16 (N.of_nat (length blob)))
  | refused_overflow : 16 <= length blob → (usize_max < declared_len blob)%N → refused blob CountOverflow
  | refused_length : 16 <= length blob → (declared_len blob <= usize_max)%N → N.of_nat (length blob) ≠ declared_len blob →
      refused blob (BadLength (declared_len blob) (N.of_nat (length blob)))
  | refused_identity err : frame blob = inr (mkRows (identity_section blob) (order_section blob)) →
      first_fault identity_rule IdentityOrder (identity_section blob) err → refused blob err
  | refused_order err : frame blob = inr (mkRows (identity_section blob) (order_section blob)) →
      (∀ i, fault_at identity_rule IdentityOrder (identity_section blob) i = None) →
      first_fault order_rule KeyOrder (order_section blob) err → refused blob err.

Lemma frame_spec blob :
  match frame blob with
  | inl err => refused blob err
  | inr rows => rows = mkRows (identity_section blob) (order_section blob)
  end.
Proof.
  unfold frame. cbv zeta. case_decide; [by constructor|]. case_decide; [constructor; lia|].
  case_decide; [|done]. constructor; [lia|lia|done].
Qed.

Lemma first_fault_unique rule mis rows err err' : first_fault rule mis rows err → first_fault rule mis rows err' → err = err'.
Proof.
  intros (i & Hi & Hbi) (j & Hj & Hbj). destruct (lt_eq_lt_dec i j) as [[Hlt|<-]|Hlt]; [|congruence|].
  - rewrite Hbj in Hi by done. done.
  - rewrite Hbi in Hj by done. done.
Qed.

Lemma first_fault_some rule mis rows err : first_fault rule mis rows err → ¬ ∀ i, fault_at rule mis rows i = None.
Proof. intros (i & Hi & _) Hno. by rewrite Hno in Hi. Qed.

Lemma refused_frame blob err : refused blob err →
  match frame blob with
  | inl err' => err = err'
  | inr _ => first_fault identity_rule IdentityOrder (identity_section blob) err ∨
      ((∀ i, fault_at identity_rule IdentityOrder (identity_section blob) i = None) ∧
       first_fault order_rule KeyOrder (order_section blob) err)
  end.
Proof.
  destruct 1 as [Hl|Hl Hd|Hl Hd Hn|err Hf H|err Hf Hno H].
  - unfold frame. cbv zeta. by rewrite decide_True.
  - unfold frame. cbv zeta. by rewrite decide_False, decide_True by lia.
  - unfold frame. cbv zeta. by rewrite !decide_False, decide_True by lia.
  - rewrite Hf. by left.
  - rewrite Hf. by right.
Qed.

Lemma refused_unique blob err err' : refused blob err → refused blob err' → err = err'.
Proof.
  intros H1%refused_frame H2%refused_frame. destruct (frame blob); [congruence|].
  destruct H1 as [H1|[N1 H1]], H2 as [H2|[N2 H2]]; try (by eapply first_fault_unique);
    [by destruct (first_fault_some _ _ _ _ H1)|by destruct (first_fault_some _ _ _ _ H2)].
Qed.

Lemma no_fault rule mis rows : ascending row_cmp rows → Forall (λ r, rule r = None) rows → ∀ i, fault_at rule mis rows i = None.
Proof.
  intros Hs Hr i. unfold fault_at. destruct (rows !! i) as [r|] eqn:Er; simpl; [|done]. apply row_fault_none. split.
  - rewrite Forall_lookup in Hr. eauto.
  - intros prior Hp. destruct i as [|j]; simpl in Hp; [done|]. by apply (ascending_lookup row_cmp rows j (S j)); try lia.
Qed.

Lemma decode_projection_spec blob : Forall (λ x, (x < 256)%N) blob →
  ∃ r, decode_projection blob = Some r ∧ match r with
  | inl err => refused blob err
  | inr p => projection_ok p ∧ projection_bytes p = blob ∧ N.of_nat (length blob) = payload_len p ∧ ∀ err, ¬ refused blob err
  end.
Proof.
  intros Hb. unfold decode_projection. rewrite projection_rows_decode_spec by done. cbn [mbind option_bind].
  pose proof (frame_spec blob) as Hfs. destruct (frame blob) as [err|[ids ords]] eqn:Hf; [by eexists|].
  injection Hfs as -> ->. destruct (frame_rows blob _ _ Hb Hf) as (Hi & Ho & Hbytes & Hl).
  cbn [pr_identities pr_orders]. eexists. split; [done|].
  pose proof (audit_rows_spec identity_rule IdentityOrder (identity_section blob)) as Ha.
  destruct (audit_rows _ _ _ (identity_section blob) _) as [err|s]; [by apply refused_identity|].
  destruct Ha as (-> & Hs & Hr). pose proof (audit_rows_spec order_rule KeyOrder (order_section blob)) as Ha'.
  destruct (audit_rows _ _ _ (order_section blob) _) as [err|s']; [by apply refused_order; [|apply no_fault|]|].
  destruct Ha' as (-> & Hs' & Hr').
  split_and!; [|done..|]. { split; cbn [identities orders]; [done..|by apply Forall_and|by apply Forall_and]. }
  intros err Hn%refused_frame. rewrite Hf in Hn. destruct Hn as [Hn|[_ Hn]]; by eapply first_fault_some; [|apply no_fault].
Qed.

Lemma projection_bytes_real p : projection_ok p → Forall (λ x, (x < 256)%N) (projection_bytes p).
Proof.
  intros [H1 H2]%projection_ok_rows. assert (∀ n rows, Forall (row_ok n) rows → Forall (λ x, (x < 256)%N) (concat (row_bytes <$> rows))) as Hr.
  { induction 1 as [|r rows Hr _ IH]; [constructor|]. rewrite fmap_cons. cbn [concat]. apply Forall_app.
    split; [apply (row_bytes_ok n r Hr)|done]. }
  unfold projection_bytes. rewrite !Forall_app. split_and!; try apply be_bytes_bytes; by eapply Hr.
Qed.

Lemma decode_bytes p : projection_ok p → projection_fits p → decode_projection (projection_bytes p) = Some (inr p).
Proof.
  intros Hp Hf. unfold decode_projection. rewrite projection_rows_decode_spec, bytes_frame; [|done..|].
  - cbn [mbind option_bind pr_identities pr_orders]. destruct Hp as [H1 H2 H3 H4].
    apply Forall_and in H3 as [_ H3], H4 as [_ H4]. rewrite !audit_ascending by done. by destruct p.
  - by apply projection_bytes_real.
Qed.

Lemma bytes_inj p q : projection_ok p → projection_ok q → projection_fits p → projection_bytes p = projection_bytes q → p = q.
Proof.
  intros Hp Hq Hf E. pose proof (decode_bytes p Hp Hf) as H1.
  assert (projection_fits q) as Hfq.
  { unfold projection_fits in *. rewrite <- projection_bytes_length, <- E, projection_bytes_length by done. done. }
  pose proof (decode_bytes q Hq Hfq) as H2. rewrite E, H2 in H1. by simplify_eq.
Qed.

Lemma join_bytes p q : projection_ok p → projection_ok q → projection_fits p → projection_fits q →
  projection_fits (projection_union p q) →
  lww_join (projection_bytes p) (projection_bytes q) = Some (inr (projection_bytes (projection_union p q))).
Proof.
  intros Hp Hq Hfp Hfq Hf. unfold lww_join. rewrite (decode_bytes p), (decode_bytes q) by done. cbn [mbind option_bind].
  by rewrite projection_encode_fits.
Qed.

(** A blob that passed validation. *)
Definition canonical blob : Prop := Forall (λ x, (x < 256)%N) blob ∧ validate_element blob = Some (inr tt).

Lemma canonical_bytes blob : canonical blob ↔ ∃ p, projection_ok p ∧ blob = projection_bytes p ∧
  Forall (λ x, (x < 256)%N) blob ∧ decode_projection blob = Some (inr p).
Proof.
  unfold canonical, validate_element. split.
  - intros [Hb Hv]. destruct (decode_projection_spec blob Hb) as (r & Hd & Hr). rewrite Hd in Hv |- *.
    destruct r as [e|p]; [done|]. destruct Hr as (Hp & <- & _). by exists p.
  - intros (p & Hp & -> & Hb & Hd). by rewrite Hd.
Qed.
End decode.

(** ** Unions of projections *)

Lemma projection_eq p q : projection_ok p → projection_ok q →
  (∀ r, r ∈ identities p ↔ r ∈ identities q) → (∀ r, r ∈ orders p ↔ r ∈ orders q) → p = q.
Proof.
  intros [A1 A2 _ _] [B1 B2 _ _] Hi Ho. destruct p as [i o], q as [i' o']. simpl in *.
  f_equal; by apply (ascending_unique row_cmp).
Qed.

Lemma elem_of_projection_union p q r : (r ∈ identities (projection_union p q) ↔ r ∈ identities p ∨ r ∈ identities q) ∧
  (r ∈ orders (projection_union p q) ↔ r ∈ orders p ∨ r ∈ orders q).
Proof. split; apply elem_of_bts_extend; apply _. Qed.

(** Laws of unions, by their elements. *)
Ltac projection_union_tac :=
  apply projection_eq; [by repeat apply projection_union_ok|by repeat apply projection_union_ok| |];
  let r := fresh in intros r; repeat (rewrite (proj1 (elem_of_projection_union _ _ r)) || rewrite (proj2 (elem_of_projection_union _ _ r))); tauto.

Lemma projection_union_comm p q : projection_ok p → projection_ok q → projection_union p q = projection_union q p.
Proof. intros. projection_union_tac. Qed.
Lemma projection_union_idemp p : projection_ok p → projection_union p p = p.
Proof. intros. projection_union_tac. Qed.
Lemma projection_union_assoc p q s : projection_ok p → projection_ok q → projection_ok s →
  projection_union (projection_union p q) s = projection_union p (projection_union q s).
Proof. intros. projection_union_tac. Qed.

Lemma projection_default_ok : projection_ok projection_default.
Proof. split; constructor. Qed.
Lemma projection_default_fits : projection_fits projection_default.
Proof. done. Qed.
Lemma projection_union_default p : projection_union p projection_default = p.
Proof. by destruct p. Qed.

(** ** Derivation *)

Lemma raw_not_nil i : id_ok i → raw i ≠ nil_id.
Proof. intros Hi E. pose proof (id_new_raw i Hi) as Hn. by rewrite E in Hn. Qed.

(** A register is read as a typed query reads it. *)
Lemma genid_value_spec value : bytes_ok INLINE_LEN value →
  genid_value value = match GenId.try_from_inline value with inr id => Some (raw id) | inl _ => None end ∧
  ∀ r, genid_value value = Some r → bytes_ok 16 r ∧ r ≠ nil_id.
Proof.
  intros [Hl Hb]. unfold genid_value, GenId.try_from_inline, nil_id, ROW_ID_LEN, INLINE_LEN in *. case_decide; [|by split; [|intros ? [=]]].
  assert (bytes_ok ID_LEN (take 16 (drop 16 value))) as Hi.
  { split; [rewrite length_take, length_drop, Hl; done|by apply Forall_take, Forall_drop]. }
  pose proof (id_new_spec _ Hi) as Hn. destruct (Id_new _) as [i|].
  - destruct Hn as [Hok <-]. rewrite decide_False by by apply raw_not_nil. split; [done|]. intros r [= <-].
    split; [apply raw_ok|by apply raw_not_nil].
  - rewrite decide_True by done. by split; [|intros ? [=]].
Qed.

Section derive.
Context (identity orders_attribute : Id).
Implicit Types (p : Projection) (ts : list Trible) (r : Row).
Abbreviation project_trible := (project_trible identity orders_attribute).

(** The rows of a list of tribles. *)
Definition project ts : Projection := foldl (λ p t, project_trible t p) projection_default ts.

Definition states_identity (t : Trible) r : Prop := a t = identity ∧ r.1 = raw (e t) ∧ genid_value (v t) = Some r.2.
Definition states_order (t : Trible) r : Prop := a t = orders_attribute ∧ r = (raw (e t), v t).

Lemma project_trible_elem t p r :
  (r ∈ identities (project_trible t p) ↔ states_identity t r ∨ r ∈ identities p) ∧
  (r ∈ orders (project_trible t p) ↔ states_order t r ∨ r ∈ orders p).
Proof.
  unfold LwwRegister.project_trible, states_identity, states_order. destruct r as [st w]. simpl.
  set (q := if decide (a t = identity) then _ else p).
  assert (((st, w) ∈ identities q ↔ (a t = identity ∧ st = raw (e t) ∧ genid_value (v t) = Some w) ∨ (st, w) ∈ identities p) ∧
    orders q = orders p) as [Hi Ho].
  { unfold q. case_decide; [|naive_solver]. destruct (genid_value (v t)) as [reg|]; [|naive_solver]. simpl.
    rewrite elem_of_bts_insert by apply _. naive_solver. }
  case_decide; simpl; [rewrite elem_of_bts_insert by apply _|]; rewrite Ho; naive_solver.
Qed.

Lemma project_trible_ok t p : trible_ok t → projection_ok p → projection_ok (project_trible t p).
Proof.
  intros [He _ Hv] [A1 A2 A3 A4]. split.
  - unfold LwwRegister.project_trible. repeat case_match; simpl; by repeat apply bts_insert_ascending; try apply _.
  - unfold LwwRegister.project_trible. repeat case_match; simpl; by repeat apply bts_insert_ascending; try apply _.
  - rewrite Forall_forall in A3 |- *. intros [st w] [(_ & Hst & Hw)|?]%project_trible_elem; [|auto]. simpl in *. subst st.
    destruct (genid_value_spec (v t) Hv) as [_ Hg]. destruct (Hg w Hw) as [Hb Hn]. split; [split; [apply raw_ok|done]|].
    unfold identity_rule. simpl. by rewrite !decide_False by (done || by apply raw_not_nil).
  - rewrite Forall_forall in A4 |- *. intros r [(_ & ->)|?]%project_trible_elem; [|auto]. split; [split; [apply raw_ok|done]|].
    unfold order_rule. simpl. by rewrite decide_False by by apply raw_not_nil.
Qed.

Lemma project_from ts p r :
  (r ∈ identities (foldl (λ p t, project_trible t p) p ts) ↔ (∃ t, t ∈ ts ∧ states_identity t r) ∨ r ∈ identities p) ∧
  (r ∈ orders (foldl (λ p t, project_trible t p) p ts) ↔ (∃ t, t ∈ ts ∧ states_order t r) ∨ r ∈ orders p).
Proof.
  revert p. induction ts as [|t ts IH]; intros p; simpl; [split; set_solver|]. destruct (IH (project_trible t p)) as [-> ->].
  destruct (project_trible_elem t p r) as [-> ->]. split; set_solver.
Qed.

Lemma elem_of_project ts r :
  (r ∈ identities (project ts) ↔ ∃ t, t ∈ ts ∧ states_identity t r) ∧
  (r ∈ orders (project ts) ↔ ∃ t, t ∈ ts ∧ states_order t r).
Proof. unfold project. destruct (project_from ts projection_default r) as [-> ->]. simpl. set_solver. Qed.

Lemma project_ok ts : Forall trible_ok ts → projection_ok (project ts).
Proof.
  intros Ht. unfold project. assert (∀ p, projection_ok p → projection_ok (foldl (λ p t, project_trible t p) p ts)) as H; [|apply H, projection_default_ok].
  induction Ht as [|t ts Ht _ IH]; intros p Hp; simpl; [done|]. by apply IH, project_trible_ok.
Qed.

Lemma project_payload ts : (payload_len (project ts) <= 16 + 80 * N.of_nat (length ts))%N.
Proof.
  assert (∀ p, payload_len (foldl (λ p t, project_trible t p) p ts) <= payload_len p + 80 * N.of_nat (length ts))%N as H;
    [|apply (H projection_default)].
  induction ts as [|t ts IH]; intros p; simpl; [lia|]. etransitivity; [apply IH|].
  assert (payload_len (project_trible t p) <= payload_len p + 80)%N; [|lia].
  unfold LwwRegister.project_trible, payload_len.
  pose proof (λ x, bts_insert_length row_cmp x (identities p)) as H1. pose proof (λ x, bts_insert_length row_cmp x (orders p)) as H2.
  repeat case_match; simpl; try lia;
    repeat match goal with |- context [bts_insert row_cmp ?x (identities p)] => pose proof (H1 x); generalize dependent (bts_insert row_cmp x (identities p)) end;
    repeat match goal with |- context [bts_insert row_cmp ?x (orders p)] => pose proof (H2 x); generalize dependent (bts_insert row_cmp x (orders p)) end;
    intros; lia.
Qed.

(** The projection depends on the set of tribles, and takes unions to unions. *)
Lemma project_union ts ts1 ts2 : Forall trible_ok ts → Forall trible_ok ts1 → Forall trible_ok ts2 →
  (∀ t, t ∈ ts ↔ t ∈ ts1 ∨ t ∈ ts2) → project ts = projection_union (project ts1) (project ts2).
Proof.
  intros Ht H1 H2 Hu. apply projection_eq; [by apply project_ok|by apply projection_union_ok; apply project_ok| |]; intros r.
  - rewrite (proj1 (elem_of_projection_union _ _ r)), !(proj1 (elem_of_project _ r)). set_solver.
  - rewrite (proj2 (elem_of_projection_union _ _ r)), !(proj2 (elem_of_project _ r)). set_solver.
Qed.

Lemma derive_spec `{W : ByteViews, !ByteViewsOk W} source : bytes_real source →
  derive_element source identity orders_attribute =
    match verdict source with
    | inl e => Some (inl (InvalidSource e))
    | inr ts => out ← projection_encode (project ts); Some (inr out)
    end.
Proof.
  intros Hb. unfold derive_element.
  pose proof (validate_with_spec (λ _ t p, Some (project_trible t p)) source projection_default Hb) as Hv.
  assert (∀ l p, foldM (λ p (it : nat * Trible), Some (project_trible it.2 p)) p l = Some (foldl (λ p t, project_trible t p) p l.*2)) as Hf.
  { induction l as [|it l IH]; intros p; simpl; [done|]. apply IH. }
  destruct (verdict source) as [e|ts].
  - destruct Hv as (ts & n & _ & _ & ->). by rewrite Hf.
  - rewrite Hv, Hf. cbn [mbind option_bind]. rewrite snd_zip by by rewrite length_seq. done.
Qed.
End derive.

(** ** The properties *)

Section properties.
Context `{V : RowViews, !RowViewsOk V} `{W : ByteViews, !ByteViewsOk W}.

(** C25. The layout of a maintained register element round trips: a canonical
    projection is encoded in as many bytes as its header announces and decoded
    to itself, and any bytes that decode are the encoding of what they decode
    to, so that an element has one form. *)
Theorem lww_element_roundtrip p blob :
  (projection_ok p → projection_fits p → ∃ x, projection_encode p = Some x ∧ N.of_nat (length x) = payload_len p ∧
    decode_projection x = Some (inr p) ∧ validate_element x = Some (inr tt)) ∧
  (Forall (λ x, (x < 256)%N) blob → (N.of_nat (length blob) <= isize_max)%N → decode_projection blob = Some (inr p) →
    projection_ok p ∧ projection_encode p = Some blob).
Proof.
  split.
  - intros Hp Hf. exists (projection_bytes p). pose proof (decode_bytes p Hp Hf) as Hd. split_and!;
      [by apply projection_encode_fits|by apply projection_bytes_length|done|]. unfold validate_element. by rewrite Hd.
  - intros Hb Hl Hd. destruct (decode_projection_spec blob Hb) as (r & Hr & Hs). rewrite Hd in Hr. injection Hr as <-.
    destruct Hs as (Hp & <- & Hlen & _). split; [done|]. apply projection_encode_fits. unfold projection_fits. by rewrite <- Hlen.
Qed.

(** C26. The decoder never panics, and each refusal has the first reason that
    holds: the blob is shorter than a header, the announced length is not
    addressable, it is not the length of the blob, then the first identity row
    with a nil state, a nil register or no more than its predecessor, then the
    first order row with a nil state or no more than its predecessor. *)
Theorem lww_decode_errors blob : Forall (λ x, (x < 256)%N) blob →
  ∃ r, decode_projection blob = Some r ∧
    validate_element blob = Some (match r with inl err => inl err | inr _ => inr tt end) ∧
    ∀ err, r = inl err ↔ refused blob err.
Proof.
  intros Hb. destruct (decode_projection_spec blob Hb) as (r & Hr & Hs). exists r. split; [done|].
  unfold validate_element. rewrite Hr. split; [done|]. intros err. destruct r as [err'|p].
  - split; [by intros [= <-]|]. intros Herr. by rewrite (refused_unique blob err err').
  - split; [done|]. destruct Hs as (_ & _ & _ & Hn). by intros Herr%Hn.
Qed.

(** C23. The derivation is a homomorphism, byte for byte: the element derived
    from the union of two archives, however the facts of a state are divided
    between them, is the join of the elements derived from the two; and deriving
    refuses exactly the archives the validator refuses, with its error. *)
Theorem lww_derive_homomorphism identity orders_attribute b b1 b2 ts ts1 ts2 :
  bytes_real b → bytes_real b1 → bytes_real b2 → (N.of_nat (length (data b)) <= 2 ^ 62)%N →
  validate b = Some (inr ts) → validate b1 = Some (inr ts1) → validate b2 = Some (inr ts2) →
  (∀ t, t ∈ ts ↔ t ∈ ts1 ∨ t ∈ ts2) →
  (∃ x x1 x2,
    derive_element b identity orders_attribute = Some (inr x) ∧
    derive_element b1 identity orders_attribute = Some (inr x1) ∧
    derive_element b2 identity orders_attribute = Some (inr x2) ∧
    lww_join x1 x2 = Some (inr x)) ∧
  ∀ b' err, bytes_real b' → validate b' = Some (inl err) →
    derive_element b' identity orders_attribute = Some (inl (InvalidSource err)).
Proof.
  intros Hb H1 H2 Hlen Hv Hv1 Hv2 Hu. split.
  - rewrite validate_spec in Hv, Hv1, Hv2 by done. injection Hv as Hv. injection Hv1 as Hv1. injection Hv2 as Hv2.
    pose proof (verdict_spec b Hb) as S. pose proof (verdict_spec b1 H1) as S1. pose proof (verdict_spec b2 H2) as S2.
    rewrite Hv in S. rewrite Hv1 in S1. rewrite Hv2 in S2. destruct S as (Ht & Hd & Hs), S1 as (Ht1 & _ & Hs1), S2 as (Ht2 & _ & Hs2).
    assert (∀ l, lex_sorted (as_raw <$> l) → (∀ t, t ∈ l → t ∈ ts) → length l <= length ts) as Hle.
    { intros l Hl Hin. apply submseteq_length, NoDup_submseteq; [|done]. apply lex_sorted_NoDup in Hl. by apply NoDup_fmap_1 in Hl. }
    assert (64 * length ts <= length (data b)) as Hts.
    { rewrite Hd. clear -Ht. induction Ht as [|t ts Ht _ IH]; [done|]. rewrite fmap_cons. cbn [concat length].
      rewrite length_app, (bo_len _ _ (as_raw_ok t Ht)). unfold TRIBLE_LEN. lia. }
    assert (∀ l, length l <= length ts → projection_fits (project identity orders_attribute l)) as Hfit.
    { intros l Hl. unfold projection_fits, isize_max. pose proof (project_payload identity orders_attribute l). lia. }
    assert (length ts1 <= length ts ∧ length ts2 <= length ts) as [Hl1 Hl2] by (split; apply Hle; set_solver).
    rewrite !derive_spec, Hv, Hv1, Hv2, !projection_encode_fits by auto. cbn [mbind option_bind].
    eexists _, _, _. split_and!; [done..|]. rewrite (project_union identity orders_attribute ts ts1 ts2) by done.
    apply join_bytes; auto using project_ok. rewrite <- (project_union identity orders_attribute ts ts1 ts2) by done. by apply Hfit.
  - intros b' err Hb' Hv'. rewrite validate_spec in Hv' by done. injection Hv' as Hv'. by rewrite derive_spec, Hv'.
Qed.

(** C24. Elements form a semilattice under the join while their payloads are
    addressable: the join of canonical elements is total and canonical, holds
    the rows of both, and is commutative, associative and idempotent with the
    empty element as unit. *)
Theorem lww_join_semilattice x y z : canonical x → canonical y → canonical z →
  (N.of_nat (length x + length y + length z) <= isize_max)%N →
  ∃ xy yz px py pxy, lww_join x y = Some (inr xy) ∧ lww_join y z = Some (inr yz) ∧ canonical xy ∧
    (decode_projection x = Some (inr px) ∧ decode_projection y = Some (inr py) ∧ decode_projection xy = Some (inr pxy) ∧
      (∀ r, r ∈ identities pxy ↔ r ∈ identities px ∨ r ∈ identities py) ∧
      (∀ r, r ∈ orders pxy ↔ r ∈ orders px ∨ r ∈ orders py)) ∧
    lww_join y x = Some (inr xy) ∧ lww_join xy z = lww_join x yz ∧ lww_join x x = Some (inr x) ∧
    ∃ empty, lww_empty = Some empty ∧ canonical empty ∧ lww_join x empty = Some (inr x).
Proof.
  intros (p & Hp & -> & Hbp & Hdp)%canonical_bytes (q & Hq & -> & Hbq & Hdq)%canonical_bytes (s & Hs & -> & Hbs & Hds)%canonical_bytes Hlen.
  rewrite !Nat2N.inj_add, !projection_bytes_length in Hlen by done.
  assert (∀ p q, (payload_len p + payload_len q <= isize_max)%N → projection_fits (projection_union p q)) as Hfu.
  { intros p' q' Hl. unfold projection_fits. pose proof (payload_union p' q'). lia. }
  assert (projection_fits p ∧ projection_fits q ∧ projection_fits s) as (Hfp & Hfq & Hfs) by (unfold projection_fits; lia).
  assert (projection_fits (projection_union p q) ∧ projection_fits (projection_union q s) ∧
    projection_fits (projection_union (projection_union p q) s)) as (Fpq & Fqs & Fpqs).
  { split_and!; apply Hfu; [lia..|]. pose proof (payload_union p q). lia. }
  pose proof (projection_union_ok p q Hp Hq) as Opq. pose proof (projection_union_ok q s Hq Hs) as Oqs.
  exists (projection_bytes (projection_union p q)), (projection_bytes (projection_union q s)), p, q, (projection_union p q).
  rewrite !join_bytes, !decode_bytes by (try done; rewrite ?projection_union_idemp, <- ?projection_union_assoc, <- ?(projection_union_comm p q) by done; done).
  split_and!; try done.
  - apply canonical_bytes. exists (projection_union p q). split_and!; [done|done|by apply projection_bytes_real|by apply decode_bytes].
  - intros r. apply elem_of_projection_union.
  - intros r. apply elem_of_projection_union.
  - by rewrite (projection_union_comm q p).
  - by rewrite projection_union_assoc.
  - by rewrite projection_union_idemp.
  - exists (projection_bytes projection_default). split; [by apply projection_encode_fits|]. split.
    + apply canonical_bytes. exists projection_default. split_and!; [apply projection_default_ok|done|apply projection_bytes_real, projection_default_ok|].
      apply decode_bytes; [apply projection_default_ok|apply projection_default_fits].
    + rewrite join_bytes by (rewrite ?projection_union_default; done || apply projection_default_ok). by rewrite projection_union_default.
Qed.
End properties.
