(* ===== verification/LwwIndex.v ===== *)
(** * LwwIndex: last-write-wins queries over attached projections

    Source: [triblespace-core/src/collection/lww_register.rs] ([LwwIndex],
    [LwwQuery] and [LwwConstraint]).

    An index keeps the sections of its members as they lie in their blobs; a
    query merges them, pairs the halves of each state and keeps the greatest
    [(key, state)] of each register.  [kmerge] and [dedup] of [itertools] are
    the class [Itertools]; [partition_point] is a bisection. *)

From S2P Require Import Prelude Lex BTree VariableSet Liveness Query Trible InlineEncodings Membership Register LwwRegister.

Open Scope nat_scope.

(** ** What the libraries do *)

Class Itertools := {
  kmerge : list (list Row) → list Row;
  dedup {A} `{EqDecision A} : list A → list A;
}.

(** Merging keeps the elements, and the order of ordered sources; [dedup]
    drops an element equal to its predecessor. *)
Class ItertoolsOk (I : Itertools) : Prop := {
  kmerge_perm ls : kmerge ls ≡ₚ concat ls;
  kmerge_sorted ls : Forall (Sorted.StronglySorted (λ x y, row_cmp x y ≠ Gt)) ls →
    Sorted.StronglySorted (λ x y, row_cmp x y ≠ Gt) (kmerge ls);
  dedup_nil {A} `{EqDecision A} : dedup (A:=A) [] = [];
  dedup_one {A} `{EqDecision A} (x : A) : dedup [x] = [x];
  dedup_same {A} `{EqDecision A} (x : A) l : dedup (x :: x :: l) = dedup (x :: l);
  dedup_other {A} `{EqDecision A} (x y : A) l : x ≠ y → dedup (x :: y :: l) = x :: dedup (y :: l);
}.

(** [partition_point], on the elements from [lo] up to [hi]. *)
Fixpoint bisect {A} (fuel : nat) (pred : A → bool) (l : list A) (lo hi : nat) : res nat :=
  match fuel with
  | 0 => None
  | S fuel =>
      if hi <=? lo then Some lo else
      let mid := lo + (hi - lo) / 2 in
      x ← l !! mid;
      if pred x then bisect fuel pred l (S mid) hi else bisect fuel pred l lo mid
  end.
Definition partition_point {A} (pred : A → bool) (l : list A) : res nat := bisect (S (length l)) pred l 0 (length l).

(** [find_map] *)
Fixpoint find_map {A B} (f : A → res (option B)) (l : list A) : res (option B) :=
  match l with
  | [] => Some None
  | x :: l => o ← f x; match o with Some y => Some (Some y) | None => find_map f l end
  end.

(** ** Attached indexes *)

Record LwwIndex := mkLwwIndex { members : list ProjectionRows }.

Section ops.
Context `{V : RowViews} `{I : Itertools}.

Definition lww_decode (blob : Blob) : res (lww_result LwwIndex) :=
  r ← projection_rows_decode blob;
  Some (match r with inl e => inl e | inr rows => inr (mkLwwIndex [rows]) end).

(** Attachment to the members of a cover: [get] reads a blob by its handle. *)
Inductive TryFromCoverError (E : Type) := MemberGet (member : list N) (source : E) | View (source : LwwRegisterError).
#[global] Arguments MemberGet {E} member source.
#[global] Arguments View {E} source.

Fixpoint attach_members {E} (get : list N → E + Blob) (handles : list (list N)) (acc : list ProjectionRows)
    : res (TryFromCoverError E + LwwIndex) :=
  match handles with
  | [] => Some (inr (mkLwwIndex acc))
  | handle :: handles =>
      match get handle with
      | inl e => Some (inl (MemberGet handle e))
      | inr segment =>
          r ← projection_rows_decode segment;
          match r with
          | inl e => Some (inl (View e))
          | inr rows => attach_members get handles (acc ++ [rows])
          end
      end
  end.
Definition try_from_cover {E} (get : list N → E + Blob) (cover : list (list N)) : res (TryFromCoverError E + LwwIndex) :=
  attach_members get cover [].

Definition lww_union (self other : LwwIndex) : LwwIndex := mkLwwIndex (members self ++ members other).

Definition identity_rows (self : LwwIndex) : list Row := dedup (kmerge (pr_identities <$> members self)).
Definition order_rows (self : LwwIndex) : list Row := dedup (kmerge (pr_orders <$> members self)).

(** The value a member's section gives [state]. *)
Definition half_at (state : RawId) (rows : list Row) : res (option (list N)) :=
  position ← partition_point (λ row : Row, lex_lt row.1 state) rows;
  Some (match rows !! position with
        | Some row => if decide (row.1 = state) then Some row.2 else None
        | None => None
        end).

Definition coordinate (self : LwwIndex) (state : RawId) : res (option (RawId * RawKey)) :=
  register ← find_map (λ member, half_at state (pr_identities member)) (members self);
  match register with
  | None => Some None
  | Some register =>
      key ← find_map (λ member, half_at state (pr_orders member)) (members self);
      Some (match key with Some key => Some (register, key) | None => None end)
  end.

(** ** Preparing a query *)

Abbreviation Winners := (list (RawId * (RawKey * RawId))).
Definition candidate_cmp : RawKey * RawId → RawKey * RawId → comparison := pair_cmp lex_cmp lex_cmp.

Record LwwQuery := mkLwwQuery { q_index : LwwIndex; q_winners : Winners; q_complete : N; q_unresolved : N }.

(** The rows of [state] at the head of a section: what remains, the last value
    and whether two values differ.  [rule] refuses a value. *)
Fixpoint drain (rule : list N → option LwwRegisterError) (state : RawId) (rows : list Row) (value : option (list N))
    (conflict : bool) : lww_result (list Row * option (list N) * bool) :=
  match rows with
  | row :: rest =>
      if decide (row.1 = state) then
        match rule row.2 with
        | Some e => inl e
        | None => drain rule state rest (Some row.2)
                    (conflict || match value with Some prior => negb (bool_decide (prior = row.2)) | None => false end)
        end
      else inr (rows, value, conflict)
  | [] => inr ([], value, conflict)
  end.

Definition register_rule (register : RawId) : option LwwRegisterError :=
  if decide (register = nil_id) then Some NilRegister else None.

(** [left.min(right)] of the states ahead. *)
Definition next_state (identities orders : list Row) : option RawId :=
  match head_of identities, head_of orders with
  | None, None => None
  | Some row, None | None, Some row => Some row.1
  | Some l, Some r => Some (match lex_cmp l.1 r.1 with Gt => r.1 | _ => l.1 end)
  end.

Fixpoint query_loop (fuel : nat) (identities orders : list Row) (winners : Winners) (complete unresolved : N)
    : res (lww_result (Winners * N * N)) :=
  match fuel with
  | 0 => None
  | S fuel =>
      match next_state identities orders with
      | None => Some (inr (winners, complete, unresolved))
      | Some state =>
          if decide (state = nil_id) then Some (inl NilState) else
          match drain register_rule state identities None false with
          | inl e => Some (inl e)
          | inr (identities, register, identity_conflict) =>
              match drain (λ _, None) state orders None false with
              | inl e => Some (inl e)
              | inr (orders, key, order_conflict) =>
                  match register, key with
                  | Some register, Some key =>
                      if (identity_conflict : bool) then Some (inl (ConflictingIdentity state)) else
                      if (order_conflict : bool) then Some (inl (ConflictingOrder state)) else
                      let candidate := (key, state) in
                      query_loop fuel identities orders
                        (btm_upsert lex_cmp register (λ winner, cmp_max candidate_cmp winner candidate) candidate winners)
                        (complete + 1) unresolved
                  | _, _ => query_loop fuel identities orders winners complete (unresolved + 1)
                  end
              end
          end
      end
  end.

Definition query (self : LwwIndex) : res (lww_result LwwQuery) :=
  let identities := identity_rows self in
  let orders := order_rows self in
  r ← query_loop (S (length identities + length orders)) identities orders [] 0 0;
  Some (match r with
        | inl e => inl e
        | inr (winners, complete, unresolved) => inr (mkLwwQuery self winners complete unresolved)
        end).

Definition index_eq (self other : LwwIndex) : bool :=
  bool_decide (identity_rows self = identity_rows other) && bool_decide (order_rows self = order_rows other).

(** ** Reading a prepared query *)

Implicit Types q : LwwQuery.

Definition lww_len q : N := q_complete q.
Definition lww_is_empty q : bool := (q_complete q =? 0)%N.
Definition register_count q : N := N.of_nat (length (q_winners q)).
Definition unresolved_count q : N := q_unresolved q.

(** The [expect] on the state. *)
Definition winner q (register : Id) : res (option Id) :=
  match btm_get lex_cmp (raw register) (q_winners q) with
  | None => Some None
  | Some (_, state) => id ← Id_new state; Some (Some id)
  end.

Definition lww_contains q (state : Id) : res bool :=
  o ← coordinate (q_index q) (raw state);
  Some (match o with
        | None => false
        | Some (register, _) =>
            match btm_get lex_cmp register (q_winners q) with
            | Some (_, winner) => bool_decide (winner = raw state)
            | None => false
            end
        end).

Definition coordinates q : res (list (RawId * RawId * RawKey)) :=
  foldM (λ out state,
    o ← coordinate (q_index q) state;
    Some (match o with Some (register, key) => out ++ [(state, register, key)] | None => out end))
    [] (dedup (fst <$> identity_rows (q_index q))).

(** The counters and winners are compared before the coordinates. *)
Definition query_eq q q' : res bool :=
  if bool_decide (q_complete q = q_complete q') && bool_decide (q_unresolved q = q_unresolved q') &&
    bool_decide (q_winners q = q_winners q')
  then l ← coordinates q; r ← coordinates q'; Some (bool_decide (l = r))
  else Some false.

#[global] Instance lww_order : RegisterOrder LwwQuery := λ q state,
  o ← coordinate (q_index q) (raw state);
  Some (match o with
        | None => false
        | Some (register, _) =>
            match btm_get lex_cmp register (q_winners q) with
            | Some (_, winner) => negb (bool_decide (winner = raw state))
            | None => false
            end
        end).

(** ** Membership of a variable in the winners *)

Record LwwConstraint := mkLwwConstraint { lw_variable : VariableId; lw_index : LwwQuery }.
Implicit Types c : LwwConstraint.

Definition lww_has q (variable : VariableId) : LwwConstraint := mkLwwConstraint variable q.

Definition lww_variables c : VariableSet := new_singleton (lw_variable c).

Definition lww_estimate c (variable : VariableId) (b : Binding) : res (option N) :=
  Some (if (lw_variable c =? variable)%N then Some (register_count (lw_index c)) else None).

Definition winner_values q : list RawInline := (λ w : RawId * (RawKey * RawId), GenId.raw_encode w.2.2) <$> q_winners q.

Definition lww_propose c (variable : VariableId) (f : Frontier) (proposals : ProposalBuffer) : res ProposalBuffer :=
  if (lw_variable c =? variable)%N then propose_rows (winner_values (lw_index c)) f proposals else Some proposals.

Definition lww_keeps q (v : RawInline) : res bool :=
  match GenId.try_from_inline v with inr state => lww_contains q state | inl _ => Some false end.

Definition lww_confirm c (variable : VariableId) (f : Frontier) (cands : Candidates) : res Candidates :=
  if (lw_variable c =? variable)%N then confirm_live (lww_keeps (lw_index c)) cands else Some cands.

Definition lww_satisfied c (b : Binding) : res bool :=
  o ← bget b (lw_variable c);
  match o with Some v => lww_keeps (lw_index c) v | None => Some true end.

Definition lww_constraint c : Constraint :=
  mkConstraint (lww_variables c) (lww_estimate c) (lww_propose c) (lww_confirm c) (lww_satisfied c)
    (default_influence (lww_variables c)).
End ops.
