(* ===== verification/LwwIndexSpec.v ===== *)
(** * LwwIndexSpec: what a last-write-wins query answers

    Preparing a query decides every state in turn: the first state that
    offends is the error, otherwise each register is won by its greatest
    [(key, state)].  The answer depends on the rows alone, not on the members
    they lie in. *)

From S2P Require Import Prelude Lex BTree VariableSet Liveness Query Trible SimpleArchive InlineEncodings Membership MembershipSpec.
From S2P Require Import Register LwwRegister LwwRegisterSpec LwwIndex.

Open Scope nat_scope.

#[global] Instance candidate_cmp_ok : CmpOk candidate_cmp.
Proof. apply _. Qed.
#[global] Instance row_cmp_ok : CmpOk row_cmp.
Proof. apply _. Qed.

(** ** Libraries *)

Section libraries.
Context `{I : Itertools, !ItertoolsOk I}.

Lemma dedup_cons {A} `{EqDecision A} (x : A) l : dedup (x :: l) = x :: dedup l ∨ (∃ l', l = x :: l') ∧ dedup (x :: l) = dedup l.
Proof.
  destruct l as [ |y l]; [left; by rewrite dedup_one, dedup_nil|]. destruct (decide (x = y)) as [-> |].
  - right. split; [by eexists|]. apply dedup_same.
  - left. by apply dedup_other.
Qed.

Lemma elem_of_deduped {A} `{EqDecision A} (x : A) l : x ∈ dedup l ↔ x ∈ l.
Proof.
  induction l as [ |y l IH]; [by rewrite dedup_nil|]. destruct (dedup_cons y l) as [-> |[[l' ->] ->]].
  - rewrite !elem_of_cons. tauto.
  - rewrite IH, !elem_of_cons. tauto.
Qed.

Lemma dedup_ascending {A} `{EqDecision A} (cmp : A → A → comparison) `{!CmpOk cmp} (l : list A) :
  Sorted.StronglySorted (λ x y, cmp x y ≠ Gt) l → ascending cmp (dedup l).
Proof.
  induction 1 as [ |x l Hl IH Hx]; [rewrite dedup_nil; constructor|].
  destruct l as [ |y l]; [rewrite dedup_one; by repeat constructor|]. destruct (decide (x = y)) as [-> |Hne]; [by rewrite dedup_same|].
  rewrite dedup_other by done. constructor; [done|]. apply Forall_forall. intros z Hz. rewrite elem_of_deduped in Hz.
  assert (cmp x y = Lt) as Hxy.
  { apply Forall_cons in Hx as [Hx _]. destruct (cmp x y) eqn:E; [by apply (cmp_eq cmp) in E|done..]. }
  apply elem_of_cons in Hz as [-> |Hz]; [done|]. apply Sorted.StronglySorted_inv in Hl as [_ Hy].
  rewrite Forall_forall in Hy. specialize (Hy z Hz). destruct (cmp y z) eqn:E; [by apply (cmp_eq cmp) in E as <-| |done].
  by apply (cmp_trans cmp) with y.
Qed.

Lemma ascending_weak {A} (cmp : A → A → comparison) (l : list A) : ascending cmp l → Sorted.StronglySorted (λ x y, cmp x y ≠ Gt) l.
Proof. induction 1 as [ |x l Hl IH Hx]; constructor; [done|]. eapply Forall_impl; [done|]. intros y ->. done. Qed.

Lemma merged_rows ls : Forall (ascending row_cmp) ls →
  ascending row_cmp (dedup (kmerge ls)) ∧ ∀ r, r ∈ dedup (kmerge ls) ↔ r ∈ concat ls.
Proof.
  intros Hls. split.
  - apply dedup_ascending; [apply _|]. apply kmerge_sorted. eapply Forall_impl; [done|]. intros l. apply ascending_weak.
  - intros r. rewrite elem_of_deduped. by rewrite kmerge_perm.
Qed.
End libraries.

(** ** Bisection *)

Lemma bisect_spec {A} fuel (pred : A → bool) l lo hi : lo <= hi <= length l → hi - lo < fuel →
  (∀ i j x y, l !! i = Some x → l !! j = Some y → i < j → pred y = true → pred x = true) →
  (∀ i x, i < lo → l !! i = Some x → pred x = true) → (∀ i x, hi <= i → l !! i = Some x → pred x = false) →
  ∃ p, bisect fuel pred l lo hi = Some p ∧ (∀ i x, i < p → l !! i = Some x → pred x = true) ∧
    (∀ i x, p <= i → l !! i = Some x → pred x = false).
Proof.
  revert lo hi. induction fuel as [ |fuel IH]; intros lo hi Hb Hf Hp Hlo Hhi; [lia|]. cbn [bisect].
  destruct (Nat.leb_spec hi lo) as [Hle|Hlt]; [exists lo; split_and!; [done..|]; intros i x Hi; apply Hhi; lia|].
  set (mid := lo + (hi - lo) / 2). assert (lo <= mid < hi) as Hmid.
  { unfold mid. split; [lia|]. assert ((hi - lo) / 2 < hi - lo) by (apply Nat.div_lt; lia). lia. }
  destruct (lookup_lt_is_Some_2 l mid) as [x Hx]; [lia|]. rewrite Hx. cbn [mbind option_bind]. destruct (pred x) eqn:Ep.
  - apply IH; [lia|lia|done| |done]. intros i y Hi Hy. destruct (decide (i = mid)) as [-> |]; [congruence|]. eapply (Hp i mid); eauto. lia.
  - apply IH; [lia|lia|done|done|]. intros i y Hi Hy. destruct (decide (i = mid)) as [-> |]; [congruence|].
    destruct (pred y) eqn:Ey; [|done]. rewrite (Hp mid i x y) in Ep; [done|done..|lia|done].
Qed.

Lemma row_cmp_state (x y : Row) : row_cmp x y = Lt → lex_lt x.1 y.1 = true ∨ x.1 = y.1.
Proof.
  unfold row_cmp, pair_cmp, cmp_then. destruct (lex_cmp x.1 y.1) eqn:E; [ |by left; apply lex_cmp_lt|done].
  apply lex_cmp_eq in E. by right.
Qed.

Lemma half_at_spec state rows : ascending row_cmp rows →
  ∃ o, half_at state rows = Some o ∧ match o with Some x => (state, x) ∈ rows | None => ∀ x, (state, x) ∉ rows end.
Proof.
  intros Hs. unfold half_at, partition_point.
  destruct (bisect_spec (S (length rows)) (λ row : Row, lex_lt row.1 state) rows 0 (length rows)) as (p & -> & Hlo & Hhi); [lia|lia| |lia| |].
  - intros i j x y Hx Hy Hij Hlt. destruct (row_cmp_state x y) as [H| ->]; [by eapply ascending_lookup| |done]. by eapply lex_lt_trans.
  - intros i x Hi Hx. apply lookup_lt_Some in Hx. lia.
  - cbn [mbind option_bind]. eexists. split; [done|].
    assert (∀ i v, rows !! i = Some (state, v) → p <= i) as Hge.
    { intros i v Hi. destruct (Nat.lt_ge_cases i p) as [Hip|]; [|done]. specialize (Hlo i _ Hip Hi). simpl in Hlo. by rewrite lex_lt_irrefl in Hlo. }
    destruct (rows !! p) as [[st v]|] eqn:Hp.
    + simpl. case_decide as E; [subst; by eapply list_elem_of_lookup_2|]. intros x [i Hi]%list_elem_of_lookup.
      pose proof (Hge i x Hi) as Hpi. destruct (decide (i = p)) as [-> |]; [congruence|].
      specialize (Hhi p _ (le_n p) Hp). simpl in Hhi. destruct (row_cmp_state (st, v) (state, x)) as [H|H]; simpl in *.
      { by apply (ascending_lookup row_cmp rows p i); try lia. } { congruence. } { congruence. }
    + intros x [i Hi]%list_elem_of_lookup. pose proof (Hge i x Hi). apply lookup_ge_None in Hp. apply lookup_lt_Some in Hi. lia.
Qed.

Lemma find_map_spec {A B} (f : A → res (option B)) (l : list A) (P : A → option B → Prop) :
  (∀ x, x ∈ l → ∃ o, f x = Some o ∧ P x o) →
  ∃ o, find_map f l = Some o ∧ match o with Some y => ∃ x, x ∈ l ∧ P x (Some y) | None => ∀ x, x ∈ l → P x None end.
Proof.
  induction l as [ |x l IH]; intros Hl; cbn [find_map]; [exists None; split; [done|set_solver]|].
  destruct (Hl x) as (o & -> & Ho); [by left|]. cbn [mbind option_bind]. destruct o as [y|].
  - exists (Some y). split; [done|]. exists x. split; [by left|done].
  - destruct IH as (o & -> & Ho'); [intros z Hz; apply Hl; by right|]. exists o. split; [done|]. destruct o as [y|].
    + destruct Ho' as (z & Hz & Hy). exists z. split; [by right|done].
    + intros z [-> |Hz]%elem_of_cons; auto.
Qed.

(** ** States and their coordinates *)

Section coordinates.
Implicit Types (I O : list Row) (st reg key : list N).

Definition states I : gset (list N) := list_to_set I.*1.
Lemma elem_of_states I st : st ∈ states I ↔ ∃ v, (st, v) ∈ I.
Proof.
  unfold states. rewrite elem_of_list_to_set, list_elem_of_fmap. split.
  - intros ([st' v] & -> & Hv). by exists v.
  - intros [v Hv]. by exists (st, v).
Qed.
Lemma states_app I I' : states (I ++ I') = states I ∪ states I'.
Proof. unfold states. by rewrite fmap_app, list_to_set_app_L. Qed.

Definition coordinate_in I O st reg key : Prop := (st, reg) ∈ I ∧ (st, key) ∈ O.

(** What makes a query refuse [st]: its own rows decide. *)
Inductive offends I O st : LwwRegisterError → Prop :=
  | offends_nil : st ∈ states I ∪ states O → st = nil_id → offends I O st NilState
  | offends_register : st ≠ nil_id → (st, nil_id) ∈ I → offends I O st NilRegister
  | offends_identity reg reg' key : st ≠ nil_id → (st, nil_id) ∉ I → reg ≠ reg' →
      coordinate_in I O st reg key → coordinate_in I O st reg' key → offends I O st (ConflictingIdentity st)
  | offends_order reg key key' : st ≠ nil_id → (st, nil_id) ∉ I → (∀ reg', (st, reg') ∈ I → reg' = reg) → key ≠ key' →
      coordinate_in I O st reg key → coordinate_in I O st reg key' → offends I O st (ConflictingOrder st).

Lemma offends_occurs I O st err : offends I O st err → st ∈ states I ∪ states O.
Proof.
  rewrite elem_of_union, !elem_of_states. destruct 1 as [H ?|? H|? ? ? ? ? ? [H ?]|? ? ? ? ? ? ? [H ?]]; [|eauto..].
  by rewrite elem_of_union, !elem_of_states in H.
Qed.

(** The rows of [st] alone matter. *)
Lemma offends_rows I O I' O' st err : (∀ v, (st, v) ∈ I ↔ (st, v) ∈ I') → (∀ v, (st, v) ∈ O ↔ (st, v) ∈ O') →
  offends I O st err → offends I' O' st err.
Proof.
  intros HI HO. assert (st ∈ states I ∪ states O ↔ st ∈ states I' ∪ states O') as Hst.
  { rewrite !elem_of_union, !elem_of_states. setoid_rewrite HI. by setoid_rewrite HO. }
  unfold coordinate_in. destruct 1 as [H E|? H|reg reg' key ? H ? [H1 H2] [H3 ?]|reg key key' ? H Hu ? [H1 H2] [? H3]].
  - constructor; [by rewrite <- Hst|done].
  - constructor; [done|by rewrite <- HI].
  - econstructor; [done|by rewrite <- HI|done|..]; split; rewrite <- ?HI, <- ?HO; eauto.
  - eapply offends_order; [done|by rewrite <- HI| |done|..].
    { intros reg'. rewrite <- HI. apply Hu. } all: split; rewrite <- ?HI, <- ?HO; eauto.
Qed.

(** The greatest [(key, state)] of a register. *)
Definition wins I O reg key st : Prop := coordinate_in I O st reg key ∧
  ∀ st' key', coordinate_in I O st' reg key' → candidate_cmp (key', st') (key, st) ≠ Gt.

(** What a prepared query holds. *)
Record prepared I O (winners : list (list N * (list N * list N))) (complete unresolved : N) : Prop := {
  pp_keys : keys_ascending lex_cmp winners;
  pp_winners reg key st : btm_get lex_cmp reg winners = Some (key, st) ↔ wins I O reg key st;
  pp_complete : complete = N.of_nat (size (states I ∩ states O));
  pp_unresolved : unresolved = N.of_nat (size ((states I ∪ states O) ∖ (states I ∩ states O)));
}.

Lemma prepared_nil : prepared [] [] [] 0 0.
Proof.
  split; [constructor| |done|done]. intros reg key st. simpl. split; [done|].
  intros [[H _] _]. by apply not_elem_of_nil in H.
Qed.

Lemma coordinate_app I O gI gO st reg key : (∀ v, (st, v) ∉ gI) → (∀ v, (st, v) ∉ gO) →
  coordinate_in (I ++ gI) (O ++ gO) st reg key ↔ coordinate_in I O st reg key.
Proof. intros HI HO. unfold coordinate_in. rewrite !elem_of_app. naive_solver. Qed.

Lemma states_group (g : list Row) st : Forall (λ r, r.1 = st) g → g ≠ [] → states g = {[st]}.
Proof.
  intros Hg Hne. apply set_eq. intros x. rewrite elem_of_states, elem_of_singleton. rewrite Forall_forall in Hg. split.
  - intros [v Hv]. by apply (Hg (x, v)).
  - intros ->. destruct g as [|[st' v] g]; [done|]. exists v. rewrite <- (Hg (st', v)) at 1 by by left. by left.
Qed.

Lemma size_add st (X : gset (list N)) : st ∉ X → size ({[st]} ∪ X) = S (size X).
Proof. intros Hst. by rewrite (size_union {[st]} X), size_singleton by set_solver. Qed.

(** One more state, incomplete. *)
Lemma prepared_unresolved I O gI gO st w c u : prepared I O w c u → st ∉ states I ∪ states O →
  Forall (λ r, r.1 = st) gI → Forall (λ r, r.1 = st) gO → (gI = [] ∧ gO ≠ [] ∨ gI ≠ [] ∧ gO = []) →
  prepared (I ++ gI) (O ++ gO) w c (u + 1).
Proof.
  intros [H1 H2 H3 H4] Hst HgI HgO Hone. rewrite not_elem_of_union in Hst. destruct Hst as [HsI HsO].
  rewrite elem_of_states in HsI, HsO.
  assert (∀ st' reg key, coordinate_in (I ++ gI) (O ++ gO) st' reg key ↔ coordinate_in I O st' reg key) as Hc.
  { intros st' reg key. unfold coordinate_in. rewrite !elem_of_app. rewrite Forall_forall in HgI, HgO. split; [|tauto].
    intros [[A|A] [B|B]]; try done.
    - apply HgO in B. simpl in B. subst. exfalso. eauto.
    - apply HgI in A. simpl in A. subst. exfalso. eauto.
    - destruct Hone as [[-> _]|[_ ->]]; set_solver. }
  rewrite <- elem_of_states in HsI, HsO.
  split; [done| | |].
  - intros reg key st'. rewrite H2. unfold wins. rewrite Hc. by setoid_rewrite Hc.
  - rewrite H3, !states_app. f_equal. f_equal. destruct Hone as [[-> Hn]|[Hn ->]]; [rewrite (states_group gO st) by done|rewrite (states_group gI st) by done]; set_solver.
  - rewrite H4, !states_app. destruct Hone as [[-> Hn]|[Hn ->]]; [rewrite (states_group gO st) by done|rewrite (states_group gI st) by done].
    + replace ((states I ∪ states [] ∪ (states O ∪ {[st]})) ∖ ((states I ∪ states []) ∩ (states O ∪ {[st]})))
        with ({[st]} ∪ (states I ∪ states O) ∖ (states I ∩ states O)) by set_solver.
      rewrite size_add by set_solver. lia.
    + replace ((states I ∪ {[st]} ∪ (states O ∪ states [])) ∖ ((states I ∪ {[st]}) ∩ (states O ∪ states [])))
        with ({[st]} ∪ (states I ∪ states O) ∖ (states I ∩ states O)) by set_solver.
      rewrite size_add by set_solver. lia.
Qed.

(** A register with a coordinate has a winner. *)
Lemma winner_exists I O w c u reg st key : prepared I O w c u → coordinate_in I O st reg key →
  ∃ key' st', btm_get lex_cmp reg w = Some (key', st').
Proof.
  intros Hw Hc.
  set (cs := I ≫= λ r, O ≫= λ o, if decide (r.2 = reg ∧ o.1 = r.1) then [(o.2, r.1)] else []).
  assert (∀ k s, (k, s) ∈ cs ↔ coordinate_in I O s reg k) as Hcs.
  { intros k s. unfold cs, coordinate_in. rewrite list_elem_of_bind. setoid_rewrite list_elem_of_bind. split.
    - intros ([s1 r1] & ([s2 k2] & Hin & HO) & HI). simpl in *. case_decide as E; [|by apply not_elem_of_nil in Hin].
      destruct E as [-> ->]. by apply list_elem_of_singleton in Hin as [= -> ->].
    - intros [HI HO]. exists (s, reg). split; [|done]. exists (s, k). split; [|done]. simpl. rewrite decide_True by done. by left. }
  destruct (greatest_exists candidate_cmp cs) as ([k s] & Hks & Hmax).
  { intros E. apply Hcs in Hc. rewrite E in Hc. by apply not_elem_of_nil in Hc. }
  exists k, s. apply (pp_winners _ _ _ _ _ Hw). split; [by apply Hcs|]. intros st' key' Hc'. apply Hmax. by apply Hcs.
Qed.

(** One more coordinate. *)
Lemma prepared_complete I O st reg key w c u : prepared I O w c u → st ∉ states I ∪ states O →
  prepared (I ++ [(st, reg)]) (O ++ [(st, key)])
    (btm_upsert lex_cmp reg (λ winner, cmp_max candidate_cmp winner (key, st)) (key, st) w) (c + 1) u.
Proof.
  intros [H1 H2 H3 H4] Hst. pose proof Hst as [HsI HsO]%not_elem_of_union. rewrite elem_of_states in HsI, HsO.
  assert (∀ st' reg' key', coordinate_in (I ++ [(st, reg)]) (O ++ [(st, key)]) st' reg' key' ↔
    coordinate_in I O st' reg' key' ∨ (st' = st ∧ reg' = reg ∧ key' = key)) as Hc.
  { intros st' reg' key'. unfold coordinate_in. rewrite !elem_of_app, !list_elem_of_singleton. split.
    - intros [[A|A] [B|B]]; simplify_eq; try tauto; exfalso; eauto.
    - intros [[A B]|(-> & -> & ->)]; tauto. }
  split.
  - by apply btm_upsert_ascending; [apply _|].
  - intros reg' key' st'. rewrite btm_upsert_get by (apply _ || done). unfold wins. setoid_rewrite Hc. case_decide as E.
    + apply lex_cmp_eq in E as ->. destruct (btm_get lex_cmp reg w) as [[key0 st0]|] eqn:Eg; simpl.
      * pose proof (proj1 (H2 reg key0 st0) Eg) as [W1 W2].
        destruct (cmp_max_le candidate_cmp (key0, st0) (key, st)) as [M1 M2].
        destruct (cmp_max_either candidate_cmp (key0, st0) (key, st)) as [M|M]; rewrite M in M1, M2 |- *; split.
        -- intros [= <- <-]. split; [by left|]. intros st2 key2 [Hc2|(-> & _ & ->)]; [by apply W2|done].
        -- intros [[Hc2|(-> & _ & ->)] Hmax]; f_equal; apply (cmp_le_antisym candidate_cmp).
           ++ apply Hmax. by left. ++ by apply W2. ++ apply Hmax. by left. ++ done.
        -- intros [= <- <-]. split; [by right|]. intros st2 key2 [Hc2|(-> & _ & ->)]; [|done].
           eapply (cmp_le_trans candidate_cmp); [by apply W2|done].
        -- intros [[Hc2|(-> & _ & ->)] Hmax]; [|done]. f_equal. apply (cmp_le_antisym candidate_cmp).
           ++ apply Hmax. by right. ++ eapply (cmp_le_trans candidate_cmp); [by apply W2|done].
      * assert (∀ st2 key2, ¬ coordinate_in I O st2 reg key2) as Hno.
        { intros st2 key2 Hc2. destruct (winner_exists I O w c u reg st2 key2) as (? & ? & ?); [by split|done|congruence]. }
        split.
        -- intros [= <- <-]. split; [by right|]. intros st2 key2 [Hc2|(-> & _ & ->)]; [by apply Hno in Hc2|by rewrite cmp_refl by apply _].
        -- intros [[Hc2|(-> & _ & ->)] _]; [by apply Hno in Hc2|done].
    + rewrite H2. unfold wins. assert (reg' ≠ reg) as Hne by (intros ->; by rewrite cmp_refl in E by apply _). naive_solver.
  - rewrite H3, !states_app, !(states_group [_] st) by (by repeat constructor).
    replace ((states I ∪ {[st]}) ∩ (states O ∪ {[st]})) with ({[st]} ∪ states I ∩ states O) by set_solver.
    rewrite size_add by set_solver. lia.
  - rewrite H4, !states_app, !(states_group [_] st) by (by repeat constructor). f_equal. f_equal. set_solver.
Qed.
End coordinates.

(** ** One state of the loop *)

(** The rows of the least state ahead come first. *)
Lemma split_state rows st : ascending row_cmp rows → Forall (λ r : Row, lex_le st r.1 = true) rows →
  ∃ g rest, rows = g ++ rest ∧ Forall (λ r, r.1 = st) g ∧ Forall (λ r : Row, lex_lt st r.1 = true) rest.
Proof.
  induction rows as [|r rows IH]; intros Hs Hst; [by exists [], []|].
  apply Forall_cons in Hst as [Hr Hst]. pose proof Hs as [Hs' Hall]%Sorted.StronglySorted_inv.
  destruct (decide (r.1 = st)) as [E|Hne].
  - destruct IH as (g & rest & -> & Hg & Hrest); [done..|]. exists (r :: g), rest. split_and!; [done|by constructor|done].
  - exists [], (r :: rows). split_and!; [done|constructor|]. assert (lex_lt st r.1 = true) as Hlt.
    { unfold lex_lt. destruct (lex_le r.1 st) eqn:E; [|done]. by destruct Hne; apply lex_le_antisym. }
    constructor; [done|]. eapply Forall_impl; [done|]. intros x Hx. cbn beta in Hx. destruct (row_cmp_state r x Hx) as [H|<-]; [|done].
    by eapply lex_lt_trans.
Qed.

(** Distinct rows of a state have distinct values. *)
Lemma group_distinct (g : list Row) st : NoDup g → Forall (λ r, r.1 = st) g → NoDup g.*2.
Proof.
  intros Hnd Hg. apply (NoDup_fmap_1 (pair st)). rewrite <- list_fmap_compose. rewrite (list_fmap_ext _ id).
  - by rewrite list_fmap_id.
  - intros i [a b] Hi. rewrite Forall_lookup in Hg. simpl. by rewrite <- (Hg i (a, b) Hi).
Qed.

Section drain.
Context (rule : list N → option LwwRegisterError) (st : list N) (rest : list Row).
Hypothesis Hrest : Forall (λ r : Row, lex_lt st r.1 = true) rest.

Lemma drain_rest value conflict : drain rule st rest value conflict = inr (rest, value, conflict).
Proof.
  destruct rest as [|r rest']; [done|]. simpl. apply Forall_cons in Hrest as [Hr _]. rewrite decide_False; [done|].
  intros E. by rewrite E, lex_lt_irrefl in Hr.
Qed.

Definition seen (value : option (list N)) : list (list N) := match value with Some v => [v] | None => [] end.

(** The group is consumed: a refused value, or the last one and whether there
    were two. *)
Lemma drain_group g value conflict : Forall (λ r, r.1 = st) g → NoDup (seen value ++ g.*2) →
  (conflict = true → value ≠ None) →
  match drain rule st (g ++ rest) value conflict with
  | inl err => ∃ r, r ∈ g ∧ rule r.2 = Some err
  | inr (rows, last_value, c) => rows = rest ∧ Forall (λ r, rule r.2 = None) g ∧
      last_value = match last g with Some r => Some r.2 | None => value end ∧
      c = conflict || (2 <=? length (seen value) + length g)
  end.
Proof.
  intros Hg. revert value conflict. induction Hg as [|r g Hr Hg IH]; intros value conflict Hnd Hc.
  - simpl. rewrite drain_rest. split_and!; [done|constructor|done|]. destruct value; simpl; by rewrite orb_false_r.
  - cbn [app drain]. rewrite decide_True by done. destruct (rule r.2) as [err|] eqn:Er; [exists r; split; [by left|done]|].
    set (c' := conflict || _). specialize (IH (Some r.2) c'). assert (NoDup (seen (Some r.2) ++ g.*2)) as Hnd'.
    { apply NoDup_app in Hnd as (_ & _ & Hnd). done. }
    specialize (IH Hnd' ltac:(done)). destruct (drain _ _ _ _ _) as [err|[[rows lv] c]].
    + destruct IH as (r' & Hin & Hr'). exists r'. split; [by right|done].
    + destruct IH as (-> & Hall & -> & ->). split_and!; [done|by constructor| |].
      * rewrite last_cons. by destruct (last g).
      * unfold c'. destruct value as [v|]; simpl in *.
        -- rewrite bool_decide_eq_false_2 by (intros ->; apply NoDup_cons in Hnd as [Hnd _]; apply Hnd; by left).
           simpl. by rewrite orb_true_r.
        -- rewrite orb_false_r. destruct (length g); done.
Qed.
End drain.

(** ** The loop *)

Lemma next_state_spec I O : ascending row_cmp I → ascending row_cmp O →
  match next_state I O with
  | None => I = [] ∧ O = []
  | Some st => st ∈ states I ∪ states O ∧ Forall (λ r : Row, lex_le st r.1 = true) I ∧ Forall (λ r : Row, lex_le st r.1 = true) O
  end.
Proof.
  assert (∀ (r : Row) rows st, ascending row_cmp (r :: rows) → lex_le st r.1 = true → Forall (λ x : Row, lex_le st x.1 = true) (r :: rows)) as Hle.
  { intros r rows st [_ Hall]%Sorted.StronglySorted_inv Hst. constructor; [done|]. eapply Forall_impl; [done|]. intros x Hx. cbn beta in Hx.
    destruct (row_cmp_state r x Hx) as [H%lex_lt_le|<-]; [by eapply lex_le_trans|done]. }
  assert (∀ (r : Row) rows, r.1 ∈ states (r :: rows)) as Hin.
  { intros [st v] rows. apply elem_of_states. exists v. by left. }
  intros HI HO. destruct I as [|i I], O as [|o O]; simpl.
  - done.
  - split_and!; [apply elem_of_union; right; apply Hin|constructor|by apply Hle, lex_le_refl].
  - split_and!; [apply elem_of_union; left; apply Hin|by apply Hle, lex_le_refl|constructor].
  - rewrite elem_of_union. pose proof (lex_cmp_spec i.1 o.1) as Hc. destruct (lex_cmp i.1 o.1).
    + split_and!; [by left|by apply Hle, lex_le_refl|]. apply Hle; [done|]. rewrite Hc. apply lex_le_refl.
    + split_and!; [by left|by apply Hle, lex_le_refl|]. apply Hle; [done|]. apply Hc.
    + split_and!; [by right| |by apply Hle, lex_le_refl]. apply Hle; [done|]. apply Hc.
Qed.

(** The rows of one state, of which there is one at least. *)
Record state_rows (st : list N) (gI gO : list Row) : Prop := {
  sr_identities : Forall (λ r, r.1 = st) gI;
  sr_orders : Forall (λ r, r.1 = st) gO;
  sr_identity_values : NoDup gI.*2;
  sr_order_values : NoDup gO.*2;
  sr_some : gI ≠ [] ∨ gO ≠ [];
}.

Lemma two_values (g : list Row) st : Forall (λ r, r.1 = st) g → NoDup g.*2 → 2 <= length g →
  ∃ v v', (st, v) ∈ g ∧ (st, v') ∈ g ∧ v ≠ v'.
Proof.
  intros Hg Hnd Hl. destruct g as [|[a v] [|[b v'] g]]; simpl in *; try lia.
  apply Forall_cons in Hg as [Ha Hg]. apply Forall_cons in Hg as [Hb _]. simpl in *. subst a b.
  exists v, v'. split_and!; [by left|right; by left|]. intros ->. apply NoDup_cons in Hnd as [Hnd _]. apply Hnd. by left.
Qed.

Lemma no_offence st gI gO : st ≠ nil_id → (st, nil_id) ∉ gI →
  (gI = [] ∨ gO = [] ∨ ∃ reg key, gI = [(st, reg)] ∧ gO = [(st, key)]) → ∀ err, ¬ offends gI gO st err.
Proof.
  intros Hst Hnil Hg err Hoff. destruct Hoff as [? ?|? ?|reg reg' key ? ? Hne [H1 H2] [H3 H4]|reg key key' ? ? ? Hne [H1 H2] [H3 H4]]; try done.
  - destruct Hg as [->|[->|(r & k & -> & ->)]]; [by apply not_elem_of_nil in H1|by apply not_elem_of_nil in H2|].
    apply list_elem_of_singleton in H1, H3. congruence.
  - destruct Hg as [->|[->|(r & k & -> & ->)]]; [by apply not_elem_of_nil in H1|by apply not_elem_of_nil in H2|].
    apply list_elem_of_singleton in H2, H4. congruence.
Qed.

Lemma loop_step fuel st gI gO I O w c u : state_rows st gI gO → next_state (gI ++ I) (gO ++ O) = Some st →
  Forall (λ r : Row, lex_lt st r.1 = true) I → Forall (λ r : Row, lex_lt st r.1 = true) O →
  (∃ err, query_loop (S fuel) (gI ++ I) (gO ++ O) w c u = Some (inl err) ∧ offends gI gO st err) ∨
  ((∀ err, ¬ offends gI gO st err) ∧
    ((gI = [] ∧ gO ≠ [] ∨ gI ≠ [] ∧ gO = []) ∧
       query_loop (S fuel) (gI ++ I) (gO ++ O) w c u = query_loop fuel I O w c (u + 1) ∨
     ∃ reg key, gI = [(st, reg)] ∧ gO = [(st, key)] ∧
       query_loop (S fuel) (gI ++ I) (gO ++ O) w c u =
         query_loop fuel I O (btm_upsert lex_cmp reg (λ winner, cmp_max candidate_cmp winner (key, st)) (key, st) w) (c + 1) u)).
Proof.
  intros [HgI HgO NI NO Hsome] Hn HI HO. cbn [query_loop]. rewrite Hn. case_decide as Hnil.
  { left. eexists. split; [done|]. constructor; [|done]. rewrite elem_of_union, !elem_of_states.
    destruct Hsome as [Hs|Hs]; [left; destruct gI as [|[a v] g]|right; destruct gO as [|[a v] g]]; try done;
      exists v; [apply Forall_cons in HgI as [E _]|apply Forall_cons in HgO as [E _]]; simpl in E; subst a; by left. }
  pose proof (drain_group register_rule st I HI gI None false HgI NI ltac:(done)) as Dr.
  destruct (drain register_rule _ _ _ _) as [err|[[I' reg] ci]].
  { left. eexists. split; [done|]. destruct Dr as ([a v] & Hin & Hr). unfold register_rule in Hr. case_decide; [|done].
    simplify_eq/=. rewrite Forall_forall in HgI. constructor; [done|]. by rewrite <- (HgI _ Hin) at 1. }
  destruct Dr as (-> & Hrule & -> & ->).
  assert ((st, nil_id) ∉ gI) as Hreg.
  { intros Hin. rewrite Forall_forall in Hrule. specialize (Hrule _ Hin). unfold register_rule in Hrule. by rewrite decide_True in Hrule. }
  pose proof (drain_group (λ _, None) st O HO gO None false HgO NO ltac:(done)) as Dr.
  destruct (drain (λ _, None) _ _ _ _) as [err|[[O' key] co]]; [by destruct Dr as (? & _ & ?)|].
  destruct Dr as (-> & _ & -> & ->). simpl (length (seen None) + _).
  destruct (decide (gI = [])) as [->|HneI].
  { right. split; [apply no_offence; auto|]. left. split; [|done]. left. split; [done|]. by destruct Hsome. }
  destruct (decide (gO = [])) as [->|HneO].
  { right. split; [apply no_offence; auto|]. left. split; [by right|]. simpl. by destruct (last gI). }
  apply last_is_Some in HneI as HlI, HneO as HlO. destruct HlI as [[a reg] HlI], HlO as [[b key] HlO]. rewrite HlI, HlO. cbn [snd].
  assert ((st, reg) ∈ gI ∧ (st, key) ∈ gO) as [HrI HkO].
  { apply last_Some_elem_of in HlI, HlO. rewrite Forall_forall in HgI, HgO. pose proof (HgI _ HlI). pose proof (HgO _ HlO).
    simpl in *. by subst a b. }
  cbn [orb]. destruct (Nat.leb_spec 2 (length gI)) as [H2|H2].
  { left. eexists. split; [done|]. destruct (two_values gI st HgI NI H2) as (v & v' & Hv & Hv' & Hne).
    by apply (offends_identity gI gO st v v' key). }
  assert (gI = [(st, reg)]) as ->.
  { destruct gI as [|x [|y g]]; [done| |simpl in H2; lia]. by apply list_elem_of_singleton in HrI as <-. }
  destruct (Nat.leb_spec 2 (length gO)) as [H3|H3].
  { left. eexists. split; [done|]. destruct (two_values gO st HgO NO H3) as (v & v' & Hv & Hv' & Hne).
    apply (offends_order [(st, reg)] gO st reg v v'); try done. intros reg' E%list_elem_of_singleton. by simplify_eq. }
  assert (gO = [(st, key)]) as ->.
  { destruct gO as [|x [|y g]]; [done| |simpl in H3; lia]. by apply list_elem_of_singleton in HkO as <-. }
  right. split; [apply no_offence; [done..|]; right; right; by exists reg, key|]. right. by exists reg, key.
Qed.

(** The states decided so far lie before those ahead, and none of them
    offended. *)
Record decided (PI PO I O : list Row) : Prop := {
  dc_identities : ascending row_cmp I;
  dc_orders : ascending row_cmp O;
  dc_before st r : st ∈ states PI ∪ states PO → r ∈ I ++ O → lex_lt st r.1 = true;
  dc_harmless st err : st ∈ states PI ∪ states PO → ¬ offends (PI ++ I) (PO ++ O) st err;
}.

(** [err] is the offence of the least state that offends. *)
Definition least_offence (I O : list Row) (err : LwwRegisterError) : Prop :=
  ∃ st, offends I O st err ∧ ∀ st' err', lex_lt st' st = true → ¬ offends I O st' err'.

Lemma app_state_rows (P g rest : list Row) st : (∀ v, (st, v) ∉ P) → Forall (λ r : Row, lex_lt st r.1 = true) rest →
  ∀ v, (st, v) ∈ P ++ g ++ rest ↔ (st, v) ∈ g.
Proof.
  intros HP Hrest v. rewrite !elem_of_app. rewrite Forall_forall in Hrest. split; [|tauto]. intros [H|[H|H]]; [by apply HP in H|done|].
  specialize (Hrest _ H). simpl in Hrest. by rewrite lex_lt_irrefl in Hrest.
Qed.

(** The group of the next state. *)
Lemma decided_split PI PO I O st : decided PI PO I O → next_state I O = Some st →
  ∃ gI gO I' O', I = gI ++ I' ∧ O = gO ++ O' ∧ state_rows st gI gO ∧
    Forall (λ r : Row, lex_lt st r.1 = true) I' ∧ Forall (λ r : Row, lex_lt st r.1 = true) O' ∧
    (∀ v, (st, v) ∈ PI ++ I ↔ (st, v) ∈ gI) ∧ (∀ v, (st, v) ∈ PO ++ O ↔ (st, v) ∈ gO) ∧ st ∉ states PI ∪ states PO.
Proof.
  intros [HI HO Hb _] Hn. pose proof (next_state_spec I O HI HO) as Hs. rewrite Hn in Hs. destruct Hs as (Hin & LI & LO).
  destruct (split_state I st HI LI) as (gI & I' & -> & HgI & HI'), (split_state O st HO LO) as (gO & O' & -> & HgO & HO').
  assert (st ∉ states PI ∪ states PO) as Hst.
  { intros Hst. apply elem_of_union in Hin. rewrite !elem_of_states in Hin.
    assert (∃ v, (st, v) ∈ (gI ++ I') ++ gO ++ O') as [v Hv] by (setoid_rewrite elem_of_app; destruct Hin as [[v ?]|[v ?]]; exists v; tauto).
    specialize (Hb st _ Hst Hv). simpl in Hb. by rewrite lex_lt_irrefl in Hb. }
  pose proof Hst as [SI SO]%not_elem_of_union. rewrite elem_of_states in SI, SO.
  assert (∀ v, (st, v) ∈ PI ++ gI ++ I' ↔ (st, v) ∈ gI) as EI by (apply app_state_rows; [naive_solver|done]).
  assert (∀ v, (st, v) ∈ PO ++ gO ++ O' ↔ (st, v) ∈ gO) as EO by (apply app_state_rows; [naive_solver|done]).
  exists gI, gO, I', O'. split_and!; try done. split; [done|done|..].
  - apply (group_distinct gI st); [|done]. apply (ascending_NoDup row_cmp) in HI. by apply NoDup_app in HI as (? & _).
  - apply (group_distinct gO st); [|done]. apply (ascending_NoDup row_cmp) in HO. by apply NoDup_app in HO as (? & _).
  - destruct gI as [|x gI]; [right|by left]. intros ->. apply elem_of_union in Hin. rewrite !elem_of_states in Hin.
    rewrite Forall_forall in HI', HO'. destruct Hin as [[v Hv]|[v Hv]]; [apply HI' in Hv|apply HO' in Hv]; simpl in Hv; by rewrite lex_lt_irrefl in Hv.
Qed.

Lemma decided_step PI PO gI gO I O st : decided PI PO (gI ++ I) (gO ++ O) → state_rows st gI gO →
  Forall (λ r : Row, lex_lt st r.1 = true) I → Forall (λ r : Row, lex_lt st r.1 = true) O →
  (∀ err, ¬ offends (PI ++ gI ++ I) (PO ++ gO ++ O) st err) → decided (PI ++ gI) (PO ++ gO) I O.
Proof.
  intros [HI HO Hb Hh] [HgI HgO _ _ _] LI LO Hst. rewrite Forall_forall in HgI, HgO, LI, LO.
  assert (∀ st', st' ∈ states (PI ++ gI) ∪ states (PO ++ gO) → st' = st ∨ st' ∈ states PI ∪ states PO) as Hcase.
  { intros st'. rewrite !states_app, !elem_of_union, !elem_of_states. intros [[?|[v H]]|[?|[v H]]]; auto; left; [by apply (HgI (st', v))|by apply (HgO (st', v))]. }
  split.
  - by apply StronglySorted_app in HI as (_ & _ & ?).
  - by apply StronglySorted_app in HO as (_ & _ & ?).
  - intros st' r [-> |H]%Hcase Hr; [apply elem_of_app in Hr as [?|?]; auto|]. apply Hb; [done|]. set_solver.
  - intros st' err [-> |H]%Hcase; rewrite <- !app_assoc; [done|by apply Hh].
Qed.

Lemma loop_spec fuel PI PO I O w c u : length I + length O < fuel → decided PI PO I O → prepared PI PO w c u →
  ∃ r, query_loop fuel I O w c u = Some r ∧ match r with
  | inl err => least_offence (PI ++ I) (PO ++ O) err
  | inr (w', c', u') => prepared (PI ++ I) (PO ++ O) w' c' u' ∧ ∀ st err, ¬ offends (PI ++ I) (PO ++ O) st err
  end.
Proof.
  revert PI PO I O w c u. induction fuel as [|fuel IH]; intros PI PO I O w c u Hf Hd Hp; [lia|].
  destruct (next_state I O) as [st|] eqn:Hn.
  2:{ pose proof (next_state_spec I O (dc_identities _ _ _ _ Hd) (dc_orders _ _ _ _ Hd)) as Hs. rewrite Hn in Hs. destruct Hs as [-> ->].
      exists (inr (w, c, u)). split; [done|]. rewrite !app_nil_r. split; [done|]. intros st err Hoff.
      apply (dc_harmless _ _ _ _ Hd st err); [by eapply offends_occurs|by rewrite !app_nil_r]. }
  destruct (decided_split PI PO I O st Hd Hn) as (gI & gO & I' & O' & -> & -> & Hsr & LI & LO & EI & EO & Hst).
  destruct (loop_step fuel st gI gO I' O' w c u Hsr Hn LI LO) as [(err & -> & Hoff)|[Hno Hstep]].
  - exists (inl err). split; [done|]. exists st. split; [eapply offends_rows; [..|done]; intros v; [by rewrite EI|by rewrite EO]|].
    intros st' err' Hlt Hoff'. pose proof (offends_occurs _ _ _ _ Hoff') as Hocc.
    rewrite !states_app, !elem_of_union, !elem_of_states in Hocc. destruct Hsr as [HgI HgO _ _ _]. rewrite Forall_forall in HgI, HgO, LI, LO.
    assert (∀ v, (st', v) ∈ gI ∨ (st', v) ∈ I' ∨ (st', v) ∈ gO ∨ (st', v) ∈ O' → False) as Hlate.
    { intros v [H|[H|[H|H]]]; [apply HgI in H|apply LI in H|apply HgO in H|apply LO in H]; simpl in H; try subst st';
        try (by rewrite lex_lt_irrefl in Hlt). all: pose proof (lex_lt_trans _ _ _ H Hlt) as HH; by rewrite lex_lt_irrefl in HH. }
    destruct (decide (st' ∈ states PI ∪ states PO)) as [Hin|Hin]; [by apply (dc_harmless _ _ _ _ Hd st' err')|].
    rewrite not_elem_of_union, !elem_of_states in Hin. naive_solver.
  - assert (decided (PI ++ gI) (PO ++ gO) I' O') as Hd'.
    { apply (decided_step PI PO gI gO I' O' st); try done. intros err Hoff. apply (Hno err). eapply offends_rows; [..|done]; done. }
    assert (length I' + length O' < fuel) as Hf'.
    { rewrite !length_app in Hf. destruct Hsr as [_ _ _ _ Hs]. destruct Hs as [Hs|Hs]; [destruct gI|destruct gO]; simpl in *; try done; lia. }
    rewrite !app_assoc. destruct Hstep as [[Hone ->]|(reg & key & -> & -> & ->)]; apply IH; try done.
    + destruct Hsr. by apply (prepared_unresolved PI PO gI gO st).
    + by apply prepared_complete.
Qed.

(** ** Attached indexes *)

(** The members are framed and in order, as those of canonical elements are. *)
Definition member_rows_ok (m : ProjectionRows) : Prop :=
  ascending row_cmp (pr_identities m) ∧ ascending row_cmp (pr_orders m) ∧
  Forall (row_ok 16) (pr_identities m) ∧ Forall (row_ok 32) (pr_orders m).
Definition index_ok (ix : LwwIndex) : Prop := Forall member_rows_ok (members ix).

(** The rows of all members. *)
Definition all_identities (ix : LwwIndex) : list Row := concat (pr_identities <$> members ix).
Definition all_orders (ix : LwwIndex) : list Row := concat (pr_orders <$> members ix).

Lemma elem_of_all (half : ProjectionRows → list Row) ms r : r ∈ concat (half <$> ms) ↔ ∃ m, m ∈ ms ∧ r ∈ half m.
Proof.
  rewrite list_elem_of_In, in_concat. setoid_rewrite <- list_elem_of_In. setoid_rewrite list_elem_of_fmap. split.
  - intros (l & (m & -> & Hm) & Hr). by exists m.
  - intros (m & Hm & Hr). exists (half m). split; [by exists m|done].
Qed.

Lemma prepared_rows I O I' O' w c u : (∀ r, r ∈ I ↔ r ∈ I') → (∀ r, r ∈ O ↔ r ∈ O') → prepared I O w c u → prepared I' O' w c u.
Proof.
  intros HI HO [H1 H2 H3 H4]. assert (states I' = states I) as EI.
  { apply set_eq. intros st. rewrite !elem_of_states. by setoid_rewrite HI. }
  assert (states O' = states O) as EO.
  { apply set_eq. intros st. rewrite !elem_of_states. by setoid_rewrite HO. }
  split; [done| |by rewrite EI, EO..]. intros reg key st. rewrite H2. unfold wins, coordinate_in.
  setoid_rewrite HI. by setoid_rewrite HO.
Qed.

Section index.
Context `{IT : Itertools, !ItertoolsOk IT}.
Implicit Types (ix : LwwIndex) (q : LwwQuery).

Lemma identity_rows_spec ix : index_ok ix → ascending row_cmp (identity_rows ix) ∧ ∀ r, r ∈ identity_rows ix ↔ r ∈ all_identities ix.
Proof.
  intros Hix. apply merged_rows. apply Forall_fmap. eapply Forall_impl; [done|]. by intros m (? & _).
Qed.
Lemma order_rows_spec ix : index_ok ix → ascending row_cmp (order_rows ix) ∧ ∀ r, r ∈ order_rows ix ↔ r ∈ all_orders ix.
Proof.
  intros Hix. apply merged_rows. apply Forall_fmap. eapply Forall_impl; [done|]. by intros m (_ & ? & _).
Qed.

Lemma query_spec ix : index_ok ix → ∃ r, query ix = Some r ∧ match r with
  | inl err => least_offence (all_identities ix) (all_orders ix) err
  | inr q => q_index q = ix ∧ prepared (all_identities ix) (all_orders ix) (q_winners q) (q_complete q) (q_unresolved q) ∧
      ∀ st err, ¬ offends (all_identities ix) (all_orders ix) st err
  end.
Proof.
  intros Hix. destruct (identity_rows_spec ix Hix) as [HI EI], (order_rows_spec ix Hix) as [HO EO].
  destruct (loop_spec (S (length (identity_rows ix) + length (order_rows ix))) [] [] (identity_rows ix) (order_rows ix) [] 0 0)
    as (r & Hr & Hs); [lia| |apply prepared_nil|].
  { split; [done..|set_solver|set_solver]. }
  unfold query. rewrite Hr. cbn [mbind option_bind]. eexists. split; [done|].
  assert (∀ st err, offends (identity_rows ix) (order_rows ix) st err ↔ offends (all_identities ix) (all_orders ix) st err) as Hoff.
  { intros st err. split; apply offends_rows; intros v; by rewrite EI || rewrite EO. }
  destruct r as [err|[[w c] u]]; simpl in *.
  - destruct Hs as (st & Hst & Hmin). exists st. setoid_rewrite <- Hoff. done.
  - destruct Hs as [Hp Hno]. setoid_rewrite <- Hoff. split_and!; [done| |done]. by eapply prepared_rows.
Qed.

(** The same rows in other members. *)
Lemma query_division ix ix' : index_ok ix → index_ok ix' →
  (∀ r, r ∈ all_identities ix ↔ r ∈ all_identities ix') → (∀ r, r ∈ all_orders ix ↔ r ∈ all_orders ix') →
  identity_rows ix = identity_rows ix' ∧ order_rows ix = order_rows ix'.
Proof.
  intros Hix Hix' HI HO. destruct (identity_rows_spec ix Hix) as [SI EI], (order_rows_spec ix Hix) as [SO EO].
  destruct (identity_rows_spec ix' Hix') as [SI' EI'], (order_rows_spec ix' Hix') as [SO' EO'].
  split; apply (ascending_unique row_cmp); try done; intros r; [by rewrite EI, EI', HI|by rewrite EO, EO', HO].
Qed.

Lemma coordinate_spec ix st : index_ok ix → ∃ o, coordinate ix st = Some o ∧ match o with
  | Some (reg, key) => coordinate_in (all_identities ix) (all_orders ix) st reg key
  | None => ∀ reg key, ¬ coordinate_in (all_identities ix) (all_orders ix) st reg key
  end.
Proof.
  intros Hix. unfold index_ok in Hix. rewrite Forall_forall in Hix. unfold coordinate, coordinate_in, all_identities, all_orders.
  assert (∀ half, (∀ m, m ∈ members ix → ascending row_cmp (half m)) → ∃ o,
    find_map (λ member, half_at st (half member)) (members ix) = Some o ∧
    match o with Some x => (st, x) ∈ concat (half <$> members ix) | None => ∀ x, (st, x) ∉ concat (half <$> members ix) end) as Hh.
  { intros half Hs. destruct (find_map_spec (λ member, half_at st (half member)) (members ix)
      (λ m o, match o with Some x => (st, x) ∈ half m | None => ∀ x, (st, x) ∉ half m end)) as (o & -> & Ho).
    { intros m Hm. by apply half_at_spec, Hs. }
    exists o. split; [done|]. destruct o as [x|].
    - apply elem_of_all. destruct Ho as (m & Hm & Hx). by exists m.
    - intros x (m & Hm & Hx)%elem_of_all. by eapply Ho. }
  destruct (Hh pr_identities) as (o & -> & Ho); [intros m Hm; by apply Hix|]. cbn [mbind option_bind].
  destruct o as [reg|]; [|exists None; split; [done|]; intros reg key [H _]; by eapply Ho].
  destruct (Hh pr_orders) as (o' & -> & Ho'); [intros m Hm; by apply Hix|]. cbn [mbind option_bind].
  destruct o' as [key|]; eexists; (split; [done|]); [done|]. intros reg' key [_ H]. by eapply Ho'.
Qed.

(** ** Prepared queries *)

(** [q] is what preparing an index gives. *)
Definition lww_prepared q : Prop := ∃ ix, index_ok ix ∧ query ix = Some (inr q).

Section prepared.
Context q (Hq : lww_prepared q).
Abbreviation I := (all_identities (q_index q)).
Abbreviation O := (all_orders (q_index q)).
Implicit Types (reg key st : list N).

Lemma prepared_index : index_ok (q_index q) ∧ prepared I O (q_winners q) (q_complete q) (q_unresolved q) ∧ ∀ st err, ¬ offends I O st err.
Proof.
  destruct Hq as (ix & Hix & Hquery). destruct (query_spec ix Hix) as (r & Hr & Hs). rewrite Hquery in Hr. injection Hr as <-.
  destruct Hs as (-> & Hp & Hno). done.
Qed.

(** A complete state has one coordinate, with real ids. *)
Lemma coordinate_unique st reg key reg' key' : coordinate_in I O st reg key → coordinate_in I O st reg' key' → reg = reg' ∧ key = key'.
Proof.
  destruct prepared_index as (Hix & _ & Hno). intros H1 H2.
  assert (st ≠ nil_id) as Hst.
  { intros ->. apply (Hno nil_id NilState). constructor; [|done]. rewrite elem_of_union, !elem_of_states. left. exists reg. apply H1. }
  assert ((st, nil_id) ∉ I) as Hnil by (intros Hin; by apply (Hno st NilRegister); constructor).
  assert (∀ reg', (st, reg') ∈ I → reg' = reg) as Hu.
  { intros reg2 Hr. destruct (decide (reg2 = reg)) as [|Hne]; [done|]. destruct (Hno st (ConflictingIdentity st)).
    apply (offends_identity I O st reg2 reg key); try done. split; [done|apply H1]. }
  assert (reg' = reg) as -> by apply Hu, H2. split; [done|]. destruct (decide (key = key')) as [|Hne]; [done|].
  destruct (Hno st (ConflictingOrder st)). by apply (offends_order I O st reg key key').
Qed.

Lemma coordinate_ids st reg key : coordinate_in I O st reg key →
  ∃ state register, id_ok state ∧ id_ok register ∧ raw state = st ∧ raw register = reg ∧ Id_new st = Some state ∧ bytes_ok 32 key.
Proof.
  destruct prepared_index as (Hix & _ & Hno). unfold index_ok in Hix. intros Hc. pose proof Hc as [HI HO].
  assert (bytes_ok ID_LEN st ∧ bytes_ok ID_LEN reg) as [Bs Br].
  { apply elem_of_all in HI as (m & Hm & Hr). rewrite Forall_forall in Hix. destruct (Hix m Hm) as (_ & _ & H & _).
    rewrite Forall_forall in H. by destruct (H _ Hr). }
  assert (bytes_ok 32 key) as Bk.
  { apply elem_of_all in HO as (m & Hm & Hr). rewrite Forall_forall in Hix. destruct (Hix m Hm) as (_ & _ & _ & H).
    rewrite Forall_forall in H. by destruct (H _ Hr). }
  pose proof (id_new_spec st Bs) as Es. pose proof (id_new_spec reg Br) as Er.
  destruct (Id_new st) as [state|].
  2:{ destruct (Hno st NilState). constructor; [|done]. rewrite elem_of_union, !elem_of_states. left. by exists reg. }
  destruct (Id_new reg) as [register|].
  2:{ destruct (Hno st NilRegister). constructor; [|by rewrite Er in HI].
      intros ->. destruct Es as [Hok Hr]. by apply (raw_not_nil state Hok). }
  destruct Es as [H1 H2], Er as [H3 H4]. by exists state, register.
Qed.

Lemma winner_wins reg key st : btm_get lex_cmp reg (q_winners q) = Some (key, st) ↔ wins I O reg key st.
Proof. apply prepared_index. Qed.

(** The winner of the register of a complete state. *)
Lemma winner_of st reg key : coordinate_in I O st reg key → ∃ key' st', btm_get lex_cmp reg (q_winners q) = Some (key', st').
Proof. intros Hc. eapply winner_exists; [apply prepared_index|done]. Qed.

Lemma wins_unique reg key st key' st' : wins I O reg key st → wins I O reg key' st' → key = key' ∧ st = st'.
Proof.
  intros [H1 M1] [H2 M2]. assert ((key, st) = (key', st')) as E; [|by simplify_eq].
  by apply (cmp_le_antisym candidate_cmp); [apply M2|apply M1].
Qed.

(** [contains] and [dominated] read the winner of the state's register. *)
Lemma read_winner st (yes : list N → bool) : ∃ o, coordinate (q_index q) st = Some o ∧
  match o with
  | None => ∀ reg key, ¬ coordinate_in I O st reg key
  | Some (reg, key) => coordinate_in I O st reg key ∧ ∃ key' st', wins I O reg key' st' ∧
      match btm_get lex_cmp reg (q_winners q) with Some (_, winner) => yes winner | None => false end = yes st'
  end.
Proof.
  destruct (coordinate_spec (q_index q) st (proj1 prepared_index)) as (o & Ho & Hs). exists o. split; [done|].
  destruct o as [[reg key]|]; [|done]. split; [done|]. destruct (winner_of st reg key Hs) as (key' & st' & E).
  exists key', st'. rewrite E. split; [by apply winner_wins|done].
Qed.

Lemma lww_contains_spec state : ∃ b, lww_contains q state = Some b ∧ (b = true ↔ ∃ reg key, wins I O reg key (raw state)).
Proof.
  unfold lww_contains. destruct (read_winner (raw state) (λ winner, bool_decide (winner = raw state))) as (o & -> & Hs).
  cbn [mbind option_bind]. destruct o as [[reg key]|].
  - destruct Hs as (Hc & key' & st' & Hw & ->). eexists. split; [done|]. rewrite bool_decide_eq_true. split.
    + intros ->. by exists reg, key'.
    + intros (reg2 & key2 & Hw2). destruct (coordinate_unique _ _ _ _ _ Hc (proj1 Hw2)) as [<- _]. by destruct (wins_unique _ _ _ _ _ Hw Hw2).
  - exists false. split; [done|]. split; [done|]. intros (reg & key & Hw & _). by apply Hs in Hw.
Qed.

(** A state is dominated when a greater state claims its register. *)
Lemma dominated_spec state : ∃ b, dominated q state = Some b ∧
  (b = true ↔ ∃ reg key st' key', coordinate_in I O (raw state) reg key ∧ coordinate_in I O st' reg key' ∧
    candidate_cmp (key, raw state) (key', st') = Lt).
Proof.
  unfold dominated, lww_order. destruct (read_winner (raw state) (λ winner, negb (bool_decide (winner = raw state)))) as (o & -> & Hs).
  cbn [mbind option_bind]. destruct o as [[reg key]|].
  - destruct Hs as (Hc & key' & st' & Hw & ->). eexists. split; [done|]. rewrite negb_true_iff, bool_decide_eq_false. split.
    + intros Hne. exists reg, key, st', key'. split_and!; [done|apply Hw|]. destruct (candidate_cmp (key, raw state) (key', st')) eqn:E; [|done|].
      * apply (cmp_eq candidate_cmp) in E. by simplify_eq.
      * by apply (proj2 Hw) in E.
    + intros (reg2 & key2 & st2 & key3 & Hc2 & Hc3 & Hlt) ->. destruct (coordinate_unique _ _ _ _ _ Hc Hc2) as [<- <-].
      destruct (coordinate_unique _ _ _ _ _ Hc (proj1 Hw)) as [_ <-]. apply (proj2 Hw _ _ Hc3). by apply cmp_gt; [apply _|].
  - exists false. split; [done|]. split; [done|]. intros (reg & key & _ & _ & Hc & _). by apply Hs in Hc.
Qed.

Lemma winner_spec register : id_ok register → ∃ o, winner q register = Some o ∧
  ∀ id, o = Some id ↔ id_ok id ∧ ∃ key, wins I O (raw register) key (raw id).
Proof.
  intros Hr. unfold winner. destruct (btm_get lex_cmp (raw register) (q_winners q)) as [[key st]|] eqn:E.
  - apply winner_wins in E as Hw. destruct (coordinate_ids _ _ _ (proj1 Hw)) as (state & _ & Hst & _ & <- & _ & -> & _).
    cbn [mbind option_bind]. exists (Some state). split; [done|]. intros id. split.
    + intros [= <-]. split; [done|]. by exists key.
    + intros (Hid & key' & Hw'). destruct (wins_unique _ _ _ _ _ Hw Hw') as [_ Er]. f_equal. by apply raw_inj.
  - exists None. split; [done|]. intros id. split; [done|]. intros (_ & key & Hw%winner_wins). congruence.
Qed.
End prepared.
End index.
