(* ===== verification/LwwConstraintSpec.v ===== *)
(** * LwwConstraintSpec: the properties of last-write-wins queries

    What preparing a query decides, what the prepared query answers, and that
    membership of a variable in its winners obeys the constraint protocol. *)

From S2P Require Import Prelude Lex BTree VariableSet Liveness Query Trible SimpleArchive InlineEncodings Membership MembershipSpec.
From S2P Require Import Register LwwRegister LwwRegisterSpec LwwIndex LwwIndexSpec.

Open Scope nat_scope.

(** A constraint with a [satisfied] of its own that decides. *)
Lemma override_satisfied c sat rel (s : Binding → res bool) :
  ConstraintOk c sat rel → (∀ b, binding_ok b → ∃ r, s b = Some r ∧ (r = true ↔ sat (bval b))) →
  ConstraintOk (mkConstraint (Query.variables c) (Query.estimate c) (Query.propose c) (Query.confirm c) s (Query.influence c)) sat rel ∧
  ConstraintDecides (mkConstraint (Query.variables c) (Query.estimate c) (Query.propose c) (Query.confirm c) s (Query.influence c)) sat.
Proof.
  intros [H1 H2 H3 _ H5 H6 H7 H8] Hs. split; [|by apply satisfied_decides]. split; try done.
  intros b Hb. apply satisfied_weak. by apply Hs.
Qed.

Section constraint.
Context `{IT : Itertools, !ItertoolsOk IT}.
Context (q : LwwQuery) (Hq : lww_prepared q) (w : VariableId) (Hw : (w < 128)%N).
Abbreviation I := (all_identities (q_index q)).
Abbreviation O := (all_orders (q_index q)).

(** [x] is the value of a winner. *)
Definition winning (x : RawInline) : Prop := ∃ reg key st, wins I O reg key st ∧ x = GenId.raw_encode st.

Lemma elem_of_winner_values x : x ∈ winner_values q ↔ winning x.
Proof.
  unfold winner_values, winning. rewrite list_elem_of_fmap. destruct (prepared_index q Hq) as (_ & Hp & _). split.
  - intros ([reg [key st]] & -> & Hin). exists reg, key, st. split; [|done]. apply (winner_wins q Hq).
    apply (btm_get_elem lex_cmp); [apply Hp|done].
  - intros (reg & key & st & Hw' & ->). apply (winner_wins q Hq) in Hw'. apply (btm_get_elem lex_cmp) in Hw'; [|apply Hp].
    by exists (reg, (key, st)).
Qed.

Lemma winning_id x : winning x → ∃ id, id_ok id ∧ GenId.encode id = x ∧ ∃ reg key, wins I O reg key (raw id).
Proof.
  intros (reg & key & st & Hwin & ->). destruct (coordinate_ids q Hq _ _ _ (proj1 Hwin)) as (id & _ & Hid & _ & <- & _).
  exists id. split_and!; [done|done|]. by exists reg, key.
Qed.

Lemma encode_value id : value_ok (GenId.encode id).
Proof. apply (bytes_ok_app 16 16); [split; [done|by apply Forall_replicate]|apply raw_ok]. Qed.

Lemma keeps_spec x : value_ok x → ∃ b, lww_keeps q x = Some b ∧ (b = true ↔ winning x).
Proof.
  intros Hx. unfold lww_keeps. destruct (GenId.try_from_inline x) as [err|id] eqn:E.
  - exists false. split; [done|]. split; [done|]. intros (id & Hid & He & _)%winning_id.
    assert (GenId.try_from_inline x = inr id) as Hr by (by apply GenId.round_trip). congruence.
  - apply GenId.round_trip in E as [Hid <-]; [|done]. destruct (lww_contains_spec q Hq id) as (b & -> & Hb). exists b. split; [done|].
    rewrite Hb. split.
    + intros (reg & key & Hwin). by exists reg, key, (raw id).
    + intros (reg & key & st & Hwin & E). exists reg, key. apply app_inv_head in E. by rewrite E.
Qed.

(** Different registers are won by different states. *)
Lemma winner_values_distinct : NoDup (winner_values q).
Proof.
  destruct (prepared_index q Hq) as (_ & Hp & _). unfold winner_values.
  assert (∀ e e', e ∈ q_winners q → e' ∈ q_winners q → GenId.raw_encode e.2.2 = GenId.raw_encode e'.2.2 → e = e') as Hinj.
  { intros [reg [key st]] [reg' [key' st']] H1 H2 E%app_inv_head. simpl in E. subst st'.
    apply (btm_get_elem lex_cmp), (winner_wins q Hq) in H1 as W1; [|apply Hp].
    apply (btm_get_elem lex_cmp), (winner_wins q Hq) in H2 as W2; [|apply Hp].
    destruct (coordinate_unique q Hq _ _ _ _ _ (proj1 W1) (proj1 W2)) as [-> ->]. done. }
  assert (NoDup (q_winners q)) as Hnd.
  { pose proof (pp_keys _ _ _ _ _ Hp) as Hk. apply (ascending_NoDup lex_cmp) in Hk. by apply NoDup_fmap_1 in Hk. }
  clear -Hinj Hnd. induction Hnd as [|e l He Hnd IH]; [constructor|]. rewrite fmap_cons. constructor.
  - intros (e' & E & He')%list_elem_of_fmap. by rewrite (Hinj e e') in He; [|by left|by right|].
  - apply IH. intros e1 e2 H1 H2. apply Hinj; by right.
Qed.

Definition base : Constraint :=
  mkConstraint (lww_variables (mkLwwConstraint w q)) (lww_estimate (mkLwwConstraint w q)) (lww_propose (mkLwwConstraint w q))
    (lww_confirm (mkLwwConstraint w q)) default_satisfied (default_influence (lww_variables (mkLwwConstraint w q))).

Lemma base_like : member_like base w (winner_values q).
Proof.
  split; try done.
  - intros v b. eexists. done.
  - intros f b. simpl. unfold lww_propose. by rewrite N.eqb_refl.
  - apply Forall_forall. intros x (id & _ & <- & _)%elem_of_winner_values%winning_id. apply encode_value.
  - apply winner_values_distinct.
  - intros f cands Hc. simpl. unfold lww_confirm. simpl. rewrite N.eqb_refl.
    set (k := λ x, default false (lww_keeps q x)). destruct (confirm_live_spec f cands (lww_keeps q) k) as (c' & -> & Hk); [done| |].
    { intros v Hv. unfold k. destruct (keeps_spec v Hv) as (b & -> & _). done. }
    exists c', k. split_and!; [done..|]. intros x Hx. unfold k. destruct (keeps_spec x Hx) as (b & -> & Hb). by rewrite elem_of_winner_values.
  - intros v f cands Hv. simpl. unfold lww_confirm. simpl. by rewrite (proj2 (N.eqb_neq w v)).
Qed.

Lemma constraint_spec :
  ConstraintOk (lww_constraint (mkLwwConstraint w q)) (member_sat w winning) (only w) ∧
  ConstraintDecides (lww_constraint (mkLwwConstraint w q)) (member_sat w winning).
Proof.
  apply (override_satisfied base).
  - by apply (member_ok _ _ _ _ base_like), elem_of_winner_values.
  - intros b Hb. unfold lww_satisfied. simpl. rewrite bval_get by done. cbn [mbind option_bind]. unfold member_sat.
    destruct (bval b w) as [x|] eqn:E; [|exists true; by split].
    destruct (keeps_spec x) as (r & -> & Hr); [by eapply (bval_ok b Hb)|]. exists r. split; [done|]. rewrite Hr. naive_solver.
Qed.
End constraint.

(** ** The properties *)

Section properties.
Context `{IT : Itertools, !ItertoolsOk IT}.

(** C22. Preparing a query over attached members never panics nor runs out of
    rows.  It fails with the offence of the least state that has one: a nil
    state, a nil register, or, for a state with both halves, two registers or
    two keys.  Otherwise each register is won by the greatest [(key, state)] of
    the states that have both halves and name it, the counters are the numbers of
    complete and of half-stated states, and the outcome is the same for any other
    members that hold the same rows. *)
Theorem lww_query_refines ix : index_ok ix → ∃ r, query ix = Some r ∧
  match r with
  | inl err => least_offence (all_identities ix) (all_orders ix) err
  | inr q => q_index q = ix ∧ (∀ st err, ¬ offends (all_identities ix) (all_orders ix) st err) ∧
      prepared (all_identities ix) (all_orders ix) (q_winners q) (q_complete q) (q_unresolved q)
  end ∧
  ∀ ix', index_ok ix' → (∀ r, r ∈ all_identities ix ↔ r ∈ all_identities ix') → (∀ r, r ∈ all_orders ix ↔ r ∈ all_orders ix') →
    index_eq ix ix' = true ∧
    query ix' = Some (match r with
                      | inl err => inl err
                      | inr q => inr (mkLwwQuery ix' (q_winners q) (q_complete q) (q_unresolved q))
                      end).
Proof.
  intros Hix. destruct (query_spec ix Hix) as (r & Hr & Hs). exists r. split_and!; [done|destruct r; naive_solver|].
  intros ix' Hix' HI HO. destruct (query_division ix ix' Hix Hix' HI HO) as [EI EO]. split.
  - unfold index_eq. by rewrite EI, EO, !bool_decide_eq_true_2.
  - unfold query in *. rewrite <- EI, <- EO. destruct (query_loop _ _ _ _ _ _) as [l|]; [|done]. cbn [mbind option_bind] in *.
    injection Hr as <-. by destruct l as [|[[w c] u]].
Qed.

(** C27. A prepared query answers by its winners without panicking: a register's
    winner is its greatest complete state, [contains] holds of the winners
    exactly, and a state is dominated exactly when both its halves are stated and
    a greater one claims its register, so that [resolve] keeps of any candidates
    the winners and those without a coordinate. *)
Theorem lww_reads q register candidates : lww_prepared q → id_ok register → Forall id_ok candidates →
  let I := all_identities (q_index q) in
  let O := all_orders (q_index q) in
  (∃ o, winner q register = Some o ∧ ∀ id, o = Some id ↔ id_ok id ∧ ∃ key, wins I O (raw register) key (raw id)) ∧
  (∀ state, ∃ b, lww_contains q state = Some b ∧ (b = true ↔ ∃ reg key, wins I O reg key (raw state))) ∧
  (∀ state, ∃ b, dominated q state = Some b ∧ (b = true ↔ ∃ reg key st' key', coordinate_in I O (raw state) reg key ∧
    coordinate_in I O st' reg key' ∧ candidate_cmp (key, raw state) (key', st') = Lt)) ∧
  ∃ set, resolve q candidates = Some set ∧ NoDup set ∧ ∀ id, id ∈ set ↔ id ∈ candidates ∧
    ((∃ reg key, wins I O reg key (raw id)) ∨ ∀ reg key, ¬ coordinate_in I O (raw id) reg key).
Proof.
  intros Hq Hr Hc I O. split_and!; [by apply winner_spec|by apply lww_contains_spec|by apply dominated_spec|].
  set (D := λ id, default false (dominated q id)).
  assert (∀ id, dominated q id = Some (D id)) as HD.
  { intros id. unfold D. by destruct (dominated_spec q Hq id) as (b & -> & _). }
  destruct (resolve_spec q candidates D Hc) as (set & Hset & _ & Hnd & Hin); [by intros|]. exists set. split_and!; [done..|].
  intros id. rewrite Hin. apply and_iff_compat_l. destruct (dominated_spec q Hq id) as (b & Hb & Hiff). rewrite HD in Hb. injection Hb as ->.
  destruct (coordinate_spec (q_index q) (raw id) (proj1 (prepared_index q Hq))) as (o & _ & Ho).
  destruct b; [|]; (split; [|]).
  - done.
  - intros H. exfalso. destruct (proj1 Hiff eq_refl) as (reg & key & st' & key' & H1 & H2 & Hlt). destruct H as [(reg2 & key2 & H3 & Hmax)|H].
    + destruct (coordinate_unique q Hq _ _ _ _ _ H1 H3) as [<- <-]. apply (Hmax _ _ H2). by apply cmp_gt; [apply _|].
    + by apply H in H1.
  - intros _. destruct o as [[reg key]|]; [|by right]. left. exists reg, key. split; [done|]. intros st' key' H2 Hgt.
    assert (false = true) as Hf; [|done]. apply Hiff. exists reg, key, st', key'. split_and!; [done..|]. by apply cmp_gt in Hgt; [|apply _].
  - done.
Qed.

(** Membership of a variable in the winners obeys the constraint protocol
    and decides: it proposes for every row exactly the winners, each once, and its
    estimate is their number; it confirms exactly the winners, and refutes every
    bound value that is none, an id never observed included. *)
Theorem lww_constraint_protocol q w : lww_prepared q → (w < 128)%N →
  let c := lww_constraint (mkLwwConstraint w q) in
  let I := all_identities (q_index q) in
  let O := all_orders (q_index q) in
  let sat := λ a : asg, ∀ x, a w = Some x → ∃ reg key st, wins I O reg key st ∧ x = GenId.raw_encode st in
  ConstraintOk c sat (λ _ v, (v =? w)%N) ∧ ConstraintDecides c sat ∧
  ∃ l, NoDup l ∧ (∀ x, x ∈ l ↔ ∃ reg key st, wins I O reg key st ∧ x = GenId.raw_encode st) ∧
    (∀ b, Query.estimate c w b = Some (Some (N.of_nat (length l)))) ∧
    ∀ f b, Query.propose c w f b = propose_rows l f b.
Proof.
  intros Hq Hw c I O sat. destruct (constraint_spec q Hq w Hw) as [H1 H2]. split_and!; [exact H1|exact H2|].
  exists (winner_values q). split_and!.
  - by apply winner_values_distinct.
  - by apply elem_of_winner_values.
  - intros b. simpl. unfold lww_estimate, register_count, winner_values. simpl. by rewrite N.eqb_refl, length_fmap.
  - intros f b. simpl. unfold lww_propose. by rewrite N.eqb_refl.
Qed.
End properties.
