(* ===== verification/Filters.v ===== *)
(** * Filters: conjunctions with constraints that only confirm

    [value_range] and [maximal] never propose and estimate [usize::MAX], so that
    the conjunction asks a pattern for candidates and them for a verdict.  Here
    is what makes that safe: every variable a filter judges stands at one
    position of some pattern, whose estimate is the number of its values. *)

From S2P Require Import Prelude Lex VariableSet OwnerCover ByteTable KeySchema PatchHash Branch Head Algebra.
From S2P Require Import Machine Trible TribleSet InlineEncodings Liveness Query Constraints Intersection.
From S2P Require Import TribleIndex TriblePattern TriblePatternSpec Membership MembershipSpec.
From S2P Require Import Engine EngineRows EnginePlan EngineSpec EngineSteps EngineSearch QueryJoin Register.

Open Scope nat_scope.

(** ** Single filters *)

Abbreviation inside_sat w inside := (member_sat w (λ x, inside x = true)).

Lemma range_like_filter c w n l inside : (w < 128)%N → range_like c w n l inside →
  FilterOk c (inside_sat w inside) (only w) ∧ ConstraintDecides c (inside_sat w inside).
Proof.
  intros Hw [Hvars Hest _ Hconf Hother Hsat]. unfold member_sat, only.
  assert (∀ b, binding_ok b → ∃ r, Query.satisfied c b = Some r ∧ (r = true ↔ ∀ x, bval b w = Some x → inside x = true)) as Hs.
  { intros b Hb. rewrite Hsat by done. eexists. split; [done|]. destruct (bval b w) as [x|]; naive_solver. }
  split; [|by apply satisfied_decides]. split.
  - rewrite Hvars. by apply wf_set.
  - intros s v Hv Hr. by rewrite Hvars, const_set.
  - intros a a' Hsub _ Ha x Hx. by apply Ha, Hsub.
  - intros b Hb. destruct (Hs b Hb) as (r & Hr & Hiff). exists r. split_and!; [done|apply Hiff|intros _; apply Hiff].
  - intros v b Hv Hb Hu. rewrite Hest. eexists. split; [done|]. destruct (v =? w)%N; split; try done; by intros [? ?].
  - intros b v x Hv Hb Hu Hx Hr Ha y Hy. bool_hyps. rewrite extend_ne in Hy by done. by apply Ha.
  - intros v f cands Hv Hf Hu Hc. destruct (decide (v = w)) as [->|Hne].
    + destruct (Hconf f cands Hc) as (c' & -> & Hk). eexists c', _. split_and!; [done|exact Hk|].
      intros i Hi _. split.
      * intros Hki _ y. rewrite extend_eq. by intros [= <-].
      * intros (a' & _ & Hsub & _ & Ha'). apply Ha', Hsub, extend_eq.
    + rewrite (proj2 (Hother v f pb_new cands Hne)). exists cands, (λ _, true). split_and!; [done|apply killed_refl; [apply Hc|done]|].
      intros i Hi _. split; [|done]. intros _ Ha x. rewrite extend_ne by done. apply Ha.
Qed.

(** A filter on [ft_variable]. *)
Record Filter := mkFilter { ft_constraint : Constraint; ft_variable : VariableId; ft_inside : RawInline → bool }.

Definition filter_ok (ft : Filter) : Prop := (ft_variable ft < 128)%N ∧
  range_like (ft_constraint ft) (ft_variable ft) (2 ^ 64 - 1) [] (ft_inside ft).

(** [value_range] *)
Definition value_range (variable : VariableId) (lo hi : RawInline) : Filter :=
  let c := InlineRange.mkInlineRange variable lo hi in
  mkFilter (InlineRange.constraint c) variable (KeySchema.in_range lo hi).

Lemma value_range_ok w lo hi : (w < 128)%N → filter_ok (value_range w lo hi).
Proof. intros Hw. split; [done|]. by apply (inline_range_like (InlineRange.mkInlineRange w lo hi)). Qed.

(** The ids an order leaves standing, as values. *)
Definition survivor (D : Id → bool) (x : RawInline) : bool :=
  match GenId.try_from_inline x with inr state => negb (D state) | inl _ => false end.

(** [maximal] *)
Definition maximal {O} `{RegisterOrder O} (variable : VariableId) (order : O) (D : Id → bool) : Filter :=
  mkFilter (Maximal.constraint (Maximal.mkMaximal variable order)) variable (survivor D).

Lemma maximal_ok {O} `{RegisterOrder O} w (order : O) D : (w < 128)%N → (∀ id, id_ok id → dominated order id = Some (D id)) →
  filter_ok (maximal w order D).
Proof.
  intros Hw HD. split; [done|]. assert (∀ x, value_ok x → Maximal.survives (Maximal.mkMaximal w order) x = Some (survivor D x)) as Hs.
  { intros x Hx. unfold Maximal.survives, survivor. destruct (GenId.try_from_inline x) as [e|id] eqn:E; [done|].
    apply GenId.round_trip in E as [Hid _]; [|done]. simpl. by rewrite HD. }
  split; simpl.
  - done.
  - intros v b. unfold Maximal.estimate. simpl. by rewrite N.eqb_sym.
  - intros f b Hf Hb. exists b, []. rewrite app_nil_r. split_and!; [done..| |done]. by intros p x l' ?%elem_of_nil.
  - intros f cands Hc. unfold Maximal.confirm. simpl. rewrite N.eqb_refl. by apply (confirm_live_spec f).
  - intros v f b cands Hne. unfold Maximal.confirm. simpl. by rewrite (proj2 (N.eqb_neq _ _)).
  - intros b Hb. unfold Maximal.satisfied. simpl. rewrite bval_get by done. cbn [mbind option_bind].
    destruct (bval b w) as [x|] eqn:E; [|done]. by apply Hs, (bval_ok b Hb w).
Qed.

(** ** Patterns and filters *)

Section filtered.
Context (sip : list N → N) (rand_hash : N → N) (sort_by_estimate : list (N * nat) → list (N * nat)).
Context (Hsort : ∀ l, sort_by_estimate l ≡ₚ l) (parallel : bool) (threads : nat) (width : N).
Context (ps : list TribleSetConstraint) (fs : list Filter).
Abbreviation K p := (rows sip (in_set p)).
Abbreviation children := ((constraint sip rand_hash parallel threads <$> ps) ++ (ft_constraint <$> fs)).

(** [and!(pattern, …, filter, …)] *)
Definition filtered_join : Constraint := Intersection.constraint sort_by_estimate children.

(** The variable of the filter stands at one position of a pattern. *)
Definition covered (ft : Filter) : Prop :=
  ∃ p, p ∈ ps ∧ touches p (ft_variable ft) = true ∧ one_position p (ft_variable ft) = true.

Record filtered_ready : Prop := {
  fr_patterns : join_ready sip rand_hash width ps;
  fr_filters : Forall filter_ok fs;
  fr_covered : Forall covered fs;
}.

Definition fsat (i : nat) (a : asg) : Prop :=
  match ps !! i with
  | Some p => pattern_sat (K p) p a
  | None => match fs !! (i - length ps) with Some ft => inside_sat (ft_variable ft) (ft_inside ft) a | None => True end
  end.
Definition frel (i : nat) (s : VariableSet) (v : VariableId) : bool :=
  match ps !! i with
  | Some p => touches p v
  | None => match fs !! (i - length ps) with Some ft => only (ft_variable ft) s v | None => false end
  end.
Definition is_filter (i : nat) : bool := length ps <=? i.

Context (Hready : filtered_ready).

Lemma filter_child_cases i c : children !! i = Some c →
  (∃ p, ps !! i = Some p ∧ c = constraint sip rand_hash parallel threads p) ∨
  (∃ ft, ps !! i = None ∧ is_filter i = true ∧ fs !! (i - length ps) = Some ft ∧ c = ft_constraint ft ∧ ft ∈ fs ∧ filter_ok ft).
Proof.
  intros [Hi|[Hl Hi]]%lookup_app_Some; rewrite list_lookup_fmap in Hi.
  - left. destruct (ps !! i) as [p|]; [|done]. exists p. by injection Hi as <-.
  - right. rewrite length_fmap in Hl, Hi. destruct (fs !! (i - length ps)) as [ft|] eqn:E; [|done]. injection Hi as <-.
    apply list_elem_of_lookup_2 in E as Hin. pose proof (fr_filters Hready) as Hf. rewrite Forall_forall in Hf.
    exists ft. split_and!; [by apply lookup_ge_None|by apply Nat.leb_le|done..|by apply Hf].
Qed.

Lemma pattern_child i p : ps !! i = Some p →
  children !! i = Some (constraint sip rand_hash parallel threads p) ∧ is_filter i = false ∧ ts_ok sip rand_hash (in_set p) ∧ pattern_ok p ∧
  (width * N.of_nat (size (K p)) < 2 ^ 32)%N ∧ (0 < width)%N.
Proof.
  intros Hi. assert ((constraint sip rand_hash parallel threads <$> ps) !! i = Some (constraint sip rand_hash parallel threads p)) as Hc
    by by rewrite list_lookup_fmap, Hi.
  split; [by apply lookup_app_l_Some|]. split; [apply Nat.leb_gt; by eapply lookup_lt_Some|].
  destruct (join_child sip rand_hash parallel threads width ps (fr_patterns Hready) i _ Hc) as (p' & Hi' & _ & H1 & H2 & H3). simplify_eq.
  split_and!; [done..|]. apply (jr_width _ _ _ _ (fr_patterns Hready)).
Qed.

Lemma filtered_children i c : children !! i = Some c → FilterOk c (fsat i) (frel i).
Proof.
  intros Hi. unfold fsat, frel. destruct (filter_child_cases i c Hi) as [(p & Hp & ->)|(ft & Hn & _ & Hft & -> & _ & Hw & Hr)].
  - rewrite Hp. destruct (pattern_child i p Hp) as (_ & _ & H1 & H2 & _). by apply constraint_filter, pattern_constraint_ok.
  - rewrite Hn, Hft. by eapply range_like_filter.
Qed.

Lemma filtered_proposers i c : children !! i = Some c → is_filter i = false → ConstraintOk c (fsat i) (frel i).
Proof.
  intros Hi Hf. unfold fsat, frel. destruct (filter_child_cases i c Hi) as [(p & Hp & ->)|(ft & _ & Hf' & _)]; [|congruence].
  rewrite Hp. destruct (pattern_child i p Hp) as (_ & _ & H1 & H2 & _). by apply pattern_constraint_ok.
Qed.

(** A pattern that covers the variable estimates less than [usize::MAX]. *)
Lemma filtered_led i c v b e : children !! i = Some c → is_filter i = true → (v < 128)%N → binding_ok b → is_set (b_bound b) v = false →
  Query.estimate c v b = Some (Some e) →
  ∃ j d e', children !! j = Some d ∧ is_filter j = false ∧ Query.estimate d v b = Some (Some e') ∧ (e' < e)%N.
Proof.
  intros Hi Hf Hv Hb Hu He. destruct (filter_child_cases i c Hi) as [(p & Hp & _)|(ft & _ & _ & _ & -> & Hin & Hw & Hr)].
  { apply pattern_child in Hp as (_ & Hnf & _). congruence. }
  rewrite (rl_estimate _ _ _ _ _ Hr) in He. destruct (N.eqb_spec v (ft_variable ft)) as [->|]; [|done]. injection He as <-.
  pose proof (fr_covered Hready) as Hcov. rewrite Forall_forall in Hcov. destruct (Hcov ft Hin) as (p & Hp & Ht & Hone).
  apply list_elem_of_lookup in Hp as [j Hj]. destruct (pattern_child j p Hj) as (Hc & Hnf & Hs & Hok & Hsm & Hw0).
  destruct (row_spec sip rand_hash p Hs Hok (ft_variable ft) b Ht Hb Hv Hu) as (l & n & Hl & Hn & _ & Hone' & _).
  exists j, (constraint sip rand_hash parallel threads p), n. split_and!; [done|done|exact Hn|]. rewrite (Hone' Hone).
  assert (length l <= size (K p)) by (eapply answers_small; [done| |done]; by apply bval_unbound). nia.
Qed.

#[local] Instance filtered_ok :
  ConstraintOk filtered_join (intersection_sat children fsat) (intersection_relevant children frel).
Proof.
  apply (intersection_ok sort_by_estimate Hsort children fsat frel is_filter);
    [apply filtered_children|apply filtered_proposers|apply filtered_led].
Qed.

(** The variables are those of the patterns. *)
Lemma filtered_variables v : (v < 128)%N → is_set (Query.variables filtered_join) v = true ↔ ∃ p, p ∈ ps ∧ touches p v = true.
Proof.
  intros Hv. simpl. rewrite intersection_variables by done. split.
  - intros (i & c & Hi & Ht). destruct (filter_child_cases i c Hi) as [(p & Hp & ->)|(ft & _ & _ & _ & -> & Hin & Hw & Hr)].
    + destruct (pattern_child i p Hp) as (_ & _ & Hs & Hok & _). simpl in Ht. rewrite pattern_variables in Ht by done.
      exists p. split; [by eapply list_elem_of_lookup_2|done].
    + rewrite (rl_variables _ _ _ _ _ Hr), const_set in Ht by done. apply N.eqb_eq in Ht as ->.
      pose proof (fr_covered Hready) as Hcov. rewrite Forall_forall in Hcov. destruct (Hcov ft Hin) as (p & Hp & Ht & _). by exists p.
  - intros (p & [i Hi]%list_elem_of_lookup & Ht). destruct (pattern_child i p Hi) as (Hc & _ & Hs & Hok & _).
    exists i, (constraint sip rand_hash parallel threads p). split; [done|]. simpl. by rewrite pattern_variables.
Qed.

Lemma filtered_query_ready : query_ready filtered_join (intersection_relevant children frel) width.
Proof.
  pose proof (fr_patterns Hready) as Hps. split; [apply (jr_width _ _ _ _ Hps)| |].
  - intros s v Hv (p & [i Hi]%list_elem_of_lookup & Ht)%filtered_variables _; [|done]. apply intersection_relevant_spec.
    destruct (pattern_child i p Hi) as (Hc & _). exists i. split; [by eapply lookup_lt_Some|]. unfold frel. by rewrite Hi.
  - intros v f b' Hv Hvars Hu Hf Hle Hp.
    set (m := foldr (λ p, Nat.max (size (K p))) 0 ps).
    assert ((width * N.of_nat m < 2 ^ 32)%N ∧ ∀ p, p ∈ ps → size (K p) <= m) as [Hm Hle'].
    { apply (join_sizes sip rand_hash width ps Hps). }
    assert (∀ i c, children !! i = Some c → is_filter i = false → ProposeSmall c m) as Hsmall.
    { intros i c Hi Hnf. destruct (filter_child_cases i c Hi) as [(p & Hpi & ->)|(ft & _ & Hf' & _)]; [|congruence].
      destruct (pattern_child i p Hpi) as (_ & _ & Hs & Hok & _). intros w g b b2 Hw Hgv Hgu Hg Hb Hgp.
      etransitivity; [by eapply pattern_small|]. apply Nat.add_le_mono_l, Nat.mul_le_mono_l, Hle'. by eapply list_elem_of_lookup_2. }
    pose proof (intersection_small sort_by_estimate Hsort children fsat frel is_filter filtered_children filtered_proposers filtered_led
      m Hsmall v f pb_new b' Hv Hvars Hu Hf pb_new_ok Hp).
    simpl in *. nia.
Qed.

(** A complete row spells a row of every set, and passes every filter. *)
Lemma filtered_sat a : total_on (Query.variables filtered_join) a → intersection_sat children fsat a ↔
  (∀ p, p ∈ ps → ∃ k, k ∈ K p ∧ spells p a k) ∧
  ∀ ft, ft ∈ fs → ∀ x, a (ft_variable ft) = Some x → ft_inside ft x = true.
Proof.
  intros Htot. unfold intersection_sat. rewrite length_app, !length_fmap. split.
  - intros Hsat. split.
    + assert (total_on (Query.variables (join sip rand_hash sort_by_estimate parallel threads ps)) a) as Htj.
      { intros v Hv Hvj. apply Htot; [done|]. apply filtered_variables; [done|].
        by apply (join_variables sip rand_hash sort_by_estimate parallel threads width ps (fr_patterns Hready)). }
      apply (join_sat_spells sip rand_hash sort_by_estimate parallel threads width ps (fr_patterns Hready) a Htj).
      intros i Hi. rewrite length_fmap in Hi. specialize (Hsat i ltac:(lia)). unfold fsat in Hsat. unfold sat_at. by destruct (ps !! i).
    + intros ft [j Hj]%list_elem_of_lookup. specialize (Hsat (length ps + j)). unfold fsat in Hsat.
      rewrite lookup_ge_None_2, Nat.add_comm, Nat.add_sub, Hj in Hsat by lia. apply Hsat. apply lookup_lt_Some in Hj. lia.
  - intros [Hps Hfs] i Hi. unfold fsat. destruct (ps !! i) as [p|] eqn:Ep.
    + intros _. by apply Hps, list_elem_of_lookup_2 with i.
    + destruct (fs !! (i - length ps)) as [ft|] eqn:Ef; [|done]. intros x. by apply Hfs, list_elem_of_lookup_2 with (i - length ps).
Qed.
End filtered.

(** The answer of a conjunction with filters, as rows of the engine. *)
Lemma filtered_answer sip rand_hash sort_by_estimate parallel threads width ps fs sole_buffer sole_matrices :
  (∀ l, sort_by_estimate l ≡ₚ l) → filtered_ready sip rand_hash width ps fs →
  let c := filtered_join sip rand_hash sort_by_estimate parallel threads ps fs in
  ∃ q0 q bs, new c = Some q0 ∧ with_frontier_width q0 width = Some q ∧
    (∀ R (post : Binding → option R), ∃ n, ∀ fuel, n <= fuel →
      yields no_hint (next c sole_buffer sole_matrices post fuel) q (omap post bs)) ∧
    NoDup (bval <$> bs) ∧
    ∀ a, a ∈ bval <$> bs ↔
      (∀ v, is_Some (a v) ↔ (v < 128)%N ∧ ∃ p, p ∈ ps ∧ touches p v = true) ∧
      (∀ p, p ∈ ps → ∃ k, k ∈ rows sip (in_set p) ∧ ∀ q, agrees (term_at p q) a (value_at q k)) ∧
      ∀ ft, ft ∈ fs → ∀ x, a (ft_variable ft) = Some x → ft_inside ft x = true.
Proof.
  intros Hsort Hready c. pose proof (filtered_ok sip rand_hash sort_by_estimate Hsort parallel threads width ps fs Hready) as Hok.
  pose proof (filtered_query_ready sip rand_hash sort_by_estimate Hsort parallel threads width ps fs Hready) as Hqr.
  pose proof (filtered_variables sip rand_hash sort_by_estimate parallel threads width ps fs Hready) as Hvars.
  destruct (new_pending c _ _ width Hqr) as (q0 & q & roots & Hn & Hw & Hp & Hall).
  destruct (pending_answers c _ _ width Hqr sole_buffer sole_matrices q roots Hp) as (bs & Hem & Han).
  exists q0, q, bs. split_and!; [done|done|intros; by apply emits_yields|apply Han|]. intros a.
  rewrite (answers_solutions _ _ _ _ Han Hall).
  assert ((∀ v, is_Some (a v) ↔ (v < 128)%N ∧ ∃ p, p ∈ ps ∧ touches p v = true) ↔
    ∀ v, is_Some (a v) ↔ (v < 128)%N ∧ is_set (Query.variables c) v = true) as Hdom.
  { split; intros Hd v; rewrite Hd; split; intros [Hv Hvv]; (split; [done|]); by apply Hvars. }
  rewrite Hdom. split.
  - intros (_ & Hd & Hs). split; [done|]. eapply filtered_sat; [done..| |exact Hs]. intros v Hv Hset. by apply Hd.
  - intros (Hd & Hspell & Hin). split_and!; [|done|].
    + apply (spells_asg_ok sip rand_hash parallel threads width ps (fr_patterns _ _ _ _ _ Hready)); [|done]. intros v Hv. by apply Hdom.
    + eapply filtered_sat; [done..| |done]. intros v Hv Hset. by apply Hd.
Qed.

(** ** The property *)

(** C28. A conjunction of triple patterns with filters — ranges of values, states
    an order leaves standing — is answered exactly, although a filter proposes
    nothing, as long as its variable stands at one position of some pattern:
    iterating the query hands out, each once and then nothing, the assignments
    under which every pattern spells a row of its set and every filter passes. *)
Theorem filtered_join_complete sip rand_hash sort_by_estimate parallel threads width ps fs sole_buffer sole_matrices :
  (∀ l, sort_by_estimate l ≡ₚ l) → filtered_ready sip rand_hash width ps fs →
  let c := filtered_join sip rand_hash sort_by_estimate parallel threads ps fs in
  ∃ q0 q bs, new c = Some q0 ∧ with_frontier_width q0 width = Some q ∧
    (∀ R (post : Binding → option R), ∃ n, ∀ fuel, n <= fuel →
      yields no_hint (next c sole_buffer sole_matrices post fuel) q (omap post bs)) ∧
    NoDup (bval <$> bs) ∧
    ∀ a, a ∈ bval <$> bs ↔
      (∀ v, is_Some (a v) ↔ (v < 128)%N ∧ ∃ p, p ∈ ps ∧ touches p v = true) ∧
      (∀ p, p ∈ ps → ∃ k, k ∈ rows sip (in_set p) ∧ ∀ q, agrees (term_at p q) a (value_at q k)) ∧
      ∀ ft, ft ∈ fs → ∀ x, a (ft_variable ft) = Some x → ft_inside ft x = true.
Proof. apply filtered_answer. Qed.
