(* ===== verification/StatedOrder.v ===== *)
(** * StatedOrder: orders that query the facts

    Source: [triblespace-core/src/query/register.rs] ([ObservationOrder],
    [StatedOrder]), over a [TribleSet].

    Each question is a [find!] that the engine runs: variables are numbered in
    the order the head declares them, [temp!] variables after them, a row whose
    id does not parse is skipped.  [sort_by_estimate], the sharing of buffers and
    the number of threads are the engine's. *)

From S2P Require Import Prelude Lex VariableSet OwnerCover ByteTable KeySchema PatchHash Branch Head Algebra.
From S2P Require Import Machine Trible TribleSet InlineEncodings Liveness Query Constraints Intersection.
From S2P Require Import TribleIndex TriblePattern Membership Engine QueryJoin Register Filters.

Open Scope nat_scope.

Section queries.
Context (sole_buffer sole_matrices : Query → bool) (c : Constraint).

(** [find!(…).next()] *)
Definition find_next {R} (post : Binding → option R) (fuel : nat) : res (option R) :=
  q ← new c;
  '(o, _) ← next c sole_buffer sole_matrices post fuel q;
  Some o.

(** [Iterator::any], from the state [q] of the query on. *)
Fixpoint any_from {R} (post : Binding → option R) (pred : R → bool) (fuel rows : nat) (q : Query) : res bool :=
  match rows with
  | 0 => None
  | S rows =>
      '(o, q) ← next c sole_buffer sole_matrices post fuel q;
      match o with
      | None => Some false
      | Some r => if pred r then Some true else any_from post pred fuel rows q
      end
  end.
Definition find_any {R} (post : Binding → option R) (pred : R → bool) (fuel : nat) : res bool :=
  q ← new c;
  any_from post pred fuel fuel q.
End queries.

Section orders.
Context (sip : list N → N) (rand_hash : N → N) (sort_by_estimate : list (N * nat) → list (N * nat)).
Context (parallel : bool) (threads : nat) (sole_buffer sole_matrices : Query → bool) (fuel : nat).
Abbreviation conjunction := (filtered_join sip rand_hash sort_by_estimate parallel threads).
Abbreviation single p := (constraint sip rand_hash parallel threads p).

(** ** Observation edges *)

Record ObservationOrder := mkObservation { oo_facts : TribleSet; oo_observes : RawInline; oo_end : End }.
Implicit Types o : ObservationOrder.

Definition observation_new (facts : TribleSet) (observes : Id) : ObservationOrder :=
  mkObservation facts (GenId.encode observes) Last.
Definition observation_first o : ObservationOrder := mkObservation (oo_facts o) (oo_observes o) First.
Definition observation_end o : End := oo_end o.

Definition observation_pattern o (state : RawInline) : TribleSetConstraint :=
  match oo_end o with
  | Last => mkPattern (Var 0) (Const (oo_observes o)) (Const state) (oo_facts o)
  | First => mkPattern (Const state) (Const (oo_observes o)) (Var 0) (oo_facts o)
  end.

(** [exists!] *)
#[global] Instance observation_order : RegisterOrder ObservationOrder := λ o state,
  r ← find_next sole_buffer sole_matrices (single (observation_pattern o (GenId.encode state))) (λ _, Some tt) fuel;
  Some (match r with Some _ => true | None => false end).

(** ** Stated coordinates *)

Record StatedOrder := mkStated {
  so_facts : TribleSet;
  so_identity : RawInline;
  so_order : RawInline;
  so_end : End;
  so_tiebreak : bool;
}.
Implicit Types s : StatedOrder.

Definition stated_new (facts : TribleSet) (identity order : Id) : StatedOrder :=
  mkStated facts (GenId.encode identity) (GenId.encode order) Last false.
Definition stated_first s : StatedOrder := mkStated (so_facts s) (so_identity s) (so_order s) First (so_tiebreak s).
Definition tiebreak_by_id s : StatedOrder := mkStated (so_facts s) (so_identity s) (so_order s) (so_end s) true.
Definition stated_end s : End := so_end s.

(** A row of the head [(Id, Inline)]. *)
Definition head_row (b : Binding) : option (Id * RawInline) :=
  x ← bval b 0%N;
  y ← bval b 1%N;
  match GenId.try_from_inline x with inr id => Some (id, y) | inl _ => None end.

(** The two halves of a coordinate. *)
Definition halves s (state register key : RawTerm) : list TribleSetConstraint :=
  [mkPattern state (Const (so_identity s)) register (so_facts s); mkPattern state (Const (so_order s)) key (so_facts s)].

Definition stated_coordinate s (state : RawInline) : res (option (Id * RawInline)) :=
  find_next sole_buffer sole_matrices (conjunction (halves s (Const state) (Var 0) (Var 1)) []) head_row fuel.

Definition is_gt (c : comparison) : bool := match c with Gt => true | _ => false end.
Definition is_lt (c : comparison) : bool := match c with Lt => true | _ => false end.

Definition beats s (challenger_key : RawInline) (challenger : Id) (key : RawInline) (state : Id) : bool :=
  if decide (challenger_key = key) then
    so_tiebreak s && match so_end s with Last => is_gt (Id_cmp challenger state) | First => is_lt (Id_cmp challenger state) end
  else match so_end s with Last => is_gt (lex_cmp challenger_key key) | First => is_lt (lex_cmp challenger_key key) end.

#[global] Instance stated_order : RegisterOrder StatedOrder := λ s state,
  o ← stated_coordinate s (GenId.encode state);
  match o with
  | None => Some false
  | Some (register, key) =>
      let '(low, high) := match so_end s with
                          | Last => (key, replicate INLINE_LEN 255%N)
                          | First => (replicate INLINE_LEN 0%N, key)
                          end in
      find_any sole_buffer sole_matrices
        (conjunction (halves s (Var 0) (Const (GenId.encode register)) (Var 1)) [value_range 1 low high])
        head_row (λ row, beats s row.2 row.1 key state) fuel
  end.
End orders.
