(* ===== verification/StatedOrderSpec.v ===== *)
(** * StatedOrderSpec: what the orders over facts decide

    The engine's answers to the [find!]s of an order, and what they amount to on
    the rows of the set. *)

From S2P Require Import Prelude Lex BTree VariableSet OwnerCover ByteTable KeySchema PatchHash Branch Head Algebra.
From S2P Require Import Machine Trible TribleSet InlineEncodings Liveness Query Constraints Intersection.
From S2P Require Import TribleIndex TriblePattern TriblePatternSpec Membership MembershipSpec.
From S2P Require Import PatchQueries Engine EngineRows EnginePlan EngineSpec EngineSteps EngineSearch QueryJoin Register Filters StatedOrder.

Open Scope nat_scope.

(** ** Answers of the default query *)

Lemma default_width c q0 : new c = Some q0 → with_frontier_width q0 DEFAULT_FRONTIER_WIDTH = Some q0.
Proof.
  unfold new. destruct (mapM _ _); cbn [mbind option_bind]; [|done]. destruct (Query.satisfied _ _); cbn [mbind option_bind]; [|done].
  intros [= <-]. done.
Qed.

Section answer.
Context (sole_buffer sole_matrices : Query → bool) (c : Constraint).

(** The rows of [c] are the assignments [P]. *)
Definition answered (P : asg → Prop) : Prop := ∃ bs, (∀ a, a ∈ bval <$> bs ↔ P a) ∧
  (∀ R (post : Binding → option R), ∃ n, ∀ fuel, n <= fuel →
    find_next sole_buffer sole_matrices c post fuel = Some (head_of (omap post bs))) ∧
  (∀ R (post : Binding → option R) (pred : R → bool), ∃ n, ∀ fuel, n <= fuel →
    find_any sole_buffer sole_matrices c post pred fuel = Some (existsb pred (omap post bs))).

Lemma any_from_spec {R} (post : Binding → option R) pred fuel q l :
  yields no_hint (next c sole_buffer sole_matrices post fuel) q l →
  ∀ rows, length l < rows → any_from sole_buffer sole_matrices c post pred fuel rows q = Some (existsb pred l).
Proof.
  induction 1 as [q q' H1 _ _|q r q' l Hn _ _ IH]; intros [|rows] Hr; simpl in Hr; try lia; cbn [any_from].
  - by rewrite H1.
  - rewrite Hn. cbn [mbind option_bind existsb]. destruct (pred r); [done|]. apply IH. lia.
Qed.

Lemma find_next_spec {R} (post : Binding → option R) fuel q l : new c = Some q →
  yields no_hint (next c sole_buffer sole_matrices post fuel) q l →
  find_next sole_buffer sole_matrices c post fuel = Some (head_of l).
Proof. intros Hn Hy. unfold find_next. rewrite Hn. cbn [mbind option_bind]. destruct Hy as [q q' H1|q r q' l H1]; by rewrite H1. Qed.

Lemma yields_answered q0 q bs (P : asg → Prop) : new c = Some q0 → with_frontier_width q0 DEFAULT_FRONTIER_WIDTH = Some q →
  (∀ R (post : Binding → option R), ∃ n, ∀ fuel, n <= fuel →
    yields no_hint (next c sole_buffer sole_matrices post fuel) q (omap post bs)) →
  (∀ a, a ∈ bval <$> bs ↔ P a) → answered P.
Proof.
  intros Hn Hw Hy HP. rewrite (default_width c q0 Hn) in Hw. injection Hw as <-. exists bs. split_and!; [done| |].
  - intros R post. destruct (Hy R post) as [n Hf]. exists n. intros fuel Hfuel. eapply find_next_spec; [done|]. by apply Hf.
  - intros R post pred. destruct (Hy R post) as [n Hf]. set (l := omap post bs) in *. exists (n `max` S (length l)). intros fuel Hfuel.
    unfold find_any. rewrite Hn. cbn [mbind option_bind]. apply any_from_spec; [apply Hf|]; lia.
Qed.
End answer.

Section facts.
Context (sip : list N → N) (rand_hash : N → N) (sort_by_estimate : list (N * nat) → list (N * nat)).
Context (Hsort : ∀ l, sort_by_estimate l ≡ₚ l) (parallel : bool) (threads : nat) (sole_buffer sole_matrices : Query → bool).
Context (facts : TribleSet) (Hfacts : ts_ok sip rand_hash facts).
Abbreviation K := (rows sip facts).
(** Levels of the default width stay within their 32-bit indexes. *)
Context (Hsmall : (DEFAULT_FRONTIER_WIDTH * N.of_nat (size K) < 2 ^ 32)%N).

(** A fact of the set, by the values of its positions. *)
Definition states_fact (entity attribute value : RawInline) : Prop :=
  ∃ k, k ∈ K ∧ value_at E k = entity ∧ value_at A k = attribute ∧ value_at V k = value.

Lemma facts_answered ps fs : Forall (λ p, in_set p = facts ∧ pattern_ok p) ps → Forall filter_ok fs → Forall (covered ps) fs →
  answered sole_buffer sole_matrices (filtered_join sip rand_hash sort_by_estimate parallel threads ps fs) (λ a,
    (∀ v, is_Some (a v) ↔ (v < 128)%N ∧ ∃ p, p ∈ ps ∧ touches p v = true) ∧
    (∀ p, p ∈ ps → ∃ k, k ∈ K ∧ ∀ q, agrees (term_at p q) a (value_at q k)) ∧
    ∀ ft, ft ∈ fs → ∀ x, a (ft_variable ft) = Some x → ft_inside ft x = true).
Proof.
  intros Hps Hfs Hcov. rewrite Forall_forall in Hps.
  destruct (filtered_answer sip rand_hash sort_by_estimate parallel threads DEFAULT_FRONTIER_WIDTH ps fs sole_buffer sole_matrices)
    as (q0 & q & bs & Hn & Hw & Hy & _ & Hin); [done| |].
  - split; [|done..]. split.
    + done.
    + apply Forall_forall. intros p Hp. by destruct (Hps p Hp) as [-> _].
    + apply Forall_forall. intros p Hp. by apply Hps.
    + apply Forall_forall. intros p Hp. by destruct (Hps p Hp) as [-> _].
  - eapply yields_answered; [done..|]. intros a. rewrite Hin. split; intros (H1 & H2 & H3); (split; [done|]; split; [|done]);
      intros p Hp; destruct (Hps p Hp) as [E _]; specialize (H2 p Hp); rewrite E in *; done.
Qed.

Lemma pattern_answered p : in_set p = facts → pattern_ok p →
  answered sole_buffer sole_matrices (constraint sip rand_hash parallel threads p) (λ a,
    (∀ v, is_Some (a v) ↔ (v < 128)%N ∧ touches p v = true) ∧ ∃ k, k ∈ K ∧ ∀ q, agrees (term_at p q) a (value_at q k)).
Proof.
  intros Hp Hok. subst facts. set (c := constraint _ _ _ _ p).
  pose proof (pattern_constraint_ok sip rand_hash p Hfacts Hok parallel threads) as Hc. fold c in Hc.
  assert (query_ready c (λ _ v, touches p v) DEFAULT_FRONTIER_WIDTH) as Hqr.
  { split; [done| |].
    - intros s v Hv Hset _. simpl in Hset. by rewrite pattern_variables in Hset.
    - intros v f b' Hv Hset Hu Hf Hle Hpr. simpl in Hset. rewrite pattern_variables in Hset by done.
      pose proof (propose_small sip rand_hash p Hfacts Hok v f pb_new b' Hv Hf Hu Hset pb_new_ok Hpr) as Hl. simpl in Hl. nia. }
  destruct (new_pending c _ _ DEFAULT_FRONTIER_WIDTH Hqr) as (q0 & q & roots & Hn & Hw & Hpe & Hall).
  destruct (pending_answers c _ _ DEFAULT_FRONTIER_WIDTH Hqr sole_buffer sole_matrices q roots Hpe) as (bs & Hem & Han).
  eapply yields_answered; [done|done|intros; by apply emits_yields|]. intros a. rewrite (answers_solutions _ _ _ _ Han Hall).
  assert ((∀ v, is_Some (a v) ↔ (v < 128)%N ∧ touches p v = true) ↔
    ∀ v, is_Some (a v) ↔ (v < 128)%N ∧ is_set (Query.variables c) v = true) as Hdom.
  { split; intros Hd v; rewrite Hd; split; intros [Hv Ht]; (split; [done|]); simpl in *; by rewrite pattern_variables in *. }
  unfold solution. rewrite Hdom. split.
  - intros (_ & Hd & Hs). split; [done|]. apply Hs. intros q'. destruct (term_at p q') as [w|x] eqn:Eq; [|by eexists]. simpl.
    pose proof (Hok q') as Hv. rewrite Eq in Hv. apply Hd. split; [done|]. simpl. rewrite pattern_variables by done. unfold touches.
    destruct q'; simpl in Eq; rewrite Eq; simpl; by rewrite N.eqb_refl, ?orb_true_r.
  - intros (Hd & k & Hk & Hsp). split_and!; [|done|intros _; by exists k]. intros v x Hx.
    pose proof (proj2 Hdom Hd) as Ht0. destruct (proj1 (Ht0 v)) as [Hv Ht]; [by eexists|].
    destruct (touches_at p v Ht) as [q' Hq]. assert (x = value_at q' k) as ->; [|by eapply value_at_ok, rows_ok].
    apply (Hsp q'). destruct (term_at p q') as [w|y]; simpl in *; [|done]. by apply N.eqb_eq in Hq as ->.
Qed.
End facts.

(** ** Observation edges *)

Section observation.
Context (sip : list N → N) (rand_hash : N → N) (parallel : bool) (threads : nat) (sole_buffer sole_matrices : Query → bool).
Context (facts : TribleSet) (Hfacts : ts_ok sip rand_hash facts).
Context (Hsmall : (DEFAULT_FRONTIER_WIDTH * N.of_nat (size (rows sip facts)) < 2 ^ 32)%N).

Definition only_at (w : VariableId) (x : RawInline) : asg := λ v, if (v =? w)%N then Some x else None.

Lemma encode_ok id : value_ok (GenId.encode id).
Proof. apply (bytes_ok_app 16 16); [split; [done|by apply Forall_replicate]|apply raw_ok]. Qed.

Lemma exists_spec p (x : list N → RawInline) (Q : list N → Prop) : in_set p = facts → pattern_ok p →
  (∀ v, touches p v = (v =? 0)%N) → (∀ k, (∀ q, agrees (term_at p q) (only_at 0 (x k)) (value_at q k)) ↔ Q k) →
  (∀ k a, (∀ q, agrees (term_at p q) a (value_at q k)) → is_Some (a 0%N) → Q k) →
  ∃ b n, (∀ fuel, n <= fuel →
    find_next sole_buffer sole_matrices (constraint sip rand_hash parallel threads p) (λ _, Some tt) fuel = Some (if (b : bool) then Some tt else None)) ∧
    (b = true ↔ ∃ k, k ∈ rows sip facts ∧ Q k).
Proof.
  intros Hp Hok Ht Hx Ha.
  destruct (pattern_answered sip rand_hash parallel threads sole_buffer sole_matrices facts Hfacts Hsmall p Hp Hok) as (bs & Hin & Hnext & _).
  destruct (Hnext unit (λ _, Some tt)) as [n Hn]. exists (negb (bool_decide (bs = []))), n. split.
  - intros fuel Hf. rewrite (Hn fuel Hf). by destruct bs.
  - rewrite negb_true_iff, bool_decide_eq_false. split.
    + intros Hbs. destruct bs as [|b bs]; [done|]. destruct (proj1 (Hin (bval b))) as (Hd & k & Hk & Hag); [by left|].
      exists k. split; [done|]. apply (Ha k (bval b)); [done|]. apply Hd. by rewrite Ht.
    + intros (k & Hk & HQ) ->. assert (only_at 0 (x k) ∈ bval <$> ([] : list Binding)) as []%not_elem_of_nil. apply Hin. split.
      * intros v. rewrite Ht. unfold only_at. destruct (N.eqb_spec v 0) as [->|]; split; [by intros|by eexists|by intros []|by intros []].
      * exists k. split; [done|]. by apply Hx.
Qed.

Implicit Types o : ObservationOrder.

Lemma observation_spec o state : oo_facts o = facts → value_ok (oo_observes o) →
  ∃ b n, (∀ fuel, n <= fuel → observation_order sip rand_hash parallel threads sole_buffer sole_matrices fuel o state = Some b) ∧
    (b = true ↔ match oo_end o with
                | Last => ∃ observer, states_fact sip facts observer (oo_observes o) (GenId.encode state)
                | First => ∃ observed, states_fact sip facts (GenId.encode state) (oo_observes o) observed
                end).
Proof.
  intros Ho Hobs. pose proof (encode_ok state) as Hst. unfold observation_order, observation_pattern.
  destruct (oo_end o).
  - edestruct (exists_spec (mkPattern (Var 0) (Const (oo_observes o)) (Const (GenId.encode state)) (oo_facts o)) (value_at E)
      (λ k, value_at A k = oo_observes o ∧ value_at V k = GenId.encode state)) as (b & n & Hf & Hb); [done| | | | |].
    + by intros [].
    + intros v. unfold touches. simpl. by rewrite N.eqb_sym, !orb_false_r.
    + intros k. split.
      * intros Hag. split; symmetry; [by apply (Hag A)|by apply (Hag V)].
      * intros [H1 H2] [] y; simpl; [|by intros [= <-]..]. by intros [= <-].
    + intros k a Hag _. split; symmetry; [by apply (Hag A)|by apply (Hag V)].
    + exists b, n. split; [intros fuel Hfuel; rewrite (Hf fuel Hfuel); by destruct b|]. rewrite Hb. unfold states_fact. naive_solver.
  - edestruct (exists_spec (mkPattern (Const (GenId.encode state)) (Const (oo_observes o)) (Var 0) (oo_facts o)) (value_at V)
      (λ k, value_at E k = GenId.encode state ∧ value_at A k = oo_observes o)) as (b & n & Hf & Hb); [done| | | | |].
    + by intros [].
    + intros v. unfold touches. simpl. by rewrite N.eqb_sym.
    + intros k. split.
      * intros Hag. split; symmetry; [by apply (Hag E)|by apply (Hag A)].
      * intros [H1 H2] [] y; simpl; [by intros [= <-]..|]. by intros [= <-].
    + intros k a Hag _. split; symmetry; [by apply (Hag E)|by apply (Hag A)].
    + exists b, n. split; [intros fuel Hfuel; rewrite (Hf fuel Hfuel); by destruct b|]. rewrite Hb. unfold states_fact. naive_solver.
Qed.
End observation.

(** ** Stated coordinates *)

Section stated.
Context (sip : list N → N) (rand_hash : N → N) (sort_by_estimate : list (N * nat) → list (N * nat)).
Context (Hsort : ∀ l, sort_by_estimate l ≡ₚ l) (parallel : bool) (threads : nat) (sole_buffer sole_matrices : Query → bool).
Context (facts : TribleSet) (Hfacts : ts_ok sip rand_hash facts).
Context (Hsmall : (DEFAULT_FRONTIER_WIDTH * N.of_nat (size (rows sip facts)) < 2 ^ 32)%N).
Abbreviation K := (rows sip facts).
Abbreviation fact := (states_fact sip facts).

Lemma fact_values en at_ va : fact en at_ va → value_ok en ∧ value_ok va.
Proof. intros (k & Hk & <- & _ & <-). pose proof (rows_ok sip rand_hash facts Hfacts k Hk). split; by apply value_at_ok. Qed.

Definition two (x y : RawInline) : asg := λ v, if (v =? 0)%N then Some x else if (v =? 1)%N then Some y else None.

(** The rows of a head [(Id, Inline)], where the assignments are pairs. *)
Lemma head_rows (bs : list Binding) (Q : RawInline → RawInline → Prop) (P : asg → Prop) : (∀ a, a ∈ bval <$> bs ↔ P a) →
  (∀ a, P a → ∃ x y, a 0%N = Some x ∧ a 1%N = Some y ∧ Q x y) → (∀ x y, Q x y → P (two x y) ∧ value_ok x) →
  ∀ id y, (id, y) ∈ omap head_row bs ↔ id_ok id ∧ Q (GenId.encode id) y.
Proof.
  intros Hin HP HQ id y. rewrite list_elem_of_omap. split.
  - intros (b & Hb & Hr). destruct (HP (bval b)) as (x & z & Hx & Hz & HQxz); [apply Hin, list_elem_of_fmap; by exists b|].
    unfold head_row in Hr. rewrite Hx, Hz in Hr. cbn [mbind option_bind] in Hr.
    destruct (GenId.try_from_inline x) as [err|i] eqn:E; [done|]. injection Hr as -> ->.
    apply GenId.round_trip in E as [Hid <-]; [done|]. by apply (HQ x y).
  - intros [Hid H]. destruct (HQ _ _ H) as [Ha Hx]. apply Hin, list_elem_of_fmap in Ha as (b & Hb & Hbs). exists b. split; [done|].
    unfold head_row. rewrite <- Hb. cbn [two N.eqb mbind option_bind].
    assert (GenId.try_from_inline (GenId.encode id) = inr id) as -> by (by apply GenId.round_trip). done.
Qed.

Implicit Types s : StatedOrder.

Definition coordinate_fact s (state register key : RawInline) : Prop := fact state (so_identity s) register ∧ fact state (so_order s) key.

Lemma pair_domain (P : VariableId → Prop) (a : asg) : (∀ v, is_Some (a v) ↔ (v < 128)%N ∧ P v) → P 0%N → P 1%N →
  ∃ x y, a 0%N = Some x ∧ a 1%N = Some y.
Proof. intros Hd H0 H1. destruct (proj2 (Hd 0%N)) as [x Hx]; [done|]. destruct (proj2 (Hd 1%N)) as [y Hy]; [done|]. by exists x, y. Qed.

Lemma two_domain x y (P : VariableId → Prop) : (∀ v, P v ↔ v = 0%N ∨ v = 1%N) → ∀ v, is_Some (two x y v) ↔ (v < 128)%N ∧ P v.
Proof.
  intros HP v. rewrite HP. unfold two. destruct (N.eqb_spec v 0) as [->|]; [split; [split; [done|by auto]|by eexists]|].
  destruct (N.eqb_spec v 1) as [->|]; [split; [split; [done|by auto]|by eexists]|]. split; [by intros []|]. by intros [_ [?|?]].
Qed.

(** One half of the coordinate is asked for in variable 0, the key in 1. *)
Definition asks (st rg : RawTerm) : Prop :=
  (st = Var 0 ∧ ∃ x, rg = Const x ∧ value_ok x) ∨ (rg = Var 0 ∧ ∃ x, st = Const x ∧ value_ok x).
Definition half (t : RawTerm) (x : RawInline) : RawInline := match t with Var _ => x | Const c => c end.

Lemma asks_terms st rg : asks st rg → term_ok st ∧ term_ok rg ∧ is_var st 1 = false ∧
  (∀ v, is_var st v || is_var rg v = (v =? 0)%N) ∧
  ∀ (a : asg) x, a 0%N = Some x → term_val st a = Some (half st x) ∧ term_val rg a = Some (half rg x).
Proof.
  intros [(-> & x & -> & Hx)|(-> & x & -> & Hx)]; (split_and!; [done..| |by intros a y Hy]); by intros [].
Qed.

Lemma agrees_triple (te ta tv : RawTerm) facts' a k x y z :
  term_val te a = Some x → term_val ta a = Some y → term_val tv a = Some z →
  (∀ q, agrees (term_at (mkPattern te ta tv facts') q) a (value_at q k)) ↔ value_at E k = x ∧ value_at A k = y ∧ value_at V k = z.
Proof.
  intros He Ha Hv. unfold agrees. split.
  - intros Hag. split_and!; symmetry; [by apply (Hag E)|by apply (Hag A)|by apply (Hag V)].
  - intros (<- & <- & <-) [] w; simpl; [rewrite He|rewrite Ha|rewrite Hv]; by intros [= <-].
Qed.

Lemma halves_answered s st rg fs : so_facts s = facts → value_ok (so_identity s) → value_ok (so_order s) → asks st rg →
  Forall filter_ok fs → Forall (λ ft, ft_variable ft = 1%N) fs →
  ∃ bs, (∀ id y, (id, y) ∈ omap head_row bs ↔ id_ok id ∧
      coordinate_fact s (half st (GenId.encode id)) (half rg (GenId.encode id)) y ∧ ∀ ft, ft ∈ fs → ft_inside ft y = true) ∧
    let c := filtered_join sip rand_hash sort_by_estimate parallel threads (halves s st rg (Var 1)) fs in
    (∃ n, ∀ fuel, n <= fuel → find_next sole_buffer sole_matrices c head_row fuel = Some (head_of (omap head_row bs))) ∧
    ∀ pred, ∃ n, ∀ fuel, n <= fuel →
      find_any sole_buffer sole_matrices c head_row pred fuel = Some (existsb pred (omap head_row bs)).
Proof.
  intros Hs Hi Ho Hask Hfs Hone. destruct (asks_terms st rg Hask) as (Hst & Hrg & Hst1 & Hvar & Hval).
  set (p1 := mkPattern st (Const (so_identity s)) rg (so_facts s)). set (p2 := mkPattern st (Const (so_order s)) (Var 1) (so_facts s)).
  assert (∀ v, touches p1 v = (v =? 0)%N) as Ht1 by (intros v; rewrite <- Hvar; unfold touches; simpl; by rewrite orb_false_r).
  assert (∀ v, touches p2 v = is_var st v || (v =? 1)%N) as Ht2 by (intros v; unfold touches; simpl; by rewrite orb_false_r, N.eqb_sym).
  rewrite Forall_forall in Hone.
  destruct (facts_answered sip rand_hash sort_by_estimate Hsort parallel threads sole_buffer sole_matrices facts Hfacts Hsmall [p1; p2] fs)
    as (bs & Hin & Hnext & Hany); [|done| |].
  { repeat constructor; try done; by intros []. }
  { apply Forall_forall. intros ft Hft. exists p2. rewrite (Hone ft Hft). split_and!; [right; by left|by rewrite Ht2, orb_true_r|].
    unfold one_position. simpl. by rewrite Hst1. }
  exists bs. split; [|split; [apply Hnext|apply Hany]].
  assert (∀ (x y : RawInline) (a : asg), a 0%N = Some x → a 1%N = Some y →
    (∀ p, p ∈ [p1; p2] → ∃ k, k ∈ K ∧ ∀ q, agrees (term_at p q) a (value_at q k)) ↔ coordinate_fact s (half st x) (half rg x) y) as Hfact.
  { intros x y a Hx Hy. destruct (Hval a x Hx) as [Vs Vr]. unfold coordinate_fact, states_fact.
    setoid_rewrite <- (agrees_triple st (Const (so_identity s)) rg (so_facts s) a _ _ _ _ Vs eq_refl Vr).
    setoid_rewrite <- (agrees_triple st (Const (so_order s)) (Var 1) (so_facts s) a _ _ _ _ Vs eq_refl Hy).
    split; [intros H; split; apply H; [by left|right; by left]|]. by intros [H1 H2] p [->|[->|[]%elem_of_nil]%elem_of_cons]%elem_of_cons. }
  apply (head_rows bs (λ x y, coordinate_fact s (half st x) (half rg x) y ∧ ∀ ft, ft ∈ fs → ft_inside ft y = true) _ Hin).
  - intros a (Hd & Hp & Hf). destruct (pair_domain _ a Hd) as (x & y & Hx & Hy).
    { exists p1. rewrite Ht1. split; [by left|done]. }
    { exists p2. rewrite Ht2, orb_true_r. split; [right; by left|done]. }
    exists x, y. split_and!; [done..|by apply (Hfact x y a)|]. intros ft Hft. apply Hf; [done|]. by rewrite Hone.
  - intros x y [Hc Hf]. split.
    + split_and!; [|by apply (Hfact x y)|].
      * apply two_domain. intros v. split.
        -- intros (p & [->|[->|[]%elem_of_nil]%elem_of_cons]%elem_of_cons & Ht); [rewrite Ht1 in Ht|rewrite Ht2 in Ht].
           ++ left. by apply N.eqb_eq.
           ++ apply orb_true_iff in Ht as [Ht|Ht%N.eqb_eq]; [left|by right]. apply N.eqb_eq. by rewrite <- Hvar, Ht.
        -- intros [->| ->]; [exists p1; rewrite Ht1|exists p2; rewrite Ht2, orb_true_r]; (split; [|done]); [by left|right; by left].
      * intros ft Hft z. rewrite (Hone ft Hft). intros [= <-]. by apply Hf.
    + destruct Hc as [H1 _]. destruct (fact_values _ _ _ H1) as [V1 V2].
      by destruct Hask as [(-> & _)|(-> & _)].
Qed.

(** The pair the index yields first. *)
Lemma coordinate_answered s state : so_facts s = facts → value_ok (so_identity s) → value_ok (so_order s) → value_ok state →
  ∃ o n, (∀ fuel, n <= fuel → stated_coordinate sip rand_hash sort_by_estimate parallel threads sole_buffer sole_matrices fuel s state = Some o) ∧
    match o with
    | Some (register, key) => id_ok register ∧ coordinate_fact s state (GenId.encode register) key
    | None => ∀ register key, id_ok register → ¬ coordinate_fact s state (GenId.encode register) key
    end.
Proof.
  intros Hs Hi Ho Hst. destruct (halves_answered s (Const state) (Var 0) []) as (bs & Hin & [n Hn] & _); try done.
  { right. split; [done|]. by exists state. }
  exists (head_of (omap head_row bs)), n. split; [done|]. destruct (omap head_row bs) as [|[reg key] l]; simpl.
  - intros reg key Hid Hc. apply (not_elem_of_nil (reg, key)), Hin. split_and!; [done..|]. by intros ft ?%elem_of_nil.
  - assert ((reg, key) ∈ (reg, key) :: l) as (Hid & Hc & _)%Hin by by left. done.
Qed.

(** A challenger lies in the range the engine is given. *)
Lemma beats_in_range s key' other key state : value_ok key → value_ok key' → beats s key' other key state = true →
  let '(low, high) := match so_end s with
                      | Last => (key, replicate INLINE_LEN 255%N)
                      | First => (replicate INLINE_LEN 0%N, key)
                      end in
  KeySchema.in_range low high key' = true.
Proof.
  intros [Lk Bk] [Lk' Bk'] Hb. assert (lex_cmp key' key = Eq ∨ match so_end s with Last => lex_cmp key' key = Gt | First => lex_cmp key' key = Lt end) as Hc.
  { unfold beats in Hb. case_decide as E; [left; by apply lex_cmp_eq|right]. destruct (so_end s); by destruct (lex_cmp key' key). }
  unfold KeySchema.in_range. destruct (so_end s); apply andb_true_iff; split.
  - destruct Hc as [->%lex_cmp_eq|Hgt]; [apply lex_le_refl|]. apply lex_lt_le, lex_cmp_lt. by apply (cmp_gt lex_cmp).
  - by apply lex_le_ones.
  - by apply lex_le_zeros.
  - destruct Hc as [->%lex_cmp_eq|Hlt]; [apply lex_le_refl|]. by apply lex_lt_le, lex_cmp_lt.
Qed.

Lemma stated_spec s state : so_facts s = facts → value_ok (so_identity s) → value_ok (so_order s) →
  ∃ o b n, (∀ fuel, n <= fuel →
      stated_coordinate sip rand_hash sort_by_estimate parallel threads sole_buffer sole_matrices fuel s (GenId.encode state) = Some o ∧
      stated_order sip rand_hash sort_by_estimate parallel threads sole_buffer sole_matrices fuel s state = Some b) ∧
    match o with
    | None => b = false ∧ ∀ register key, id_ok register → ¬ coordinate_fact s (GenId.encode state) (GenId.encode register) key
    | Some (register, key) => id_ok register ∧ coordinate_fact s (GenId.encode state) (GenId.encode register) key ∧
        (b = true ↔ ∃ other key', id_ok other ∧ coordinate_fact s (GenId.encode other) (GenId.encode register) key' ∧
          beats s key' other key state = true)
    end.
Proof.
  intros Hs Hi Ho. destruct (coordinate_answered s (GenId.encode state) Hs Hi Ho (encode_ok state)) as (o & n & Hn & Hc). exists o.
  unfold stated_order. destruct o as [[register key]|].
  - destruct Hc as [Hid Hc]. set (range := match so_end s with
      | Last => (key, replicate INLINE_LEN 255%N) | First => (replicate INLINE_LEN 0%N, key) end).
    destruct (halves_answered s (Var 0) (Const (GenId.encode register)) [value_range 1 range.1 range.2]) as (bs & Hin & _ & Hany); try done.
    { left. split; [done|]. eexists. split; [done|]. apply encode_ok. }
    { constructor; [|constructor]. by apply value_range_ok. }
    { by repeat constructor. }
    destruct (Hany (λ row, beats s row.2 row.1 key state)) as [m Hm].
    exists (existsb (λ row, beats s row.2 row.1 key state) (omap head_row bs)), (n `max` m). split.
    { intros fuel Hf. split; [apply Hn; lia|]. rewrite Hn by lia. cbn [mbind option_bind]. fold range. rewrite <- (Hm fuel) by lia. by destruct range. }
    split_and!; [done..|]. rewrite existsb_exists. setoid_rewrite <- list_elem_of_In. split.
    + intros ([other key'] & (Hother & Hf & _)%Hin & Hb). by exists other, key'.
    + intros (other & key' & Hother & Hf & Hb). exists (other, key'). split; [|done]. apply Hin. split_and!; [done..|].
      intros ft ->%list_elem_of_singleton. simpl.
      assert (value_ok key) as Vk by (destruct Hc as [_ Hc]; by destruct (fact_values _ _ _ Hc)).
      assert (value_ok key') as Vk' by (destruct Hf as [_ Hf]; by destruct (fact_values _ _ _ Hf)).
      pose proof (beats_in_range s key' other key state Vk Vk' Hb) as Hr. fold range in Hr. by destruct range.
  - exists false, n. split; [|done]. intros fuel Hf. rewrite Hn by lia. done.
Qed.
End stated.
