(* ===== verification/RegisterOrders.v ===== *)
(** * RegisterOrders: the properties of the orders over facts

    What a state's domination amounts to on the rows of the set, and that the
    maintained index and the live order are the same order. *)

From S2P Require Import Prelude Lex BTree VariableSet OwnerCover ByteTable KeySchema PatchHash Branch Head Algebra.
From S2P Require Import Machine Trible TribleSet SimpleArchive InlineEncodings Liveness Query Constraints.
From S2P Require Import TribleIndex TriblePattern TriblePatternSpec Engine Register Filters.
From S2P Require Import LwwRegister LwwRegisterSpec LwwIndex LwwIndexSpec StatedOrder StatedOrderSpec.

Open Scope nat_scope.

(** ** Resolving with an order that runs queries *)

Lemma resolve_eventually {O} (dom : nat → RegisterOrder O) (order : O) (P : Id → Prop) candidates : Forall id_ok candidates →
  (∀ x, ∃ b n, (∀ fuel, n <= fuel → dom fuel order x = Some b) ∧ (b = true ↔ P x)) →
  ∃ n, ∀ fuel, n <= fuel → ∃ set, @resolve O (dom fuel) order candidates = Some set ∧ NoDup set ∧
    ∀ x, x ∈ set ↔ x ∈ candidates ∧ ¬ P x.
Proof.
  intros Hc HP. assert (∃ n, ∀ fuel x, n <= fuel → x ∈ candidates → ∃ b, dom fuel order x = Some b ∧ (b = true ↔ P x)) as [n Hn].
  { clear Hc. induction candidates as [|c cands [n IH]]; [exists 0; set_solver|]. destruct (HP c) as (b & m & Hm & Hb).
    exists (n `max` m). intros fuel x Hf [->|Hx]%elem_of_cons; [|apply IH; [lia|done]]. exists b. split; [apply Hm; lia|done]. }
  exists n. intros fuel Hf. set (D := λ x, default false (dom fuel order x)).
  assert (∀ x, x ∈ candidates → dom fuel order x = Some (D x) ∧ (D x = true ↔ P x)) as HD.
  { intros x Hx. unfold D. destruct (Hn fuel x Hf Hx) as (b & -> & Hb). done. }
  destruct (@resolve_spec O (dom fuel) order candidates D Hc) as (set & Hr & _ & Hnd & Hin); [intros x Hx; by apply HD|].
  exists set. split_and!; [done..|]. intros x. rewrite Hin. split; intros [Hx H]; (split; [done|]); destruct (HD x Hx) as [_ Hiff]; rewrite <- Hiff in *; by destruct (D x).
Qed.

Lemma resolve_ext {O O'} (dom : RegisterOrder O) (dom' : RegisterOrder O') order order' candidates :
  (∀ x, x ∈ candidates → dom order x = dom' order' x) → @resolve O dom order candidates = @resolve O' dom' order' candidates.
Proof.
  intros He. unfold resolve. generalize ([] : list Id). induction candidates as [|c cands IH]; intros set; [done|]. cbn [foldM].
  unfold dominated. rewrite He by by left. destruct (dom' order' c) as [b|]; [|done]. cbn [mbind option_bind].
  apply IH. intros x Hx. apply He. by right.
Qed.

(** ** One fact, one row *)

Section sets.
Context (sip : list N → N) (rand_hash : N → N).
Context (identity orders_attribute : Id) (facts : TribleSet) (ts : list Trible).
Context (Hts : Forall trible_ok ts) (Hrows : ∀ k, k ∈ rows sip facts ↔ ∃ t, t ∈ ts ∧ as_raw t = k).

Lemma as_raw_values t : trible_ok t →
  value_at E (as_raw t) = GenId.encode (e t) ∧ value_at A (as_raw t) = GenId.encode (a t) ∧ value_at V (as_raw t) = v t.
Proof.
  intros [_ _ Hv]. unfold value_at, at_pos, as_raw, id_into_value, GenId.encode.
  destruct (segments_app (raw (e t)) (raw (a t)) (v t)) as (-> & -> & ->); [apply raw_ok|apply raw_ok|apply Hv|done].
Qed.

Lemma encode_inj i j : id_ok i → id_ok j → GenId.encode i = GenId.encode j → i = j.
Proof.
  intros Hi Hj E%app_inv_head. pose proof (id_new_raw i Hi) as H. rewrite E, (id_new_raw j Hj) in H. by injection H.
Qed.

Lemma fact_trible state attribute value : id_ok state → id_ok attribute →
  states_fact sip facts (GenId.encode state) (GenId.encode attribute) value ↔
  ∃ t, t ∈ ts ∧ e t = state ∧ a t = attribute ∧ v t = value.
Proof.
  intros Hs Ha. unfold states_fact. setoid_rewrite Hrows. rewrite Forall_forall in Hts. split.
  - intros (k & (t & Ht & <-) & H1 & H2 & H3). destruct (as_raw_values t (Hts t Ht)) as (E1 & E2 & E3).
    destruct (Hts t Ht) as [He Hat _]. exists t. rewrite E1 in H1. rewrite E2 in H2. rewrite E3 in H3. split_and!; [done|by apply encode_inj..|done].
  - intros (t & Ht & <- & <- & <-). exists (as_raw t). destruct (as_raw_values t (Hts t Ht)) as (E1 & E2 & E3).
    split_and!; [by exists t|done..].
Qed.

(** The projected rows of a state are its stated facts. *)
Lemma project_coordinate state reg key : id_ok state → id_ok identity → id_ok orders_attribute →
  coordinate_in (identities (project identity orders_attribute ts)) (orders (project identity orders_attribute ts)) (raw state) reg key ↔
  ∃ register, id_ok register ∧ raw register = reg ∧
    states_fact sip facts (GenId.encode state) (GenId.encode identity) (GenId.encode register) ∧
    states_fact sip facts (GenId.encode state) (GenId.encode orders_attribute) key.
Proof.
  intros Hs Hi Ho. unfold coordinate_in. rewrite (proj1 (elem_of_project _ _ _ _)), (proj2 (elem_of_project _ _ _ _)).
  setoid_rewrite fact_trible; [|done..]. unfold states_identity, states_order. rewrite Forall_forall in Hts.
  assert (∀ i j, id_ok i → id_ok j → raw i = raw j → i = j) as Hinj.
  { intros i j Hii Hjj E. apply encode_inj; [done..|]. unfold GenId.encode. by rewrite E. }
  split.
  - intros [(t & Ht & Ha & Hst & Hg) (t' & Ht' & Ha' & E)]. cbn [fst snd] in *. apply pair_equal_spec in E as [Hst' ->].
    destruct (Hts t Ht) as [He _ Hv], (Hts t' Ht') as [He' _ _]. destruct (genid_value_spec (v t) Hv) as [Hgv _]. rewrite Hg in Hgv.
    destruct (GenId.try_from_inline (v t)) as [|register] eqn:Er; [done|]. injection Hgv as ->.
    apply GenId.round_trip in Er as [Hreg Hev]; [|done]. exists register. split_and!; [done..| |].
    + exists t. split_and!; [done|by apply Hinj|done|done].
    + exists t'. split_and!; [done|by apply Hinj|done|done].
  - intros (register & Hreg & <- & (t & Ht & <- & Ha & Hv) & (t' & Ht' & He' & Ha' & Hv')). cbn [fst snd]. split.
    + exists t. split_and!; [done..|]. destruct (Hts t Ht) as [_ _ Hvo]. destruct (genid_value_spec (v t) Hvo) as [-> _].
      assert (GenId.try_from_inline (v t) = inr register) as -> by (by apply GenId.round_trip). done.
    + exists t'. split_and!; [done..|]. by rewrite He', Hv'.
Qed.
End sets.

(** ** Attaching to the elements derived from archives *)

Section attached.
Context `{RV : RowViews, !RowViewsOk RV} `{BV : ByteViews, !ByteViewsOk BV}.
Context (identity orders_attribute : Id) {E : Type} (get : list N → E + Blob).

(** [handle] names the element derived from an archive of the tribles [ts]. *)
Definition derived_from (handle : list N) (ts : list Trible) : Prop :=
  ∃ b x, bytes_real b ∧ (N.of_nat (length (data b)) <= 2 ^ 62)%N ∧ validate b = Some (inr ts) ∧
    derive_element b identity orders_attribute = Some (inr x) ∧ get handle = inr x.

Definition projected_rows (ts : list Trible) : ProjectionRows :=
  let p := project identity orders_attribute ts in mkRows (identities p) (orders p).

Lemma derived_rows handle ts : derived_from handle ts →
  Forall trible_ok ts ∧ member_rows_ok (projected_rows ts) ∧
  ∃ x, get handle = inr x ∧ projection_rows_decode x = Some (inr (projected_rows ts)).
Proof.
  intros (b & x & Hb & Hlen & Hv & Hd & Hg). rewrite validate_spec in Hv by done. injection Hv as Hv.
  pose proof (verdict_spec b Hb) as S. rewrite Hv in S. destruct S as (Ht & Hdata & _).
  pose proof (project_ok identity orders_attribute ts Ht) as Hp.
  assert (projection_fits (project identity orders_attribute ts)) as Hfit.
  { unfold projection_fits, isize_max. pose proof (project_payload identity orders_attribute ts).
    assert (64 * length ts <= length (data b)); [|lia]. rewrite Hdata. clear -Ht.
    induction Ht as [|t ts Ht _ IH]; [done|]. rewrite fmap_cons. cbn [concat length].
    rewrite length_app, (bo_len _ _ (as_raw_ok t Ht)). unfold TRIBLE_LEN. lia. }
  rewrite derive_spec, Hv, projection_encode_fits in Hd by done. injection Hd as <-. split_and!; [done| |].
  - split_and!; [apply Hp|apply Hp|by apply projection_ok_rows..].
  - eexists. split; [exact Hg|]. rewrite projection_rows_decode_spec, bytes_frame; [done..|]. by apply projection_bytes_real.
Qed.

Lemma attach_derived cover tss acc : Forall2 derived_from cover tss →
  attach_members get cover acc = Some (inr (mkLwwIndex (acc ++ (projected_rows <$> tss)))).
Proof.
  intros Hc. revert acc. induction Hc as [|handle ts cover tss Hd _ IH]; intros acc; cbn [attach_members].
  - by rewrite app_nil_r.
  - destruct (derived_rows handle ts Hd) as (_ & _ & x & -> & ->). cbn [mbind option_bind]. by rewrite IH, <- app_assoc.
Qed.

(** The rows of the index are those of all tribles. *)
Lemma attached_rows tss r :
  (r ∈ all_identities (mkLwwIndex (projected_rows <$> tss)) ↔ r ∈ identities (project identity orders_attribute (concat tss))) ∧
  (r ∈ all_orders (mkLwwIndex (projected_rows <$> tss)) ↔ r ∈ orders (project identity orders_attribute (concat tss))).
Proof.
  unfold all_identities, all_orders. rewrite !elem_of_all. cbn [members]. setoid_rewrite list_elem_of_fmap.
  assert (∀ t, t ∈ concat tss ↔ ∃ ts, ts ∈ tss ∧ t ∈ ts) as Hc.
  { intros t. rewrite list_elem_of_In, in_concat. by setoid_rewrite <- list_elem_of_In. }
  rewrite (proj1 (elem_of_project _ _ _ _)), (proj2 (elem_of_project _ _ _ _)). split; split.
  - intros (m & (ts & -> & Hts) & Hr). apply (proj1 (elem_of_project _ _ _ _)) in Hr as (t & Ht & Hs). exists t. rewrite Hc. eauto.
  - intros (t & (ts & Hts & Ht)%Hc & Hs). exists (projected_rows ts). split; [by exists ts|]. apply elem_of_project. by exists t.
  - intros (m & (ts & -> & Hts) & Hr). apply (proj2 (elem_of_project _ _ _ _)) in Hr as (t & Ht & Hs). exists t. rewrite Hc. eauto.
  - intros (t & (ts & Hts & Ht)%Hc & Hs). exists (projected_rows ts). split; [by exists ts|]. apply elem_of_project. by exists t.
Qed.

Lemma attached_ok cover tss : Forall2 derived_from cover tss →
  index_ok (mkLwwIndex (projected_rows <$> tss)) ∧ Forall trible_ok (concat tss).
Proof.
  intros Hc. split.
  - apply Forall_fmap. induction Hc as [|handle ts cover tss Hd _ IH]; constructor; [|done]. by apply (derived_rows handle ts).
  - induction Hc as [|handle ts cover tss Hd _ IH]; [constructor|]. cbn [concat]. apply Forall_app. split; [|done].
    by apply (derived_rows handle ts).
Qed.
End attached.

(** The strict order of candidates is the stated order with its tie-break. *)
Lemma beats_total facts identity order key' other key state :
  beats (tiebreak_by_id (stated_new facts identity order)) key' other key state = true ↔
  candidate_cmp (key, raw state) (key', raw other) = Lt.
Proof.
  unfold beats, candidate_cmp, pair_cmp, cmp_then, tiebreak_by_id, stated_new, Id_cmp. cbn [so_tiebreak so_end andb fst snd].
  assert (∀ x y, is_gt (lex_cmp x y) = true ↔ lex_cmp y x = Lt) as Hgt.
  { intros x y. rewrite <- (cmp_gt lex_cmp). by destruct (lex_cmp x y). }
  case_decide as Ek.
  - subst. by rewrite Hgt, lex_cmp_refl.
  - rewrite Hgt. destruct (lex_cmp key key') eqn:Ec; [|done..]. by apply lex_cmp_eq in Ec.
Qed.

(** ** The maintained order against the live one *)

Section agreement.
Context (sip : list N → N) (rand_hash : N → N) (sort_by_estimate : list (N * nat) → list (N * nat)).
Context (Hsort : ∀ l, sort_by_estimate l ≡ₚ l) (parallel : bool) (threads : nat) (sole_buffer sole_matrices : Query → bool).
Context `{IT : Itertools, !ItertoolsOk IT}.
Context (facts : TribleSet) (Hfacts : ts_ok sip rand_hash facts) (identity order : Id) (Hi : id_ok identity) (Ho : id_ok order).
Context (Hsmall : (DEFAULT_FRONTIER_WIDTH * N.of_nat (size (rows sip facts)) < 2 ^ 32)%N).
Context (ts : list Trible) (Hts : Forall trible_ok ts) (Hrows : ∀ k, k ∈ rows sip facts ↔ ∃ t, t ∈ ts ∧ as_raw t = k).
Context (q : LwwQuery) (Hq : lww_prepared q).
Abbreviation I := (all_identities (q_index q)).
Abbreviation O := (all_orders (q_index q)).
Context (HI : ∀ r, r ∈ I ↔ r ∈ identities (project identity order ts)) (HO : ∀ r, r ∈ O ↔ r ∈ orders (project identity order ts)).
Abbreviation live := (tiebreak_by_id (stated_new facts identity order)).
Abbreviation by_statement := (stated_order sip rand_hash sort_by_estimate parallel threads sole_buffer sole_matrices).

Lemma coordinate_live state reg key : id_ok state → coordinate_in I O (raw state) reg key ↔
  ∃ register, id_ok register ∧ raw register = reg ∧ coordinate_fact sip facts live (GenId.encode state) (GenId.encode register) key.
Proof.
  intros Hs. rewrite <- (project_coordinate sip identity order facts ts Hts Hrows state reg key) by done.
  unfold coordinate_in. by rewrite HI, HO.
Qed.

Lemma live_agrees state : id_ok state →
  ∃ b n, dominated q state = Some b ∧ ∀ fuel, n <= fuel → by_statement fuel live state = Some b.
Proof.
  intros Hs. destruct (dominated_spec q Hq state) as (b & Hb & Hiff).
  destruct (stated_spec sip rand_hash sort_by_estimate Hsort parallel threads sole_buffer sole_matrices facts Hfacts Hsmall live state)
    as (o & b' & n & Hn & Ho'); [done|apply encode_ok..|].
  exists b, n. split; [done|]. intros fuel Hf. destruct (Hn fuel Hf) as [_ ->]. f_equal. apply Bool.eq_true_iff_eq. rewrite Hiff.
  destruct o as [[register key]|].
  - destruct Ho' as (Hreg & Hcf & Hb'). rewrite Hb'.
    assert (coordinate_in I O (raw state) (raw register) key) as Hc by (apply coordinate_live; [done|]; by exists register). split.
    + intros (other & key' & Hother & Hof & Hbeats%beats_total). exists (raw register), key, (raw other), key'. split_and!; [done| |done].
      apply coordinate_live; [done|]. by exists register.
    + intros (reg & key1 & st' & key' & H1 & H2 & Hlt). destruct (coordinate_unique q Hq _ _ _ _ _ Hc H1) as [<- <-].
      destruct (coordinate_ids q Hq _ _ _ H2) as (other & register' & Hother & Hreg' & <- & _). apply coordinate_live in H2 as (r & Hr & E & Hof); [|done].
      exists other, key'. split_and!; [done| |by apply beats_total]. assert (GenId.encode r = GenId.encode register) as <-; [|done].
      unfold GenId.encode. by rewrite E.
  - destruct Ho' as [-> Hnone]. split; [done|]. intros (reg & key & st' & key' & H1 & _). exfalso.
    apply coordinate_live in H1 as (r & Hr & _ & Hcf); [|done]. by apply (Hnone r key).
Qed.

Lemma live_resolves candidates : Forall id_ok candidates → ∃ set n, resolve q candidates = Some set ∧
  ∀ fuel, n <= fuel → @resolve _ (by_statement fuel) live candidates = Some set.
Proof.
  intros Hc. set (D := λ id, default false (dominated q id)).
  destruct (resolve_spec q candidates D Hc) as (set & Hset & _).
  { intros id _. unfold D. by destruct (dominated_spec q Hq id) as (b & -> & _). }
  assert (∃ n, ∀ fuel x, n <= fuel → x ∈ candidates → by_statement fuel live x = dominated q x) as [n Hn].
  { clear Hset. induction Hc as [|c cands Hid _ [n IH]]; [exists 0; set_solver|]. destruct (live_agrees c Hid) as (b & m & Hb & Hm).
    exists (n `max` m). intros fuel x Hf [->|Hx]%elem_of_cons; [rewrite Hm, Hb by lia; done|apply IH; [lia|done]]. }
  exists set, n. split; [done|]. intros fuel Hf. rewrite <- Hset. apply resolve_ext. intros x Hx. by apply Hn.
Qed.
End agreement.

(** ** The properties *)

Section properties.
Context (sip : list N → N) (rand_hash : N → N) (sort_by_estimate : list (N * nat) → list (N * nat)).
Context (parallel : bool) (threads : nat) (sole_buffer sole_matrices : Query → bool).
Abbreviation by_observation := (observation_order sip rand_hash parallel threads sole_buffer sole_matrices).
Abbreviation by_statement := (stated_order sip rand_hash sort_by_estimate parallel threads sole_buffer sole_matrices).

(** The observation order decides from the edges of the set: running its
    query with enough fuel, a state is dominated exactly when a fact says that
    something observed it (at the [First] end: that it observed something), so
    that resolving candidates keeps the frontier (the roots), each once. *)
Theorem observation_order_refines o candidates : ts_ok sip rand_hash (oo_facts o) → value_ok (oo_observes o) →
  (DEFAULT_FRONTIER_WIDTH * N.of_nat (size (rows sip (oo_facts o))) < 2 ^ 32)%N → Forall id_ok candidates →
  let passed := λ state, match oo_end o with
                         | Last => ∃ observer, states_fact sip (oo_facts o) observer (oo_observes o) (GenId.encode state)
                         | First => ∃ observed, states_fact sip (oo_facts o) (GenId.encode state) (oo_observes o) observed
                         end in
  (∀ state, ∃ b n, (∀ fuel, n <= fuel → by_observation fuel o state = Some b) ∧ (b = true ↔ passed state)) ∧
  ∃ n, ∀ fuel, n <= fuel → ∃ set, @resolve _ (by_observation fuel) o candidates = Some set ∧ NoDup set ∧
    ∀ state, state ∈ set ↔ state ∈ candidates ∧ ¬ passed state.
Proof.
  intros Hf Ho Hsmall Hc passed. assert (∀ state, ∃ b n, (∀ fuel, n <= fuel → by_observation fuel o state = Some b) ∧
    (b = true ↔ passed state)) as Hd by (intros state; by apply observation_spec).
  split; [exact Hd|]. by apply (resolve_eventually by_observation o passed).
Qed.

(** C29. The stated order decides by coordinates: the first pair the index yields
    for a state is one the facts state, there is none exactly when they state
    none, and then nothing dominates the state.  Otherwise the state is dominated
    exactly when some state of the same register has a key that beats it,
    although the engine is asked for the keys of one side only. *)
Theorem stated_order_refines s state : (∀ l, sort_by_estimate l ≡ₚ l) → ts_ok sip rand_hash (so_facts s) →
  (DEFAULT_FRONTIER_WIDTH * N.of_nat (size (rows sip (so_facts s))) < 2 ^ 32)%N →
  value_ok (so_identity s) → value_ok (so_order s) →
  let states := λ id register key, states_fact sip (so_facts s) (GenId.encode id) (so_identity s) (GenId.encode register) ∧
    states_fact sip (so_facts s) (GenId.encode id) (so_order s) key in
  ∃ o b n, (∀ fuel, n <= fuel →
      stated_coordinate sip rand_hash sort_by_estimate parallel threads sole_buffer sole_matrices fuel s (GenId.encode state) = Some o ∧
      by_statement fuel s state = Some b) ∧
    match o with
    | None => b = false ∧ ∀ register key, id_ok register → ¬ states state register key
    | Some (register, key) => id_ok register ∧ states state register key ∧
        (b = true ↔ ∃ other key', id_ok other ∧ states other register key' ∧ beats s key' other key state = true)
    end.
Proof.
  intros Hsort Hf Hsmall Hi Ho states.
  by apply (stated_spec sip rand_hash sort_by_estimate Hsort parallel threads sole_buffer sole_matrices (so_facts s)).
Qed.

(** C21. A maintained index and the live order agree: when a cover's members are
    the elements derived from archives that together hold the facts of a set,
    however divided, attaching to the cover succeeds, and once a query over the
    index prepares, it dominates exactly the states that [StatedOrder] with its
    tie-break dominates by querying the set, and resolves candidates alike. *)
Theorem lww_order_is_stated `{RowViews, !RowViewsOk RV} `{ByteViews, !ByteViewsOk BV} `{Itertools, !ItertoolsOk IT}
    {E} (get : list N → E + Blob) facts identity order cover tss :
  (∀ l, sort_by_estimate l ≡ₚ l) → ts_ok sip rand_hash facts →
  (DEFAULT_FRONTIER_WIDTH * N.of_nat (size (rows sip facts)) < 2 ^ 32)%N → id_ok identity → id_ok order →
  Forall2 (derived_from identity order get) cover tss →
  (∀ k, k ∈ rows sip facts ↔ ∃ t, t ∈ concat tss ∧ as_raw t = k) →
  let live := tiebreak_by_id (stated_new facts identity order) in
  ∃ ix, try_from_cover get cover = Some (inr ix) ∧ ∀ q, query ix = Some (inr q) →
    (∀ state, id_ok state → ∃ b n, dominated q state = Some b ∧ ∀ fuel, n <= fuel → by_statement fuel live state = Some b) ∧
    ∀ candidates, Forall id_ok candidates → ∃ set n, resolve q candidates = Some set ∧
      ∀ fuel, n <= fuel → @resolve _ (by_statement fuel) live candidates = Some set.
Proof.
  intros Hsort Hf Hsmall Hi Ho Hder Hrows live. exists (mkLwwIndex (projected_rows identity order <$> tss)).
  split; [unfold try_from_cover; by rewrite (attach_derived identity order get cover tss [] Hder)|]. intros q Hquery.
  destruct (attached_ok identity order get cover tss Hder) as [Hix Hts].
  assert (lww_prepared q) as Hq by (eexists; split; [exact Hix|exact Hquery]).
  destruct (query_spec _ Hix) as (r & Hr & Hs). rewrite Hquery in Hr. injection Hr as <-. destruct Hs as (Hqi & _).
  pose proof (λ r, attached_rows identity order tss r) as Hat. rewrite <- Hqi in Hat.
  split; [intros state Hid; eapply live_agrees|intros candidates Hc; eapply live_resolves]; try done; intros r; apply Hat.
Qed.
End properties.
