(* ===== verification/LwwExamples.v ===== *)
(** * LwwExamples: a register in concrete bytes

    Two states of one register and half of a third, in two archives that divide
    the halves of the second; instances of the library classes.  The witnesses
    apply the theorems of the register files. *)

From S2P Require Import Prelude Lex BTree VariableSet OwnerCover ByteTable KeySchema PatchHash Branch Head Algebra.
From S2P Require Import Machine Trible TribleSet SimpleArchive InlineEncodings Examples TribleExamples.
From S2P Require Import Liveness Query Constraints Intersection ConstraintExamples TribleIndex TriblePattern TriblePatternSpec PatternExamples.
From S2P Require Import Membership MembershipSpec MembershipExamples Engine EngineRows EngineSpec QueryJoin EngineExamples.
From S2P Require Import Register LwwRegister LwwRegisterSpec LwwIndex LwwIndexSpec LwwConstraintSpec Filters StatedOrder StatedOrderSpec RegisterOrders.

Open Scope nat_scope.

(** ** Library instances *)

#[local] Existing Instance ex_views.
#[local] Existing Instance ex_views_ok.

#[local] Instance ex_row_views : RowViews := {|
  header_prefix l := if decide (16 <= length l) then Some (of_be_bytes (take 8 l), of_be_bytes (take 8 (drop 8 l))) else None;
  view_identities l := if decide (length l mod 32 = 0) then Some (split_rows 32 l) else None;
  view_orders l := if decide (length l mod 48 = 0) then Some (split_rows 48 l) else None;
|}.
#[local] Instance ex_row_views_ok : RowViewsOk ex_row_views.
Proof. by split. Qed.

Definition ex_le (x y : Row) : Prop := row_cmp x y ≠ Gt.
#[local] Instance ex_le_dec : RelDecision ex_le.
Proof. intros x y. unfold ex_le. apply _. Defined.
#[local] Instance ex_le_trans : Transitive ex_le.
Proof. intros x y z. apply (cmp_le_trans row_cmp). Qed.
#[local] Instance ex_le_total : Total ex_le.
Proof.
  intros x y. unfold ex_le. destruct (row_cmp x y) eqn:E; [by left..|]. right. apply (cmp_gt row_cmp) in E. congruence.
Qed.

Fixpoint ex_dedup {A} `{EqDecision A} (l : list A) : list A :=
  match l with
  | x :: (y :: _) as rest => if decide (x = y) then ex_dedup rest else x :: ex_dedup rest
  | _ => l
  end.

#[local] Instance ex_itertools : Itertools := {| kmerge ls := merge_sort ex_le (concat ls); dedup A H l := ex_dedup l |}.
#[local] Instance ex_itertools_ok : ItertoolsOk ex_itertools.
Proof.
  split; simpl; [| |done|done|..].
  - intros ls. apply merge_sort_Permutation.
  - intros ls _. by apply (StronglySorted_merge_sort ex_le).
  - intros A H x l. by rewrite decide_True.
  - intros A H x y l Hne. by rewrite decide_False.
Qed.

(** ** A register *)

Definition ex_id_of (b : N) : Id := mkId (b * 256 ^ 15).
Definition ex_stamp (b : N) : list N := replicate 31 0%N ++ [b].
(** State [s] of register [r], and its key [k]. *)
Definition ex_of (s r : N) : Trible := mkTrible (ex_id_of s) (ex_id_of 5) (GenId.encode (ex_id_of r)).
Definition ex_at (s k : N) : Trible := mkTrible (ex_id_of s) (ex_id_of 6) (ex_stamp k).

(** State 2 is divided; state 3 names no register. *)
Definition ex_left : list Trible := [ex_of 1 9; ex_at 1 10; ex_of 2 9].
Definition ex_right : list Trible := [ex_at 2 20; ex_at 3 30].
Definition ex_whole : list Trible := [ex_of 1 9; ex_at 1 10; ex_of 2 9; ex_at 2 20; ex_at 3 30].

Definition ex_archive (ts : list Trible) : Bytes := mkBytes 64 (concat (as_raw <$> ts)).

Lemma ex_id_of_ok b : (0 < b < 256)%N → id_ok (ex_id_of b).
Proof.
  intros Hb. unfold id_ok, ex_id_of. cbn [inner]. change (256 ^ N.of_nat ID_LEN)%N with (256 * 256 ^ 15)%N.
  change (256 ^ 15)%N with 1329227995784915872903807060280344576%N. lia.
Qed.

Lemma ex_of_ok s r : (0 < s < 256)%N → (0 < r < 256)%N → trible_ok (ex_of s r).
Proof. intros Hs Hr. split; [by apply ex_id_of_ok|by apply ex_id_of_ok|apply encode_ok]. Qed.
Lemma ex_at_ok s k : (0 < s < 256)%N → (k < 256)%N → trible_ok (ex_at s k).
Proof.
  intros Hs Hk. split; [by apply ex_id_of_ok|by apply ex_id_of_ok|]. split; [done|]. apply Forall_app.
  split; [by apply Forall_replicate|by repeat constructor].
Qed.

Lemma ex_whole_ok : Forall trible_ok ex_whole.
Proof. by repeat constructor; (apply ex_of_ok || apply ex_at_ok). Qed.
Lemma ex_left_ok : Forall trible_ok ex_left.
Proof. by repeat constructor; (apply ex_of_ok || apply ex_at_ok). Qed.
Lemma ex_right_ok : Forall trible_ok ex_right.
Proof. by repeat constructor; apply ex_at_ok. Qed.

Lemma ex_archive_real ts : Forall trible_ok ts → bytes_real (ex_archive ts).
Proof.
  unfold bytes_real. simpl data. induction 1 as [|t ts Ht _ IH]; [constructor|]. rewrite fmap_cons. cbn [concat].
  apply Forall_app. split; [|done]. by apply as_raw_ok.
Qed.

(** The derived elements, and a store of the two of a cover. *)
Definition ex_element (ts : list Trible) : Blob :=
  match derive_element (ex_archive ts) (ex_id_of 5) (ex_id_of 6) with Some (inr x) => x | _ => [] end.
Definition ex_store (handle : list N) : unit + Blob :=
  if decide (handle = [1%N]) then inr (ex_element ex_left) else if decide (handle = [2%N]) then inr (ex_element ex_right) else inl ().
Definition ex_cover : list (list N) := [[1%N]; [2%N]].
Definition ex_index : LwwIndex := match try_from_cover ex_store ex_cover with Some (inr ix) => ix | _ => mkLwwIndex [] end.
Definition ex_winners : LwwQuery := match query ex_index with Some (inr q) => q | _ => mkLwwQuery ex_index [] 0 0 end.

Lemma ex_derives ts : Forall trible_ok ts → validate (ex_archive ts) = Some (inr ts) → (length ts <= 100)%nat →
  derive_element (ex_archive ts) (ex_id_of 5) (ex_id_of 6) = Some (inr (ex_element ts)) →
  ∀ handle, ex_store handle = inr (ex_element ts) → derived_from (ex_id_of 5) (ex_id_of 6) ex_store handle ts.
Proof.
  intros Ht Hv Hl Hd handle Hh. exists (ex_archive ts), (ex_element ts). split_and!; [by apply ex_archive_real| |done..].
  simpl data. assert (length (concat (as_raw <$> ts)) = 64 * length ts) as ->; [|lia]. clear -Ht.
  induction Ht as [|t ts Ht _ IH]; [done|]. rewrite fmap_cons. cbn [concat length]. rewrite length_app, IH, (bo_len _ _ (as_raw_ok t Ht)).
  unfold TRIBLE_LEN. lia.
Qed.

Lemma ex_cover_derived : Forall2 (derived_from (ex_id_of 5) (ex_id_of 6) ex_store) ex_cover [ex_left; ex_right].
Proof.
  constructor; [|constructor; [|constructor]].
  - apply ex_derives; [apply ex_left_ok|vm_compute; reflexivity|simpl; lia|vm_compute; reflexivity|vm_compute; reflexivity].
  - apply ex_derives; [apply ex_right_ok|vm_compute; reflexivity|simpl; lia|vm_compute; reflexivity|vm_compute; reflexivity].
Qed.

Lemma ex_attached : try_from_cover ex_store ex_cover = Some (inr ex_index) ∧ query ex_index = Some (inr ex_winners).
Proof. split; vm_compute; reflexivity. Qed.

(** The facts as a set. *)
Definition ex_facts : TribleSet :=
  default (ts_new ex_sip64) (from_iter ex_sip64 ex_rand ((λ t, (64%N, t)) <$> ex_whole)).

Lemma ex_from_iter ts : Forall trible_ok ts →
  ∃ s, from_iter ex_sip64 ex_rand ((λ t, (64%N, t)) <$> ts) = Some s ∧ holds ex_sip64 ex_rand s (list_to_set (as_raw <$> ts)) None.
Proof.
  unfold from_iter. intros Hts. assert (∀ s K, holds ex_sip64 ex_rand s K None → ∃ s',
    foldM (λ s pt, ts_insert ex_sip64 ex_rand s pt.1 pt.2) s ((λ t, (64%N, t)) <$> ts) = Some s' ∧
    holds ex_sip64 ex_rand s' (list_to_set (as_raw <$> ts) ∪ K) None) as Hf.
  { induction Hts as [|t ts Ht _ IH]; intros s K Hs; [exists s; split; [done|]; simpl; by rewrite (left_id_L ∅ _)|].
    rewrite fmap_cons. cbn [foldM fst snd]. destruct (insert_holds ex_sip64 ex_rand s K None 64 t Hs Ht) as (s1 & E & H1).
    rewrite E. cbn [mbind option_bind]. destruct (IH s1 _ H1) as (s' & -> & H'). exists s'. split; [done|].
    rewrite fmap_cons. cbn [list_to_set].
    replace (_ ∪ _ ∪ K) with (list_to_set (as_raw <$> ts) ∪ ({[as_raw t]} ∪ K) : gset (list N)); [done|set_solver]. }
  destruct (Hf _ _ (new_holds ex_sip64 ex_rand)) as (s & Hs & H). exists s. split; [done|]. by rewrite (right_id_L ∅ _) in H.
Qed.

Lemma ex_facts_ok : ts_ok ex_sip64 ex_rand ex_facts ∧ rows ex_sip64 ex_facts = list_to_set (as_raw <$> ex_whole).
Proof.
  destruct (ex_from_iter ex_whole ex_whole_ok) as (s & Hs & H). unfold ex_facts. rewrite Hs. cbn [default from_option id].
  destruct (holds_ok _ _ _ _ _ H) as (H1 & H2 & _). exact (conj H1 H2).
Qed.
Lemma ex_facts_small : (DEFAULT_FRONTIER_WIDTH * N.of_nat (size (rows ex_sip64 ex_facts)) < 2 ^ 32)%N.
Proof. assert (size (rows ex_sip64 ex_facts) = 5) as -> by (vm_compute; reflexivity). done. Qed.
Lemma ex_facts_rows k : k ∈ rows ex_sip64 ex_facts ↔ ∃ t, t ∈ concat [ex_left; ex_right] ∧ as_raw t = k.
Proof.
  rewrite (proj2 ex_facts_ok), elem_of_list_to_set, list_elem_of_fmap. change (concat [ex_left; ex_right]) with ex_whole.
  split; intros (t & H1 & H2); exists t; [exact (conj H2 (eq_sym H1))|exact (conj (eq_sym H2) H1)].
Qed.

Lemma attached_index_ok identity order {E} (get : list N → E + Blob) cover tss ix :
  Forall2 (derived_from identity order get) cover tss → try_from_cover get cover = Some (inr ix) → index_ok ix.
Proof.
  intros Hc Ht. unfold try_from_cover in Ht. rewrite (attach_derived identity order get cover tss [] Hc) in Ht.
  injection Ht as <-. by apply (attached_ok identity order get cover).
Qed.

Lemma ex_index_ok : index_ok ex_index.
Proof. exact (attached_index_ok _ _ _ _ _ _ ex_cover_derived (proj1 ex_attached)). Qed.
Lemma ex_winners_prepared : lww_prepared ex_winners.
Proof. exists ex_index. exact (conj ex_index_ok (proj2 ex_attached)). Qed.

(** ** Witnesses *)

Lemma ex_projected ts : Forall trible_ok ts → (length ts <= 100)%nat →
  projection_ok (project (ex_id_of 5) (ex_id_of 6) ts) ∧ projection_fits (project (ex_id_of 5) (ex_id_of 6) ts).
Proof.
  intros Ht Hl. split; [by apply project_ok|]. unfold projection_fits, isize_max.
  pose proof (project_payload (ex_id_of 5) (ex_id_of 6) ts). lia.
Qed.

Lemma lww_element_roundtrip_witness :
  let p := project (ex_id_of 5) (ex_id_of 6) ex_whole in
  (∃ x, projection_encode p = Some x ∧ decode_projection x = Some (inr p)) ∧ payload_len p = 224%N ∧
  projection_ok p ∧ projection_encode p = Some (ex_element ex_whole).
Proof.
  destruct (ex_projected ex_whole ex_whole_ok) as [Hp Hf]; [simpl; lia|].
  destruct (lww_element_roundtrip (project (ex_id_of 5) (ex_id_of 6) ex_whole) (ex_element ex_whole)) as [H1 H2].
  destruct (H1 Hp Hf) as (x & Hx & _ & Hd & _). split; [exact (ex_intro _ x (conj Hx Hd))|].
  split; [vm_compute; reflexivity|]. apply H2.
  - assert (ex_element ex_whole = projection_bytes (project (ex_id_of 5) (ex_id_of 6) ex_whole)) as -> by (vm_compute; reflexivity).
    by apply projection_bytes_real.
  - vm_compute. discriminate.
  - vm_compute. reflexivity.
Defined.

(** A nil state in the second identity row. *)
Definition ex_refused : Blob := be_bytes 8 2 ++ be_bytes 8 0 ++ ex_stamp 1 ++ replicate 31 0%N ++ [2%N].
Lemma lww_decode_errors_witness : decode_projection ex_refused = Some (inl NilState) ∧ refused ex_refused NilState.
Proof.
  destruct (lww_decode_errors ex_refused) as (r & Hr & _ & Hiff).
  - repeat (apply Forall_app; split); repeat constructor.
  - assert (decode_projection ex_refused = Some (inl NilState)) as E by (vm_compute; reflexivity). split; [exact E|].
    apply Hiff. rewrite E in Hr. by injection Hr.
Defined.

(** The facts of state 2 are divided between the two archives. *)
Lemma lww_derive_homomorphism_witness :
  (∃ x x1 x2, derive_element (ex_archive ex_whole) (ex_id_of 5) (ex_id_of 6) = Some (inr x) ∧
    derive_element (ex_archive ex_left) (ex_id_of 5) (ex_id_of 6) = Some (inr x1) ∧
    derive_element (ex_archive ex_right) (ex_id_of 5) (ex_id_of 6) = Some (inr x2) ∧ lww_join x1 x2 = Some (inr x)) ∧
  lww_join (ex_element ex_left) (ex_element ex_right) = Some (inr (ex_element ex_whole)).
Proof.
  split; [|vm_compute; reflexivity].
  destruct (lww_derive_homomorphism (ex_id_of 5) (ex_id_of 6) (ex_archive ex_whole) (ex_archive ex_left) (ex_archive ex_right)
    ex_whole ex_left ex_right) as [H _].
  - apply ex_archive_real, ex_whole_ok.
  - apply ex_archive_real, ex_left_ok.
  - apply ex_archive_real, ex_right_ok.
  - vm_compute. discriminate.
  - vm_compute. reflexivity.
  - vm_compute. reflexivity.
  - vm_compute. reflexivity.
  - intros t. change ex_whole with (ex_left ++ ex_right). apply elem_of_app.
  - exact H.
Defined.

Lemma ex_element_canonical ts : Forall trible_ok ts → (length ts <= 100)%nat →
  ex_element ts = projection_bytes (project (ex_id_of 5) (ex_id_of 6) ts) → canonical (ex_element ts).
Proof.
  intros Ht Hl ->. destruct (ex_projected ts Ht Hl) as [Hp Hf]. apply canonical_bytes.
  eexists. split_and!; [exact Hp|done|by apply projection_bytes_real|by apply decode_bytes].
Qed.

Lemma lww_join_semilattice_witness :
  (∃ xy, lww_join (ex_element ex_left) (ex_element ex_right) = Some (inr xy) ∧
    lww_join (ex_element ex_right) (ex_element ex_left) = Some (inr xy) ∧ canonical xy) ∧
  lww_join (ex_element ex_left) (ex_element ex_left) = Some (inr (ex_element ex_left)).
Proof.
  destruct (lww_join_semilattice (ex_element ex_left) (ex_element ex_right) (ex_element ex_whole))
    as (xy & yz & px & py & pxy & H1 & _ & Hc & _ & H2 & _ & H3 & _).
  - apply ex_element_canonical; [apply ex_left_ok|simpl; lia|vm_compute; reflexivity].
  - apply ex_element_canonical; [apply ex_right_ok|simpl; lia|vm_compute; reflexivity].
  - apply ex_element_canonical; [apply ex_whole_ok|simpl; lia|vm_compute; reflexivity].
  - vm_compute. discriminate.
  - split; [exact (ex_intro _ xy (conj H1 (conj H2 Hc)))|exact H3].
Defined.

Lemma lww_query_refines_witness : ∃ q, query ex_index = Some (inr q) ∧
  prepared (all_identities ex_index) (all_orders ex_index) (q_winners q) (q_complete q) (q_unresolved q) ∧
  lww_len ex_winners = 2%N ∧ unresolved_count ex_winners = 1%N.
Proof.
  destruct (lww_query_refines ex_index ex_index_ok) as (r & Hr & Hs & _). rewrite (proj2 ex_attached) in Hr.
  destruct r as [err|q]; [discriminate Hr|]. exists q. destruct Hs as (_ & _ & Hp).
  split; [exact (eq_trans (proj2 ex_attached) Hr)|]. split; [exact Hp|]. split; vm_compute; reflexivity.
Defined.

Definition ex_candidates : list Id := [ex_id_of 1; ex_id_of 2; ex_id_of 3; ex_id_of 4].
Lemma ex_candidates_ok : Forall id_ok ex_candidates.
Proof. by repeat (constructor; [by apply ex_id_of_ok|]). Qed.

Lemma lww_reads_witness :
  (∃ set, resolve ex_winners ex_candidates = Some set ∧ NoDup set) ∧
  resolve ex_winners ex_candidates = Some [ex_id_of 2; ex_id_of 3; ex_id_of 4] ∧
  winner ex_winners (ex_id_of 9) = Some (Some (ex_id_of 2)).
Proof.
  destruct (lww_reads ex_winners (ex_id_of 9) ex_candidates ex_winners_prepared) as (_ & _ & _ & set & Hs & Hnd & _).
  - by apply ex_id_of_ok.
  - apply ex_candidates_ok.
  - split; [exact (ex_intro _ set (conj Hs Hnd))|]. split; vm_compute; reflexivity.
Defined.

Lemma lww_constraint_protocol_witness :
  ∃ l : list RawInline, NoDup l ∧ Query.estimate (lww_constraint (lww_has ex_winners 3)) 3 binding_default = Some (Some (N.of_nat (length l))) ∧
    length l = 1.
Proof.
  destruct (lww_constraint_protocol ex_winners 3 ex_winners_prepared) as (_ & _ & l & Hnd & _ & He & _); [done|].
  exists l. split; [exact Hnd|]. split; [apply He|]. assert (Query.estimate (lww_constraint (lww_has ex_winners 3)) 3 binding_default = Some (Some 1%N)) as E
    by (vm_compute; reflexivity).
  assert (∀ x y : N, Some (Some x) = Some (Some y) → x = y) as Hinj by congruence.
  specialize (Hinj _ _ (eq_trans (eq_sym (He binding_default)) E)). clear -Hinj. lia.
Defined.

(** ** Filters and orders over facts *)

(** [value_range(?1, 8, 50)] beside the patterns of [EngineExamples]. *)
Definition ex_filter : Filter := value_range 1 (ex_stamp 8) (ex_stamp 50).
Definition ex_filtered : Constraint := filtered_join ex_sip64 ex_rand ex_sort false 1 ex_patterns [ex_filter].

Lemma ex_filtered_ready : filtered_ready ex_sip64 ex_rand 4 ex_patterns [ex_filter].
Proof.
  split.
  - apply ex_join_ready. lia.
  - constructor; [by apply value_range_ok|constructor].
  - constructor; [|constructor]. exists ex_edges. split; [by left|]. split; reflexivity.
Qed.

(** Three of the nine pairs have a first value in the range. *)
Lemma filtered_join_complete_witness :
  (∃ q0 q bs, new ex_filtered = Some q0 ∧ with_frontier_width q0 4 = Some q ∧
    (∃ n, ∀ fuel, n <= fuel → yields no_hint (next ex_filtered ex_sole ex_shared Some fuel) q (omap Some bs)) ∧ NoDup (bval <$> bs)) ∧
  (q ← new ex_filtered; o ← collect ex_filtered 20 100 q; Some (length (o : list Binding))) = Some 3.
Proof.
  split; [|vm_compute; reflexivity].
  destruct (filtered_join_complete ex_sip64 ex_rand ex_sort false 1 4 ex_patterns [ex_filter] ex_sole ex_shared ex_sort_perm ex_filtered_ready)
    as (q0 & q & bs & Hn & Hw & Hy & Hnd & _).
  exists q0, q, bs. exact (conj Hn (conj Hw (conj (Hy _ Some) Hnd))).
Defined.

(** In [ex_facts], with the order attribute read as the edge: states 1, 2 and 3
    have an edge, to no id. *)
Definition ex_observation : ObservationOrder := observation_first (observation_new ex_facts (ex_id_of 6)).
Abbreviation ex_by_observation := (observation_order ex_sip64 ex_rand false 1 ex_sole ex_shared).

Lemma observation_order_refines_witness :
  (∃ n, ∀ fuel, n <= fuel → ∃ set, @resolve _ (ex_by_observation fuel) ex_observation ex_candidates = Some set ∧ NoDup set) ∧
  @resolve _ (ex_by_observation 100) ex_observation ex_candidates = Some [ex_id_of 4] ∧
  @resolve _ (ex_by_observation 100) (observation_new ex_facts (ex_id_of 5)) [ex_id_of 9; ex_id_of 8] = Some [ex_id_of 8].
Proof.
  split; [|split; vm_compute; reflexivity].
  destruct (observation_order_refines ex_sip64 ex_rand false 1 ex_sole ex_shared ex_observation ex_candidates) as (_ & n & Hn).
  - apply ex_facts_ok.
  - apply encode_ok.
  - apply ex_facts_small.
  - apply ex_candidates_ok.
  - exists n. intros fuel Hf. destruct (Hn fuel Hf) as (set & Hs & Hnd & _). exact (ex_intro _ set (conj Hs Hnd)).
Defined.

Definition ex_live : StatedOrder := tiebreak_by_id (stated_new ex_facts (ex_id_of 5) (ex_id_of 6)).
Abbreviation ex_by_statement := (stated_order ex_sip64 ex_rand ex_sort false 1 ex_sole ex_shared).

Lemma stated_order_refines_witness :
  (∃ o b n, ∀ fuel, n <= fuel → stated_coordinate ex_sip64 ex_rand ex_sort false 1 ex_sole ex_shared fuel ex_live
      (GenId.encode (ex_id_of 1)) = Some o ∧ ex_by_statement fuel ex_live (ex_id_of 1) = Some b) ∧
  ex_by_statement 100 ex_live (ex_id_of 1) = Some true ∧ ex_by_statement 100 ex_live (ex_id_of 2) = Some false ∧
  ex_by_statement 100 ex_live (ex_id_of 3) = Some false ∧ ex_by_statement 100 (stated_first ex_live) (ex_id_of 2) = Some true.
Proof.
  split; [|split_and!; vm_compute; reflexivity].
  destruct (stated_order_refines ex_sip64 ex_rand ex_sort false 1 ex_sole ex_shared ex_live (ex_id_of 1)) as (o & b & n & Hn & _).
  - apply ex_sort_perm.
  - apply ex_facts_ok.
  - apply ex_facts_small.
  - apply encode_ok.
  - apply encode_ok.
  - exact (ex_intro _ o (ex_intro _ b (ex_intro _ n Hn))).
Defined.

Lemma lww_order_is_stated_witness :
  (∃ set n, resolve ex_winners ex_candidates = Some set ∧
    ∀ fuel, n <= fuel → @resolve _ (ex_by_statement fuel) ex_live ex_candidates = Some set) ∧
  @resolve _ (ex_by_statement 100) ex_live ex_candidates = Some [ex_id_of 2; ex_id_of 3; ex_id_of 4].
Proof.
  split; [|vm_compute; reflexivity].
  destruct (lww_order_is_stated ex_sip64 ex_rand ex_sort false 1 ex_sole ex_shared ex_store ex_facts (ex_id_of 5) (ex_id_of 6)
    ex_cover [ex_left; ex_right]) as (ix & Hix & Hq).
  - apply ex_sort_perm.
  - apply ex_facts_ok.
  - apply ex_facts_small.
  - by apply ex_id_of_ok.
  - by apply ex_id_of_ok.
  - apply ex_cover_derived.
  - apply ex_facts_rows.
  - assert (∀ x y : LwwIndex, @Some (TryFromCoverError () + LwwIndex) (inr x) = Some (inr y) → x = y) as Hinj by congruence.
    specialize (Hinj _ _ (eq_trans (eq_sym (proj1 ex_attached)) Hix)). subst ix.
    apply (proj2 (Hq ex_winners (proj2 ex_attached)) ex_candidates ex_candidates_ok).
Defined.
