(* ===== verification/PathExpr.v ===== *)
(** * PathExpr: property paths and their automata

    Source: [triblespace-paths/src/automaton.rs] and
    [triblespace-paths/src/expr.rs].

    A regular expression over steps along graph edges is kept in a canonical
    form and compiled to its position automaton.  A [StateId] is a natural
    number that fits in 32 bits; [sort_unstable] and [dedup] are written out;
    a [BTreeSet] is an ascending list. *)

From S2P Require Import Prelude Lex BTree.

Open Scope nat_scope.

Abbreviation StateId := nat (only parsing).
Abbreviation RawId := (list N) (only parsing).

Definition u32_max : N := (2 ^ 32 - 1)%N.
Definition to_u32 (x : nat) : option nat := if (N.of_nat x <=? u32_max)%N then Some x else None.

(** ** Vectors *)

(** [sort_unstable], by insertion. *)
Fixpoint sort_insert {A} (cmp : A → A → comparison) (x : A) (l : list A) : list A :=
  match l with
  | [] => [x]
  | y :: l' => match cmp x y with Gt => y :: sort_insert cmp x l' | _ => x :: l end
  end.
Definition sort_unstable {A} (cmp : A → A → comparison) (l : list A) : list A := foldr (sort_insert cmp) [] l.

(** [Vec::dedup] *)
Fixpoint vec_dedup {A} (eqb : A → A → bool) (l : list A) : list A :=
  match l with
  | x :: (y :: _) as rest => if eqb x y then vec_dedup eqb rest else x :: vec_dedup eqb rest
  | _ => l
  end.

(** [Ord] of vectors. *)
Definition list_cmp {A} (cmp : A → A → comparison) : list A → list A → comparison :=
  fix go l l' :=
    match l, l' with
    | [], [] => Eq
    | [], _ :: _ => Lt
    | _ :: _, [] => Gt
    | x :: l, y :: l' => match cmp x y with Eq => go l l' | c => c end
    end.

Definition is_eq (c : comparison) : bool := match c with Eq => true | _ => false end.
Definition sort_dedup {A} (cmp : A → A → comparison) (l : list A) : list A :=
  vec_dedup (λ x y, is_eq (cmp x y)) (sort_unstable cmp l).

(** [binary_search(x)], on the elements from [lo] up to [hi]. *)
Fixpoint search_from {A} (fuel : nat) (cmp : A → A → comparison) (l : list A) (x : A) (lo hi : nat) : res (option nat) :=
  match fuel with
  | 0 => None
  | S fuel =>
      if hi <=? lo then Some None else
      let mid := lo + (hi - lo) / 2 in
      y ← l !! mid;
      match cmp y x with
      | Eq => Some (Some mid)
      | Lt => search_from fuel cmp l x (S mid) hi
      | Gt => search_from fuel cmp l x lo mid
      end
  end.
Definition binary_search {A} (cmp : A → A → comparison) (l : list A) (x : A) : res (option nat) :=
  search_from (S (length l)) cmp l x 0 (length l).

(** ** Steps *)

Inductive Step :=
  | Forward (attribute : RawId)
  | Reverse (attribute : RawId)
  | ForwardExcept (excluded : list RawId)
  | ReverseExcept (excluded : list RawId).
#[global] Instance Step_eq_dec : EqDecision Step.
Proof. solve_decision. Defined.

Definition forward_any : Step := ForwardExcept [].
Definition reverse_any : Step := ReverseExcept [].

Definition canonicalize (self : Step) : Step :=
  match self with
  | ForwardExcept excluded => ForwardExcept (sort_dedup lex_cmp excluded)
  | ReverseExcept excluded => ReverseExcept (sort_dedup lex_cmp excluded)
  | Forward _ | Reverse _ => self
  end.

Definition step_matches (self : Step) (attribute : RawId) : res bool :=
  match self with
  | Forward expected | Reverse expected => Some (bool_decide (expected = attribute))
  | ForwardExcept excluded | ReverseExcept excluded =>
      found ← binary_search lex_cmp excluded attribute;
      Some (match found with Some _ => false | None => true end)
  end.

Definition is_reverse (self : Step) : bool :=
  match self with Reverse _ | ReverseExcept _ => true | _ => false end.

(** The derived order, and [cmp_steps]. *)
Definition step_tag (step : Step) : nat :=
  match step with Forward _ => 0 | Reverse _ => 1 | ForwardExcept _ => 2 | ReverseExcept _ => 3 end.
Definition cmp_steps (left right : Step) : comparison :=
  cmp_then (step_tag left ?= step_tag right)
    (match left, right with
     | Forward l, Forward r | Reverse l, Reverse r => lex_cmp l r
     | ForwardExcept l, ForwardExcept r | ReverseExcept l, ReverseExcept r => list_cmp lex_cmp l r
     | _, _ => Eq
     end).

(** ** Automata *)

Record Transition := mkTransition { tr_from : StateId; tr_to : StateId; tr_step : Step }.

Definition transition_cmp (x y : Transition) : comparison :=
  cmp_then (tr_from x ?= tr_from y) (cmp_then (tr_to x ?= tr_to y) (cmp_steps (tr_step x) (tr_step y))).

Record Automaton := mkAutomaton {
  state_count : StateId;
  initial : list StateId;
  accepting : list StateId;
  transitions : list Transition;
}.

Inductive AutomatonError :=
  | NoStates
  | NoInitialState
  | StateOutOfRange (state state_count : StateId).

Abbreviation state_set := (bts_extend Nat.compare []) (only parsing).

Definition automaton_new (state_count : StateId) (initial accepting : list StateId) (transitions : list Transition)
    : AutomatonError + Automaton :=
  if state_count =? 0 then inl NoStates else
  let initial := state_set initial in
  match initial with
  | [] => inl NoInitialState
  | _ =>
      let accepting := state_set accepting in
      match find (λ state, state_count <=? state)
              (initial ++ accepting ++ concat ((λ t, [tr_from t; tr_to t]) <$> transitions)) with
      | Some state => inl (StateOutOfRange state state_count)
      | None =>
          let transitions := (λ t, mkTransition (tr_from t) (tr_to t) (canonicalize (tr_step t))) <$> transitions in
          inr (mkAutomaton state_count initial accepting (sort_dedup transition_cmp transitions))
      end
  end.

Definition is_accepting (self : Automaton) (state : StateId) : bool := bool_decide (state ∈ accepting self).
Definition accepts_empty (self : Automaton) : bool := existsb (is_accepting self) (initial self).

(** ** Expressions *)

Inductive PathExpr :=
  | Atom (step : Step)
  | Sequence (parts : list PathExpr)
  | Alternative (arms : list PathExpr)
  | Star (body : PathExpr)
  | Plus (body : PathExpr)
  | Optional (body : PathExpr).

Definition node_tag (node : PathExpr) : nat :=
  match node with Atom _ => 0 | Sequence _ => 1 | Alternative _ => 2 | Star _ => 3 | Plus _ => 4 | Optional _ => 5 end.

Fixpoint expr_cmp (self other : PathExpr) : comparison :=
  cmp_then (node_tag self ?= node_tag other)
    (match self, other with
     | Atom l, Atom r => cmp_steps l r
     | Sequence l, Sequence r | Alternative l, Alternative r => list_cmp expr_cmp l r
     | Star l, Star r | Plus l, Plus r | Optional l, Optional r => expr_cmp l r
     | _, _ => Eq
     end).

Definition from_step (step : Step) : PathExpr := Atom (canonicalize step).

Definition sequence (parts : list PathExpr) : PathExpr :=
  let flattened := concat ((λ part, match part with Sequence nested => nested | node => [node] end) <$> parts) in
  match flattened with [part] => part | _ => Sequence flattened end.

Definition alternative (arms : list PathExpr) : PathExpr :=
  let flattened := concat ((λ arm, match arm with Alternative nested => nested | node => [node] end) <$> arms) in
  match sort_dedup expr_cmp flattened with [arm] => arm | flattened => Alternative flattened end.

Definition and_then (self next : PathExpr) : PathExpr := sequence [self; next].
Definition or_else (self other : PathExpr) : PathExpr := alternative [self; other].
Definition star (self : PathExpr) : PathExpr := Star self.
Definition plus (self : PathExpr) : PathExpr := Plus self.
Definition optional (self : PathExpr) : PathExpr := Optional self.

Definition inverse_step (step : Step) : Step :=
  match step with
  | Forward attribute => Reverse attribute
  | Reverse attribute => Forward attribute
  | ForwardExcept excluded => ReverseExcept excluded
  | ReverseExcept excluded => ForwardExcept excluded
  end.

Fixpoint inverse (self : PathExpr) : PathExpr :=
  match self with
  | Atom step => from_step (canonicalize (inverse_step step))
  | Sequence parts => sequence (rev (map inverse parts))
  | Alternative arms => alternative (map inverse arms)
  | Star body => star (inverse body)
  | Plus body => plus (inverse body)
  | Optional body => optional (inverse body)
  end.

Fixpoint is_nullable (self : PathExpr) : bool :=
  match self with
  | Atom _ => false
  | Sequence parts => forallb is_nullable parts
  | Alternative arms => existsb is_nullable arms
  | Star _ | Optional _ => true
  | Plus body => is_nullable body
  end.

(** ** Compilation *)

Record PositionCompiler := mkCompiler { pc_steps : list Step; pc_follow : list (list StateId) }.
Record Fragment := mkFragment { nullable : bool; fr_first : list StateId; fr_last : list StateId }.

Abbreviation extend_states := (bts_extend Nat.compare) (only parsing).

Definition link_row (to : list StateId) (follow : list (list StateId)) (source : StateId) : res (list (list StateId)) :=
  _ ← massert (1 <=? source);
  row ← follow !! (source - 1);
  arr_set follow (source - 1) (extend_states row to).
Definition link (c : PositionCompiler) (from to : list StateId) : res PositionCompiler :=
  follow ← foldM (link_row to) (pc_follow c) from;
  Some (mkCompiler (pc_steps c) follow).

(** The fragment of one more part of a sequence. *)
Definition append_part (result right : Fragment) : Fragment :=
  mkFragment (nullable result && nullable right)
    (if nullable result then extend_states (fr_first result) (fr_first right) else fr_first result)
    (if nullable right then extend_states (fr_last right) (fr_last result) else fr_last right).

Definition join_arm (result arm : Fragment) : Fragment :=
  mkFragment (nullable result || nullable arm) (extend_states (fr_first result) (fr_first arm))
    (extend_states (fr_last result) (fr_last arm)).

Fixpoint analyze (expression : PathExpr) (c : PositionCompiler) : res (Fragment * PositionCompiler) :=
  match expression with
  | Atom step =>
      position ← to_u32 (length (pc_steps c) + 1);
      Some (mkFragment false [position] [position], mkCompiler (pc_steps c ++ [step]) (pc_follow c ++ [[]]))
  | Sequence parts =>
      match parts with
      | [] => None
      | part :: parts =>
          '(result, c) ← analyze part c;
          (fix go parts result c :=
             match parts with
             | [] => Some (result, c)
             | part :: parts =>
                 '(next, c) ← analyze part c;
                 c ← link c (fr_last result) (fr_first next);
                 go parts (append_part result next) c
             end) parts result c
      end
  | Alternative arms =>
      (fix go arms result c :=
         match arms with
         | [] => Some (result, c)
         | arm :: arms =>
             '(fragment, c) ← analyze arm c;
             go arms (join_arm result fragment) c
         end) arms (mkFragment false [] []) c
  | Star body =>
      '(fragment, c) ← analyze body c;
      c ← link c (fr_last fragment) (fr_first fragment);
      Some (mkFragment true (fr_first fragment) (fr_last fragment), c)
  | Plus body =>
      '(fragment, c) ← analyze body c;
      c ← link c (fr_last fragment) (fr_first fragment);
      Some (fragment, c)
  | Optional body =>
      '(fragment, c) ← analyze body c;
      Some (mkFragment true (fr_first fragment) (fr_last fragment), c)
  end.

Definition step_of (c : PositionCompiler) (position : StateId) : res Step :=
  _ ← massert (1 <=? position);
  pc_steps c !! (position - 1).

(** The transitions into [targets]. *)
Definition transitions_to (c : PositionCompiler) (from : StateId) (targets : list StateId) : res (list Transition) :=
  mapM (λ to, step ← step_of c to; Some (mkTransition from to step)) targets.

(** The [expect]s on the state space and on the automaton. *)
Definition compile (self : PathExpr) : res Automaton :=
  '(fragment, c) ← analyze self (mkCompiler [] []);
  state_count ← to_u32 (length (pc_steps c) + 1);
  start ← transitions_to c 0 (fr_first fragment);
  rest ← mapM (λ p : nat * list StateId, transitions_to c (p.1 + 1) p.2) (imap pair (pc_follow c));
  let accepting := if nullable fragment then bts_insert Nat.compare 0 (fr_last fragment) else fr_last fragment in
  match automaton_new state_count [0] accepting (start ++ concat rest) with
  | inr automaton => Some automaton
  | inl _ => None
  end.
