(* ===== verification/PathLanguage.v ===== *)
(** * PathLanguage: the language of a path expression and of its automaton

    A word is a list of labelled edges with their direction.  Compilation keeps
    the language, inversion reverses it, and the builders are canonical. *)

From S2P Require Import Prelude Lex BTree PathExpr.

Open Scope nat_scope.

(** ** Orders *)

#[global] Instance nat_cmp_ok : CmpOk Nat.compare.
Proof.
  split.
  - intros x y. apply Nat.compare_eq_iff.
  - intros x y. apply Nat.compare_antisym.
  - intros x y z. rewrite !Nat.compare_lt_iff. lia.
Qed.

(** ** Languages *)

(** Whether the edge is followed in reverse, and its attribute. *)
Abbreviation Token := (bool * list N)%type (only parsing).
Abbreviation Language := (list Token → Prop) (only parsing).
Implicit Types (w : list (bool * list N)) (L : list (bool * list N) → Prop).

Definition step_lang (s : Step) (t : bool * list N) : Prop :=
  match s with
  | Forward a => t = (false, a)
  | Reverse a => t = (true, a)
  | ForwardExcept l => t.1 = false ∧ t.2 ∉ l
  | ReverseExcept l => t.1 = true ∧ t.2 ∉ l
  end.

Definition conc L L' : Language := λ w, ∃ w1 w2, w = w1 ++ w2 ∧ L w1 ∧ L' w2.

Inductive repeats L : Language :=
  | repeats_nil : repeats L []
  | repeats_app w1 w2 : L w1 → repeats L w2 → repeats L (w1 ++ w2).

Fixpoint lang (e : PathExpr) : Language :=
  match e with
  | Atom s => λ w, ∃ t, w = [t] ∧ step_lang s t
  | Sequence parts => foldr conc (λ w, w = []) (map lang parts)
  | Alternative arms => foldr (λ L L' w, L w ∨ L' w) (λ _, False) (map lang arms)
  | Star body => repeats (lang body)
  | Plus body => conc (lang body) (repeats (lang body))
  | Optional body => λ w, w = [] ∨ lang body w
  end.

(** Sequences of a canonical expression are not empty. *)
Fixpoint expr_ok (e : PathExpr) : Prop :=
  match e with
  | Atom _ => True
  | Sequence parts => parts ≠ [] ∧ foldr and True (map expr_ok parts)
  | Alternative arms => foldr and True (map expr_ok arms)
  | Star body | Plus body | Optional body => expr_ok body
  end.

(** The atomic occurrences. *)
Fixpoint atoms (e : PathExpr) : nat :=
  match e with
  | Atom _ => 1
  | Sequence es | Alternative es => foldr (λ n m, n + m) 0 (map atoms es)
  | Star body | Plus body | Optional body => atoms body
  end.

Lemma expr_ind' (P : PathExpr → Prop) :
  (∀ s, P (Atom s)) → (∀ es, Forall P es → P (Sequence es)) → (∀ es, Forall P es → P (Alternative es)) →
  (∀ e, P e → P (Star e)) → (∀ e, P e → P (Plus e)) → (∀ e, P e → P (Optional e)) → ∀ e, P e.
Proof.
  intros HA HS HL Hst Hpl Hop. fix IH 1. intros [s|es|es|e|e|e].
  - apply HA.
  - apply HS. induction es as [|e es IHes]; constructor; [apply IH|exact IHes].
  - apply HL. induction es as [|e es IHes]; constructor; [apply IH|exact IHes].
  - apply Hst, IH.
  - apply Hpl, IH.
  - apply Hop, IH.
Qed.

Lemma all_ok (es : list PathExpr) : foldr and True (map expr_ok es) ↔ Forall expr_ok es.
Proof. induction es as [|e es IH]; simpl; [by split|]. by rewrite IH, Forall_cons. Qed.

(** ** Walks *)

Section walks.
Context (lab : nat → Token → Prop).

(** From a position just consumed, along [F], consuming [w]. *)
Inductive walk (F : nat → nat → Prop) : nat → list Token → nat → Prop :=
  | walk_nil p : walk F p [] p
  | walk_cons p p' t w q : F p p' → lab p' t → walk F p' w q → walk F p (t :: w) q.

Definition enter (first : list nat) (F : nat → nat → Prop) w q : Prop :=
  ∃ t w' p, w = t :: w' ∧ p ∈ first ∧ lab p t ∧ walk F p w' q.

Definition accepts (f : Fragment) (F : nat → nat → Prop) : Language :=
  λ w, (w = [] ∧ nullable f = true) ∨ ∃ q, enter (fr_first f) F w q ∧ q ∈ fr_last f.

Lemma walk_app F p w q w' r : walk F p w q → walk F q w' r → walk F p (w ++ w') r.
Proof. induction 1; [done|]. intros. econstructor; eauto. Qed.

Lemma walk_mono (F G : nat → nat → Prop) p w q : (∀ x y, F x y → G x y) → walk F p w q → walk G p w q.
Proof. intros HFG. induction 1; econstructor; eauto. Qed.

(** A set closed under [F] is not left. *)
Lemma walk_closed F (A : nat → Prop) p w q : (∀ x y, A x → F x y → A y) → A p → walk F p w q → A q.
Proof. intros HA Hp Hw. induction Hw; eauto. Qed.

Lemma walk_local F G (A : nat → Prop) p w q : (∀ x y, A x → F x y → A y) → (∀ x y, A x → F x y → G x y) →
  A p → walk F p w q → walk G p w q.
Proof. intros HA HFG Hp Hw. induction Hw; econstructor; eauto. Qed.

Lemma enter_snoc first F w p t q : enter first F w p → F p q → lab q t → enter first F (w ++ [t]) q.
Proof.
  intros (t0 & w' & p0 & -> & Hp & Hl & Hw) HF Hq. exists t0, (w' ++ [t]), p0. split_and!; [done..|].
  eapply walk_app; [done|]. econstructor; [done..|constructor].
Qed.

(** A link from one part to the next. *)
Section link.
Context (F G : nat → nat → Prop) (A B : nat → Prop) (last first : list nat).
Context (HG : ∀ x y, G x y ↔ F x y ∨ x ∈ last ∧ y ∈ first).
Context (HA : ∀ x y, A x → F x y → A y) (HB : ∀ x y, B x → F x y → B y) (HAB : ∀ x, A x → B x → False).
Context (Hlast : ∀ x, x ∈ last → A x) (Hfirst : ∀ x, x ∈ first → B x).

Lemma right_walk p w q : B p → walk G p w q ↔ walk F p w q.
Proof.
  intros Hp. split; [|apply walk_mono; naive_solver]. apply (walk_local G F B); [| |done].
  - intros x y Hx [?|[Hl ?]]%HG; [eauto|]. by destruct (HAB x (Hlast x Hl)).
  - intros x y Hx [?|[Hl ?]]%HG; [done|]. by destruct (HAB x (Hlast x Hl)).
Qed.

Lemma left_walk p w q : A p → walk G p w q ↔
  walk F p w q ∨ ∃ w1 w2 r, w = w1 ++ w2 ∧ walk F p w1 r ∧ r ∈ last ∧ enter first F w2 q.
Proof.
  intros Hp. split.
  - intros Hw. induction Hw as [p|p p' t w q HGp Hl Hw IH]; [left; constructor|]. apply HG in HGp as [HF|[Hpl Hpf]].
    + destruct IH as [H|(w1 & w2 & r & -> & H1 & H2 & H3)]; [eauto|left; econstructor; eauto|].
      right. exists (t :: w1), w2, r. split_and!; [done|econstructor; eauto|done..].
    + right. exists [], (t :: w), p. split_and!; [done|constructor|done|]. exists t, w, p'. split_and!; [done..|].
      apply right_walk in Hw; [done|]. by apply Hfirst.
  - intros [H|(w1 & w2 & r & -> & H1 & H2 & (t & w' & p' & -> & Hp' & Hl & H3))]; [eapply walk_mono; [|done]; naive_solver|].
    eapply walk_app; [eapply walk_mono; [|done]; naive_solver|]. econstructor; [|done|].
    + apply HG. by right.
    + apply right_walk; [by apply Hfirst|done].
Qed.
End link.

(** A loop from the last to the first positions. *)
Section loop.
Context (F G : nat → nat → Prop) (last first : list nat) (HG : ∀ x y, G x y ↔ F x y ∨ x ∈ last ∧ y ∈ first).

Lemma loop_walk p w q : walk G p w q ↔
  walk F p w q ∨ ∃ w1 w2 r, w = w1 ++ w2 ∧ walk F p w1 r ∧ r ∈ last ∧ enter first G w2 q.
Proof.
  split.
  - intros Hw. induction Hw as [p|p p' t w q HGp Hl Hw IH]; [left; constructor|]. apply HG in HGp as [HF|[Hpl Hpf]].
    + destruct IH as [H|(w1 & w2 & r & -> & H1 & H2 & H3)]; [left; econstructor; eauto|].
      right. exists (t :: w1), w2, r. split_and!; [done|econstructor; eauto|done..].
    + right. exists [], (t :: w), p. split_and!; [done|constructor|done|]. by exists t, w, p'.
  - intros [H|(w1 & w2 & r & -> & H1 & H2 & (t & w' & p' & -> & Hp' & Hl & H3))]; [eapply walk_mono; [|done]; naive_solver|].
    eapply walk_app; [eapply walk_mono; [|done]; naive_solver|]. econstructor; [|done|done]. apply HG. by right.
Qed.

(** One round and then more. *)
Lemma loop_enter (w : list Token) : (∃ q, enter first G w q ∧ q ∈ last) ↔
  ∃ w1 w2, w = w1 ++ w2 ∧ (∃ q, enter first F w1 q ∧ q ∈ last) ∧ (w2 = [] ∨ ∃ q, enter first G w2 q ∧ q ∈ last).
Proof.
  split.
  - intros (q & (t & w' & p & -> & Hp & Hl & Hw) & Hq). apply loop_walk in Hw as [Hw|(w1 & w2 & r & -> & H1 & H2 & H3)].
    + exists (t :: w'), []. split_and!; [by rewrite app_nil_r|exists q; split; [by exists t, w', p|done]|by left].
    + exists (t :: w1), w2. split_and!; [done|exists r; split; [by exists t, w1, p|done]|right; by exists q].
  - intros (w1 & w2 & -> & (r & (t & w' & p & -> & Hp & Hl & Hw) & Hr) & [->|(q & H3 & Hq)]).
    + rewrite app_nil_r. exists r. split; [|done]. exists t, w', p. split_and!; [done..|]. apply loop_walk. by left.
    + exists q. split; [|done]. exists t, (w' ++ w2), p. split_and!; [done..|]. apply loop_walk. right. by exists w', w2, r.
Qed.
End loop.
End walks.

(** ** The compiler *)

Implicit Types (c : PositionCompiler) (f : Fragment).

Definition fol c (p q : nat) : Prop := 1 <= p ∧ ∃ row, pc_follow c !! (p - 1) = Some row ∧ q ∈ row.
Definition lab c (p : nat) (t : bool * list N) : Prop := 1 <= p ∧ ∃ s, pc_steps c !! (p - 1) = Some s ∧ step_lang s t.

Definition within (n m p : nat) : Prop := n < p <= m.

(** Positions [n+1] to [m] of [c] are a part with the language [L]. *)
Record piece c (n m : nat) f L : Prop := {
  pi_first p : p ∈ fr_first f → within n m p;
  pi_last p : p ∈ fr_last f → within n m p;
  pi_fol p q : within n m p → fol c p q → within n m q;
  pi_lang w : L w ↔ accepts (lab c) f (fol c) w;
}.

Record comp_ok c : Prop := { ck_follow : length (pc_follow c) = length (pc_steps c) }.

(** [c'] has [k] positions more, and what [c] has. *)
Record grows c c' (k : nat) : Prop := {
  gr_length : length (pc_steps c') = length (pc_steps c) + k;
  gr_steps i : i < length (pc_steps c) → pc_steps c' !! i = pc_steps c !! i;
  gr_follow i : i < length (pc_steps c) → pc_follow c' !! i = pc_follow c !! i;
}.

Lemma grows_trans c1 c2 c3 k l : grows c1 c2 k → grows c2 c3 l → grows c1 c3 (k + l).
Proof.
  intros [H1 H2 H3] [H4 H5 H6]. split; [lia|..]; intros i Hi; [rewrite H5, H2|rewrite H6, H3]; done || lia.
Qed.

(** The relations of a part that [c'] keeps. *)
Lemma piece_keep c c' n m f L :
  (∀ p, within n m p → pc_steps c' !! (p - 1) = pc_steps c !! (p - 1) ∧ pc_follow c' !! (p - 1) = pc_follow c !! (p - 1)) →
  piece c n m f L → piece c' n m f L.
Proof.
  intros Hk [H1 H2 H3 H4].
  assert (∀ p q, within n m p → fol c p q ↔ fol c' p q) as Hf by (intros p q Hp; unfold fol; by rewrite (proj2 (Hk p Hp))).
  assert (∀ p t, within n m p → lab c p t ↔ lab c' p t) as Hl by (intros p t Hp; unfold lab; by rewrite (proj1 (Hk p Hp))).
  assert (∀ p w q, within n m p → walk (lab c) (fol c) p w q ↔ walk (lab c') (fol c') p w q) as Hw.
  { intros p w q Hp. split; induction 1 as [|p p' t w q Hpp Ht _ IH]; [constructor| |constructor|].
    - assert (within n m p') by eauto. econstructor; [by apply Hf|by apply Hl|by apply IH].
    - assert (fol c p p') by (by apply Hf). assert (within n m p') by eauto. econstructor; [done|by apply Hl|by apply IH]. }
  split; [done|done| |].
  - intros p q Hp Hpq. apply (H3 p); [done|]. by apply Hf.
  - intros w. rewrite H4. unfold accepts, enter. split; (intros [?|(q & (t & w' & p & -> & Hp & Ht & Hwk) & Hq)]; [by left|]);
      right; exists q; (split; [|done]); exists t, w', p; (split_and!; [done..| |]); try (by apply Hl; auto); by apply Hw; auto.
Qed.

Lemma piece_grows c c' k n m f L : m <= length (pc_steps c) → grows c c' k → piece c n m f L → piece c' n m f L.
Proof. intros Hm [_ H1 H2]. apply piece_keep. intros p [? ?]. split; [apply H1|apply H2]; lia. Qed.

Lemma piece_lang c n m f L L' : (∀ w, L w ↔ L' w) → piece c n m f L → piece c n m f L'.
Proof. intros HL [H1 H2 H3 H4]. split; [done..|]. intros w. by rewrite <- HL. Qed.

Lemma elem_extend x l l' : x ∈ bts_extend Nat.compare l l' ↔ x ∈ l ∨ x ∈ l'.
Proof. apply elem_of_bts_extend. apply _. Qed.

(** ** Links *)

Lemma link_spec c from to : Forall (within 0 (length (pc_follow c))) from → ∃ c', link c from to = Some c' ∧
  pc_steps c' = pc_steps c ∧ length (pc_follow c') = length (pc_follow c) ∧
  (∀ p q, fol c' p q ↔ fol c p q ∨ p ∈ from ∧ q ∈ to) ∧
  ∀ i, S i ∉ from → pc_follow c' !! i = pc_follow c !! i.
Proof.
  unfold link, fol.
  assert (∀ fw, Forall (within 0 (length fw)) from → ∃ fw', foldM (link_row to) fw from = Some fw' ∧ length fw' = length fw ∧
    (∀ i row', fw' !! i = Some row' → ∃ row, fw !! i = Some row ∧ ∀ q, q ∈ row' ↔ q ∈ row ∨ S i ∈ from ∧ q ∈ to) ∧
    ∀ i, S i ∉ from → fw' !! i = fw !! i) as Hf.
  { induction from as [|p from IH]; intros fw Hfr; cbn [foldM].
    { exists fw. split_and!; [done..| |done]. intros i row Hi. exists row. split; [done|]. set_solver. }
    apply Forall_cons in Hfr as [Hp Hfr]. unfold within in Hp. destruct (lookup_lt_is_Some_2 fw (p - 1)) as [row0 Hrow]; [lia|].
    assert (link_row to fw p = Some (<[p - 1:=bts_extend Nat.compare row0 to]> fw)) as ->.
    { unfold link_row. rewrite (proj2 (Nat.leb_le 1 p)) by lia. cbn [massert mbind option_bind]. rewrite Hrow.
      apply arr_set_Some. lia. }
    cbn [mbind option_bind].
    destruct (IH (<[p - 1:=bts_extend Nat.compare row0 to]> fw)) as (fw' & -> & Hl & H1 & H2).
    { eapply Forall_impl; [done|]. intros x. by rewrite length_insert. }
    rewrite length_insert in Hl. exists fw'. split_and!; [done..| |].
    - intros i row' Hi. destruct (H1 i row' Hi) as (row & Hr & Hq). destruct (decide (i = p - 1)) as [->|Hne].
      + rewrite list_lookup_insert_eq in Hr by lia. injection Hr as <-. exists row0. split; [done|]. intros q.
        rewrite Hq, elem_extend, elem_of_cons. assert (S (p - 1) = p) as -> by lia. tauto.
      + rewrite list_lookup_insert_ne in Hr by done. exists row. split; [done|]. intros q. rewrite Hq, elem_of_cons.
        split; [tauto|]. intros [Hrow'|[[Hp'|Hp'] Hto]]; [tauto|lia|tauto].
    - intros i Hi. rewrite H2 by set_solver. apply list_lookup_insert_ne. intros E. apply Hi. assert (S i = p) as -> by lia. by left. }
  intros Hfr. destruct (Hf (pc_follow c) Hfr) as (fw' & -> & Hl & H1 & H2). cbn [mbind option_bind]. eexists. split; [done|].
  cbn [pc_steps pc_follow]. split_and!; [done..| |done]. intros p q. split.
  - intros [Hp (row' & Hr & Hq)]. destruct (H1 _ _ Hr) as (row & Hrow & Hiff). destruct (proj1 (Hiff q) Hq) as [Hq'|[Hin Hq']].
    + left. split; [done|]. by exists row.
    + right. replace (S (p - 1)) with p in Hin by lia. done.
  - intros Hpq. assert (1 <= p ∧ is_Some (pc_follow c !! (p - 1)) ∧ (∃ row, pc_follow c !! (p - 1) = Some row ∧ q ∈ row ∨ p ∈ from ∧ q ∈ to)) as (Hp & [row Hrow] & Hq).
    { destruct Hpq as [[Hp (row & Hr & Hq)]|[Hin Hq]]; [split_and!; [done|by eexists|exists row; by left]|].
      rewrite Forall_forall in Hfr. specialize (Hfr p Hin). unfold within in Hfr.
      split_and!; [lia|apply lookup_lt_is_Some_2; lia|exists []; by right]. }
    split; [done|]. destruct (lookup_lt_is_Some_2 fw' (p - 1)) as [row' Hr']; [rewrite Hl; by eapply lookup_lt_Some|].
    exists row'. split; [done|]. destruct (H1 _ _ Hr') as (row2 & E & Hiff). rewrite Hrow in E. injection E as <-. apply Hiff.
    replace (S (p - 1)) with p by lia. destruct Hq as (row3 & [[E Hq]|Hq]); [|by right]. rewrite Hrow in E. injection E as <-. by left.
Qed.

(** ** Composite parts *)

Lemma enter_mono lb (F G : nat → nat → Prop) first w q : (∀ x y, F x y → G x y) → enter lb first F w q → enter lb first G w q.
Proof. intros HFG (t & w' & p & -> & Hp & Hl & Hw). exists t, w', p. split_and!; [done..|]. by eapply walk_mono. Qed.

Lemma accepts_nil lb f F : accepts lb f F [] ↔ nullable f = true.
Proof. split; [by intros [[_ ?]|(q & (t & w' & p & [=] & _) & _)]|by left]. Qed.

Lemma enter_extend lb l l' F w q : enter lb (bts_extend Nat.compare l l') F w q ↔ enter lb l F w q ∨ enter lb l' F w q.
Proof. unfold enter. setoid_rewrite elem_extend. naive_solver. Qed.

Lemma piece_atom c s : comp_ok c →
  let c' := mkCompiler (pc_steps c ++ [s]) (pc_follow c ++ [[]]) in
  grows c c' 1 ∧ comp_ok c' ∧
  piece c' (length (pc_steps c)) (length (pc_steps c) + 1)
    (mkFragment false [length (pc_steps c) + 1] [length (pc_steps c) + 1]) (lang (Atom s)).
Proof.
  intros [Hc] c'. set (n := length (pc_steps c)). split_and!.
  - split; simpl; [by rewrite length_app|intros i Hi; by apply lookup_app_l|intros i Hi; apply lookup_app_l; lia].
  - split. simpl. by rewrite !length_app, Hc.
  - assert (∀ q, ¬ fol c' (n + 1) q) as Hno.
    { intros q [_ (row & Hr & Hq)]. simpl in Hr. replace (n + 1 - 1) with (length (pc_follow c)) in Hr by lia.
      rewrite list_lookup_middle in Hr by done. injection Hr as <-. by apply elem_of_nil in Hq. }
    assert (∀ t, lab c' (n + 1) t ↔ step_lang s t) as Hl.
    { intros t. unfold lab. simpl. replace (n + 1 - 1) with (length (pc_steps c)) by lia. rewrite list_lookup_middle by done.
      split; [by intros [_ (s' & [= <-] & ?)]|]. intros Ht. split; [lia|]. by exists s. }
    split; simpl.
    + intros p ->%list_elem_of_singleton. unfold within. lia.
    + intros p ->%list_elem_of_singleton. unfold within. lia.
    + intros p q [? ?] Hf. replace p with (n + 1) in Hf by lia. by apply Hno in Hf.
    + intros w. unfold accepts, enter. simpl. split.
      * intros (t & -> & Ht). right. exists (n + 1). split; [|by left]. exists t, [], (n + 1). split_and!; [done|by left|by apply Hl|constructor].
      * intros [[_ [=]]|(q & (t & w' & p & -> & ->%list_elem_of_singleton & Ht & Hw) & _)]. exists t. apply Hl in Ht. split; [|done].
        inversion Hw; subst; [done|]. exfalso. eapply Hno. done.
Qed.

Lemma piece_seq c c' n m k f1 f2 L1 L2 : n <= m <= k → piece c n m f1 L1 → piece c m k f2 L2 → pc_steps c' = pc_steps c →
  (∀ p q, fol c' p q ↔ fol c p q ∨ p ∈ fr_last f1 ∧ q ∈ fr_first f2) → piece c' n k (append_part f1 f2) (conc L1 L2).
Proof.
  intros Hnk [A1 A2 A3 A4] [B1 B2 B3 B4] Hs HG.
  assert (lab c' = lab c) as El by (unfold lab; by rewrite Hs).
  pose proof (right_walk (lab c) (fol c) (fol c') (within n m) (within m k) (fr_last f1) (fr_first f2) HG B3) as Hright.
  pose proof (left_walk (lab c) (fol c) (fol c') (within n m) (within m k) (fr_last f1) (fr_first f2) HG A3 B3) as Hleft.
  assert (∀ x, within n m x → within m k x → False) as Hdis by (unfold within; lia).
  specialize (Hright Hdis A2). specialize (Hleft Hdis A2 B1).
  assert (∀ p w q, within m k p → walk (lab c) (fol c) p w q → within m k q) as Bc.
  { intros p w q Hp. apply (walk_closed (lab c) (fol c) (within m k)); [|done]. apply B3. }
  assert (∀ p w q, within n m p → walk (lab c) (fol c) p w q → within n m q) as Ac.
  { intros p w q Hp. apply (walk_closed (lab c) (fol c) (within n m)); [|done]. apply A3. }
  assert (∀ w q, enter (lab c) (fr_first f2) (fol c') w q ↔ enter (lab c) (fr_first f2) (fol c) w q) as He2.
  { intros w q. unfold enter. split; intros (t & w' & p & -> & Hp & Ht & Hw); exists t, w', p; (split_and!; [done..|]);
      (apply Hright; [by apply B1|done]) || (apply Hright in Hw; [done|by apply B1]). }
  assert (∀ w q, enter (lab c) (fr_first f1) (fol c') w q ↔ enter (lab c) (fr_first f1) (fol c) w q ∨
    ∃ w1 w2 r, w = w1 ++ w2 ∧ enter (lab c) (fr_first f1) (fol c) w1 r ∧ r ∈ fr_last f1 ∧ enter (lab c) (fr_first f2) (fol c) w2 q) as He1.
  { intros w q. unfold enter at 1. split.
    - intros (t & w' & p & -> & Hp & Ht & [Hw|(w1 & w2 & r & -> & H1 & H2 & H3)]%Hleft); [|right|by apply A1].
      + left. by exists t, w', p.
      + exists (t :: w1), w2, r. split_and!; [done|by exists t, w1, p|done..].
    - intros [(t & w' & p & -> & Hp & Ht & Hw)|(w1 & w2 & r & -> & (t & w' & p & -> & Hp & Ht & Hw) & Hr & H2)].
      + exists t, w', p. split_and!; [done..|]. apply Hleft; [by apply A1|]. by left.
      + exists t, (w' ++ w2), p. split_and!; [done..|]. apply Hleft; [by apply A1|]. right. by exists w', w2, r. }
  assert (∀ q w, enter (lab c) (fr_first f1) (fol c) w q → within n m q) as Ea.
  { intros q w (t & w' & p & -> & Hp & _ & Hw). eapply Ac; [|done]. by apply A1. }
  assert (∀ q w, enter (lab c) (fr_first f2) (fol c) w q → within m k q) as Eb.
  { intros q w (t & w' & p & -> & Hp & _ & Hw). eapply Bc; [|done]. by apply B1. }
  assert (∀ p, within n m p → within n k p) as Wl by (unfold within; lia).
  assert (∀ p, within m k p → within n k p) as Wr by (unfold within; lia).
  split.
  - intros p. unfold append_part. simpl. destruct (nullable f1); rewrite ?elem_extend; naive_solver.
  - intros p. unfold append_part. simpl. destruct (nullable f2); rewrite ?elem_extend; naive_solver.
  - intros p q Hp [Hf|[Hp' Hq]]%HG; [|by apply Wr, B1]. destruct (decide (p <= m)).
    + apply Wl. eapply A3; [|done]. unfold within in *. lia.
    + apply Wr. eapply B3; [|done]. unfold within in *. lia.
  - intros w. rewrite El. unfold conc. setoid_rewrite A4. setoid_rewrite B4. unfold accepts at 3, append_part. simpl.
    assert (∀ q, enter (lab c) (if nullable f1 then bts_extend Nat.compare (fr_first f1) (fr_first f2) else fr_first f1) (fol c') w q ↔
      enter (lab c) (fr_first f1) (fol c') w q ∨ nullable f1 = true ∧ enter (lab c) (fr_first f2) (fol c') w q) as Hen.
    { intros q. destruct (nullable f1); rewrite ?enter_extend; naive_solver. }
    setoid_rewrite Hen. setoid_rewrite He1. setoid_rewrite He2.
    assert (∀ q, q ∈ (if nullable f2 then bts_extend Nat.compare (fr_last f2) (fr_last f1) else fr_last f2) ↔
      q ∈ fr_last f2 ∨ nullable f2 = true ∧ q ∈ fr_last f1) as Hla by (intros q; destruct (nullable f2); rewrite ?elem_extend; naive_solver).
    setoid_rewrite Hla. clear Hen Hla. split.
    + intros (w1 & w2 & -> & [[-> N1]|(q1 & E1 & L1')] & [[-> N2]|(q2 & E2 & L2')]).
      * left. by rewrite N1, N2.
      * right. exists q2. simpl. naive_solver.
      * right. exists q1. rewrite app_nil_r. naive_solver.
      * right. exists q2. split; [left; right; by exists w1, w2, q1|by left].
    + intros [[-> [N1 N2]%andb_true_iff]|(q & [[E|(w1 & w2 & r & -> & E1 & Hr & E2)]|[N1 E]] & [Hq|[N2 Hq]])].
      * exists [], []. split_and!; [done|by left|by left].
      * exfalso. apply (Hdis q); [by eapply Ea|by apply B2].
      * exists w, []. split_and!; [by rewrite app_nil_r|right; by exists q|by left].
      * exists w1, w2. split_and!; [done|right; by exists r|right; by exists q].
      * exfalso. apply (Hdis q); [by apply A2|by eapply Eb].
      * exists [], w. split_and!; [done|by left|right; by exists q].
      * exfalso. apply (Hdis q); [by apply A2|by eapply Eb].
Qed.

Lemma piece_alt c n m k f1 f2 L1 L2 : n <= m <= k → piece c n m f1 L1 → piece c m k f2 L2 →
  piece c n k (join_arm f1 f2) (λ w, L1 w ∨ L2 w).
Proof.
  intros Hnk [A1 A2 A3 A4] [B1 B2 B3 B4].
  assert (∀ p, within n m p → within n k p) as Wl by (unfold within; lia).
  assert (∀ p, within m k p → within n k p) as Wr by (unfold within; lia).
  assert (∀ q w, enter (lab c) (fr_first f1) (fol c) w q → within n m q) as Ea.
  { intros q w (t & w' & p & -> & Hp & _ & Hw). eapply (walk_closed (lab c) (fol c) (within n m)); [|by apply A1|done]. apply A3. }
  assert (∀ q w, enter (lab c) (fr_first f2) (fol c) w q → within m k q) as Eb.
  { intros q w (t & w' & p & -> & Hp & _ & Hw). eapply (walk_closed (lab c) (fol c) (within m k)); [|by apply B1|done]. apply B3. }
  assert (∀ x, within n m x → within m k x → False) as Hdis by (unfold within; lia).
  split.
  - intros p [?|?]%elem_extend; auto.
  - intros p [?|?]%elem_extend; auto.
  - intros p q Hp Hf. destruct (decide (p <= m)).
    + apply Wl. eapply A3; [|done]. unfold within in *. lia.
    + apply Wr. eapply B3; [|done]. unfold within in *. lia.
  - intros w. rewrite A4, B4. unfold accepts, join_arm. simpl. setoid_rewrite enter_extend. setoid_rewrite elem_extend.
    rewrite orb_true_iff. split; [naive_solver|].
    intros [[-> [?|?]]|(q & [E|E] & [Hq|Hq])]; [naive_solver..| | |naive_solver].
    + exfalso. eapply Hdis; [by eapply Ea|by apply B2].
    + exfalso. eapply Hdis; [by apply A2|by eapply Eb].
Qed.

Lemma repeats_lang L L' w : (∀ w, L w ↔ L' w) → repeats L w ↔ repeats L' w.
Proof. intros HL. split; induction 1; constructor; naive_solver. Qed.

Lemma conc_lang L1 L1' L2 L2' : (∀ w, L1 w ↔ L1' w) → (∀ w, L2 w ↔ L2' w) → ∀ w, conc L1 L2 w ↔ conc L1' L2' w.
Proof. intros H1 H2 w. unfold conc. setoid_rewrite H1. by setoid_rewrite H2. Qed.

(** Empty rounds contribute nothing. *)
Lemma repeats_nonempty L w : repeats L w ↔ repeats (λ w, w ≠ [] ∧ L w) w.
Proof.
  split.
  - induction 1 as [|w1 w2 H1 _ IH]; [constructor|]. destruct w1 as [|t w1]; [done|]. by constructor.
  - induction 1 as [|w1 w2 [_ H1] _ IH]; by constructor.
Qed.

Lemma piece_loop c c' n m f L : piece c n m f L → pc_steps c' = pc_steps c →
  (∀ p q, fol c' p q ↔ fol c p q ∨ p ∈ fr_last f ∧ q ∈ fr_first f) → piece c' n m f (conc L (repeats L)).
Proof.
  intros [A1 A2 A3 A4] Hs HG. assert (lab c' = lab c) as El by (unfold lab; by rewrite Hs).
  split; [done..| |].
  - intros p q Hp [Hf|[_ Hq]]%HG; [by eapply A3|by apply A1].
  - assert (∀ w, (∃ q, enter (lab c) (fr_first f) (fol c') w q ∧ q ∈ fr_last f) ↔
      conc (λ w, w ≠ [] ∧ L w) (repeats (λ w, w ≠ [] ∧ L w)) w) as Hrun.
    { assert (∀ w, w ≠ [] ∧ L w ↔ ∃ q, enter (lab c) (fr_first f) (fol c) w q ∧ q ∈ fr_last f) as HL.
      { intros w. rewrite A4. unfold accepts. split; [intros [? [[? _]|?]]; done|].
        intros H. split; [|by right]. by destruct H as (q & (t & w' & p & -> & _) & _). }
      intros w. split.
      - intros H. remember (length w) as k eqn:Hk. revert w Hk H. induction (lt_wf k) as [k _ IH]. intros w -> H.
        apply (loop_enter (lab c) (fol c) (fol c') (fr_last f) (fr_first f) HG) in H as (w1 & w2 & -> & [Hne H1]%HL & H2).
        exists w1, w2. split_and!; [done|done|done|]. destruct H2 as [->|H2]; [constructor|].
        destruct (IH (length w2)) with w2 as (w3 & w4 & -> & H3 & H4); [|done|done|by constructor].
        rewrite length_app. destruct w1; [done|simpl; lia].
      - intros (w1 & w2 & -> & H1 & H2). revert w1 H1.
        induction H2 as [|w2 w3 H2 _ IH]; intros w1 H1; apply (loop_enter (lab c) (fol c) (fol c') (fr_last f) (fr_first f) HG).
        + exists w1, []. split_and!; [done|by apply HL|by left].
        + exists w1, (w2 ++ w3). split_and!; [done|by apply HL|right; by apply IH]. }
    intros w. rewrite El. unfold accepts. rewrite Hrun. split.
    + intros (w1 & w2 & -> & H1 & H2). destruct w1 as [|t w1].
      * simpl. apply (proj1 (repeats_nonempty L w2)) in H2. destruct H2 as [|w3 w4 H3 H4]; [left; split; [done|]|right; by exists w3, w4].
        by apply A4, accepts_nil in H1.
      * right. exists (t :: w1), w2. split; [done|]. split; [by split|]. by apply (proj1 (repeats_nonempty L w2)).
    + intros [[-> N]|(w1 & w2 & -> & [Hne H1] & H2)].
      * exists [], []. split_and!; [done|apply A4; by left|constructor].
      * exists w1, w2. split_and!; [done..|by apply (proj2 (repeats_nonempty L w2))].
Qed.

Lemma piece_null c n m f L : piece c n m f L → piece c n m (mkFragment true (fr_first f) (fr_last f)) (λ w, w = [] ∨ L w).
Proof.
  intros [A1 A2 A3 A4]. split; [done..|]. intros w. rewrite A4. unfold accepts. simpl. naive_solver.
Qed.

(** ** The analysis *)

(** What analysing an expression with [k] positions gives. *)
Definition analyzed c (k : nat) (o : res (Fragment * PositionCompiler)) (nl : bool) L : Prop :=
  ∃ f c', o = Some (f, c') ∧ grows c c' k ∧ comp_ok c' ∧
    piece c' (length (pc_steps c)) (length (pc_steps c) + k) f L ∧ nullable f = nl.

Lemma link_piece c f n m L : comp_ok c → piece c n m f L → m <= length (pc_steps c) → ∀ to, ∃ c', link c (fr_last f) to = Some c' ∧
  pc_steps c' = pc_steps c ∧ comp_ok c' ∧ (∀ p q, fol c' p q ↔ fol c p q ∨ p ∈ fr_last f ∧ q ∈ to) ∧
  ∀ i, i < n → pc_follow c' !! i = pc_follow c !! i.
Proof.
  intros Hc Hp Hm to. destruct (link_spec c (fr_last f) to) as (c' & -> & H1 & H2 & H3 & H4).
  - apply Forall_forall. intros p Hin. apply (pi_last _ _ _ _ _ Hp) in Hin. rewrite (ck_follow c Hc). unfold within in *. lia.
  - exists c'. split_and!; [done|done|split; rewrite H2, H1; apply Hc|done|]. intros i Hi. apply H4.
    intros Hin%(pi_last _ _ _ _ _ Hp). unfold within in Hin. lia.
Qed.

(** Nothing before a link changes. *)
Lemma grows_link c0 c c' k : grows c0 c k → pc_steps c' = pc_steps c →
  (∀ i, i < length (pc_steps c0) → pc_follow c' !! i = pc_follow c !! i) → grows c0 c' k.
Proof. intros [H1 H2 H3] Hs Hf. split; rewrite ?Hs; [done..|]. intros i Hi. rewrite Hf by done. by apply H3. Qed.

Lemma sum_cons (e : PathExpr) es : foldr (λ n m, n + m) 0 (map atoms (e :: es)) = atoms e + foldr (λ n m, n + m) 0 (map atoms es).
Proof. done. Qed.

Definition spec_of (e : PathExpr) : Prop := ∀ c, comp_ok c → expr_ok e → (N.of_nat (length (pc_steps c) + atoms e) <= u32_max)%N →
  analyzed c (atoms e) (analyze e c) (is_nullable e) (lang e).

(** The rest of a sequence, from the fragment of its parts so far. *)
Lemma seq_spec es : Forall spec_of es → Forall expr_ok es → ∀ c0 c f k L,
  comp_ok c0 → grows c0 c k → comp_ok c → piece c (length (pc_steps c0)) (length (pc_steps c0) + k) f L →
  let total := k + foldr (λ n m, n + m) 0 (map atoms es) in
  (N.of_nat (length (pc_steps c0) + total) <= u32_max)%N →
  analyzed c0 total
    ((fix go parts result c :=
       match parts with
       | [] => Some (result, c)
       | part :: parts =>
           '(next, c) ← analyze part c;
           c ← link c (fr_last result) (fr_first next);
           go parts (append_part result next) c
       end) es f c)
    (nullable f && forallb is_nullable es) (conc L (foldr conc (λ w, w = []) (map lang es))).
Proof.
  intros Hes Hok. induction Hes as [|e es He _ IH]; intros c0 c f k L Hc0 Hg Hc Hp total Hn.
  - exists f, c. unfold total. simpl. rewrite Nat.add_0_r, andb_true_r. split_and!; [done..| |done].
    eapply piece_lang; [|done]. intros w. unfold conc. split.
    + intros H. exists w, []. by rewrite app_nil_r.
    + intros (w1 & w2 & -> & H & ->). by rewrite app_nil_r.
  - apply Forall_cons in Hok as [Hoke Hok]. specialize (IH Hok). unfold total in *. rewrite sum_cons in *.
    pose proof (gr_length _ _ _ Hg) as Hlen. destruct (He c Hc Hoke) as (f2 & c2 & E2 & G2 & K2 & P2 & N2); [rewrite Hlen; lia|].
    cbn [foldr map forallb]. rewrite E2. cbn [mbind option_bind].
    assert (piece c2 (length (pc_steps c0)) (length (pc_steps c0) + k) f L) as Hp2.
    { eapply piece_grows; [|done|done]. lia. }
    pose proof (gr_length _ _ _ G2) as Hlen2.
    destruct (link_piece c2 f _ _ L K2 Hp2) with (fr_first f2) as (c3 & -> & S3 & K3 & F3 & Old3); [lia|]. cbn [mbind option_bind].
    assert (piece c3 (length (pc_steps c0)) (length (pc_steps c0) + (k + atoms e)) (append_part f f2) (conc L (lang e))) as P3.
    { rewrite Hlen in P2. replace (length (pc_steps c0) + (k + atoms e)) with (length (pc_steps c0) + k + atoms e) by lia.
      apply (piece_seq c2 c3 _ (length (pc_steps c0) + k)); [lia|done..]. }
    destruct (IH c0 c3 (append_part f f2) (k + atoms e) (conc L (lang e))) as (f4 & c4 & E4 & G4 & K4 & P4 & N4); [done| |done|done|lia|].
    { eapply grows_link; [by eapply grows_trans|done|done]. }
    exists f4, c4. rewrite Nat.add_assoc. split_and!; [exact E4|done|done| |rewrite N4; simpl; by rewrite N2, andb_assoc].
    eapply piece_lang; [|done]. intros w. unfold conc. split.
    + intros (w1 & w2 & -> & (w3 & w4 & -> & H3 & H4) & H2). exists w3, (w4 ++ w2). rewrite app_assoc. naive_solver.
    + intros (w1 & w2 & -> & H1 & (w3 & w4 & -> & H3 & H4)). exists (w1 ++ w3), w4. rewrite app_assoc. naive_solver.
Qed.

Lemma alt_spec es : Forall spec_of es → Forall expr_ok es → ∀ c0 c f k L,
  comp_ok c0 → grows c0 c k → comp_ok c → piece c (length (pc_steps c0)) (length (pc_steps c0) + k) f L →
  let total := k + foldr (λ n m, n + m) 0 (map atoms es) in
  (N.of_nat (length (pc_steps c0) + total) <= u32_max)%N →
  analyzed c0 total
    ((fix go arms result c :=
       match arms with
       | [] => Some (result, c)
       | arm :: arms => '(fragment, c) ← analyze arm c; go arms (join_arm result fragment) c
       end) es f c)
    (nullable f || existsb is_nullable es) (λ w, L w ∨ foldr (λ L L' w, L w ∨ L' w) (λ _, False) (map lang es) w).
Proof.
  intros Hes Hok. induction Hes as [|e es He _ IH]; intros c0 c f k L Hc0 Hg Hc Hp total Hn.
  - exists f, c. unfold total. simpl. rewrite Nat.add_0_r, orb_false_r. split_and!; [done..| |done].
    eapply piece_lang; [|done]. simpl. tauto.
  - apply Forall_cons in Hok as [Hoke Hok]. specialize (IH Hok). unfold total in *. rewrite sum_cons in *.
    pose proof (gr_length _ _ _ Hg) as Hlen. destruct (He c Hc Hoke) as (f2 & c2 & E2 & G2 & K2 & P2 & N2); [rewrite Hlen; lia|].
    cbn [foldr map existsb]. rewrite E2. cbn [mbind option_bind].
    assert (piece c2 (length (pc_steps c0)) (length (pc_steps c0) + k) f L) as Hp2.
    { eapply piece_grows; [|done|done]. lia. }
    assert (piece c2 (length (pc_steps c0)) (length (pc_steps c0) + (k + atoms e)) (join_arm f f2) (λ w, L w ∨ lang e w)) as P3.
    { rewrite Hlen in P2. replace (length (pc_steps c0) + (k + atoms e)) with (length (pc_steps c0) + k + atoms e) by lia.
      apply (piece_alt c2 _ (length (pc_steps c0) + k)); [lia|done..]. }
    destruct (IH c0 c2 (join_arm f f2) (k + atoms e) (λ w, L w ∨ lang e w)) as (f4 & c4 & E4 & G4 & K4 & P4 & N4);
      [done|by eapply grows_trans|done|done|lia|].
    exists f4, c4. rewrite Nat.add_assoc. split_and!; [exact E4|done|done| |rewrite N4; simpl; by rewrite N2, orb_assoc].
    eapply piece_lang; [|done]. simpl. tauto.
Qed.

Lemma piece_empty c n L : (∀ w, ¬ L w) → piece c n n (mkFragment false [] []) L.
Proof.
  intros HL. split; simpl.
  - by intros p ?%elem_of_nil.
  - by intros p ?%elem_of_nil.
  - unfold within. lia.
  - intros w. split; [by intros ?%HL|]. by intros [[_ ?]|(q & _ & ?%elem_of_nil)].
Qed.

Lemma grows_refl c : grows c c 0.
Proof. split; [lia|done..]. Qed.

Lemma repeats_unfold L w : repeats L w ↔ w = [] ∨ conc L (repeats L) w.
Proof.
  split.
  - destruct 1 as [|w1 w2 H1 H2]; [by left|]. right. by exists w1, w2.
  - intros [->|(w1 & w2 & -> & H1 & H2)]; by constructor.
Qed.

(** A body that loops. *)
Lemma compile_loop_spec e c : spec_of e → comp_ok c → expr_ok e → (N.of_nat (length (pc_steps c) + atoms e) <= u32_max)%N →
  ∃ f c1 c2, analyze e c = Some (f, c1) ∧ link c1 (fr_last f) (fr_first f) = Some c2 ∧ grows c c2 (atoms e) ∧ comp_ok c2 ∧
    piece c2 (length (pc_steps c)) (length (pc_steps c) + atoms e) f (conc (lang e) (repeats (lang e))) ∧ nullable f = is_nullable e.
Proof.
  intros He Hc Hok Hn. destruct (He c Hc Hok Hn) as (f & c1 & E & G & K & P & N). pose proof (gr_length _ _ _ G) as Hlen.
  destruct (link_piece c1 f _ _ _ K P) with (fr_first f) as (c2 & E2 & S2 & K2 & F2 & Old); [lia|].
  exists f, c1, c2. split_and!; [done|done|by eapply grows_link|done|by eapply piece_loop|done].
Qed.

Lemma analyze_spec e : spec_of e.
Proof.
  induction e as [s|es IH|es IH|e IH|e IH|e IH] using expr_ind'; intros c Hc Hok Hn.
  - cbn [analyze atoms] in *. unfold to_u32. rewrite (proj2 (N.leb_le _ _)) by done. cbn [mbind option_bind].
    destruct (piece_atom c s Hc) as (G & K & P). eexists _, _. by split_and!.
  - destruct Hok as [Hne Hall%all_ok]. destruct es as [|e es]; [done|]. apply Forall_cons in IH as [IHe IH].
    apply Forall_cons in Hall as [Hoke Hall]. cbn [analyze atoms] in *. rewrite sum_cons in *.
    destruct (IHe c Hc Hoke) as (f & c1 & -> & G & K & P & N); [lia|]. cbn [mbind option_bind].
    destruct (seq_spec es IH Hall c c1 f (atoms e) (lang e) Hc G K P) as (f2 & c2 & E2 & G2 & K2 & P2 & N2); [lia|].
    exists f2, c2. split_and!; [exact E2|done..|]. by rewrite N2, N.
  - apply all_ok in Hok. cbn [analyze atoms] in *.
    destruct (alt_spec es IH Hok c c (mkFragment false [] []) 0 (λ _, False) Hc (grows_refl c) Hc) as (f2 & c2 & E2 & G2 & K2 & P2 & N2).
    + rewrite Nat.add_0_r. apply piece_empty. by intros w [].
    + simpl. lia.
    + exists f2, c2. split_and!; [exact E2|done..| |done]. eapply piece_lang; [|done]. simpl. tauto.
  - cbn [analyze atoms] in *. destruct (compile_loop_spec e c IH Hc Hok Hn) as (f & c1 & c2 & -> & E2 & G & K & P & N).
    cbn [mbind option_bind]. rewrite E2. cbn [mbind option_bind]. eexists _, _. split_and!; [done|done|done| |done].
    eapply piece_lang; [|by apply piece_null]. intros w. by rewrite <- repeats_unfold.
  - cbn [analyze atoms] in *. destruct (compile_loop_spec e c IH Hc Hok Hn) as (f & c1 & c2 & -> & E2 & G & K & P & N).
    cbn [mbind option_bind]. rewrite E2. cbn [mbind option_bind]. eexists _, _. by split_and!.
  - cbn [analyze atoms] in *. destruct (IH c Hc Hok Hn) as (f & c1 & -> & G & K & P & N). cbn [mbind option_bind].
    eexists _, _. split_and!; [done|done|done|by apply piece_null|done].
Qed.
