(* ===== verification/PathCompile.v ===== *)
(** * PathCompile: the automaton of a path expression

    Sorting, binary search and the validation of an automaton; then that
    compilation yields an automaton of the expression's language. *)

From S2P Require Import Prelude Lex BTree PathExpr PathLanguage.

Open Scope nat_scope.

(** ** Orders of vectors *)

(** Lists whose elements [cmp] orders, one of them in an induction. *)
Section lists.
Context {A : Type} (cmp : A → A → comparison).
Implicit Types (l : list A).

Lemma list_cmp_eq l l' : Forall (λ x, ∀ y, cmp x y = Eq ↔ x = y) l → list_cmp cmp l l' = Eq ↔ l = l'.
Proof.
  intros Hl. revert l'. induction Hl as [|x l Hx _ IH]; intros [|y l']; simpl; [done..|]. specialize (Hx y).
  destruct (cmp x y); [rewrite IH; naive_solver|..]; (split; [done|]; intros [= -> ->]; by destruct Hx as [_ <-]).
Qed.

Lemma list_cmp_swap l l' : Forall (λ x, ∀ y, cmp y x = CompOpp (cmp x y)) l → list_cmp cmp l' l = CompOpp (list_cmp cmp l l').
Proof.
  intros Hl. revert l'. induction Hl as [|x l Hx _ IH]; intros [|y l']; simpl; [done..|]. rewrite (Hx y).
  destruct (cmp x y); simpl; [apply IH|done..].
Qed.

Lemma list_cmp_trans l l' l'' : Forall (λ x, (∀ y, cmp x y = Eq ↔ x = y) ∧ ∀ y z, cmp x y = Lt → cmp y z = Lt → cmp x z = Lt) l →
  Forall (λ y, ∀ z, cmp y z = Eq ↔ y = z) l' → list_cmp cmp l l' = Lt → list_cmp cmp l' l'' = Lt → list_cmp cmp l l'' = Lt.
Proof.
  intros Hl. revert l' l''. induction Hl as [|x l [Hx Ht] _ IH]; intros [|y l'] [|z l''] Hl'; simpl; try done.
  apply Forall_cons in Hl' as [Hy Hl']. destruct (cmp x y) eqn:E1; [apply Hx in E1 as <-| |done].
  - destruct (cmp x z); [by apply IH|done..].
  - intros _. destruct (cmp y z) eqn:E2; [apply Hy in E2 as <-; by rewrite E1| |done]. by rewrite (Ht y z).
Qed.
End lists.

#[global] Instance list_cmp_ok {A} (cmp : A → A → comparison) : CmpOk cmp → CmpOk (list_cmp cmp).
Proof.
  intros Hc. split.
  - intros l l'. apply list_cmp_eq, Forall_true. intros x y. apply (cmp_eq cmp).
  - intros l l'. apply list_cmp_swap, Forall_true. intros x y. apply (cmp_swap cmp).
  - intros l l' l''. apply list_cmp_trans; apply Forall_true.
    + intros x. split; [apply (cmp_eq cmp)|apply (cmp_trans cmp)].
    + intros x. apply (cmp_eq cmp).
Qed.

(** An order by a key. *)
Lemma cmp_by {A B} (f : A → B) (cmp : B → B → comparison) (cmp' : A → A → comparison) :
  CmpOk cmp → (∀ x y, f x = f y → x = y) → (∀ x y, cmp' x y = cmp (f x) (f y)) → CmpOk cmp'.
Proof.
  intros Hc Hinj He. split.
  - intros x y. rewrite He, (cmp_eq cmp). split; [apply Hinj|congruence].
  - intros x y. rewrite !He. apply (cmp_swap cmp).
  - intros x y z. rewrite !He. apply (cmp_trans cmp).
Qed.

Definition step_key (s : Step) : nat * list (list N) :=
  (step_tag s, match s with Forward a | Reverse a => [a] | ForwardExcept l | ReverseExcept l => l end).

Lemma list_cmp_one (x y : list N) : list_cmp lex_cmp [x] [y] = lex_cmp x y.
Proof. simpl. by destruct (lex_cmp x y). Qed.

#[global] Instance cmp_steps_ok : CmpOk cmp_steps.
Proof.
  apply (cmp_by step_key (pair_cmp Nat.compare (list_cmp lex_cmp))); [apply _| |].
  - intros [x|x|x|x] [y|y|y|y]; unfold step_key; simpl; congruence.
  - intros [x|x|x|x] [y|y|y|y]; unfold cmp_steps, pair_cmp, step_key; simpl; try done; by destruct (lex_cmp x y).
Qed.

#[global] Instance transition_cmp_ok : CmpOk transition_cmp.
Proof.
  apply (cmp_by (λ t, (tr_from t, (tr_to t, tr_step t))) (pair_cmp Nat.compare (pair_cmp Nat.compare cmp_steps))); [apply _| |done].
  intros [x1 x2 x3] [y1 y2 y3]. simpl. congruence.
Qed.

(** ** Sorting *)

Section sort.
Context {A : Type} (cmp : A → A → comparison) `{!CmpOk cmp}.
Implicit Types (l : list A) (x y : A).

Abbreviation sorted := (Sorted.StronglySorted (λ x y, cmp x y ≠ Gt)).

Lemma path_insert_perm x l : sort_insert cmp x l ≡ₚ x :: l.
Proof. induction l as [|y l IH]; simpl; [done|]. destruct (cmp x y); [done..|]. rewrite IH. constructor. Qed.

Lemma path_insert_sorted x l : sorted l → sorted (sort_insert cmp x l).
Proof.
  induction 1 as [|y l Hl IH Hy]; simpl; [by repeat constructor|].
  assert (cmp x y ≠ Gt → sorted (x :: y :: l)) as Hle.
  { intros Hxy. constructor; [by constructor|]. constructor; [done|]. eapply Forall_impl; [done|]. intros z. by apply (cmp_le_trans cmp). }
  destruct (cmp x y) eqn:E; [by apply Hle..|]. constructor; [done|]. rewrite path_insert_perm. constructor; [|done].
  apply (cmp_gt cmp) in E. congruence.
Qed.

Lemma sort_unstable_perm l : sort_unstable cmp l ≡ₚ l.
Proof. induction l as [|x l IH]; simpl; [done|]. by rewrite path_insert_perm, IH. Qed.

Lemma sort_unstable_sorted l : sorted (sort_unstable cmp l).
Proof. induction l as [|x l IH]; simpl; [constructor|]. by apply path_insert_sorted. Qed.

Lemma vec_dedup_spec l : sorted l →
  ascending cmp (vec_dedup (λ x y, is_eq (cmp x y)) l) ∧ ∀ x, x ∈ vec_dedup (λ x y, is_eq (cmp x y)) l ↔ x ∈ l.
Proof.
  induction 1 as [|x l Hl [IHs IH] Hx]; [split; [constructor|done]|]. destruct l as [|y l]; [split; [by repeat constructor|done]|].
  change (vec_dedup _ (x :: y :: l)) with
    (if is_eq (cmp x y) then vec_dedup (λ x y, is_eq (cmp x y)) (y :: l) else x :: vec_dedup (λ x y, is_eq (cmp x y)) (y :: l)).
  destruct (cmp x y) eqn:E; cbn [is_eq].
  - apply (cmp_eq cmp) in E as ->. split; [done|]. intros z. rewrite IH, !elem_of_cons. tauto.
  - split; [|intros z; rewrite elem_of_cons, IH, !elem_of_cons; tauto]. constructor; [done|]. apply Forall_forall.
    intros z Hz%IH. apply elem_of_cons in Hz as [->|Hz]; [done|]. apply Sorted.StronglySorted_inv in Hl as [_ Hl].
    rewrite Forall_forall in Hl. specialize (Hl z Hz). destruct (cmp y z) eqn:Eyz; [apply (cmp_eq cmp) in Eyz as <-; done| |done].
    by apply (cmp_trans cmp) with y.
  - apply Forall_cons in Hx as [Hx _]. congruence.
Qed.

Lemma sort_dedup_spec l : ascending cmp (sort_dedup cmp l) ∧ ∀ x, x ∈ sort_dedup cmp l ↔ x ∈ l.
Proof.
  destruct (vec_dedup_spec _ (sort_unstable_sorted l)) as [H1 H2]. split; [done|]. intros x. unfold sort_dedup.
  by rewrite H2, sort_unstable_perm.
Qed.

Lemma elem_of_sort_dedup x l : x ∈ sort_dedup cmp l ↔ x ∈ l.
Proof. apply sort_dedup_spec. Qed.

(** A list in order is left alone. *)
Lemma sort_dedup_id l : ascending cmp l → sort_dedup cmp l = l.
Proof. intros Hl. apply (ascending_unique cmp); [apply sort_dedup_spec|done|]. intros x; apply elem_of_sort_dedup. Qed.

Lemma search_from_spec fuel l x lo hi : ascending cmp l → lo <= hi <= length l → hi - lo < fuel →
  (∀ i y, i < lo → l !! i = Some y → y ≠ x) → (∀ i y, hi <= i → l !! i = Some y → y ≠ x) →
  ∃ o, search_from fuel cmp l x lo hi = Some o ∧ match o with Some i => l !! i = Some x | None => x ∉ l end.
Proof.
  intros Hl. revert lo hi. induction fuel as [|fuel IH]; intros lo hi Hb Hf Hlo Hhi; [lia|]. cbn [search_from].
  destruct (Nat.leb_spec hi lo) as [Hle|Hlt].
  { exists None. split; [done|]. intros [i Hi]%list_elem_of_lookup. destruct (decide (i < lo)); [by eapply Hlo|]. eapply Hhi; [|done|done]. lia. }
  set (mid := lo + (hi - lo) / 2). assert (lo <= mid < hi) as Hmid.
  { unfold mid. assert ((hi - lo) / 2 < hi - lo) by (apply Nat.div_lt; lia). lia. }
  destruct (lookup_lt_is_Some_2 l mid) as [y Hy]; [lia|]. rewrite Hy. cbn [mbind option_bind]. destruct (cmp y x) eqn:E.
  - exists (Some mid). split; [done|]. apply (cmp_eq cmp) in E as <-. done.
  - apply IH; [lia|lia| |done]. intros i z Hi Hz ->. destruct (decide (i = mid)) as [->|Hne].
    + rewrite Hy in Hz. injection Hz as ->. by rewrite (cmp_refl cmp) in E.
    + pose proof (ascending_lookup cmp l i mid x y Hl Hz Hy ltac:(lia)) as H. pose proof (cmp_trans cmp _ _ _ H E) as H'.
      by rewrite (cmp_refl cmp) in H'.
  - apply IH; [lia|lia|done|]. intros i z Hi Hz ->. apply (cmp_gt cmp) in E. destruct (decide (i = mid)) as [->|Hne].
    + rewrite Hy in Hz. injection Hz as ->. by rewrite (cmp_refl cmp) in E.
    + pose proof (ascending_lookup cmp l mid i y x Hl Hy Hz ltac:(lia)) as H. pose proof (cmp_trans cmp _ _ _ H E) as H'.
      by rewrite (cmp_refl cmp) in H'.
Qed.

Lemma path_search_spec l x : ascending cmp l →
  ∃ o, binary_search cmp l x = Some o ∧ match o with Some i => l !! i = Some x | None => x ∉ l end.
Proof.
  intros Hl. unfold binary_search. apply search_from_spec; [done|lia|lia|lia|]. intros i y Hi Hy. apply lookup_lt_Some in Hy. lia.
Qed.
End sort.

(** ** Automata *)

Implicit Types (w : list (bool * list N)).

(** A run that consumes [w]. *)
Inductive run (A : Automaton) : nat → list (bool * list N) → nat → Prop :=
  | run_nil q : run A q [] q
  | run_cons t x w q : t ∈ transitions A → step_lang (tr_step t) x → run A (tr_to t) w q → run A (tr_from t) (x :: w) q.

Definition automaton_lang (A : Automaton) w : Prop := ∃ s q, s ∈ initial A ∧ run A s w q ∧ q ∈ accepting A.

Definition step_canonical (s : Step) : Prop :=
  match s with ForwardExcept l | ReverseExcept l => ascending lex_cmp l | _ => True end.

Record automaton_ok (A : Automaton) : Prop := {
  ao_some : initial A ≠ [];
  ao_initial : ascending Nat.compare (initial A);
  ao_accepting : ascending Nat.compare (accepting A);
  ao_transitions : ascending transition_cmp (transitions A);
  ao_steps t : t ∈ transitions A → step_canonical (tr_step t);
  ao_states s : s ∈ initial A ∨ s ∈ accepting A ∨ (∃ t, t ∈ transitions A ∧ (s = tr_from t ∨ s = tr_to t)) → s < state_count A;
}.

Lemma canonicalize_canonical s : step_canonical (canonicalize s).
Proof. destruct s as [a|a|l|l]; [done|done|..]; by apply (sort_dedup_spec lex_cmp). Qed.

Lemma canonicalize_id s : step_canonical s → canonicalize s = s.
Proof. destruct s as [a|a|l|l]; [done|done|..]; intros Hl; unfold canonicalize; by rewrite sort_dedup_id by (apply _ || done). Qed.

Lemma canonicalize_lang s x : step_lang (canonicalize s) x ↔ step_lang s x.
Proof. destruct s as [a|a|l|l]; [done|done|..]; simpl; by rewrite elem_of_sort_dedup by apply _. Qed.

Lemma step_matches_spec s a : step_canonical s →
  ∃ b, step_matches s a = Some b ∧ (b = true ↔ step_lang s (is_reverse s, a)).
Proof.
  assert (∀ l, ascending lex_cmp l → ∃ o, binary_search lex_cmp l a = Some o ∧
    ((match o with Some _ => false | None => true end) = true ↔ a ∉ l)) as Hs.
  { intros l Hl. destruct (path_search_spec lex_cmp l a Hl) as (o & -> & Ho). exists o. split; [done|].
    destruct o as [i|]; [|done]. split; [done|]. intros H. exfalso. by apply H, list_elem_of_lookup_2 with i. }
  destruct s as [a'|a'|l|l]; simpl; intros Hc.
  - eexists. split; [done|]. rewrite bool_decide_eq_true. naive_solver.
  - eexists. split; [done|]. rewrite bool_decide_eq_true. naive_solver.
  - destruct (Hs l Hc) as (o & -> & Ho). cbn [mbind option_bind]. eexists. split; [done|]. rewrite Ho. naive_solver.
  - destruct (Hs l Hc) as (o & -> & Ho). cbn [mbind option_bind]. eexists. split; [done|]. rewrite Ho. naive_solver.
Qed.

Lemma elem_of_state_set x l : x ∈ bts_extend Nat.compare [] l ↔ x ∈ l.
Proof. rewrite elem_of_bts_extend by apply _. split; [by intros [?%elem_of_nil|?]|by right]. Qed.

Definition canonical_transition (t : Transition) : Transition := mkTransition (tr_from t) (tr_to t) (canonicalize (tr_step t)).

(** Validation refuses for the first reason that holds, and otherwise keeps
    the sets it was given. *)
Lemma automaton_new_spec n i a ts : match automaton_new n i a ts with
  | inl NoStates => n = 0
  | inl NoInitialState => n ≠ 0 ∧ i = []
  | inl (StateOutOfRange s m) => m = n ∧ n <= s ∧ (s ∈ i ∨ s ∈ a ∨ ∃ t, t ∈ ts ∧ (s = tr_from t ∨ s = tr_to t))
  | inr A => automaton_ok A ∧ state_count A = n ∧ (∀ s, s ∈ initial A ↔ s ∈ i) ∧ (∀ s, s ∈ accepting A ↔ s ∈ a) ∧
      (∀ t, t ∈ transitions A ↔ ∃ t0, t0 ∈ ts ∧ t = canonical_transition t0) ∧ n ≠ 0 ∧ i ≠ []
  end.
Proof.
  unfold automaton_new. destruct (Nat.eqb_spec n 0) as [->|Hn]; [done|].
  assert (∀ l, bts_extend Nat.compare [] l = [] → l = []) as Hnil.
  { intros [|x l] E; [done|]. exfalso. apply (not_elem_of_nil x). rewrite <- E, elem_of_state_set. by left. }
  destruct (bts_extend Nat.compare [] i) as [|i0 il] eqn:Ei; [split; [done|by apply Hnil]|]. rewrite <- Ei.
  assert (i ≠ []) as Hi by (by intros ->). clear i0 il Ei.
  set (used := bts_extend Nat.compare [] i ++ _ ++ _).
  assert (∀ s, s ∈ used ↔ s ∈ i ∨ s ∈ a ∨ ∃ t, t ∈ ts ∧ (s = tr_from t ∨ s = tr_to t)) as Hu.
  { intros s. unfold used. rewrite !elem_of_app, !elem_of_state_set. apply or_iff_compat_l, or_iff_compat_l.
    rewrite list_elem_of_In, in_concat. setoid_rewrite <- list_elem_of_In. setoid_rewrite list_elem_of_fmap. split.
    - intros (l & (t & -> & Ht) & Hs). exists t. split; [done|]. set_solver.
    - intros (t & Ht & Hs). exists [tr_from t; tr_to t]. split; [by exists t|]. set_solver. }
  destruct (find (λ s, n <=? s) used) as [s|] eqn:Ef.
  - apply find_some in Ef as [Hs Hle]. apply list_elem_of_In, Hu in Hs. apply Nat.leb_le in Hle. done.
  - assert (∀ s, s ∈ used → s < n) as Hlt.
    { intros s Hs. pose proof (find_none _ _ Ef s) as H. rewrite <- list_elem_of_In in H. specialize (H Hs). simpl in H. by apply Nat.leb_gt. }
    set (ts' := _ <$> ts). destruct (sort_dedup_spec transition_cmp ts') as [Hasc Hin].
    assert (∀ t, t ∈ sort_dedup transition_cmp ts' ↔ ∃ t0, t0 ∈ ts ∧ t = canonical_transition t0) as Ht.
    { intros t. rewrite Hin. unfold ts'. rewrite list_elem_of_fmap. naive_solver. }
    split_and!; try done; simpl.
    + split; simpl.
      * intros E. by apply Hi, Hnil.
      * apply bts_extend_ascending; [apply _|constructor].
      * apply bts_extend_ascending; [apply _|constructor].
      * done.
      * intros t (t0 & _ & ->)%Ht. apply canonicalize_canonical.
      * intros s Hs. apply Hlt, Hu. rewrite !elem_of_state_set in Hs. destruct Hs as [?|[?|(t & (t0 & Ht0 & ->)%Ht & Hs)]]; [by left|by right; left|].
        right. right. by exists t0.
    + intros s. apply elem_of_state_set.
    + intros s. apply elem_of_state_set.
Qed.

Lemma canonical_run_step (t : Transition) x : step_lang (tr_step (canonical_transition t)) x ↔ step_lang (tr_step t) x.
Proof. apply canonicalize_lang. Qed.

(** ** Compilation *)

Lemma elem_of_concat_fmap {A B} (g : A → list B) l y : y ∈ concat (g <$> l) ↔ ∃ x, x ∈ l ∧ y ∈ g x.
Proof.
  rewrite list_elem_of_In, in_concat. setoid_rewrite <- list_elem_of_In. setoid_rewrite list_elem_of_fmap. split.
  - intros (k & (x & -> & Hx) & Hy). by exists x.
  - intros (x & Hx & Hy). exists (g x). split; [by exists x|done].
Qed.

Lemma mapM_total {A B} (g : A → option B) (h : A → B) l : (∀ x, x ∈ l → g x = Some (h x)) → mapM g l = Some (h <$> l).
Proof.
  induction l as [|x l IH]; intros Hl; [done|]. simpl. rewrite Hl by by left. cbn [mbind option_bind].
  rewrite IH by (intros y Hy; apply Hl; by right). done.
Qed.

Definition step_at (c : PositionCompiler) (p : nat) : Step := default (Forward []) (pc_steps c !! (p - 1)).

Lemma step_of_spec c p : within 0 (length (pc_steps c)) p → step_of c p = Some (step_at c p) ∧ pc_steps c !! (p - 1) = Some (step_at c p).
Proof.
  intros [H1 H2]. unfold step_of, step_at. rewrite (proj2 (Nat.leb_le 1 p)) by lia.
  destruct (lookup_lt_is_Some_2 (pc_steps c) (p - 1)) as [s Hs]; [lia|]. by rewrite Hs.
Qed.

Lemma transitions_to_spec c from targets : Forall (within 0 (length (pc_steps c))) targets →
  transitions_to c from targets = Some ((λ to, mkTransition from to (step_at c to)) <$> targets).
Proof.
  intros Ht. rewrite Forall_forall in Ht. apply mapM_total. intros p Hp. destruct (step_of_spec c p (Ht p Hp)) as [-> _]. done.
Qed.

Lemma lab_step c p x : within 0 (length (pc_steps c)) p → lab c p x ↔ step_lang (step_at c p) x.
Proof.
  intros Hp. destruct (step_of_spec c p Hp) as [_ Hs]. unfold lab. rewrite Hs. destruct Hp. naive_solver.
Qed.

Section compiled.
Context (c : PositionCompiler) (f : Fragment) (L : list (bool * list N) → Prop) (Hc : comp_ok c).
Context (Hp : piece c 0 (length (pc_steps c)) f L).
Abbreviation n := (length (pc_steps c)).

(** The transitions of the position automaton. *)
Definition follows (p q : nat) : Prop := (p = 0 ∧ q ∈ fr_first f) ∨ fol c p q.

Lemma follows_within p q : follows p q → within 0 n q ∧ p <= n.
Proof.
  intros [[-> Hq]|Hf]; [split; [by apply (pi_first _ _ _ _ _ Hp)|lia]|].
  assert (within 0 n p) as Hw.
  { destruct Hf as [H1 (row & Hr%lookup_lt_Some & _)]. rewrite (ck_follow c Hc) in Hr. unfold within. lia. }
  split; [by eapply (pi_fol _ _ _ _ _ Hp)|apply Hw].
Qed.

Lemma compiled_transitions : ∃ start rest,
  transitions_to c 0 (fr_first f) = Some start ∧
  mapM (λ p : nat * list nat, transitions_to c (p.1 + 1) p.2) (imap pair (pc_follow c)) = Some rest ∧
  ∀ t, t ∈ start ++ concat rest ↔ ∃ p q, follows p q ∧ t = mkTransition p q (step_at c q).
Proof.
  exists ((λ to, mkTransition 0 to (step_at c to)) <$> fr_first f).
  set (h := λ p : nat * list nat, (λ to, mkTransition (p.1 + 1) to (step_at c to)) <$> p.2).
  exists (h <$> imap pair (pc_follow c)).
  assert (∀ p, p ∈ imap pair (pc_follow c) ↔ pc_follow c !! p.1 = Some p.2) as Hi.
  { intros [i row]. rewrite list_elem_of_lookup. split.
    - intros (j & Hj). rewrite list_lookup_imap in Hj. destruct (pc_follow c !! j) as [r|] eqn:E; [|done]. simpl in Hj. by injection Hj as -> ->.
    - intros H. exists i. rewrite list_lookup_imap. simpl in H. by rewrite H. }
  split_and!.
  - apply transitions_to_spec, Forall_forall. intros p. apply (pi_first _ _ _ _ _ Hp).
  - apply mapM_total. intros [i row] Hin%Hi. simpl in Hin. apply transitions_to_spec, Forall_forall. intros q Hq.
    apply (follows_within (i + 1)). right. split; [lia|]. exists row. by rewrite Nat.add_sub.
  - intros t. rewrite elem_of_app, list_elem_of_fmap, list_elem_of_In, in_concat. setoid_rewrite <- list_elem_of_In.
    setoid_rewrite list_elem_of_fmap. split.
    + intros [(q & -> & Hq)|(l & ([i row] & -> & Hin%Hi) & (q & -> & Hq)%list_elem_of_fmap)].
      * exists 0, q. split; [by left|done].
      * simpl in *. exists (i + 1), q. split; [|done]. right. split; [lia|]. exists row. by rewrite Nat.add_sub.
    + intros (p & q & [[-> Hq]|[H1 (row & Hr & Hq)]] & ->); [left; by exists q|]. right.
      exists (h (p - 1, row)). split; [exists (p - 1, row); split; [done|by apply Hi]|].
      unfold h. simpl. apply list_elem_of_fmap. exists q. by replace (p - 1 + 1) with p by lia.
Qed.

Context (A : Automaton).
Context (HA : ∀ t, t ∈ transitions A ↔ ∃ p q, follows p q ∧ t = mkTransition p q (canonicalize (step_at c q))).

Lemma run_step p x w q : run A p (x :: w) q ↔ ∃ p', follows p p' ∧ lab c p' x ∧ run A p' w q.
Proof.
  split.
  - inversion 1 as [|t ? ? ? Ht Hx Hr]; subst. apply HA in Ht as (p & p' & Hf & ->). simpl in *. exists p'. split_and!; [done| |done].
    apply lab_step; [by apply (follows_within p)|]. by apply canonicalize_lang.
  - intros (p' & Hf & Hx & Hr).
    apply (run_cons A (mkTransition p p' (canonicalize (step_at c p')))); [apply HA; by exists p, p'| |done].
    apply canonicalize_lang. apply lab_step; [by apply (follows_within p)|done].
Qed.

Lemma run_walk p w q : 1 <= p → run A p w q ↔ walk (lab c) (fol c) p w q.
Proof.
  intros Hp1. split.
  - revert p Hp1. induction w as [|x w IH]; intros p Hp1 Hr; [inversion Hr; constructor|].
    apply run_step in Hr as (p' & [[-> _]|Hf] & Hx & Hr); [lia|]. econstructor; [done|done|]. apply IH; [|done].
    apply (follows_within p). by right.
  - induction 1 as [p|p p' x w q Hf Hx _ IH]; [constructor|]. apply run_step. exists p'. split_and!; [by right|done|].
    apply IH. apply (follows_within p). by right.
Qed.

Lemma compiled_lang w : initial A = [0] → (∀ s, s ∈ accepting A ↔ s ∈ fr_last f ∨ s = 0 ∧ nullable f = true) →
  automaton_lang A w ↔ L w.
Proof.
  intros Hi Hacc. rewrite (pi_lang _ _ _ _ _ Hp). unfold automaton_lang, accepts, enter. rewrite Hi. split.
  - intros (s & q & ->%list_elem_of_singleton & Hr & Hq%Hacc). destruct w as [|x w].
    + inversion Hr; subst. destruct Hq as [Hq|[_ ?]]; [|by left]. apply (pi_last _ _ _ _ _ Hp) in Hq. unfold within in Hq. lia.
    + right. apply run_step in Hr as (p & [[_ Hf]|[? _]] & Hx & Hr); [|lia]. assert (1 <= p) as H1.
      { apply (pi_first _ _ _ _ _ Hp) in Hf. apply Hf. }
      apply run_walk in Hr; [|done]. exists q. split; [by exists x, w, p|]. destruct Hq as [?|[-> _]]; [done|].
      exfalso. assert (within 0 n 0) as H; [|unfold within in H; lia].
      eapply (walk_closed (lab c) (fol c) (within 0 n)); [| |exact Hr]; [intros; by eapply (pi_fol _ _ _ _ _ Hp)|by apply (pi_first _ _ _ _ _ Hp)].
  - intros [[-> Hn]|(q & (x & w' & p & -> & Hf & Hx & Hr) & Hq)].
    + exists 0, 0. split_and!; [by left|constructor|apply Hacc; by right].
    + exists 0, q. split_and!; [by left| |apply Hacc; by left]. apply run_step. exists p. split_and!; [by left|done|].
      apply run_walk; [|done]. apply (pi_first _ _ _ _ _ Hp) in Hf. apply Hf.
Qed.
End compiled.

Lemma compile_spec e : expr_ok e → (N.of_nat (atoms e) < u32_max)%N →
  ∃ A, compile e = Some A ∧ automaton_ok A ∧ (∀ w, automaton_lang A w ↔ lang e w) ∧ state_count A = S (atoms e) ∧
    accepts_empty A = is_nullable e.
Proof.
  intros He Hn. destruct (analyze_spec e (mkCompiler [] [])) as (f & c & E & G & K & P & N); [by split|done|simpl; lia|].
  pose proof (gr_length _ _ _ G) as Hlen. simpl in Hlen, P. rewrite <- Hlen in P.
  destruct (compiled_transitions c f (lang e) K P) as (start & rest & Hs & Hr & Hts).
  unfold compile. rewrite E. cbn [mbind option_bind]. unfold to_u32. rewrite (proj2 (N.leb_le _ _)) by lia. cbn [mbind option_bind].
  rewrite Hs. cbn [mbind option_bind]. rewrite Hr. cbn [mbind option_bind].
  set (acc := if nullable f then _ else _).
  assert (∀ s, s ∈ acc ↔ s ∈ fr_last f ∨ s = 0 ∧ nullable f = true) as Hacc.
  { intros s. unfold acc. destruct (nullable f); [rewrite elem_of_bts_insert by apply _|]; naive_solver. }
  pose proof (automaton_new_spec (length (pc_steps c) + 1) [0] acc (start ++ concat rest)) as Ha.
  assert (∀ s, s ∈ [0] ∨ s ∈ acc ∨ (∃ t, t ∈ start ++ concat rest ∧ (s = tr_from t ∨ s = tr_to t)) → s < length (pc_steps c) + 1) as Hlt.
  { intros s [->%list_elem_of_singleton|[[Hl|[-> _]]%Hacc|(t & (p & q & Hf & ->)%Hts & Hs')]]; [lia| |lia|].
    - apply (pi_last _ _ _ _ _ P) in Hl. unfold within in Hl. lia.
    - apply (follows_within c f (lang e) K P) in Hf as [[? ?] ?]. simpl in Hs'. destruct Hs' as [->| ->]; lia. }
  destruct (automaton_new _ _ _ _) as [[| |s m]|A]; [lia|by destruct Ha|destruct Ha as (_ & Hle & Hin); specialize (Hlt s Hin); lia|].
  destruct Ha as (Hok & Hcount & Hini & HaccA & HtsA & _).
  assert (initial A = [0]) as Hi.
  { apply (ascending_unique Nat.compare); [apply Hok|by repeat constructor|done]. }
  exists A. assert (∀ w, automaton_lang A w ↔ lang e w) as HL.
  { intros w. eapply (compiled_lang c f (lang e) K P A); [|done|intros s; by rewrite HaccA, Hacc]. intros t. rewrite HtsA. split.
    - intros (t0 & (p & q & Hf & ->)%Hts & ->). by exists p, q.
    - intros (p & q & Hf & ->). exists (mkTransition p q (step_at c q)). split; [apply Hts; by exists p, q|done]. }
  split_and!; [done|done|done|lia|].
  unfold accepts_empty. rewrite Hi. simpl. unfold is_accepting. rewrite orb_false_r, <- N.
  destruct (nullable f) eqn:En; [apply bool_decide_eq_true_2, HaccA, Hacc; by right|].
  apply bool_decide_eq_false_2. rewrite HaccA, Hacc. intros [Hl|[_ ?]]; [|done]. apply (pi_last _ _ _ _ _ P) in Hl. unfold within in Hl. lia.
Qed.
