(* ===== verification/PathCanonical.v ===== *)
(** * PathCanonical: the canonical form of path expressions

    The builders flatten, sort and deduplicate, so that expressions equal up to
    associativity, and alternatives up to order and repetition, are the same
    value; inversion is an involution on them that reverses the language. *)

From S2P Require Import Prelude Lex BTree PathExpr PathLanguage PathCompile.

Open Scope nat_scope.

(** ** The order of expressions *)

Lemma expr_cmp_unfold x y : expr_cmp x y = cmp_then (node_tag x ?= node_tag y)
  (match x, y with
   | Atom l, Atom r => cmp_steps l r
   | Sequence l, Sequence r | Alternative l, Alternative r => list_cmp expr_cmp l r
   | Star l, Star r | Plus l, Plus r | Optional l, Optional r => expr_cmp l r
   | _, _ => Eq
   end).
Proof. by destruct x. Qed.

Lemma expr_cmp_eq x : ∀ y, expr_cmp x y = Eq ↔ x = y.
Proof.
  induction x as [s|es IH|es IH|e IH|e IH|e IH] using expr_ind'; intros [s'|es'|es'|e'|e'|e']; rewrite expr_cmp_unfold; simpl; try done.
  - rewrite (cmp_eq cmp_steps). naive_solver.
  - rewrite (list_cmp_eq expr_cmp es es') by done. naive_solver.
  - rewrite (list_cmp_eq expr_cmp es es') by done. naive_solver.
  - rewrite IH. naive_solver.
  - rewrite IH. naive_solver.
  - rewrite IH. naive_solver.
Qed.

Lemma expr_cmp_swap x : ∀ y, expr_cmp y x = CompOpp (expr_cmp x y).
Proof.
  induction x as [s|es IH|es IH|e IH|e IH|e IH] using expr_ind'; intros y; rewrite (expr_cmp_unfold y), (expr_cmp_unfold _ y);
    destruct y as [s'|es'|es'|e'|e'|e']; simpl; try done; [apply (cmp_swap cmp_steps)|by apply list_cmp_swap|by apply list_cmp_swap|apply IH..].
Qed.

Lemma expr_cmp_trans x : ∀ y z, expr_cmp x y = Lt → expr_cmp y z = Lt → expr_cmp x z = Lt.
Proof.
  induction x as [s|es IH|es IH|e IH|e IH|e IH] using expr_ind'; intros y z;
    rewrite (expr_cmp_unfold _ y), (expr_cmp_unfold y z), (expr_cmp_unfold _ z);
    destruct y as [s'|es'|es'|e'|e'|e'], z as [s''|es''|es''|e''|e''|e'']; simpl; try done.
  - apply (cmp_trans cmp_steps).
  - apply list_cmp_trans; [|apply Forall_true, expr_cmp_eq]. eapply Forall_impl; [done|]. split; [apply expr_cmp_eq|done].
  - apply list_cmp_trans; [|apply Forall_true, expr_cmp_eq]. eapply Forall_impl; [done|]. split; [apply expr_cmp_eq|done].
  - apply IH.
  - apply IH.
  - apply IH.
Qed.

#[global] Instance expr_cmp_ok : CmpOk expr_cmp.
Proof. split; [apply expr_cmp_eq|intros x y; apply expr_cmp_swap|intros x y z; apply expr_cmp_trans]. Qed.

(** ** Canonical expressions *)

Definition is_sequence (e : PathExpr) : bool := match e with Sequence _ => true | _ => false end.
Definition is_alternative (e : PathExpr) : bool := match e with Alternative _ => true | _ => false end.

Fixpoint canonical (e : PathExpr) : Prop :=
  match e with
  | Atom s => step_canonical s
  | Sequence parts => 2 <= length parts ∧ Forall (λ p, is_sequence p = false) parts ∧ foldr and True (map canonical parts)
  | Alternative arms => 2 <= length arms ∧ Forall (λ p, is_alternative p = false) arms ∧ ascending expr_cmp arms ∧
      foldr and True (map canonical arms)
  | Star body | Plus body | Optional body => canonical body
  end.

Lemma all_canonical (es : list PathExpr) : foldr and True (map canonical es) ↔ Forall canonical es.
Proof. induction es as [|e es IH]; simpl; [by split|]. by rewrite IH, Forall_cons. Qed.

Lemma canonical_ok e : canonical e → expr_ok e.
Proof.
  induction e as [s|es IH|es IH|e IH|e IH|e IH] using expr_ind'; simpl; try done.
  - rewrite all_canonical, all_ok. intros (Hl & _ & Hc). split; [by destruct es; simpl in Hl; [lia|]|].
    rewrite Forall_forall in IH, Hc |- *. auto.
  - rewrite all_canonical, all_ok. intros (_ & _ & _ & Hc). rewrite Forall_forall in IH, Hc |- *. auto.
Qed.

(** The parts of a sequence and the arms of an alternative. *)
Definition parts_of (e : PathExpr) : list PathExpr := match e with Sequence parts => parts | e => [e] end.
Definition arms_of (e : PathExpr) : list PathExpr := match e with Alternative arms => arms | e => [e] end.
Definition of_parts (l : list PathExpr) : PathExpr := match l with [e] => e | _ => Sequence l end.
Definition of_arms (l : list PathExpr) : PathExpr := match l with [e] => e | _ => Alternative l end.

Lemma sequence_parts es : sequence es = of_parts (concat (parts_of <$> es)).
Proof. done. Qed.
Lemma alternative_arms es : alternative es = of_arms (sort_dedup expr_cmp (concat (arms_of <$> es))).
Proof. unfold alternative, of_arms. by destruct (sort_dedup _ _) as [|? [|]]. Qed.

Lemma of_parts_of e : canonical e → of_parts (parts_of e) = e.
Proof. destruct e as [s|es|es|e|e|e]; try done. simpl. intros [Hl _]. destruct es as [|? [|]]; simpl in Hl; [lia..|done]. Qed.
Lemma of_arms_of e : canonical e → of_arms (arms_of e) = e.
Proof. destruct e as [s|es|es|e|e|e]; try done. simpl. intros [Hl _]. destruct es as [|? [|]]; simpl in Hl; [lia..|done]. Qed.

Definition part_ok (e : PathExpr) : Prop := canonical e ∧ is_sequence e = false.
Definition arm_ok (e : PathExpr) : Prop := canonical e ∧ is_alternative e = false.

Lemma parts_ok e : canonical e → Forall part_ok (parts_of e) ∧ parts_of e ≠ [].
Proof.
  destruct e as [s|es|es|e|e|e]; intros Hc; try (split; [apply Forall_singleton; by split|done]).
  simpl in *. rewrite all_canonical in Hc.
  destruct Hc as (Hl & H1 & H2). split; [by apply Forall_and|]. intros ->. simpl in Hl. lia.
Qed.

Lemma arms_ok e : canonical e → Forall arm_ok (arms_of e) ∧ ascending expr_cmp (arms_of e) ∧ arms_of e ≠ [].
Proof.
  destruct e as [s|es|es|e|e|e]; intros Hc; try (split_and!; [apply Forall_singleton; by split|by repeat constructor|done]).
  simpl in *. rewrite all_canonical in Hc. destruct Hc as (Hl & H1 & H2 & H3). split_and!; [by apply Forall_and|done|]. intros ->. simpl in Hl. lia.
Qed.

Lemma of_parts_ok l : Forall part_ok l → l ≠ [] → canonical (of_parts l) ∧ parts_of (of_parts l) = l.
Proof.
  intros Hl Hne. destruct l as [|e [|e' l]]; [done| |].
  - apply Forall_cons in Hl as [[Hc Hs] _]. split; [done|]. simpl. by destruct e.
  - split; [|done]. simpl of_parts. cbn [canonical]. rewrite all_canonical. apply Forall_and in Hl as [H1 H2].
    split_and!; [simpl; lia|done..].
Qed.

Lemma of_arms_ok l : Forall arm_ok l → ascending expr_cmp l → l ≠ [] → canonical (of_arms l) ∧ arms_of (of_arms l) = l.
Proof.
  intros Hl Hs Hne. destruct l as [|e [|e' l]]; [done| |].
  - apply Forall_cons in Hl as [[Hc Ha] _]. split; [done|]. simpl. by destruct e.
  - split; [|done]. simpl of_arms. cbn [canonical]. rewrite all_canonical. apply Forall_and in Hl as [H1 H2].
    split_and!; [simpl; lia|done..].
Qed.

Lemma concat_fmap_forall {A B} (P : B → Prop) (g : A → list B) l : (∀ x, x ∈ l → Forall P (g x)) → Forall P (concat (g <$> l)).
Proof.
  induction l as [|x l IH]; intros Hl; [constructor|]. rewrite fmap_cons. cbn [concat]. apply Forall_app.
  split; [apply Hl; by left|apply IH; intros y Hy; apply Hl; by right].
Qed.

Lemma sequence_spec es : Forall canonical es → es ≠ [] →
  canonical (sequence es) ∧ parts_of (sequence es) = concat (parts_of <$> es).
Proof.
  intros Hc Hne. rewrite sequence_parts. apply of_parts_ok.
  - apply concat_fmap_forall. intros e He. rewrite Forall_forall in Hc. by apply parts_ok, Hc.
  - destruct es as [|e es]; [done|]. apply Forall_cons in Hc as [Hc _]. rewrite fmap_cons. cbn [concat].
    destruct (parts_ok e Hc) as [_ H]. by destruct (parts_of e).
Qed.

Lemma alternative_spec es : Forall canonical es → es ≠ [] →
  canonical (alternative es) ∧ ∀ e, e ∈ arms_of (alternative es) ↔ ∃ x, x ∈ es ∧ e ∈ arms_of x.
Proof.
  intros Hc Hne. rewrite alternative_arms. destruct (sort_dedup_spec expr_cmp (concat (arms_of <$> es))) as [Hs Hin].
  assert (∀ e, e ∈ concat (arms_of <$> es) → arm_ok e) as Hok.
  { apply Forall_forall, concat_fmap_forall. intros e He. rewrite Forall_forall in Hc. by apply arms_ok, Hc. }
  destruct (of_arms_ok (sort_dedup expr_cmp (concat (arms_of <$> es)))) as [H1 H2].
  - apply Forall_forall. intros e He%Hin. by apply Hok.
  - done.
  - destruct es as [|e es]; [done|]. apply Forall_cons in Hc as [Hc _]. destruct (arms_ok e Hc) as (_ & _ & H).
    destruct (arms_of e) as [|e0 l] eqn:E; [done|]. intros Hnil. apply (not_elem_of_nil e0). rewrite <- Hnil. apply Hin.
    apply elem_of_concat_fmap. exists e. rewrite E. split; by left.
  - split; [done|]. intros e. rewrite H2, Hin. apply elem_of_concat_fmap.
Qed.

(** Canonical expressions with the same arms are equal. *)
Lemma canonical_arms e e' : canonical e → canonical e' → (∀ x, x ∈ arms_of e ↔ x ∈ arms_of e') → e = e'.
Proof.
  intros Hc Hc' Hx. rewrite <- (of_arms_of e), <- (of_arms_of e') by done. f_equal.
  apply (ascending_unique expr_cmp); [by apply arms_ok|by apply arms_ok|done].
Qed.

(** ** Languages of the builders *)

Lemma conc_ext (L1 L2 L1' L2' : list (bool * list N) → Prop) w : (∀ w, L1 w ↔ L1' w) → (∀ w, L2 w ↔ L2' w) →
  conc L1 L2 w ↔ conc L1' L2' w.
Proof. intros H1 H2. unfold conc. setoid_rewrite H1. by setoid_rewrite H2. Qed.

Lemma conc_assoc (L1 L2 L3 : list (bool * list N) → Prop) w : conc (conc L1 L2) L3 w ↔ conc L1 (conc L2 L3) w.
Proof.
  split.
  - intros (w1 & w2 & -> & (w3 & w4 & -> & H3 & H4) & H2). exists w3, (w4 ++ w2). rewrite app_assoc. split_and!; [done..|].
    by exists w4, w2.
  - intros (w1 & w2 & -> & H1 & (w3 & w4 & -> & H3 & H4)). exists (w1 ++ w3), w4. rewrite app_assoc. split_and!; [done| |done].
    by exists w1, w3.
Qed.

Lemma conc_nil_r (L : list (bool * list N) → Prop) w : conc L (λ w, w = []) w ↔ L w.
Proof.
  split; [intros (w1 & w2 & -> & H & ->); by rewrite app_nil_r|]. intros H. exists w, []. by rewrite app_nil_r.
Qed.
Lemma conc_nil_l (L : list (bool * list N) → Prop) w : conc (λ w, w = []) L w ↔ L w.
Proof. split; [by intros (w1 & w2 & -> & -> & H)|]. intros H. by exists [], w. Qed.

Lemma lang_seq_app es es' w : lang (Sequence (es ++ es')) w ↔ conc (lang (Sequence es)) (lang (Sequence es')) w.
Proof.
  revert w. induction es as [|e es IH]; intros w; [symmetry; apply conc_nil_l|].
  change (conc (lang e) (lang (Sequence (es ++ es'))) w ↔ conc (conc (lang e) (lang (Sequence es))) (lang (Sequence es')) w).
  rewrite conc_assoc. by apply conc_ext.
Qed.

Lemma lang_parts e w : lang (Sequence (parts_of e)) w ↔ lang e w.
Proof. destruct e; try done; apply conc_nil_r. Qed.
Lemma lang_of_parts l w : lang (of_parts l) w ↔ lang (Sequence l) w.
Proof. destruct l as [|e [|]]; try done. symmetry. apply conc_nil_r. Qed.

Lemma sequence_lang es w : lang (sequence es) w ↔ lang (Sequence es) w.
Proof.
  rewrite sequence_parts, lang_of_parts. revert w. induction es as [|e es IH]; intros w; [done|].
  rewrite fmap_cons. cbn [concat]. rewrite lang_seq_app. apply conc_ext; [apply lang_parts|done].
Qed.

Lemma lang_alt es w : lang (Alternative es) w ↔ ∃ e, e ∈ es ∧ lang e w.
Proof. simpl. induction es as [|e es IH]; simpl; [set_solver|]. rewrite IH. set_solver. Qed.

Lemma lang_arms e w : lang e w ↔ ∃ x, x ∈ arms_of e ∧ lang x w.
Proof. destruct e; try (apply lang_alt); simpl; set_solver. Qed.
Lemma lang_of_arms l w : lang (of_arms l) w ↔ lang (Alternative l) w.
Proof. destruct l as [|e [|]]; try done. rewrite lang_alt. simpl. set_solver. Qed.

Lemma alternative_lang es w : lang (alternative es) w ↔ lang (Alternative es) w.
Proof.
  rewrite alternative_arms, lang_of_arms, !lang_alt.
  assert (∀ x, x ∈ sort_dedup expr_cmp (concat (arms_of <$> es)) ↔ ∃ e, e ∈ es ∧ x ∈ arms_of e) as Hin.
  { intros x. rewrite (elem_of_sort_dedup expr_cmp). apply elem_of_concat_fmap. }
  setoid_rewrite Hin. split.
  - intros (x & (e & He & Hx) & Hw). exists e. split; [done|]. apply lang_arms. by exists x.
  - intros (e & He & (x & Hx & Hw)%lang_arms). exists x. split; [by exists e|done].
Qed.

(** ** Inversion *)

Definition flip_token (t : bool * list N) : bool * list N := (negb t.1, t.2).

Lemma flip_flip t : flip_token (flip_token t) = t.
Proof. destruct t as [[] ?]; done. Qed.

Lemma inverse_step_lang s t : step_lang (inverse_step s) t ↔ step_lang s (flip_token t).
Proof. unfold flip_token. destruct s, t as [[] ?]; simpl; intuition congruence. Qed.

Lemma inverse_step_canonical s : step_canonical s → step_canonical (inverse_step s) ∧ inverse_step (inverse_step s) = s.
Proof. by destruct s. Qed.

(** The edges of a word, backwards. *)
Definition backwards (w : list (bool * list N)) : list (bool * list N) := reverse (flip_token <$> w).

Lemma backwards_app w w' : backwards (w ++ w') = backwards w' ++ backwards w.
Proof. unfold backwards. by rewrite fmap_app, reverse_app. Qed.
Lemma backwards_twice w : backwards (backwards w) = w.
Proof.
  unfold backwards. rewrite fmap_reverse, reverse_involutive, <- list_fmap_compose. rewrite <- (list_fmap_id w) at 2.
  apply list_fmap_ext. intros i t _. apply flip_flip.
Qed.
Lemma backwards_nil w : backwards w = [] ↔ w = [].
Proof. split; [|by intros ->]. intros H. rewrite <- (backwards_twice w), H. done. Qed.

Lemma conc_backwards (L L' : list (bool * list N) → Prop) w : conc L L' (backwards w) ↔
  conc (λ w, L' (backwards w)) (λ w, L (backwards w)) w.
Proof.
  split.
  - intros (w1 & w2 & E & H1 & H2). exists (backwards w2), (backwards w1). rewrite <- backwards_app, <- E, !backwards_twice.
    by split_and!.
  - intros (w1 & w2 & -> & H1 & H2). exists (backwards w2), (backwards w1). split_and!; [apply backwards_app|done..].
Qed.

Lemma repeats_ext (L L' : list (bool * list N) → Prop) w : (∀ w, L w → L' w) → repeats L w → repeats L' w.
Proof. intros HL. induction 1; constructor; auto. Qed.

Lemma repeats_snoc (L : list (bool * list N) → Prop) w1 w2 : repeats L w1 → L w2 → repeats L (w1 ++ w2).
Proof.
  induction 1 as [|w3 w4 H3 _ IH]; intros H2.
  - rewrite <- (app_nil_r ([] ++ w2)). apply (repeats_app L w2); [done|constructor].
  - rewrite <- app_assoc. constructor; [done|by apply IH].
Qed.

Lemma repeats_backwards (L : list (bool * list N) → Prop) w : repeats (λ w, L (backwards w)) w ↔ repeats L (backwards w).
Proof.
  assert (∀ L w, repeats (λ w, L (backwards w)) w → repeats L (backwards w)) as H.
  { induction 1 as [|w1 w2 H1 _ IH]; [constructor|]. rewrite backwards_app. by apply repeats_snoc. }
  split; [apply H|]. intros Hw. rewrite <- (backwards_twice w). apply H. eapply repeats_ext; [|done].
  intros w'. simpl. by rewrite backwards_twice.
Qed.

Lemma conc_repeats (L : list (bool * list N) → Prop) w : conc (repeats L) L w ↔ conc L (repeats L) w.
Proof.
  split.
  - intros (w1 & w2 & -> & H1 & H2). revert w2 H2. induction H1 as [|w1 w3 H1 _ IH]; intros w2 H2.
    + exists w2, []. rewrite app_nil_r. split_and!; [done..|constructor].
    + destruct (IH w2 H2) as (w4 & w5 & E & H4 & H5). exists w1, (w3 ++ w2). rewrite app_assoc. split_and!; [done..|].
      rewrite E. by constructor.
  - intros (w1 & w2 & -> & H1 & H2). revert w1 H1. induction H2 as [|w2 w3 H2 _ IH]; intros w1 H1.
    + exists [], w1. rewrite app_nil_r. split_and!; [done|constructor|done].
    + destruct (IH w2 H2) as (w4 & w5 & E & H4 & H5). exists (w1 ++ w4), w5. rewrite <- app_assoc, <- E.
      split_and!; [done|by constructor|done].
Qed.

Lemma inverse_lang e : ∀ w, lang (inverse e) w ↔ lang e (backwards w).
Proof.
  induction e as [s|es IH|es IH|e IH|e IH|e IH] using expr_ind'; intros w; cbn [inverse].
  - simpl. setoid_rewrite canonicalize_lang. setoid_rewrite canonicalize_lang. setoid_rewrite inverse_step_lang. split.
    + intros (t & -> & Ht). by exists (flip_token t).
    + intros (t & E & Ht). exists (flip_token t). rewrite flip_flip. split; [|done]. by rewrite <- (backwards_twice w), E.
  - rewrite sequence_lang. revert w. induction IH as [|e es IHe _ IHes]; intros w.
    { simpl. symmetry. apply backwards_nil. }
    cbn [map rev]. rewrite lang_seq_app.
    change (lang (Sequence (e :: es)) (backwards w)) with (conc (lang e) (lang (Sequence es)) (backwards w)).
    rewrite conc_backwards. apply conc_ext; [done|]. intros w'. rewrite <- IHe. apply conc_nil_r.
  - rewrite alternative_lang, !lang_alt. rewrite Forall_forall in IH. split.
    + intros (x & Hx & Hw). apply list_elem_of_fmap in Hx as (e & -> & He). exists e. split; [done|]. by apply IH.
    + intros (e & He & Hw). exists (inverse e). split; [by apply list_elem_of_fmap_2|]. by apply IH.
  - cbn [lang star]. rewrite <- repeats_backwards. split; apply repeats_ext; intros w'; apply IH.
  - cbn [lang plus]. rewrite conc_backwards, <- conc_repeats. apply conc_ext; [|done]. intros w'. rewrite <- repeats_backwards.
    split; apply repeats_ext; intros w''; apply IH.
  - cbn [lang optional]. by rewrite IH, backwards_nil.
Qed.

Lemma canonical_plain e : canonical e → is_sequence e = false → parts_of e = [e].
Proof. by destruct e. Qed.

(** What inversion keeps. *)
Definition inverts (e : PathExpr) : Prop :=
  canonical (inverse e) ∧ inverse (inverse e) = e ∧ is_sequence (inverse e) = is_sequence e ∧
  is_alternative (inverse e) = is_alternative e ∧ is_nullable (inverse e) = is_nullable e.

Lemma concat_singles {A B} (g : A → list B) (h : A → B) l : (∀ x, x ∈ l → g x = [h x]) → concat (g <$> l) = h <$> l.
Proof. induction l as [|x l IH]; intros Hg; [done|]. rewrite !fmap_cons. cbn [concat]. rewrite Hg, IH; [done|set_solver..]. Qed.

Lemma sequence_plain es : Forall (λ p, is_sequence p = false) es → 2 <= length es → sequence es = Sequence es.
Proof.
  intros Hes Hl. rewrite sequence_parts, (concat_singles _ id), list_fmap_id; [by destruct es as [|? [|]]; simpl in Hl; [lia..|]|].
  intros e He. rewrite Forall_forall in Hes. specialize (Hes e He). by destruct e.
Qed.

Lemma alternative_plain es : Forall (λ p, is_alternative p = false) es → alternative es = of_arms (sort_dedup expr_cmp es).
Proof.
  intros Hes. rewrite alternative_arms, (concat_singles _ id), list_fmap_id; [done|].
  intros e He. rewrite Forall_forall in Hes. specialize (Hes e He). by destruct e.
Qed.

Lemma forallb_rev_map {A B} (p : B → bool) (g : A → B) l : forallb p (rev (map g l)) = forallb (λ x, p (g x)) l.
Proof.
  apply eq_iff_eq_true. rewrite !forallb_forall. setoid_rewrite <- in_rev. setoid_rewrite in_map_iff. naive_solver.
Qed.

Lemma inverts_sequence es : canonical (Sequence es) → Forall (λ e, canonical e → inverts e) es → inverts (Sequence es).
Proof.
  intros (Hl & Hs & Hc) IH. rewrite all_canonical in Hc.
  assert (Forall inverts es) as Hi by (rewrite Forall_forall in IH, Hc |- *; auto).
  rewrite Forall_forall in Hi, Hs. unfold inverts. cbn [inverse].
  assert (length (rev (map inverse es)) = length es) as Hl' by (by rewrite length_rev, length_map).
  assert (Forall (λ p, is_sequence p = false) (rev (map inverse es))) as Hs'.
  { apply Forall_forall. intros x Hx. rewrite list_elem_of_In, <- in_rev, <- list_elem_of_In in Hx.
    apply list_elem_of_fmap in Hx as (e & -> & He). destruct (Hi e He) as (_ & _ & -> & _). auto. }
  rewrite sequence_plain by (done || lia). cbn [inverse]. rewrite map_rev, rev_involutive, map_map. split_and!; try done.
  - cbn [canonical]. rewrite all_canonical. split_and!; [lia|done|]. apply Forall_forall. intros x Hx.
    rewrite list_elem_of_In, <- in_rev, <- list_elem_of_In in Hx. apply list_elem_of_fmap in Hx as (e & -> & He). by apply Hi.
  - rewrite (map_ext_in _ id), map_id; [apply sequence_plain; [by apply Forall_forall|done]|].
    intros e He. rewrite <- list_elem_of_In in He. by apply Hi.
  - cbn [is_nullable]. rewrite forallb_rev_map. apply eq_iff_eq_true. rewrite !forallb_forall. setoid_rewrite <- list_elem_of_In.
    split; intros H e He; specialize (H e He); destruct (Hi e He) as (_ & _ & _ & _ & E); congruence.
Qed.

Lemma inverts_alternative es : canonical (Alternative es) → Forall (λ e, canonical e → inverts e) es → inverts (Alternative es).
Proof.
  intros (Hl & Ha & Hasc & Hc) IH. rewrite all_canonical in Hc.
  assert (Forall inverts es) as Hi by (rewrite Forall_forall in IH, Hc |- *; auto).
  rewrite Forall_forall in Hi, Ha. unfold inverts. cbn [inverse]. set (arms := sort_dedup expr_cmp (map inverse es)).
  assert (∀ x, x ∈ arms ↔ ∃ e, x = inverse e ∧ e ∈ es) as Hin.
  { intros x. unfold arms. rewrite (elem_of_sort_dedup expr_cmp). apply list_elem_of_fmap. }
  assert (Forall arm_ok arms) as Hok.
  { apply Forall_forall. intros x (e & -> & He)%Hin. destruct (Hi e He) as (H1 & _ & _ & H2 & _). split; [done|]. rewrite H2. auto. }
  rewrite alternative_plain by (apply Forall_forall; intros x (e & -> & He)%list_elem_of_fmap;
    destruct (Hi e He) as (_ & _ & _ & -> & _); auto).
  fold arms. assert (∃ a b l, arms = a :: b :: l) as (a & b & l & Earms).
  { destruct es as [|e1 [|e2 es]]; simpl in Hl; [lia..|]. destruct arms as [|a [|b l]] eqn:E; [| |by exists a, b, l].
    - assert (inverse e1 ∈ []) as ?%elem_of_nil by (apply Hin; exists e1; split; [done|by left]). done.
    - exfalso. assert (e1 ∈ e1 :: e2 :: es) as I1 by (by left). assert (e2 ∈ e1 :: e2 :: es) as I2 by (right; by left).
      assert (inverse e1 = a) as E1 by (apply list_elem_of_singleton, Hin; by exists e1).
      assert (inverse e2 = a) as E2 by (apply list_elem_of_singleton, Hin; by exists e2).
      destruct (Hi e1 I1) as (_ & F1 & _), (Hi e2 I2) as (_ & F2 & _). rewrite E1 in F1. rewrite E2 in F2. subst e1 e2.
      apply StronglySorted_inv in Hasc as [_ Hlt]. apply Forall_cons in Hlt as [Hlt _]. by rewrite (proj2 (cmp_eq expr_cmp _ _) eq_refl) in Hlt. }
  assert (of_arms arms = Alternative arms) as -> by (by rewrite Earms). cbn [inverse]. split_and!; try done.
  - assert (of_arms arms = Alternative arms) as <- by (by rewrite Earms). apply of_arms_ok; [done|apply (sort_dedup_spec expr_cmp)|by rewrite Earms].
  - assert (∀ x, x ∈ map inverse arms ↔ x ∈ es) as Hback.
    { intros x. setoid_rewrite (list_elem_of_fmap inverse arms x). setoid_rewrite Hin. split.
      - intros (y & -> & (e & -> & He)). by rewrite (proj1 (proj2 (Hi e He))).
      - intros Hx. exists (inverse x). rewrite (proj1 (proj2 (Hi x Hx))). split; [done|by exists x]. }
    rewrite alternative_plain by (apply Forall_forall; intros x Hx%Hback; auto).
    assert (sort_dedup expr_cmp (map inverse arms) = es) as ->; [|by destruct es as [|? [|]]; simpl in Hl; [lia..|]].
    apply (ascending_unique expr_cmp); [apply (sort_dedup_spec expr_cmp)|done|]. intros x. by rewrite (elem_of_sort_dedup expr_cmp).
  - cbn [is_nullable]. apply eq_iff_eq_true. rewrite !existsb_exists. setoid_rewrite <- list_elem_of_In. setoid_rewrite Hin.
    split.
    + intros (x & (e & -> & He) & Hn). exists e. destruct (Hi e He) as (_ & _ & _ & _ & E). split; [done|congruence].
    + intros (e & He & Hn). exists (inverse e). destruct (Hi e He) as (_ & _ & _ & _ & E). split; [by exists e|congruence].
Qed.

Lemma inverse_atom s : step_canonical s → inverse (Atom s) = Atom (inverse_step s).
Proof.
  intros Hc. destruct (inverse_step_canonical s Hc) as [H1 _]. cbn [inverse]. unfold from_step.
  by rewrite !(canonicalize_id (inverse_step s)).
Qed.

Lemma canonical_inverts e : canonical e → inverts e.
Proof.
  induction e as [s|es IH|es IH|e IH|e IH|e IH] using expr_ind'; intros Hc.
  - cbn in Hc. destruct (inverse_step_canonical s Hc) as [H1 H2]. unfold inverts.
    rewrite (inverse_atom s), (inverse_atom (inverse_step s)), H2 by done. by split_and!.
  - by apply inverts_sequence.
  - by apply inverts_alternative.
  - destruct (IH Hc) as (H1 & H2 & _). unfold inverts, star. cbn [inverse star]. unfold star. by rewrite H2.
  - destruct (IH Hc) as (H1 & H2 & _ & _ & H3). unfold inverts. cbn [inverse plus]. unfold plus. by rewrite H2.
  - destruct (IH Hc) as (H1 & H2 & _). unfold inverts. cbn [inverse optional]. unfold optional. by rewrite H2.
Qed.

(** ** The laws of the builders *)

Lemma canonical_parts e e' : canonical e → canonical e' → parts_of e = parts_of e' → e = e'.
Proof. intros Hc Hc' E. by rewrite <- (of_parts_of e), <- (of_parts_of e'), E. Qed.

Lemma and_then_spec a b : canonical a → canonical b →
  canonical (and_then a b) ∧ parts_of (and_then a b) = parts_of a ++ parts_of b.
Proof.
  intros Ha Hb. destruct (sequence_spec [a; b]) as [H1 H2]; [by repeat constructor|done|]. split; [done|].
  unfold and_then. rewrite H2, !fmap_cons, fmap_nil. cbn [concat]. by rewrite app_nil_r.
Qed.

Lemma or_else_spec a b : canonical a → canonical b →
  canonical (or_else a b) ∧ ∀ x, x ∈ arms_of (or_else a b) ↔ x ∈ arms_of a ∨ x ∈ arms_of b.
Proof.
  intros Ha Hb. destruct (alternative_spec [a; b]) as [H1 H2]; [by repeat constructor|done|]. split; [done|].
  intros x. unfold or_else. rewrite H2. set_solver.
Qed.

Lemma or_else_arms a b x : canonical a → canonical b → x ∈ arms_of (or_else a b) ↔ x ∈ arms_of a ∨ x ∈ arms_of b.
Proof. intros Ha Hb. by apply or_else_spec. Qed.
