(* ===== verification/PathSummary.v ===== *)
(** * PathSummary: the summary of the edges of a path relation

    Source: [triblespace-paths/src/summary.rs].

    For a fixed automaton each graph edge becomes the arcs it makes possible
    between pairs of a vertex and a state.  A [BTreeSet] is an ascending list;
    arithmetic at [u32] wraps as a release build performs it. *)

From S2P Require Import Prelude Lex BTree Trible PathExpr PathLanguage PathCompile.

Open Scope nat_scope.

Abbreviation RawInline := (list N) (only parsing).

(** ** Machine integers *)

(** [as u32], and the result of an operation on [u32]. *)
Definition as_u32 (x : nat) : nat := N.to_nat (N.of_nat x mod 2 ^ 32)%N.
Definition usize_max : N := (2 ^ 64 - 1)%N.
(** [checked_mul] and [checked_add] on [usize]. *)
Definition usize_mul (x y : nat) : option nat := if (N.of_nat x * N.of_nat y <=? usize_max)%N then Some (x * y) else None.
Definition usize_add (x y : nat) : option nat := if (N.of_nat x + N.of_nat y <=? usize_max)%N then Some (x + y) else None.

(** ** Data *)

Record GraphEdge := mkEdge { ge_source : RawInline; ge_attribute : RawId; ge_target : RawInline }.
#[global] Instance GraphEdge_eq_dec : EqDecision GraphEdge.
Proof. solve_decision. Defined.

Definition edge_of_trible (trible : Trible) : GraphEdge :=
  mkEdge (id_into_value (raw (e trible))) (raw (a trible)) (v trible).

Record ProductNode := mkNode { vertex : RawInline; state : StateId }.
Record ProductArc := mkArc { arc_source : ProductNode; arc_target : ProductNode }.
Record PathSummary := mkSummary {
  automaton : Automaton;
  vertices : list RawInline;
  arcs : list ProductArc;
}.

(** The derived orders. *)
Definition edge_cmp (x y : GraphEdge) : comparison :=
  cmp_then (lex_cmp (ge_source x) (ge_source y))
    (cmp_then (lex_cmp (ge_attribute x) (ge_attribute y)) (lex_cmp (ge_target x) (ge_target y))).
Definition node_cmp (x y : ProductNode) : comparison :=
  cmp_then (lex_cmp (vertex x) (vertex y)) (state x ?= state y).
Definition arc_cmp (x y : ProductArc) : comparison :=
  cmp_then (node_cmp (arc_source x) (arc_source y)) (node_cmp (arc_target x) (arc_target y)).

(** The derived equality of automata and summaries. *)
#[global] Instance Transition_eq_dec : EqDecision Transition.
Proof. solve_decision. Defined.
#[global] Instance Automaton_eq_dec : EqDecision Automaton.
Proof. solve_decision. Defined.
#[global] Instance ProductNode_eq_dec : EqDecision ProductNode.
Proof. solve_decision. Defined.
#[global] Instance ProductArc_eq_dec : EqDecision ProductArc.
Proof. solve_decision. Defined.
#[global] Instance PathSummary_eq_dec : EqDecision PathSummary.
Proof. solve_decision. Defined.

Inductive PathError :=
  | EmptyInput
  | DifferentAutomata
  | TooManyVertices (count : nat)
  | ProductCarrierTooLarge (vertices : nat) (states : StateId)
  | CapacityOverflow.

Abbreviation vertex_set := (bts_extend lex_cmp []) (only parsing).

(** ** Building *)

(** One edge against one transition. *)
Definition lower (edge : GraphEdge) (acc : list RawInline * list ProductArc) (t : Transition)
    : res (list RawInline * list ProductArc) :=
  m ← step_matches (tr_step t) (ge_attribute edge);
  if (m : bool) then
    let '(source, target) := if is_reverse (tr_step t) then (ge_target edge, ge_source edge) else (ge_source edge, ge_target edge) in
    let vertices := bts_insert lex_cmp target (bts_insert lex_cmp source acc.1) in
    Some (vertices, bts_insert arc_cmp (mkArc (mkNode source (tr_from t)) (mkNode target (tr_to t))) acc.2)
  else Some acc.

Definition from_edges (automaton : Automaton) (edges : list GraphEdge) : res PathSummary :=
  let edges := bts_extend edge_cmp [] edges in
  let vertices :=
    if accepts_empty automaton then vertex_set (concat ((λ edge, [ge_source edge; ge_target edge]) <$> edges)) else [] in
  '(vertices, arcs) ← foldM (λ acc edge, foldM (lower edge) acc (transitions automaton)) (vertices, []) edges;
  Some (mkSummary automaton vertices arcs).

Definition from_tribles (automaton : Automaton) (tribles : list Trible) : res PathSummary :=
  from_edges automaton (edge_of_trible <$> tribles).

Definition direct_arc_count (self : PathSummary) : nat := length (arcs self).

(** ** Union *)

Definition merge_all (summaries : list PathSummary) : PathError + PathSummary :=
  match summaries with
  | [] => inl EmptyInput
  | first :: _ =>
      if existsb (λ summary, bool_decide (automaton summary ≠ automaton first)) summaries then inl DifferentAutomata else
      inr (mkSummary (automaton first) (vertex_set (concat (vertices <$> summaries)))
             (bts_extend arc_cmp [] (concat (arcs <$> summaries))))
  end.
Definition merge (self other : PathSummary) : PathError + PathSummary := merge_all [self; other].

(** ** Ordinals *)

Definition active_vertices (self : PathSummary) : list RawInline :=
  vertex_set (concat ((λ arc, [vertex (arc_source arc); vertex (arc_target arc)]) <$> arcs self)).

Definition has_canonical_domain (self : PathSummary) : bool :=
  accepts_empty (automaton self) || bool_decide (vertices self = active_vertices self).

(** The ordinal of a node; its vertex is expected among [vertices]. *)
Definition node_ordinal (states : StateId) (vertices : list RawInline) (node : ProductNode) : res nat :=
  found ← binary_search lex_cmp vertices (vertex node);
  i ← found;
  Some (as_u32 (as_u32 (as_u32 i * states) + state node)).

Definition ordinal_arcs_in (self : PathSummary) (vertices : list RawInline) : res (list (nat * nat)) :=
  let states := state_count (automaton self) in
  mapM (λ arc,
    source ← node_ordinal states vertices (arc_source arc);
    target ← node_ordinal states vertices (arc_target arc);
    Some (source, target)) (arcs self).
Definition ordinal_arcs (self : PathSummary) : res (list (nat * nat)) := ordinal_arcs_in self (vertices self).

(** The node of an ordinal in range. *)
Definition ordinal_node (state_count : StateId) (vertices : list RawInline) (ordinal : nat) : res ProductNode :=
  _ ← massert (1 <=? state_count);
  x ← vertices !! (ordinal / state_count);
  Some (mkNode x (ordinal mod state_count)).

(** The loop over the arcs, which stops at the first ordinal out of range. *)
Fixpoint read_arcs (state_count : StateId) (vertices : list RawInline) (product_count : nat) (arcs : list (nat * nat))
    (product_arcs : list ProductArc) : res (PathError + list ProductArc) :=
  match arcs with
  | [] => Some (inr product_arcs)
  | (source, target) :: arcs =>
      if (product_count <=? source) || (product_count <=? target) then
        Some (inl (ProductCarrierTooLarge (length vertices) state_count)) else
      source ← ordinal_node state_count vertices source;
      target ← ordinal_node state_count vertices target;
      read_arcs state_count vertices product_count arcs (product_arcs ++ [mkArc source target])
  end.

Definition from_canonical_ordinals (automaton : Automaton) (vertices : list RawInline) (arcs : list (nat * nat))
    : res (PathError + PathSummary) :=
  match usize_mul (length vertices) (state_count automaton) with
  | None => Some (inl CapacityOverflow)
  | Some product_count =>
      o ← read_arcs (state_count automaton) vertices product_count arcs [];
      Some (match o with
            | inl error => inl error
            | inr product_arcs => inr (mkSummary automaton vertices product_arcs)
            end)
  end.

(** ** Orders *)

#[global] Instance edge_cmp_ok : CmpOk edge_cmp.
Proof.
  apply (cmp_by (λ x, (ge_source x, (ge_attribute x, ge_target x))) (pair_cmp lex_cmp (pair_cmp lex_cmp lex_cmp))); [apply _| |done].
  intros [x1 x2 x3] [y1 y2 y3]. simpl. congruence.
Qed.

#[global] Instance node_cmp_ok : CmpOk node_cmp.
Proof.
  apply (cmp_by (λ x, (vertex x, state x)) (pair_cmp lex_cmp Nat.compare)); [apply _| |done].
  intros [x1 x2] [y1 y2]. simpl. congruence.
Qed.

#[global] Instance arc_cmp_ok : CmpOk arc_cmp.
Proof.
  apply (cmp_by (λ x, (arc_source x, arc_target x)) (pair_cmp node_cmp node_cmp)); [apply _| |done].
  intros [x1 x2] [y1 y2]. simpl. congruence.
Qed.

Section collect.
Context {A : Type} (cmp : A → A → comparison) `{!CmpOk cmp}.

(** [collect] into a set, and out of it. *)
Lemma elem_of_collect x l : x ∈ bts_extend cmp [] l ↔ x ∈ l.
Proof. rewrite elem_of_bts_extend by done. set_solver. Qed.
Lemma collect_ascending l : ascending cmp (bts_extend cmp [] l).
Proof. apply bts_extend_ascending; [done|constructor]. Qed.
Lemma collect_same l l' : (∀ x, x ∈ l ↔ x ∈ l') → bts_extend cmp [] l = bts_extend cmp [] l'.
Proof.
  intros H. apply (ascending_unique cmp); [apply collect_ascending..|]. intros x. by rewrite !elem_of_collect.
Qed.
Lemma collect_id l l' : ascending cmp l' → (∀ x, x ∈ l ↔ x ∈ l') → bts_extend cmp [] l = l'.
Proof. intros Hl H. apply (ascending_unique cmp); [apply collect_ascending|done|]. intros x. by rewrite elem_of_collect. Qed.
End collect.

(** ** What a summary holds *)

(** The endpoints of an edge as a transition passes it, and the arc. *)
Definition edge_ends (t : Transition) (edge : GraphEdge) : RawInline * RawInline :=
  if is_reverse (tr_step t) then (ge_target edge, ge_source edge) else (ge_source edge, ge_target edge).
Definition edge_arc (t : Transition) (edge : GraphEdge) : ProductArc :=
  mkArc (mkNode (edge_ends t edge).1 (tr_from t)) (mkNode (edge_ends t edge).2 (tr_to t)).
Definition passes (t : Transition) (edge : GraphEdge) : Prop := step_lang (tr_step t) (is_reverse (tr_step t), ge_attribute edge).

Definition arc_ends (l : list ProductArc) (x : RawInline) : Prop :=
  ∃ arc, arc ∈ l ∧ (x = vertex (arc_source arc) ∨ x = vertex (arc_target arc)).
Definition edges_touch (l : list GraphEdge) (x : RawInline) : Prop :=
  ∃ edge, edge ∈ l ∧ (x = ge_source edge ∨ x = ge_target edge).

Record summary_of (A : Automaton) (edges : list GraphEdge) (S : PathSummary) : Prop := {
  so_automaton : automaton S = A;
  so_vertices : ascending lex_cmp (vertices S);
  so_arcs : ascending arc_cmp (arcs S);
  so_arc arc : arc ∈ arcs S ↔ ∃ t edge, t ∈ transitions A ∧ edge ∈ edges ∧ passes t edge ∧ arc = edge_arc t edge;
  so_vertex x : x ∈ vertices S ↔ (accepts_empty A = true ∧ edges_touch edges x) ∨ arc_ends (arcs S) x;
}.

Lemma summary_unique A edges edges' S S' : (∀ x, x ∈ edges ↔ x ∈ edges') → summary_of A edges S → summary_of A edges' S' → S = S'.
Proof.
  intros He [H1 H2 H3 H4 H5] [H1' H2' H3' H4' H5'].
  assert (arcs S = arcs S') as Ea.
  { apply (ascending_unique arc_cmp); [done..|]. intros arc. rewrite H4, H4'. by setoid_rewrite He. }
  assert (vertices S = vertices S') as Ev.
  { apply (ascending_unique lex_cmp); [done..|]. intros x. rewrite H5, H5', Ea. unfold edges_touch. by setoid_rewrite He. }
  destruct S, S'. simpl in *. congruence.
Qed.

(** ** Building *)

(** The arcs and vertices collected so far stand for the pairs [P]. *)
Record collected (base : RawInline → Prop) (P : Transition → GraphEdge → Prop) (acc : list RawInline * list ProductArc) : Prop := {
  cl_vertices : ascending lex_cmp acc.1;
  cl_arcs : ascending arc_cmp acc.2;
  cl_arc arc : arc ∈ acc.2 ↔ ∃ t edge, P t edge ∧ passes t edge ∧ arc = edge_arc t edge;
  cl_vertex x : x ∈ acc.1 ↔ base x ∨ arc_ends acc.2 x;
}.

Lemma collected_ext base P P' acc : (∀ t edge, P t edge ↔ P' t edge) → collected base P acc → collected base P' acc.
Proof. intros H [H1 H2 H3 H4]. split; [done..| |done]. intros arc. rewrite H3. by setoid_rewrite H. Qed.

Lemma arc_ends_insert arc l x : arc_ends (bts_insert arc_cmp arc l) x ↔
  x = vertex (arc_source arc) ∨ x = vertex (arc_target arc) ∨ arc_ends l x.
Proof.
  unfold arc_ends. split.
  - intros (y & Hy & Hx). apply elem_of_bts_insert in Hy; [|apply _]. destruct Hy as [->|Hy]; [tauto|]. right. right. by exists y.
  - intros H. assert (arc ∈ bts_insert arc_cmp arc l) as Ha by (apply elem_of_bts_insert; [apply _|by left]).
    destruct H as [H|[H|(y & Hy & Hx)]]; [exists arc; tauto..|]. exists y. split; [|done]. apply elem_of_bts_insert; [apply _|by right].
Qed.

Lemma lower_spec base P acc t edge : step_canonical (tr_step t) → collected base P acc →
  ∃ acc', lower edge acc t = Some acc' ∧ collected base (λ t' edge', P t' edge' ∨ t' = t ∧ edge' = edge) acc'.
Proof.
  intros Hs [H1 H2 H3 H4]. unfold lower. destruct (step_matches_spec _ (ge_attribute edge) Hs) as (b & -> & Hb). cbn [mbind option_bind].
  destruct b.
  - assert (passes t edge) as Hp by by apply Hb.
    exists (bts_insert lex_cmp (edge_ends t edge).2 (bts_insert lex_cmp (edge_ends t edge).1 acc.1),
      bts_insert arc_cmp (edge_arc t edge) acc.2).
    split; [unfold edge_arc, edge_ends; by destruct (is_reverse (tr_step t))|].
    split; simpl.
    + apply bts_insert_ascending; [apply _|]. apply bts_insert_ascending; [apply _|done].
    + apply bts_insert_ascending; [apply _|done].
    + intros arc. rewrite elem_of_bts_insert, H3 by apply _. split.
      * intros [->|(t' & e' & ? & ? & ->)]; [exists t, edge; tauto|exists t', e'; tauto].
      * intros (t' & e' & [?|[-> ->]] & ? & ->); [right; by exists t', e'|by left].
    + intros x. rewrite !elem_of_bts_insert, H4, arc_ends_insert by apply _. simpl. tauto.
  - eexists. split; [done|]. split; [done..| |done]. intros arc. rewrite H3. split.
    + intros (t' & e' & ? & ?). exists t', e'. tauto.
    + intros (t' & e' & [?|[-> ->]] & Hp & ->); [by exists t', e'|]. apply Hb in Hp. done.
Qed.

Lemma lower_all base edge ts : Forall (λ t, step_canonical (tr_step t)) ts → ∀ P acc, collected base P acc →
  ∃ acc', foldM (lower edge) acc ts = Some acc' ∧ collected base (λ t' edge', P t' edge' ∨ t' ∈ ts ∧ edge' = edge) acc'.
Proof.
  induction 1 as [|t ts Ht _ IH]; intros P acc Hc; cbn [foldM].
  - exists acc. split; [done|]. eapply collected_ext; [|done]. set_solver.
  - destruct (lower_spec base P acc t edge Ht Hc) as (acc1 & -> & H1). cbn [mbind option_bind].
    destruct (IH _ acc1 H1) as (acc2 & -> & H2). exists acc2. split; [done|]. eapply collected_ext; [|done]. set_solver.
Qed.

Lemma lower_edges base ts edges : Forall (λ t, step_canonical (tr_step t)) ts → ∀ P acc, collected base P acc →
  ∃ acc', foldM (λ acc edge, foldM (lower edge) acc ts) acc edges = Some acc' ∧
    collected base (λ t' edge', P t' edge' ∨ t' ∈ ts ∧ edge' ∈ edges) acc'.
Proof.
  intros Hts. induction edges as [|edge edges IH]; intros P acc Hc; cbn [foldM].
  - exists acc. split; [done|]. eapply collected_ext; [|done]. set_solver.
  - destruct (lower_all base edge ts Hts P acc Hc) as (acc1 & -> & H1). cbn [mbind option_bind].
    destruct (IH _ acc1 H1) as (acc2 & -> & H2). exists acc2. split; [done|]. eapply collected_ext; [|done]. set_solver.
Qed.

Lemma elem_of_edge_ends (l : list GraphEdge) x :
  x ∈ concat ((λ edge, [ge_source edge; ge_target edge]) <$> l) ↔ edges_touch l x.
Proof. induction l as [|y l IH]; unfold edges_touch in *; [set_solver|]. rewrite fmap_cons. cbn [concat]. rewrite elem_of_app, IH. set_solver. Qed.

Lemma from_edges_spec A edges : automaton_ok A → ∃ S, from_edges A edges = Some S ∧ summary_of A edges S.
Proof.
  intros HA. unfold from_edges.
  assert (∀ x, x ∈ bts_extend edge_cmp [] edges ↔ x ∈ edges) as He by (intros x; apply elem_of_collect; apply _).
  set (es := bts_extend edge_cmp [] edges) in *.
  set (base := if accepts_empty A then _ else []).
  assert (∀ x, x ∈ base ↔ accepts_empty A = true ∧ edges_touch edges x) as Hb.
  { intros x. unfold base. destruct (accepts_empty A); [|set_solver]. rewrite (elem_of_collect lex_cmp), elem_of_edge_ends.
    unfold edges_touch. setoid_rewrite He. naive_solver. }
  destruct (lower_edges (λ x, x ∈ base) (transitions A) es) with (P := λ (_ : Transition) (_ : GraphEdge), False) (acc := (base, @nil ProductArc))
    as ([vs arcs] & -> & [H1 H2 H3 H4]).
  - apply Forall_forall. apply HA.
  - split; simpl; [|constructor|set_solver|unfold arc_ends; set_solver].
    unfold base. destruct (accepts_empty A); [apply collect_ascending; apply _|constructor].
  - cbn [mbind option_bind]. eexists. split; [done|]. split; simpl in *; [done..| |].
    + intros arc. rewrite H3. setoid_rewrite He. naive_solver.
    + intros x. by rewrite H4, Hb.
Qed.

(** ** Union *)

Lemma merge_all_spec A edges summaries : summaries ≠ [] → Forall2 (summary_of A) edges summaries →
  ∃ S, merge_all summaries = inr S ∧ summary_of A (concat edges) S.
Proof.
  intros Hne Hs. assert (∀ S, S ∈ summaries → ∃ es, es ∈ edges ∧ summary_of A es S) as Hin.
  { intros S HS. apply list_elem_of_lookup in HS as [i Hi]. destruct (Forall2_lookup_r _ _ _ _ _ Hs Hi) as (es & Hes & ?).
    exists es. split; [by eapply list_elem_of_lookup_2|done]. }
  assert (∀ es, es ∈ edges → ∃ S, S ∈ summaries ∧ summary_of A es S) as Hin'.
  { intros es He. apply list_elem_of_lookup in He as [i Hi]. destruct (Forall2_lookup_l _ _ _ _ _ Hs Hi) as (S & HS & ?).
    exists S. split; [by eapply list_elem_of_lookup_2|done]. }
  clear Hs. unfold merge_all. destruct summaries as [|first rest]; [done|]. set (all := first :: rest) in *.
  assert (automaton first = A) as -> by (destruct (Hin first) as (? & _ & H); [by left|apply H]).
  destruct (existsb _ _) eqn:Ex.
  { apply existsb_exists in Ex as (S & HS & Hd). rewrite <- list_elem_of_In in HS. destruct (Hin S HS) as (? & _ & H).
    apply bool_decide_eq_true in Hd. by destruct Hd, H. }
  eexists. split; [done|]. split; cbn [automaton vertices arcs]; [done|apply collect_ascending; apply _|apply collect_ascending; apply _| |].
  - intros arc. rewrite (elem_of_collect arc_cmp), elem_of_concat_fmap. setoid_rewrite list_elem_of_In. setoid_rewrite in_concat.
    setoid_rewrite <- list_elem_of_In. split.
    + intros (S & HS & Ha). destruct (Hin S HS) as (es & Hes & H). destruct (proj1 (so_arc _ _ _ H arc) Ha) as (t & edge & Ht & He & Hp & E).
      exists t, edge. split_and!; [done| |done..]. by exists es.
    + intros (t & edge & Ht & (es & Hes & He) & Hp & E). destruct (Hin' es Hes) as (S & HS & H). exists S. split; [done|].
      apply (so_arc _ _ _ H). by exists t, edge.
  - intros x. rewrite (elem_of_collect lex_cmp), elem_of_concat_fmap. unfold edges_touch, arc_ends. split.
    + intros (S & HS & Hx). destruct (Hin S HS) as (es & Hes & H). destruct (proj1 (so_vertex _ _ _ H x) Hx) as [[Hn (edge & He & Hx')]|(arc & Ha & Hx')].
      * left. split; [done|]. exists edge. split; [|done]. rewrite list_elem_of_In, in_concat. setoid_rewrite <- list_elem_of_In. by exists es.
      * right. exists arc. split; [|done]. rewrite (elem_of_collect arc_cmp), elem_of_concat_fmap. by exists S.
    + intros [[Hn (edge & He & Hx)]|(arc & Ha & Hx)].
      * rewrite list_elem_of_In, in_concat in He. setoid_rewrite <- list_elem_of_In in He. destruct He as (es & Hes & He).
        destruct (Hin' es Hes) as (S & HS & H). exists S. split; [done|]. apply (so_vertex _ _ _ H). left. split; [done|]. by exists edge.
      * rewrite (elem_of_collect arc_cmp), elem_of_concat_fmap in Ha. destruct Ha as (S & HS & Ha). destruct (Hin S HS) as (es & Hes & H).
        exists S. split; [done|]. apply (so_vertex _ _ _ H). right. by exists arc.
Qed.

(** ** Ordinals *)

Lemma as_u32_small x : (N.of_nat x <= u32_max)%N → as_u32 x = x.
Proof. unfold as_u32, u32_max. intros Hx. rewrite N.mod_small by lia. apply Nat2N.id. Qed.

(** What [from_summary] relies on. *)
Record summary_ok (S : PathSummary) : Prop := {
  sk_automaton : automaton_ok (automaton S);
  sk_vertices : ascending lex_cmp (vertices S);
  sk_arcs : ascending arc_cmp (arcs S);
  sk_ends x : arc_ends (arcs S) x → x ∈ vertices S;
  sk_states arc : arc ∈ arcs S → state (arc_source arc) < state_count (automaton S) ∧ state (arc_target arc) < state_count (automaton S);
  sk_active x : accepts_empty (automaton S) = false → x ∈ vertices S → arc_ends (arcs S) x;
}.

Lemma summary_of_ok A edges S : automaton_ok A → summary_of A edges S → summary_ok S.
Proof.
  intros HA [H1 H2 H3 H4 H5]. split; rewrite ?H1; try done.
  - intros x Hx. apply H5. by right.
  - intros arc Ha. apply H4 in Ha as (t & edge & Ht & _ & _ & ->). simpl. split; apply (ao_states A HA); right; right; exists t; tauto.
  - intros x Hn Hx. apply H5 in Hx as [[Hx _]|Hx]; [congruence|done].
Qed.

Lemma automaton_states A : automaton_ok A → 0 < state_count A.
Proof.
  intros HA. destruct (initial A) as [|s l] eqn:E; [by destruct (ao_some A HA)|].
  assert (s < state_count A); [|lia]. apply (ao_states A HA). left. rewrite E. by left.
Qed.

Lemma elem_of_active S x : x ∈ active_vertices S ↔ arc_ends (arcs S) x.
Proof.
  unfold active_vertices. rewrite (elem_of_collect lex_cmp), elem_of_concat_fmap. unfold arc_ends. set_solver.
Qed.
Lemma active_ascending S : ascending lex_cmp (active_vertices S).
Proof. apply collect_ascending; apply _. Qed.

(** A summary that is not nullable has only the vertices of its arcs. *)
Lemma canonical_domain S : summary_ok S → has_canonical_domain S = true.
Proof.
  intros HS. unfold has_canonical_domain. destruct (accepts_empty (automaton S)) eqn:En; [done|]. apply bool_decide_eq_true.
  apply (ascending_unique lex_cmp); [apply HS|apply active_ascending|]. intros x. rewrite elem_of_active.
  split; [by apply (sk_active S HS)|apply (sk_ends S HS)].
Qed.

(** The pair of a position among the vertices and a state. *)
Definition product_ordinal (states i q : nat) : nat := i * states + q.

Lemma product_ordinal_div states i q : q < states → product_ordinal states i q / states = i ∧ product_ordinal states i q mod states = q.
Proof.
  intros Hq. unfold product_ordinal. rewrite (Nat.add_comm (i * states)). rewrite Nat.div_add, Nat.Div0.mod_add by lia.
  by rewrite Nat.div_small, Nat.mod_small by done.
Qed.

Lemma product_ordinal_lt states n i q : q < states → i < n → product_ordinal states i q < n * states.
Proof. unfold product_ordinal. nia. Qed.

Lemma node_ordinal_spec states vs i x q : ascending lex_cmp vs → vs !! i = Some x → q < states →
  (N.of_nat (length vs * states) <= u32_max)%N → node_ordinal states vs (mkNode x q) = Some (product_ordinal states i q).
Proof.
  intros Hvs Hi Hq Hn. unfold node_ordinal. cbn [vertex state]. destruct (path_search_spec lex_cmp vs x Hvs) as (o & -> & Ho).
  cbn [mbind option_bind]. destruct o as [j|].
  2:{ destruct Ho. by eapply list_elem_of_lookup_2. }
  assert (j = i) as -> by (eapply (NoDup_lookup vs); [by eapply (ascending_NoDup lex_cmp)|done|done]).
  cbn [mbind option_bind]. apply lookup_lt_Some in Hi. pose proof (product_ordinal_lt states (length vs) i q Hq Hi) as Hlt.
  unfold product_ordinal in *. assert (i <= length vs * states) by nia.
  rewrite (as_u32_small i), (as_u32_small (i * states)), as_u32_small by lia. done.
Qed.

Lemma ordinal_node_spec states vs i x q : vs !! i = Some x → q < states →
  ordinal_node states vs (product_ordinal states i q) = Some (mkNode x q).
Proof.
  intros Hi Hq. unfold ordinal_node. rewrite (proj2 (Nat.leb_le 1 states)) by lia. cbn [massert mbind option_bind].
  destruct (product_ordinal_div states i q Hq) as [-> ->]. by rewrite Hi.
Qed.

(** The position of a vertex. *)
Definition place (vs : list RawInline) (x : RawInline) : nat := from_option id 0 (fst <$> list_find (x =.) vs).

Lemma place_spec vs x : x ∈ vs → vs !! place vs x = Some x.
Proof.
  intros Hx. unfold place. destruct (list_find_elem_of (x =.) vs x Hx eq_refl) as [[i y] Hf]. rewrite Hf. simpl.
  by apply list_find_Some in Hf as (-> & <- & _).
Qed.

Lemma place_unique vs i x : ascending lex_cmp vs → vs !! i = Some x → place vs x = i.
Proof.
  intros Hvs Hi. eapply (NoDup_lookup vs); [by eapply (ascending_NoDup lex_cmp)|apply place_spec; by eapply list_elem_of_lookup_2|done].
Qed.

Definition node_place (states : nat) (vs : list RawInline) (node : ProductNode) : nat :=
  product_ordinal states (place vs (vertex node)) (state node).

Lemma ordinal_arcs_spec S vs : summary_ok S → ascending lex_cmp vs → (∀ x, arc_ends (arcs S) x → x ∈ vs) →
  (N.of_nat (length vs * state_count (automaton S)) <= u32_max)%N →
  let place := node_place (state_count (automaton S)) vs in
  ordinal_arcs_in S vs = Some ((λ arc, (place (arc_source arc), place (arc_target arc))) <$> arcs S) ∧
  ∀ arc, arc ∈ arcs S → place (arc_source arc) < length vs * state_count (automaton S) ∧
    place (arc_target arc) < length vs * state_count (automaton S).
Proof.
  intros HS Hvs Hends Hn place'. assert (∀ arc, arc ∈ arcs S → vertex (arc_source arc) ∈ vs ∧ vertex (arc_target arc) ∈ vs) as Hv.
  { intros arc Ha. split; apply Hends; exists arc; tauto. }
  split.
  - unfold ordinal_arcs_in. apply mapM_total. intros [[x q] [y r]] Ha. destruct (sk_states S HS _ Ha) as [Hq Hr], (Hv _ Ha) as [Hx Hy].
    simpl in *. rewrite (node_ordinal_spec _ vs _ x q Hvs (place_spec vs x Hx) Hq Hn). cbn [mbind option_bind].
    by rewrite (node_ordinal_spec _ vs _ y r Hvs (place_spec vs y Hy) Hr Hn).
  - intros arc Ha. destruct (sk_states S HS _ Ha) as [Hq Hr], (Hv _ Ha) as [Hx Hy].
    split; apply product_ordinal_lt; try done; eapply lookup_lt_Some; (apply (place_spec vs _ Hx) || apply (place_spec vs _ Hy)).
Qed.

Lemma read_arcs_spec states vs n l : (∀ arc, arc ∈ l → state (arc_source arc) < states ∧ state (arc_target arc) < states ∧
    vertex (arc_source arc) ∈ vs ∧ vertex (arc_target arc) ∈ vs) → n = length vs * states → ∀ acc,
  read_arcs states vs n ((λ arc, (node_place states vs (arc_source arc), node_place states vs (arc_target arc))) <$> l) acc =
    Some (inr (acc ++ l)).
Proof.
  intros Hl ->. induction l as [|[[x q] [y r]] l IH]; intros acc; [by rewrite app_nil_r|]. rewrite fmap_cons. cbn [read_arcs].
  destruct (Hl (mkArc (mkNode x q) (mkNode y r))) as (Hq & Hr & Hx & Hy); [by left|]. cbn [arc_source arc_target vertex state] in *.
  pose proof (place_spec vs x Hx) as Px. pose proof (place_spec vs y Hy) as Py.
  change (node_place states vs (mkNode x q)) with (product_ordinal states (place vs x) q).
  change (node_place states vs (mkNode y r)) with (product_ordinal states (place vs y) r).
  pose proof (product_ordinal_lt states (length vs) (place vs x) q Hq (lookup_lt_Some _ _ _ Px)) as L1.
  pose proof (product_ordinal_lt states (length vs) (place vs y) r Hr (lookup_lt_Some _ _ _ Py)) as L2.
  rewrite (proj2 (Nat.leb_gt _ _) L1), (proj2 (Nat.leb_gt _ _) L2). cbn [orb].
  rewrite (ordinal_node_spec _ _ _ _ _ Px Hq), (ordinal_node_spec _ _ _ _ _ Py Hr). cbn [mbind option_bind].
  rewrite IH by (intros arc Ha; apply Hl; by right). by rewrite <- app_assoc.
Qed.

(** Ordinals give the summary back. *)
Lemma ordinals_roundtrip S : summary_ok S → (N.of_nat (length (vertices S) * state_count (automaton S)) <= u32_max)%N →
  ∃ ordinals, ordinal_arcs S = Some ordinals ∧ from_canonical_ordinals (automaton S) (vertices S) ordinals = Some (inr S).
Proof.
  intros HS Hn. destruct (ordinal_arcs_spec S (vertices S) HS (sk_vertices S HS) (sk_ends S HS) Hn) as [E _].
  eexists. split; [exact E|]. unfold from_canonical_ordinals, usize_mul.
  rewrite (proj2 (N.leb_le _ _)) by (unfold usize_max, u32_max in *; lia). rewrite read_arcs_spec; [| |done].
  - cbn [mbind option_bind]. by destruct S.
  - intros arc Ha. destruct (sk_states S HS arc Ha) as [Hq Hr]. split_and!; [done|done|..]; apply (sk_ends S HS); exists arc; tauto.
Qed.
