(* ===== verification/PathBlob.v ===== *)
(** * PathBlob: stored automata and summaries

    Source: [triblespace-paths/src/persistence.rs].

    An automaton is stored as its canonical wire; a summary as a header that
    names its automaton by the hash of that wire, its vertices and the ordinals
    of its arcs.  Reads check the shape, audits the canonical form.  The content
    hash of a blob is an argument.  A blob is its bytes; counts on the wire are
    [N] until they are known to be small; allocation is not modelled. *)

From S2P Require Import Prelude Lex BTree Trible SimpleArchive PathExpr PathLanguage PathCompile PathSummary.

Open Scope nat_scope.

(** ** Integers on the wire *)

Definition push_u32 (value : nat) : list N := le_bytes 4 (N.of_nat value).
Definition push_u64 (value : nat) : list N := le_bytes 8 (N.of_nat value).

(** [checked_mul] and [checked_add] on [usize]. *)
Definition fits_usize (x : N) : option N := if (x <=? usize_max)%N then Some x else None.

(** [bytes[from..to]] *)
Definition bytes_at (bytes : list N) (from to : nat) : res (list N) :=
  if (from <=? to) && (to <=? length bytes) then Some (take (to - from) (drop from bytes)) else None.

(** [chunks_exact(n)]: what remains is left out. *)
Definition chunks_exact (n : nat) (l : list N) : list (list N) := take (length l / n) (chunks n l).

(** ** Automata *)

Module AutomatonBlob.

Definition HEADER_LEN : nat := 40.
Definition VERSION : N := 1.
Definition DOMAIN : list N := [52; 18; 22; 191; 231; 56; 226; 216; 43; 255; 249; 111; 82; 231; 254; 6]%N.

Inductive Error :=
  | BadLength
  | WrongDomain
  | UnsupportedVersion (version : N)
  | InvalidOpcode (opcode : N)
  | InvalidExactLabelCount
  | InvalidAutomaton (source : AutomatonError)
  | NonCanonical.

Definition opcode_of (step : Step) : N :=
  match step with Forward _ => 0 | Reverse _ => 1 | ForwardExcept _ => 2 | ReverseExcept _ => 3 end.
Definition labels_of (step : Step) : list RawId :=
  match step with Forward label | Reverse label => [label] | ForwardExcept labels | ReverseExcept labels => labels end.

Definition transition_wire (transition : Transition) : list N :=
  let labels := labels_of (tr_step transition) in
  push_u32 (tr_from transition) ++ push_u32 (tr_to transition) ++ [opcode_of (tr_step transition)] ++
    push_u64 (length labels) ++ concat labels.

Definition automaton_wire (automaton : Automaton) : res (list N) :=
  initial_count ← to_u32 (length (initial automaton));
  accepting_count ← to_u32 (length (accepting automaton));
  let transitions := sort_unstable lex_cmp (transition_wire <$> transitions automaton) in
  Some (DOMAIN ++ le_bytes 4 VERSION ++ push_u32 (state_count automaton) ++ push_u32 initial_count ++ push_u32 accepting_count ++
    push_u64 (length transitions) ++ concat (push_u32 <$> initial automaton) ++ concat (push_u32 <$> accepting automaton) ++
    concat transitions).

(** [AutomatonWireReader]: the bytes and the offset. *)
Record Reader := mkReader { rd_bytes : list N; rd_offset : nat }.
Abbreviation read A := (Reader → Error + (A * Reader))%type.

(** The end of the run is a [checked_add]; [get] refuses a run that leaves the bytes. *)
Definition take_bytes (length_ : nat) : read (list N) := λ r,
  match usize_add (rd_offset r) length_ with
  | None => inl BadLength
  | Some end_ =>
      if end_ <=? length (rd_bytes r) then
        inr (take length_ (drop (rd_offset r) (rd_bytes r)), mkReader (rd_bytes r) end_)
      else inl BadLength
  end.

Definition read_uint (size : nat) : read N := λ r,
  '(bytes, r) ←? take_bytes size r; inr (of_le_bytes bytes, r).
Definition remaining (r : Reader) : nat := length (rd_bytes r) - rd_offset r.

(** [count] reads in a row. *)
Fixpoint read_many {A} (item : read A) (count : nat) (r : Reader) : Error + (list A * Reader) :=
  match count with
  | 0 => inr ([], r)
  | S count =>
      '(x, r) ←? item r;
      '(xs, r) ←? read_many item count r;
      inr (x :: xs, r)
  end.

Definition read_state : read StateId := λ r, '(state, r) ←? read_uint 4 r; inr (N.to_nat state, r).

Definition step_from (opcode : N) (labels : list RawId) : Error + Step :=
  match opcode, labels with
  | 0%N, [label] => inr (Forward label)
  | 1%N, [label] => inr (Reverse label)
  | 0%N, _ | 1%N, _ => inl InvalidExactLabelCount
  | 2%N, labels => inr (ForwardExcept labels)
  | 3%N, labels => inr (ReverseExcept labels)
  | opcode, _ => inl (InvalidOpcode opcode)
  end.

Definition read_transition : read Transition := λ r,
  '(from, r) ←? read_state r;
  '(to, r) ←? read_state r;
  '(opcode, r) ←? read_uint 1 r;
  '(label_count, r) ←? read_uint 8 r;
  match fits_usize (label_count * 16) with
  | None => inl BadLength
  | Some label_bytes =>
      if (N.of_nat (remaining r) <? label_bytes)%N then inl BadLength else
      '(labels, r) ←? read_many (take_bytes 16) (N.to_nat label_count) r;
      step ←? step_from opcode labels;
      inr (mkTransition from to step, r)
  end.

Definition decode (bytes : list N) : Error + Automaton :=
  if length bytes <? HEADER_LEN then inl BadLength else
  let r := mkReader bytes 0 in
  '(domain, r) ←? take_bytes (length DOMAIN) r;
  if decide (domain ≠ DOMAIN) then inl WrongDomain else
  '(version, r) ←? read_uint 4 r;
  if negb (version =? VERSION)%N then inl (UnsupportedVersion version) else
  '(state_count, r) ←? read_state r;
  '(initial_count, r) ←? read_uint 4 r;
  '(accepting_count, r) ←? read_uint 4 r;
  '(transition_count, r) ←? read_uint 8 r;
  match (count ← fits_usize (initial_count + accepting_count); fits_usize (count * 4)) with
  | None => inl BadLength
  | Some state_bytes =>
      if (N.of_nat (remaining r) <? state_bytes)%N then inl BadLength else
      '(initial, r) ←? read_many read_state (N.to_nat initial_count) r;
      '(accepting, r) ←? read_many read_state (N.to_nat accepting_count) r;
      if (N.of_nat (remaining r) / 17 <? transition_count)%N then inl BadLength else
      '(transitions, r) ←? read_many read_transition (N.to_nat transition_count) r;
      if negb (rd_offset r =? length (rd_bytes r)) then inl BadLength else
      match automaton_new state_count initial accepting transitions with
      | inl source => inl (InvalidAutomaton source)
      | inr automaton => inr automaton
      end
  end.

Definition audit (bytes : list N) : res (Error + Automaton) :=
  match decode bytes with
  | inl error => Some (inl error)
  | inr automaton =>
      wire ← automaton_wire automaton;
      Some (if decide (wire ≠ bytes) then inl NonCanonical else inr automaton)
  end.

End AutomatonBlob.

(** ** Summaries *)

Module SummaryBlob.

Definition HEADER_LEN : N := 48.

Inductive Error :=
  | BadLength
  | DifferentAutomaton
  | NoncanonicalDomain
  | VertexOrder
  | ArcOrder
  | ArcOutOfBounds
  | InvalidStatePair
  | Join (source : PathError)
  | CapacityOverflow.

Section blob.
(** The content hash. *)
Context (get_handle : list N → list N).

(** [ok_or(CapacityOverflow)] *)
Definition capacity {A} (x : option A) : Error + A := match x with Some x => inr x | None => inl CapacityOverflow end.

Definition checked_product_count (vertex_count state_count : N) : Error + N :=
  product_count ←? capacity (fits_usize (vertex_count * state_count));
  if (u32_max <? product_count)%N then inl CapacityOverflow else inr product_count.

Definition checked_length (vertex_count arc_count : N) : option (N * N) :=
  vertex_bytes ← fits_usize (vertex_count * 32);
  arc_bytes ← fits_usize (arc_count * 8);
  length ← fits_usize (HEADER_LEN + vertex_bytes);
  length ← fits_usize (length + arc_bytes);
  Some (vertex_bytes, length).

(** [automaton_handle] *)
Definition automaton_handle (bytes : list N) : res (Error + list N) :=
  if (N.of_nat (length bytes) <? HEADER_LEN)%N then Some (inl BadLength) else
  handle ← bytes_at bytes 0 32; Some (inr handle).

Definition arc_wire (arc : nat * nat) : list N := push_u32 arc.1 ++ push_u32 arc.2.

Definition encode (summary : PathSummary) : res (Error + list N) :=
  if negb (has_canonical_domain summary) then Some (inl NoncanonicalDomain) else
  match to_u32 (length (vertices summary)) with
  | None => Some (inl CapacityOverflow)
  | Some vertex_count =>
      match checked_product_count (N.of_nat (length (vertices summary))) (N.of_nat (state_count (automaton summary))) with
      | inl error => Some (inl error)
      | inr _ =>
          arcs ← ordinal_arcs summary;
          match checked_length (N.of_nat (length (vertices summary))) (N.of_nat (length arcs)) with
          | None => Some (inl CapacityOverflow)
          | Some _ =>
              wire ← AutomatonBlob.automaton_wire (automaton summary);
              Some (inr (get_handle wire ++ push_u32 (state_count (automaton summary)) ++ push_u32 vertex_count ++
                push_u64 (length arcs) ++ concat (vertices summary) ++ concat (arc_wire <$> arcs)))
          end
      end
  end.

(** The empty summary; encoding is expected to succeed. *)
Definition empty (automaton : Automaton) : res (list N) :=
  summary ← from_edges automaton [];
  blob ← encode summary;
  match blob with inr blob => Some blob | inl _ => None end.

(** [ValidatedHeader] *)
Record Header := mkHeader { h_vertex_count : N; h_vertex_bytes : N; h_arc_count : N; h_product_count : N }.

Definition read_at (bytes : list N) (offset size : nat) : res N :=
  l ← bytes_at bytes offset (offset + size); Some (of_le_bytes l).

Definition structural_header (bytes : list N) (expected_state_count : StateId) : res (Error + Header) :=
  if (N.of_nat (length bytes) <? HEADER_LEN)%N then Some (inl BadLength) else
  state_count ← read_at bytes 32 4;
  if negb (state_count =? N.of_nat expected_state_count)%N then Some (inl DifferentAutomaton) else
  vertex_count ← read_at bytes 36 4;
  arc_count ← read_at bytes 40 8;
  Some (
    '(vertex_bytes, expected_length) ←? capacity (checked_length vertex_count arc_count);
    if negb (N.of_nat (length bytes) =? expected_length)%N then inl BadLength else
    product_count ←? checked_product_count vertex_count state_count;
    inr (mkHeader vertex_count vertex_bytes arc_count product_count)).

Definition validate_header (bytes : list N) (automaton : Automaton) : res (Error + Header) :=
  if (N.of_nat (length bytes) <? HEADER_LEN)%N then Some (inl BadLength) else
  expected ← AutomatonBlob.automaton_wire automaton;
  found ← bytes_at bytes 0 32;
  if decide (found ≠ get_handle expected) then Some (inl DifferentAutomaton) else
  structural_header bytes (state_count automaton).

Definition read_vertices (bytes : list N) (vertex_bytes : nat) : res (list RawInline) :=
  l ← bytes_at bytes (N.to_nat HEADER_LEN) (N.to_nat HEADER_LEN + vertex_bytes); Some (chunks_exact 32 l).
Definition arc_chunks (bytes : list N) (vertex_bytes : nat) : res (list (list N)) :=
  l ← bytes_at bytes (N.to_nat HEADER_LEN + vertex_bytes) (length bytes); Some (chunks_exact 8 l).

Definition read_arc (chunk : list N) : nat * nat :=
  (N.to_nat (of_le_bytes (take 4 chunk)), N.to_nat (of_le_bytes (drop 4 chunk))).
Definition in_carrier (product_count : N) (arc : nat * nat) : bool :=
  (N.of_nat arc.1 <? product_count)%N && (N.of_nat arc.2 <? product_count)%N.

Fixpoint decode_arcs (product_count : N) (chunks : list (list N)) : Error + list (nat * nat) :=
  match chunks with
  | [] => inr []
  | chunk :: chunks =>
      let arc := read_arc chunk in
      if negb (in_carrier product_count arc) then inl ArcOutOfBounds else
      arcs ←? decode_arcs product_count chunks;
      inr (arc :: arcs)
  end.

(** [from_canonical_ordinals] with its error mapped. *)
Definition read_summary (automaton : Automaton) (vertices : list RawInline) (arcs : list (nat * nat)) : res (Error + PathSummary) :=
  o ← from_canonical_ordinals automaton vertices arcs;
  Some (match o with inl _ => inl CapacityOverflow | inr summary => inr summary end).

Definition decode (bytes : list N) (automaton : Automaton) : res (Error + PathSummary) :=
  header ← structural_header bytes (state_count automaton);
  match header with
  | inl error => Some (inl error)
  | inr header =>
      vertices ← read_vertices bytes (N.to_nat (h_vertex_bytes header));
      chunks ← arc_chunks bytes (N.to_nat (h_vertex_bytes header));
      match decode_arcs (h_product_count header) chunks with
      | inl error => Some (inl error)
      | inr arcs => read_summary automaton vertices arcs
      end
  end.

(** The arcs in order, each along a transition.  No state makes an empty carrier. *)
Fixpoint audit_arcs (product_count : N) (state_count : StateId) (allowed : list (nat * nat)) (chunks : list (list N))
    (previous : option (nat * nat)) : res (Error + list (nat * nat)) :=
  match chunks with
  | [] => Some (inr [])
  | chunk :: chunks =>
      let arc := read_arc chunk in
      if negb (in_carrier product_count arc) then Some (inl ArcOutOfBounds) else
      _ ← massert (1 <=? state_count);
      if negb (bool_decide ((arc.1 mod state_count, arc.2 mod state_count) ∈ allowed)) then Some (inl InvalidStatePair) else
      if match previous with Some previous => match pair_cmp Nat.compare Nat.compare previous arc with Lt => false | _ => true end
         | None => false end then Some (inl ArcOrder) else
      rest ← audit_arcs product_count state_count allowed chunks (Some arc);
      Some (arcs ←? rest; inr (arc :: arcs))
  end.

Definition audit (bytes : list N) (automaton : Automaton) : res (Error + PathSummary) :=
  header ← validate_header bytes automaton;
  match header with
  | inl error => Some (inl error)
  | inr header =>
      vertices ← read_vertices bytes (N.to_nat (h_vertex_bytes header));
      if existsb (λ pair, lex_le pair.2 pair.1) (windows2 vertices) then Some (inl VertexOrder) else
      let allowed := bts_extend (pair_cmp Nat.compare Nat.compare) [] ((λ t, (tr_from t, tr_to t)) <$> transitions automaton) in
      chunks ← arc_chunks bytes (N.to_nat (h_vertex_bytes header));
      arcs ← audit_arcs (h_product_count header) (state_count automaton) allowed chunks None;
      match arcs with
      | inl error => Some (inl error)
      | inr arcs =>
          summary ← read_summary automaton vertices arcs;
          Some (summary ←? summary; if negb (has_canonical_domain summary) then inl NoncanonicalDomain else inr summary)
      end
  end.

Definition join (left_blob right_blob : list N) (automaton : Automaton) : res (Error + list N) :=
  audited ← audit left_blob automaton;
  match audited with
  | inl error => Some (inl error)
  | inr left_summary =>
      audited ← audit right_blob automaton;
      match audited with
      | inl error => Some (inl error)
      | inr right_summary =>
          match merge left_summary right_summary with
          | inl source => Some (inl (Join source))
          | inr joined => encode joined
          end
      end
  end.

End blob.
End SummaryBlob.

(** ** Reading an automaton *)

Section reading.
Import AutomatonBlob.
Context (bytes : list N) (Hsmall : (N.of_nat (length bytes) <= usize_max)%N).

(** The reader stands before [rest]. *)
Definition before (r : Reader) (rest : list N) : Prop :=
  rd_bytes r = bytes ∧ rd_offset r <= length bytes ∧ drop (rd_offset r) bytes = rest.

Lemma before_remaining r rest : before r rest → remaining r = length rest.
Proof. intros (E & Hle & <-). unfold remaining. by rewrite E, length_drop. Qed.

Lemma take_bytes_ok r l rest : before r (l ++ rest) → ∃ r', take_bytes (length l) r = inr (l, r') ∧ before r' rest.
Proof.
  intros (E & Hle & Hd). pose proof (f_equal length Hd) as Hl. rewrite length_drop, length_app in Hl.
  exists (mkReader bytes (rd_offset r + length l)). unfold take_bytes, usize_add. rewrite (proj2 (N.leb_le _ _)) by lia.
  rewrite E, (proj2 (Nat.leb_le _ _)) by lia. rewrite Hd, take_app_length. split; [done|]. split_and!; [done|simpl; lia|].
  simpl. by rewrite <- drop_drop, Hd, drop_app_length.
Qed.

Lemma read_uint_ok r size x rest : (x < 256 ^ N.of_nat size)%N → before r (le_bytes size x ++ rest) →
  ∃ r', read_uint size r = inr (x, r') ∧ before r' rest.
Proof.
  intros Hx Hr. destruct (take_bytes_ok r (le_bytes size x) rest Hr) as (r' & E & Hr'). rewrite le_bytes_length in E.
  exists r'. unfold read_uint. rewrite E. split; [|done]. by rewrite of_le_le_bytes.
Qed.

Lemma read_state_ok r s rest : (N.of_nat s <= u32_max)%N → before r (push_u32 s ++ rest) →
  ∃ r', read_state r = inr (s, r') ∧ before r' rest.
Proof.
  intros Hs Hr. destruct (read_uint_ok r 4 (N.of_nat s) rest) as (r' & E & Hr'); [unfold u32_max in Hs; change (256 ^ N.of_nat 4)%N with (2 ^ 32)%N; lia|done|].
  exists r'. unfold read_state. rewrite E. by rewrite Nat2N.id.
Qed.

Lemma read_many_ok {A} (item : read A) (wire : A → list N) xs : (∀ x r rest, x ∈ xs → before r (wire x ++ rest) →
    ∃ r', item r = inr (x, r') ∧ before r' rest) → ∀ r rest, before r (concat (wire <$> xs) ++ rest) →
  ∃ r', read_many item (length xs) r = inr (xs, r') ∧ before r' rest.
Proof.
  induction xs as [|x xs IH]; intros Hitem r rest Hr; [by exists r|]. rewrite fmap_cons in Hr. cbn [concat] in Hr.
  rewrite <- app_assoc in Hr. destruct (Hitem x r _ (list_elem_of_here _ _) Hr) as (r1 & E1 & H1).
  destruct (IH (λ y r' rest' Hy, Hitem y r' rest' (list_elem_of_further _ _ _ Hy)) r1 rest H1) as (r2 & E2 & H2).
  exists r2. cbn [length read_many]. by rewrite E1, E2.
Qed.

(** What a transition needs to be written: states of 32 bits, labels of 16 bytes. *)
Definition wire_transition (t : Transition) : Prop :=
  (N.of_nat (tr_from t) <= u32_max)%N ∧ (N.of_nat (tr_to t) <= u32_max)%N ∧ Forall (λ label, length label = 16) (labels_of (tr_step t)).

Lemma labels_length t : wire_transition t → length (concat (labels_of (tr_step t))) = length (labels_of (tr_step t)) * 16.
Proof.
  intros (_ & _ & Hl). induction Hl as [|label labels H _ IH]; [done|]. cbn [concat length]. rewrite length_app, IH, H. lia.
Qed.

Lemma step_from_ok step : step_from (opcode_of step) (labels_of step) = inr step.
Proof. by destruct step. Qed.

Lemma read_transition_ok r t rest : wire_transition t → before r (transition_wire t ++ rest) →
  ∃ r', read_transition r = inr (t, r') ∧ before r' rest.
Proof.
  intros Ht Hr. pose proof Ht as (Hf & Hto & Hlab). pose proof (labels_length t Ht) as Hlen. unfold transition_wire in Hr.
  rewrite <- !app_assoc in Hr. destruct (read_state_ok r _ _ Hf Hr) as (r1 & E1 & H1).
  destruct (read_state_ok r1 _ _ Hto H1) as (r2 & E2 & H2).
  destruct (read_uint_ok r2 1 (opcode_of (tr_step t)) (push_u64 (length (labels_of (tr_step t))) ++ concat (labels_of (tr_step t)) ++ rest))
    as (r3 & E3 & H3); [by destruct (tr_step t)|by destruct (tr_step t)|].
  assert (length (concat (labels_of (tr_step t))) <= length bytes) as Hle.
  { destruct H3 as (_ & _ & Hd). apply (f_equal length) in Hd. rewrite length_drop, !length_app in Hd. lia. }
  assert (N.of_nat (length (labels_of (tr_step t))) * 16 <= usize_max)%N as Hfits by lia.
  destruct (read_uint_ok r3 8 (N.of_nat (length (labels_of (tr_step t)))) (concat (labels_of (tr_step t)) ++ rest)) as (r4 & E4 & H4);
    [unfold usize_max in Hfits; change (256 ^ N.of_nat 8)%N with (2 ^ 64)%N; lia|done|].
  destruct (read_many_ok (take_bytes 16) id (labels_of (tr_step t))) with (r := r4) (rest := rest) as (r5 & E5 & H5).
  { intros label r' rest' Hin Hb. rewrite Forall_forall in Hlab. rewrite <- (Hlab label Hin). by apply take_bytes_ok. }
  { by rewrite list_fmap_id. }
  exists r5. split; [|done]. unfold read_transition. rewrite E1, E2, E3, E4. unfold fits_usize. rewrite (proj2 (N.leb_le _ _) Hfits).
  rewrite (before_remaining r4 _ H4), length_app. rewrite (proj2 (N.ltb_ge _ _)) by lia. rewrite Nat2N.id, E5, step_from_ok. by destruct t.
Qed.
End reading.

Section automata.
Import AutomatonBlob.
Implicit Types (A : Automaton) (ts : list Transition).

Definition automaton_bytes A ts : list N :=
  DOMAIN ++ le_bytes 4 VERSION ++ push_u32 (state_count A) ++ push_u32 (length (initial A)) ++ push_u32 (length (accepting A)) ++
    push_u64 (length ts) ++ concat (push_u32 <$> initial A) ++ concat (push_u32 <$> accepting A) ++ concat (transition_wire <$> ts).

(** What an automaton needs to be written. *)
Record wire_automaton A : Prop := {
  wa_ok : automaton_ok A;
  wa_states : (N.of_nat (state_count A) <= u32_max)%N;
  wa_labels t : t ∈ transitions A → Forall (λ label, length label = 16) (labels_of (tr_step t));
}.

Lemma ascending_below (l : list nat) n : ascending Nat.compare l → (∀ x, x ∈ l → x < n) → length l <= n.
Proof.
  intros Ha Hl. rewrite <- (length_seq n 0). apply submseteq_length, NoDup_submseteq; [by eapply (ascending_NoDup Nat.compare)|].
  intros x Hx%Hl. apply elem_of_seq. lia.
Qed.

Lemma wire_counts A : wire_automaton A → length (initial A) <= state_count A ∧ length (accepting A) <= state_count A ∧
  ∀ t, t ∈ transitions A → wire_transition t.
Proof.
  intros [HA Hn Hlab]. pose proof (ao_states A HA) as Hs. split_and!.
  - apply ascending_below; [apply HA|]. intros s Hin. apply Hs. by left.
  - apply ascending_below; [apply HA|]. intros s Hin. apply Hs. right. by left.
  - intros t Ht. assert (tr_from t < state_count A ∧ tr_to t < state_count A) as [H1 H2] by (split; apply Hs; right; right; exists t; tauto).
    split_and!; [lia..|by apply Hlab].
Qed.

Lemma transition_wire_length t : 17 <= length (transition_wire t).
Proof. unfold transition_wire, push_u32, push_u64. rewrite !length_app, !le_bytes_length. simpl. lia. Qed.
Lemma transitions_length ts : length ts * 17 <= length (concat (transition_wire <$> ts)).
Proof.
  induction ts as [|t ts IH]; [done|]. rewrite fmap_cons. cbn [concat length]. rewrite length_app.
  pose proof (transition_wire_length t). lia.
Qed.
Lemma states_length (l : list nat) : length (concat (push_u32 <$> l)) = length l * 4.
Proof. induction l as [|s l IH]; [done|]. rewrite fmap_cons. cbn [concat length]. rewrite length_app, IH. unfold push_u32. rewrite le_bytes_length. lia. Qed.

(** The bytes of an automaton are read back, whatever the order of its transitions. *)
Lemma decode_automaton_bytes A ts : wire_automaton A → (∀ t, t ∈ ts → t ∈ transitions A) →
  (N.of_nat (length (automaton_bytes A ts)) <= usize_max)%N →
  decode (automaton_bytes A ts) = match automaton_new (state_count A) (initial A) (accepting A) ts with
    | inl source => inl (InvalidAutomaton source) | inr A => inr A end.
Proof.
  intros HA Hts Hsmall. destruct (wire_counts A HA) as (Hi & Ha & Ht). pose proof (wa_states A HA) as Hn.
  assert (∀ n, (N.of_nat n <= u32_max)%N → (N.of_nat n < 256 ^ N.of_nat 4)%N) as H32.
  { intros n Hle. unfold u32_max in Hle. change (256 ^ N.of_nat 4)%N with (2 ^ 32)%N. lia. }
  unfold decode. set (bytes := automaton_bytes A ts) in *.
  assert (before bytes (mkReader bytes 0) bytes) as H0 by (split_and!; [done|simpl; lia|done]).
  unfold bytes in H0 at 3. unfold automaton_bytes in H0.
  rewrite (proj2 (Nat.ltb_ge _ _)).
  2:{ unfold bytes, automaton_bytes, push_u32, push_u64. rewrite !length_app, !le_bytes_length. unfold HEADER_LEN. simpl length. lia. }
  destruct (take_bytes_ok bytes Hsmall _ _ _ H0) as (r1 & -> & H1). rewrite decide_False by (intros H; by apply H).
  destruct (read_uint_ok bytes Hsmall r1 4 VERSION _ ltac:(done) H1) as (r2 & -> & H2). rewrite N.eqb_refl. cbn [negb].
  destruct (read_state_ok bytes Hsmall r2 _ _ Hn H2) as (r3 & -> & H3).
  destruct (read_uint_ok bytes Hsmall r3 4 (N.of_nat (length (initial A))) _ (H32 (length (initial A)) ltac:(lia)) H3) as (r4 & -> & H4).
  destruct (read_uint_ok bytes Hsmall r4 4 (N.of_nat (length (accepting A))) _ (H32 (length (accepting A)) ltac:(lia)) H4) as (r5 & -> & H5).
  assert (length ts * 17 + length (initial A) * 4 + length (accepting A) * 4 <= length bytes) as Hlen.
  { unfold bytes, automaton_bytes. rewrite !length_app, !states_length. pose proof (transitions_length ts). lia. }
  destruct (read_uint_ok bytes Hsmall r5 8 (N.of_nat (length ts)) (concat (push_u32 <$> initial A) ++
    concat (push_u32 <$> accepting A) ++ concat (transition_wire <$> ts))) as (r6 & -> & H6);
    [unfold usize_max in Hsmall; change (256 ^ N.of_nat 8)%N with (2 ^ 64)%N; lia|done|].
  unfold fits_usize. rewrite (proj2 (N.leb_le _ _)) by (unfold usize_max in *; lia). cbn [mbind option_bind].
  rewrite (proj2 (N.leb_le _ _)) by (unfold usize_max in *; lia).
  rewrite (before_remaining _ _ _ H6), !length_app, !states_length. rewrite (proj2 (N.ltb_ge _ _)) by lia.
  rewrite !Nat2N.id.
  destruct (read_many_ok bytes read_state push_u32 (initial A)) with (r := r6) (rest := concat (push_u32 <$> accepting A) ++ concat (transition_wire <$> ts))
    as (r7 & -> & H7); [|done|].
  { intros s r rest Hs. apply read_state_ok; [done|]. pose proof (ao_states A (wa_ok A HA) s (or_introl Hs)). lia. }
  destruct (read_many_ok bytes read_state push_u32 (accepting A)) with (r := r7) (rest := concat (transition_wire <$> ts))
    as (r8 & -> & H8); [|done|].
  { intros s r rest Hs. apply read_state_ok; [done|]. pose proof (ao_states A (wa_ok A HA) s (or_intror (or_introl Hs))). lia. }
  rewrite (before_remaining _ _ _ H8). rewrite (proj2 (N.ltb_ge _ _)).
  2:{ pose proof (transitions_length ts). apply N.div_le_lower_bound; lia. }
  destruct (read_many_ok bytes read_transition transition_wire ts) with (r := r8) (rest := @nil N) as (r9 & -> & H9).
  { intros t r rest Hin. apply read_transition_ok; [done|]. by apply Ht, Hts. }
  { by rewrite app_nil_r. }
  destruct H9 as (E9 & Hle9 & Hd9). apply (f_equal length) in Hd9. rewrite length_drop in Hd9. change (length (@nil N)) with 0 in Hd9.
  rewrite E9. assert (rd_offset r9 = length bytes) as E. by lia. rewrite E, Nat.eqb_refl. cbn [negb]. by destruct (automaton_new _ _ _ _).
Qed.

Lemma automaton_wire_spec A : wire_automaton A → ∃ ts, automaton_wire A = Some (automaton_bytes A ts) ∧ ts ≡ₚ transitions A.
Proof.
  intros HA. destruct (wire_counts A HA) as (Hi & Ha & _). pose proof (wa_states A HA) as Hn.
  destruct (Permutation_map_inv transition_wire (transitions A) (sort_unstable_perm lex_cmp (transition_wire <$> transitions A)))
    as (ts & E & Hts).
  exists ts. split; [|by symmetry]. unfold automaton_wire, to_u32. rewrite !(proj2 (N.leb_le _ _)) by lia. cbn [mbind option_bind].
  assert (sort_unstable lex_cmp (transition_wire <$> transitions A) = transition_wire <$> ts) as Es by exact E.
  cbv zeta. rewrite Es. unfold automaton_bytes. by rewrite length_fmap.
Qed.

(** Validation gives a well-formed automaton back. *)
Lemma automaton_rebuilt A ts : automaton_ok A → (∀ t, t ∈ ts ↔ t ∈ transitions A) →
  automaton_new (state_count A) (initial A) (accepting A) ts = inr A.
Proof.
  intros HA Hts. pose proof (automaton_new_spec (state_count A) (initial A) (accepting A) ts) as Hnew.
  pose proof (automaton_states A HA) as Hpos. destruct (automaton_new _ _ _ _) as [[| |s m]|A'].
  - lia.
  - destruct Hnew as [_ Hnil]. by destruct (ao_some A HA).
  - destruct Hnew as (_ & Hge & Hs). exfalso. assert (s < state_count A); [|lia]. apply (ao_states A HA).
    destruct Hs as [?|[?|(t & Ht & ?)]]; [tauto..|]. right. right. exists t. by rewrite <- Hts.
  - destruct Hnew as (HA' & En & Hi & Ha & Ht & _). f_equal. destruct A as [n i a l], A' as [n' i' a' l']. simpl in *. f_equal.
    + done.
    + apply (ascending_unique Nat.compare); [apply HA'|apply HA|done].
    + apply (ascending_unique Nat.compare); [apply HA'|apply HA|done].
    + apply (ascending_unique transition_cmp); [apply HA'|apply HA|]. intros t. rewrite Ht.
      assert (∀ t, t ∈ l → canonical_transition t = t) as Hid.
      { intros t0 Hin. unfold canonical_transition. rewrite canonicalize_id by by apply (ao_steps _ HA). by destruct t0. }
      split.
      * intros (t0 & Hin & ->). apply Hts in Hin. by rewrite Hid.
      * intros Hin. exists t. split; [by apply Hts|]. by rewrite Hid.
Qed.

Lemma automaton_blob A : wire_automaton A → ∃ wire, automaton_wire A = Some wire ∧
  ((N.of_nat (length wire) <= usize_max)%N → decode wire = inr A ∧ audit wire = Some (inr A)).
Proof.
  intros HA. destruct (automaton_wire_spec A HA) as (ts & E & Hts). exists (automaton_bytes A ts). split; [done|]. intros Hsmall.
  assert (decode (automaton_bytes A ts) = inr A) as Hd.
  { rewrite decode_automaton_bytes; [|done|by intros t; rewrite Hts|done]. rewrite automaton_rebuilt; [done|apply HA|]. intros t. by rewrite Hts. }
  split; [done|]. unfold audit. rewrite Hd, E. cbn [mbind option_bind]. by rewrite decide_False by (intros H; by apply H).
Qed.

Lemma canonicalize_labels step label : label ∈ labels_of (canonicalize step) → label ∈ labels_of step.
Proof. destruct step; simpl; [done..| |]; by rewrite (elem_of_sort_dedup lex_cmp). Qed.

(** What reading any bytes gives. *)
Definition reads_ok {T} (bytes : list N) (item : read T) (P : T → Prop) : Prop :=
  ∀ r x r', rd_bytes r = bytes → item r = inr (x, r') → P x ∧ rd_bytes r' = bytes.

Lemma take_reads bytes n : Forall (λ b, (b < 256)%N) bytes → reads_ok bytes (take_bytes n) (λ l, length l = n ∧ Forall (λ b, (b < 256)%N) l).
Proof.
  intros Hb r l r' Er. unfold take_bytes, usize_add. destruct (_ <=? usize_max)%N; [|done]. destruct (Nat.leb_spec (rd_offset r + n) (length (rd_bytes r))) as [Hle|]; [|done].
  intros [= <- <-]. rewrite Er in *. split; [|done]. split; [rewrite length_take, length_drop; lia|by apply Forall_take, Forall_drop].
Qed.

Lemma uint_reads bytes size : Forall (λ b, (b < 256)%N) bytes → reads_ok bytes (read_uint size) (λ x, x < 256 ^ N.of_nat size)%N.
Proof.
  intros Hb r x r' Er. unfold read_uint. destruct (take_bytes size r) as [?|[l r1]] eqn:E; [done|].
  apply (take_reads bytes size Hb) in E as [[<- Hl] Er1]; [|done]. intros [= <- <-]. split; [by apply of_le_bytes_bound|done].
Qed.

Lemma state_reads bytes : Forall (λ b, (b < 256)%N) bytes → reads_ok bytes read_state (λ s, N.of_nat s <= u32_max)%N.
Proof.
  intros Hb r s r' Er. unfold read_state. destruct (read_uint 4 r) as [?|[x r1]] eqn:E; [done|].
  apply (uint_reads bytes 4 Hb) in E as [Hx Er1]; [|done]. intros [= <- <-]. split; [|done].
  change (256 ^ N.of_nat 4)%N with (2 ^ 32)%N in Hx. unfold u32_max. lia.
Qed.

Lemma many_reads {T} bytes (item : read T) P n : reads_ok bytes item P → reads_ok bytes (read_many item n) (Forall P).
Proof.
  intros Hitem. induction n as [|n IH]; intros r xs r' Er; cbn [read_many]; [intros [= <- <-]; by split|].
  destruct (item r) as [?|[x r1]] eqn:E; [done|]. apply Hitem in E as [Hx Er1]; [|done].
  destruct (read_many item n r1) as [?|[ys r2]] eqn:E2; [done|]. apply IH in E2 as [Hys Er2]; [|done]. intros [= <- <-].
  split; [by constructor|done].
Qed.

Lemma transition_reads bytes : Forall (λ b, (b < 256)%N) bytes → reads_ok bytes read_transition wire_transition.
Proof.
  intros Hb r t r' Er. unfold read_transition.
  destruct (read_state r) as [?|[from r1]] eqn:E1; [done|]. apply (state_reads bytes Hb) in E1 as [Hf Er1]; [|done].
  destruct (read_state r1) as [?|[to r2]] eqn:E2; [done|]. apply (state_reads bytes Hb) in E2 as [Ht Er2]; [|done].
  destruct (read_uint 1 r2) as [?|[opcode r3]] eqn:E3; [done|]. apply (uint_reads bytes 1 Hb) in E3 as [_ Er3]; [|done].
  destruct (read_uint 8 r3) as [?|[count r4]] eqn:E4; [done|]. apply (uint_reads bytes 8 Hb) in E4 as [_ Er4]; [|done].
  destruct (fits_usize _); [|done]. destruct (_ <? _)%N; [done|].
  destruct (read_many (take_bytes 16) (N.to_nat count) r4) as [?|[labels r5]] eqn:E5; [done|].
  apply (many_reads bytes _ _ _ (take_reads bytes 16 Hb)) in E5 as [Hl Er5]; [|done].
  destruct (step_from opcode labels) as [?|step] eqn:Es; [done|]. intros [= <- <-]. split; [|done]. split_and!; [done..|]. cbn [tr_step].
  assert (labels_of step = labels) as ->.
  { clear -Es. unfold step_from in Es.
    destruct opcode as [|[[[]|[]|]|[[]|[]|]|]], labels as [|label [|]]; simplify_eq/=; done. }
  eapply Forall_impl; [exact Hl|]. by intros label [? _].
Qed.

Lemma decode_wire_ok bytes A : Forall (λ b, (b < 256)%N) bytes → decode bytes = inr A → wire_automaton A.
Proof.
  intros Hb. unfold decode. destruct (_ <? _); [done|].
  destruct (take_bytes _ _) as [?|[domain r1]] eqn:E1; [done|]. apply (take_reads bytes _ Hb) in E1 as [_ Er1]; [|done].
  case_decide; [done|].
  destruct (read_uint 4 r1) as [?|[version r2]] eqn:E2; [done|]. apply (uint_reads bytes _ Hb) in E2 as [_ Er2]; [|done].
  destruct (negb _); [done|].
  destruct (read_state r2) as [?|[states r3]] eqn:E3; [done|]. apply (state_reads bytes Hb) in E3 as [Hs Er3]; [|done].
  destruct (read_uint 4 r3) as [?|[ni r4]] eqn:E4; [done|]. apply (uint_reads bytes _ Hb) in E4 as [_ Er4]; [|done].
  destruct (read_uint 4 r4) as [?|[na r5]] eqn:E5; [done|]. apply (uint_reads bytes _ Hb) in E5 as [_ Er5]; [|done].
  destruct (read_uint 8 r5) as [?|[nt r6]] eqn:E6; [done|]. apply (uint_reads bytes _ Hb) in E6 as [_ Er6]; [|done].
  destruct (_ ≫= _); [|done]. destruct (_ <? _)%N; [done|].
  destruct (read_many read_state _ r6) as [?|[initial r7]] eqn:E7; [done|]. apply (many_reads bytes _ _ _ (state_reads bytes Hb)) in E7 as [_ Er7]; [|done].
  destruct (read_many read_state _ r7) as [?|[accepting r8]] eqn:E8; [done|]. apply (many_reads bytes _ _ _ (state_reads bytes Hb)) in E8 as [_ Er8]; [|done].
  destruct (_ <? _)%N; [done|].
  destruct (read_many read_transition _ r8) as [?|[ts r9]] eqn:E9; [done|]. apply (many_reads bytes _ _ _ (transition_reads bytes Hb)) in E9 as [Hts _]; [|done].
  destruct (negb _); [done|]. pose proof (automaton_new_spec states initial accepting ts) as Hnew.
  destruct (automaton_new states initial accepting ts) as [?|A']; [done|]. intros [= <-]. destruct Hnew as (HA & En & _ & _ & Ht & _).
  split; [done|by rewrite En|]. intros t (t0 & Hin & ->)%Ht. rewrite Forall_forall in Hts. destruct (Hts t0 Hin) as (_ & _ & Hl).
  unfold canonical_transition. cbn [tr_step]. rewrite Forall_forall in Hl |- *. intros label Hlabel. apply Hl.
  by apply canonicalize_labels.
Qed.
End automata.

(** ** The layout of a summary *)

Abbreviation arc_order := (pair_cmp Nat.compare Nat.compare).

Section layout.
Import SummaryBlob.
Implicit Types (bytes hd : list N) (vs cs : list (list N)) (n : nat).

Lemma bytes_at_spec bytes from len : from + len <= length bytes → bytes_at bytes from (from + len) = Some (take len (drop from bytes)).
Proof.
  intros Hle. unfold bytes_at. rewrite (proj2 (Nat.leb_le from _)), (proj2 (Nat.leb_le _ (length bytes))) by lia. cbn [andb].
  by replace (from + len - from) with len by lia.
Qed.

Lemma bytes_at_0 bytes len : len <= length bytes → bytes_at bytes 0 len = Some (take len bytes).
Proof. apply (bytes_at_spec bytes 0 len). Qed.

Lemma chunks_exact_concat k cs : 1 <= k → Forall (λ c, length c = k) cs → chunks_exact k (concat cs) = cs ∧ length (concat cs) = length cs * k.
Proof.
  intros Hk Hcs. assert (length (concat cs) = length cs * k) as El.
  { induction Hcs as [|c cs Hc _ IH]; [done|]. cbn [concat length]. rewrite length_app, IH, Hc. lia. }
  split; [|done]. unfold chunks_exact. rewrite El, Nat.div_mul, chunks_of_concat by (done || lia). apply firstn_all.
Qed.

Lemma chunks_exact_spec k (l : list N) m : 1 <= k → length l = m * k →
  concat (chunks_exact k l) = l ∧ Forall (λ c, length c = k) (chunks_exact k l) ∧ length (chunks_exact k l) = m.
Proof.
  intros Hk Hl. assert (Forall (λ c, length c = k) (chunks k l)) as Hc by (apply chunks_length; [done|rewrite Hl; by apply Nat.Div0.mod_mul]).
  pose proof (chunks_concat k l Hk) as E. assert (length (chunks k l) = m) as Hm.
  { pose proof (proj2 (chunks_exact_concat k (chunks k l) Hk Hc)) as El. rewrite E in El. nia. }
  unfold chunks_exact. rewrite Hl, Nat.div_mul by lia. rewrite <- Hm, firstn_all. by split_and!.
Qed.

(** A handle, the counts, vertices and arcs, in their sizes. *)
Record layout bytes n hd vs cs : Prop := {
  ly_bytes : bytes = hd ++ push_u32 n ++ push_u32 (length vs) ++ push_u64 (length cs) ++ concat vs ++ concat cs;
  ly_handle : length hd = 32;
  ly_vertices : Forall (λ v, length v = 32) vs;
  ly_arcs : Forall (λ c, length c = 8) cs;
  ly_states : (N.of_nat n <= u32_max)%N;
  ly_count : (N.of_nat (length vs) <= u32_max)%N;
  ly_product : (N.of_nat (length vs * n) <= u32_max)%N;
  ly_size : (48 + N.of_nat (length vs) * 32 + N.of_nat (length cs) * 8 <= usize_max)%N;
}.

Definition header_of n vs cs : Header :=
  mkHeader (N.of_nat (length vs)) (N.of_nat (length vs) * 32) (N.of_nat (length cs)) (N.of_nat (length vs * n)).

Lemma layout_length bytes n hd vs cs : layout bytes n hd vs cs → length bytes = 48 + length vs * 32 + length cs * 8.
Proof.
  intros [-> Hh Hv Hc _ _ _ _]. unfold push_u32, push_u64. rewrite !length_app, !le_bytes_length, Hh.
  rewrite (proj2 (chunks_exact_concat 32 vs ltac:(lia) Hv)), (proj2 (chunks_exact_concat 8 cs ltac:(lia) Hc)). lia.
Qed.

Lemma u32_word n : (N.of_nat n <= u32_max)%N → of_le_bytes (push_u32 n) = N.of_nat n.
Proof. intros Hn. apply of_le_le_bytes. change (256 ^ N.of_nat 4)%N with (2 ^ 32)%N. unfold u32_max in Hn. lia. Qed.

Lemma layout_pieces bytes n hd vs cs : layout bytes n hd vs cs →
  bytes_at bytes 0 32 = Some hd ∧ read_at bytes 32 4 = Some (N.of_nat n) ∧ read_at bytes 36 4 = Some (N.of_nat (length vs)) ∧
  read_at bytes 40 8 = Some (N.of_nat (length cs)) ∧ read_vertices bytes (length vs * 32) = Some vs ∧ arc_chunks bytes (length vs * 32) = Some cs.
Proof.
  intros L. pose proof (layout_length _ _ _ _ _ L) as Hlen. destruct L as [E Hh Hv Hc Hn Hcnt Hp Hs].
  destruct (chunks_exact_concat 32 vs ltac:(lia) Hv) as [Cv Lv], (chunks_exact_concat 8 cs ltac:(lia) Hc) as [Cc Lc].
  assert (∀ pre l post : list N, bytes = pre ++ l ++ post → bytes_at bytes (length pre) (length pre + length l) = Some l) as Hat.
  { intros pre l post ->. rewrite bytes_at_spec by (rewrite !length_app; lia). by rewrite drop_app_length, take_app_length. }
  assert (∀ pre l post from len, bytes = pre ++ l ++ post → from = length pre → len = length l → bytes_at bytes from (from + len) = Some l) as Hat'.
  { intros pre l post from len E' -> ->. by apply (Hat pre l post). }
  unfold read_at, read_vertices, arc_chunks. change (N.to_nat HEADER_LEN) with 48.
  assert (length (hd ++ push_u32 n) = 36) as L36 by (unfold push_u32; rewrite length_app, le_bytes_length; lia).
  assert (length (hd ++ push_u32 n ++ push_u32 (length vs)) = 40) as L40 by (unfold push_u32; rewrite !length_app, !le_bytes_length; lia).
  assert (length (hd ++ push_u32 n ++ push_u32 (length vs) ++ push_u64 (length cs)) = 48) as L48
    by (unfold push_u32, push_u64; rewrite !length_app, !le_bytes_length; lia).
  split_and!.
  - apply (Hat' [] hd _ 0 32 E); [done|by rewrite Hh].
  - rewrite (Hat' hd (push_u32 n) _ 32 4 E); [|by rewrite Hh|done]. cbn [mbind option_bind]. by rewrite u32_word.
  - rewrite (Hat' (hd ++ push_u32 n) (push_u32 (length vs)) (push_u64 (length cs) ++ concat vs ++ concat cs) 36 4);
      [|by rewrite E, <- !app_assoc|done|done]. cbn [mbind option_bind]. by rewrite u32_word.
  - rewrite (Hat' (hd ++ push_u32 n ++ push_u32 (length vs)) (push_u64 (length cs)) (concat vs ++ concat cs) 40 8);
      [|by rewrite E, <- !app_assoc|done|done]. cbn [mbind option_bind]. unfold push_u64. rewrite of_le_le_bytes; [done|].
    change (256 ^ N.of_nat 8)%N with (2 ^ 64)%N. unfold usize_max in Hs. lia.
  - rewrite (Hat' (hd ++ push_u32 n ++ push_u32 (length vs) ++ push_u64 (length cs)) (concat vs) (concat cs) 48 (length vs * 32));
      [|by rewrite E, <- !app_assoc|done|done]. cbn [mbind option_bind]. by rewrite Cv.
  - replace (length bytes) with (48 + length vs * 32 + length (concat cs)) by lia.
    rewrite (Hat' (hd ++ push_u32 n ++ push_u32 (length vs) ++ push_u64 (length cs) ++ concat vs) (concat cs) [] (48 + length vs * 32) (length (concat cs)));
      [|by rewrite E, app_nil_r, <- !app_assoc| |done]. 2:{ rewrite !app_assoc, length_app, <- !app_assoc, L48. lia. }
    cbn [mbind option_bind]. by rewrite Cc.
Qed.

Lemma checked_length_ok vc ac : (48 + vc * 32 + ac * 8 <= usize_max)%N → checked_length vc ac = Some ((vc * 32)%N, (48 + vc * 32 + ac * 8)%N).
Proof.
  intros Hs. unfold checked_length, fits_usize, HEADER_LEN. rewrite !(proj2 (N.leb_le _ _)) by lia. cbn [mbind option_bind].
  rewrite (proj2 (N.leb_le _ _)) by lia. cbn [mbind option_bind]. by rewrite (proj2 (N.leb_le _ _)) by lia.
Qed.

Lemma layout_header bytes n hd vs cs : layout bytes n hd vs cs → structural_header bytes n = Some (inr (header_of n vs cs)).
Proof.
  intros L. pose proof (layout_length _ _ _ _ _ L) as Hlen. destruct (layout_pieces _ _ _ _ _ L) as (_ & P1 & P2 & P3 & _).
  destruct L as [E Hh Hv Hc Hn Hcnt Hp Hs]. unfold structural_header. rewrite (proj2 (N.ltb_ge _ _)) by (unfold HEADER_LEN; lia).
  rewrite P1, P2, P3. cbn [mbind option_bind]. rewrite N.eqb_refl. cbn [negb]. rewrite checked_length_ok by done. cbn [capacity].
  rewrite (proj2 (N.eqb_eq _ _)) by lia. cbn [negb]. unfold checked_product_count, fits_usize.
  rewrite (proj2 (N.leb_le _ _)) by (unfold usize_max, u32_max in *; lia). cbn [capacity]. rewrite (proj2 (N.ltb_ge _ _)) by lia.
  unfold header_of. by rewrite Nat2N.inj_mul.
Qed.

(** What a word says of its bytes. *)
Lemma word_bytes bytes from size : Forall (λ b, (b < 256)%N) bytes → from + size <= length bytes →
  ∃ x, read_at bytes from size = Some x ∧ (x < 256 ^ N.of_nat size)%N ∧ le_bytes size x = take size (drop from bytes).
Proof.
  intros Hb Hle. unfold read_at. rewrite bytes_at_spec by done. cbn [mbind option_bind]. eexists. split; [done|].
  assert (length (take size (drop from bytes)) = size) as Hl by (rewrite length_take, length_drop; lia).
  assert (Forall (λ b, (b < 256)%N) (take size (drop from bytes))) as Hf by by apply Forall_take, Forall_drop.
  split; [rewrite <- Hl at 2; by apply of_le_bytes_bound|rewrite <- Hl at 1; by apply le_of_le_bytes].
Qed.

Lemma checked_length_some vc ac vb len : checked_length vc ac = Some (vb, len) →
  vb = (vc * 32)%N ∧ len = (48 + vc * 32 + ac * 8)%N ∧ (len <= usize_max)%N.
Proof.
  unfold checked_length, fits_usize, HEADER_LEN. destruct (vc * 32 <=? usize_max)%N; cbn [mbind option_bind]; [|done].
  destruct (ac * 8 <=? usize_max)%N; cbn [mbind option_bind]; [|done].
  destruct (48 + vc * 32 <=? usize_max)%N; cbn [mbind option_bind]; [|done].
  destruct (N.leb_spec (48 + vc * 32 + ac * 8) usize_max) as [Hle|]; cbn [mbind option_bind]; [|done].
  by intros [= <- <-].
Qed.

(** A header that is accepted stands before a layout. *)
Lemma header_layout bytes n : Forall (λ b, (b < 256)%N) bytes → (N.of_nat n <= u32_max)%N →
  ∃ r, structural_header bytes n = Some r ∧ ∀ h, r = inr h → ∃ hd vs cs, layout bytes n hd vs cs ∧ h = header_of n vs cs.
Proof.
  intros Hb Hn. unfold structural_header. destruct (N.ltb_spec (N.of_nat (length bytes)) HEADER_LEN) as [|Hlen]; [by (eexists; split)|].
  unfold HEADER_LEN in Hlen. destruct (word_bytes bytes 32 4 Hb ltac:(lia)) as (x & -> & _ & Ex). cbn [mbind option_bind].
  destruct (N.eqb_spec x (N.of_nat n)) as [->|]; cbn [negb]; [|by (eexists; split)].
  destruct (word_bytes bytes 36 4 Hb ltac:(lia)) as (vc & -> & Hvc & Ev). cbn [mbind option_bind].
  destruct (word_bytes bytes 40 8 Hb ltac:(lia)) as (ac & -> & Hac & Ea). cbn [mbind option_bind]. eexists. split; [done|]. intros h.
  change (256 ^ N.of_nat 4)%N with (2 ^ 32)%N in Hvc.
  destruct (checked_length vc ac) as [[vb len]|] eqn:El; [|done]. cbn [capacity]. apply checked_length_some in El as (-> & -> & Hmax).
  destruct (N.eqb_spec (N.of_nat (length bytes)) (48 + vc * 32 + ac * 8)%N) as [Hl|]; cbn [negb]; [|done].
  unfold checked_product_count, fits_usize. destruct (N.leb_spec (vc * N.of_nat n) usize_max); [|done]. cbn [capacity].
  destruct (N.ltb_spec u32_max (vc * N.of_nat n)) as [|Hp]; [done|]. intros [= <-].
  set (payload := drop 48 bytes).
  destruct (chunks_exact_spec 32 (take (N.to_nat vc * 32) payload) (N.to_nat vc)) as (Cv & Fv & Lv); [lia|unfold payload; rewrite length_take, length_drop; lia|].
  destruct (chunks_exact_spec 8 (drop (N.to_nat vc * 32) payload) (N.to_nat ac)) as (Cc & Fc & Lc); [lia|unfold payload; rewrite !length_drop; lia|].
  exists (take 32 bytes), (chunks_exact 32 (take (N.to_nat vc * 32) payload)), (chunks_exact 8 (drop (N.to_nat vc * 32) payload)). split.
  - split; [|rewrite length_take; lia|done|done|done|rewrite Lv; unfold u32_max; lia|rewrite Lv, Nat2N.inj_mul; lia|rewrite Lv, Lc; lia].
    rewrite Cv, Cc, Lv, Lc. unfold push_u32, push_u64. rewrite !N2Nat.id, Ex, Ev, Ea. unfold payload.
    rewrite take_drop. rewrite <- (take_drop 32 bytes) at 1. f_equal.
    rewrite <- (take_drop 4 (drop 32 bytes)) at 1. f_equal. rewrite drop_drop. change (32 + 4) with 36.
    rewrite <- (take_drop 4 (drop 36 bytes)) at 1. f_equal. rewrite drop_drop. change (36 + 4) with 40.
    rewrite <- (take_drop 8 (drop 40 bytes)) at 1. f_equal. by rewrite drop_drop.
  - unfold header_of. rewrite Lv, Lc, Nat2N.inj_mul, !N2Nat.id. done.
Qed.

(** ** Arcs on the wire *)

Definition arc_small (arc : nat * nat) : Prop := (N.of_nat arc.1 <= u32_max)%N ∧ (N.of_nat arc.2 <= u32_max)%N.

Lemma read_arc_wire arc : arc_small arc → read_arc (arc_wire arc) = arc.
Proof.
  intros [H1 H2]. unfold read_arc, arc_wire. unfold push_u32 at 1 3. rewrite take_app_length', drop_app_length' by by rewrite le_bytes_length.
  fold (push_u32 arc.1). rewrite !u32_word, !Nat2N.id by done. by destruct arc.
Qed.
Lemma arc_wire_length arc : length (arc_wire arc) = 8.
Proof. unfold arc_wire, push_u32. by rewrite length_app, !le_bytes_length. Qed.

Lemma wire_read_arc c : length c = 8 → Forall (λ b, (b < 256)%N) c → arc_wire (read_arc c) = c.
Proof.
  intros Hl Hb. unfold arc_wire, read_arc, push_u32. cbn [fst snd]. rewrite !N2Nat.id. rewrite <- (take_drop 4 c) at 3. f_equal.
  - assert (length (take 4 c) = 4) as E by (rewrite length_take; lia). rewrite <- E at 1. by apply le_of_le_bytes, Forall_take.
  - assert (length (drop 4 c) = 4) as E by (rewrite length_drop; lia). rewrite <- E at 1. by apply le_of_le_bytes, Forall_drop.
Qed.

Definition carried (m : nat) (arc : nat * nat) : Prop := arc.1 < m ∧ arc.2 < m.
Lemma in_carrier_true m arc : in_carrier (N.of_nat m) arc = true ↔ carried m arc.
Proof. unfold in_carrier, carried. rewrite andb_true_iff, !N.ltb_lt. lia. Qed.

Lemma decode_arcs_ok m arcs : (N.of_nat m <= u32_max)%N → Forall (carried m) arcs → decode_arcs (N.of_nat m) (arc_wire <$> arcs) = inr arcs.
Proof.
  intros Hm. induction 1 as [|arc arcs [H1 H2] _ IH]; [done|]. rewrite fmap_cons. cbn [decode_arcs].
  rewrite read_arc_wire by (split; lia). rewrite (proj2 (in_carrier_true m arc)) by done. cbn [negb]. by rewrite IH.
Qed.

(** The audit of arcs accepts ascending arcs of the carrier along transitions, and nothing else. *)
Definition arcs_audited m n (allowed : list (nat * nat)) (previous : option (nat * nat)) (arcs : list (nat * nat)) : Prop :=
  Forall (carried m) arcs ∧ Forall (λ arc, (arc.1 mod n, arc.2 mod n) ∈ allowed) arcs ∧
  ascending arc_order arcs ∧ ∀ p, previous = Some p → Forall (λ arc, arc_order p arc = Lt) arcs.

Lemma audit_arcs_spec m n allowed cs : 1 <= n → ∀ previous, ∃ r, audit_arcs (N.of_nat m) n allowed cs previous = Some r ∧
  ∀ arcs, r = inr arcs ↔ arcs = read_arc <$> cs ∧ arcs_audited m n allowed previous arcs.
Proof.
  intros Hn. induction cs as [|c cs IH]; intros previous; cbn [audit_arcs].
  { exists (inr []). split; [done|]. intros arcs. split; [intros [= <-]; repeat split; constructor|by intros [-> _]]. }
  set (arc := read_arc c). destruct (in_carrier (N.of_nat m) arc) eqn:Ec; cbn [negb].
  2:{ eexists. split; [done|]. intros arcs. split; [done|]. intros [-> (Hc & _)]. rewrite fmap_cons in Hc. apply Forall_cons in Hc as [Hc _].
      apply in_carrier_true in Hc. fold arc in Hc. congruence. }
  rewrite (proj2 (Nat.leb_le 1 n) Hn). cbn [massert mbind option_bind]. case_bool_decide as Ha; cbn [negb].
  2:{ eexists. split; [done|]. intros arcs. split; [done|]. intros [-> (_ & Hall & _)]. rewrite fmap_cons in Hall. apply Forall_cons in Hall as [Hall _]. by destruct Ha. }
  assert ((match previous with Some previous => match arc_order previous arc with Lt => false | _ => true end | None => false end) = false ↔
    ∀ p, previous = Some p → arc_order p arc = Lt) as Hprev.
  { destruct previous as [p|]; [|by split]. split; [intros H q [= <-]; by destruct (arc_order p arc)|]. intros H. by rewrite (H p eq_refl). }
  destruct (match previous with Some _ => _ | None => _ end) eqn:Eo.
  { eexists. split; [done|]. intros arcs. split; [done|]. intros [-> (_ & _ & _ & Hp)]. exfalso. assert (true = false) as ?; [|done]. apply Hprev.
    intros p E. specialize (Hp p E). rewrite fmap_cons in Hp. by apply Forall_cons in Hp as [? _]. }
  destruct (IH (Some arc)) as (r & -> & Hr). cbn [mbind option_bind]. eexists. split; [done|]. intros arcs. apply in_carrier_true in Ec.
  destruct r as [e|rest].
  - split; [done|]. intros [-> (H1 & H2 & H3 & _)]. rewrite fmap_cons in *. apply Forall_cons in H1 as [_ H1], H2 as [_ H2]. fold arc in H3.
    inversion H3 as [|? ? H3' H4]; subst. assert (inl e = inr (read_arc <$> cs)) as ?; [|done]. apply Hr. split; [done|]. split_and!; [done..|].
    by intros p [= <-].
  - destruct (proj1 (Hr rest) eq_refl) as [-> (H1 & H2 & H3 & H4)]. rewrite fmap_cons. fold arc. split; [|by intros [-> _]].
    intros [= <-]. split; [done|]. split_and!; [by constructor|by constructor|constructor; [done|by apply H4]|].
    intros p Ep. constructor; [by apply Hprev|]. eapply Forall_impl; [by apply H4|]. intros x Hx. by eapply (cmp_trans arc_order), Hx; apply Hprev.
Qed.
End layout.

(** ** Ordinals keep the order *)

Section ordinals.
Context (vs : list RawInline) (n : nat) (Hvs : ascending lex_cmp vs) (Hn : 1 <= n).
Local Abbreviation m := (length vs * n).

Definition node_of (o : nat) : ProductNode := mkNode (default [] (vs !! (o / n))) (o mod n).
Definition arc_of (a : nat * nat) : ProductArc := mkArc (node_of a.1) (node_of a.2).
Definition place_arc (arc : ProductArc) : nat * nat := (node_place n vs (arc_source arc), node_place n vs (arc_target arc)).

Lemma node_vertex o : o < m → ∃ x, vs !! (o / n) = Some x ∧ node_of o = mkNode x (o mod n).
Proof.
  intros Ho. destruct (lookup_lt_is_Some_2 vs (o / n)) as [x Hx]; [apply Nat.Div0.div_lt_upper_bound; lia|]. exists x. unfold node_of. by rewrite Hx.
Qed.

Lemma node_of_place node : vertex node ∈ vs → state node < n → node_of (node_place n vs node) = node ∧ node_place n vs node < m.
Proof.
  intros Hx Hs. destruct node as [x q]. cbn [vertex state] in *. pose proof (place_spec vs x Hx) as Hp.
  destruct (product_ordinal_div n (place vs x) q Hs) as [E1 E2]. unfold node_of, node_place. cbn [vertex state]. rewrite E1, E2, Hp. split; [done|].
  apply product_ordinal_lt; [done|]. by eapply lookup_lt_Some.
Qed.

Lemma place_of_node o : o < m → node_place n vs (node_of o) = o.
Proof.
  intros Ho. destruct (node_vertex o Ho) as (x & Hx & ->). unfold node_place, product_ordinal. cbn [vertex state].
  rewrite (place_unique vs (o / n) x Hvs Hx). pose proof (Nat.div_mod_eq o n). lia.
Qed.

Lemma node_order o o' : o < m → o' < m → o < o' → node_cmp (node_of o) (node_of o') = Lt.
Proof.
  intros Ho Ho' Hlt. destruct (node_vertex o Ho) as (x & Hx & ->), (node_vertex o' Ho') as (x' & Hx' & ->). unfold node_cmp. cbn [vertex state].
  pose proof (Nat.div_mod_eq o n) as E. pose proof (Nat.div_mod_eq o' n) as E'.
  pose proof (Nat.mod_upper_bound o n ltac:(lia)). pose proof (Nat.mod_upper_bound o' n ltac:(lia)).
  destruct (Nat.lt_trichotomy (o / n) (o' / n)) as [Hd|[Hd|Hd]].
  - by rewrite (ascending_lookup lex_cmp vs _ _ x x' Hvs Hx Hx' Hd).
  - rewrite Hd in Hx. assert (x = x') as -> by congruence. rewrite (proj2 (cmp_eq lex_cmp x' x') eq_refl). cbn [cmp_then].
    apply Nat.compare_lt_iff. rewrite Hd in E. lia.
  - exfalso. nia.
Qed.

Lemma arc_of_order a a' : carried m a → carried m a' → arc_order a a' = Lt → arc_cmp (arc_of a) (arc_of a') = Lt.
Proof.
  intros [H1 H2] [H1' H2']. destruct a as [s t], a' as [s' t']. unfold pair_cmp, arc_cmp, arc_of in *. cbn [fst snd compose arc_source arc_target] in *.
  destruct (Nat.compare_spec s s') as [->|Hs|Hs]; cbn [cmp_then]; [|intros _; by rewrite node_order|done].
  rewrite (proj2 (cmp_eq node_cmp _ _) eq_refl). cbn [cmp_then]. intros Ht%Nat.compare_lt_iff. by apply node_order.
Qed.

Lemma arcs_of_ascending arcs : Forall (carried m) arcs → ascending arc_order arcs → ascending arc_cmp (arc_of <$> arcs).
Proof.
  intros Hc Ha. induction Ha as [|a arcs _ IH Hlt]; [constructor|]. apply Forall_cons in Hc as [H1 H2]. rewrite fmap_cons. constructor; [by apply IH|].
  apply Forall_fmap. rewrite Forall_forall in Hlt, H2 |- *. intros b Hb. apply arc_of_order; auto.
Qed.

Definition arc_inside (arc : ProductArc) : Prop :=
  vertex (arc_source arc) ∈ vs ∧ vertex (arc_target arc) ∈ vs ∧ state (arc_source arc) < n ∧ state (arc_target arc) < n.

Lemma arc_of_place arc : arc_inside arc → arc_of (place_arc arc) = arc ∧ carried m (place_arc arc).
Proof.
  intros (H1 & H2 & H3 & H4). destruct (node_of_place _ H1 H3) as [E1 L1], (node_of_place _ H2 H4) as [E2 L2].
  unfold arc_of, place_arc. cbn [fst snd]. rewrite E1, E2. split; [by destruct arc|by split].
Qed.
Lemma place_of_arc a : carried m a → place_arc (arc_of a) = a ∧ arc_inside (arc_of a).
Proof.
  intros [H1 H2]. unfold place_arc, arc_of. cbn [arc_source arc_target]. rewrite !place_of_node by done. split; [by destruct a|].
  destruct (node_vertex _ H1) as (x & Hx & E1), (node_vertex _ H2) as (y & Hy & E2). unfold arc_inside. cbn [arc_source arc_target]. rewrite E1, E2. cbn [vertex state].
  split_and!; [by eapply list_elem_of_lookup_2|by eapply list_elem_of_lookup_2|apply Nat.mod_upper_bound; lia..].
Qed.

Lemma places_ascending arcs : Forall arc_inside arcs → ascending arc_cmp arcs → ascending arc_order (place_arc <$> arcs).
Proof.
  intros Hc Ha. induction Ha as [|a arcs _ IH Hlt]; [constructor|]. apply Forall_cons in Hc as [H1 H2]. rewrite fmap_cons. constructor; [by apply IH|].
  apply Forall_fmap. rewrite Forall_forall in Hlt, H2 |- *. intros b Hb. specialize (Hlt b Hb). specialize (H2 b Hb). cbn.
  destruct (arc_of_place a H1) as [Ea La], (arc_of_place b H2) as [Eb Lb]. destruct (arc_order (place_arc a) (place_arc b)) eqn:E; [|done|].
  - apply (cmp_eq arc_order) in E. rewrite <- Ea, <- Eb, E, (proj2 (cmp_eq arc_cmp _ _) eq_refl) in Hlt. done.
  - apply (cmp_gt arc_order) in E. apply arc_of_order in E; [|done..]. rewrite Ea, Eb in E. apply (cmp_gt arc_cmp) in E. congruence.
Qed.

Lemma read_arcs_of arcs acc : Forall (carried m) arcs → read_arcs n vs m arcs acc = Some (inr (acc ++ (arc_of <$> arcs))).
Proof.
  intros Hc. revert acc. induction Hc as [|[s t] arcs [H1 H2] _ IH]; intros acc; [by rewrite app_nil_r|]. cbn [read_arcs fst snd] in *.
  rewrite (proj2 (Nat.leb_gt _ _) H1), (proj2 (Nat.leb_gt _ _) H2). cbn [orb]. unfold ordinal_node. rewrite (proj2 (Nat.leb_le 1 n) Hn).
  cbn [massert mbind option_bind]. destruct (node_vertex s H1) as (x & -> & E1), (node_vertex t H2) as (y & -> & E2). cbn [mbind option_bind].
  rewrite IH, fmap_cons, <- app_assoc. unfold arc_of at 2. cbn [fst snd]. by rewrite E1, E2.
Qed.
End ordinals.

(** ** Summaries *)

Section summaries.
Import SummaryBlob.
Context (get_handle : list N → list N) (Hhandle : ∀ b, length (get_handle b) = 32).
Implicit Types (S : PathSummary) (A : Automaton).

(** A summary whose arcs go along transitions, of values and an automaton that can be written. *)
Record wire_summary S : Prop := {
  ws_ok : summary_ok S;
  ws_automaton : wire_automaton (automaton S);
  ws_vertices : Forall (λ x, length x = 32) (vertices S);
  ws_allowed arc : arc ∈ arcs S → ∃ t, t ∈ transitions (automaton S) ∧ tr_from t = state (arc_source arc) ∧ tr_to t = state (arc_target arc);
}.

(** Its ordinals fit 32 bits and its bytes the address space. *)
Definition small_summary S : Prop :=
  (N.of_nat (length (vertices S) * state_count (automaton S)) <= u32_max)%N ∧
  (48 + N.of_nat (length (vertices S)) * 32 + N.of_nat (length (arcs S)) * 8 <= usize_max)%N.
#[global] Instance small_summary_dec S : Decision (small_summary S).
Proof. unfold small_summary. apply _. Defined.

Definition places S : list (nat * nat) := place_arc (vertices S) (state_count (automaton S)) <$> arcs S.

Lemma summary_inside S : summary_ok S → Forall (arc_inside (vertices S) (state_count (automaton S))) (arcs S).
Proof.
  intros HS. apply Forall_forall. intros arc Ha. destruct (sk_states S HS arc Ha). split_and!; [| |done..]; apply (sk_ends S HS); exists arc; tauto.
Qed.

Lemma summary_places S : summary_ok S → Forall (carried (length (vertices S) * state_count (automaton S))) (places S) ∧
  arc_of (vertices S) (state_count (automaton S)) <$> places S = arcs S ∧ ascending arc_order (places S).
Proof.
  intros HS. pose proof (summary_inside S HS) as Hin. pose proof (automaton_states _ (sk_automaton S HS)) as Hn. unfold places. split_and!.
  - apply Forall_fmap. eapply Forall_impl; [exact Hin|]. intros arc Ha. by eapply arc_of_place.
  - rewrite <- list_fmap_compose. rewrite <- (list_fmap_id (arcs S)) at 2. apply list_fmap_ext. intros i arc Hi. rewrite Forall_lookup in Hin. simpl.
    by eapply arc_of_place, Hin.
  - apply places_ascending; [apply HS|done|done|apply HS].
Qed.

Lemma wire_summary_encode S : wire_summary S →
  ∃ wire, AutomatonBlob.automaton_wire (automaton S) = Some wire ∧
    if decide (small_summary S) then
      ∃ bytes, encode get_handle S = Some (inr bytes) ∧
        layout bytes (state_count (automaton S)) (get_handle wire) (vertices S) (arc_wire <$> places S)
    else encode get_handle S = Some (inl CapacityOverflow).
Proof.
  intros HS. pose proof (ws_ok S HS) as Hok. pose proof (automaton_states _ (sk_automaton S Hok)) as Hpos.
  pose proof (wa_states _ (ws_automaton S HS)) as Hn. destruct (automaton_wire_spec _ (ws_automaton S HS)) as (ts & Hw & _). eexists. split; [exact Hw|].
  unfold encode. rewrite (canonical_domain S Hok). cbn [negb]. unfold to_u32. destruct (N.leb_spec (N.of_nat (length (vertices S))) u32_max) as [Hv|Hv].
  2:{ rewrite decide_False; [done|]. intros [H1 _]. nia. }
  unfold checked_product_count, fits_usize. rewrite (proj2 (N.leb_le _ _)) by (unfold usize_max, u32_max in *; nia). cbn [capacity].
  destruct (N.ltb_spec u32_max (N.of_nat (length (vertices S)) * N.of_nat (state_count (automaton S)))) as [Hp|Hp].
  { rewrite decide_False; [done|]. intros [H1 _]. lia. }
  destruct (ordinal_arcs_spec S (vertices S) Hok (sk_vertices S Hok) (sk_ends S Hok)) as [Ho _]; [lia|]. unfold ordinal_arcs. rewrite Ho.
  cbn [mbind option_bind]. change ((λ arc, _) <$> arcs S) with (places S). assert (length (places S) = length (arcs S)) as Hl by apply length_fmap.
  rewrite Hl. case_decide as Hsmall.
  - destruct Hsmall as [H1 H2]. rewrite checked_length_ok by done. rewrite Hw. cbn [mbind option_bind]. eexists. split; [done|].
    split; rewrite ?length_fmap, ?Hl; try done; [apply HS|]. apply Forall_fmap, Forall_true. intros arc. apply arc_wire_length.
  - destruct (checked_length _ _) as [[vb len]|] eqn:E; [|done]. destruct Hsmall. apply checked_length_some in E as (_ & -> & Hle). split; [lia|done].
Qed.

Lemma read_summary_of A vs arcs : 1 <= state_count A → (N.of_nat (length vs * state_count A) <= u32_max)%N → Forall (carried (length vs * state_count A)) arcs →
  read_summary A vs arcs = Some (inr (mkSummary A vs (arc_of vs (state_count A) <$> arcs))).
Proof.
  intros Hn Hp Hc. unfold read_summary, from_canonical_ordinals, usize_mul. rewrite (proj2 (N.leb_le _ _)) by (unfold usize_max, u32_max in *; lia).
  by rewrite read_arcs_of.
Qed.

Lemma arcs_read arcs m : (N.of_nat m <= u32_max)%N → Forall (carried m) arcs → read_arc <$> (arc_wire <$> arcs) = arcs.
Proof.
  intros Hm Hc. rewrite <- list_fmap_compose. rewrite <- (list_fmap_id arcs) at 2. apply list_fmap_ext. intros i arc Hi.
  rewrite Forall_lookup in Hc. destruct (Hc i arc Hi). simpl. apply read_arc_wire. split; lia.
Qed.

Definition allowed_pairs A : list (nat * nat) := bts_extend arc_order [] ((λ t, (tr_from t, tr_to t)) <$> transitions A).
Lemma elem_of_allowed A p : p ∈ allowed_pairs A ↔ ∃ t, t ∈ transitions A ∧ p = (tr_from t, tr_to t).
Proof. unfold allowed_pairs. rewrite (elem_of_collect arc_order), list_elem_of_fmap. naive_solver. Qed.

Lemma windows_ascending (vs : list (list N)) : existsb (λ pair, lex_le pair.2 pair.1) (windows2 vs) = false ↔ ascending lex_cmp vs.
Proof.
  induction vs as [|x [|y vs] IH]; [split; [constructor|done]|split; [by repeat constructor|done]|].
  change (windows2 (x :: y :: vs)) with ((x, y) :: windows2 (y :: vs)). cbn [existsb fst snd]. rewrite orb_false_iff, IH.
  assert (lex_le y x = false ↔ lex_cmp x y = Lt) as -> by (rewrite lex_cmp_lt; unfold lex_lt; by rewrite negb_true_iff). split.
  - intros [Hxy Ha]. constructor; [done|]. constructor; [done|]. inversion Ha as [|? ? _ Hall]; subst. eapply Forall_impl; [exact Hall|].
    intros z Hz. by eapply (cmp_trans lex_cmp), Hz.
  - intros Ha. inversion Ha as [|? ? Ha' Hall]; subst. apply Forall_cons in Hall as [? _]. done.
Qed.

(** What is written is read, structurally and by the audit. *)
Lemma encoded_read S bytes wire : wire_summary S → AutomatonBlob.automaton_wire (automaton S) = Some wire → small_summary S →
  layout bytes (state_count (automaton S)) (get_handle wire) (vertices S) (arc_wire <$> places S) →
  decode bytes (automaton S) = Some (inr S) ∧ audit get_handle bytes (automaton S) = Some (inr S).
Proof.
  intros HS Hw [Hp Hsz] L. pose proof (ws_ok S HS) as Hok. pose proof (automaton_states _ (sk_automaton S Hok)) as Hpos.
  destruct (summary_places S Hok) as (Hc & Earcs & Hasc). pose proof (layout_header _ _ _ _ _ L) as Hh.
  pose proof (layout_length _ _ _ _ _ L) as Hlen. destruct (layout_pieces _ _ _ _ _ L) as (P0 & _ & _ & _ & Pv & Pc).
  assert (N.to_nat (N.of_nat (length (vertices S)) * 32) = length (vertices S) * 32) as Evb by lia.
  assert (read_summary (automaton S) (vertices S) (places S) = Some (inr S)) as Hread.
  { rewrite read_summary_of, Earcs by done. by destruct S. }
  split.
  - unfold decode. rewrite Hh. cbn [mbind option_bind]. unfold header_of. cbn [h_vertex_bytes h_product_count]. rewrite Evb, Pv, Pc. cbn [mbind option_bind].
    by rewrite decode_arcs_ok.
  - unfold audit, validate_header. rewrite (proj2 (N.ltb_ge _ _)) by (unfold HEADER_LEN; lia). rewrite Hw, P0. cbn [mbind option_bind].
    rewrite decide_False by (intros H; by apply H). rewrite Hh. cbn [mbind option_bind]. unfold header_of. cbn [h_vertex_bytes h_product_count].
    rewrite Evb, Pv. cbn [mbind option_bind]. rewrite (proj2 (windows_ascending (vertices S)) (sk_vertices S Hok)). rewrite Pc. cbn [mbind option_bind].
    fold (allowed_pairs (automaton S)).
    destruct (audit_arcs_spec (length (vertices S) * state_count (automaton S)) (state_count (automaton S)) (allowed_pairs (automaton S))
      (arc_wire <$> places S) Hpos None) as (r & -> & Hr). cbn [mbind option_bind].
    assert (r = inr (places S)) as ->.
    { apply Hr. split; [by erewrite arcs_read|]. split_and!; [done| |done|done]. unfold places. apply Forall_fmap, Forall_forall. intros arc Ha. cbn.
      apply elem_of_allowed. destruct (ws_allowed S HS arc Ha) as (t & Ht & E1 & E2). exists t. split; [done|].
      pose proof (summary_inside S Hok) as Hin. rewrite Forall_forall in Hin. destruct (Hin arc Ha) as (_ & _ & L1 & L2).
      unfold node_place. by rewrite (proj2 (product_ordinal_div _ _ _ L1)), (proj2 (product_ordinal_div _ _ _ L2)), E1, E2. }
    rewrite Hread. cbn [mbind option_bind]. by rewrite canonical_domain.
Qed.

(** The summary the audited vertices and arcs stand for. *)
Lemma audited_summary A vs ords : wire_automaton A → ascending lex_cmp vs → Forall (λ x, length x = 32) vs →
  arcs_audited (length vs * state_count A) (state_count A) (allowed_pairs A) None ords →
  let S := mkSummary A vs (arc_of vs (state_count A) <$> ords) in
  has_canonical_domain S = true → wire_summary S ∧ places S = ords.
Proof.
  intros HA Hvs Hlen (Hc & Hal & Hasc & _) S Hdom. pose proof (automaton_states _ (wa_ok A HA)) as Hn.
  assert (∀ arc, arc ∈ arcs S → ∃ a, a ∈ ords ∧ arc = arc_of vs (state_count A) a ∧ carried (length vs * state_count A) a ∧ arc_inside vs (state_count A) arc) as Harc.
  { intros arc Ha. apply list_elem_of_fmap in Ha as (a & -> & Ha). rewrite Forall_forall in Hc. exists a. split_and!; [done|done|by apply Hc|].
    by apply place_of_arc; [| |apply Hc]. }
  split.
  - split; [|exact HA|exact Hlen|].
    + split; cbn [automaton vertices arcs S].
      * apply HA.
      * exact Hvs.
      * by apply arcs_of_ascending.
      * intros x (arc & Ha & Hx). destruct (Harc arc Ha) as (_ & _ & _ & _ & H1 & H2 & _). by destruct Hx as [-> | ->].
      * intros arc Ha. destruct (Harc arc Ha) as (_ & _ & _ & _ & _ & _ & H). exact H.
      * intros x He Hx. unfold has_canonical_domain in Hdom. cbn [automaton vertices S] in Hdom. rewrite He in Hdom. cbn [orb] in Hdom.
        apply bool_decide_eq_true in Hdom. apply (elem_of_active S). by rewrite <- Hdom.
    + intros arc Ha. destruct (Harc arc Ha) as (a & Hin & -> & _). rewrite Forall_forall in Hal.
      apply Hal, elem_of_allowed in Hin as (t & Ht & [= E1 E2]). exists t. cbn [automaton S]. by split_and!.
  - unfold places. cbn [automaton vertices arcs S]. rewrite <- list_fmap_compose. rewrite <- (list_fmap_id ords) at 2. apply list_fmap_ext.
    intros i a Hi. rewrite Forall_lookup in Hc. simpl. by apply place_of_arc; [| |eapply Hc].
Qed.

(** The audit never panics, and what it accepts is the encoding of a summary. *)
Lemma audited_encoded A bytes : wire_automaton A → Forall (λ b, (b < 256)%N) bytes →
  ∃ r, audit get_handle bytes A = Some r ∧
    ∀ S, r = inr S → wire_summary S ∧ automaton S = A ∧ small_summary S ∧ encode get_handle S = Some (inr bytes).
Proof.
  intros HA Hb. destruct (automaton_wire_spec A HA) as (ts & Hw & _). pose proof (automaton_states _ (wa_ok A HA)) as Hn.
  unfold audit, validate_header. destruct (N.ltb_spec (N.of_nat (length bytes)) HEADER_LEN) as [|Hlen]; [by (eexists; split)|]. unfold HEADER_LEN in Hlen.
  rewrite Hw. cbn [mbind option_bind]. rewrite (bytes_at_0 bytes 32) by lia. cbn [mbind option_bind]. case_decide as Hd; [by (eexists; split)|].
  destruct (header_layout bytes (state_count A) Hb (wa_states A HA)) as ([e|h] & -> & Hlay); cbn [mbind option_bind]; [by (eexists; split)|].
  destruct (Hlay h eq_refl) as (hd & vs & cs & L & ->). clear Hlay. destruct (layout_pieces _ _ _ _ _ L) as (P0 & _ & _ & _ & Pv & Pc).
  rewrite (bytes_at_0 bytes 32) in P0 by lia. injection P0 as P0.
  assert (hd = get_handle (automaton_bytes A ts)) as ->.
  { by rewrite <- P0. }
  unfold header_of. cbn [h_vertex_bytes h_product_count]. assert (N.to_nat (N.of_nat (length vs) * 32) = length vs * 32) as -> by lia.
  rewrite Pv. cbn [mbind option_bind]. destruct (existsb _ (windows2 vs)) eqn:Ewin; [by (eexists; split)|]. apply windows_ascending in Ewin.
  rewrite Pc. cbn [mbind option_bind]. fold (allowed_pairs A).
  destruct (audit_arcs_spec (length vs * state_count A) (state_count A) (allowed_pairs A) cs Hn None) as ([e|ords] & -> & Hr); cbn [mbind option_bind]; [by (eexists; split)|].
  destruct (proj1 (Hr ords) eq_refl) as [Earcs Haud]. pose proof Haud as (Hc & _).
  rewrite read_summary_of by (done || apply L). cbn [mbind option_bind]. eexists. split; [done|]. intros S.
  destruct (has_canonical_domain _) eqn:Hdom; cbn [negb]; [|done]. intros [= <-].
  destruct (audited_summary A vs ords HA Ewin (ly_vertices _ _ _ _ _ L) Haud Hdom) as [HS Hpl]. set (S := mkSummary A vs _) in *.
  assert (length (arc_of vs (state_count A) <$> ords) = length cs) as Hlc by (rewrite length_fmap, Earcs; apply length_fmap).
  assert (small_summary S) as Hsmall by (split; cbn [S vertices automaton arcs]; [apply L|rewrite Hlc; apply L]).
  split_and!; [done|done|done|]. destruct (wire_summary_encode S HS) as (wire & Hw' & Henc). rewrite decide_True in Henc by done.
  destruct Henc as (bytes' & -> & L'). do 2 f_equal. cbn [automaton S] in Hw'. rewrite Hw in Hw'. injection Hw' as <-.
  rewrite (ly_bytes _ _ _ _ _ L), (ly_bytes _ _ _ _ _ L'). cbn [automaton vertices S]. rewrite Hpl.
  assert (arc_wire <$> ords = cs) as ->; [|done]. rewrite Earcs, <- list_fmap_compose. rewrite <- (list_fmap_id cs) at 2. apply list_fmap_ext.
  intros i c Hi. simpl. apply wire_read_arc.
  - pose proof (ly_arcs _ _ _ _ _ L) as Ha. rewrite Forall_lookup in Ha. by eapply Ha.
  - rewrite (ly_bytes _ _ _ _ _ L), !Forall_app in Hb. destruct Hb as (_ & _ & _ & _ & _ & Hcs).
    apply list_elem_of_lookup_2 in Hi. rewrite Forall_forall in Hcs |- *. intros x Hx. apply Hcs. apply list_elem_of_In, in_concat.
    exists c. split; by apply list_elem_of_In.
Qed.
End summaries.

(** ** Properties *)

(** Stored automata have one form: an automaton whose counts fit the wire is
    written and read back, by decoder and audit, as long as its wire is
    addressable; and the audit, which never panics, accepts bytes exactly if they
    are the wire of the automaton it answers. *)
Theorem automaton_blob_canonical A bytes : Forall (λ b, (b < 256)%N) bytes → (N.of_nat (length bytes) <= usize_max)%N →
  (wire_automaton A → ∃ wire, AutomatonBlob.automaton_wire A = Some wire ∧
    ((N.of_nat (length wire) <= usize_max)%N →
      AutomatonBlob.decode wire = inr A ∧ AutomatonBlob.audit wire = Some (inr A))) ∧
  ∃ r, AutomatonBlob.audit bytes = Some r ∧
    (r = inr A ↔ wire_automaton A ∧ AutomatonBlob.automaton_wire A = Some bytes).
Proof.
  intros Hb Hl. split; [apply automaton_blob|].
  assert (wire_automaton A → AutomatonBlob.automaton_wire A = Some bytes → AutomatonBlob.decode bytes = inr A ∧
    AutomatonBlob.audit bytes = Some (inr A)) as Hread.
  { intros HA Hw. destruct (automaton_blob A HA) as (wire & Hw' & Hr). rewrite Hw in Hw'. injection Hw' as <-. by apply Hr. }
  unfold AutomatonBlob.audit in *. destruct (AutomatonBlob.decode bytes) as [e|A'] eqn:Hd.
  - eexists. split; [done|]. split; [done|]. intros [HA Hw]. by destruct (Hread HA Hw).
  - pose proof (decode_wire_ok bytes A' Hb Hd) as HA'. destruct (automaton_wire_spec A' HA') as (ts & Hw & _).
    rewrite Hw. cbn [mbind option_bind]. eexists. split; [done|]. case_decide as Hne; (split; [|intros [HA Hwa]]); try done.
    + destruct (Hread HA Hwa) as [[= ->] _]. by rewrite Hwa in Hw; injection Hw as Hw.
    + intros [= <-]. split; [done|]. by rewrite Hw, Hne.
    + by destruct (Hread HA Hwa) as [[= ->] _].
Qed.

Section stored.
Import SummaryBlob.
Context (get_handle : list N → list N) (Hhandle : ∀ b, length (get_handle b) = 32).
Implicit Types (S : PathSummary) (A : Automaton).

(** Encoding succeeds exactly on small summaries, and its result reads back. *)
Lemma encode_cases S : wire_summary S →
  if decide (small_summary S) then ∃ bytes, encode get_handle S = Some (inr bytes) ∧
    decode bytes (automaton S) = Some (inr S) ∧ audit get_handle bytes (automaton S) = Some (inr S)
  else encode get_handle S = Some (inl CapacityOverflow).
Proof using Hhandle.
  intros HS. destruct (wire_summary_encode get_handle Hhandle S HS) as (wire & Hw & He). case_decide as Hs; [|done].
  destruct He as (bytes & He & L). exists bytes. split; [done|]. by eapply encoded_read.
Qed.

(** Stored summaries have one form: a summary of values is written unless its
    ordinals or its size overflow, and is then read back by decoder and audit;
    the audit never panics and accepts bytes exactly if they are the encoding of
    the summary it answers. *)
Theorem summary_blob_canonical A S bytes : wire_automaton A → Forall (λ b, (b < 256)%N) bytes →
  (wire_summary S → if decide (small_summary S) then ∃ wire, encode get_handle S = Some (inr wire) ∧
      decode wire (automaton S) = Some (inr S) ∧ audit get_handle wire (automaton S) = Some (inr S)
    else encode get_handle S = Some (inl CapacityOverflow)) ∧
  ∃ r, audit get_handle bytes A = Some r ∧
    (r = inr S ↔ wire_summary S ∧ automaton S = A ∧ encode get_handle S = Some (inr bytes)).
Proof using Hhandle.
  intros HA Hb. split; [apply encode_cases|].
  destruct (audited_encoded get_handle Hhandle A bytes HA Hb) as (r & Hr & Hread). exists r. split; [done|]. split.
  - intros E. by destruct (Hread S E) as (? & ? & _ & ?).
  - intros (HS & <- & He). pose proof (encode_cases S HS) as Hc. case_decide; [|by rewrite He in Hc].
    destruct Hc as (wire & He' & _ & Ha). rewrite He in He'. injection He' as <-. rewrite Hr in Ha. by injection Ha.
Qed.

Definition edge_wire (edge : GraphEdge) : Prop := length (ge_source edge) = 32 ∧ length (ge_target edge) = 32.

Lemma summary_of_wire A edges S : wire_automaton A → Forall edge_wire edges → summary_of A edges S → wire_summary S.
Proof using Type.
  intros HA He HS. pose proof (so_automaton _ _ _ HS) as E. split; rewrite ?E.
  - by eapply summary_of_ok; [apply HA|].
  - done.
  - rewrite Forall_forall in He. apply Forall_forall. intros x [[_ (edge & Hin & Hx)]|(arc & Ha & Hx)]%(so_vertex _ _ _ HS).
    + destruct (He edge Hin), Hx as [->| ->]; done.
    + apply (so_arc _ _ _ HS) in Ha as (t & edge & _ & Hin & _ & ->). destruct (He edge Hin). unfold edge_arc, edge_ends in Hx.
      destruct (is_reverse (tr_step t)); simpl in Hx; destruct Hx as [->| ->]; done.
  - intros arc Ha. apply (so_arc _ _ _ HS) in Ha as (t & edge & Ht & _ & _ & ->). exists t. split; [done|].
    by split.
Qed.

(** Joining stored summaries is storing the summary of all edges: the merge that
    runs on blobs never panics, refuses nothing that was written, and forgets how
    the edges were divided. *)
Theorem summary_blob_join A left_ right_ SL SR bl br : wire_automaton A →
  Forall edge_wire left_ → Forall edge_wire right_ →
  from_edges A left_ = Some SL → from_edges A right_ = Some SR →
  encode get_handle SL = Some (inr bl) → encode get_handle SR = Some (inr br) →
  ∃ S, from_edges A (left_ ++ right_) = Some S ∧ join get_handle bl br A = encode get_handle S.
Proof using Hhandle.
  intros HA Hl Hr El Er Bl Br. pose proof (wa_ok A HA) as Hok.
  assert (∀ edges S b, Forall edge_wire edges → from_edges A edges = Some S → encode get_handle S = Some (inr b) →
    summary_of A edges S ∧ audit get_handle b A = Some (inr S)) as Hread.
  { intros edges S b He Ef Eb. destruct (from_edges_spec A edges Hok) as (S' & Ef' & HS). rewrite Ef in Ef'. injection Ef' as <-.
    split; [done|]. pose proof (encode_cases S (summary_of_wire A edges S HA He HS)) as Hc. case_decide; [|by rewrite Eb in Hc].
    destruct Hc as (b' & Eb' & _ & Ha). rewrite Eb in Eb'. injection Eb' as <-. by rewrite (so_automaton _ _ _ HS) in Ha. }
  destruct (Hread left_ SL bl Hl El Bl) as [HL AL]. destruct (Hread right_ SR br Hr Er Br) as [HR AR].
  destruct (merge_all_spec A [left_; right_] [SL; SR]) as (S & Hm & HS); [done|constructor; [done|constructor; [done|constructor]]|].
  simpl concat in HS. rewrite app_nil_r in HS. destruct (from_edges_spec A (left_ ++ right_) Hok) as (S' & Ef & HS').
  assert (S' = S) as -> by by apply (summary_unique A (left_ ++ right_) (left_ ++ right_)).
  exists S. split; [done|]. unfold join. rewrite AL. cbn [mbind option_bind]. rewrite AR. cbn [mbind option_bind].
  unfold merge. by rewrite Hm.
Qed.
End stored.

(** ** The tests of the source, computed *)

Definition test_automaton (n : nat) (initial accepting : list nat) (transitions : list Transition) : Automaton :=
  match automaton_new n initial accepting transitions with inr A => A | inl _ => mkAutomaton 0 [] [] [] end.
Definition test_vertex (b : N) : RawInline := replicate 32 b.
Definition test_label (b : N) : RawId := replicate 16 b.
Definition test_edge (x a y : N) : GraphEdge := mkEdge (test_vertex x) (test_label a) (test_vertex y).
Definition test_plus (b : N) : Automaton :=
  test_automaton 2 [0] [1] [mkTransition 0 1 (Forward (test_label b)); mkTransition 1 1 (Forward (test_label b))].

(** A checksum in place of BLAKE3. *)
Definition test_handle (bytes : list N) : list N :=
  le_bytes 32 (foldl (λ h b, (h * 257 + b) mod 2 ^ 256)%N 1%N bytes).

Definition test_blob (A : Automaton) (edges : list GraphEdge) : list N :=
  match (S ← from_edges A edges; SummaryBlob.encode test_handle S) with Some (inr bytes) => bytes | _ => [] end.

(** [canonical_bytes_are_input_order_invariant_and_golden]: the bytes after the handle. *)
Example golden_bytes :
  let A := test_automaton 1 [0; 0] [0] [mkTransition 0 0 (Forward (test_label 9)); mkTransition 0 0 (Forward (test_label 9))] in
  test_blob A [test_edge 1 9 2; test_edge 1 9 2] = test_blob A [test_edge 1 9 2] ∧
  drop 32 (test_blob A [test_edge 1 9 2]) =
    [1; 0; 0; 0; 2; 0; 0; 0; 1; 0; 0; 0; 0; 0; 0; 0]%N ++ replicate 32 1%N ++ replicate 32 2%N ++ [0; 0; 0; 0; 1; 0; 0; 0]%N.
Proof. split; vm_compute; reflexivity. Qed.

(** [automaton_blob_rejects_noncanonical_and_trailing_bytes] *)
Example noncanonical_automaton :
  let A := test_automaton 3 [0; 1] [2] [] in
  let wire := default [] (AutomatonBlob.automaton_wire A) in
  let swapped := take 40 wire ++ push_u32 1 ++ push_u32 0 ++ drop 48 wire in
  AutomatonBlob.decode swapped = inr A ∧ AutomatonBlob.audit swapped = Some (inl AutomatonBlob.NonCanonical) ∧
  AutomatonBlob.decode (wire ++ [0%N]) = inl AutomatonBlob.BadLength.
Proof. split_and!; vm_compute; reflexivity. Qed.

(** [malformed_length_fingerprint_order_bounds_and_state_pair_are_rejected] *)
Example malformed_summaries :
  let A := test_plus 9 in
  let blob := test_blob A [test_edge 1 9 2] in
  let put (at_ : nat) (bytes : list N) := take at_ blob ++ bytes ++ drop (at_ + length bytes) blob in
  let read bytes := match SummaryBlob.decode bytes A with Some (inr _) => true | _ => false end in
  SummaryBlob.decode (removelast blob) A = Some (inl SummaryBlob.BadLength) ∧
  SummaryBlob.audit test_handle (removelast blob) A = Some (inl SummaryBlob.BadLength) ∧
  SummaryBlob.decode (put 116 (push_u32 4)) A = Some (inl SummaryBlob.ArcOutOfBounds) ∧
  SummaryBlob.audit test_handle (put 116 (push_u32 4)) A = Some (inl SummaryBlob.ArcOutOfBounds) ∧
  read (put 0 [255%N]) = true ∧ SummaryBlob.audit test_handle (put 0 [255%N]) A = Some (inl SummaryBlob.DifferentAutomaton) ∧
  read (put 48 (test_vertex 2)) = true ∧
  SummaryBlob.audit test_handle (put 48 (test_vertex 2)) A = Some (inl SummaryBlob.VertexOrder) ∧
  read (put 116 (push_u32 2)) = true ∧
  SummaryBlob.audit test_handle (put 116 (push_u32 2)) A = Some (inl SummaryBlob.InvalidStatePair) ∧
  read (put 120 (take 8 (drop 112 blob))) = true ∧
  SummaryBlob.audit test_handle (put 120 (take 8 (drop 112 blob))) A = Some (inl SummaryBlob.ArcOrder).
Proof. split_and!; vm_compute; reflexivity. Qed.
