(* ===== verification/PathIndex.v ===== *)
(** * PathIndex: the materialised relation of a path

    Source: [triblespace-paths/src/index.rs].

    The endpoints of the accepted paths of a summary, by strongly connected
    components of the product graph and bit rows propagated over their
    condensation.  A stack is kept with its top first, the binary heap as an
    ascending list; [u32] and [usize] values are natural numbers, except for
    the component numbers under construction, whose sentinel is [u32::MAX]. *)

From S2P Require Import Prelude Lex BTree Trible PathExpr PathSummary.

Open Scope nat_scope.

(** ** Slices *)

Definition slice {A} (l : list A) (lo hi : nat) : res (list A) :=
  _ ← massert ((lo <=? hi) && (hi <=? length l));
  Some (take (hi - lo) (drop lo l)).
(** What [l] is after its elements from [lo] on are overwritten by [part]. *)
Definition write_slice {A} (l : list A) (lo : nat) (part : list A) : list A :=
  take lo l ++ part ++ drop (lo + length part) l.

(** [v[i].push(x)] for a vector of vectors. *)
Definition push_at {A} (l : list (list A)) (i : nat) (x : A) : res (list (list A)) :=
  row ← l !! i;
  arr_set l i (row ++ [x]).

(** [filter] by a test that may panic. *)
Fixpoint filter_res {A} (p : A → res bool) (l : list A) : res (list A) :=
  match l with
  | [] => Some []
  | x :: l => b ← p x; rest ← filter_res p l; Some (if (b : bool) then x :: rest else rest)
  end.

Fixpoint take_while {A} (p : A → bool) (l : list A) : list A :=
  match l with [] => [] | x :: l => if p x then x :: take_while p l else [] end.

(** ** Compressed rows *)

Record Csr := mkCsr { offsets : list nat; csr_values : list nat }.

Definition csr_row (self : Csr) (ordinal : nat) : res (list nat) :=
  lo ← offsets self !! ordinal;
  hi ← offsets self !! (ordinal + 1);
  slice (csr_values self) lo hi.

Definition count_target (counts : list nat) (target : nat) : res (list nat) :=
  c ← counts !! target; arr_set counts target (c + 1).
Definition push_offset (offsets : list nat) (count : nat) : res (list nat) :=
  x ← last offsets; Some (offsets ++ [x + count]).
Definition place_source (source : nat) (st : list nat * list nat) (target : nat) : res (list nat * list nat) :=
  slot ← st.1 !! target;
  values ← arr_set st.2 slot (as_u32 source);
  next ← arr_set st.1 target (slot + 1);
  Some (next, values).

Definition transpose (self : Csr) (rows : nat) : res Csr :=
  counts ← foldM count_target (replicate rows 0) (csr_values self);
  offsets ← foldM push_offset [0] counts;
  next ← slice offsets 0 rows;
  '(_, values) ← foldM (λ st source, row ← csr_row self source; foldM (place_source source) st row)
    (next, replicate (length (csr_values self)) 0) (seq 0 rows);
  Some (mkCsr offsets values).

(** ** Strongly connected components *)

Definition reverse_adjacency (adjacency : list (list nat)) : res (list (list nat)) :=
  foldM (λ reverse p, foldM (λ reverse target, push_at reverse target (as_u32 p.1)) reverse p.2)
    (replicate (length adjacency) []) (imap pair adjacency).

(** The loop over the stack of a depth-first visit. *)
Fixpoint visit (fuel : nat) (adjacency : list (list nat)) (seen : list bool) (postorder : list nat) (stack : list (nat * nat))
    : res (list bool * list nat) :=
  match stack with
  | [] => Some (seen, postorder)
  | (node, next_edge) :: rest =>
      match fuel with
      | 0 => None
      | S fuel =>
          targets ← adjacency !! node;
          match targets !! next_edge with
          | Some target =>
              let stack := (node, next_edge + 1) :: rest in
              s ← seen !! target;
              if (s : bool) then visit fuel adjacency seen postorder stack else
              seen ← arr_set seen target true;
              visit fuel adjacency seen postorder ((target, 0) :: stack)
          | None => visit fuel adjacency seen (postorder ++ [node]) rest
          end
      end
  end.

(** Enough for every visit: a round per edge and one per node. *)
Definition visit_fuel (adjacency : list (list nat)) : nat := sum_list ((λ targets, length targets + 1) <$> adjacency).

Definition visit_root (adjacency : list (list nat)) (st : list bool * list nat) (root : nat) : res (list bool * list nat) :=
  s ← st.1 !! root;
  if (s : bool) then Some st else
  seen ← arr_set st.1 root true;
  visit (visit_fuel adjacency) adjacency seen st.2 [(root, 0)].

Definition post_order (adjacency : list (list nat)) : res (list nat) :=
  '(_, postorder) ← foldM (visit_root adjacency) (replicate (length adjacency) false, []) (seq 0 (length adjacency));
  Some postorder.

(** One predecessor: it joins the component unless it has one. *)
Definition join_component (component_count : N) (st : list N * list nat) (predecessor : nat) : res (list N * list nat) :=
  c ← st.1 !! predecessor;
  if (c =? u32_max)%N then
    component_of ← arr_set st.1 predecessor component_count;
    Some (component_of, predecessor :: st.2)
  else Some st.

Fixpoint fill_component (fuel : nat) (reverse : list (list nat)) (component_count : N) (component_of : list N) (stack : list nat)
    : res (list N) :=
  match stack with
  | [] => Some component_of
  | node :: stack =>
      match fuel with
      | 0 => None
      | S fuel =>
          predecessors ← reverse !! node;
          '(component_of, stack) ← foldM (join_component component_count) (component_of, stack) predecessors;
          fill_component fuel reverse component_count component_of stack
      end
  end.

Definition fill_root (reverse : list (list nat)) (st : list N * N) (root : nat) : res (list N * N) :=
  let '(component_of, component_count) := st in
  c ← component_of !! root;
  if negb (c =? u32_max)%N then Some st else
  component_of ← arr_set component_of root component_count;
  component_of ← fill_component (length reverse) reverse component_count component_of [root];
  Some (component_of, (component_count + 1)%N).

Definition strongly_connected_components (adjacency : list (list nat)) : res (list nat * nat) :=
  reverse ← reverse_adjacency adjacency;
  postorder ← post_order adjacency;
  '(component_of, component_count) ←
    foldM (fill_root reverse) (replicate (length adjacency) u32_max, 0%N) (rev postorder);
  Some ((N.to_nat <$> component_of) : list nat, N.to_nat component_count).

Definition condense_edge (component_of : list nat) (source_component : nat) (result : list (list nat)) (target : nat)
    : res (list (list nat)) :=
  target_component ← component_of !! target;
  if source_component =? target_component then Some result else push_at result source_component target_component.

Definition condensation (adjacency : list (list nat)) (component_of : list nat) (count : nat) : res (list (list nat)) :=
  result ← foldM (λ result p,
    source_component ← component_of !! p.1;
    foldM (condense_edge component_of source_component) result p.2) (replicate count []) (imap pair adjacency);
  Some ((sort_dedup Nat.compare <$> result) : list (list nat)).

(** ** Topological order *)

Definition release (st : list nat * list nat) (target : nat) : res (list nat * list nat) :=
  let '(indegree, ready) := st in
  d ← indegree !! target;
  _ ← massert (1 <=? d);
  indegree ← arr_set indegree target (d - 1);
  Some (indegree, if d - 1 =? 0 then sort_insert Nat.compare target ready else ready).

Fixpoint kahn (fuel : nat) (adjacency : list (list nat)) (indegree ready result : list nat) : res (list nat) :=
  match ready with
  | [] => Some result
  | component :: ready =>
      match fuel with
      | 0 => None
      | S fuel =>
          targets ← adjacency !! component;
          '(indegree, ready) ← foldM release (indegree, ready) targets;
          kahn fuel adjacency indegree ready (result ++ [component])
      end
  end.

Definition indegrees (adjacency : list (list nat)) : res (list nat) :=
  foldM (λ indegree targets, foldM count_target indegree targets) (replicate (length adjacency) 0) adjacency.

Definition topological_order (adjacency : list (list nat)) : res (list nat) :=
  indegree ← indegrees adjacency;
  let ready := sort_unstable Nat.compare (fst <$> filter (λ p : nat * nat, p.2 = 0) (imap pair indegree)) in
  kahn (length adjacency) adjacency indegree ready [].

(** ** Bit rows *)

Definition set_bit (words : list N) (bit : nat) : res (list N) :=
  word ← words !! (bit / 64);
  arr_set words (bit / 64) (N.lor word (wshl 64 1 (N.of_nat (bit mod 64)))).

Definition union_word (width target source : nat) (rows : list N) (word : nat) : res (list N) :=
  source_word ← rows !! (source * width + word);
  target_word ← rows !! (target * width + word);
  arr_set rows (target * width + word) (N.lor target_word source_word).
Definition union_component_rows (rows : list N) (width target source : nat) : res (list N) :=
  foldM (union_word width target source) rows (seq 0 width).

Fixpoint word_bits (fuel : nat) (word : N) : res (list nat) :=
  if (word =? 0)%N then Some [] else
  match fuel with
  | 0 => None
  | S fuel =>
      rest ← word_bits fuel (N.land word (word - 1));
      Some (N.to_nat (trailing_zeros word) :: rest)
  end.
Definition set_bits (words : list N) : res (list nat) :=
  rows ← mapM (λ p, bits ← word_bits 64 p.2; Some (((λ bit, p.1 * 64 + bit) <$> bits) : list nat)) (imap pair words);
  Some (concat rows).

(** [row |= source], word by word. *)
Fixpoint or_words (row source : list N) : list N :=
  match row, source with
  | x :: row, y :: source => N.lor x y :: or_words row source
  | _, _ => row
  end.

(** ** The active relation *)

Definition div_ceil (x y : nat) : nat := x / y + (if x mod y =? 0 then 0 else 1).

Definition build_adjacency (product_count : nat) (arcs : list (nat * nat)) : res (list (list nat)) :=
  adjacency ← foldM (λ adjacency arc, push_at adjacency arc.1 arc.2) (replicate product_count []) arcs;
  Some ((sort_dedup Nat.compare <$> adjacency) : list (list nat)).

Definition mark_accepting (automaton : Automaton) (state_count row_words : nat) (reach : list N) (p : nat * nat) : res (list N) :=
  let '(product, component) := p in
  if is_accepting automaton (product mod state_count) then
    row ← slice reach (component * row_words) ((component + 1) * row_words);
    row ← set_bit row (product / state_count);
    Some (write_slice reach (component * row_words) row)
  else Some reach.

Definition propagate (condensation : list (list nat)) (row_words : nat) (reach : list N) (component : nat) : res (list N) :=
  successors ← condensation !! component;
  foldM (λ reach successor, union_component_rows reach row_words component successor) reach successors.

(** The words of the targets of one source. *)
Definition source_words (automaton : Automaton) (state_count row_words : nat) (component_of : list nat) (reach : list N) (source : nat)
    : res (list N) :=
  foldM (λ row initial,
    component ← component_of !! (source * state_count + initial);
    component_row ← slice reach (component * row_words) ((component + 1) * row_words);
    Some (or_words row component_row)) (replicate row_words 0%N) (initial automaton).

Definition push_row (st : list nat * list nat) (row : list nat) : list nat * list nat :=
  (st.1 ++ [length (st.2 ++ row)], st.2 ++ row).

Definition materialize_active_relation (summary : PathSummary) (vertices : list RawInline) : res (PathError + Csr) :=
  let vertex_count := length vertices in
  let state_count := state_count (automaton summary) in
  match usize_add vertex_count 1, usize_mul vertex_count state_count with
  | Some _, Some product_count =>
      if (u32_max <? N.of_nat product_count)%N then Some (inl (ProductCarrierTooLarge vertex_count state_count)) else
      arcs ← ordinal_arcs_in summary vertices;
      adjacency ← build_adjacency product_count arcs;
      '(component_of, component_count) ← strongly_connected_components adjacency;
      condensed ← condensation adjacency component_of component_count;
      topological ← topological_order condensed;
      let row_words := div_ceil vertex_count 64 in
      match usize_mul component_count row_words with
      | None => Some (inl CapacityOverflow)
      | Some reach_words =>
          reach ← foldM (mark_accepting (automaton summary) state_count row_words) (replicate reach_words 0%N) (imap pair component_of);
          reach ← foldM (propagate condensed row_words) reach (rev topological);
          '(offsets, values) ← foldM (λ st source,
            row ← source_words (automaton summary) state_count row_words component_of reach source;
            bits ← set_bits row;
            Some (push_row st (take_while (λ target, target <? vertex_count) bits))) ([0], []) (seq 0 vertex_count);
          Some (inr (mkCsr offsets values))
      end
  | _, _ => Some (inl CapacityOverflow)
  end.

(** ** The relation over all vertices *)

(** One target of an active source, before which the source itself may be due. *)
Definition expand_target (active_to_full : list nat) (add_identity : bool) (source : nat) (st : bool * list nat) (active_target : nat)
    : res (bool * list nat) :=
  target ← active_to_full !! active_target;
  let '(written, values) :=
    if add_identity && negb st.1 && (source <? target) then (true, st.2 ++ [source]) else st in
  Some (written || (source =? target), values ++ [target]).

Definition expand_source (active_to_full : list nat) (active : Csr) (add_identity : bool) (st : nat * (list nat * list nat)) (source : nat)
    : res (nat * (list nat * list nat)) :=
  let '(active_source, rows) := st in
  if bool_decide (active_to_full !! active_source = Some source) then
    row ← csr_row active active_source;
    '(written, values) ← foldM (expand_target active_to_full add_identity source) (false, []) row;
    Some (active_source + 1, push_row rows (if add_identity && negb written then values ++ [source] else values))
  else Some (active_source, push_row rows (if add_identity then [source] else [])).

Definition expand_relation (vertices active_vertices : list RawInline) (active : Csr) (add_identity : bool) : res (PathError + Csr) :=
  if bool_decide (vertices = active_vertices) then Some (inr active) else
  active_to_full ← mapM (λ vertex, found ← binary_search lex_cmp vertices vertex; found) active_vertices;
  let added_identity := if add_identity then length vertices - length active_vertices else 0 in
  match usize_add (length (csr_values active)) added_identity, usize_add (length vertices) 1 with
  | Some _, Some _ =>
      '(_, (offsets, values)) ← foldM (expand_source active_to_full active add_identity) (0, ([0], [])) (seq 0 (length vertices));
      Some (inr (mkCsr offsets values))
  | _, _ => Some (inl CapacityOverflow)
  end.

(** ** The index *)

Record PathIndex := mkIndex {
  ix_summary : PathSummary;
  forward : Csr;
  reversed : Csr;
  starts : list nat;
  ends : list nat;
  diagonal : list nat;
}.

Definition row_nonempty (csr : Csr) (ordinal : nat) : res bool :=
  row ← csr_row csr ordinal; Some (match row with [] => false | _ => true end).
Definition found_in (ordinals : list nat) (ordinal : nat) : res bool :=
  found ← binary_search Nat.compare ordinals (as_u32 ordinal); Some (match found with Some _ => true | None => false end).

Definition from_summary (summary : PathSummary) : res (PathError + PathIndex) :=
  let vertex_count := length (vertices summary) in
  if (u32_max <? N.of_nat vertex_count)%N then Some (inl (TooManyVertices vertex_count)) else
  match usize_add vertex_count 1 with
  | None => Some (inl CapacityOverflow)
  | Some _ =>
      let nullable := accepts_empty (automaton summary) in
      let active := if nullable then active_vertices summary else vertices summary in
      relation ← materialize_active_relation summary active;
      match relation with
      | inl error => Some (inl error)
      | inr relation =>
          expanded ← expand_relation (vertices summary) active relation nullable;
          match expanded with
          | inl error => Some (inl error)
          | inr forward =>
              starts ← filter_res (row_nonempty forward) (seq 0 vertex_count);
              diagonal ← filter_res (λ source, row ← csr_row forward source; found_in row source) (seq 0 vertex_count);
              reversed ← transpose forward vertex_count;
              ends ← filter_res (row_nonempty reversed) (seq 0 vertex_count);
              Some (inr (mkIndex summary forward reversed (as_u32 <$> starts) (as_u32 <$> ends) (as_u32 <$> diagonal)))
          end
      end
  end.

Definition index_from_edges (automaton : Automaton) (edges : list GraphEdge) : res (PathError + PathIndex) :=
  summary ← from_edges automaton edges; from_summary summary.
Definition index_from_tribles (automaton : Automaton) (tribles : list Trible) : res (PathError + PathIndex) :=
  summary ← from_tribles automaton tribles; from_summary summary.

Definition index_merge_all (indexes : list PathIndex) : res (PathError + PathIndex) :=
  match merge_all (ix_summary <$> indexes) with inl error => Some (inl error) | inr summary => from_summary summary end.
Definition index_merge (self other : PathIndex) : res (PathError + PathIndex) :=
  match merge (ix_summary self) (ix_summary other) with inl error => Some (inl error) | inr summary => from_summary summary end.

(** ** Reading *)

Definition vertex_count (self : PathIndex) : nat := length (vertices (ix_summary self)).
Definition accepted_pair_count (self : PathIndex) : nat := length (csr_values (forward self)).

Definition vertex_ordinal (self : PathIndex) (value : RawInline) : res (option nat) :=
  binary_search lex_cmp (vertices (ix_summary self)) value.

Definition contains (self : PathIndex) (source target : RawInline) : res bool :=
  source ← vertex_ordinal self source;
  target ← vertex_ordinal self target;
  match source, target with
  | Some source, Some target => row ← csr_row (forward self) source; found_in row target
  | _, _ => Some false
  end.

Definition accepted_pairs (self : PathIndex) : res (list (RawInline * RawInline)) :=
  rows ← mapM (λ source,
    source_value ← vertices (ix_summary self) !! source;
    row ← csr_row (forward self) source;
    mapM (λ target, target_value ← vertices (ix_summary self) !! target; Some (source_value, target_value)) row)
    (seq 0 (vertex_count self));
  Some (concat rows).

Definition forward_ordinals (self : PathIndex) (source : RawInline) : res (list nat) :=
  found ← vertex_ordinal self source;
  match found with Some source => csr_row (forward self) source | None => Some [] end.
Definition reverse_ordinals (self : PathIndex) (target : RawInline) : res (list nat) :=
  found ← vertex_ordinal self target;
  match found with Some target => csr_row (reversed self) target | None => Some [] end.

Definition index_values (self : PathIndex) (ordinals : list nat) : res (list RawInline) :=
  mapM (λ ordinal, vertices (ix_summary self) !! ordinal) ordinals.

Definition start_values (self : PathIndex) : res (list RawInline) := index_values self (starts self).
Definition end_values (self : PathIndex) : res (list RawInline) := index_values self (ends self).
Definition diagonal_values (self : PathIndex) : res (list RawInline) := index_values self (diagonal self).

Definition reachable_from (self : PathIndex) (source : RawInline) : res (list RawInline) :=
  ordinals ← forward_ordinals self source; index_values self ordinals.
Definition reaching (self : PathIndex) (target : RawInline) : res (list RawInline) :=
  ordinals ← reverse_ordinals self target; index_values self ordinals.

Definition ordinal_in (self : PathIndex) (ordinals : list nat) (value : RawInline) : res bool :=
  found ← vertex_ordinal self value;
  match found with Some ordinal => found_in ordinals ordinal | None => Some false end.
