(* ===== verification/PathScc.v ===== *)
(** * PathScc: the strongly connected components of the product graph

    The visit of [strongly_connected_components] finishes the nodes in a
    depth-first order; filling along predecessors in the reverse of that order
    numbers the components so that edges go to equal or larger numbers. *)

From S2P Require Import Prelude Lex BTree Trible PathExpr PathLanguage PathCompile PathSummary PathIndex.

Open Scope nat_scope.

Section graph.
Context (adj : list (list nat)).

Definition edge (u v : nat) : Prop := ∃ row, adj !! u = Some row ∧ v ∈ row.
Abbreviation reach := (rtc edge).

(** Every target is a node. *)
Definition targets_ok : Prop := ∀ u v, edge u v → v < length adj.

(** ** The depth-first visit *)

(** A frame of the stack, with the length of the post-order at its discovery. *)
Abbreviation frame := (nat * nat * nat)%type (only parsing).
Definition frame_node (f : nat * nat * nat) : nat := f.1.1.
Definition frame_entry (f : nat * nat * nat) : nat * nat := f.1.

Definition is_seen (post : list nat) (fs : list (nat * nat * nat)) (v : nat) : Prop := v ∈ post ∨ v ∈ frame_node <$> fs.

(** What was finished since a frame was found is reachable from it, and what
    was finished before leads only there or to frames below. *)
Fixpoint frames_ok (post : list nat) (fs : list (nat * nat * nat)) : Prop :=
  match fs with
  | [] => True
  | (x, _, d) :: fs =>
      d <= length post ∧ (∀ y, y ∈ drop d post → reach x y) ∧
      (∀ z y, z ∈ take d post → edge z y → y ∈ take d post ∨ y ∈ frame_node <$> fs) ∧
      (∀ f, f ∈ fs → reach (frame_node f) x) ∧ frames_ok post fs
  end.

(** The order of finished nodes, up to the nodes [open] that are still open. *)
Definition finishing (open post : list nat) : Prop :=
  ∀ pre r rest, post = pre ++ r :: rest → ∃ p m, pre = p ++ m ∧ (∀ x, x ∈ m → reach r x) ∧
    ∀ x y, x ∈ p → edge x y → y ∈ p ∨ y ∈ rest ∨ y ∈ open.

Record visit_ok (seen : list bool) (post : list nat) (fs : list (nat * nat * nat)) : Prop := {
  vo_length : length seen = length adj;
  vo_seen v : seen !! v = Some true ↔ is_seen post fs v;
  vo_nodup : NoDup (post ++ (frame_node <$> fs));
  vo_post x y : x ∈ post → edge x y → is_seen post fs y;
  vo_frame x e d i y row : (x, e, d) ∈ fs → adj !! x = Some row → row !! i = Some y → i < e → is_seen post fs y;
  vo_range x e d : (x, e, d) ∈ fs → ∃ row, adj !! x = Some row ∧ e <= length row;
  vo_frames : frames_ok post fs;
  vo_order : finishing (frame_node <$> fs) post;
}.

(** The rounds that are left. *)
Definition unseen_rounds (seen : list bool) : nat :=
  sum_list (zip_with (λ (b : bool) (row : list nat), if b then 0 else length row + 1) seen adj).
Definition frame_rounds (f : nat * nat * nat) : nat := length (default [] (adj !! frame_node f)) - f.1.2 + 1.
Definition rounds (seen : list bool) (fs : list (nat * nat * nat)) : nat := unseen_rounds seen + sum_list (frame_rounds <$> fs).

Lemma unseen_set seen v row : seen !! v = Some false → adj !! v = Some row →
  unseen_rounds seen = unseen_rounds (<[v:=true]> seen) + (length row + 1).
Proof.
  unfold unseen_rounds. revert v adj. induction seen as [|b seen IH]; intros [|v] [|row' adj'] Hs Ha; simplify_eq/=; [lia|].
  rewrite (IH v adj') by done. lia.
Qed.

Lemma frames_ok_grow x post fs : (∀ f, f ∈ fs → reach (frame_node f) x) → frames_ok post fs → frames_ok (post ++ [x]) fs.
Proof.
  induction fs as [|[[y e] d] fs IH]; [done|]. intros Hx (H1 & H2 & H3 & H4 & H5). cbn [frames_ok].
  rewrite take_app_le by done. rewrite drop_app_le by done. split_and!.
  - rewrite length_app. lia.
  - intros z [Hz| ->%list_elem_of_singleton]%elem_of_app; [by apply H2|]. apply (Hx (y, e, d)). by left.
  - done.
  - done.
  - apply IH; [|done]. intros f Hf. apply Hx. by right.
Qed.

(** The node on top is finished. *)
Lemma visit_pop seen post x e d fs row : visit_ok seen post ((x, e, d) :: fs) → adj !! x = Some row → row !! e = None →
  visit_ok seen (post ++ [x]) fs.
Proof.
  intros [H1 H2 H3 H4 H5 H6 H7 H8] Hrow He. cbn [frames_ok] in H7. destruct H7 as (F1 & F2 & F3 & F4 & F5).
  assert (∀ v, is_seen (post ++ [x]) fs v ↔ is_seen post ((x, e, d) :: fs) v) as Hs.
  { intros v. unfold is_seen. rewrite fmap_cons. cbn [frame_node fst]. set_solver. }
  split.
  - done.
  - intros v. by rewrite Hs.
  - rewrite <- app_assoc. exact H3.
  - intros z y [Hz| ->%list_elem_of_singleton]%elem_of_app Hzy; apply Hs; [by eapply H4|].
    destruct Hzy as (row' & Hr & Hy). rewrite Hrow in Hr. injection Hr as <-. apply list_elem_of_lookup in Hy as [i Hi].
    eapply (H5 x e d i y row); [by left|done..|]. apply lookup_ge_None in He. apply lookup_lt_Some in Hi. lia.
  - intros y e' d' i z row' Hin Hr Hi Hlt. apply Hs. eapply H5; [by right|done..].
  - intros y e' d' Hin. apply (H6 y e' d'). by right.
  - apply frames_ok_grow; [exact F4|exact F5].
  - intros pre r rest E. destruct rest as [|z rest _] using rev_ind.
    + apply app_inj_tail in E as [<- <-]. exists (take d post), (drop d post). rewrite take_drop. split_and!; [done|exact F2|].
      intros z y Hz Hzy. destruct (F3 z y Hz Hzy) as [?|?]; [by left|by right; right].
    + rewrite app_comm_cons, app_assoc in E. apply app_inj_tail in E as [E <-]. destruct (H8 pre r rest E) as (p & m & -> & Hm & Hp).
      exists p, m. split_and!; [done|done|]. intros y y' Hy Hyy. destruct (Hp y y' Hy Hyy) as [?|[?|Ho]]; [by left|set_solver|].
      rewrite fmap_cons in Ho. cbn [frame_node fst] in Ho. set_solver.
Qed.

(** An edge to a node that was seen. *)
Lemma visit_skip seen post x e d fs row y : visit_ok seen post ((x, e, d) :: fs) → adj !! x = Some row → row !! e = Some y →
  is_seen post ((x, e, d) :: fs) y → visit_ok seen post ((x, e + 1, d) :: fs).
Proof.
  intros [H1 H2 H3 H4 H5 H6 H7 H8] Hrow He Hy. split; try done.
  - intros z e' d' i y' row' [E|Hin]%elem_of_cons Hr Hi Hlt.
    + injection E as -> -> ->. destruct (decide (i = e)) as [->|Hne].
      * rewrite Hrow in Hr. injection Hr as <-. by simplify_eq.
      * eapply (H5 x e d i y' row'); [by left|done..|lia].
    + eapply (H5 z e' d'); [by right|done..].
  - intros z e' d' [E|Hin]%elem_of_cons.
    + injection E as -> -> ->. exists row. split; [done|]. apply lookup_lt_Some in He. lia.
    + apply (H6 z e' d'). by right.
Qed.

(** An edge to a new node. *)
Lemma visit_push seen post x e d fs row y : targets_ok → visit_ok seen post ((x, e, d) :: fs) → adj !! x = Some row → row !! e = Some y →
  seen !! y = Some false → visit_ok (<[y:=true]> seen) post ((y, 0, length post) :: (x, e + 1, d) :: fs).
Proof.
  intros Ht Hv Hrow He Hy. assert (¬ is_seen post ((x, e, d) :: fs) y) as Hn.
  { intros H. apply (vo_seen _ _ _ Hv) in H. by rewrite Hy in H. }
  assert (edge x y) as Hxy by (exists row; split; [done|by eapply list_elem_of_lookup_2]).
  set (fs1 := (x, e + 1, d) :: fs) in *.
  assert (∀ v, is_seen post ((y, 0, length post) :: fs1) v ↔ v = y ∨ is_seen post ((x, e, d) :: fs) v) as Hs.
  { intros v. unfold is_seen, fs1. rewrite !fmap_cons. cbn [frame_node fst]. set_solver. }
  destruct Hv as [H1 H2 H3 H4 H5 H6 H7 H8]. pose proof (Ht x y Hxy) as Hlt. split.
  - by rewrite length_insert.
  - intros v. rewrite Hs. destruct (decide (v = y)) as [->|Hne]; [rewrite list_lookup_insert_eq by lia; tauto|].
    rewrite list_lookup_insert_ne by done. rewrite H2. tauto.
  - assert (frame_node <$> (y, 0, length post) :: fs1 = y :: (frame_node <$> (x, e, d) :: fs)) as -> by done.
    apply NoDup_app in H3 as (N1 & N2 & N3). apply NoDup_app. split_and!; [done| |].
    + intros z Hz. rewrite not_elem_of_cons. split; [|by apply N2]. intros ->. apply Hn. by left.
    + apply NoDup_cons. split; [|done]. intros Hin. apply Hn. by right.
  - intros z y' Hz Hzy. apply Hs. right. by eapply H4.
  - intros z e' d' i y' row' [E|[E|Hin]%elem_of_cons]%elem_of_cons Hr Hi Hl; apply Hs.
    + injection E as -> -> ->. lia.
    + injection E as -> -> ->. rewrite Hrow in Hr. injection Hr as <-. destruct (decide (i = e)) as [->|Hne]; [left; congruence|].
      right. eapply (H5 x e d i y' row); [by left|done..|lia].
    + right. eapply (H5 z e' d'); [by right|done..].
  - intros z e' d' [E|[E|Hin]%elem_of_cons]%elem_of_cons.
    + injection E as -> -> ->. destruct (lookup_lt_is_Some_2 adj y Hlt) as [row' Hr]. exists row'. split; [done|lia].
    + injection E as -> -> ->. exists row. split; [done|]. apply lookup_lt_Some in He. lia.
    + apply (H6 z e' d'). by right.
  - cbn [frames_ok]. split_and!; [done| | | |exact H7].
    + rewrite drop_all. by intros z ?%elem_of_nil.
    + rewrite take_ge by done. intros z y' Hz Hzy. destruct (H4 z y' Hz Hzy) as [?|?]; [by left|by right].
    + intros f [->|Hf]%elem_of_cons; [by apply rtc_once|]. destruct H7 as (_ & _ & _ & F4 & _).
      eapply rtc_r; [by apply F4|done].
  - intros pre r rest E. destruct (H8 pre r rest E) as (p & m & -> & Hm & Hp). exists p, m. split_and!; [done|done|].
    intros z y' Hz Hzy. destruct (Hp z y' Hz Hzy) as [?|[?|Ho]]; [by left|by right; left|]. right. right. by right.
Qed.

Lemma seen_cases seen post fs v : visit_ok seen post fs → v < length adj →
  seen !! v = Some true ∧ is_seen post fs v ∨ seen !! v = Some false ∧ ¬ is_seen post fs v.
Proof.
  intros Hv Hlt. destruct (lookup_lt_is_Some_2 seen v) as [[|] Hs]; [by rewrite (vo_length _ _ _ Hv)|left..|right].
  - split; [done|]. by apply (vo_seen _ _ _ Hv).
  - split; [done|]. intros H. apply (vo_seen _ _ _ Hv) in H. congruence.
Qed.

Lemma rounds_cons seen f fs : rounds seen (f :: fs) = frame_rounds f + rounds seen fs.
Proof.
  unfold rounds. rewrite fmap_cons.
  change (sum_list (frame_rounds f :: (frame_rounds <$> fs))) with (frame_rounds f + sum_list (frame_rounds <$> fs)). apply Nat.add_shuffle3.
Qed.

Lemma frame_rounds_at x e d row : adj !! x = Some row → frame_rounds (x, e, d) = length row - e + 1.
Proof. intros E. unfold frame_rounds. cbn [frame_node fst snd]. by rewrite E. Qed.

Lemma visit_spec fuel : targets_ok → ∀ seen post fs, visit_ok seen post fs → rounds seen fs <= fuel →
  ∃ seen' post', visit fuel adj seen post (frame_entry <$> fs) = Some (seen', post') ∧ visit_ok seen' post' [] ∧
    ∀ v, is_seen post fs v → v ∈ post'.
Proof.
  intros Ht. induction fuel as [|fuel IH]; intros seen post [|[[x e] d] fs] Hv Hm.
  - exists seen, post. split_and!; [done..|]. by intros v [?|?%elem_of_nil].
  - exfalso. rewrite rounds_cons in Hm. unfold frame_rounds in Hm. lia.
  - exists seen, post. split_and!; [done..|]. by intros v [?|?%elem_of_nil].
  - destruct (vo_range _ _ _ Hv x e d) as (row & Hrow & Hle); [by left|]. rewrite fmap_cons. cbn [visit frame_entry fst].
    rewrite Hrow. cbn [mbind option_bind]. destruct (row !! e) as [y|] eqn:He.
    + assert (edge x y) as Hxy by (exists row; split; [done|by eapply list_elem_of_lookup_2]).
      pose proof (lookup_lt_Some _ _ _ He) as Hlt. destruct (seen_cases seen post _ y Hv (Ht x y Hxy)) as [[-> Hy]|[Hys Hy]].
      * cbn [mbind option_bind]. destruct (IH seen post ((x, e + 1, d) :: fs)) as (s' & p' & E & H1 & H2).
        -- by eapply visit_skip.
        -- rewrite rounds_cons, (frame_rounds_at _ _ _ row) in Hm by done. rewrite rounds_cons, (frame_rounds_at _ _ _ row) by done. lia.
        -- exists s', p'. split_and!; [exact E|done|exact H2].
      * rewrite Hys. cbn [mbind option_bind]. unfold arr_set. rewrite (proj2 (Nat.ltb_lt _ _)) by by eapply lookup_lt_Some.
        destruct (lookup_lt_is_Some_2 adj y (Ht x y Hxy)) as [rowy Hry].
        destruct (IH (<[y:=true]> seen) post ((y, 0, length post) :: (x, e + 1, d) :: fs)) as (s' & p' & E & H1 & H2).
        -- by eapply visit_push.
        -- rewrite rounds_cons, (frame_rounds_at x _ _ row) in Hm by done.
           rewrite !rounds_cons, (frame_rounds_at x _ _ row), (frame_rounds_at y _ _ rowy) by done.
           unfold rounds in *. rewrite (unseen_set seen y rowy) in Hm by done. lia.
        -- exists s', p'. split_and!; [exact E|done|]. intros v Hsv. apply H2. unfold is_seen in *. rewrite !fmap_cons in *.
           cbn [frame_node fst] in *. set_solver.
    + destruct (IH seen (post ++ [x]) fs) as (s' & p' & E & H1 & H2).
      * by eapply visit_pop.
      * rewrite rounds_cons, (frame_rounds_at _ _ _ row) in Hm by done.
        lia.
      * exists s', p'. split_and!; [exact E|done|]. intros v Hsv. apply H2. unfold is_seen in *. rewrite fmap_cons in Hsv.
        cbn [frame_node fst] in Hsv. set_solver.
Qed.

Lemma unseen_le seen : unseen_rounds seen <= visit_fuel adj.
Proof.
  unfold unseen_rounds, visit_fuel. revert seen. induction adj as [|row adj' IH]; intros [|b seen]; simpl; try lia.
  specialize (IH seen). unfold fmap in IH. destruct b; lia.
Qed.

Lemma visit_root_spec st root : targets_ok → visit_ok st.1 st.2 [] → root < length adj →
  ∃ st', visit_root adj st root = Some st' ∧ visit_ok st'.1 st'.2 [] ∧ root ∈ st'.2 ∧ ∀ v, v ∈ st.2 → v ∈ st'.2.
Proof.
  intros Ht Hv Hr. destruct st as [seen post]. simpl in *. unfold visit_root. cbn [fst snd].
  destruct (seen_cases seen post [] root Hv Hr) as [[-> Hs]|[Hs Hn]].
  - exists (seen, post). split_and!; [done|done| |done]. by destruct Hs as [?|?%elem_of_nil].
  - rewrite Hs. cbn [mbind option_bind]. unfold arr_set. rewrite (proj2 (Nat.ltb_lt _ _)) by by eapply lookup_lt_Some. cbn [mbind option_bind].
    destruct (lookup_lt_is_Some_2 adj root Hr) as [row Hrow].
    assert (root ∉ post) as Hnp by (intros H; apply Hn; by left).
    destruct (visit_spec (visit_fuel adj) Ht (<[root:=true]> seen) post [(root, 0, length post)]) as (s' & p' & E & H1 & H2).
    + destruct Hv as [V1 V2 V3 V4 V5 V6 V7 V8].
      assert (∀ v, is_seen post [(root, 0, length post)] v ↔ v = root ∨ is_seen post [] v) as Hsr by (intros v; unfold is_seen; set_solver).
      split.
      * by rewrite length_insert.
      * intros v. rewrite Hsr. destruct (decide (v = root)) as [->|Hne]; [rewrite list_lookup_insert_eq by lia; tauto|].
        rewrite list_lookup_insert_ne by done. rewrite V2. tauto.
      * rewrite app_nil_r in V3. apply NoDup_app. split_and!; [done| |apply NoDup_singleton]. intros v Hpv Hvr.
        apply list_elem_of_singleton in Hvr as ->. done.
      * intros x y Hx Hxy. apply Hsr. right. by eapply V4.
      * intros x e d i y row' [[= -> -> ->]|?%elem_of_nil]%elem_of_cons; [lia|done].
      * intros x e d [[= -> -> ->]|?%elem_of_nil]%elem_of_cons; [|done]. exists row. split; [done|lia].
      * cbn [frames_ok]. split_and!; [done| | |by intros f ?%elem_of_nil|done].
        -- rewrite drop_all. by intros y ?%elem_of_nil.
        -- rewrite take_ge by done. intros z y Hz Hzy. destruct (V4 z y Hz Hzy) as [?|?%elem_of_nil]; [by left|done].
      * intros pre r rest Ep. destruct (V8 pre r rest Ep) as (p & m & -> & Hm & Hp). exists p, m. split_and!; [done|done|].
        intros x y Hx Hxy. destruct (Hp x y Hx Hxy) as [?|[?|?%elem_of_nil]]; [by left|by right; left|done].
    + rewrite rounds_cons, (frame_rounds_at _ _ _ row) by done. unfold rounds. cbn [fmap list_fmap sum_list foldr].
      pose proof (unseen_le seen) as Hle. rewrite (unseen_set seen root row) in Hle by done. simpl. lia.
    + exists (s', p'). split_and!; [exact E|done|apply H2; right; by left|intros v Hpv; apply H2; by left].
Qed.

(** The post-order has every node once. *)
Lemma post_order_spec : targets_ok → ∃ post, post_order adj = Some post ∧ NoDup post ∧ (∀ v, v ∈ post ↔ v < length adj) ∧ finishing [] post.
Proof.
  intros Ht. unfold post_order.
  assert (∀ roots st, (∀ r, r ∈ roots → r < length adj) → visit_ok st.1 st.2 [] →
    ∃ st', foldM (visit_root adj) st roots = Some st' ∧ visit_ok st'.1 st'.2 [] ∧ ∀ v, v ∈ roots ∨ v ∈ st.2 → v ∈ st'.2) as Hf.
  { induction roots as [|r roots IH]; intros st Hr Hv; cbn [foldM].
    - exists st. split_and!; [done..|]. by intros v [?%elem_of_nil|?].
    - destruct (visit_root_spec st r Ht Hv) as (st1 & -> & H1 & H2 & H3); [apply Hr; by left|]. cbn [mbind option_bind].
      destruct (IH st1) as (st2 & -> & H4 & H5); [intros r' Hr'; apply Hr; by right|done|]. exists st2. split_and!; [done..|].
      intros v [[->|Hv']%elem_of_cons|Hv']; apply H5; [by right|by left|right; by apply H3]. }
  destruct (Hf (seq 0 (length adj)) (replicate (length adj) false, [])) as ([seen post] & -> & Hv & Hin).
  - intros r Hr%elem_of_seq. lia.
  - split; simpl.
    + apply length_replicate.
    + intros v. split; [intros [? _]%lookup_replicate; done|]. by intros [?%elem_of_nil|?%elem_of_nil].
    + constructor.
    + by intros x y ?%elem_of_nil.
    + by intros x e d i y row ?%elem_of_nil.
    + by intros x e d ?%elem_of_nil.
    + done.
    + intros pre r rest E. by destruct pre.
  - cbn [mbind option_bind]. exists post. destruct Hv as [V1 V2 V3 V4 V5 V6 V7 V8]. simpl in *. rewrite app_nil_r in V3.
    split_and!; [done|done| |exact V8]. intros v. split.
    + intros Hp. rewrite <- V1. eapply lookup_lt_Some. apply V2. by left.
    + intros Hlt. apply Hin. left. apply elem_of_seq. lia.
Qed.
End graph.

(** ** Reversing the edges *)

Lemma push_at_spec l i x : i < length l → ∃ l', push_at l i x = Some l' ∧ length l' = length l ∧
  ∀ j y, edge l' j y ↔ edge l j y ∨ j = i ∧ y = x.
Proof.
  intros Hi. unfold push_at, arr_set. destruct (lookup_lt_is_Some_2 l i Hi) as [row Hr]. rewrite Hr. cbn [mbind option_bind].
  rewrite (proj2 (Nat.ltb_lt _ _)) by done. eexists. split_and!; [done|by rewrite length_insert|]. intros j y. unfold edge.
  destruct (decide (j = i)) as [->|Hne].
  - rewrite list_lookup_insert_eq by done. split.
    + intros (row' & [= <-] & [Hy|Hy%list_elem_of_singleton]%elem_of_app); [left; by exists row|by right].
    + intros [(row' & Hr' & Hy)|[_ ->]].
      * rewrite Hr in Hr'. injection Hr' as <-. exists (row ++ [x]). split; [done|]. apply elem_of_app. by left.
      * exists (row ++ [x]). split; [done|]. apply elem_of_app. right. by left.
  - rewrite list_lookup_insert_ne by done. naive_solver.
Qed.

Lemma push_all_spec x targets : ∀ l, (∀ j, j ∈ targets → j < length l) →
  ∃ l', foldM (λ l target, push_at l target x) l targets = Some l' ∧ length l' = length l ∧
  ∀ j y, edge l' j y ↔ edge l j y ∨ j ∈ targets ∧ y = x.
Proof.
  induction targets as [|i targets IH]; intros l Hl; cbn [foldM].
  - exists l. split_and!; [done..|]. set_solver.
  - destruct (push_at_spec l i x) as (l1 & -> & H1 & H2); [apply Hl; by left|]. cbn [mbind option_bind].
    destruct (IH l1) as (l2 & -> & H3 & H4); [intros j Hj; rewrite H1; apply Hl; by right|]. exists l2. split_and!; [done|lia|].
    intros j y. rewrite H4, H2, elem_of_cons. tauto.
Qed.

Lemma elem_of_indexed {A} (l : list A) p : p ∈ imap pair l ↔ l !! p.1 = Some p.2.
Proof. destruct p as [i x]. rewrite elem_of_lookup_imap. simpl. split; [by intros (i' & x' & [= -> ->] & ?)|]. intros ?. by exists i, x. Qed.

Lemma reverse_adjacency_spec adj : targets_ok adj → (N.of_nat (length adj) <= u32_max)%N →
  ∃ rv, reverse_adjacency adj = Some rv ∧ length rv = length adj ∧ ∀ v u, edge rv v u ↔ edge adj u v.
Proof.
  intros Ht Hn. unfold reverse_adjacency.
  assert (∀ ps l, (∀ p j, p ∈ ps → j ∈ p.2 → j < length l) → ∃ l',
    foldM (λ reverse p, foldM (λ reverse target, push_at reverse target (as_u32 p.1)) reverse p.2) l ps = Some l' ∧ length l' = length l ∧
    ∀ j y, edge l' j y ↔ edge l j y ∨ ∃ p, p ∈ ps ∧ j ∈ p.2 ∧ y = as_u32 p.1) as Hf.
  { induction ps as [|p ps IH]; intros l Hl; cbn [foldM].
    - exists l. split_and!; [done..|]. set_solver.
    - destruct (push_all_spec (as_u32 p.1) p.2 l) as (l1 & -> & H1 & H2); [intros j; apply Hl; by left|]. cbn [mbind option_bind].
      destruct (IH l1) as (l2 & -> & H3 & H4); [intros q j Hq; rewrite H1; apply Hl; by right|]. exists l2. split_and!; [done|lia|].
      intros j y. rewrite H4, H2. split.
      + intros [[?|?]|(q & ? & ?)]; [by left|right; exists p; split; [by left|done]|right; exists q; split; [by right|done]].
      + intros [?|(q & [->|?]%elem_of_cons & ?)]; [tauto..|right; by exists q]. }
  destruct (Hf (imap pair adj) (replicate (length adj) [])) as (rv & -> & H1 & H2).
  - intros p j Hp%elem_of_indexed Hj. rewrite length_replicate. apply (Ht p.1). by exists p.2.
  - rewrite length_replicate in H1. exists rv. split_and!; [done..|]. intros v u. rewrite H2. split.
    + intros [(row & [-> _]%lookup_replicate & ?%elem_of_nil)|(p & Hp%elem_of_indexed & Hj & ->)]; [done|].
      rewrite as_u32_small by (apply lookup_lt_Some in Hp; lia). by exists p.2.
    + intros (row & Hr & Hv). right. exists (u, row). rewrite elem_of_indexed. split_and!; [done..|]. simpl.
      by rewrite as_u32_small by (apply lookup_lt_Some in Hr; lia).
Qed.

(** ** Filling a component *)

Definition assigned (comp : list N) (v : nat) : Prop := ∃ c, comp !! v = Some c ∧ c ≠ u32_max.
Definition unassigned (comp : list N) : nat := length (filter (λ c, c = u32_max) comp).

Lemma unassigned_set comp v c : comp !! v = Some u32_max → c ≠ u32_max → unassigned comp = unassigned (<[v:=c]> comp) + 1.
Proof.
  unfold unassigned. revert v. induction comp as [|c' comp IH]; intros v Hv Hc; [done|]. destruct v as [|v].
  - injection Hv as ->. change (<[0:=c]> (u32_max :: comp)) with (c :: comp).
    rewrite filter_cons_True by done. rewrite filter_cons_False by done. simpl. lia.
  - change (<[S v:=c]> (c' :: comp)) with (c' :: <[v:=c]> comp). rewrite !filter_cons. specialize (IH v Hv Hc).
    destruct (decide (c' = u32_max)); simpl; lia.
Qed.

Section fill.
Context (adj rv : list (list nat)) (comp0 : list N) (k : N) (root : nat) (P : nat → Prop).
Context (Ht : targets_ok adj) (Hrl : length rv = length adj) (Hrv : ∀ v u, edge rv v u ↔ edge adj u v) (Hk : k ≠ u32_max).
Context (HP : ∀ x y, P x → comp0 !! x = Some u32_max → edge adj x y → P y ∨ assigned comp0 y).

(** The component of [root] so far; the predecessors of its nodes other than
    those of [open] have a component. *)
Record fill_ok (comp : list N) (open : list nat) : Prop := {
  fl_length : length comp = length adj;
  fl_old v c : comp0 !! v = Some c → c ≠ u32_max → comp !! v = Some c;
  fl_new v c : comp !! v = Some c → comp0 !! v = Some c ∨ comp0 !! v = Some u32_max ∧ c = k ∧ rtc (edge adj) v root ∧ ¬ P v;
  fl_open v : v ∈ open → comp !! v = Some k ∧ comp0 !! v = Some u32_max ∧ rtc (edge adj) v root ∧ ¬ P v;
  fl_pred v u : comp !! v = Some k → comp0 !! v = Some u32_max → v ∉ open → edge adj u v → assigned comp u;
  fl_root : comp !! root = Some k;
}.

Lemma assigned_new comp v c w : comp !! v = Some u32_max → c ≠ u32_max → assigned comp w → assigned (<[v:=c]> comp) w.
Proof.
  intros Hv Hc (c' & Hw & Hc'). destruct (decide (w = v)) as [->|Hne]; [congruence|]. exists c'. by rewrite list_lookup_insert_ne.
Qed.

Lemma join_spec comp node stack u : fill_ok comp (node :: stack) → edge adj u node →
  ∃ comp' stack', join_component k (comp, stack) u = Some (comp', stack') ∧ fill_ok comp' (node :: stack') ∧ assigned comp' u ∧
    (∀ w, assigned comp w → assigned comp' w) ∧ length stack' + unassigned comp' = length stack + unassigned comp ∧
    unassigned comp' <= unassigned comp.
Proof.
  intros Hf Hu. unfold join_component. cbn [fst snd].
  assert (u < length comp) as Hlt.
  { rewrite (fl_length _ _ Hf). destruct Hu as (row & Hr & _). by eapply lookup_lt_Some. }
  destruct (lookup_lt_is_Some_2 comp u Hlt) as [c Hc]. rewrite Hc. cbn [mbind option_bind].
  destruct (N.eqb_spec c u32_max) as [->|Hne].
  2:{ exists comp, stack. split_and!; [done|done|by exists c|done..]. }
  unfold arr_set. rewrite (proj2 (Nat.ltb_lt _ _)) by done. cbn [mbind option_bind]. eexists _, _. split; [done|].
  assert (∀ w c', comp !! w = Some c' → c' ≠ u32_max → <[u:=k]> comp !! w = Some c') as Hkeep.
  { intros w c' Hw Hc'. destruct (decide (w = u)) as [->|?]; [congruence|]. by rewrite list_lookup_insert_ne. }
  assert (comp0 !! u = Some u32_max) as H0 by (destruct (fl_new _ _ Hf u _ Hc) as [?|(? & ? & _)]; [done|congruence]).
  destruct (fl_open _ _ Hf node) as (Hn1 & Hn2 & Hn3 & Hn4); [by left|].
  assert (rtc (edge adj) u root ∧ ¬ P u) as [Hr HPu].
  { split; [by eapply rtc_l|]. intros Hpu. destruct (HP u node Hpu H0 Hu) as [?|(c' & Hc' & ?)]; [done|congruence]. }
  pose proof (unassigned_set comp u k Hc Hk) as Hcount.
  assert (fill_ok (<[u:=k]> comp) (node :: u :: stack)) as Hfill.
  2:{ split_and!; [done|exists k; by rewrite list_lookup_insert_eq|intros w; by apply assigned_new|simpl; lia|lia]. }
  split.
  - rewrite length_insert. apply Hf.
  - intros v c' Hv Hc'. apply Hkeep; [by apply (fl_old _ _ Hf)|done].
  - intros v c' Hv. destruct (decide (v = u)) as [->|Hnv].
    + rewrite list_lookup_insert_eq in Hv by done. injection Hv as <-. by right.
    + rewrite list_lookup_insert_ne in Hv by done. by apply (fl_new _ _ Hf).
  - intros v [->|[->|Hv]%elem_of_cons]%elem_of_cons.
    + split_and!; [by apply Hkeep|done..].
    + split_and!; [by apply list_lookup_insert_eq|done..].
    + destruct (fl_open _ _ Hf v) as (? & ? & ? & ?); [by right|]. split_and!; [by apply Hkeep|done..].
  - intros v w Hv Hv0 Hno Hw. apply assigned_new; [done|done|]. apply (fl_pred _ _ Hf v); [|done|set_solver|done].
    rewrite list_lookup_insert_ne in Hv by set_solver. done.
  - apply Hkeep; [by apply (fl_root _ _ Hf)|done].
Qed.

Lemma join_all_spec us : ∀ comp node stack, fill_ok comp (node :: stack) → (∀ u, u ∈ us → edge adj u node) →
  ∃ comp' stack', foldM (join_component k) (comp, stack) us = Some (comp', stack') ∧ fill_ok comp' (node :: stack') ∧
    (∀ u, u ∈ us ∨ assigned comp u → assigned comp' u) ∧ length stack' + unassigned comp' = length stack + unassigned comp ∧
    unassigned comp' <= unassigned comp.
Proof.
  induction us as [|u us IH]; intros comp node stack Hf Hu; cbn [foldM].
  - exists comp, stack. split_and!; [done|done| |done..]. by intros u [?%elem_of_nil|?].
  - destruct (join_spec comp node stack u Hf) as (c1 & s1 & -> & H1 & H2 & H3 & H4 & H4'); [apply Hu; by left|]. cbn [mbind option_bind].
    destruct (IH c1 node s1 H1) as (c2 & s2 & -> & H5 & H6 & H7 & H7'); [intros w Hw; apply Hu; by right|].
    exists c2, s2. split_and!; [done|done| |lia..]. intros w [[->|Hw]%elem_of_cons|Hw]; apply H6; [by right|by left|right; by apply H3].
Qed.

Lemma fill_spec fuel : ∀ comp stack, fill_ok comp stack → length stack + unassigned comp <= fuel →
  ∃ comp', fill_component fuel rv k comp stack = Some comp' ∧ fill_ok comp' [] ∧ unassigned comp' <= unassigned comp.
Proof.
  induction fuel as [|fuel IH]; intros comp [|node stack] Hf Hm; cbn [fill_component].
  - by exists comp.
  - simpl in Hm. lia.
  - by exists comp.
  - destruct (fl_open _ _ Hf node) as (Hn1 & _); [by left|].
    destruct (lookup_lt_is_Some_2 rv node) as [us Hus]; [rewrite Hrl, <- (fl_length _ _ Hf); by eapply lookup_lt_Some|].
    rewrite Hus. cbn [mbind option_bind].
    destruct (join_all_spec us comp node stack Hf) as (c1 & s1 & -> & H1 & H2 & H3 & H3').
    { intros u Hu. apply Hrv. by exists us. }
    cbn [mbind option_bind]. destruct (IH c1 s1) as (c2 & E & H4 & H5).
    + destruct H1 as [A1 A2 A3 A4 A5 A6]. split; [done..| | |done].
      * intros v Hv. apply A4. by right.
      * intros v u Hv Hv0 Hno Hu. destruct (decide (v = node)) as [->|Hne].
        -- apply H2. left. apply Hrv in Hu as (row & Hr & Hin). rewrite Hus in Hr. by injection Hr as <-.
        -- apply (A5 v u); [done..|set_solver|done].
    + simpl in Hm. lia.
    + exists c2. split_and!; [done|done|lia].
Qed.
End fill.

(** ** All components *)

(** [k] components so far, which hold the nodes of [done]. *)
Record scc_ok (adj : list (list nat)) (finished : list nat) (comp : list N) (k : N) : Prop := {
  sc_length : length comp = length adj;
  sc_range v c : comp !! v = Some c → c = u32_max ∨ (c < k)%N;
  sc_finished v : v ∈ finished → assigned comp v;
  sc_edge u v c : edge adj u v → comp !! v = Some c → c ≠ u32_max → ∃ c', comp !! u = Some c' ∧ (c' <= c)%N ∧ c' ≠ u32_max;
  sc_same u v c : comp !! u = Some c → comp !! v = Some c → c ≠ u32_max → rtc (edge adj) u v;
  sc_count : (k + N.of_nat (unassigned comp) <= N.of_nat (length adj))%N;
}.

Section components.
Context (adj rv : list (list nat)) (post : list nat).
Context (Ht : targets_ok adj) (Hn : (N.of_nat (length adj) <= u32_max)%N).
Context (Hrl : length rv = length adj) (Hrv : ∀ v u, edge rv v u ↔ edge adj u v).
Context (Hnd : NoDup post) (Hall : ∀ v, v ∈ post ↔ v < length adj) (Hfin : finishing adj [] post).

(** The start of a component. *)
Lemma fill_start (comp : list N) k root P : comp !! root = Some u32_max → length comp = length adj → k ≠ u32_max → ¬ P root →
  fill_ok adj comp k root P (<[root:=k]> comp) [root].
Proof.
  intros Hr Hl Hk HP. pose proof (lookup_lt_Some _ _ _ Hr) as Hlt. split.
  - by rewrite length_insert.
  - intros v c Hv Hc. rewrite list_lookup_insert_ne; [done|]. intros ->. congruence.
  - intros v c Hv. destruct (decide (v = root)) as [->|Hne].
    + rewrite list_lookup_insert_eq in Hv by done. injection Hv as <-. right. by split_and!.
    + rewrite list_lookup_insert_ne in Hv by done. by left.
  - intros v ->%list_elem_of_singleton. split_and!; [by apply list_lookup_insert_eq|done..].
  - intros v u Hv Hv0 Hno _. rewrite list_lookup_insert_ne in Hv by set_solver. congruence.
  - by apply list_lookup_insert_eq.
Qed.

(** What a filled component adds. *)
Lemma filled_ok root rest comp k P comp' : scc_ok adj rest comp k → k ≠ u32_max →
  (∀ v, v < length adj → comp !! v = Some u32_max → ¬ P v → rtc (edge adj) root v) → comp !! root = Some u32_max →
  fill_ok adj comp k root P comp' [] → unassigned comp' + 1 <= unassigned comp → scc_ok adj (root :: rest) comp' (k + 1).
Proof.
  intros [S1 S2 S3 S4 S5 S6] Hk Hreach Hroot [F1 F2 F3 F4 F5 F6] Hle. split.
  - done.
  - intros v c Hv. destruct (F3 v c Hv) as [H|(_ & -> & _)]; [|right; lia]. destruct (S2 v c H) as [?|?]; [by left|right; lia].
  - intros v [->|Hv]%elem_of_cons; [by exists k|]. destruct (S3 v Hv) as (c & ? & ?). exists c. split; [by apply F2|done].
  - intros u v c Huv Hv Hc. destruct (F3 v c Hv) as [H|(H0 & -> & _)].
    + destruct (S4 u v c Huv H Hc) as (c' & Hu & Hl & Hc'). exists c'. split_and!; [by apply F2|done..].
    + destruct (F5 v u Hv H0 (not_elem_of_nil v) Huv) as (c' & Hu & Hc'). exists c'. split_and!; [done| |done].
      destruct (F3 u c' Hu) as [H|(_ & -> & _)]; [|done]. destruct (S2 u c' H) as [?|?]; [done|lia].
  - intros u v c Hu Hv Hc. destruct (F3 u c Hu) as [Hu0|(Hu0 & Ec & Hur & _)], (F3 v c Hv) as [Hv0|(Hv0 & Ec' & _ & HvP)].
    + by eapply S5.
    + subst c. destruct (S2 u k Hu0); [done|lia].
    + subst c. destruct (S2 v k Hv0); [done|lia].
    + etransitivity; [exact Hur|]. apply Hreach; [|done|done]. rewrite <- S1. by eapply lookup_lt_Some.
  - lia.
Qed.

Lemma fill_root_spec pre root rest comp k : post = pre ++ root :: rest → scc_ok adj rest comp k →
  ∃ comp' k', fill_root rv (comp, k) root = Some (comp', k') ∧ scc_ok adj (root :: rest) comp' k'.
Proof.
  intros Hp Hs. pose proof Hs as [S1 S2 S3 S4 S5 S6].
  assert (root < length adj) as Hlt by (apply Hall; rewrite Hp; apply elem_of_app; right; by left).
  destruct (lookup_lt_is_Some_2 comp root) as [c Hc]; [lia|]. unfold fill_root. rewrite Hc. cbn [mbind option_bind].
  destruct (N.eqb_spec c u32_max) as [->|Hne]; cbn [negb].
  2:{ exists comp, k. split; [done|]. split; [done..| |done|done|done]. intros v [->|Hv]%elem_of_cons; [by exists c|by apply S3]. }
  assert (0 < unassigned comp) as Hu.
  { rewrite (unassigned_set comp root 0%N Hc); [lia|done]. }
  assert (k ≠ u32_max) as Hk by lia. unfold arr_set. rewrite (proj2 (Nat.ltb_lt _ _)) by lia. cbn [mbind option_bind].
  pose proof (unassigned_set comp root k Hc Hk) as Hcount.
  destruct (Hfin pre root rest Hp) as (p & m & -> & Hm & Hpe). pose proof Hnd as Hnd'. rewrite Hp in Hnd'.
  assert (∀ v, v ∈ p → (v ∉ m) ∧ v ≠ root ∧ (v ∉ rest)) as Hdis.
  { intros v Hv. rewrite <- (assoc_L (++)) in Hnd'. apply NoDup_app in Hnd' as (_ & Hd & _). specialize (Hd v Hv). set_solver. }
  destruct (fill_spec adj rv comp k root (λ v, v ∈ p)) with (fuel := length rv) (comp := <[root:=k]> comp) (stack := [root])
    as (comp' & -> & Hf & Hle); [done..| | | |].
  - intros x y Hx Hx0 Hxy. destruct (Hpe x y Hx Hxy) as [?|[?|?%elem_of_nil]]; [by left|right; by apply S3|done].
  - apply fill_start; [done..|]. intros Hin. by destruct (Hdis root Hin) as (_ & ? & _).
  - simpl. lia.
  - cbn [mbind option_bind]. exists comp', (k + 1)%N. split; [done|]. eapply filled_ok; [done|done| | |done|lia].
    + intros v Hv Hv0 Hpv. assert (v ∈ (p ++ m) ++ (root :: rest)) as Hin by (rewrite <- Hp; by apply Hall).
      apply elem_of_app in Hin as [[?|?]%elem_of_app|[->|Hin]%elem_of_cons]; [done|by apply Hm|done|].
      destruct (S3 v Hin) as (c & ? & ?). congruence.
    + done.
Qed.

Lemma fill_all_spec pre : ∀ rest comp k, post = pre ++ rest → scc_ok adj rest comp k →
  ∃ comp' k', foldM (fill_root rv) (comp, k) (rev pre) = Some (comp', k') ∧ scc_ok adj post comp' k'.
Proof.
  induction pre as [|root pre IH] using rev_ind; intros rest comp k Hp Hs; [exists comp, k; by rewrite Hp|].
  rewrite rev_app_distr. cbn [rev app foldM]. rewrite <- (assoc_L (++)) in Hp.
  destruct (fill_root_spec pre root rest comp k Hp Hs) as (c1 & k1 & -> & H1). cbn [mbind option_bind]. by apply (IH (root :: rest)).
Qed.
End components.

(** The components: nodes that reach one another have the same, and edges go
    to equal or larger numbers. *)
Lemma scc_spec adj : targets_ok adj → (N.of_nat (length adj) <= u32_max)%N →
  ∃ component_of count, strongly_connected_components adj = Some (component_of, count) ∧ length component_of = length adj ∧
    count <= length adj ∧ (∀ v c, component_of !! v = Some c → c < count) ∧
    (∀ u v c d, edge adj u v → component_of !! u = Some c → component_of !! v = Some d → c <= d) ∧
    ∀ u v c d, component_of !! u = Some c → component_of !! v = Some d →
      (c = d ↔ rtc (edge adj) u v ∧ rtc (edge adj) v u).
Proof.
  intros Ht Hn. unfold strongly_connected_components.
  destruct (reverse_adjacency_spec adj Ht Hn) as (rv & -> & Hrl & Hrv). cbn [mbind option_bind].
  destruct (post_order_spec adj Ht) as (post & -> & Hnd & Hall & Hfin). cbn [mbind option_bind].
  assert (scc_ok adj [] (replicate (length adj) u32_max) 0) as H0.
  { split.
    - apply length_replicate.
    - intros v c [-> _]%lookup_replicate. by left.
    - by intros v ?%elem_of_nil.
    - by intros u v c _ [-> _]%lookup_replicate.
    - by intros u v c [-> _]%lookup_replicate.
    - rewrite N.add_0_l. unfold unassigned.
      pose proof (length_filter (λ c, c = u32_max) (replicate (length adj) u32_max)) as H. rewrite length_replicate in H. lia. }
  destruct (fill_all_spec adj rv post Ht Hn Hrl Hrv Hnd Hall Hfin post [] _ _ (eq_sym (app_nil_r post)) H0) as (comp & k & -> & [S1 S2 S3 S4 S5 S6]).
  cbn [mbind option_bind]. exists (N.to_nat <$> comp), (N.to_nat k).
  assert (∀ v c, (N.to_nat <$> comp) !! v = Some c → ∃ c', c = N.to_nat c' ∧ comp !! v = Some c' ∧ c' ≠ u32_max ∧ (c' < k)%N) as Hc.
  { intros v c Hv. apply list_lookup_fmap_Some in Hv as (c' & -> & Hv). exists c'. assert (v ∈ post) as Hin.
    { apply Hall. rewrite <- S1. by eapply lookup_lt_Some. }
    destruct (S3 v Hin) as (c2 & Hc2 & Hne). rewrite Hv in Hc2. injection Hc2 as <-. split_and!; [done..|]. by destruct (S2 v c' Hv). }
  assert (∀ u v, rtc (edge adj) u v → ∀ c', comp !! v = Some c' → c' ≠ u32_max → ∃ c, comp !! u = Some c ∧ (c <= c')%N) as Hmono.
  { induction 1 as [v|u w v Huw _ IH]; intros c' Hv Hc'; [by exists c'|]. destruct (IH c' Hv Hc') as (c1 & Hw & Hle).
    assert (w ∈ post) as Hin by (apply Hall; by eapply Ht). destruct (S3 w Hin) as (c2 & Hw' & Hne). rewrite Hw in Hw'. injection Hw' as <-.
    destruct (S4 u w c1 Huw Hw Hne) as (c2 & Hu & Hle' & _). exists c2. split; [done|lia]. }
  split_and!; [done|by rewrite length_fmap|lia| | |].
  - intros v c Hv. destruct (Hc v c Hv) as (c' & -> & _ & _ & ?). lia.
  - intros u v c d Huv Hu Hv. destruct (Hc u c Hu) as (c' & -> & Hu' & _), (Hc v d Hv) as (d' & -> & Hv' & Hd & _).
    destruct (S4 u v d' Huv Hv' Hd) as (c2 & Hu2 & Hle & _). rewrite Hu' in Hu2. injection Hu2 as <-. lia.
  - intros u v c d Hu Hv. destruct (Hc u c Hu) as (c' & -> & Hu' & Hc1 & _), (Hc v d Hv) as (d' & -> & Hv' & Hd1 & _). split.
    + intros E. apply N2Nat.inj in E as ->. split; by eapply S5.
    + intros [H1 H2]. destruct (Hmono u v H1 d' Hv' Hd1) as (x & Hx & Hle), (Hmono v u H2 c' Hu' Hc1) as (y & Hy & Hle').
      rewrite Hu' in Hx. injection Hx as <-. rewrite Hv' in Hy. injection Hy as <-. f_equal. lia.
Qed.
