(* ===== verification/PathOrder.v ===== *)
(** * PathOrder: the condensation and its topological order

    Components are numbered so that edges go to larger numbers; the queue of
    [topological_order] then delivers them in the order of their numbers. *)

From S2P Require Import Prelude Lex BTree Trible PathExpr PathLanguage PathCompile PathSummary PathIndex PathScc.

Open Scope nat_scope.

(** ** Sorting without repetitions *)

Section sorting.
Context {A : Type} (cmp : A → A → comparison) `{!CmpOk cmp}.

Lemma sort_insert_new x l : x ∉ l → sort_insert cmp x l = bts_insert cmp x l.
Proof.
  induction l as [|y l IH]; intros Hx; [done|]. cbn [sort_insert bts_insert]. apply not_elem_of_cons in Hx as [Hxy Hx].
  destruct (cmp x y) eqn:E; [|done|by rewrite IH]. by apply (cmp_eq cmp) in E.
Qed.

Lemma sort_unstable_ascending l : NoDup l → ascending cmp (sort_unstable cmp l) ∧ ∀ x, x ∈ sort_unstable cmp l ↔ x ∈ l.
Proof.
  induction 1 as [|x l Hx _ [IH1 IH2]]; [by repeat constructor|]. cbn [sort_unstable foldr].
  change (foldr (sort_insert cmp) [] l) with (sort_unstable cmp l). rewrite sort_insert_new by by rewrite IH2. split.
  - by apply bts_insert_ascending.
  - intros y. rewrite elem_of_bts_insert, elem_of_cons by done. by rewrite IH2.
Qed.
End sorting.

(** Sorted rows have the same edges. *)
Lemma edge_sorted l u v : edge (sort_dedup Nat.compare <$> l) u v ↔ edge l u v.
Proof.
  unfold edge. split.
  - intros (row & Hr & Hv). apply list_lookup_fmap_Some in Hr as (row' & -> & Hr). exists row'. split; [done|].
    by apply (proj1 (elem_of_sort_dedup Nat.compare v row')).
  - intros (row & Hr & Hv). exists (sort_dedup Nat.compare row). rewrite list_lookup_fmap, Hr. split; [done|].
    by apply (proj2 (elem_of_sort_dedup Nat.compare v row)).
Qed.

(** ** The condensation *)

Lemma condense_row_spec comp c targets : ∀ l, (∀ v, v ∈ targets → is_Some (comp !! v)) → c < length l →
  ∃ l', foldM (condense_edge comp c) l targets = Some l' ∧ length l' = length l ∧
    ∀ j d, edge l' j d ↔ edge l j d ∨ j = c ∧ c ≠ d ∧ ∃ v, v ∈ targets ∧ comp !! v = Some d.
Proof.
  induction targets as [|v targets IH]; intros l Hv Hc; cbn [foldM].
  - exists l. split_and!; [done..|]. intros j d. split; [by left|]. by intros [?|(_ & _ & v & ?%elem_of_nil & _)].
  - destruct (Hv v) as [d Hd]; [by left|]. 
    change (condense_edge comp c l v) with (d ← comp !! v; if c =? d then Some l else push_at l c d). rewrite Hd. cbn [mbind option_bind].
    assert (∀ v', v' ∈ targets → is_Some (comp !! v')) as Hv' by (intros v' ?; apply Hv; by right).
    destruct (Nat.eqb_spec c d) as [<-|Hne].
    + destruct (IH l Hv' Hc) as (l' & E & H1 & H2). exists l'. cbn [mbind option_bind]. split_and!; [done..|]. intros j e. rewrite H2.
      setoid_rewrite elem_of_cons. split; [naive_solver|]. intros [?|(-> & Hne & v' & [->|?] & ?)]; [by left|congruence|right; naive_solver].
    + destruct (push_at_spec l c d Hc) as (l1 & -> & H1 & H2). cbn [mbind option_bind].
      destruct (IH l1 Hv') as (l' & -> & H3 & H4); [lia|]. exists l'. split_and!; [done|lia|]. intros j e. rewrite H4, H2.
      setoid_rewrite elem_of_cons. split.
      * intros [[?|[-> ->]]|(-> & ? & v' & ? & ?)]; [by left|right; naive_solver|right; naive_solver].
      * intros [?|(-> & ? & v' & [->|?] & ?)]; [by left; left|left; right; split; [done|congruence]|right; naive_solver].
Qed.

Lemma condensation_spec adj comp count : targets_ok adj → length comp = length adj → (∀ v c, comp !! v = Some c → c < count) →
  ∃ cond, condensation adj comp count = Some cond ∧ length cond = count ∧ (∀ row, row ∈ cond → NoDup row) ∧
    ∀ c d, edge cond c d ↔ c ≠ d ∧ ∃ u v, edge adj u v ∧ comp !! u = Some c ∧ comp !! v = Some d.
Proof.
  intros Ht Hl Hc. unfold condensation.
  assert (∀ ps l, (∀ p, p ∈ ps → (∃ c, comp !! p.1 = Some c ∧ c < length l) ∧ ∀ v, v ∈ p.2 → is_Some (comp !! v)) →
    ∃ l', foldM (λ result p, source_component ← comp !! p.1; foldM (condense_edge comp source_component) result p.2) l ps = Some l' ∧
      length l' = length l ∧
      ∀ j d, edge l' j d ↔ edge l j d ∨ j ≠ d ∧ ∃ p v, p ∈ ps ∧ v ∈ p.2 ∧ comp !! p.1 = Some j ∧ comp !! v = Some d) as Hf.
  { induction ps as [|p ps IH]; intros l Hp; cbn [foldM].
    - exists l. split_and!; [done..|]. intros j d. split; [by left|]. by intros [?|(_ & p & v & ?%elem_of_nil & _)].
    - destruct (Hp p) as [(c & Hpc & Hcl) Hv]; [by left|]. rewrite Hpc. cbn [mbind option_bind].
      destruct (condense_row_spec comp c p.2 l Hv Hcl) as (l1 & -> & H1 & H2). cbn [mbind option_bind].
      destruct (IH l1) as (l' & -> & H3 & H4); [intros q Hq; rewrite H1; apply Hp; by right|]. exists l'. split_and!; [done|lia|].
      intros j d. rewrite H4, H2. setoid_rewrite elem_of_cons. split.
      + intros [[?|(-> & Hne & v & ? & ?)]|(Hne & q & v & ? & ? & ? & ?)]; [by left|right; split; [done|]..].
        * exists p, v. split_and!; [by left|done..].
        * exists q, v. split_and!; [by right|done..].
      + intros [?|(Hne & q & v & [->|?] & ? & Hq & ?)]; [by left; left|left; right|right; split; [done|by exists q, v]].
        rewrite Hpc in Hq. injection Hq as ->. split_and!; [done..|by exists v]. }
  destruct (Hf (imap pair adj) (replicate count [])) as (l & -> & H1 & H2).
  - intros p Hp%elem_of_indexed. rewrite length_replicate. split.
    + destruct (lookup_lt_is_Some_2 comp p.1) as [c Hpc]; [rewrite Hl; by eapply lookup_lt_Some|]. exists c. split; [done|by eapply Hc].
    + intros v Hv. apply lookup_lt_is_Some_2. rewrite Hl. apply (Ht p.1). by exists p.2.
  - cbn [mbind option_bind]. eexists. split; [done|]. rewrite length_replicate in H1. split_and!; [by rewrite length_fmap| |].
    + intros row Hrow. apply list_elem_of_fmap in Hrow as (row' & -> & _). eapply (ascending_NoDup Nat.compare), (sort_dedup_spec Nat.compare).
    + intros c d. rewrite edge_sorted, H2. split.
      * intros [(row & [-> _]%lookup_replicate & ?%elem_of_nil)|(Hne & p & v & Hp%elem_of_indexed & Hv & ? & ?)]; [done|].
        split; [done|]. exists p.1, v. split_and!; [by exists p.2|done..].
      * intros (Hne & u & v & (row & Hr & Hv) & ? & ?). right. split; [done|]. exists (u, row), v. by rewrite elem_of_indexed.
Qed.

(** ** The topological order *)

Definition occ (d : nat) (l : list nat) : nat := length (filter (λ x, x = d) l).

Lemma occ_cons d x l : occ d (x :: l) = (if decide (x = d) then 1 else 0) + occ d l.
Proof. unfold occ. rewrite filter_cons. by destruct (decide (x = d)). Qed.
Lemma occ_pos d l : d ∈ l → 1 <= occ d l.
Proof. intros (l1 & l2 & ->)%list_elem_of_split. unfold occ. rewrite filter_app, length_app, filter_cons_True by done. simpl. lia. Qed.
Lemma occ_zero d l : d ∉ l → occ d l = 0.
Proof.
  induction l as [|x l IH]; intros Hd; [done|]. rewrite occ_cons. apply not_elem_of_cons in Hd as [Hx Hd]. rewrite IH by done.
  by destruct (decide (x = d)).
Qed.

Lemma count_all_spec l : ∀ counts, (∀ x, x ∈ l → x < length counts) →
  ∃ counts', foldM count_target counts l = Some counts' ∧ length counts' = length counts ∧
    ∀ d n, counts !! d = Some n → counts' !! d = Some (n + occ d l).
Proof.
  induction l as [|x l IH]; intros counts Hl; cbn [foldM].
  - exists counts. split_and!; [done..|]. intros d n ->. f_equal. unfold occ. simpl. lia.
  - assert (x < length counts) as Hx by (apply Hl; by left). destruct (lookup_lt_is_Some_2 counts x Hx) as [c Hc].
    assert (count_target counts x = Some (<[x:=c + 1]> counts)) as ->.
    { unfold count_target, arr_set. rewrite Hc. cbn [mbind option_bind]. by rewrite (proj2 (Nat.ltb_lt _ _)). }
    cbn [mbind option_bind].
    destruct (IH (<[x:=c + 1]> counts)) as (c' & -> & H1 & H2).
    { intros y Hy. rewrite length_insert. apply Hl. by right. }
    exists c'. rewrite length_insert in H1. split_and!; [done..|]. intros d n Hd. rewrite occ_cons. destruct (decide (x = d)) as [->|Hne].
    + rewrite (H2 d (c + 1)) by by apply list_lookup_insert_eq. rewrite Hc in Hd. injection Hd as ->. f_equal. lia.
    + rewrite (H2 d n) by by rewrite list_lookup_insert_ne. done.
Qed.

Section kahn.
Context (cond : list (list nat)) (Hup : ∀ c d, edge cond c d → c < d ∧ d < length cond).

(** The edges into [d] from components that are not delivered yet. *)
Definition pending (i d : nat) : nat := sum_list (occ d <$> drop i cond).

Lemma pending_step i row d : cond !! i = Some row → pending i d = occ d row + pending (S i) d.
Proof. intros Hr. unfold pending. by rewrite (drop_S _ _ _ Hr). Qed.

Lemma pending_zero i : pending i i = 0.
Proof.
  unfold pending. assert (∀ row, row ∈ drop i cond → occ i row = 0) as H.
  { intros row Hr. apply list_elem_of_lookup in Hr as [j Hj]. rewrite lookup_drop in Hj. apply occ_zero. intros Hin.
    destruct (Hup (i + j) i); [by exists row|lia]. }
  induction (drop i cond) as [|row l IH]; [done|]. rewrite fmap_cons. change (occ i row + sum_list (occ i <$> l) = 0).
  rewrite H by by left. rewrite IH; [done|]. intros row' Hr. apply H. by right.
Qed.

(** The queue: components from [i] on without pending edges. *)
Record queue_ok (i : nat) (deg : nat → nat) (indegree ready : list nat) : Prop := {
  qo_length : length indegree = length cond;
  qo_degree d : d < length cond → indegree !! d = Some (deg d);
  qo_ready : ascending Nat.compare ready;
  qo_elem d : d ∈ ready ↔ i <= d < length cond ∧ deg d = 0;
}.

Lemma queue_ext i deg deg' indegree ready : (∀ d, d < length cond → deg d = deg' d) → queue_ok i deg indegree ready → queue_ok i deg' indegree ready.
Proof.
  intros H [H1 H2 H3 H4]. split; [done| |done|].
  - intros d Hd. rewrite <- H by done. by apply H2.
  - intros d. rewrite H4. split; intros [? Hd]; (split; [done|]).
    + by rewrite <- H by lia.
    + by rewrite H by lia.
Qed.

Lemma release_spec i deg indegree ready t : queue_ok i deg indegree ready → i <= t < length cond → 1 <= deg t →
  ∃ indegree' ready', release (indegree, ready) t = Some (indegree', ready') ∧
    queue_ok i (λ d, if decide (d = t) then deg t - 1 else deg d) indegree' ready'.
Proof.
  intros [H1 H2 H3 H4] Ht Hd. unfold release. rewrite (H2 t) by lia. cbn [mbind option_bind]. rewrite (proj2 (Nat.leb_le _ _)) by done.
  cbn [massert mbind option_bind]. unfold arr_set. rewrite (proj2 (Nat.ltb_lt _ _)) by lia. cbn [mbind option_bind].
  eexists _, _. split; [done|]. assert (t ∉ ready) as Hnt by (rewrite H4; lia).
  split.
  - by rewrite length_insert.
  - intros d Hdl. destruct (decide (d = t)) as [->|Hne]; [apply list_lookup_insert_eq; lia|].
    rewrite list_lookup_insert_ne by done. by apply H2.
  - destruct (deg t - 1 =? 0); [|done]. rewrite (sort_insert_new Nat.compare) by done. apply bts_insert_ascending; [apply _|done].
  - intros d. destruct (Nat.eqb_spec (deg t - 1) 0) as [E|E].
    + rewrite (sort_insert_new Nat.compare) by done. rewrite elem_of_bts_insert, H4 by apply _.
      destruct (decide (d = t)) as [->|Hne]; [rewrite E; naive_solver|naive_solver].
    + rewrite H4. destruct (decide (d = t)) as [->|Hne]; [|done]. split; [lia|]. intros [_ ?]. done.
Qed.

Lemma release_all_spec i targets : ∀ deg indegree ready, queue_ok i deg indegree ready →
  (∀ t, t ∈ targets → i <= t < length cond) → (∀ t, t ∈ targets → occ t targets <= deg t) →
  ∃ indegree' ready', foldM release (indegree, ready) targets = Some (indegree', ready') ∧
    queue_ok i (λ d, deg d - occ d targets) indegree' ready'.
Proof.
  induction targets as [|t targets IH]; intros deg indegree ready Hq Hr Ho; cbn [foldM].
  - exists indegree, ready. split; [done|]. eapply queue_ext; [|done]. intros d _. unfold occ. simpl. lia.
  - destruct (release_spec i deg indegree ready t Hq) as (i1 & r1 & -> & H1); [apply Hr; by left| |].
    { pose proof (Ho t (list_elem_of_here t targets)) as H. rewrite occ_cons, decide_True in H by done. lia. }
    cbn [mbind option_bind]. destruct (IH _ i1 r1 H1) as (i2 & r2 & -> & H2).
    + intros t' Ht'. apply Hr. by right.
    + intros t' Ht'. pose proof (Ho t' (list_elem_of_further t' t targets Ht')) as H. rewrite occ_cons in H. simpl.
      destruct (decide (t' = t)) as [->|Hne]; [rewrite decide_True in H by done; lia|]. rewrite decide_False in H by done. lia.
    + exists i2, r2. split; [done|]. eapply queue_ext; [|done]. intros d _. simpl. rewrite occ_cons.
      destruct (decide (d = t)) as [->|Hne]; [rewrite decide_True by done; lia|]. rewrite decide_False by done. lia.
Qed.

Lemma kahn_spec k : ∀ i indegree ready, i + k = length cond → queue_ok i (pending i) indegree ready →
  kahn k cond indegree ready (seq 0 i) = Some (seq 0 (length cond)).
Proof.
  induction k as [|k IH]; intros i indegree ready Hi Hq.
  - assert (ready = []) as ->.
    { destruct ready as [|d ready]; [done|]. destruct (proj1 (qo_elem _ _ _ _ Hq d)); [by left|lia]. }
    cbn [kahn]. do 2 f_equal. lia.
  - assert (i ∈ ready) as Hin by (apply (qo_elem _ _ _ _ Hq); rewrite pending_zero; lia).
    assert (∃ rest, ready = i :: rest) as [rest ->].
    { destruct ready as [|d rest]; [by apply elem_of_nil in Hin|]. exists rest. f_equal.
      pose proof (proj1 (qo_elem _ _ _ _ Hq d) (list_elem_of_here d rest)) as [Hd _].
      apply elem_of_cons in Hin as [->|Hin]; [done|]. pose proof (qo_ready _ _ _ _ Hq) as Hs. apply StronglySorted_inv in Hs as [_ Hs].
      rewrite Forall_forall in Hs. specialize (Hs i Hin). apply Nat.compare_lt_iff in Hs. lia. }
    destruct (lookup_lt_is_Some_2 cond i) as [row Hrow]; [lia|]. cbn [kahn]. rewrite Hrow. cbn [mbind option_bind].
    destruct Hq as [H1 H2 H3 H4].
    destruct (release_all_spec (S i) row (pending i) indegree rest) as (i1 & r1 & -> & Hq1).
    + split; [done|done|by apply StronglySorted_inv in H3 as [? _]|]. intros d. pose proof (ascending_NoDup Nat.compare _ H3) as Hnd.
      apply NoDup_cons in Hnd as [Hni _]. split.
      * intros Hd. destruct (proj1 (H4 d)) as [? ?]; [by right|]. assert (d ≠ i) by (by intros ->). lia.
      * intros [? ?]. assert (d ∈ i :: rest) as [->|?]%elem_of_cons by (apply H4; lia); [lia|done].
    + intros t Ht. destruct (Hup i t); [by exists row|lia].
    + intros t Ht. rewrite (pending_step i row) by done. lia.
    + cbn [mbind option_bind]. assert (seq 0 i ++ [i] = seq 0 (S i)) as -> by (by rewrite seq_S).
      apply IH; [lia|]. eapply queue_ext; [|done]. intros d _. simpl. rewrite (pending_step i row) by done. lia.
Qed.

Lemma topological_order_spec : topological_order cond = Some (seq 0 (length cond)).
Proof.
  unfold topological_order, indegrees.
  assert (∀ rows counts, (∀ row x, row ∈ rows → x ∈ row → x < length counts) →
    ∃ counts', foldM (λ indegree targets, foldM count_target indegree targets) counts rows = Some counts' ∧ length counts' = length counts ∧
      ∀ d n, counts !! d = Some n → counts' !! d = Some (n + sum_list (occ d <$> rows))) as Hf.
  { induction rows as [|row rows IH]; intros counts Hl; cbn [foldM].
    - exists counts. split_and!; [done..|]. intros d n ->. f_equal. simpl. lia.
    - destruct (count_all_spec row counts) as (c1 & -> & H1 & H2); [intros x; apply Hl; by left|]. cbn [mbind option_bind].
      destruct (IH c1) as (c2 & -> & H3 & H4); [intros r x Hr; rewrite H1; apply Hl; by right|]. exists c2. split_and!; [done|lia|].
      intros d n Hd. rewrite (H4 d (n + occ d row)) by by apply H2. f_equal. rewrite fmap_cons.
      change (sum_list (occ d row :: (occ d <$> rows))) with (occ d row + sum_list (occ d <$> rows)). lia. }
  destruct (Hf cond (replicate (length cond) 0)) as (indegree & -> & H1 & H2).
  - intros row x Hr Hx. apply list_elem_of_lookup in Hr as [i Hi]. rewrite length_replicate. apply (Hup i x). by exists row.
  - cbn [mbind option_bind]. rewrite length_replicate in H1. apply (kahn_spec (length cond) 0); [done|].
    assert (∀ d, d < length cond → indegree !! d = Some (pending 0 d)) as Hdeg.
    { intros d Hd. rewrite (H2 d 0) by by apply lookup_replicate_2. unfold pending. by rewrite drop_0. }
    destruct (sort_unstable_ascending Nat.compare (fst <$> filter (λ p : nat * nat, p.2 = 0) (imap pair indegree))) as [Ha He].
    { apply NoDup_fmap_2_strong.
      - intros [i x] [j y] Hi%list_elem_of_filter Hj%list_elem_of_filter E. simpl in *. destruct Hi as [-> _], Hj as [-> _]. by subst.
      - apply NoDup_filter. apply NoDup_alt. intros i j p Hi Hj. rewrite list_lookup_imap in Hi, Hj.
        destruct (indegree !! i), (indegree !! j); simpl in *; congruence. }
    split; [done|done|done|]. intros d. rewrite He, list_elem_of_fmap. split.
    + intros (p & -> & Hp). apply list_elem_of_filter in Hp as [Hz Hp%elem_of_indexed]. pose proof (lookup_lt_Some _ _ _ Hp) as Hlt.
      rewrite Hdeg in Hp by lia. split; [lia|congruence].
    + intros [[_ Hd] Hz]. exists (d, 0). split; [done|]. apply list_elem_of_filter. split; [done|]. apply elem_of_indexed. simpl.
      by rewrite Hdeg, Hz.
Qed.
End kahn.
