(* ===== verification/PathRelation.v ===== *)
(** * PathRelation: the relation between active vertices

    The targets of a component are a row of [u64] words in a flat vector; what
    marking, uniting and propagating rows do is stated bit by bit.
    [materialize_active_relation] computes, for each active vertex, the
    vertices an accepted walk through the product graph leads to. *)

From S2P Require Import Prelude Lex BTree Trible PathExpr PathLanguage PathCompile PathSummary PathIndex PathScc PathOrder.

Open Scope nat_scope.

Definition words_ok (l : list N) : Prop := Forall (λ word, word < 2 ^ 64)%N l.

(** ** Reading the bits of a word *)

Lemma succ_double_bits_succ n i : N.testbit (N.succ_double n) (N.succ i) = N.testbit n i.
Proof. rewrite N.succ_double_spec. apply N.testbit_odd_succ'. Qed.

Lemma clear_lowest p i : N.testbit (N.land (Npos p) (Npos p - 1)) i = N.testbit (Npos p) i && negb (i =? trailing_zeros_pos p)%N.
Proof.
  revert i. induction p as [p IH|p IH|]; intros i.
  - change (Npos p~1 - 1)%N with (Npos p~0). change (trailing_zeros_pos p~1) with 0%N. rewrite N.land_spec.
    destruct i as [|i] using N.peano_ind; [done|]. clear IHi. rewrite (proj2 (N.eqb_neq _ _)) by lia. simpl negb. rewrite andb_true_r.
    change (Npos p~0) with (N.double (Npos p)). change (Npos p~1) with (N.succ_double (Npos p)).
    rewrite N.double_bits_succ, succ_double_bits_succ. apply andb_diag.
  - assert (Npos p~0 - 1 = N.succ_double (Npos p - 1))%N as -> by lia. change (Npos p~0) with (N.double (Npos p)).
    change (trailing_zeros_pos p~0) with (1 + trailing_zeros_pos p)%N. rewrite N.land_spec.
    destruct i as [|i] using N.peano_ind; [done|]. clear IHi. rewrite N.double_bits_succ, succ_double_bits_succ.
    rewrite <- N.land_spec, IH. f_equal. f_equal. apply eq_iff_eq_true. rewrite !N.eqb_eq. lia.
  - change (N.land 1 (1 - 1)) with 0%N. rewrite N.bits_0. destruct i as [|i] using N.peano_ind; [done|]. clear IHi.
    change 1%N with (N.succ_double 0) at 1. rewrite succ_double_bits_succ, N.bits_0. done.
Qed.

Lemma word_bits_spec fuel : ∀ word, (word < 2 ^ 64)%N → (∀ i, i + fuel < 64 → N.testbit word (N.of_nat i) = false) →
  ∃ l, word_bits fuel word = Some l ∧ ascending Nat.compare l ∧ ∀ i, i ∈ l ↔ N.testbit word (N.of_nat i) = true.
Proof.
  induction fuel as [|fuel IH]; intros word Hw Hlow; cbn [word_bits].
  - assert (word = 0%N) as ->.
    { apply N.bits_inj_0. intros n. destruct (N.lt_ge_cases n 64) as [Hn|Hn].
      - specialize (Hlow (N.to_nat n)). rewrite N2Nat.id in Hlow. apply Hlow. lia.
      - by apply (proj1 (lt_pow2_testbit 64 word) Hw). }
    exists []. split_and!; [done|constructor|]. intros i. rewrite N.bits_0. split; [by intros ?%elem_of_nil|done].
  - destruct word as [|p].
    { exists []. split_and!; [done|constructor|]. intros i. split; [by intros ?%elem_of_nil|done]. }
    change ((Npos p =? 0)%N) with false. cbn match. destruct (trailing_zeros_spec p) as [T1 T2].
    set (t := trailing_zeros_pos p) in *. assert (t < 64)%N as Ht.
    { destruct (N.lt_ge_cases t 64) as [|Hge]; [done|]. by rewrite (proj1 (lt_pow2_testbit 64 _) Hw t Hge) in T1. }
    assert (64 <= N.to_nat t + S fuel) as Htf.
    { destruct (decide (N.to_nat t + S fuel < 64)) as [Hl|]; [|lia]. specialize (Hlow (N.to_nat t) Hl). rewrite N2Nat.id in Hlow. congruence. }
    destruct (IH (N.land (Npos p) (Npos p - 1))) as (l & -> & Hs & Hl).
    + apply lt_pow2_testbit. intros i Hi. rewrite clear_lowest. by rewrite (proj1 (lt_pow2_testbit 64 _) Hw i Hi).
    + intros i Hi. rewrite clear_lowest. fold t. destruct (decide (N.of_nat i = t)) as [->|Hne].
      * by rewrite N.eqb_refl, andb_false_r.
      * destruct (decide (N.of_nat i < t)%N) as [Hlt|]; [by rewrite T2|]. lia.
    + cbn [mbind option_bind]. change (trailing_zeros (Npos p)) with t. exists (N.to_nat t :: l). split_and!; [done| |].
      * constructor; [done|]. apply Forall_forall. intros i Hi%Hl. rewrite clear_lowest in Hi. fold t in Hi.
        apply andb_true_iff in Hi as [Hi Hne]. apply negb_true_iff, N.eqb_neq in Hne. apply Nat.compare_lt_iff.
        destruct (decide (N.of_nat i < t)%N) as [Hlt|]; [by rewrite T2 in Hi|]. lia.
      * intros i. rewrite elem_of_cons, Hl, clear_lowest. fold t. rewrite andb_true_iff, negb_true_iff, N.eqb_neq. split.
        -- intros [->|[? _]]; [by rewrite N2Nat.id|done].
        -- intros Hi. destruct (decide (N.of_nat i = t)) as [<-|Hne]; [left; lia|by right].
Qed.

(** A bit of a row of words. *)
Definition row_bit (words : list N) (t : nat) : Prop := ∃ word, words !! (t / 64) = Some word ∧ N.testbit word (N.of_nat (t mod 64)) = true.

Lemma ascending_join {A} (cmp : A → A → comparison) l l' : ascending cmp l → ascending cmp l' →
  (∀ x y, x ∈ l → y ∈ l' → cmp x y = Lt) → ascending cmp (l ++ l').
Proof.
  induction 1 as [|x l Hl IH Hx]; intros Hl' H; [done|]. rewrite <- app_comm_cons. constructor.
  - apply IH; [done|]. intros y z Hy. apply H. by right.
  - apply Forall_app. split; [done|]. apply Forall_forall. intros y Hy. apply H; [by left|done].
Qed.

Lemma ascending_app l l' : ascending Nat.compare l → ascending Nat.compare l' → (∀ x y, x ∈ l → y ∈ l' → x < y) →
  ascending Nat.compare (l ++ l').
Proof. intros Hl Hl' H. apply ascending_join; [done..|]. intros x y Hx Hy. apply Nat.compare_lt_iff. by apply H. Qed.

Lemma ascending_shift l n : ascending Nat.compare l → ascending Nat.compare ((λ i, n + i) <$> l).
Proof.
  induction 1 as [|x l Hl IH Hx]; [constructor|]. rewrite fmap_cons. constructor; [done|]. apply Forall_fmap.
  eapply Forall_impl; [done|]. intros y. simpl. rewrite !Nat.compare_lt_iff. lia.
Qed.

Lemma row_bits_spec words : words_ok words →
  ∃ l, set_bits words = Some l ∧ ascending Nat.compare l ∧ ∀ t, t ∈ l ↔ row_bit words t.
Proof.
  intros Hw. unfold set_bits.
  assert (∀ n, ∃ rows, mapM (λ p : nat * N, bits ← word_bits 64 p.2; Some (((λ bit, p.1 * 64 + bit) <$> bits) : list nat)) (imap (λ i x, (n + i, x)) words) = Some rows ∧
    ascending Nat.compare (concat rows) ∧ ∀ t, t ∈ concat rows ↔ n * 64 <= t ∧ ∃ word, words !! (t / 64 - n) = Some word ∧ N.testbit word (N.of_nat (t mod 64)) = true) as H.
  { induction Hw as [|word words Hword _ IH]; intros n.
    - exists []. split_and!; [done|constructor|]. intros t. split; [by intros ?%elem_of_nil|]. by intros (_ & word & ? & _).
    - rewrite imap_cons. destruct (word_bits_spec 64 word Hword) as (bits & Hb & Hs & Hin); [intros i; lia|]. cbn [mapM fst snd].
      rewrite Hb. cbn [mbind option_bind]. destruct (IH (S n)) as (rows & E & Hrs & Hrin).
      assert (imap (λ i x, (S n + i, x)) words = imap ((λ i x, (n + i, x)) ∘ S) words) as Ei.
      { apply imap_ext. intros i x _. simpl. f_equal. lia. }
      rewrite Ei in E. rewrite E. cbn [mbind option_bind mret option_ret]. rewrite Nat.add_0_r. eexists. split; [done|]. cbn [concat].
      assert (∀ i, i ∈ bits → i < 64) as Hlt.
      { intros i Hi%Hin. destruct (decide (i < 64)) as [|Hge]; [done|]. by rewrite (proj1 (lt_pow2_testbit 64 _) Hword (N.of_nat i)) in Hi by lia. }
      assert (∀ t, t ∈ (λ bit, n * 64 + bit) <$> bits ↔ t / 64 = n ∧ N.testbit word (N.of_nat (t mod 64)) = true) as Hhere.
      { intros t. rewrite list_elem_of_fmap. split.
        - intros (i & -> & Hi). pose proof (Hlt i Hi). rewrite Nat.add_comm, Nat.div_add, Nat.div_small, Nat.Div0.mod_add, Nat.mod_small by lia.
          split; [lia|by apply Hin].
        - intros [<- Ht]. exists (t mod 64). split; [pose proof (Nat.div_mod_eq t 64); lia|by apply Hin]. }
      split.
      + apply ascending_app; [by apply ascending_shift|done|]. intros x y [Hx _]%Hhere [Hy _]%Hrin.
        pose proof (Nat.div_mod_eq x 64). pose proof (Nat.mod_upper_bound x 64). lia.
      + intros t. rewrite elem_of_app, Hhere, Hrin. pose proof (Nat.div_mod_eq t 64) as Hd. pose proof (Nat.mod_upper_bound t 64) as Hm. split.
        * intros [[E1 Ht]|(Hge & w' & Hw' & Ht)].
          -- split; [lia|]. exists word. by rewrite E1, Nat.sub_diag.
          -- split; [lia|]. exists w'. split; [|done]. assert (t / 64 - n = S (t / 64 - S n)) as -> by lia. done.
        * intros (Hge & w' & Hw' & Ht). destruct (t / 64 - n) as [|k] eqn:Ek; [left|right].
          -- injection Hw' as ->. split; [lia|done].
          -- split; [lia|]. exists w'. split; [|done]. by assert (t / 64 - S n = k) as -> by lia. }
  destruct (H 0) as (rows & E & Hs & Hin). exists (concat rows).
  assert (imap (λ i x, (0 + i, x)) words = imap pair words) as Ei by done. rewrite Ei in E. rewrite E. cbn [mbind option_bind].
  split_and!; [done..|]. intros t. rewrite Hin. unfold row_bit. rewrite Nat.sub_0_r. split; [by intros [_ ?]|]. intros ?. split; [lia|done].
Qed.

(** ** A matrix of rows *)

Section matrix.
Context (w : nat).

(** The bit [t] of row [c]. *)
Definition cell (reach : list N) (c t : nat) : Prop :=
  ∃ word, reach !! (c * w + t / 64) = Some word ∧ N.testbit word (N.of_nat (t mod 64)) = true.

Record matrix_ok (k : nat) (reach : list N) : Prop := { mk_length : length reach = k * w; mk_words : words_ok reach }.

Lemma cell_index c c' j j' : j < w → j' < w → c * w + j = c' * w + j' → c = c' ∧ j = j'.
Proof. intros Hj Hj' E. assert (c = c') as -> by nia. lia. Qed.

Lemma cell_lt k c j : c < k → j < w → c * w + j < k * w.
Proof. nia. Qed.

Lemma matrix_slice k (reach : list N) c : length reach = k * w → c < k →
  slice reach (c * w) ((c + 1) * w) = Some (take w (drop (c * w) reach)).
Proof.
  intros Hl Hc. unfold slice. rewrite (proj2 (Nat.leb_le (c * w) _)) by lia. rewrite (proj2 (Nat.leb_le _ (length reach))) by nia.
  cbn [andb massert mbind option_bind]. do 2 f_equal. lia.
Qed.

Lemma row_bit_slice reach c t : t / 64 < w → row_bit (take w (drop (c * w) reach)) t ↔ cell reach c t.
Proof. intros Ht. unfold row_bit, cell. by rewrite lookup_take_lt, lookup_drop. Qed.

Lemma words_ok_row reach c : words_ok reach → words_ok (take w (drop (c * w) reach)).
Proof. intros H. by apply Forall_take, Forall_drop. Qed.

Lemma lookup_write_slice (reach : list N) c row j c' : c * w + w <= length reach → length row = w → j < w →
  write_slice reach (c * w) row !! (c' * w + j) = if decide (c' = c) then row !! j else reach !! (c' * w + j).
Proof.
  intros Hl Hr Hj. unfold write_slice. rewrite Hr. destruct (decide (c' = c)) as [->|Hne].
  - rewrite lookup_app_r by (rewrite length_take; lia). rewrite length_take, Nat.min_l by lia.
    rewrite lookup_app_l by lia. f_equal. lia.
  - destruct (decide (c' < c)) as [Hlt|Hge].
    + rewrite lookup_app_l by (rewrite length_take; nia). apply lookup_take_lt. nia.
    + rewrite lookup_app_r by (rewrite length_take; nia). rewrite length_take, Nat.min_l by lia.
      rewrite lookup_app_r by nia. rewrite lookup_drop. f_equal. nia.
Qed.

Lemma length_write_slice (reach : list N) c row : c * w + w <= length reach → length row = w → length (write_slice reach (c * w) row) = length reach.
Proof. intros Hl Hr. unfold write_slice. rewrite !length_app, length_take, length_drop, Hr. lia. Qed.

Lemma bit_of_shift i k : i < 64 → k < 64 → N.testbit (wshl 64 1 (N.of_nat k)) (N.of_nat i) = bool_decide (i = k).
Proof.
  intros Hi Hk. rewrite testbit_wshl by lia. rewrite (proj2 (N.ltb_lt _ _)) by lia. cbn [andb]. case_bool_decide as E.
  - subst. by rewrite N.leb_refl, N.sub_diag.
  - destruct (N.leb_spec (N.of_nat k) (N.of_nat i)); [|done]. cbn [andb]. destruct (N.of_nat i - N.of_nat k)%N eqn:E2; [lia|done].
Qed.

Lemma same_bit t t' : t / 64 = t' / 64 → t mod 64 = t' mod 64 → t = t'.
Proof. intros H1 H2. rewrite (Nat.div_mod_eq t 64), (Nat.div_mod_eq t' 64). congruence. Qed.

Lemma row_bit_spec words bit : words_ok words → bit / 64 < length words →
  ∃ words', set_bit words bit = Some words' ∧ length words' = length words ∧ words_ok words' ∧
    ∀ t, row_bit words' t ↔ row_bit words t ∨ t = bit.
Proof.
  intros Hw Hb. unfold set_bit, arr_set. destruct (lookup_lt_is_Some_2 words (bit / 64) Hb) as [word Hword]. rewrite Hword.
  cbn [mbind option_bind]. rewrite (proj2 (Nat.ltb_lt _ _)) by done. eexists. split; [done|].
  pose proof (Nat.mod_upper_bound bit 64) as Hm. split_and!; [by rewrite length_insert| |].
  - apply Forall_insert; [done|]. apply lt_pow2_testbit. intros i Hi. rewrite N.lor_spec.
    rewrite (proj1 (lt_pow2_testbit 64 word)); [|by eapply (Forall_lookup_1 _ _ _ _ Hw)|done]. cbn [orb].
    rewrite testbit_wshl by lia. by rewrite (proj2 (N.ltb_ge _ _)).
  - intros t. unfold row_bit. pose proof (Nat.mod_upper_bound t 64) as Hm'. destruct (decide (t / 64 = bit / 64)) as [E|E].
    + rewrite E, list_lookup_insert_eq by done. rewrite Hword. split.
      * intros (word' & [= <-] & Ht). rewrite N.lor_spec, bit_of_shift in Ht by lia. apply orb_true_iff in Ht as [Ht|Ht%bool_decide_eq_true].
        -- left. by exists word.
        -- right. by apply same_bit.
      * intros H. eexists. split; [done|]. rewrite N.lor_spec, bit_of_shift by lia. apply orb_true_iff. destruct H as [(word' & [= <-] & Ht)| ->].
        -- by left.
        -- right. by apply bool_decide_eq_true.
    + rewrite list_lookup_insert_ne by done. split; [by left|]. intros [?| ->]; done.
Qed.

(** ** Marking and uniting *)

Lemma mark_spec A states k reach product component : matrix_ok k reach → component < k → product / states / 64 < w →
  ∃ reach', mark_accepting A states w reach (product, component) = Some reach' ∧ matrix_ok k reach' ∧
    ∀ c t, t / 64 < w → cell reach' c t ↔ cell reach c t ∨ is_accepting A (product mod states) = true ∧ c = component ∧ t = product / states.
Proof.
  intros [Hl Hw] Hc Ht. unfold mark_accepting. destruct (is_accepting A (product mod states)).
  2:{ exists reach. split_and!; [done|done|]. intros c t _. split; [by left|]. by intros [?|[? _]]. }
  rewrite (matrix_slice k) by done. cbn [mbind option_bind]. set (row := take w (drop (component * w) reach)).
  assert (component * w + w <= length reach) as Hcl by nia.
  assert (length row = w) as Hrl by (unfold row; rewrite length_take, length_drop; lia).
  destruct (row_bit_spec row (product / states)) as (row' & -> & H1 & H2 & H3); [by apply words_ok_row|by rewrite Hrl|].
  cbn [mbind option_bind]. eexists. split; [done|]. rewrite Hrl in H1. split.
  - split; [by rewrite length_write_slice|]. unfold write_slice, words_ok. rewrite !Forall_app. split_and!; [by apply Forall_take|done|by apply Forall_drop].
  - intros c t Htw. unfold cell. rewrite lookup_write_slice by done. destruct (decide (c = component)) as [->|Hne].
    + rewrite <- (row_bit_slice reach component t Htw). fold row. unfold row_bit in H3. rewrite H3. tauto.
    + split; [by left|]. intros [?|(_ & ? & _)]; done.
Qed.

Lemma mark_all_spec A states k l : ∀ reach, matrix_ok k reach → (∀ p, p ∈ l → p.2 < k ∧ p.1 / states / 64 < w) →
  ∃ reach', foldM (mark_accepting A states w) reach l = Some reach' ∧ matrix_ok k reach' ∧
    ∀ c t, t / 64 < w → cell reach' c t ↔ cell reach c t ∨ ∃ p, p ∈ l ∧ is_accepting A (p.1 mod states) = true ∧ c = p.2 ∧ t = p.1 / states.
Proof.
  induction l as [|[product component] l IH]; intros reach Hm Hl; cbn [foldM].
  - exists reach. split_and!; [done..|]. intros c t _. split; [by left|]. by intros [?|(p & ?%elem_of_nil & _)].
  - destruct (Hl (product, component)) as [Hc Ht]; [by left|]. destruct (mark_spec A states k reach product component Hm Hc Ht) as (r1 & -> & H1 & H2).
    cbn [mbind option_bind]. destruct (IH r1 H1) as (r2 & -> & H3 & H4); [intros p Hp; apply Hl; by right|]. exists r2. split_and!; [done..|].
    intros c t Htw. rewrite H4, H2 by done. setoid_rewrite elem_of_cons. split.
    + intros [[?|(? & -> & ->)]|(p & ? & ? & ? & ?)]; [by left|right..]; [exists (product, component); tauto|exists p; tauto].
    + intros [?|(p & [->|?] & ? & ? & ?)]; [by left; left|left; by right|right; by exists p].
Qed.

Lemma union_rows_spec k reach target source : matrix_ok k reach → target < k → source < k → target ≠ source →
  ∃ reach', union_component_rows reach w target source = Some reach' ∧ matrix_ok k reach' ∧
    ∀ c t, t / 64 < w → cell reach' c t ↔ cell reach c t ∨ c = target ∧ cell reach source t.
Proof.
  intros Hm Htk Hsk Hne. unfold union_component_rows.
  assert (∀ n, n <= w → ∃ reach', foldM (union_word w target source) reach (seq 0 n) = Some reach' ∧ matrix_ok k reach' ∧
    ∀ c j, j < w → reach' !! (c * w + j) = if decide (c = target ∧ j < n) then
      (x ← reach !! (target * w + j); y ← reach !! (source * w + j); Some (N.lor x y)) else reach !! (c * w + j)) as H.
  { induction n as [|n IH]; intros Hn.
    - exists reach. split_and!; [done|done|]. intros c j _. rewrite decide_False by lia. done.
    - destruct IH as (r & E & [Hl Hw] & Hr); [lia|]. rewrite seq_S, foldM_app, E, Nat.add_0_l. cbn [mbind option_bind foldM].
      assert (n < w) as Hnw by lia. unfold union_word, arr_set.
      pose proof (Hr source n Hnw) as Es. rewrite decide_False in Es by lia. pose proof (Hr target n Hnw) as Et. rewrite decide_False in Et by lia.
      destruct (lookup_lt_is_Some_2 reach (source * w + n)) as [y Hy]; [rewrite (mk_length _ _ Hm); by apply cell_lt|].
      destruct (lookup_lt_is_Some_2 reach (target * w + n)) as [x Hx]; [rewrite (mk_length _ _ Hm); by apply cell_lt|].
      rewrite Es, Et, Hx, Hy. cbn [mbind option_bind]. rewrite (proj2 (Nat.ltb_lt _ _)) by (rewrite Hl; by apply cell_lt). cbn [mbind option_bind].
      eexists. split; [done|]. split; [split|].
      + by rewrite length_insert.
      + apply Forall_insert; [done|]. apply lt_pow2_testbit. intros i Hi. rewrite N.lor_spec.
        by rewrite !(proj1 (lt_pow2_testbit 64 _)) by (done || (eapply (Forall_lookup_1 _ _ _ _ (mk_words _ _ Hm)); done)).
      + intros c j Hj. destruct (decide (c * w + j = target * w + n)) as [Ec|Ec].
        * destruct (cell_index _ _ _ _ Hj Hnw Ec) as [-> ->]. rewrite list_lookup_insert_eq by (rewrite Hl; by apply cell_lt).
          rewrite decide_True by lia. by rewrite Hx, Hy.
        * rewrite list_lookup_insert_ne by done. rewrite Hr by done. destruct (decide (c = target ∧ j < n)) as [[-> Hjn]|Hcn].
          -- by rewrite decide_True by lia.
          -- rewrite decide_False; [done|]. intros [-> Hjn]. apply Hcn. split; [done|]. assert (j ≠ n) by (by intros ->). lia. }
  destruct (H w (Nat.le_refl w)) as (r & E & Hok & Hr). exists r. split_and!; [done..|]. intros c t Htw. unfold cell. rewrite Hr by done.
  destruct (decide (c = target ∧ t / 64 < w)) as [[-> _]|Hc].
  - destruct (lookup_lt_is_Some_2 reach (source * w + t / 64)) as [y Hy]; [rewrite (mk_length _ _ Hm); by apply cell_lt|].
    destruct (lookup_lt_is_Some_2 reach (target * w + t / 64)) as [x Hx]; [rewrite (mk_length _ _ Hm); by apply cell_lt|].
    rewrite Hx, Hy. cbn [mbind option_bind]. split.
    + intros (word & [= <-] & Hb). rewrite N.lor_spec in Hb. apply orb_true_iff in Hb as [?|?]; [left; by exists x|right; split; [done|by exists y]].
    + intros [(word & [= <-] & Hb)|(_ & word & [= <-] & Hb)]; eexists; (split; [done|]); rewrite N.lor_spec, Hb; [done|apply orb_true_r].
  - split; [by left|]. intros [?|[? _]]; [done|]. destruct Hc. done.
Qed.

Lemma union_all_spec k target sources : ∀ reach, matrix_ok k reach → target < k → (∀ s, s ∈ sources → s < k ∧ s ≠ target) →
  ∃ reach', foldM (λ reach s, union_component_rows reach w target s) reach sources = Some reach' ∧ matrix_ok k reach' ∧
    ∀ c t, t / 64 < w → cell reach' c t ↔ cell reach c t ∨ c = target ∧ ∃ s, s ∈ sources ∧ cell reach s t.
Proof.
  induction sources as [|s sources IH]; intros reach Hm Ht Hs; cbn [foldM].
  - exists reach. split_and!; [done..|]. intros c t _. split; [by left|]. by intros [?|(_ & s & ?%elem_of_nil & _)].
  - destruct (Hs s) as [Hsk Hst]; [by left|]. destruct (union_rows_spec k reach target s Hm Ht Hsk) as (r1 & -> & H1 & H2); [done|].
    cbn [mbind option_bind]. destruct (IH r1 H1 Ht) as (r2 & -> & H3 & H4); [intros s' Hs'; apply Hs; by right|]. exists r2. split_and!; [done..|].
    intros c t Htw. rewrite H4, H2 by done. setoid_rewrite elem_of_cons.
    assert (∀ s', s' ∈ sources → cell r1 s' t ↔ cell reach s' t) as Hs'.
    { intros s' Hin. rewrite H2 by done. destruct (Hs s') as [_ Hne]; [by right|]. naive_solver. }
    split.
    + intros [[?|[-> ?]]|(-> & s' & Hin & Hc)]; [by left|right; split; [done|exists s; tauto]|right; split; [done|]].
      exists s'. split; [by right|]. by apply Hs'.
    + intros [?|(-> & s' & [->|Hin] & Hc)]; [by left; left|left; by right|right; split; [done|]]. exists s'. split; [done|]. by apply Hs'.
Qed.
End matrix.

(** ** Compressed rows *)

(** The offsets after rows of the given lengths. *)
Fixpoint row_offsets (start : nat) (rows : list (list nat)) : list nat :=
  match rows with [] => [start] | row :: rows => start :: row_offsets (start + length row) rows end.
Definition csr_of (rows : list (list nat)) : Csr := mkCsr (row_offsets 0 rows) (concat rows).

Lemma row_offsets_snoc start rows row :
  row_offsets start (rows ++ [row]) = row_offsets start rows ++ [start + length (concat rows) + length row].
Proof.
  revert start. induction rows as [|r rows IH]; intros start; cbn [app row_offsets concat].
  - f_equal. f_equal. simpl. lia.
  - rewrite IH, length_app. do 3 f_equal. lia.
Qed.

Lemma length_row_offsets start rows : length (row_offsets start rows) = S (length rows).
Proof. revert start. induction rows as [|row rows IH]; intros start; [done|]. simpl. by rewrite IH. Qed.

Lemma row_offsets_lookup start rows i : i <= length rows → row_offsets start rows !! i = Some (start + length (concat (take i rows))).
Proof.
  revert start i. induction rows as [|row rows IH]; intros start [|i] Hi; simpl in *; try lia; [by rewrite Nat.add_0_r..|].
  rewrite IH by lia. f_equal. rewrite length_app. lia.
Qed.

Lemma csr_row_of rows i row : rows !! i = Some row → csr_row (csr_of rows) i = Some row.
Proof.
  intros Hr. pose proof (lookup_lt_Some _ _ _ Hr) as Hlt. unfold csr_row, csr_of. cbn [offsets csr_values].
  rewrite !row_offsets_lookup by lia. cbn [mbind option_bind]. rewrite !Nat.add_0_l, Nat.add_1_r, (take_S_r _ _ _ Hr), concat_app.
  cbn [concat]. rewrite app_nil_r, length_app. unfold slice.
  assert (concat rows = concat (take i rows) ++ row ++ concat (drop (S i) rows)) as E.
  { rewrite <- (take_drop_middle rows i row Hr) at 1. by rewrite concat_app. }
  rewrite E, !length_app. rewrite (proj2 (Nat.leb_le _ _)) by lia. rewrite (proj2 (Nat.leb_le _ _)) by lia.
  cbn [andb massert mbind option_bind]. f_equal. rewrite drop_app_length, Nat.add_comm, Nat.add_sub. apply take_app_length.
Qed.

Lemma push_row_of rows row : push_row (row_offsets 0 rows, concat rows) row = (row_offsets 0 (rows ++ [row]), concat (rows ++ [row])).
Proof.
  unfold push_row. cbn [fst snd]. rewrite row_offsets_snoc, concat_app. cbn [concat]. by rewrite app_nil_r, length_app.
Qed.

(** Rows pushed one after the other. *)
Lemma push_rows_spec (g : nat → res (list nat)) (h : nat → list nat) l : (∀ x, x ∈ l → g x = Some (h x)) → ∀ rows,
  foldM (λ st x, row ← g x; Some (push_row st row)) (row_offsets 0 rows, concat rows) l =
    Some (row_offsets 0 (rows ++ (h <$> l)), concat (rows ++ (h <$> l))).
Proof.
  induction l as [|x l IH]; intros Hl rows; cbn [foldM]; [by rewrite app_nil_r|]. rewrite Hl by by left. cbn [mbind option_bind].
  rewrite push_row_of, IH by (intros y Hy; apply Hl; by right). rewrite fmap_cons. by rewrite <- (assoc_L (++)).
Qed.

(** ** Propagation *)

Section propagate.
Context (cond : list (list nat)) (Hup : ∀ c d, edge cond c d → c < d ∧ d < length cond) (w : nat).

Lemma propagate_spec (base : nat → nat → Prop) i : ∀ reach, i <= length cond → matrix_ok w (length cond) reach →
  (∀ c t, t / 64 < w → i <= c → cell w reach c t ↔ ∃ d, rtc (edge cond) c d ∧ base d t) →
  (∀ c t, t / 64 < w → c < i → cell w reach c t ↔ base c t) →
  ∃ reach', foldM (propagate cond w) reach (rev (seq 0 i)) = Some reach' ∧ matrix_ok w (length cond) reach' ∧
    ∀ c t, t / 64 < w → cell w reach' c t ↔ ∃ d, rtc (edge cond) c d ∧ base d t.
Proof.
  induction i as [|i IH]; intros reach Hi Hm Hdone Htodo.
  - exists reach. split_and!; [done..|]. intros c t Ht. apply Hdone; [done|lia].
  - rewrite seq_S, rev_app_distr, Nat.add_0_l. cbn [rev app foldM].
    destruct (lookup_lt_is_Some_2 cond i) as [row Hrow]; [lia|].
    assert (propagate cond w reach i = foldM (λ reach s, union_component_rows reach w i s) reach row) as -> by (unfold propagate; by rewrite Hrow).
    destruct (union_all_spec w (length cond) i row reach Hm) as (r1 & -> & H1 & H2); [lia| |].
    { intros s Hs. destruct (Hup i s); [by exists row|lia]. }
    cbn [mbind option_bind]. apply IH; [lia|done| |].
    + intros c t Ht Hc. rewrite H2 by done. destruct (decide (c = i)) as [->|Hne].
      * rewrite Htodo by (done || lia). split.
        -- intros [Hb|(_ & s & Hs & Hcell)]; [by exists i|]. destruct (Hup i s) as [Hlt _]; [by exists row|].
           apply Hdone in Hcell as (d & Hd & Hb); [|done|lia]. exists d. split; [|done]. eapply rtc_l; [by exists row|done].
        -- intros (d & Hd & Hb). apply rtc_inv in Hd as [->|(s & Hs & Hd)]; [by left|]. right. split; [done|]. destruct (Hup i s Hs) as [Hlt _].
           destruct Hs as (row' & Hr & Hs). rewrite Hrow in Hr. injection Hr as <-. exists s. split; [done|]. apply Hdone; [done|lia|by exists d].
      * rewrite <- Hdone by (done || lia). split; [|by left]. intros [?|[? _]]; done.
    + intros c t Ht Hc. rewrite H2, Htodo by (done || lia). split; [|by left]. intros [?|[? _]]; [done|lia].
Qed.
End propagate.

(** Walks over components are walks over their nodes. *)
Lemma condensed_walk adj comp cond c d u v : targets_ok adj → length comp = length adj →
  (∀ u v c d, comp !! u = Some c → comp !! v = Some d → (c = d ↔ rtc (edge adj) u v ∧ rtc (edge adj) v u)) →
  (∀ c d, edge cond c d ↔ c ≠ d ∧ ∃ u v, edge adj u v ∧ comp !! u = Some c ∧ comp !! v = Some d) →
  comp !! u = Some c → comp !! v = Some d → rtc (edge cond) c d ↔ rtc (edge adj) u v.
Proof.
  intros Ht Hl Hs Hc Hu Hv. split.
  - intros Hr. revert u Hu. induction Hr as [c|c c' d Hcc _ IH]; intros u Hu; [by apply (Hs u v c c)|].
    apply Hc in Hcc as (_ & x & y & Hxy & Hx & Hy). etransitivity; [by apply (proj1 (Hs u x c c Hu Hx) eq_refl)|].
    eapply rtc_l; [done|]. by apply IH.
  - intros Hr. revert c Hu. induction Hr as [u|u u' v Huu _ IH]; intros c Hu.
    + rewrite Hu in Hv. injection Hv as ->. done.
    + destruct (lookup_lt_is_Some_2 comp u') as [c' Hu']; [rewrite Hl; by eapply Ht|]. specialize (IH Hv c' Hu').
      destruct (decide (c = c')) as [->|Hne]; [done|]. eapply rtc_l; [|done]. apply Hc. split; [done|]. by exists u, u'.
Qed.

(** ** The targets of a source *)

Lemma word_union_spec row source : length row = length source → words_ok row → words_ok source →
  length (or_words row source) = length row ∧ words_ok (or_words row source) ∧ ∀ t, row_bit (or_words row source) t ↔ row_bit row t ∨ row_bit source t.
Proof.
  revert source. induction row as [|x row IH]; intros [|y source] Hl Hr Hs; simplify_eq/=.
  - split_and!; [done..|]. intros t. unfold row_bit. naive_solver.
  - apply Forall_cons in Hr as [Hx Hr]. apply Forall_cons in Hs as [Hy Hs]. destruct (IH source Hl Hr Hs) as (H1 & H2 & _).
    split_and!; [by rewrite H1| |].
    + constructor; [|done]. apply lt_pow2_testbit. intros i Hi. rewrite N.lor_spec.
      by rewrite (proj1 (lt_pow2_testbit 64 _) Hx), (proj1 (lt_pow2_testbit 64 _) Hy).
    + assert (∀ row source i, length row = length source → or_words row source !! i =
        (x ← row !! i; y ← source !! i; Some (N.lor x y))) as Hor.
      { clear. induction row as [|x row IH]; intros [|y source] [|i] Hl; simplify_eq/=; [done..|by apply IH]. }
      intros t. unfold row_bit. rewrite (Hor (x :: row) (y :: source)) by (simpl; congruence).
      destruct ((x :: row) !! (t / 64)) as [a|] eqn:Ea, ((y :: source) !! (t / 64)) as [b|] eqn:Eb; cbn [mbind option_bind].
      * split.
        -- intros (word & [= <-] & Hb). rewrite N.lor_spec in Hb. apply orb_true_iff in Hb as [?|?]; [left; by exists a|right; by exists b].
        -- intros [(word & [= <-] & Hb)|(word & [= <-] & Hb)]; eexists; (split; [done|]); rewrite N.lor_spec, Hb; [done|apply orb_true_r].
      * apply lookup_lt_Some in Ea. apply lookup_ge_None in Eb. simpl in *. lia.
      * apply lookup_lt_Some in Eb. apply lookup_ge_None in Ea. simpl in *. lia.
      * naive_solver.
Qed.

Lemma source_words_spec A states w k comp reach source : matrix_ok w k reach →
  (∀ q, q ∈ initial A → ∃ c, comp !! (source * states + q) = Some c ∧ c < k) →
  ∃ row, source_words A states w comp reach source = Some row ∧ words_ok row ∧
    ∀ t, t / 64 < w → row_bit row t ↔ ∃ q c, q ∈ initial A ∧ comp !! (source * states + q) = Some c ∧ cell w reach c t.
Proof.
  intros [Hl Hw] Hq. unfold source_words.
  assert (∀ qs row, (∀ q, q ∈ qs → q ∈ initial A) → length row = w → words_ok row → ∃ row',
    foldM (λ row initial, component ← comp !! (source * states + initial);
      component_row ← slice reach (component * w) ((component + 1) * w); Some (or_words row component_row)) row qs = Some row' ∧ words_ok row' ∧
    ∀ t, t / 64 < w → row_bit row' t ↔ row_bit row t ∨ ∃ q c, q ∈ qs ∧ comp !! (source * states + q) = Some c ∧ cell w reach c t) as Hf.
  { induction qs as [|q qs IH]; intros row Hqs Hrl Hrw; cbn [foldM].
    - exists row. split_and!; [done..|]. intros t _. split; [by left|]. by intros [?|(q & c & ?%elem_of_nil & _)].
    - destruct (Hq q) as (c & Hc & Hck); [apply Hqs; by left|]. rewrite Hc. cbn [mbind option_bind]. rewrite (matrix_slice w k) by done.
      cbn [mbind option_bind]. assert (length row = length (take w (drop (c * w) reach))) as Hlen by (rewrite length_take, length_drop; nia).
      destruct (word_union_spec row (take w (drop (c * w) reach)) Hlen Hrw) as (H1 & H2 & H3); [by apply words_ok_row|].
      destruct (IH (or_words row (take w (drop (c * w) reach)))) as (row' & -> & H4 & H5); [intros q' ?; apply Hqs; by right|congruence|done|].
      exists row'. split_and!; [done..|]. intros t Ht. rewrite H5, H3, row_bit_slice by done. setoid_rewrite elem_of_cons. split.
      + intros [[?|?]|(q' & c' & ? & ? & ?)]; [by left|right; exists q, c; tauto|right; exists q', c'; tauto].
      + intros [?|(q' & c' & [->|?] & Hc' & ?)]; [by left; left| |right; by exists q', c']. rewrite Hc in Hc'. injection Hc' as ->. by left; right. }
  destruct (Hf (initial A) (replicate w 0%N)) as (row & -> & H1 & H2); [done|apply length_replicate| |].
  - apply Forall_replicate. done.
  - exists row. split_and!; [done..|]. intros t Ht. rewrite H2 by done. split; [|by right]. intros [(word & [-> _]%lookup_replicate & Hb)|?]; [|done].
    by rewrite N.bits_0 in Hb.
Qed.

Lemma take_while_spec n l : ascending Nat.compare l → ascending Nat.compare (take_while (λ x, x <? n) l) ∧
  ∀ x, x ∈ take_while (λ x, x <? n) l ↔ x ∈ l ∧ x < n.
Proof.
  induction 1 as [|x l Hl [IH1 IH2] Hx]; cbn [take_while].
  - split; [constructor|]. intros x. split; [by intros ?%elem_of_nil|by intros [? _]].
  - rewrite Forall_forall in Hx. destruct (Nat.ltb_spec x n) as [Hlt|Hge].
    + split.
      * constructor; [done|]. apply Forall_forall. intros y [Hy _]%IH2. by apply Hx.
      * intros y. rewrite !elem_of_cons, IH2. naive_solver.
    + split; [constructor|]. intros y. split; [by intros ?%elem_of_nil|]. intros [[->|Hy]%elem_of_cons Hyn]; [lia|].
      specialize (Hx y Hy). apply Nat.compare_lt_iff in Hx. lia.
Qed.

(** ** The product graph *)

Lemma push_pairs_spec arcs : ∀ l, (∀ p, p ∈ arcs → p.1 < length l) →
  ∃ l', foldM (λ adjacency arc, push_at adjacency arc.1 arc.2) l arcs = Some l' ∧ length l' = length l ∧
  ∀ j y, edge l' j y ↔ edge l j y ∨ (j, y) ∈ arcs.
Proof.
  induction arcs as [|[i x] arcs IH]; intros l Hl; cbn [foldM fst snd].
  - exists l. split_and!; [done..|]. intros j y. split; [by left|]. by intros [?|?%elem_of_nil].
  - destruct (push_at_spec l i x) as (l1 & -> & H1 & H2); [apply (Hl (i, x)); by left|]. cbn [mbind option_bind].
    destruct (IH l1) as (l2 & -> & H3 & H4); [intros p Hp; rewrite H1; apply Hl; by right|]. exists l2. split_and!; [done|lia|].
    intros j y. rewrite H4, H2, elem_of_cons. split; [intros [[?|[-> ->]]|?]|intros [?|[[= -> ->]|?]]]; tauto.
Qed.

Lemma build_adjacency_spec n arcs : (∀ p, p ∈ arcs → p.1 < n ∧ p.2 < n) →
  ∃ adj, build_adjacency n arcs = Some adj ∧ length adj = n ∧ targets_ok adj ∧ ∀ u v, edge adj u v ↔ (u, v) ∈ arcs.
Proof.
  intros Ha. unfold build_adjacency. destruct (push_pairs_spec arcs (replicate n [])) as (l & -> & H1 & H2).
  { intros p Hp. rewrite length_replicate. by apply Ha. }
  cbn [mbind option_bind]. rewrite length_replicate in H1. eexists. split; [done|].
  assert (∀ u v, edge (sort_dedup Nat.compare <$> l) u v ↔ (u, v) ∈ arcs) as He.
  { intros u v. rewrite edge_sorted, H2. split; [|by right]. by intros [(row & [-> _]%lookup_replicate & ?%elem_of_nil)|?]. }
  split_and!; [by rewrite length_fmap| |done]. intros u v Huv%He. rewrite length_fmap, H1. by apply (Ha (u, v)).
Qed.

Lemma div_ceil_spec n : n <= div_ceil n 64 * 64 ∧ div_ceil n 64 <= n.
Proof.
  unfold div_ceil. pose proof (Nat.div_mod_eq n 64). pose proof (Nat.mod_upper_bound n 64). destruct (Nat.eqb_spec (n mod 64) 0); lia.
Qed.

Lemma word_of_bit n t : t < n → t / 64 < div_ceil n 64.
Proof. intros Ht. pose proof (div_ceil_spec n) as [H _]. apply Nat.Div0.div_lt_upper_bound. lia. Qed.

(** The rows of the components of a product graph: the bits of the row of a
    node are the vertices of the accepting nodes it reaches. *)
Lemma product_rows A n states adj : targets_ok adj → length adj = n * states → 0 < states → (N.of_nat (n * states) <= u32_max)%N →
  let w := div_ceil n 64 in
  ∃ comp count cond marked reach, strongly_connected_components adj = Some (comp, count) ∧ condensation adj comp count = Some cond ∧
    topological_order cond = Some (seq 0 (length cond)) ∧ usize_mul count w = Some (count * w) ∧
    foldM (mark_accepting A states w) (replicate (count * w) 0%N) (imap pair comp) = Some marked ∧
    foldM (propagate cond w) marked (rev (seq 0 (length cond))) = Some reach ∧ matrix_ok w count reach ∧ length comp = n * states ∧
    ∀ u c, comp !! u = Some c → c < count ∧ ∀ t, t / 64 < w →
      cell w reach c t ↔ ∃ v, v < n * states ∧ rtc (edge adj) u v ∧ is_accepting A (v mod states) = true ∧ t = v / states.
Proof.
  intros Ht Hal Hpos Hn w. destruct (scc_spec adj Ht) as (comp & count & Escc & Hcl & Hck & Hcr & Hce & Hcs); [by rewrite Hal|].
  destruct (condensation_spec adj comp count Ht Hcl Hcr) as (cond & Econ & Hconl & _ & Hcon).
  assert (∀ c d, edge cond c d → c < d ∧ d < length cond) as Hup.
  { intros c d (Hne & u & v & Huv & Hu & Hv)%Hcon. pose proof (Hce u v c d Huv Hu Hv). rewrite Hconl. split; [lia|by eapply Hcr]. }
  assert (∀ p c, comp !! p = Some c → p < n * states ∧ p / states / 64 < w) as Hp.
  { intros p c Hpc. apply lookup_lt_Some in Hpc. rewrite Hcl, Hal in Hpc. split; [done|]. apply word_of_bit, Nat.Div0.div_lt_upper_bound. lia. }
  destruct (mark_all_spec w A states count (imap pair comp) (replicate (count * w) 0%N)) as (marked & Emark & Hm & Hcell).
  { split; [apply length_replicate|by apply Forall_replicate]. }
  { intros p Hpc%elem_of_indexed. split; [by eapply Hcr|]. by destruct (Hp _ _ Hpc). }
  set (base := λ d t : nat, ∃ p, comp !! p = Some d ∧ is_accepting A (p mod states) = true ∧ t = p / states).
  assert (∀ c t, t / 64 < w → cell w marked c t ↔ base c t) as Hbase.
  { intros c t Htw. rewrite Hcell by done. unfold base. split.
    - intros [(word & [-> _]%lookup_replicate & Hb)|(p & Hpc%elem_of_indexed & ? & -> & ->)]; [by rewrite N.bits_0 in Hb|by exists p.1].
    - intros (p & ? & ? & ->). right. exists (p, c). by rewrite elem_of_indexed. }
  destruct (propagate_spec cond Hup w base (length cond) marked) as (reach & Eprop & Hm' & Hcell'); [done|by rewrite Hconl| |by intros; apply Hbase|].
  { intros c t Htw Hc. rewrite Hbase by done. split; [intros Hb; by exists c|]. intros (d & Hd & Hb). apply rtc_inv in Hd as [->|(d' & Hcd & _)]; [done|].
    destruct (Hup c d' Hcd). lia. }
  exists comp, count, cond, marked, reach. rewrite Hconl in Hm'. split_and!; [done|done|by apply topological_order_spec| |done|done|done|congruence|].
  - unfold usize_mul. rewrite (proj2 (N.leb_le _ _)); [done|]. destruct (div_ceil_spec n) as [_ Hw]. fold w in Hw. unfold usize_max, u32_max in *.
    assert (n <= n * states) by nia. assert (N.of_nat count <= 2 ^ 32 - 1)%N by lia. assert (N.of_nat w <= 2 ^ 32 - 1)%N by lia. nia.
  - intros u c Hu. split; [by eapply Hcr|]. intros t Htw. rewrite Hcell' by done. unfold base. split.
    + intros (d & Hd & v & Hv & Ha & ->). exists v. split_and!; [by destruct (Hp _ _ Hv)| |done..].
      by apply (condensed_walk adj comp cond c d u v Ht Hcl Hcs Hcon Hu Hv).
    + intros (v & Hv & Hr & Ha & ->). destruct (lookup_lt_is_Some_2 comp v) as [d Hd]; [lia|]. exists d. split; [|by exists v].
      by apply (condensed_walk adj comp cond c d u v Ht Hcl Hcs Hcon Hu Hd).
Qed.

Lemma choose_rows {B} (l : list nat) (g : nat → res B) (Q : nat → B → Prop) : (∀ s, s ∈ l → ∃ row, g s = Some row ∧ Q s row) → ∀ (d : B),
  ∃ h : nat → B, (∀ s, s ∈ l → g s = Some (h s)) ∧ ∀ s, s ∈ l → Q s (h s).
Proof.
  intros H d. exists (λ s, default d (g s)). split; intros s Hs; destruct (H s Hs) as (row & E & HQ); by rewrite E.
Qed.

(** The row of a source, read off the component rows. *)
Definition source_row (A : Automaton) (n states w : nat) (comp : list nat) (reach : list N) (source : nat) : res (list nat) :=
  words ← source_words A states w comp reach source;
  bits ← set_bits words;
  Some (take_while (λ target, target <? n) bits).

Lemma source_row_spec A n states w k comp reach source (R : nat → Prop) : matrix_ok w k reach →
  (∀ t, t < n → t / 64 < w) → (∀ q, q ∈ initial A → ∃ c, comp !! (source * states + q) = Some c ∧ c < k) →
  (∀ t, t < n → (∃ q c, q ∈ initial A ∧ comp !! (source * states + q) = Some c ∧ cell w reach c t) ↔ R t) →
  ∃ row, source_row A n states w comp reach source = Some row ∧ ascending Nat.compare row ∧ ∀ t, t ∈ row ↔ t < n ∧ R t.
Proof.
  intros Hm Hw Hq HR. unfold source_row. destruct (source_words_spec A states w k comp reach source Hm Hq) as (words & -> & H1 & H2).
  cbn [mbind option_bind]. destruct (row_bits_spec words H1) as (bits & -> & H3 & H4). cbn [mbind option_bind].
  destruct (take_while_spec n bits H3) as [H5 H6]. eexists. split_and!; [done|done|]. intros t. rewrite H6, H4. split.
  - intros [Hb Ht]. split; [done|]. apply HR; [done|]. apply H2; [by apply Hw|done].
  - intros [Ht Hr]. split; [|done]. apply H2; [by apply Hw|]. by apply HR.
Qed.

(** One arc. *)
Definition arc_step (S : PathSummary) (x y : ProductNode) : Prop := mkArc x y ∈ arcs S.

Section product.
Context (S : PathSummary) (vs : list (list N)) (HS : summary_ok S) (Hvs : ascending lex_cmp vs).
Context (Hends : ∀ x, arc_ends (arcs S) x → x ∈ vs).

Let states := state_count (automaton S).
Definition node_ok (x : ProductNode) : Prop := vertex x ∈ vs ∧ state x < states.

Lemma node_place_inj x y : node_ok x → node_ok y → node_place states vs x = node_place states vs y → x = y.
Proof.
  intros [Hx Hqx] [Hy Hqy] E. unfold node_place in E.
  destruct (product_ordinal_div states (place vs (vertex x)) (state x) Hqx) as [D1 M1].
  destruct (product_ordinal_div states (place vs (vertex y)) (state y) Hqy) as [D2 M2].
  rewrite E in D1, M1. rewrite D2 in D1. rewrite M2 in M1.
  pose proof (place_spec vs _ Hx) as P1. pose proof (place_spec vs _ Hy) as P2. rewrite D1 in P2. rewrite P1 in P2. injection P2 as Hv.
  destruct x, y. simpl in *. congruence.
Qed.

Lemma arc_nodes x y : arc_step S x y → node_ok x ∧ node_ok y.
Proof.
  intros Ha. destruct (sk_states S HS _ Ha) as [Hq Hr]. split; (split; [|done]); apply Hends; eexists; (split; [exact Ha|]); [by left|by right].
Qed.

Lemma product_walk adj x y :
  (∀ u v, edge adj u v ↔ (u, v) ∈ (λ arc, (node_place states vs (arc_source arc), node_place states vs (arc_target arc))) <$> arcs S) →
  node_ok x → node_ok y → rtc (edge adj) (node_place states vs x) (node_place states vs y) ↔ rtc (arc_step S) x y.
Proof.
  intros He Hx Hy. split.
  - intros Hr. remember (node_place states vs x) as u eqn:Eu. remember (node_place states vs y) as v eqn:Ev. revert x Hx Eu.
    induction Hr as [u|u u' v Huu _ IH]; intros x Hx Eu.
    + subst u. apply node_place_inj in Eu as <-; [done..].
    + apply He, list_elem_of_fmap in Huu as ([x1 x2] & [= -> ->] & Ha). destruct (arc_nodes x1 x2 Ha) as [Hx1 Hx2].
      apply node_place_inj in Eu as ->; [|done..]. eapply rtc_l; [exact Ha|]. by apply IH.
  - intros Hr. clear Hx. induction Hr as [x|x z y Hxz _ IH]; [done|]. eapply rtc_l; [|by apply IH]. apply He, list_elem_of_fmap.
    by exists (mkArc x z).
Qed.

(** The vertices an accepted walk from [x] leads to. *)
Definition walks_to (x y : list N) : Prop :=
  ∃ q f, q ∈ initial (automaton S) ∧ f ∈ accepting (automaton S) ∧ rtc (arc_step S) (mkNode x q) (mkNode y f).

Lemma node_at s x q : vs !! s = Some x → q < states →
  node_ok (mkNode x q) ∧ node_place states vs (mkNode x q) = product_ordinal states s q.
Proof.
  intros Hx Hq. split; [split; [by eapply list_elem_of_lookup_2|done]|]. unfold node_place. cbn [vertex state].
  by rewrite (place_unique vs s x).
Qed.

Lemma walk_cells adj comp count w reach s t x y :
  (∀ u v, edge adj u v ↔ (u, v) ∈ (λ arc, (node_place states vs (arc_source arc), node_place states vs (arc_target arc))) <$> arcs S) →
  length comp = length vs * states →
  (∀ u c, comp !! u = Some c → c < count ∧ ∀ t, t / 64 < w →
    cell w reach c t ↔ ∃ v, v < length vs * states ∧ rtc (edge adj) u v ∧ is_accepting (automaton S) (v mod states) = true ∧ t = v / states) →
  vs !! s = Some x → vs !! t = Some y → t / 64 < w →
  (∃ q c, q ∈ initial (automaton S) ∧ comp !! (product_ordinal states s q) = Some c ∧ cell w reach c t) ↔ walks_to x y.
Proof.
  intros He Hcl Hreach Hx Hy Htw.
  assert (∀ q, q ∈ initial (automaton S) → q < states) as Hq by (intros q Hq; apply (ao_states _ (sk_automaton S HS)); by left).
  assert (∀ q, q ∈ accepting (automaton S) → q < states) as Hf by (intros q Hf; apply (ao_states _ (sk_automaton S HS)); by right; left).
  unfold walks_to. split.
  - intros (q & c & Hqi & Hc & Hcell). apply (Hreach _ _ Hc) in Hcell as (v & _ & Hr & Ha & E); [|done].
    apply bool_decide_eq_true in Ha. exists q, (v mod states). split_and!; [done|done|].
    destruct (node_at s x q Hx (Hq q Hqi)) as [N1 P1]. destruct (node_at t y (v mod states) Hy (Hf _ Ha)) as [N2 P2].
    apply (product_walk adj); [done..|]. rewrite P1, P2. unfold product_ordinal at 2. rewrite E.
    assert (v / states * states + v mod states = v) as -> by (rewrite Nat.mul_comm; symmetry; apply Nat.div_mod_eq). done.
  - intros (q & f & Hqi & Hfa & Hr). destruct (node_at s x q Hx (Hq q Hqi)) as [N1 P1]. destruct (node_at t y f Hy (Hf f Hfa)) as [N2 P2].
    destruct (lookup_lt_is_Some_2 comp (product_ordinal states s q)) as [c Hc].
    { rewrite Hcl. apply product_ordinal_lt; [by apply Hq|by eapply lookup_lt_Some]. }
    exists q, c. split_and!; [done|done|]. apply (Hreach _ _ Hc); [done|]. destruct (product_ordinal_div states t f (Hf f Hfa)) as [D M].
    exists (product_ordinal states t f). rewrite D, M. split_and!; [| |by apply bool_decide_eq_true|done].
    + apply product_ordinal_lt; [by apply Hf|by eapply lookup_lt_Some].
    + rewrite <- P1, <- P2. by apply (product_walk adj).
Qed.

Lemma materialize_spec : (N.of_nat (length vs * states) <= u32_max)%N →
  ∃ rows, materialize_active_relation S vs = Some (inr (csr_of rows)) ∧ length rows = length vs ∧
    ∀ s x row, vs !! s = Some x → rows !! s = Some row → ascending Nat.compare row ∧
      ∀ t, t ∈ row ↔ ∃ y, vs !! t = Some y ∧ walks_to x y.
Proof.
  intros Hn. pose proof (automaton_states _ (sk_automaton S HS)) as Hpos. fold states in Hpos.
  assert (length vs <= length vs * states) as Hle by nia. unfold materialize_active_relation. fold states. unfold usize_add, usize_mul at 1.
  rewrite (proj2 (N.leb_le _ _)) by (unfold usize_max, u32_max in *; lia).
  rewrite (proj2 (N.leb_le _ _)) by (unfold usize_max, u32_max in *; lia). rewrite (proj2 (N.ltb_ge _ _)) by done.
  destruct (ordinal_arcs_spec S vs HS Hvs Hends Hn) as [-> Hrange]. fold states in Hrange. fold states. cbn [mbind option_bind].
  set (arcs' := (λ arc, (node_place states vs (arc_source arc), node_place states vs (arc_target arc))) <$> arcs S) in *.
  destruct (build_adjacency_spec (length vs * states) arcs') as (adj & -> & Hal & Ht & He).
  { intros p Hp. unfold arcs' in Hp. apply list_elem_of_fmap in Hp as (arc & -> & Ha). by apply Hrange. }
  cbn [mbind option_bind]. destruct (product_rows (automaton S) (length vs) states adj Ht Hal Hpos Hn)
    as (comp & count & cond & marked & reach & -> & E1 & E2 & E3 & E4 & E5 & Hm & Hcl & Hreach).
  cbn [mbind option_bind]. rewrite E1. cbn [mbind option_bind]. rewrite E2. cbn [mbind option_bind]. rewrite E3, E4. cbn [mbind option_bind].
  rewrite E5. cbn [mbind option_bind]. set (w := div_ceil (length vs) 64) in *.
  assert (∀ s, s ∈ seq 0 (length vs) → ∃ row, source_row (automaton S) (length vs) states w comp reach s = Some row ∧
    ascending Nat.compare row ∧ ∀ t, t ∈ row ↔ t < length vs ∧ ∃ x y, vs !! s = Some x ∧ vs !! t = Some y ∧ walks_to x y) as Hrow.
  { intros s Hs%elem_of_seq. destruct (lookup_lt_is_Some_2 vs s) as [x Hx]; [lia|].
    assert (∀ q, q ∈ initial (automaton S) → q < states) as Hq by (intros q Hq; apply (ao_states _ (sk_automaton S HS)); by left).
    apply (source_row_spec _ _ _ _ count); [done|by apply word_of_bit| |].
    - intros q Hqi. destruct (lookup_lt_is_Some_2 comp (s * states + q)) as [c Hc].
      { rewrite Hcl. apply product_ordinal_lt; [by apply Hq|lia]. }
      exists c. split; [done|by eapply Hreach].
    - intros t Htl. destruct (lookup_lt_is_Some_2 vs t) as [y Hy]; [lia|].
      assert (t / 64 < w) as Htw by by apply word_of_bit. pose proof (walk_cells adj comp count w reach s t x y He Hcl Hreach Hx Hy Htw) as Hwalk.
      unfold product_ordinal in Hwalk. rewrite Hwalk. split; [intros H; by exists x, y|]. by intros (x' & y' & Hx' & Hy' & H); simplify_eq. }
  destruct (choose_rows _ _ _ Hrow []) as (h & Hh & Hprop).
  pose proof (push_rows_spec _ h (seq 0 (length vs)) Hh []) as Hpush. cbn [app concat row_offsets] in Hpush.
  exists (h <$> seq 0 (length vs)). split_and!.
  - match goal with |- context [foldM ?f ([0], []) _] => assert (foldM f ([0], []) (seq 0 (length vs)) =
      foldM (λ st x, row ← source_row (automaton S) (length vs) states w comp reach x; Some (push_row st row)) ([0], []) (seq 0 (length vs))) as -> end.
    { apply foldM_ext. intros st x _. unfold source_row. destruct (source_words _ _ _ _ _ _) as [words|]; [|done]. cbn [mbind option_bind].
      by destruct (set_bits words). }
    rewrite Hpush. done.
  - by rewrite length_fmap, length_seq.
  - intros s x row Hx Hr. apply list_lookup_fmap_Some in Hr as (s' & -> & Hs). apply lookup_seq in Hs as [-> Hs]. rewrite Nat.add_0_l.
    destruct (Hprop s) as [Ha Hin]; [apply elem_of_seq; lia|]. split; [done|]. intros t. rewrite Hin. split.
    + intros (_ & x' & y & Hx' & Hy & Hwk). rewrite Hx in Hx'. injection Hx' as <-. by exists y.
    + intros (y & Hy & Hwk). split; [by eapply lookup_lt_Some|]. by exists x, y.
Qed.
End product.
