(* ===== verification/PathRows.v ===== *)
(** * PathRows: the relation over all vertices, and its transpose

    [expand_relation] adds the identity of a nullable automaton to the relation
    of the active vertices; [transpose] counts the targets, takes the running
    sums for offsets and places each source at the next free slot of its
    target. *)

From S2P Require Import Prelude Lex BTree Trible PathExpr PathLanguage PathCompile PathSummary PathIndex PathScc PathOrder PathRelation.

Open Scope nat_scope.

(** ** Expansion *)

Lemma ascending_by_lookup (l : list nat) : (∀ i j x y, l !! i = Some x → l !! j = Some y → i < j → (x ?= y) = Lt) → ascending Nat.compare l.
Proof.
  induction l as [|x l IH]; intros H; [constructor|]. constructor.
  - apply IH. intros i j y z Hi Hj Hij. apply (H (S i) (S j)); [done..|lia].
  - apply Forall_forall. intros y Hy. apply list_elem_of_lookup in Hy as [i Hi]. apply (H 0 (S i)); [done..|lia].
Qed.

Section expand.
Context (f : list nat) (rows : list (list nat)) (add : bool).

(** The full ordinal of an active target. *)
Definition full (i : nat) : nat := default 0 (f !! i).

Lemma expand_target_at source written vals i : is_Some (f !! i) → expand_target f add source (written, vals) i =
  Some (if add && negb written && (source <? full i) then (true, vals ++ [source; full i])
        else (written || (source =? full i), vals ++ [full i])).
Proof.
  intros [t Ht]. unfold expand_target, full. rewrite Ht. cbn [mbind option_bind fst snd from_option].
  change (id t) with t.
  destruct (add && negb written && (source <? t)); [|done]. cbn [orb]. by rewrite <- (assoc_L (++)).
Qed.

(** Once the source is written, or if it is not asked for, targets are copied. *)
Lemma expand_copy source ts : (∀ i, i ∈ ts → is_Some (f !! i)) → ∀ written vals, add && negb written = false →
  ∃ written', foldM (expand_target f add source) (written, vals) ts = Some (written', vals ++ (full <$> ts)) ∧ add && negb written' = false.
Proof.
  induction ts as [|i ts IH]; intros Hts written vals Hw; cbn [foldM].
  - exists written. by rewrite app_nil_r.
  - rewrite expand_target_at by (apply Hts; by left). rewrite Hw. cbn [andb mbind option_bind].
    destruct (IH (λ j Hj, Hts j (list_elem_of_further _ _ _ Hj)) (written || (source =? full i)) (vals ++ [full i])) as (w' & -> & Hw').
    + destruct add, written; done.
    + exists w'. by rewrite fmap_cons, <- (assoc_L (++)).
Qed.

(** The targets of an active source, with the source in its place. *)
Lemma expand_row_spec source ts : (∀ i, i ∈ ts → is_Some (f !! i)) → ∀ vals,
  ∃ written values, foldM (expand_target f add source) (false, vals) ts = Some (written, values) ∧
    (if add && negb written then values ++ [source] else values) = vals ++ (if add then bts_insert Nat.compare source (full <$> ts) else full <$> ts).
Proof.
  induction ts as [|i ts IH]; intros Hts vals; cbn [foldM].
  - exists false, vals. split; [done|]. destruct add; [done|by rewrite app_nil_r].
  - assert (∀ j, j ∈ ts → is_Some (f !! j)) as Hts' by (intros j ?; apply Hts; by right).
    rewrite expand_target_at by (apply Hts; by left). cbn [negb orb]. rewrite andb_true_r.
    destruct add eqn:Ea; cbn [andb]; [|destruct (expand_copy source ts Hts' (source =? full i) (vals ++ [full i])) as (w' & E & _)].
    + rewrite fmap_cons. cbn [bts_insert]. destruct (Nat.compare_spec source (full i)) as [E|Hlt|Hgt].
      * rewrite E, Nat.ltb_irrefl, Nat.eqb_refl. cbn [mbind option_bind].
        destruct (expand_copy (full i) ts Hts' true (vals ++ [full i])) as (w' & E' & Hw'); [by rewrite Ea|]. rewrite Ea in E', Hw'.
        exists w', (vals ++ full i :: (full <$> ts)). cbn [andb] in Hw'. rewrite E', Hw', <- (assoc_L (++)). done.
      * rewrite (proj2 (Nat.ltb_lt _ _)) by done. cbn [mbind option_bind].
        destruct (expand_copy source ts Hts' true (vals ++ [source; full i])) as (w' & E' & Hw'); [by rewrite Ea|]. rewrite Ea in E', Hw'.
        exists w', (vals ++ source :: full i :: (full <$> ts)). cbn [andb] in Hw'. rewrite E', Hw', <- (assoc_L (++)). done.
      * rewrite (proj2 (Nat.ltb_ge _ _)) by lia. rewrite (proj2 (Nat.eqb_neq _ _)) by lia. cbn [mbind option_bind].
        destruct (IH Hts' (vals ++ [full i])) as (w' & values & E' & Ev). exists w', values. split; [done|]. cbn [andb] in Ev. rewrite Ev.
        by rewrite <- (assoc_L (++)).
    + by rewrite Ea.
    + rewrite Ea in E. exists w', (vals ++ full i :: (full <$> ts)). cbn [mbind option_bind]. rewrite E, <- (assoc_L (++)). done.
Qed.

(** All sources: those of [f] have the row of the active relation. *)
Context (Hf : ascending Nat.compare f) (Hrl : length rows = length f) (Hrows : ∀ row i, row ∈ rows → i ∈ row → i < length f).

Definition expanded_row (source : nat) (row : list nat) : Prop :=
  (∃ i r, f !! i = Some source ∧ rows !! i = Some r ∧
    row = (if add then bts_insert Nat.compare source (full <$> r) else full <$> r)) ∨
  (source ∉ f) ∧ row = (if add then [source] else []).

Lemma ascending_lt i j x y : f !! i = Some x → f !! j = Some y → i < j ↔ x < y.
Proof.
  intros Hi Hj. assert (∀ i j x y, f !! i = Some x → f !! j = Some y → i < j → x < y) as H.
  { clear -Hf. intros i j x y Hi Hj Hlt. apply Nat.compare_lt_iff. by apply (ascending_lookup Nat.compare f i j). }
  split; [by apply H|]. intros Hxy. destruct (Nat.lt_trichotomy i j) as [?|[->|Hji]]; [done|simplify_eq; lia|]. specialize (H j i y x Hj Hi Hji). lia.
Qed.

Lemma full_ascending (r : list nat) : ascending Nat.compare r → (∀ i, i ∈ r → i < length f) → ascending Nat.compare (full <$> r).
Proof.
  intros Hr Hi. apply ascending_by_lookup. intros i j x y Hx Hy Hij.
  apply list_lookup_fmap_Some in Hx as (i' & -> & Hi'). apply list_lookup_fmap_Some in Hy as (j' & -> & Hj').
  destruct (lookup_lt_is_Some_2 f i') as [x Hx]; [apply Hi; by eapply list_elem_of_lookup_2|].
  destruct (lookup_lt_is_Some_2 f j') as [y Hy]; [apply Hi; by eapply list_elem_of_lookup_2|].
  unfold full. rewrite Hx, Hy. cbn [from_option]. apply Nat.compare_lt_iff, (ascending_lt i' j' x y Hx Hy), Nat.compare_lt_iff.
  by apply (ascending_lookup Nat.compare r i j).
Qed.

Lemma elem_of_full (r : list nat) t : (∀ i, i ∈ r → i < length f) → t ∈ full <$> r ↔ ∃ i, i ∈ r ∧ f !! i = Some t.
Proof.
  intros Hi. rewrite list_elem_of_fmap. split.
  - intros (i & -> & Hr). exists i. split; [done|]. unfold full. destruct (lookup_lt_is_Some_2 f i (Hi i Hr)) as [x Hx]. by rewrite Hx.
  - intros (i & Hr & Hx). exists i. split; [|done]. unfold full. by rewrite Hx.
Qed.

(** What a row over all vertices holds. *)
Lemma expanded_row_spec s row : (∀ r, r ∈ rows → ascending Nat.compare r) → expanded_row s row →
  ascending Nat.compare row ∧ ∀ t, t ∈ row ↔ (add = true ∧ t = s) ∨ ∃ i j r, f !! i = Some s ∧ f !! j = Some t ∧ rows !! i = Some r ∧ j ∈ r.
Proof.
  intros Hasc [(i & r & Hi & Hr & ->)|[Hns ->]].
  - assert (r ∈ rows) as Hin by by eapply list_elem_of_lookup_2. pose proof (full_ascending r (Hasc r Hin) (λ j, Hrows r j Hin)) as Ha.
    assert (∀ t, t ∈ full <$> r ↔ ∃ i j r, f !! i = Some s ∧ f !! j = Some t ∧ rows !! i = Some r ∧ j ∈ r) as He.
    { intros t. rewrite (elem_of_full r t (λ j, Hrows r j Hin)). split; [intros (j & ? & ?); by exists i, j, r|].
      intros (i' & j & r' & Hi' & Hj & Hr' & Hjr). assert (i' = i) as ->.
      { eapply (NoDup_lookup f); [by eapply (ascending_NoDup Nat.compare)|done|done]. }
      rewrite Hr in Hr'. injection Hr' as <-. by exists j. }
    destruct add.
    + split; [apply bts_insert_ascending; [apply _|done]|]. intros t. rewrite elem_of_bts_insert by apply _. rewrite He. tauto.
    + split; [done|]. intros t. rewrite He. split; [by right|]. by intros [[? _]|?].
  - assert (∀ i, f !! i ≠ Some s) as Hno by (intros i Hi; apply Hns; by eapply list_elem_of_lookup_2). destruct add.
    + split; [by repeat constructor|]. intros t. rewrite list_elem_of_singleton. split; [by left|]. intros [[_ ?]|(i & j & r & Hi & _)]; [done|by destruct (Hno i)].
    + split; [constructor|]. intros t. split; [by intros ?%elem_of_nil|]. intros [[? _]|(i & j & r & Hi & _)]; [done|by destruct (Hno i)].
Qed.

Lemma expand_all_spec n : ∃ a rs, foldM (expand_source f (csr_of rows) add) (0, ([0], [])) (seq 0 n) = Some (a, (row_offsets 0 rs, concat rs)) ∧
  length rs = n ∧ (∀ i x, f !! i = Some x → i < a ↔ x < n) ∧ ∀ s row, rs !! s = Some row → expanded_row s row.
Proof.
  induction n as [|n (a & rs & E & Hl & Ha & Hr)].
  - exists 0, []. split_and!; [done|done|intros; lia|done].
  - rewrite seq_S, foldM_app, E, Nat.add_0_l. cbn [mbind option_bind foldM]. unfold expand_source.
    assert (∀ row, expanded_row n row → ∀ s row', (rs ++ [row]) !! s = Some row' → expanded_row s row') as Hsnoc.
    { intros row Hrow s row' [Hs|[Hge Hs]]%lookup_app_Some; [by apply Hr|]. apply list_lookup_singleton_Some in Hs as [Hs <-].
      by replace s with n by lia. }
    case_bool_decide as Hfa.
    + destruct (lookup_lt_is_Some_2 rows a) as [r Hra]; [rewrite Hrl; by eapply lookup_lt_Some|]. rewrite (csr_row_of _ _ _ Hra). cbn [mbind option_bind].
      destruct (expand_row_spec n r) with (vals := @nil nat) as (written & values & -> & Ev).
      { intros i Hi. apply lookup_lt_is_Some_2. eapply Hrows; [by eapply list_elem_of_lookup_2|done]. }
      cbn [mbind option_bind app] in *. rewrite Ev, push_row_of. eexists _, _. split; [done|]. split_and!.
      * rewrite length_app. simpl. lia.
      * intros i x Hx. destruct (decide (i = a)) as [->|Hne]; [rewrite Hfa in Hx; injection Hx as <-; lia|].
        pose proof (ascending_lt i a x n Hx Hfa). pose proof (ascending_lt a i n x Hfa Hx). lia.
      * apply Hsnoc. left. by exists a, r.
    + rewrite push_row_of. eexists _, _. split; [done|]. split_and!.
      * rewrite length_app. simpl. lia.
      * intros i x Hx. rewrite (Ha i x Hx). split; [lia|]. intros Hxn. destruct (decide (x = n)) as [->|Hne]; [|lia]. exfalso.
        assert (¬ i < a) as Hia by (rewrite (Ha i n Hx); lia). destruct (f !! a) as [y|] eqn:Hy.
        -- assert (a < i) as Hai by (destruct (decide (i = a)) as [->|]; [congruence|lia]). pose proof (proj1 (ascending_lt a i y n Hy Hx) Hai) as Hyn.
           apply (Ha a y Hy) in Hyn. lia.
        -- apply lookup_ge_None in Hy. apply lookup_lt_Some in Hx. lia.
      * apply Hsnoc. right. split; [|done]. intros Hin. apply list_elem_of_lookup in Hin as [i Hi].
        assert (¬ i < a) as Hia by (rewrite (Ha i n Hi); lia). destruct (f !! a) as [y|] eqn:Hy.
        -- assert (a < i) as Hai by (destruct (decide (i = a)) as [->|]; [congruence|lia]). pose proof (proj1 (ascending_lt a i y n Hy Hi) Hai) as Hyn.
           apply (Ha a y Hy) in Hyn. lia.
        -- apply lookup_ge_None in Hy. apply lookup_lt_Some in Hi. lia.
Qed.
End expand.

(** A row over all vertices, from the relation of the active ones. *)
Lemma expand_relation_spec vs av rows add : ascending lex_cmp vs → ascending lex_cmp av → (∀ x, x ∈ av → x ∈ vs) →
  length rows = length av → (∀ row, row ∈ rows → ascending Nat.compare row ∧ ∀ i, i ∈ row → i < length av) →
  (N.of_nat (length vs) <= u32_max)%N → (N.of_nat (length (concat rows) + length vs) <= usize_max)%N →
  ∃ rows', expand_relation vs av (csr_of rows) add = Some (inr (csr_of rows')) ∧ length rows' = length vs ∧
    ∀ s x row', vs !! s = Some x → rows' !! s = Some row' → ascending Nat.compare row' ∧
      ∀ t, t ∈ row' ↔ (add = true ∧ vs ≠ av ∧ t = s) ∨
        ∃ y s' t' row, vs !! t = Some y ∧ av !! s' = Some x ∧ av !! t' = Some y ∧ rows !! s' = Some row ∧ t' ∈ row.
Proof.
  intros Hvs Hav Hin Hrl Hrows Hn Hcap. unfold expand_relation. case_bool_decide as Hsame.
  { subst av. exists rows. split_and!; [done..|]. intros s x row Hx Hr. split; [by apply Hrows; eapply list_elem_of_lookup_2|].
    intros t. split.
    - intros Ht. right. destruct (lookup_lt_is_Some_2 vs t) as [y Hy]; [by eapply Hrows; [eapply list_elem_of_lookup_2|]|].
      by exists y, s, t, row.
    - intros [(_ & ? & _)|(y & s' & t' & row' & Hy & Hs' & Ht' & Hr' & Ht)]; [done|].
      pose proof (ascending_NoDup lex_cmp _ Hvs) as Hnd.
      assert (s' = s) as -> by (by eapply (NoDup_lookup vs)). assert (t' = t) as -> by (by eapply (NoDup_lookup vs)). congruence. }
  assert (∀ x, x ∈ av → (found ← binary_search lex_cmp vs x; found) = Some (place vs x)) as Hsearch.
  { intros x Hx. destruct (path_search_spec lex_cmp vs x Hvs) as (o & -> & Ho). cbn [mbind option_bind].
    destruct o as [i|]; [by rewrite (place_unique vs i x)|]. destruct Ho. by apply Hin. }
  rewrite (mapM_total _ (place vs) av Hsearch). cbn [mbind option_bind]. set (f := place vs <$> av).
  unfold usize_add. rewrite (proj2 (N.leb_le _ _)).
  2:{ cbn [csr_of csr_values]. destruct add; lia. }
  rewrite (proj2 (N.leb_le _ _)) by (unfold u32_max, usize_max in *; lia).
  assert (∀ i, i < length av → is_Some (f !! i)) as Hfi by (intros i Hi; apply lookup_lt_is_Some_2; unfold f; by rewrite length_fmap).
  assert (∀ i z, f !! i = Some z ↔ ∃ x, av !! i = Some x ∧ vs !! z = Some x) as Hfat.
  { intros i z. unfold f. rewrite list_lookup_fmap_Some. split.
    - intros (x & -> & Hx). exists x. split; [done|]. apply place_spec, Hin. by eapply list_elem_of_lookup_2.
    - intros (x & Hx & Hz). exists x. split; [|done]. symmetry. by apply place_unique. }
  assert (ascending Nat.compare f) as Hfa.
  { apply ascending_by_lookup. intros i j x y (x' & Hx & Hx')%Hfat (y' & Hy & Hy')%Hfat Hij. apply Nat.compare_lt_iff.
    pose proof (ascending_lookup lex_cmp av i j x' y' Hav Hx Hy Hij) as Hlt.
    destruct (Nat.lt_trichotomy x y) as [?|[->|Hyx]]; [done| |].
    - rewrite Hx' in Hy'. injection Hy' as ->. by rewrite (proj2 (cmp_eq lex_cmp y' y') eq_refl) in Hlt.
    - pose proof (ascending_lookup lex_cmp vs y x y' x' Hvs Hy' Hx' Hyx) as Hgt. rewrite (cmp_swap lex_cmp), Hgt in Hlt. done. }
  assert (length rows = length f) as Hrf by (unfold f; by rewrite length_fmap).
  assert (∀ row i, row ∈ rows → i ∈ row → i < length f) as Hrow by (intros row i Hr Hi; rewrite <- Hrf, Hrl; by apply (Hrows row Hr)).
  destruct (expand_all_spec f rows add Hfa Hrf Hrow (length vs)) as (a & rs & -> & Hlen & _ & Hspec).
  cbn [mbind option_bind]. exists rs. split_and!; [done..|]. intros s x row' Hx Hr'.
  destruct (expanded_row_spec f rows add Hfa Hrf Hrow s row') as [Ha Hel]; [intros r Hr; by apply Hrows|by apply Hspec|].
  split; [done|]. intros t. rewrite Hel. setoid_rewrite Hfat. split.
  - intros [[-> ->]|(i & j & r & (x' & Hi & Hx') & (y & Hj & Hy) & Hr & Hjr)]; [by left|right]. rewrite Hx in Hx'. injection Hx' as <-.
    by exists y, i, j, r.
  - intros [(-> & _ & ->)|(y & i & j & r & Hy & Hi & Hj & Hr & Hjr)]; [by left|right]. exists i, j, r. split_and!; [by exists x|by exists y|done..].
Qed.

(** ** Transposition *)

(** The pairs of a source and a target, in the order of the rows. *)
Definition row_pairs (rows : list (list nat)) : list (nat * nat) := concat (imap (λ s row, (λ t, (s, t)) <$> row) rows).

(** The sources of a target. *)
Definition column (ps : list (nat * nat)) (t : nat) : list nat := fst <$> filter (λ p, p.2 = t) ps.

Lemma column_snoc ps s t t' : column (ps ++ [(s, t)]) t' = column ps t' ++ (if decide (t = t') then [s] else []).
Proof. unfold column. rewrite filter_app, fmap_app. f_equal. rewrite filter_cons. simpl. by destruct (decide (t = t')). Qed.

Lemma column_app ps ps' t : column (ps ++ ps') t = column ps t ++ column ps' t.
Proof. unfold column. by rewrite filter_app, fmap_app. Qed.

Lemma length_column ps t : length (column ps t) = occ t ps.*2.
Proof. unfold column, occ. rewrite length_fmap. induction ps as [|[s t'] ps IH]; [done|]. rewrite fmap_cons, !filter_cons. simpl.
  destruct (decide (t' = t)); simpl; by rewrite IH. Qed.

Lemma elem_of_column ps s t : s ∈ column ps t ↔ (s, t) ∈ ps.
Proof.
  unfold column. rewrite list_elem_of_fmap. split.
  - intros ([s' t'] & -> & Hp). by apply list_elem_of_filter in Hp as [<- ?].
  - intros Hp. exists (s, t). split; [done|]. by apply list_elem_of_filter.
Qed.

Lemma row_pairs_snoc rows row : row_pairs (rows ++ [row]) = row_pairs rows ++ ((λ t, (length rows, t)) <$> row).
Proof. unfold row_pairs. rewrite imap_app, concat_app. cbn [imap concat]. rewrite app_nil_r. simpl. by rewrite Nat.add_0_r. Qed.

Lemma elem_of_row_pairs rows s t : (s, t) ∈ row_pairs rows ↔ ∃ row, rows !! s = Some row ∧ t ∈ row.
Proof.
  induction rows as [|row rows IH] using rev_ind; [split; [by intros ?%elem_of_nil|by intros (row & ? & _)]|].
  rewrite row_pairs_snoc, elem_of_app, IH, list_elem_of_fmap. split.
  - intros [(r & Hr & Ht)|(t' & [= -> ->] & Ht)].
    + exists r. split; [by apply lookup_app_l_Some|done].
    + exists row. split; [by apply list_lookup_middle|done].
  - intros (r & [Hr|[Hge Hr]]%lookup_app_Some & Ht); [left; by exists r|right].
    apply list_lookup_singleton_Some in Hr as [Hs <-]. exists t. split; [|done]. f_equal. lia.
Qed.

Lemma row_pairs_targets rows : (row_pairs rows).*2 = concat rows.
Proof.
  induction rows as [|row rows IH] using rev_ind; [done|]. rewrite row_pairs_snoc, fmap_app, IH, concat_app. cbn [concat].
  rewrite app_nil_r, <- list_fmap_compose. f_equal. apply list_fmap_id.
Qed.

(** Columns of ascending rows are ascending. *)
Lemma column_ascending rows t : (∀ row, row ∈ rows → NoDup row) → ascending Nat.compare (column (row_pairs rows) t).
Proof.
  induction rows as [|row rows IH] using rev_ind; intros Hnd; [constructor|]. rewrite row_pairs_snoc, column_app. apply ascending_app.
  - apply IH. intros r Hr. apply Hnd, elem_of_app. by left.
  - assert (NoDup row) as Hrow by (apply Hnd, elem_of_app; right; by left). clear -Hrow. unfold column.
    induction Hrow as [|x row Hx _ IH]; [constructor|]. rewrite fmap_cons, filter_cons. cbn [snd]. destruct (decide (x = t)) as [->|]; [|done].
    assert (filter (λ p : nat * nat, p.2 = t) ((λ t, (length rows, t)) <$> row) = []) as ->; [|by repeat constructor].
    clear -Hx. induction row as [|y row IH]; [done|]. rewrite fmap_cons, filter_cons_False; [apply IH; set_solver|]. simpl. set_solver.
  - intros x y Hx%elem_of_column Hy%elem_of_column. apply elem_of_row_pairs in Hx as (r & Hr & _).
    apply list_elem_of_fmap in Hy as (t' & [= -> _] & _). by eapply lookup_lt_Some.
Qed.

(** Columns hold each pair once. *)
Lemma length_columns ps n : length (concat (column ps <$> seq 0 n)) = length (filter (λ p : nat * nat, p.2 < n) ps).
Proof.
  induction n as [|n IH].
  - induction ps as [|p ps IH]; [done|]. by rewrite filter_cons_False by lia.
  - rewrite seq_S, fmap_app, concat_app, length_app, IH, Nat.add_0_l. cbn [fmap list_fmap concat]. rewrite app_nil_r, length_column. clear IH.
    unfold occ. induction ps as [|[s t] ps IH]; [done|]. rewrite fmap_cons, !filter_cons. cbn [snd].
    destruct (decide (t = n)), (decide (t < n)), (decide (t < S n)); try lia; cbn [length]; lia.
Qed.

Lemma push_offsets_spec cols' : ∀ cols,
  foldM push_offset (row_offsets 0 cols) (length <$> cols') = Some (row_offsets 0 (cols ++ cols')).
Proof.
  induction cols' as [|col cols' IH]; intros cols; cbn [fmap list_fmap foldM]; [by rewrite app_nil_r|].
  assert (push_offset (row_offsets 0 cols) (length col) = Some (row_offsets 0 (cols ++ [col]))) as ->.
  { unfold push_offset. rewrite last_lookup, length_row_offsets. cbn [Nat.pred]. rewrite row_offsets_lookup, take_ge, Nat.add_0_l by lia.
    cbn [mbind option_bind]. by rewrite row_offsets_snoc. }
  cbn [mbind option_bind]. unfold fmap in IH. rewrite IH. by rewrite <- (assoc_L (++)).
Qed.

(** Row by row is pair by pair. *)
Lemma fold_rows {B} (g : B → nat * nat → res B) rows k : k <= length rows → ∀ b,
  foldM (λ b s, row ← csr_row (csr_of rows) s; foldM (λ b t, g b (s, t)) b row) b (seq 0 k) = foldM g b (row_pairs (take k rows)).
Proof.
  induction k as [|k IH]; intros Hk b; [done|]. destruct (lookup_lt_is_Some_2 rows k) as [row Hr]; [lia|].
  rewrite seq_S, Nat.add_0_l, foldM_app, IH by lia. rewrite (take_S_r _ _ _ Hr), row_pairs_snoc, foldM_app, length_take, Nat.min_l by lia.
  destruct (foldM g b (row_pairs (take k rows))) as [b1|]; [|done]. cbn [mbind option_bind foldM]. rewrite (csr_row_of _ _ _ Hr). cbn [mbind option_bind].
  clear. revert b1. induction row as [|t row IH]; intros b1; [done|]. rewrite fmap_cons. cbn [foldM]. destruct (g b1 (k, t)); [apply IH|done].
Qed.

Section transpose.
Context (rows : list (list nat)) (n : nat) (Hn : length rows = n) (Hr : ∀ row t, row ∈ rows → t ∈ row → t < n) (Hu : (N.of_nat n <= u32_max)%N).

Definition columns : list (list nat) := column (row_pairs rows) <$> seq 0 n.

Lemma pair_range s t : (s, t) ∈ row_pairs rows → s < n ∧ t < n.
Proof.
  intros (row & Hs & Ht)%elem_of_row_pairs. split; [rewrite <- Hn; by eapply lookup_lt_Some|]. apply (Hr row); [by eapply list_elem_of_lookup_2|done].
Qed.

Lemma columns_lookup t : t < n → columns !! t = Some (column (row_pairs rows) t).
Proof. intros Ht. unfold columns. rewrite list_lookup_fmap, lookup_seq_lt by done. done. Qed.

(** The first slot of a target. *)
Definition first_slot (t : nat) : nat := length (concat (take t columns)).

Lemma first_slot_succ t : t < n → first_slot (S t) = first_slot t + length (column (row_pairs rows) t).
Proof.
  intros Ht. unfold first_slot. rewrite (take_S_r _ _ _ (columns_lookup t Ht)), concat_app, length_app. cbn [concat]. by rewrite app_nil_r.
Qed.
Lemma first_slot_mono t t' : t <= t' → first_slot t <= first_slot t'.
Proof.
  intros Ht. unfold first_slot. replace t' with (t + (t' - t)) by lia. rewrite <- take_take_drop, concat_app, length_app. lia.
Qed.

Lemma first_slot_all : first_slot n = length (concat columns).
Proof. unfold first_slot. rewrite take_ge; [done|]. unfold columns. rewrite length_fmap, length_seq. lia. Qed.

Lemma slot_unique t i t' i' : t < n → t' < n → i < length (column (row_pairs rows) t) → i' < length (column (row_pairs rows) t') →
  first_slot t + i = first_slot t' + i' → t = t' ∧ i = i'.
Proof.
  intros Ht Ht' Hi Hi' E. destruct (Nat.lt_trichotomy t t') as [Hlt|[->|Hlt]]; [|lia|].
  - pose proof (first_slot_mono (S t) t' Hlt). rewrite first_slot_succ in H by done. lia.
  - pose proof (first_slot_mono (S t') t Hlt). rewrite first_slot_succ in H by done. lia.
Qed.

(** After the pairs [ps] are placed. *)
Record placed (ps : list (nat * nat)) (st : list nat * list nat) : Prop := {
  pl_next t : t < n → st.1 !! t = Some (first_slot t + length (column ps t));
  pl_length : length st.1 = n ∧ length st.2 = length (concat columns);
  pl_values t i x : t < n → column ps t !! i = Some x → st.2 !! (first_slot t + i) = Some x;
}.

Lemma place_spec' ps rest s t st : row_pairs rows = ps ++ (s, t) :: rest → placed ps st →
  ∃ st', place_source s st t = Some st' ∧ placed (ps ++ [(s, t)]) st'.
Proof.
  intros Hall [P1 [P2 P2'] P3]. assert ((s, t) ∈ row_pairs rows) as Hin by (rewrite Hall; apply elem_of_app; right; by left).
  destruct (pair_range s t Hin) as [Hs Ht]. unfold place_source, arr_set. rewrite (P1 t Ht). cbn [mbind option_bind].
  assert (∀ t', column (row_pairs rows) t' = column ps t' ++ (if decide (t = t') then [s] else []) ++ column rest t') as Hcol.
  { intros t'. rewrite Hall, column_app. f_equal. unfold column. rewrite filter_cons. cbn [snd]. by destruct (decide (t = t')). }
  assert (length (column ps t) < length (column (row_pairs rows) t)) as Hcap.
  { rewrite Hcol, decide_True by done. rewrite !length_app. simpl. lia. }
  assert (first_slot t + length (column ps t) < length (concat columns)) as Hslot.
  { pose proof (first_slot_mono (S t) n Ht) as H. rewrite first_slot_succ, first_slot_all in H by done. lia. }
  rewrite (proj2 (Nat.ltb_lt _ _)) by lia. cbn [mbind option_bind]. rewrite (proj2 (Nat.ltb_lt _ _)) by lia. cbn [mbind option_bind].
  eexists. split; [done|]. rewrite as_u32_small by lia. split; cbn [fst snd].
  - intros t' Ht'. rewrite column_snoc, length_app. destruct (decide (t = t')) as [<-|Hne].
    + rewrite list_lookup_insert_eq by lia. f_equal. simpl. lia.
    + rewrite list_lookup_insert_ne by done. rewrite P1 by done. f_equal. simpl. lia.
  - by rewrite !length_insert.
  - intros t' i x Ht' Hi. rewrite column_snoc in Hi. apply lookup_app_Some in Hi as [Hi|[Hge Hi]].
    + rewrite list_lookup_insert_ne; [by apply P3|]. intros E. apply lookup_lt_Some in Hi as Hlt.
      destruct (slot_unique t (length (column ps t)) t' i) as [<- <-]; [done|done|done| |done|lia].
      rewrite Hcol, length_app. lia.
    + destruct (decide (t = t')) as [<-|]; [|done]. apply list_lookup_singleton_Some in Hi as [Hi <-].
      replace i with (length (column ps t)) by lia. apply list_lookup_insert_eq. lia.
Qed.

Lemma place_all_spec rest : ∀ ps st, row_pairs rows = ps ++ rest → placed ps st →
  ∃ st', foldM (λ st p, place_source p.1 st p.2) st rest = Some st' ∧ placed (row_pairs rows) st'.
Proof.
  induction rest as [|[s t] rest IH]; intros ps st Hall Hp; cbn [foldM fst snd].
  - exists st. rewrite app_nil_r in Hall. by rewrite Hall.
  - destruct (place_spec' ps rest s t st Hall Hp) as (st1 & -> & H1). cbn [mbind option_bind]. apply (IH (ps ++ [(s, t)])); [|done].
    by rewrite <- (assoc_L (++)).
Qed.

(** Filled slots are the columns, one after the other. *)
Lemma slots_columns (values : list nat) (cols : list (list nat)) start : length values = start + length (concat cols) →
  (∀ t col i x, cols !! t = Some col → col !! i = Some x → values !! (start + length (concat (take t cols)) + i) = Some x) →
  drop start values = concat cols.
Proof.
  revert start. induction cols as [|col cols IH]; intros start Hl Hv.
  - apply nil_length_inv. rewrite length_drop, Hl. simpl. lia.
  - cbn [concat] in *. rewrite length_app in Hl. assert (drop (start + length col) values = concat cols) as Hd.
    { apply IH; [lia|]. intros t col' i x Ht Hi. rewrite <- (Hv (S t) col' i x Ht Hi). f_equal. cbn [take concat]. rewrite length_app. lia. }
    rewrite <- Hd, <- drop_drop. rewrite <- (take_drop (length col) (drop start values)) at 1. f_equal.
    apply list_eq_same_length with (length col); [done|rewrite length_take, length_drop; lia|].
    intros i x y Hi Hx Hy. rewrite lookup_take_lt, lookup_drop in Hx by done. pose proof (Hv 0 col i y eq_refl Hy) as Hxy.
    cbn [take concat length] in Hxy. rewrite Nat.add_0_r in Hxy. congruence.
Qed.

(** The columns, as compressed rows. *)
Lemma transpose_spec : transpose (csr_of rows) n = Some (csr_of columns).
Proof.
  unfold transpose. destruct (count_all_spec (concat rows) (replicate n 0)) as (counts & Ec & Hl & Hc).
  { intros t Ht. rewrite list_elem_of_In, in_concat in Ht. destruct Ht as (row & Hrow & Ht).
    rewrite length_replicate. by apply (Hr row); apply list_elem_of_In. }
  cbn [csr_of csr_values]. rewrite Ec. cbn [mbind option_bind]. rewrite length_replicate in Hl.
  assert (counts = length <$> columns) as ->.
  { apply list_eq_same_length with n; [unfold columns; by rewrite !length_fmap, length_seq|done|]. intros t x y Ht Hx Hy.
    rewrite (Hc t 0) in Hx by by apply lookup_replicate_2. rewrite list_lookup_fmap, columns_lookup in Hy by done. simpl in Hx, Hy.
    injection Hx as <-. injection Hy as <-. by rewrite length_column, row_pairs_targets. }
  change [0] with (row_offsets 0 []) at 1. rewrite push_offsets_spec. cbn [app mbind option_bind].
  assert (length columns = n) as Hcl by (unfold columns; by rewrite length_fmap, length_seq).
  unfold slice. rewrite length_row_offsets, Hcl. rewrite (proj2 (Nat.leb_le n (S n))) by lia. cbn [Nat.leb andb massert mbind option_bind].
  rewrite drop_0, Nat.sub_0_r.
  assert (length (concat rows) = length (concat columns)) as Htotal.
  { unfold columns. rewrite length_columns, <- row_pairs_targets, length_fmap. symmetry. f_equal.
    assert (∀ ps : list (nat * nat), (∀ p, p ∈ ps → p.2 < n) → filter (λ p : nat * nat, p.2 < n) ps = ps) as Hall.
    { induction ps as [|p ps IH]; intros Hp; [done|]. rewrite filter_cons_True by (apply Hp; by left). f_equal. apply IH. intros q Hq. apply Hp. by right. }
    apply Hall. intros [s t] Hp. by apply (pair_range s t). }
  pose proof (fold_rows (λ st p, place_source p.1 st p.2) rows n) as Hfold. rewrite Hn in Hfold. cbn [fst snd] in Hfold.
  rewrite (Hfold (Nat.le_refl n)), (take_ge rows n) by lia.
  destruct (place_all_spec (row_pairs rows) [] (take n (row_offsets 0 columns), replicate (length (concat rows)) 0)) as ([next values] & -> & [_ [_ P2] P3]).
  - done.
  - split; cbn [fst snd].
    + intros t Ht. rewrite lookup_take_lt, row_offsets_lookup by lia. unfold column. simpl. f_equal. unfold first_slot. lia.
    + split; [rewrite length_take, length_row_offsets; lia|]. by rewrite length_replicate.
    + intros t i x _ Hi. done.
  - cbn [mbind option_bind fst snd] in *. unfold csr_of. do 2 f_equal. rewrite <- (drop_0 values). apply slots_columns; [done|].
    intros t col i x Ht Hi. assert (t < n) as Htn by (rewrite <- Hcl; by eapply lookup_lt_Some).
    rewrite columns_lookup in Ht by done. injection Ht as <-. by apply P3.
Qed.
End transpose.
