(* ===== verification/PathIndexSpec.v ===== *)
(** * PathIndexSpec: what a path index holds

    [from_summary] fails when ordinals do not fit, and otherwise gives the
    relation of the vertices joined by an accepted walk, by rows, by columns
    and by its domains. *)

From S2P Require Import Prelude Lex BTree Trible PathExpr PathLanguage PathCompile PathSummary PathIndex PathScc PathOrder PathRelation PathRows.

Open Scope nat_scope.

(** The relation of a summary. *)
Definition accepted (S : PathSummary) (x y : list N) : Prop := x ∈ vertices S ∧ y ∈ vertices S ∧ walks_to S x y.

(** The vertices that get a row of bits. *)
Definition carrier (S : PathSummary) : list (list N) := if accepts_empty (automaton S) then active_vertices S else vertices S.

Record index_ok (ix : PathIndex) : Prop := {
  io_summary : summary_ok (ix_summary ix);
  io_count : (N.of_nat (vertex_count ix) <= u32_max)%N;
  io_forward s x : vertices (ix_summary ix) !! s = Some x → ∃ row, csr_row (forward ix) s = Some row ∧ ascending Nat.compare row ∧
    ∀ t, t ∈ row ↔ ∃ y, vertices (ix_summary ix) !! t = Some y ∧ accepted (ix_summary ix) x y;
  io_reversed t y : vertices (ix_summary ix) !! t = Some y → ∃ col, csr_row (reversed ix) t = Some col ∧ ascending Nat.compare col ∧
    ∀ s, s ∈ col ↔ ∃ x, vertices (ix_summary ix) !! s = Some x ∧ accepted (ix_summary ix) x y;
  io_starts : ascending Nat.compare (starts ix) ∧
    ∀ s, s ∈ starts ix ↔ ∃ x, vertices (ix_summary ix) !! s = Some x ∧ ∃ y, accepted (ix_summary ix) x y;
  io_ends : ascending Nat.compare (ends ix) ∧
    ∀ t, t ∈ ends ix ↔ ∃ y, vertices (ix_summary ix) !! t = Some y ∧ ∃ x, accepted (ix_summary ix) x y;
  io_diagonal : ascending Nat.compare (diagonal ix) ∧
    ∀ s, s ∈ diagonal ix ↔ ∃ x, vertices (ix_summary ix) !! s = Some x ∧ accepted (ix_summary ix) x x;
  io_pairs : accepted_pair_count ix = 0 ↔ ∀ x y, ¬ accepted (ix_summary ix) x y;
  io_rows : ∃ rows, forward ix = csr_of rows ∧ length rows = vertex_count ix;
}.

(** ** Walks and vertices *)

Lemma accepts_empty_spec A : accepts_empty A = true ↔ ∃ q, q ∈ initial A ∧ q ∈ accepting A.
Proof.
  unfold accepts_empty, is_accepting. rewrite existsb_exists. setoid_rewrite <- list_elem_of_In. by setoid_rewrite bool_decide_eq_true.
Qed.

(** A walk stays where it is, or both its ends are active. *)
Lemma walk_ends S x y : walks_to S x y → (x = y ∧ accepts_empty (automaton S) = true) ∨ arc_ends (arcs S) x ∧ arc_ends (arcs S) y.
Proof.
  intros (q & f & Hq & Hf & Hr). destruct (rtc_inv _ _ Hr) as [E|(z & Hz & _)].
  - injection E as -> ->. left. split; [done|]. apply accepts_empty_spec. by exists f.
  - right. split; [exists (mkArc (mkNode x q) z); split; [done|by left]|].
    destruct (rtc_inv_r _ _ Hr) as [E|(z' & _ & Hz')].
    + injection E as -> ->. exists (mkArc (mkNode y f) z). split; [done|by left].
    + exists (mkArc z' (mkNode y f)). split; [done|by right].
Qed.

Lemma carrier_spec S : summary_ok S → ascending lex_cmp (carrier S) ∧ (∀ x, x ∈ carrier S → x ∈ vertices S) ∧
  (∀ x, arc_ends (arcs S) x → x ∈ carrier S) ∧ (accepts_empty (automaton S) = false → carrier S = vertices S).
Proof.
  intros HS. unfold carrier. destruct (accepts_empty (automaton S)).
  - split_and!; [apply active_ascending|intros x Hx%elem_of_active; by apply (sk_ends S HS)|intros x Hx; by apply elem_of_active|done].
  - split_and!; [apply HS|done|apply HS|done].
Qed.

(** ** Small loops *)

Lemma filter_res_spec {A} (p : A → res bool) (b : A → bool) l : (∀ x, x ∈ l → p x = Some (b x)) →
  filter_res p l = Some (filter (λ x, b x = true) l).
Proof.
  induction l as [|x l IH]; intros Hl; [done|]. cbn [filter_res]. rewrite Hl by by left. cbn [mbind option_bind].
  rewrite IH by (intros y Hy; apply Hl; by right). cbn [mbind option_bind]. rewrite filter_cons. destruct (decide (b x = true)) as [->|Hb]; [done|].
  by apply not_true_is_false in Hb as ->.
Qed.

Lemma seq_ascending n k : ascending Nat.compare (seq n k).
Proof.
  revert n. induction k as [|k IH]; intros n; [constructor|]. cbn [seq]. constructor; [done|]. apply Forall_forall.
  intros x Hx%elem_of_seq. apply Nat.compare_lt_iff. lia.
Qed.

Lemma filter_ascending (P : nat → Prop) `{!∀ x, Decision (P x)} l : ascending Nat.compare l → ascending Nat.compare (filter P l).
Proof.
  induction 1 as [|x l Hl IH Hx]; [constructor|]. rewrite filter_cons. case_decide; [|exact IH]. constructor; [exact IH|].
  apply Forall_forall. intros y [_ Hy]%list_elem_of_filter. rewrite Forall_forall in Hx. by apply Hx.
Qed.

Lemma as_u32_all (l : list nat) n : (∀ x, x ∈ l → x < n) → (N.of_nat n <= u32_max)%N → as_u32 <$> l = l.
Proof.
  intros Hl Hn. rewrite <- (list_fmap_id l) at 2. apply list_fmap_ext. intros i x Hx. simpl. apply as_u32_small.
  apply list_elem_of_lookup_2, Hl in Hx. lia.
Qed.

(** The ordinals a test keeps. *)
Lemma keep_ordinals (p : nat → res bool) (b : nat → bool) n : (N.of_nat n <= u32_max)%N → (∀ x, x < n → p x = Some (b x)) →
  ∃ l, filter_res p (seq 0 n) = Some l ∧ as_u32 <$> l = l ∧ ascending Nat.compare l ∧ ∀ x, x ∈ l ↔ x < n ∧ b x = true.
Proof.
  intros Hn Hp. exists (filter (λ x, b x = true) (seq 0 n)).
  assert (∀ x, x ∈ filter (λ x, b x = true) (seq 0 n) ↔ x < n ∧ b x = true) as Hin.
  { intros x. rewrite list_elem_of_filter, elem_of_seq. split; [intros [? ?]; split; [lia|done]|]. intros [? ?]. split; [done|lia]. }
  split_and!.
  - apply filter_res_spec. intros x Hx%elem_of_seq. apply Hp. lia.
  - apply (as_u32_all _ n); [|done]. by intros x [? _]%Hin.
  - apply filter_ascending, seq_ascending.
  - done.
Qed.

Lemma found_in_spec l x : ascending Nat.compare l → (N.of_nat x <= u32_max)%N → found_in l x = Some (bool_decide (x ∈ l)).
Proof.
  intros Hl Hx. unfold found_in. rewrite as_u32_small by done. destruct (path_search_spec Nat.compare l x Hl) as (o & -> & Ho).
  cbn [mbind option_bind]. f_equal. symmetry. destruct o as [i|]; [|by apply bool_decide_eq_false].
  apply bool_decide_eq_true. by eapply list_elem_of_lookup_2.
Qed.

Lemma row_nonempty_spec rows s row : rows !! s = Some row → row_nonempty (csr_of rows) s = Some (bool_decide (row ≠ [])).
Proof. intros Hr. unfold row_nonempty. rewrite (csr_row_of _ _ _ Hr). cbn [mbind option_bind]. by destruct row. Qed.

Lemma nonempty_elem (l : list nat) : l ≠ [] ↔ ∃ x, x ∈ l.
Proof. split; [destruct l as [|x l]; [done|exists x; by left]|]. intros (x & Hx) ->. by apply elem_of_nil in Hx. Qed.

(** Rows of ordinals are short. *)
Lemma row_length (row : list nat) n : NoDup row → (∀ x, x ∈ row → x < n) → length row <= n.
Proof. intros Hd Hx. rewrite <- (length_seq n 0). apply NoDup_incl_length; [by apply NoDup_ListNoDup|]. intros x Hin. apply in_seq. apply list_elem_of_In, Hx in Hin. lia. Qed.

Lemma concat_length (rows : list (list nat)) n : (∀ row, row ∈ rows → length row <= n) → length (concat rows) <= length rows * n.
Proof.
  induction rows as [|row rows IH]; intros Hr; [done|]. cbn [concat length]. rewrite length_app.
  pose proof (Hr row (list_elem_of_here _ _)). specialize (IH (λ r H, Hr r (list_elem_of_further _ _ _ H))). lia.
Qed.

(** ** The result of building *)

(** The failures of [from_summary], in the order the code finds them. *)
Definition index_error (S : PathSummary) : option PathError :=
  if (u32_max <? N.of_nat (length (vertices S)))%N then Some (TooManyVertices (length (vertices S))) else
  let product := (N.of_nat (length (carrier S)) * N.of_nat (state_count (automaton S)))%N in
  if (usize_max <? product)%N then Some CapacityOverflow else
  if (u32_max <? product)%N then Some (ProductCarrierTooLarge (length (carrier S)) (state_count (automaton S))) else None.

Lemma carrier_length S : summary_ok S → length (carrier S) <= length (vertices S).
Proof.
  intros HS. destruct (carrier_spec S HS) as (Ha & Hi & _). pose proof (ascending_NoDup lex_cmp _ Ha) as Hnd.
  apply NoDup_incl_length; [by apply NoDup_ListNoDup|]. intros x Hx. apply list_elem_of_In, Hi. by apply list_elem_of_In.
Qed.

(** The rows over all vertices. *)
Lemma relation_rows S rows : summary_ok S → (N.of_nat (length (vertices S)) <= u32_max)%N → length rows = length (carrier S) →
  (∀ s x row, carrier S !! s = Some x → rows !! s = Some row → ascending Nat.compare row ∧
      ∀ t, t ∈ row ↔ ∃ y, carrier S !! t = Some y ∧ walks_to S x y) →
  ∃ rows', expand_relation (vertices S) (carrier S) (csr_of rows) (accepts_empty (automaton S)) = Some (inr (csr_of rows')) ∧
    length rows' = length (vertices S) ∧
    ∀ s x row, vertices S !! s = Some x → rows' !! s = Some row → ascending Nat.compare row ∧
      ∀ t, t ∈ row ↔ ∃ y, vertices S !! t = Some y ∧ accepted S x y.
Proof.
  intros HS Hn Hl Hrows. destruct (carrier_spec S HS) as (Hca & Hci & Hce & Hcn). pose proof (carrier_length S HS) as Hcl.
  assert (∀ row, row ∈ rows → ascending Nat.compare row ∧ ∀ i, i ∈ row → i < length (carrier S)) as Hr.
  { intros row Hin. apply list_elem_of_lookup in Hin as [s Hs]. destruct (lookup_lt_is_Some_2 (carrier S) s) as [x Hx].
    { rewrite <- Hl. by eapply lookup_lt_Some. }
    destruct (Hrows s x row Hx Hs) as [Ha Hin]. split; [done|]. intros i (y & Hy & _)%Hin. by eapply lookup_lt_Some. }
  destruct (expand_relation_spec (vertices S) (carrier S) rows (accepts_empty (automaton S))) as (rows' & E & Hl' & H); [apply HS|done..| |].
  { assert (length (concat rows) <= length (carrier S) * length (carrier S)) as Hc.
    { rewrite <- Hl at 1. apply concat_length. intros row Hin. destruct (Hr row Hin) as [Ha Hlt].
      apply row_length; [by eapply (ascending_NoDup Nat.compare)|done]. }
    unfold u32_max, usize_max in *. assert (N.of_nat (length (carrier S)) <= 2 ^ 32 - 1)%N by lia. nia. }
  exists rows'. split_and!; [done..|]. intros s x row Hx Hrow. destruct (H s x row Hx Hrow) as [Ha Hin]. split; [done|]. intros t. rewrite Hin. split.
  - intros [(Hn' & Hne & ->)|(y & s' & t' & r & Hy & Hs' & Ht' & Hr' & Htr)].
    + exists x. split; [done|]. split_and!; [by eapply list_elem_of_lookup_2..|]. apply accepts_empty_spec in Hn' as (q & Hq & Hf).
      by exists q, q.
    + exists y. split; [done|]. split_and!; [by eapply list_elem_of_lookup_2..|]. destruct (Hrows s' x r Hs' Hr') as [_ Hiff].
      apply Hiff in Htr as (y' & Hy' & Hw). rewrite Ht' in Hy'. by injection Hy' as <-.
  - intros (y & Hy & _ & _ & Hw).
    assert (x ∈ carrier S → y ∈ carrier S → ∃ y s' t' row, vertices S !! t = Some y ∧ carrier S !! s' = Some x ∧ carrier S !! t' = Some y ∧
      rows !! s' = Some row ∧ t' ∈ row) as Hright.
    { intros (s' & Hs')%list_elem_of_lookup (t' & Ht')%list_elem_of_lookup. destruct (lookup_lt_is_Some_2 rows s') as [r Hr'].
      { rewrite Hl. by eapply lookup_lt_Some. }
      exists y, s', t', r. split_and!; [done..|]. apply (Hrows s' x r Hs' Hr'). by exists y. }
    destruct (walk_ends S x y Hw) as [[<- Hn']|[Hex Hey]]; [|right; apply Hright; by apply Hce].
    assert (t = s) as -> by (eapply (NoDup_lookup (vertices S)); [eapply (ascending_NoDup lex_cmp), HS|done..]).
    destruct (decide (vertices S = carrier S)) as [E'|Hne]; [|by left]. right. rewrite E' in Hx. apply list_elem_of_lookup_2 in Hx. by apply Hright.
Qed.

(** Rows by ordinal, as the parts of an index read them. *)
Section built.
Context (S : PathSummary) (rows : list (list nat)).
Let vs := vertices S.
Let n := length vs.
Context (HS : summary_ok S) (Hn : (N.of_nat n <= u32_max)%N) (Hl : length rows = n).
Context (Hrows : ∀ s x row, vs !! s = Some x → rows !! s = Some row → ascending Nat.compare row ∧
  ∀ t, t ∈ row ↔ ∃ y, vs !! t = Some y ∧ accepted S x y).

Lemma built_row s x : vs !! s = Some x → ∃ row, rows !! s = Some row ∧ ascending Nat.compare row ∧ ∀ t, t ∈ row ↔ ∃ y, vs !! t = Some y ∧ accepted S x y.
Proof.
  intros Hx. destruct (lookup_lt_is_Some_2 rows s) as [row Hr]; [rewrite Hl; by eapply lookup_lt_Some|]. exists row. split; [done|].
  by apply (Hrows s x).
Qed.

Lemma built_vertex s row : rows !! s = Some row → ∃ x, vs !! s = Some x.
Proof. intros Hr. apply lookup_lt_is_Some_2. fold n. rewrite <- Hl. by eapply lookup_lt_Some. Qed.

Lemma built_targets row t : row ∈ rows → NoDup row ∧ (t ∈ row → t < n).
Proof.
  intros Hin. apply list_elem_of_lookup in Hin as [s Hs]. destruct (built_vertex s row Hs) as [x Hx]. destruct (Hrows s x row Hx Hs) as [Ha Hin].
  split; [by eapply (ascending_NoDup Nat.compare)|]. intros (y & Hy & _)%Hin. by eapply lookup_lt_Some.
Qed.

Lemma built_column t y : vs !! t = Some y → ascending Nat.compare (column (row_pairs rows) t) ∧
  ∀ s, s ∈ column (row_pairs rows) t ↔ ∃ x, vs !! s = Some x ∧ accepted S x y.
Proof.
  intros Hy. split; [apply column_ascending; intros row Hr; by apply (built_targets row 0)|]. intros s. rewrite elem_of_column, elem_of_row_pairs. split.
  - intros (row & Hs & Ht). destruct (built_vertex s row Hs) as [x Hx]. exists x. split; [done|]. destruct (proj1 (proj2 (Hrows s x row Hx Hs) t) Ht) as (y' & Hy' & Ha).
    rewrite Hy in Hy'. by injection Hy' as <-.
  - intros (x & Hx & Ha). destruct (built_row s x Hx) as (row & Hr & _ & Hin). exists row. split; [done|]. apply Hin. by exists y.
Qed.

(** The ordinals of the rows, or columns, that are not empty. *)
Lemma domain_spec (l : list (list nat)) (R : list N → list N → Prop) : length l = n →
  (∀ s x, vs !! s = Some x → ∃ row, l !! s = Some row ∧ ∀ t, t ∈ row ↔ ∃ y, vs !! t = Some y ∧ R x y) → (∀ x y, R x y → y ∈ vs) →
  ∃ o, filter_res (row_nonempty (csr_of l)) (seq 0 n) = Some o ∧ as_u32 <$> o = o ∧ ascending Nat.compare o ∧
    ∀ s, s ∈ o ↔ ∃ x, vs !! s = Some x ∧ ∃ y, R x y.
Proof.
  intros Hll Hrow HR. destruct (keep_ordinals (row_nonempty (csr_of l)) (λ s, bool_decide (default [] (l !! s) ≠ [])) n Hn) as (o & E & H1 & H2 & H3).
  - intros s Hs. destruct (lookup_lt_is_Some_2 l s) as [row Hr]; [lia|]. rewrite Hr. by apply row_nonempty_spec.
  - exists o. split_and!; [done..|]. intros s. rewrite H3, bool_decide_eq_true. split.
    + intros [Hs Hne]. destruct (lookup_lt_is_Some_2 vs s Hs) as [x Hx]. exists x. split; [done|]. destruct (Hrow s x Hx) as (row & Hr & Hin).
      rewrite Hr in Hne. destruct (proj1 (nonempty_elem _) Hne) as (t & Ht). destruct (proj1 (Hin t) Ht) as (y & _ & ?). by exists y.
    + intros (x & Hx & y & Hy). split; [by eapply lookup_lt_Some|]. destruct (Hrow s x Hx) as (row & Hr & Hin). rewrite Hr. apply nonempty_elem.
      destruct (proj1 (list_elem_of_lookup _ _) (HR x y Hy)) as [t Ht]. exists t. apply Hin. by exists y.
Qed.

Lemma diagonal_spec : ∃ o, filter_res (λ source, row ← csr_row (csr_of rows) source; found_in row source) (seq 0 n) = Some o ∧
  as_u32 <$> o = o ∧ ascending Nat.compare o ∧ ∀ s, s ∈ o ↔ ∃ x, vs !! s = Some x ∧ accepted S x x.
Proof.
  destruct (keep_ordinals (λ source, row ← csr_row (csr_of rows) source; found_in row source) (λ s, bool_decide (s ∈ default [] (rows !! s))) n Hn)
    as (o & E & H1 & H2 & H3).
  - intros s Hs. destruct (lookup_lt_is_Some_2 vs s Hs) as [x Hx]. destruct (built_row s x Hx) as (row & Hr & Ha & _).
    rewrite (csr_row_of _ _ _ Hr), Hr. cbn [mbind option_bind]. apply found_in_spec; [done|lia].
  - exists o. split_and!; [done..|]. intros s. rewrite H3, bool_decide_eq_true. split.
    + intros [Hs Hin]. destruct (lookup_lt_is_Some_2 vs s Hs) as [x Hx]. exists x. split; [done|]. destruct (built_row s x Hx) as (row & Hr & _ & Hiff).
      rewrite Hr in Hin. destruct (proj1 (Hiff s) Hin) as (y & Hy & ?). rewrite Hx in Hy. by injection Hy as <-.
    + intros (x & Hx & Ha). split; [by eapply lookup_lt_Some|]. destruct (built_row s x Hx) as (row & Hr & _ & Hiff). rewrite Hr. apply Hiff. by exists x.
Qed.

Lemma built_ok : ∃ starts diagonal reversed ends,
  filter_res (row_nonempty (csr_of rows)) (seq 0 n) = Some starts ∧
  filter_res (λ source, row ← csr_row (csr_of rows) source; found_in row source) (seq 0 n) = Some diagonal ∧
  transpose (csr_of rows) n = Some reversed ∧ filter_res (row_nonempty reversed) (seq 0 n) = Some ends ∧
  index_ok (mkIndex S (csr_of rows) reversed (as_u32 <$> starts) (as_u32 <$> ends) (as_u32 <$> diagonal)).
Proof.
  assert (∀ t, t < n → columns rows n !! t = Some (column (row_pairs rows) t)) as Hcols by (intros t Ht; by apply columns_lookup).
  destruct (domain_spec rows (accepted S) Hl) as (starts & Es & Es' & Hs).
  { intros s x Hx. destruct (built_row s x Hx) as (row & ? & _ & ?). by exists row. }
  { by intros x y (_ & ? & _). }
  destruct (domain_spec (columns rows n) (λ y x, accepted S x y)) as (ends & Ee & Ee' & He).
  { unfold columns. by rewrite length_fmap, length_seq. }
  { intros t y Hy. exists (column (row_pairs rows) t). rewrite Hcols by by eapply lookup_lt_Some. split; [done|]. by apply built_column. }
  { by intros x y (? & _ & _). }
  destruct diagonal_spec as (diag & Ed & Ed' & Hd). exists starts, diag, (csr_of (columns rows n)), ends.
  assert (transpose (csr_of rows) n = Some (csr_of (columns rows n))) as Et.
  { apply transpose_spec; [done| |done]. intros row t Hr. by apply (built_targets row t). }
  split_and!; [done..|]. rewrite Es', Ee', Ed'. split; cbn [ix_summary forward reversed PathIndex.starts PathIndex.ends diagonal]; [done|done| | |done|done|done| |by exists rows].
  - intros s x Hx. destruct (built_row s x Hx) as (row & Hr & ? & ?). exists row. split_and!; [by apply csr_row_of|done..].
  - intros t y Hy. exists (column (row_pairs rows) t). split; [apply csr_row_of, Hcols; by eapply lookup_lt_Some|]. by apply built_column.
  - unfold accepted_pair_count. cbn [forward csr_of csr_values]. split.
    + intros E x y Ha. destruct Ha as (Hx & Hy & Hw). apply list_elem_of_lookup in Hx as [s Hx]. apply list_elem_of_lookup in Hy as [t Hy].
      destruct (built_row s x Hx) as (row & Hr & _ & Hiff). apply length_zero_iff_nil in E. assert (t ∈ concat rows) as Hin.
      { apply list_elem_of_In, in_concat. exists row. split; apply list_elem_of_In; [by eapply list_elem_of_lookup_2|]. apply Hiff. exists y.
        split; [done|]. split_and!; [by eapply list_elem_of_lookup_2..|done]. }
      rewrite E in Hin. by apply elem_of_nil in Hin.
    + intros Hno. destruct (concat rows) as [|t l] eqn:E; [done|]. exfalso. assert (In t (concat rows)) as Hin by (rewrite E; by left).
      destruct (proj1 (in_concat _ _) Hin) as (row & Hr & Ht). apply list_elem_of_In in Hr, Ht.
      destruct (proj1 (list_elem_of_lookup _ _) Hr) as [s Hrs].
      destruct (built_vertex s row Hrs) as [x Hx]. destruct (proj1 (proj2 (Hrows s x row Hx Hrs) t) Ht) as (y & _ & Ha). by apply (Hno x y).
Qed.
End built.

(** Building fails for the first reason that holds, and otherwise gives the
    relation. *)
Lemma from_summary_spec S : summary_ok S → ∃ r, from_summary S = Some r ∧
  match r with
  | inl error => index_error S = Some error
  | inr ix => index_error S = None ∧ ix_summary ix = S ∧ index_ok ix
  end.
Proof.
  intros HS. unfold from_summary, index_error. fold (carrier S). destruct (N.ltb_spec u32_max (N.of_nat (length (vertices S)))) as [|Hn]; [by eexists|].
  unfold usize_add at 1. rewrite (proj2 (N.leb_le _ _)) by (unfold u32_max, usize_max in *; lia).
  destruct (carrier_spec S HS) as (Hca & Hci & Hce & Hcn). pose proof (carrier_length S HS) as Hcl.
  set (m := state_count (automaton S)).
  destruct (N.ltb_spec usize_max (N.of_nat (length (carrier S)) * N.of_nat m)) as [Hbig|Hus].
  { exists (inl CapacityOverflow). split; [|done]. unfold materialize_active_relation, usize_mul at 1. fold m. rewrite (proj2 (N.leb_gt _ _)) by done.
    by destruct (usize_add _ _). }
  destruct (N.ltb_spec u32_max (N.of_nat (length (carrier S)) * N.of_nat m)) as [Hbig|Hfit].
  { exists (inl (ProductCarrierTooLarge (length (carrier S)) m)). split; [|done]. unfold materialize_active_relation, usize_mul at 1, usize_add. fold m.
    rewrite (proj2 (N.leb_le _ _)) by (unfold u32_max, usize_max in *; lia). rewrite (proj2 (N.leb_le _ _)) by done.
    rewrite (proj2 (N.ltb_lt _ _)) by lia. done. }
  destruct (materialize_spec S (carrier S) HS Hca Hce) as (rows & -> & Hl & Hrows); [fold m; lia|]. cbn [mbind option_bind].
  destruct (relation_rows S rows HS Hn Hl Hrows) as (rows' & -> & Hl' & Hrows'). cbn [mbind option_bind].
  destruct (built_ok S rows' HS Hn Hl' Hrows') as (starts & diag & rv & ends & -> & -> & -> & E & Hok). cbn [mbind option_bind]. rewrite E.
  eexists. split; [done|]. by split_and!.
Qed.
