(* ===== verification/PathSpec.v ===== *)
(** * PathSpec: what path queries answer

    An index over the edges of a graph joins two vertices exactly if some path
    between them spells a word of the automaton, or of the expression it was
    compiled from. *)

From S2P Require Import Prelude Lex BTree Trible PathExpr PathLanguage PathCompile PathCanonical PathSummary PathIndex PathRelation PathIndexSpec.

Open Scope nat_scope.

Implicit Types (edges : list GraphEdge) (w : list (bool * list N)).

(** ** Paths of a graph *)

(** One edge, forwards or backwards. *)
Definition hop edges (x : list N) (tok : bool * list N) (y : list N) : Prop :=
  if tok.1 then mkEdge y tok.2 x ∈ edges else mkEdge x tok.2 y ∈ edges.

Inductive path edges : list N → list (bool * list N) → list N → Prop :=
  | path_nil x : path edges x [] x
  | path_cons x tok y w z : hop edges x tok y → path edges y w z → path edges x (tok :: w) z.

Lemma step_direction s tok : step_lang s tok → is_reverse s = tok.1.
Proof. destruct s, tok; simpl; naive_solver. Qed.

Lemma arc_step_hop A edges S x q z r : summary_of A edges S →
  arc_step S (mkNode x q) (mkNode z r) ↔ ∃ t tok, t ∈ transitions A ∧ tr_from t = q ∧ tr_to t = r ∧ step_lang (tr_step t) tok ∧ hop edges x tok z.
Proof.
  intros HS. unfold arc_step. rewrite (so_arc _ _ _ HS). unfold passes, edge_arc, edge_ends, hop. split.
  - intros (t & [a b c] & Ht & He & Hp & E). exists t, (is_reverse (tr_step t), b). cbn [ge_attribute fst snd] in *.
    destruct (is_reverse (tr_step t)); injection E as -> -> -> ->; by split_and!.
  - intros (t & [rv b] & Ht & <- & <- & Hs & Hh). pose proof (step_direction _ _ Hs) as Hd. cbn [fst snd] in *.
    destruct rv; [exists t, (mkEdge z b x)|exists t, (mkEdge x b z)]; cbn [ge_attribute]; rewrite ?Hd; by split_and!.
Qed.

Lemma walk_path A edges S x q y f : summary_of A edges S →
  rtc (arc_step S) (mkNode x q) (mkNode y f) ↔ ∃ w, run A q w f ∧ path edges x w y.
Proof.
  intros HS. split.
  - intros Hr. remember (mkNode x q) as a eqn:Ea. remember (mkNode y f) as b eqn:Eb. revert x q Ea.
    induction Hr as [a|a [z r] b Hstep _ IH]; intros x q Ea; subst.
    + injection Ea as -> ->. exists []. split; constructor.
    + destruct (IH eq_refl z r eq_refl) as (w & Hrun & Hpath). apply (arc_step_hop A edges S) in Hstep as (t & tok & Ht & <- & <- & Hs & Hh); [|done].
      exists (tok :: w). split; [by constructor|by econstructor].
  - intros (w & Hrun & Hpath). revert x Hpath. induction Hrun as [q|t tok w f Ht Hs _ IH]; intros x Hpath.
    + inversion Hpath. constructor.
    + inversion Hpath as [|? ? z ? ? Hh Hp]; subst. eapply rtc_l; [|by apply IH]. apply (arc_step_hop A edges S); [done|].
      by exists t, tok.
Qed.

(** The relation of a summary, by paths. *)
Lemma accepted_path A edges S x y : automaton_ok A → summary_of A edges S →
  accepted S x y ↔ ∃ w, automaton_lang A w ∧ path edges x w y ∧ (w = [] → edges_touch edges x).
Proof.
  intros HA HS. pose proof (summary_of_ok A edges S HA HS) as Hok. pose proof (so_automaton _ _ _ HS) as EA.
  assert (∀ x, arc_ends (arcs S) x → edges_touch edges x) as Htouch.
  { intros x' (arc & Ha & Hx). apply (so_arc _ _ _ HS) in Ha as (t & edge & _ & He & _ & ->). exists edge. split; [done|].
    unfold edge_arc, edge_ends in Hx. destruct (is_reverse (tr_step t)); simpl in Hx; tauto. }
  unfold accepted, walks_to. rewrite EA. split.
  - intros (Hx & Hy & q & f & Hq & Hf & Hr). apply (walk_path A edges S) in Hr as (w & Hrun & Hpath); [|done]. exists w.
    split_and!; [by exists q, f|done|]. intros _. apply (so_vertex _ _ _ HS) in Hx as [[_ ?]|?]; [done|by apply Htouch].
  - intros (w & (q & f & Hq & Hrun & Hf) & Hpath & Ht).
    assert (rtc (arc_step S) (mkNode x q) (mkNode y f)) as Hr by (apply (walk_path A edges S); [done|by exists w]).
    assert (walks_to S x y) as Hw by (unfold walks_to; rewrite EA; by exists q, f).
    assert (x ∈ vertices S) as Hx.
    { inversion Hpath as [|? tok z w' ? Hh Hp]; subst.
      - apply (so_vertex _ _ _ HS). left. split; [|by apply Ht]. inversion Hrun; subst. apply accepts_empty_spec. by exists f.
      - apply (sk_ends S Hok). inversion Hrun; subst. exists (mkArc (mkNode x (tr_from t)) (mkNode z (tr_to t))). split; [|by left].
        apply (arc_step_hop _ edges S x _ z _ HS). by exists t, tok. }
    split_and!; [done| |by exists q, f]. destruct (walk_ends S x y Hw) as [[<- _]|[_ Hy]]; [done|by apply (sk_ends S Hok)].
Qed.

(** ** Reading an index *)

Section reading.
Context (ix : PathIndex) (Hix : index_ok ix).
Let vs := vertices (ix_summary ix).
Let S := ix_summary ix.

Lemma vs_ascending : ascending lex_cmp vs.
Proof. apply (sk_vertices _ (io_summary _ Hix)). Qed.

Lemma vertex_ordinal_spec x : ∃ o, vertex_ordinal ix x = Some o ∧ match o with Some i => vs !! i = Some x | None => x ∉ vs end.
Proof. apply path_search_spec; [apply _|apply vs_ascending]. Qed.

Lemma index_contains_spec x y : ∃ b, contains ix x y = Some b ∧ (b = true ↔ accepted S x y).
Proof.
  unfold contains. destruct (vertex_ordinal_spec x) as (ox & -> & Hox). destruct (vertex_ordinal_spec y) as (oy & -> & Hoy).
  cbn [mbind option_bind]. destruct ox as [s|]; [|exists false; split; [done|]; split; [done|intros [? _]; done]].
  destruct oy as [t|]; [|exists false; split; [done|]; split; [done|intros (_ & ? & _); done]].
  destruct (io_forward _ Hix s x Hox) as (row & -> & Ha & Hin). cbn [mbind option_bind].
  rewrite found_in_spec; [|done|]; last first.
  { pose proof (io_count _ Hix) as Hc. unfold vertex_count in Hc. apply lookup_lt_Some in Hoy. unfold vs in Hoy. lia. }
  eexists. split; [done|]. rewrite bool_decide_eq_true, Hin. split; [|intros H; by exists y]. intros (y' & Hy' & H). fold vs in Hy'. rewrite Hoy in Hy'.
  by injection Hy' as <-.
Qed.

(** Ordinals in order are vertices in order. *)
Lemma index_values_spec ordinals : ascending Nat.compare ordinals → (∀ s, s ∈ ordinals → s < length vs) →
  ∃ l, index_values ix ordinals = Some l ∧ length l = length ordinals ∧ ascending lex_cmp l ∧ ∀ x, x ∈ l ↔ ∃ s, s ∈ ordinals ∧ vs !! s = Some x.
Proof.
  intros Ha Hs. unfold index_values. fold vs. assert (∀ s, s ∈ ordinals → vs !! s = Some (default [] (vs !! s))) as Hv.
  { intros s Hin. by destruct (lookup_lt_is_Some_2 vs s (Hs s Hin)) as [x ->]. }
  rewrite (mapM_total _ (λ s, default [] (vs !! s)) ordinals Hv). eexists. split; [done|]. split_and!.
  - by rewrite length_fmap.
  - revert Hs Hv. induction Ha as [|s l _ IH Hsl]; intros Hs Hv; [constructor|]. rewrite fmap_cons. constructor.
    + apply IH; intros t Ht; [apply Hs|apply Hv]; by right.
    + apply Forall_fmap, Forall_forall. intros t Ht. rewrite Forall_forall in Hsl. apply (ascending_lookup lex_cmp vs s t); [apply vs_ascending| | |].
      * apply Hv. by left.
      * apply Hv. by right.
      * apply Nat.compare_lt_iff. by apply Hsl.
  - intros x. rewrite list_elem_of_fmap. split.
    + intros (s & -> & Hin). exists s. split; [done|by apply Hv].
    + intros (s & Hin & Hx). exists s. split; [|done]. by rewrite Hx.
Qed.

Lemma domain_values ordinals (P : list N → Prop) : ascending Nat.compare ordinals →
  (∀ s, s ∈ ordinals ↔ ∃ x, vs !! s = Some x ∧ P x) → (∀ x, P x → x ∈ vs) →
  ∃ l, index_values ix ordinals = Some l ∧ length l = length ordinals ∧ ascending lex_cmp l ∧ ∀ x, x ∈ l ↔ P x.
Proof.
  intros Ha Hs HP. destruct (index_values_spec ordinals Ha) as (l & E & Hl & Hasc & Hin).
  { intros s (x & Hx & _)%Hs. by eapply lookup_lt_Some. }
  exists l. split_and!; [done..|]. intros x. rewrite Hin. split.
  - intros (s & (x' & Hx' & Hp)%Hs & Hx). rewrite Hx' in Hx. by injection Hx as <-.
  - intros Hp. destruct (proj1 (list_elem_of_lookup _ _) (HP x Hp)) as [s Hx]. exists s. split; [|done]. apply Hs. by exists x.
Qed.

Lemma forward_ordinals_spec x : ∃ row, forward_ordinals ix x = Some row ∧ ascending Nat.compare row ∧
  ∀ t, t ∈ row ↔ ∃ y, vs !! t = Some y ∧ accepted S x y.
Proof.
  unfold forward_ordinals. destruct (vertex_ordinal_spec x) as (o & -> & Ho). cbn [mbind option_bind]. destruct o as [s|]; [by apply io_forward|].
  exists []. split_and!; [done|constructor|]. intros t. split; [by intros ?%elem_of_nil|]. by intros (y & _ & ? & _).
Qed.
Lemma reverse_ordinals_spec y : ∃ row, reverse_ordinals ix y = Some row ∧ ascending Nat.compare row ∧
  ∀ s, s ∈ row ↔ ∃ x, vs !! s = Some x ∧ accepted S x y.
Proof.
  unfold reverse_ordinals. destruct (vertex_ordinal_spec y) as (o & -> & Ho). cbn [mbind option_bind]. destruct o as [t|]; [by apply io_reversed|].
  exists []. split_and!; [done|constructor|]. intros s. split; [by intros ?%elem_of_nil|]. by intros (x & _ & _ & ? & _).
Qed.

Lemma ordinal_in_spec ordinals (P : list N → Prop) x : ascending Nat.compare ordinals →
  (∀ s, s ∈ ordinals ↔ ∃ x, vs !! s = Some x ∧ P x) → (∀ x, P x → x ∈ vs) →
  ∃ b, ordinal_in ix ordinals x = Some b ∧ (b = true ↔ P x).
Proof.
  intros Ha Hs HP. unfold ordinal_in. destruct (vertex_ordinal_spec x) as (o & -> & Ho). cbn [mbind option_bind].
  destruct o as [s|]; [|exists false; split; [done|]; split; [done|intros ?%HP; done]].
  rewrite found_in_spec; [|done|]; last first.
  { pose proof (io_count _ Hix) as Hc. unfold vertex_count in Hc. apply lookup_lt_Some in Ho. unfold vs in Ho. lia. }
  eexists. split; [done|]. rewrite bool_decide_eq_true, Hs. split; [|intros ?; by exists x]. intros (x' & Hx' & ?). rewrite Ho in Hx'. by injection Hx' as <-.
Qed.

(** The pairs of one source. *)
Definition pairs_of (row : list nat) (x : list N) : list (list N * list N) := (λ t, (x, default [] (vs !! t))) <$> row.

Lemma pairs_of_spec row x : ascending Nat.compare row → (∀ t, t ∈ row ↔ ∃ y, vs !! t = Some y ∧ accepted S x y) →
  mapM (λ target, target_value ← vs !! target; Some (x, target_value)) row = Some (pairs_of row x) ∧
  ascending (pair_cmp lex_cmp lex_cmp) (pairs_of row x) ∧ ∀ p, p ∈ pairs_of row x ↔ p.1 = x ∧ accepted S x p.2.
Proof.
  intros Ha Hin. assert (∀ t, t ∈ row → ∃ y, vs !! t = Some y ∧ accepted S x y) as Ht by (intros t; apply Hin). split_and!.
  - apply mapM_total. intros t Hr. by destruct (Ht t Hr) as (y & -> & _).
  - unfold pairs_of. assert (∀ t, t ∈ row → is_Some (vs !! t)) as Hv by (intros t Hr; destruct (Ht t Hr) as (y & -> & _); by eexists). clear Hin Ht.
    induction Ha as [|s l _ IH Hsl]; [constructor|]. rewrite fmap_cons. constructor; [apply IH; intros t Hl; apply Hv; by right|].
    apply Forall_fmap, Forall_forall. intros t Hl. rewrite Forall_forall in Hsl. unfold pair_cmp. cbn [compose fst snd].
    rewrite (proj2 (cmp_eq lex_cmp x x) eq_refl). cbn [cmp_then].
    destruct (Hv s) as [y Hy]; [by left|]. destruct (Hv t) as [z Hz]; [by right|]. rewrite Hy, Hz.
    apply (ascending_lookup lex_cmp vs s t y z vs_ascending Hy Hz). apply Nat.compare_lt_iff. by apply Hsl.
  - intros p. unfold pairs_of. rewrite list_elem_of_fmap. split.
    + intros (t & -> & (y & Hy & Hacc)%Hin). cbn [fst snd]. by rewrite Hy.
    + intros [E Hacc]. destruct p as [x' y]. cbn [fst snd] in *. subst x'. pose proof Hacc as (_ & Hy & _).
      destruct (proj1 (list_elem_of_lookup _ _) Hy) as [t Hyt]. exists t. change (vs !! t = Some y) in Hyt. rewrite Hyt. split; [done|]. apply Hin. by exists y.
Qed.

(** Every pair once, in order. *)
Lemma accepted_pairs_spec : ∃ l, accepted_pairs ix = Some l ∧ ascending (pair_cmp lex_cmp lex_cmp) l ∧ length l = accepted_pair_count ix ∧
  ∀ p, p ∈ l ↔ accepted S p.1 p.2.
Proof.
  destruct (io_rows _ Hix) as (rows & Ef & Hl). unfold vertex_count in Hl. fold vs in Hl.
  assert (∀ s x, vs !! s = Some x → ∃ row, rows !! s = Some row ∧ csr_row (forward ix) s = Some row ∧ ascending Nat.compare row ∧
    ∀ t, t ∈ row ↔ ∃ y, vs !! t = Some y ∧ accepted S x y) as Hrow.
  { intros s x Hx. destruct (io_forward _ Hix s x Hx) as (row & Hr & ? & ?). destruct (lookup_lt_is_Some_2 rows s) as [row' Hr'].
    { rewrite Hl. by eapply lookup_lt_Some. }
    exists row. split_and!; [|done..]. rewrite Ef, (csr_row_of _ _ _ Hr') in Hr. congruence. }
  assert (∀ k, k <= length vs → ∃ ls, mapM (λ source, source_value ← vs !! source; row ← csr_row (forward ix) source;
      mapM (λ target, target_value ← vs !! target; Some (source_value, target_value)) row) (seq 0 k) = Some ls ∧
    ascending (pair_cmp lex_cmp lex_cmp) (concat ls) ∧ length (concat ls) = length (concat (take k rows)) ∧
    ∀ p, p ∈ concat ls ↔ accepted S p.1 p.2 ∧ place vs p.1 < k) as Hk.
  { induction k as [|k IH]; intros Hle.
    { exists []. split_and!; [done|constructor|done|]. intros p. split; [by intros ?%elem_of_nil|lia]. }
    destruct IH as (ls & E & Ha & Hlen & Hin); [lia|]. destruct (lookup_lt_is_Some_2 vs k) as [x Hx]; [lia|].
    destruct (Hrow k x Hx) as (row & Hr & Hcsr & Harow & Hrin). destruct (pairs_of_spec row x Harow Hrin) as (Hm & Hpa & Hpin).
    exists (ls ++ [pairs_of row x]). rewrite seq_S, mapM_app, E, Nat.add_0_l. cbn [mbind option_bind mapM]. rewrite Hx. cbn [mbind option_bind].
    rewrite Hcsr. cbn [mbind option_bind]. rewrite Hm, concat_app. cbn [mbind option_bind concat]. rewrite app_nil_r. split_and!; [done| | |].
    - apply ascending_join; [done..|]. intros [x1 y1] [x2 y2] [(Hx1 & _) H1]%Hin [E2 _]%Hpin. cbn [fst snd] in *. subst x2.
      unfold pair_cmp. cbn [fst snd]. rewrite (ascending_lookup lex_cmp vs (place vs x1) k x1 x vs_ascending); [done|by apply place_spec|done|done].
    - rewrite (take_S_r _ _ _ Hr), concat_app, !length_app, Hlen. cbn [concat]. rewrite app_nil_r. unfold pairs_of. by rewrite length_fmap.
    - intros [x1 y1]. rewrite elem_of_app, Hin, Hpin. cbn [fst snd]. split.
      + intros [[? ?]|[-> ?]]; [split; [done|lia]|]. split; [done|]. rewrite (place_unique vs k x); [lia|apply vs_ascending|done].
      + intros [Hacc Hp]. destruct (decide (place vs x1 = k)) as [Ek|Hne]; [right|left; split; [done|lia]].
        pose proof Hacc as (Hx1 & _). pose proof (place_spec vs x1 Hx1) as Hp1. rewrite Ek, Hx in Hp1. by injection Hp1 as ->. }
  destruct (Hk (length vs) (Nat.le_refl _)) as (ls & E & Ha & Hlen & Hin). exists (concat ls). unfold accepted_pairs, vertex_count. fold vs.
  rewrite E. cbn [mbind option_bind]. split_and!; [done|done| |].
  - rewrite Hlen, take_ge by lia. unfold accepted_pair_count. by rewrite Ef.
  - intros p. rewrite Hin. split; [by intros [? _]|]. intros Hacc. split; [done|]. pose proof Hacc as (Hx & _).
    eapply lookup_lt_Some. by apply place_spec.
Qed.
End reading.

(** ** Paths and their inverses *)

Lemma hop_flip edges x tok y : hop edges x (flip_token tok) y ↔ hop edges y tok x.
Proof. by destruct tok as [[] b]. Qed.

Lemma path_app edges x w y w' z : path edges x w y → path edges y w' z → path edges x (w ++ w') z.
Proof. induction 1 as [|x tok y' w y Hh _ IH]; intros Hp; [done|]. cbn [app]. econstructor; [done|by apply IH]. Qed.

Lemma path_backwards edges x w y : path edges x w y → path edges y (backwards w) x.
Proof.
  induction 1 as [x|x tok y w z Hh _ IH]; [constructor|]. unfold backwards in *. rewrite fmap_cons, reverse_cons.
  eapply path_app; [done|]. apply (path_cons edges y (flip_token tok) x); [by apply hop_flip|constructor].
Qed.

(** ** The expression and its index *)

(** Building from edges. *)
Lemma index_from_edges_spec A edges : automaton_ok A →
  ∃ S r, from_edges A edges = Some S ∧ summary_of A edges S ∧ index_from_edges A edges = Some r ∧
    match r with
    | inl error => index_error S = Some error
    | inr ix => index_error S = None ∧ ix_summary ix = S ∧ index_ok ix
    end.
Proof.
  intros HA. destruct (from_edges_spec A edges HA) as (S & HS & Hof). pose proof (summary_of_ok A edges S HA Hof) as Hok.
  destruct (from_summary_spec S Hok) as (r & Hr & Hc). exists S, r. unfold index_from_edges. rewrite HS. cbn [mbind option_bind].
  split_and!; [done..|]. destruct r; done.
Qed.

(** The answers of an expression: pairs of vertices joined by a path that
    spells one of its words.  The empty path starts at an edge's end. *)
Definition answers (e : PathExpr) edges (x y : list N) : Prop :=
  ∃ w, lang e w ∧ path edges x w y ∧ (w = [] → edges_touch edges x).

Lemma accepted_answers e A edges S x y : automaton_ok A → (∀ w, automaton_lang A w ↔ lang e w) → summary_of A edges S →
  accepted S x y ↔ answers e edges x y.
Proof. intros HA HL HS. rewrite (accepted_path A edges S x y HA HS). unfold answers. by setoid_rewrite HL. Qed.

(** ** Unions *)

Lemma index_of_union A (edges : list (list GraphEdge)) indexes : automaton_ok A → indexes ≠ [] →
  Forall2 (λ es ix, index_from_edges A es = Some (inr ix)) edges indexes →
  index_merge_all indexes = index_from_edges A (concat edges).
Proof.
  intros HA Hne Hall. assert (Forall2 (summary_of A) edges (ix_summary <$> indexes)) as Hsum.
  { apply Forall2_fmap_r. eapply Forall2_impl; [done|]. intros es ix Hix.
    destruct (index_from_edges_spec A es HA) as (S & r & _ & HS & Hr & Hc). cbv beta in Hix. rewrite Hix in Hr. injection Hr as <-.
    destruct Hc as (_ & E & _). unfold compose. by rewrite E. }
  destruct (merge_all_spec A edges (ix_summary <$> indexes)) as (S & Hm & HS); [by destruct indexes|done|].
  destruct (from_edges_spec A (concat edges) HA) as (S' & Hf & HS').
  unfold index_merge_all, index_from_edges. rewrite Hm, Hf. cbn [mbind option_bind].
  by rewrite (summary_unique A (concat edges) (concat edges) S S').
Qed.

Lemma from_edges_ext A edges edges' : automaton_ok A → (∀ edge, edge ∈ edges ↔ edge ∈ edges') → from_edges A edges = from_edges A edges'.
Proof.
  intros HA He. destruct (from_edges_spec A edges HA) as (S & -> & HS). destruct (from_edges_spec A edges' HA) as (S' & -> & HS').
  f_equal. by apply (summary_unique A edges edges').
Qed.

(** ** Properties *)

(** C11. Compiling an expression with fewer than [u32::MAX] atoms never panics
    and gives a well-formed automaton with one state per atom and a start, that
    accepts exactly the words the expression denotes; it accepts the empty word
    exactly if the expression is nullable. *)
Theorem path_compile e : canonical e → (N.of_nat (atoms e) < u32_max)%N →
  ∃ A, compile e = Some A ∧ automaton_ok A ∧ state_count A = S (atoms e) ∧ accepts_empty A = is_nullable e ∧
    ∀ w, automaton_lang A w ↔ lang e w.
Proof.
  intros Hc Hn. destruct (compile_spec e (canonical_ok e Hc) Hn) as (A & ? & ? & ? & ? & ?). exists A. by split_and!.
Qed.

(** C15. The builders keep expressions canonical, and on canonical expressions
    equality of values is equality up to the laws: concatenation is associative,
    alternatives are commutative, associative and idempotent.  They denote
    concatenation and union. *)
Theorem path_builders a b c : canonical a → canonical b → canonical c →
  canonical (and_then a b) ∧ canonical (or_else a b) ∧
  and_then (and_then a b) c = and_then a (and_then b c) ∧
  or_else a b = or_else b a ∧ or_else (or_else a b) c = or_else a (or_else b c) ∧ or_else a a = a ∧
  (∀ w, lang (and_then a b) w ↔ conc (lang a) (lang b) w) ∧ (∀ w, lang (or_else a b) w ↔ lang a w ∨ lang b w).
Proof.
  intros Ha Hb Hc. destruct (and_then_spec a b Ha Hb) as [Hab Pab]. destruct (and_then_spec b c Hb Hc) as [Hbc Pbc].
  destruct (or_else_spec a b Ha Hb) as [Oab Aab]. destruct (or_else_spec b c Hb Hc) as [Obc Abc].
  split_and!; [done|done| | | | | |].
  - apply canonical_parts; [by apply and_then_spec|by apply and_then_spec|].
    rewrite (proj2 (and_then_spec _ c Hab Hc)), (proj2 (and_then_spec a _ Ha Hbc)), Pab, Pbc. by rewrite app_assoc.
  - apply canonical_arms; [done|by apply or_else_spec|]. intros x. rewrite !or_else_arms by done. tauto.
  - apply canonical_arms; [by apply or_else_spec..|]. intros x. rewrite !or_else_arms by done. tauto.
  - apply canonical_arms; [by apply or_else_spec|done|]. intros x. rewrite or_else_arms by done. tauto.
  - intros w. unfold and_then. rewrite sequence_lang. cbn. apply conc_ext; [done|]. intros w'. apply conc_nil_r.
  - intros w. unfold or_else. rewrite alternative_lang, lang_alt. set_solver.
Qed.

(** C14. Inversion is an involution on canonical expressions, keeps them
    canonical and nullable, and answers the question from the other end: the
    inverse joins two vertices of any graph exactly if the expression joins them
    the other way round. *)
Theorem path_inverse e : canonical e →
  canonical (inverse e) ∧ inverse (inverse e) = e ∧ is_nullable (inverse e) = is_nullable e ∧
  (∀ w, lang (inverse e) w ↔ lang e (backwards w)) ∧
  ∀ edges x y, (∃ w, lang (inverse e) w ∧ path edges x w y) ↔ ∃ w, lang e w ∧ path edges y w x.
Proof.
  intros Hc. destruct (canonical_inverts e Hc) as (H1 & H2 & _ & _ & H3). split_and!; [done..|apply inverse_lang|].
  intros edges x y. split; intros (w & Hw & Hp); exists (backwards w); (split; [|by apply path_backwards]).
  - by apply inverse_lang.
  - apply inverse_lang. by rewrite backwards_twice.
Qed.

(** C10. An index built for an expression answers exactly the pairs joined by
    a path that spells one of its words: membership, the list of all pairs, the
    values reachable from and reaching a value, and those that have a path out,
    a path in or a loop, each in order and without repetition.  No step panics, and building fails only with the capacity error
    of the number of vertices and states. *)
Theorem path_index_correct e edges : canonical e → (N.of_nat (atoms e) < u32_max)%N →
  ∃ A S r, compile e = Some A ∧ from_edges A edges = Some S ∧ index_from_edges A edges = Some r ∧
    match r with
    | inl error => index_error S = Some error
    | inr ix => index_error S = None ∧
        (∀ x y, ∃ b, contains ix x y = Some b ∧ (b = true ↔ answers e edges x y)) ∧
        (∃ l, accepted_pairs ix = Some l ∧ ascending (pair_cmp lex_cmp lex_cmp) l ∧ length l = accepted_pair_count ix ∧
          ∀ p, p ∈ l ↔ answers e edges p.1 p.2) ∧
        (∀ x, ∃ l, reachable_from ix x = Some l ∧ ascending lex_cmp l ∧ ∀ y, y ∈ l ↔ answers e edges x y) ∧
        (∀ y, ∃ l, reaching ix y = Some l ∧ ascending lex_cmp l ∧ ∀ x, x ∈ l ↔ answers e edges x y) ∧
        (∃ l, start_values ix = Some l ∧ ascending lex_cmp l ∧ ∀ x, x ∈ l ↔ ∃ y, answers e edges x y) ∧
        (∃ l, end_values ix = Some l ∧ ascending lex_cmp l ∧ ∀ y, y ∈ l ↔ ∃ x, answers e edges x y) ∧
        (∃ l, diagonal_values ix = Some l ∧ ascending lex_cmp l ∧ ∀ x, x ∈ l ↔ answers e edges x x)
    end.
Proof.
  intros Hc Hn. destruct (compile_spec e (canonical_ok e Hc) Hn) as (A & Hcomp & HA & HL & _).
  destruct (index_from_edges_spec A edges HA) as (S & r & HS & Hof & Hr & Hcase). exists A, S, r. split_and!; [done..|].
  destruct r as [error|ix]; [done|]. destruct Hcase as (Hnone & HE & Hix).
  assert (∀ x y, accepted (ix_summary ix) x y ↔ answers e edges x y) as Hans by (intros x y; rewrite HE; by apply (accepted_answers e A)).
  assert (∀ x y, accepted (ix_summary ix) x y → x ∈ vertices (ix_summary ix) ∧ y ∈ vertices (ix_summary ix)) as Hends by by intros x y (? & ? & _).
  assert (∀ ordinals (P Q : list N → Prop), ascending Nat.compare ordinals ∧ (∀ s, s ∈ ordinals ↔ ∃ x, vertices (ix_summary ix) !! s = Some x ∧ P x) →
    (∀ x, P x → x ∈ vertices (ix_summary ix)) → (∀ x, P x ↔ Q x) →
    ∃ l, index_values ix ordinals = Some l ∧ ascending lex_cmp l ∧ ∀ x, x ∈ l ↔ Q x) as Hdom.
  { intros ordinals P Q [Ha Hin] HP HQ. destruct (domain_values ix Hix ordinals P Ha Hin HP) as (l & Hl & _ & Hasc & Hel).
    exists l. split_and!; [done..|]. intros x. by rewrite Hel. }
  split_and!; [done| | | | |apply (Hdom _ _ _ (io_starts _ Hix))|apply (Hdom _ _ _ (io_ends _ Hix))|apply (Hdom _ _ _ (io_diagonal _ Hix))];
    try (intros x; by setoid_rewrite Hans).
  5: by intros x [y [? _]%Hends]. 5: by intros y [x [_ ?]%Hends]. 5: by intros x [? _]%Hends.
  - intros x y. destruct (index_contains_spec ix Hix x y) as (b & Hb & Hiff). exists b. by rewrite <- Hans.
  - destruct (accepted_pairs_spec ix Hix) as (l & Hl & Ha & Hlen & Hin). exists l. split_and!; [done..|].
    intros p. by rewrite Hin, Hans.
  - intros x. destruct (forward_ordinals_spec ix Hix x) as (row & Hrow & Hspec). unfold reachable_from. rewrite Hrow.
    by apply (Hdom row _ _ Hspec); [intros y [_ ?]%Hends|].
  - intros y. destruct (reverse_ordinals_spec ix Hix y) as (row & Hrow & Hspec). unfold reaching. rewrite Hrow.
    by apply (Hdom row _ _ Hspec); [intros x [? _]%Hends|].
Qed.

(** C12. Merging indexes of one automaton is building the index of all their
    edges at once, whatever their order and repetition; merging nothing and
    merging indexes of different automata fail with their own errors. *)
Theorem path_merge A (edges : list (list GraphEdge)) indexes : automaton_ok A →
  Forall2 (λ es ix, index_from_edges A es = Some (inr ix)) edges indexes →
  (indexes = [] → index_merge_all indexes = Some (inl EmptyInput)) ∧
  (indexes ≠ [] → ∀ edges', (∀ edge, edge ∈ edges' ↔ ∃ es, es ∈ edges ∧ edge ∈ es) →
    index_merge_all indexes = index_from_edges A edges') ∧
  ∀ other, (∃ ix, ix ∈ other ∧ automaton (ix_summary ix) ≠ A) → indexes ≠ [] →
    index_merge_all (indexes ++ other) = Some (inl DifferentAutomata).
Proof.
  intros HA Hall. split_and!; [by intros ->| |].
  - intros Hne edges' He. rewrite (index_of_union A edges indexes HA Hne Hall). unfold index_from_edges.
    rewrite (from_edges_ext A (concat edges) edges' HA); [done|]. intros edge. rewrite He, <- (list_fmap_id edges) at 1.
    by rewrite elem_of_concat_fmap.
  - intros other (ix & Hin & Hd) Hne. destruct Hall as [|es first edges indexes Hf _]; [done|].
    destruct (index_from_edges_spec A es HA) as (S & r & _ & HS & Hr & Hc). cbv beta in Hf. rewrite Hf in Hr. injection Hr as <-.
    destruct Hc as (_ & HE & _). pose proof (so_automaton _ _ _ HS) as EA. rewrite <- HE in EA.
    unfold index_merge_all. cbn [app]. rewrite fmap_cons. unfold merge_all.
    rewrite (proj2 (existsb_exists _ _)); [done|]. exists (ix_summary ix). split; [|by apply bool_decide_eq_true; rewrite EA].
    apply list_elem_of_In. right. apply list_elem_of_fmap. exists ix. split; [done|]. apply elem_of_app. by right.
Qed.
