(* ===== verification/PathConstraint.v ===== *)
(** * PathConstraint: path queries in the query engine

    Source: [triblespace-paths/src/constraint.rs].

    A two-endpoint view of an index obeys the protocol of constraints with the
    meaning "some path joins the two endpoints". *)

From S2P Require Import Prelude Lex BTree Machine Trible VariableSet Liveness Query Constraints TribleIndex TriblePattern TriblePatternSpec.
From S2P Require Import PathExpr PathLanguage PathCompile PathCanonical PathSummary PathIndex PathIndexSpec PathSpec.

Open Scope nat_scope.

Record PathConstraint := mkPath { pc_index : PathIndex; pc_start : RawTerm; pc_end : RawTerm }.

Definition candidates (self : PathConstraint) (variable : VariableId) (b : Binding) : res (option (list nat)) :=
  match is_var (pc_start self) variable, is_var (pc_end self) variable with
  | false, false => Some None
  | true, true => Some (Some (diagonal (pc_index self)))
  | true, false =>
      o ← position_value (pc_end self) b;
      ordinals ← match o with
                 | Some end_ => reverse_ordinals (pc_index self) end_
                 | None => Some (starts (pc_index self))
                 end;
      Some (Some ordinals)
  | false, true =>
      o ← position_value (pc_start self) b;
      ordinals ← match o with
                 | Some start => forward_ordinals (pc_index self) start
                 | None => Some (ends (pc_index self))
                 end;
      Some (Some ordinals)
  end.

Definition is_same_unbound_variable (self : PathConstraint) (b : Binding) : res bool :=
  match pc_start self, pc_end self with
  | Var start, Var end_ =>
      if (start =? end_)%N then o ← bget b start; Some (match o with None => true | Some _ => false end) else Some false
  | _, _ => Some false
  end.

Definition path_variables (self : PathConstraint) : VariableSet :=
  add_to (pc_end self) (add_to (pc_start self) new_empty).

Definition path_estimate (self : PathConstraint) (variable : VariableId) (b : Binding) : res (option N) :=
  o ← candidates self variable b; Some (match o with Some ordinals => Some (N.of_nat (length ordinals)) | None => None end).

(** One row of the frontier. *)
Definition propose_path (self : PathConstraint) (variable : VariableId) (f : Frontier) (b : ProposalBuffer) (row : nat)
    : res ProposalBuffer :=
  binding ← f_row f row;
  o ← candidates self variable binding;
  match o with
  | Some ordinals => values ← index_values (pc_index self) ordinals; pb_extend (pb_open b (Query.as_u32 row)) values
  | None => Some b
  end.
Definition path_propose (self : PathConstraint) (variable : VariableId) (f : Frontier) (b : ProposalBuffer) : res ProposalBuffer :=
  foldM (propose_path self variable f) b (seq 0 (f_len f)).

(** One run of equal parents. *)
Definition confirm_path (self : PathConstraint) (variable : VariableId) (f : Frontier) (row : N) (run : Candidates) : res Candidates :=
  binding ← f_row f (N.to_nat row);
  o ← candidates self variable binding;
  match o with
  | Some ordinals => cd_retain run (ordinal_in (pc_index self) ordinals)
  | None => Some run
  end.
Definition path_confirm (self : PathConstraint) (variable : VariableId) (f : Frontier) (cands : Candidates) : res Candidates :=
  cd_for_each_parent cands (confirm_path self variable f).

Definition nonempty (ordinals : list nat) : bool := match ordinals with [] => false | _ => true end.

Definition path_satisfied (self : PathConstraint) (b : Binding) : res bool :=
  start ← position_value (pc_start self) b;
  end_ ← position_value (pc_end self) b;
  match start, end_ with
  | Some start, Some end_ => contains (pc_index self) start end_
  | Some start, None => ordinals ← forward_ordinals (pc_index self) start; Some (nonempty ordinals)
  | None, Some end_ => ordinals ← reverse_ordinals (pc_index self) end_; Some (nonempty ordinals)
  | None, None =>
      same ← is_same_unbound_variable self b;
      Some (if (same : bool) then nonempty (diagonal (pc_index self)) else negb (accepted_pair_count (pc_index self) =? 0))
  end.

Definition path_constraint (self : PathConstraint) : Constraint :=
  mkConstraint (path_variables self) (path_estimate self) (path_propose self) (path_confirm self) (path_satisfied self)
    (default_influence (path_variables self)).

(** [PathIndex::constraint]. *)
Definition index_constraint (self : PathIndex) (start end_ : RawTerm) : PathConstraint := mkPath self start end_.

#[local] Instance RawTerm_eq_dec : EqDecision RawTerm.
Proof. solve_decision. Defined.

(** ** Lemmas *)

Section constraint.
Context (c : PathConstraint) (Hix : index_ok (pc_index c)).
Context (Hv : Forall value_ok (vertices (ix_summary (pc_index c)))) (Hs : term_ok (pc_start c)) (He : term_ok (pc_end c)).
Local Abbreviation ix := (pc_index c).
Local Abbreviation vs := (vertices (ix_summary ix)).
Local Abbreviation acc := (accepted (ix_summary ix)).

(** Some accepted pair contradicts neither endpoint, and is a loop if the
    endpoints are one term. *)
Definition path_sat (a : asg) : Prop :=
  ∃ x y, acc x y ∧ agrees (pc_start c) a x ∧ agrees (pc_end c) a y ∧ (pc_start c = pc_end c → x = y).
Definition joins (variable : VariableId) : bool := is_var (pc_start c) variable || is_var (pc_end c) variable.

Lemma joins_variables v : (v < 128)%N → is_set (path_variables c) v = joins v.
Proof.
  intros Hvl. unfold path_variables, joins. rewrite !is_set_add_to, is_set_new_empty by done.
  by destruct (is_var (pc_start c) v), (is_var (pc_end c) v).
Qed.

Lemma acc_vertex x y : acc x y → x ∈ vs ∧ y ∈ vs.
Proof. by intros (? & ? & _). Qed.
Lemma acc_value x y : acc x y → value_ok x ∧ value_ok y.
Proof. intros [Hx Hy]%acc_vertex. rewrite Forall_forall in Hv. split; by apply Hv. Qed.
Lemma is_var_true t v : is_var t v = true → t = Var v.
Proof. destruct t as [w|]; [|done]. simpl. by intros ->%N.eqb_eq. Qed.

(** Without a value every vertex agrees. *)
Lemma agrees_none t a x : term_val t a = None → agrees t a x.
Proof. intros E y Hy. congruence. Qed.
Lemma agrees_some t a x y : term_val t a = Some x → agrees t a y ↔ x = y.
Proof. intros E. unfold agrees. rewrite E. split; [intros H; by apply H|by intros -> ? [= ->]]. Qed.

(** The candidates of a variable without a value are what satisfies the constraint. *)
Lemma candidates_spec v b : binding_ok b → (v < 128)%N → bval b v = None → joins v = true →
  ∃ ordinals, candidates c v b = Some (Some ordinals) ∧ ascending Nat.compare ordinals ∧
    (∀ s, s ∈ ordinals ↔ ∃ x, vs !! s = Some x ∧ path_sat (extend (bval b) v x)) ∧
    (∀ x, path_sat (extend (bval b) v x) → x ∈ vs).
Proof.
  intros Hb Hvl Hn Hj. destruct (position_value_spec _ b Hb Hs) as [Ps _]. destruct (position_value_spec _ b Hb He) as [Pe _].
  unfold candidates, joins in *. destruct (is_var (pc_start c) v) eqn:Is, (is_var (pc_end c) v) eqn:Ie; [| | |done].
  - assert (∀ x, path_sat (extend (bval b) v x) ↔ acc x x) as Hsat.
    { intros x. unfold path_sat. setoid_rewrite (agrees_extend _ _ _ _ _ Hn). rewrite Is, Ie.
      apply is_var_true in Is as ->. apply is_var_true in Ie as ->. naive_solver. }
    exists (diagonal ix). pose proof (io_diagonal ix Hix) as [Ha Hin]. split_and!; [done|done| |].
    + intros s. rewrite Hin. by setoid_rewrite Hsat.
    + intros x Hx%Hsat. by apply (acc_vertex x x).
  - assert (pc_start c ≠ pc_end c) as Hne by congruence.
    assert (∀ x, path_sat (extend (bval b) v x) ↔ ∃ y, acc x y ∧ agrees (pc_end c) (bval b) y) as Hsat.
    { intros x. unfold path_sat. setoid_rewrite (agrees_extend _ _ _ _ _ Hn). rewrite Is, Ie. naive_solver. }
    rewrite Pe. cbn [mbind option_bind]. destruct (term_val (pc_end c) (bval b)) as [y|] eqn:Ey.
    + destruct (reverse_ordinals_spec ix Hix y) as (row & -> & Ha & Hin). cbn [mbind option_bind]. exists row.
      setoid_rewrite Hsat. setoid_rewrite (agrees_some _ _ _ _ Ey). split_and!; [done|done| |].
      * intros s. rewrite Hin. naive_solver.
      * intros x (y' & Hxy & _). by apply (acc_vertex x y').
    + exists (starts ix). pose proof (io_starts ix Hix) as [Ha Hin]. setoid_rewrite Hsat. split_and!; [done|done| |].
      * intros s. rewrite Hin. split; intros (x & Hx & y & Hxy); exists x; (split; [done|]); exists y; [|by destruct Hxy].
        split; [done|by apply agrees_none].
      * intros x (y' & Hxy & _). by apply (acc_vertex x y').
  - assert (pc_start c ≠ pc_end c) as Hne by congruence.
    assert (∀ y, path_sat (extend (bval b) v y) ↔ ∃ x, acc x y ∧ agrees (pc_start c) (bval b) x) as Hsat.
    { intros y. unfold path_sat. setoid_rewrite (agrees_extend _ _ _ _ _ Hn). rewrite Is, Ie. naive_solver. }
    rewrite Ps. cbn [mbind option_bind]. destruct (term_val (pc_start c) (bval b)) as [x|] eqn:Ex.
    + destruct (forward_ordinals_spec ix Hix x) as (row & -> & Ha & Hin). cbn [mbind option_bind]. exists row.
      setoid_rewrite Hsat. setoid_rewrite (agrees_some _ _ _ _ Ex). split_and!; [done|done| |].
      * intros s. rewrite Hin. naive_solver.
      * intros y (x' & Hxy & _). by apply (acc_vertex x' y).
    + exists (ends ix). pose proof (io_ends ix Hix) as [Ha Hin]. setoid_rewrite Hsat. split_and!; [done|done| |].
      * intros s. rewrite Hin. split; intros (y & Hy & x & Hxy); exists y; (split; [done|]); exists x; [|by destruct Hxy].
        split; [done|by apply agrees_none].
      * intros y (x' & Hxy & _). by apply (acc_vertex x' y).
Qed.

(** Other variables are none of its business. *)
Lemma joins_none v a x : a v = None → joins v = false → path_sat (extend a v x) ↔ path_sat a.
Proof.
  intros Hn [Is Ie]%orb_false_iff. unfold path_sat. setoid_rewrite (agrees_extend _ _ _ _ _ Hn). by rewrite Is, Ie.
Qed.

Lemma candidates_none v b : joins v = false → candidates c v b = Some None.
Proof. intros [Is Ie]%orb_false_iff. unfold candidates. by rewrite Is, Ie. Qed.

Lemma same_unbound b : binding_ok b → term_val (pc_start c) (bval b) = None →
  is_same_unbound_variable c b = Some (bool_decide (pc_start c = pc_end c)).
Proof.
  intros Hb En. unfold is_same_unbound_variable. destruct (pc_start c) as [s|x] eqn:Es; [|done].
  destruct (pc_end c) as [t|y] eqn:Et; [|done]. destruct (N.eqb_spec s t) as [->|Hne].
  - rewrite bval_get by done. simpl in En. rewrite En. cbn [mbind option_bind]. by rewrite bool_decide_eq_true_2.
  - rewrite bool_decide_eq_false_2; [done|]. congruence.
Qed.

Lemma nonempty_true (l : list nat) : nonempty l = true ↔ ∃ x, x ∈ l.
Proof. rewrite <- nonempty_elem. by destruct l. Qed.

Lemma path_satisfied_spec b : binding_ok b → ∃ r, path_satisfied c b = Some r ∧ (r = true ↔ path_sat (bval b)).
Proof.
  intros Hb. destruct (position_value_spec _ b Hb Hs) as [Ps _]. destruct (position_value_spec _ b Hb He) as [Pe _].
  unfold path_satisfied. rewrite Ps, Pe. cbn [mbind option_bind]. unfold path_sat.
  assert (pc_start c = pc_end c → term_val (pc_start c) (bval b) = term_val (pc_end c) (bval b)) as Hsame by by intros ->.
  destruct (term_val (pc_start c) (bval b)) as [x|] eqn:Ex; destruct (term_val (pc_end c) (bval b)) as [y|] eqn:Ey.
  - destruct (index_contains_spec ix Hix x y) as (r & Hr & Hiff). exists r. split; [done|]. rewrite Hiff.
    setoid_rewrite (agrees_some _ _ _ _ Ex). setoid_rewrite (agrees_some _ _ _ _ Ey). split; [|naive_solver].
    intros Hacc. exists x, y. split_and!; [done..|]. intros E%Hsame. congruence.
  - destruct (forward_ordinals_spec ix Hix x) as (row & -> & _ & Hin). cbn [mbind option_bind]. eexists. split; [done|].
    rewrite nonempty_true. setoid_rewrite Hin. setoid_rewrite (agrees_some _ _ _ _ Ex). split.
    + intros (t & y & _ & Hacc). exists x, y. split_and!; [done|done|by apply agrees_none|intros E%Hsame; done].
    + intros (x' & y & Hacc & <- & _). destruct (acc_vertex _ _ Hacc) as [_ [t Ht]%list_elem_of_lookup]. by exists t, y.
  - destruct (reverse_ordinals_spec ix Hix y) as (row & -> & _ & Hin). cbn [mbind option_bind]. eexists. split; [done|].
    rewrite nonempty_true. setoid_rewrite Hin. setoid_rewrite (agrees_some _ _ _ _ Ey). split.
    + intros (s & x & _ & Hacc). exists x, y. split_and!; [done|by apply agrees_none|done|intros E%Hsame; done].
    + intros (x & y' & Hacc & _ & <- & _). destruct (acc_vertex _ _ Hacc) as [[s Hx]%list_elem_of_lookup _]. by exists s, x.
  - rewrite same_unbound by done. cbn [mbind option_bind]. eexists. split; [done|]. case_bool_decide as E.
    + rewrite nonempty_true. pose proof (io_diagonal ix Hix) as [_ Hin]. setoid_rewrite Hin. split.
      * intros (s & x & _ & Hacc). exists x, x. split_and!; [done|by apply agrees_none..|done].
      * intros (x & y & Hacc & _ & _ & Exy). specialize (Exy E) as <-.
        destruct (acc_vertex _ _ Hacc) as [[s Hx]%list_elem_of_lookup _]. by exists s, x.
    + rewrite negb_true_iff, Nat.eqb_neq, (io_pairs ix Hix). split.
      * intros Hn. destruct (accepted_pairs_spec ix Hix) as (l & _ & _ & _ & Hin). destruct l as [|[x y] l].
        { destruct Hn. intros x y Hacc. specialize (proj2 (Hin (x, y)) Hacc). by intros ?%elem_of_nil. }
        assert (acc x y) as Hacc by (apply (Hin (x, y)); by left). exists x, y. split_and!; [done|by apply agrees_none..|done].
      * intros (x & y & Hacc & _) Hn. by apply (Hn x y).
Qed.

(** The values of the candidates. *)
Lemma candidate_values v b : binding_ok b → (v < 128)%N → bval b v = None → joins v = true →
  ∃ ordinals l, candidates c v b = Some (Some ordinals) ∧ index_values ix ordinals = Some l ∧ length l = length ordinals ∧
    NoDup l ∧ Forall value_ok l ∧ (∀ x, x ∈ l ↔ path_sat (extend (bval b) v x)).
Proof.
  intros Hb Hvl Hn Hj. destruct (candidates_spec v b Hb Hvl Hn Hj) as (ordinals & Hc & Ha & Hin & Hvx).
  destruct (domain_values ix Hix ordinals _ Ha Hin Hvx) as (l & Hl & Hlen & Hasc & Hel). exists ordinals, l.
  split_and!; [done..|by eapply (ascending_NoDup lex_cmp)| |done].
  apply Forall_forall. intros x Hx%Hel%Hvx. rewrite Forall_forall in Hv. by apply Hv.
Qed.

Lemma candidate_in v b : binding_ok b → (v < 128)%N → bval b v = None → joins v = true →
  ∃ ordinals, candidates c v b = Some (Some ordinals) ∧
    ∀ x, ∃ k, ordinal_in ix ordinals x = Some k ∧ (k = true ↔ path_sat (extend (bval b) v x)).
Proof.
  intros Hb Hvl Hn Hj. destruct (candidates_spec v b Hb Hvl Hn Hj) as (ordinals & Hc & Ha & Hin & Hvx). exists ordinals.
  split; [done|]. intros x. by apply (ordinal_in_spec ix Hix ordinals (λ x, path_sat (extend (bval b) v x))).
Qed.

Lemma path_sat_mono a a' : asg_sub a a' → path_sat a' → path_sat a.
Proof.
  assert (∀ t x, asg_sub a a' → agrees t a' x → agrees t a x) as Hag.
  { intros t x Hsub H y Hy. apply H. destruct t; [by apply Hsub|done]. }
  intros Hsub (x & y & Hacc & Hx & Hy & E). exists x, y. split_and!; auto.
Qed.

(** The values proposed for a row. *)
Definition row_list (v : VariableId) (b : Binding) : list RawInline :=
  default [] (o ← candidates c v b; ordinals ← o; index_values ix ordinals).

Lemma row_list_spec v b : binding_ok b → (v < 128)%N → bval b v = None → joins v = true →
  NoDup (row_list v b) ∧ Forall value_ok (row_list v b) ∧ ∀ x, x ∈ row_list v b ↔ path_sat (extend (bval b) v x).
Proof.
  intros Hb Hvl Hn Hj. destruct (candidate_values v b Hb Hvl Hn Hj) as (ordinals & l & Hc & Hl & _ & Hnd & Hvs & Hin).
  unfold row_list. rewrite Hc. cbn [mbind option_bind]. by rewrite Hl.
Qed.

Lemma propose_path_spec v f b row : (v < 128)%N → frontier_ok f → is_set (f_bound f) v = false → joins v = true → pb_ok b → row < f_len f →
  ∃ b', propose_path c v f b row = Some b' ∧ pb_ok b' ∧ items b' = items b ++ ((λ x, (N.of_nat row, x, true)) <$> row_list v (frow f row)).
Proof.
  intros Hvl Hf Hu Hj Hb Hr. destruct (frontier_row f row Hf Hr) as (Erow & Hbd & Hok).
  destruct (candidate_values v (frow f row)) as (ordinals & l & Hc & Hl & _); [done|done|by apply bval_unbound; rewrite ?Hbd|done|].
  destruct (open_row b row) as (Ho1 & Ho2 & Ho3); [by eapply row_u32|done|].
  destruct (pb_extend_spec (pb_open b (Query.as_u32 row)) l Ho1) as (b' & Hx & Hb' & _ & Hi). exists b'.
  unfold propose_path, row_list. rewrite Erow. cbn [mbind option_bind]. rewrite Hc. cbn [mbind option_bind]. rewrite Hl. cbn [mbind option_bind].
  split_and!; [done..|]. by rewrite Hi, Ho2, Ho3.
Qed.

(** Satisfaction as a test. *)
Definition agreesb (t : RawTerm) (a : asg) (x : RawInline) : bool :=
  match term_val t a with Some y => bool_decide (y = x) | None => true end.
Definition path_satb (a : asg) : bool :=
  existsb (λ p : RawInline * RawInline, agreesb (pc_start c) a p.1 && agreesb (pc_end c) a p.2 &&
    bool_decide (pc_start c = pc_end c → p.1 = p.2)) (default [] (accepted_pairs ix)).

Lemma agreesb_true t a x : agreesb t a x = true ↔ agrees t a x.
Proof. unfold agreesb, agrees. destruct (term_val t a); [rewrite bool_decide_eq_true|]; naive_solver. Qed.

Lemma path_satb_true a : path_satb a = true ↔ path_sat a.
Proof.
  destruct (accepted_pairs_spec ix Hix) as (l & Hl & _ & _ & Hin). unfold path_satb. rewrite Hl. cbn [default from_option id].
  rewrite existsb_exists. setoid_rewrite <- list_elem_of_In. setoid_rewrite Hin. unfold path_sat. split.
  - intros ([x y] & Hacc & [[Hx%agreesb_true Hy%agreesb_true]%andb_true_iff E%bool_decide_eq_true]%andb_true_iff). by exists x, y.
  - intros (x & y & Hacc & Hx & Hy & E). exists (x, y). split; [done|]. rewrite !andb_true_iff, !agreesb_true, bool_decide_eq_true. by split_and!.
Qed.

Lemma confirm_path_spec v f p run : (v < 128)%N → frontier_ok f → is_set (f_bound f) v = false → joins v = true →
  N.to_nat p < f_len f → cd_ok run →
  ∃ run', confirm_path c v f p run = Some run' ∧ killed run (λ i, path_satb (extend (fval f (N.to_nat p)) v (cand_value run i))) run'.
Proof.
  intros Hvl Hf Hu Hj Hp Hrun. destruct (frontier_row f (N.to_nat p) Hf Hp) as (Erow & Hbd & Hok).
  assert (bval (frow f (N.to_nat p)) v = None) as Hn by (apply bval_unbound; [done..|by rewrite Hbd]).
  destruct (candidate_in v _ Hok Hvl Hn Hj) as (ordinals & Hc & Hin).
  unfold confirm_path. rewrite Erow. cbn [mbind option_bind]. rewrite Hc. cbn [mbind option_bind].
  apply (cd_retain_spec run _ (λ x, path_satb (extend (fval f (N.to_nat p)) v x)) Hrun).
  intros x _. destruct (Hin x) as (k & -> & Hk). f_equal. apply eq_iff_eq_true. by rewrite path_satb_true.
Qed.

(** A solution that extends a candidate is a solution of the candidate. *)
Lemma extendable_path a v x : extendable (path_variables c) path_sat a v x → path_sat (extend a v x).
Proof. intros (a' & _ & Hsub & _ & Hsat). by eapply path_sat_mono. Qed.

#[global] Instance path_constraint_ok : ConstraintOk (path_constraint c) path_sat (λ _ v, joins v).
Proof.
  split; simpl.
  - unfold path_variables. by do 2 apply wf_add_to.
  - intros s v Hvl Hj. by rewrite joins_variables.
  - intros a a' Hsub _. by apply path_sat_mono.
  - intros b Hb. by apply (satisfied_weak (path_constraint c)), path_satisfied_spec.
  - intros v b Hvl Hb Hu. unfold path_estimate. destruct (joins v) eqn:Hj.
    + destruct (candidates_spec v b) as (ordinals & -> & _); [done..|by apply bval_unbound|done|]. eexists. split; [done|]. split; eauto.
    + rewrite candidates_none by done. exists None. split; [done|]. split; [by intros [??]|done].
  - intros b v x Hvl Hb Hu _ Hj Hsat. apply joins_none; [by apply bval_unbound|done..].
  - intros v f b Hvl Hf Hu Hj Hb. unfold path_propose.
    assert (∀ r, r < f_len f → NoDup (row_list v (frow f r)) ∧ Forall value_ok (row_list v (frow f r)) ∧
      ∀ x, x ∈ row_list v (frow f r) ↔ path_sat (extend (fval f r) v x)) as Hl.
    { intros r Hr. destruct (frontier_row f r Hf Hr) as (_ & Hbd & Hok). apply row_list_spec; [done..| |done].
      by apply bval_unbound; rewrite ?Hbd. }
    destruct (rows_propose f (propose_path c v f) (λ r, row_list v (frow f r)) 0 (f_len f) b) as (b' & new & -> & Hb' & Hi & Htag & Hpr); [done|lia| | |].
    { intros b0 r Hb0 Hr. apply propose_path_spec; [done..|lia]. }
    { intros r Hr. apply Hl. lia. }
    exists b', new. split_and!; [done..|]. intros r Hr. rewrite Hpr, decide_True by lia. destruct (Hl r Hr) as (Hnd & _ & Hin). split; [done| |].
    + by intros x Hx%Hin.
    + intros x Hx. by apply Hin, extendable_path.
  - intros v f cands Hvl Hf Hu Hcs. unfold path_confirm. destruct (joins v) eqn:Hj.
    + destruct (confirm_runs f cands (confirm_path c v f) (λ a x, path_satb (extend a v x)) Hcs) as (c' & -> & Hk).
      { intros p run Hp Hrun _. by apply confirm_path_spec. }
      exists c', (λ i, path_satb (extend (cand_asg f cands i) v (cand_value cands i))). split_and!; [done..|]. intros i Hi _. split.
      * by intros Hsat%path_satb_true.
      * intros Hx. by apply path_satb_true, extendable_path.
    + destruct (confirm_runs f cands (confirm_path c v f) (λ _ _, true) Hcs) as (c' & -> & Hk).
      { intros p run Hp Hrun _. unfold confirm_path. destruct (frontier_row f (N.to_nat p) Hf Hp) as (-> & _ & _).
        cbn [mbind option_bind]. rewrite candidates_none by done. exists run. split; [done|]. by apply killed_refl. }
      exists c', (λ _, true). split_and!; [done..|]. intros i Hi _. split; [|done]. intros _ Hsat.
      destruct (cand_row f cands i Hcs Hi) as (q & _ & Hq & Hasg). rewrite Hasg in *. destruct (frontier_row f (N.to_nat q) Hf Hq) as (_ & Hbd & Hok).
      apply joins_none; [by apply bval_unbound; rewrite ?Hbd|done..].
Qed.

#[global] Instance path_decides : ConstraintDecides (path_constraint c) path_sat.
Proof. apply satisfied_decides, path_satisfied_spec. Qed.

(** The estimate is the number of values proposed for the row. *)
Lemma path_estimate_spec v b : binding_ok b → (v < 128)%N → bval b v = None → joins v = true →
  ∃ l, path_estimate c v b = Some (Some (N.of_nat (length l))) ∧ NoDup l ∧ ∀ x, x ∈ l ↔ path_sat (extend (bval b) v x).
Proof.
  intros Hb Hvl Hn Hj. destruct (candidate_values v b Hb Hvl Hn Hj) as (ordinals & l & Hc & _ & Hlen & Hnd & _ & Hin). exists l.
  unfold path_estimate. rewrite Hc. cbn [mbind option_bind]. by rewrite Hlen.
Qed.
End constraint.

(** The laws under an equivalent meaning. *)
Lemma extendable_ext vs (sat sat' : asg → Prop) a v x : (∀ a, sat a ↔ sat' a) → extendable vs sat a v x ↔ extendable vs sat' a v x.
Proof. intros Hiff. unfold extendable. by setoid_rewrite Hiff. Qed.

Lemma constraint_ok_ext c (sat sat' : asg → Prop) rel : (∀ a, sat a ↔ sat' a) → ConstraintOk c sat rel → ConstraintOk c sat' rel.
Proof.
  intros Hiff [H1 H2 H3 H4 H5 H6 H7 H8]. pose proof (λ vs a v x, extendable_ext vs sat sat' a v x Hiff) as Hext.
  split; [done|done| | |done| | |].
  - intros a a' Hsub Hok. rewrite <- !Hiff. by apply H3.
  - intros b Hb. setoid_rewrite <- Hiff. by apply H4.
  - intros b v x. rewrite <- !Hiff. apply H6.
  - intros v f b Hv Hf Hu Hr Hpb. destruct (H7 v f b Hv Hf Hu Hr Hpb) as (b' & new & ? & ? & ? & ? & Hp). exists b', new.
    split_and!; [done..|]. intros r Hlt. destruct (Hp r Hlt) as [P1 P2 P3]. split; [done| |].
    + intros x. rewrite <- !Hiff. apply P2.
    + intros x. rewrite <- Hext. apply P3.
  - intros v f cands Hv Hf Hu Hcs. destruct (H8 v f cands Hv Hf Hu Hcs) as (c' & k & ? & ? & Hk). exists c', k.
    split_and!; [done..|]. intros i Hi Hl. destruct (Hk i Hi Hl) as [V1 V2]. split; [by rewrite <- !Hiff|by rewrite <- Hext].
Qed.

(** ** Properties *)

(** The endpoints of the edges are the vertices' only source. *)
Lemma vertices_value A edges S : summary_of A edges S → Forall (λ edge, value_ok (ge_source edge) ∧ value_ok (ge_target edge)) edges →
  Forall value_ok (vertices S).
Proof.
  intros HS Hall. rewrite Forall_forall in Hall. apply Forall_forall. intros x Hx. apply (so_vertex _ _ _ HS) in Hx as [[_ Ht]|(arc & Ha & Hx)].
  - destruct Ht as (edge & [H1 H2]%Hall & [->| ->]); done.
  - apply (so_arc _ _ _ HS) in Ha as (t & edge & _ & [H1 H2]%Hall & _ & ->). unfold edge_arc, edge_ends in Hx.
    destruct (is_reverse (tr_step t)); simpl in Hx; destruct Hx as [-> | ->]; done.
Qed.

(** Answers are values. *)
Lemma answers_value e edges x y : Forall (λ edge, value_ok (ge_source edge) ∧ value_ok (ge_target edge)) edges →
  answers e edges x y → value_ok x ∧ value_ok y.
Proof.
  intros Hall (w & _ & Hp & Ht). rewrite Forall_forall in Hall.
  assert (∀ z, edges_touch edges z → value_ok z) as Hv by (intros z (edge & [H1 H2]%Hall & [->| ->]); done).
  assert (∀ x tok y, hop edges x tok y → edges_touch edges x ∧ edges_touch edges y) as Hh.
  { intros x' [[] b] y' H; unfold hop in H; split; (eexists; split; [exact H|]); simpl; tauto. }
  induction Hp as [x|x tok y w z H1 H2 IH]; [split; by apply Hv, Ht|]. apply Hh in H1 as [Hx Hy].
  split; [by apply Hv|]. by apply IH.
Qed.

(** A constraint over the index of an expression. *)
Record path_atom := mkAtom {
  pa_expr : PathExpr;
  pa_edges : list GraphEdge;
  pa_index : PathIndex;
  pa_start : RawTerm;
  pa_end : RawTerm;
}.

Definition atom_constraint (p : path_atom) : Constraint := path_constraint (index_constraint (pa_index p) (pa_start p) (pa_end p)).

(** The index was built for the expression from the edges, whose ends are values. *)
Record atom_ok (p : path_atom) : Prop := {
  pk_expr : canonical (pa_expr p);
  pk_small : (N.of_nat (atoms (pa_expr p)) < u32_max)%N;
  pk_index : ∃ A, compile (pa_expr p) = Some A ∧ index_from_edges A (pa_edges p) = Some (inr (pa_index p));
  pk_values : Forall (λ edge, value_ok (ge_source edge) ∧ value_ok (ge_target edge)) (pa_edges p);
  pk_start : term_ok (pa_start p);
  pk_end : term_ok (pa_end p);
}.

(** Some path joins vertices that contradict neither endpoint. *)
Definition atom_sat (p : path_atom) (a : asg) : Prop :=
  ∃ x y, answers (pa_expr p) (pa_edges p) x y ∧ agrees (pa_start p) a x ∧ agrees (pa_end p) a y ∧ (pa_start p = pa_end p → x = y).
Definition atom_joins (p : path_atom) (v : VariableId) : bool := is_var (pa_start p) v || is_var (pa_end p) v.

Section atom.
Context (p : path_atom) (Hp : atom_ok p).
Local Abbreviation c := (index_constraint (pa_index p) (pa_start p) (pa_end p)).

Lemma atom_index : index_ok (pa_index p) ∧ Forall value_ok (vertices (ix_summary (pa_index p))) ∧ ∀ a, path_sat c a ↔ atom_sat p a.
Proof.
  destruct Hp as [Hc Hn (A & Hcomp & Hidx) Hedges _ _]. destruct (compile_spec _ (canonical_ok _ Hc) Hn) as (A' & Hcomp' & HA & HL & _).
  rewrite Hcomp in Hcomp'. injection Hcomp' as <-. destruct (index_from_edges_spec A (pa_edges p) HA) as (S & r & _ & HS & Hr & Hcase).
  rewrite Hidx in Hr. injection Hr as <-. destruct Hcase as (_ & HE & Hix). split_and!; [done|rewrite HE; by eapply vertices_value|].
  intros a. unfold path_sat, atom_sat. cbn [index_constraint pc_index pc_start pc_end]. rewrite HE.
  by setoid_rewrite (accepted_answers _ A (pa_edges p) S _ _ HA HL HS).
Qed.

Lemma atom_constraint_ok : ConstraintOk (atom_constraint p) (atom_sat p) (λ _ v, atom_joins p v).
Proof.
  destruct atom_index as (Hix & Hvs & Hsat). eapply constraint_ok_ext; [exact Hsat|].
  by apply path_constraint_ok; [| |apply (pk_start p)|apply (pk_end p)].
Qed.

Lemma atom_decides : ConstraintDecides (atom_constraint p) (atom_sat p).
Proof.
  destruct atom_index as (Hix & _ & Hsat). intros b Hb Hr. apply Hsat.
  by apply (path_decides c Hix); [apply (pk_start p)|apply (pk_end p)| |].
Qed.

(** A row gets at most a candidate per vertex. *)
Lemma propose_path_small v f b row b' : (v < 128)%N → frontier_ok f → is_set (f_bound f) v = false → atom_joins p v = true → pb_ok b →
  row < f_len f → propose_path c v f b row = Some b' → pb_ok b' ∧ pb_len b' <= pb_len b + vertex_count (pa_index p).
Proof.
  intros Hv Hf Hu Hj Hb Hr E. destruct atom_index as (Hix & Hvs & _). destruct (frontier_row f row Hf Hr) as (_ & Hbd & Hok).
  assert (bval (frow f row) v = None) as Hn by (apply bval_unbound; [done..|by rewrite Hbd]).
  destruct (propose_path_spec c Hix Hvs (pk_start p Hp) (pk_end p Hp) v f b row) as (b2 & E2 & Hb2 & Hi); [done..|].
  rewrite E in E2. injection E2 as <-. split; [done|]. rewrite <- !items_length, Hi, length_app, length_fmap by done. apply Nat.add_le_mono_l.
  destruct (row_list_spec c Hix Hvs (pk_start p Hp) (pk_end p Hp) v (frow f row)) as (Hnd & _ & Hin); [done..|].
  apply submseteq_length, NoDup_submseteq; [done|]. intros x (x1 & y1 & Hacc & H1 & H2 & _)%Hin.
  apply (agrees_extend _ _ _ _ _ Hn) in H1, H2. apply acc_vertex in Hacc as [Hx Hy]. unfold atom_joins in Hj.
  cbn [index_constraint pc_start pc_end pc_index] in *. destruct (is_var (pa_start p) v); [by subst|]. cbn [orb] in Hj. rewrite Hj in H2. by subst.
Qed.

Lemma atom_small v f b b' : (v < 128)%N → atom_joins p v = true → is_set (f_bound f) v = false → frontier_ok f → pb_ok b →
  Query.propose (atom_constraint p) v f b = Some b' → pb_len b' <= pb_len b + f_len f * vertex_count (pa_index p).
Proof.
  intros Hv Hj Hu Hf Hb. simpl. unfold path_propose. rewrite <- (length_seq (f_len f) 0) at 2.
  assert (∀ r, r ∈ seq 0 (f_len f) → r < f_len f) as Hin by (intros r Hr%elem_of_seq; lia). revert b Hb.
  induction (seq 0 (f_len f)) as [|r l IH]; intros b Hb; cbn [foldM length]; [intros [= <-]; lia|].
  destruct (propose_path c v f b r) as [b1|] eqn:E; [|done]. cbn [mbind option_bind].
  apply propose_path_small in E as [Hb1 Hle]; [|done..|apply Hin; by left]. intros H.
  specialize (IH (λ r Hr, Hin r (list_elem_of_further _ _ _ Hr)) b1 Hb1 H). lia.
Qed.

Lemma atom_variables v : (v < 128)%N → is_set (Query.variables (atom_constraint p)) v = atom_joins p v.
Proof. intros Hv. apply (joins_variables c); [apply (pk_start p Hp)|apply (pk_end p Hp)|done]. Qed.
End atom.

(** C13. A path constraint over the index of an expression obeys the protocol
    of constraints with the meaning "some path of the graph spelling a word of
    the expression joins the endpoints", constants, bound and unbound variables
    and one variable at both ends included: the loops of the graph answer for
    the latter.  It decides every binding, partial ones included, and its
    estimate is the number of values it proposes. *)
Theorem path_constraint_protocol p : atom_ok p →
  let sat := λ a, ∃ x y, answers (pa_expr p) (pa_edges p) x y ∧ agrees (pa_start p) a x ∧ agrees (pa_end p) a y ∧
    (pa_start p = pa_end p → x = y) in
  let c := index_constraint (pa_index p) (pa_start p) (pa_end p) in
  ConstraintOk (path_constraint c) sat (λ _ v, is_var (pa_start p) v || is_var (pa_end p) v) ∧
  ConstraintDecides (path_constraint c) sat ∧
  ∀ v b, binding_ok b → (v < 128)%N → bval b v = None → is_var (pa_start p) v || is_var (pa_end p) v = true →
    ∃ l, path_estimate c v b = Some (Some (N.of_nat (length l))) ∧ NoDup l ∧ ∀ x, x ∈ l ↔ sat (extend (bval b) v x).
Proof.
  intros Hp sat c. split_and!; [by apply atom_constraint_ok|by apply atom_decides|].
  intros v b Hb Hv Hn Hj. destruct (atom_index p Hp) as (Hix & Hvs & Hsat).
  destruct (path_estimate_spec c Hix Hvs (pk_start p Hp) (pk_end p Hp) v b Hb Hv Hn Hj) as (l & Hl & Hnd & Hin).
  exists l. split_and!; [done..|]. intros x. rewrite Hin. apply Hsat.
Qed.
