(* ===== verification/PathJoin.v ===== *)
(** * PathJoin: path constraints among triple patterns

    Source: [triblespace-paths/src/constraint.rs] and
    [triblespace-core/src/query/intersectionconstraint.rs].

    A conjunction of triple patterns over trible sets and path constraints over
    indexes, as a query of the engine. *)

From S2P Require Import Prelude Lex BTree VariableSet OwnerCover ByteTable KeySchema PatchHash Branch Head Algebra.
From S2P Require Import Machine Trible TribleSet Liveness Query Constraints Intersection.
From S2P Require Import TribleIndex TriblePattern TriblePatternSpec.
From S2P Require Import Engine EngineRows EnginePlan EngineSpec EngineSteps EngineSearch QueryJoin.
From S2P Require Import PathExpr PathLanguage PathSummary PathIndex PathIndexSpec PathSpec PathConstraint.

Open Scope nat_scope.

(** The greatest of small numbers is small. *)
Lemma greatest_small {A} (g : A → nat) (width : N) l : Forall (λ x, (width * N.of_nat (g x) < 2 ^ 32)%N) l →
  let m := foldr (λ x, Nat.max (g x)) 0 l in (width * N.of_nat m < 2 ^ 32)%N ∧ ∀ x, x ∈ l → g x <= m.
Proof.
  induction 1 as [|x l Hx _ [IH1 IH2]]; simpl; [split; [lia|by intros x ?%elem_of_nil]|]. split.
  - destruct (Nat.max_spec (g x) (foldr (λ x, Nat.max (g x)) 0 l)) as [[_ ->]|[_ ->]]; done.
  - intros y [->|Hy]%elem_of_cons; [lia|]. specialize (IH2 y Hy). lia.
Qed.

Section join.
Context (sip : list N → N) (rand_hash : N → N) (sort_by_estimate : list (N * nat) → list (N * nat)).
Context (Hsort : ∀ l, sort_by_estimate l ≡ₚ l) (parallel : bool) (threads : nat) (width : N).
Context (ps : list TribleSetConstraint) (qs : list path_atom).
Local Abbreviation K p := (rows sip (in_set p)).

Local Abbreviation children := ((constraint sip rand_hash parallel threads <$> ps) ++ (atom_constraint <$> qs)).
(** [and!(pattern!(…), …, index.constraint(…), …)] *)
Definition path_join : Constraint := Intersection.constraint sort_by_estimate children.

Record path_join_ready : Prop := {
  pj_patterns : join_ready sip rand_hash width ps;
  pj_atoms : Forall atom_ok qs;
  pj_small : Forall (λ q, (width * N.of_nat (vertex_count (pa_index q)) < 2 ^ 32)%N) qs;
}.
Context (Hready : path_join_ready).

Definition jsat (i : nat) : asg → Prop :=
  match ps !! i with
  | Some p => pattern_sat (K p) p
  | None => match qs !! (i - length ps) with Some q => atom_sat q | None => λ _, True end
  end.
Definition jrel (i : nat) (s : VariableSet) (v : VariableId) : bool :=
  match ps !! i with
  | Some p => touches p v
  | None => match qs !! (i - length ps) with Some q => atom_joins q v | None => false end
  end.

Lemma pattern_at i p : ps !! i = Some p → children !! i = Some (constraint sip rand_hash parallel threads p) ∧
  ts_ok sip rand_hash (in_set p) ∧ pattern_ok p ∧ jsat i = pattern_sat (K p) p ∧ (∀ s v, jrel i s v = touches p v).
Proof.
  intros Hi. unfold jsat, jrel. rewrite Hi. rewrite lookup_app_l by (rewrite length_fmap; by eapply lookup_lt_Some).
  rewrite list_lookup_fmap, Hi. destruct (pj_patterns Hready) as [_ H1 H2 _]. rewrite Forall_forall in H1, H2.
  apply list_elem_of_lookup_2 in Hi. split_and!; auto.
Qed.

Lemma atom_at j q : qs !! j = Some q → children !! (length ps + j) = Some (atom_constraint q) ∧
  atom_ok q ∧ jsat (length ps + j) = atom_sat q ∧ (∀ s v, jrel (length ps + j) s v = atom_joins q v).
Proof.
  intros Hj. assert (length ps + j - length ps = j) as Ej by lia. unfold jsat, jrel. rewrite (lookup_ge_None_2 ps), Ej, Hj by lia.
  rewrite lookup_app_r by (rewrite length_fmap; lia). rewrite length_fmap, Ej, list_lookup_fmap, Hj.
  pose proof (pj_atoms Hready) as H. rewrite Forall_forall in H. apply list_elem_of_lookup_2 in Hj. split_and!; auto.
Qed.

Lemma path_child_cases i c : children !! i = Some c →
  (∃ p, ps !! i = Some p ∧ c = constraint sip rand_hash parallel threads p) ∨
  ∃ j q, i = length ps + j ∧ qs !! j = Some q ∧ c = atom_constraint q.
Proof.
  intros [Hi|[Hl Hi]]%lookup_app_Some; rewrite list_lookup_fmap in Hi.
  - left. destruct (ps !! i) as [p|]; [|done]. injection Hi as <-. by exists p.
  - right. rewrite length_fmap in Hl, Hi. destruct (qs !! (i - length ps)) as [q|] eqn:Hq; [|done]. injection Hi as <-.
    exists (i - length ps), q. split_and!; [lia|done..].
Qed.

(** Every child obeys the protocol. *)
Lemma path_children i c : children !! i = Some c → ConstraintOk c (jsat i) (jrel i).
Proof.
  intros [(p & Hi & ->)|(j & q & -> & Hj & ->)]%path_child_cases.
  - unfold jsat, jrel. rewrite Hi. destruct (pattern_at i p Hi) as (_ & Hs & Hok & _). by apply pattern_constraint_ok.
  - destruct (atom_at j q Hj) as (_ & Hok & Es & Er). unfold jsat, jrel.
    rewrite (lookup_ge_None_2 ps), Nat.add_comm, Nat.add_sub, Hj by lia. by apply atom_constraint_ok.
Qed.

#[local] Instance path_join_ok : ConstraintOk path_join (intersection_sat children jsat) (intersection_relevant children jrel).
Proof. apply intersection_protocol; [exact Hsort|apply path_children]. Qed.

Definition mentioned (v : VariableId) : Prop := (∃ p, p ∈ ps ∧ touches p v = true) ∨ ∃ q, q ∈ qs ∧ atom_joins q v = true.

Lemma path_join_variables v : (v < 128)%N → is_set (Query.variables path_join) v = true ↔ mentioned v.
Proof.
  intros Hv. simpl. rewrite intersection_variables by done. unfold mentioned. split.
  - intros (i & c & Hi & Ht). destruct (path_child_cases i c Hi) as [(p & Hp & ->)|(j & q & -> & Hq & ->)].
    + left. destruct (pattern_at i p Hp) as (_ & Hs & Hok & _). simpl in Ht. rewrite pattern_variables in Ht by done.
      exists p. split; [by eapply list_elem_of_lookup_2|done].
    + right. destruct (atom_at j q Hq) as (_ & Hok & _). rewrite atom_variables in Ht by done.
      exists q. split; [by eapply list_elem_of_lookup_2|done].
  - intros [(p & [i Hi]%list_elem_of_lookup & Ht)|(q & [j Hj]%list_elem_of_lookup & Ht)].
    + destruct (pattern_at i p Hi) as (Hc & _ & Hok & _). eexists i, _. split; [done|]. simpl. by rewrite pattern_variables.
    + destruct (atom_at j q Hj) as (Hc & Hok & _). eexists _, _. split; [done|]. by rewrite atom_variables.
Qed.

Lemma path_join_query_ready : query_ready path_join (intersection_relevant children jrel) width.
Proof.
  pose proof (pj_patterns Hready) as Hps. split; [apply (jr_width _ _ _ _ Hps)| |].
  - intros s v Hv [(p & [i Hi]%list_elem_of_lookup & Ht)|(q & [j Hj]%list_elem_of_lookup & Ht)]%path_join_variables _; [| |done];
      apply intersection_relevant_spec.
    + destruct (pattern_at i p Hi) as (Hc & _ & _ & _ & Er). exists i. split; [by eapply lookup_lt_Some|by rewrite Er].
    + destruct (atom_at j q Hj) as (Hc & _ & _ & Er). exists (length ps + j). split; [by eapply lookup_lt_Some|by rewrite Er].
  - intros v f b' Hv Hvars Hu Hf Hle Hp. destruct (join_sizes sip rand_hash width ps Hps) as [H1 L1].
    destruct (greatest_small (λ q, vertex_count (pa_index q)) width qs (pj_small Hready)) as [H2 L2].
    set (m1 := foldr (λ p, Nat.max (size (K p))) 0 ps) in *.
    set (m2 := foldr (λ q, Nat.max (vertex_count (pa_index q))) 0 qs) in *.
    assert (∀ i c, children !! i = Some c → ProposeSmall c (Nat.max m1 m2)) as Hsmall.
    { intros i c [(p & Hi & ->)|(j & q & -> & Hj & ->)]%path_child_cases w g b b2 Hw Hgv Hgu Hg Hb Hgp.
      - destruct (pattern_at i p Hi) as (_ & Hs & Hok & _). apply list_elem_of_lookup_2, L1 in Hi.
        etransitivity; [by eapply pattern_small|]. apply Nat.add_le_mono_l, Nat.mul_le_mono_l. lia.
      - destruct (atom_at j q Hj) as (_ & Hok & _). apply list_elem_of_lookup_2, L2 in Hj.
        rewrite atom_variables in Hgv by done.
        etransitivity; [by eapply (atom_small q Hok w)|]. apply Nat.add_le_mono_l, Nat.mul_le_mono_l. lia. }
    pose proof (intersection_small sort_by_estimate Hsort children jsat jrel (λ _, false)
      (λ i c Hc, constraint_filter _ _ _ (path_children i c Hc)) (λ i c Hc _, path_children i c Hc) ltac:(done)
      (Nat.max m1 m2) (λ i c Hc _, Hsmall i c Hc) v f pb_new b' Hv Hvars Hu Hf pb_new_ok Hp) as Hlen.
    simpl in Hlen. assert ((width * N.of_nat (Nat.max m1 m2) < 2 ^ 32)%N) by (destruct (Nat.max_spec m1 m2) as [[_ ->]|[_ ->]]; done). nia.
Qed.

(** The rows of the answer. *)
Definition joined (a : asg) : Prop :=
  (∀ p, p ∈ ps → ∃ k, k ∈ K p ∧ ∀ q, agrees (term_at p q) a (value_at q k)) ∧
  ∀ q, q ∈ qs → ∃ x y, answers (pa_expr q) (pa_edges q) x y ∧ term_val (pa_start q) a = Some x ∧ term_val (pa_end q) a = Some y.

Lemma path_join_sat a : (∀ v, is_Some (a v) ↔ (v < 128)%N ∧ mentioned v) → intersection_sat children jsat a ↔ joined a.
Proof.
  intros Hdom.
  assert (∀ q t, q ∈ qs → (t = pa_start q ∨ t = pa_end q) → is_Some (term_val t a)) as Hend.
  { intros q t Hq Ht. destruct t as [v|x]; [|by eexists]. pose proof (pj_atoms Hready) as Hok. rewrite Forall_forall in Hok.
    destruct (Hok q Hq) as [_ _ _ _ Hs He]. simpl. apply Hdom. split; [by destruct Ht as [E|E]; rewrite <- E in *|]. right. exists q. split; [done|].
    unfold atom_joins. destruct Ht as [<- | <-]; simpl; by rewrite N.eqb_refl, ?orb_true_r. }
  assert (∀ q, q ∈ qs → atom_sat q a ↔ ∃ x y, answers (pa_expr q) (pa_edges q) x y ∧ term_val (pa_start q) a = Some x ∧ term_val (pa_end q) a = Some y) as Hatom.
  { intros q Hq. destruct (Hend q (pa_start q) Hq (or_introl eq_refl)) as [x Hx], (Hend q (pa_end q) Hq (or_intror eq_refl)) as [y Hy].
    unfold atom_sat. setoid_rewrite (agrees_some _ _ _ _ Hx). setoid_rewrite (agrees_some _ _ _ _ Hy). rewrite Hx, Hy. split.
    - intros (x' & y' & Ha & <- & <- & _). by exists x, y.
    - intros (x' & y' & Ha & [= <-] & [= <-]). exists x, y. split_and!; [done..|]. intros E. rewrite E in Hx. congruence. }
  unfold intersection_sat, joined. rewrite length_app, !length_fmap. split.
  - intros Hsat. split.
    + intros p [i Hi]%list_elem_of_lookup. specialize (Hsat i). unfold jsat in Hsat. rewrite Hi in Hsat. apply Hsat.
      { apply lookup_lt_Some in Hi. lia. }
      intros t. destruct (term_at p t) as [w|x] eqn:Et; [|by eexists]. simpl. destruct (pattern_at i p Hi) as (_ & _ & Hok & _).
      specialize (Hok t). rewrite Et in Hok. apply Hdom. split; [done|]. left. exists p. split; [by eapply list_elem_of_lookup_2|].
      unfold touches. destruct t; simpl in Et; rewrite Et; simpl; by rewrite N.eqb_refl, ?orb_true_r.
    + intros q Hq. apply Hatom; [done|]. apply list_elem_of_lookup in Hq as [j Hj]. destruct (atom_at j q Hj) as (_ & _ & <- & _).
      apply Hsat. apply lookup_lt_Some in Hj. lia.
  - intros [Hps Hqs] i Hi. unfold jsat. destruct (ps !! i) as [p|] eqn:Ep; [intros _; by apply Hps, list_elem_of_lookup_2 with i|].
    destruct (qs !! (i - length ps)) as [q|] eqn:Eq; [|done]. apply list_elem_of_lookup_2 in Eq. by apply Hatom, Hqs.
Qed.

(** Rows hold values. *)
Lemma joined_asg_ok a : (∀ v, is_Some (a v) ↔ (v < 128)%N ∧ mentioned v) → joined a → asg_ok a.
Proof.
  intros Hdom [Hps Hqs] v x Hx. destruct (proj1 (Hdom v)) as (Hv & [(p & Hp & Ht)|(q & Hq & Hj)]); [by eexists| |].
  - destruct (Hps p Hp) as (k & Hk & Hsp). apply list_elem_of_lookup in Hp as [i Hi]. destruct (pattern_at i p Hi) as (_ & Hs & _).
    destruct (touches_at p v Ht) as [t Htv]. rewrite (Hsp t x); [by eapply value_at_ok, rows_ok|]. by apply is_var_true in Htv as ->.
  - destruct (Hqs q Hq) as (y & z & Ha & Hy & Hz). pose proof (pj_atoms Hready) as Hok. rewrite Forall_forall in Hok.
    pose proof (answers_value _ _ _ _ (pk_values q (Hok q Hq)) Ha) as [Vy Vz].
    unfold atom_joins in Hj. apply orb_true_iff in Hj as [E%is_var_true|E%is_var_true];
      [rewrite E in Hy|rewrite E in Hz]; simpl in *; congruence.
Qed.
End join.

(** C2. A conjunction of triple patterns over trible sets and path constraints
    over indexes of expressions is answered exactly: iterating the query hands
    out, whatever the frontier width, the sharing of buffers, the number of
    threads and the projection, the assignments of the mentioned variables under
    which every pattern spells a row of its set and every path constraint has a
    path of its graph, spelling a word of its expression, between its endpoints;
    each once, and then nothing. *)
Theorem path_query_complete sip rand_hash sort_by_estimate parallel threads width ps qs sole_buffer sole_matrices :
  (∀ l, sort_by_estimate l ≡ₚ l) → path_join_ready sip rand_hash width ps qs →
  let c := path_join sip rand_hash sort_by_estimate parallel threads ps qs in
  ∃ q0 q bs, new c = Some q0 ∧ with_frontier_width q0 width = Some q ∧
    (∀ R (post : Binding → option R), ∃ n, ∀ fuel, n <= fuel →
      yields no_hint (next c sole_buffer sole_matrices post fuel) q (omap post bs)) ∧
    NoDup (bval <$> bs) ∧
    ∀ a, a ∈ bval <$> bs ↔
      (∀ v, is_Some (a v) ↔ (v < 128)%N ∧ ((∃ p, p ∈ ps ∧ touches p v = true) ∨ ∃ q, q ∈ qs ∧ atom_joins q v = true)) ∧
      (∀ p, p ∈ ps → ∃ k, k ∈ rows sip (in_set p) ∧ ∀ q, agrees (term_at p q) a (value_at q k)) ∧
      ∀ q, q ∈ qs → ∃ x y w, lang (pa_expr q) w ∧ path (pa_edges q) x w y ∧ (w = [] → edges_touch (pa_edges q) x) ∧
        term_val (pa_start q) a = Some x ∧ term_val (pa_end q) a = Some y.
Proof.
  intros Hsort Hready c. pose proof (path_join_ok sip rand_hash sort_by_estimate Hsort parallel threads width ps qs Hready) as Hok.
  pose proof (path_join_query_ready sip rand_hash sort_by_estimate Hsort parallel threads width ps qs Hready) as Hqr.
  pose proof (path_join_variables sip rand_hash sort_by_estimate parallel threads width ps qs Hready) as Hvars.
  destruct (new_pending c _ _ width Hqr) as (q0 & q & roots & Hn & Hw & Hp & Hall).
  destruct (pending_answers c _ _ width Hqr sole_buffer sole_matrices q roots Hp) as (bs & Hem & Han).
  exists q0, q, bs. split_and!; [done|done|intros; by apply emits_yields|apply Han|]. intros a.
  rewrite (answers_solutions _ _ _ _ Han Hall).
  assert ((∀ v, is_Some (a v) ↔ (v < 128)%N ∧ is_set (Query.variables c) v = true) ↔
    ∀ v, is_Some (a v) ↔ (v < 128)%N ∧ mentioned ps qs v) as Hdom.
  { split; intros Hd v; rewrite Hd; split; intros [Hv Hvv]; (split; [done|]); by apply Hvars. }
  transitivity ((∀ v, is_Some (a v) ↔ (v < 128)%N ∧ mentioned ps qs v) ∧ joined sip ps qs a).
  - split.
    + intros (_ & Hd & Hs). pose proof (proj1 Hdom Hd) as Hd'. split; [done|]. by eapply path_join_sat.
    + intros [Hd Hj]. split_and!; [by eapply joined_asg_ok|exact (proj2 Hdom Hd)|]. by eapply path_join_sat.
  - unfold joined, answers. apply and_iff_compat_l, and_iff_compat_l. apply forall_proper. intros r. naive_solver.
Qed.
