(* ===== verification/PathExamples.v ===== *)
(** * PathExamples: a graph of four vertices

    The witnesses of the path query files: an expression with every operator
    but a star, its index over a graph with a loop, the same index from two
    halves, and a query that joins it with a triple pattern. *)

From S2P Require Import Prelude Lex BTree VariableSet OwnerCover ByteTable KeySchema PatchHash Branch Head Algebra.
From S2P Require Import Machine Trible TribleSet Examples TribleExamples.
From S2P Require Import Liveness Query Constraints Intersection ConstraintExamples TribleIndex TriblePattern TriblePatternSpec PatternExamples.
From S2P Require Import Engine EngineSearch QueryJoin EngineExamples MembershipExamples.
From S2P Require Import PathExpr PathLanguage PathCompile PathCanonical PathSummary PathIndex PathIndexSpec PathSpec PathConstraint PathJoin.

Open Scope nat_scope.

(** ** An expression and a graph *)

Definition ex_attr (b : N) : list N := replicate 15 0%N ++ [b].
Definition ex_hop (x a y : N) : GraphEdge := mkEdge (ex_value x) (ex_attr a) (ex_value y).

(** [(1/2? | ^3)+], with anything but 2 in place of 3 *)
Definition ex_one : PathExpr := from_step (Forward (ex_attr 1)).
Definition ex_two : PathExpr := optional (from_step (Forward (ex_attr 2))).
Definition ex_back : PathExpr := from_step (ReverseExcept [ex_attr 2; ex_attr 1; ex_attr 2]).
Definition ex_path : PathExpr := plus (or_else (and_then ex_one ex_two) ex_back).

(** 1 goes to 2, on by 2 to 3, and 4 goes to 3 by 9. *)
Definition ex_graph : list GraphEdge := [ex_hop 1 1 2; ex_hop 2 2 3; ex_hop 4 9 3].

Lemma ex_one_canonical : canonical ex_one. Proof. done. Qed.
Lemma ex_two_canonical : canonical ex_two. Proof. done. Qed.
Lemma ex_back_canonical : canonical ex_back. Proof. apply canonicalize_canonical. Qed.
Lemma ex_path_canonical : canonical ex_path.
Proof. apply (or_else_spec _ _ (proj1 (and_then_spec _ _ ex_one_canonical ex_two_canonical)) ex_back_canonical). Qed.

Definition ex_automaton : Automaton := default (mkAutomaton 0 [] [] []) (compile ex_path).
Definition ex_empty_summary : PathSummary := mkSummary ex_automaton [] [].
Definition ex_index_of (edges : list GraphEdge) : PathIndex :=
  match index_from_edges ex_automaton edges with
  | Some (inr ix) => ix
  | _ => mkIndex ex_empty_summary (mkCsr [] []) (mkCsr [] []) [] [] []
  end.
Definition ex_index : PathIndex := ex_index_of ex_graph.

(** ** Witnesses *)

Lemma path_compile_witness : compile ex_path = Some ex_automaton ∧ automaton_ok ex_automaton ∧ state_count ex_automaton = 4 ∧
  accepts_empty ex_automaton = false.
Proof.
  destruct (path_compile ex_path ex_path_canonical) as (A & HA & Hok & Hn & He & _); [vm_compute; reflexivity|].
  assert (E : ex_automaton = A) by (unfold ex_automaton; rewrite HA; reflexivity). rewrite E.
  exact (conj HA (conj Hok (conj Hn He))).
Defined.

Lemma path_builders_witness :
  and_then (and_then ex_one ex_two) ex_back = and_then ex_one (and_then ex_two ex_back) ∧
  or_else ex_back ex_one = or_else ex_one ex_back ∧ or_else ex_one ex_one = ex_one ∧
  or_else ex_one ex_back ≠ ex_one.
Proof.
  destruct (path_builders ex_one ex_two ex_back ex_one_canonical ex_two_canonical ex_back_canonical) as (_ & _ & H1 & _).
  destruct (path_builders ex_back ex_one ex_two ex_back_canonical ex_one_canonical ex_two_canonical) as (_ & _ & _ & H2 & _).
  destruct (path_builders ex_one ex_two ex_back ex_one_canonical ex_two_canonical ex_back_canonical) as (_ & _ & _ & _ & _ & H3 & _).
  split; [exact H1|]. split; [exact H2|]. split; [exact H3|]. vm_compute. discriminate.
Defined.

Lemma path_inverse_witness : inverse (inverse ex_path) = ex_path ∧ inverse ex_path ≠ ex_path ∧
  inverse (and_then ex_one ex_back) = and_then (from_step (ForwardExcept [ex_attr 1; ex_attr 2])) (from_step (Reverse (ex_attr 1))).
Proof.
  destruct (path_inverse ex_path ex_path_canonical) as (_ & H & _). split; [exact H|]. split; [vm_compute; discriminate|vm_compute; reflexivity].
Defined.

(** From 1 to 4: by 1, by 2, and back by 9. *)
Lemma path_index_correct_witness :
  contains ex_index (ex_value 1) (ex_value 4) = Some true ∧ answers ex_path ex_graph (ex_value 1) (ex_value 4) ∧
  contains ex_index (ex_value 2) (ex_value 3) = Some false ∧ ¬ answers ex_path ex_graph (ex_value 2) (ex_value 3) ∧
  reachable_from ex_index (ex_value 1) = Some [ex_value 2; ex_value 3; ex_value 4].
Proof.
  destruct (path_index_correct ex_path ex_graph ex_path_canonical) as (A & S & r & HA & _ & Hr & Hcase); [vm_compute; reflexivity|].
  assert (EA : ex_automaton = A) by (unfold ex_automaton; rewrite HA; reflexivity). subst A.
  assert (Er : index_from_edges ex_automaton ex_graph = Some (inr ex_index)) by (vm_compute; reflexivity).
  assert (Hinj : ∀ x y : PathError + PathIndex, Some x = Some y → x = y) by congruence.
  specialize (Hinj _ _ (eq_trans (eq_sym Hr) Er)). subst r. destruct Hcase as (_ & Hc & _).
  assert (C1 : contains ex_index (ex_value 1) (ex_value 4) = Some true) by (vm_compute; reflexivity).
  assert (C2 : contains ex_index (ex_value 2) (ex_value 3) = Some false) by (vm_compute; reflexivity).
  split; [exact C1|]. split.
  { destruct (Hc (ex_value 1) (ex_value 4)) as (b & Hb & Hiff). apply Hiff. rewrite C1 in Hb. congruence. }
  split; [exact C2|]. split; [|vm_compute; reflexivity].
  intros Hans. destruct (Hc (ex_value 2) (ex_value 3)) as (b & Hb & Hiff). apply Hiff in Hans. rewrite C2 in Hb. congruence.
Defined.

(** Either half, in either order, one with an edge of the other. *)
Definition ex_halves : list (list GraphEdge) := [[ex_hop 4 9 3; ex_hop 1 1 2]; [ex_hop 1 1 2; ex_hop 2 2 3]].
Definition ex_pieces : list PathIndex := ex_index_of <$> ex_halves.

Lemma ex_automaton_ok : automaton_ok ex_automaton.
Proof.
  destruct (compile_spec ex_path (canonical_ok _ ex_path_canonical)) as (A & HA & Hok & _); [vm_compute; reflexivity|].
  unfold ex_automaton. by rewrite HA.
Qed.

Lemma path_merge_witness :
  index_merge_all ex_pieces = Some (inr ex_index) ∧ index_merge_all [] = Some (inl EmptyInput) ∧
  index_merge_all (ex_pieces ++ [mkIndex (mkSummary (mkAutomaton 1 [0] [] []) [] []) (mkCsr [] []) (mkCsr [] []) [] [] []]) =
    Some (inl DifferentAutomata).
Proof.
  assert (Hall : Forall2 (λ es ix, index_from_edges ex_automaton es = Some (inr ix)) ex_halves ex_pieces).
  { constructor; [vm_compute; reflexivity|]. constructor; [vm_compute; reflexivity|constructor]. }
  destruct (path_merge ex_automaton ex_halves ex_pieces ex_automaton_ok Hall) as (_ & Hm & Hd).
  assert (Hne : ex_pieces ≠ []) by (unfold ex_pieces, ex_halves; discriminate). split.
  - rewrite (Hm Hne ex_graph); [vm_compute; reflexivity|]. intros edge. unfold ex_graph, ex_halves.
    generalize (ex_hop 1 1 2) (ex_hop 2 2 3) (ex_hop 4 9 3). clear. intros x y z. split.
    + rewrite !elem_of_cons, elem_of_nil. intros [->|[->|[->|[]]]]; [exists [z; x]|exists [x; y]|exists [z; x]]; set_solver.
    + intros (es & Hes & Hin). rewrite !elem_of_cons, elem_of_nil in Hes. destruct Hes as [->|[->|[]]]; set_solver.
  - split; [reflexivity|]. apply Hd; [|exact Hne]. eexists. split; [left; reflexivity|]. vm_compute. discriminate.
Defined.

(** ** Queries *)

(** Paths between the values of [ex_s]: from 7 to 20 and 90, and from 90 to 4. *)
Definition ex_links : list GraphEdge := [ex_hop 7 1 20; ex_hop 20 2 90; ex_hop 4 9 90; ex_hop 5 9 5].
Definition ex_atom (start end_ : RawTerm) : path_atom := mkAtom ex_path ex_links (ex_index_of ex_links) start end_.

Lemma ex_atom_ok start end_ : term_ok start → term_ok end_ → atom_ok (ex_atom start end_).
Proof.
  intros Hs He. split; [apply ex_path_canonical|vm_compute; reflexivity| | |done|done].
  - exists ex_automaton. split; vm_compute; reflexivity.
  - unfold ex_atom, ex_links. cbn [pa_edges]. repeat (apply Forall_cons; split; [split; by apply ex_value_ok|]). constructor.
Qed.

(** A loop at 5, by going back along any edge but 1 and 2. *)
Lemma path_constraint_protocol_witness :
  ConstraintDecides (atom_constraint (ex_atom (Var 0) (Var 0))) (λ a, ∃ x y, answers ex_path ex_links x y ∧
    agrees (Var 0) a x ∧ agrees (Var 0) a y ∧ (Var 0 = Var 0 → x = y)) ∧
  answer (atom_constraint (ex_atom (Var 0) (Var 0))) [0%N] = Some [[5%N]] ∧
  answer (atom_constraint (ex_atom (Const (ex_value 7)) (Var 0))) [0%N] = Some [[4%N]; [20%N]; [90%N]] ∧
  answer (atom_constraint (ex_atom (Var 0) (Const (ex_value 7)))) [0%N] = Some [].
Proof.
  split; [|split; [vm_compute; reflexivity|split; vm_compute; reflexivity]].
  apply (path_constraint_protocol (ex_atom (Var 0) (Var 0))). by apply ex_atom_ok.
Defined.

(** [and!(pattern(?0, 2, ?1), pattern(?0, 2, ?2), index.constraint(?1, ?2))] *)
Definition ex_reaching : Constraint := path_join ex_sip64 ex_rand ex_sort false 1 ex_patterns [ex_atom (Var 1) (Var 2)].

Lemma path_query_complete_witness :
  (∃ q0 q bs, Engine.new ex_reaching = Some q0 ∧ with_frontier_width q0 4 = Some q ∧
    (∃ n, ∀ fuel, n <= fuel → yields no_hint (next ex_reaching ex_sole ex_sole Some fuel) q (omap Some bs))) ∧
  answer ex_reaching [1%N; 2%N] = Some [[7; 90]; [7; 20]]%N.
Proof.
  split; [|vm_compute; reflexivity].
  destruct (path_query_complete ex_sip64 ex_rand ex_sort false 1 4 ex_patterns [ex_atom (Var 1) (Var 2)] ex_sole ex_sole ex_sort_perm)
    as (q0 & q & bs & Hn & Hw & Hy & _).
  - split; [by apply ex_join_ready|by repeat constructor; apply ex_atom_ok|]. by repeat constructor.
  - exists q0, q, bs. split; [exact Hn|]. split; [exact Hw|apply Hy].
Defined.
